(* ===== verification/_CoqProject ===== *)
-Q . S2P
Prelude.v
TimerWheel.v
TimerWheelInv.v
TimerWheelFire.v
TimerWheelTick.v
TimerWheelSpec.v
TimerWheelCorrect.v
FastQueue.v
FastQueueCorrect.v
ConcurrentQueues.v
MpmcCorrect.v
SpscCorrect.v
WaitList.v
WaitListCorrect.v
WaitProtocol.v
WaitProtocolInv.v
WaitProtocolSteps.v
WaitProtocolNotify.v
WaitProtocolCorrect.v
SyncPrimitives.v
SyncPrimitivesCorrect.v
SocketHeader.v
SocketHeaderCorrect.v
DynamicBuffer.v
DynamicBufferCorrect.v
SocketIO.v
SocketIOCorrect.v
SocketWriteCorrect.v
SocketBSD.v
SocketBSDCorrect.v
CancelTree.v
CancelTreeShape.v
CancelTreeInv.v
CancelTreeSteps.v
CancelTreeRun.v
CancelTreeCorrect.v
QSBR.v
QSBRCorrect.v
TaggedPtr.v
HazardPointers.v
HazardPointersCorrect.v
SegmentedQueue.v
SegmentedQueueInv.v
SegmentedQueueSteps.v
SegmentedQueueEnq.v
SegmentedQueueDeq.v
SegmentedQueueCorrect.v
IntrusiveMPSC.v
IntrusiveMPSCCorrect.v
Select.v
SelectInv.v
SelectSteps.v
SelectCorrect.v
AsyncBarrier.v
AsyncBarrierCorrect.v
AsyncMutex.v
AsyncMutexCorrect.v
ConcurrentVector.v
ConcurrentVectorMem.v
ConcurrentVectorInv.v
ConcurrentVectorPush.v
ConcurrentVectorCorrect.v
ConcurrentVectorSeq.v
HappyEyeballs.v
HappyEyeballsInv.v
HappyEyeballsCorrect.v
Resolver.v
ResolverCorrect.v
SocketLifetime.v
SocketLifetimeCorrect.v
SocketReclaim.v
Worker.v
WorkerCorrect.v
FramePool.v
FramePoolCorrect.v
Coroutine.v
CoroutineInv.v
CoroutineCorrect.v
UringRecv.v
UringRecvCorrect.v
