(* ===== verification/Prelude.v ===== *)
(** * uvent: a verification library for the coroutine runtime

    uvent ([src/]) is an asynchronous runtime for C++ coroutines.  Worker threads
    ([system/Thread]) each run an event loop: a poller (epoll on Linux) and a timer
    wheel say which coroutines can go on, queues carry them between threads, and the
    synchronisation primitives and sockets suspend them and hand them back to the
    queues.  The build modelled is the default one, with [UVENT_ENABLE_REUSEADDR] on:
    a coroutine is resumed only by the worker it belongs to.

    ** How the parts depend on each other

    - A worker asks its [TimerWheel] for the time to sleep, waits in the poller, ticks
      the wheel and resumes the coroutines its queues hold.
    - The primitives of [sync/] keep suspended coroutines in a [WaitList]; a wake takes
      waiters off the list, claims them and queues their coroutines.  The loop that
      tries, suspends and tries again is shared ([Wait.h]).
    - Channels are built from a concurrent queue and two wait lists.
    - Tasks form a tree of [CancelState]s; a cancellation walks down the tree and
      reaches the worker of a running task through an intrusive queue of kicks.
    - A socket has a [SocketHeader] in which the coroutine and the poller hand wake-ups
      over, and loops over the system calls that fill a [DynamicBuffer] or empty a
      caller's buffer.

    ** How the model is built

    Addresses are [ptr]; objects live in finite maps from addresses, so that pointers
    into lists, back-pointers and deletions are modelled as written.  A function that
    C++ may leave undefined returns an [outcome]: [Done], [UB] (a null or dangling
    pointer, an index out of bounds, a read of raw storage) or [OutOfFuel] (a loop that
    has not ended within its fuel).  Theorems say [Done]: they exclude both others.
    Machine integers are [Z] with [wrap w] written out where the source wraps.  Code
    that other threads can interleave with is a machine whose steps are single atomic
    accesses, or one section under a lock; memory is sequentially consistent.

    ** Files and what they model

    This file holds what all others share: outcomes, machine integers, the automation
    and generic lemmas on lists, maps and counting.

    - [TimerWheel] models [utils/timer] (Timer.h, TimerWheel.h, Timer.cpp,
      TimerWheel.cpp): timers in a heap, buckets with swap-and-pop, the queued
      operations, [tick], [addTimer], [updateTimer], the cancellations and
      [getNextTimeout].  [TimerWheelInv], [TimerWheelFire] and [TimerWheelTick]
      prove the invariant of the wheel kept; [TimerWheelSpec] states
      the service without wheels (a map from ids to timers); [TimerWheelCorrect] shows
      that ticking, adding and cancelling refine it, that a timer fires once, when it
      is due, and that a timer beyond the span of the wheel makes a visit loop.
    - [FastQueue] models FastQueue.h, the single-threaded [RingQueue] and [Queue];
      [FastQueueCorrect] shows that both refine a list, growth, bulk copies and
      wrap-around of the 64-bit indices included.
    - [ConcurrentQueues] models the [SPSCQueue] and [MPMCQueue] of ConcurrentQueues.h
      one atomic access at a time; [SpscCorrect] and [MpmcCorrect] show under every
      interleaving that values come out once and in order and that calls fail only for
      a reason, and what a capacity of one does.
    - [IntrusiveMPSC] models IntrusiveMPSC.h, with nodes that clients own and may free;
      [IntrusiveMPSCCorrect] shows the same for it and that no freed node is touched.
    - [HazardPointers] models HazardPointers.h and HazardPointers.cpp: records, slots,
      retired lists, orphans and the scan; [HazardPointersCorrect] shows that a protected
      object is not deleted and that every retired one is deleted at most once.
    - [QSBR] models QSBR.h and QSBR.cpp; [QSBRCorrect] shows the same for it as long as
      no thread leaves objects behind when it detaches and the store of [enter] is not
      delayed past the reads after it, and runs that go wrong otherwise.
    - [ConcurrentVector] models ConcurrentVector.h (the lock-free vector with its 64 buckets)
      and its client TLSRegistry.cpp.  [ConcurrentVectorMem] shows that [locate] numbers the
      cells without gaps; [ConcurrentVectorInv] and [ConcurrentVectorCorrect] that under all
      operations every cell keeps its type; [ConcurrentVectorPush] and
      [ConcurrentVectorCorrect] that everything appended is published when threads only
      append and read, and that it need not be when stores are delayed;
      [ConcurrentVectorSeq] follows a thread that runs alone, among them the registry, and
      shows that [pop_back] makes later values unreachable.
    - [Worker] models the event loop of Thread.cpp, the boxes of TLS.cpp in which other threads
      leave coroutines, kicks and socket ops, and the wake of the poller; [WorkerCorrect]
      shows that no mail is overlooked, that a round is bounded and what the loop overlooks.
    - [FramePool] models the memory of coroutine frames of AwaitableFrame.h, aligned blocks in
      free lists by size and thread; [FramePoolCorrect] shows that frames are aligned and
      disjoint and that nothing leaks or is freed twice.
    - [Coroutine] models how control passes between the frames of AwaitableFrame.h,
      AwaitableFrame.cpp and Awaitable.h and the loop of Thread.cpp, and when frames are
      destroyed.  [CoroutineInv] states the invariant by what a step does to a frame;
      [CoroutineCorrect] shows that no frame is used after its destruction, that awaits
      return what coroutines returned, and what leaks or is read too late when a call is
      not awaited at once.
    - [UringRecv] models receiving over io_uring (IOUringOps.h, IOUringPoller.cpp,
      SocketLinuxIOUring.h): multishot requests, the ring of buffers all sockets of a worker
      share, completions and reads.  [UringRecvCorrect] shows that reads return the stream,
      that no buffer is lost and no reader forgotten, and that a socket that has waited is
      never deleted.
    - [HappyEyeballs] models HappyEyeballs.cpp, the race of connections; [HappyEyeballsInv]
      and [HappyEyeballsCorrect] show that it answers, with one open socket or an error.
    - [Resolver] models Resolver.cpp, the worker threads that ask the name service;
      [ResolverCorrect] shows that every coroutine gets its own answer.
    - [SegmentedQueue] models the [SegmentedMPMCQueue] of ConcurrentQueues.h, whose
      segments hazard pointers keep alive.  [SegmentedQueueInv] states the invariant,
      [SegmentedQueueSteps], [SegmentedQueueEnq] and [SegmentedQueueDeq] prove it kept,
      and [SegmentedQueueCorrect] shows that values come out once and in order.
    - [WaitList] models WaitList.h and SyncCommon.h: nodes in a pointer heap;
      [WaitListCorrect] shows that the list is a sequence and what the wakes fire.
    - [WaitProtocol] models the waiting loop of Wait.h for any primitive (the class
      [Waitable]) with coroutines, wakes, kicks and resumptions interleaved.
      [WaitProtocolInv] states the laws a primitive owes (the class [WaitableLaws]) and
      the invariant; [WaitProtocolSteps] and [WaitProtocolNotify] prove it kept;
      [WaitProtocolCorrect] draws the conclusions: safety, and no wake-up is lost.
    - [SyncPrimitives] models AsyncSemaphore.h, AsyncEvent.h, AsyncWaitGroup.h, the
      token of AsyncCancellation.h, AsyncChannel.h and AsyncUnboundedChannel.h as
      instances of [Waitable], the channels over a queue that is a sequence with atomic
      operations; [SyncPrimitivesCorrect] discharges the laws and proves
      what each primitive promises by itself.
    - [AsyncMutex] models AsyncMutex.h and AsyncMutex.cpp, which have a protocol of
      their own; [AsyncMutexCorrect] shows exclusion, hand-over in the order of the
      list (docs/synchronization.md says otherwise), and that no waiter is forgotten.
    - [AsyncBarrier] models AsyncBarrier.h; [AsyncBarrierCorrect] shows that nobody of a
      round passes early and nobody is forgotten.
    - [Select] models Select.h (sleeps included) and [select_recv] of AsyncChannel.h over
      any objects that can be selected on (the class [Selectable]).  [SelectInv] states
      the invariant, [SelectSteps] proves it kept, and [SelectCorrect] concludes: one
      resumption, no node or timer left behind, one operation completed; and shows a run
      in which a select swallows a wake that another coroutine needed.
    - [CancelTree] models CancelState.h and the parts of Task.cpp, TaskState.h, Task.h
      and Thread.cpp that work on it, as calls with stacks of frames.
      [CancelTreeShape] treats the sibling lists as sequences, [CancelTreeInv] states
      the invariant, [CancelTreeSteps] and [CancelTreeRun] prove it kept, and
      [CancelTreeCorrect] concludes: no use after free, no leak, no deadlock, and a
      cancellation reaches everything below it.
    - [SocketHeader] models RefCountedSession.h, the state word and the wake words of
      SocketMetadata.h, the awaiters of AwaiterOperations.cpp and the wake of
      EPoller.cpp.  [SocketHeaderCorrect] shows that the word is its fields and where it
      stops being so, and in its module [SocketParkCorrect] that no wake-up between poller and
      coroutine is lost as long as the coroutine probes before it parks.
    - [SocketLifetime] models the references, timeouts and teardown of a socket's header
      (SocketLinux.h, SocketLinux.cpp), with the calls other workers forward to the owner.
      [SocketLifetimeCorrect] shows that a header is deleted once and not used after that;
      [SocketReclaim] that it does not leak when the owner sets the timers, and runs in
      which other calls leak it or free it too early.
    - [TaggedPtr] models TaggedPtr.h; its module [TaggedPtrCorrect] shows the round trip between
      words and pairs and how long the counter protects against reuse.
    - [DynamicBuffer] models DynamicBuffer.h and DynamicBuffer.cpp over raw storage;
      [DynamicBufferCorrect] shows that it is a growing sequence of bytes.
    - [SocketIO] models the transfer loops of SocketLinux.h over a kernel that is a
      parameter (class [Kernel]), and [SocketBSD] those of SocketBSD.h.
      [SocketIOCorrect], [SocketWriteCorrect] and [SocketBSDCorrect] show what they return and leave behind, for every kernel that
      keeps the contract of the system calls ([KernelLaws]), and where the two ports
      agree.

    ** Fuel and bounds

    Loops whose length the data bounds take that bound as fuel, and the theorems prove
    it enough.  Nothing bounds how often a coroutine that waits for a socket is woken: the
    theorems about the socket loops are about runs that are woken at most [w] times
    ([woken_at_most]) and give the fuel from [w] and the size.  Where a loop of the source does not end (a timer too far
    away, a buffer beyond 2^63 bytes, a queue with one cell) a theorem says so for every
    amount of fuel.  Machines have no bound on threads, calls or steps: their theorems
    are about every reachable state.

    ** Not modelled

    - Weak memory: every machine is sequentially consistent, but for the delayed store of
      [READY] in [ConcurrentVector] and of [active] in [QSBR].
    - [ThreadPool] and [SystemContext], the pollers other than epoll, Windows sockets and
      what io_uring does besides receiving: they are sequences of system calls with little state of their own.
    - Fibers and their context switches (assembly), statistics, settings and thread-local
      storage.
    - The sharded vector, which does not compile.
    - Connecting: the system calls of [async_connect].
    - Exceptions: copying elements and allocating memory are taken to succeed. *)

From stdpp Require Export base numbers list option gmap sets relations.
From Stdlib Require Export Lia.

#[global] Set Default Goal Selector "!".

(** * Notations of the development *)

Declare Scope uvent_scope.
Delimit Scope uvent_scope with uv.
#[global] Open Scope Z_scope.
#[global] Open Scope uvent_scope.

(** * Outcomes of C++ code

    A C++ function returns, runs into undefined behaviour (a null or dangling
    pointer, an index past the end of an array, a read of storage that holds no
    object), or keeps looping: [OutOfFuel] is what a loop modelled with fuel
    answers when the fuel is spent. *)

Inductive outcome (A : Type) : Type :=
| Done (a : A)
| UB
| OutOfFuel.
Arguments Done {A} a.
Arguments UB {A}.
Arguments OutOfFuel {A}.

#[export] Instance outcome_ret : MRet outcome := @Done.
#[export] Instance outcome_bind : MBind outcome := fun A B f m =>
  match m with
  | Done a => f a
  | UB => UB
  | OutOfFuel => OutOfFuel
  end.
#[export] Instance outcome_fmap : FMap outcome := fun A B f m =>
  match m with
  | Done a => Done (f a)
  | UB => UB
  | OutOfFuel => OutOfFuel
  end.

(** A dereference: absent means undefined behaviour. *)
Definition deref {A} (o : option A) : outcome A :=
  match o with
  | Some a => Done a
  | None => UB
  end.

(** Addresses of objects; a null pointer is [None] in an [option ptr].  A coroutine
    handle is the address of the coroutine frame. *)
Abbreviation ptr := positive.
Abbreviation handle := positive.

(** * Machine integers

    A w-bit unsigned integer is a [Z] in [0, 2^w); every arithmetic result of the
    source is brought back into that range by [wrap w]. *)

Definition wrap (w z : Z) : Z := z mod 2 ^ w.
Abbreviation u64 := (wrap 64).
Abbreviation u32 := (wrap 32).
Abbreviation u16 := (wrap 16).

(** Reinterpretation of a w-bit pattern as a two's complement integer. *)
Definition signed (w z : Z) : Z :=
  let m := z mod 2 ^ w in
  if m <? 2 ^ (w - 1) then m else m - 2 ^ w.

Definition in_range (w z : Z) : Prop := 0 <= z < 2 ^ w.
#[export] Instance in_range_dec w z : Decision (in_range w z).
Proof. unfold in_range. apply _. Defined.

(** * Arrays: reads and writes outside the bounds are undefined behaviour *)

Definition aread {A} (l : list A) (i : Z) : outcome A :=
  if i <? 0 then UB else deref (l !! Z.to_nat i).

Definition awrite {A} (l : list A) (i : Z) (x : A) : outcome (list A) :=
  if (i <? 0) || (Z.of_nat (length l) <=? i) then UB else Done (<[Z.to_nat i := x]> l).

(** * Raw storage: a slot holds an object or is uninitialised *)

Definition sread {A} (l : list (option A)) (i : Z) : outcome A :=
  o ← aread l i; deref o.

(** [memcpy]: [n] cells of [src] from [si] on overwrite those of [dst] from [di] on. *)
Definition memcpy {A} (dst : list A) (di : Z) (src : list A) (si n : Z) : outcome (list A) :=
  if (di <? 0) || (si <? 0) || (n <? 0) || (Z.of_nat (length dst) <? di + n)
     || (Z.of_nat (length src) <? si + n) then UB
  else Done (take (Z.to_nat di) dst ++ take (Z.to_nat n) (drop (Z.to_nat si) src)
             ++ drop (Z.to_nat (di + n)) dst).

(** [for (i = i0; i < i0 + n; ++i) body(i)] *)
Fixpoint for_from {St} (i : Z) (n : nat) (body : Z → St → outcome St) (s : St) : outcome St :=
  match n with
  | O => Done s
  | S n => s ← body i s; for_from (i + 1) n body s
  end.

(** * Tactics *)

Ltac case_bool :=
  match goal with
  | |- context [if ?b then _ else _] => destruct b eqn:?
  | H : context [if ?b then _ else _] |- _ => destruct b eqn:?
  end.

(** Turns the boolean tests of the code into the propositions they decide. *)
Ltac b2p :=
  repeat match goal with
  | H : (_ =? _) = true |- _ => apply Z.eqb_eq in H
  | H : (_ =? _) = false |- _ => apply Z.eqb_neq in H
  | H : (_ <? _) = true |- _ => apply Z.ltb_lt in H
  | H : (_ <? _) = false |- _ => apply Z.ltb_ge in H
  | H : (_ <=? _) = true |- _ => apply Z.leb_le in H
  | H : (_ <=? _) = false |- _ => apply Z.leb_gt in H
  | H : negb _ = true |- _ => apply negb_true_iff in H
  | H : negb _ = false |- _ => apply negb_false_iff in H
  | H : (_ && _)%bool = true |- _ => apply andb_true_iff in H as [? ?]
  | H : (_ || _)%bool = false |- _ => apply orb_false_iff in H as [? ?]
  end.

(** Runs a computation in the outcome monad as far as its steps are known. *)
Ltac orun := cbn [mbind outcome_bind fmap outcome_fmap mret outcome_ret deref].

Tactic Notation "orun" "in" hyp(H) :=
  cbn [mbind outcome_bind fmap outcome_fmap mret outcome_ret deref] in H.

(** * Generic lemmas *)

Section outcomes.
Context {A B : Type}.

Lemma bind_Done (m : outcome A) (f : A → outcome B) b :
  (x ← m; f x) = Done b ↔ ∃ a, m = Done a ∧ f a = Done b.
Proof. destruct m; cbn; naive_solver. Qed.

Lemma deref_Done (o : option A) a : deref o = Done a ↔ o = Some a.
Proof. destruct o; cbn; naive_solver. Qed.

Lemma aread_Done (l : list A) i x :
  aread l i = Done x ↔ 0 <= i ∧ l !! Z.to_nat i = Some x.
Proof.
  unfold aread. destruct (Z.ltb_spec i 0).
  - split; [done | lia].
  - rewrite deref_Done. naive_solver.
Qed.

Lemma aread_Some (l : list A) i x :
  0 <= i → l !! Z.to_nat i = Some x → aread l i = Done x.
Proof. intros. by apply aread_Done. Qed.

Lemma aread_nat (l : list A) (i : nat) : aread l (Z.of_nat i) = deref (l !! i).
Proof.
  unfold aread. destruct (Z.ltb_spec (Z.of_nat i) 0); [lia|].
  by rewrite Nat2Z.id.
Qed.

Lemma awrite_in (l : list A) i x :
  0 <= i < Z.of_nat (length l) → awrite l i x = Done (<[Z.to_nat i := x]> l).
Proof.
  intros ?. unfold awrite.
  destruct (Z.ltb_spec i 0), (Z.leb_spec (Z.of_nat (length l)) i); cbn; done || lia.
Qed.

Lemma awrite_Done (l l' : list A) i x :
  awrite l i x = Done l' →
  0 <= i < Z.of_nat (length l) ∧ l' = <[Z.to_nat i := x]> l.
Proof.
  unfold awrite.
  destruct (Z.ltb_spec i 0), (Z.leb_spec (Z.of_nat (length l)) i); cbn; try done.
  intros [= <-]. split; [lia | done].
Qed.
End outcomes.

Section words.

Lemma wrap_bound w z : 0 <= w → 0 <= wrap w z < 2 ^ w.
Proof. intros. apply Z.mod_pos_bound. lia. Qed.

Lemma wrap_small w z : 0 <= z < 2 ^ w → wrap w z = z.
Proof. apply Z.mod_small. Qed.

Lemma wrap_wrap w z : wrap w (wrap w z) = wrap w z.
Proof.
  unfold wrap. destruct (decide (2 ^ w = 0)) as [->|]; [by rewrite !Zmod_0_r|].
  by rewrite Z.mod_mod.
Qed.

(** Masking with a power of two minus one is the remainder. *)
Lemma land_mask x k : 0 <= k → Z.land x (2 ^ k - 1) = x mod 2 ^ k.
Proof. intros. rewrite <- Z.land_ones by done. by rewrite Z.ones_equiv. Qed.

(** The low bits of a sum do not see the wrap-around at a larger width. *)
Lemma wrap_mod_pow2 w k z : 0 <= k <= w → wrap w z mod 2 ^ k = z mod 2 ^ k.
Proof.
  intros [Hk Hw]. unfold wrap.
  rewrite <- (Znumtheory.Zmod_div_mod (2 ^ k) (2 ^ w)); try lia.
  exists (2 ^ (w - k)). rewrite <- Z.pow_add_r by lia. f_equal. lia.
Qed.

Lemma signed_small w z : 0 < w → - 2 ^ (w - 1) <= z < 2 ^ (w - 1) → signed w z = z.
Proof.
  intros Hw Hz. unfold signed. assert (2 ^ w = 2 * 2 ^ (w - 1)) as Hp.
  { rewrite <- Z.pow_succ_r by lia. f_equal. lia. }
  destruct (Z.neg_nonneg_cases z) as [Hn|Hn].
  - assert (z mod 2 ^ w = z + 2 ^ w) as ->.
    { rewrite <- (Z.mod_add _ 1) by lia. rewrite Z.mul_1_l. apply Z.mod_small. lia. }
    destruct (Z.ltb_spec (z + 2 ^ w) (2 ^ (w - 1))); lia.
  - rewrite Z.mod_small by lia. destruct (Z.ltb_spec z (2 ^ (w - 1))); lia.
Qed.

(** A position in a ring of [c] slots, [i] steps after [h]. *)
Lemma ring_pos c h i :
  0 < c → 0 <= i <= c →
  (h + i) mod c = if decide (h mod c + i < c) then h mod c + i else h mod c + i - c.
Proof.
  intros Hc Hi. pose proof (Z.mod_pos_bound h c Hc).
  rewrite (Z.div_mod h c) at 1 by lia.
  replace (c * (h / c) + h mod c + i) with (h mod c + i + (h / c) * c) by ring.
  rewrite Z.mod_add by lia. case_decide; [by apply Z.mod_small; lia|].
  rewrite <- (Z.mod_add _ (-1) c) by lia. apply Z.mod_small. lia.
Qed.

Lemma ring_pos_inj c h i j :
  0 < c → 0 <= i < c → 0 <= j < c → (h + i) mod c = (h + j) mod c → i = j.
Proof.
  intros Hc Hi Hj. pose proof (Z.mod_pos_bound h c Hc). rewrite !ring_pos by lia.
  repeat case_decide; lia.
Qed.
End words.

(** The invariant rule of a counting loop; the body must return. *)
Lemma for_from_inv {St} (P : Z → St → Prop) i n (body : Z → St → outcome St) s :
  P i s →
  (∀ j s, i <= j < i + Z.of_nat n → P j s → ∃ s', body j s = Done s' ∧ P (j + 1) s') →
  ∃ s', for_from i n body s = Done s' ∧ P (i + Z.of_nat n) s'.
Proof.
  revert i s. induction n as [|n IH]; intros i s HP Hbody.
  { exists s. split; [done|]. by rewrite Z.add_0_r. }
  destruct (Hbody i s) as (s1 & Hs1 & HP1); [lia|done|].
  destruct (IH (i + 1) s1 HP1) as (s2 & Hs2 & HP2).
  { intros j s' Hj. apply Hbody. lia. }
  exists s2. cbn [for_from]. rewrite Hs1. orun. split; [done|].
  by replace (i + Z.of_nat (S n)) with (i + 1 + Z.of_nat n) by lia.
Qed.

Lemma memcpy_ok {A} (dst : list A) di src si n :
  0 <= di → 0 <= si → 0 <= n → di + n <= Z.of_nat (length dst) → si + n <= Z.of_nat (length src) →
  ∃ l, memcpy dst di src si n = Done l ∧ length l = length dst ∧
       ∀ j, 0 <= j → l !! Z.to_nat j = if decide (di <= j < di + n) then src !! Z.to_nat (si + (j - di))
                                      else dst !! Z.to_nat j.
Proof.
  intros Hdi Hsi Hn Hd Hs. unfold memcpy.
  destruct (Z.ltb_spec di 0), (Z.ltb_spec si 0), (Z.ltb_spec n 0),
    (Z.ltb_spec (Z.of_nat (length dst)) (di + n)), (Z.ltb_spec (Z.of_nat (length src)) (si + n)); try lia.
  cbn. eexists. split; [done|]. split.
  { rewrite !length_app, !length_take, !length_drop. lia. }
  intros j Hj. case_decide as Hin.
  - rewrite lookup_app_r by (rewrite length_take; lia). rewrite length_take.
    rewrite lookup_app_l by (rewrite length_take, length_drop; lia).
    rewrite lookup_take_lt by lia. rewrite lookup_drop. f_equal. lia.
  - destruct (decide (j < di)) as [Hlt|Hge].
    + rewrite lookup_app_l by (rewrite length_take; lia). by rewrite lookup_take_lt by lia.
    + rewrite lookup_app_r by (rewrite length_take; lia). rewrite length_take.
      rewrite lookup_app_r by (rewrite length_take, length_drop; lia).
      rewrite length_take, length_drop, lookup_drop. f_equal. lia.
Qed.

(** An invariant of the steps is an invariant of the runs. *)
Lemma rtc_invariant {S} (R : relation S) (P : S → Prop) x y :
  (∀ a b, P a → R a b → P b) → rtc R x y → P x → P y.
Proof. intros HR Hrtc. induction Hrtc; eauto. Qed.

(** * Counting

    How often [x] occurs in [l], as an integer. *)
Section occ.
Context {A : Type} `{!EqDecision A}.
Implicit Types (x y : A) (l : list A).

Definition occ x l : Z := Z.of_nat (length (filter (λ y, y = x) l)).

Lemma occ_nil x : occ x [] = 0.
Proof. done. Qed.
Lemma occ_cons x y l : occ x (y :: l) = (if decide (y = x) then 1 else 0) + occ x l.
Proof. unfold occ. rewrite filter_cons. destruct (decide (y = x)); cbn [length]; lia. Qed.
Lemma occ_app x l1 l2 : occ x (l1 ++ l2) = occ x l1 + occ x l2.
Proof. unfold occ. rewrite filter_app, length_app. lia. Qed.
Lemma occ_ge0 x l : 0 <= occ x l.
Proof. unfold occ. lia. Qed.
Lemma occ_pos x l : x ∈ l ↔ 0 < occ x l.
Proof.
  induction l as [|y l IH]; [rewrite occ_nil; split; [by intros ?%not_elem_of_nil|lia]|]. rewrite elem_of_cons, occ_cons.
  pose proof (occ_ge0 x l). destruct (decide (y = x)); (split; [intros [|]|]; [..|destruct (decide (x = y))]; try tauto; try lia; naive_solver lia).
Qed.
Lemma occ_zero x l : x ∉ l ↔ occ x l = 0.
Proof. rewrite occ_pos. pose proof (occ_ge0 x l). lia. Qed.
#[export] Instance occ_proper x : Proper ((≡ₚ) ==> (=)) (occ x).
Proof. intros l1 l2 E. unfold occ. by rewrite E. Qed.
End occ.

(** ** Conditionals

    These choose a branch and leave other occurrences of the condition alone. *)

Lemma if_true {A} (b : bool) (x y : A) : b = true → (if b then x else y) = x.
Proof. by intros ->. Qed.
Lemma if_false {A} (b : bool) (x y : A) : b = false → (if b then x else y) = y.
Proof. by intros ->. Qed.

(** ** Membership *)

Lemma elem_of_concat {A} (x : A) (ls : list (list A)) : x ∈ concat ls ↔ ∃ l, l ∈ ls ∧ x ∈ l.
Proof. induction ls as [|l ls IH]; cbn; [set_solver|]. rewrite elem_of_app, IH. setoid_rewrite elem_of_cons. naive_solver. Qed.

Lemma NoDup_snoc {A} (l : list A) x : NoDup l → x ∉ l → NoDup (l ++ [x]).
Proof. intros. apply NoDup_app. split_and!; [done|by intros ? ? ->%list_elem_of_singleton|apply NoDup_singleton]. Qed.

(** ** Sums over lists

    What the calls of a machine contribute to a shared count. *)

Section sums.
Local Open Scope nat_scope.

Definition total {A} (g : A → nat) (l : list A) : nat := sum_list_with g l.
Arguments total : simpl never.

Lemma total_app {A} (g : A → nat) l1 l2 : total g (l1 ++ l2) = total g l1 + total g l2.
Proof. apply sum_list_with_app. Qed.
Lemma total_one {A} (g : A → nat) x : total g [x] = g x.
Proof. unfold total. cbn. lia. Qed.
Lemma total_cons {A} (g : A → nat) x l : total g (x :: l) = g x + total g l.
Proof. done. Qed.

Lemma total_insert {A} (g : A → nat) (l : list A) i x y : l !! i = Some x → total g (<[i := y]> l) + g x = total g l + g y.
Proof.
  revert i. induction l as [|z l IH]; intros [|i]; [done|done|intros [= ->]; unfold total; cbn; lia|]. intros H. cbn [lookup list_lookup] in H.
  pose proof (IH i H). change (<[S i := y]> (z :: l)) with (z :: <[i := y]> l). rewrite !total_cons. lia.
Qed.

Lemma total_elem {A} (g : A → nat) (l : list A) i x : l !! i = Some x → g x <= total g l.
Proof. revert i. induction l as [|z l IH]; intros [|i] H; try done; rewrite total_cons; [injection H as ->; lia|]. pose proof (IH i H). lia. Qed.
End sums.
#[global] Arguments total : simpl never.

Create HintDb uvent.
#[export] Hint Resolve wrap_bound wrap_small : uvent.
