(* ===== verification/TimerWheel.v ===== *)
(** The hierarchical timer wheel ([utils/timer]): [Timer], the queued operations
    [Op] and [TimerWheel] with its buckets, its map from ids to timers and its
    bookkeeping of the next expiry.  Timers live in a heap of addresses, so that
    the swap-and-pop of the buckets, the back-pointer [posInBucket] and the
    [delete] of heap timers are modelled as they are written. *)

From S2P Require Import Prelude.

Module TimerWheel.

(** * Data *)

(** [class Timer]: [raw_fn] is the address of a C callback, [coro] the coroutine to
    resume; [heap] says that the wheel deletes the timer. *)
Record Timer := mkTimer {
  expiryTime : Z;
  duration_ms : Z;
  coro : option handle;
  raw_fn : option ptr;
  raw_arg : Z;
  heap : bool;
  active : bool;
  id : Z;
  slotIndex : Z;
  level : Z;
  posInBucket : Z
}.

Inductive Op :=
| ADD (timer : ptr) (add_id : Z)
| UPDATE (op_id : Z) (new_dur : Z)
| REMOVE (id_only : Z) (done : option ptr) (done_arg : Z).

Record Wheel := mkWheel {
  slots_ : Z;
  interval_ : Z;
  buckets_ : list (list ptr)
}.

Record TimerWheel := mkTimerWheel {
  wheels_ : list Wheel;
  currentTime_ : Z;
  timerMap_ : gmap Z ptr;
  timerIdCounter_ : Z;
  nextExpiryTime_ : Z;
  nextExpiryDirty_ : bool;
  activeTimerCount_ : Z;
  timer_operations_queue : list Op;
  ops_size : Z;
  fired_raw_ : list (ptr * Z);
  cancelledPending_ : gset Z;
  detachedPending_ : gset Z;
  maxAddedId_ : Z
}.

(** The wheel with what it acts on: the timers in memory, the run queue of the
    worker, the coroutines it destroyed, the callbacks it called and the number of
    readings taken from the clock. *)
Record world := mkWorld {
  this : TimerWheel;
  timers : gmap ptr Timer;
  q : list handle;
  destroyed : list handle;
  called : list (ptr * Z);
  clock_reads : nat
}.

Definition with_this (f : TimerWheel → TimerWheel) (w : world) : world :=
  {| w with this := f (this w) |}.

Definition store_timer (p : ptr) (t : Timer) (w : world) : world :=
  {| w with timers := <[p := t]> (timers w) |}.

(** * Timer *)

Definition Timer_new (duration : Z) : Timer :=
  mkTimer 0 duration None None 0 true true 0 0 0 0.

(** [h] is the frame of the coroutine that [timeout_coroutine] creates. *)
Definition addFunction (h : handle) (t : Timer) : Timer :=
  {| t with coro := Some h |}.

Definition addCoroutine (h : handle) (t : Timer) : Timer :=
  {| t with coro := Some h; active := true |}.

Definition bind (h : handle) (t : Timer) : Timer :=
  {| t with coro := Some h; active := true |}.

Definition arm_raw (dur : Z) (f : ptr) (arg : Z) (t : Timer) : Timer :=
  {| t with duration_ms := dur; raw_fn := Some f; raw_arg := arg; coro := None; active := true |}.

Definition arm_embedded (dur : Z) (f : ptr) (arg : Z) (t : Timer) : Timer :=
  {| t with duration_ms := dur; heap := false; raw_fn := Some f; raw_arg := arg;
            coro := None; active := true |}.

(** * TimerWheel *)

Definition new_wheel (slots interval : Z) : Wheel :=
  mkWheel slots interval (replicate (Z.to_nat slots) []).

(** [for (i < tw_levels) wheels_.emplace_back(256, 1ull << (8 * i))] *)
Definition new_wheels (tw_levels : nat) : list Wheel :=
  (λ i : nat, new_wheel 256 (u64 (Z.shiftl 1 (8 * Z.of_nat i)))) <$> seq 0 tw_levels.

Definition TimerWheel_new (tw_levels : nat) (ops_items now : Z) : TimerWheel :=
  mkTimerWheel (new_wheels tw_levels) now ∅ 0 0 false 0 [] ops_items [] ∅ ∅ 0.

Section with_clock.
(** [std::chrono::steady_clock] in milliseconds: the value of the n-th reading. *)
Context (clock : nat → Z).

Definition getCurrentTime (w : world) : Z * world :=
  (clock (clock_reads w), {| w with clock_reads := S (clock_reads w) |}).

Definition enqueue_op (op : Op) (w : world) : world :=
  with_this (λ tw, {| tw with timer_operations_queue := timer_operations_queue tw ++ [op] |}) w.

Definition addTimer (timer : ptr) (w : world) : outcome (Z * world) :=
  t ← deref (timers w !! timer);
  let '(now, w) := getCurrentTime w in
  let new_id := u64 (timerIdCounter_ (this w) + 1) in
  let w := with_this (λ tw, {| tw with timerIdCounter_ := new_id |}) w in
  let w := store_timer timer {| t with expiryTime := u64 (now + duration_ms t); id := new_id |} w in
  Done (new_id, enqueue_op (ADD timer new_id) w).

Definition updateTimer (timerId new_duration : Z) (w : world) : bool * world :=
  (true, enqueue_op (UPDATE timerId new_duration) w).

Definition removeTimer (timerId : Z) (done : option ptr) (done_arg : Z) (w : world) : bool * world :=
  (true, enqueue_op (REMOVE timerId done done_arg) w).

(** * Buckets *)

Definition get_bucket (lvl slot : Z) (w : world) : outcome (list ptr) :=
  wh ← aread (wheels_ (this w)) lvl;
  aread (buckets_ wh) slot.

Definition put_bucket (lvl slot : Z) (b : list ptr) (w : world) : outcome world :=
  wh ← aread (wheels_ (this w)) lvl;
  bs ← awrite (buckets_ wh) slot b;
  ws ← awrite (wheels_ (this w)) lvl {| wh with buckets_ := bs |};
  Done (with_this (λ tw, {| tw with wheels_ := ws |}) w).

(** [while (level + 1 < wheels_.size() && diff >= interval_ * slots_) ++level] *)
Fixpoint pick_level (ws : list Wheel) (diff : Z) : nat :=
  match ws with
  | [] => 0%nat
  | wh :: rest =>
      match rest with
      | [] => 0%nat
      | _ => if u64 (interval_ wh * slots_ wh) <=? diff then S (pick_level rest diff) else 0%nat
      end
  end.

Definition addTimerToWheel (timer : ptr) (expiry : Z) (w : world) : outcome world :=
  let cur := currentTime_ (this w) in
  let diff := if cur <? expiry then expiry - cur else 0 in
  let lvl := Z.of_nat (pick_level (wheels_ (this w)) diff) in
  wh ← aread (wheels_ (this w)) lvl;
  let mask := slots_ wh - 1 in
  let slot := if diff =? 0 then Z.land (u64 (cur + 1)) mask
              else Z.land (expiry / interval_ wh) mask in
  t ← deref (timers w !! timer);
  b ← get_bucket lvl slot w;
  let w := store_timer timer {| t with level := lvl; slotIndex := slot;
                                       posInBucket := Z.of_nat (length b) |} w in
  w ← put_bucket lvl slot (b ++ [timer]) w;
  let next := nextExpiryTime_ (this w) in
  Done (if (next =? 0) || (expiry <? next)
        then with_this (λ tw, {| tw with nextExpiryTime_ := expiry |}) w else w).

(** Overwrite position [at] with the last element, fix its back-pointer, pop. *)
Definition swap_pop (lvl slot pos : Z) (w : world) : outcome world :=
  b ← get_bucket lvl slot w;
  let last := Z.of_nat (length b) - 1 in
  if pos =? last then put_bucket lvl slot (removelast b) w
  else
    lp ← aread b last;
    b' ← awrite b pos lp;
    lt ← deref (timers w !! lp);
    let w := store_timer lp {| lt with posInBucket := pos |} w in
    put_bucket lvl slot (removelast b') w.

(** [std::find(bucket.begin(), bucket.end(), timer)] *)
Definition find_in_bucket (timer : ptr) (b : list ptr) : option nat :=
  fst <$> list_find (eq timer) b.

Definition removeTimerFromWheel (timer : ptr) (w : world) : outcome world :=
  t ← deref (timers w !! timer);
  if Z.of_nat (length (wheels_ (this w))) <=? level t then Done w
  else
    b ← get_bucket (level t) (slotIndex t) w;
    let pos := posInBucket t in
    w ← (if (pos <? Z.of_nat (length b)) && bool_decide (b !! Z.to_nat pos = Some timer)
         then swap_pop (level t) (slotIndex t) pos w
         else match find_in_bucket timer b with
              | Some idx => swap_pop (level t) (slotIndex t) (Z.of_nat idx) w
              | None => Done w
              end);
    t ← deref (timers w !! timer);
    Done (if expiryTime t =? nextExpiryTime_ (this w)
          then with_this (λ tw, {| tw with nextExpiryDirty_ := true |}) w else w).

(** [if (t->coro) t->coro.destroy(); if (t->heap) delete t;] *)
Definition dispose (p : ptr) (w : world) : outcome world :=
  t ← deref (timers w !! p);
  let w := match coro t with
           | Some h => {| w with destroyed := destroyed w ++ [h] |}
           | None => w
           end in
  Done (if heap t then {| w with timers := delete p (timers w) |} else w).

(** [t->active = false; removeTimerFromWheel(t); timerMap_.erase(it); --activeTimerCount_] *)
Definition drop_active (timerId : Z) (p : ptr) (w : world) : outcome world :=
  t ← deref (timers w !! p);
  w ← removeTimerFromWheel p (store_timer p {| t with active := false |} w);
  Done (with_this (λ tw, {| tw with timerMap_ := delete timerId (timerMap_ tw);
                                    activeTimerCount_ := u64 (activeTimerCount_ tw - 1) |}) w).

Definition cancelTimer (timerId : Z) (w : world) : outcome (bool * world) :=
  if timerId =? 0 then Done (false, w)
  else match timerMap_ (this w) !! timerId with
  | None =>
      if maxAddedId_ (this w) <? timerId
      then Done (true, with_this (λ tw, {| tw with cancelledPending_ := {[timerId]} ∪ cancelledPending_ tw |}) w)
      else Done (false, w)
  | Some p =>
      t ← deref (timers w !! p);
      if active t then
        w ← drop_active timerId p w;
        w ← dispose p w;
        Done (true, w)
      else Done (false, w)
  end.

Definition cancelTimerDetach (timerId : Z) (w : world) : outcome (bool * world) :=
  if timerId =? 0 then Done (false, w)
  else match timerMap_ (this w) !! timerId with
  | None =>
      if maxAddedId_ (this w) <? timerId
      then Done (true, with_this (λ tw, {| tw with detachedPending_ := {[timerId]} ∪ detachedPending_ tw |}) w)
      else Done (false, w)
  | Some p =>
      t ← deref (timers w !! p);
      if active t then
        w ← drop_active timerId p w;
        Done (true, w)
      else Done (false, w)
  end.

(** [int] is 32 bits wide. *)
Definition INT_MAX : Z := 2 ^ 31 - 1.

Definition getNextTimeout (w : world) : Z * world :=
  let '(now, w) := getCurrentTime w in
  let next := nextExpiryTime_ (this w) in
  (if next =? 0 then -1
   else if next <=? now then 0
   else let diff := next - now in
        if INT_MAX <? diff then INT_MAX else diff, w).

(** * The next expiry *)

(** One timer of the rescan: the body of the innermost loop. *)
Definition min_expiry (w : world) (acc : outcome Z) (p : ptr) : outcome Z :=
  next ← acc;
  t ← deref (timers w !! p);
  Done (if negb (active t) then next
        else if (next =? 0) || (expiryTime t <? next) then expiryTime t else next).

Definition updateNextExpiryTime (w : world) : outcome world :=
  next ← foldl (λ acc wh, foldl (λ acc b, foldl (min_expiry w) acc b) acc (buckets_ wh))
               (Done 0) (wheels_ (this w));
  Done (with_this (λ tw, {| tw with nextExpiryTime_ := next |}) w).

Definition refreshNextExpiry (w : world) : outcome world :=
  let tw := this w in
  w ← (if activeTimerCount_ tw =? 0
       then Done (with_this (λ tw, {| tw with nextExpiryTime_ := 0 |}) w)
       else if nextExpiryDirty_ tw || (nextExpiryTime_ tw =? 0)
       then updateNextExpiryTime w else Done w);
  Done (with_this (λ tw, {| tw with nextExpiryDirty_ := false |}) w).

(** * Firing *)

(** The body of the loop for an active timer that has expired. *)
Definition fire_timer (p : ptr) (t : Timer) (w : world) : world :=
  let w := match raw_fn t, coro t with
           | Some f, _ => with_this (λ tw, {| tw with fired_raw_ := fired_raw_ tw ++ [(f, raw_arg t)] |}) w
           | None, Some h => {| w with q := q w ++ [h] |}
           | None, None => w
           end in
  let w := store_timer p {| t with active := false |} w in
  let w := with_this (λ tw, {| tw with timerMap_ := delete (id t) (timerMap_ tw);
                                       activeTimerCount_ := u64 (activeTimerCount_ tw - 1);
                                       nextExpiryDirty_ := nextExpiryDirty_ tw
                                                           || (expiryTime t =? nextExpiryTime_ tw) |}) w in
  if heap t then {| w with timers := delete p (timers w) |} else w.

(** [while (i < bucket.size()) { ...; swap_pop_at(i); }] with [i] staying 0. *)
Fixpoint processSlot_loop (fuel : nat) (lvl slot : Z) (w : world) : outcome world :=
  match fuel with
  | O => OutOfFuel
  | S fuel =>
      b ← get_bucket lvl slot w;
      match b with
      | [] => Done w
      | timer :: _ =>
          t ← deref (timers w !! timer);
          w ← (if active t then
                 if expiryTime t <=? currentTime_ (this w)
                 then Done (fire_timer timer t w)
                 else addTimerToWheel timer (expiryTime t) w
               else Done w);
          w ← swap_pop lvl slot 0 w;
          processSlot_loop fuel lvl slot w
      end
  end.

(** A slot that gains no timer while it is drained needs one round per timer. *)
Definition processSlot (lvl slot : Z) (w : world) : outcome world :=
  b ← get_bucket lvl slot w;
  processSlot_loop (S (length b)) lvl slot w.

(** [for (level = wheels_.size(); level-- > 1;)] over the levels [n .. 1]. *)
Fixpoint advance_levels (n : nat) (w : world) : outcome world :=
  match n with
  | O => Done w
  | S n' =>
      wh ← aread (wheels_ (this w)) (Z.of_nat n);
      let cur := currentTime_ (this w) in
      w ← (if cur mod interval_ wh =? 0
           then processSlot (Z.of_nat n) (Z.land (cur / interval_ wh) (slots_ wh - 1)) w
           else Done w);
      advance_levels n' w
  end.

Definition advance (w : world) : outcome world :=
  let w := with_this (λ tw, {| tw with currentTime_ := u64 (currentTime_ tw + 1) |}) w in
  w ← advance_levels (length (wheels_ (this w)) - 1) w;
  l0 ← aread (wheels_ (this w)) 0;
  processSlot 0 (Z.land (currentTime_ (this w)) (slots_ l0 - 1)) w.

(** [while (currentTime_ < newTime) advance();] *)
Fixpoint advance_to (fuel : nat) (newTime : Z) (w : world) : outcome world :=
  if currentTime_ (this w) <? newTime then
    match fuel with
    | O => OutOfFuel
    | S fuel => w ← advance w; advance_to fuel newTime w
    end
  else Done w.

(** * Draining the queued operations *)

Definition apply_add (p : ptr) (add_id : Z) (w : world) : outcome world :=
  let w := with_this (λ tw, {| tw with maxAddedId_ := if maxAddedId_ tw <? add_id then add_id
                                                      else maxAddedId_ tw |}) w in
  if bool_decide (add_id ∈ detachedPending_ (this w))
  then Done (with_this (λ tw, {| tw with detachedPending_ := detachedPending_ tw ∖ {[add_id]} |}) w)
  else if bool_decide (add_id ∈ cancelledPending_ (this w))
  then dispose p (with_this (λ tw, {| tw with cancelledPending_ := cancelledPending_ tw ∖ {[add_id]} |}) w)
  else
    t ← deref (timers w !! p);
    w ← addTimerToWheel p (expiryTime t) w;
    Done (with_this (λ tw, {| tw with timerMap_ := <[id t := p]> (timerMap_ tw);
                                      activeTimerCount_ := u64 (activeTimerCount_ tw + 1) |}) w).

Definition apply_update (op_id new_dur : Z) (w : world) : outcome world :=
  match timerMap_ (this w) !! op_id with
  | None => Done w
  | Some p =>
      t ← deref (timers w !! p);
      if active t then
        w ← removeTimerFromWheel p w;
        t ← deref (timers w !! p);
        let '(now, w) := getCurrentTime w in
        let expiry := u64 (now + new_dur) in
        let w := store_timer p {| t with duration_ms := new_dur; expiryTime := expiry |} w in
        addTimerToWheel p expiry w
      else Done w
  end.

Definition apply_remove (id_only : Z) (done : option ptr) (done_arg : Z) (w : world) : outcome world :=
  w ← match timerMap_ (this w) !! id_only with
      | Some p =>
          t ← deref (timers w !! p);
          if active t then
            w ← drop_active id_only p w;
            dispose p w
          else Done w
      | None =>
          Done (if maxAddedId_ (this w) <? id_only
                then with_this (λ tw, {| tw with cancelledPending_ := {[id_only]} ∪ cancelledPending_ tw |}) w
                else w)
      end;
  Done match done with
       | Some f => {| w with called := called w ++ [(f, done_arg)] |}
       | None => w
       end.

Definition apply_op (op : Op) (w : world) : outcome world :=
  match op with
  | ADD p add_id => apply_add p add_id w
  | UPDATE op_id new_dur => apply_update op_id new_dur w
  | REMOVE id_only done done_arg => apply_remove id_only done done_arg w
  end.

Fixpoint apply_ops (ops : list Op) (w : world) : outcome world :=
  match ops with
  | [] => Done w
  | op :: ops => w ← apply_op op w; apply_ops ops w
  end.

(** [for (;;) { n = dequeue_bulk(ops_.data(), cap); if (n == 0) break; ... }] *)
Fixpoint drain_ops (fuel : nat) (w : world) : outcome world :=
  match fuel with
  | O => OutOfFuel
  | S fuel =>
      let cap := Z.to_nat (ops_size (this w)) in
      let ops := take cap (timer_operations_queue (this w)) in
      let w := with_this (λ tw, {| tw with timer_operations_queue :=
                                             drop cap (timer_operations_queue tw) |}) w in
      match ops with
      | [] => Done w
      | _ => w ← apply_ops ops w; drain_ops fuel w
      end
  end.

(** [for (auto& [fn, arg] : fired_raw_) fn(arg); fired_raw_.clear();] *)
Definition call_fired (w : world) : world :=
  with_this (λ tw, {| tw with fired_raw_ := [] |})
            {| w with called := called w ++ fired_raw_ (this w) |}.

Definition tick (w : world) : outcome world :=
  w ← drain_ops (S (length (timer_operations_queue (this w)))) w;
  let '(newTime, w) := getCurrentTime w in
  if newTime <=? currentTime_ (this w) then refreshNextExpiry w
  else
    w ← advance_to (Z.to_nat (newTime - currentTime_ (this w))) newTime w;
    w ← refreshNextExpiry w;
    Done (call_fired w).

Definition empty (w : world) : bool := activeTimerCount_ (this w) =? 0.

End with_clock.
End TimerWheel.
