(* ===== verification/TimerWheelInv.v ===== *)
(** Invariants of the timer wheel: the links between buckets and timers survive
    the swap-and-pop of the buckets, and the placement of a timer fixes the time
    at which its slot is visited next. *)

From S2P Require Import Prelude TimerWheel.
Import TimerWheel.

(** * Shape of the levels *)

(** Level [l] has 256 slots of [2 ^ (8 * l)] milliseconds. *)
Definition wheel_wf (l : nat) (wh : Wheel) : Prop :=
  slots_ wh = 256 ∧ interval_ wh = 2 ^ (8 * Z.of_nat l) ∧ length (buckets_ wh) = 256%nat.

Definition wheels_wf (n : nat) (ws : list Wheel) : Prop :=
  length ws = n ∧ ∀ l wh, ws !! l = Some wh → wheel_wf l wh.

(** * Links: which timer is where

    [links D ex w]: the timers of [D] are exactly those the buckets hold, each at
    the place its own fields name; the place [ex] (level, slot, position), if any,
    is exempt: it holds the timer that is being moved or dropped. *)

Record links (D : gset ptr) (ex : option (Z * Z * nat)) (w : world) : Prop := {
  links_bucket l s b i p :
    get_bucket l s w = Done b → b !! i = Some p → ex ≠ Some (l, s, i) →
    p ∈ D ∧ ∃ t, timers w !! p = Some t ∧ level t = l ∧ slotIndex t = s ∧
                 posInBucket t = Z.of_nat i;
  links_timer p :
    p ∈ D → ∃ t b i, timers w !! p = Some t ∧ posInBucket t = Z.of_nat i ∧
                     get_bucket (level t) (slotIndex t) w = Done b ∧ b !! i = Some p ∧
                     ex ≠ Some (level t, slotIndex t, i)
}.

(** A timer without its place in the buckets. *)
Definition core (t : Timer) : Timer :=
  {| t with level := 0; slotIndex := 0; posInBucket := 0 |}.

(** [w] and [w'] hold the same timers up to the position within a bucket. *)
Definition same_but_pos (t t' : Timer) : Prop :=
  core t = core t' ∧ level t = level t' ∧ slotIndex t = slotIndex t'.

#[export] Instance same_but_pos_equiv : Equivalence same_but_pos.
Proof. unfold same_but_pos. split; red; intros; destruct_and?; split_and?; congruence. Qed.

Definition timers_upto_pos (m m' : gmap ptr Timer) : Prop :=
  ∀ p, option_Forall2 same_but_pos (m !! p) (m' !! p).

#[export] Instance timers_upto_pos_equiv : Equivalence timers_upto_pos.
Proof.
  unfold timers_upto_pos. split; red; intros; try reflexivity; [by symmetry|].
  etransitivity; eauto.
Qed.

(** [w'] is [w] with other buckets. *)
Definition same_but_buckets (w w' : world) : Prop :=
  ∃ ws, w' = with_this (λ tw, {| tw with wheels_ := ws |}) w.

(** * Buckets *)

Section buckets.
Context (n : nat).
Implicit Types w : world.

Lemma get_bucket_inv l s w b :
  get_bucket l s w = Done b →
  ∃ wh, 0 <= l ∧ 0 <= s ∧ wheels_ (this w) !! Z.to_nat l = Some wh ∧
        buckets_ wh !! Z.to_nat s = Some b.
Proof.
  unfold get_bucket. intros (wh & Hl & Hs)%bind_Done.
  apply aread_Done in Hl as [? ?], Hs as [? ?]. eauto 10.
Qed.

Lemma get_bucket_ok l s w :
  wheels_wf n (wheels_ (this w)) → 0 <= l < Z.of_nat n → 0 <= s < 256 →
  ∃ b, get_bucket l s w = Done b.
Proof.
  intros [Hlen Hwf] Hl Hs. unfold get_bucket.
  destruct (lookup_lt_is_Some_2 (wheels_ (this w)) (Z.to_nat l)) as [wh Hwh]; [lia|].
  destruct (Hwf _ _ Hwh) as (_ & _ & Hb).
  destruct (lookup_lt_is_Some_2 (buckets_ wh) (Z.to_nat s)) as [b Hb']; [lia|].
  exists b. erewrite aread_Some by (done || lia). orun. apply aread_Some; [lia | done].
Qed.

(** Writing a bucket that exists: only that bucket changes. *)
Lemma put_bucket_ok l s b b0 w :
  wheels_wf n (wheels_ (this w)) → get_bucket l s w = Done b0 →
  ∃ w', put_bucket l s b w = Done w' ∧ same_but_buckets w w' ∧
        wheels_wf n (wheels_ (this w')) ∧
        get_bucket l s w' = Done b ∧
        (∀ l' s', (l', s') ≠ (l, s) → get_bucket l' s' w' = get_bucket l' s' w).
Proof.
  intros [Hlen Hwf] (wh & Hl & Hs & Hwh & Hb)%get_bucket_inv.
  pose proof (lookup_lt_Some _ _ _ Hwh) as Hl'.
  pose proof (lookup_lt_Some _ _ _ Hb) as Hs'.
  unfold put_bucket. erewrite aread_Some by done. orun.
  rewrite awrite_in by lia. orun. rewrite awrite_in by lia. orun.
  eexists. split; [done|]. split; [by eexists|]. split; [split|split].
  - cbn. by rewrite length_insert.
  - cbn. intros l' wh' Hl''. rewrite list_lookup_insert in Hl''. case_decide; [|eauto].
    destruct_and?; simplify_eq. destruct (Hwf _ _ Hwh) as (?&?&?).
    split; [done|split; [done|]]. cbn. by rewrite length_insert.
  - unfold get_bucket. cbn. erewrite aread_Some; [|done|by apply list_lookup_insert_eq].
    orun. apply aread_Some; [done|]. by apply list_lookup_insert_eq.
  - intros l' s' Hne. unfold get_bucket, aread. cbn.
    destruct (Z.ltb_spec l' 0); [done|].
    destruct (decide (Z.to_nat l' = Z.to_nat l)) as [Heq|Hneq].
    + rewrite Heq, list_lookup_insert_eq, Hwh by lia. orun. cbn.
      destruct (Z.ltb_spec s' 0); [done|].
      rewrite list_lookup_insert_ne; [done|].
      intros ?. apply Hne. f_equal; lia.
    + by rewrite list_lookup_insert_ne by done.
Qed.

Lemma get_bucket_upd_timers m l s w :
  get_bucket l s {| w with timers := m |} = get_bucket l s w.
Proof. done. Qed.
End buckets.

(** * Links survive the operations on buckets *)

Section links.
Context (n : nat).
Implicit Types (w : world) (D : gset ptr).

Lemma links_ext D ex w w' :
  wheels_ (this w') = wheels_ (this w) → timers w' = timers w →
  links D ex w → links D ex w'.
Proof.
  intros Hw Ht [Hb Hd].
  assert (∀ l s, get_bucket l s w' = get_bucket l s w) as Hg
    by (intros; unfold get_bucket; by rewrite Hw).
  split.
  - intros l s b i p. rewrite Hg, Ht. apply Hb.
  - intros p Hp. destruct (Hd p Hp) as (t & b & i & ?). exists t, b, i. by rewrite Ht, Hg.
Qed.

Lemma links_exempt D w l s b i p :
  links D None w → get_bucket l s w = Done b → b !! i = Some p →
  links (D ∖ {[p]}) (Some (l, s, i)) w.
Proof.
  intros HL Hb Hi. destruct (links_bucket _ _ _ HL _ _ _ _ _ Hb Hi) as (Hp & t & Ht & <- & <- & Hpos); [done|].
  split.
  - intros l' s' b' j p' Hb' Hj Hne.
    destruct (links_bucket _ _ _ HL _ _ _ _ _ Hb' Hj) as (Hp' & t' & Ht' & <- & <- & Hpos'); [done|].
    split; [|eauto 10]. enough (p' ≠ p) by set_solver.
    intros ->. apply Hne. simplify_eq. repeat f_equal. lia.
  - intros p' [Hp' Hne]%elem_of_difference.
    destruct (links_timer _ _ _ HL _ Hp') as (t' & b' & j & Ht' & Hpos' & Hb' & Hj & _).
    exists t', b', j. split_and!; try done. intros [= Hl Hs ->].
    rewrite <- Hl, <- Hs, Hb in Hb'. simplify_eq. set_solver.
Qed.

Lemma links_store D ex w p t :
  p ∉ D → links D ex w → links D ex (store_timer p t w).
Proof.
  intros Hp [Hb Hd]. split.
  - intros l s b i p' Hbk Hi Hex. destruct (Hb l s b i p' Hbk Hi Hex) as (Hp' & t' & ?).
    split; [done|]. exists t'. cbn. rewrite lookup_insert_ne; [done | by intros ->].
  - intros p' Hp'. destruct (Hd p' Hp') as (t' & b & i & Ht & ?).
    exists t', b, i. cbn. rewrite lookup_insert_ne; [done | by intros ->].
Qed.

Lemma links_delete D ex w p :
  p ∉ D → links D ex w → links D ex {| w with timers := delete p (timers w) |}.
Proof.
  intros Hp [Hb Hd]. split.
  - intros l s b i p' Hbk Hi Hex. destruct (Hb l s b i p' Hbk Hi Hex) as (Hp' & t' & ?).
    split; [done|]. exists t'. cbn. rewrite lookup_delete_ne; [done | by intros ->].
  - intros p' Hp'. destruct (Hd p' Hp') as (t' & b & i & Ht & ?).
    exists t', b, i. cbn. rewrite lookup_delete_ne; [done | by intros ->].
Qed.

(** Appending a timer to the bucket its fields name. *)
Lemma links_append D ex w w' p t l s b :
  links D ex w → p ∉ D → ex ≠ Some (l, s, length b) →
  timers w !! p = Some t → level t = l → slotIndex t = s → posInBucket t = Z.of_nat (length b) →
  get_bucket l s w = Done b →
  timers w' = timers w → get_bucket l s w' = Done (b ++ [p]) →
  (∀ l' s', (l', s') ≠ (l, s) → get_bucket l' s' w' = get_bucket l' s' w) →
  links ({[p]} ∪ D) ex w'.
Proof.
  intros HL Hp Hex Ht Hlt Hst Hpt Hb Ht' Hsame Hother. split.
  - intros l' s' b' j p' Hb' Hj Hne. rewrite Ht'.
    destruct (decide ((l', s') = (l, s))) as [[= -> ->]|Hd].
    + rewrite Hsame in Hb'. simplify_eq. apply lookup_app_Some in Hj as [Hj|[Hge Hj]].
      * destruct (links_bucket _ _ _ HL _ _ _ _ _ Hb Hj Hne) as (? & ?). split; [set_solver|done].
      * apply list_lookup_singleton_Some in Hj as [Hj <-].
        assert (j = length b) as -> by lia. split; [set_solver|eauto 10].
    + rewrite Hother in Hb' by done.
      destruct (links_bucket _ _ _ HL _ _ _ _ _ Hb' Hj Hne) as (? & ?). split; [set_solver|done].
  - intros p' [->%elem_of_singleton|Hp']%elem_of_union; rewrite Ht'.
    + exists t, (b ++ [p]), (length b). subst. split_and!; try done.
      by apply list_lookup_middle.
    + destruct (links_timer _ _ _ HL _ Hp') as (t' & b' & i & Ht'' & Hpos & Hb' & Hi & Hne).
      destruct (decide ((level t', slotIndex t') = (l, s))) as [[= Hl' Hs']|Hd].
      * exists t', (b ++ [p]), i. rewrite Hl', Hs' in *. rewrite Hb in Hb'. simplify_eq.
        split_and!; try done.
        by apply lookup_app_l_Some.
      * exists t', b', i. by rewrite Hother.
Qed.

Lemma removelast_take {A} (l : list A) : removelast l = take (length l - 1) l.
Proof. rewrite removelast_firstn_len. by rewrite Nat.sub_1_r. Qed.

(** Shrinking the bucket of the exempt place by its last element, after that
    element took the exempt place, restores the links. *)
Lemma links_shrink D w w' l s b i b' :
  links D (Some (l, s, i)) w → get_bucket l s w = Done b → (i < length b)%nat →
  get_bucket l s w' = Done b' →
  (∀ l' s', (l', s') ≠ (l, s) → get_bucket l' s' w' = get_bucket l' s' w) →
  timers_upto_pos (timers w) (timers w') →
  length b' = (length b - 1)%nat →
  (∀ j, (j < length b')%nat → b' !! j = if decide (j = i) then last b else b !! j) →
  (∀ p t', timers w' !! p = Some t' → i ≠ (length b - 1)%nat → last b = Some p →
           posInBucket t' = Z.of_nat i) →
  (∀ p, (i = (length b - 1)%nat ∨ last b ≠ Some p) → timers w' !! p = timers w !! p) →
  links D None w'.
Proof.
  intros HL Hb Hi Hb' Hother Hup Hlen Hlook Hmoved Hrest.
  assert (∀ j, (j < length b)%nat → j ≠ i → is_Some (b !! j)) as Hsome
    by (intros; by apply lookup_lt_is_Some).
  rewrite last_lookup, <- Nat.sub_1_r in *.
  split.
  - intros l' s' bb j p Hbb Hj _.
    destruct (decide ((l', s') = (l, s))) as [[= -> ->]|Hd].
    + rewrite Hb' in Hbb. simplify_eq. pose proof (lookup_lt_Some _ _ _ Hj) as Hjlt.
      rewrite Hlook in Hj by done. case_decide as Hji.
      * subst j. assert (i ≠ (length b - 1)%nat) as Hni by lia.
        destruct (links_bucket _ _ _ HL _ _ _ _ _ Hb Hj) as (Hp & t & Ht & Hl & Hs & _); [congruence|].
        split; [done|]. pose proof (Hup p) as Hrel. rewrite Ht in Hrel.
        inversion Hrel as [? t' (_ & Hl' & Hs') Heq Ht'|]; subst.
        exists t'. split_and!; try congruence. by eapply Hmoved.
      * destruct (links_bucket _ _ _ HL _ _ _ _ _ Hb Hj) as (Hp & t & Ht & Hl & Hs & Hpos); [congruence|].
        split; [done|]. exists t. rewrite Hrest; [done|].
        destruct (decide (i = (length b - 1)%nat)); [by left|right]. intros Hlast.
        destruct (links_bucket _ _ _ HL _ _ _ _ _ Hb Hlast) as (_ & t2 & Ht2 & _ & _ & Hpos2); [congruence|].
        simplify_eq. lia.
    + rewrite Hother in Hbb by done.
      destruct (links_bucket _ _ _ HL _ _ _ _ _ Hbb Hj) as (Hp & t & Ht & Hl & Hs & Hpos); [congruence|].
      split; [done|]. exists t. rewrite Hrest; [done|].
      destruct (decide (i = (length b - 1)%nat)); [by left|right]. intros Hlast.
      destruct (links_bucket _ _ _ HL _ _ _ _ _ Hb Hlast) as (_ & t2 & Ht2 & Hl2 & Hs2 & _); congruence.
  - intros p Hp. destruct (links_timer _ _ _ HL _ Hp) as (t & bb & j & Ht & Hpos & Hbb & Hj & Hne).
    pose proof (Hup p) as Hrel. rewrite Ht in Hrel.
    inversion Hrel as [? t' (_ & Hl' & Hs') Heq Ht'|]; subst.
    destruct (decide ((level t, slotIndex t) = (l, s))) as [[= Hl Hs]|Hd].
    + rewrite Hl, Hs in *. rewrite Hb in Hbb. simplify_eq.
      pose proof (lookup_lt_Some _ _ _ Hj) as Hjlt.
      destruct (decide (j = (length bb - 1)%nat)) as [->|Hnl].
      * assert (i ≠ (length bb - 1)%nat) as Hni by congruence.
        exists t', b', i. split_and!; try done; [by eapply Hmoved|].
        rewrite Hlook by lia. by rewrite decide_True.
      * exists t', b', j.
        assert (timers w' !! p = timers w !! p) as Hk.
        { apply Hrest. destruct (decide (i = (length bb - 1)%nat)); [by left|right]. intros Hlast.
          destruct (links_bucket _ _ _ HL _ _ _ _ _ Hb Hlast) as (_ & t2 & Ht2 & _ & _ & Hpos2); [congruence|].
          simplify_eq. lia. }
        rewrite <- Ht' in *. split_and!; try done; [congruence|].
        rewrite Hlook by lia. rewrite decide_False; congruence.
    + exists t', bb, j. rewrite <- Hl', <- Hs'. rewrite Hother by done.
      assert (timers w' !! p = timers w !! p) as Hk.
      { apply Hrest. destruct (decide (i = (length b - 1)%nat)); [by left|right]. intros Hlast.
        destruct (links_bucket _ _ _ HL _ _ _ _ _ Hb Hlast) as (_ & t2 & Ht2 & Hl2 & Hs2 & _); congruence. }
      rewrite <- Ht' in *. split_and!; try done. congruence.
Qed.

(** [swap_pop] of the exempt place. *)
Lemma swap_pop_ok D w l s b i :
  wheels_wf n (wheels_ (this w)) → links D (Some (l, s, i)) w →
  get_bucket l s w = Done b → (i < length b)%nat →
  ∃ w' b', swap_pop l s (Z.of_nat i) w = Done w' ∧ links D None w' ∧
           wheels_wf n (wheels_ (this w')) ∧ timers_upto_pos (timers w) (timers w') ∧
           (∀ p, p ∉ D → timers w' !! p = timers w !! p) ∧
           same_but_buckets {| w with timers := timers w' |} w' ∧
           get_bucket l s w' = Done b' ∧ length b' = (length b - 1)%nat.
Proof.
  intros Hwf HL Hb Hi. unfold swap_pop. rewrite Hb. orun.
  destruct (Z.eqb_spec (Z.of_nat i) (Z.of_nat (length b) - 1)) as [Hlast|Hnl].
  - destruct (put_bucket_ok n l s (removelast b) b w Hwf Hb)
      as (w' & Hput & [ws ->] & Hwf' & Hsame & Hother).
    eexists _, _. split; [exact Hput|].
    assert (length (removelast b) = (length b - 1)%nat) as Hlen
      by (rewrite removelast_take, length_take; lia).
    split; [|split_and!; try done; by eexists].
    eapply links_shrink; try done.
    + intros j Hj. rewrite decide_False by lia.
      rewrite removelast_take. apply lookup_take_lt. lia.
    + intros. lia.
  - destruct (lookup_lt_is_Some_2 b (length b - 1)) as [lp Hlp]; [lia|].
    erewrite aread_Some; [|lia|]; [|by replace (Z.to_nat (Z.of_nat (length b) - 1)) with (length b - 1)%nat by lia].
    orun. rewrite awrite_in by lia. orun. rewrite Nat2Z.id.
    destruct (links_bucket _ _ _ HL _ _ _ _ _ Hb Hlp) as (HlpD & lt & Hlt & Hl & Hs & Hpos); [congruence || (intros [=]; lia)|].
    rewrite Hlt. orun.
    set (w1 := store_timer lp {| lt with posInBucket := Z.of_nat i |} w).
    assert (get_bucket l s w1 = Done b) as Hb1 by done.
    destruct (put_bucket_ok n l s (removelast (<[i:=lp]> b)) b w1 Hwf Hb1)
      as (w' & Hput & [ws ->] & Hwf' & Hsame & Hother).
    eexists _, _. split; [exact Hput|].
    assert (length (removelast (<[i:=lp]> b)) = (length b - 1)%nat) as Hlen
      by (rewrite removelast_take, length_take, length_insert; lia).
    assert (timers_upto_pos (timers w) (timers w1)) as Hup.
    { intros p. cbn. rewrite lookup_insert. case_decide as Hp; [subst p|reflexivity].
      rewrite Hlt. by constructor. }
    split; [|split_and!; try done; [|by eexists]].
    2: { intros p Hp. cbn. rewrite lookup_insert_ne; [done|]. by intros ->. }
    eapply (links_shrink D w _ l s b i); try done.
    + intros j Hj. rewrite Hlen in Hj. rewrite removelast_take, length_insert.
      rewrite lookup_take_lt by lia. rewrite list_lookup_insert.
      rewrite last_lookup, <- Nat.sub_1_r, Hlp.
      repeat case_decide; done || naive_solver lia.
    + intros p t'. cbn. rewrite last_lookup, <- Nat.sub_1_r, Hlp. intros Ht' _ [= ->].
      rewrite lookup_insert_eq in Ht'. by simplify_eq.
    + intros p [|Hp]; [lia|]. cbn. rewrite lookup_insert_ne; [done|].
      intros ->. apply Hp. by rewrite last_lookup, <- Nat.sub_1_r.
Qed.
End links.

(** * Placement: when the slot of a timer is visited *)

(** Width of a slot on the level of [t], and the time of the visit that slot is for. *)
Definition width (t : Timer) : Z := 2 ^ (8 * level t).
Definition visit (t : Timer) : Z := width t * (expiryTime t / width t).

(** The timer waits for a visit in the future, less than one turn away. *)
Definition placed (cur : Z) (t : Timer) : Prop :=
  0 <= level t ∧ cur < visit t < cur + 256 * width t ∧
  slotIndex t = (expiryTime t / width t) mod 256.

(** The timer was added after it had expired: the next millisecond fires it. *)
Definition overdue (cur : Z) (t : Timer) : Prop :=
  level t = 0 ∧ slotIndex t = (cur + 1) mod 256 ∧ expiryTime t <= cur.

(** The slot of the timer is the one visited at [cur]. *)
Definition due (cur : Z) (t : Timer) : Prop :=
  0 <= level t ∧ cur mod width t = 0 ∧ slotIndex t = (cur / width t) mod 256 ∧
  expiryTime t < cur + width t.

Section placement.
Implicit Types t : Timer.

Lemma width_pos t : 0 <= level t → 0 < width t.
Proof. intros. unfold width. lia. Qed.

Lemma placed_future cur t : placed cur t → cur < expiryTime t.
Proof.
  intros (Hl & [Hv _] & _). pose proof (width_pos t Hl). unfold visit in Hv.
  pose proof (Z.mul_div_le (expiryTime t) (width t)). lia.
Qed.

(** One millisecond later the timer still waits, or its slot is the one to visit. *)
Lemma placed_step cur t :
  placed cur t ∨ overdue cur t → placed (cur + 1) t ∨ due (cur + 1) t.
Proof.
  intros [(Hl & Hv & Hs)|(Hl & Hs & He)].
  - pose proof (width_pos t Hl) as Hw.
    destruct (decide (visit t = cur + 1)) as [Heq|Hne].
    + right. unfold due. rewrite <- Heq. unfold visit at 1 2.
      rewrite (Z.mul_comm (width t)), Z.mod_mul, Z.div_mul by lia.
      split_and!; try done. unfold visit.
      pose proof (Z.mul_succ_div_gt (expiryTime t) (width t)). lia.
    + left. split_and!; try done; lia.
  - right. unfold due, width. rewrite Hl. cbn. rewrite Z.mod_1_r, Z.div_1_r.
    split_and!; done || lia.
Qed.

(** A waiting timer is not in the slot visited now. *)
Lemma placed_not_visited cur t :
  placed cur t → cur mod width t = 0 → slotIndex t ≠ (cur / width t) mod 256.
Proof.
  intros (Hl & Hv & Hs) Hm Heq. rewrite Hs in Heq. pose proof (width_pos t Hl) as Hw.
  unfold visit in Hv. set (k := expiryTime t / width t) in *.
  apply Z.div_exact in Hm; [|lia]. set (j := cur / width t) in *.
  assert (j < k < j + 256) by nia.
  assert ((k - j) mod 256 = 0) as Hz by (rewrite Zminus_mod, Heq, Z.sub_diag; done).
  rewrite Z.mod_small in Hz by lia. lia.
Qed.

(** The level chosen for a distance. *)
Lemma pick_level_from k ws diff :
  ws ≠ [] → (k + length ws <= 8)%nat →
  (∀ l wh, ws !! l = Some wh → wheel_wf (k + l) wh) →
  (pick_level ws diff < length ws)%nat ∧
  ((0 < pick_level ws diff)%nat → 2 ^ (8 * Z.of_nat (k + pick_level ws diff)) <= diff) ∧
  ((S (pick_level ws diff) < length ws)%nat →
   diff < 2 ^ (8 * Z.of_nat (k + S (pick_level ws diff)))).
Proof.
  revert k. induction ws as [|wh ws IH]; intros k Hne Hlen Hwf; [done|].
  destruct ws as [|wh' ws]; [cbn; lia|].
  assert (u64 (interval_ wh * slots_ wh) = 2 ^ (8 * Z.of_nat (S k))) as Hspan.
  { destruct (Hwf 0%nat wh eq_refl) as (-> & -> & _).
    replace (2 ^ (8 * Z.of_nat (k + 0)) * 256) with (2 ^ (8 * Z.of_nat (S k))).
    { apply wrap_small. split; [lia|]. cbn in Hlen. apply Z.pow_lt_mono_r; lia. }
    change 256 with (2 ^ 8). rewrite <- Z.pow_add_r by lia. f_equal. lia. }
  change (pick_level (wh :: wh' :: ws) diff)
    with (if u64 (interval_ wh * slots_ wh) <=? diff then S (pick_level (wh' :: ws) diff) else 0%nat).
  rewrite Hspan. destruct (Z.leb_spec (2 ^ (8 * Z.of_nat (S k))) diff).
  - destruct (IH (S k)) as (H1 & H2 & H3).
    + done.
    + cbn in *. lia.
    + intros l wh'' Hl. specialize (Hwf (S l) wh'' Hl). by replace (S k + l)%nat with (k + S l)%nat by lia.
    + split_and!; [cbn in *; lia| |].
      * intros _. replace (k + S (pick_level (wh' :: ws) diff))%nat
          with (S k + pick_level (wh' :: ws) diff)%nat by lia.
        destruct (decide (pick_level (wh' :: ws) diff = 0%nat)) as [->|]; [|apply H2; lia].
        by rewrite Nat.add_0_r.
      * intros Hs. cbn [length] in *.
        replace (k + S (S (pick_level (wh' :: ws) diff)))%nat
          with (S k + S (pick_level (wh' :: ws) diff))%nat by lia. apply H3. lia.
  - split_and!; [cbn; lia|lia|]. intros _. by replace (k + 1)%nat with (S k) by lia.
Qed.

Lemma pick_level_spec n ws diff :
  (1 <= n <= 8)%nat → wheels_wf n ws →
  let l := pick_level ws diff in
  (l < n)%nat ∧ ((0 < l)%nat → 2 ^ (8 * Z.of_nat l) <= diff) ∧
  ((S l < n)%nat → diff < 256 * 2 ^ (8 * Z.of_nat l)).
Proof.
  intros Hn [Hlen Hwf] l. subst l.
  destruct (pick_level_from 0 ws diff) as (H1 & H2 & H3); rewrite ?Hlen in *; try done || lia.
  { intros ->. cbn in *. lia. }
  split_and!; try done. intros Hs. specialize (H3 Hs).
  replace (256 * 2 ^ (8 * Z.of_nat (pick_level ws diff)))
    with (2 ^ (8 * Z.of_nat (0 + S (pick_level ws diff)))); [done|].
  change 256 with (2 ^ 8). rewrite <- Z.pow_add_r by lia. f_equal. lia.
Qed.

End placement.

(** * Adding and removing one timer *)

(** The exempt place, if any, exists. *)
Definition ex_ok (ex : option (Z * Z * nat)) (w : world) : Prop :=
  ∀ l s i, ex = Some (l, s, i) → ∃ b, get_bucket l s w = Done b ∧ (i < length b)%nat.

(** [next] after a timer with this expiry was added. *)
Definition next_with (next expiry : Z) : Z :=
  if (next =? 0) || (expiry <? next) then expiry else next.

(** [w'] is [w] with other buckets, other places of timers and another next expiry. *)
Definition relinked (next : Z) (w w' : world) : Prop :=
  ∃ ws, w' = with_this (λ tw, {| tw with wheels_ := ws; nextExpiryTime_ := next |})
                       {| w with timers := timers w' |}.

Lemma land_255 x : Z.land x (256 - 1) = x mod 256.
Proof. apply (land_mask x 8). lia. Qed.

Section one_timer.
Context (n : nat) (Hn : (1 <= n <= 8)%nat).
Implicit Types (w : world) (D : gset ptr).

Lemma addTimerToWheel_ok D ex w p t :
  let cur := currentTime_ (this w) in
  wheels_wf n (wheels_ (this w)) → links D ex w → p ∉ D → ex_ok ex w →
  timers w !! p = Some t → 0 <= cur → cur + 1 < 2 ^ 64 →
  expiryTime t - cur < 2 ^ (8 * Z.of_nat n) →
  ∃ w' t' b, addTimerToWheel p (expiryTime t) w = Done w' ∧
    relinked (next_with (nextExpiryTime_ (this w)) (expiryTime t)) w w' ∧
    wheels_wf n (wheels_ (this w')) ∧ links ({[p]} ∪ D) ex w' ∧
    timers w' = <[p := t']> (timers w) ∧ core t' = core t ∧
    (if decide (cur < expiryTime t)
     then placed cur t' ∧ (0 < level t' → width t' <= expiryTime t - cur)
     else overdue cur t') ∧
    get_bucket (level t') (slotIndex t') w = Done b ∧
    get_bucket (level t') (slotIndex t') w' = Done (b ++ [p]) ∧
    (∀ l s, (l, s) ≠ (level t', slotIndex t') → get_bucket l s w' = get_bucket l s w).
Proof.
  intros cur Hwf HL Hp Hex Ht Hcur Hmax Hhor. unfold addTimerToWheel. fold cur.
  set (diff := if cur <? expiryTime t then expiryTime t - cur else 0).
  destruct (pick_level_spec n (wheels_ (this w)) diff Hn Hwf) as (Hlt & Hlow & Hhigh).
  set (lvl := pick_level (wheels_ (this w)) diff) in *.
  destruct (lookup_lt_is_Some_2 (wheels_ (this w)) lvl) as [wh Hwh]; [destruct Hwf; lia|].
  destruct (proj2 Hwf _ _ Hwh) as (Hsl & Hiv & _).
  rewrite aread_nat, Hwh. orun. rewrite Hsl, Hiv, Ht.
  set (slot := if diff =? 0 then _ else _). orun.
  assert (slot = if decide (cur < expiryTime t) then (expiryTime t / 2 ^ (8 * Z.of_nat lvl)) mod 256
                 else (cur + 1) mod 256) as Hslot.
  { subst slot diff. rewrite !land_255. destruct (Z.ltb_spec cur (expiryTime t)).
    - rewrite decide_True by done. destruct (Z.eqb_spec (expiryTime t - cur) 0); [lia|done].
    - rewrite decide_False by lia. cbn. rewrite wrap_small by lia. done. }
  assert (0 <= slot < 256) as Hs256.
  { rewrite Hslot. case_decide; apply Z.mod_pos_bound; lia. }
  destruct (get_bucket_ok n (Z.of_nat lvl) slot w Hwf) as [b Hb]; [lia..|]. rewrite Hb. orun.
  set (t' := {| t with level := Z.of_nat lvl; slotIndex := slot; posInBucket := Z.of_nat (length b) |}).
  set (w1 := store_timer p t' w).
  destruct (put_bucket_ok n (Z.of_nat lvl) slot (b ++ [p]) b w1 Hwf Hb)
    as (w2 & Hput & [ws Hws] & Hwf2 & Hsame & Hother).
  rewrite Hput. orun.
  assert (links ({[p]} ∪ D) ex w2) as HL2.
  { eapply (links_append D ex w1 w2 p t' (Z.of_nat lvl) slot b); try done.
    - by apply links_store.
    - intros ->. destruct (Hex _ _ _ eq_refl) as (b' & Hb' & Hlen'). rewrite Hb in Hb'.
      simplify_eq. lia.
    - subst w1. cbn. by rewrite lookup_insert_eq.
    - by rewrite Hws. }
  set (w' := if (nextExpiryTime_ (this w2) =? 0) || (expiryTime t <? nextExpiryTime_ (this w2))
             then with_this _ w2 else w2).
  assert (relinked (next_with (nextExpiryTime_ (this w)) (expiryTime t)) w w') as Hrel.
  { exists ws. subst w'. rewrite Hws. unfold next_with. cbn. by case_bool. }
  assert (wheels_ (this w') = wheels_ (this w2)) as Hwh' by (subst w'; by case_bool).
  assert (timers w' = <[p := t']> (timers w)) as Htm by (subst w'; case_bool; by rewrite Hws).
  assert (∀ l s, get_bucket l s w' = get_bucket l s w2) as Hg
    by (intros; unfold get_bucket; by rewrite Hwh').
  exists w', t', b. split; [done|]. split; [done|]. split; [by rewrite Hwh'|].
  split. { eapply links_ext; [..|exact HL2]; [done|]. subst w'. by case_bool. }
  split; [done|]. split; [done|]. split.
  - case_decide as Hd.
    + assert (diff = expiryTime t - cur) as Hdiff by (subst diff; by rewrite (proj2 (Z.ltb_lt _ _) Hd)).
      assert (width t' = 2 ^ (8 * Z.of_nat lvl)) as Hw by done.
      split; [|intros Hpos; rewrite Hw, <- Hdiff; apply Hlow; cbn in Hpos; lia].
      unfold placed, visit. rewrite Hw. cbn. rewrite Hslot.
      set (I := 2 ^ (8 * Z.of_nat lvl)) in *. assert (0 < I) by (subst I; lia).
      pose proof (Z.mul_div_le (expiryTime t) I). pose proof (Z.mul_succ_div_gt (expiryTime t) I).
      split; [lia|]. split; [|done]. split.
      * destruct (decide (lvl = 0%nat)) as [Hl0|Hl0]; [|specialize (Hlow ltac:(lia)); lia].
        assert (I = 1) as -> by (subst I; by rewrite Hl0). rewrite Z.div_1_r. lia.
      * destruct (decide (S lvl < n)%nat) as [Hd'|Hd']; [specialize (Hhigh Hd'); lia|].
        assert (2 ^ (8 * Z.of_nat n) = 256 * I).
        { subst I. change 256 with (2 ^ 8). rewrite <- Z.pow_add_r by lia. f_equal. lia. }
        lia.
    + assert (diff = 0) as Hdiff by (subst diff; destruct (Z.ltb_spec cur (expiryTime t)); lia).
      unfold overdue. cbn. rewrite Hslot. split_and!; [|done|lia].
      destruct (decide (lvl = 0%nat)) as [->|Hl0]; [done|].
      specialize (Hlow ltac:(lia)). assert (0 < 2 ^ (8 * Z.of_nat lvl)) by lia. lia.
  - split_and!; [done|by rewrite Hg|]. intros l s Hne. rewrite Hg. by apply Hother.
Qed.

(** Taking a linked timer out of its bucket. *)
Lemma removeTimerFromWheel_ok D w p t :
  wheels_wf n (wheels_ (this w)) → links D None w → p ∈ D → timers w !! p = Some t →
  ∃ w' m ws, removeTimerFromWheel p w = Done w' ∧
    w' = with_this (λ tw, {| tw with wheels_ := ws; nextExpiryDirty_ := nextExpiryDirty_ tw
                                       || (expiryTime t =? nextExpiryTime_ tw) |})
                   {| w with timers := m |} ∧
    wheels_wf n ws ∧ links (D ∖ {[p]}) None w' ∧ timers_upto_pos (timers w) m ∧
    (∀ p', p' ∉ D ∖ {[p]} → m !! p' = timers w !! p').
Proof.
  intros Hwf HL Hp Ht. unfold removeTimerFromWheel. rewrite Ht. orun.
  destruct (links_timer _ _ _ HL _ Hp) as (t0 & b & i & Ht' & Hpos & Hb & Hi & _).
  rewrite Ht in Ht'. injection Ht' as <-.
  destruct (get_bucket_inv _ _ _ _ Hb) as (wh & ? & ? & Hwh & Hbk).
  pose proof (lookup_lt_Some _ _ _ Hwh). pose proof (lookup_lt_Some _ _ _ Hi).
  destruct (Z.leb_spec (Z.of_nat (length (wheels_ (this w)))) (level t)); [lia|].
  rewrite Hb. orun. rewrite Hpos, Nat2Z.id.
  rewrite (proj2 (Z.ltb_lt _ _)) by lia. rewrite bool_decide_eq_true_2 by done. cbn [andb].
  destruct (swap_pop_ok n (D ∖ {[p]}) w (level t) (slotIndex t) b i Hwf)
    as (w1 & b1 & Hsp & HL1 & Hwf1 & Hup & Hout & [ws Hw1] & _ & _); [by eapply links_exempt|done..|].
  rewrite Hsp. orun. pose proof (Hup p) as Hrel. rewrite Ht in Hrel.
  inversion Hrel as [? t1 (Hcore & _) Heq Ht1|]; subst x. orun.
  assert (expiryTime t1 = expiryTime t) as -> by (by injection Hcore).
  assert (nextExpiryTime_ (this w1) = nextExpiryTime_ (this w)) as -> by (by rewrite Hw1).
  exists (if expiryTime t =? nextExpiryTime_ (this w)
          then with_this (λ tw, {| tw with nextExpiryDirty_ := true |}) w1 else w1), (timers w1), ws.
  split; [done|]. split_and!; [|by rewrite Hw1 in Hwf1| |done|done].
  - rewrite Hw1. unfold with_this. cbn.
    destruct (expiryTime t =? nextExpiryTime_ (this w)); cbn; by rewrite ?orb_true_r, ?orb_false_r.
  - destruct (expiryTime t =? nextExpiryTime_ (this w)); [|done]. by eapply links_ext; [..|exact HL1].
Qed.
End one_timer.
