(* ===== verification/TimerWheelFire.v ===== *)
(** Visiting a slot: the timers of the slot that expired are fired, the others move
    to a lower level, and the invariant of the wheel is kept. *)

From S2P Require Import Prelude TimerWheel TimerWheelInv.
Import TimerWheel.

(** * The invariant

    [D] is the set of timers in the wheel. *)

Record tw_inv (n : nat) (D : gset ptr) (w : world) : Prop := {
  inv_wheels : wheels_wf n (wheels_ (this w));
  inv_links : links D None w;
  inv_map k p : timerMap_ (this w) !! k = Some p →
                p ∈ D ∧ ∃ t, timers w !! p = Some t ∧ id t = k;
  inv_dom p : p ∈ D → ∃ t, timers w !! p = Some t ∧ active t = true ∧
                           timerMap_ (this w) !! id t = Some p;
  inv_count : activeTimerCount_ (this w) = Z.of_nat (size D);
  inv_size : Z.of_nat (size D) < 2 ^ 64;
  inv_time : 0 <= currentTime_ (this w) < 2 ^ 64 - 1
}.

(** Every timer of the wheel satisfies [Q]. *)
Definition all_timers (Q : Timer → Prop) (D : gset ptr) (w : world) : Prop :=
  ∀ p t, p ∈ D → timers w !! p = Some t → Q t.

(** * Firing a list of timers

    What firing the timers [ps], in this order, does to the world: the coroutines
    go to the run queue, the callbacks to [fired_raw_], the ids leave the map;
    nothing else changes but the places of the remaining timers. *)

Definition resumed (t : Timer) : option handle :=
  match raw_fn t with Some _ => None | None => coro t end.

Definition callback (t : Timer) : option (ptr * Z) :=
  f ← raw_fn t; Some (f, raw_arg t).

(** The fields neither time nor the buckets touch. *)
Definition rest (tw : TimerWheel) :=
  (timer_operations_queue tw, ops_size tw, timerIdCounter_ tw,
   (cancelledPending_ tw, detachedPending_ tw, maxAddedId_ tw)).

Record fires (D : gset ptr) (w : world) (ps : list ptr) (w' : world) : Prop := {
  fires_nodup : NoDup ps;
  fires_sub p : p ∈ ps → p ∈ D;
  fires_kept p : p ∈ D → p ∉ ps → core <$> timers w' !! p = core <$> timers w !! p;
  fires_outside p : p ∉ D → timers w' !! p = timers w !! p;
  fires_map k : timerMap_ (this w') !! k =
                  p ← timerMap_ (this w) !! k; if decide (p ∈ ps) then None else Some p;
  fires_q : q w' = q w ++ omap (λ p, t ← timers w !! p; resumed t) ps;
  fires_raw : fired_raw_ (this w') =
                fired_raw_ (this w) ++ omap (λ p, t ← timers w !! p; callback t) ps;
  fires_destroyed : destroyed w' = destroyed w;
  fires_called : called w' = called w;
  fires_reads : clock_reads w' = clock_reads w;
  fires_rest : rest (this w') = rest (this w)
}.

Section fires.
Implicit Types (w : world) (D : gset ptr).

Lemma resumed_core t t' : core t = core t' → resumed t = resumed t'.
Proof. destruct t, t'. intros [=]. by subst. Qed.

Lemma callback_core t t' : core t = core t' → callback t = callback t'.
Proof. destruct t, t'. intros [=]. by subst. Qed.

Lemma fires_nil D w w' :
  (∀ p, p ∈ D → core <$> timers w' !! p = core <$> timers w !! p) →
  (∀ p, p ∉ D → timers w' !! p = timers w !! p) →
  timerMap_ (this w') = timerMap_ (this w) → q w' = q w →
  fired_raw_ (this w') = fired_raw_ (this w) →
  destroyed w' = destroyed w → called w' = called w → clock_reads w' = clock_reads w →
  rest (this w') = rest (this w) →
  fires D w [] w'.
Proof.
  intros Hc Ho Hm Hq Hr ? ? ? ?. split; try done.
  - constructor.
  - set_solver.
  - eauto.
  - intros k. rewrite Hm. destruct (timerMap_ (this w) !! k); cbn; [|done].
    rewrite decide_False; [done|set_solver].
  - by rewrite app_nil_r.
  - by rewrite app_nil_r.
Qed.

(** Events computed from the timers of the middle state are those of the first. *)
Lemma fires_events {B} (ev : Timer → option B) D w ps w1 (ps' : list ptr) :
  (∀ t t', core t = core t' → ev t = ev t') →
  fires D w ps w1 → (∀ p, p ∈ ps' → p ∈ D ∖ list_to_set ps) →
  omap (λ p, t ← timers w1 !! p; ev t) ps' = omap (λ p, t ← timers w !! p; ev t) ps'.
Proof.
  intros Hev HF. induction ps' as [|p ps' IH]; intros Hsub; [done|]. cbn [omap list_omap].
  rewrite IH by set_solver.
  assert (p ∈ D ∖ list_to_set ps) as [Hp Hnp]%elem_of_difference by (apply Hsub; set_solver).
  pose proof (fires_kept _ _ _ _ HF p Hp) as Hk. rewrite elem_of_list_to_set in Hnp. specialize (Hk Hnp).
  destruct (timers w1 !! p) as [t1|], (timers w !! p) as [t|]; try done.
  apply (inj Some) in Hk. cbn. by rewrite (Hev _ _ Hk).
Qed.

Lemma fires_trans D w ps w1 ps' w2 :
  fires D w ps w1 → fires (D ∖ list_to_set ps) w1 ps' w2 → fires D w (ps ++ ps') w2.
Proof.
  intros H1 H2. pose proof (fires_sub _ _ _ _ H2) as Hsub.
  split.
  - apply NoDup_app. split_and!; [by eapply fires_nodup..| |by eapply fires_nodup].
    intros p Hp Hp'%Hsub. set_solver.
  - intros p [Hp|Hp%Hsub]%elem_of_app; [by eapply fires_sub|set_solver].
  - intros p Hp Hnp. rewrite (fires_kept _ _ _ _ H2) by set_solver.
    apply (fires_kept _ _ _ _ H1); set_solver.
  - intros p Hp. rewrite (fires_outside _ _ _ _ H2) by set_solver. by eapply fires_outside.
  - intros k. rewrite (fires_map _ _ _ _ H2), (fires_map _ _ _ _ H1).
    destruct (timerMap_ (this w) !! k) as [p|]; cbn; [|done].
    destruct (decide (p ∈ ps)); cbn.
    + by rewrite decide_True by set_solver.
    + destruct (decide (p ∈ ps')); [rewrite decide_True by set_solver|rewrite decide_False by set_solver]; done.
  - rewrite (fires_q _ _ _ _ H2), (fires_q _ _ _ _ H1), omap_app, <- app_assoc.
    do 2 f_equal. eapply fires_events; eauto using resumed_core.
  - rewrite (fires_raw _ _ _ _ H2), (fires_raw _ _ _ _ H1), omap_app, <- app_assoc.
    do 2 f_equal. eapply fires_events; eauto using callback_core.
  - by rewrite (fires_destroyed _ _ _ _ H2), (fires_destroyed _ _ _ _ H1).
  - by rewrite (fires_called _ _ _ _ H2), (fires_called _ _ _ _ H1).
  - by rewrite (fires_reads _ _ _ _ H2), (fires_reads _ _ _ _ H1).
  - by rewrite (fires_rest _ _ _ _ H2), (fires_rest _ _ _ _ H1).
Qed.
End fires.

(** * One round of the loop over a slot *)

Section rounds.
Context (n : nat) (Hn : (1 <= n <= 8)%nat).
Implicit Types (w : world) (D : gset ptr).

Lemma inv_bucket_head D w l s p b :
  tw_inv n D w → get_bucket l s w = Done (p :: b) →
  p ∈ D ∧ ∃ t, timers w !! p = Some t ∧ active t = true ∧ timerMap_ (this w) !! id t = Some p ∧
               level t = l ∧ slotIndex t = s.
Proof.
  intros HI Hb. destruct (links_bucket _ _ _ (inv_links _ _ _ HI) _ _ _ 0%nat _ Hb eq_refl)
    as (Hp & t & Ht & Hl & Hs & _); [done|].
  destruct (inv_dom _ _ _ HI p Hp) as (t' & Ht' & Ha & Hm). simplify_eq. eauto 10.
Qed.

Lemma fire_timer_fields p t w :
  wheels_ (this (fire_timer p t w)) = wheels_ (this w) ∧
  timers (fire_timer p t w) =
    (if heap t then delete p (timers w) else <[p := {| t with active := false |}]> (timers w)) ∧
  timerMap_ (this (fire_timer p t w)) = delete (id t) (timerMap_ (this w)) ∧
  activeTimerCount_ (this (fire_timer p t w)) = u64 (activeTimerCount_ (this w) - 1) ∧
  currentTime_ (this (fire_timer p t w)) = currentTime_ (this w) ∧
  q (fire_timer p t w) = q w ++ option_list (resumed t) ∧
  fired_raw_ (this (fire_timer p t w)) = fired_raw_ (this w) ++ option_list (callback t) ∧
  nextExpiryTime_ (this (fire_timer p t w)) = nextExpiryTime_ (this w) ∧
  nextExpiryDirty_ (this (fire_timer p t w)) =
    nextExpiryDirty_ (this w) || (expiryTime t =? nextExpiryTime_ (this w)) ∧
  destroyed (fire_timer p t w) = destroyed w ∧ called (fire_timer p t w) = called w ∧
  clock_reads (fire_timer p t w) = clock_reads w ∧
  rest (this (fire_timer p t w)) = rest (this w).
Proof.
  unfold fire_timer, resumed, callback.
  destruct (raw_fn t), (coro t), (heap t); cbn; split_and!; try done;
    by rewrite ?app_nil_r, ?delete_insert_eq.
Qed.

Lemma size_remove D p : p ∈ D → Z.of_nat (size (D ∖ {[p]})) = Z.of_nat (size D) - 1.
Proof.
  intros Hp. rewrite size_difference by set_solver. rewrite size_singleton.
  assert (size D ≠ 0%nat); [|lia]. intros ?%size_empty_inv. set_solver.
Qed.

(** A timer leaves the wheel. *)
Lemma inv_drop D w w' p t :
  tw_inv n D w → p ∈ D → timers w !! p = Some t →
  wheels_wf n (wheels_ (this w')) → links (D ∖ {[p]}) None w' →
  (∀ p', p' ≠ p → option_Forall2 same_but_pos (timers w !! p') (timers w' !! p')) →
  timerMap_ (this w') = delete (id t) (timerMap_ (this w)) →
  activeTimerCount_ (this w') = u64 (activeTimerCount_ (this w) - 1) →
  currentTime_ (this w') = currentTime_ (this w) → tw_inv n (D ∖ {[p]}) w'.
Proof.
  intros HI Hp Ht Hwf HL Hsame Hmap Hcnt Hcur. split; try done.
  - intros k p' Hk. rewrite Hmap in Hk. apply lookup_delete_Some in Hk as [Hne Hk].
    destruct (inv_map _ _ _ HI _ _ Hk) as (Hp' & t' & Ht' & Hid).
    assert (p' ≠ p) as Hpp by (intros ->; congruence).
    split; [set_solver|]. specialize (Hsame p' Hpp). rewrite Ht' in Hsame.
    inversion Hsame as [? t'' (Hcore & _)|]; subst. exists t''. split; [done|]. by injection Hcore.
  - intros p' [Hp' Hne]%elem_of_difference. rewrite elem_of_singleton in Hne.
    destruct (inv_dom _ _ _ HI p' Hp') as (t' & Ht' & Ha' & Hm').
    destruct (inv_dom _ _ _ HI p Hp) as (t0 & Ht0 & _ & Hm). simplify_eq.
    specialize (Hsame p' Hne). rewrite Ht' in Hsame.
    inversion Hsame as [? t'' (Hcore & _)|]; subst. exists t''.
    assert (active t' = active t'' ∧ id t' = id t'') as [Ea Ei] by (by injection Hcore).
    split; [done|]. split; [congruence|]. rewrite Hmap, <- Ei, lookup_delete_ne; [done|]. congruence.
  - rewrite Hcnt, (inv_count _ _ _ HI), size_remove by done.
    apply wrap_small. pose proof (inv_size _ _ _ HI).
    assert (size D ≠ 0%nat); [|lia]. intros ?%size_empty_inv. set_solver.
  - rewrite size_remove by done. pose proof (inv_size _ _ _ HI). lia.
  - rewrite Hcur. apply HI.
Qed.

(** What the map and the invariant read of a timer. *)
Definition ident (t : Timer) : Z * bool := (id t, active t).

Lemma ident_core t t' : core t = core t' → ident t = ident t'.
Proof. destruct t, t'. intros [=]. by subst. Qed.

(** Timers move within the wheel. *)
Lemma inv_keep D w w' :
  tw_inv n D w → wheels_wf n (wheels_ (this w')) → links D None w' →
  (∀ p, p ∈ D → ident <$> timers w' !! p = ident <$> timers w !! p) →
  timerMap_ (this w') = timerMap_ (this w) →
  activeTimerCount_ (this w') = activeTimerCount_ (this w) →
  currentTime_ (this w') = currentTime_ (this w) → tw_inv n D w'.
Proof.
  intros HI Hwf HL Hsame Hmap Hcnt Hcur. split; try done.
  - intros k p Hk. rewrite Hmap in Hk. destruct (inv_map _ _ _ HI _ _ Hk) as (Hp & t & Ht & Hid).
    split; [done|]. specialize (Hsame p Hp). rewrite Ht in Hsame.
    destruct (timers w' !! p) as [t'|]; [|done]. exists t'. split; [done|].
    rewrite <- Hid. by injection Hsame.
  - intros p Hp. destruct (inv_dom _ _ _ HI _ Hp) as (t & Ht & Ha & Hm).
    specialize (Hsame p Hp). rewrite Ht in Hsame.
    destruct (timers w' !! p) as [t'|]; [|done]. exists t'. injection Hsame as -> ->. by rewrite Hmap.
  - rewrite Hcnt. apply HI.
  - apply HI.
  - rewrite Hcur. apply HI.
Qed.

(** The head of the slot expired. *)
Lemma fire_step D w l s b p t :
  tw_inv n D w → get_bucket l s w = Done (p :: b) → timers w !! p = Some t →
  ∃ w' b', swap_pop l s 0 (fire_timer p t w) = Done w' ∧ tw_inv n (D ∖ {[p]}) w' ∧
           fires D w [p] w' ∧ get_bucket l s w' = Done b' ∧ length b' = length b ∧
           currentTime_ (this w') = currentTime_ (this w) ∧
           nextExpiryTime_ (this w') = nextExpiryTime_ (this w) ∧
           nextExpiryDirty_ (this w') =
             nextExpiryDirty_ (this w) || (expiryTime t =? nextExpiryTime_ (this w)) ∧
           (∀ p', p' ≠ p → option_Forall2 same_but_pos (timers w !! p') (timers w' !! p')).
Proof.
  intros HI Hb Ht. destruct (inv_bucket_head _ _ _ _ _ _ HI Hb) as (Hp & t0 & Ht0 & Ha & Hm & Hl & Hs).
  simplify_eq. pose proof (fire_timer_fields p t w) as HF. set (w1 := fire_timer p t w) in *.
  destruct HF as (Fwh & Ftm & Fmap & Fcnt & Fcur & Fq & Fraw & Fnx & Fdirty & Fd & Fc & Fr & Fops).
  set (t1 := {| t with active := false |}) in *.
  assert (links (D ∖ {[p]}) (Some (level t, slotIndex t, 0%nat)) w1) as HL1.
  { clearbody t1. pose proof (links_exempt _ _ _ _ _ 0%nat p (inv_links _ _ _ HI) Hb eq_refl) as HL.
    destruct (heap t).
    - apply (links_ext _ _ {| w with timers := delete p (timers w) |}); [exact Fwh|exact Ftm|].
      apply links_delete; [set_solver|done].
    - apply (links_ext _ _ (store_timer p t1 w)); [exact Fwh|exact Ftm|].
      apply links_store; [set_solver|done]. }
  assert (get_bucket (level t) (slotIndex t) w1 = Done (p :: b)) as Hb1
    by (unfold get_bucket; rewrite Fwh; done).
  destruct (swap_pop_ok n _ w1 _ _ (p :: b) 0%nat (eq_rect_r (wheels_wf n) (inv_wheels _ _ _ HI) Fwh) HL1 Hb1)
    as (w' & b' & Hsp & HL' & Hwf' & Hup & Hout & [ws Hw'] & Hb' & Hlen); [cbn; lia|].
  assert (∀ p', p' ≠ p → timers w1 !! p' = timers w !! p') as Htm1.
  { intros p' Hne. rewrite Ftm. destruct (heap t); simplify_map_eq; done. }
  assert (∀ p', p' ≠ p → option_Forall2 same_but_pos (timers w !! p') (timers w' !! p')) as Hsame
    by (intros p' Hne; rewrite <- Htm1 by done; apply Hup).
  exists w', b'. split; [done|]. split; [|split; [|split_and!; try done; [cbn in Hlen; lia|..]]].
  - apply (inv_drop D w w' p t); try done; by rewrite Hw'.
  - split; try (rewrite Hw'; cbn; done).
    + apply NoDup_singleton.
    + set_solver.
    + intros p' Hp' Hne. assert (p' ≠ p) as Hpp by set_solver. specialize (Hsame p' Hpp).
      destruct Hsame as [x y (Hxy & _)|]; [|done]. cbn [fmap option_fmap option_map]. by rewrite Hxy.
    + intros p' Hp'. assert (p' ≠ p) as Hpp by set_solver. rewrite <- Htm1 by done.
      apply Hout. set_solver.
    + intros k. rewrite Hw'. cbn. rewrite Fmap. destruct (decide (k = id t)) as [->|Hk].
      * rewrite lookup_delete_eq, Hm. cbn. by rewrite decide_True by set_solver.
      * rewrite lookup_delete_ne by done. destruct (timerMap_ (this w) !! k) as [p'|] eqn:Hk'; [|done].
        cbn. rewrite decide_False; [done|]. intros Hin. assert (p' = p) as -> by set_solver.
        destruct (inv_map _ _ _ HI _ _ Hk') as (_ & t' & Ht' & Hid). congruence.
    + rewrite Hw'. cbn. rewrite Fq, Ht. cbn. by destruct (resumed t).
    + rewrite Hw'. cbn. rewrite Fraw, Ht. cbn. by destruct (callback t).
  - by rewrite Hw'.
  - by rewrite Hw'.
  - by rewrite Hw'.
Qed.

(** The head of the slot has not expired: it moves to a lower level. *)
Lemma readd_step D w l s b p t :
  tw_inv n D w → get_bucket l s w = Done (p :: b) → timers w !! p = Some t →
  currentTime_ (this w) < expiryTime t → expiryTime t - currentTime_ (this w) < 2 ^ (8 * l) →
  ∃ w1 w' b' t', addTimerToWheel p (expiryTime t) w = Done w1 ∧ swap_pop l s 0 w1 = Done w' ∧
           tw_inv n D w' ∧ fires D w [] w' ∧ get_bucket l s w' = Done b' ∧ length b' = length b ∧
           currentTime_ (this w') = currentTime_ (this w) ∧
           nextExpiryTime_ (this w') = next_with (nextExpiryTime_ (this w)) (expiryTime t) ∧
           nextExpiryDirty_ (this w') = nextExpiryDirty_ (this w) ∧
           timers w' !! p = Some t' ∧ core t' = core t ∧
           placed (currentTime_ (this w)) t' ∧ level t' < l ∧
           (∀ p', p' ≠ p → option_Forall2 same_but_pos (timers w !! p') (timers w' !! p')).
Proof.
  intros HI Hb Ht Hlt Hhor.
  destruct (inv_bucket_head _ _ _ _ _ _ HI Hb) as (Hp & t0 & Ht0 & Ha & Hm & Hl & Hs). simplify_eq.
  destruct (get_bucket_inv _ _ _ _ Hb) as (wh & Hl0 & Hs0 & Hwh & _).
  pose proof (lookup_lt_Some _ _ _ Hwh) as Hln. rewrite (proj1 (inv_wheels _ _ _ HI)) in Hln.
  pose proof (inv_time _ _ _ HI) as Htime.
  pose proof (links_exempt _ _ _ _ _ 0%nat p (inv_links _ _ _ HI) Hb eq_refl) as HLx.
  destruct (addTimerToWheel_ok n Hn _ _ w p t (inv_wheels _ _ _ HI) HLx)
    as (w1 & t1 & b1 & Hadd & [ws1 Hw1] & Hwf1 & HL1 & Htm1 & Hcore1 & Hplace & Hb1 & _ & Hother).
  { set_solver. }
  { intros l0 s0 i [= <- <- <-]. eexists. split; [exact Hb|cbn; lia]. }
  { done. } { lia. } { lia. }
  { eapply Z.lt_le_trans; [exact Hhor|]. apply Z.pow_le_mono_r; lia. }
  rewrite decide_True in Hplace by done. destruct Hplace as [Hplace Hwid].
  assert (level t1 < level t) as Hlow.
  { destruct Hplace as (Hge & _). destruct (decide (0 < level t1)) as [Hpos|Hz].
    - specialize (Hwid Hpos). unfold width in Hwid.
      destruct (Z.lt_ge_cases (level t1) (level t)) as [|Hc]; [done|].
      assert (2 ^ (8 * level t) <= 2 ^ (8 * level t1)) by (apply Z.pow_le_mono_r; lia). lia.
    - assert (level t1 = 0) as -> by lia.
      destruct (decide (level t = 0)) as [E|]; [|lia]. rewrite E in Hhor. cbn in Hhor. lia. }
  assert ({[p]} ∪ D ∖ {[p]} = D) as HD by (symmetry; by apply union_difference_singleton_L).
  rewrite HD in HL1.
  assert (get_bucket (level t) (slotIndex t) w1 = Done (p :: b)) as Hb1'.
  { rewrite Hother; [done|]. intros [=]. lia. }
  destruct (swap_pop_ok n _ w1 _ _ (p :: b) 0%nat Hwf1 HL1 Hb1')
    as (w' & b' & Hsp & HL' & Hwf' & Hup & Hout & [ws Hw'] & Hb' & Hlen); [cbn; lia|].
  assert (∀ p', p' ≠ p → option_Forall2 same_but_pos (timers w !! p') (timers w' !! p')) as Hsame.
  { intros p' Hne. specialize (Hup p'). by rewrite Htm1, lookup_insert_ne in Hup by done. }
  pose proof (Hup p) as Hupp. rewrite Htm1, lookup_insert_eq in Hupp.
  inversion Hupp as [? t' (Hcore' & Hlv & Hsl) E Ht'|]; subst x.
  assert (core t' = core t) as Hcore by congruence.
  assert (currentTime_ (this w') = currentTime_ (this w) ∧ timerMap_ (this w') = timerMap_ (this w) ∧
          activeTimerCount_ (this w') = activeTimerCount_ (this w)) as (Fcur & Fmap & Fcnt)
    by (rewrite Hw'; cbn; rewrite Hw1; done).
  exists w1, w', b', t'. split; [done|]. split; [done|].
  assert (∀ p', core <$> timers w' !! p' = core <$> timers w !! p') as Hcores.
  { intros p'. destruct (decide (p' = p)) as [->|Hne].
    - rewrite <- Ht', Ht. cbn [fmap option_fmap option_map]. by rewrite Hcore.
    - destruct (Hsame p' Hne) as [x y (Hxy & _)|]; [|done].
      cbn [fmap option_fmap option_map]. by rewrite Hxy. }
  split; [|split; [|split_and!]].
  - apply (inv_keep D w w'); try done. intros p' _. specialize (Hcores p').
    destruct (timers w' !! p') as [x|], (timers w !! p') as [y|]; try done.
    apply (inj Some) in Hcores. cbn. f_equal. by apply ident_core.
  - apply fires_nil; try done; try (rewrite Hw'; cbn; rewrite Hw1; done).
    intros p' Hp'. rewrite Hout by done. rewrite Htm1, lookup_insert_ne; [done|set_solver].
  - done.
  - cbn in Hlen. lia.
  - done.
  - rewrite Hw'. cbn. by rewrite Hw1.
  - rewrite Hw'. cbn. by rewrite Hw1.
  - done.
  - done.
  - destruct Hplace as (? & ? & ?). assert (expiryTime t' = expiryTime t1) as He.
    { assert (core t' = core t1) as Hc by congruence. by injection Hc. }
    unfold placed, visit, width in *. rewrite <- Hlv, <- Hsl, He. done.
  - lia.
  - done.
Qed.
End rounds.
