(* ===== verification/TimerWheelTick.v ===== *)
(** The passing of time: a slot, a millisecond, a tick.  The timers that fire are
    exactly those that expired, each one once, and the record of the next expiry
    stays the minimum over the timers that remain.  Then the operations that are queued. *)

From S2P Require Import Prelude TimerWheel TimerWheelInv TimerWheelFire.
Import TimerWheel.

(** * The next expiry *)

(** [next] is the least expiry of the timers, 0 when there are none. *)
Definition is_next (next : Z) (D : gset ptr) (w : world) : Prop :=
  (D = ∅ ∧ next = 0) ∨
  ((∃ p t, p ∈ D ∧ timers w !! p = Some t ∧ expiryTime t = next) ∧
   all_timers (λ t, 0 < next <= expiryTime t) D w).

(** What holds between two refreshes. *)
Definition next_ok (D : gset ptr) (w : world) : Prop :=
  all_timers (λ t, 0 < expiryTime t) D w ∧
  (nextExpiryDirty_ (this w) = true ∨ is_next (nextExpiryTime_ (this w)) D w).

(** A timer that waits, or whose slot is still to be visited at [cur] on a level
    up to [l]. *)
Definition pending (l cur : Z) (t : Timer) : Prop :=
  placed cur t ∨ (due cur t ∧ level t <= l).

Section slots.
Context (n : nat) (Hn : (1 <= n <= 8)%nat).
Implicit Types (w : world) (D : gset ptr).

Lemma all_timers_mono (Q Q' : Timer → Prop) D w :
  (∀ t, Q t → Q' t) → all_timers Q D w → all_timers Q' D w.
Proof. unfold all_timers. eauto. Qed.

(** A property of a timer that its position in the bucket does not change. *)
Lemma all_timers_step (Q : Timer → Prop) D D' w w' :
  (∀ t t', same_but_pos t t' → Q t → Q t') →
  (∀ p, p ∈ D' → p ∈ D ∧ option_Forall2 same_but_pos (timers w !! p) (timers w' !! p)) →
  all_timers Q D w → all_timers Q D' w'.
Proof.
  intros HQ Hup Hall p t' Hp Ht'. destruct (Hup p Hp) as [HpD Hrel]. rewrite Ht' in Hrel.
  inversion Hrel as [t ? Hs E|]; subst. symmetry in E. eauto.
Qed.

Lemma core_expiry t t' : core t = core t' → expiryTime t = expiryTime t'.
Proof. by intros [=]. Qed.

Lemma pending_same l cur t t' : same_but_pos t t' → pending l cur t → pending l cur t'.
Proof.
  intros (Hc%core_expiry & Hl & Hs). unfold pending, placed, due, visit, width.
  by rewrite Hc, Hl, Hs.
Qed.

Lemma positive_same t t' : same_but_pos t t' → 0 < expiryTime t → 0 < expiryTime t'.
Proof. by intros (->%core_expiry & _). Qed.

(** The timers of [D'] are those of [D], with the same expiries. *)
Definition same_expiries D w D' w' : Prop :=
  ∀ p, p ∈ D' → p ∈ D ∧ expiryTime <$> timers w' !! p = expiryTime <$> timers w !! p.

Lemma same_expiries_all (R : Z → Prop) D w D' w' :
  same_expiries D w D' w' →
  all_timers (λ t, R (expiryTime t)) D w → all_timers (λ t, R (expiryTime t)) D' w'.
Proof.
  intros Hs HR p t' Hp Ht'. destruct (Hs p Hp) as [HpD He]. rewrite Ht' in He.
  destruct (timers w !! p) as [t|] eqn:Ht; [|done]. injection He as ->. eauto.
Qed.

(** Dropping the timer [p], whose expiry is compared with the record. *)
Lemma next_ok_drop D w D' w' p t :
  next_ok D w → p ∈ D → timers w !! p = Some t → D' = D ∖ {[p]} →
  same_expiries D w D' w' →
  nextExpiryTime_ (this w') = nextExpiryTime_ (this w) →
  nextExpiryDirty_ (this w') =
    nextExpiryDirty_ (this w) || (expiryTime t =? nextExpiryTime_ (this w)) →
  next_ok D' w'.
Proof.
  intros [Hpos Hnext] Hp Ht -> Hsame Hnx Hd.
  split; [by eapply (same_expiries_all (λ e, 0 < e))|].
  rewrite Hnx, Hd. destruct Hnext as [->|Hnext]; [by left|].
  destruct (Z.eqb_spec (expiryTime t) (nextExpiryTime_ (this w))) as [|Hne]; [left; by rewrite orb_true_r|].
  right. destruct Hnext as [[-> _]|((p0 & t0 & Hp0 & Ht0 & E) & Hle)]; [set_solver|]. right.
  split; [|by eapply (same_expiries_all (λ e, 0 < _ <= e))].
  assert (p0 ≠ p) as Hpp by (intros ->; congruence).
  destruct (Hsame p0) as [_ He]; [set_solver|]. rewrite Ht0 in He.
  destruct (timers w' !! p0) as [t'|] eqn:Ht'; [|done]. injection He as He.
  exists p0, t'. split_and!; [set_solver|done|congruence].
Qed.

(** Adding the timer [p]. *)
Lemma next_ok_add D w w' p t' :
  next_ok D w → p ∉ D → timers w' !! p = Some t' → 0 < expiryTime t' →
  same_expiries D w D w' →
  nextExpiryTime_ (this w') = next_with (nextExpiryTime_ (this w)) (expiryTime t') →
  nextExpiryDirty_ (this w') = nextExpiryDirty_ (this w) →
  next_ok ({[p]} ∪ D) w'.
Proof.
  intros [Hpos Hnext] Hp Ht' Ht'pos Hsame Hnx Hd.
  assert (∀ R : Z → Prop, R (expiryTime t') → all_timers (λ t, R (expiryTime t)) D w →
            all_timers (λ t, R (expiryTime t)) ({[p]} ∪ D) w') as Hall.
  { intros R HR HD p0 t0 [->%elem_of_singleton|Hp0]%elem_of_union Ht0; [congruence|].
    by eapply (same_expiries_all R). }
  split; [by apply (Hall (λ e, 0 < e))|].
  rewrite Hnx, Hd. destruct Hnext as [|Hnext]; [by left|right]. right. unfold next_with.
  destruct Hnext as [[-> ->]|((p0 & t0 & Hp0 & Ht0 & E) & Hle)].
  - cbn. split; [exists p, t'; set_solver|]. apply (Hall (λ e, 0 < _ <= e)); [lia|].
    intros ? ? []%elem_of_empty.
  - pose proof (Hle _ _ Hp0 Ht0) as Hle0. cbv beta in Hle0.
    set (nx := nextExpiryTime_ (this w)) in *.
    destruct (Z.eqb_spec nx 0), (Z.ltb_spec (expiryTime t') nx); cbn; try lia.
    + split; [exists p, t'; set_solver|]. apply (Hall (λ e, 0 < _ <= e)); [lia|].
      eapply all_timers_mono; [|exact Hle]. cbn. lia.
    + split; [|apply (Hall (λ e, 0 < nx <= e)); [lia|done]].
      destruct (Hsame p0 Hp0) as [_ He]. rewrite Ht0 in He.
      destruct (timers w' !! p0) as [t1|] eqn:Ht1; [|done]. injection He as He.
      exists p0, t1. split_and!; [set_solver|done|congruence].
Qed.

(** Moving a timer within the wheel. *)
Lemma next_ok_move D w w' p t :
  next_ok D w → p ∈ D → timers w !! p = Some t →
  same_expiries D w D w' →
  nextExpiryTime_ (this w') = next_with (nextExpiryTime_ (this w)) (expiryTime t) →
  nextExpiryDirty_ (this w') = nextExpiryDirty_ (this w) →
  next_ok D w'.
Proof.
  intros [Hpos Hnext] Hp Ht Hsame Hnx Hd.
  split; [by eapply (same_expiries_all (λ e, 0 < e))|].
  rewrite Hnx, Hd. destruct Hnext as [|Hnext]; [by left|right]. right.
  destruct Hnext as [[-> _]|((p0 & t0 & Hp0 & Ht0 & E) & Hle)]; [set_solver|].
  pose proof (Hle _ _ Hp Ht) as Hle0. cbv beta in Hle0.
  assert (next_with (nextExpiryTime_ (this w)) (expiryTime t) = nextExpiryTime_ (this w)) as ->.
  { unfold next_with.
    destruct (Z.eqb_spec (nextExpiryTime_ (this w)) 0), (Z.ltb_spec (expiryTime t) (nextExpiryTime_ (this w)));
      cbn; lia. }
  split; [|by eapply (same_expiries_all (λ e, 0 < _ <= e))].
  destruct (Hsame p0 Hp0) as [_ He]. rewrite Ht0 in He.
  destruct (timers w' !! p0) as [t1|] eqn:Ht1; [|done]. injection He as He.
  exists p0, t1. split_and!; [done|done|congruence].
Qed.

(** * Visiting a slot *)

(** What a visit of level [l] at time [cur] does: it fires a list of expired
    timers, and leaves the others pending on the levels below. *)
Record visited (l : Z) D w (ps : list ptr) w' : Prop := {
  visited_fires : fires D w ps w';
  visited_inv : tw_inv n (D ∖ list_to_set ps) w';
  visited_next : next_ok (D ∖ list_to_set ps) w';
  visited_time : currentTime_ (this w') = currentTime_ (this w);
  visited_expired p t : p ∈ ps → timers w !! p = Some t → expiryTime t <= currentTime_ (this w);
  visited_pending : all_timers (pending (l - 1) (currentTime_ (this w))) (D ∖ list_to_set ps) w'
}.

Lemma same_expiries_fires D w ps w' : fires D w ps w' → same_expiries D w (D ∖ list_to_set ps) w'.
Proof.
  intros HF p [Hp Hnp]%elem_of_difference. split; [done|].
  rewrite elem_of_list_to_set in Hnp. pose proof (fires_kept _ _ _ _ HF p Hp Hnp) as Hk.
  destruct (timers w' !! p), (timers w !! p); try done. cbn in *. f_equal.
  apply core_expiry. congruence.
Qed.

(** A pending timer of the slot being visited is due. *)
Lemma pending_head D w l b p t :
  tw_inv n D w → 0 <= l → currentTime_ (this w) mod 2 ^ (8 * l) = 0 →
  all_timers (pending l (currentTime_ (this w))) D w →
  get_bucket l ((currentTime_ (this w) / 2 ^ (8 * l)) mod 256) w = Done (p :: b) →
  timers w !! p = Some t → p ∈ D ∧ level t = l ∧ active t = true ∧
  expiryTime t < currentTime_ (this w) + 2 ^ (8 * l).
Proof.
  intros HI Hl Hm Hall Hb Ht.
  destruct (inv_bucket_head _ _ _ _ _ _ _ HI Hb) as (Hp & t0 & Ht0 & Ha & Hmap & Hlv & Hsl).
  simplify_eq. split_and!; try done.
  destruct (Hall _ _ Hp Ht) as [Hpl|[Hd _]]; [|apply Hd].
  exfalso. by eapply placed_not_visited.
Qed.

(** Once the slot is empty, nothing is pending on this level. *)
Lemma pending_lower D w l :
  tw_inv n D w → get_bucket l ((currentTime_ (this w) / 2 ^ (8 * l)) mod 256) w = Done [] →
  all_timers (pending l (currentTime_ (this w))) D w →
  all_timers (pending (l - 1) (currentTime_ (this w))) D w.
Proof.
  intros HI Hb Hall p t Hp Ht. destruct (Hall p t Hp Ht) as [Hpl|[Hd Hle]]; [by left|].
  right. split; [done|]. enough (level t ≠ l) by lia. intros <-.
  destruct (links_timer _ _ _ (inv_links _ _ _ HI) p Hp) as (t' & b & i & Ht' & _ & Hb' & Hi & _).
  simplify_eq. destruct Hd as (_ & _ & Hs & _). unfold width in Hs. rewrite <- Hs in Hb.
  rewrite Hb in Hb'. by simplify_eq.
Qed.

Lemma processSlot_loop_ok fuel l D w b :
  tw_inv n D w → next_ok D w → 0 <= l → currentTime_ (this w) mod 2 ^ (8 * l) = 0 →
  all_timers (pending l (currentTime_ (this w))) D w →
  get_bucket l ((currentTime_ (this w) / 2 ^ (8 * l)) mod 256) w = Done b → (length b < fuel)%nat →
  ∃ w' ps, processSlot_loop fuel l ((currentTime_ (this w) / 2 ^ (8 * l)) mod 256) w = Done w' ∧
           visited l D w ps w'.
Proof.
  revert D w b. induction fuel as [|fuel IH]; intros D w b HI Hnx Hl Hm Hall Hb Hfuel; [lia|].
  cbn [processSlot_loop]. rewrite Hb. orun. destruct b as [|p b].
  { exists w, []. assert (D ∖ list_to_set [] = D) as HD by set_solver.
    split; [done|]. split; rewrite ?HD; try done; [|set_solver|by apply pending_lower].
    by apply fires_nil. }
  destruct (inv_bucket_head _ _ _ _ _ _ _ HI Hb) as (_ & t & Ht & _).
  destruct (pending_head _ _ _ _ _ _ HI Hl Hm Hall Hb Ht) as (Hp & Hlv & Ha & Hexp).
  rewrite Ht. orun. rewrite Ha. destruct (Z.leb_spec (expiryTime t) (currentTime_ (this w))) as [Hle|Hlt].
  - orun. destruct (fire_step n Hn _ _ _ _ _ _ _ HI Hb Ht)
      as (w1 & b1 & Hsp & HI1 & HF & Hb1 & Hlen & Hcur & Hn1 & Hd1 & Hsame).
    rewrite Hsp. orun.
    assert (next_ok (D ∖ {[p]}) w1) as Hnx1.
    { eapply next_ok_drop; try done. eapply (same_expiries_fires _ _ [p]) in HF.
      by replace (D ∖ {[p]}) with (D ∖ list_to_set [p]) by set_solver. }
    assert (all_timers (pending l (currentTime_ (this w1))) (D ∖ {[p]}) w1) as Hall1.
    { rewrite Hcur. eapply all_timers_step; [apply pending_same| |exact Hall].
      intros p' Hp'. split; [set_solver|]. apply Hsame. set_solver. }
    rewrite <- Hcur in Hb1, Hm. cbn in Hfuel.
    destruct (IH _ _ _ HI1 Hnx1 Hl Hm Hall1 Hb1) as (w' & ps & Hrun & HV); [lia|].
    rewrite Hcur in Hrun. exists w', (p :: ps). split; [done|].
    assert (D ∖ {[p]} ∖ list_to_set ps = D ∖ list_to_set (p :: ps)) as HD by set_solver.
    destruct HV as [V1 V2 V3 V4 V5 V6]. rewrite HD in *. split; try done; try congruence.
    + apply (fires_trans _ _ [p] w1); [done|]. by replace (D ∖ list_to_set [p]) with (D ∖ {[p]}) by set_solver.
    + intros p0 t0 Hin Ht0. destruct (decide (p0 = p)) as [->|Hne]; [congruence|].
      pose proof (Hsame p0 Hne) as Hrel. rewrite Ht0 in Hrel.
      inversion Hrel as [? t1 (Hc%core_expiry & _) E Ht1|]; subst x. symmetry in Ht1.
      rewrite Hc, <- Hcur. eapply V5; [|done]. set_solver.
    + by rewrite <- Hcur.
  - destruct (readd_step n Hn _ _ _ _ _ _ _ HI Hb Ht)
      as (w0 & w1 & b1 & t1 & Hadd & Hsp & HI1 & HF & Hb1 & Hlen & Hcur & Hn1 & Hd1 & Ht1 & Hc1 & Hpl & Hlow & Hsame);
      [lia..|].
    rewrite Hadd. orun. rewrite Hsp. orun.
    assert (same_expiries D w D w1) as Hse.
    { eapply (same_expiries_fires _ _ []) in HF. by replace (D ∖ list_to_set []) with D in HF by set_solver. }
    assert (next_ok D w1) as Hnx1 by (by eapply next_ok_move).
    assert (all_timers (pending l (currentTime_ (this w1))) D w1) as Hall1.
    { rewrite Hcur. intros p0 t0 Hp0 Ht0. destruct (decide (p0 = p)) as [->|Hne].
      - simplify_eq. by left.
      - pose proof (Hsame p0 Hne) as Hrel. rewrite Ht0 in Hrel.
        inversion Hrel as [t2 ? Hs E|]; subst. symmetry in E. eapply pending_same; eauto. }
    rewrite <- Hcur in Hb1, Hm. cbn in Hfuel.
    destruct (IH _ _ _ HI1 Hnx1 Hl Hm Hall1 Hb1) as (w' & ps & Hrun & HV); [lia|].
    rewrite Hcur in Hrun. exists w', ps. split; [done|].
    destruct HV as [V1 V2 V3 V4 V5 V6]. split; try done; try congruence.
    + apply (fires_trans _ _ [] w1); [done|]. by replace (D ∖ list_to_set []) with D by set_solver.
    + intros p0 t0 Hin Ht0. destruct (Hse p0) as [_ He]; [by eapply fires_sub|]. rewrite Ht0 in He.
      destruct (timers w1 !! p0) as [t2|] eqn:Ht2; [|done]. injection He as <-. rewrite <- Hcur. eauto.
    + by rewrite <- Hcur.
Qed.

Lemma processSlot_ok l D w :
  tw_inv n D w → next_ok D w → 0 <= l < Z.of_nat n → currentTime_ (this w) mod 2 ^ (8 * l) = 0 →
  all_timers (pending l (currentTime_ (this w))) D w →
  ∃ w' ps, processSlot l ((currentTime_ (this w) / 2 ^ (8 * l)) mod 256) w = Done w' ∧
           visited l D w ps w'.
Proof.
  intros HI Hnx Hl Hm Hall.
  destruct (get_bucket_ok n l ((currentTime_ (this w) / 2 ^ (8 * l)) mod 256) w) as [b Hb].
  { apply HI. } { done. } { apply Z.mod_pos_bound. lia. }
  unfold processSlot. rewrite Hb. orun. eapply processSlot_loop_ok; try done; lia.
Qed.

Lemma visited_trans l l' D w ps w1 ps' w2 :
  visited l D w ps w1 → visited l' (D ∖ list_to_set ps) w1 ps' w2 → visited l' D w (ps ++ ps') w2.
Proof.
  intros [F1 I1 N1 T1 E1 P1] [F2 I2 N2 T2 E2 P2].
  assert (D ∖ list_to_set ps ∖ list_to_set ps' = D ∖ list_to_set (ps ++ ps')) as HD
    by (rewrite list_to_set_app_L; set_solver).
  rewrite HD in *. rewrite T1 in *. split; try done.
  - by eapply fires_trans.
  - intros p t [Hp|Hp]%elem_of_app Ht; [by eapply E1|].
    assert (p ∈ D ∖ list_to_set ps) as HpD by (by eapply fires_sub).
    destruct (same_expiries_fires _ _ _ _ F1 p HpD) as [_ He]. rewrite Ht in He.
    destruct (timers w1 !! p) as [t1|] eqn:Ht1; [|done]. injection He as <-. eauto.
Qed.

Lemma visited_refl l D w :
  tw_inv n D w → next_ok D w → all_timers (pending (l - 1) (currentTime_ (this w))) D w →
  visited l D w [] w.
Proof.
  intros. assert (D ∖ list_to_set [] = D) as HD by set_solver.
  split; rewrite ?HD; try done; [|set_solver]. by apply fires_nil.
Qed.

(** The levels from the top down to 1. *)
Lemma advance_levels_ok k D w :
  tw_inv n D w → next_ok D w → (k < n)%nat →
  all_timers (pending (Z.of_nat k) (currentTime_ (this w))) D w →
  ∃ w' ps, advance_levels k w = Done w' ∧ visited 1 D w ps w'.
Proof.
  revert D w. induction k as [|k IH]; intros D w HI Hnx Hk Hall.
  { exists w, []. split; [done|]. by apply visited_refl. }
  cbn [advance_levels].
  destruct (lookup_lt_is_Some_2 (wheels_ (this w)) (S k)) as [wh Hwh];
    [by rewrite (proj1 (inv_wheels _ _ _ HI))|].
  destruct (proj2 (inv_wheels _ _ _ HI) _ _ Hwh) as (Hsl & Hiv & _).
  rewrite aread_nat, Hwh. orun. rewrite Hsl, Hiv, land_255.
  assert (∃ w1 ps, (if currentTime_ (this w) `mod` 2 ^ (8 * Z.of_nat (S k)) =? 0
            then processSlot (Z.of_nat (S k)) ((currentTime_ (this w) `div` 2 ^ (8 * Z.of_nat (S k))) `mod` 256) w
            else Done w) = Done w1 ∧ visited (Z.of_nat (S k)) D w ps w1) as (w1 & ps & Hrun & HV).
  { destruct (Z.eqb_spec (currentTime_ (this w) `mod` 2 ^ (8 * Z.of_nat (S k))) 0) as [Hm|Hm].
    - by apply processSlot_ok; try done; lia.
    - exists w, []. split; [done|]. apply visited_refl; try done.
      intros p t Hp Ht. destruct (Hall p t Hp Ht) as [|[Hd Hle]]; [by left|right].
      split; [done|]. enough (level t ≠ Z.of_nat (S k)) by lia. intros E.
      destruct Hd as (_ & Hd & _). unfold width in Hd. by rewrite E in Hd. }
  rewrite Hrun. orun. destruct (IH (D ∖ list_to_set ps) w1) as (w2 & ps' & Hrun' & HV').
  { apply HV. } { apply HV. } { lia. }
  { rewrite (visited_time _ _ _ _ _ HV). eapply all_timers_mono; [|apply (visited_pending _ _ _ _ _ HV)].
    intros t. unfold pending. replace (Z.of_nat (S k) - 1) with (Z.of_nat k) by lia. done. }
  exists w2, (ps ++ ps'). split; [done|]. by eapply visited_trans.
Qed.

(** * A millisecond, and many *)

(** The time went on to [currentTime_ w']: the timers [ps] fired, all of them
    expired; the others wait in a slot that is visited at their expiry. *)
Record elapsed D w (ps : list ptr) w' : Prop := {
  elapsed_fires : fires D w ps w';
  elapsed_inv : tw_inv n (D ∖ list_to_set ps) w';
  elapsed_next : next_ok (D ∖ list_to_set ps) w';
  elapsed_expired p t : p ∈ ps → timers w !! p = Some t → expiryTime t <= currentTime_ (this w');
  elapsed_waiting : all_timers (placed (currentTime_ (this w'))) (D ∖ list_to_set ps) w'
}.

Lemma elapsed_trans D w ps w1 ps' w2 :
  elapsed D w ps w1 → elapsed (D ∖ list_to_set ps) w1 ps' w2 →
  currentTime_ (this w1) <= currentTime_ (this w2) → elapsed D w (ps ++ ps') w2.
Proof.
  intros [F1 I1 N1 E1 P1] [F2 I2 N2 E2 P2] Hle.
  assert (D ∖ list_to_set ps ∖ list_to_set ps' = D ∖ list_to_set (ps ++ ps')) as HD
    by (rewrite list_to_set_app_L; set_solver).
  rewrite HD in *. split; try done.
  - by eapply fires_trans.
  - intros p t [Hp|Hp]%elem_of_app Ht; [pose proof (E1 p t Hp Ht); lia|].
    assert (p ∈ D ∖ list_to_set ps) as HpD by (by eapply fires_sub).
    destruct (same_expiries_fires _ _ _ _ F1 p HpD) as [_ He]. rewrite Ht in He.
    destruct (timers w1 !! p) as [t1|] eqn:Ht1; [|done]. injection He as <-. eauto.
Qed.

(** Timers as they are between two ticks. *)
Definition resting (cur : Z) (t : Timer) : Prop := placed cur t ∨ overdue cur t.

Lemma advance_ok D w :
  tw_inv n D w → next_ok D w → currentTime_ (this w) + 1 < 2 ^ 64 - 1 →
  all_timers (resting (currentTime_ (this w))) D w →
  ∃ w' ps, advance w = Done w' ∧ elapsed D w ps w' ∧
           currentTime_ (this w') = currentTime_ (this w) + 1.
Proof.
  intros HI Hnx Hmax Hall. pose proof (inv_time _ _ _ HI) as Hcur. unfold advance.
  set (cur := currentTime_ (this w)) in *.
  set (w0 := with_this (λ tw, {| tw with currentTime_ := u64 (currentTime_ tw + 1) |}) w).
  assert (currentTime_ (this w0) = cur + 1) as Hc0 by (subst w0; cbn; apply wrap_small; lia).
  assert (tw_inv n D w0) as HI0.
  { destruct HI. split; try done; [by apply (links_ext _ _ w)|]. rewrite Hc0. lia. }
  assert (fires D w [] w0) as HF0 by (by apply fires_nil).
  assert (all_timers (λ t, placed (cur + 1) t ∨ due (cur + 1) t) D w0) as Hall0.
  { intros p t Hp Ht. apply placed_step. by eapply Hall. }
  assert (∀ p t, p ∈ D → timers w0 !! p = Some t → level t <= Z.of_nat (n - 1)) as Hlev.
  { intros p t Hp Ht. destruct (links_timer _ _ _ (inv_links _ _ _ HI0) p Hp)
      as (t' & b & i & Ht' & _ & Hb & _). simplify_eq.
    apply get_bucket_inv in Hb as (wh & ? & _ & Hwh%lookup_lt_Some & _).
    rewrite (proj1 (inv_wheels _ _ _ HI0)) in Hwh. lia. }
  rewrite (proj1 (inv_wheels _ _ _ HI0)).
  destruct (advance_levels_ok (n - 1) D w0 HI0 Hnx) as (w1 & ps & Hrun & HV).
  { lia. }
  { intros p t Hp Ht. rewrite Hc0. destruct (Hall0 p t Hp Ht) as [|Hd]; [by left|right]. eauto. }
  rewrite Hrun. orun. destruct HV as [F1 I1 N1 T1 E1 P1].
  destruct (lookup_lt_is_Some_2 (wheels_ (this w1)) 0) as [wh Hwh];
    [rewrite (proj1 (inv_wheels _ _ _ I1)); lia|].
  destruct (proj2 (inv_wheels _ _ _ I1) _ _ Hwh) as (Hsl & _ & _).
  rewrite (aread_Some _ 0 wh) by done. orun. rewrite Hsl, land_255.
  destruct (processSlot_ok 0 _ w1 I1 N1) as (w2 & ps' & Hrun' & HV').
  { lia. } { apply Z.mod_1_r. } { by rewrite T1. }
  replace (2 ^ (8 * 0)) with 1 in Hrun' by done. rewrite Z.div_1_r in Hrun'. rewrite Hrun'.
  pose proof (visited_trans 1 0 _ _ _ _ _ _ (Build_visited 1 _ _ _ _ F1 I1 N1 T1 E1 P1) HV')
    as [F2 I2 N2 T2 E2 P2].
  rewrite Hc0 in *. exists w2, (ps ++ ps'). split; [done|]. split; [split; try done|done].
  - apply (fires_trans _ _ [] w0); [done|]. by replace (D ∖ list_to_set []) with D by set_solver.
  - rewrite T2. intros p t Hp Ht. by eapply E2.
  - rewrite T2. eapply all_timers_mono; [|exact P2]. intros t [|[Hd Hle]]; [done|].
    destruct Hd as [? _]. lia.
Qed.

Lemma advance_to_ok fuel newTime D w :
  tw_inv n D w → next_ok D w → newTime < 2 ^ 64 - 1 → currentTime_ (this w) < newTime →
  all_timers (resting (currentTime_ (this w))) D w →
  newTime - currentTime_ (this w) <= Z.of_nat fuel →
  ∃ w' ps, advance_to fuel newTime w = Done w' ∧ elapsed D w ps w' ∧
           currentTime_ (this w') = newTime.
Proof.
  revert D w. induction fuel as [|fuel IH]; intros D w HI Hnx Hmax Hlt Hall Hfuel; [lia|].
  cbn [advance_to]. rewrite (proj2 (Z.ltb_lt _ _) Hlt).
  destruct (advance_ok D w HI Hnx) as (w1 & ps & Hrun & HE & Hc1); [lia|done|].
  rewrite Hrun. orun. destruct (decide (currentTime_ (this w1) = newTime)) as [Heq|Hne].
  - exists w1, ps. split; [|done]. destruct fuel; cbn; by rewrite Heq, Z.ltb_irrefl.
  - destruct (IH (D ∖ list_to_set ps) w1) as (w2 & ps' & Hrun' & HE' & Hc2);
      [apply HE|apply HE|lia|lia| |lia|].
    { eapply all_timers_mono; [|apply (elapsed_waiting _ _ _ _ HE)]. intros t. by left. }
    exists w2, (ps ++ ps'). split; [done|]. split; [|done]. eapply elapsed_trans; [done..|]. lia.
Qed.
End slots.

(** * Refreshing the record of the next expiry *)

Section refresh.
Context (n : nat).
Implicit Types (w : world) (D : gset ptr).

(** Scanning a list of active timers takes the minimum. *)
Lemma scan_ok w ps next :
  (∀ p, p ∈ ps → ∃ t, timers w !! p = Some t ∧ active t = true ∧ 0 < expiryTime t) → 0 <= next →
  ∃ next', foldl (min_expiry w) (Done next) ps = Done next' ∧
    (next' = next ∨ ∃ p t, p ∈ ps ∧ timers w !! p = Some t ∧ expiryTime t = next') ∧
    (0 < next → 0 < next' <= next) ∧
    (∀ p t, p ∈ ps → timers w !! p = Some t → 0 < next' <= expiryTime t).
Proof.
  revert next. induction ps as [|p ps IH]; intros next Hps Hnext.
  { exists next. split_and!; [done|by left|lia|set_solver]. }
  destruct (Hps p) as (t & Ht & Ha & Hpos); [by left|].
  cbn [foldl]. unfold min_expiry at 2. orun. rewrite Ht. orun. rewrite Ha. cbn [negb].
  fold (next_with next (expiryTime t)).
  assert (0 < next_with next (expiryTime t) <= expiryTime t ∧
          (0 < next → next_with next (expiryTime t) <= next) ∧
          (next_with next (expiryTime t) = next ∨ next_with next (expiryTime t) = expiryTime t))
    as (Hle & Hle' & Hor).
  { unfold next_with. destruct (Z.eqb_spec next 0), (Z.ltb_spec (expiryTime t) next); cbn; lia. }
  destruct (IH (next_with next (expiryTime t))) as (next' & Hrun & Hfrom & Hdown & Hall);
    [by intros; apply Hps; right|lia|].
  exists next'. split; [done|]. split_and!.
  - destruct Hfrom as [->|(p' & t' & Hp' & ?)]; [|right; exists p', t'; set_solver].
    destruct Hor as [|E]; [by left|right]. exists p, t. set_solver.
  - lia.
  - intros p' t' [->|Hp']%elem_of_cons Ht'; [|eauto]. simplify_eq. lia.
Qed.

Lemma foldl_concat {A B} (f : B → A → B) (ls : list (list A)) b :
  foldl (λ acc l, foldl f acc l) b ls = foldl f b (concat ls).
Proof. revert b. induction ls as [|l ls IH]; intros b; cbn; [done|]. by rewrite foldl_app. Qed.

(** The buckets hold exactly the timers of the wheel. *)
Lemma in_buckets D w p :
  links D None w → p ∈ concat (concat (buckets_ <$> wheels_ (this w))) ↔ p ∈ D.
Proof.
  intros HL. split.
  - intros (b & Hb & Hp)%list_elem_of_In%in_concat. apply list_elem_of_In in Hb, Hp.
    apply list_elem_of_In, in_concat in Hb as (bs & Hbs & Hb). apply list_elem_of_In in Hbs, Hb.
    apply list_elem_of_fmap in Hbs as (wh & -> & Hwh).
    apply list_elem_of_lookup in Hwh as [l Hl], Hb as [s Hs], Hp as [i Hi].
    eapply (links_bucket _ _ _ HL (Z.of_nat l) (Z.of_nat s) b i); try done.
    unfold get_bucket. rewrite aread_nat, Hl. orun. by rewrite aread_nat, Hs.
  - intros Hp. destruct (links_timer _ _ _ HL p Hp) as (t & b & i & _ & _ & Hb & Hi & _).
    apply get_bucket_inv in Hb as (wh & _ & _ & Hwh & Hb).
    apply list_elem_of_In, in_concat. exists b. split; [|by eapply list_elem_of_In, list_elem_of_lookup_2].
    apply in_concat. exists (buckets_ wh). split; [|by eapply list_elem_of_In, list_elem_of_lookup_2].
    apply list_elem_of_In, list_elem_of_fmap. exists wh. split; [done|]. by eapply list_elem_of_lookup_2.
Qed.

Lemma refreshNextExpiry_ok D w :
  tw_inv n D w → next_ok D w →
  ∃ next, refreshNextExpiry w =
            Done (with_this (λ tw, {| tw with nextExpiryTime_ := next; nextExpiryDirty_ := false |}) w) ∧
          is_next next D w.
Proof.
  intros HI [Hpos Hnx]. unfold refreshNextExpiry. rewrite (inv_count _ _ _ HI).
  destruct (Z.eqb_spec (Z.of_nat (size D)) 0) as [Hz|Hz].
  { exists 0. split; [done|]. left. split; [|done]. apply leibniz_equiv, size_empty_iff. lia. }
  assert (D ≠ ∅) as HD by (intros ->; by rewrite size_empty in Hz).
  destruct (nextExpiryDirty_ (this w) || (nextExpiryTime_ (this w) =? 0)) eqn:Hd.
  - unfold updateNextExpiryTime.
    destruct (scan_ok w (concat (concat (buckets_ <$> wheels_ (this w)))) 0) as (next & Hrun & Hfrom & _ & Hall).
    { intros p Hp. apply (in_buckets D) in Hp; [|apply HI]. destruct (inv_dom _ _ _ HI p Hp) as (t & Ht & Ha & _).
      exists t. split_and!; try done. by eapply Hpos. }
    { lia. }
    exists next. split.
    + assert (foldl (λ acc wh, foldl (λ acc b, foldl (min_expiry w) acc b) acc (buckets_ wh)) (Done 0) (wheels_ (this w))
              = Done next) as ->; [|done].
      rewrite <- Hrun, <- !foldl_concat. by rewrite foldl_fmap.
    + right. destruct (set_choose_L D HD) as [p0 Hp0].
      destruct (inv_dom _ _ _ HI p0 Hp0) as (t0 & Ht0 & _).
      assert (all_timers (λ t, 0 < next <= expiryTime t) D w) as Hlow.
      { intros p t Hp Ht. eapply Hall; [|done]. apply (in_buckets D); [apply HI|done]. }
      split; [|done]. destruct Hfrom as [->|(p & t & Hp & ?)].
      * specialize (Hlow _ _ Hp0 Ht0). cbv beta in Hlow. lia.
      * exists p, t. split; [|done]. apply (in_buckets D w); [apply HI|done].
  - apply orb_false_iff in Hd as [Hd Hne]. destruct Hnx as [|Hnx]; [congruence|].
    eexists. split; [done|exact Hnx].
Qed.
End refresh.

(** The queued operations and the cancellations, one by one: each keeps the
    invariant of the wheel and says what happened to the timer it names. *)

Import TimerWheel.

(** The wheel between two ticks. *)
Record ready (n : nat) (D : gset ptr) (w : world) : Prop := {
  ready_inv : tw_inv n D w;
  ready_next : next_ok D w;
  ready_resting : all_timers (resting (currentTime_ (this w))) D w
}.

(** The timers other than [p] are as they were, up to their positions; those
    outside the wheel are untouched. *)
Definition others_same (D : gset ptr) (p : ptr) (m m' : gmap ptr Timer) : Prop :=
  (∀ p', p' ≠ p → option_Forall2 same_but_pos (m !! p') (m' !! p')) ∧
  (∀ p', p' ∉ D → p' ≠ p → m' !! p' = m !! p').

Section ops.
Context (n : nat) (Hn : (1 <= n <= 8)%nat).
Implicit Types (w : world) (D : gset ptr).

Lemma resting_same cur t t' : same_but_pos t t' → resting cur t → resting cur t'.
Proof.
  intros (Hc%core_expiry & Hl & Hs). unfold resting, placed, overdue, visit, width.
  by rewrite Hc, Hl, Hs.
Qed.

(** A timer of the wheel changes, its place does not. *)
Lemma links_update D ex w p t t' :
  links D ex w → timers w !! p = Some t →
  level t' = level t → slotIndex t' = slotIndex t → posInBucket t' = posInBucket t →
  links D ex (store_timer p t' w).
Proof.
  intros [Hb Hd] Ht El Es Ep. split.
  - intros l s b i p' Hbk Hi Hex. destruct (Hb l s b i p' Hbk Hi Hex) as (Hp' & t0 & Ht0 & ?).
    split; [done|]. cbn. destruct (decide (p' = p)) as [->|Hne].
    + simplify_eq. rewrite lookup_insert_eq. exists t'. rewrite El, Es, Ep. done.
    + rewrite lookup_insert_ne by done. eauto.
  - intros p' Hp'. destruct (Hd p' Hp') as (t0 & b & i & Ht0 & ?). cbn.
    destruct (decide (p' = p)) as [->|Hne].
    + simplify_eq. rewrite lookup_insert_eq. exists t', b, i. rewrite El, Es, Ep. done.
    + rewrite lookup_insert_ne by done. eauto 10.
Qed.

Lemma others_expiries D p w w' :
  others_same D p (timers w) (timers w') → same_expiries D w (D ∖ {[p]}) w'.
Proof.
  intros [Hs _] p' [Hp' Hne]%elem_of_difference. split; [done|].
  specialize (Hs p' ltac:(set_solver)). destruct Hs as [x y (Hc%core_expiry & _)|]; [|done].
  cbn. by rewrite Hc.
Qed.

Lemma others_resting D p w w' :
  others_same D p (timers w) (timers w') → currentTime_ (this w') = currentTime_ (this w) →
  all_timers (resting (currentTime_ (this w))) D w →
  all_timers (resting (currentTime_ (this w'))) (D ∖ {[p]}) w'.
Proof.
  intros [Hs _] ->. apply all_timers_step; [apply resting_same|].
  intros p' Hp'. split; [set_solver|]. apply Hs. set_solver.
Qed.

(** [w] with another map, other buckets and other places of timers. *)
Definition dropped (k : Z) (ws : list Wheel) (m : gmap ptr Timer) (w : world) (d : bool) : world :=
  with_this (λ tw, {| tw with wheels_ := ws; nextExpiryDirty_ := d;
                              timerMap_ := delete k (timerMap_ tw);
                              activeTimerCount_ := u64 (activeTimerCount_ tw - 1) |})
            {| w with timers := m |}.

Lemma drop_active_ok D w k p t :
  ready n D w → timerMap_ (this w) !! k = Some p → timers w !! p = Some t →
  ∃ ws m d t', drop_active k p w = Done (dropped k ws m w d) ∧
    ready n (D ∖ {[p]}) (dropped k ws m w d) ∧ p ∈ D ∧ id t = k ∧
    others_same D p (timers w) m ∧ m !! p = Some t' ∧ core t' = core {| t with active := false |}.
Proof.
  intros [HI Hnx Hrest] Hk Ht. destruct (inv_map _ _ _ HI _ _ Hk) as (Hp & t0 & Ht0 & Hid). simplify_eq.
  unfold drop_active. rewrite Ht. orun. set (ta := {| t with active := false |}).
  set (w0 := store_timer p ta w).
  assert (links D None w0) as HL0 by (by eapply links_update; [apply HI|..]).
  assert (timers w0 !! p = Some ta) as Ht0 by (cbn; by rewrite lookup_insert_eq).
  destruct (removeTimerFromWheel_ok n Hn D w0 p ta (inv_wheels _ _ _ HI) HL0 Hp Ht0)
    as (w1 & m & ws & Hrun & Hw1 & Hwf & HL & Hup & Hout).
  rewrite Hrun. orun. rewrite Hw1.
  set (d := nextExpiryDirty_ (this w) || (expiryTime t =? nextExpiryTime_ (this w))).
  assert (others_same D p (timers w) m) as Hos.
  { split.
    - intros p' Hne. specialize (Hup p'). cbn in Hup. by rewrite lookup_insert_ne in Hup.
    - intros p' Hp' Hne. rewrite Hout by set_solver. cbn. by rewrite lookup_insert_ne. }
  exists ws, m, d, ta. split; [done|]. split_and!; try done.
  - split.
    + eapply (inv_drop n Hn D w); try done; [|apply Hos].
      eapply (links_ext _ _ w1); [by rewrite Hw1..|done].
    + eapply (next_ok_drop n Hn D w); try done. by apply others_expiries.
    + by eapply others_resting.
  - rewrite Hout by set_solver. done.
Qed.

Lemma dispose_ok p t w :
  timers w !! p = Some t →
  dispose p w = Done {| w with timers := if heap t then delete p (timers w) else timers w;
                               destroyed := destroyed w ++ option_list (coro t) |}.
Proof.
  intros Ht. unfold dispose. rewrite Ht. orun.
  destruct (coro t), (heap t); cbn; rewrite ?app_nil_r; by destruct w.
Qed.

(** The wheel does not see a timer outside it go. *)
Lemma ready_outside D w p m w' :
  ready n D w → p ∉ D → (∀ p', p' ≠ p → m !! p' = timers w !! p') →
  timers w' = m → this w' = this w → ready n D w'.
Proof.
  intros [HI [Hpos Hnx] Hrest] Hp Hm Htm Hthis.
  assert (∀ p', p' ∈ D → timers w' !! p' = timers w !! p') as Hsame
    by (intros p' Hp'; rewrite Htm; apply Hm; set_solver).
  assert (∀ Q, all_timers Q D w → all_timers Q D w') as Hall.
  { intros Q HQ p' t' Hp' Ht'. rewrite Hsame in Ht' by done. eauto. }
  destruct HI as [I1 [L1 L2] I3 I4 I5 I6 I7]. split; [split|split|]; rewrite ?Hthis; eauto.
  - split.
    + intros l s b i p' Hb Hi Hex. unfold get_bucket in Hb. rewrite Hthis in Hb.
      destruct (L1 l s b i p' Hb Hi Hex) as [Hp' ?]. split; [done|]. by rewrite Hsame.
    + intros p' Hp'. destruct (L2 p' Hp') as (t & b & i & Ht & ?). exists t, b, i.
      rewrite Hsame by done. unfold get_bucket. by rewrite Hthis.
  - intros k p' Hk. destruct (I3 k p' Hk) as [Hp' ?]. split; [done|]. by rewrite Hsame.
  - intros p' Hp'. rewrite Hsame by done. eauto.
  - destruct Hnx as [|Hnx]; [by left|right].
    destruct Hnx as [|((p0 & t0 & Hp0 & Ht0 & E) & Hle)]; [by left|right].
    split; [|eauto]. exists p0, t0. by rewrite Hsame.
Qed.

(** Adding a timer that is in memory and not in the wheel. *)
Lemma add_ok D w p t :
  ready n D w → p ∉ D → timers w !! p = Some t → active t = true → 0 < expiryTime t →
  expiryTime t - currentTime_ (this w) < 2 ^ (8 * Z.of_nat n) →
  timerMap_ (this w) !! id t = None → Z.of_nat (size D) + 1 < 2 ^ 64 →
  ∃ w1 ws t', addTimerToWheel p (expiryTime t) w = Done w1 ∧ core t' = core t ∧
    let w' := with_this (λ tw, {| tw with timerMap_ := <[id t := p]> (timerMap_ tw);
                                          activeTimerCount_ := u64 (activeTimerCount_ tw + 1) |}) w1 in
    w1 = with_this (λ tw, {| tw with wheels_ := ws;
           nextExpiryTime_ := next_with (nextExpiryTime_ (this w)) (expiryTime t) |})
           {| w with timers := <[p := t']> (timers w) |} ∧
    ready n ({[p]} ∪ D) w'.
Proof.
  intros [HI Hnx Hrest] Hp Ht Ha Hpos Hhor Hid Hsz. pose proof (inv_time _ _ _ HI).
  destruct (addTimerToWheel_ok n Hn D None w p t (inv_wheels _ _ _ HI) (inv_links _ _ _ HI) Hp)
    as (w1 & t' & b & Hrun & [ws Hw1] & Hwf & HL & Htm & Hcore & Hpl & _); [done|done|lia|lia|done|].
  exists w1, ws, t'. split; [done|]. split; [done|]. rewrite <- Htm. split; [exact Hw1|].
  set (w' := with_this _ w1).
  assert (timers w' !! p = Some t') as Ht' by (subst w'; cbn; by rewrite Htm, lookup_insert_eq).
  assert (∀ p', p' ≠ p → timers w' !! p' = timers w !! p') as Hoth
    by (intros; subst w'; cbn; by rewrite Htm, lookup_insert_ne).
  assert (ident t' = ident t) as [= Ei Ea] by (by apply ident_core).
  assert (timerMap_ (this w') = <[id t := p]> (timerMap_ (this w))) as Hmap by (subst w'; cbn; by rewrite Hw1).
  assert (currentTime_ (this w') = currentTime_ (this w)) as Hcur by (subst w'; cbn; by rewrite Hw1).
  assert (size ({[p]} ∪ D) = S (size D)) as Hsize
    by (rewrite size_union, size_singleton by set_solver; lia).
  split; [split|..]; try done.
  - by apply (links_ext _ _ w1).
  - intros k p' Hk. rewrite Hmap in Hk. apply lookup_insert_Some in Hk as [[<- <-]|[Hne Hk]].
    + split; [set_solver|]. exists t'. split; [done|congruence].
    + destruct (inv_map _ _ _ HI _ _ Hk) as (Hp' & tt & Htt & ?). split; [set_solver|].
      exists tt. rewrite Hoth; [done|]. intros ->. done.
  - intros p' [->%elem_of_singleton|Hp']%elem_of_union.
    + exists t'. rewrite Hmap, Ei, Ea, lookup_insert_eq. done.
    + destruct (inv_dom _ _ _ HI _ Hp') as (tt & Htt & Hat & Hm). exists tt.
      rewrite Hoth by (by intros ->). rewrite Hmap, lookup_insert_ne by congruence. done.
  - subst w'. cbn. rewrite Hw1, Hsize. cbn. rewrite (inv_count _ _ _ HI), wrap_small; lia.
  - rewrite Hsize. lia.
  - rewrite Hcur. apply HI.
  - assert (expiryTime t' = expiryTime t) as He by (by apply core_expiry).
    apply (next_ok_add n Hn D w w' p t'); try done; [by rewrite He| |by subst w'; cbn; rewrite Hw1, He|by subst w'; cbn; rewrite Hw1].
    intros p' Hp'. split; [done|]. rewrite Hoth; [done|by intros ->].
  - rewrite Hcur. intros p' tt [->%elem_of_singleton|Hp']%elem_of_union Htt.
    + simplify_eq. case_decide; [left|right]; [by destruct Hpl|done].
    + rewrite Hoth in Htt by (by intros ->). eauto.
Qed.
End ops.
