(* ===== verification/TimerWheelSpec.v ===== *)
(** What the timer wheel promises, without wheels: a map from ids to timers from
    which operations add and remove, and from which time takes the expired ones.
    The operations and [tick] refine it. *)

From S2P Require Import Prelude TimerWheel TimerWheelInv TimerWheelFire TimerWheelTick.
Import TimerWheel.

(** * The abstract timer service *)

Record svc := mkSvc {
  armed : gmap Z Timer;
  cancelled : gset Z;
  detached : gset Z;
  newest : Z;
  ended : list handle;
  notified : list (ptr * Z);
  readings : nat
}.

(** Cancel an id: an armed timer goes and its coroutine ends; an id that was handed
    out but has not arrived yet is remembered. *)
Definition svc_cancel (k : Z) (s : svc) : svc :=
  match armed s !! k with
  | Some t => {| s with armed := delete k (armed s); ended := ended s ++ option_list (coro t) |}
  | None => if newest s <? k then {| s with cancelled := {[k]} ∪ cancelled s |} else s
  end.

Definition svc_detach (k : Z) (s : svc) : svc :=
  match armed s !! k with
  | Some t => {| s with armed := delete k (armed s) |}
  | None => if newest s <? k then {| s with detached := {[k]} ∪ detached s |} else s
  end.

(** What cancelling answers. *)
Definition svc_known (k : Z) (s : svc) : bool :=
  bool_decide (is_Some (armed s !! k)) || (newest s <? k).

Section spec.
Context (clock : nat → Z).

(** One queued operation; [h] gives the timers that wait to be added. *)
Definition svc_op (h : gmap ptr Timer) (s : svc) (op : Op) : svc :=
  match op with
  | ADD p k =>
      let s := {| s with newest := Z.max (newest s) k |} in
      if decide (k ∈ detached s) then {| s with detached := detached s ∖ {[k]} |}
      else match h !! p with
      | None => s
      | Some t =>
          if decide (k ∈ cancelled s)
          then {| s with cancelled := cancelled s ∖ {[k]}; ended := ended s ++ option_list (coro t) |}
          else {| s with armed := <[k := core t]> (armed s) |}
      end
  | UPDATE k d =>
      match armed s !! k with
      | None => s
      | Some t => {| s with armed := <[k := {| t with duration_ms := d;
                                                      expiryTime := clock (readings s) + d |}]> (armed s);
                            readings := S (readings s) |}
      end
  | REMOVE k f arg =>
      let s := svc_cancel k s in
      {| s with notified := notified s ++ option_list (f ← f; Some (f, arg)) |}
  end.

Definition svc_ops (h : gmap ptr Timer) (ops : list Op) (s : svc) : svc := foldl (svc_op h) s ops.
End spec.

(** * The wheel as a service *)

(** The timers by id, without their places. *)
Definition view (w : world) : gmap Z Timer :=
  omap (λ p, core <$> timers w !! p) (timerMap_ (this w)).

Definition abs (w : world) : svc :=
  mkSvc (view w) (cancelledPending_ (this w)) (detachedPending_ (this w)) (maxAddedId_ (this w))
        (destroyed w) (called w) (clock_reads w).

(** What an operation leaves alone. *)
Definition stable (w : world) :=
  (q w, fired_raw_ (this w), currentTime_ (this w),
   (timer_operations_queue (this w), ops_size (this w), timerIdCounter_ (this w))).

Definition add_ptr (op : Op) : option ptr := match op with ADD p _ => Some p | _ => None end.
Definition add_key (op : Op) : option Z := match op with ADD _ k => Some k | _ => None end.

(** Operations that may be drained: a timer is queued once, under a fresh id, and
    every expiry is within the span of the wheel ([2 ^ (8 * n)] ms). *)
Record queue_ok (clock : nat → Z) (n : nat) (h : gmap ptr Timer) (ops : list Op)
    (D : gset ptr) (w : world) : Prop := {
  qo_add p k : ADD p k ∈ ops →
    p ∉ D ∧ timerMap_ (this w) !! k = None ∧
    ∃ t, h !! p = Some t ∧ timers w !! p = Some t ∧ active t = true ∧ id t = k ∧
         0 < expiryTime t < currentTime_ (this w) + 2 ^ (8 * Z.of_nat n);
  qo_ptrs : NoDup (omap add_ptr ops);
  qo_keys : NoDup (omap add_key ops);
  qo_update k d j : UPDATE k d ∈ ops → (clock_reads w <= j <= clock_reads w + length ops)%nat →
    0 < clock j + d < 2 ^ 64 ∧ clock j + d < currentTime_ (this w) + 2 ^ (8 * Z.of_nat n);
  qo_size : Z.of_nat (size D) + Z.of_nat (length ops) < 2 ^ 64
}.

Section refinement.
Context (clock : nat → Z) (n : nat) (Hn : (1 <= n <= 8)%nat).
Implicit Types (w : world) (D : gset ptr).

Lemma view_lookup w k : view w !! k = p ← timerMap_ (this w) !! k; core <$> timers w !! p.
Proof. apply lookup_omap. Qed.

Lemma view_armed D w k p :
  tw_inv n D w → timerMap_ (this w) !! k = Some p →
  p ∈ D ∧ ∃ t, timers w !! p = Some t ∧ id t = k ∧ active t = true ∧ view w !! k = Some (core t).
Proof.
  intros HI Hk. destruct (inv_map _ _ _ HI _ _ Hk) as (Hp & t & Ht & <-).
  destruct (inv_dom _ _ _ HI _ Hp) as (t' & Ht' & Ha & _). simplify_eq.
  split; [done|]. exists t. rewrite view_lookup, Hk. cbn. by rewrite Ht.
Qed.

Lemma view_none w k : timerMap_ (this w) !! k = None → view w !! k = None.
Proof. intros Hk. by rewrite view_lookup, Hk. Qed.

(** The view after the entry of [p] was dropped or replaced. *)
Lemma view_others D w m w' k p :
  tw_inv n D w → timerMap_ (this w) !! k = Some p ∨ p ∉ D →
  (∀ p', p' ≠ p → p' ∈ D → option_Forall2 same_but_pos (timers w !! p') (timers w' !! p')) →
  timerMap_ (this w') = m → (∀ k', k' ≠ k → m !! k' = timerMap_ (this w) !! k') →
  ∀ k', k' ≠ k → view w' !! k' = view w !! k'.
Proof.
  intros HI Hk Hs Hm Hm' k' Hne. rewrite !view_lookup, Hm, Hm' by done.
  destruct (timerMap_ (this w) !! k') as [p'|] eqn:Hk'; [|done]. cbn.
  destruct (inv_map _ _ _ HI _ _ Hk') as (Hp' & t' & Ht' & Hid').
  assert (p' ≠ p) as Hpp.
  { intros ->. destruct Hk as [Hk|]; [|done].
    destruct (inv_map _ _ _ HI _ _ Hk) as (_ & t & Ht & Hid). congruence. }
  destruct (Hs p' Hpp Hp') as [x y (Hc & _)|]; [|done]. cbn. by rewrite Hc.
Qed.

Lemma queue_ok_nil h D w : Z.of_nat (size D) < 2 ^ 64 → queue_ok clock n h [] D w.
Proof.
  split; [by intros ?? ?%elem_of_nil|constructor|constructor|by intros ??? ?%elem_of_nil|cbn; lia].
Qed.

Lemma queue_ok_tail h op ops D w D' w' :
  queue_ok clock n h (op :: ops) D w →
  (∀ p k, ADD p k ∈ ops → p ∉ D' ∧ timerMap_ (this w') !! k = None ∧ timers w' !! p = timers w !! p) →
  (clock_reads w <= clock_reads w' <= S (clock_reads w))%nat →
  currentTime_ (this w') = currentTime_ (this w) → (size D' <= S (size D))%nat →
  queue_ok clock n h ops D' w'.
Proof.
  intros [Q1 Q2 Q3 Q4 Q5] Hadd Hr Hc Hsz. split.
  - intros p k Hin. destruct (Hadd p k Hin) as (? & ? & ->).
    destruct (Q1 p k) as (_ & _ & ?); [by right|]. by rewrite Hc.
  - cbn in Q2. destruct op; cbn in Q2; [by apply NoDup_cons in Q2 as [_ ?]|done..].
  - cbn in Q3. destruct op; cbn in Q3; [by apply NoDup_cons in Q3 as [_ ?]|done..].
  - intros k d j Hin Hj. rewrite Hc. eapply Q4; [by right|]. cbn. lia.
  - cbn in Q5. lia.
Qed.

(** Removing an armed timer, with or without the end of its coroutine. *)
Lemma drop_view D w k p t :
  ready n D w → timerMap_ (this w) !! k = Some p → timers w !! p = Some t →
  ∃ w', drop_active k p w = Done w' ∧ ready n (D ∖ {[p]}) w' ∧
    abs w' = {| (abs w) with armed := delete k (view w) |} ∧ stable w' = stable w ∧
    timerMap_ (this w') = delete k (timerMap_ (this w)) ∧
    (∀ p', p' ∉ D → timers w' !! p' = timers w !! p') ∧
    ∃ t', timers w' !! p = Some t' ∧ core t' = core {| t with active := false |}.
Proof.
  intros HR Hk Ht. destruct (drop_active_ok n Hn D w k p t HR Hk Ht)
    as (ws & m & d & t' & Hrun & HR' & Hp & Hid & Hos & Ht' & Hc).
  eexists. split; [exact Hrun|]. split; [done|]. split_and!; try done; [|by intros p' Hp'; apply Hos; set_solver|by exists t'].
  unfold abs. f_equal. apply map_eq. intros k'. destruct (decide (k' = k)) as [->|Hne].
  - rewrite lookup_delete_eq. apply view_none. cbn. by rewrite lookup_delete_eq.
  - rewrite lookup_delete_ne by done.
    eapply (view_others D w (delete k (timerMap_ (this w)))); eauto using ready_inv.
    + intros p' Hpp _. by apply Hos.
    + intros. by rewrite lookup_delete_ne.
Qed.

Lemma drop_dispose_ok D w k p t :
  ready n D w → timerMap_ (this w) !! k = Some p → timers w !! p = Some t →
  ∃ w', (w1 ← drop_active k p w; dispose p w1) = Done w' ∧ ready n (D ∖ {[p]}) w' ∧
    abs w' = svc_cancel k (abs w) ∧ stable w' = stable w ∧
    timerMap_ (this w') = delete k (timerMap_ (this w)) ∧
    (∀ p', p' ∉ D → timers w' !! p' = timers w !! p').
Proof.
  intros HR Hk Ht. destruct (view_armed D w k p (ready_inv _ _ _ HR) Hk) as (Hp & t0 & Ht0 & _ & _ & Hv).
  simplify_eq. destruct (drop_view D w k p t HR Hk Ht)
    as (w1 & Hrun & HR1 & Habs & Hst & Hmap & Hout & t1 & Ht1 & Hc).
  rewrite Hrun. orun. rewrite (dispose_ok _ _ _ Ht1). eexists. split; [done|].
  assert (coro t1 = coro t) as -> by (by injection Hc).
  split; [|split; [|split_and!; try done]].
  - eapply (ready_outside n Hn _ w1 p (if heap t1 then delete p (timers w1) else timers w1)); [done|set_solver| |done|done].
    intros p' Hne. destruct (heap t1); [|done]. by rewrite lookup_delete_ne.
  - unfold svc_cancel. cbn. rewrite Hv.
    injection Habs as Hv1 E1 E2 E3 E4 E5 E6. unfold abs. cbn.
    rewrite E1, E2, E3, E4, E5, E6. f_equal. rewrite <- Hv1. apply map_eq. intros k'.
    rewrite !view_lookup. cbn. destruct (timerMap_ (this w1) !! k') as [p'|] eqn:Hk'; [|done]. cbn.
    destruct (inv_map _ _ _ (ready_inv _ _ _ HR1) _ _ Hk') as [Hp' _].
    destruct (heap t1); [|done]. rewrite lookup_delete_ne; [done|set_solver].
  - intros p' Hp'. rewrite <- Hout by done. cbn. destruct (heap t1); [|done].
    rewrite lookup_delete_ne; [done|]. by intros ->.
Qed.

(** Remembering an id that has not arrived. *)
Lemma ready_with_this D w w' :
  ready n D w → timers w' = timers w → wheels_ (this w') = wheels_ (this w) →
  timerMap_ (this w') = timerMap_ (this w) → activeTimerCount_ (this w') = activeTimerCount_ (this w) →
  currentTime_ (this w') = currentTime_ (this w) →
  nextExpiryTime_ (this w') = nextExpiryTime_ (this w) →
  nextExpiryDirty_ (this w') = nextExpiryDirty_ (this w) → ready n D w'.
Proof.
  intros [HI [Hpos Hnx] Hrest] E1 E2 E3 E4 E5 E6 E7. split.
  - apply (inv_keep n D w); try done; [rewrite E2; apply HI|by eapply links_ext; [..|apply HI]|].
    intros. by rewrite E1.
  - split; [by unfold all_timers; rewrite E1|]. rewrite E6, E7.
    destruct Hnx as [|Hnx]; [by left|right]. unfold is_next, all_timers. by rewrite E1.
  - unfold all_timers. by rewrite E1, E5.
Qed.

Lemma apply_remove_ok h k f arg ops D w :
  ready n D w → queue_ok clock n h (REMOVE k f arg :: ops) D w →
  ∃ w' D', apply_remove k f arg w = Done w' ∧ ready n D' w' ∧ queue_ok clock n h ops D' w' ∧
           abs w' = svc_op clock h (abs w) (REMOVE k f arg) ∧ stable w' = stable w.
Proof.
  intros HR HQ. unfold apply_remove.
  assert (∃ w1 D', match timerMap_ (this w) !! k with
      | Some p => t ← deref (timers w !! p);
          if active t then w ← drop_active k p w; dispose p w else Done w
      | None => Done (if maxAddedId_ (this w) <? k
                then with_this (λ tw, {| tw with cancelledPending_ := {[k]} ∪ cancelledPending_ tw |}) w
                else w)
      end = Done w1 ∧ ready n D' w1 ∧ queue_ok clock n h ops D' w1 ∧
      abs w1 = svc_cancel k (abs w) ∧ stable w1 = stable w) as (w1 & D' & Hrun & HR1 & HQ1 & Ha1 & Hs1).
  { destruct (timerMap_ (this w) !! k) as [p|] eqn:Hk.
    - destruct (view_armed D w k p (ready_inv _ _ _ HR) Hk) as (Hp & t & Ht & _ & Hact & _).
      rewrite Ht. orun. rewrite Hact.
      destruct (drop_dispose_ok D w k p t HR Hk Ht) as (w1 & Hrun & HR1 & Ha & Hs & Hm & Hout).
      exists w1, (D ∖ {[p]}). split_and!; try done. eapply queue_ok_tail; [done|..].
      + intros p' k' Hin. destruct (qo_add _ _ _ _ _ _ HQ p' k') as (Hp' & Hk' & _); [by right|].
        split; [set_solver|]. split; [by rewrite Hm, lookup_delete_ne by congruence|]. by apply Hout.
      + assert (clock_reads w1 = clock_reads w) as ->; [|lia].
        apply (f_equal readings) in Ha. cbn in Ha. rewrite Ha. unfold svc_cancel.
        destruct (armed (abs w) !! k); [done|]. by case_bool.
      + by injection Hs.
      + pose proof (subseteq_size (D ∖ {[p]}) D ltac:(set_solver)). lia.
    - eexists _, D. split; [done|]. unfold svc_cancel. cbn. rewrite (view_none _ _ Hk).
      split; [|split; [|by case_bool]].
      + apply (ready_with_this D w); [done|by case_bool..].
      + eapply queue_ok_tail; [done|..].
        * intros p' k' Hin. destruct (qo_add _ _ _ _ _ _ HQ p' k') as (Hp' & Hk' & _); [by right|].
          by case_bool.
        * case_bool; cbn; lia.
        * by case_bool.
        * lia. }
  rewrite Hrun. orun. exists (match f with Some f => {| w1 with called := called w1 ++ [(f, arg)] |} | None => w1 end), D'.
  split; [done|]. destruct f; (split_and!; [by apply (ready_with_this D' w1)| | |done]).
  - by destruct HQ1.
  - unfold svc_op. rewrite <- Ha1. done.
  - by destruct HQ1.
  - unfold svc_op. rewrite <- Ha1. cbn. unfold abs. cbn. by rewrite app_nil_r.
Qed.

(** The entry [k] of the view after the timer [p] was added or updated under it. *)
Lemma view_insert D w w' k p t' :
  tw_inv n D w → timerMap_ (this w) !! k = Some p ∨ p ∉ D →
  (∀ p', p' ≠ p → p' ∈ D → option_Forall2 same_but_pos (timers w !! p') (timers w' !! p')) →
  timerMap_ (this w') = <[k := p]> (timerMap_ (this w)) → timers w' !! p = Some t' →
  view w' = <[k := core t']> (view w).
Proof.
  intros HI Hk Hs Hm Ht'. apply map_eq. intros k'. destruct (decide (k' = k)) as [->|Hne].
  - rewrite lookup_insert_eq, view_lookup, Hm, lookup_insert_eq. cbn. by rewrite Ht'.
  - rewrite lookup_insert_ne by done. eapply view_others; eauto.
    intros. by rewrite lookup_insert_ne.
Qed.

Lemma max_if a b : (if a <? b then b else a) = Z.max a b.
Proof. destruct (Z.ltb_spec a b); lia. Qed.

Lemma apply_add_ok h p k ops D w :
  ready n D w → queue_ok clock n h (ADD p k :: ops) D w →
  ∃ w' D', apply_add p k w = Done w' ∧ ready n D' w' ∧ queue_ok clock n h ops D' w' ∧
           abs w' = svc_op clock h (abs w) (ADD p k) ∧ stable w' = stable w.
Proof.
  intros HR HQ. unfold apply_add.
  destruct (qo_add _ _ _ _ _ _ HQ p k) as (Hp & Hk & t & Hh & Ht & Ha & Hid & Hexp); [by left|].
  assert (∀ p' k', ADD p' k' ∈ ops → p' ≠ p ∧ k' ≠ k) as Hfresh.
  { intros p' k' Hin. pose proof (qo_ptrs _ _ _ _ _ _ HQ) as N1. pose proof (qo_keys _ _ _ _ _ _ HQ) as N2.
    cbn in N1, N2. apply NoDup_cons in N1 as [N1 _], N2 as [N2 _].
    split; intros ->; [apply N1|apply N2]; apply list_elem_of_omap; eauto. }
  assert (∀ p' k', ADD p' k' ∈ ops → p' ∉ D ∧ timerMap_ (this w) !! k' = None) as Hlater.
  { intros p' k' Hin. destruct (qo_add _ _ _ _ _ _ HQ p' k') as (? & ? & _); [by right|done]. }
  set (w0 := with_this (λ tw, {| tw with maxAddedId_ := Z.max (maxAddedId_ tw) k |}) w).
  replace (with_this _ w) with w0 by (subst w0; unfold with_this; by rewrite max_if).
  assert (ready n D w0) as HR0 by (by apply (ready_with_this D w)).
  change (detachedPending_ (this w0)) with (detached (abs w)).
  change (cancelledPending_ (this w0)) with (cancelled (abs w)).
  change (timers w0) with (timers w). unfold svc_op. cbn [detached cancelled].
  destruct (decide (k ∈ detached (abs w))) as [Hd|Hd].
  { rewrite bool_decide_eq_true_2 by done. eexists _, D. split; [done|]. split; [|split].
    - by apply (ready_with_this D w0).
    - eapply queue_ok_tail; [done|..]; [|cbn; lia|done|lia]. intros p' k' Hin. by destruct (Hlater p' k' Hin).
    - done. }
  rewrite bool_decide_eq_false_2 by done. rewrite Hh.
  destruct (decide (k ∈ cancelled (abs w))) as [Hc|Hc].
  { rewrite bool_decide_eq_true_2 by done. erewrite dispose_ok by done. eexists _, D. split; [done|].
    assert (∀ p', p' ≠ p → (if heap t then delete p (timers w) else timers w) !! p' = timers w !! p') as Hm.
    { intros p' Hne. destruct (heap t); [|done]. by rewrite lookup_delete_ne. }
    split; [|split; [|split; [|done]]].
    - eapply (ready_outside n Hn D (with_this (λ tw, {| tw with cancelledPending_ := cancelledPending_ tw ∖ {[k]} |}) w0) p);
        [by apply (ready_with_this D w0)|done| |done|done]. done.
    - eapply queue_ok_tail; [done|..]; [|cbn; lia|done|lia]. intros p' k' Hin.
      destruct (Hlater p' k' Hin), (Hfresh p' k' Hin). split_and!; try done. by apply Hm.
    - unfold abs. cbn. f_equal. apply map_eq. intros k'. unfold view. rewrite !lookup_omap. cbn.
      destruct (timerMap_ (this w) !! k') as [p'|] eqn:Hk'; [|done]. cbn. rewrite Hm; [done|].
      intros ->. by destruct (inv_map _ _ _ (ready_inv _ _ _ HR) _ _ Hk'). }
  rewrite bool_decide_eq_false_2 by done. rewrite Ht. orun.
  pose proof (qo_size _ _ _ _ _ _ HQ) as Hsz. cbn in Hsz.
  destruct (add_ok n Hn D w0 p t HR0 Hp Ht Ha) as (w1 & ws & t' & Hrun & Hc' & Hw1 & HR1);
    [lia|cbn; lia|cbn; by rewrite Hid|lia|].
  rewrite Hrun. orun. eexists _, ({[p]} ∪ D). split; [done|]. split; [done|]. split; [|split].
  - eapply queue_ok_tail; [done|..].
    + intros p' k' Hin. destruct (Hlater p' k' Hin), (Hfresh p' k' Hin). rewrite Hw1. cbn.
      split; [set_solver|]. split; [rewrite lookup_insert_ne; congruence|]. by rewrite lookup_insert_ne.
    + rewrite Hw1. cbn. lia.
    + by rewrite Hw1.
    + rewrite size_union_alt, size_singleton.
      pose proof (subseteq_size (D ∖ {[p]}) D ltac:(set_solver)). lia.
  - match goal with |- abs ?w' = _ => assert (view w' = <[k := core t']> (view w)) as Hv end.
    { eapply (view_insert D w); [apply HR|by right|..]; cbn; rewrite Hw1; cbn.
      - intros p' Hne _. by rewrite lookup_insert_ne.
      - by rewrite Hid.
      - by rewrite lookup_insert_eq. }
    unfold abs at 1. rewrite Hv, Hc', Hw1. done.
  - rewrite Hw1. done.
Qed.

Lemma apply_update_ok h k d ops D w :
  ready n D w → queue_ok clock n h (UPDATE k d :: ops) D w →
  ∃ w' D', apply_update clock k d w = Done w' ∧ ready n D' w' ∧ queue_ok clock n h ops D' w' ∧
           abs w' = svc_op clock h (abs w) (UPDATE k d) ∧ stable w' = stable w.
Proof.
  intros HR HQ. unfold apply_update, svc_op. cbn [armed abs].
  assert (∀ p' k', ADD p' k' ∈ ops → p' ∉ D ∧ timerMap_ (this w) !! k' = None) as Hlater.
  { intros p' k' Hin. destruct (qo_add _ _ _ _ _ _ HQ p' k') as (? & ? & _); [by right|done]. }
  destruct (timerMap_ (this w) !! k) as [p|] eqn:Hk.
  2: { rewrite (view_none _ _ Hk). exists w, D. split_and!; try done.
       eapply queue_ok_tail; [done|..]; [|lia|done|lia]. intros p' k' Hin. by destruct (Hlater p' k' Hin). }
  pose proof (ready_inv _ _ _ HR) as HI.
  destruct (view_armed D w k p HI Hk) as (Hp & t & Ht & Hid & Hact & Hv).
  rewrite Ht, Hv. orun. rewrite Hact.
  destruct (removeTimerFromWheel_ok n Hn D w p t (inv_wheels _ _ _ HI) (inv_links _ _ _ HI) Hp Ht)
    as (w1 & m & ws & Hrun & Hw1 & Hwf & HL & Hup & Hout).
  rewrite Hrun. orun.
  assert (timers w1 !! p = Some t) as Ht1 by (rewrite Hw1; cbn; rewrite Hout by set_solver; done).
  rewrite Ht1. orun. unfold getCurrentTime.
  assert (clock_reads w1 = clock_reads w) as Hr1 by (by rewrite Hw1). rewrite Hr1.
  destruct (qo_update _ _ _ _ _ _ HQ k d (clock_reads w)) as [Hb1 Hb2]; [by left|cbn; lia|].
  set (e := clock (clock_reads w) + d) in *. rewrite (wrap_small 64 e) by lia.
  set (t2 := {| t with duration_ms := d; expiryTime := e |}).
  set (w2 := store_timer p t2 {| w1 with clock_reads := S (clock_reads w) |}).
  assert (others_same D p (timers w) (timers w1)) as Hos1.
  { split; intros p' H1; [|intros _]; rewrite Hw1; cbn; [apply Hup|]. apply Hout. set_solver. }
  assert (next_ok (D ∖ {[p]}) w1) as Hnx1.
  { eapply (next_ok_drop n Hn D w); [apply HR|..]; try done; [by apply (others_expiries n Hn)|by rewrite Hw1..]. }
  assert (∀ p', p' ≠ p → timers w2 !! p' = timers w1 !! p') as Hst
    by (intros; cbn; by rewrite lookup_insert_ne).
  assert (p ∉ D ∖ {[p]}) as Hnp by set_solver.
  assert (links (D ∖ {[p]}) None w2) as HL2.
  { apply links_store; [done|]. by apply (links_ext _ _ w1). }
  destruct (addTimerToWheel_ok n Hn (D ∖ {[p]}) None w2 p t2) as (w3 & t3 & b & Hrun3 & [ws3 Hw3] & Hwf3 & HL3 & Htm3 & Hc3 & Hpl & _);
    [by cbn; rewrite Hw1|done|done|done|by cbn; rewrite lookup_insert_eq| | |cbn; rewrite Hw1; cbn; lia|].
  { pose proof (inv_time _ _ _ HI). cbn. rewrite Hw1. cbn. lia. }
  { pose proof (inv_time _ _ _ HI). cbn. rewrite Hw1. cbn. lia. }
  change (expiryTime t2) with e in Hrun3. rewrite Hrun3.
  assert ({[p]} ∪ D ∖ {[p]} = D) as HD by (symmetry; by apply union_difference_singleton_L).
  rewrite HD in HL3.
  assert (timers w3 !! p = Some t3) as Ht3 by (by rewrite Htm3, lookup_insert_eq).
  assert (∀ p', p' ≠ p → timers w3 !! p' = timers w1 !! p') as Hoth3
    by (intros p' Hne; rewrite Htm3, lookup_insert_ne by done; by apply Hst).
  assert (currentTime_ (this w3) = currentTime_ (this w)) as Hcur3 by (rewrite Hw3; cbn; by rewrite Hw1).
  assert (timerMap_ (this w3) = timerMap_ (this w)) as Hmap3 by (rewrite Hw3; cbn; by rewrite Hw1).
  assert (∀ p', p' ≠ p → option_Forall2 same_but_pos (timers w !! p') (timers w3 !! p')) as Hos3
    by (intros p' Hne; rewrite Hoth3 by done; by apply Hos1).
  exists w3, D. split; [done|]. split; [split|split; [|split]].
  - apply (inv_keep n D w); try done.
    + intros p' Hp'. destruct (decide (p' = p)) as [->|Hne].
      * rewrite Ht3, Ht. cbn. f_equal. by rewrite (ident_core _ _ Hc3).
      * destruct (Hos3 p' Hne) as [x y (Hxy & _)|]; [|done]. cbn. by rewrite (ident_core _ _ Hxy).
    + rewrite Hw3. cbn. by rewrite Hw1.
  - rewrite <- HD. apply (next_ok_add n Hn _ w1 w3 p t3); try done.
    + rewrite (core_expiry _ _ Hc3). cbn. lia.
    + intros p' Hp'. split; [done|]. rewrite Hoth3; [done|set_solver].
    + rewrite Hw3, (core_expiry _ _ Hc3). done.
    + by rewrite Hw3.
  - rewrite Hcur3. intros p' t' Hp' Ht'. destruct (decide (p' = p)) as [->|Hne].
    + assert (t' = t3) as -> by congruence. cbn in Hpl. rewrite Hw1 in Hpl. cbn in Hpl.
      case_decide; [left; by destruct Hpl|by right].
    + specialize (Hos3 p' Hne). rewrite Ht' in Hos3. inversion Hos3 as [x ? Hs E|]; subst.
      symmetry in E. eapply resting_same; [done|]. by eapply (ready_resting _ _ _ HR).
  - eapply queue_ok_tail; [done|..]; [|rewrite Hw3; cbn; lia|done|lia].
    intros p' k' Hin. destruct (Hlater p' k' Hin) as [Hp' Hk']. rewrite Hmap3. split_and!; try done.
    assert (p' ≠ p) by (by intros ->). rewrite Hoth3 by done. by apply Hos1.
  - assert (view w3 = <[k := core t3]> (view w)) as Hv3.
    { apply (view_insert D w w3 k p); try done; [by left|by intros; apply Hos3|].
      by rewrite Hmap3, insert_id. }
    unfold abs. rewrite Hv3, Hc3. rewrite Hw3. cbn. rewrite Hw1. done.
  - rewrite Hw3. cbn. rewrite Hw1. done.
Qed.

Lemma apply_op_ok h op ops D w :
  ready n D w → queue_ok clock n h (op :: ops) D w →
  ∃ w' D', apply_op clock op w = Done w' ∧ ready n D' w' ∧ queue_ok clock n h ops D' w' ∧
           abs w' = svc_op clock h (abs w) op ∧ stable w' = stable w.
Proof. destruct op; [apply apply_add_ok|apply apply_update_ok|apply apply_remove_ok]. Qed.

Lemma apply_ops_ok h ops later D w :
  ready n D w → queue_ok clock n h (ops ++ later) D w →
  ∃ w' D', apply_ops clock ops w = Done w' ∧ ready n D' w' ∧ queue_ok clock n h later D' w' ∧
           abs w' = svc_ops clock h ops (abs w) ∧ stable w' = stable w.
Proof.
  revert D w. induction ops as [|op ops IH]; intros D w HR HQ; [by exists w, D|].
  destruct (apply_op_ok h op (ops ++ later) D w HR HQ) as (w1 & D1 & Hrun & HR1 & HQ1 & Ha1 & Hs1).
  destruct (IH D1 w1 HR1 HQ1) as (w2 & D2 & Hrun2 & HR2 & HQ2 & Ha2 & Hs2).
  exists w2, D2. cbn [apply_ops]. rewrite Hrun. orun. split_and!; try done.
  - by rewrite Ha2, Ha1.
  - by rewrite Hs2.
Qed.

Lemma drain_ops_ok h fuel D w :
  ready n D w → queue_ok clock n h (timer_operations_queue (this w)) D w →
  0 < ops_size (this w) → (length (timer_operations_queue (this w)) < fuel)%nat →
  ∃ w' D', drain_ops clock fuel w = Done w' ∧ ready n D' w' ∧
           timer_operations_queue (this w') = [] ∧
           abs w' = svc_ops clock h (timer_operations_queue (this w)) (abs w) ∧
           q w' = q w ∧ fired_raw_ (this w') = fired_raw_ (this w) ∧
           currentTime_ (this w') = currentTime_ (this w) ∧
           ops_size (this w') = ops_size (this w) ∧ timerIdCounter_ (this w') = timerIdCounter_ (this w).
Proof.
  revert D w. induction fuel as [|fuel IH]; intros D w HR HQ Hcap Hfuel; [lia|].
  cbn [drain_ops]. set (cap := Z.to_nat (ops_size (this w))).
  set (ops := take cap (timer_operations_queue (this w))).
  set (w0 := with_this _ w).
  assert (ready n D w0) as HR0 by (by apply (ready_with_this D w)).
  assert (queue_ok clock n h (ops ++ timer_operations_queue (this w0)) D w0) as HQ0.
  { subst ops w0. cbn. rewrite take_drop. by destruct HQ; split. }
  assert (timer_operations_queue (this w) = ops ++ timer_operations_queue (this w0)) as Hsplit
    by (subst ops w0; cbn; by rewrite take_drop).
  assert (length ops = Nat.min cap (length (timer_operations_queue (this w)))) as Hops by apply length_take.
  clearbody ops. destruct ops as [|op ops'].
  { cbn in Hops.
    assert (timer_operations_queue (this w) = []) as Hnil by (apply length_zero_iff_nil; lia).
    exists w0, D. rewrite Hnil. split_and!; try done. cbn. rewrite Hnil. by destruct cap. }
  destruct (apply_ops_ok h (op :: ops') (timer_operations_queue (this w0)) D w0 HR0 HQ0)
    as (w1 & D1 & Hrun & HR1 & HQ1 & Ha1 & [= S1 S2 S3 S4 S5 S6]).
  rewrite Hrun. orun. change (drop cap _) with (timer_operations_queue (this w0)) in S4.
  destruct (IH D1 w1 HR1) as (w2 & D2 & Hrun2 & HR2 & E1 & E2 & E3 & E4 & E5 & E6 & E7).
  { by rewrite S4. } { by rewrite S5. }
  { rewrite S4. rewrite Hsplit, length_app in Hfuel. cbn [length] in Hfuel. lia. }
  exists w2, D2. split_and!; try done; try congruence.
  rewrite E2, Ha1, S4, Hsplit. unfold svc_ops. by rewrite foldl_app.
Qed.
End refinement.
