(* ===== verification/TimerWheelCorrect.v ===== *)
(** The contract of the timer wheel: ticking, adding and cancelling refine the
    abstract service, and a timer beyond the span of the wheel makes the visit of
    its slot loop forever. *)

From S2P Require Import Prelude TimerWheel TimerWheelInv TimerWheelFire TimerWheelTick TimerWheelSpec.
Import TimerWheel.

(** The wheel between two calls of its owner. *)
Record wheel_ok (clock : nat → Z) (n : nat) (w : world) : Prop := {
  ok_ready : ∃ D, ready n D w ∧
                  queue_ok clock n (timers w) (timer_operations_queue (this w)) D w;
  ok_ops : 0 < ops_size (this w);
  ok_raw : fired_raw_ (this w) = [];
  ok_ids k : is_Some (view w !! k) ∨ k ∈ omap add_key (timer_operations_queue (this w)) →
             k <= timerIdCounter_ (this w)
}.

(** [next] is the least expiry of a map of timers, 0 for the empty map. *)
Definition least_expiry (m : gmap Z Timer) (next : Z) : Prop :=
  (m = ∅ ∧ next = 0) ∨
  ((∃ k t, m !! k = Some t ∧ expiryTime t = next) ∧
   ∀ k t, m !! k = Some t → 0 < next <= expiryTime t).

Section views.
Context (n : nat).
Implicit Types (w : world) (D : gset ptr).

Lemma view_dom D w p t :
  tw_inv n D w → p ∈ D → timers w !! p = Some t → view w !! id t = Some (core t).
Proof.
  intros HI Hp Ht. destruct (inv_dom _ _ _ HI p Hp) as (t' & Ht' & _ & Hm). simplify_eq.
  rewrite view_lookup, Hm. cbn. by rewrite Ht.
Qed.

Lemma view_inv D w k t :
  tw_inv n D w → view w !! k = Some t →
  ∃ p t', p ∈ D ∧ timers w !! p = Some t' ∧ t = core t' ∧ id t' = k ∧ timerMap_ (this w) !! k = Some p.
Proof.
  intros HI. rewrite view_lookup. destruct (timerMap_ (this w) !! k) as [p|] eqn:Hk; [|done]. cbn.
  destruct (inv_map _ _ _ HI _ _ Hk) as (Hp & t' & Ht' & Hid). rewrite Ht'. intros [= <-]. eauto 10.
Qed.

Lemma is_next_view D w next : tw_inv n D w → is_next next D w → least_expiry (view w) next.
Proof.
  intros HI [[-> ->]|((p & t & Hp & Ht & He) & Hall)].
  - left. split; [|done]. apply map_eq. intros k. rewrite lookup_empty.
    destruct (view w !! k) as [t|] eqn:Hk; [|done].
    destruct (view_inv _ _ _ _ HI Hk) as (? & ? & []%elem_of_empty & _).
  - right. split; [exists (id t), (core t); split; [by eapply view_dom|done]|].
    intros k t' (p' & t'' & Hp' & Ht'' & -> & _)%(view_inv D); [|done]. by eapply (Hall p' t'').
Qed.

(** The fired timers, in order. *)
Definition fired (w : world) (ps : list ptr) : list Timer := omap (λ p, core <$> timers w !! p) ps.

Lemma fired_events {B} (ev : Timer → option B) w ps :
  (∀ t, ev (core t) = ev t) →
  omap (λ p, t ← timers w !! p; ev t) ps = omap ev (fired w ps).
Proof.
  intros Hev. unfold fired. induction ps as [|p ps IH]; [done|]. cbn.
  destruct (timers w !! p) as [t|]; cbn; [|done]. rewrite Hev. destruct (ev t); by rewrite IH.
Qed.

Lemma fired_perm D w ps (P : Timer → Prop) `{∀ t, Decision (P t)} :
  tw_inv n D w → NoDup ps → (∀ t, P (core t) ↔ P t) →
  (∀ p t, timers w !! p = Some t → p ∈ ps ↔ p ∈ D ∧ P t) → (∀ p, p ∈ ps → p ∈ D) →
  fired w ps ≡ₚ (map_to_list (filter (λ kt, P kt.2) (view w))).*2.
Proof.
  intros HI Hnd HP Hps Hsub.
  assert (omap (λ p, (λ t, (id t, core t)) <$> timers w !! p) ps
          ≡ₚ map_to_list (filter (λ kt, P kt.2) (view w))) as Hperm.
  { apply NoDup_Permutation.
    - clear Hps. induction Hnd as [|p ps Hp Hnd IH]; cbn; [constructor|].
      destruct (timers w !! p) as [t|] eqn:Ht; cbn; [|by apply IH; set_solver].
      constructor; [|by apply IH; set_solver].
      intros (p' & Hp' & Hf)%list_elem_of_omap. destruct (timers w !! p') as [t'|] eqn:Ht'; [|done].
      injection Hf as Hid _. destruct (inv_dom _ _ _ HI p) as (? & ? & _ & Hm); [set_solver|].
      destruct (inv_dom _ _ _ HI p') as (? & ? & _ & Hm'); [set_solver|]. simplify_eq.
      rewrite Hid in Hm'. by simplify_eq.
    - apply NoDup_map_to_list.
    - intros [k t]. rewrite elem_of_map_to_list, map_lookup_filter_Some, list_elem_of_omap. cbn. split.
      + intros (p & Hp & Hf). destruct (timers w !! p) as [t'|] eqn:Ht; [|done]. injection Hf as <- <-.
        destruct (proj1 (Hps _ _ Ht) Hp) as [HpD HPt]. split; [by eapply view_dom|by apply HP].
      + intros [Hv HPt]. apply (view_inv D) in Hv as (p & t' & Hp & Ht & E & <- & _); [|done].
        rewrite E in HPt |- *. exists p.
        rewrite Ht. split; [|done]. apply (Hps _ _ Ht). split; [done|by apply HP]. }
  rewrite <- Hperm. clear Hps Hperm Hsub. unfold fired.
  induction Hnd as [|p ps Hp Hnd IH]; cbn; [done|].
  destruct (timers w !! p) as [t|]; cbn; [by rewrite IH|done].
Qed.
End views.

(** * Ticking *)

Section tick.
Context (clock : nat → Z) (n : nat) (Hn : (1 <= n <= 8)%nat).
Implicit Types (w : world) (D : gset ptr).

(** A tick that moves the time from [cur] to [now] fires these timers. *)
Definition expires (cur now : Z) (t : Timer) : Prop := cur < now ∧ expiryTime t <= now.

#[local] Instance expires_dec cur now t : Decision (expires cur now t).
Proof. unfold expires. apply _. Defined.

(** What remains after time went on. *)
Lemma elapsed_view D w ps w' cur :
  tw_inv n D w → elapsed n D w ps w' → cur < currentTime_ (this w') →
  let now := currentTime_ (this w') in
  fired w ps ≡ₚ (map_to_list (filter (λ kt, expires cur now kt.2) (view w))).*2 ∧
  view w' = filter (λ kt, ¬ expires cur now kt.2) (view w).
Proof.
  intros HI HE Hlt now. pose proof (elapsed_fires _ _ _ _ _ HE) as HF.
  assert (∀ p t, timers w !! p = Some t → p ∈ ps ↔ p ∈ D ∧ expires cur now t) as Hps.
  { intros p t Ht. split.
    - intros Hp. split; [by eapply fires_sub|]. split; [done|]. by eapply elapsed_expired.
    - intros [Hp [_ Hle]]. destruct (decide (p ∈ ps)) as [|Hnp]; [done|]. exfalso.
      pose proof (fires_kept _ _ _ _ HF p Hp Hnp) as Hk. rewrite Ht in Hk.
      destruct (timers w' !! p) as [t'|] eqn:Ht'; [|done]. apply (inj Some), core_expiry in Hk.
      pose proof (placed_future _ _ (elapsed_waiting _ _ _ _ _ HE p t' ltac:(set_solver) Ht')). lia. }
  split; [apply (fired_perm n D); try done; [by eapply fires_nodup|by eapply fires_sub]|].
  apply map_eq. intros k. apply option_eq. intros t.
  rewrite map_lookup_filter_Some, !view_lookup, (fires_map _ _ _ _ HF). cbn.
  destruct (timerMap_ (this w) !! k) as [p|] eqn:Hk; cbn; [|naive_solver].
  destruct (inv_map _ _ _ HI _ _ Hk) as (Hp & t' & Ht' & _). rewrite Ht'. cbn.
  destruct (decide (p ∈ ps)) as [Hin|Hnp]; cbn.
  - apply (Hps _ _ Ht') in Hin as [_ Hex]. split; [done|]. intros [[= <-] Hno]. done.
  - rewrite (fires_kept _ _ _ _ HF p Hp Hnp), Ht'. cbn. split; [|naive_solver].
    intros [= <-]. split; [done|]. intros Hex. apply Hnp. by apply (Hps _ _ Ht').
Qed.

(** Ids are armed by [ADD] only. *)
Lemma svc_ops_ids h ops s k :
  is_Some (armed (svc_ops clock h ops s) !! k) → is_Some (armed s !! k) ∨ k ∈ omap add_key ops.
Proof.
  revert s. induction ops as [|op ops IH]; intros s; [by left|]. intros [Hk|Hk]%IH; [|right; destruct op; set_solver].
  destruct op as [p k'|k' d|k' f arg]; unfold svc_op, svc_cancel in Hk; cbn in *.
  - repeat (case_decide || case_match); cbn in Hk; try (by left); apply lookup_insert_is_Some in Hk;
      destruct (decide (k' = k)) as [->|]; [right; by left|left; naive_solver].
  - case_match; cbn in Hk; [|by left]. apply lookup_insert_is_Some in Hk as [<-|[_ Hk]]; left; [by eexists|done].
  - case_match; cbn in Hk; [apply lookup_delete_is_Some in Hk as [_ Hk]|case_bool; cbn in Hk]; by left.
Qed.

(** A wheel with nothing queued. *)
Lemma wheel_ok_drained w D w' :
  ready n D w' → timer_operations_queue (this w') = [] →
  ops_size (this w') = ops_size (this w) → fired_raw_ (this w') = [] →
  timerIdCounter_ (this w') = timerIdCounter_ (this w) → wheel_ok clock n w →
  (∀ k, is_Some (view w' !! k) →
        is_Some (armed (svc_ops clock (timers w) (timer_operations_queue (this w)) (abs w)) !! k)) →
  wheel_ok clock n w'.
Proof.
  intros HR Hq Ho Hr Hc [_ Hcap _ Hids] Hk. split.
  - exists D. split; [done|]. rewrite Hq. apply (queue_ok_nil clock n Hn). apply (ready_inv _ _ _ HR).
  - by rewrite Ho.
  - done.
  - intros k [Hv|Hin]; [|rewrite Hq in Hin; cbn in Hin; by apply not_elem_of_nil in Hin].
    rewrite Hc. apply Hids. by apply (svc_ops_ids (timers w) _ (abs w)), Hk.
Qed.

(** C1: a tick refines the timer service.  It drains the queued operations in order,
    then reads the clock; if the time went on, exactly the armed timers whose expiry
    is reached fire, each one once, its coroutine being made ready or its callback
    being called; every other timer stays armed, no coroutine is destroyed beyond
    those of cancelled timers, the recorded next expiry is the least expiry left,
    and the wheel is ready for the next call.  For a wheel within its span
    ([wheel_ok]: every armed, queued or updated expiry is below the wheel's time plus
    [2 ^ (8 * n)] ms for its [n] levels, at most eight, and ids and timers are distinct)
    the tick runs into no undefined behaviour and returns.  [addTimer] does not check
    the span, and beyond it a tick hangs ([far_timer_diverges]). *)
Theorem tick_refines w :
  wheel_ok clock n w →
  let s := svc_ops clock (timers w) (timer_operations_queue (this w)) (abs w) in
  let cur := currentTime_ (this w) in
  let now := clock (readings s) in
  now < 2 ^ 64 - 1 →
  ∃ w' ts, tick clock w = Done w' ∧ wheel_ok clock n w' ∧
    timer_operations_queue (this w') = [] ∧
    ts ≡ₚ (map_to_list (filter (λ kt, expires cur now kt.2) (armed s))).*2 ∧
    view w' = filter (λ kt, ¬ expires cur now kt.2) (armed s) ∧
    q w' = q w ++ omap resumed ts ∧ called w' = notified s ++ omap callback ts ∧
    destroyed w' = ended s ∧ currentTime_ (this w') = Z.max cur now ∧
    nextExpiryDirty_ (this w') = false ∧ least_expiry (view w') (nextExpiryTime_ (this w')).
Proof.
  intros HW s cur now Hmax. pose proof HW as [(D & HR & HQ) Hcap Hraw _]. unfold tick.
  destruct (drain_ops_ok clock n Hn (timers w) _ D w HR HQ Hcap (Nat.lt_succ_diag_r _))
    as (w1 & D1 & Hrun & HR1 & Hq1 & Ha1 & E1 & E2 & E3 & E4 & E5).
  rewrite Hrun. orun. unfold getCurrentTime.
  assert (clock (clock_reads w1) = now) as -> by (unfold now, s; by rewrite <- Ha1).
  set (w2 := {| w1 with clock_reads := S (clock_reads w1) |}).
  assert (ready n D1 w2) as HR2 by (by apply (ready_with_this n D1 w1)).
  assert (armed s = view w1) as Hs1 by (unfold s; by rewrite <- Ha1).
  assert (notified s = called w1 ∧ ended s = destroyed w1) as [Hs2 Hs3] by (unfold s; by rewrite <- Ha1).
  change (currentTime_ (this w2)) with (currentTime_ (this w1)). rewrite E3, Hs1, Hs2, Hs3. fold cur.
  destruct (Z.leb_spec now cur) as [Hle|Hlt].
  - destruct (refreshNextExpiry_ok n D1 w2) as (next & Hrf & Hnx); [apply HR2..|].
    rewrite Hrf. eexists _, []. split; [done|].
    assert (∀ t, ¬ expires cur now t) as Hno by (unfold expires; lia).
    split; [apply (wheel_ok_drained w D1); try done; [|by rewrite <- Hraw|by rewrite <- Ha1]|].
    { destruct HR2 as [I2 [N2 _] R2]. split; [|split; [exact N2|right; exact Hnx]|exact R2].
      apply (inv_keep n D1 w2); try done; [apply I2|by eapply links_ext; [..|apply I2]]. }
    split; [done|]. rewrite (map_empty_filter_2 (λ kt, expires cur now kt.2)), map_to_list_empty by (intros ??; naive_solver).
    cbn. rewrite !app_nil_r. split_and!; try done.
    + symmetry. apply map_filter_id. naive_solver.
    + rewrite E3. lia.
    + by eapply (is_next_view n D1 w2); [apply HR2|].
  - destruct (advance_to_ok n Hn (Z.to_nat (now - cur)) now D1 w2) as (w3 & ps & Hrun3 & HE & Hc3);
      [apply HR2|apply HR2|done| | | |].
    { cbn. by rewrite E3. } { apply HR2. } { cbn. rewrite E3. lia. }
    rewrite Hrun3. orun. destruct (elapsed_view D1 w2 ps w3 cur) as [Hperm Hview];
      [apply HR2|done|lia|]. cbv zeta in Hperm, Hview. rewrite Hc3 in Hperm, Hview.
    destruct (refreshNextExpiry_ok n (D1 ∖ list_to_set ps) w3) as (next & Hrf & Hnx); [apply HE..|].
    rewrite Hrf. orun. pose proof (elapsed_fires _ _ _ _ _ HE) as HF.
    pose proof (fires_rest _ _ _ _ HF) as [= R1 R2 R3 R4 R5 R6].
    eexists _, (fired w2 ps). split; [done|].
    split; [apply (wheel_ok_drained w (D1 ∖ list_to_set ps)); try done; [|cbn; congruence..|]|].
    { destruct HE as [_ I3 [N3 _] _ P3]. split; [|split; [exact N3|right; exact Hnx]|].
      - apply (inv_keep n _ w3); try done; [apply I3|by eapply links_ext; [..|apply I3]].
      - eapply all_timers_mono; [|exact P3]. intros t. by left. }
    { intros k [t Hk]. change (view w3 !! k = Some t) in Hk. rewrite Hview in Hk.
      apply map_lookup_filter_Some in Hk as [Hk _]. rewrite <- Ha1. by exists t. }
    split; [cbn; congruence|]. split; [exact Hperm|]. split; [exact Hview|]. split_and!.
    + cbn. rewrite (fires_q _ _ _ _ HF), fired_events by done. cbn. by rewrite E1.
    + cbn. rewrite (fires_called _ _ _ _ HF), (fires_raw _ _ _ _ HF), fired_events by done.
      cbn. by rewrite E2, Hraw.
    + cbn. by rewrite (fires_destroyed _ _ _ _ HF).
    + cbn. lia.
    + done.
    + by eapply (is_next_view n _ w3); [apply HE|].
Qed.
End tick.

(** * Timers beyond the span of the wheel *)

Section divergence.
Context (n : nat) (Hn : (1 <= n <= 8)%nat).
Implicit Types w : world.

Lemma pick_level_top ws diff :
  wheels_wf n ws → 2 ^ (8 * Z.of_nat n) <= diff → pick_level ws diff = (n - 1)%nat.
Proof.
  intros Hwf Hd. destruct (pick_level_spec n ws diff Hn Hwf) as (H1 & _ & H3).
  destruct (decide (S (pick_level ws diff) < n)%nat) as [Hlt|]; [|lia]. specialize (H3 Hlt).
  assert (256 * 2 ^ (8 * Z.of_nat (pick_level ws diff)) <= 2 ^ (8 * Z.of_nat n)); [|lia].
  change 256 with (2 ^ 8). rewrite <- Z.pow_add_r by lia. apply Z.pow_le_mono_r; lia.
Qed.

(** One round of the loop on such a timer puts it back at the head of the slot. *)
Lemma far_round w p t s :
  wheels_wf n (wheels_ (this w)) → timers w !! p = Some t →
  2 ^ (8 * Z.of_nat n) <= expiryTime t - currentTime_ (this w) →
  s = (expiryTime t / 2 ^ (8 * Z.of_nat (n - 1))) mod 256 →
  get_bucket (Z.of_nat (n - 1)) s w = Done [p] →
  ∃ w1 w2 t', addTimerToWheel p (expiryTime t) w = Done w1 ∧
    swap_pop (Z.of_nat (n - 1)) s 0 w1 = Done w2 ∧ wheels_wf n (wheels_ (this w2)) ∧
    timers w2 !! p = Some t' ∧ core t' = core t ∧
    currentTime_ (this w2) = currentTime_ (this w) ∧ get_bucket (Z.of_nat (n - 1)) s w2 = Done [p].
Proof.
  intros Hwf Ht Hfar Hs Hb. assert (0 < 2 ^ (8 * Z.of_nat n)) by lia.
  unfold addTimerToWheel. rewrite (proj2 (Z.ltb_lt _ _)) by lia.
  rewrite pick_level_top by done.
  destruct (lookup_lt_is_Some_2 (wheels_ (this w)) (n - 1)) as [wh Hwh]; [destruct Hwf; lia|].
  destruct (proj2 Hwf _ _ Hwh) as (Hsl & Hiv & _).
  rewrite aread_nat, Hwh. orun. rewrite Hsl, Hiv, (proj2 (Z.eqb_neq _ _)) by lia.
  rewrite land_255, <- Hs, Ht. orun. rewrite Hb. orun.
  set (t1 := {| t with level := _; slotIndex := _; posInBucket := _ |}).
  set (w0 := store_timer p t1 w).
  destruct (put_bucket_ok n (Z.of_nat (n - 1)) s ([p] ++ [p]) [p] w0 Hwf Hb)
    as (w1 & -> & [ws Hw1] & Hwf1 & Hb1 & _). orun.
  set (wa := if (_ : bool) then _ else w1).
  assert (wheels_ (this wa) = wheels_ (this w1) ∧ timers wa = timers w1 ∧
          currentTime_ (this wa) = currentTime_ (this w1)) as (Ewh & Etm & Ecur)
    by (subst wa; by case_bool).
  assert (get_bucket (Z.of_nat (n - 1)) s wa = Done ([p] ++ [p])) as Hba
    by (unfold get_bucket; by rewrite Ewh).
  assert (timers wa !! p = Some t1) as Hta
    by (rewrite Etm, Hw1; cbn; by rewrite lookup_insert_eq).
  clearbody wa. set (t2 := {| t1 with posInBucket := 0 |}). set (wb := store_timer p t2 wa).
  destruct (put_bucket_ok n (Z.of_nat (n - 1)) s [p] ([p] ++ [p]) wb) as (w2 & Hput & [ws2 Hw2] & Hwf2 & Hb2 & _);
    [by cbn; rewrite Ewh|done|].
  exists wa, w2, t2. split; [done|].
  split.
  { unfold swap_pop. rewrite Hba. orun. change (Z.of_nat (length ([p] ++ [p])) - 1) with 1.
    change (aread ([p] ++ [p]) 1) with (Done p). orun. change (0 =? 1) with false. cbv iota.
    change (awrite ([p] ++ [p]) 0 p) with (Done [p; p]). orun. rewrite Hta. exact Hput. }
  split; [done|]. rewrite Hw2. cbn.
  rewrite lookup_insert_eq, Ecur, Hw1. split_and!; try done. by rewrite Hw2 in Hb2.
Qed.

(** The visit of a slot of the top level does not end once the slot holds a timer
    that is at least [2 ^ (8 * levels)] ms away (49.7 days with the four levels the
    wheel is built with): each round puts the timer back into the bucket it drains,
    whatever the number of rounds. *)
Theorem far_timer_diverges fuel w p t s :
  wheels_wf n (wheels_ (this w)) → timers w !! p = Some t → active t = true →
  2 ^ (8 * Z.of_nat n) <= expiryTime t - currentTime_ (this w) →
  s = (expiryTime t / 2 ^ (8 * Z.of_nat (n - 1))) mod 256 →
  get_bucket (Z.of_nat (n - 1)) s w = Done [p] →
  processSlot_loop fuel (Z.of_nat (n - 1)) s w = OutOfFuel.
Proof.
  revert w t. induction fuel as [|fuel IH]; intros w t Hwf Ht Ha Hfar Hs Hb; [done|].
  cbn [processSlot_loop]. rewrite Hb. orun. rewrite Ht. orun. rewrite Ha.
  assert (0 < 2 ^ (8 * Z.of_nat n)) by lia. rewrite (proj2 (Z.leb_gt _ _)) by lia.
  destruct (far_round w p t s Hwf Ht Hfar Hs Hb)
    as (w1 & w2 & t' & -> & Hsp & Hwf2 & Ht2 & Hc & Hcur & Hb2).
  orun. rewrite Hsp. orun. assert (expiryTime t' = expiryTime t) as He by (by apply core_expiry).
  apply (IH w2 t'); rewrite ?He, ?Hcur; try done.
  apply ident_core in Hc. injection Hc as _ Hc. congruence.
Qed.
End divergence.

(** * The calls of the owner *)

Section calls.
Context (clock : nat → Z) (n : nat) (Hn : (1 <= n <= 8)%nat).
Implicit Types (w : world) (D : gset ptr).

Lemma new_wheels_wf : wheels_wf n (new_wheels n).
Proof.
  unfold new_wheels. split; [by rewrite length_fmap, length_seq|].
  intros l wh Hl. apply list_lookup_fmap_Some in Hl as (i & -> & Hi).
  apply lookup_seq in Hi as [-> Hl]. unfold wheel_wf. cbn -[replicate Z.of_nat].
  split_and!; [done| |by rewrite length_replicate].
  rewrite Z.shiftl_1_l. apply wrap_small. split; [lia|]. apply Z.pow_lt_mono_r; lia.
Qed.

(** A constructed wheel with operations in its queue. *)
Definition fresh (items now : Z) (ops : list Op) (c : Z) (mem : gmap ptr Timer) (run : list handle) : world :=
  mkWorld {| (TimerWheel_new n items now) with timer_operations_queue := ops; timerIdCounter_ := c |}
          mem run [] [] 0.

Lemma fresh_ok items now ops c mem run :
  0 < items → 0 <= now < 2 ^ 64 - 1 → (∀ k, k ∈ omap add_key ops → k <= c) →
  queue_ok clock n mem ops ∅ (fresh items now ops c mem run) →
  wheel_ok clock n (fresh items now ops c mem run).
Proof.
  intros Hi Hnow Hids HQ. set (w := fresh _ _ _ _ _ _) in *.
  assert (∀ l s b i p, get_bucket l s w = Done b → b !! i = Some p → False) as Hno.
  { intros l s b i p (wh & _ & _ & Hwh & Hb)%get_bucket_inv Hp.
    apply list_lookup_fmap_Some in Hwh as (j & -> & _).
    by apply lookup_replicate in Hb as [-> _]. }
  split; try done.
  - exists ∅. split; [split|done].
    + split; try done; [apply new_wheels_wf|split|..]; try set_solver.
    + split; [by intros ?? []%elem_of_empty|]. right. by left.
    + by intros ?? []%elem_of_empty.
  - intros k [[t Hk]|Hk]; [by rewrite view_lookup in Hk|by apply Hids].
Qed.

(** A wheel that was just constructed satisfies the invariant, whatever else is
    in memory. *)
Theorem TimerWheel_new_ok items now mem run :
  0 < items → 0 <= now < 2 ^ 64 - 1 →
  wheel_ok clock n (mkWorld (TimerWheel_new n items now) mem run [] [] 0).
Proof.
  intros Hi Hnow. apply (fresh_ok items now [] 0); try done; [by intros k []%elem_of_nil|].
  by apply (queue_ok_nil clock n Hn).
Qed.

(** A wheel whose timers went from [D] to [D'] outside a tick. *)
Lemma wheel_ok_step w D D' w' :
  wheel_ok clock n w → ready n D' w' →
  queue_ok clock n (timers w) (timer_operations_queue (this w)) D w →
  (∀ p k, ADD p k ∈ timer_operations_queue (this w) →
          p ∉ D' ∧ timerMap_ (this w') !! k = None ∧ timers w' !! p = timers w !! p) →
  clock_reads w' = clock_reads w → stable w' = stable w → (size D' <= size D)%nat →
  (∀ k, is_Some (view w' !! k) → is_Some (view w !! k)) → wheel_ok clock n w'.
Proof.
  intros [_ Hcap Hraw Hids] HR [Q1 Q2 Q3 Q4 Q5] Hadd Hr [= S1 S2 S3 S4 S5 S6] Hsz Hv. split.
  - exists D'. split; [done|]. rewrite S4. split; try done.
    + intros p k Hin. destruct (Hadd p k Hin) as (? & ? & ->). rewrite S3.
      destruct (Q1 p k Hin) as (_ & _ & ?). done.
    + intros k d j Hin. rewrite Hr, S3. by eapply Q4.
    + lia.
  - by rewrite S5.
  - by rewrite S2.
  - intros k. rewrite S4, S6. intros [Hk|]; apply Hids; [left; eauto|by right].
Qed.

(** C38: cancelling a non-zero id, for a wheel within its span.  An armed timer is taken out
    of the wheel, its coroutine is destroyed and the answer is true.  An id that is not
    armed and lies above the greatest id that was ever put on the wheel is remembered, so
    that a timer that arrives under it is dropped, and the answer is true as well: the
    code does not ask whether the id was handed out.  Every other id is refused and
    nothing changes. *)
Theorem cancelTimer_refines w k :
  wheel_ok clock n w → k ≠ 0 →
  ∃ w', cancelTimer k w = Done (svc_known k (abs w), w') ∧ wheel_ok clock n w' ∧
        abs w' = svc_cancel k (abs w) ∧ stable w' = stable w.
Proof.
  intros HW Hk0. pose proof HW as [(D & HR & HQ) _ _ _]. unfold cancelTimer, svc_known.
  rewrite (proj2 (Z.eqb_neq _ _) Hk0).
  destruct (timerMap_ (this w) !! k) as [p|] eqn:Hk.
  - destruct (view_armed n D w k p (ready_inv _ _ _ HR) Hk) as (Hp & t & Ht & _ & Ha & Hv).
    rewrite Ht. orun. rewrite Ha. cbn [armed abs]. rewrite Hv.
    destruct (drop_dispose_ok clock n Hn D w k p t HR Hk Ht) as (w' & Hrun & HR' & Habs & Hst & Hm & Hout).
    exists w'. split.
    { apply bind_Done in Hrun as (w1 & -> & Hd). orun. by rewrite Hd. }
    split; [|done]. apply (wheel_ok_step w D (D ∖ {[p]})); try done.
    + intros p' k' Hin. destruct (qo_add _ _ _ _ _ _ HQ p' k' Hin) as (Hp' & Hk' & _).
      split; [set_solver|]. split; [by rewrite Hm, lookup_delete_ne by congruence|]. by apply Hout.
    + apply (f_equal readings) in Habs. unfold svc_cancel in Habs. cbn in Habs. by rewrite Hv in Habs.
    + apply subseteq_size. set_solver.
    + intros k' Hk'. apply (f_equal armed) in Habs. unfold svc_cancel in Habs. cbn in Habs.
      rewrite Hv in Habs. cbn in Habs. rewrite Habs in Hk'. by apply lookup_delete_is_Some in Hk' as [_ ?].
  - unfold svc_cancel. cbn [armed abs newest]. rewrite (view_none w k Hk).
    rewrite bool_decide_eq_false_2 by (by intros [? ?]). cbn [orb].
    destruct (maxAddedId_ (this w) <? k); eexists; (split; [done|]); split; try done.
    apply (wheel_ok_step w D D); try done.
    + by apply (ready_with_this n D w).
    + intros p' k' Hin. by destruct (qo_add _ _ _ _ _ _ HQ p' k' Hin) as (Hp' & Hk' & _).
Qed.

(** Cancelling by [cancelTimerDetach] is the same without destroying the
    coroutine. *)
Theorem cancelTimerDetach_refines w k :
  wheel_ok clock n w → k ≠ 0 →
  ∃ w', cancelTimerDetach k w = Done (svc_known k (abs w), w') ∧ wheel_ok clock n w' ∧
        abs w' = svc_detach k (abs w) ∧ stable w' = stable w.
Proof.
  intros HW Hk0. pose proof HW as [(D & HR & HQ) _ _ _]. unfold cancelTimerDetach, svc_known.
  rewrite (proj2 (Z.eqb_neq _ _) Hk0).
  destruct (timerMap_ (this w) !! k) as [p|] eqn:Hk.
  - destruct (view_armed n D w k p (ready_inv _ _ _ HR) Hk) as (Hp & t & Ht & _ & Ha & Hv).
    rewrite Ht. orun. rewrite Ha. unfold svc_detach. cbn [armed abs]. rewrite Hv.
    destruct (drop_view clock n Hn D w k p t HR Hk Ht) as (w' & Hrun & HR' & Habs & Hst & Hm & Hout & _).
    exists w'. rewrite Hrun. split; [done|]. split; [|done].
    apply (wheel_ok_step w D (D ∖ {[p]})); try done.
    + intros p' k' Hin. destruct (qo_add _ _ _ _ _ _ HQ p' k' Hin) as (Hp' & Hk' & _).
      split; [set_solver|]. split; [by rewrite Hm, lookup_delete_ne by congruence|]. by apply Hout.
    + by apply (f_equal readings) in Habs.
    + apply subseteq_size. set_solver.
    + intros k' Hk'. apply (f_equal armed) in Habs. cbn in Habs. rewrite Habs in Hk'.
      by apply lookup_delete_is_Some in Hk' as [_ ?].
  - unfold svc_detach. cbn [armed abs newest]. rewrite (view_none w k Hk).
    rewrite bool_decide_eq_false_2 by (by intros [? ?]). cbn [orb].
    destruct (maxAddedId_ (this w) <? k); eexists; (split; [done|]); split; try done.
    apply (wheel_ok_step w D D); try done.
    + by apply (ready_with_this n D w).
    + intros p' k' Hin. by destruct (qo_add _ _ _ _ _ _ HQ p' k' Hin) as (Hp' & Hk' & _).
Qed.

(** [addTimer] hands out a fresh id, stamps the timer with the clock plus its
    duration and queues it; nothing is armed before the next tick. *)
Theorem addTimer_queues w p t :
  let tw := this w in
  let ops := timer_operations_queue tw in
  let e := clock (clock_reads w) + duration_ms t in
  let k := timerIdCounter_ tw + 1 in
  wheel_ok clock n w → timers w !! p = Some t → active t = true →
  (∀ k', timerMap_ tw !! k' ≠ Some p) → (∀ k', ADD p k' ∉ ops) →
  0 <= k < 2 ^ 64 → 0 < e < 2 ^ 64 → e < currentTime_ tw + 2 ^ (8 * Z.of_nat n) →
  activeTimerCount_ tw + Z.of_nat (length ops) + 1 < 2 ^ 64 →
  (∀ k' d j, UPDATE k' d ∈ ops → (clock_reads w < j <= clock_reads w + length ops + 2)%nat →
             0 < clock j + d < 2 ^ 64 ∧ clock j + d < currentTime_ tw + 2 ^ (8 * Z.of_nat n)) →
  ∃ w', addTimer clock p w = Done (k, w') ∧ wheel_ok clock n w' ∧
        abs w' = {| (abs w) with readings := S (clock_reads w) |} ∧
        timer_operations_queue (this w') = ops ++ [ADD p k] ∧
        timers w' = <[p := {| t with expiryTime := e; id := k |}]> (timers w) ∧
        view w !! k = None.
Proof.
  intros tw ops e k HW Ht Ha Hnm Hnq Hk He Hhor Hsz Hupd.
  pose proof HW as [(D & HR & HQ) Hcap Hraw Hids]. pose proof (ready_inv _ _ _ HR) as HI.
  assert (p ∉ D) as Hp.
  { intros Hp. destruct (inv_dom _ _ _ HI p Hp) as (t' & _ & _ & Hm). by eapply Hnm. }
  assert (view w !! k = None) as Hvk.
  { destruct (view w !! k) as [t'|] eqn:E; [|done]. specialize (Hids k (or_introl (ex_intro _ t' E))).
    fold tw in Hids. lia. }
  unfold addTimer. rewrite Ht. orun. cbn -[wrap enqueue_op]. rewrite !wrap_small by (fold tw; lia).
  fold tw k e. set (t' := {| t with expiryTime := e; id := k |}). set (w' := enqueue_op _ _).
  assert (∀ p', p' ≠ p → timers w' !! p' = timers w !! p') as Hoth
    by (intros p' Hne; cbn; by rewrite lookup_insert_ne).
  assert (view w' = view w) as Hv.
  { apply map_eq. intros k'. rewrite !view_lookup. change (timerMap_ (this w')) with (timerMap_ tw). fold tw.
    destruct (timerMap_ tw !! k') as [p'|] eqn:Hk'; [|done]. cbn [mbind option_bind].
    rewrite Hoth; [done|]. intros ->. by eapply Hnm. }
  exists w'. split; [done|]. split; [|split_and!; try done; unfold abs; by rewrite Hv].
  split; try done.
  - exists D. split.
    { set (wa := with_this (λ tw, {| tw with timerIdCounter_ := k |})
                           {| w with clock_reads := S (clock_reads w) |}).
      apply (ready_with_this n D (store_timer p t' wa)); try done.
      apply (ready_outside n Hn D wa p (timers (store_timer p t' wa))); try done.
      by apply (ready_with_this n D w). }
    assert (timer_operations_queue (this w') = ops ++ [ADD p k]) as Hq' by done. rewrite Hq'.
    split.
    + intros p' k' [Hin|Hin]%elem_of_app.
      * destruct (qo_add _ _ _ _ _ _ HQ p' k' Hin) as (? & ? & t0 & _ & Ht0 & Hact0 & Hid0 & Hexp0).
        split; [done|]. split; [done|]. exists t0.
        assert (p' ≠ p) by (intros ->; by eapply Hnq). by rewrite Hoth.
      * apply list_elem_of_singleton in Hin as [= -> ->]. split; [done|]. split.
        { change (timerMap_ tw !! k = None). destruct (timerMap_ tw !! k) as [p0|] eqn:E; [|done].
          destruct (view_armed n D w k p0 HI E) as (_ & t0 & _ & _ & _ & Hv0). congruence. }
        exists t'. cbn. rewrite lookup_insert_eq. split_and!; try done; subst t'; cbn; lia.
    + rewrite omap_app. cbn. apply NoDup_app. split_and!; [apply HQ| |apply NoDup_singleton].
      intros p' Hin ->%list_elem_of_singleton. apply list_elem_of_omap in Hin as ([p0 k0| |] & Hin & E); try done.
      injection E as ->. by eapply Hnq.
    + rewrite omap_app. cbn. apply NoDup_app. split_and!; [apply HQ| |apply NoDup_singleton].
      intros k' Hin ->%list_elem_of_singleton. specialize (Hids k (or_intror Hin)). fold tw in Hids. lia.
    + intros k' d j [Hin|Hin]%elem_of_app; [|by apply list_elem_of_singleton in Hin].
      rewrite length_app. cbn. intros Hj. apply (Hupd k' d j Hin). lia.
    + rewrite length_app. cbn. subst tw. rewrite (inv_count _ _ _ HI) in Hsz. fold ops in Hsz. lia.
  - intros k' [Hk'|Hk'].
    + rewrite Hv in Hk'. specialize (Hids k' (or_introl Hk')). fold tw in Hids. cbn. lia.
    + change (timer_operations_queue (this w')) with (ops ++ [ADD p k]) in Hk'.
      rewrite omap_app in Hk'. apply elem_of_app in Hk' as [Hk'|Hk'].
      * specialize (Hids k' (or_intror Hk')). fold tw in Hids. cbn. lia.
      * apply list_elem_of_singleton in Hk' as ->. cbn. lia.
Qed.

End calls.

Section timeout.
Context (clock : nat → Z).
Implicit Types w : world.

(** The time to sleep that [getNextTimeout] returns after a tick: for ever when
    nothing is armed, not at all when a timer is due, and otherwise at most until the
    first expiry, never more than an [int] holds. *)
Theorem getNextTimeout_sound w r w' :
  least_expiry (view w) (nextExpiryTime_ (this w)) →
  getNextTimeout clock w = (r, w') →
  let now := clock (clock_reads w) in
  (r = -1 ↔ view w = ∅) ∧ -1 <= r <= INT_MAX ∧
  (r = 0 ↔ ∃ k t, view w !! k = Some t ∧ expiryTime t <= now) ∧
  (∀ k t, view w !! k = Some t → now < expiryTime t → 0 < r → now + r <= expiryTime t).
Proof.
  intros Hleast. unfold getNextTimeout, getCurrentTime. cbn. intros [= <- _].
  set (now := clock (clock_reads w)). set (next := nextExpiryTime_ (this w)) in *.
  unfold INT_MAX. destruct Hleast as [[Hv ->]|((k0 & t0 & Hk0 & He0) & Hmin)].
  - cbn. rewrite Hv. split_and!; [done|lia|lia| |done].
    split; [done|]. intros (k & t & Hk & _). done.
  - pose proof (Hmin _ _ Hk0). destruct (Z.eqb_spec next 0); [lia|].
    assert (view w ≠ ∅) as Hne by (intros E; by rewrite E in Hk0).
    destruct (Z.leb_spec next now).
    + split_and!; [split; [lia|done]|lia|lia| |lia]. split; [|done]. intros _. exists k0, t0. split; [done|lia].
    + destruct (Z.ltb_spec (2 ^ 31 - 1) (next - now)).
      all: split_and!; [split; [lia|done]|lia|lia| |intros k t Hk; specialize (Hmin k t Hk); lia].
      all: split; [lia|]; intros (k & t & Hk & Hle); specialize (Hmin k t Hk); lia.
Qed.
End timeout.

(** * Witnesses: two timers, of which one is due at the tick *)

Definition ex_clock (k : nat) : Z := 1000 + 60 * Z.of_nat k.

Definition ex_timer (k e : Z) (h : handle) : Timer :=
  mkTimer e (e - 900) (Some h) None 0 true true k 0 0 0.

Definition ex_mem : gmap ptr Timer := {[1%positive := ex_timer 1 995 7; 2%positive := ex_timer 2 1000000 8]}.

(** A wheel of four levels at time 990 with both timers queued. *)
Definition ex_world : world := fresh 4 16 990 [ADD 1 1; ADD 2 2] 2 ex_mem [].

Lemma ex_world_ok : wheel_ok ex_clock 4 ex_world.
Proof.
  apply fresh_ok; [lia|lia|lia| |].
  - intros k Hk. cbn in Hk. apply elem_of_cons in Hk as [->|Hk%list_elem_of_singleton]; lia.
  - split.
    + intros p k Hin. apply elem_of_cons in Hin as [[= -> ->]|Hin%list_elem_of_singleton].
      * split; [set_solver|]. split; [done|]. exists (ex_timer 1 995 7). vm_compute. done.
      * injection Hin as -> ->. split; [set_solver|]. split; [done|].
        exists (ex_timer 2 1000000 8). vm_compute. done.
    + cbn. apply NoDup_cons. split; [set_solver|apply NoDup_singleton].
    + cbn. apply NoDup_cons. split; [set_solver|apply NoDup_singleton].
    + intros k d j Hin. apply elem_of_cons in Hin as [|Hin%list_elem_of_singleton]; done.
    + done.
Qed.

Lemma tick_refines_witness :
  ∃ w' ts, tick ex_clock ex_world = Done w' ∧ wheel_ok ex_clock 4 w' ∧
           q w' = omap resumed ts ∧ q w' = [7%positive] ∧ nextExpiryTime_ (this w') = 1000000.
Proof.
  destruct (tick_refines ex_clock 4 ltac:(lia) ex_world ex_world_ok) as (w' & ts & Hrun & Hok & _ & _ & _ & Hq & _).
  { vm_compute. done. }
  exists w', ts. split; [done|]. split; [done|]. split; [exact Hq|].
  assert (tick ex_clock ex_world = Done w' → q w' = [7%positive] ∧ nextExpiryTime_ (this w') = 1000000) as H;
    [|exact (H Hrun)]. clear. vm_compute. intros [= <-]. done.
Defined.

Lemma far_timer_diverges_witness :
  ∃ w, currentTime_ (this w) = 2 ^ 32 ∧ timers w !! 1%positive = Some (ex_timer 1 (2 ^ 33) 7) ∧
       processSlot_loop 1000 3 0 w = OutOfFuel.
Proof.
  set (w0 := fresh 4 16 (2 ^ 32) [] 1 {[1%positive := ex_timer 1 (2 ^ 33) 7]} []).
  destruct (put_bucket_ok 4 3 0 [1%positive] [] w0 (new_wheels_wf 4 ltac:(lia)) eq_refl)
    as (w & _ & [ws Hw] & Hwf & Hb & _).
  exists w. assert (timers w !! 1%positive = Some (ex_timer 1 (2 ^ 33) 7)) as Ht by (by rewrite Hw).
  assert (currentTime_ (this w) = 2 ^ 32) as Hc by (by rewrite Hw).
  split; [done|]. split; [done|].
  apply (far_timer_diverges 4 ltac:(lia) 1000 w 1 (ex_timer 1 (2 ^ 33) 7) 0); try done. by rewrite Hc.
Defined.

Lemma TimerWheel_new_ok_witness :
  wheel_ok ex_clock 4 (mkWorld (TimerWheel_new 4 16 1000) ex_mem [] [] [] 0).
Proof. apply (TimerWheel_new_ok ex_clock 4); lia. Defined.

Lemma cancelTimer_refines_witness :
  ∃ w', cancelTimer 2 ex_world = Done (true, w') ∧ wheel_ok ex_clock 4 w' ∧
        cancelledPending_ (this w') = {[2]}.
Proof.
  destruct (cancelTimer_refines ex_clock 4 ltac:(lia) ex_world 2 ex_world_ok ltac:(lia))
    as (w' & Hrun & Hok & Habs & _).
  exists w'. split; [exact Hrun|]. split; [done|]. by apply (f_equal cancelled) in Habs.
Defined.

Lemma cancelTimerDetach_refines_witness :
  ∃ w', cancelTimerDetach 2 ex_world = Done (true, w') ∧ wheel_ok ex_clock 4 w' ∧
        detachedPending_ (this w') = {[2]}.
Proof.
  destruct (cancelTimerDetach_refines ex_clock 4 ltac:(lia) ex_world 2 ex_world_ok ltac:(lia))
    as (w' & Hrun & Hok & Habs & _).
  exists w'. split; [exact Hrun|]. split; [done|]. by apply (f_equal detached) in Habs.
Defined.

Lemma addTimer_queues_witness :
  ∃ w', addTimer ex_clock 1 (fresh 4 16 990 [] 0 ex_mem []) = Done (1, w') ∧ wheel_ok ex_clock 4 w' ∧
        timer_operations_queue (this w') = [ADD 1 1].
Proof.
  assert (wheel_ok ex_clock 4 (fresh 4 16 990 [] 0 ex_mem [])) as HW.
  { apply fresh_ok; [lia|lia|lia|by intros k []%elem_of_nil|]. apply (queue_ok_nil ex_clock 4 ltac:(lia)). done. }
  destruct (addTimer_queues ex_clock 4 ltac:(lia) (fresh 4 16 990 [] 0 ex_mem []) 1 (ex_timer 1 995 7))
    as (w' & Hrun & Hok & _ & Hq & _); try done; try (cbn; lia).
  - intros k. apply not_elem_of_nil.
  - by intros k d j []%elem_of_nil.
  - by exists w'.
Defined.

Lemma getNextTimeout_sound_witness :
  ∃ r w', getNextTimeout ex_clock (mkWorld {| (TimerWheel_new 4 16 990) with timerMap_ := {[1 := 1%positive]};
                                   nextExpiryTime_ := 1050 |} {[1%positive := ex_timer 1 1050 7]} [] [] [] 0) = (r, w') ∧ r = 50 ∧ r <= INT_MAX.
Proof.
  set (w := mkWorld _ _ _ _ _ _). exists 50, (snd (getNextTimeout ex_clock w)).
  split; [reflexivity|]. split; [done|].
  assert (view w = {[1 := ex_timer 1 1050 7]}) as Hv by reflexivity.
  apply (getNextTimeout_sound ex_clock w 50 (snd (getNextTimeout ex_clock w))); [|reflexivity].
  rewrite Hv. right. split; [by exists 1, (ex_timer 1 1050 7)|].
  intros k t [<- <-]%lookup_singleton_Some. cbn. lia.
Defined.
