(* ===== verification/FastQueue.v ===== *)
(** The single-threaded queues ([FastQueue.h]): the fixed ring [RingQueue] and the
    growing [Queue] with its free-running 64-bit indices, its doubling of the
    storage and its two ways of copying in bulk.  Both refine a list. *)

From S2P Require Import Prelude.

(** * RingQueue: a fixed ring that keeps one slot free *)

Module RingQueue.
Section ring.
Context {T : Type}.

Record RingQueue := mkRing { buffer : list T; head : Z; tail : Z }.

Section ops.
(** The template argument. *)
Context (Capacity : Z).

Definition ring_enqueue (item : T) (q : RingQueue) : outcome (bool * RingQueue) :=
  let next_tail := Z.land (u64 (tail q + 1)) (Capacity - 1) in
  if next_tail =? head q then Done (false, q)
  else
    b ← awrite (buffer q) (tail q) item;
    Done (true, mkRing b (head q) next_tail).

Definition ring_dequeue (q : RingQueue) : outcome (option T * RingQueue) :=
  if head q =? tail q then Done (None, q)
  else
    item ← aread (buffer q) (head q);
    Done (Some item, {| q with head := Z.land (u64 (head q + 1)) (Capacity - 1) |}).
End ops.
End ring.
Arguments RingQueue : clear implicits.
End RingQueue.

(** * Queue: a ring that doubles when it is full *)

Module Queue.

Definition k_prefetch_ahead : Z := 16.

(** What the template asks of the element type. *)
Record type_traits := mkTraits {
  is_trivially_copyable : bool;
  is_trivially_destructible : bool
}.

(** [x |= x >> s] for the six shifts. *)
Definition smear (x s : Z) : Z := Z.lor x (Z.shiftr x s).

Definition next_pow2 (x : Z) : Z :=
  if x =? 0 then 1
  else
    let x := x - 1 in
    let x := smear x 1 in
    let x := smear x 2 in
    let x := smear x 4 in
    let x := smear x 8 in
    let x := smear x 16 in
    let x := smear x 32 in
    u64 (x + 1).

Section queue.
Context {T : Type} (tr : type_traits).

(** A slot of the storage holds an object or is raw memory. *)
Record Queue := mkQueue {
  buffer : list (option T);
  capacity : Z;
  head : Z;
  tail : Z;
  mask : Z
}.

Definition alloc_items (n : Z) : list (option T) := replicate (Z.to_nat n) None.

Definition allocate (cap : Z) : Queue :=
  let c := next_pow2 cap in
  mkQueue (alloc_items c) c 0 0 (u64 (c - 1)).

Definition size (q : Queue) : Z := u64 (tail q - head q).

Definition empty (q : Queue) : bool := head q =? tail q.

Definition normalize_if_empty (q : Queue) : Queue :=
  if head q =? tail q then {| q with head := 0; tail := 0 |} else q.

(** [buffer[idx].~T()]: the slot must hold an object. *)
Definition destroy_at (b : list (option T)) (idx : Z) : outcome (list (option T)) :=
  if is_trivially_destructible tr then Done b
  else
    _ ← sread b idx;
    awrite b idx None.

(** [new (&new_buf[i]) T(std::move(buffer[src_idx])); buffer[src_idx].~T();] *)
Definition grow_body (hd msk i : Z) (bs : list (option T) * list (option T)) :
    outcome (list (option T) * list (option T)) :=
  let '(b, nb) := bs in
  let src_idx := Z.land (u64 (hd + i)) msk in
  x ← sread b src_idx;
  nb ← awrite nb i (Some x);
  b ← destroy_at b src_idx;
  Done (b, nb).

Definition grow (q : Queue) : outcome Queue :=
  let new_cap := u64 (capacity q * 2) in
  let count := size q in
  '(_, nb) ← for_from 0 (Z.to_nat count) (grow_body (head q) (mask q))
                      (buffer q, alloc_items new_cap);
  Done (mkQueue nb new_cap 0 count (u64 (new_cap - 1))).

Definition enqueue (item : T) (q : Queue) : outcome Queue :=
  q ← (if size q =? capacity q then grow q else Done q);
  let idx := Z.land (tail q) (mask q) in
  b ← awrite (buffer q) idx (Some item);
  Done {| q with buffer := b; tail := u64 (tail q + 1) |}.

(** [emplace] constructs the element from [args] in place. *)
Definition emplace {Args} (construct : Args → T) (args : Args) (q : Queue) : outcome Queue :=
  q ← (if size q =? capacity q then grow q else Done q);
  let idx := Z.land (tail q) (mask q) in
  b ← awrite (buffer q) idx (Some (construct args));
  Done {| q with buffer := b; tail := u64 (tail q + 1) |}.

(** [while (need > capacity) grow();]: the capacity doubles, 64 rounds are enough. *)
Fixpoint grow_to (fuel : nat) (need : Z) (q : Queue) : outcome Queue :=
  if capacity q <? need then
    match fuel with
    | O => OutOfFuel
    | S fuel => q ← grow q; grow_to fuel need q
    end
  else Done q.

(** [new (&buffer[(start + i) & mask]) T(src[i])] *)
Definition put_body (start msk : Z) (src : list T) (i : Z) (b : list (option T)) :
    outcome (list (option T)) :=
  x ← aread src i;
  awrite b (Z.land (u64 (start + i)) msk) (Some x).

Definition enqueue_bulk (src : list T) (count : Z) (q : Queue) : outcome (Z * Queue) :=
  if count =? 0 then Done (0, q)
  else
    let need := u64 (size q + count) in
    q ← grow_to 64 need q;
    let start := tail q in
    let end_ := u64 (tail q + count) in
    let s := Z.land start (mask q) in
    let e := Z.land end_ (mask q) in
    b ← (if is_trivially_copyable tr then
           if s <? e then memcpy (buffer q) s (Some <$> src) 0 count
           else
             let first_part := capacity q - s in
             b ← memcpy (buffer q) s (Some <$> src) 0 first_part;
             memcpy b 0 (Some <$> src) first_part (count - first_part)
         else for_from 0 (Z.to_nat count) (put_body start (mask q) src) (buffer q));
    Done (count, {| q with buffer := b; tail := end_ |}).

(** The elements are constructed one by one from parallel arrays. *)
Definition enqueue_bulk_emplace (arrays : list T) (count : Z) (q : Queue) : outcome (Z * Queue) :=
  if count =? 0 then Done (0, q)
  else
    let need := u64 (size q + count) in
    q ← grow_to 64 need q;
    let start := tail q in
    let end_ := u64 (tail q + count) in
    b ← for_from 0 (Z.to_nat count) (put_body start (mask q) arrays) (buffer q);
    Done (count, {| q with buffer := b; tail := end_ |}).

Definition dequeue (q : Queue) : outcome (option T * Queue) :=
  if head q =? tail q then Done (None, q)
  else
    let idx := Z.land (head q) (mask q) in
    item ← sread (buffer q) idx;
    b ← destroy_at (buffer q) idx;
    Done (Some item, normalize_if_empty {| q with buffer := b; head := u64 (head q + 1) |}).

(** [out[i] = std::move(buffer[(head + i) & mask])] *)
Definition get_body (hd msk : Z) (b : list (option T)) (i : Z) (out : list (option T)) :
    outcome (list (option T)) :=
  x ← sread b (Z.land (u64 (hd + i)) msk);
  awrite out i (Some x).

Definition destroy_body (hd msk i : Z) (b : list (option T)) : outcome (list (option T)) :=
  _ ← sread b (Z.land (u64 (hd + i)) msk);
  awrite b (Z.land (u64 (hd + i)) msk) None.

Definition dequeue_bulk (out : list (option T)) (max_count : Z) (q : Queue) :
    outcome (Z * list (option T) * Queue) :=
  let available := size q in
  if (available =? 0) || (max_count =? 0) then Done (0, out, q)
  else
    let count := if available <? max_count then available else max_count in
    let start := head q in
    let end_ := u64 (head q + count) in
    let s := Z.land start (mask q) in
    let e := Z.land end_ (mask q) in
    '(out, b) ← (if is_trivially_copyable tr then
                   o ← (if s <? e then memcpy out 0 (buffer q) s count
                        else
                          let first_part := capacity q - s in
                          o ← memcpy out 0 (buffer q) s first_part;
                          memcpy o first_part (buffer q) 0 (count - first_part));
                   Done (o, buffer q)
                 else
                   o ← for_from 0 (Z.to_nat count) (get_body (head q) (mask q) (buffer q)) out;
                   b ← for_from 0 (Z.to_nat count) (destroy_body (head q) (mask q)) (buffer q);
                   Done (o, b));
    Done (count, out, normalize_if_empty {| q with buffer := b; head := end_ |}).

(** [while (head != tail) { buffer[head & mask].~T(); ++head; }] *)
Fixpoint destroy_all (fuel : nat) (q : Queue) : outcome Queue :=
  if is_trivially_destructible tr then Done q
  else if head q =? tail q then Done q
  else
    match fuel with
    | O => OutOfFuel
    | S fuel =>
        b ← destroy_at (buffer q) (Z.land (head q) (mask q));
        destroy_all fuel {| q with buffer := b; head := u64 (head q + 1) |}
    end.
End queue.
Arguments Queue : clear implicits.
End Queue.
