(* ===== verification/FastQueueCorrect.v ===== *)
(** The single-threaded queues refine a list: every operation, growth and bulk copies
    included, for trivially copyable elements and for others. *)

From S2P Require Import Prelude FastQueue.
Import FastQueue.Queue.

(** * next_pow2 *)

Section pow2.

(** The [m] bits of [y] below and including its highest bit are ones. *)
Definition top_ones (m y : Z) : Prop :=
  0 < y ∧ ∀ i, 0 <= i → Z.log2 y - m < i <= Z.log2 y → Z.testbit y i = true.

Lemma smear_top_ones m y :
  0 < m → top_ones m y → top_ones (2 * m) (smear y m) ∧ Z.log2 (smear y m) = Z.log2 y.
Proof.
  intros Hm [Hy Hbits]. unfold smear.
  assert (0 <= Z.shiftr y m) as Hs by (apply Z.shiftr_nonneg; lia).
  assert (Z.log2 (Z.lor y (Z.shiftr y m)) = Z.log2 y) as Hlog.
  { rewrite Z.log2_lor by lia. apply Z.max_l. apply Z.log2_le_mono. rewrite Z.shiftr_div_pow2 by lia.
    apply Z.div_le_upper_bound; [lia|]. assert (1 <= 2 ^ m) by lia. nia. }
  split; [|done]. split.
  { assert (0 <= Z.lor y (Z.shiftr y m)) by (apply Z.lor_nonneg; lia).
    assert (Z.lor y (Z.shiftr y m) ≠ 0); [|lia]. intros [-> _]%Z.lor_eq_0_iff. lia. }
  rewrite Hlog. intros i Hi0 Hi. rewrite Z.lor_spec.
  destruct (decide (Z.log2 y - m < i)) as [Hhi|Hlo]; [by rewrite Hbits by lia|].
  rewrite Z.shiftr_spec by done. rewrite (Hbits (i + m)) by lia. apply orb_true_r.
Qed.

Lemma top_ones_all m y : Z.log2 y < m → top_ones m y → y = 2 ^ (Z.log2 y + 1) - 1.
Proof.
  intros Hm [Hy Hbits]. replace (2 ^ (Z.log2 y + 1) - 1) with (Z.ones (Z.log2 y + 1))
    by (rewrite Z.ones_equiv; lia).
  pose proof (Z.log2_nonneg y). apply Z.bits_inj'. intros i Hi.
  destruct (decide (i <= Z.log2 y)) as [Hle|Hgt].
  - rewrite Hbits by lia. by rewrite Z.ones_spec_low by lia.
  - rewrite Z.ones_spec_high by lia. apply Z.bits_above_log2; lia.
Qed.

(** The six steps fill every bit below the highest one. *)
Lemma smear_all y :
  0 < y → Z.log2 y < 64 →
  smear (smear (smear (smear (smear (smear y 1) 2) 4) 8) 16) 32 = 2 ^ (Z.log2 y + 1) - 1 ∧
  0 <= Z.log2 y.
Proof.
  intros Hy Hlog. assert (top_ones 1 y) as H0.
  { split; [lia|]. intros i _ Hi. assert (i = Z.log2 y) as -> by lia. apply Z.bit_log2. lia. }
  destruct (smear_top_ones 1 y) as [H1 L1]; [lia|done|].
  destruct (smear_top_ones 2 (smear y 1)) as [H2 L2]; [lia|done|].
  destruct (smear_top_ones 4 (smear (smear y 1) 2)) as [H3 L3]; [lia|done|].
  destruct (smear_top_ones 8 (smear (smear (smear y 1) 2) 4)) as [H4 L4]; [lia|done|].
  destruct (smear_top_ones 16 (smear (smear (smear (smear y 1) 2) 4) 8)) as [H5 L5]; [lia|done|].
  destruct (smear_top_ones 32 (smear (smear (smear (smear (smear y 1) 2) 4) 8) 16)) as [H6 L6]; [lia|done|].
  split; [|apply Z.log2_nonneg]. set (z := smear _ 32) in *.
  assert (Z.log2 z = Z.log2 y) as Lz by congruence.
  rewrite (top_ones_all (2 * 32) z) by (done || lia). by rewrite Lz.
Qed.

Lemma next_pow2_log x : 1 <= x <= 2 ^ 63 → next_pow2 x = 2 ^ Z.log2_up x.
Proof.
  intros Hx. unfold next_pow2. destruct (Z.eqb_spec x 0); [lia|].
  destruct (decide (x = 1)) as [->|Hx1]; [done|]. set (y := x - 1).
  assert (Z.log2 y < 63) as Hlog by (apply Z.log2_lt_pow2; lia).
  destruct (smear_all y) as [Hz Hnn]; [lia|lia|]. cbv zeta. rewrite Hz.
  replace (2 ^ (Z.log2 y + 1) - 1 + 1) with (2 ^ (Z.log2 y + 1)) by lia.
  rewrite wrap_small by (split; [lia|apply Z.pow_lt_mono_r; lia]).
  f_equal. unfold Z.log2_up. destruct (Z.compare_spec 1 x); [lia| |lia].
  subst y. rewrite <- Z.sub_1_r. lia.
Qed.

(** The capacity computed by bit smearing is the least power of two that is not
    smaller than the request, for every request up to [2 ^ 63]; beyond, the 64-bit
    increment wraps and the capacity is 0. *)
Theorem next_pow2_least x :
  0 <= x < 2 ^ 64 →
  (x <= 2 ^ 63 → ∃ k, 0 <= k ∧ next_pow2 x = 2 ^ k ∧ x <= next_pow2 x ∧ ∀ j, 0 <= j → x <= 2 ^ j → next_pow2 x <= 2 ^ j) ∧
  (2 ^ 63 < x → next_pow2 x = 0).
Proof.
  intros Hx. split.
  - intros Hle. destruct (decide (x = 0)) as [->|Hne]; [exists 0; split_and!; [done..|]; cbn; lia|].
    rewrite next_pow2_log by lia. exists (Z.log2_up x). split; [apply Z.log2_up_nonneg|]. split; [done|]. split.
    + destruct (decide (x = 1)) as [->|]; [done|]. apply Z.log2_up_spec. lia.
    + intros j Hj Hxj. apply Z.pow_le_mono_r; [lia|]. by apply Z.log2_up_le_pow2; [lia|..].
  - intros Hbig. unfold next_pow2. destruct (Z.eqb_spec x 0); [lia|].
    set (y := x - 1). assert (Z.log2 y = 63) as Hlog by (apply Z.log2_unique; lia).
    destruct (smear_all y) as [Hz _]; [lia|lia|]. cbv zeta. by rewrite Hz, Hlog.
Qed.

Lemma next_pow2_least_witness : ∃ k, 0 <= k ∧ next_pow2 1000 = 2 ^ k ∧ next_pow2 1000 = 1024.
Proof.
  destruct (proj1 (next_pow2_least 1000 ltac:(lia)) ltac:(lia)) as (k & Hk & E & _). by exists k.
Defined.
End pow2.

(** * What a queue holds *)

Section queue.
Context {T : Type} (tr : type_traits).
Implicit Types (q : Queue T) (xs src : list T) (b : list (option T)).

Record qrep (q : Queue T) (xs : list T) : Prop := {
  rep_cap : ∃ k, 0 <= k <= 63 ∧ capacity q = 2 ^ k;
  rep_mask : mask q = capacity q - 1;
  rep_buf : Z.of_nat (length (buffer q)) = capacity q;
  rep_head : 0 <= head q < 2 ^ 64;
  rep_tail : tail q = u64 (head q + Z.of_nat (length xs));
  rep_fits : Z.of_nat (length xs) <= capacity q;
  rep_at i x : xs !! i = Some x →
    buffer q !! Z.to_nat ((head q + Z.of_nat i) mod capacity q) = Some (Some x)
}.

(** The slot of a running index. *)
Lemma slot_index c k z : 0 <= k <= 63 → c = 2 ^ k → Z.land (u64 z) (c - 1) = z mod c.
Proof. intros Hk ->. rewrite land_mask by lia. apply wrap_mod_pow2. lia. Qed.

Lemma slot_index' c k z : 0 <= k <= 63 → c = 2 ^ k → 0 <= z < 2 ^ 64 → Z.land z (c - 1) = z mod c.
Proof. intros Hk Hc Hz. rewrite <- (slot_index c k) by done. by rewrite wrap_small. Qed.

Lemma rep_bounds q xs :
  qrep q xs → 0 < capacity q <= 2 ^ 63 ∧ Z.of_nat (length xs) <= capacity q.
Proof.
  intros HR. destruct (rep_cap _ _ HR) as (k & Hk & E). split; [|apply HR].
  rewrite E. split; [lia|]. apply Z.pow_le_mono_r; lia.
Qed.

Lemma rep_size q xs : qrep q xs → size q = Z.of_nat (length xs).
Proof.
  intros HR. pose proof (rep_bounds _ _ HR). pose proof (rep_head _ _ HR).
  unfold size. rewrite (rep_tail _ _ HR). unfold wrap.
  rewrite Zminus_mod_idemp_l. replace (head q + Z.of_nat (length xs) - head q) with (Z.of_nat (length xs)) by lia.
  apply Z.mod_small. lia.
Qed.

Lemma rep_empty q xs : qrep q xs → (head q =? tail q) = bool_decide (xs = []).
Proof.
  intros HR. pose proof (rep_size _ _ HR) as Hs. pose proof (rep_bounds _ _ HR).
  unfold size in Hs. case_bool_decide as Hx.
  - subst xs. cbn in *. rewrite (rep_tail _ _ HR). cbn. rewrite Z.add_0_r, wrap_small by apply HR.
    apply Z.eqb_refl.
  - apply Z.eqb_neq. intros E. rewrite E, Z.sub_diag, wrap_small in Hs by lia. apply Hx.
    apply nil_length_inv. lia.
Qed.

(** A read of the [i]-th element. *)
Lemma rep_read q xs i x :
  qrep q xs → xs !! i = Some x →
  sread (buffer q) (Z.land (u64 (head q + Z.of_nat i)) (mask q)) = Done x.
Proof.
  intros HR Hx. destruct (rep_cap _ _ HR) as (k & Hk & E). rewrite (rep_mask _ _ HR), (slot_index _ k) by done.
  pose proof (rep_bounds _ _ HR). unfold sread.
  erewrite aread_Some; [|apply Z.mod_pos_bound; lia|by apply (rep_at _ _ HR)]. done.
Qed.

(** ** Growing *)

Definition grow_inv (hd c : Z) xs (i : Z) (bs : list (option T) * list (option T)) : Prop :=
  Z.of_nat (length bs.1) = c ∧ Z.of_nat (length bs.2) = 2 * c ∧
  (∀ j x, xs !! j = Some x → Z.of_nat j < i → bs.2 !! j = Some (Some x)) ∧
  (∀ j x, xs !! j = Some x → i <= Z.of_nat j →
          bs.1 !! Z.to_nat ((hd + Z.of_nat j) mod c) = Some (Some x)).

Lemma destroy_at_ok b i x :
  0 <= i → b !! Z.to_nat i = Some (Some x) →
  ∃ b', destroy_at tr b i = Done b' ∧ length b' = length b ∧
        (∀ j, 0 <= j → j ≠ i → b' !! Z.to_nat j = b !! Z.to_nat j).
Proof.
  intros Hi Hb. unfold destroy_at. destruct (is_trivially_destructible tr); [by exists b|].
  pose proof (lookup_lt_Some _ _ _ Hb). unfold sread. erewrite aread_Some by done. orun.
  rewrite awrite_in by lia. eexists. split; [done|]. split; [by rewrite length_insert|].
  intros j Hj Hne. rewrite list_lookup_insert_ne; [done|lia].
Qed.

Lemma grow_body_ok q xs i bs :
  qrep q xs → 0 <= i < Z.of_nat (length xs) → grow_inv (head q) (capacity q) xs i bs →
  ∃ bs', grow_body tr (head q) (mask q) i bs = Done bs' ∧
         grow_inv (head q) (capacity q) xs (i + 1) bs'.
Proof.
  intros HR Hi. destruct bs as [b nb]. intros (Hb & Hnb & Hdone & Htodo). cbn in *.
  pose proof (rep_bounds _ _ HR). destruct (rep_cap _ _ HR) as (k & Hk & E).
  rewrite (rep_mask _ _ HR), (slot_index _ k) by done.
  set (c := capacity q) in *. set (h := head q) in *.
  destruct (lookup_lt_is_Some_2 xs (Z.to_nat i)) as [x Hx]; [lia|].
  pose proof (Z.mod_pos_bound (h + i) c ltac:(lia)) as Hpos.
  assert (b !! Z.to_nat ((h + i) mod c) = Some (Some x)) as Hbx.
  { specialize (Htodo (Z.to_nat i) x Hx ltac:(lia)). by rewrite Z2Nat.id in Htodo by lia. }
  unfold sread. erewrite aread_Some by (done || lia). orun. rewrite awrite_in by lia. orun.
  destruct (destroy_at_ok b ((h + i) mod c) x) as (b' & -> & Hlen & Hother); [lia|done|]. orun.
  eexists. split; [done|]. split_and!; cbn.
  - lia.
  - rewrite length_insert. lia.
  - intros j y Hy Hj. destruct (decide (j = Z.to_nat i)) as [->|Hne].
    + rewrite list_lookup_insert_eq by lia. congruence.
    + rewrite list_lookup_insert_ne by done. apply Hdone; [done|lia].
  - intros j y Hy Hj. pose proof (lookup_lt_Some _ _ _ Hy).
    rewrite Hother; [apply Htodo; [done|lia]|apply Z.mod_pos_bound; lia|].
    intros Heq. apply ring_pos_inj in Heq; lia.
Qed.

Lemma grow_ok q xs :
  qrep q xs → capacity q < 2 ^ 63 →
  ∃ q', grow tr q = Done q' ∧ qrep q' xs ∧ capacity q' = 2 * capacity q.
Proof.
  intros HR Hcap. pose proof (rep_bounds _ _ HR). destruct (rep_cap _ _ HR) as (k & Hk & E).
  unfold grow. rewrite (rep_size _ _ HR).
  replace (u64 (capacity q * 2)) with (2 * capacity q) by (symmetry; rewrite Z.mul_comm; apply wrap_small; lia).
  destruct (for_from_inv (grow_inv (head q) (capacity q) xs) 0 (length xs)
              (grow_body tr (head q) (mask q)) (buffer q, alloc_items (2 * capacity q))) as ([b nb] & Hrun & Hinv).
  { split_and!; cbn; [apply HR|unfold alloc_items; rewrite length_replicate; lia|lia|].
    intros j x Hx _. by apply (rep_at _ _ HR). }
  { intros j bs Hj Hbs. by apply (grow_body_ok q xs). }
  rewrite Nat2Z.id, Hrun. orun. eexists. split; [done|]. split; [|done].
  destruct Hinv as (_ & Hnb & Hdone & _). cbn in Hnb, Hdone.
  assert (k < 63) as Hk'. { apply (Z.pow_lt_mono_r_iff 2); lia. }
  split; cbn.
  - exists (k + 1). split; [lia|]. rewrite E, Z.pow_add_r by lia. lia.
  - apply wrap_small. lia.
  - done.
  - lia.
  - rewrite wrap_small; lia.
  - lia.
  - intros i x Hx. pose proof (lookup_lt_Some _ _ _ Hx). replace (Z.to_nat _) with i by (rewrite Z.mod_small; lia).
    apply Hdone; [done|lia].
Qed.

(** ** One element *)

Lemma enqueue_at q xs x :
  qrep q xs → Z.of_nat (length xs) < capacity q →
  ∃ b, awrite (buffer q) (Z.land (tail q) (mask q)) (Some x) = Done b ∧
       qrep {| q with buffer := b; tail := u64 (tail q + 1) |} (xs ++ [x]).
Proof.
  intros HR Hlt. pose proof (rep_bounds _ _ HR). destruct (rep_cap _ _ HR) as (k & Hk & E).
  rewrite (rep_mask _ _ HR), (rep_tail _ _ HR), (slot_index _ k) by done.
  set (c := capacity q) in *. set (h := head q) in *. set (n := Z.of_nat (length xs)) in *.
  pose proof (Z.mod_pos_bound (h + n) c ltac:(lia)). pose proof (rep_buf _ _ HR) as Hbuf. fold c in Hbuf.
  rewrite awrite_in by lia. eexists. split; [done|]. split; cbn [buffer capacity head tail mask]; [apply HR|try apply HR; done| |apply HR| | |].
  - by rewrite length_insert.
  - rewrite length_app. cbn. fold h. unfold wrap. rewrite Zplus_mod_idemp_l. f_equal. lia.
  - rewrite length_app. cbn. fold c. lia.
  - fold h c. intros i y Hy. apply lookup_app_Some in Hy as [Hy|[Hge Hy]].
    + pose proof (lookup_lt_Some _ _ _ Hy). rewrite list_lookup_insert_ne; [by apply (rep_at _ _ HR)|].
      intros Heq. pose proof (Z.mod_pos_bound (h + Z.of_nat i) c ltac:(lia)).
      apply Z2Nat.inj in Heq; [|lia..]. apply ring_pos_inj in Heq; lia.
    + apply list_lookup_singleton_Some in Hy as [Hi <-]. replace (Z.of_nat i) with n by lia.
      apply list_lookup_insert_eq. lia.
Qed.

Lemma enqueue_ok q xs x :
  qrep q xs → Z.of_nat (length xs) < 2 ^ 63 →
  ∃ q', enqueue tr x q = Done q' ∧ qrep q' (xs ++ [x]).
Proof.
  intros HR Hlt. unfold enqueue. rewrite (rep_size _ _ HR). pose proof (rep_bounds _ _ HR).
  destruct (Z.eqb_spec (Z.of_nat (length xs)) (capacity q)) as [Hfull|Hroom].
  - destruct (grow_ok q xs HR) as (q1 & -> & HR1 & Hc1); [lia|]. orun.
    destruct (enqueue_at q1 xs x HR1) as (b & -> & HR2); [lia|]. by eexists.
  - orun. destruct (enqueue_at q xs x HR) as (b & -> & HR2); [lia|]. by eexists.
Qed.

(** An empty queue may start over at index 0. *)
Lemma normalize_ok q xs : qrep q xs → qrep (normalize_if_empty q) xs.
Proof.
  intros HR. unfold normalize_if_empty. rewrite (rep_empty _ _ HR).
  case_bool_decide as Hx; [|done]. subst xs. destruct HR as [R1 R2 R3 R4 R5 R6 R7].
  split; cbn; try done.
Qed.

(** Dropping the first [n] elements, whatever happens to their slots. *)
Lemma drop_ok q xs b n :
  qrep q xs → (n <= length xs)%nat → length b = length (buffer q) →
  (∀ i x, xs !! i = Some x → (n <= i)%nat →
     b !! Z.to_nat ((head q + Z.of_nat i) mod capacity q) = Some (Some x)) →
  qrep {| q with buffer := b; head := u64 (head q + Z.of_nat n) |} (drop n xs).
Proof.
  intros HR Hn Hlen Hb. destruct (rep_cap _ _ HR) as (k & Hk & E).
  destruct HR as [R1 R2 R3 R4 R5 R6 R7]. split; cbn; try done.
  - lia.
  - apply wrap_bound. lia.
  - rewrite R5, length_drop. unfold wrap. rewrite Zplus_mod_idemp_l. f_equal. lia.
  - rewrite length_drop. lia.
  - intros i x Hx. rewrite lookup_drop in Hx. specialize (Hb _ _ Hx ltac:(lia)).
    rewrite <- Hb. f_equal. f_equal. rewrite E.
    rewrite <- (wrap_mod_pow2 64 k (head q + Z.of_nat (n + i))) by lia.
    rewrite <- (wrap_mod_pow2 64 k (u64 (head q + Z.of_nat n) + Z.of_nat i)) by lia. f_equal.
    unfold wrap. rewrite Zplus_mod_idemp_l. f_equal. lia.
Qed.

(** Ending the life of the first element. *)
Lemma destroy_head q x xs :
  qrep q (x :: xs) →
  ∃ b, destroy_at tr (buffer q) (Z.land (head q) (mask q)) = Done b ∧
       qrep {| q with buffer := b; head := u64 (head q + 1) |} xs.
Proof.
  intros HR. destruct (rep_cap _ _ HR) as (k & Hk & E). pose proof (rep_bounds _ _ HR).
  assert (Z.land (head q) (mask q) = head q mod capacity q) as ->
    by (rewrite (rep_mask _ _ HR); apply (slot_index' _ k); done || apply HR).
  pose proof (rep_at _ _ HR 0 x eq_refl) as Hx0. rewrite Z.add_0_r in Hx0.
  destruct (destroy_at_ok (buffer q) (head q mod capacity q) x) as (b & -> & Hlen & Hother);
    [apply Z.mod_pos_bound; lia|done|].
  eexists. split; [done|]. apply (drop_ok q (x :: xs) b 1); [done|cbn; lia|done|].
  intros i y Hy Hi. pose proof (lookup_lt_Some _ _ _ Hy).
  rewrite Hother; [by apply (rep_at _ _ HR)|apply Z.mod_pos_bound; lia|].
  intros Heq. rewrite <- (Z.add_0_r (head q)) in Heq at 2. apply ring_pos_inj in Heq; lia.
Qed.

Lemma dequeue_ok q xs :
  qrep q xs →
  ∃ q', dequeue tr q = Done (hd_error xs, q') ∧ qrep q' (tl xs).
Proof.
  intros HR. unfold dequeue. rewrite (rep_empty _ _ HR). case_bool_decide as Hx.
  { subst xs. by exists q. }
  destruct xs as [|x xs]; [done|].
  pose proof (rep_read _ _ 0 x HR eq_refl) as Hread. rewrite Z.add_0_r in Hread.
  rewrite wrap_small in Hread by apply HR. rewrite Hread. orun.
  destruct (destroy_head q x xs HR) as (b & -> & HR'). orun.
  eexists. split; [done|]. by apply normalize_ok.
Qed.

(** ** Copies in bulk *)

(** [b'] is [b] with [src] written from the running index [start] on. *)
Definition written (c start : Z) src b b' : Prop :=
  length b' = length b ∧
  (∀ i x, src !! i = Some x → b' !! Z.to_nat ((start + Z.of_nat i) mod c) = Some (Some x)) ∧
  (∀ j, 0 <= j < c → (∀ i, 0 <= i < Z.of_nat (length src) → j ≠ (start + i) mod c) →
        b' !! Z.to_nat j = b !! Z.to_nat j).

(** Copying in one or two pieces writes the ring. *)
Lemma copy_in c start src b :
  0 < c → Z.of_nat (length b) = c → 0 < Z.of_nat (length src) <= c →
  ∃ b', (if start mod c <? (start + Z.of_nat (length src)) mod c
         then memcpy b (start mod c) (Some <$> src) 0 (Z.of_nat (length src))
         else b1 ← memcpy b (start mod c) (Some <$> src) 0 (c - start mod c);
              memcpy b1 0 (Some <$> src) (c - start mod c) (Z.of_nat (length src) - (c - start mod c)))
        = Done b' ∧ written c start src b b'.
Proof.
  intros Hc Hb Hn. set (n := Z.of_nat (length src)) in *. set (s := start mod c).
  assert (0 <= s < c) as Hs by (apply Z.mod_pos_bound; lia).
  assert (∀ i, 0 <= i <= c → (start + i) mod c = if decide (s + i < c) then s + i else s + i - c) as Hpos
    by (intros; by apply ring_pos).
  assert (Z.of_nat (length (Some <$> src)) = n) as Hsrc by (by rewrite length_fmap).
  rewrite Hpos by lia. destruct (decide (s + n < c)) as [Hfit|Hwrap].
  - rewrite (proj2 (Z.ltb_lt _ _)) by lia.
    destruct (memcpy_ok b s (Some <$> src) 0 n) as (b' & -> & Hlen & Hat); [lia..|].
    exists b'. split; [done|]. split; [done|]. split.
    + intros i x Hx. pose proof (lookup_lt_Some _ _ _ Hx). rewrite Hpos by lia.
      rewrite decide_True by lia. rewrite Hat, decide_True by lia.
      replace (Z.to_nat _) with i by lia. by rewrite list_lookup_fmap, Hx.
    + intros j Hj Hout. rewrite Hat by lia. rewrite decide_False; [done|].
      intros Hin. apply (Hout (j - s)); [lia|]. rewrite Hpos, decide_True by lia. lia.
  - rewrite (proj2 (Z.ltb_ge _ _)) by lia.
    destruct (memcpy_ok b s (Some <$> src) 0 (c - s)) as (b1 & -> & Hlen1 & Hat1); [lia..|]. orun.
    destruct (memcpy_ok b1 0 (Some <$> src) (c - s) (n - (c - s))) as (b' & -> & Hlen & Hat); [lia..|].
    exists b'. split; [done|]. split; [lia|]. split.
    + intros i x Hx. pose proof (lookup_lt_Some _ _ _ Hx). rewrite Hpos by lia. case_decide.
      * rewrite Hat, decide_False by lia. rewrite Hat1, decide_True by lia.
        replace (Z.to_nat _) with i by lia. by rewrite list_lookup_fmap, Hx.
      * rewrite Hat, decide_True by lia.
        replace (Z.to_nat _) with i by lia. by rewrite list_lookup_fmap, Hx.
    + intros j Hj Hout. rewrite Hat by lia. case_decide as H1.
      { exfalso. apply (Hout (j + c - s)); [lia|]. rewrite Hpos, decide_False by lia. lia. }
      rewrite Hat1 by lia. rewrite decide_False; [done|].
      intros Hin. apply (Hout (j - s)); [lia|]. rewrite Hpos, decide_True by lia. lia.
Qed.

(** Constructing the elements one by one writes the same. *)
Lemma put_loop c k start src b :
  0 <= k <= 63 → c = 2 ^ k → Z.of_nat (length b) = c → Z.of_nat (length src) <= c →
  ∃ b', for_from 0 (length src) (put_body start (c - 1) src) b = Done b' ∧ written c start src b b'.
Proof.
  intros Hk E Hb Hn. assert (0 < c) as Hc by lia.
  destruct (for_from_inv (λ m b', 0 <= m ∧ written c start (take (Z.to_nat m) src) b b') 0 (length src)
              (put_body start (c - 1) src) b) as (b' & Hrun & _ & Hw).
  - split; [lia|]. split; [done|]. split; [done|]. done.
  - intros m b1 Hm (_ & Hlen & Hin & Hout). unfold put_body.
    destruct (lookup_lt_is_Some_2 src (Z.to_nat m)) as [x Hx]; [lia|].
    erewrite aread_Some by (done || lia). orun. rewrite (slot_index _ k) by done.
    pose proof (Z.mod_pos_bound (start + m) c Hc). rewrite awrite_in by lia.
    eexists. split; [done|]. split; [lia|].
    replace (Z.to_nat (m + 1)) with (S (Z.to_nat m)) by lia. rewrite (take_S_r _ _ x) by done.
    split; [by rewrite length_insert|]. split.
    + intros i y Hy. apply lookup_app_Some in Hy as [Hy|[Hge Hy]].
      * pose proof (lookup_lt_Some _ _ _ Hy) as Hi. rewrite length_take in Hi.
        pose proof (Z.mod_pos_bound (start + Z.of_nat i) c Hc).
        rewrite list_lookup_insert_ne; [by apply Hin|]. intros Heq.
        apply Z2Nat.inj in Heq; [|lia..]. apply ring_pos_inj in Heq; lia.
      * rewrite length_take in Hge, Hy. apply list_lookup_singleton_Some in Hy as [Hi <-].
        replace (Z.of_nat i) with m by lia. apply list_lookup_insert_eq. lia.
    + intros j Hj Hne. rewrite length_app, length_take in Hne. cbn in Hne.
      rewrite list_lookup_insert_ne.
      * apply Hout; [done|]. intros i Hi. rewrite length_take in Hi. apply Hne. lia.
      * intros Heq. apply Z2Nat.inj in Heq; [|lia..]. apply (Hne m); [lia|done].
  - exists b'. split; [done|]. by rewrite Z.add_0_l, Nat2Z.id, firstn_all in Hw.
Qed.

(** Writing from the tail on appends. *)
Lemma written_append q xs src b :
  qrep q xs → Z.of_nat (length xs) + Z.of_nat (length src) <= capacity q →
  written (capacity q) (tail q) src (buffer q) b →
  qrep {| q with buffer := b; tail := u64 (tail q + Z.of_nat (length src)) |} (xs ++ src).
Proof.
  intros HR Hfit (Hlen & Hin & Hout). pose proof (rep_bounds _ _ HR).
  destruct (rep_cap _ _ HR) as (k & Hk & E).
  assert (∀ i, (tail q + i) mod capacity q = (head q + (Z.of_nat (length xs) + i)) mod capacity q) as Htail.
  { intros i. rewrite (rep_tail _ _ HR), E. rewrite <- (wrap_mod_pow2 64 k) by lia.
    rewrite <- (wrap_mod_pow2 64 k (head q + _)) by lia. unfold wrap. rewrite Zplus_mod_idemp_l. f_equal. f_equal. lia. }
  split; cbn [buffer capacity head tail mask]; [apply HR|apply HR| |apply HR| | |].
  - rewrite Hlen. apply HR.
  - rewrite (rep_tail _ _ HR), length_app. unfold wrap. rewrite Zplus_mod_idemp_l. f_equal. lia.
  - rewrite length_app. lia.
  - intros i x Hx. apply lookup_app_Some in Hx as [Hx|[Hge Hx]].
    + pose proof (lookup_lt_Some _ _ _ Hx). rewrite Hout; [by apply (rep_at _ _ HR)|apply Z.mod_pos_bound; lia|].
      intros j Hj Heq. rewrite Htail in Heq. apply ring_pos_inj in Heq; lia.
    + specialize (Hin _ _ Hx). rewrite <- Hin, Htail. do 3 f_equal. lia.
Qed.

Lemma grow_to_ok fuel need q xs :
  qrep q xs → need <= 2 ^ 63 → need <= capacity q * 2 ^ Z.of_nat fuel →
  ∃ q', grow_to tr fuel need q = Done q' ∧ qrep q' xs ∧ need <= capacity q'.
Proof.
  revert q. induction fuel as [|fuel IH]; intros q HR Hmax Hneed; cbn [grow_to].
  - rewrite (proj2 (Z.ltb_ge _ _)) by (cbn in Hneed; lia). exists q. split; [done|]. split; [done|]. cbn in Hneed. lia.
  - destruct (Z.ltb_spec (capacity q) need) as [Hlt|Hge]; [|by exists q].
    destruct (grow_ok q xs HR) as (q1 & -> & HR1 & Hc1); [lia|]. orun.
    apply IH; [done|done|]. rewrite Hc1. rewrite Nat2Z.inj_succ, Z.pow_succ_r in Hneed by lia. lia.
Qed.

Lemma grow_for q xs n :
  qrep q xs → 0 <= n → Z.of_nat (length xs) + n <= 2 ^ 63 →
  ∃ q', grow_to tr 64 (u64 (size q + n)) q = Done q' ∧ qrep q' xs ∧
        Z.of_nat (length xs) + n <= capacity q'.
Proof.
  intros HR Hn Hmax. rewrite (rep_size _ _ HR), wrap_small by lia. pose proof (rep_bounds _ _ HR).
  apply grow_to_ok; [done|done|]. change (2 ^ Z.of_nat 64) with (2 * 2 ^ 63). nia.
Qed.

Lemma enqueue_bulk_ok q xs src :
  qrep q xs → Z.of_nat (length xs) + Z.of_nat (length src) <= 2 ^ 63 →
  ∃ q', enqueue_bulk tr src (Z.of_nat (length src)) q = Done (Z.of_nat (length src), q') ∧
        qrep q' (xs ++ src).
Proof.
  intros HR Hmax. unfold enqueue_bulk.
  destruct (Z.eqb_spec (Z.of_nat (length src)) 0) as [Hz|Hnz].
  { exists q. destruct src; [|cbn in Hz; lia]. by rewrite app_nil_r. }
  destruct (grow_for q xs (Z.of_nat (length src)) HR) as (q1 & -> & HR1 & Hfit); [lia|done|]. orun.
  destruct (rep_cap _ _ HR1) as (k & Hk & E). pose proof (rep_bounds _ _ HR1).
  assert (∀ z, Z.land (u64 z) (mask q1) = z mod capacity q1) as Hidx
    by (intros; rewrite (rep_mask _ _ HR1); by apply (slot_index _ k)).
  assert (∃ b, (if is_trivially_copyable tr
     then if Z.land (tail q1) (mask q1) <? Z.land (u64 (tail q1 + Z.of_nat (length src))) (mask q1)
          then memcpy (buffer q1) (Z.land (tail q1) (mask q1)) (Some <$> src) 0 (Z.of_nat (length src))
          else b1 ← memcpy (buffer q1) (Z.land (tail q1) (mask q1)) (Some <$> src) 0
                      (capacity q1 - Z.land (tail q1) (mask q1));
               memcpy b1 0 (Some <$> src) (capacity q1 - Z.land (tail q1) (mask q1))
                 (Z.of_nat (length src) - (capacity q1 - Z.land (tail q1) (mask q1)))
     else for_from 0 (Z.to_nat (Z.of_nat (length src))) (put_body (tail q1) (mask q1) src) (buffer q1)) = Done b ∧
     written (capacity q1) (tail q1) src (buffer q1) b) as (b & -> & Hw).
  { assert (Z.land (tail q1) (mask q1) = tail q1 mod capacity q1) as Hs.
    { rewrite <- (Hidx (tail q1)). f_equal. rewrite wrap_small; [done|]. rewrite (rep_tail _ _ HR1).
      apply wrap_bound. lia. }
    destruct (is_trivially_copyable tr).
    - rewrite Hs, Hidx. apply copy_in; [lia|apply HR1|lia].
    - rewrite Nat2Z.id, (rep_mask _ _ HR1). apply (put_loop _ k); try done; [apply HR1|lia]. }
  orun. eexists. split; [done|]. by apply written_append.
Qed.

(** Constructing from parallel arrays is the same as copying the elements. *)
Lemma enqueue_bulk_emplace_ok q xs src :
  qrep q xs → Z.of_nat (length xs) + Z.of_nat (length src) <= 2 ^ 63 →
  ∃ q', enqueue_bulk_emplace tr src (Z.of_nat (length src)) q = Done (Z.of_nat (length src), q') ∧
        qrep q' (xs ++ src).
Proof.
  intros HR Hmax. unfold enqueue_bulk_emplace.
  destruct (Z.eqb_spec (Z.of_nat (length src)) 0) as [Hz|Hnz].
  { exists q. destruct src; [|cbn in Hz; lia]. by rewrite app_nil_r. }
  destruct (grow_for q xs (Z.of_nat (length src)) HR) as (q1 & -> & HR1 & Hfit); [lia|done|]. orun.
  destruct (rep_cap _ _ HR1) as (k & Hk & E). pose proof (rep_bounds _ _ HR1).
  rewrite Nat2Z.id.
  replace (put_body (tail q1) (mask q1)) with (@put_body T (tail q1) (capacity q1 - 1)) by (by rewrite (rep_mask _ _ HR1)).
  destruct (put_loop (capacity q1) k (tail q1) src (buffer q1)) as (b & -> & Hw);
    [done|done|apply HR1|lia|]. orun.
  eexists. split; [done|]. by apply written_append.
Qed.

(** [out'] is [out] with the first [n] slots from the running index [h] on. *)
Definition taken (c h n : Z) b (out out' : list (option T)) : Prop :=
  length out' = length out ∧
  (∀ i, 0 <= i < n → out' !! Z.to_nat i = b !! Z.to_nat ((h + i) mod c)) ∧
  (∀ i, n <= i → out' !! Z.to_nat i = out !! Z.to_nat i).

Lemma copy_out c h n b out :
  0 < c → Z.of_nat (length b) = c → 0 < n <= c → n <= Z.of_nat (length out) →
  ∃ out', (if h mod c <? (h + n) mod c then memcpy out 0 b (h mod c) n
           else o ← memcpy out 0 b (h mod c) (c - h mod c);
                memcpy o (c - h mod c) b 0 (n - (c - h mod c))) = Done out' ∧ taken c h n b out out'.
Proof.
  intros Hc Hb Hn Hout. set (s := h mod c). assert (0 <= s < c) as Hs by (apply Z.mod_pos_bound; lia).
  assert (∀ i, 0 <= i <= c → (h + i) mod c = if decide (s + i < c) then s + i else s + i - c) as Hpos
    by (intros; by apply ring_pos).
  rewrite Hpos by lia. destruct (decide (s + n < c)) as [Hfit|Hwrap].
  - rewrite (proj2 (Z.ltb_lt _ _)) by lia.
    destruct (memcpy_ok out 0 b s n) as (o & -> & Hlen & Hat); [lia..|].
    exists o. split; [done|]. split; [done|]. split.
    + intros i Hi. rewrite Hat, decide_True by lia. rewrite Hpos, decide_True by lia. do 2 f_equal. lia.
    + intros i Hi. by rewrite Hat, decide_False by lia.
  - rewrite (proj2 (Z.ltb_ge _ _)) by lia.
    destruct (memcpy_ok out 0 b s (c - s)) as (o1 & -> & Hlen1 & Hat1); [lia..|]. orun.
    destruct (memcpy_ok o1 (c - s) b 0 (n - (c - s))) as (o & -> & Hlen & Hat); [lia..|].
    exists o. split; [done|]. split; [lia|]. split.
    + intros i Hi. rewrite Hat by lia. rewrite Hpos by lia. case_decide.
      * rewrite decide_False by lia. do 2 f_equal. lia.
      * rewrite decide_True, Hat1, decide_True by lia. do 2 f_equal. lia.
    + intros i Hi. by rewrite Hat, decide_False, Hat1, decide_False by lia.
Qed.

Lemma get_loop q xs n out :
  qrep q xs → (n <= length xs)%nat → (n <= length out)%nat →
  ∃ out', for_from 0 n (get_body (head q) (mask q) (buffer q)) out = Done out' ∧
          taken (capacity q) (head q) (Z.of_nat n) (buffer q) out out'.
Proof.
  intros HR Hn Hout. destruct (rep_cap _ _ HR) as (k & Hk & E).
  destruct (for_from_inv (λ m o, 0 <= m ∧ taken (capacity q) (head q) m (buffer q) out o) 0 n
              (get_body (head q) (mask q) (buffer q)) out) as (o & Hrun & _ & Ht).
  - split; [lia|]. split; [done|]. split; [lia|done].
  - intros m o Hm (_ & Hlen & Hin & Hrest). unfold get_body.
    destruct (lookup_lt_is_Some_2 xs (Z.to_nat m)) as [x Hx]; [lia|].
    pose proof (rep_read _ _ _ _ HR Hx) as Hread. rewrite Z2Nat.id in Hread by lia. rewrite Hread. orun.
    rewrite awrite_in by lia. eexists. split; [done|]. split; [lia|].
    split; [by rewrite length_insert|]. split.
    + intros i Hi. destruct (decide (i = m)) as [->|Hne].
      * rewrite list_lookup_insert_eq by lia. pose proof (rep_at _ _ HR _ _ Hx) as Hat.
        by rewrite Z2Nat.id in Hat by lia.
      * rewrite list_lookup_insert_ne by lia. apply Hin. lia.
    + intros i Hi. rewrite list_lookup_insert_ne by lia. apply Hrest. lia.
  - exists o. split; [done|]. by rewrite Z.add_0_l in Ht.
Qed.

Lemma destroy_loop q xs n :
  qrep q xs → (n <= length xs)%nat →
  ∃ b, for_from 0 n (destroy_body (head q) (mask q)) (buffer q) = Done b ∧
       length b = length (buffer q) ∧
       ∀ i x, xs !! i = Some x → (n <= i)%nat →
              b !! Z.to_nat ((head q + Z.of_nat i) mod capacity q) = Some (Some x).
Proof.
  intros HR Hn. destruct (rep_cap _ _ HR) as (k & Hk & E). pose proof (rep_bounds _ _ HR).
  assert (∀ z, Z.land (u64 z) (mask q) = z mod capacity q) as Hidx
    by (intros; rewrite (rep_mask _ _ HR); by apply (slot_index _ k)).
  destruct (for_from_inv (λ m b, 0 <= m ∧ length b = length (buffer q) ∧
      ∀ i x, xs !! i = Some x → m <= Z.of_nat i →
             b !! Z.to_nat ((head q + Z.of_nat i) mod capacity q) = Some (Some x)) 0 n
      (destroy_body (head q) (mask q)) (buffer q)) as (b & Hrun & _ & Hlen & Hb).
  - split; [lia|]. split; [done|]. intros i x Hx _. by apply (rep_at _ _ HR).
  - intros m b Hm (_ & Hlen & Hb). unfold destroy_body. rewrite Hidx.
    destruct (lookup_lt_is_Some_2 xs (Z.to_nat m)) as [x Hx]; [lia|].
    pose proof (Hb _ _ Hx ltac:(lia)) as Hbx. rewrite Z2Nat.id in Hbx by lia.
    pose proof (Z.mod_pos_bound (head q + m) (capacity q) ltac:(lia)).
    unfold sread. erewrite aread_Some by (done || lia). orun.
    pose proof (rep_buf _ _ HR). rewrite awrite_in by lia. eexists. split; [done|]. split; [lia|].
    split; [by rewrite length_insert|]. intros i y Hy Hi. pose proof (lookup_lt_Some _ _ _ Hy).
    rewrite list_lookup_insert_ne; [apply Hb; [done|lia]|]. intros Heq.
    pose proof (Z.mod_pos_bound (head q + Z.of_nat i) (capacity q) ltac:(lia)).
    apply Z2Nat.inj in Heq; [|lia..]. apply ring_pos_inj in Heq; lia.
  - exists b. split; [done|]. split; [done|]. intros i x Hx Hi. apply Hb; [done|lia].
Qed.

(** What was taken are the first elements. *)
Lemma taken_elements q xs n out out' :
  qrep q xs → (n <= length xs)%nat → (n <= length out)%nat →
  taken (capacity q) (head q) (Z.of_nat n) (buffer q) out out' →
  out' = (Some <$> take n xs) ++ drop n out.
Proof.
  intros HR Hn Hout (Hlen & Hin & Hrest). apply list_eq. intros i.
  destruct (decide (i < n)%nat) as [Hi|Hi].
  - rewrite lookup_app_l by (rewrite length_fmap, length_take; lia).
    destruct (lookup_lt_is_Some_2 xs i) as [x Hx]; [lia|].
    specialize (Hin (Z.of_nat i) ltac:(lia)). rewrite Nat2Z.id in Hin. rewrite Hin, (rep_at _ _ HR _ _ Hx).
    by rewrite list_lookup_fmap, lookup_take_lt, Hx by lia.
  - rewrite lookup_app_r by (rewrite length_fmap, length_take; lia).
    rewrite length_fmap, length_take, lookup_drop.
    specialize (Hrest (Z.of_nat i) ltac:(lia)). rewrite Nat2Z.id in Hrest. rewrite Hrest. f_equal. lia.
Qed.

Lemma dequeue_bulk_ok q xs out max_count :
  qrep q xs → 0 <= max_count <= Z.of_nat (length out) →
  let n := Nat.min (length xs) (Z.to_nat max_count) in
  ∃ q', dequeue_bulk tr out max_count q = Done (Z.of_nat n, (Some <$> take n xs) ++ drop n out, q') ∧
        qrep q' (drop n xs).
Proof.
  intros HR Hmax n. unfold dequeue_bulk. rewrite (rep_size _ _ HR).
  destruct ((Z.of_nat (length xs) =? 0) || (max_count =? 0)) eqn:Hz.
  { assert (n = 0%nat) as ->; [|by exists q].
    apply orb_true_iff in Hz as [Hz|Hz]; apply Z.eqb_eq in Hz; lia. }
  b2p. assert ((if Z.of_nat (length xs) <? max_count then Z.of_nat (length xs) else max_count) = Z.of_nat n) as ->
    by (destruct (Z.ltb_spec (Z.of_nat (length xs)) max_count); lia).
  destruct (rep_cap _ _ HR) as (k & Hk & E). pose proof (rep_bounds _ _ HR).
  assert (∀ z, Z.land (u64 z) (mask q) = z mod capacity q) as Hidx
    by (intros; rewrite (rep_mask _ _ HR); by apply (slot_index _ k)).
  assert (Z.land (head q) (mask q) = head q mod capacity q) as Hs
    by (rewrite <- (Hidx (head q)); by rewrite wrap_small by apply HR).
  rewrite Hs, Hidx, Nat2Z.id.
  destruct (is_trivially_copyable tr).
  - destruct (copy_out (capacity q) (head q) (Z.of_nat n) (buffer q) out) as (o & -> & Ho);
      [lia|apply HR|lia|lia|]. orun.
    rewrite (taken_elements q xs n out o) by (done || lia). eexists. split; [done|].
    apply normalize_ok, drop_ok; [done|lia|done|]. intros i x Hx _. by apply (rep_at _ _ HR).
  - destruct (get_loop q xs n out HR) as (o & -> & Ho); [lia..|]. orun.
    destruct (destroy_loop q xs n HR) as (b & -> & Hlen & Hb); [lia|]. orun.
    rewrite (taken_elements q xs n out o) by (done || lia). eexists. split; [done|].
    apply normalize_ok, drop_ok; [done|lia|done|done].
Qed.

(** ** Construction and destruction *)

Lemma allocate_ok cap : 0 <= cap <= 2 ^ 63 → qrep (allocate cap) [].
Proof.
  intros Hcap. assert (∃ k, 0 <= k <= 63 ∧ next_pow2 cap = 2 ^ k) as (k & Hk & E).
  { destruct (decide (cap = 0)) as [->|]; [by exists 0|]. exists (Z.log2_up cap).
    rewrite next_pow2_log by lia. split; [|done]. split; [apply Z.log2_up_nonneg|].
    apply Z.log2_up_le_pow2; lia. }
  unfold allocate. rewrite E. assert (2 ^ k <= 2 ^ 63) by (apply Z.pow_le_mono_r; lia).
  split; cbn [buffer capacity head tail mask]; try done.
  - by exists k.
  - apply wrap_small. lia.
  - unfold alloc_items. rewrite length_replicate. lia.
  - cbn. lia.
Qed.

Lemma destroy_all_ok fuel q xs :
  qrep q xs → (length xs <= fuel)%nat → ∃ q', destroy_all tr fuel q = Done q'.
Proof.
  revert q xs. induction fuel as [|fuel IH]; intros q xs HR Hfuel; cbn [destroy_all].
  - assert (xs = []) as -> by (apply nil_length_inv; lia). rewrite (rep_empty _ _ HR).
    destruct (is_trivially_destructible tr); by exists q.
  - destruct (is_trivially_destructible tr) eqn:Htr; [by exists q|]. rewrite (rep_empty _ _ HR).
    case_bool_decide as Hx; [by exists q|]. destruct xs as [|x xs]; [done|].
    destruct (destroy_head q x xs HR) as (b & -> & HR'). orun.
    apply (IH _ xs); [done|cbn in Hfuel; lia].
Qed.
End queue.

(** * Sequences of operations *)

Section runs.
Context {T : Type} (tr : type_traits).

Inductive qop :=
| OpEnqueue (x : T)
| OpEmplace (x : T)
| OpEnqueueBulk (src : list T)
| OpEnqueueBulkEmplace (src : list T)
| OpDequeue
| OpDequeueBulk (out : list (option T))
| OpSize
| OpEmpty.

Inductive qres :=
| RNone
| RCount (n : Z)
| RItem (x : option T)
| RItems (n : Z) (out : list (option T))
| RBool (b : bool).

Definition run_op (op : qop) (q : Queue T) : outcome (qres * Queue T) :=
  match op with
  | OpEnqueue x => q ← enqueue tr x q; Done (RNone, q)
  | OpEmplace x => q ← emplace tr (λ y : T, y) x q; Done (RNone, q)
  | OpEnqueueBulk src => '(n, q) ← enqueue_bulk tr src (Z.of_nat (length src)) q; Done (RCount n, q)
  | OpEnqueueBulkEmplace src =>
      '(n, q) ← enqueue_bulk_emplace tr src (Z.of_nat (length src)) q; Done (RCount n, q)
  | OpDequeue => '(x, q) ← dequeue tr q; Done (RItem x, q)
  | OpDequeueBulk out =>
      '(n, out, q) ← dequeue_bulk tr out (Z.of_nat (length out)) q; Done (RItems n out, q)
  | OpSize => Done (RCount (size q), q)
  | OpEmpty => Done (RBool (empty q), q)
  end.

(** The same on a list. *)
Definition list_op (op : qop) (xs : list T) : qres * list T :=
  match op with
  | OpEnqueue x | OpEmplace x => (RNone, xs ++ [x])
  | OpEnqueueBulk src | OpEnqueueBulkEmplace src => (RCount (Z.of_nat (length src)), xs ++ src)
  | OpDequeue => (RItem (hd_error xs), tl xs)
  | OpDequeueBulk out =>
      let n := Nat.min (length xs) (length out) in
      (RItems (Z.of_nat n) ((Some <$> take n xs) ++ drop n out), drop n xs)
  | OpSize => (RCount (Z.of_nat (length xs)), xs)
  | OpEmpty => (RBool (bool_decide (xs = [])), xs)
  end.

Fixpoint run_ops (ops : list qop) (q : Queue T) : outcome (list qres * Queue T) :=
  match ops with
  | [] => Done ([], q)
  | op :: ops => '(r, q) ← run_op op q; '(rs, q) ← run_ops ops q; Done (r :: rs, q)
  end.

Fixpoint list_ops (ops : list qop) (xs : list T) : list qres * list T :=
  match ops with
  | [] => ([], xs)
  | op :: ops => let '(r, xs) := list_op op xs in let '(rs, xs) := list_ops ops xs in (r :: rs, xs)
  end.

(** How many elements an operation adds. *)
Definition adds (op : qop) : nat :=
  match op with
  | OpEnqueue _ | OpEmplace _ => 1
  | OpEnqueueBulk src | OpEnqueueBulkEmplace src => length src
  | _ => 0
  end.

Lemma run_op_ok op q xs :
  qrep q xs → Z.of_nat (length xs + adds op) <= 2 ^ 63 →
  ∃ q', run_op op q = Done ((list_op op xs).1, q') ∧ qrep q' (list_op op xs).2 ∧
        (length (list_op op xs).2 <= length xs + adds op)%nat.
Proof.
  intros HR Hmax. destruct op as [x|x|src|src| |out| |]; cbn [run_op list_op adds fst snd] in *.
  - destruct (enqueue_ok tr q xs x HR) as (q' & -> & HR'); [lia|]. exists q'. rewrite length_app. done.
  - destruct (enqueue_ok tr q xs x HR) as (q' & Hrun & HR'); [lia|].
    change (emplace tr (λ y : T, y) x q) with (enqueue tr x q). rewrite Hrun. exists q'. rewrite length_app. done.
  - destruct (enqueue_bulk_ok tr q xs src HR) as (q' & -> & HR'); [lia|]. exists q'. rewrite length_app. done.
  - destruct (enqueue_bulk_emplace_ok tr q xs src HR) as (q' & -> & HR'); [lia|]. exists q'. rewrite length_app. done.
  - destruct (dequeue_ok tr q xs HR) as (q' & -> & HR'). exists q'. split; [done|]. split; [done|].
    destruct xs; cbn; lia.
  - destruct (dequeue_bulk_ok tr q xs out (Z.of_nat (length out)) HR) as (q' & Hrun & HR'); [lia|].
    rewrite Nat2Z.id in Hrun, HR'. rewrite Hrun. exists q'. split; [done|]. split; [done|].
    rewrite length_drop. lia.
  - exists q. rewrite (rep_size _ _ HR). split; [done|]. split; [done|]. lia.
  - exists q. unfold empty. rewrite (rep_empty _ _ HR). split; [done|]. split; [done|]. lia.
Qed.

Lemma run_ops_ok (ops : list qop) q xs :
  qrep q xs → Z.of_nat (length xs + sum_list (adds <$> ops)) <= 2 ^ 63 →
  ∃ q', run_ops ops q = Done ((list_ops ops xs).1, q') ∧ qrep q' (list_ops ops xs).2.
Proof.
  revert q xs. induction ops as [|op ops IH]; intros q xs HR Hmax; [by exists q|].
  cbn [fmap list_fmap sum_list] in Hmax.
  destruct (run_op_ok op q xs HR) as (q1 & Hrun & HR1 & Hlen); [unfold sum_list in *; cbn in *; lia|].
  cbn [run_ops list_ops]. rewrite Hrun. orun. destruct (list_op op xs) as [r xs1]. cbn in *.
  destruct (IH q1 xs1 HR1) as (q2 & Hrun2 & HR2); [unfold sum_list in *; cbn in *; lia|].
  rewrite Hrun2. orun. destruct (list_ops ops xs1) as [rs xs2]. by exists q2.
Qed.

(** C5: a growing queue behaves as a list.  For every requested capacity, every element
    type (trivially copyable or not) and every sequence of single and bulk operations,
    the queue returns what the list returns, without undefined behaviour: growth keeps
    the order, the way the indices go round the ring of slots is invisible, the two-piece copies
    of the trivial types equal the element-wise loops, and the destructor ends on
    exactly the elements that are left.  (At most [2 ^ 63] elements are added, so the
    64-bit indices themselves do not wrap.) *)
Theorem Queue_refines_list cap (ops : list qop) :
  0 <= cap <= 2 ^ 63 → Z.of_nat (sum_list (adds <$> ops)) <= 2 ^ 63 →
  ∃ q', run_ops ops (allocate cap) = Done ((list_ops ops []).1, q') ∧
        qrep q' (list_ops ops []).2 ∧ size q' = Z.of_nat (length (list_ops ops []).2) ∧
        ∃ q'', destroy_all tr (length (list_ops ops []).2) q' = Done q''.
Proof.
  intros Hcap Hadds. destruct (run_ops_ok ops (allocate cap) [] (allocate_ok cap Hcap)) as (q' & Hrun & HR).
  { done. }
  exists q'. split; [done|]. split; [done|]. split; [by apply rep_size|]. by eapply destroy_all_ok.
Qed.
End runs.

(** * RingQueue *)

Section ring.
Import FastQueue.RingQueue.
Context {T : Type} (k : Z) (Hk : 0 <= k <= 63).

(** The ring of [2 ^ k] slots. *)
Abbreviation c := (2 ^ k).

Record ring_rep (q : RingQueue T) (xs : list T) : Prop := {
  ring_buf : Z.of_nat (length (buffer q)) = c;
  ring_head : 0 <= head q < c;
  ring_tail : tail q = (head q + Z.of_nat (length xs)) mod c;
  ring_fits : Z.of_nat (length xs) < c;
  ring_at i x : xs !! i = Some x → buffer q !! Z.to_nat ((head q + Z.of_nat i) mod c) = Some x
}.

Lemma ring_next z : 0 <= z < c → Z.land (u64 (z + 1)) (c - 1) = (z + 1) mod c.
Proof. intros Hz. rewrite land_mask by lia. apply wrap_mod_pow2. lia. Qed.

(** The tail meets the head exactly when the list has the given length. *)
Lemma ring_meets q xs n :
  ring_rep q xs → 0 <= n <= c → (head q + n) mod c = head q ↔ n = 0 ∨ n = c.
Proof.
  intros HR Hn. pose proof (ring_head _ _ HR) as Hh. rewrite ring_pos by lia.
  rewrite (Z.mod_small (head q)) by done. case_decide; lia.
Qed.

(** The fixed ring refuses an element exactly when it holds [Capacity - 1] of them,
    and otherwise behaves as a list. *)
Theorem RingQueue_refines_list q xs x :
  ring_rep q xs →
  (∃ q', ring_enqueue c x q = Done (bool_decide (Z.of_nat (length xs) < c - 1), q') ∧
         ring_rep q' (if decide (Z.of_nat (length xs) < c - 1) then xs ++ [x] else xs)) ∧
  (∃ q', ring_dequeue c q = Done (hd_error xs, q') ∧ ring_rep q' (tl xs)).
Proof.
  intros HR. pose proof (ring_head _ _ HR) as Hh. pose proof (ring_fits _ _ HR) as Hf.
  pose proof (Z.mod_pos_bound (head q + Z.of_nat (length xs)) c ltac:(lia)) as Ht. split.
  - unfold ring_enqueue. rewrite (ring_tail _ _ HR), ring_next by done.
    rewrite Zplus_mod_idemp_l, <- Z.add_assoc. pose proof (ring_meets q xs (Z.of_nat (length xs) + 1) HR ltac:(lia)) as Hm.
    destruct (Z.eqb_spec ((head q + (Z.of_nat (length xs) + 1)) mod c) (head q)) as [E|E].
    + apply Hm in E. rewrite bool_decide_eq_false_2, decide_False by lia. by exists q.
    + assert (Z.of_nat (length xs) + 1 ≠ c) by (intros H; apply E, Hm; lia).
      rewrite bool_decide_eq_true_2, decide_True by lia.
      pose proof (ring_buf _ _ HR) as Hb. rewrite awrite_in by lia. orun. eexists. split; [done|].
      split; cbn.
      * by rewrite length_insert.
      * done.
      * rewrite length_app. do 2 f_equal. cbn. lia.
      * rewrite length_app. cbn. lia.
      * intros i y Hy. apply lookup_app_Some in Hy as [Hy|[Hge Hy]].
        -- pose proof (lookup_lt_Some _ _ _ Hy). rewrite list_lookup_insert_ne; [by apply (ring_at _ _ HR)|].
           intros Heq. pose proof (Z.mod_pos_bound (head q + Z.of_nat i) c ltac:(lia)).
           apply Z2Nat.inj in Heq; [|lia..]. apply ring_pos_inj in Heq; lia.
        -- apply list_lookup_singleton_Some in Hy as [Hi <-].
           replace (Z.of_nat i) with (Z.of_nat (length xs)) by lia. apply list_lookup_insert_eq. lia.
  - unfold ring_dequeue. rewrite (ring_tail _ _ HR).
    pose proof (ring_meets q xs (Z.of_nat (length xs)) HR ltac:(lia)) as Hm.
    destruct (Z.eqb_spec (head q) ((head q + Z.of_nat (length xs)) mod c)) as [E|E].
    + symmetry in E. apply Hm in E. assert (xs = []) as -> by (apply nil_length_inv; lia). by exists q.
    + destruct xs as [|y xs]; [exfalso; apply E; symmetry; apply Hm; cbn; lia|].
      pose proof (ring_at _ _ HR 0 y eq_refl) as Hy. rewrite Z.add_0_r, Z.mod_small in Hy by done.
      erewrite aread_Some by (done || lia). orun. eexists. split; [done|]. rewrite ring_next by done.
      split; cbn [buffer head tail tl] in *; try apply HR.
      * apply Z.mod_pos_bound. lia.
      * rewrite Zplus_mod_idemp_l. f_equal. cbn. lia.
      * cbn in Hf. lia.
      * intros i z Hz. rewrite Zplus_mod_idemp_l. rewrite <- (ring_at _ _ HR (S i) z Hz). do 3 f_equal. lia.
Qed.
End ring.

(** * Witnesses *)

Definition ex_traits := mkTraits true true.

Definition ex_ops : list (@qop Z) :=
  [OpEnqueueBulk [1; 2; 3]; OpDequeue; OpEnqueueBulk [4; 5]; OpDequeueBulk (replicate 3 None); OpSize].

Lemma Queue_refines_list_witness :
  ∃ q', run_ops ex_traits ex_ops (allocate 4) =
        Done ([RCount 3; RItem (Some 1); RCount 2; RItems 3 [Some 2; Some 3; Some 4]; RCount 1], q') ∧
        size q' = 1.
Proof.
  destruct (Queue_refines_list ex_traits 4 ex_ops) as (q' & Hrun & _ & Hs & _); [lia|vm_compute; done|].
  exists q'. split; [exact Hrun|exact Hs].
Defined.

Lemma RingQueue_refines_list_witness :
  ∃ q', RingQueue.ring_dequeue 4 (RingQueue.mkRing [10; 11; 12; 13] 3 1) = Done (Some 13, q').
Proof.
  destruct (proj2 (RingQueue_refines_list 2 ltac:(lia) (RingQueue.mkRing [10; 11; 12; 13] 3 1) [13; 10] 0 ltac:(
    split; [done|cbn; lia|done|cbn; lia|];
    intros i x Hx; destruct i as [|[|]]; cbn in Hx; simplify_eq; done))) as (q' & Hrun & _).
  by exists q'.
Defined.
