(* ===== verification/ConcurrentQueues.v ===== *)
(** The bounded concurrent queues ([ConcurrentQueues.h]): [SPSCQueue] and [MPMCQueue].
    An operation is a small program over the atomics of the queue: its program counter
    says which atomic access comes next, and one step performs that access.  Running
    the steps of one operation alone is the sequential method; interleaving the steps
    of several threads is the concurrent queue. *)

From S2P Require Import Prelude FastQueue.

(** [next_pow2] of this header. *)
Definition cq_next_pow2 (x : Z) : Z :=
  if x <=? 1 then 1
  else
    let x := x - 1 in
    let x := Queue.smear x 1 in
    let x := Queue.smear x 2 in
    let x := Queue.smear x 4 in
    let x := Queue.smear x 8 in
    let x := Queue.smear x 16 in
    let x := Queue.smear x 32 in
    u64 (x + 1).

(** * SPSCQueue *)

Module SPSC.
Section spsc.
Context {T : Type}.

Record SPSCQueue := mkSPSC {
  cap_ : Z;
  mask_ : Z;
  buf_ : list (option T);
  head_ : Z;
  tail_ : Z
}.

Definition SPSCQueue_new (capacity_pow2 : Z) : SPSCQueue :=
  let c := cq_next_pow2 capacity_pow2 in
  mkSPSC c (u64 (c - 1)) (replicate (Z.to_nat c) None) 0 0.

(** Where the producer is in [emplace]; [prod_ret] is the answer. *)
Inductive prod_pc :=
| prod_load (v : T)
| prod_check (v : T) (tail : Z)
| prod_ctor (v : T) (tail next : Z)
| prod_store (next : Z)
| prod_ret (ok : bool).

Definition emplace_step (c : prod_pc) (q : SPSCQueue) : outcome (prod_pc * SPSCQueue) :=
  match c with
  | prod_load v => Done (prod_check v (tail_ q), q)
  | prod_check v tail =>
      let next := Z.land (u64 (tail + 1)) (mask_ q) in
      if next =? head_ q then Done (prod_ret false, q) else Done (prod_ctor v tail next, q)
  | prod_ctor v tail next =>
      b ← awrite (buf_ q) tail (Some v);
      Done (prod_store next, {| q with buf_ := b |})
  | prod_store next => Done (prod_ret true, {| q with tail_ := next |})
  | prod_ret ok => Done (prod_ret ok, q)
  end.

(** Where the consumer is in [try_dequeue]. *)
Inductive cons_pc :=
| cons_load
| cons_check (head : Z)
| cons_take (head : Z)
| cons_store (head : Z) (out : T)
| cons_ret (out : option T).

Definition spsc_dequeue_step (c : cons_pc) (q : SPSCQueue) : outcome (cons_pc * SPSCQueue) :=
  match c with
  | cons_load => Done (cons_check (head_ q), q)
  | cons_check head =>
      if head =? tail_ q then Done (cons_ret None, q) else Done (cons_take head, q)
  | cons_take head =>
      x ← sread (buf_ q) head;
      b ← awrite (buf_ q) head None;
      Done (cons_store head x, {| q with buf_ := b |})
  | cons_store head x =>
      Done (cons_ret (Some x), {| q with head_ := Z.land (u64 (head + 1)) (mask_ q) |})
  | cons_ret o => Done (cons_ret o, q)
  end.

Definition spsc_empty (q : SPSCQueue) : bool := head_ q =? tail_ q.
Definition spsc_capacity (q : SPSCQueue) : Z := cap_ q - 1.
Definition spsc_size (q : SPSCQueue) : Z := Z.land (u64 (tail_ q - head_ q)) (mask_ q).

(** The two threads: each runs its program and starts the next call when it has
    returned.  [pushed] and [popped] record the calls that succeeded. *)
Record spsc_sys := mkSpscSys {
  squeue : SPSCQueue;
  producer : prod_pc;
  consumer : cons_pc;
  pushed : list T;
  popped : list T
}.

Inductive spsc_step : spsc_sys → spsc_sys → Prop :=
| spsc_prod s c q :
    emplace_step (producer s) (squeue s) = Done (c, q) →
    spsc_step s {| s with squeue := q; producer := c;
                          pushed := match producer s with
                                    | prod_ctor v _ _ => pushed s ++ [v]
                                    | _ => pushed s
                                    end |}
| spsc_prod_call s ok v :
    producer s = prod_ret ok → spsc_step s {| s with producer := prod_load v |}
| spsc_cons s c q :
    spsc_dequeue_step (consumer s) (squeue s) = Done (c, q) →
    spsc_step s {| s with squeue := q; consumer := c;
                          popped := match consumer s, c with
                                    | cons_take _, cons_store _ x => popped s ++ [x]
                                    | _, _ => popped s
                                    end |}
| spsc_cons_call s o :
    consumer s = cons_ret o → spsc_step s {| s with consumer := cons_load |}.

Definition spsc_init (capacity_pow2 : Z) : spsc_sys :=
  mkSpscSys (SPSCQueue_new capacity_pow2) (prod_ret false) (cons_ret None) [] [].
End spsc.
Arguments SPSCQueue : clear implicits.
Arguments spsc_sys : clear implicits.
End SPSC.

(** * MPMCQueue *)

Module MPMC.

(** [static_cast<intptr_t>(a) - static_cast<intptr_t>(b)]: overflow is undefined. *)
Definition ssub (a b : Z) : outcome Z :=
  let d := signed 64 a - signed 64 b in
  if (- 2 ^ 63 <=? d) && (d <? 2 ^ 63) then Done d else UB.

Section mpmc.
Context {T : Type}.

Record Cell := mkCell { seq_ : Z; storage : option T }.

Record MPMCQueue := mkMPMC {
  cap_ : Z;
  mask_ : Z;
  cells_ : list Cell;
  enq_pos_ : Z;
  deq_pos_ : Z
}.

Definition MPMCQueue_new (capacity_pow2 : Z) : MPMCQueue :=
  let c := cq_next_pow2 capacity_pow2 in
  mkMPMC c (u64 (c - 1)) ((λ i : nat, mkCell (Z.of_nat i) None) <$> seq 0 (Z.to_nat c)) 0 0.

(** Where a thread is in [do_enqueue] or [try_dequeue]. *)
Inductive pc :=
| EnqLoad (v : T)
| EnqSeq (v : T) (pos : Z)
| EnqCas (v : T) (pos : Z)
| EnqCtor (v : T) (pos : Z)
| EnqPub (v : T) (pos : Z)
| EnqRet (ok : bool)
| DeqLoad
| DeqSeq (pos : Z)
| DeqCas (pos : Z)
| DeqTake (pos : Z)
| DeqRel (pos : Z) (out : T)
| DeqRet (out : option T).

Definition cell_index (q : MPMCQueue) (pos : Z) : Z := Z.land pos (mask_ q).

Definition put_cell (q : MPMCQueue) (pos : Z) (c : Cell) : outcome MPMCQueue :=
  cs ← awrite (cells_ q) (cell_index q pos) c;
  Done {| q with cells_ := cs |}.

(** One atomic access of [do_enqueue]; a weak compare-exchange may fail spuriously. *)
Definition do_enqueue_step (spurious : bool) (c : pc) (q : MPMCQueue) : outcome (pc * MPMCQueue) :=
  match c with
  | EnqLoad v => Done (EnqSeq v (enq_pos_ q), q)
  | EnqSeq v pos =>
      cell ← aread (cells_ q) (cell_index q pos);
      dif ← ssub (seq_ cell) pos;
      if dif =? 0 then Done (EnqCas v pos, q)
      else if dif <? 0 then Done (EnqRet false, q)
      else Done (EnqLoad v, q)
  | EnqCas v pos =>
      if (enq_pos_ q =? pos) && negb spurious
      then Done (EnqCtor v pos, {| q with enq_pos_ := u64 (pos + 1) |})
      else Done (EnqSeq v (enq_pos_ q), q)
  | EnqCtor v pos =>
      cell ← aread (cells_ q) (cell_index q pos);
      q ← put_cell q pos {| cell with storage := Some v |};
      Done (EnqPub v pos, q)
  | EnqPub v pos =>
      cell ← aread (cells_ q) (cell_index q pos);
      q ← put_cell q pos {| cell with seq_ := u64 (pos + 1) |};
      Done (EnqRet true, q)
  | _ => Done (c, q)
  end.

(** One atomic access of [try_dequeue]. *)
Definition try_dequeue_step (spurious : bool) (c : pc) (q : MPMCQueue) : outcome (pc * MPMCQueue) :=
  match c with
  | DeqLoad => Done (DeqSeq (deq_pos_ q), q)
  | DeqSeq pos =>
      cell ← aread (cells_ q) (cell_index q pos);
      dif ← ssub (seq_ cell) (u64 (pos + 1));
      if dif =? 0 then Done (DeqCas pos, q)
      else if dif <? 0 then Done (DeqRet None, q)
      else Done (DeqLoad, q)
  | DeqCas pos =>
      if (deq_pos_ q =? pos) && negb spurious
      then Done (DeqTake pos, {| q with deq_pos_ := u64 (pos + 1) |})
      else Done (DeqSeq (deq_pos_ q), q)
  | DeqTake pos =>
      cell ← aread (cells_ q) (cell_index q pos);
      x ← deref (storage cell);
      q ← put_cell q pos {| cell with storage := None |};
      Done (DeqRel pos x, q)
  | DeqRel pos x =>
      cell ← aread (cells_ q) (cell_index q pos);
      q ← put_cell q pos {| cell with seq_ := u64 (pos + cap_ q) |};
      Done (DeqRet (Some x), q)
  | _ => Done (c, q)
  end.

Definition mpmc_step (spurious : bool) (c : pc) (q : MPMCQueue) : outcome (pc * MPMCQueue) :=
  match c with
  | EnqLoad _ | EnqSeq _ _ | EnqCas _ _ | EnqCtor _ _ | EnqPub _ _ | EnqRet _ =>
      do_enqueue_step spurious c q
  | _ => try_dequeue_step spurious c q
  end.

(** A call that runs alone. *)
Fixpoint run_alone (fuel : nat) (c : pc) (q : MPMCQueue) : outcome (pc * MPMCQueue) :=
  match c with
  | EnqRet _ | DeqRet _ => Done (c, q)
  | _ =>
      match fuel with
      | O => OutOfFuel
      | S fuel => '(c, q) ← mpmc_step false c q; run_alone fuel c q
      end
  end.

Definition try_enqueue (fuel : nat) (v : T) (q : MPMCQueue) : outcome (pc * MPMCQueue) :=
  run_alone fuel (EnqLoad v) q.

Definition try_dequeue (fuel : nat) (q : MPMCQueue) : outcome (pc * MPMCQueue) :=
  run_alone fuel DeqLoad q.

(** [try_enqueue_bulk] and [try_dequeue_bulk] run alone. *)
Fixpoint try_enqueue_bulk (fuel : nat) (src : list T) (q : MPMCQueue) : outcome (nat * MPMCQueue) :=
  match src with
  | [] => Done (0%nat, q)
  | v :: src =>
      '(c, q) ← try_enqueue fuel v q;
      match c with
      | EnqRet true => '(n, q) ← try_enqueue_bulk fuel src q; Done (S n, q)
      | _ => Done (0%nat, q)
      end
  end.

Fixpoint try_dequeue_bulk (fuel : nat) (max_items : nat) (q : MPMCQueue) : outcome (list T * MPMCQueue) :=
  match max_items with
  | O => Done ([], q)
  | S m =>
      '(c, q) ← try_dequeue fuel q;
      match c with
      | DeqRet (Some x) => '(xs, q) ← try_dequeue_bulk fuel m q; Done (x :: xs, q)
      | _ => Done ([], q)
      end
  end.

Definition empty (q : MPMCQueue) : outcome bool :=
  cell ← aread (cells_ q) (cell_index q (deq_pos_ q));
  dif ← ssub (seq_ cell) (u64 (deq_pos_ q + 1));
  Done (dif <? 0).

Definition empty_relaxed (q : MPMCQueue) : bool := enq_pos_ q =? deq_pos_ q.
Definition capacity (q : MPMCQueue) : Z := cap_ q.

Definition size_relaxed (q : MPMCQueue) : Z :=
  let diff := u64 (enq_pos_ q - deq_pos_ q) in
  if cap_ q <? diff then cap_ q else diff.

(** * Threads

    [log] holds the values in the order their positions were claimed, [taken] what
    was read at each position. *)
Record sys := mkSys {
  queue : MPMCQueue;
  threads : gmap nat pc;
  log : list T;
  taken : gmap Z T
}.

Inductive step : sys → sys → Prop :=
| step_run s t spurious c c' q :
    threads s !! t = Some c → mpmc_step spurious c (queue s) = Done (c', q) →
    step s (mkSys q (<[t := c']> (threads s))
                  match c, c' with EnqCas v _, EnqCtor _ _ => log s ++ [v] | _, _ => log s end
                  match c, c' with DeqTake p, DeqRel _ x => <[p := x]> (taken s) | _, _ => taken s end)
| step_call_enqueue s t v :
    (∀ c, threads s !! t = Some c → (∃ b, c = EnqRet b) ∨ (∃ o, c = DeqRet o)) →
    step s {| s with threads := <[t := EnqLoad v]> (threads s) |}
| step_call_dequeue s t :
    (∀ c, threads s !! t = Some c → (∃ b, c = EnqRet b) ∨ (∃ o, c = DeqRet o)) →
    step s {| s with threads := <[t := DeqLoad]> (threads s) |}.

Definition init (capacity_pow2 : Z) : sys := mkSys (MPMCQueue_new capacity_pow2) ∅ [] ∅.
End mpmc.
Arguments MPMCQueue : clear implicits.
Arguments pc : clear implicits.
Arguments sys : clear implicits.
End MPMC.
