(* ===== verification/MpmcCorrect.v ===== *)
(** The bounded multi-producer multi-consumer queue under any interleaving: every
    value is handed out once, at the position it was claimed for, in the order of the
    claims; a call fails only for a reason. *)

From S2P Require Import Prelude FastQueue FastQueueCorrect ConcurrentQueues.
Import MPMC.

(** * Positions

    The state of a position: being written, full, being read, or free for the next
    round.  The thread at work is part of it. *)
Section positions.
Context {T : Type}.

Inductive pstate :=
| PCtor (t : nat) (v : T)
| PPub (t : nat) (v : T)
| PFull (v : T)
| PTake (t : nat) (v : T)
| PRel (t : nat) (v : T)
| PFree.

(** What the cell of position [p] holds, in a queue of [c] cells. *)
Definition cell_of (c p : Z) (st : pstate) : Cell :=
  match st with
  | PCtor _ _ => mkCell p None
  | PPub _ v => mkCell p (Some v)
  | PFull v => mkCell (p + 1) (Some v)
  | PTake _ v => mkCell (p + 1) (Some v)
  | PRel _ _ => mkCell (p + 1) None
  | PFree => mkCell (p + c) None
  end.

(** Written positions are not yet claimed for reading; the others are. *)
Definition written_side (st : pstate) : bool :=
  match st with PCtor _ _ | PPub _ _ | PFull _ => true | _ => false end.

(** The value of a position that holds one. *)
Definition value_of (st : pstate) : option T :=
  match st with PCtor _ v | PPub _ v | PFull v | PTake _ v | PRel _ v => Some v | PFree => None end.

(** The position a thread works on, and the thread that works on a position. *)
Definition own (c : pc T) : option Z :=
  match c with
  | EnqCtor _ p | EnqPub _ p | DeqTake p | DeqRel p _ => Some p
  | _ => None
  end.

Definition owner (st : pstate) : option nat :=
  match st with PCtor t _ | PPub t _ | PTake t _ | PRel t _ => Some t | _ => None end.

(** Thread and position agree. *)
Definition holds (t : nat) (c : pc T) (st : pstate) : Prop :=
  match c, st with
  | EnqCtor v _, PCtor t' v' => t' = t ∧ v' = v
  | EnqPub v _, PPub t' v' => t' = t ∧ v' = v
  | DeqTake _, PTake t' _ => t' = t
  | DeqRel _ v, PRel t' v' => t' = t ∧ v' = v
  | _, _ => False
  end.

(** What a thread that has seen a sequence number relies on. *)
Definition seen (q : MPMCQueue T) (c : pc T) : Prop :=
  match c with
  | EnqSeq _ p => 0 <= p <= enq_pos_ q
  | EnqCas _ p => 0 <= p <= enq_pos_ q ∧
      ∃ cell, cells_ q !! Z.to_nat (p mod cap_ q) = Some cell ∧ p <= seq_ cell
  | DeqSeq p => 0 <= p <= deq_pos_ q
  | DeqCas p => 0 <= p <= deq_pos_ q ∧
      ∃ cell, cells_ q !! Z.to_nat (p mod cap_ q) = Some cell ∧ p + 1 <= seq_ cell
  | _ => True
  end.
End positions.

Section invariant.
Context {T : Type} (k : Z) (Hk : 1 <= k <= 61).
Abbreviation c := (2 ^ k).

Record inv (s : sys T) (st : Z → pstate) : Prop := {
  inv_cap : cap_ (queue s) = c;
  inv_mask : mask_ (queue s) = c - 1;
  inv_len : Z.of_nat (length (cells_ (queue s))) = c;
  inv_deq : 0 <= deq_pos_ (queue s) <= enq_pos_ (queue s);
  inv_enq : enq_pos_ (queue s) <= deq_pos_ (queue s) + c;
  inv_log : Z.of_nat (length (log s)) = enq_pos_ (queue s);
  inv_cell p : enq_pos_ (queue s) - c <= p < enq_pos_ (queue s) →
    cells_ (queue s) !! Z.to_nat (p mod c) = Some (cell_of c p (st p));
  inv_side p : enq_pos_ (queue s) - c <= p < enq_pos_ (queue s) →
    written_side (st p) = true ↔ deq_pos_ (queue s) <= p;
  inv_value p v : enq_pos_ (queue s) - c <= p < enq_pos_ (queue s) →
    value_of (st p) = Some v → 0 <= p ∧ log s !! Z.to_nat p = Some v;
  inv_seen t pcs : threads s !! t = Some pcs → seen (queue s) pcs;
  inv_holds t pcs p : threads s !! t = Some pcs → own pcs = Some p →
    enq_pos_ (queue s) - c <= p < enq_pos_ (queue s) ∧ holds t pcs (st p);
  inv_owner p t : enq_pos_ (queue s) - c <= p < enq_pos_ (queue s) → owner (st p) = Some t →
    ∃ pcs, threads s !! t = Some pcs ∧ own pcs = Some p;
  inv_taken p v : taken s !! p = Some v →
    0 <= p < deq_pos_ (queue s) ∧ log s !! Z.to_nat p = Some v;
  inv_done p : 0 <= p < deq_pos_ (queue s) → taken s !! p = None →
    enq_pos_ (queue s) - c <= p ∧ ∃ t v, st p = PTake t v
}.

(** Positions stay far from the sign bit. *)
Definition bounded (s : sys T) : Prop := Z.of_nat (length (log s)) < 2 ^ 62.

Lemma c_bounds : 2 <= c <= 2 ^ 61.
Proof.
  split; [change 2 with (2 ^ 1) at 1|]; apply Z.pow_le_mono_r; lia.
Qed.

Lemma cell_index_mod (q : MPMCQueue T) p :
  mask_ q = c - 1 → cell_index q p = p mod c.
Proof. intros Hm. unfold cell_index. rewrite Hm. apply land_mask. lia. Qed.

(** Two positions of one window share a cell only if they are the same. *)
Lemma window_inj b p p' :
  b <= p < b + c → b <= p' < b + c → p mod c = p' mod c → p = p'.
Proof.
  intros Hp Hp' E. pose proof c_bounds.
  assert (p - b = p' - b); [|lia]. apply (ring_pos_inj c b); try lia.
  by replace (b + (p - b)) with p by lia; replace (b + (p' - b)) with p' by lia.
Qed.

(** Every position up to the claims of the producers maps into the window. *)
Lemma window_rep b p : ∃ p', b <= p' < b + c ∧ p' mod c = p mod c.
Proof.
  pose proof c_bounds. exists (b + (p - b) mod c). pose proof (Z.mod_pos_bound (p - b) c ltac:(lia)).
  split; [lia|]. rewrite Zplus_mod_idemp_r. f_equal. lia.
Qed.

Lemma ssub_small a b :
  0 <= a < 2 ^ 63 → 0 <= b < 2 ^ 63 → ssub a b = Done (a - b).
Proof.
  intros Ha Hb. unfold ssub, signed. rewrite !Z.mod_small by lia.
  change (2 ^ (64 - 1)) with (2 ^ 63). rewrite (proj2 (Z.ltb_lt a _)), (proj2 (Z.ltb_lt b _)) by lia.
  rewrite (proj2 (Z.leb_le _ _)), (proj2 (Z.ltb_lt _ _)) by lia. done.
Qed.

(** ** Threads that touch no cell *)

Lemma inv_thread_step s st t pc1 :
  inv s st → (∀ pc0, threads s !! t = Some pc0 → own pc0 = None) →
  own pc1 = None → seen (queue s) pc1 →
  inv {| s with threads := <[t := pc1]> (threads s) |} st.
Proof.
  intros HI H0 H1 Hseen. destruct HI. split; cbn; try done.
  - intros t' pcs. rewrite lookup_insert. case_decide; [by intros [= <-]|eauto].
  - intros t' pcs p. rewrite lookup_insert. case_decide; [intros [= <-]; congruence|eauto].
  - intros p t' Hp Ho. destruct (inv_owner0 p t' Hp Ho) as (pcs & Ht & Hown).
    exists pcs. rewrite lookup_insert_ne; [done|]. intros ->. rewrite (H0 _ Ht) in Hown. done.
Qed.

(** ** Work on an owned position *)

Definition upd (st : Z → pstate) (p : Z) (x : @pstate T) (p' : Z) : pstate :=
  if decide (p' = p) then x else st p'.

Lemma holds_owner t (pcs : pc T) x : holds t pcs x → owner x = Some t.
Proof. destruct pcs, x; cbn; try done; naive_solver. Qed.

Lemma inv_cell_step s st t pc0 pc1 p x tk :
  inv s st → threads s !! t = Some pc0 → own pc0 = Some p →
  written_side x = written_side (st p) →
  (value_of x = value_of (st p) ∨ value_of x = None) →
  seq_ (cell_of c p (st p)) <= seq_ (cell_of c p x) →
  (own pc1 = Some p ∧ holds t pc1 x ∨ own pc1 = None ∧ owner x = None) → (∀ q, seen q pc1) →
  (tk = taken s ∧ (∀ t v, st p ≠ PTake t v) ∨
   ∃ v, value_of (st p) = Some v ∧ p < deq_pos_ (queue s) ∧ tk = <[p := v]> (taken s)) →
  inv (mkSys {| (queue s) with cells_ := <[Z.to_nat (p mod c) := cell_of c p x]> (cells_ (queue s)) |}
             (<[t := pc1]> (threads s)) (log s) tk) (upd st p x).
Proof.
  intros HI Ht Hown Hside Hval Hseq Hpc Hseen Htk. pose proof c_bounds as Hc.
  destruct (inv_holds _ _ HI _ _ _ Ht Hown) as [Hp Hh].
  pose proof (Z.mod_pos_bound p c ltac:(lia)) as Hmod. pose proof (inv_len _ _ HI) as Hlen.
  assert (∀ t' pcs p', t' ≠ t → threads s !! t' = Some pcs → own pcs = Some p' → p' ≠ p) as Hother.
  { intros t' pcs p' Hne Ht' Hown' ->. destruct (inv_holds _ _ HI _ _ _ Ht' Hown') as [_ Hh'].
    apply holds_owner in Hh, Hh'. congruence. }
  unfold upd. split; cbn.
  1-2, 4-6: by destruct HI.
  - by rewrite length_insert.
  - intros p' Hp'. case_decide as E; [subst; apply list_lookup_insert_eq; lia|].
    rewrite list_lookup_insert_ne; [by apply HI|]. intros Heq.
    pose proof (Z.mod_pos_bound p' c ltac:(lia)). apply Z2Nat.inj in Heq; [|lia..].
    apply E. symmetry. by apply (window_inj (enq_pos_ (queue s) - c)); [lia..|].
  - intros p' Hp'. case_decide as E; [subst; rewrite Hside|]; by apply (inv_side _ _ HI).
  - intros p' v Hp'. case_decide as E; [subst|by apply (inv_value _ _ HI)].
    destruct Hval as [->| ->]; [by apply (inv_value _ _ HI)|done].
  - intros t' pcs. rewrite lookup_insert. case_decide; [by intros [= <-]|]. intros Ht'.
    pose proof (inv_seen _ _ HI _ _ Ht') as Hs.
    destruct pcs; cbn in *; try done; destruct Hs as [Hs (cell & Hcell & Hle)]; (split; [done|]);
      rewrite (inv_cap _ _ HI) in *;
      (destruct (decide (Z.to_nat (p mod c) = Z.to_nat (pos mod c))) as [E|E];
        [exists (cell_of c p x); rewrite <- E, list_lookup_insert_eq by lia;
         rewrite <- E, (inv_cell _ _ HI p Hp) in Hcell; injection Hcell as <-; split; [done|lia]
        |exists cell; by rewrite list_lookup_insert_ne]).
  - intros t' pcs p'. rewrite lookup_insert. case_decide as E.
    + intros [= <-] Hown'. destruct Hpc as [[Hpc Hx]|[Hpc _]]; [|congruence].
      assert (p' = p) as -> by congruence. subst t'. split; [done|]. by rewrite decide_True.
    + intros Ht' Hown'. rewrite decide_False; [by apply (inv_holds _ _ HI)|]. by eapply Hother.
  - intros p' t' Hp'. case_decide as E.
    + subst. intros Ho. destruct Hpc as [[Hpc Hx]|[_ Hx]]; [|congruence].
      apply holds_owner in Hx. assert (t' = t) as -> by congruence. exists pc1. by rewrite lookup_insert_eq.
    + intros Ho. destruct (inv_owner _ _ HI p' t' Hp' Ho) as (pcs & Ht' & Hown').
      exists pcs. rewrite lookup_insert_ne; [done|]. intros <-. congruence.
  - intros p' v Hv. destruct Htk as [[-> _]|(v0 & Hv0 & Hlt & ->)]; [by apply (inv_taken _ _ HI)|].
    apply lookup_insert_Some in Hv as [[<- <-]|[_ Hv]]; [|by apply (inv_taken _ _ HI)].
    destruct (inv_value _ _ HI _ _ Hp Hv0). split; [lia|done].
  - intros p' Hp' Hn. destruct Htk as [[-> Hno]|(v0 & Hv0 & Hlt & ->)].
    + destruct (inv_done _ _ HI p' Hp' Hn) as (Hw & t' & v' & E). split; [done|].
      rewrite decide_False; [eauto|]. intros ->. by eapply Hno.
    + apply lookup_insert_None in Hn as [Hn Hne]. rewrite decide_False by done. by apply (inv_done _ _ HI).
Qed.

(** ** Reading a cell *)

(** The cell of any position, through its representative in the window. *)
Lemma read_cell s st p :
  inv s st →
  ∃ p' cell, enq_pos_ (queue s) - c <= p' < enq_pos_ (queue s) ∧ p' mod c = p mod c ∧
    cell = cell_of c p' (st p') ∧ cells_ (queue s) !! Z.to_nat (p mod c) = Some cell ∧
    aread (cells_ (queue s)) (cell_index (queue s) p) = Done cell ∧
    0 <= seq_ cell <= enq_pos_ (queue s) + c.
Proof.
  intros HI. pose proof c_bounds as Hc. pose proof (inv_deq _ _ HI).
  destruct (window_rep (enq_pos_ (queue s) - c) p) as (p' & Hp' & E).
  replace (enq_pos_ (queue s) - c + c) with (enq_pos_ (queue s)) in Hp' by lia.
  pose proof (inv_cell _ _ HI p' Hp') as Hcell. rewrite E in Hcell.
  exists p', (cell_of c p' (st p')). rewrite cell_index_mod by apply HI. do 4 (split; [done|]). split; [|split].
  - apply aread_Some; [apply Z.mod_pos_bound; lia|done].
  - pose proof (inv_value _ _ HI p') as Hv. destruct (st p') as [t v|t v|v|t v|t v|]; cbn in *;
      try (destruct (Hv v Hp' eq_refl)); lia.
  - destruct (st p') as [t v|t v|v|t v|t v|]; cbn; lia.
Qed.

(** A thread that has a position owns the cell it accesses. *)
Lemma own_cell s st t pcs p :
  inv s st → threads s !! t = Some pcs → own pcs = Some p →
  aread (cells_ (queue s)) (cell_index (queue s) p) = Done (cell_of c p (st p)) ∧
  (∀ cell, put_cell (queue s) p cell =
     Done {| (queue s) with cells_ := <[Z.to_nat (p mod c) := cell]> (cells_ (queue s)) |}) ∧
  holds t pcs (st p) ∧ enq_pos_ (queue s) - c <= p < enq_pos_ (queue s).
Proof.
  intros HI Ht Hown. destruct (inv_holds _ _ HI _ _ _ Ht Hown) as [Hp Hh].
  pose proof c_bounds as Hc. pose proof (Z.mod_pos_bound p c ltac:(lia)) as Hmod.
  rewrite cell_index_mod by apply HI. split_and!; try done; try lia.
  - apply aread_Some; [lia|]. by apply (inv_cell _ _ HI).
  - intros cell. unfold put_cell. rewrite cell_index_mod by apply HI.
    rewrite awrite_in by (pose proof (inv_len _ _ HI); lia). done.
Qed.

(** ** Claims *)

(** The cell of the next position is free once its sequence number is there. *)
Lemma free_cell s st cell :
  inv s st → cells_ (queue s) !! Z.to_nat (enq_pos_ (queue s) mod c) = Some cell →
  enq_pos_ (queue s) <= seq_ cell → st (enq_pos_ (queue s) - c) = PFree.
Proof.
  intros HI Hcell Hle. pose proof c_bounds as Hc. set (E := enq_pos_ (queue s)) in *.
  pose proof (inv_cell _ _ HI (E - c) ltac:(lia)) as H. fold E in H.
  replace ((E - c) mod c) with (E mod c) in H
    by (rewrite <- (Z.mod_add (E - c) 1 c) by lia; f_equal; lia).
  rewrite Hcell in H. injection H as ->. destruct (st (E - c)); cbn in Hle; done || lia.
Qed.

Lemma inv_claim_enq s st t v :
  inv s st → bounded s → threads s !! t = Some (EnqCas v (enq_pos_ (queue s))) →
  inv (mkSys {| (queue s) with enq_pos_ := u64 (enq_pos_ (queue s) + 1) |}
             (<[t := EnqCtor v (enq_pos_ (queue s))]> (threads s)) (log s ++ [v]) (taken s))
      (upd st (enq_pos_ (queue s)) (PCtor t v)).
Proof.
  intros HI Hb Ht. pose proof c_bounds as Hc. unfold bounded in Hb. rewrite (inv_log _ _ HI) in Hb.
  pose proof (inv_seen _ _ HI _ _ Ht) as [_ (cell & Hcell & Hle)]. rewrite (inv_cap _ _ HI) in Hcell.
  pose proof (free_cell s st cell HI Hcell Hle) as Hfree. clear cell Hcell Hle.
  pose proof (inv_deq _ _ HI) as HD. pose proof (inv_log _ _ HI) as Hlog.
  set (E := enq_pos_ (queue s)) in *. rewrite (wrap_small 64) by lia.
  assert (deq_pos_ (queue s) > E - c) as HDE.
  { pose proof (inv_side _ _ HI (E - c) ltac:(lia)) as Hs. rewrite Hfree in Hs. cbn in Hs.
    destruct (decide (deq_pos_ (queue s) <= E - c)) as [Hx|]; [by apply Hs in Hx|lia]. }
  assert (∀ p, E + 1 - c <= p < E + 1 → p ≠ E → E - c <= p < E) as Hwin by lia.
  unfold upd. split; cbn; fold E; try by destruct HI.
  - lia.
  - lia.
  - rewrite length_app. cbn. lia.
  - intros p Hp. case_decide as Ep; [subst p|by apply HI; auto].
    replace (E mod c) with ((E - c) mod c) by (rewrite <- (Z.mod_add (E - c) 1 c) by lia; f_equal; lia).
    rewrite (inv_cell _ _ HI) by (fold E; lia). fold E. rewrite Hfree. cbn. do 2 f_equal. lia.
  - intros p Hp. case_decide as Ep; [subst p; cbn; split; [lia|done]|by apply (inv_side _ _ HI); auto].
  - intros p v' Hp. case_decide as Ep.
    + subst p. cbn. intros [= <-]. split; [lia|]. rewrite lookup_app_r by lia.
      by replace (Z.to_nat E - length (log s))%nat with 0%nat by lia.
    + intros Hv. destruct (inv_value _ _ HI p v' ltac:(auto) Hv) as [? ?]. split; [done|].
      by apply lookup_app_l_Some.
  - intros t' pcs. rewrite lookup_insert. case_decide; [by intros [= <-]|]. intros Ht'.
    pose proof (inv_seen _ _ HI _ _ Ht') as Hs. destruct pcs; cbn in *; try done; fold E in Hs; try lia.
    + destruct Hs as [? ?]. split; [lia|done].
  - intros t' pcs p. rewrite lookup_insert. case_decide as Et.
    + intros [= <-] [= <-]. split; [lia|]. rewrite decide_True by done. by subst.
    + intros Ht' Hown. destruct (inv_holds _ _ HI _ _ _ Ht' Hown) as [Hp Hh]. fold E in Hp.
      rewrite decide_False by lia. split; [|done]. assert (p ≠ E - c); [|lia].
      intros ->. rewrite Hfree in Hh. by destruct pcs.
  - intros p t' Hp. case_decide as Ep; cbn.
    + intros [= <-]. eexists. rewrite lookup_insert_eq. by subst.
    + intros Ho. destruct (inv_owner _ _ HI p t' ltac:(auto) Ho) as (pcs & Ht' & Hown).
      exists pcs. rewrite lookup_insert_ne; [done|]. intros <-. rewrite Ht in Ht'. by simplify_eq.
  - intros p v' Hv. destruct (inv_taken _ _ HI _ _ Hv) as [? ?]. split; [done|].
    by apply lookup_app_l_Some.
  - intros p Hp Hn. destruct (inv_done _ _ HI p Hp Hn) as (Hw & t' & v' & Hst). fold E in Hw.
    assert (p ≠ E - c) by (intros ->; congruence). split; [lia|]. rewrite decide_False by lia. eauto.
Qed.

(** The position to read next is full once its sequence number is there. *)
Lemma full_cell s st cell :
  inv s st → cells_ (queue s) !! Z.to_nat (deq_pos_ (queue s) mod c) = Some cell →
  deq_pos_ (queue s) + 1 <= seq_ cell →
  deq_pos_ (queue s) < enq_pos_ (queue s) ∧ ∃ v, st (deq_pos_ (queue s)) = PFull v.
Proof.
  intros HI Hcell Hle. pose proof c_bounds as Hc. pose proof (inv_deq _ _ HI). pose proof (inv_enq _ _ HI).
  set (E := enq_pos_ (queue s)) in *. set (D := deq_pos_ (queue s)) in *.
  destruct (decide (D = E)) as [Eq|Hne].
  - pose proof (inv_cell _ _ HI (E - c) ltac:(lia)) as H'. fold E in H'.
    replace ((E - c) mod c) with (D mod c) in H'
      by (rewrite Eq, <- (Z.mod_add (E - c) 1 c) by lia; f_equal; lia).
    rewrite Hcell in H'. injection H' as ->. destruct (st (E - c)); cbn in Hle; lia.
  - split; [lia|]. pose proof (inv_cell _ _ HI D ltac:(fold E; lia)) as H'.
    rewrite Hcell in H'. injection H' as ->.
    pose proof (inv_side _ _ HI D ltac:(fold E; lia)) as Hs. fold D in Hs.
    destruct (st D) as [t v|t v|v|t v|t v|]; cbn in *; try lia; [by exists v|..];
      exfalso; by assert (false = true) by (apply Hs; lia).
Qed.

Lemma inv_claim_deq s st t :
  inv s st → bounded s → threads s !! t = Some (DeqCas (deq_pos_ (queue s))) →
  ∃ v, inv (mkSys {| (queue s) with deq_pos_ := u64 (deq_pos_ (queue s) + 1) |}
             (<[t := DeqTake (deq_pos_ (queue s))]> (threads s)) (log s) (taken s))
           (upd st (deq_pos_ (queue s)) (PTake t v)).
Proof.
  intros HI Hb Ht. pose proof c_bounds as Hc. unfold bounded in Hb. rewrite (inv_log _ _ HI) in Hb.
  pose proof (inv_seen _ _ HI _ _ Ht) as [_ (cell & Hcell & Hle)]. rewrite (inv_cap _ _ HI) in Hcell.
  destruct (full_cell s st cell HI Hcell Hle) as (Hlt & v & Hfull). exists v.
  pose proof (inv_deq _ _ HI) as HD. pose proof (inv_enq _ _ HI) as HE.
  set (E := enq_pos_ (queue s)) in *. set (D := deq_pos_ (queue s)) in *. rewrite (wrap_small 64) by lia.
  unfold upd. split; cbn; fold E; fold D; try by destruct HI.
  - lia.
  - lia.
  - intros p Hp. case_decide as Ep; [subst p|by apply HI]. rewrite (inv_cell _ _ HI D Hp). by rewrite Hfull.
  - intros p Hp. case_decide as Ep; [subst p; cbn; split; [done|lia]|].
    rewrite (inv_side _ _ HI p Hp). fold D. lia.
  - intros p v' Hp. case_decide as Ep; [subst p; cbn; intros [= <-]|by apply (inv_value _ _ HI)].
    apply (inv_value _ _ HI D v Hp). by rewrite Hfull.
  - intros t' pcs. rewrite lookup_insert. case_decide; [by intros [= <-]|]. intros Ht'.
    pose proof (inv_seen _ _ HI _ _ Ht') as Hs. destruct pcs; cbn in *; try done; fold D in Hs; try lia.
    destruct Hs as [? ?]. split; [lia|done].
  - intros t' pcs p. rewrite lookup_insert. case_decide as Et.
    + intros [= <-] [= <-]. split; [lia|]. rewrite decide_True by done. by subst.
    + intros Ht' Hown. destruct (inv_holds _ _ HI _ _ _ Ht' Hown) as [Hp Hh].
      split; [done|]. rewrite decide_False; [done|]. intros ->. rewrite Hfull in Hh. by destruct pcs.
  - intros p t' Hp. case_decide as Ep; cbn.
    + intros [= <-]. eexists. rewrite lookup_insert_eq. by subst.
    + intros Ho. destruct (inv_owner _ _ HI p t' Hp Ho) as (pcs & Ht' & Hown).
      exists pcs. rewrite lookup_insert_ne; [done|]. intros <-. rewrite Ht in Ht'. by simplify_eq.
  - intros p v' Hv. destruct (inv_taken _ _ HI _ _ Hv) as [? ?]. split; [lia|done].
  - intros p Hp Hn. case_decide as Ep; [rewrite Ep; split; [lia|eauto]|].
    apply (inv_done _ _ HI p); [fold D; lia|done].
Qed.

(** ** Every step *)

(** A step of a thread keeps the invariant, and there is one. *)
Lemma run_step s st t spurious pcs :
  inv s st → bounded s → threads s !! t = Some pcs →
  ∃ pc' q, mpmc_step spurious pcs (queue s) = Done (pc', q) ∧
    ∃ st', inv (mkSys q (<[t := pc']> (threads s))
        match pcs, pc' with EnqCas v _, EnqCtor _ _ => log s ++ [v] | _, _ => log s end
        match pcs, pc' with DeqTake p, DeqRel _ x => <[p := x]> (taken s) | _, _ => taken s end) st'.
Proof.
  intros HI Hb Ht. pose proof c_bounds as Hc. pose proof (inv_seen _ _ HI _ _ Ht) as Hs.
  pose proof (inv_deq _ _ HI) as HD. assert (enq_pos_ (queue s) < 2 ^ 62) as HE
    by (rewrite <- (inv_log _ _ HI); exact Hb).
  assert (∀ pc', own pcs = None → own pc' = None → seen (queue s) pc' →
            inv {| s with threads := <[t := pc']> (threads s) |} st) as Hthread.
  { intros pc' H0 H1 H2. apply inv_thread_step; try done. intros pc0 Ht0. by simplify_eq. }
  destruct pcs as [v|v p|v p|v p|v p|ok| |p|p|p|p x|o]; cbn [mpmc_step do_enqueue_step try_dequeue_step].
  - eexists _, _. split; [done|]. exists st. apply Hthread; cbn; done || lia.
  - destruct (read_cell s st p HI) as (p' & cell & Hp' & E & _ & Hcell & -> & Hseq). orun. cbn in Hs.
    rewrite ssub_small by lia. orun.
    destruct (Z.eqb_spec (seq_ cell - p) 0); [|case_bool]; (eexists _, _; split; [done|]; exists st).
    + apply Hthread; try done. cbn. split; [done|]. exists cell. rewrite (inv_cap _ _ HI). split; [done|lia].
    + by apply Hthread.
    + by apply Hthread.
  - cbn in Hs. destruct (Z.eqb_spec (enq_pos_ (queue s)) p) as [<-|Hne], spurious; cbn [andb negb].
    all: eexists _, _; (split; [done|]).
    2: { eexists. by apply (inv_claim_enq s st t v). }
    all: exists st; apply Hthread; cbn; done || lia.
  - destruct (own_cell s st t _ p HI Ht eq_refl) as (-> & Hput & Hh & Hp). orun. rewrite Hput. orun.
    eexists _, _. split; [done|]. destruct (st p) as [t' v'|t' v'|v'|t' v'|t' v'|] eqn:Hst; try done.
    destruct Hh as [-> ->]. exists (upd st p (PPub t v)).
    apply (inv_cell_step s st t (EnqCtor v p) (EnqPub v p) p (PPub t v) (taken s)); rewrite ?Hst;
      [done..|by left|cbn; lia|by left|done|by left].
  - destruct (own_cell s st t _ p HI Ht eq_refl) as (-> & Hput & Hh & Hp). orun. rewrite Hput. orun.
    eexists _, _. split; [done|]. destruct (st p) as [t' v'|t' v'|v'|t' v'|t' v'|] eqn:Hst; try done.
    destruct Hh as [-> ->]. exists (upd st p (PFull v)). cbn [cell_of seq_ storage].
    destruct (inv_value _ _ HI p v Hp) as [Hp0 _]; [by rewrite Hst|]. rewrite wrap_small by lia.
    apply (inv_cell_step s st t (EnqPub v p) (EnqRet true) p (PFull v) (taken s)); rewrite ?Hst;
      [done..|by left|cbn; lia|by right|done|by left].
  - eexists _, _. split; [done|]. exists st. by apply Hthread.
  - eexists _, _. split; [done|]. exists st. apply Hthread; cbn; done || lia.
  - destruct (read_cell s st p HI) as (p' & cell & Hp' & E & _ & Hcell & -> & Hseq). orun. cbn in Hs.
    rewrite (wrap_small 64 (p + 1)) by lia. rewrite ssub_small by lia. orun.
    destruct (Z.eqb_spec (seq_ cell - (p + 1)) 0); [|case_bool]; (eexists _, _; split; [done|]; exists st).
    + apply Hthread; try done. cbn. split; [done|]. exists cell. rewrite (inv_cap _ _ HI). split; [done|lia].
    + by apply Hthread.
    + by apply Hthread.
  - cbn in Hs. destruct (Z.eqb_spec (deq_pos_ (queue s)) p) as [<-|Hne], spurious; cbn [andb negb].
    all: eexists _, _; (split; [done|]).
    2: { destruct (inv_claim_deq s st t HI Hb Ht) as [v Hv]. by eexists. }
    all: exists st; apply Hthread; cbn; done || lia.
  - destruct (own_cell s st t _ p HI Ht eq_refl) as (-> & Hput & Hh & Hp). orun.
    destruct (st p) as [t' v'|t' v'|v'|t' v'|t' v'|] eqn:Hst; try done. cbn in Hh. subst t'.
    cbn [cell_of storage deref]. orun. rewrite Hput. orun. eexists _, _. split; [done|]. exists (upd st p (PRel t v')).
    pose proof (inv_side _ _ HI p Hp) as Hside. rewrite Hst in Hside. cbn in Hside.
    apply (inv_cell_step s st t (DeqTake p) (DeqRel p v') p (PRel t v') (<[p := v']> (taken s)));
      rewrite ?Hst; [done..|by left|cbn; lia|by left|done|]. right. exists v'. split; [done|]. split; [|done].
    destruct (decide (deq_pos_ (queue s) <= p)) as [Hx|]; [by apply Hside in Hx|lia].
  - destruct (own_cell s st t _ p HI Ht eq_refl) as (-> & Hput & Hh & Hp). orun. rewrite Hput. orun.
    eexists _, _. split; [done|]. destruct (st p) as [t' v'|t' v'|v'|t' v'|t' v'|] eqn:Hst; try done.
    destruct Hh as [-> ->]. exists (upd st p PFree). cbn [cell_of seq_ storage].
    destruct (inv_value _ _ HI p x Hp) as [Hp0 _]; [by rewrite Hst|].
    assert (u64 (p + cap_ (queue s)) = p + c) as -> by (rewrite (inv_cap _ _ HI); apply wrap_small; lia).
    apply (inv_cell_step s st t (DeqRel p x) (DeqRet (Some x)) p PFree (taken s)); rewrite ?Hst;
      [done..|by right|cbn; lia|by right|done|by left].
  - eexists _, _. split; [done|]. exists st. by apply Hthread.
Qed.

Lemma inv_step s st s' : inv s st → bounded s → step s s' → ∃ st', inv s' st'.
Proof.
  intros HI Hb Hstep. destruct Hstep as [s t sp pcs pc' q Ht Hrun|s t v Ht|s t Ht].
  - destruct (run_step s st t sp pcs HI Hb Ht) as (pc1 & q1 & Hrun1 & H). rewrite Hrun in Hrun1.
    by injection Hrun1 as <- <-.
  - exists st. apply inv_thread_step; [done| |done|done].
    intros pc0 H0. destruct (Ht pc0 H0) as [[b ->]|[o ->]]; done.
  - exists st. apply inv_thread_step; [done| |done|done].
    intros pc0 H0. destruct (Ht pc0 H0) as [[b ->]|[o ->]]; done.
Qed.

Lemma log_mono (s s' : sys T) : step s s' → (length (log s) <= length (log s'))%nat.
Proof.
  destruct 1 as [s t sp pcs pc' q _ _|s t v _|s t _]; cbn; try done.
  destruct pcs, pc'; rewrite ?length_app; cbn; lia.
Qed.

(** The start. *)
Lemma inv_init cap : cq_next_pow2 cap = c → inv (init cap) (λ _, PFree).
Proof.
  intros Hcap. pose proof c_bounds as Hc. unfold init, MPMCQueue_new. rewrite Hcap.
  split; cbn -[Z.of_nat Z.to_nat fmap seq]; try done.
  - apply wrap_small. lia.
  - rewrite length_fmap, length_seq. lia.
  - lia.
  - intros p Hp. rewrite list_lookup_fmap. pose proof (Z.mod_pos_bound p c ltac:(lia)).
    rewrite lookup_seq_lt by lia. cbn. do 2 f_equal.
    rewrite <- (Z.mod_add p 1 c), Z.mod_small by lia. lia.
  - intros p Hp. split; [done|lia].
  - intros p ?. lia.
Qed.

Lemma reachable_inv cap s :
  cq_next_pow2 cap = c → rtc step (init cap) s → bounded s → ∃ st, inv s st.
Proof.
  intros Hcap Hrtc. pattern s. eapply rtc_ind_r; [..|exact Hrtc].
  - intros _. eexists. by apply inv_init.
  - intros s1 s2 _ Hstep IH Hb. assert (bounded s1) as Hb1.
    { unfold bounded in *. pose proof (log_mono _ _ Hstep). lia. }
    destruct (IH Hb1) as [st Hst]. by eapply inv_step.
Qed.
End invariant.

(** * The contract *)

Section contract.
Context {T : Type}.

Lemma capacity_pow2 cap :
  2 <= cap <= 2 ^ 61 → ∃ k, 1 <= k <= 61 ∧ cq_next_pow2 cap = 2 ^ k ∧ cap <= 2 ^ k.
Proof.
  intros Hcap. exists (Z.log2_up cap).
  assert (cq_next_pow2 cap = Queue.next_pow2 cap) as ->.
  { unfold cq_next_pow2, Queue.next_pow2. rewrite (proj2 (Z.leb_gt _ _)), (proj2 (Z.eqb_neq _ _)) by lia. done. }
  rewrite next_pow2_log by lia. split; [|split; [done|apply Z.log2_up_spec; lia]]. split.
  - exact (Z.log2_up_le_mono 2 cap ltac:(lia)).
  - apply Z.log2_up_le_pow2; lia.
Qed.

(** C3: for a capacity of at least 2 (at most [2 ^ 61]; with capacity 1 it fails, see
    [mpmc_capacity_one]), under every interleaving of any number of producers and
    consumers, as long as fewer than [2 ^ 62] values were enqueued: no access is undefined; what is read at
    a position is the value that was claimed for it, so values leave in the order in
    which their positions were claimed; every position that was claimed for reading
    has been read or is being read, so no value is lost or handed out twice; and the
    queue never holds more than its capacity. *)
Theorem mpmc_handout cap (s : sys T) :
  2 <= cap <= 2 ^ 61 → rtc step (init cap) s → Z.of_nat (length (log s)) < 2 ^ 62 →
  (∀ t c spurious, threads s !! t = Some c → ∃ r, mpmc_step spurious c (queue s) = Done r) ∧
  (∀ p v, taken s !! p = Some v →
          0 <= p < deq_pos_ (queue s) ∧ log s !! Z.to_nat p = Some v) ∧
  (∀ p, 0 <= p < deq_pos_ (queue s) →
        is_Some (taken s !! p) ∨ ∃ t, threads s !! t = Some (DeqTake p)) ∧
  (0 <= deq_pos_ (queue s) <= enq_pos_ (queue s) ∧
   enq_pos_ (queue s) <= deq_pos_ (queue s) + cap_ (queue s) ∧
   enq_pos_ (queue s) = Z.of_nat (length (log s))).
Proof.
  intros Hcap Hrtc Hb. destruct (capacity_pow2 cap Hcap) as (k & Hk & Hp2 & _).
  destruct (reachable_inv k Hk cap s Hp2 Hrtc Hb) as [st HI]. split_and!.
  - intros t c sp Ht. destruct (run_step k Hk s st t sp c HI Hb Ht) as (c' & q & Hrun & _). by eexists.
  - apply HI.
  - intros p Hp. destruct (taken s !! p) as [v|] eqn:Hn; [left; by eexists|right].
    destruct (inv_done _ _ _ HI p Hp Hn) as (Hw & t & v & Hst). exists t.
    pose proof (inv_deq _ _ _ HI).
    destruct (inv_owner _ _ _ HI p t ltac:(lia)) as (pcs & Ht & Hown); [by rewrite Hst|].
    destruct (inv_holds _ _ _ HI _ _ _ Ht Hown) as [_ Hh]. rewrite Hst in Hh.
    destruct pcs; try done. by injection Hown as ->.
  - apply HI.
  - apply HI.
  - rewrite (inv_cap _ _ _ HI). apply HI.
  - symmetry. apply HI.
Qed.

(** Only the look at a sequence number answers no. *)
Lemma enq_false_inv (c : pc T) sp q q' :
  mpmc_step sp c q = Done (EnqRet false, q') → c ≠ EnqRet false →
  ∃ v p cell d, c = EnqSeq v p ∧ aread (cells_ q) (cell_index q p) = Done cell ∧
                ssub (seq_ cell) p = Done d ∧ d < 0.
Proof.
  intros Hrun Hne. destruct c as [v|v p|v p|v p|v p|ok| |p|p|p|p x|o]; cbn in Hrun; try done.
  - apply bind_Done in Hrun as (cell & Hcell & Hrun). apply bind_Done in Hrun as (d & Hd & Hrun).
    destruct (Z.eqb_spec d 0); [done|]. destruct (Z.ltb_spec d 0); [eauto 10|done].
  - by destruct (_ && _).
  - apply bind_Done in Hrun as (cell & _ & Hrun). by apply bind_Done in Hrun as (q1 & _ & Hrun).
  - apply bind_Done in Hrun as (cell & _ & Hrun). by apply bind_Done in Hrun as (q1 & _ & Hrun).
  - by injection Hrun as -> _.
  - apply bind_Done in Hrun as (cell & _ & Hrun). apply bind_Done in Hrun as (d & _ & Hrun). repeat case_bool; done.
  - by destruct (_ && _).
  - apply bind_Done in Hrun as (cell & _ & Hrun). apply bind_Done in Hrun as (x & _ & Hrun).
    by apply bind_Done in Hrun as (q1 & _ & Hrun).
  - apply bind_Done in Hrun as (cell & _ & Hrun). by apply bind_Done in Hrun as (q1 & _ & Hrun).
Qed.

Lemma deq_none_inv (c : pc T) sp q q' :
  mpmc_step sp c q = Done (DeqRet None, q') → c ≠ DeqRet None →
  ∃ p cell d, c = DeqSeq p ∧ aread (cells_ q) (cell_index q p) = Done cell ∧
              ssub (seq_ cell) (u64 (p + 1)) = Done d ∧ d < 0.
Proof.
  intros Hrun Hne. destruct c as [v|v p|v p|v p|v p|ok| |p|p|p|p x|o]; cbn in Hrun; try done.
  - apply bind_Done in Hrun as (cell & _ & Hrun). apply bind_Done in Hrun as (d & _ & Hrun). repeat case_bool; done.
  - by destruct (_ && _).
  - apply bind_Done in Hrun as (cell & _ & Hrun). by apply bind_Done in Hrun as (q1 & _ & Hrun).
  - apply bind_Done in Hrun as (cell & _ & Hrun). by apply bind_Done in Hrun as (q1 & _ & Hrun).
  - apply bind_Done in Hrun as (cell & Hcell & Hrun). apply bind_Done in Hrun as (d & Hd & Hrun).
    destruct (Z.eqb_spec d 0); [done|]. destruct (Z.ltb_spec d 0); [eauto 10|done].
  - by destruct (_ && _).
  - apply bind_Done in Hrun as (cell & _ & Hrun). apply bind_Done in Hrun as (x & _ & Hrun).
    by apply bind_Done in Hrun as (q1 & _ & Hrun).
  - apply bind_Done in Hrun as (cell & _ & Hrun). by apply bind_Done in Hrun as (q1 & _ & Hrun).
  - by injection Hrun as -> _.
Qed.

(** The thread that works on a position of the window. *)
Lemma worker k (s : sys T) st p t :
  inv k s st → enq_pos_ (queue s) - 2 ^ k <= p < enq_pos_ (queue s) → owner (st p) = Some t →
  match st p with
  | PCtor _ v => threads s !! t = Some (EnqCtor v p)
  | PPub _ v => threads s !! t = Some (EnqPub v p)
  | PTake _ v => threads s !! t = Some (DeqTake p)
  | PRel _ v => threads s !! t = Some (DeqRel p v)
  | _ => True
  end.
Proof.
  intros HI Hp Ho. destruct (inv_owner _ _ _ HI p t Hp Ho) as (pcs & Ht & Hown).
  destruct (inv_holds _ _ _ HI _ _ _ Ht Hown) as [_ Hh].
  destruct (st p), pcs; try done; injection Hown as ->; naive_solver.
Qed.

Lemma enq_fails k (Hk : 1 <= k <= 61) (s : sys T) st p cell d :
  inv k s st → bounded s → 0 <= p <= enq_pos_ (queue s) →
  aread (cells_ (queue s)) (cell_index (queue s) p) = Done cell → ssub (seq_ cell) p = Done d → d < 0 →
  let E := enq_pos_ (queue s) in
  E = deq_pos_ (queue s) + 2 ^ k ∨
  ∃ t', threads s !! t' = Some (DeqTake (E - 2 ^ k)) ∨
        ∃ x, threads s !! t' = Some (DeqRel (E - 2 ^ k) x).
Proof.
  intros HI Hb Hp Hread Hd Hneg E. pose proof (c_bounds k Hk) as Hc. fold E in Hp.
  assert (E < 2 ^ 62) as HE62 by (unfold E; rewrite <- (inv_log _ _ _ HI); exact Hb).
  destruct (read_cell k Hk s st p HI) as (p' & cell' & Hp' & Hm & Hce & _ & Hread' & Hseq).
  rewrite Hread in Hread'. injection Hread' as <-. fold E in Hp', Hseq.
  rewrite ssub_small in Hd by lia. injection Hd as <-.
  assert (p = E) as ->.
  { destruct (decide (p = E)); [done|]. exfalso. assert (p' >= p); [|subst cell; destruct (st p'); cbn in *; lia].
    destruct (decide (E - 2 ^ k <= p)) as [Hin|]; [|lia].
    assert (p' = p); [|lia]. apply (window_inj k Hk (E - 2 ^ k)); [lia|lia|done]. }
  assert (p' = E - 2 ^ k) as ->.
  { apply (window_inj k Hk (E - 2 ^ k)); [lia|lia|]. rewrite Hm, <- (Z.mod_add (E - 2 ^ k) 1) by lia. f_equal. lia. }
  pose proof (inv_side _ _ _ HI (E - 2 ^ k) Hp') as Hside. pose proof (inv_enq _ _ _ HI) as HE.
  fold E in Hside, HE. destruct (decide (deq_pos_ (queue s) <= E - 2 ^ k)) as [HDle|HDgt]; [left; lia|right].
  pose proof (worker k s st (E - 2 ^ k)) as Hw.
  destruct (st (E - 2 ^ k)) as [t' v'|t' v'|v'|t' v'|t' v'|] eqn:Hst; cbn in Hside;
    try (exfalso; by apply HDgt, Hside).
  - exists t'. left. by apply Hw.
  - exists t'. right. exists v'. by apply Hw.
  - subst cell. cbn in Hneg. lia.
Qed.

Lemma deq_fails k (Hk : 1 <= k <= 61) (s : sys T) st p cell d :
  inv k s st → bounded s → 0 <= p <= deq_pos_ (queue s) →
  aread (cells_ (queue s)) (cell_index (queue s) p) = Done cell →
  ssub (seq_ cell) (u64 (p + 1)) = Done d → d < 0 →
  let D := deq_pos_ (queue s) in
  D = enq_pos_ (queue s) ∨
  ∃ t' v, threads s !! t' = Some (EnqCtor v D) ∨ threads s !! t' = Some (EnqPub v D).
Proof.
  intros HI Hb Hp Hread Hd Hneg D. pose proof (c_bounds k Hk) as Hc. fold D in Hp.
  set (E := enq_pos_ (queue s)).
  assert (E < 2 ^ 62) as HE62 by (unfold E; rewrite <- (inv_log _ _ _ HI); exact Hb).
  assert (0 <= D <= E) as HD by apply HI. assert (E <= D + 2 ^ k) as HE by apply HI.
  destruct (read_cell k Hk s st p HI) as (p' & cell' & Hp' & Hm & Hce & _ & Hread' & Hseq).
  rewrite Hread in Hread'. injection Hread' as <-. fold E in Hp', Hseq.
  rewrite (wrap_small 64 (p + 1)), ssub_small in Hd by lia. injection Hd as <-.
  destruct (decide (D = E)) as [|HDE]; [by left|right].
  assert (p = D) as ->.
  { destruct (decide (p = D)); [done|]. exfalso.
    destruct (decide (E - 2 ^ k <= p)) as [Hin|Hout].
    - assert (p' = p) as -> by (apply (window_inj k Hk (E - 2 ^ k)); [lia|lia|done]).
      pose proof (inv_side _ _ _ HI p ltac:(fold E; lia)) as Hside. fold D in Hside.
      subst cell. destruct (st p); cbn in *; try lia;
        match goal with H : true = true ↔ _ |- _ => assert (D <= p) by (by apply H); lia end.
    - subst cell. destruct (st p'); cbn in *; lia. }
  assert (p' = D) as -> by (apply (window_inj k Hk (E - 2 ^ k)); [lia|lia|done]).
  pose proof (inv_side _ _ _ HI D ltac:(fold E; lia)) as Hside. fold D in Hside.
  pose proof (worker k s st D) as Hw.
  destruct (st D) as [t' v'|t' v'|v'|t' v'|t' v'|] eqn:Hst; cbn in Hside;
    try (exfalso; by assert (false = true) by (apply Hside; lia)).
  - exists t', v'. left. by apply Hw.
  - exists t', v'. right. by apply Hw.
  - subst cell. cbn in Hneg. lia.
Qed.

(** C36: a call fails for a reason: an enqueue only when every cell is occupied, the
    oldest one possibly by a consumer that is about to free it; a dequeue only when
    nothing is enqueued or the oldest value is still being written. *)
Theorem mpmc_failures cap (s : sys T) t c spurious q :
  2 <= cap <= 2 ^ 61 → rtc step (init cap) s → Z.of_nat (length (log s)) < 2 ^ 62 →
  threads s !! t = Some c →
  let E := enq_pos_ (queue s) in
  let D := deq_pos_ (queue s) in
  (mpmc_step spurious c (queue s) = Done (EnqRet false, q) → c ≠ EnqRet false →
   E = D + cap_ (queue s) ∨
   ∃ t', threads s !! t' = Some (DeqTake (E - cap_ (queue s))) ∨
         ∃ x, threads s !! t' = Some (DeqRel (E - cap_ (queue s)) x)) ∧
  (mpmc_step spurious c (queue s) = Done (DeqRet None, q) → c ≠ DeqRet None →
   D = E ∨ ∃ t' v, threads s !! t' = Some (EnqCtor v D) ∨ threads s !! t' = Some (EnqPub v D)).
Proof.
  intros Hcap Hrtc Hb Ht E D. destruct (capacity_pow2 cap Hcap) as (k & Hk & Hp2 & _).
  destruct (reachable_inv k Hk cap s Hp2 Hrtc Hb) as [st HI]. rewrite (inv_cap _ _ _ HI).
  pose proof (inv_seen _ _ _ HI _ _ Ht) as Hs. split.
  - intros Hrun Hne. destruct (enq_false_inv _ _ _ _ Hrun Hne) as (v & p & cell & d & -> & Hread & Hd & Hneg).
    by eapply enq_fails.
  - intros Hrun Hne. destruct (deq_none_inv _ _ _ _ Hrun Hne) as (p & cell & d & -> & Hread & Hd & Hneg).
    by eapply deq_fails.
Qed.

(** A queue of one cell, which the capacities 0 and 1 give, does not keep its
    promise: a second enqueue succeeds over the first value, and the next dequeue
    never returns. *)
Theorem mpmc_capacity_one cap (v1 v2 : T) fuel :
  cap <= 1 →
  ∃ q1 q2, try_enqueue 5 v1 (MPMCQueue_new cap) = Done (EnqRet true, q1) ∧
           try_enqueue 5 v2 q1 = Done (EnqRet true, q2) ∧
           cells_ q2 = [mkCell 2 (Some v2)] ∧
           try_dequeue fuel q2 = OutOfFuel.
Proof.
  intros Hcap. unfold MPMCQueue_new, cq_next_pow2. rewrite (proj2 (Z.leb_le _ _) Hcap).
  eexists _, _. split; [vm_compute; reflexivity|]. split; [vm_compute; reflexivity|]. split; [done|].
  unfold try_dequeue. set (q := mkMPMC _ _ _ _ _).
  enough (run_alone fuel (DeqLoad : pc T) q = OutOfFuel ∧ run_alone fuel (DeqSeq 0 : pc T) q = OutOfFuel) by naive_solver.
  induction fuel as [|fuel [IH1 IH2]]; [done|]. split; cbn [run_alone mpmc_step try_dequeue_step].
  - exact IH2.
  - replace (aread (cells_ q) (cell_index q 0)) with (Done (mkCell 2 (Some v2))) by reflexivity. orun.
    exact IH1.
Qed.
End contract.

(** * Witnesses *)

Lemma mpmc_handout_witness :
  ∃ s : sys Z, rtc step (init 2) s ∧ log s = [42] ∧ enq_pos_ (queue s) = 1 ∧
    ∃ r, mpmc_step false (EnqCtor 42 0) (queue s) = Done r.
Proof.
  eassert (rtc step (init 2) _) as Hr.
  { eapply rtc_l; [apply (step_call_enqueue _ 0 42); done|]. cbn.
    eapply rtc_l; [by apply (step_run _ 0 false (EnqLoad 42))|]. cbn.
    eapply rtc_l; [by apply (step_run _ 0 false (EnqSeq 42 0))|]. cbn.
    eapply rtc_l; [by apply (step_run _ 0 false (EnqCas 42 0))|]. cbn.
    apply rtc_refl. }
  eexists. split; [exact Hr|]. split; [done|].
  destruct (mpmc_handout 2 _ ltac:(lia) Hr ltac:(done)) as (Hdef & _ & _ & _ & _ & Hlen).
  split; [exact Hlen|]. by apply (Hdef 0%nat).
Defined.

Lemma mpmc_failures_witness :
  ∃ s : sys Z, rtc step (init 2) s ∧ threads s !! 0%nat = Some (DeqSeq 0) ∧
    (deq_pos_ (queue s) = enq_pos_ (queue s) ∨
     ∃ t' v, threads s !! t' = Some (EnqCtor v (deq_pos_ (queue s))) ∨
             threads s !! t' = Some (EnqPub v (deq_pos_ (queue s)))).
Proof.
  eassert (rtc step (init 2) _) as Hr.
  { eapply rtc_l; [apply (step_call_dequeue _ 0); done|]. cbn.
    eapply rtc_l; [by apply (step_run _ 0 false DeqLoad)|]. cbn.
    apply rtc_refl. }
  eexists. split; [exact Hr|]. split; [done|].
  by apply (proj2 (mpmc_failures 2 _ 0 (DeqSeq 0) false (MPMCQueue_new 2) ltac:(lia) Hr ltac:(done) eq_refl)).
Defined.

Lemma mpmc_capacity_one_witness :
  ∃ q1 q2, try_enqueue 5 10 (MPMCQueue_new 1) = Done (EnqRet true, q1) ∧
           try_enqueue 5 20 q1 = Done (EnqRet true, q2) ∧ try_dequeue 1000 q2 = OutOfFuel.
Proof.
  destruct (mpmc_capacity_one 1 10 20 1000 ltac:(lia)) as (q1 & q2 & H1 & H2 & _ & H3). by exists q1, q2.
Defined.
