(* ===== verification/SpscCorrect.v ===== *)
(** The single-producer single-consumer queue under any interleaving of its two
    threads: what was popped is a prefix of what was pushed. *)

From S2P Require Import Prelude FastQueue FastQueueCorrect ConcurrentQueues.
Import SPSC.

Section spsc.
Context {T : Type} (k : Z) (Hk : 0 <= k <= 61).
Abbreviation c := (2 ^ k).
Implicit Types s : spsc_sys T.

(** Pushes and pops whose index store is done. *)
Definition n_tail s : Z :=
  Z.of_nat (length (pushed s)) - match producer s with prod_store _ => 1 | _ => 0 end.
Definition n_head s : Z :=
  Z.of_nat (length (popped s)) - match consumer s with cons_store _ _ => 1 | _ => 0 end.

Record sinv s : Prop := {
  si_cap : cap_ (squeue s) = c;
  si_mask : mask_ (squeue s) = c - 1;
  si_len : Z.of_nat (length (buf_ (squeue s))) = c;
  si_head : head_ (squeue s) = n_head s mod c;
  si_tail : tail_ (squeue s) = n_tail s mod c;
  si_order : 0 <= n_head s ∧ Z.of_nat (length (popped s)) <= n_tail s;
  si_room : Z.of_nat (length (pushed s)) - n_head s < c;
  si_prefix : popped s `prefix_of` pushed s;
  si_full i x : (length (popped s) <= i)%nat → pushed s !! i = Some x →
    buf_ (squeue s) !! Z.to_nat (Z.of_nat i mod c) = Some (Some x);
  si_free i : Z.of_nat (length (pushed s)) <= i < Z.of_nat (length (popped s)) + c →
    buf_ (squeue s) !! Z.to_nat (i mod c) = Some None;
  si_prod : match producer s with
            | prod_check _ tail => tail = tail_ (squeue s)
            | prod_ctor _ tail next =>
                tail = tail_ (squeue s) ∧ next = (n_tail s + 1) mod c ∧ n_tail s + 1 - n_head s < c
            | prod_store next => next = (n_tail s + 1) mod c
            | _ => True
            end;
  si_cons : match consumer s with
            | cons_check head => head = head_ (squeue s)
            | cons_take head => head = head_ (squeue s) ∧ n_head s < n_tail s
            | cons_store head x => head = head_ (squeue s)
            | _ => True
            end
}.

Lemma c_pos : 0 < c <= 2 ^ 61.
Proof. split; [lia|apply Z.pow_le_mono_r; lia]. Qed.

Lemma next_slot z : Z.land (u64 (z mod c + 1)) (c - 1) = (z + 1) mod c.
Proof.
  rewrite land_mask by lia. rewrite wrap_mod_pow2 by lia. by rewrite Zplus_mod_idemp_l.
Qed.

(** Indices less than one turn apart. *)
Lemma same_slot a b : a <= b < a + c → a mod c = b mod c → a = b.
Proof.
  intros Hab E. pose proof c_pos. assert (0 = b - a); [|lia].
  apply (ring_pos_inj c a); try lia. by replace (a + 0) with a by lia; replace (a + (b - a)) with b by lia.
Qed.

(** Another program counter of a thread that leaves the queue and the counts alone. *)
Lemma sinv_pcs s s' :
  sinv s → squeue s' = squeue s → pushed s' = pushed s → popped s' = popped s →
  n_tail s' = n_tail s → n_head s' = n_head s →
  match producer s' with
  | prod_check _ tail => tail = tail_ (squeue s)
  | prod_ctor _ tail next =>
      tail = tail_ (squeue s) ∧ next = (n_tail s + 1) mod c ∧ n_tail s + 1 - n_head s < c
  | prod_store next => next = (n_tail s + 1) mod c
  | _ => True
  end →
  match consumer s' with
  | cons_check head => head = head_ (squeue s)
  | cons_take head => head = head_ (squeue s) ∧ n_head s < n_tail s
  | cons_store head x => head = head_ (squeue s)
  | _ => True
  end → sinv s'.
Proof.
  intros [] E1 E2 E3 E4 E5 Hp Hc. split; rewrite ?E1, ?E2, ?E3, ?E4, ?E5; done.
Qed.

(** The producer builds the value. *)
Lemma sinv_ctor s v tail next :
  sinv s → producer s = prod_ctor v tail next →
  sinv {| s with squeue := {| (squeue s) with buf_ := <[Z.to_nat tail := Some v]> (buf_ (squeue s)) |};
                 producer := prod_store next; pushed := pushed s ++ [v] |} ∧
  0 <= tail < Z.of_nat (length (buf_ (squeue s))).
Proof.
  intros HI Hpc. pose proof c_pos as Hc. destruct HI as [I1 I2 I3 I4 I5 I6 I7 I8 I9 I10 I11 I12].
  assert (n_tail s = Z.of_nat (length (pushed s))) as Hnt by (unfold n_tail; rewrite Hpc; lia).
  rewrite Hpc in I11. destruct I11 as (-> & -> & Hroom). rewrite I5, Hnt in *.
  set (n := Z.of_nat (length (pushed s))) in *.
  pose proof (Z.mod_pos_bound n c ltac:(lia)) as Hmod.
  assert (Z.of_nat (length (popped s)) - 1 <= n_head s <= Z.of_nat (length (popped s))) as Hnh
    by (unfold n_head; destruct (consumer s); lia).
  split; [|lia]. split; unfold n_tail, n_head in *; cbn; rewrite ?length_app, ?length_insert; cbn; try done.
  - f_equal. lia.
  - lia.
  - lia.
  - by apply prefix_app_r.
  - intros i x Hi Hx. apply lookup_app_Some in Hx as [Hx|[Hge Hx]].
    + pose proof (lookup_lt_Some _ _ _ Hx). rewrite list_lookup_insert_ne; [by apply I9|].
      intros E. pose proof (Z.mod_pos_bound (Z.of_nat i) c ltac:(lia)). apply Z2Nat.inj in E; [|lia..].
      symmetry in E. apply same_slot in E; lia.
    + apply list_lookup_singleton_Some in Hx as [Hi' <-]. replace (Z.of_nat i) with n by lia.
      apply list_lookup_insert_eq. lia.
  - intros i Hi. pose proof (Z.mod_pos_bound i c ltac:(lia)). rewrite list_lookup_insert_ne; [apply I10; lia|].
    intros E. apply Z2Nat.inj in E; [|lia..]. apply same_slot in E; lia.
  - f_equal. lia.
  - destruct (consumer s); try done. destruct I12. split; [done|lia].
Qed.

(** The consumer moves the value out. *)
Lemma sinv_take s head :
  sinv s → consumer s = cons_take head →
  ∃ x, sread (buf_ (squeue s)) head = Done x ∧ pushed s !! length (popped s) = Some x ∧
       0 <= head < Z.of_nat (length (buf_ (squeue s))) ∧
  sinv {| s with squeue := {| (squeue s) with buf_ := <[Z.to_nat head := None]> (buf_ (squeue s)) |};
                 consumer := cons_store head x; popped := popped s ++ [x] |}.
Proof.
  intros HI Hpc. pose proof c_pos as Hc. destruct HI as [I1 I2 I3 I4 I5 I6 I7 I8 I9 I10 I11 I12].
  assert (n_head s = Z.of_nat (length (popped s))) as Hnh by (unfold n_head; rewrite Hpc; lia).
  rewrite Hpc in I12. destruct I12 as (-> & Hlt). rewrite I4, Hnh in *.
  set (n := Z.of_nat (length (popped s))) in *.
  assert (Z.of_nat (length (pushed s)) - 1 <= n_tail s <= Z.of_nat (length (pushed s))) as Hnt
    by (unfold n_tail; destruct (producer s); lia).
  pose proof (Z.mod_pos_bound n c ltac:(lia)) as Hmod.
  destruct (lookup_lt_is_Some_2 (pushed s) (length (popped s))) as [x Hx]; [lia|].
  pose proof (I9 (length (popped s)) x ltac:(lia) Hx) as Hbx. fold n in Hbx.
  exists x. split; [|split; [done|split; [lia|]]].
  { unfold sread. by erewrite aread_Some by (done || lia). }
  split; unfold n_tail, n_head in *; cbn; rewrite ?length_app, ?length_insert; cbn; try done.
  - f_equal. lia.
  - lia.
  - lia.
  - destruct I8 as [l Hl]. rewrite Hl in Hx. rewrite lookup_app_r, Nat.sub_diag in Hx by done.
    destruct l as [|y l]; [done|]. injection Hx as ->. rewrite Hl. exists l. by rewrite <- app_assoc.
  - intros i y Hi Hy. pose proof (lookup_lt_Some _ _ _ Hy).
    rewrite list_lookup_insert_ne; [apply I9; [lia|done]|]. intros E.
    pose proof (Z.mod_pos_bound (Z.of_nat i) c ltac:(lia)). apply Z2Nat.inj in E; [|lia..].
    apply same_slot in E; lia.
  - intros i Hi. destruct (decide (i < n + c)) as [Hlt'|Hge].
    + pose proof (Z.mod_pos_bound i c ltac:(lia)). rewrite list_lookup_insert_ne; [apply I10; lia|].
      intros E. apply Z2Nat.inj in E; [|lia..]. apply same_slot in E; lia.
    + assert (i = n + c) as -> by lia. replace ((n + c) mod c) with (n mod c)
        by (rewrite <- (Z.mod_add n 1) by lia; f_equal; lia). apply list_lookup_insert_eq. lia.
  - destruct (producer s); try done. destruct I11 as (? & ? & ?). split_and!; try done. lia.
Qed.

(** A step of the producer. *)
Lemma prod_step s :
  sinv s →
  ∃ pc q, emplace_step (producer s) (squeue s) = Done (pc, q) ∧
    sinv {| s with squeue := q; producer := pc;
                   pushed := match producer s with prod_ctor v _ _ => pushed s ++ [v] | _ => pushed s end |} ∧
    (pc = prod_ret false → producer s ≠ prod_ret false →
     Z.of_nat (length (pushed s)) - n_head s = c - 1).
Proof.
  intros HI. pose proof c_pos as Hc. pose proof (si_prod _ HI) as Hp. pose proof (si_cons _ HI) as Hcs.
  assert (0 <= Z.of_nat (length (pushed s)) - n_head s) as Hnn.
  { pose proof (si_order _ HI). unfold n_tail, n_head in *. destruct (producer s), (consumer s); lia. }
  destruct (producer s) as [v|v tail|v tail next|next|ok] eqn:Hpc; cbn [emplace_step].
  - eexists _, _. split; [done|]. split; [|done].
    apply (sinv_pcs s); try done. unfold n_tail. rewrite Hpc. done.
  - subst tail. assert (n_tail s = Z.of_nat (length (pushed s))) as Hnt by (unfold n_tail; rewrite Hpc; lia).
    rewrite (si_mask _ HI), (si_tail _ HI), next_slot, (si_head _ HI).
    destruct (Z.eqb_spec ((n_tail s + 1) mod c) (n_head s mod c)) as [E|E].
    + eexists _, _. split; [done|]. split; [|intros _ _].
      * apply (sinv_pcs s); try done. unfold n_tail. rewrite Hpc. done.
      * pose proof (si_room _ HI). destruct (decide (n_tail s + 1 - n_head s < c)) as [Hlt|]; [|lia].
        symmetry in E. apply same_slot in E; lia.
    + eexists _, _. split; [done|]. split; [|done].
      apply (sinv_pcs s); try done; [unfold n_tail; by rewrite Hpc|]. cbn.
      split; [symmetry; apply (si_tail _ HI)|]. split; [done|]. pose proof (si_room _ HI).
      destruct (decide (n_tail s + 1 - n_head s = c)) as [Heq|]; [|lia]. exfalso. apply E.
      replace (n_tail s + 1) with (n_head s + 1 * c) by lia. by rewrite Z.mod_add by lia.
  - destruct (sinv_ctor s v tail next HI Hpc) as [HI' Ht]. rewrite awrite_in by done. orun.
    eexists _, _. split; [done|]. split; [exact HI'|done].
  - subst next. eexists _, _. split; [done|]. split; [|done]. destruct HI. 
    assert (n_tail s + 1 = Z.of_nat (length (pushed s))) as Hnt by (unfold n_tail; rewrite Hpc; lia).
    split; unfold n_tail, n_head in *; cbn; rewrite ?Hpc in *; try done.
    + f_equal. lia.
    + lia.
    + destruct (consumer s); try done. destruct Hcs. split; [done|lia].
  - eexists _, _. split; [done|]. split; [|congruence].
    apply (sinv_pcs s); try done. unfold n_tail. by rewrite Hpc.
Qed.

(** A step of the consumer. *)
Lemma cons_step s :
  sinv s →
  ∃ pc q, spsc_dequeue_step (consumer s) (squeue s) = Done (pc, q) ∧
    sinv {| s with squeue := q; consumer := pc;
                   popped := match consumer s, pc with
                             | cons_take _, cons_store _ x => popped s ++ [x] | _, _ => popped s end |} ∧
    (pc = cons_ret None → consumer s ≠ cons_ret None → Z.of_nat (length (popped s)) = n_tail s).
Proof.
  intros HI. pose proof c_pos as Hc. pose proof (si_prod _ HI) as Hp. pose proof (si_cons _ HI) as Hcs.
  destruct (consumer s) as [|head|head|head x|o] eqn:Hpc; cbn [spsc_dequeue_step].
  - eexists _, _. split; [done|]. split; [|done].
    apply (sinv_pcs s); try done. unfold n_head. by rewrite Hpc.
  - subst head. assert (n_head s = Z.of_nat (length (popped s))) as Hnh by (unfold n_head; rewrite Hpc; lia).
    pose proof (si_order _ HI) as Ho. pose proof (si_room _ HI) as Hr.
    assert (n_tail s <= Z.of_nat (length (pushed s))) by (unfold n_tail; destruct (producer s); lia).
    rewrite (si_head _ HI), (si_tail _ HI). destruct (Z.eqb_spec (n_head s mod c) (n_tail s mod c)) as [E|E].
    + eexists _, _. split; [done|]. split; [|intros _ _; apply same_slot in E; lia].
      apply (sinv_pcs s); try done. unfold n_head. by rewrite Hpc.
    + eexists _, _. split; [done|]. split; [|done].
      apply (sinv_pcs s); try done; [unfold n_head; by rewrite Hpc|]. cbn.
      split; [symmetry; apply (si_head _ HI)|]. destruct (decide (n_head s = n_tail s)); [congruence|lia].
  - destruct (sinv_take s head HI Hpc) as (x & Hread & _ & Hb & HI').
    rewrite Hread. orun. rewrite awrite_in by done. orun.
    eexists _, _. split; [done|]. split; [exact HI'|done].
  - subst head. eexists _, _. split; [done|]. split; [|done]. destruct HI.
    assert (n_head s + 1 = Z.of_nat (length (popped s))) as Hnt by (unfold n_head; rewrite Hpc; lia).
    split; unfold n_tail, n_head in *; cbn; rewrite ?Hpc in *; try done.
    + rewrite si_mask0, si_head0, next_slot. f_equal. lia.
    + lia.
    + lia.
    + destruct (producer s); try done. destruct Hp as (? & ? & ?). split_and!; try done. lia.
  - eexists _, _. split; [done|]. split; [|congruence].
    apply (sinv_pcs s); try done. unfold n_head. by rewrite Hpc.
Qed.

Lemma sinv_step s s' : sinv s → spsc_step s s' → sinv s'.
Proof.
  intros HI Hstep. destruct Hstep as [s pc q Hrun|s ok v Hpc|s pc q Hrun|s o Hpc].
  - destruct (prod_step s HI) as (pc' & q' & Hrun' & HI' & _). rewrite Hrun in Hrun'. by injection Hrun' as <- <-.
  - apply (sinv_pcs s); try done; [unfold n_tail; by rewrite Hpc|apply HI].
  - destruct (cons_step s HI) as (pc' & q' & Hrun' & HI' & _). rewrite Hrun in Hrun'. by injection Hrun' as <- <-.
  - apply (sinv_pcs s); try done; [unfold n_head; by rewrite Hpc|apply HI].
Qed.

Lemma sinv_init cap : cq_next_pow2 cap = c → sinv (spsc_init cap).
Proof.
  intros Hcap. pose proof c_pos as Hc. unfold spsc_init, SPSCQueue_new. rewrite Hcap.
  split; unfold n_tail, n_head; cbn -[replicate]; try done.
  - apply wrap_small. lia.
  - rewrite length_replicate. lia.
  - lia.
  - intros i Hi. pose proof (Z.mod_pos_bound i c ltac:(lia)). apply lookup_replicate. split; [done|lia].
Qed.

(** Under every interleaving of the producer with the consumer, what was popped is
    a prefix of what was pushed, the ring never holds more than its capacity minus
    one, no access is undefined, an enqueue fails only when the ring is full as far
    as the consumer has published, and a dequeue only when everything published was
    popped. *)
Theorem spsc_fifo cap s :
  cq_next_pow2 cap = c → rtc spsc_step (spsc_init cap) s →
  popped s `prefix_of` pushed s ∧
  Z.of_nat (length (pushed s)) - Z.of_nat (length (popped s)) <= spsc_capacity (squeue s) ∧
  (∃ pc q, emplace_step (producer s) (squeue s) = Done (pc, q) ∧
     (pc = prod_ret false → producer s ≠ prod_ret false →
      Z.of_nat (length (pushed s)) - n_head s = spsc_capacity (squeue s))) ∧
  (∃ pc q, spsc_dequeue_step (consumer s) (squeue s) = Done (pc, q) ∧
     (pc = cons_ret None → consumer s ≠ cons_ret None → Z.of_nat (length (popped s)) = n_tail s)).
Proof.
  intros Hcap Hrtc. assert (sinv s) as HI.
  { eapply (rtc_invariant spsc_step sinv); [|exact Hrtc|by apply sinv_init]. intros; by eapply sinv_step. }
  unfold spsc_capacity. rewrite (si_cap _ HI). split; [apply HI|]. split; [|split].
  - pose proof (si_room _ HI). unfold n_head in *. destruct (consumer s); lia.
  - destruct (prod_step s HI) as (pc & q & ? & _ & ?). eauto.
  - destruct (cons_step s HI) as (pc & q & ? & _ & ?). eauto.
Qed.
End spsc.

(** * Witness: one push and one pop, interleaved *)

Lemma spsc_fifo_witness :
  ∃ s, rtc spsc_step (spsc_init 4) s ∧ pushed s = [42] ∧ popped s `prefix_of` [42].
Proof.
  eassert (rtc spsc_step (spsc_init 4) _) as Hr.
  { eapply rtc_l; [by apply (spsc_prod_call _ false 42)|]. cbn.
    eapply rtc_l; [by eapply (spsc_prod _)|]. cbn.
    eapply rtc_l; [by eapply (spsc_cons_call _)|]. cbn.
    eapply rtc_l; [by eapply (spsc_prod _)|]. cbn.
    eapply rtc_l; [by eapply (spsc_prod _)|]. cbn.
    apply rtc_refl. }
  eexists. split; [exact Hr|]. split; [done|].
  exact (proj1 (spsc_fifo 2 ltac:(lia) 4 _ eq_refl Hr)).
Defined.
