(* ===== verification/WaitList.v ===== *)
(** The list of suspended coroutines every synchronisation primitive keeps
    ([WaitList.h], [SyncCommon.h]): nodes live in the frames of the waiting
    coroutines, doubly linked through their addresses.  The operations under the
    list's spin lock refine a plain sequence. *)

From S2P Require Import Prelude.

Module WaitList.

(** * Data *)

(** The word a waiter is claimed through: its own, or one shared by the arms of a
    select. *)
Inductive word :=
| OwnOf (w : ptr)
| Shared (cell : ptr).

Record Waiter := mkWaiter {
  h : option handle;
  winner : option word;
  own : Z;
  prev : option ptr;
  next : option ptr;
  index : Z;
  tid : Z;
  in_list : bool
}.

Definition kCancelledIndex : Z := -2.

Definition Waiter_new : Waiter := mkWaiter None None (-1) None None 0 (-1) false.

(** The list's fields; the spin lock is modelled by taking the operations on the
    list as single steps. *)
Record WaitList := mkWaitList {
  count_ : Z;
  head_ : option ptr;
  tail_ : option ptr
}.

Definition WaitList_new : WaitList := mkWaitList 0 None None.

(** The nodes in memory and the shared winner words. *)
Record mem := mkMem {
  nodes : gmap ptr Waiter;
  cells : gmap ptr Z
}.

Definition set_node (p : ptr) (w : Waiter) (m : mem) : mem :=
  {| m with nodes := <[p := w]> (nodes m) |}.

(** * Waiter *)

Definition reset (p : ptr) (handle_ : handle) (thread_id : Z) (m : mem) : outcome mem :=
  w ← deref (nodes m !! p);
  Done (set_node p {| w with h := Some handle_; tid := thread_id; winner := Some (OwnOf p);
                             own := -1; index := 0 |} m).

Definition load_word (a : word) (m : mem) : outcome Z :=
  match a with
  | OwnOf p => w ← deref (nodes m !! p); Done (own w)
  | Shared c => deref (cells m !! c)
  end.

Definition store_word (a : word) (z : Z) (m : mem) : outcome mem :=
  match a with
  | OwnOf p => w ← deref (nodes m !! p); Done (set_node p {| w with own := z |} m)
  | Shared c => _ ← deref (cells m !! c); Done {| m with cells := <[c := z]> (cells m) |}
  end.

(** [winner->compare_exchange_strong(-1, idx)] *)
Definition claim (p : ptr) (idx : Z) (m : mem) : outcome (bool * mem) :=
  w ← deref (nodes m !! p);
  a ← deref (winner w);
  v ← load_word a m;
  if v =? -1 then m ← store_word a idx m; Done (true, m) else Done (false, m).

Definition cancel_claimed (p : ptr) (m : mem) : outcome bool :=
  w ← deref (nodes m !! p);
  Done (own w =? kCancelledIndex).

(** * Operations under the lock *)

Definition empty_relaxed (l : WaitList) : bool := count_ l =? 0.
Definition size_relaxed (l : WaitList) : Z := count_ l.

Definition push_locked (p : ptr) (l : WaitList) (m : mem) : outcome (WaitList * mem) :=
  w ← deref (nodes m !! p);
  let m := set_node p {| w with prev := tail_ l; next := None |} m in
  '(l, m) ← match tail_ l with
            | Some t =>
                tw ← deref (nodes m !! t);
                Done (l, set_node t {| tw with next := Some p |} m)
            | None => Done ({| l with head_ := Some p |}, m)
            end;
  w ← deref (nodes m !! p);
  Done (mkWaitList (u32 (count_ l + 1)) (head_ l) (Some p), set_node p {| w with in_list := true |} m).

Definition pop_front_locked (l : WaitList) (m : mem) : outcome (option ptr * WaitList * mem) :=
  match head_ l with
  | None => Done (None, l, m)
  | Some p =>
      w ← deref (nodes m !! p);
      let l := {| l with head_ := next w |} in
      '(l, m) ← match head_ l with
                | Some q =>
                    qw ← deref (nodes m !! q);
                    Done (l, set_node q {| qw with prev := None |} m)
                | None => Done ({| l with tail_ := None |}, m)
                end;
      w ← deref (nodes m !! p);
      Done (Some p, {| l with count_ := u32 (count_ l - 1) |},
            set_node p {| w with prev := None; next := None; in_list := false |} m)
  end.

Definition remove_locked (p : ptr) (l : WaitList) (m : mem) : outcome (bool * WaitList * mem) :=
  w ← deref (nodes m !! p);
  if negb (in_list w) then Done (false, l, m)
  else
    '(l, m) ← match prev w with
              | Some a =>
                  aw ← deref (nodes m !! a);
                  Done (l, set_node a {| aw with next := next w |} m)
              | None => Done ({| l with head_ := next w |}, m)
              end;
    '(l, m) ← match next w with
              | Some b =>
                  bw ← deref (nodes m !! b);
                  Done (l, set_node b {| bw with prev := prev w |} m)
              | None => Done ({| l with tail_ := prev w |}, m)
              end;
    w ← deref (nodes m !! p);
    Done (true, {| l with count_ := u32 (count_ l - 1) |},
          set_node p {| w with prev := None; next := None; in_list := false |} m).

(** [lock(); remove_locked(w); unlock()] *)
Definition remove (p : ptr) (l : WaitList) (m : mem) : outcome (bool * WaitList * mem) :=
  remove_locked p l m.

(** * Firing

    [resume_on] hands the coroutine to the worker [tid]; what it hands over is the
    list of resumptions [rs]. *)
Definition resume_on (hd : option handle) (thread : Z) (rs : list (option handle * Z)) :
    list (option handle * Z) := rs ++ [(hd, thread)].

Definition fire_waiter_at (p : ptr) (idx : Z) (m : mem) (rs : list (option handle * Z)) :
    outcome (bool * mem * list (option handle * Z)) :=
  '(b, m) ← claim p idx m;
  if (b : bool) then
    w ← deref (nodes m !! p);
    Done (true, m, resume_on (h w) (tid w) rs)
  else Done (false, m, rs).

Definition fire_waiter (p : ptr) (m : mem) (rs : list (option handle * Z)) :
    outcome (bool * mem * list (option handle * Z)) :=
  w ← deref (nodes m !! p);
  fire_waiter_at p (index w) m rs.

(** [while (k > 0) { w = pop_front_locked(); if (!w) break; if (fire_waiter(w)) --k; }] *)
Fixpoint wake_loop (fuel : nat) (k : Z) (l : WaitList) (m : mem) (rs : list (option handle * Z)) :
    outcome (WaitList * mem * list (option handle * Z)) :=
  if k <=? 0 then Done (l, m, rs)
  else
    match fuel with
    | O => OutOfFuel
    | S fuel =>
        '(o, l, m) ← pop_front_locked l m;
        match o with
        | None => Done (l, m, rs)
        | Some p =>
            '(b, m, rs) ← fire_waiter p m rs;
            wake_loop fuel (if (b : bool) then k - 1 else k) l m rs
        end
    end.

(** [wake_one_waiter]: pop until one fires. *)
Definition wake_one_waiter (fuel : nat) (l : WaitList) (m : mem) (rs : list (option handle * Z)) :
    outcome (WaitList * mem * list (option handle * Z)) :=
  if empty_relaxed l then Done (l, m, rs) else wake_loop fuel 1 l m rs.

(** [wake_all_waiters]: pop and fire every node. *)
Fixpoint wake_all_loop (fuel : nat) (l : WaitList) (m : mem) (rs : list (option handle * Z)) :
    outcome (WaitList * mem * list (option handle * Z)) :=
  match fuel with
  | O => OutOfFuel
  | S fuel =>
      '(o, l, m) ← pop_front_locked l m;
      match o with
      | None => Done (l, m, rs)
      | Some p =>
          '(_, m, rs) ← fire_waiter p m rs;
          wake_all_loop fuel l m rs
      end
  end.

Definition wake_all_waiters (fuel : nat) (l : WaitList) (m : mem) (rs : list (option handle * Z)) :
    outcome (WaitList * mem * list (option handle * Z)) :=
  if empty_relaxed l then Done (l, m, rs) else wake_all_loop fuel l m rs.
End WaitList.
