(* ===== verification/WaitListCorrect.v ===== *)
(** The wait list's linked nodes are a sequence: [wl_rep] relates the pointers to
    the sequence of waiting nodes, every operation under the lock acts on it as the
    corresponding sequence operation and touches nothing but links, and the wake
    loops fire the first claimable waiters in order. *)

From S2P Require Import Prelude WaitList.

Module WaitListCorrect.
Import WaitList.

(** What a node holds besides its links, and its links. *)
Definition payload (w : Waiter) : option handle * option word * Z * Z * Z :=
  (h w, winner w, own w, index w, tid w).
Definition links (w : Waiter) : option ptr * option ptr * bool := (prev w, next w, in_list w).

Definition same_payload (m m' : mem) : Prop :=
  cells m' = cells m ∧ payload <$> nodes m' = payload <$> nodes m.
Definition same_links (m m' : mem) : Prop := links <$> nodes m' = links <$> nodes m.

(** The nodes [ps] are linked one after the other, between the neighbours [pr] and
    [nx]. *)
Fixpoint seg (nds : gmap ptr Waiter) (pr : option ptr) (ps : list ptr) (nx : option ptr) : Prop :=
  match ps with
  | [] => True
  | p :: qs =>
      (∃ w, nds !! p = Some w ∧ links w = (pr, match qs with [] => nx | q :: _ => Some q end, true))
      ∧ seg nds (Some p) qs nx
  end.

Definition wl_rep (l : WaitList) (m : mem) (ps : list ptr) : Prop :=
  NoDup ps ∧ Z.of_nat (length ps) < 2 ^ 32 ∧
  head_ l = head ps ∧ tail_ l = last ps ∧ count_ l = Z.of_nat (length ps) ∧
  seg (nodes m) None ps None ∧
  (∀ p w, nodes m !! p = Some w → in_list w = true → p ∈ ps).

(** * Payload and links are independent *)

Lemma same_payload_refl m : same_payload m m.
Proof. done. Qed.

Lemma same_payload_trans m1 m2 m3 : same_payload m1 m2 → same_payload m2 m3 → same_payload m1 m3.
Proof. unfold same_payload. intros [-> ->] [-> ->]. done. Qed.

Lemma same_payload_set m p w w' :
  nodes m !! p = Some w → payload w' = payload w → same_payload m (set_node p w' m).
Proof.
  intros Hp Hw. split; [done|]. cbn. rewrite fmap_insert, Hw.
  apply insert_id. by rewrite lookup_fmap, Hp.
Qed.

Lemma same_payload_lookup m m' p w :
  same_payload m m' → nodes m !! p = Some w → ∃ w', nodes m' !! p = Some w' ∧ payload w' = payload w.
Proof.
  intros [_ E] Hp. apply (f_equal (.!! p)) in E. rewrite !lookup_fmap, Hp in E.
  destruct (nodes m' !! p) as [w'|]; [|done]. cbn in E. exists w'. split; [done|congruence].
Qed.

Lemma same_links_lookup m m' p w :
  same_links m m' → nodes m !! p = Some w → ∃ w', nodes m' !! p = Some w' ∧ links w' = links w.
Proof.
  intros E Hp. apply (f_equal (.!! p)) in E. rewrite !lookup_fmap, Hp in E.
  destruct (nodes m' !! p) as [w'|]; [|done]. cbn in E. exists w'. split; [done|congruence].
Qed.

Lemma same_links_sym m m' : same_links m m' → same_links m' m.
Proof. unfold same_links. done. Qed.

Lemma same_links_set m p w w' :
  nodes m !! p = Some w → links w' = links w → same_links m (set_node p w' m).
Proof.
  intros Hp Hw. unfold same_links. cbn. rewrite fmap_insert, Hw.
  apply insert_id. by rewrite lookup_fmap, Hp.
Qed.

(** * Segments *)

Lemma seg_ext nds nds' pr ps nx :
  (∀ p w, p ∈ ps → nds !! p = Some w → ∃ w', nds' !! p = Some w' ∧ links w' = links w) →
  seg nds pr ps nx → seg nds' pr ps nx.
Proof.
  revert pr. induction ps as [|p ps IH]; intros pr Hext; [done|].
  intros [(w & Hw & E) Hs]. split.
  - destruct (Hext p w) as (w' & Hw' & E'); [set_solver|done|]. exists w'. split; [done|congruence].
  - apply IH; [|done]. intros q wq Hq. apply Hext. set_solver.
Qed.

Lemma seg_frame nds pr ps nx p w : p ∉ ps → seg nds pr ps nx → seg (<[p := w]> nds) pr ps nx.
Proof.
  intros Hp. apply seg_ext. intros q wq Hq Hl. exists wq.
  by rewrite lookup_insert_ne by set_solver.
Qed.

Lemma seg_app nds pr a p b nx :
  seg nds pr (a ++ p :: b) nx ↔
  seg nds pr a (Some p) ∧ seg nds (match last a with Some x => Some x | None => pr end) (p :: b) nx.
Proof.
  revert pr. induction a as [|x a IH]; intros pr; [cbn; naive_solver|].
  rewrite <- app_comm_cons. cbn [seg]. rewrite IH. destruct a as [|y a]; [cbn; naive_solver|].
  rewrite last_cons_cons. destruct (last (y :: a)) eqn:E; [naive_solver|].
  by apply last_None in E.
Qed.

Lemma seg_lookup nds pr ps nx p : seg nds pr ps nx → p ∈ ps → ∃ w, nds !! p = Some w ∧ in_list w = true.
Proof.
  revert pr. induction ps as [|q ps IH]; intros pr; [set_solver|].
  intros [(w & Hw & E) Hs] [->|Hp]%elem_of_cons; [|by eapply IH].
  exists w. unfold links in E. naive_solver.
Qed.

(** Relinking the last node of a segment, and the first. *)
Lemma seg_set_next nds pr a x nx nx' w :
  NoDup (a ++ [x]) → nds !! x = Some w → seg nds pr (a ++ [x]) nx →
  seg (<[x := {| w with next := nx' |}]> nds) pr (a ++ [x]) nx'.
Proof.
  intros (_ & Hx & _)%NoDup_app Hw. rewrite !seg_app. cbn [seg].
  intros [Ha [(w0 & Hw0 & E) _]]. split; [apply seg_frame; set_solver|]. split; [|done].
  exists {| w with next := nx' |}. rewrite lookup_insert_eq. split; [done|].
  unfold links in *. cbn. simplify_eq. congruence.
Qed.

Lemma seg_set_prev nds pr pr' y b nx w :
  NoDup (y :: b) → nds !! y = Some w → seg nds pr (y :: b) nx →
  seg (<[y := {| w with prev := pr' |}]> nds) pr' (y :: b) nx.
Proof.
  intros [Hy _]%NoDup_cons Hw [(w0 & Hw0 & E) Hb]. split; [|by apply seg_frame].
  exists {| w with prev := pr' |}. rewrite lookup_insert_eq. split; [done|].
  unfold links in *. cbn. simplify_eq. congruence.
Qed.

(** The sequence does not depend on the payloads. *)
Lemma wl_rep_same_links l m m' ps : same_links m m' → wl_rep l m ps → wl_rep l m' ps.
Proof.
  intros Hs (Hnd & Hlen & Hh & Ht & Hc & Hl & Hin). do 5 (split; [done|]). split.
  - eapply seg_ext; [|done]. intros p w _. by apply same_links_lookup.
  - intros p w Hw Hi. destruct (same_links_lookup m' m p w) as (w' & Hw' & E'); [by apply same_links_sym|done|].
    apply (Hin p w' Hw'). unfold links in E'. congruence.
Qed.

Lemma wl_rep_new : wl_rep WaitList_new (mkMem ∅ ∅) [].
Proof.
  split; [constructor|]. do 5 (split; [done|]). intros p w. cbn. by rewrite lookup_empty.
Qed.

Section rep.
Context (l : WaitList) (m : mem) (ps : list ptr) (R : wl_rep l m ps).

Lemma rep_in_list p w : nodes m !! p = Some w → in_list w = true ↔ p ∈ ps.
Proof.
  destruct R as (_ & _ & _ & _ & _ & Hs & Hin). intros Hw. split; [by apply Hin|].
  intros Hp. destruct (seg_lookup _ _ _ _ _ Hs Hp) as (w' & Hw' & ?). congruence.
Qed.

Lemma rep_node p : p ∈ ps → ∃ w, nodes m !! p = Some w.
Proof.
  destruct R as (_ & _ & _ & _ & _ & Hs & _). intros Hp.
  destruct (seg_lookup _ _ _ _ _ Hs Hp) as (w & Hw & _). eauto.
Qed.

Lemma wl_rep_empty : empty_relaxed l = true ↔ ps = [].
Proof.
  destruct R as (_ & _ & _ & _ & Hc & _). unfold empty_relaxed. rewrite Hc, Z.eqb_eq.
  destruct ps; cbn; [done|]. split; [lia|done].
Qed.
End rep.

(** * The operations *)

Ltac same_payload_tac :=
  split; [done|]; apply map_eq; intros q; cbn; rewrite !lookup_fmap, !lookup_insert;
  repeat case_decide; subst; try done; simplify_option_eq; try done.

Lemma push_rep l m ps p w :
  wl_rep l m ps → nodes m !! p = Some w → p ∉ ps → Z.of_nat (length ps) + 1 < 2 ^ 32 →
  ∃ l' m', push_locked p l m = Done (l', m') ∧ wl_rep l' m' (ps ++ [p]) ∧ same_payload m m'.
Proof.
  intros (Hnd & Hlen & Hh & Ht & Hc & Hs & Hin) Hp Hnot Hlen'. unfold push_locked.
  rewrite Hp. orun. rewrite Ht. destruct (last ps) as [t|] eqn:El.
  - apply last_Some in El as [qs ->].
    assert (t ≠ p) by set_solver. assert (Ht' := proj1 (seg_app _ _ _ _ _ _) Hs).
    destruct Ht' as [_ [(tw & Htw & Etw) _]].
    cbn. rewrite lookup_insert_ne by done. rewrite Htw. orun. cbn.
    rewrite lookup_insert_ne, lookup_insert_eq by done. orun.
    eexists _, _. split; [done|]. split.
    + split; [by apply NoDup_snoc|]. rewrite !length_app in *. cbn in *.
      split; [lia|]. split; [rewrite Hh; by destruct qs|]. split; [by rewrite last_snoc|].
      split; [rewrite wrap_small; lia|]. split; cycle 1.
      { cbn. intros q wq. rewrite !lookup_insert_Some, !elem_of_app, !list_elem_of_singleton.
        intros Hq Hi. destruct (decide (q = p)); [by right|left].
        destruct Hq as [[? _]|[_ [[<- _]|[_ [[? _]|[_ Hq]]]]]]; [congruence|by right|congruence|].
        specialize (Hin q wq Hq Hi). set_solver. }
      apply seg_app. rewrite last_snoc. split.
      * apply seg_frame; [done|]. apply seg_set_next with (nx := None); [done| |].
        { by rewrite lookup_insert_ne. }
        by apply seg_frame.
      * split; [|done]. eexists. rewrite lookup_insert_eq. split; [done|]. done.
    + same_payload_tac.
  - apply last_None in El as ->. cbn. rewrite lookup_insert_eq. orun.
    eexists _, _. split; [done|]. split.
    + split; [apply NoDup_singleton|]. cbn in *. split; [lia|]. split; [done|]. split; [done|].
      split; [rewrite wrap_small; lia|]. split.
      * split; [|done]. eexists. rewrite lookup_insert_eq. split; [done|]. done.
      * cbn. intros q wq. rewrite !lookup_insert_Some. intros [[<- _]|[_ [[<- _]|[_ Hq]]]] Hi; [set_solver..|].
        specialize (Hin q wq Hq Hi). set_solver.
    + same_payload_tac.
Qed.

(** The two relinkings of a removal. *)
Definition unlink_left (pr nx : option ptr) (l : WaitList) (m : mem) : outcome (WaitList * mem) :=
  match pr with
  | Some a => aw ← deref (nodes m !! a); Done (l, set_node a {| aw with next := nx |} m)
  | None => Done ({| l with head_ := nx |}, m)
  end.
Definition unlink_right (pr nx : option ptr) (l : WaitList) (m : mem) : outcome (WaitList * mem) :=
  match nx with
  | Some b => bw ← deref (nodes m !! b); Done (l, set_node b {| bw with prev := pr |} m)
  | None => Done ({| l with tail_ := pr |}, m)
  end.

Definition same_in_list (m m' : mem) : Prop := in_list <$> nodes m' = in_list <$> nodes m.

Lemma unlink_left_ok l m a nx nx' :
  NoDup a → seg (nodes m) None a nx →
  ∃ m', unlink_left (last a) nx' l m =
          Done (if last a is None then {| l with head_ := nx' |} else l, m') ∧
        seg (nodes m') None a nx' ∧ same_payload m m' ∧ same_in_list m m' ∧
        (∀ q, q ∉ a → nodes m' !! q = nodes m !! q).
Proof.
  intros Hnd Hs. destruct (last a) as [x|] eqn:El.
  - apply last_Some in El as [a' ->].
    assert (Hx := proj1 (seg_app _ _ _ _ _ _) Hs). destruct Hx as [_ [(w & Hw & E) _]].
    cbn. rewrite Hw. orun. eexists. split; [done|]. split; [by eapply seg_set_next|].
    split; [same_payload_tac|]. split.
    { unfold same_in_list. cbn. rewrite fmap_insert. apply insert_id. by rewrite lookup_fmap, Hw. }
    intros q Hq. cbn. rewrite lookup_insert_ne; [done|set_solver].
  - apply last_None in El as ->. eexists. split; [done|]. done.
Qed.

Lemma unlink_right_ok l m b pr pr' :
  NoDup b → seg (nodes m) pr b None →
  ∃ m', unlink_right pr' (head b) l m =
          Done (if head b is None then {| l with tail_ := pr' |} else l, m') ∧
        seg (nodes m') pr' b None ∧ same_payload m m' ∧ same_in_list m m' ∧
        (∀ q, q ∉ b → nodes m' !! q = nodes m !! q).
Proof.
  intros Hnd Hs. destruct b as [|y b]; cbn [head].
  { eexists. split; [done|]. done. }
  assert (Hy := Hs). destruct Hy as [(w & Hw & E) _].
  cbn. rewrite Hw. orun. eexists. split; [done|]. split; [by eapply seg_set_prev|].
  split; [same_payload_tac|]. split.
  { unfold same_in_list. cbn. rewrite fmap_insert. apply insert_id. by rewrite lookup_fmap, Hw. }
  intros q Hq. cbn. rewrite lookup_insert_ne; [done|set_solver].
Qed.

Lemma same_in_list_lookup m m' q w :
  same_in_list m m' → nodes m' !! q = Some w → ∃ w', nodes m !! q = Some w' ∧ in_list w' = in_list w.
Proof.
  intros E Hq. apply (f_equal (.!! q)) in E. rewrite !lookup_fmap, Hq in E.
  destruct (nodes m !! q) as [w'|]; [|done]. cbn in E. exists w'. split; [done|congruence].
Qed.

Lemma remove_locked_unfold p l m w :
  nodes m !! p = Some w → in_list w = true →
  remove_locked p l m =
    ('(l, m) ← unlink_left (prev w) (next w) l m;
     '(l, m) ← unlink_right (prev w) (next w) l m;
     w ← deref (nodes m !! p);
     Done (true, {| l with count_ := u32 (count_ l - 1) |},
           set_node p {| w with prev := None; next := None; in_list := false |} m)).
Proof. intros Hp Hi. unfold remove_locked. rewrite Hp. orun. by rewrite Hi. Qed.

Lemma remove_rep l m a p b :
  wl_rep l m (a ++ p :: b) →
  ∃ l' m', remove_locked p l m = Done (true, l', m') ∧ wl_rep l' m' (a ++ b) ∧ same_payload m m'.
Proof.
  intros (Hnd & Hlen & Hh & Ht & Hc & Hs & Hin).
  apply NoDup_app in Hnd as (Hna & Hap & [Hpb Hnb]%NoDup_cons).
  apply seg_app in Hs as [Hsa [(w & Hw & E) Hsb]].
  assert (Hi : in_list w = true) by (unfold links in E; congruence).
  assert (Hpa : p ∉ a) by (intros Hx; destruct (Hap p Hx); set_solver).
  assert (Epr : prev w = last a) by (unfold links in E; injection E as -> _ _; by destruct (last a)).
  assert (Enx : next w = head b) by (unfold links in E; injection E as _ -> _; by destruct b).
  rewrite (remove_locked_unfold p l m w Hw Hi), Epr, Enx.
  destruct (unlink_left_ok l m a (Some p) (head b) Hna Hsa) as (m1 & -> & Hsa1 & P1 & I1 & F1). orun.
  assert (Hsb1 : seg (nodes m1) (Some p) b None).
  { eapply seg_ext; [|exact Hsb]. intros q wq Hq Hl. exists wq. rewrite F1; [done|].
    intros Hqa. apply (Hap q Hqa). set_solver. }
  destruct (unlink_right_ok (if last a is None then {| l with head_ := head b |} else l) m1 b
              (Some p) (last a) Hnb Hsb1) as (m2 & -> & Hsb2 & P2 & I2 & F2). orun.
  assert (Hp2 : nodes m2 !! p = Some w) by (by rewrite F2, F1).
  rewrite Hp2. orun. eexists _, _. split; [done|]. split; cycle 1.
  { eapply same_payload_trans; [done|]. eapply same_payload_trans; [done|]. same_payload_tac. }
  set (m3 := set_node p _ m2).
  assert (Hdis : ∀ q, q ∈ a → q ∉ b) by (intros q Hqa Hqb; apply (Hap q Hqa); set_solver).
  assert (Hlab : length (a ++ p :: b) = S (length (a ++ b))) by (rewrite !length_app; cbn; lia).
  assert (Hsa3 : seg (nodes m3) None a (head b)).
  { apply seg_frame; [done|]. eapply seg_ext; [|exact Hsa1]. intros q wq Hq Hl. exists wq.
    split; [|done]. rewrite F2; [done|]. by apply Hdis. }
  assert (Hsb3 : seg (nodes m3) (last a) b None) by (by apply seg_frame).
  split; [by apply NoDup_app|]. split; [lia|].
  split; [destruct a as [|x a]; cbn in *; [by destruct b|];
          rewrite last_cons; destruct (last a); by destruct b|].
  split; [rewrite last_app; destruct (last b) as [z|] eqn:Elb;
          [destruct b; [done|]; cbn; destruct (last a); rewrite Ht, last_app_cons; done
          |apply last_None in Elb as ->; done]|].
  split; [cbn; destruct (last a), b; cbn in *; rewrite Hc, Hlab, wrap_small; lia|].
  split; cycle 1.
  { intros q wq. cbn. rewrite lookup_insert_Some. intros [[<- <-]|[Hne Hq]] Hiq; [done|].
    destruct (same_in_list_lookup _ _ _ _ I2 Hq) as (w2 & Hw2 & E2).
    destruct (same_in_list_lookup _ _ _ _ I1 Hw2) as (w3 & Hw3 & E3).
    specialize (Hin q w3 Hw3 ltac:(congruence)). set_solver. }
  destruct b as [|y b]; [by rewrite app_nil_r|].
  apply seg_app. split; [done|]. by destruct (last a).
Qed.

Lemma remove_absent l m ps p w :
  wl_rep l m ps → nodes m !! p = Some w → p ∉ ps → remove_locked p l m = Done (false, l, m).
Proof.
  intros R Hw Hp. unfold remove_locked. rewrite Hw. orun.
  assert (Hi := rep_in_list l m ps R p w Hw). destruct (in_list w); [|done]. naive_solver.
Qed.

Lemma pop_rep l m p ps :
  wl_rep l m (p :: ps) →
  ∃ l' m', pop_front_locked l m = Done (Some p, l', m') ∧ wl_rep l' m' ps ∧ same_payload m m'.
Proof.
  intros R. destruct (remove_rep l m [] p ps R) as (l' & m' & Hr & R' & P).
  exists l', m'. split; [|done]. destruct R as (_ & _ & Hh & _ & _ & [(w & Hw & E) _] & _).
  unfold pop_front_locked. unfold links in E. injection E as Ep En Ei. cbn in Hh. rewrite Hh, Hw. orun.
  unfold remove_locked in Hr. rewrite Hw in Hr. orun in Hr. rewrite Ei, Ep in Hr. orun in Hr. cbn in Hr |- *.
  destruct (next w) as [q|]; [|orun in Hr; orun; rewrite Hw in Hr |- *; orun in Hr; orun; by injection Hr as <- <-].
  revert Hr. destruct (nodes m !! q) as [qw|]; [|done]. orun.
  destruct (deref _); [|done..]. orun. intros E. by simplify_eq.
Qed.

Lemma pop_rep_nil l m : wl_rep l m [] → pop_front_locked l m = Done (None, l, m).
Proof. intros (_ & _ & Hh & _). unfold pop_front_locked. by rewrite Hh. Qed.

Lemma filter_ne_id t (l : list ptr) : t ∉ l → filter (λ u, u ≠ t) l = l.
Proof.
  induction l as [|u l IH]; [done|]. intros H. rewrite filter_cons_True by set_solver.
  f_equal. apply IH. set_solver.
Qed.

Lemma filter_ne_app t (a b : list ptr) :
  NoDup (a ++ t :: b) → filter (λ u, u ≠ t) (a ++ t :: b) = a ++ b.
Proof.
  intros (_ & Ha & [Hb _]%NoDup_cons)%NoDup_app.
  rewrite filter_app, filter_cons_False by naive_solver.
  rewrite !filter_ne_id; [done|done|]. intros H. apply (Ha t H). set_solver.
Qed.

(** A list represents one sequence. *)
Lemma seg_unique nds pr ps ps' : seg nds pr ps None → seg nds pr ps' None → head ps = head ps' → ps = ps'.
Proof.
  revert pr ps'. induction ps as [|p ps IH]; intros pr [|p' ps'] Hs Hs' Hh; try done.
  injection Hh as <-. destruct Hs as [(w & Hw & E) Hs], Hs' as [(w' & Hw' & E') Hs'].
  f_equal. apply (IH (Some p)); [done..|]. rewrite Hw in Hw'. injection Hw' as <-. rewrite E in E'.
  destruct ps, ps'; cbn in *; congruence.
Qed.

Lemma wl_rep_unique l m ps ps' : wl_rep l m ps → wl_rep l m ps' → ps = ps'.
Proof.
  intros (_ & _ & Hh & _ & _ & Hs & _) (_ & _ & Hh' & _ & _ & Hs' & _). eapply seg_unique; [done..|congruence].
Qed.

(** [remove] takes a node out of the list and says whether it was in it. *)
Lemma remove_ok l m ps t w :
  wl_rep l m ps → nodes m !! t = Some w →
  ∃ l' m', remove t l m = Done (bool_decide (t ∈ ps), l', m') ∧
    wl_rep l' m' (filter (λ u, u ≠ t) ps) ∧ same_payload m m'.
Proof.
  intros R Hw. unfold remove. case_bool_decide as Hin.
  - destruct (list_elem_of_split _ _ Hin) as (a & b & ->).
    rewrite filter_ne_app by (by destruct R). by apply remove_rep.
  - exists l, m. rewrite filter_ne_id by done. split; [by eapply remove_absent|]. done.
Qed.

(** The awaiters' nodes come and go. *)
Lemma wl_rep_free l m ps t :
  t ∉ ps → wl_rep l m ps → wl_rep l {| m with nodes := delete t (nodes m) |} ps.
Proof.
  intros Ht (Hnd & Hlen & Hh & Hta & Hc & Hs & Hin). do 5 (split; [done|]). cbn. split.
  - eapply seg_ext; [|exact Hs]. intros p w Hp Hw. exists w. rewrite lookup_delete_ne; [done|]. naive_solver.
  - intros p w [_ Hp]%lookup_delete_Some. by apply Hin.
Qed.

Lemma wl_rep_alloc l m ps t :
  nodes m !! t = None → wl_rep l m ps → wl_rep l (set_node t Waiter_new m) ps.
Proof.
  intros Ht (Hnd & Hlen & Hh & Hta & Hc & Hs & Hin). do 5 (split; [done|]). cbn. split.
  - eapply seg_ext; [|exact Hs]. intros p w Hp Hw. exists w. rewrite lookup_insert_ne; [done|]. naive_solver.
  - intros p w [[<- <-]|[_ Hp]]%lookup_insert_Some; [done|]. by apply Hin.
Qed.

(** * Claims *)

#[export] Instance word_eq_dec : EqDecision word.
Proof. solve_decision. Defined.

Definition word_of (m : mem) (p : ptr) : option word := nodes m !! p ≫= winner.

(** A waiter nobody has claimed yet. *)
Definition live (m : mem) (p : ptr) : bool :=
  match word_of m p with
  | Some a => match load_word a m with Done v => v =? -1 | _ => false end
  | None => false
  end.

Definition resumption (m : mem) (p : ptr) : option handle * Z :=
  match nodes m !! p with Some w => (h w, tid w) | None => (None, -1) end.

Definition index_of (m : mem) (p : ptr) : Z :=
  match nodes m !! p with Some w => index w | None => 0 end.

(** What no claim changes. *)
Definition static (w : Waiter) := (h w, winner w, index w, tid w).
Definition same_static (m m' : mem) : Prop := static <$> nodes m' = static <$> nodes m.

(** A node whose word is there to be read. *)
Definition claimable (m : mem) (p : ptr) : Prop :=
  ∃ a v, word_of m p = Some a ∧ load_word a m = Done v.

Lemma same_static_lookup m m' p : same_static m m' → static <$> nodes m' !! p = static <$> nodes m !! p.
Proof. intros E. apply (f_equal (.!! p)) in E. by rewrite !lookup_fmap in E. Qed.

Lemma same_static_fields m m' p : same_static m m' →
  word_of m' p = word_of m p ∧ resumption m' p = resumption m p ∧ index_of m' p = index_of m p.
Proof.
  intros E%(same_static_lookup _ _ p). unfold word_of, resumption, index_of.
  destruct (nodes m' !! p) as [w'|], (nodes m !! p) as [w|]; cbn in *; try done.
  unfold static in E. simplify_eq. split_and!; congruence.
Qed.

Lemma same_payload_static m m' : same_payload m m' → same_static m m'.
Proof.
  intros [_ E]. apply map_eq. intros q. apply (f_equal (.!! q)) in E. rewrite !lookup_fmap in *.
  destruct (nodes m' !! q), (nodes m !! q); cbn in *; try done. unfold payload, static in *. simplify_eq. congruence.
Qed.

Lemma load_word_payload m m' a : same_payload m m' → load_word a m' = load_word a m.
Proof.
  intros [Ec E]. destruct a as [p|c]; cbn; [|by rewrite Ec].
  apply (f_equal (.!! p)) in E. rewrite !lookup_fmap in E.
  destruct (nodes m' !! p), (nodes m !! p); cbn in *; try done. unfold payload in E. simplify_eq. congruence.
Qed.

Lemma live_ext m m' p :
  word_of m' p = word_of m p → (∀ a, word_of m p = Some a → load_word a m' = load_word a m) →
  live m' p = live m p.
Proof. intros E El. unfold live. rewrite E. destruct (word_of m p); [by rewrite El|done]. Qed.

Lemma store_word_ok a z m v : load_word a m = Done v →
  ∃ m', store_word a z m = Done m' ∧ same_links m m' ∧ same_static m m' ∧
        (∀ b, load_word b m' = if decide (b = a) then Done z else load_word b m).
Proof.
  destruct a as [p|c]; cbn.
  - destruct (nodes m !! p) as [w|] eqn:Hw; cbn; [intros _|done].
    eexists. split; [done|]. split; [by eapply same_links_set|]. split.
    { unfold same_static. cbn. rewrite fmap_insert. apply insert_id. by rewrite lookup_fmap, Hw. }
    intros [q|c]; cbn; case_decide; simplify_eq; [by rewrite lookup_insert_eq| |done].
    by rewrite lookup_insert_ne by congruence.
  - destruct (cells m !! c) as [w|] eqn:Hw; cbn; [intros _|done].
    eexists. split; [done|]. split; [done|]. split; [done|].
    intros [q|d]; cbn; case_decide; simplify_eq; [done|by rewrite lookup_insert_eq|].
    by rewrite lookup_insert_ne by congruence.
Qed.

(** [fire_waiter] claims a live waiter and hands its coroutine over, once. *)
Lemma fire_waiter_ok p m rs :
  claimable m p →
  ∃ m', fire_waiter p m rs =
          Done (live m p, m', if live m p then rs ++ [resumption m p] else rs) ∧
        same_links m m' ∧ same_static m m' ∧
        (∀ b, load_word b m' = if decide (live m p ∧ word_of m p = Some b) then Done (index_of m p)
                               else load_word b m).
Proof.
  intros (a & v & Ha & Hv).
  assert (Hl : live m p = (v =? -1)) by (unfold live; by rewrite Ha, Hv).
  rewrite Hl, Ha. unfold fire_waiter, fire_waiter_at, claim, resumption, index_of.
  apply bind_Some in Ha as (w & Hw & Ew). rewrite Hw. orun. rewrite Ew. orun.
  rewrite Hv. orun. destruct (v =? -1).
  - destruct (store_word_ok a (index w) m v Hv) as (m' & -> & L & S & Hb). orun.
    assert (E := same_static_lookup _ _ p S). rewrite Hw in E.
    destruct (nodes m' !! p) as [w'|]; [|done]. orun. exists m'. unfold static in E. cbn in E.
    injection E as Eh _ _ Et. rewrite Eh, Et. split; [done|]. split; [done|]. split; [done|].
    intros b. rewrite Hb. repeat case_decide; naive_solver.
  - exists m. split; [done|]. split; [done|]. split; [done|]. intros b. case_decide; naive_solver.
Qed.

(** * The wake loops *)

(** The nodes a wake of [k] takes off the front of the list: up to and including
    the [k]-th live one. *)
Fixpoint wake_prefix (lv : ptr → bool) (k : nat) (ps : list ptr) : list ptr :=
  match k, ps with
  | O, _ | _, [] => []
  | S j, p :: ps => p :: wake_prefix lv (if lv p then j else k) ps
  end.

Definition fired (m : mem) (ps : list ptr) : list ptr := filter (λ p, live m p = true) ps.

(** What a wake did: the nodes [taken] left the list, the live ones among them were
    claimed and their coroutines handed over in order. *)
Definition woke (l : WaitList) (m : mem) (rs : list (option handle * Z)) (taken rest : list ptr)
    (res : outcome (WaitList * mem * list (option handle * Z))) : Prop :=
  ∃ l' m', res = Done (l', m', rs ++ (resumption m <$> fired m taken)) ∧
    wl_rep l' m' rest ∧ same_static m m' ∧
    (∀ b, load_word b m' = match list_find (λ p, word_of m p = Some b) (fired m taken) with
                           | Some (_, p) => Done (index_of m p)
                           | None => load_word b m
                           end).

Lemma wake_step l m rs p ps :
  wl_rep l m (p :: ps) → claimable m p →
  ∃ l1 m1, ('(o, l, m) ← pop_front_locked l m;
            match o with
            | Some p => '(b, m, rs) ← fire_waiter p m rs; Done (b, l, m, rs)
            | None => UB
            end) = Done (live m p, l1, m1, rs ++ (resumption m <$> fired m [p])) ∧
    pop_front_locked l m ≫= (λ '(o, l, m), Done o) = Done (Some p) ∧
    wl_rep l1 m1 ps ∧ same_static m m1 ∧
    (∀ b, load_word b m1 = if decide (live m p ∧ word_of m p = Some b) then Done (index_of m p)
                           else load_word b m).
Proof.
  intros R C. destruct (pop_rep l m p ps R) as (l1 & m1 & -> & R1 & P1). orun.
  assert (S1 := same_payload_static _ _ P1). destruct (same_static_fields _ _ p S1) as (Ew & Er & Ei).
  assert (El : live m1 p = live m p) by (apply live_ext; [done|]; intros; by apply load_word_payload).
  destruct (fire_waiter_ok p m1 rs) as (m2 & -> & L2 & S2 & Hb).
  { destruct C as (a & v & Ha & Hv). exists a, v. by rewrite Ew, (load_word_payload m m1). }
  orun. exists l1, m2. split.
  { rewrite El, Er. unfold fired. rewrite filter_cons. destruct (live m p); cbn; [done|by rewrite app_nil_r]. }
  split; [done|]. split; [by eapply wl_rep_same_links|].
  split; [unfold same_static in *; congruence|].
  intros b. by rewrite Hb, El, Ew, Ei, (load_word_payload m m1 b P1).
Qed.

Lemma wake_prefix_ext lv lv' k ps :
  (∀ p, p ∈ ps → lv' p = lv p) → wake_prefix lv' k ps = wake_prefix lv k ps.
Proof.
  revert k. induction ps as [|p ps IH]; intros [|k] E; try done. cbn.
  rewrite E by set_solver. f_equal. apply IH. set_solver.
Qed.

Lemma wake_prefix_sub lv k ps p : p ∈ wake_prefix lv k ps → p ∈ ps.
Proof.
  revert k. induction ps as [|q ps IH]; intros [|k]; cbn; try set_solver.
Qed.

Lemma wake_prefix_sublist lv k ps : wake_prefix lv k ps `sublist_of` ps.
Proof.
  revert k. induction ps as [|p ps IH]; intros [|k]; cbn; try apply sublist_nil_l. by apply sublist_skip.
Qed.

Lemma fired_ext m m' ps : (∀ p, p ∈ ps → live m' p = live m p) → fired m' ps = fired m ps.
Proof.
  intros E. unfold fired. induction ps as [|p ps IH]; [done|]. rewrite !filter_cons, E by set_solver.
  rewrite IH by set_solver. done.
Qed.

Lemma fired_in m ps p : p ∈ fired m ps → live m p = true ∧ p ∈ ps.
Proof. unfold fired. by rewrite list_elem_of_filter. Qed.

(** A claim on one node leaves the others of the list as they were. *)
Lemma claim_others m m1 p ps :
  NoDup (word_of m <$> p :: ps) → Forall (claimable m) (p :: ps) → same_static m m1 →
  (∀ b, load_word b m1 = if decide (live m p ∧ word_of m p = Some b) then Done (index_of m p)
                         else load_word b m) →
  NoDup (word_of m1 <$> ps) ∧ Forall (claimable m1) ps ∧ (∀ q, q ∈ ps → live m1 q = live m q).
Proof.
  cbn. intros [Hp Hnd]%NoDup_cons [Cp Cs]%Forall_cons S Hb.
  assert (Ew : ∀ q, word_of m1 q = word_of m q) by (intros q; apply (same_static_fields _ _ q S)).
  assert (Hq : ∀ q a, q ∈ ps → word_of m q = Some a → load_word a m1 = load_word a m).
  { intros q a Hq Ha. rewrite Hb. case_decide as Hd; [|done]. destruct Hd as [_ Hd]. destruct Hp.
    apply list_elem_of_fmap. exists q. split; [congruence|done]. }
  split; [by rewrite (list_fmap_ext _ (word_of m)) by (intros; apply Ew)|]. split.
  - rewrite Forall_forall in *. intros q Hqs. destruct (Cs q Hqs) as (a & v & Ha & Hv).
    exists a, v. split; [by rewrite Ew|]. by rewrite (Hq q a).
  - intros q Hqs. apply live_ext; [done|]. intros a Ha. by apply (Hq q).
Qed.

(** Waking one node and then the rest is waking the sequence. *)
Lemma woke_cons l m rs p taken rest l1 m1 res :
  same_static m m1 →
  (∀ b, load_word b m1 = if decide (live m p ∧ word_of m p = Some b) then Done (index_of m p)
                         else load_word b m) →
  (∀ q, q ∈ taken → live m1 q = live m q) → NoDup (word_of m <$> p :: taken) →
  woke l1 m1 (rs ++ (resumption m <$> fired m [p])) taken rest res →
  woke l m rs (p :: taken) rest res.
Proof.
  intros S Hb Hl Hnd (l' & m' & -> & R & S' & Hb').
  assert (E : ∀ q, word_of m1 q = word_of m q ∧ resumption m1 q = resumption m q ∧ index_of m1 q = index_of m q)
    by (intros q; by apply same_static_fields).
  exists l', m'. rewrite (fired_ext m m1 taken Hl) in *.
  split; [|split; [done|]; split; [unfold same_static in *; congruence|]].
  { f_equal. f_equal. rewrite <- app_assoc. f_equal.
    rewrite (list_fmap_ext (resumption m1) (resumption m)) by (intros; apply E).
    rewrite <- fmap_app. f_equal. unfold fired. by rewrite <- filter_app. }
  intros b. rewrite Hb'. change (p :: taken) with ([p] ++ taken). unfold fired at 2. rewrite filter_app.
  fold (fired m taken). rewrite (list_find_ext (λ q, word_of m1 q = Some b) (λ q, word_of m q = Some b))
    by (intros q; by rewrite (proj1 (E q))).
  cbn in Hnd. apply NoDup_cons in Hnd as [Hp _].
  rewrite filter_cons, filter_nil. rewrite Hb.
  destruct (list_find _ (fired m taken)) as [[i q]|] eqn:Ef.
  - assert (Ef' := Ef). apply list_find_Some in Ef' as (Hi & Hq & _). rewrite (proj2 (proj2 (E q))).
    assert (Hqt : q ∈ taken) by (apply (fired_in m); by eapply list_elem_of_lookup_2).
    case_decide as Hd; cbn; [|by rewrite Ef].
    rewrite decide_False; [by rewrite Ef|]. intros Hpb. destruct Hp.
    apply list_elem_of_fmap. exists q. split; [congruence|done].
  - case_decide as Hd; cbn.
    + destruct Hd as [Hd Hpb]. rewrite decide_True by (by destruct (live m p)). cbn.
      by rewrite decide_True.
    + case_decide as Hd'; cbn; [|by rewrite Ef]. rewrite decide_False; [by rewrite Ef|].
      intros Hpb. apply Hd. by rewrite Hd'.
Qed.

Lemma wake_loop_woke fuel k l m ps rs :
  wl_rep l m ps → Forall (claimable m) ps → NoDup (word_of m <$> ps) → (length ps < fuel)%nat →
  woke l m rs (wake_prefix (live m) (Z.to_nat k) ps)
    (drop (length (wake_prefix (live m) (Z.to_nat k) ps)) ps) (wake_loop fuel k l m rs).
Proof.
  revert fuel k l m rs. induction ps as [|p ps IH]; intros fuel k l m rs R C Hnd Hf.
  - destruct fuel as [|fuel]; [lia|]. replace (wake_prefix _ _ _) with (@nil ptr) by (by destruct (Z.to_nat k)).
    cbn [wake_loop]. destruct (Z.leb_spec k 0); [|rewrite pop_rep_nil by done; orun];
      exists l, m; rewrite app_nil_r; done.
  - destruct fuel as [|fuel]; [cbn in Hf; lia|]. cbn [wake_loop]. destruct (Z.leb_spec k 0).
    { replace (Z.to_nat k) with O by lia. exists l, m. rewrite app_nil_r. done. }
    destruct (wake_step l m rs p ps R) as (l1 & m1 & Hstep & Hpop & R1 & S1 & Hb1);
      [by apply Forall_cons in C as [? _]|].
    destruct (claim_others m m1 p ps Hnd C S1 Hb1) as (Hnd1 & C1 & Hl1).
    destruct (pop_front_locked l m) as [[[o l0] m0]| |]; orun in Hpop; simplify_eq. orun. orun in Hstep.
    destruct (fire_waiter p m0 rs) as [[[b mx] rsx]| |]; orun in Hstep; simplify_eq. orun.
    destruct (Z.to_nat k) as [|j] eqn:Ek; [lia|]. cbn [wake_prefix].
    set (k' := if live m p then j else S j).
    assert (Ek' : Z.to_nat (if live m p then k - 1 else k) = k') by (unfold k'; destruct (live m p); lia).
    specialize (IH fuel (if live m p then k - 1 else k) l1 m1
                  (rs ++ (resumption m <$> fired m [p])) R1 C1 Hnd1 ltac:(cbn in Hf; lia)).
    rewrite Ek', (wake_prefix_ext (live m) (live m1)) in IH by done.
    eapply woke_cons; [done..| | |exact IH].
    + intros q Hq%wake_prefix_sub. by apply Hl1.
    + eapply sublist_NoDup; [exact Hnd|]. apply fmap_sublist, sublist_skip, wake_prefix_sublist.
Qed.

(** Waking all is waking more than there are. *)
Lemma wake_all_loop_eq fuel k l m rs :
  Z.of_nat fuel < k → wake_all_loop fuel l m rs = wake_loop fuel k l m rs.
Proof.
  revert k l m rs. induction fuel as [|fuel IH]; intros k l m rs Hk; cbn [wake_all_loop wake_loop];
    (destruct (Z.leb_spec k 0); [lia|]); [done|].
  destruct (pop_front_locked l m) as [[[[p|] l1] m1]| |]; [|done..]. orun.
  destruct (fire_waiter p m1 rs) as [[[b m2] rs2]| |]; [|done..]. orun. apply IH. destruct b; lia.
Qed.

Lemma wake_prefix_all lv k ps : (length ps <= k)%nat → wake_prefix lv k ps = ps.
Proof.
  revert k. induction ps as [|p ps IH]; intros [|k] Hk; cbn in *; try (done || lia).
  f_equal. apply IH. destruct (lv p); lia.
Qed.

Lemma wake_all_woke fuel l m ps rs :
  wl_rep l m ps → Forall (claimable m) ps → NoDup (word_of m <$> ps) → (length ps < fuel)%nat →
  woke l m rs ps [] (wake_all_loop fuel l m rs).
Proof.
  intros R C Hnd Hf. rewrite (wake_all_loop_eq fuel (Z.of_nat fuel + 1)) by lia.
  assert (H := wake_loop_woke fuel (Z.of_nat fuel + 1) l m ps rs R C Hnd Hf).
  rewrite wake_prefix_all, drop_all in H by lia. done.
Qed.

Lemma woke_nil l m rs ps : wl_rep l m ps → woke l m rs [] ps (Done (l, m, rs)).
Proof. intros R. exists l, m. rewrite app_nil_r. done. Qed.

(** C28: the wait list is a sequence of nodes. From a list that represents [ps]:
    [push_locked] of a node not in it appends the node, [pop_front_locked] takes the
    first node or answers null on the empty list, [remove] takes a node out wherever
    it stands and answers true, and answers false and changes nothing for a node
    that is not in the list; none of them dereferences a bad pointer, and all leave
    the payload of every node as it was. *)
Theorem waitlist_refines_sequence l m ps :
  wl_rep l m ps →
  (∀ p w, nodes m !! p = Some w → p ∉ ps → Z.of_nat (length ps) + 1 < 2 ^ 32 →
     ∃ l' m', push_locked p l m = Done (l', m') ∧ wl_rep l' m' (ps ++ [p]) ∧ same_payload m m') ∧
  (∃ l' m', pop_front_locked l m = Done (head ps, l', m') ∧ wl_rep l' m' (tail ps) ∧ same_payload m m') ∧
  (∀ p a b, ps = a ++ p :: b →
     ∃ l' m', remove p l m = Done (true, l', m') ∧ wl_rep l' m' (a ++ b) ∧ same_payload m m') ∧
  (∀ p w, nodes m !! p = Some w → p ∉ ps → remove p l m = Done (false, l, m)) ∧
  size_relaxed l = Z.of_nat (length ps) ∧ (empty_relaxed l = true ↔ ps = []).
Proof.
  intros R. split; [intros; by eapply push_rep|]. split.
  { destruct ps as [|p ps]; [|by apply pop_rep]. exists l, m. by rewrite pop_rep_nil. }
  split; [intros p a b ->; by apply remove_rep|]. split; [intros; by eapply remove_absent|].
  split; [by destruct R as (_ & _ & _ & _ & ? & _)|by eapply wl_rep_empty].
Qed.

(** A wake fires the oldest waiters. With enough fuel [release]'s loop takes
    nodes off the front up to the [k]-th unclaimed one, claims exactly the unclaimed
    ones among them (their words become their index, no other word changes) and
    hands their coroutines over in list order, each once; [wake_one_waiter] is that
    with [k = 1], and [wake_all_waiters] takes and claims everything. *)
Theorem wakes_fire_in_order l m ps rs fuel k :
  wl_rep l m ps → Forall (claimable m) ps → NoDup (word_of m <$> ps) → (length ps < fuel)%nat →
  let front k := wake_prefix (live m) k ps in
  woke l m rs (front (Z.to_nat k)) (drop (length (front (Z.to_nat k))) ps) (wake_loop fuel k l m rs) ∧
  woke l m rs (front 1%nat) (drop (length (front 1%nat)) ps) (wake_one_waiter fuel l m rs) ∧
  woke l m rs ps [] (wake_all_waiters fuel l m rs).
Proof.
  intros R C Hnd Hf. cbv zeta. assert (He := wl_rep_empty l m ps R).
  split; [by apply wake_loop_woke|]. unfold wake_one_waiter, wake_all_waiters.
  destruct (empty_relaxed l).
  - assert (ps = []) as -> by (by apply He). by split; apply woke_nil.
  - split; [by apply (wake_loop_woke fuel 1)|by apply wake_all_woke].
Qed.

(** Three nodes, two of them pushed onto an empty list. *)
Definition demo_node (p : positive) : Waiter := mkWaiter (Some p) (Some (OwnOf p)) (-1) None None 0 0 false.
Definition demo_mem : mem :=
  mkMem {[ 1%positive := demo_node 1; 2%positive := demo_node 2; 3%positive := demo_node 3 ]} ∅.
Definition demo_list : outcome (WaitList * mem) :=
  '(l, m) ← push_locked 1 WaitList_new demo_mem; push_locked 2 l m.

Lemma demo_rep : ∃ l m, demo_list = Done (l, m) ∧ wl_rep l m [1%positive; 2%positive] ∧ same_payload demo_mem m.
Proof.
  assert (R0 : wl_rep WaitList_new demo_mem []).
  { split; [constructor|]. do 5 (split; [done|]). intros p w. cbn.
    rewrite !lookup_insert_Some, lookup_singleton_Some.
    intros [[_ <-]|[_ [[_ <-]|[_ [_ <-]]]]]; done. }
  destruct (push_rep WaitList_new demo_mem [] 1 (demo_node 1) R0) as (l1 & m1 & E1 & R1 & P1);
    [done|set_solver|done|].
  destruct (same_payload_lookup demo_mem m1 2 (demo_node 2)) as (w & Hw & _); [done..|].
  destruct (push_rep l1 m1 [1%positive] 2 w R1) as (l2 & m2 & E2 & R2 & P2); [done|set_solver|done|].
  exists l2, m2. unfold demo_list. rewrite E1. orun. split; [done|]. split; [done|].
  by eapply same_payload_trans.
Qed.

Lemma waitlist_refines_sequence_witness :
  ∃ l m, demo_list = Done (l, m) ∧ size_relaxed l = 2 ∧ ∃ l' m', remove 1 l m = Done (true, l', m') ∧ wl_rep l' m' [2%positive].
Proof.
  destruct demo_rep as (l & m & E & R & _). exists l, m. split; [done|].
  destruct (waitlist_refines_sequence l m _ R) as (_ & _ & Hrem & _ & Hs & _). split; [done|].
  destruct (Hrem 1%positive [] [2%positive] eq_refl) as (l' & m' & Hr & R' & _). by exists l', m'.
Defined.

Lemma wakes_fire_in_order_witness :
  ∃ l m, demo_list = Done (l, m) ∧ ∃ l' m', wake_one_waiter 3 l m [] = Done (l', m', [(Some 1%positive, 0)]) ∧
    wl_rep l' m' [2%positive].
Proof.
  destruct demo_rep as (l & m & E & R & P). exists l, m. split; [done|].
  assert (Hl : l = l ∧ live m 1 = true ∧ resumption m 1 = (Some 1%positive, 0)).
  { vm_compute in E. injection E as <- <-. done. }
  destruct (wakes_fire_in_order l m _ [] 3 1 R) as (_ & (l' & m' & Hw & R' & _) & _).
  - vm_compute in E. injection E as <- <-. repeat constructor; eexists _, _; done.
  - vm_compute in E. injection E as <- <-. vm_compute. repeat constructor; set_solver.
  - cbn. lia.
  - exists l', m'. destruct Hl as (_ & Hl & Hr). cbn in Hw, R'. rewrite Hl in Hw, R'. cbn in Hw, R'.
    rewrite decide_True in Hw by done. cbn in Hw. rewrite Hr in Hw. done.
Defined.
End WaitListCorrect.
