(* ===== verification/WaitProtocol.v ===== *)
(** Waiting on a synchronisation primitive ([Wait.h]): the loop every primitive runs
    (try to complete, else suspend in the wait list and try again), with wake-ups,
    cancellation and resumption as the interleaved steps of any number of
    coroutines and threads.

    What a primitive is to this protocol is the class [Waitable]: its operations as
    sequences of atomic accesses to the primitive's own state, each with the wakes
    it issues, and the two reads by which [attach] decides to keep waiting. *)

From S2P Require Import Prelude WaitList.

Module WaitProtocol.
Import WaitList.

(** A wake issued by an operation: at most [k] waiters, or all of them. *)
Inductive wake_kind :=
| WakeN (k : Z)
| WakeAll.

(** One atomic access of an operation: go on, complete with a result, a new state of
    the primitive and the wakes to perform, or answer [false]. *)
Inductive try_res (T R X W : Type) :=
| TNext (ts : T)
| TDone (r : R) (x : X) (ws : list W)
| TFail.
Arguments TNext {T R X W} ts.
Arguments TDone {T R X W} r x ws.
Arguments TFail {T R X W}.

Class Waitable (X : Type) := {
  side : Type;                      (** the wait lists the primitive has *)
  side_eq_dec :: EqDecision side;
  op : Type;                        (** its operations *)
  result : Type;
  tstate : Type;                    (** where an operation stands *)
  op_side : op → option side;       (** the list it waits in, if it waits *)
  t0 : op → tstate;
  contract : op → X → bool;         (** what the caller must respect *)
  try_step : op → tstate → X → try_res tstate result X (side * wake_kind);
  keep1 : side → X → bool;          (** [attach]: the first read still says wait *)
  keep2 : side → X → bool;          (** [attach]: the second read still says wait *)
  sees : op → tstate → bool         (** bookkeeping: the position comes after a read
                                        that found the primitive unready *)
}.

Section machine.
Context {X : Type} `{!Waitable X}.

(** Where a coroutine stands; [PTry]'s flag is bookkeeping for the proofs: it was
    woken and has not found the primitive unready since. *)
Inductive pc :=
| PTry (ts : tstate) (woken : bool)
| PEnter
| PAttach
| PCheck1
| PCheck2
| PBack
| PArm
| PUnarm
| PSusp
| PResume (own_cancel : bool)
| PRet (r : option result).

Record Task := mkTask {
  top : op;
  tpc : pc;
  owner : Z;                (** the worker the coroutine is pinned to *)
  cancel_requested : bool;  (** its cancel state's flag *)
  kick : bool;              (** a cancel kick waits in the owner's inbox *)
  hook : bool               (** [cancel_fn_] points to [on_cancel] *)
}.

(** A wake on its way: the flag says it has seen the list non-empty. *)
Definition pending : Type := side * wake_kind * bool.

Record St := mkSt {
  obj : X;
  lists : side → WaitList * mem;
  tasks : gmap ptr Task;
  pool : list pending;
  runq : list (option handle * Z)
}.

Definition upd_list (s : side) (lm : WaitList * mem) (f : side → WaitList * mem) :
    side → WaitList * mem := λ s', if decide (s' = s) then lm else f s'.

Definition set_task (t : ptr) (T : Task) (σ : St) : St := {| σ with tasks := <[t := T]> (tasks σ) |}.
Definition set_list (s : side) (lm : WaitList * mem) (σ : St) : St :=
  {| σ with lists := upd_list s lm (lists σ) |}.
Definition goto (t : ptr) (T : Task) (p : pc) (σ : St) : St := set_task t {| T with tpc := p |} σ.

(** ** The loop around [co_await]

    [if (op.try_complete(r)) co_return r; OpWait w{&op}; if (!co_await w) co_return false;] *)
Definition try_complete_step (t : ptr) (T : Task) (ts : tstate) (w : bool) (σ : St) : option St :=
  if negb (contract (top T) (obj σ)) then None
  else
    match try_step (top T) ts (obj σ) with
    | TNext ts' => Some (goto t T (PTry ts' (w && negb (sees (top T) ts'))) σ)
    | TDone r x ws =>
        Some (goto t T (PRet (Some r))
                {| σ with obj := x; pool := pool σ ++ ((λ k, (k, false)) <$> ws) |})
    | TFail =>
        match op_side (top T) with
        | None => Some (goto t T (PRet None) σ)
        | Some s =>
            let '(l, m) := lists σ s in
            Some (goto t T PEnter (set_list s (l, set_node t Waiter_new m) σ))
        end
    end.

(** ** OpWait *)

(** [op->detach(&node)] *)
Definition detach (s : side) (t : ptr) (σ : St) : outcome (bool * St) :=
  let '(l, m) := lists σ s in
  '(b, l, m) ← remove t l m;
  Done (b, set_list s (l, m) σ).

(** [AwaitableFrameBase::arm_cancel] *)
Definition arm_cancel (T : Task) : bool * Task := (cancel_requested T, {| T with hook := true |}).
Definition disarm_cancel (T : Task) : Task := {| T with hook := false |}.
Definition on_loop_resume (T : Task) : Task := {| T with hook := false |}.

(** [await_suspend], one step per access to shared state. *)
Definition await_suspend_step (s : side) (t : ptr) (T : Task) (σ : St) : outcome (option St) :=
  match tpc T with
  | PEnter =>
      if cancel_requested T then Done (Some (goto t T (PResume true) σ))
      else Done (Some (goto t T PAttach σ))
  | PAttach =>
      let '(l, m) := lists σ s in
      m ← reset t t (owner T) m;
      lm ← push_locked t l m;
      Done (Some (goto t T PCheck1 (set_list s lm σ)))
  | PCheck1 => Done (Some (goto t T (if keep1 s (obj σ) then PCheck2 else PBack) σ))
  | PCheck2 => Done (Some (goto t T (if keep2 s (obj σ) then PArm else PBack) σ))
  | PBack =>
      '(b, σ) ← detach s t σ;
      Done (Some (goto t T (if (b : bool) then PResume false else PSusp) σ))
  | PArm =>
      let '(req, T) := arm_cancel T in
      Done (Some (goto t T (if req then PUnarm else PSusp) σ))
  | PUnarm =>
      '(b, σ) ← detach s t σ;
      Done (Some (if (b : bool) then goto t (disarm_cancel T) (PResume true) σ else goto t T PSusp σ))
  | _ => Done None
  end.

(** [await_resume], the end of the awaiter's life, and the loop's next round. *)
Definition await_resume_step (s : side) (t : ptr) (T : Task) (own_cancel : bool) (σ : St) : outcome St :=
  let '(l, m) := lists σ s in
  w ← deref (nodes m !! t);
  '(res, l, m) ←
     (if own_cancel then Done (false, l, m)
      else
        '(l, m) ← (if h w is Some _ then '(_, l, m) ← remove t l m; Done (l, m) else Done (l, m));
        c ← cancel_claimed t m;
        Done (negb c, l, m));
  let σ := set_list s (l, {| m with nodes := delete t (nodes m) |}) σ in
  Done (if (res : bool) then goto t T (PTry (t0 (top T)) (own w =? 0)) σ else goto t T (PRet None) σ).

Definition task_step (t : ptr) (T : Task) (σ : St) : outcome (option St) :=
  match tpc T with
  | PTry ts w => Done (try_complete_step t T ts w σ)
  | PSusp | PRet _ => Done None
  | PResume b =>
      match op_side (top T) with
      | Some s => σ ← await_resume_step s t T b σ; Done (Some σ)
      | None => Done None
      end
  | _ =>
      match op_side (top T) with
      | Some s => await_suspend_step s t T σ
      | None => Done None
      end
  end.

(** [OpWait::on_cancel] *)
Definition on_cancel (s : side) (t : ptr) (T : Task) (σ : St) : outcome St :=
  '(b, σ) ← detach s t σ;
  if (b : bool) then
    let '(l, m) := lists σ s in
    m ← store_word (OwnOf t) kCancelledIndex m;
    Done {| (set_list s (l, m) σ) with runq := resume_on (Some t) (owner T) (runq σ) |}
  else Done σ.

(** [process_kick] with [run_cancel_hook], on the owner while the coroutine is suspended. *)
Definition run_cancel_hook (t : ptr) (T : Task) (σ : St) : outcome St :=
  let armed := hook T in
  let T := {| T with hook := false; kick := false |} in
  let σ := set_task t T σ in
  match op_side (top T) with
  | Some s => if armed then on_cancel s t T σ else Done σ
  | None => Done σ
  end.

(** A wake: skip it if the list is seen empty, else pop and fire under the lock. *)
Definition run_wake (k : wake_kind) (l : WaitList) (m : mem) (rs : list (option handle * Z)) :
    outcome (WaitList * mem * list (option handle * Z)) :=
  let fuel := S (Z.to_nat (count_ l)) in
  match k with
  | WakeN n => wake_loop fuel n l m rs
  | WakeAll => wake_all_loop fuel l m rs
  end.

Definition notify_step (i : nat) (e : pending) (σ : St) : outcome St :=
  let '(s, k, seen) := e in
  let '(l, m) := lists σ s in
  if (seen : bool) then
    '(l, m, rs) ← run_wake k l m (runq σ);
    Done {| (set_list s (l, m) σ) with runq := rs; pool := delete i (pool σ) |}
  else if empty_relaxed l then Done {| σ with pool := delete i (pool σ) |}
  else Done {| σ with pool := <[i := (s, k, true)]> (pool σ) |}.

(** ** Steps *)

Inductive event :=
| EBegin (t : ptr) (o : op) (own_ : Z)  (** a coroutine calls an operation *)
| ETask (t : ptr)                       (** it makes one step *)
| ENotify (i : nat)                     (** a wake makes one step *)
| EResume (i : nat)                     (** the owner resumes a coroutine of its queue *)
| ECancel (t : ptr)                     (** [request_cancel] *)
| EKick (t : ptr).                      (** the owner processes a cancel kick *)

Definition idle (σ : St) (t : ptr) : option (option Task) :=
  match tasks σ !! t with
  | None => Some None
  | Some T => match tpc T with PRet _ => Some (Some T) | _ => None end
  end.

Definition step (e : event) (σ : St) : outcome (option St) :=
  match e with
  | EBegin t o own_ =>
      (* a wait list counts its nodes in 32 bits *)
      if 2 ^ 32 - 3 <? Z.of_nat (size (tasks σ)) then Done None
      else
      match idle σ t with
      | None => Done None
      | Some None => Done (Some (set_task t (mkTask o (PTry (t0 o) false) own_ false false false) σ))
      | Some (Some T) => Done (Some (set_task t {| T with top := o; tpc := PTry (t0 o) false |} σ))
      end
  | ETask t =>
      match tasks σ !! t with
      | None => Done None
      | Some T => task_step t T σ
      end
  | ENotify i =>
      match pool σ !! i with
      | None => Done None
      | Some e => σ ← notify_step i e σ; Done (Some σ)
      end
  | EResume i =>
      match runq σ !! i with
      | Some (Some t, _) =>
          match tasks σ !! t with
          | Some T =>
              match tpc T with
              | PSusp => Done (Some {| (set_task t (on_loop_resume {| T with tpc := PResume false |}) σ)
                                       with runq := delete i (runq σ) |})
              | _ => Done None
              end
          | None => Done None
          end
      | _ => Done None
      end
  | ECancel t =>
      match tasks σ !! t with
      | Some T => Done (Some (if cancel_requested T then σ
                              else set_task t {| T with cancel_requested := true; kick := true |} σ))
      | None => Done None
      end
  | EKick t =>
      match tasks σ !! t with
      | Some T =>
          match kick T, tpc T with
          | true, PSusp => σ ← run_cancel_hook t T σ; Done (Some σ)
          | _, _ => Done None
          end
      | None => Done None
      end
  end.

Definition init (x : X) : St := mkSt x (λ _, (WaitList_new, mkMem ∅ ∅)) ∅ [] [].

Definition steps : relation St := λ σ σ', ∃ e, step e σ = Done (Some σ').

(** A run of given events, for concrete executions. *)
Fixpoint run (es : list event) (σ : St) : outcome (option St) :=
  match es with
  | [] => Done (Some σ)
  | e :: es => o ← step e σ; match o with Some σ => run es σ | None => Done None end
  end.
End machine.
End WaitProtocol.
