(* ===== verification/WaitProtocolInv.v ===== *)
(** The invariant of the waiting protocol and its preservation.

    The laws a primitive has to satisfy are the class [WaitableLaws]: how many
    waiters could complete now ([avail]), whether all could ([open_all]), and that
    every change of the primitive that makes more possible issues enough wakes. *)

From S2P Require Import Prelude WaitList WaitListCorrect WaitProtocol.

Module WaitProtocolInv.
Import WaitList WaitListCorrect WaitProtocol.

Definition wakes_all {S} (s : S) (ws : list (S * wake_kind)) : Prop := (s, WakeAll) ∈ ws.

Definition wake_amount {S} `{EqDecision S} (s : S) (w : S * wake_kind) : nat :=
  match w with
  | (s', WakeN k) => if decide (s' = s) then Z.to_nat k else O
  | (_, WakeAll) => O
  end.
Definition wakes_n {S} `{EqDecision S} (s : S) (ws : list (S * wake_kind)) : nat :=
  sum_list_with (wake_amount s) ws.

Class WaitableLaws (X : Type) `{!Waitable X} := {
  avail : side → X → nat;
  open_all : side → X → bool;
  law_start o : sees o (t0 o) = false;
  law_next o ts ts' x s :
    op_side o = Some s → try_step o ts x = TNext ts' → sees o ts' = true →
    sees o ts = true ∨ avail s x = O ∨ open_all s x = true;
  law_fail o ts x s :
    op_side o = Some s → try_step o ts x = TFail →
    sees o ts = true ∨ avail s x = O ∨ open_all s x = true;
  law_done o ts x r x' ws s :
    contract o x = true → try_step o ts x = TDone r x' ws →
    (wakes_all s ws ∨ (avail s x' <= avail s x + wakes_n s ws)%nat) ∧
    (open_all s x' = true → open_all s x = true ∨ wakes_all s ws) ∧
    (open_all s x = true → open_all s x' = true ∨ avail s x' = O) ∧
    (op_side o = Some s → sees o ts = true ∨ open_all s x' = true ∨ wakes_all s ws ∨
       (S (avail s x') <= avail s x + wakes_n s ws)%nat ∨ avail s x' = O);
  law_keep1 s x : keep1 s x = true → avail s x = O;
  law_keep2 s x : keep2 s x = true → open_all s x = false
}.

Section inv.
Context {X : Type} `{!Waitable X} `{!WaitableLaws X}.
Implicit Types (σ : @St X _) (s : side) (t u : ptr) (T : @Task X _) (w : Waiter).

Definition list_of σ s : WaitList := (lists σ s).1.
Definition mem_of σ s : mem := (lists σ s).2.
Definition node σ s t : option Waiter := nodes (mem_of σ s) !! t.
Definition queued σ t : Prop := Some t ∈ (runq σ).*1.

(** * Wakes on their way *)

Definition due s (e : @pending X _) : nat := wake_amount s (e.1).
Definition dues σ s : nat := sum_list_with (due s) (pool σ).
Definition due_all σ s : Prop := ∃ b, (s, WakeAll, b) ∈ pool σ.

(** * Coroutines woken and not yet disappointed *)

Definition wokenb σ s t : bool :=
  match tasks σ !! t with
  | None => false
  | Some T =>
      bool_decide (op_side (top T) = Some s) &&
      match tpc T with
      | PTry _ b => b
      | _ => match node σ s t with Some w => own w =? 0 | None => false end
      end
  end.
Definition woken_set σ s : gset ptr := filter (λ t, wokenb σ s t = true) (dom (tasks σ)).
Definition wokens σ s : nat := size (woken_set σ s).

(** * One coroutine *)

Definition set_up t T w : Prop :=
  h w = Some t ∧ winner w = Some (OwnOf t) ∧ index w = 0 ∧ tid w = owner T.

Definition node_ok t T w (inl inq : Prop) : Prop :=
  match tpc T with
  | PEnter | PAttach => ¬ inl ∧ ¬ inq ∧ own w = -1
  | PCheck1 | PCheck2 | PBack | PArm | PUnarm =>
      set_up t T w ∧ ((inl ∧ own w = -1 ∧ ¬ inq) ∨ (¬ inl ∧ own w = 0 ∧ inq))
  | PSusp =>
      set_up t T w ∧
      ((inl ∧ own w = -1 ∧ ¬ inq ∧ hook T = true ∧ (cancel_requested T = true → kick T = true))
       ∨ (¬ inl ∧ (own w = 0 ∨ own w = kCancelledIndex) ∧ inq))
  | PResume true => ¬ inl ∧ ¬ inq ∧ own w = -1
  | PResume false => ¬ inl ∧ ¬ inq ∧ set_up t T w
  | PTry _ _ | PRet _ => False
  end.

Definition awaiting T : Prop := match tpc T with PTry _ _ | PRet _ => False | _ => True end.

Definition task_inv σ (ps : side → list ptr) t : Prop :=
  match tasks σ !! t with
  | None => ¬ queued σ t ∧ ∀ s, node σ s t = None
  | Some T =>
      match tpc T with
      | PTry ts b => ¬ queued σ t ∧ (∀ s, node σ s t = None) ∧ (b = true → sees (top T) ts = false)
      | PRet _ => ¬ queued σ t ∧ ∀ s, node σ s t = None
      | _ => ∃ s w, op_side (top T) = Some s ∧ node σ s t = Some w ∧
                    (∀ s', s' ≠ s → node σ s' t = None) ∧ node_ok t T w (t ∈ ps s) (queued σ t)
      end
  end.

(** * No wake is lost *)

(** How far [attach] got: 1 after the first read said wait, 2 after both did. *)
Definition stage T : nat :=
  match tpc T with PCheck2 => 1 | PArm | PUnarm | PSusp => 2 | _ => 0 end.

Definition waits σ (ps : side → list ptr) s (k : nat) : Prop :=
  ∃ t T, t ∈ ps s ∧ tasks σ !! t = Some T ∧ (k <= stage T)%nat.

Definition winv σ (ps : side → list ptr) s : Prop :=
  (waits σ ps s 1 → open_all s (obj σ) = true ∨ due_all σ s ∨
                    (avail s (obj σ) <= wokens σ s + dues σ s)%nat) ∧
  (waits σ ps s 2 → open_all s (obj σ) = true → due_all σ s).

Record inv_with σ (ps : side → list ptr) : Prop := {
  i_rep s : wl_rep (list_of σ s) (mem_of σ s) (ps s);
  i_task t : task_inv σ ps t;
  i_runq : NoDup (runq σ).*1;
  i_runq_task o z : (o, z) ∈ runq σ → ∃ t T, o = Some t ∧ tasks σ !! t = Some T ∧ z = owner T;
  i_size : Z.of_nat (size (tasks σ)) < 2 ^ 32 - 1;
  i_wakes s : winv σ ps s
}.
Definition inv σ : Prop := ∃ ps, inv_with σ ps.

(** * Facts *)

Lemma task_inv_awaiting σ ps t T :
  task_inv σ ps t → tasks σ !! t = Some T → awaiting T →
  ∃ s w, op_side (top T) = Some s ∧ node σ s t = Some w ∧
         (∀ s', s' ≠ s → node σ s' t = None) ∧ node_ok t T w (t ∈ ps s) (queued σ t).
Proof.
  unfold task_inv, awaiting. intros H HT. rewrite HT in H. by destruct (tpc T).
Qed.

(** A node of a list belongs to a coroutine waiting in it. *)
Lemma inv_in_list σ ps s t :
  inv_with σ ps → t ∈ ps s →
  ∃ T w, tasks σ !! t = Some T ∧ op_side (top T) = Some s ∧ node σ s t = Some w ∧
         awaiting T ∧ set_up t T w ∧ own w = -1 ∧ ¬ queued σ t.
Proof.
  intros I Ht. destruct (rep_node _ _ _ (i_rep _ _ I s) t Ht) as [w Hw].
  assert (H := i_task _ _ I t). unfold task_inv in H. fold (node σ s t) in Hw.
  destruct (tasks σ !! t) as [T|]; [|by destruct H as [_ H]; rewrite H in Hw].
  exists T.
  assert (Hex : ∃ s w, op_side (top T) = Some s ∧ node σ s t = Some w ∧
    (∀ s', s' ≠ s → node σ s' t = None) ∧ node_ok t T w (t ∈ ps s) (queued σ t) ∧ awaiting T).
  { unfold awaiting. destruct (tpc T); try (destruct H as [_ H]; (rewrite H in Hw || rewrite (proj1 H) in Hw); done);
      destruct H as (s' & w' & ? & ? & ? & ?); by exists s', w'. }
  destruct Hex as (s' & w' & Ho & Hn & Hoth & Hok & Haw).
  destruct (decide (s = s')) as [->|Hne]; [|by rewrite (Hoth s Hne) in Hw].
  exists w'. split; [done|]. split; [done|]. split; [done|]. split; [done|].
  unfold node_ok in Hok. destruct (tpc T) as [| | | | | | | | |[]|]; naive_solver.
Qed.

Lemma ps_bound σ ps s : inv_with σ ps → Z.of_nat (length (ps s)) <= Z.of_nat (size (tasks σ)).
Proof.
  intros I. destruct (i_rep _ _ I s) as [Hnd _].
  rewrite <- (size_list_to_set (C := gset ptr) (ps s)) by done. rewrite <- size_dom.
  apply inj_le, subseteq_size. intros t Ht%elem_of_list_to_set.
  destruct (inv_in_list σ ps s t I Ht) as (T & _ & HT & _). by eapply elem_of_dom_2.
Qed.

Lemma queued_resume σ t z : (Some t, z) ∈ runq σ → queued σ t.
Proof. intros H. unfold queued. apply list_elem_of_fmap. by exists (Some t, z). Qed.

(** * Counting *)

Lemma gset_size_remove (A : gset ptr) t : (size A = size (A ∖ {[t]}) + (if decide (t ∈ A) then 1 else 0))%nat.
Proof.
  case_decide as H.
  - rewrite <- (size_singleton (C := gset ptr) t), <- size_union by set_solver.
    f_equal. apply leibniz_equiv. intros x. destruct (decide (x = t)); set_solver.
  - rewrite Nat.add_0_r. f_equal. set_solver.
Qed.

Lemma woken_in σ s t : t ∈ woken_set σ s ↔ wokenb σ s t = true.
Proof.
  unfold woken_set. rewrite elem_of_filter. split; [naive_solver|]. intros H. split; [done|].
  unfold wokenb in H. apply elem_of_dom. by destruct (tasks σ !! t).
Qed.

(** The count follows the one coroutine that changed. *)
Lemma wokens_one σ σ' s t :
  (∀ u, u ≠ t → wokenb σ' s u = wokenb σ s u) →
  (wokens σ' s + Nat.b2n (wokenb σ s t) = wokens σ s + Nat.b2n (wokenb σ' s t))%nat.
Proof.
  intros Hu. unfold wokens. rewrite (gset_size_remove (woken_set σ' s) t), (gset_size_remove (woken_set σ s) t).
  assert (E : woken_set σ' s ∖ {[t]} = woken_set σ s ∖ {[t]}).
  { apply set_eq. intros u. rewrite !elem_of_difference, !woken_in, elem_of_singleton.
    destruct (decide (u = t)); [naive_solver|]. by rewrite Hu. }
  rewrite E.
  assert (HB : ∀ σ, (if decide (t ∈ woken_set σ s) then 1 else 0)%nat = Nat.b2n (wokenb σ s t)).
  { intros σ0. case_decide as H; [by rewrite (proj1 (woken_in σ0 s t) H)|].
    destruct (wokenb σ0 s t) eqn:Ew; [|done]. by destruct H; apply woken_in. }
  rewrite !HB. lia.
Qed.

(** The count grows by the coroutines a wake fires. *)
Lemma wokens_fire σ σ' s ts :
  NoDup ts → (∀ t, t ∈ ts → wokenb σ s t = false ∧ wokenb σ' s t = true) →
  (∀ u, u ∉ ts → wokenb σ' s u = wokenb σ s u) →
  wokens σ' s = (wokens σ s + length ts)%nat.
Proof.
  intros Hnd Hts Hu. unfold wokens.
  replace (woken_set σ' s) with (woken_set σ s ∪ list_to_set ts).
  - rewrite size_union, size_list_to_set by
      (try done; intros t Ht%woken_in Ht'%elem_of_list_to_set; destruct (Hts t Ht'); congruence).
    done.
  - apply set_eq. intros u. rewrite elem_of_union, elem_of_list_to_set, !woken_in.
    destruct (decide (u ∈ ts)) as [Hi|Hi]; [destruct (Hts u Hi); naive_solver|].
    rewrite Hu by done. naive_solver.
Qed.

(** * Frames *)

Lemma payload_own (o o' : option Waiter) w w' :
  payload <$> o' = payload <$> o → o = Some w → o' = Some w' → own w' = own w.
Proof. intros E -> ->. cbn in E. unfold payload in E. congruence. Qed.

Lemma wokenb_frame σ σ' s u :
  tasks σ' !! u = tasks σ !! u → payload <$> node σ' s u = payload <$> node σ s u →
  wokenb σ' s u = wokenb σ s u.
Proof.
  intros ET E. unfold wokenb. rewrite ET. destruct (tasks σ !! u) as [T|]; [|done]. f_equal.
  destruct (node σ' s u) eqn:E1, (node σ s u) eqn:E2; try done.
  by rewrite (payload_own _ _ _ _ E eq_refl eq_refl).
Qed.

Lemma node_ok_payload t T w w' inl inl' inq inq' :
  payload w' = payload w → (inl' ↔ inl) → (inq' ↔ inq) →
  node_ok t T w inl inq → node_ok t T w' inl' inq'.
Proof.
  intros E Hl Hq. unfold node_ok, set_up. unfold payload in E. injection E as -> -> -> -> ->.
  destruct (tpc T) as [| | | | | | | | |[]|]; rewrite ?Hl, ?Hq; done.
Qed.

Lemma node_frame_None (o o' : option Waiter) : payload <$> o' = payload <$> o → o = None → o' = None.
Proof. intros E ->. by destruct o'. Qed.

Lemma task_inv_frame σ σ' ps ps' u :
  tasks σ' !! u = tasks σ !! u → (∀ s, payload <$> node σ' s u = payload <$> node σ s u) →
  (∀ s, u ∈ ps' s ↔ u ∈ ps s) → (queued σ' u ↔ queued σ u) →
  task_inv σ ps u → task_inv σ' ps' u.
Proof.
  intros ET En El Eq. unfold task_inv. rewrite ET.
  assert (HN : (∀ s, node σ s u = None) → ∀ s, node σ' s u = None)
    by (intros HN s; eapply node_frame_None; [apply En|apply HN]).
  destruct (tasks σ !! u) as [T|]; [|naive_solver].
  assert (HS : (∃ s w, op_side (top T) = Some s ∧ node σ s u = Some w ∧
      (∀ s', s' ≠ s → node σ s' u = None) ∧ node_ok u T w (u ∈ ps s) (queued σ u)) →
    ∃ s w, op_side (top T) = Some s ∧ node σ' s u = Some w ∧
      (∀ s', s' ≠ s → node σ' s' u = None) ∧ node_ok u T w (u ∈ ps' s) (queued σ' u)).
  { intros (s & w & Ho & Hn & Hoth & Hok). assert (E := En s). rewrite Hn in E.
    destruct (node σ' s u) as [w'|] eqn:Hn'; [|done]. exists s, w'. cbn in E.
    split; [done|]. split; [done|]. split.
    { intros s' Hs'. eapply node_frame_None; [apply En|by apply Hoth]. }
    eapply node_ok_payload; [|apply El|apply Eq|exact Hok]. congruence. }
  destruct (tpc T); naive_solver.
Qed.

(** * Steps of one coroutine *)

Lemma waits_one σ σ' ps ps' s t k T' :
  tasks σ' = <[t := T']> (tasks σ) → (∀ u, u ≠ t → u ∈ ps' s → u ∈ ps s) →
  waits σ' ps' s k → waits σ ps s k ∨ (t ∈ ps' s ∧ (k <= stage T')%nat).
Proof.
  intros ET Hu (u & U & Hi & HU & Hk). rewrite ET in HU. destruct (decide (u = t)) as [->|Hne].
  - rewrite lookup_insert_eq in HU. injection HU as <-. by right.
  - rewrite lookup_insert_ne in HU by done. left. exists u, U. split; [by apply Hu|done].
Qed.

(** A step that changes coroutine [t], perhaps lists and the run queue for it, and
    neither the primitive nor the wakes. *)
Lemma step_one σ σ' ps ps' t T' :
  inv_with σ ps →
  tasks σ' = <[t := T']> (tasks σ) → obj σ' = obj σ → pool σ' = pool σ →
  Z.of_nat (size (tasks σ')) < 2 ^ 32 - 1 →
  (∀ s, wl_rep (list_of σ' s) (mem_of σ' s) (ps' s)) →
  (∀ s u, u ≠ t → (u ∈ ps' s ↔ u ∈ ps s) ∧ payload <$> node σ' s u = payload <$> node σ s u) →
  NoDup (runq σ').*1 → (∀ u, u ≠ t → queued σ' u ↔ queued σ u) →
  (∀ o z, (o, z) ∈ runq σ' → (o, z) ∈ runq σ ∨ (o = Some t ∧ z = owner T')) →
  (∀ T, tasks σ !! t = Some T → owner T = owner T') →
  task_inv σ' ps' t →
  (∀ s, t ∈ ps' s → (1 <= stage T')%nat → waits σ ps s 1 ∨ avail s (obj σ) = O) →
  (∀ s, t ∈ ps' s → (2 <= stage T')%nat → waits σ ps s 2 ∨ open_all s (obj σ) = false) →
  (∀ s, wokenb σ s t = true → wokenb σ' s t = true ∨ avail s (obj σ) = O ∨ open_all s (obj σ) = true) →
  inv_with σ' ps'.
Proof.
  intros I ET Eo Ep Hsz Hrep Hu Hnd Hq Hrq Hown Ht H1 H2 HF. split; [done| |done| |done|].
  - intros u. destruct (decide (u = t)) as [->|Hne]; [done|].
    eapply task_inv_frame; [| | | |apply (i_task _ _ I u)].
    + rewrite ET. by apply lookup_insert_ne.
    + intros s. by apply Hu.
    + intros s. by apply Hu.
    + by apply Hq.
  - intros o z [Hoz|[-> ->]]%Hrq.
    + destruct (i_runq_task _ _ I o z Hoz) as (u & U & -> & HU & ->). exists u.
      rewrite ET. destruct (decide (u = t)) as [->|Hne].
      * exists T'. rewrite lookup_insert_eq. auto.
      * exists U. by rewrite lookup_insert_ne.
    + exists t, T'. rewrite ET, lookup_insert_eq. done.
  - intros s. destruct (i_wakes _ _ I s) as [W1 W2]. unfold winv, dues, due_all. rewrite Eo, Ep.
    assert (HW : ∀ k, waits σ' ps' s k → waits σ ps s k ∨ (t ∈ ps' s ∧ (k <= stage T')%nat)).
    { intros k. eapply waits_one; [done|]. intros u Hne. by apply Hu. }
    assert (HF' : (wokens σ s <= wokens σ' s)%nat ∨ avail s (obj σ) = O ∨ open_all s (obj σ) = true).
    { assert (E := wokens_one σ σ' s t).
      assert (∀ u, u ≠ t → wokenb σ' s u = wokenb σ s u) as HE.
      { intros u Hne. apply wokenb_frame; [rewrite ET; by apply lookup_insert_ne|by apply Hu]. }
      specialize (E HE). specialize (HF s). destruct (wokenb σ s t); cbn in E; [|left; lia].
      destruct HF as [Hx|]; [done|left; rewrite Hx in E; cbn in E; lia|by right]. }
    split.
    + intros [Hw|[Hin Hk]]%HW.
      * destruct (W1 Hw) as [|[|]]; [by left|by right; left|]. unfold dues in *.
        destruct HF' as [?|[?|?]]; [right; right; lia..|by left].
      * destruct (H1 s Hin Hk) as [Hw|H0]; [|right; right; lia].
        destruct (W1 Hw) as [|[|]]; [by left|by right; left|]. unfold dues in *.
        destruct HF' as [?|[?|?]]; [right; right; lia..|by left].
    + intros [Hw|[Hin Hk]]%HW Hop; [by apply W2|].
      destruct (H2 s Hin Hk) as [Hw|H0]; [by apply W2|congruence].
Qed.
End inv.
End WaitProtocolInv.
