(* ===== verification/WaitProtocolSteps.v ===== *)
(** Every step of the waiting protocol preserves its invariant. *)

From S2P Require Import Prelude WaitList WaitListCorrect WaitProtocol WaitProtocolInv.

Module WaitProtocolSteps.
Import WaitList WaitListCorrect WaitProtocol WaitProtocolInv.

Section steps.
Context {X : Type} `{!Waitable X} `{!WaitableLaws X}.
Implicit Types (σ : @St X _) (s : side) (t u : ptr) (T : @Task X _) (w : Waiter).

Lemma lists_upd σ s lm s' : lists (set_list s lm σ) s' = if decide (s' = s) then lm else lists σ s'.
Proof. done. Qed.

Lemma list_of_upd σ s l m s' :
  list_of (set_list s (l, m) σ) s' = if decide (s' = s) then l else list_of σ s'.
Proof. unfold list_of. rewrite lists_upd. by case_decide. Qed.

Lemma mem_of_upd σ s l m s' :
  mem_of (set_list s (l, m) σ) s' = if decide (s' = s) then m else mem_of σ s'.
Proof. unfold mem_of. rewrite lists_upd. by case_decide. Qed.

Lemma node_upd σ s l m s' u :
  node (set_list s (l, m) σ) s' u = if decide (s' = s) then nodes m !! u else node σ s' u.
Proof. unfold node. rewrite mem_of_upd. by case_decide. Qed.

Lemma lists_pair σ s : lists σ s = (list_of σ s, mem_of σ s).
Proof. unfold list_of, mem_of. by destruct (lists σ s). Qed.

Lemma size_update σ t T T' :
  tasks σ !! t = Some T → size (<[t := T']> (tasks σ)) = size (tasks σ).
Proof. intros H. by rewrite map_size_insert, H. Qed.

(** The lists without the node [t] of side [s]. *)
Definition without (ps : side → list ptr) s t : side → list ptr :=
  λ s', if decide (s' = s) then filter (λ u, u ≠ t) (ps s) else ps s'.

Lemma elem_without ps s t s' u : u ∈ without ps s t s' ↔ u ∈ ps s' ∧ (s' = s → u ≠ t).
Proof. unfold without. case_decide; subst; rewrite ?list_elem_of_filter; naive_solver. Qed.

(** [detach] takes the coroutine's node out of its list and says whether it was in it. *)
Lemma detach_ok σ ps s t w :
  (∀ s, wl_rep (list_of σ s) (mem_of σ s) (ps s)) → node σ s t = Some w →
  ∃ σ', detach s t σ = Done (bool_decide (t ∈ ps s), σ') ∧
    tasks σ' = tasks σ ∧ obj σ' = obj σ ∧ pool σ' = pool σ ∧ runq σ' = runq σ ∧
    (∀ s', wl_rep (list_of σ' s') (mem_of σ' s') (without ps s t s')) ∧
    (∀ s' u, payload <$> node σ' s' u = payload <$> node σ s' u).
Proof.
  intros Hrep Hw. unfold detach. rewrite lists_pair.
  destruct (remove_ok _ _ _ t w (Hrep s) Hw) as (l & m & -> & R & P).
  orun. eexists. split; [done|]. do 4 (split; [done|]). split.
  - intros s'. rewrite list_of_upd, mem_of_upd. unfold without. by case_decide; subst.
  - intros s' u. rewrite node_upd. case_decide; [|done]. subst s'.
    destruct P as [_ P]. apply (f_equal (.!! u)) in P. by rewrite !lookup_fmap in P.
Qed.

(** * Steps that change only where a waiting coroutine stands *)

Lemma step_pc σ ps t T T' :
  inv_with σ ps → tasks σ !! t = Some T → awaiting T → awaiting T' → top T' = top T → owner T' = owner T →
  (∀ s w, op_side (top T) = Some s → node σ s t = Some w →
     node_ok t T w (t ∈ ps s) (queued σ t) → node_ok t T' w (t ∈ ps s) (queued σ t)) →
  (∀ s, op_side (top T) = Some s → (1 <= stage T')%nat → (1 <= stage T)%nat ∨ avail s (obj σ) = O) →
  (∀ s, op_side (top T) = Some s → (2 <= stage T')%nat → (2 <= stage T)%nat ∨ open_all s (obj σ) = false) →
  inv_with (set_task t T' σ) ps.
Proof.
  intros I HT Ha Ha' Etop Eown Hok H1 H2.
  destruct (task_inv_awaiting σ ps t T (i_task _ _ I t) HT Ha) as (s & w & Ho & Hn & Hoth & Hnok).
  assert (Hside : ∀ s', t ∈ ps s' → op_side (top T) = Some s').
  { intros s' Hs'. destruct (inv_in_list σ ps s' t I Hs') as (T2 & _ & HT2 & ? & _). by simplify_eq. }
  eapply step_one with (ps := ps) (t := t) (T' := T'); try done.
  - cbn. rewrite (size_update σ t T T' HT). apply (i_size _ _ I).
  - apply (i_rep _ _ I).
  - apply (i_runq _ _ I).
  - intros o z. by left.
  - intros T2 HT2. simplify_eq. done.
  - unfold task_inv. cbn. rewrite lookup_insert_eq.
    assert (HE : ∃ s w, op_side (top T') = Some s ∧ node σ s t = Some w ∧
      (∀ s', s' ≠ s → node σ s' t = None) ∧ node_ok t T' w (t ∈ ps s) (queued σ t)).
    { exists s, w. rewrite Etop. split; [done|]. split; [done|]. split; [done|]. by apply (Hok s w). }
    unfold awaiting in Ha'. destruct (tpc T'); done.
  - intros s' Hin Hk. destruct (H1 s' (Hside s' Hin) Hk) as [Hs|]; [left|by right]. by exists t, T.
  - intros s' Hin Hk. destruct (H2 s' (Hside s' Hin) Hk) as [Hs|]; [left|by right]. by exists t, T.
  - intros s' Hw. left. unfold wokenb in *. cbn. rewrite lookup_insert_eq. rewrite HT in Hw. rewrite Etop.
    unfold awaiting in Ha, Ha'. by destruct (tpc T), (tpc T').
Qed.

(** The same with the node taken out of its list. *)
Lemma step_detach σ ps t T s w σ1 T' :
  inv_with σ ps → tasks σ !! t = Some T → awaiting T → awaiting T' → top T' = top T → owner T' = owner T →
  op_side (top T) = Some s → node σ s t = Some w →
  tasks σ1 = tasks σ → obj σ1 = obj σ → pool σ1 = pool σ → runq σ1 = runq σ →
  (∀ s', wl_rep (list_of σ1 s') (mem_of σ1 s') (without ps s t s')) →
  (∀ s' u, payload <$> node σ1 s' u = payload <$> node σ s' u) →
  (∀ w', payload w' = payload w → node_ok t T' w' False (queued σ t)) →
  inv_with (set_task t T' σ1) (without ps s t).
Proof.
  intros I HT Ha Ha' Etop Eown Ho Hn ET Eobj Ep Er Hrep Hpay Hok.
  destruct (task_inv_awaiting σ ps t T (i_task _ _ I t) HT Ha) as (s0 & w0 & Ho0 & Hn0 & Hoth & Hnok).
  assert (s0 = s) as -> by congruence. assert (w0 = w) as -> by congruence.
  assert (Hnot : ∀ s', t ∉ without ps s t s').
  { intros s' [Hin Hne]%elem_without. destruct (inv_in_list σ ps s' t I Hin) as (T2 & _ & HT2 & Ho2 & _).
    simplify_eq. by apply Hne. }
  eapply step_one with (ps := ps) (t := t) (T' := T'); try done.
  - cbn. by rewrite ET.
  - cbn. rewrite ET, (size_update σ t T T' HT). apply (i_size _ _ I).
  - intros s' u Hne. split; [|apply Hpay]. rewrite elem_without. naive_solver.
  - cbn. rewrite Er. apply (i_runq _ _ I).
  - unfold queued. cbn. by rewrite Er.
  - cbn. rewrite Er. intros o z. by left.
  - intros T2 HT2. simplify_eq. done.
  - unfold task_inv. cbn. rewrite ET, lookup_insert_eq.
    assert (E := Hpay s t). rewrite Hn in E. destruct (node σ1 s t) as [w'|] eqn:Hn'; [|done]. cbn in E.
    assert (HE : ∃ s0 w0, op_side (top T') = Some s0 ∧ node σ1 s0 t = Some w0 ∧
      (∀ s', s' ≠ s0 → node σ1 s' t = None) ∧ node_ok t T' w0 (t ∈ without ps s t s0) (queued (set_task t T' σ1) t)).
    { exists s, w'. rewrite Etop. split; [done|]. split; [done|]. split.
      { intros s' Hs'. eapply node_frame_None; [apply Hpay|by apply Hoth]. }
      eapply node_ok_payload; [reflexivity| | |apply (Hok w'); congruence].
      - assert (Hx := Hnot s). tauto.
      - unfold queued. cbn. by rewrite Er. }
    unfold awaiting in Ha'. destruct (tpc T'); done.
  - intros s' Hin. by apply Hnot in Hin.
  - intros s' Hin. by apply Hnot in Hin.
  - intros s' Hw. left. unfold wokenb in *. cbn. rewrite ET, lookup_insert_eq. rewrite HT in Hw. rewrite Etop.
    apply andb_true_iff in Hw as [Hs Hw]. rewrite Hs. cbn.
    assert (E := Hpay s' t). change (node (set_task t T' σ1) s' t) with (node σ1 s' t).
    assert (HN : match node σ1 s' t with Some w1 => own w1 =? 0 | None => false end = true).
    { unfold awaiting in Ha. destruct (node σ s' t) as [wx|] eqn:Hx; [|by destruct (tpc T)].
      destruct (node σ1 s' t) as [wy|] eqn:Hy; [|done].
      rewrite (payload_own _ _ wx wy E eq_refl eq_refl). by destruct (tpc T). }
    unfold awaiting in Ha'. by destruct (tpc T').
Qed.

(** * [await_suspend] *)

Lemma attach_ok σ ps s t T :
  inv_with σ ps → tasks σ !! t = Some T → op_side (top T) = Some s → tpc T = PAttach →
  ∃ σ', await_suspend_step s t T σ = Done (Some σ') ∧ inv σ'.
Proof.
  intros I HT Ho Hpc. unfold await_suspend_step. rewrite Hpc, lists_pair.
  destruct (task_inv_awaiting σ ps t T (i_task _ _ I t) HT) as (s0 & w & Ho0 & Hn & Hoth & Hnok);
    [unfold awaiting; by rewrite Hpc|].
  assert (s0 = s) as -> by congruence. unfold node_ok in Hnok. rewrite Hpc in Hnok.
  destruct Hnok as (Hnl & Hnq & Hown).
  unfold reset. unfold node in Hn. rewrite Hn. orun. set (w1 := {| w with h := Some t; tid := owner T; winner := Some (OwnOf t); own := -1; index := 0 |}).
  set (m1 := set_node t w1 (mem_of σ s)).
  assert (R1 : wl_rep (list_of σ s) m1 (ps s)).
  { eapply wl_rep_same_links; [by eapply same_links_set|apply (i_rep _ _ I)]. }
  destruct (push_rep (list_of σ s) m1 (ps s) t w1 R1) as (l2 & m2 & -> & R2 & P2).
  { cbn. by rewrite lookup_insert_eq. }
  { done. }
  { assert (Hb := ps_bound σ ps s I). assert (Hsz := i_size _ _ I). lia. }
  orun. eexists. split; [done|].
  set (ps' := λ s', if decide (s' = s) then ps s ++ [t] else ps s').
  destruct (same_payload_lookup m1 m2 t w1 P2) as (w2 & Hw2 & E2); [cbn; by rewrite lookup_insert_eq|].
  exists ps'. unfold goto. eapply step_one with (ps := ps) (t := t); try done.
  - cbn. rewrite (size_update σ t T _ HT). apply (i_size _ _ I).
  - intros s'. cbn. change (list_of (set_task _ _ ?x)) with (list_of x).
    change (mem_of (set_task _ _ ?x)) with (mem_of x). rewrite list_of_upd, mem_of_upd. unfold ps'.
    case_decide; [by subst|apply (i_rep _ _ I)].
  - intros s' u Hne. split.
    + unfold ps'. case_decide; [subst|done]. set_solver.
    + change (node (set_task _ _ ?x)) with (node x). rewrite node_upd. case_decide; [subst|done].
      destruct P2 as [_ P2]. apply (f_equal (.!! u)) in P2. rewrite !lookup_fmap in P2. rewrite P2. cbn.
      by rewrite lookup_insert_ne.
  - apply (i_runq _ _ I).
  - intros o z. by left.
  - intros T2 HT2. simplify_eq. done.
  - unfold task_inv. cbn. rewrite lookup_insert_eq. cbn. exists s, w2.
    change (node (set_task _ _ ?x)) with (node x). split; [done|]. rewrite node_upd, decide_True by done.
    split; [done|]. split.
    { intros s' Hs'. change (node (set_task _ _ ?x)) with (node x). rewrite node_upd, decide_False by done. by apply Hoth. }
    unfold node_ok, set_up. cbn. unfold payload in E2. injection E2 as -> -> -> -> ->. cbn.
    split; [done|]. left. split; [|split; [done|exact Hnq]].
    unfold ps'. rewrite decide_True by done. set_solver.
  - intros s' _ Hk. cbn in Hk. lia.
  - intros s' _ Hk. cbn in Hk. lia.
  - intros s' Hw. left. unfold wokenb in Hw. rewrite HT, Hpc in Hw.
    apply andb_true_iff in Hw as [Hs Hw]. apply bool_decide_eq_true in Hs.
    assert (s' = s) as -> by congruence. unfold node in Hw. rewrite Hn in Hw. b2p. lia.
Qed.

Lemma await_suspend_ok σ ps s t T :
  inv_with σ ps → tasks σ !! t = Some T → op_side (top T) = Some s →
  match tpc T with PTry _ _ | PSusp | PResume _ | PRet _ => False | _ => True end →
  ∃ σ', await_suspend_step s t T σ = Done (Some σ') ∧ inv σ'.
Proof.
  intros I HT Ho Hpc. destruct (tpc T) eqn:Epc; try done; [|by eapply attach_ok|..];
    unfold await_suspend_step; rewrite Epc;
    (assert (Haw : awaiting T) by (unfold awaiting; by rewrite Epc));
    destruct (task_inv_awaiting σ ps t T (i_task _ _ I t) HT Haw) as (s0 & w & Ho0 & Hn & Hoth & Hnok);
    (assert (s0 = s) as -> by congruence);
    unfold node_ok in Hnok; rewrite Epc in Hnok.
  - (* PEnter *) destruct (cancel_requested T); eexists; (split; [done|]); exists ps; unfold goto;
      (eapply step_pc; [done..| | |]); try (cbn; lia);
      intros; unfold node_ok in *; rewrite Epc in *; done.
  - (* PCheck1 *) eexists. split; [done|]. exists ps. unfold goto.
    destruct (keep1 s (obj σ)) eqn:Hk; (eapply step_pc; [done..| | |]); try (cbn; lia);
      try (intros; unfold node_ok in *; rewrite Epc in *; done).
    intros s' Hs' _. right. simplify_eq. by apply law_keep1.
  - (* PCheck2 *) eexists. split; [done|]. exists ps. unfold goto.
    destruct (keep2 s (obj σ)) eqn:Hk; (eapply step_pc; [done..| | |]); try (cbn; lia);
      try (intros; unfold node_ok in *; rewrite Epc in *; done).
    + intros s' Hs' _. left. unfold stage. by rewrite Epc.
    + intros s' Hs' _. right. simplify_eq. by apply law_keep2.
  - (* PBack *) destruct (detach_ok σ ps s t w (i_rep _ _ I) Hn)
      as (σ1 & -> & ET & Eobj & Ep & Er & Hrep & Hpay). orun. eexists. split; [done|].
    exists (without ps s t). unfold goto.
    eapply step_detach; try done; [by case_bool_decide|].
    intros w' Ew. unfold node_ok, set_up in *. unfold payload in Ew. injection Ew as -> -> -> -> ->. cbn.
    case_bool_decide; cbn; naive_solver.
  - (* PArm *) eexists. split; [done|]. exists ps. unfold goto. cbn.
    destruct (cancel_requested T) eqn:Hc; (eapply step_pc; [done..| | |]);
      try (intros; left; unfold stage; rewrite Epc; lia);
      intros; unfold node_ok in *; rewrite Epc in *; cbn in *; [done|]. unfold set_up in *. cbn.
    naive_solver.
  - (* PUnarm *) destruct (detach_ok σ ps s t w (i_rep _ _ I) Hn)
      as (σ1 & -> & ET & Eobj & Ep & Er & Hrep & Hpay). orun. eexists. split; [done|].
    exists (without ps s t). unfold goto.
    case_bool_decide; (eapply step_detach; try done);
      intros w' Ew; unfold node_ok, set_up in *; unfold payload in Ew; injection Ew as -> -> -> -> ->; cbn;
      naive_solver.
Qed.

(** * Birth and death of the awaiter's node *)

(** A coroutine whose side keeps its sequence, while only its own node changes. *)
Lemma step_node σ ps t T T' s m' :
  inv_with σ ps → tasks σ !! t = Some T → owner T' = owner T → top T' = top T →
  wl_rep (list_of σ s) m' (ps s) → (∀ u, u ≠ t → nodes m' !! u = node σ s u) →
  (∀ s, t ∉ ps s) → stage T' = O →
  task_inv (set_task t T' (set_list s (list_of σ s, m') σ)) ps t →
  (∀ s', wokenb σ s' t = true →
     wokenb (set_task t T' (set_list s (list_of σ s, m') σ)) s' t = true ∨ avail s' (obj σ) = O
     ∨ open_all s' (obj σ) = true) →
  inv_with (set_task t T' (set_list s (list_of σ s, m') σ)) ps.
Proof.
  intros I HT Eown Etop R' Hu Hnot Hst Ht HF.
  eapply step_one with (ps := ps) (t := t) (T' := T'); try done.
  - cbn. rewrite (size_update σ t T _ HT). apply (i_size _ _ I).
  - intros s'. change (list_of (set_task _ _ ?x)) with (list_of x).
    change (mem_of (set_task _ _ ?x)) with (mem_of x). rewrite list_of_upd, mem_of_upd.
    case_decide; [by subst|apply (i_rep _ _ I)].
  - intros s' u Hne. split; [done|]. change (node (set_task _ _ ?x)) with (node x). rewrite node_upd.
    case_decide; [subst; by rewrite Hu|done].
  - apply (i_runq _ _ I).
  - intros o z. by left.
  - intros T2 HT2. simplify_eq. done.
  - intros s' Hin. by apply Hnot in Hin.
  - intros s' Hin. by apply Hnot in Hin.
Qed.

Lemma await_resume_ok σ ps s t T oc :
  inv_with σ ps → tasks σ !! t = Some T → op_side (top T) = Some s → tpc T = PResume oc →
  ∃ σ', await_resume_step s t T oc σ = Done σ' ∧ inv σ'.
Proof.
  intros I HT Ho Hpc.
  destruct (task_inv_awaiting σ ps t T (i_task _ _ I t) HT) as (s0 & w & Ho0 & Hn & Hoth & Hnok);
    [unfold awaiting; by rewrite Hpc|].
  assert (s0 = s) as -> by congruence. unfold node_ok in Hnok. rewrite Hpc in Hnok.
  assert (Hnl : t ∉ ps s) by (destruct oc; naive_solver).
  assert (Hnq : ¬ queued σ t) by (destruct oc; naive_solver).
  assert (Hnot : ∀ s', t ∉ ps s').
  { intros s' Hin. destruct (inv_in_list σ ps s' t I Hin) as (T2 & _ & HT2 & Ho2 & _). by simplify_eq. }
  set (m' := {| (mem_of σ s) with nodes := delete t (nodes (mem_of σ s)) |}).
  set (back := negb oc && negb (own w =? kCancelledIndex)).
  assert (Hres : await_resume_step s t T oc σ =
    Done (set_task t {| T with tpc := if back then PTry (t0 (top T)) (own w =? 0) else PRet None |}
            (set_list s (list_of σ s, m') σ))).
  { unfold await_resume_step. rewrite lists_pair. unfold node in Hn. rewrite Hn. orun. unfold back.
    destruct oc; [done|]. destruct Hnok as (_ & _ & Hh & _). rewrite Hh. unfold remove.
    rewrite (remove_absent _ _ (ps s) t w) by (done || apply (i_rep _ _ I)). orun.
    unfold cancel_claimed. rewrite Hn. orun. by destruct (own w =? kCancelledIndex). }
  rewrite Hres. eexists. split; [done|]. exists ps.
  assert (Hgone : ∀ s', node (set_list s (list_of σ s, m') σ) s' t = None).
  { intros s'. rewrite node_upd. case_decide; [cbn; by rewrite lookup_delete_eq|by apply Hoth]. }
  eapply step_node; try done.
  - apply wl_rep_free; [done|]. apply (i_rep _ _ I).
  - intros u Hne. cbn. by rewrite lookup_delete_ne.
  - unfold stage. cbn. by destruct back.
  - unfold task_inv. cbn. rewrite lookup_insert_eq. cbn.
    destruct back; [|done]. split; [done|]. split; [done|]. intros _. apply law_start.
  - intros s' Hw. left. unfold wokenb in *. cbn. rewrite lookup_insert_eq. rewrite HT, Hpc in Hw. cbn.
    apply andb_true_iff in Hw as [Hs Hw]. rewrite Hs. cbn.
    apply bool_decide_eq_true in Hs. assert (s' = s) as -> by congruence. rewrite Hn in Hw.
    assert (back = true) as ->; [|done]. b2p. unfold back, kCancelledIndex. rewrite Hw.
    destruct oc; [|done]. destruct Hnok as (_ & _ & Hx). lia.
Qed.

(** * [try_complete] *)

Lemma not_awaiting_out σ ps t T s :
  inv_with σ ps → tasks σ !! t = Some T → ¬ awaiting T → t ∉ ps s.
Proof.
  intros I HT Ha Hin. destruct (inv_in_list σ ps s t I Hin) as (T2 & _ & HT2 & _ & _ & Ha2 & _). by simplify_eq.
Qed.

Lemma try_facts σ ps t T ts b :
  inv_with σ ps → tasks σ !! t = Some T → tpc T = PTry ts b →
  (∀ s, t ∉ ps s) ∧ ¬ queued σ t ∧ (∀ s, node σ s t = None) ∧ (b = true → sees (top T) ts = false) ∧
  (∀ s, wokenb σ s t = bool_decide (op_side (top T) = Some s) && b).
Proof.
  intros I HT Hpc. assert (Hti := i_task _ _ I t). unfold task_inv in Hti. rewrite HT, Hpc in Hti.
  destruct Hti as (Hq & Hn & Hs). split.
  { intros s. eapply not_awaiting_out; [done..|]. unfold awaiting. rewrite Hpc. tauto. }
  do 3 (split; [done|]). intros s. unfold wokenb. by rewrite HT, Hpc.
Qed.

(** Steps of a coroutine that is not in an awaiter, before and after. *)
Lemma step_free σ ps t T' :
  inv_with σ ps → (∀ T, tasks σ !! t = Some T → ¬ awaiting T ∧ owner T = owner T') →
  Z.of_nat (size (<[t := T']> (tasks σ))) < 2 ^ 32 - 1 →
  match tpc T' with
  | PTry ts b => b = true → sees (top T') ts = false
  | PRet _ => True
  | _ => False
  end →
  (∀ s, wokenb σ s t = true → wokenb (set_task t T' σ) s t = true ∨ avail s (obj σ) = O ∨ open_all s (obj σ) = true) →
  inv_with (set_task t T' σ) ps.
Proof.
  intros I HT Hsz Hpc HF.
  assert (Hti := i_task _ _ I t). unfold task_inv in Hti.
  assert (¬ queued σ t ∧ ∀ s, node σ s t = None) as [Hq Hn].
  { destruct (tasks σ !! t) as [T|]; [|done]. destruct (HT T eq_refl) as [Ha _].
    unfold awaiting in Ha. destruct (tpc T); naive_solver. }
  assert (Hst : stage T' = O) by (unfold stage; by destruct (tpc T')).
  eapply step_one with (ps := ps) (t := t) (T' := T'); try done.
  - apply (i_rep _ _ I).
  - apply (i_runq _ _ I).
  - intros o z. by left.
  - intros T2 HT2. by apply HT.
  - unfold task_inv. cbn. rewrite lookup_insert_eq. destruct (tpc T'); try done.
  - intros s _ Hk. lia.
  - intros s _ Hk. lia.
Qed.

Lemma dues_app (a b : list (@pending X _)) s :
  sum_list_with (due s) (a ++ b) = (sum_list_with (due s) a + sum_list_with (due s) b)%nat.
Proof. apply sum_list_with_app. Qed.

Lemma dues_new (ws : list (side * wake_kind)) s :
  sum_list_with (due s) ((λ k, (k, false)) <$> ws) = wakes_n s ws.
Proof. unfold wakes_n. induction ws as [|[s' k] ws IH]; [done|]. cbn. by rewrite IH. Qed.

Lemma step_done σ ps t T ts b r x ws :
  inv_with σ ps → tasks σ !! t = Some T → tpc T = PTry ts b → contract (top T) (obj σ) = true →
  try_step (top T) ts (obj σ) = TDone r x ws →
  inv_with (goto t T (PRet (Some r)) {| σ with obj := x; pool := pool σ ++ ((λ k, (k, false)) <$> ws) |}) ps.
Proof.
  intros I HT Hpc Hc Hstep.
  destruct (try_facts σ ps t T ts b I HT Hpc) as (Hout & Hq & Hn & Hsees & Hw).
  set (T' := {| T with tpc := PRet (Some r) |}). unfold goto. fold T'. set (σ' := set_task _ _ _).
  split.
  - apply (i_rep _ _ I).
  - intros u. destruct (decide (u = t)) as [->|Hne].
    + unfold task_inv. cbn. rewrite lookup_insert_eq. done.
    + eapply task_inv_frame; [| | | |apply (i_task _ _ I u)]; try done. cbn. by apply lookup_insert_ne.
  - apply (i_runq _ _ I).
  - intros o z Hoz. destruct (i_runq_task _ _ I o z Hoz) as (u & U & -> & HU & ->).
    destruct (decide (u = t)) as [->|Hne].
    + exists t, T'. cbn. rewrite lookup_insert_eq. simplify_eq. done.
    + exists u, U. cbn. by rewrite lookup_insert_ne.
  - cbn. rewrite (size_update σ t T T' HT). apply (i_size _ _ I).
  - intros s. destruct (i_wakes _ _ I s) as [W1 W2].
    destruct (law_done (top T) ts (obj σ) r x ws s Hc Hstep) as (L1 & L2 & L3 & L4).
    assert (HW : ∀ k, waits σ' ps s k → waits σ ps s k).
    { intros k (u & U & Hin & HU & Hk). destruct (decide (u = t)) as [->|Hne]; [by apply Hout in Hin|].
      exists u, U. cbn in HU. by rewrite lookup_insert_ne in HU. }
    assert (Hdue : dues σ' s = (dues σ s + wakes_n s ws)%nat).
    { unfold dues. cbn. by rewrite dues_app, dues_new. }
    assert (Hall : due_all σ s ∨ wakes_all s ws → due_all σ' s).
    { intros [[b' Hb]|Ha]; [exists b'|exists false]; cbn; apply elem_of_app; [by left|right].
      apply list_elem_of_fmap. by exists (s, WakeAll). }
    assert (HF := wokens_one σ σ' s t). rewrite Hw in HF.
    assert (Hw' : wokenb σ' s t = false).
    { unfold wokenb. cbn. rewrite lookup_insert_eq. cbn. change (node σ' s t) with (node σ s t).
      rewrite Hn. by destruct (bool_decide _). }
    rewrite Hw' in HF. cbn in HF.
    assert (∀ u, u ≠ t → wokenb σ' s u = wokenb σ s u) as HE.
    { intros u Hne. apply wokenb_frame; [cbn; by apply lookup_insert_ne|done]. }
    specialize (HF HE). unfold winv. change (obj σ') with x. split.
    + intros Hk%HW. destruct (W1 Hk) as [Hop|[Hal|Hle]].
      * destruct (L3 Hop) as [|]; [by left|right; right; lia].
      * right; left. apply Hall. by left.
      * destruct L1 as [Ha|L1]; [right; left; apply Hall; by right|].
        destruct (decide (op_side (top T) = Some s)) as [Ho|Ho]; cycle 1.
        { rewrite bool_decide_eq_false_2 in HF by done. right; right. cbn in HF. lia. }
        rewrite bool_decide_eq_true_2 in HF by done.
        destruct b; [|right; right; cbn in HF; lia]. cbn in HF.
        destruct (L4 Ho) as [Hse|[|[Ha|[|]]]]; [by rewrite Hsees in Hse|by left| |right; right; lia..].
        right; left. apply Hall. by right.
    + intros Hk%HW Hop. apply Hall. destruct (L2 Hop) as [Hop'|]; [left; by apply W2|by right].
Qed.

Lemma try_complete_ok σ ps t T ts b σ' :
  inv_with σ ps → tasks σ !! t = Some T → tpc T = PTry ts b →
  try_complete_step t T ts b σ = Some σ' → inv σ'.
Proof.
  intros I HT Hpc. unfold try_complete_step.
  destruct (contract (top T) (obj σ)) eqn:Hc; cbn; [|done].
  destruct (try_facts σ ps t T ts b I HT Hpc) as (Hout & Hq & Hn & Hsees & Hw).
  assert (Hna : ∀ T2, tasks σ !! t = Some T2 → ¬ awaiting T2 ∧ owner T2 = owner T).
  { intros T2 HT2. simplify_eq. unfold awaiting. rewrite Hpc. tauto. }
  destruct (try_step (top T) ts (obj σ)) as [ts'|r x ws|] eqn:Hstep.
  - intros [= <-]. exists ps. apply step_free; [done|done|cbn; rewrite (size_update σ t T _ HT); apply (i_size _ _ I)| |].
    + cbn. intros [_ Hb]%andb_true_iff. by b2p.
    + intros s. rewrite Hw. intros [Hs Hb]%andb_true_iff. unfold wokenb. cbn. rewrite lookup_insert_eq. cbn.
      rewrite Hs, Hb. cbn. destruct (sees (top T) ts') eqn:Hse; [right|by left].
      apply bool_decide_eq_true in Hs.
      destruct (law_next _ _ _ _ _ Hs Hstep Hse) as [Hx|]; [by rewrite (Hsees Hb) in Hx|done].
  - intros [= <-]. exists ps. by eapply step_done.
  - destruct (op_side (top T)) as [s|] eqn:Ho; cycle 1.
    { intros [= <-]. exists ps. apply step_free; [done|done|cbn; rewrite (size_update σ t T _ HT); apply (i_size _ _ I)|done|].
      intros s. rewrite Hw. by rewrite bool_decide_eq_false_2. }
    rewrite lists_pair. intros [= <-]. exists ps. unfold goto. eapply step_node; try done.
    + apply wl_rep_alloc; [apply (Hn s)|apply (i_rep _ _ I)].
    + intros u Hne. cbn. by rewrite lookup_insert_ne.
    + unfold task_inv. cbn. rewrite lookup_insert_eq. cbn. exists s, Waiter_new.
      change (node (set_task _ _ ?x)) with (node x). split; [done|]. rewrite node_upd, decide_True by done.
      split; [cbn; by rewrite lookup_insert_eq|]. split; [|done].
      intros s' Hs'. change (node (set_task _ _ ?x)) with (node x). by rewrite node_upd, decide_False.
    + intros s'. rewrite Hw. intros [Hs Hb]%andb_true_iff. right. apply bool_decide_eq_true in Hs.
      assert (s' = s) as -> by congruence.
      destruct (law_fail _ _ _ _ Ho Hstep) as [Hx|]; [by rewrite (Hsees Hb) in Hx|done].
Qed.
End steps.
End WaitProtocolSteps.
