(* ===== verification/WaitProtocolNotify.v ===== *)
(** The wakes of the waiting protocol preserve its invariant: a wake turns the
    oldest waiters into woken coroutines, one for each unit it carries. *)

From S2P Require Import Prelude WaitList WaitListCorrect WaitProtocol WaitProtocolInv WaitProtocolSteps.

Module WaitProtocolNotify.
Import WaitList WaitListCorrect WaitProtocol WaitProtocolInv WaitProtocolSteps.

Section notify.
Context {X : Type} `{!Waitable X} `{!WaitableLaws X}.
Implicit Types (σ : @St X _) (s : side) (t u : ptr) (T : @Task X _) (w : Waiter).

(** * The pool *)

Lemma dues_delete (p : list (@pending X _)) i e s :
  p !! i = Some e → sum_list_with (due s) p = (due s e + sum_list_with (due s) (delete i p))%nat.
Proof.
  revert i. induction p as [|e' p IH]; intros [|i] Hi; try done; cbn in Hi; [by simplify_eq|].
  change (delete (S i) (e' :: p)) with (e' :: delete i p). cbn [sum_list_with]. rewrite (IH i Hi). lia.
Qed.

Lemma elem_delete {A} (p : list A) i e x : p !! i = Some e → x ∈ p → x = e ∨ x ∈ delete i p.
Proof. intros Hi. rewrite (delete_Permutation p i e Hi) at 1. by rewrite elem_of_cons. Qed.

Lemma dues_flag (p : list (@pending X _)) i e b s :
  p !! i = Some e → sum_list_with (due s) (<[i := (e.1, b)]> p) = sum_list_with (due s) p.
Proof.
  revert i. induction p as [|e' p IH]; intros [|i] Hi; try done; cbn in Hi; [by simplify_eq|].
  cbn. by rewrite IH.
Qed.

(** A change of the pool alone. *)
Lemma step_pool σ ps p' :
  inv_with σ ps →
  (∀ s, waits σ ps s 1 → sum_list_with (due s) p' = dues σ s ∧ (due_all σ s → ∃ b, (s, WakeAll, b) ∈ p')) →
  inv_with {| σ with pool := p' |} ps.
Proof.
  intros I Hp. split; try apply I.
  intros s. destruct (i_wakes _ _ I s) as [W1 W2]. unfold winv.
  change (waits {| σ with pool := p' |} ps s) with (waits σ ps s).
  change (wokens {| σ with pool := p' |} s) with (wokens σ s).
  assert (H21 : waits σ ps s 2 → waits σ ps s 1).
  { intros (t & T & ? & ? & ?). exists t, T. split; [done|]. split; [done|lia]. }
  split.
  - intros Hw. destruct (Hp s Hw) as [Hd Ha]. cbn. unfold dues, due_all at 1. cbn. rewrite Hd.
    destruct (W1 Hw) as [|[|]]; [by left|right; left; by apply Ha|by right; right].
  - intros Hw Hop. destruct (Hp s (H21 Hw)) as [Hd Ha]. apply Ha. by apply W2.
Qed.

(** * Firing *)

Lemma all_unclaimed σ ps s p :
  inv_with σ ps → p ∈ ps s →
  live (mem_of σ s) p = true ∧ word_of (mem_of σ s) p = Some (OwnOf p) ∧ index_of (mem_of σ s) p = 0 ∧
  claimable (mem_of σ s) p ∧
  ∃ T, tasks σ !! p = Some T ∧ resumption (mem_of σ s) p = (Some p, owner T).
Proof.
  intros I Hp. destruct (inv_in_list σ ps s p I Hp) as (T & w & HT & Ho & Hn & Ha & (Hh & Hwi & Hi & Ht) & Hown & Hq).
  unfold node in Hn.
  assert (Hwo : word_of (mem_of σ s) p = Some (OwnOf p)) by (unfold word_of; by rewrite Hn).
  assert (Hld : load_word (OwnOf p) (mem_of σ s) = Done (-1)) by (cbn; rewrite Hn; cbn; by rewrite Hown).
  split; [unfold live; by rewrite Hwo, Hld|]. split; [done|].
  split; [unfold index_of; by rewrite Hn|]. split; [by exists (OwnOf p), (-1)|].
  exists T. split; [done|]. unfold resumption. rewrite Hn. congruence.
Qed.

Lemma wake_prefix_take lv k ps : (∀ p, p ∈ ps → lv p = true) → wake_prefix lv k ps = take k ps.
Proof.
  revert k. induction ps as [|p ps IH]; intros [|k] H; try done. cbn. rewrite H by set_solver.
  f_equal. apply IH. set_solver.
Qed.

Lemma fired_all m ps : (∀ p, p ∈ ps → live m p = true) → fired m ps = ps.
Proof.
  intros H. unfold fired. induction ps as [|p ps IH]; [done|].
  rewrite filter_cons_True by (apply H; set_solver). f_equal. apply IH. set_solver.
Qed.

Definition handed σ s (taken : list ptr) : list (option handle * Z) := resumption (mem_of σ s) <$> taken.

Lemma run_wake_woke σ ps s k :
  inv_with σ ps →
  ∃ taken rest, ps s = taken ++ rest ∧
    woke (list_of σ s) (mem_of σ s) (runq σ) taken rest
      (run_wake k (list_of σ s) (mem_of σ s) (runq σ)) ∧
    match k with WakeN n => rest = [] ∨ length taken = Z.to_nat n | WakeAll => rest = [] end.
Proof.
  intros I. assert (R := i_rep _ _ I s).
  assert (C : Forall (claimable (mem_of σ s)) (ps s))
    by (apply Forall_forall; intros p Hp; by apply (all_unclaimed σ ps s p I Hp)).
  assert (Hnd : NoDup (word_of (mem_of σ s) <$> ps s)).
  { apply NoDup_fmap_2_strong; [|by destruct R].
    intros x y Hx Hy. destruct (all_unclaimed σ ps s x I Hx) as (_ & -> & _).
    destruct (all_unclaimed σ ps s y I Hy) as (_ & -> & _). congruence. }
  assert (Hf : (length (ps s) < S (Z.to_nat (count_ (list_of σ s))))%nat).
  { destruct R as (_ & _ & _ & _ & -> & _). lia. }
  unfold run_wake. destruct k as [n|].
  - exists (take (Z.to_nat n) (ps s)), (drop (Z.to_nat n) (ps s)). split; [by rewrite take_drop|]. split.
    + assert (H := wake_loop_woke _ n _ _ _ (runq σ) R C Hnd Hf).
      rewrite wake_prefix_take in H by (intros p Hp; by apply (all_unclaimed σ ps s p I Hp)).
      rewrite length_take in H. destruct (decide (Z.to_nat n <= length (ps s))%nat).
      * by rewrite Nat.min_l in H by lia.
      * rewrite Nat.min_r in H by lia. rewrite (drop_ge (ps s) (length (ps s))) in H by lia.
        by rewrite (drop_ge (ps s) (Z.to_nat n)) by lia.
    + rewrite length_take. destruct (decide (Z.to_nat n <= length (ps s))%nat); [right; lia|left].
      by rewrite drop_ge by lia.
  - exists (ps s), []. split; [by rewrite app_nil_r|]. split; [by apply wake_all_woke|done].
Qed.

(** What a wake leaves in the nodes. *)
Lemma woke_nodes σ ps s taken rest res :
  inv_with σ ps → ps s = taken ++ rest →
  woke (list_of σ s) (mem_of σ s) (runq σ) taken rest res →
  ∃ l' m', res = Done (l', m', runq σ ++ handed σ s taken) ∧ wl_rep l' m' rest ∧
    (∀ u w, u ∈ taken → node σ s u = Some w → ∃ w', nodes m' !! u = Some w' ∧ static w' = static w ∧ own w' = 0) ∧
    (∀ u, u ∉ taken → payload <$> nodes m' !! u = payload <$> node σ s u).
Proof.
  intros I Eps (l' & m' & -> & R & S & Hb).
  assert (Hin : ∀ p, p ∈ taken → p ∈ ps s) by (rewrite Eps; set_solver).
  rewrite fired_all in * by (intros p Hp; by apply (all_unclaimed σ ps s p I (Hin p Hp))).
  exists l', m'. split; [done|]. split; [done|].
  assert (Hs : ∀ u, static <$> nodes m' !! u = static <$> node σ s u)
    by (intros u; by apply same_static_lookup).
  split.
  - intros u w Hu Hn. assert (E := Hs u). rewrite Hn in E.
    destruct (nodes m' !! u) as [w'|] eqn:Hw'; [|done]. exists w'. split; [done|].
    split; [cbn in E; congruence|]. assert (Hl := Hb (OwnOf u)). cbn in Hl. rewrite Hw' in Hl. cbn in Hl.
    destruct (list_find _ taken) as [[j q]|] eqn:Ef.
    + apply list_find_Some in Ef as (Hj & Hq & _).
      assert (Hqt : q ∈ taken) by (by eapply list_elem_of_lookup_2).
      destruct (all_unclaimed σ ps s q I (Hin q Hqt)) as (_ & Ew & Ei & _).
      rewrite Ei in Hl. congruence.
    + apply list_find_None in Ef. rewrite Forall_forall in Ef. destruct (Ef u Hu).
      by apply (all_unclaimed σ ps s u I (Hin u Hu)).
  - intros u Hu. assert (E := Hs u). destruct (node σ s u) as [w|] eqn:Hn, (nodes m' !! u) as [w'|] eqn:Hw'; try done.
    assert (Hl := Hb (OwnOf u)). cbn in Hl. rewrite Hw' in Hl. unfold node in Hn. rewrite Hn in Hl. cbn in Hl.
    destruct (list_find _ taken) as [[j q]|] eqn:Ef.
    + apply list_find_Some in Ef as (Hj & Hq & _).
      assert (Hqt : q ∈ taken) by (by eapply list_elem_of_lookup_2).
      destruct (all_unclaimed σ ps s q I (Hin q Hqt)) as (_ & Ew & _). congruence.
    + cbn in E |- *. unfold static in E. unfold payload. congruence.
Qed.

Lemma handed_fst σ ps s taken :
  inv_with σ ps → (∀ p, p ∈ taken → p ∈ ps s) → (handed σ s taken).*1 = Some <$> taken.
Proof.
  intros I Hin. unfold handed. induction taken as [|p tk IH]; [done|]. cbn.
  destruct (all_unclaimed σ ps s p I) as (_ & _ & _ & _ & T & _ & E); [apply Hin; set_solver|].
  rewrite E. cbn. f_equal. apply IH. set_solver.
Qed.

Section fire.
Context σ ps s taken rest (l' : WaitList) (m' : mem) (I : inv_with σ ps) (Eps : ps s = taken ++ rest).
Context (R' : wl_rep l' m' rest)
  (Htk : ∀ u w, u ∈ taken → node σ s u = Some w →
           ∃ w', nodes m' !! u = Some w' ∧ static w' = static w ∧ own w' = 0)
  (Hrest : ∀ u, u ∉ taken → payload <$> nodes m' !! u = payload <$> node σ s u).
Context (p' : list (@pending X _)).

Let σ' : @St X _ := mkSt (obj σ) (upd_list s (l', m') (lists σ)) (tasks σ) p' (runq σ ++ handed σ s taken).
Let ps' : side → list ptr := λ s', if decide (s' = s) then rest else ps s'.

Lemma fire_node s' u : node σ' s' u = if decide (s' = s) then nodes m' !! u else node σ s' u.
Proof. apply (node_upd σ). Qed.

Lemma fire_in u : u ∈ taken → u ∈ ps s.
Proof. rewrite Eps. set_solver. Qed.

Lemma fire_nodup : NoDup taken ∧ ∀ u, u ∈ taken → u ∉ rest.
Proof.
  destruct (i_rep _ _ I s) as [Hnd _]. rewrite Eps in Hnd. apply NoDup_app in Hnd as (? & ? & ?). done.
Qed.

Lemma fire_elsewhere s' u : u ∈ taken → s' ≠ s → u ∉ ps s'.
Proof.
  intros Hu Hne Hin. destruct (inv_in_list σ ps s u I (fire_in u Hu)) as (T & _ & HT & Ho & _).
  destruct (inv_in_list σ ps s' u I Hin) as (T2 & _ & HT2 & Ho2 & _). congruence.
Qed.

Lemma fire_queued u : queued σ' u ↔ queued σ u ∨ u ∈ taken.
Proof.
  unfold queued. cbn. rewrite fmap_app, elem_of_app, (handed_fst σ ps s) by (done || apply fire_in).
  split; (intros [?|H]; [by left|right]).
  - by apply list_elem_of_fmap in H as (y & [= ->] & ?).
  - apply list_elem_of_fmap. by exists u.
Qed.

Lemma fire_task u : task_inv σ' ps' u.
Proof.
  destruct (decide (u ∈ taken)) as [Hu|Hu].
  - destruct (inv_in_list σ ps s u I (fire_in u Hu)) as (T & w & HT & Ho & Hn & Ha & Hset & Hown & Hq).
    destruct (task_inv_awaiting σ ps u T (i_task _ _ I u) HT Ha) as (s0 & w0 & Ho0 & Hn0 & Hoth & Hok).
    assert (s0 = s) as -> by congruence. assert (w0 = w) as -> by congruence.
    destruct (Htk u w Hu Hn) as (w' & Hw' & Est & Eown).
    assert (Hset' : set_up u T w') by (unfold set_up, static in *; injection Est as -> -> -> ->; done).
    assert (Hnl : u ∉ ps' s) by (unfold ps'; rewrite decide_True by done; by apply fire_nodup).
    assert (Hq' : queued σ' u) by (apply fire_queued; by right).
    unfold task_inv. change (tasks σ') with (tasks σ). rewrite HT.
    assert (HE : node_ok u T w' (u ∈ ps' s) (queued σ' u) →
      ∃ s w, op_side (top T) = Some s ∧ node σ' s u = Some w ∧ (∀ s', s' ≠ s → node σ' s' u = None) ∧
             node_ok u T w (u ∈ ps' s) (queued σ' u)).
    { intros Hok'. exists s, w'. split; [done|]. rewrite fire_node, decide_True by done. split; [done|].
      split; [|done]. intros s' Hs'. rewrite fire_node, decide_False by done. by apply Hoth. }
    assert (Hins := fire_in u Hu). unfold awaiting in Ha. unfold node_ok in Hok, HE |- *.
    destruct (tpc T) as [| | | | | | | | |[]|]; try done; try (by destruct Hok as [Hx _]);
      apply HE; (split; [done|]); right; auto.
  - apply (task_inv_frame σ σ' ps ps' u); [done| | | |apply (i_task _ _ I u)].
    + intros s'. rewrite fire_node. case_decide; [subst; by apply Hrest|done].
    + intros s'. unfold ps'. case_decide; [subst|done]. rewrite Eps, elem_of_app. naive_solver.
    + rewrite fire_queued. naive_solver.
Qed.

Lemma fire_woken_other s' u : u ∉ taken ∨ s' ≠ s → wokenb σ' s' u = wokenb σ s' u.
Proof.
  intros Hu. destruct (decide (s' = s)) as [->|Hne].
  - apply wokenb_frame; [done|]. rewrite fire_node, decide_True by done. apply Hrest. naive_solver.
  - apply wokenb_frame; [done|]. by rewrite fire_node, decide_False.
Qed.

Lemma fire_wokens : wokens σ' s = (wokens σ s + length taken)%nat.
Proof.
  apply wokens_fire; [apply fire_nodup| |].
  - intros t Ht. destruct (inv_in_list σ ps s t I (fire_in t Ht)) as (T & w & HT & Ho & Hn & Ha & _ & Hown & _).
    destruct (Htk t w Ht Hn) as (w' & Hw' & _ & Eown). unfold wokenb. change (tasks σ') with (tasks σ).
    rewrite HT, Hn, fire_node, decide_True, Hw', Hown, Eown by done.
    rewrite bool_decide_eq_true_2 by done. unfold awaiting in Ha. by destruct (tpc T).
  - intros u Hu. apply fire_woken_other. by left.
Qed.

Lemma step_fire :
  (rest ≠ [] → (length taken + sum_list_with (due s) p' = dues σ s)%nat ∧
               (due_all σ s → ∃ b, (s, WakeAll, b) ∈ p')) →
  (∀ s', s' ≠ s → sum_list_with (due s') p' = dues σ s' ∧ (due_all σ s' → ∃ b, (s', WakeAll, b) ∈ p')) →
  inv_with σ' ps'.
Proof.
  intros Hs Hoth. split.
  - intros s'. unfold list_of, mem_of, σ', ps', upd_list. cbn.
    case_decide; [by subst|]. apply (i_rep _ _ I s').
  - apply fire_task.
  - cbn. rewrite fmap_app, (handed_fst σ ps s) by (done || apply fire_in). apply NoDup_app.
    split; [apply (i_runq _ _ I)|]. split.
    + intros o Ho (u & -> & Hu)%list_elem_of_fmap.
      destruct (inv_in_list σ ps s u I (fire_in u Hu)) as (? & ? & _ & _ & _ & _ & _ & _ & Hq). by apply Hq.
    + apply NoDup_fmap_2; [by intros ?? [= ->]|]. apply fire_nodup.
  - intros o z. cbn. rewrite elem_of_app. intros [Hoz|Hoz]; [by apply (i_runq_task _ _ I)|].
    apply list_elem_of_fmap in Hoz as (u & E & Hu).
    destruct (all_unclaimed σ ps s u I (fire_in u Hu)) as (_ & _ & _ & _ & T & HT & E2).
    exists u, T. rewrite E2 in E. by injection E as -> ->.
  - apply (i_size _ _ I).
  - intros s'. destruct (i_wakes _ _ I s') as [W1 W2].
    assert (HW : ∀ k, waits σ' ps' s' k → waits σ ps s' k ∧ (s' = s → rest ≠ [])).
    { intros k (u & U & Hin & HU & Hk). unfold ps' in Hin. split.
      - exists u, U. case_decide; [subst|done]. rewrite Eps. set_solver.
      - intros ->. rewrite decide_True in Hin by done. by destruct rest; [set_solver|]. }
    assert (Hcnt : (s' = s → rest ≠ []) → (wokens σ' s' + dues σ' s' = wokens σ s' + dues σ s')%nat ∧
                   (due_all σ s' → due_all σ' s')).
    { intros Hr. destruct (decide (s' = s)) as [->|Hne].
      - destruct (Hs (Hr eq_refl)) as [Hd Ha]. rewrite fire_wokens. unfold dues at 1. cbn. split; [lia|done].
      - destruct (Hoth s' Hne) as [Hd Ha]. split; [|done].
        assert (wokens σ' s' = wokens σ s') as ->.
        { unfold wokens. f_equal. apply set_eq. intros u. rewrite !woken_in, fire_woken_other; [done|by right]. }
        unfold dues at 1. cbn. lia. }
    split.
    + intros [Hk Hr]%HW. destruct (Hcnt Hr) as [Hc Ha]. change (obj σ') with (obj σ).
      destruct (W1 Hk) as [|[|]]; [by left|right; left; by apply Ha|right; right; lia].
    + intros [Hk Hr]%HW Hop. destruct (Hcnt Hr) as [_ Ha]. apply Ha. by apply W2.
Qed.
End fire.

Lemma notify_ok σ ps i e :
  inv_with σ ps → pool σ !! i = Some e → ∃ σ', notify_step i e σ = Done σ' ∧ inv σ'.
Proof.
  intros I Hi. destruct e as [[s k] seen]. unfold notify_step. rewrite lists_pair. destruct seen.
  - destruct (run_wake_woke σ ps s k I) as (taken & rest & Eps & Hw & Hk).
    destruct (woke_nodes σ ps s taken rest _ I Eps Hw) as (l' & m' & -> & R & Htk & Hrest). orun.
    eexists. split; [done|]. eexists.
    eapply (step_fire σ ps s taken rest l' m' I Eps R Htk Hrest (delete i (pool σ))).
    + intros Hne. unfold dues. rewrite (dues_delete (pool σ) i _ s Hi). destruct k as [n|]; [|done].
      destruct Hk as [|Hk]; [done|]. split.
      * unfold due, wake_amount. cbn. rewrite decide_True by done. lia.
      * intros [b Hb]. exists b. by destruct (elem_delete _ _ _ _ Hi Hb).
    + intros s' Hne. unfold dues. rewrite (dues_delete (pool σ) i _ s' Hi). split.
      * unfold due, wake_amount. cbn. destruct k; [|done]. by rewrite decide_False.
      * intros [b Hb]. exists b. destruct (elem_delete _ _ _ _ Hi Hb) as [E|]; [congruence|done].
  - destruct (empty_relaxed (list_of σ s)) eqn:He; (eexists; split; [done|]; exists ps; apply step_pool; [done|]);
      intros s' Hw.
    + assert (s' ≠ s).
      { intros ->. apply (wl_rep_empty _ _ _ (i_rep _ _ I s)) in He. destruct Hw as (t & T & Hin & _).
        rewrite He in Hin. set_solver. }
      unfold dues. rewrite (dues_delete (pool σ) i _ s' Hi). split.
      * unfold due, wake_amount. cbn. destruct k; [|done]. by rewrite decide_False.
      * intros [b Hb]. exists b. destruct (elem_delete _ _ _ _ Hi Hb) as [E|]; [congruence|done].
    + split; [by apply (dues_flag (pool σ) i (s, k, false) true s')|].
      intros [b [j Hj]%list_elem_of_lookup]. destruct (decide (i = j)) as [->|Hij].
      * exists true. pose proof (eq_trans (eq_sym Hj) Hi) as E.
        injection E as <- <- _. apply list_elem_of_lookup. exists j.
        apply list_lookup_insert_eq. by eapply lookup_lt_Some.
      * exists b. apply list_elem_of_lookup. exists j. by rewrite list_lookup_insert_ne.
Qed.
End notify.
End WaitProtocolNotify.
