(* ===== verification/WaitProtocolCorrect.v ===== *)
(** The waiting protocol is safe and loses no wake: the invariant holds in every
    reachable state of every primitive that satisfies the laws. *)

From S2P Require Import Prelude WaitList WaitListCorrect WaitProtocol WaitProtocolInv.
From S2P Require Import WaitProtocolSteps WaitProtocolNotify.

Module WaitProtocolCorrect.
Import WaitList WaitListCorrect WaitProtocol WaitProtocolInv WaitProtocolSteps WaitProtocolNotify.

Section correct.
Context {X : Type} `{!Waitable X} `{!WaitableLaws X}.
Implicit Types (σ : @St X _) (s : side) (t u : ptr) (T : @Task X _) (w : Waiter).

(** * Resumption *)

Lemma queued_delete σ i t z u :
  runq σ !! i = Some (Some t, z) → NoDup (runq σ).*1 →
  (Some u ∈ (delete i (runq σ)).*1 ↔ u ≠ t ∧ queued σ u) ∧ NoDup (delete i (runq σ)).*1.
Proof.
  intros Hi Hnd. unfold queued.
  assert (P : (runq σ).*1 ≡ₚ Some t :: (delete i (runq σ)).*1).
  { change (Some t :: ?l) with ((Some t, z).1 :: l). rewrite <- fmap_cons. by apply fmap_Permutation, delete_Permutation. }
  rewrite P in Hnd |- *. apply NoDup_cons in Hnd as [Hx Hnd].
  split; [|done]. rewrite elem_of_cons. split.
  - intros Hu. split; [|by right]. intros ->. done.
  - intros [Hne [[= ->]|Hu]]; done.
Qed.

Lemma resume_ok σ ps i t z T :
  inv_with σ ps → runq σ !! i = Some (Some t, z) → tasks σ !! t = Some T → tpc T = PSusp →
  inv_with {| (set_task t (on_loop_resume {| T with tpc := PResume false |}) σ)
              with runq := delete i (runq σ) |} ps.
Proof.
  intros I Hi HT Hpc. set (T' := on_loop_resume _).
  assert (Haw : awaiting T) by (unfold awaiting; by rewrite Hpc).
  destruct (task_inv_awaiting σ ps t T (i_task _ _ I t) HT Haw) as (s & w & Ho & Hn & Hoth & Hok).
  unfold node_ok in Hok. rewrite Hpc in Hok.
  assert (Hq : queued σ t) by (apply (queued_resume σ t z); by eapply list_elem_of_lookup_2).
  destruct Hok as [Hset [(_ & _ & ? & _)|(Hnl & Hown & _)]]; [done|].
  destruct (queued_delete σ i t z t Hi (i_runq _ _ I)) as [Hqt Hnd].
  eapply step_one with (ps := ps) (t := t) (T' := T'); try done.
  - cbn. rewrite (size_update σ t T T' HT). apply (i_size _ _ I).
  - apply (i_rep _ _ I).
  - intros u Hne. unfold queued at 1. cbn.
    rewrite (proj1 (queued_delete σ i t z u Hi (i_runq _ _ I))). naive_solver.
  - intros o z' Hoz. left. cbn in Hoz. apply (list_elem_of_lookup_1) in Hoz as [j Hj].
    rewrite list_lookup_delete in Hj. by eapply list_elem_of_lookup_2.
  - intros T2 HT2. simplify_eq. done.
  - unfold task_inv. cbn. rewrite lookup_insert_eq. cbn. exists s, w. do 3 (split; [done|]).
    unfold node_ok. cbn. split; [done|]. split; [|done]. unfold queued. cbn. naive_solver.
  - intros s' _ Hk. cbn in Hk. lia.
  - intros s' _ Hk. cbn in Hk. lia.
  - intros s' Hw. left. unfold wokenb in *. cbn. rewrite lookup_insert_eq. cbn. by rewrite HT, Hpc in Hw.
Qed.

(** * Cancellation *)

Lemma cancel_ok σ ps t T :
  inv_with σ ps → tasks σ !! t = Some T →
  inv_with (set_task t {| T with cancel_requested := true; kick := true |} σ) ps.
Proof.
  intros I HT. set (T' := {| T with cancel_requested := true; kick := true |}).
  destruct (decide (match tpc T with PTry _ _ | PRet _ => true | _ => false end = true)) as [Hf|Hf].
  - assert (Hti := i_task _ _ I t). unfold task_inv in Hti. rewrite HT in Hti. apply step_free; [done| | | |].
    + intros T2 HT2. simplify_eq. unfold awaiting. split; [|done]. intros Hx; by destruct (tpc T).
    + rewrite (size_update σ t T T' HT). apply (i_size _ _ I).
    + cbn. destruct (tpc T); naive_solver.
    + intros s Hw. left. unfold wokenb in *. cbn. rewrite lookup_insert_eq. cbn. by rewrite HT in Hw.
  - eapply step_pc; try done.
    + unfold awaiting. by destruct (tpc T).
    + unfold awaiting. cbn. by destruct (tpc T).
    + intros s w _ _. unfold node_ok, set_up. cbn. destruct (tpc T) as [| | | | | | | | |[]|]; naive_solver.
    + intros s _ Hk. by left.
    + intros s _ Hk. by left.
Qed.

Lemma detach_set_task σ s t T b σ1 :
  detach s t σ = Done (b, σ1) → detach s t (set_task t T σ) = Done (b, set_task t T σ1).
Proof.
  unfold detach. cbn. destruct (lists σ s) as [l m]. destruct (remove t l m) as [[[b' l'] m']| |]; orun; [|done..].
  by intros [= <- <-].
Qed.

(** The cancel hook on a coroutine still in its list: off the list, marked, queued. *)
Lemma on_cancel_claims σ ps s t T w σ1 :
  inv_with σ ps → tasks σ !! t = Some T → tpc T = PSusp → op_side (top T) = Some s →
  node σ s t = Some w → t ∈ ps s →
  tasks σ1 = tasks σ → obj σ1 = obj σ → pool σ1 = pool σ → runq σ1 = runq σ →
  (∀ s', wl_rep (list_of σ1 s') (mem_of σ1 s') (without ps s t s')) →
  (∀ s' u, payload <$> node σ1 s' u = payload <$> node σ s' u) →
  let T' := {| T with hook := false; kick := false |} in
  ∃ m', store_word (OwnOf t) kCancelledIndex (mem_of σ1 s) = Done m' ∧
    inv_with {| (set_list s (list_of σ1 s, m') (set_task t T' σ1))
                with runq := resume_on (Some t) (owner T') (runq σ1) |} (without ps s t).
Proof.
  intros I HT Hpc Ho Hn Hin ET Eo Ep Er Hrep Hpay T'.
  destruct (inv_in_list σ ps s t I Hin) as (T2 & w2 & HT2 & _ & Hn2 & _ & Hset & Hown & Hq). simplify_eq.
  assert (E := Hpay s t). rewrite Hn in E. destruct (node σ1 s t) as [w1|] eqn:Hn1; [|done]. cbn in E.
  assert (E' : payload w1 = payload w) by congruence. clear E.
  unfold store_word. unfold node in Hn1. rewrite Hn1. orun. eexists. split; [done|].
  set (w' := {| w1 with own := kCancelledIndex |}). set (σ' := {| _ with runq := _ |}).
  assert (Hother : ∀ s', s' ≠ s → node σ s' t = None).
  { destruct (task_inv_awaiting σ ps t T (i_task _ _ I t) HT) as (s0 & w0 & Ho0 & _ & Hoth & _);
      [unfold awaiting; by rewrite Hpc|]. assert (s0 = s) as -> by congruence. done. }
  assert (Hnode : ∀ s' u, node σ' s' u = if decide (s' = s) then nodes (set_node t w' (mem_of σ1 s)) !! u
                                         else node σ1 s' u)
    by (intros s' u; apply (node_upd σ1)).
  assert (Hnl : ∀ s', t ∉ without ps s t s').
  { intros s' [Hin' Hne]%elem_without. destruct (inv_in_list σ ps s' t I Hin') as (T2 & _ & HT2' & Ho2 & _).
    simplify_eq. by apply Hne. }
  eapply step_one with (ps := ps) (t := t) (T' := T'); try done.
  - cbn. by rewrite ET.
  - cbn. rewrite ET, (size_update σ t T T' HT). apply (i_size _ _ I).
  - intros s'. unfold list_of, mem_of, σ', set_list, upd_list. cbn. case_decide; [subst; cbn|apply Hrep].
    eapply wl_rep_same_links; [|apply Hrep]. by eapply same_links_set.
  - intros s' u Hne. split; [rewrite elem_without; naive_solver|].
    rewrite Hnode. case_decide; [subst s'; cbn|apply Hpay]. rewrite lookup_insert_ne by done. apply Hpay.
  - cbn. unfold resume_on. rewrite Er, fmap_app. apply NoDup_app. split; [apply (i_runq _ _ I)|].
    split; [|apply NoDup_singleton]. intros o Ho' ->%list_elem_of_singleton. done.
  - intros u Hne. unfold queued. cbn. unfold resume_on. rewrite Er, fmap_app, elem_of_app. cbn.
    rewrite list_elem_of_singleton. naive_solver.
  - intros o z. cbn. unfold resume_on. rewrite Er, elem_of_app, list_elem_of_singleton. naive_solver.
  - intros T2 HT2'. simplify_eq. done.
  - unfold task_inv. change (tasks σ') with (<[t := T']> (tasks σ1)). rewrite lookup_insert_eq. cbn. rewrite Hpc.
    exists s, w'. split; [done|]. rewrite Hnode, decide_True by done. cbn. split; [by rewrite lookup_insert_eq|].
    split; [intros s' Hs'; rewrite Hnode, decide_False by done; eapply node_frame_None; [apply Hpay|by apply Hother]|].
    unfold node_ok. cbn. rewrite Hpc. split.
    { unfold set_up in *. unfold payload in E'. cbn. injection E' as -> -> _ -> ->. done. }
    right. split; [apply Hnl|]. split; [by right|]. unfold queued. cbn. unfold resume_on.
    rewrite fmap_app. set_solver.
  - intros s' Hin'. by apply Hnl in Hin'.
  - intros s' Hin'. by apply Hnl in Hin'.
  - intros s' Hw. unfold wokenb in Hw. rewrite HT, Hpc in Hw. apply andb_true_iff in Hw as [Hs Hw].
    apply bool_decide_eq_true in Hs. assert (s' = s) as -> by congruence. rewrite Hn in Hw. b2p. lia.
Qed.

Lemma kick_ok σ ps t T :
  inv_with σ ps → tasks σ !! t = Some T → tpc T = PSusp →
  ∃ σ', run_cancel_hook t T σ = Done σ' ∧ inv σ'.
Proof.
  intros I HT Hpc.
  assert (Haw : awaiting T) by (unfold awaiting; by rewrite Hpc).
  destruct (task_inv_awaiting σ ps t T (i_task _ _ I t) HT Haw) as (s & w & Ho & Hn & Hoth & Hok).
  assert (Hok' := Hok). unfold node_ok in Hok'. rewrite Hpc in Hok'.
  unfold run_cancel_hook. cbn. rewrite Ho. set (T' := {| T with hook := false; kick := false |}).
  destruct (hook T) eqn:Hh; cycle 1.
  - eexists. split; [done|]. exists ps. eapply step_pc; try done; [|by left..].
    intros s' w' Hs' Hw'. assert (s' = s) as -> by congruence. assert (w' = w) as -> by congruence.
    intros _. unfold node_ok, set_up in *. cbn. rewrite Hpc. naive_solver.
  - unfold on_cancel. destruct (detach_ok σ ps s t w (i_rep _ _ I) Hn)
      as (σ1 & Hd & ET & Eo & Ep & Er & Hrep & Hpay).
    rewrite (detach_set_task σ s t T' _ σ1 Hd). orun. case_bool_decide as Hin.
    + rewrite (lists_pair (set_task t T' σ1) s).
      change (mem_of (set_task t T' σ1) s) with (mem_of σ1 s).
      change (list_of (set_task t T' σ1) s) with (list_of σ1 s).
      destruct (on_cancel_claims σ ps s t T w σ1 I HT Hpc Ho Hn Hin ET Eo Ep Er Hrep Hpay) as (m' & -> & I').
      orun. eexists. split; [done|]. by exists (without ps s t).
    + eexists. split; [done|]. exists (without ps s t). eapply step_detach; try done.
      intros w' Ew. unfold node_ok, set_up in *. cbn. rewrite Hpc.
      unfold payload in Ew. injection Ew as -> -> -> -> ->. naive_solver.
Qed.

(** * The whole machine *)

Lemma begin_ok σ ps t o z :
  inv_with σ ps → Z.of_nat (size (tasks σ)) <= 2 ^ 32 - 3 → tasks σ !! t = None →
  inv_with (set_task t (mkTask o (PTry (t0 o) false) z false false false) σ) ps.
Proof.
  intros I Hsz HT. apply step_free; [done| | |done|].
  - intros T2 HT2. congruence.
  - rewrite map_size_insert, HT. lia.
  - intros s Hw. unfold wokenb in Hw. by rewrite HT in Hw.
Qed.

Lemma rebegin_ok σ ps t o T r :
  inv_with σ ps → tasks σ !! t = Some T → tpc T = PRet r →
  inv_with (set_task t {| T with top := o; tpc := PTry (t0 o) false |} σ) ps.
Proof.
  intros I HT Hpc. apply step_free; [done| | |done|].
  - intros T2 HT2. simplify_eq. unfold awaiting. rewrite Hpc. tauto.
  - rewrite (size_update σ t T _ HT). apply (i_size _ _ I).
  - intros s Hw. assert (Hti := i_task _ _ I t). unfold task_inv in Hti. rewrite HT, Hpc in Hti.
    unfold wokenb in Hw. rewrite HT, Hpc, (proj2 Hti s) in Hw. by destruct (bool_decide _).
Qed.

(** No step goes wrong, and every step preserves the invariant. *)
Lemma step_inv e σ :
  inv σ → ∃ o, step e σ = Done o ∧ ∀ σ', o = Some σ' → inv σ'.
Proof.
  intros [ps I]. destruct e as [t o z|t|i|i|t|t]; cbn.
  - destruct (Z.ltb_spec (2 ^ 32 - 3) (Z.of_nat (size (tasks σ)))); [by eexists|]. unfold idle.
    destruct (tasks σ !! t) as [T|] eqn:HT.
    + destruct (tpc T) eqn:Hpc; try by eexists. eexists. split; [done|]. intros σ' [= <-].
      exists ps. by eapply rebegin_ok.
    + eexists. split; [done|]. intros σ' [= <-]. exists ps. by eapply begin_ok.
  - destruct (tasks σ !! t) as [T|] eqn:HT; [|by eexists]. unfold task_step.
    destruct (tpc T) eqn:Hpc; try by eexists.
    1: { eexists. split; [done|]. intros σ' Hs. by eapply try_complete_ok. }
    8: { destruct (op_side (top T)) as [s|] eqn:Ho; [|by eexists].
         destruct (await_resume_ok σ ps s t T own_cancel I HT Ho Hpc) as (σ' & -> & I'). orun.
         eexists. split; [done|]. by intros ? [= <-]. }
    all: destruct (op_side (top T)) as [s|] eqn:Ho; [|by eexists];
      destruct (await_suspend_ok σ ps s t T I HT Ho) as (σ' & -> & I'); [by rewrite Hpc|];
      eexists; (split; [done|]); by intros ? [= <-].
  - destruct (pool σ !! i) as [e|] eqn:Hi; [|by eexists].
    destruct (notify_ok σ ps i e I Hi) as (σ' & -> & I'). orun. eexists. split; [done|]. by intros ? [= <-].
  - destruct (runq σ !! i) as [[[t|] z]|] eqn:Hi; try by eexists.
    destruct (tasks σ !! t) as [T|] eqn:HT; [|by eexists]. destruct (tpc T) eqn:Hpc; try by eexists.
    eexists. split; [done|]. intros σ' [= <-]. exists ps. by eapply resume_ok.
  - destruct (tasks σ !! t) as [T|] eqn:HT; [|by eexists]. eexists. split; [done|]. intros σ' [= <-].
    destruct (cancel_requested T); [by exists ps|]. exists ps. by apply cancel_ok.
  - destruct (tasks σ !! t) as [T|] eqn:HT; [|by eexists].
    destruct (kick T); [|by eexists]. destruct (tpc T) eqn:Hpc; try by eexists.
    destruct (kick_ok σ ps t T I HT Hpc) as (σ' & -> & I'). orun. eexists. split; [done|]. by intros ? [= <-].
Qed.

Lemma wp_inv_init x : inv (init x).
Proof.
  exists (λ _, []). split.
  - intros s. apply wl_rep_new.
  - intros t. unfold task_inv. cbn. rewrite lookup_empty. split; [|done]. unfold queued. cbn. set_solver.
  - constructor.
  - intros o z. cbn. set_solver.
  - done.
  - intros s. split; intros (t & T & Hin & _); set_solver.
Qed.

Lemma wp_reachable_inv x σ : rtc steps (init x) σ → inv σ.
Proof.
  intros Hr. eapply rtc_invariant; [|exact Hr|apply wp_inv_init].
  intros σ1 σ2 I [e He]. destruct (step_inv e σ1 I) as (o & Ho & Hi). apply Hi. congruence.
Qed.

(** Runs a hypothesis about a computation, branch by branch. *)
Ltac ocases H :=
  repeat (match type of H with
  | (mbind _ ?m) = _ => destruct m eqn:?; orun in H; [|discriminate H..]
  | (match ?x with _ => _ end) = _ => destruct x eqn:?; try discriminate H
  | Done (match ?x with _ => _ end) = _ => destruct x eqn:?; try discriminate H
  | Done (Some (match ?x with _ => _ end)) = _ => destruct x eqn:?; try discriminate H
  end); simplify_eq.

Lemma detach_obj s t σ b σ' : detach s t σ = Done (b, σ') → obj σ' = obj σ.
Proof. unfold detach. intros H. by ocases H. Qed.

Lemma await_suspend_obj s t T σ σ' : await_suspend_step s t T σ = Done (Some σ') → obj σ' = obj σ.
Proof.
  unfold await_suspend_step. intros H. ocases H; try done; cbn;
    match goal with Hd : detach _ _ _ = _ |- _ => by apply detach_obj in Hd end.
Qed.

Lemma await_resume_obj s t T oc σ σ' : await_resume_step s t T oc σ = Done σ' → obj σ' = obj σ.
Proof. unfold await_resume_step. intros H. by ocases H. Qed.

Lemma notify_obj i e σ σ' : notify_step i e σ = Done σ' → obj σ' = obj σ.
Proof. unfold notify_step. intros H. by ocases H. Qed.

Lemma run_cancel_hook_obj t T σ σ' : run_cancel_hook t T σ = Done σ' → obj σ' = obj σ.
Proof.
  unfold run_cancel_hook, on_cancel. intros H. ocases H; try done; cbn;
    match goal with Hd : detach _ _ _ = _ |- _ => by apply detach_obj in Hd end.
Qed.

(** A property of the primitive kept by every operation holds in every run. *)
Lemma reachable_obj (P : X → Prop) x σ :
  (∀ o ts y r y' ws, P y → contract o y = true → try_step o ts y = TDone r y' ws → P y') →
  P x → rtc steps (init x) σ → P (obj σ).
Proof.
  intros HP Hx Hr. eapply (rtc_invariant steps (λ σ, P (obj σ))); [|exact Hr|exact Hx].
  clear x σ Hx Hr. intros σ1 σ2 H1 [e He].
  assert (Hsame : obj σ2 = obj σ1 ∨ P (obj σ2)); [|destruct Hsame as [->|]; done].
  destruct e as [t o z|t|i|i|t|t]; cbn in He; try (left; ocases He; done).
  - destruct (tasks σ1 !! t) as [T|]; [|done]. unfold task_step in He.
    destruct (tpc T) eqn:Hpc; try done.
    1: { injection He as He. unfold try_complete_step in He. ocases He; try (by left).
         right. cbn. eapply HP; [done| |done]. by b2p. }
    all: left; destruct (op_side (top T)) as [s|]; [|done]; try by apply await_suspend_obj in He.
    ocases He. by eapply await_resume_obj.
  - left. ocases He. by eapply notify_obj.
  - left. ocases He. by eapply run_cancel_hook_obj.
Qed.

(** Nothing is on its way: no wake pending, nothing to resume, every coroutine
    suspended or back from its operation. *)
Definition settled σ : Prop :=
  pool σ = [] ∧ runq σ = [] ∧
  ∀ t T, tasks σ !! t = Some T → tpc T = PSusp ∨ ∃ r, tpc T = PRet r.

Lemma settled_wokens σ ps s : inv_with σ ps → settled σ → wokens σ s = O.
Proof.
  intros I (_ & Hrq & Hall). unfold wokens. apply size_empty_iff. intros t. rewrite woken_in.
  split; [|set_solver]. intros Hw. exfalso. assert (Hti := i_task _ _ I t). unfold wokenb in Hw. unfold task_inv in Hti.
  destruct (tasks σ !! t) as [T|] eqn:HT; [|done]. apply andb_true_iff in Hw as [Hs Hw].
  apply bool_decide_eq_true in Hs.
  destruct (Hall t T HT) as [Hpc|[r Hpc]]; rewrite Hpc in Hw, Hti.
  - destruct Hti as (s' & w & Ho & Hn & _ & Hok). assert (s' = s) as -> by congruence. rewrite Hn in Hw. b2p.
    unfold node_ok in Hok. rewrite Hpc in Hok. destruct Hok as [_ [(_ & ? & _)|(_ & _ & Hq)]]; [lia|].
    unfold queued in Hq. rewrite Hrq in Hq. cbn in Hq. set_solver.
  - destruct Hti as [_ Hn]. by rewrite Hn in Hw.
Qed.

(** Once everything has settled, a suspended coroutine cannot be served. *)
Lemma settled_unserved x σ t T s :
  rtc steps (init x) σ → settled σ →
  tasks σ !! t = Some T → tpc T = PSusp → op_side (top T) = Some s →
  avail s (obj σ) = O ∧ open_all s (obj σ) = false ∧ (kick T = false → cancel_requested T = false).
Proof.
  intros Hr Hset HT Hpc Ho. destruct (wp_reachable_inv x σ Hr) as [ps I].
  destruct (task_inv_awaiting σ ps t T (i_task _ _ I t) HT) as (s' & w & Ho' & Hn & _ & Hok);
    [unfold awaiting; by rewrite Hpc|]. assert (s' = s) as -> by congruence.
  assert (Hw := settled_wokens σ ps s I Hset). destruct Hset as (Hp & Hrq & _).
  unfold node_ok in Hok. rewrite Hpc in Hok.
  destruct Hok as [_ [(Hin & _ & _ & _ & Hk)|(_ & _ & Hq)]]; cycle 1.
  { unfold queued in Hq. rewrite Hrq in Hq. cbn in Hq. set_solver. }
  assert (W : waits σ ps s 1 ∧ waits σ ps s 2).
  { split; exists t, T; (split; [done|]); (split; [done|]); unfold stage; rewrite Hpc; lia. }
  destruct (i_wakes _ _ I s) as [W1 W2].
  assert (Hnd : ¬ due_all σ s) by (unfold due_all; rewrite Hp; intros [b Hb]; set_solver).
  assert (Hop : open_all s (obj σ) = false).
  { destruct (open_all s (obj σ)) eqn:E; [|done]. by destruct (Hnd (W2 (proj2 W) eq_refl)). }
  assert (Hd : dues σ s = O) by (unfold dues; by rewrite Hp).
  split; [|split; [done|]].
  - destruct (W1 (proj1 W)) as [?|[?|?]]; [congruence|done|lia].
  - intros Hkf. destruct (cancel_requested T); [|done]. by rewrite Hk in Hkf.
Qed.

Lemma suspended_side x σ t T :
  rtc steps (init x) σ → tasks σ !! t = Some T → tpc T = PSusp → ∃ s, op_side (top T) = Some s.
Proof.
  intros Hr HT Hpc. destruct (wp_reachable_inv x σ Hr) as [ps I].
  destruct (task_inv_awaiting σ ps t T (i_task _ _ I t) HT) as (s & w & Ho & _);
    [unfold awaiting; by rewrite Hpc|]. by exists s.
Qed.

(** C11: the waiting protocol never goes wrong. In every reachable state of every
    lawful primitive, no step of any coroutine, wake, resumption or cancellation
    runs into undefined behaviour or out of fuel; no coroutine is twice in the run
    queue; and a suspended coroutine is either linked in its primitive's wait list
    or queued for resumption, never both. *)
Theorem waiting_is_safe x σ :
  rtc steps (init x) σ →
  (∀ e, ∃ o, step e σ = Done o) ∧ NoDup (runq σ).*1 ∧
  (∀ t T, tasks σ !! t = Some T → tpc T = PSusp →
     ∃ s w, op_side (top T) = Some s ∧ node σ s t = Some w ∧
            ((in_list w = true ∧ ¬ queued σ t) ∨ (in_list w = false ∧ queued σ t))).
Proof.
  intros Hr. assert (Iσ := wp_reachable_inv x σ Hr). split.
  { intros e. destruct (step_inv e σ Iσ) as (o & Ho & _). by exists o. }
  destruct Iσ as [ps I]. split; [apply (i_runq _ _ I)|]. intros t T HT Hpc.
  destruct (task_inv_awaiting σ ps t T (i_task _ _ I t) HT) as (s & w & Ho & Hn & _ & Hok);
    [unfold awaiting; by rewrite Hpc|].
  exists s, w. split; [done|]. split; [done|].
  assert (Hi := rep_in_list _ _ _ (i_rep _ _ I s) t w Hn). unfold node_ok in Hok. rewrite Hpc in Hok.
  destruct (in_list w); destruct Hok as [_ [(? & _ & ? & _)|(? & _ & ?)]]; [by left| | |by right].
  - assert (t ∈ ps s) by (by apply Hi). done.
  - assert (false = true) by (by apply Hi). done.
Qed.

(** C2: no wake-up and no cancellation is lost. When everything has settled, a
    coroutine is still suspended in an operation only if the primitive cannot serve
    it ([avail] is zero and it is not open to all), and, once its cancel kick has
    been processed, only if its cancellation has not been requested. *)
Theorem no_lost_wakeup x σ t T s :
  rtc steps (init x) σ → settled σ →
  tasks σ !! t = Some T → tpc T = PSusp → op_side (top T) = Some s →
  avail s (obj σ) = O ∧ open_all s (obj σ) = false ∧ (kick T = false → cancel_requested T = false).
Proof. apply settled_unserved. Qed.
End correct.
End WaitProtocolCorrect.
