(* ===== verification/SyncPrimitives.v ===== *)
(** The primitives that wait through the protocol of [Wait.h]: AsyncSemaphore,
    AsyncEvent, WaitGroup, the cancellation token, AsyncChannel and
    AsyncUnboundedChannel.  Each operation is the sequence of its atomic accesses;
    each primitive is an instance of [Waitable]. *)

From S2P Require Import Prelude WaitList ConcurrentQueues WaitProtocol.

(** * AsyncSemaphore *)

Module Semaphore.
Import WaitProtocol.

(** [granted] and [released] are history: acquisitions so far, permits given back so
    far. *)
Record AsyncSemaphore := mkSemaphore { count_ : Z; granted : Z; released : Z }.

Definition AsyncSemaphore_new (initial : Z) : AsyncSemaphore := mkSemaphore initial 0 0.

Inductive sem_op :=
| Acquire
| TryAcquire
| Release (k : Z).

(** [try_acquire]: a load, then compare-exchanges with the value last seen. *)
Inductive sem_pos :=
| SStart
| SCas (c : Z).

Definition in_int32 (z : Z) : bool := (- 2 ^ 31 <=? z) && (z <? 2 ^ 31).

Definition try_acquire_step (p : sem_pos) (x : AsyncSemaphore) :
    try_res sem_pos bool AsyncSemaphore (unit * wake_kind) :=
  match p with
  | SStart => TNext (SCas (count_ x))
  | SCas c =>
      if c <=? 0 then TFail
      else if count_ x =? c then TDone true (mkSemaphore (c - 1) (granted x + 1) (released x)) []
      else TNext (SCas (count_ x))
  end.

Definition release (k : Z) (x : AsyncSemaphore) : try_res sem_pos bool AsyncSemaphore (unit * wake_kind) :=
  TDone true (mkSemaphore (signed 32 (count_ x + k)) (granted x) (released x + k)) [(tt, WakeN k)].

Definition sem_step (o : sem_op) (p : sem_pos) (x : AsyncSemaphore) :=
  match o with
  | Acquire | TryAcquire => try_acquire_step p x
  | Release k => release k x
  end.

(** [AcquireOp::attach]: [count_.load() <= 0] *)
Definition sem_attach (x : AsyncSemaphore) : bool := count_ x <=? 0.

(** Permits are given back, and the counter stays within [int32_t]. *)
Definition sem_contract (o : sem_op) (x : AsyncSemaphore) : bool :=
  match o with Release k => (0 <=? k) && in_int32 (count_ x + k) | _ => true end.

#[global] Instance semaphore_waitable : Waitable AsyncSemaphore := {
  side := unit; side_eq_dec := _; op := sem_op; result := bool; tstate := sem_pos;
  op_side o := match o with Acquire => Some tt | _ => None end;
  t0 _ := SStart; contract := sem_contract; try_step := sem_step;
  keep1 _ x := sem_attach x; keep2 _ _ := true;
  sees _ p := match p with SStart => false | SCas c => c <=? 0 end
}.
End Semaphore.

(** * AsyncEvent *)

Module Event.
Import WaitProtocol.

Inductive Reset := Auto | Manual.

Record AsyncEvent := mkEvent { reset_ : Reset; set_ : bool }.

Inductive event_op := Wait | TryConsume | SetEv | ResetEv.

Definition try_consume (x : AsyncEvent) : try_res unit bool AsyncEvent (unit * wake_kind) :=
  match reset_ x with
  | Auto => if set_ x then TDone true {| x with set_ := false |} [] else TFail
  | Manual => if set_ x then TDone true x [] else TFail
  end.

(** [set]: [if (set_.exchange(true)) return;] then wake one or all. *)
Definition set_event (x : AsyncEvent) : try_res unit bool AsyncEvent (unit * wake_kind) :=
  if set_ x then TDone true x []
  else TDone true {| x with set_ := true |}
         [(tt, match reset_ x with Auto => WakeN 1 | Manual => WakeAll end)].

Definition reset_event (x : AsyncEvent) : try_res unit bool AsyncEvent (unit * wake_kind) :=
  TDone true (match reset_ x with Manual => {| x with set_ := false |} | Auto => x end) [].

Definition event_step (o : event_op) (_ : unit) (x : AsyncEvent) :=
  match o with
  | Wait | TryConsume => try_consume x
  | SetEv => set_event x
  | ResetEv => reset_event x
  end.

(** [WaitOp::attach]: one read, [!set_.load()] *)
Definition event_attach (x : AsyncEvent) : bool := negb (set_ x).

#[global] Instance event_waitable : Waitable AsyncEvent := {
  side := unit; side_eq_dec := _; op := event_op; result := bool; tstate := unit;
  op_side o := match o with Wait => Some tt | _ => None end;
  t0 _ := tt; contract _ _ := true; try_step := event_step;
  keep1 _ x := match reset_ x with Auto => event_attach x | Manual => true end;
  keep2 _ x := match reset_ x with Auto => true | Manual => event_attach x end;
  sees _ _ := false
}.
End Event.

(** * WaitGroup *)

Module WaitGroup.
Import WaitProtocol.

Record WaitGroup := mkWaitGroup { cnt_ : Z }.

Inductive wg_op := Wait | Add (n : Z) | DoneOne.

Definition wg_try (x : WaitGroup) : try_res unit bool WaitGroup (unit * wake_kind) :=
  if cnt_ x =? 0 then TDone true x [] else TFail.

Definition add (n : Z) (x : WaitGroup) : try_res unit bool WaitGroup (unit * wake_kind) :=
  TDone true (mkWaitGroup (signed 32 (cnt_ x + n))) [].

(** [done]: [if (cnt_.fetch_sub(1) != 1) return;] then wake all. *)
Definition done_one (x : WaitGroup) : try_res unit bool WaitGroup (unit * wake_kind) :=
  TDone true (mkWaitGroup (signed 32 (cnt_ x - 1))) (if cnt_ x =? 1 then [(tt, WakeAll)] else []).

Definition wg_step (o : wg_op) (_ : unit) (x : WaitGroup) :=
  match o with
  | Wait => wg_try x
  | Add n => add n x
  | DoneOne => done_one x
  end.

(** [WaitOp::attach]: [cnt_.load() != 0] *)
Definition wg_attach (x : WaitGroup) : bool := negb (cnt_ x =? 0).

(** [done] is called at most as often as [add] announced, within [int]. *)
Definition wg_contract (o : wg_op) (x : WaitGroup) : bool :=
  match o with
  | Wait => true
  | Add n => (0 <=? cnt_ x) && (0 <=? n) && (cnt_ x + n <? 2 ^ 31)
  | DoneOne => (0 <? cnt_ x) && (cnt_ x <? 2 ^ 31)
  end.

#[global] Instance wg_waitable : Waitable WaitGroup := {
  side := unit; side_eq_dec := _; op := wg_op; result := bool; tstate := unit;
  op_side o := match o with Wait => Some tt | _ => None end;
  t0 _ := tt; contract := wg_contract; try_step := wg_step;
  keep1 _ _ := true; keep2 _ x := wg_attach x; sees _ _ := false
}.
End WaitGroup.

(** * The cancellation token's [on_cancel_op] *)

Module CancelToken.
Import WaitProtocol.

Record CancelFlag := mkCancelFlag { requested : bool }.

Inductive token_op := OnCancel | RequestCancel.

(** [request_cancel]: [if (requested.exchange(true)) return;] then wake all. *)
Definition token_step (o : token_op) (_ : unit) (x : CancelFlag) :
    try_res unit bool CancelFlag (unit * wake_kind) :=
  match o with
  | OnCancel => if requested x then TDone true x [] else TFail
  | RequestCancel => if requested x then TDone true x [] else TDone true (mkCancelFlag true) [(tt, WakeAll)]
  end.

(** [CancelOp::attach]: [!requested.load()] *)
Definition token_attach (x : CancelFlag) : bool := negb (requested x).

#[global] Instance token_waitable : Waitable CancelFlag := {
  side := unit; side_eq_dec := _; op := token_op; result := bool; tstate := unit;
  op_side o := match o with OnCancel => Some tt | _ => None end;
  t0 _ := tt; contract _ _ := true; try_step := token_step;
  keep1 _ _ := true; keep2 _ x := token_attach x; sees _ _ := false
}.
End CancelToken.

(** * AsyncChannel

    The bounded queue is replaced by the sequence it holds, with atomic operations.  That
    the MPMC queue hands values out once, in order and within its capacity is shown on
    its own ([MpmcCorrect]); here a cell that a sender has claimed but not published,
    on which the real [try_dequeue] fails, does not exist.  The fields [sent]
    and [received] are history: the values accepted and handed out so far. *)

Module Channel.
Import WaitProtocol.

Section channel.
Context {V : Type}.

Record AsyncChannel := mkChannel {
  capacity : Z;
  queue_ : list V;
  closed_ : bool;
  sent : list V;
  received : list V
}.

Definition AsyncChannel_new (capacity_pow2 : Z) : AsyncChannel :=
  mkChannel (ConcurrentQueues.cq_next_pow2 capacity_pow2) [] false [] [].

Inductive ch_side := RecvSide | SendSide.
#[global] Instance ch_side_eq_dec : EqDecision ch_side.
Proof. solve_decision. Defined.

Inductive ch_op :=
| Send (v : V)
| Recv
| TrySend (v : V)
| TryRecv
| Close.

Inductive ch_result :=
| RBool (b : bool)
| RVal (o : option V).

(** Where an operation stands. *)
Inductive ch_pos := C0 | C1 | C2.

Definition empty_relaxed (x : AsyncChannel) : bool := Z.of_nat (length (queue_ x)) =? 0.
Definition size_relaxed (x : AsyncChannel) : Z := Z.of_nat (length (queue_ x)).

(** [queue_.try_enqueue(v)], then [wake_one_waiter(recv_waiters_)] *)
Definition enqueue (v : V) (x : AsyncChannel) : try_res ch_pos ch_result AsyncChannel (ch_side * wake_kind) :=
  if size_relaxed x <? capacity x
  then TDone (RBool true)
         {| x with queue_ := queue_ x ++ [v]; sent := sent x ++ [v] |} [(RecvSide, WakeN 1)]
  else TFail.

(** [try_recv]: [queue_.try_dequeue(out)], then [wake_one_waiter(send_waiters_)] *)
Definition try_recv (x : AsyncChannel) : option (V * AsyncChannel) :=
  match queue_ x with
  | [] => None
  | v :: q => Some (v, {| x with queue_ := q; received := received x ++ [v] |})
  end.

(** [try_send], [try_send_tuple]: the check of [is_closed], then the queue. *)
Definition try_send_step (v : V) (p : ch_pos) (x : AsyncChannel) :
    try_res ch_pos ch_result AsyncChannel (ch_side * wake_kind) :=
  match p with
  | C0 => if closed_ x then TFail else TNext C1
  | _ => enqueue v x
  end.

(** [ChannelSendOp::try_complete] *)
Definition send_step (v : V) (p : ch_pos) (x : AsyncChannel) :
    try_res ch_pos ch_result AsyncChannel (ch_side * wake_kind) :=
  match p with
  | C0 => if closed_ x then TDone (RBool false) x [] else TNext C1
  | C1 => if closed_ x then TFail else TNext C2
  | C2 => enqueue v x
  end.

(** [ChannelRecvOp::try_complete] *)
Definition recv_step (p : ch_pos) (x : AsyncChannel) :
    try_res ch_pos ch_result AsyncChannel (ch_side * wake_kind) :=
  match p with
  | C0 =>
      match try_recv x with
      | Some (v, x) => TDone (RVal (Some v)) x [(SendSide, WakeN 1)]
      | None => TNext C1
      end
  | C1 => if closed_ x then TNext C2 else TFail
  | C2 => if empty_relaxed x then TDone (RVal None) x [] else TFail
  end.

Definition close (x : AsyncChannel) : try_res ch_pos ch_result AsyncChannel (ch_side * wake_kind) :=
  if closed_ x then TDone (RBool true) x []
  else TDone (RBool true) {| x with closed_ := true |} [(RecvSide, WakeAll); (SendSide, WakeAll)].

Definition ch_step (o : ch_op) (p : ch_pos) (x : AsyncChannel) :=
  match o with
  | Send v => send_step v p x
  | Recv => recv_step p x
  | TrySend v => try_send_step v p x
  | TryRecv =>
      match try_recv x with
      | Some (v, x) => TDone (RVal (Some v)) x [(SendSide, WakeN 1)]
      | None => TFail
      end
  | Close => close x
  end.

(** [attach_recv]: [queue_.empty_relaxed() && !is_closed()], two reads *)
Definition attach_recv (x : AsyncChannel) : bool * bool := (empty_relaxed x, negb (closed_ x)).
(** [attach_send]: [queue_.size_relaxed() >= queue_.capacity() && !is_closed()], two reads *)
Definition attach_send (x : AsyncChannel) : bool * bool := (capacity x <=? size_relaxed x, negb (closed_ x)).

#[global] Instance channel_waitable : Waitable AsyncChannel := {
  side := ch_side; side_eq_dec := _; op := ch_op; result := ch_result; tstate := ch_pos;
  op_side o := match o with Send _ => Some SendSide | Recv => Some RecvSide | _ => None end;
  t0 _ := C0; contract _ _ := true; try_step := ch_step;
  keep1 s x := match s with RecvSide => (attach_recv x).1 | SendSide => (attach_send x).1 end;
  keep2 s x := match s with RecvSide => (attach_recv x).2 | SendSide => (attach_send x).2 end;
  sees o p := match o, p with Recv, (C1 | C2) => true | _, _ => false end
}.
End channel.
#[global] Arguments AsyncChannel : clear implicits.
End Channel.

(** * AsyncUnboundedChannel *)

Module Unbounded.
Import WaitProtocol.

Section unbounded.
Context {V : Type}.

Record AsyncUnboundedChannel := mkUnbounded {
  uqueue : list V;
  uclosed : bool;
  usent : list V;
  ureceived : list V
}.

Definition AsyncUnboundedChannel_new : AsyncUnboundedChannel := mkUnbounded [] false [] [].

Inductive un_op :=
| USend (v : V)
| URecv
| UTryRecv
| UClose.

Inductive un_result :=
| UBool (b : bool)
| UVal (o : option V).

Inductive un_pos := U0 | U1 | U2.

(** [try_send]: the check of [is_closed], then [queue_.emplace] and [notify_recv] *)
Definition unbounded_send (v : V) (p : un_pos) (x : AsyncUnboundedChannel) :
    try_res un_pos un_result AsyncUnboundedChannel (unit * wake_kind) :=
  match p with
  | U0 => if uclosed x then TDone (UBool false) x [] else TNext U1
  | _ => TDone (UBool true) {| x with uqueue := uqueue x ++ [v]; usent := usent x ++ [v] |} [(tt, WakeN 1)]
  end.

Definition unbounded_try_recv (x : AsyncUnboundedChannel) : option (V * AsyncUnboundedChannel) :=
  match uqueue x with
  | [] => None
  | v :: q => Some (v, {| x with uqueue := q; ureceived := ureceived x ++ [v] |})
  end.

(** [ChannelRecvOp::try_complete] on the unbounded channel, which has no senders to wake. *)
Definition unbounded_recv (p : un_pos) (x : AsyncUnboundedChannel) :
    try_res un_pos un_result AsyncUnboundedChannel (unit * wake_kind) :=
  match p with
  | U0 =>
      match unbounded_try_recv x with
      | Some (v, x) => TDone (UVal (Some v)) x []
      | None => TNext U1
      end
  | U1 => if uclosed x then TNext U2 else TFail
  | U2 => match uqueue x with [] => TDone (UVal None) x [] | _ => TFail end
  end.

Definition unbounded_close (x : AsyncUnboundedChannel) :
    try_res un_pos un_result AsyncUnboundedChannel (unit * wake_kind) :=
  if uclosed x then TDone (UBool true) x []
  else TDone (UBool true) {| x with uclosed := true |} [(tt, WakeAll)].

Definition un_step (o : un_op) (p : un_pos) (x : AsyncUnboundedChannel) :=
  match o with
  | USend v => unbounded_send v p x
  | URecv => unbounded_recv p x
  | UTryRecv =>
      match unbounded_try_recv x with
      | Some (v, x) => TDone (UVal (Some v)) x []
      | None => TFail
      end
  | UClose => unbounded_close x
  end.

(** [attach_recv], two reads *)
Definition unbounded_attach (x : AsyncUnboundedChannel) : bool * bool :=
  (match uqueue x with [] => true | _ => false end, negb (uclosed x)).

#[global] Instance unbounded_waitable : Waitable AsyncUnboundedChannel := {
  side := unit; side_eq_dec := _; op := un_op; result := un_result; tstate := un_pos;
  op_side o := match o with URecv => Some tt | _ => None end;
  t0 _ := U0; contract _ _ := true; try_step := un_step;
  keep1 _ x := (unbounded_attach x).1; keep2 _ x := (unbounded_attach x).2;
  sees o p := match o, p with URecv, (U1 | U2) => true | _, _ => false end
}.
End unbounded.
#[global] Arguments AsyncUnboundedChannel : clear implicits.
End Unbounded.
