(* ===== verification/SyncPrimitivesCorrect.v ===== *)
(** Every primitive satisfies the laws of the waiting protocol, so none of them
    loses a wake-up; with each goes what it promises by itself: permits are
    conserved, channels hand every value out once and in order. *)

From S2P Require Import Prelude WaitList ConcurrentQueues WaitProtocol WaitProtocolInv.
From S2P Require Import WaitProtocolCorrect SyncPrimitives.

Module SyncPrimitivesCorrect.
Import WaitProtocol WaitProtocolInv WaitProtocolCorrect.

(** A run given by its events is an execution. *)
Lemma run_steps {X} `{!Waitable X} es (σ σ' : @St X _) : run es σ = Done (Some σ') → rtc steps σ σ'.
Proof.
  revert σ. induction es as [|e es IH]; intros σ; cbn; [by intros [= ->]|].
  destruct (step e σ) as [[σ1|]| |] eqn:E; orun; try done. intros Hr.
  eapply rtc_l; [by exists e|by apply IH].
Qed.

(** Discharges the law of a completed operation. *)
Ltac law_tac :=
  cbn; rewrite ?decide_True, ?decide_False by done; split_and!; intros; try done;
  first [ by auto | right; lia | left; set_solver | right; set_solver
        | do 3 right; left; lia | do 4 right; lia ].

(** Deciding on a concrete run whether it has settled and where a coroutine stands. *)
Definition settledb {X} `{!Waitable X} (σ : @St X _) : bool :=
  match pool σ, runq σ with
  | [], [] => forallb (λ '(_, T), match tpc T with PSusp | PRet _ => true | _ => false end) (map_to_list (tasks σ))
  | _, _ => false
  end.

Definition suspendedb {X} `{!Waitable X} (t : ptr) (σ : @St X _) : bool :=
  match tasks σ !! t with Some T => match tpc T with PSusp => true | _ => false end | None => false end.

Lemma settledb_ok {X} `{!Waitable X} (σ : @St X _) : settledb σ = true → settled σ.
Proof.
  unfold settledb, settled. destruct (pool σ); [|done]. destruct (runq σ); [|done].
  intros H. split; [done|]. split; [done|]. intros t T HT%elem_of_map_to_list.
  apply Is_true_true_2, forallb_True in H. rewrite Forall_forall in H. specialize (H _ HT). cbn in H. destruct (tpc T); eauto; done.
Qed.

Lemma suspendedb_ok {X} `{!Waitable X} t (σ : @St X _) :
  suspendedb t σ = true → ∃ T, tasks σ !! t = Some T ∧ tpc T = PSusp.
Proof.
  unfold suspendedb. destruct (tasks σ !! t) as [T|]; [|done]. intros H. exists T. split; [done|].
  by destruct (tpc T).
Qed.

(** A run that ends in a state satisfying a test. *)
Lemma run_check {X} `{!Waitable X} es (σ : @St X _) (test : @St X _ → bool) :
  match run es σ with Done (Some σ') => test σ' | _ => false end = true →
  ∃ σ', run es σ = Done (Some σ') ∧ test σ' = true.
Proof. destruct (run es σ) as [[σ'|]| |]; try done. intros H. by exists σ'. Qed.

(** * AsyncSemaphore *)

Section semaphore.
Import Semaphore.

(** What an operation on the semaphore does when it completes. *)
Lemma sem_done o p x r x' ws :
  sem_contract o x = true → sem_step o p x = TDone r x' ws →
  (0 < count_ x ∧ x' = mkSemaphore (count_ x - 1) (granted x + 1) (released x) ∧ ws = [] ∧
     (o = Acquire ∨ o = TryAcquire)) ∨
  (∃ k, o = Release k ∧ 0 <= k ∧ x' = mkSemaphore (count_ x + k) (granted x) (released x + k) ∧
        ws = [(tt, WakeN k)]).
Proof.
  intros Hc Hs. destruct o as [| |k].
  1,2: left; destruct p as [|c]; [done|]; cbn in Hs; repeat case_bool; b2p; simplify_eq; split; [lia|]; auto.
  right. exists k. unfold sem_contract, in_int32 in Hc. b2p. cbn in Hs. unfold release in Hs. simplify_eq.
  rewrite signed_small by lia. done.
Qed.

#[export] Instance semaphore_laws : WaitableLaws AsyncSemaphore.
Proof.
  refine {| avail _ x := Z.to_nat (count_ x); open_all _ _ := false |}; try done.
  - intros [] [|c] ts' x [] Hs Ht Hse; cbn in *; repeat case_bool; simplify_eq; b2p; right; left; lia.
  - intros [] [|c] x [] Hs Ht; cbn in *; repeat case_bool; simplify_eq; auto.
  - intros o p x r x' ws [] Hc Ht. destruct (sem_done o p x r x' ws Hc Ht)
      as [(Hp & -> & -> & Ho)|(k & -> & Hk & -> & ->)]; unfold wakes_n; cbn;
      rewrite ?decide_True by done; (split; [right; lia|]); (split; [done|]); (split; [done|]).
    + intros _. do 3 right. left. lia.
    + done.
  - intros [] x. unfold keep1. cbn. unfold sem_attach. intros H. b2p. lia.
Defined.

(** C39: the semaphore conserves permits and wakes for every permit. In every
    execution the acquisitions granted are exactly the initial permits plus those
    released minus those left, and never more than were there (the count of a
    semaphore that starts non-negative stays so); and once everything has settled,
    a coroutine is still suspended in [acquire] only if no permit is left. *)
Theorem semaphore_correct initial σ :
  0 <= initial → rtc steps (init (AsyncSemaphore_new initial)) σ →
  count_ (obj σ) = initial + released (obj σ) - granted (obj σ) ∧ 0 <= count_ (obj σ) ∧
  (settled σ → ∀ t T, tasks σ !! t = Some T → tpc T = PSusp → count_ (obj σ) = 0).
Proof.
  intros Hi Hr.
  assert (H : count_ (obj σ) = initial + released (obj σ) - granted (obj σ) ∧ 0 <= count_ (obj σ)).
  { apply (reachable_obj (λ x, count_ x = initial + released x - granted x ∧ 0 <= count_ x)
             (AsyncSemaphore_new initial)); [|cbn; lia|exact Hr].
    intros o ts y r y' ws Hy Hc Hs.
    destruct (sem_done o ts y r y' ws Hc Hs) as [(Hp & -> & _)|(k & -> & Hk & -> & _)]; cbn; lia. }
  split; [apply H|]. split; [apply H|]. intros Hset t T HT Hpc.
  destruct (op_side (top T)) as [[]|] eqn:Ho.
  - destruct (settled_unserved _ σ t T tt Hr Hset HT Hpc Ho) as [Ha _]. cbn in Ha. lia.
  - by destruct (suspended_side _ σ t T Hr HT Hpc) as [s Hs]; rewrite Hs in Ho.
Qed.

(** Two acquirers, one permit released: the first is served, the second waits. *)
Definition sem_run : list (@event AsyncSemaphore semaphore_waitable) :=
  let until_suspended t : list (@event AsyncSemaphore semaphore_waitable) := [@EBegin AsyncSemaphore _ t Acquire 0; @ETask AsyncSemaphore _ t; @ETask AsyncSemaphore _ t; @ETask AsyncSemaphore _ t; @ETask AsyncSemaphore _ t; @ETask AsyncSemaphore _ t; @ETask AsyncSemaphore _ t; @ETask AsyncSemaphore _ t] in
  until_suspended 1%positive ++ until_suspended 2%positive ++
  [@EBegin AsyncSemaphore _ 3%positive (Release 1) 1; @ETask AsyncSemaphore _ 3%positive; @ENotify AsyncSemaphore _ 0; @ENotify AsyncSemaphore _ 0; @EResume AsyncSemaphore _ 0;
   @ETask AsyncSemaphore _ 1%positive; @ETask AsyncSemaphore _ 1%positive; @ETask AsyncSemaphore _ 1%positive].

Lemma sem_run_ok : ∃ σ, run sem_run (init (AsyncSemaphore_new 0)) = Done (Some σ) ∧ settled σ ∧
  granted (obj σ) = 1 ∧ ∃ T, tasks σ !! 2%positive = Some T ∧ tpc T = PSusp.
Proof.
  destruct (run_check sem_run (init (AsyncSemaphore_new 0))
              (λ σ, settledb σ && suspendedb 2 σ && (granted (obj σ) =? 1))) as (σ & E & H);
    [vm_compute; reflexivity|].
  exists σ. b2p. split; [done|]. split; [by apply settledb_ok|]. split; [done|]. by apply suspendedb_ok.
Qed.

Lemma semaphore_correct_witness :
  ∃ σ : @St AsyncSemaphore _, rtc steps (init (AsyncSemaphore_new 0)) σ ∧ granted (obj σ) = 1 ∧ count_ (obj σ) = 0.
Proof.
  destruct sem_run_ok as (σ & E & Hset & Hg & T & HT & Hpc). exists σ.
  assert (Hr := run_steps _ _ _ E). split; [done|]. split; [done|].
  destruct (semaphore_correct 0 σ ltac:(lia) Hr) as (_ & _ & H). by apply (H Hset 2%positive T).
Defined.

Lemma waiting_is_safe_witness :
  ∃ σ : @St AsyncSemaphore _, rtc steps (init (AsyncSemaphore_new 0)) σ ∧ (∀ e, ∃ o, step e σ = Done o).
Proof.
  destruct sem_run_ok as (σ & E & _). exists σ. assert (Hr := run_steps _ _ _ E). split; [done|].
  exact (proj1 (waiting_is_safe (AsyncSemaphore_new 0) σ Hr)).
Defined.

Lemma no_lost_wakeup_witness :
  ∃ σ : @St AsyncSemaphore _, rtc steps (init (AsyncSemaphore_new 0)) σ ∧ settled σ ∧ Z.to_nat (count_ (obj σ)) = O.
Proof.
  destruct sem_run_ok as (σ & E & Hset & _ & T & HT & Hpc). exists σ. assert (Hr := run_steps _ _ _ E).
  split; [done|]. split; [done|]. destruct (suspended_side _ σ _ T Hr HT Hpc) as [[] Hs].
  exact (proj1 (no_lost_wakeup (AsyncSemaphore_new 0) σ 2%positive T tt Hr Hset HT Hpc Hs)).
Defined.
End semaphore.

(** * AsyncEvent, WaitGroup, the cancellation token *)

Section flags.

#[export] Instance event_laws : WaitableLaws Event.AsyncEvent.
Proof.
  refine {| avail _ x := match Event.reset_ x with Event.Auto => if Event.set_ x then 1%nat else O | Event.Manual => O end;
            open_all _ x := match Event.reset_ x with Event.Auto => false | Event.Manual => Event.set_ x end |}; try done.
  - intros [] [] x [] Hs Ht; try done. destruct x as [[] []]; cbn in *; simplify_eq; auto.
  - intros [] [] x r x' ws [] _ Ht; destruct x as [[] []]; cbn in *; simplify_eq; cbn;
      unfold Event.set_event, Event.reset_event in *; cbn in *; simplify_eq; unfold wakes_all, wakes_n; cbn;
      rewrite ?decide_True by done; split_and!; auto; intros; auto; try (left; set_solver); try (right; set_solver); lia.
  - intros [] x. destruct x as [[] []]; done.
  - intros [] x. destruct x as [[] []]; done.
Defined.

#[export] Instance wg_laws : WaitableLaws WaitGroup.WaitGroup.
Proof.
  refine {| avail _ _ := O; open_all _ x := WaitGroup.cnt_ x =? 0 |}; try done.
  - auto.
  - intros o [] x r x' ws [] Hc Ht. split; [right; lia|]. split.
    + intros Hz. b2p. destruct o as [|n|]; cbn in Ht; unfold WaitGroup.wg_try, WaitGroup.add, WaitGroup.done_one in Ht;
        cbn in Hc; [case_bool; simplify_eq; by left|simplify_eq..]; cbn in Hz; b2p; rewrite signed_small in Hz by lia.
      * left. apply Z.eqb_eq. lia.
      * right. unfold wakes_all. assert (WaitGroup.cnt_ x = 1) as -> by lia. set_solver.
    + split; auto.
  - intros [] x. cbn. unfold WaitGroup.wg_attach. by destruct (WaitGroup.cnt_ x =? 0).
Defined.

#[export] Instance token_laws : WaitableLaws CancelToken.CancelFlag.
Proof.
  refine {| avail _ _ := O; open_all _ x := CancelToken.requested x |}; try done.
  - auto.
  - intros [] [] x r x' ws [] _ Ht; destruct x as [[]]; cbn in *; simplify_eq; cbn; unfold wakes_all;
      split_and!; auto; intros; auto; right; set_solver.
  - intros [] x. cbn. unfold CancelToken.token_attach. by destruct (CancelToken.requested x).
Defined.

(** No wake-up is lost by the primitives that wait for a condition. Once
    everything has settled, a coroutine is still suspended in AsyncEvent's [wait]
    only if the event is not set, in WaitGroup's [wait] only if the counter is not
    zero, and in the token's [on_cancel_op] only if cancellation is not requested. *)
Theorem flags_lose_no_wakeup :
  (∀ x (σ : @St Event.AsyncEvent _) t T, rtc steps (init x) σ → settled σ →
     tasks σ !! t = Some T → tpc T = PSusp → Event.set_ (obj σ) = false) ∧
  (∀ x (σ : @St WaitGroup.WaitGroup _) t T, rtc steps (init x) σ → settled σ →
     tasks σ !! t = Some T → tpc T = PSusp → WaitGroup.cnt_ (obj σ) ≠ 0) ∧
  (∀ x (σ : @St CancelToken.CancelFlag _) t T, rtc steps (init x) σ → settled σ →
     tasks σ !! t = Some T → tpc T = PSusp → CancelToken.requested (obj σ) = false).
Proof.
  split_and!; intros x σ t T Hr Hset HT Hpc; destruct (suspended_side _ σ t T Hr HT Hpc) as [s Hs];
    destruct (settled_unserved _ σ t T s Hr Hset HT Hpc Hs) as (Ha & Ho & _); cbn in Ha, Ho.
  - by destruct (Event.reset_ (obj σ)), (Event.set_ (obj σ)).
  - by b2p.
  - done.
Qed.

(** A coroutine waits for an event; the event is set; the coroutine goes on. *)
Definition event_run : list (@event Event.AsyncEvent Event.event_waitable) :=
  [@EBegin Event.AsyncEvent _ 1%positive Event.Wait 0; @ETask Event.AsyncEvent _ 1%positive; @ETask Event.AsyncEvent _ 1%positive; @ETask Event.AsyncEvent _ 1%positive; @ETask Event.AsyncEvent _ 1%positive;
   @ETask Event.AsyncEvent _ 1%positive; @ETask Event.AsyncEvent _ 1%positive].

Lemma flags_lose_no_wakeup_witness :
  ∃ σ : @St Event.AsyncEvent _, run event_run (init (Event.mkEvent Event.Auto false)) = Done (Some σ) ∧
    Event.set_ (obj σ) = false.
Proof.
  destruct (run_check event_run (init (Event.mkEvent Event.Auto false))
              (λ σ, settledb σ && suspendedb 1 σ)) as (σ & E & H); [vm_compute; reflexivity|].
  exists σ. split; [done|]. assert (Hr := run_steps _ _ _ E). b2p.
  assert (Hset : settled σ) by (by apply settledb_ok).
  destruct (suspendedb_ok 1 σ) as (T & HT & Hpc); [done|].
  exact (proj1 flags_lose_no_wakeup _ σ 1%positive T Hr Hset HT Hpc).
Defined.
End flags.

(** * AsyncChannel *)

Section channel.
Import Channel.
Context {V : Type}.
Implicit Types (x : AsyncChannel V).

(** What an operation on the channel does when it completes. *)
Lemma ch_done (o : ch_op) p x r x' ws :
  ch_step o p x = TDone r x' ws →
  (∃ v, x' = {| x with queue_ := queue_ x ++ [v]; sent := sent x ++ [v] |} ∧ size_relaxed x < capacity x ∧
        ws = [(RecvSide, WakeN 1)] ∧ (o = Send v ∨ o = TrySend v)) ∨
  (∃ v q, queue_ x = v :: q ∧ x' = {| x with queue_ := q; received := received x ++ [v] |} ∧
          ws = [(SendSide, WakeN 1)] ∧ r = RVal (Some v) ∧ (o = Recv ∨ o = TryRecv)) ∨
  (x' = {| x with closed_ := true |} ∧ ws = [(RecvSide, WakeAll); (SendSide, WakeAll)] ∧ o = Close) ∨
  (x' = x ∧ ws = [] ∧ (o = Close ∨ (∃ v, o = Send v ∧ closed_ x = true) ∨ (o = Recv ∧ p = C2 ∧ queue_ x = []))).
Proof.
  destruct o as [v| |v| |], p; cbn; unfold enqueue, try_recv, close, empty_relaxed;
    repeat case_bool; try destruct (queue_ x) eqn:Hq; intros; simplify_eq; b2p; cbn in *; try lia; eauto 14.
Qed.

#[export] Instance channel_laws : WaitableLaws (AsyncChannel V).
Proof.
  refine {| avail (s : @side (AsyncChannel V) _) x :=
              match (s : ch_side) with
              | RecvSide => length (queue_ x)
              | SendSide => (Z.to_nat (capacity x) - length (queue_ x))%nat
              end;
            open_all _ x := closed_ x |}.
  - by intros [].
  - intros [] [] ts' x [] Hs; cbn; try done; unfold enqueue, try_recv; repeat case_bool; try done;
      try (destruct (queue_ x); intros; simplify_eq; cbn; auto; done); intros; simplify_eq; done.
  - intros [] [] x [] Hs; cbn; try done; unfold enqueue, try_recv, empty_relaxed, size_relaxed; repeat case_bool; try done;
      intros; simplify_eq; auto; b2p; try (right; left; lia); by destruct (queue_ x).
  - intros o p x r x' ws s _ Ht. unfold wakes_all, wakes_n.
    destruct (ch_done o p x r x' ws Ht) as [(v & -> & Hl & -> & Ho)|[(v & q & Hq & -> & -> & _ & Ho)|[(-> & -> & ->)|(-> & -> & Ho)]]];
      cbn; unfold size_relaxed in *.
    + rewrite length_app. destruct s; law_tac.
    + rewrite Hq. destruct s; law_tac.
    + destruct s; law_tac.
    + destruct s, Ho as [->|[(v & -> & Hc)|(-> & -> & Hq)]]; law_tac.
  - intros [] x; cbn; unfold empty_relaxed, size_relaxed; intros; b2p; lia.
  - intros [] x; cbn; by destruct (closed_ x).
Defined.

Lemma cq_next_pow2_nonneg n : 0 <= ConcurrentQueues.cq_next_pow2 n.
Proof. unfold ConcurrentQueues.cq_next_pow2. case_bool; [lia|]. apply wrap_bound. lia. Qed.

(** The bounded channel over an atomic queue delivers every value once and in order. In
    every execution of a channel on a queue of at least two cells, what has been received
    followed by what is queued is what has been sent, and the queue stays within the
    capacity; and once everything has settled, the channel of a suspended coroutine
    is open, and empty if it waits in [recv], full if it waits in [send]. *)
Theorem channel_correct capacity_pow2 (σ : @St (AsyncChannel V) _) :
  2 <= capacity_pow2 <= 2 ^ 63 → rtc steps (init (AsyncChannel_new capacity_pow2)) σ →
  received (obj σ) ++ queue_ (obj σ) = sent (obj σ) ∧
  Z.of_nat (length (queue_ (obj σ))) <= capacity (obj σ) ∧
  (settled σ → ∀ t T, tasks σ !! t = Some T → tpc T = PSusp →
     closed_ (obj σ) = false ∧
     match top T : ch_op with
     | Recv => queue_ (obj σ) = []
     | Send _ => Z.of_nat (length (queue_ (obj σ))) = capacity (obj σ)
     | _ => False
     end).
Proof.
  intros _ Hr.
  assert (H : received (obj σ) ++ queue_ (obj σ) = sent (obj σ) ∧
              Z.of_nat (length (queue_ (obj σ))) <= capacity (obj σ)).
  { apply (reachable_obj (λ x : AsyncChannel V, received x ++ queue_ x = sent x ∧
                             Z.of_nat (length (queue_ x)) <= capacity x) (AsyncChannel_new capacity_pow2));
      [|split; [done|apply cq_next_pow2_nonneg]|exact Hr].
    intros o p x r x' ws [H1 H2] _ Ht.
    destruct (ch_done o p x r x' ws Ht) as [(v & -> & Hl & _)|[(v & q & Hq & -> & _)|[(-> & _)|(-> & _)]]]; cbn; try done.
    - rewrite app_assoc, H1, length_app. unfold size_relaxed in Hl. cbn. split; [done|lia].
    - rewrite Hq in H1, H2. rewrite <- app_assoc. cbn in *. split; [done|lia]. }
  destruct H as [H1 H2]. split; [done|]. split; [done|]. intros Hset t T HT Hpc.
  destruct (suspended_side _ σ t T Hr HT Hpc) as [s Hs].
  destruct (settled_unserved _ σ t T s Hr Hset HT Hpc Hs) as (Ha & Ho & _). cbn in Ho. split; [done|].
  cbn in Hs, Ha. destruct (top T); try done; injection Hs as <-.
  - lia.
  - by destruct (queue_ (obj σ)).
Qed.
End channel.

(** A value sent to a waiting receiver. *)
Definition channel_run : list (@event (Channel.AsyncChannel Z) Channel.channel_waitable) :=
  [@EBegin (Channel.AsyncChannel Z) _ 1%positive Channel.Recv 0;
   @ETask (Channel.AsyncChannel Z) _ 1%positive; @ETask (Channel.AsyncChannel Z) _ 1%positive; @ETask (Channel.AsyncChannel Z) _ 1%positive; @ETask (Channel.AsyncChannel Z) _ 1%positive; @ETask (Channel.AsyncChannel Z) _ 1%positive; @ETask (Channel.AsyncChannel Z) _ 1%positive;
   @ETask (Channel.AsyncChannel Z) _ 1%positive;
   @EBegin (Channel.AsyncChannel Z) _ 2%positive (Channel.Send 7) 1; @ETask (Channel.AsyncChannel Z) _ 2%positive; @ETask (Channel.AsyncChannel Z) _ 2%positive; @ETask (Channel.AsyncChannel Z) _ 2%positive;
   @ENotify (Channel.AsyncChannel Z) _ 0; @ENotify (Channel.AsyncChannel Z) _ 0; @EResume (Channel.AsyncChannel Z) _ 0; @ETask (Channel.AsyncChannel Z) _ 1%positive; @ETask (Channel.AsyncChannel Z) _ 1%positive; @ENotify (Channel.AsyncChannel Z) _ 0;
   @EBegin (Channel.AsyncChannel Z) _ 3%positive Channel.Recv 0;
   @ETask (Channel.AsyncChannel Z) _ 3%positive; @ETask (Channel.AsyncChannel Z) _ 3%positive; @ETask (Channel.AsyncChannel Z) _ 3%positive; @ETask (Channel.AsyncChannel Z) _ 3%positive; @ETask (Channel.AsyncChannel Z) _ 3%positive; @ETask (Channel.AsyncChannel Z) _ 3%positive;
   @ETask (Channel.AsyncChannel Z) _ 3%positive].

Lemma channel_correct_witness :
  ∃ σ : @St (Channel.AsyncChannel Z) _, run channel_run (init (Channel.AsyncChannel_new 2)) = Done (Some σ) ∧
    Channel.received (obj σ) = [7] ∧ Channel.queue_ (obj σ) = [] ∧ Channel.closed_ (obj σ) = false.
Proof.
  destruct (run_check channel_run (init (Channel.AsyncChannel_new 2))
              (λ σ, settledb σ && suspendedb 3 σ && bool_decide (Channel.sent (obj σ) = [7])
                    && bool_decide (Channel.queue_ (obj σ) = []))) as (σ & E & H);
    [vm_compute; reflexivity|].
  exists σ. split; [exact E|]. assert (Hr := run_steps _ _ _ E). clear E.
  apply andb_true_iff in H as [H Hq%bool_decide_eq_true]. apply andb_true_iff in H as [H Hs%bool_decide_eq_true].
  apply andb_true_iff in H as [Hset' Hsusp].
  assert (Hset := settledb_ok σ Hset').
  destruct (suspendedb_ok 3 σ Hsusp) as (T & HT & Hpc).
  destruct (channel_correct 2 σ ltac:(lia) Hr) as (Hfifo & _ & Hw).
  destruct (Hw Hset _ T HT Hpc) as [Hc _]. rewrite Hq, app_nil_r, Hs in Hfifo. auto.
Defined.

(** * AsyncUnboundedChannel *)

Section unbounded.
Import Unbounded.
Context {V : Type}.
Implicit Types (x : AsyncUnboundedChannel V).

Lemma un_done (o : un_op) p x r x' ws :
  un_step o p x = TDone r x' ws →
  (∃ v, x' = {| x with uqueue := uqueue x ++ [v]; usent := usent x ++ [v] |} ∧ ws = [(tt, WakeN 1)] ∧ o = USend v) ∨
  (∃ v q, uqueue x = v :: q ∧ x' = {| x with uqueue := q; ureceived := ureceived x ++ [v] |} ∧ ws = [] ∧
          r = UVal (Some v)) ∨
  (x' = {| x with uclosed := true |} ∧ ws = [(tt, WakeAll)]) ∨
  (x' = x ∧ ws = [] ∧ (o = URecv → uqueue x = [])).
Proof.
  destruct o as [v| | |], p; cbn; unfold unbounded_try_recv, unbounded_close;
    repeat case_bool; try destruct (uqueue x) eqn:Hq; intros; simplify_eq; cbn in *; eauto 14; do 3 right; split_and!; done.
Qed.

#[export] Instance unbounded_laws : WaitableLaws (AsyncUnboundedChannel V).
Proof.
  refine {| avail _ x := length (uqueue x); open_all _ x := uclosed x |}.
  - by intros [].
  - intros [] [] ts' x [] Hs; cbn; try done; unfold unbounded_try_recv; repeat case_bool; try done;
      destruct (uqueue x); intros; simplify_eq; cbn; auto; done.
  - intros [] [] x [] Hs; cbn; try done; repeat case_bool; try done; auto;
      unfold unbounded_try_recv; destruct (uqueue x); intros; simplify_eq; auto.
  - intros o p x r x' ws [] _ Ht. unfold wakes_all, wakes_n.
    destruct (un_done o p x r x' ws Ht) as [(v & -> & -> & ->)|[(v & q & Hq & -> & -> & _)|[(-> & ->)|(-> & -> & Ho)]]].
    + cbn. rewrite length_app. law_tac.
    + rewrite Hq. law_tac.
    + law_tac.
    + destruct o; [law_tac|cbn; rewrite Ho by done; law_tac|law_tac..].
  - intros [] x; cbn. by destruct (uqueue x).
  - intros [] x; cbn; by destruct (uclosed x).
Defined.

(** The unbounded channel delivers every value once and in order, and wakes a
    receiver for each: received and queued values together are the sent ones, and
    once everything has settled a coroutine is still suspended in [recv] only if the
    channel is empty and open. *)
Theorem unbounded_channel_correct (σ : @St (AsyncUnboundedChannel V) _) :
  rtc steps (init AsyncUnboundedChannel_new) σ →
  ureceived (obj σ) ++ uqueue (obj σ) = usent (obj σ) ∧
  (settled σ → ∀ t T, tasks σ !! t = Some T → tpc T = PSusp → uqueue (obj σ) = [] ∧ uclosed (obj σ) = false).
Proof.
  intros Hr. split.
  - apply (reachable_obj (λ x : AsyncUnboundedChannel V, ureceived x ++ uqueue x = usent x) AsyncUnboundedChannel_new);
      [|done|exact Hr].
    intros o p x r x' ws H1 _ Ht.
    destruct (un_done o p x r x' ws Ht) as [(v & -> & _)|[(v & q & Hq & -> & _)|[(-> & _)|(-> & _)]]]; cbn; try done.
    + by rewrite app_assoc, H1.
    + rewrite Hq in H1. by rewrite <- app_assoc.
  - intros Hset t T HT Hpc. destruct (suspended_side _ σ t T Hr HT Hpc) as [s Hs].
    destruct (settled_unserved _ σ t T s Hr Hset HT Hpc Hs) as (Ha & Ho & _). cbn in Ha, Ho.
    split; [by destruct (uqueue (obj σ))|done].
Qed.
End unbounded.

Definition unbounded_run : list (@event (Unbounded.AsyncUnboundedChannel Z) Unbounded.unbounded_waitable) :=
  [@EBegin (Unbounded.AsyncUnboundedChannel Z) _ 1%positive Unbounded.URecv 0;
   @ETask (Unbounded.AsyncUnboundedChannel Z) _ 1%positive; @ETask (Unbounded.AsyncUnboundedChannel Z) _ 1%positive; @ETask (Unbounded.AsyncUnboundedChannel Z) _ 1%positive; @ETask (Unbounded.AsyncUnboundedChannel Z) _ 1%positive; @ETask (Unbounded.AsyncUnboundedChannel Z) _ 1%positive; @ETask (Unbounded.AsyncUnboundedChannel Z) _ 1%positive;
   @ETask (Unbounded.AsyncUnboundedChannel Z) _ 1%positive].

Lemma unbounded_channel_correct_witness :
  ∃ σ : @St (Unbounded.AsyncUnboundedChannel Z) _,
    run unbounded_run (init Unbounded.AsyncUnboundedChannel_new) = Done (Some σ) ∧ Unbounded.uqueue (obj σ) = [].
Proof.
  destruct (run_check unbounded_run (init Unbounded.AsyncUnboundedChannel_new)
              (λ σ, settledb σ && suspendedb 1 σ)) as (σ & E & H); [vm_compute; reflexivity|].
  exists σ. split; [done|]. assert (Hr := run_steps _ _ _ E). b2p.
  assert (Hset : settled σ) by (by apply settledb_ok).
  destruct (suspendedb_ok 1 σ) as (T & HT & Hpc); [done|].
  destruct (unbounded_channel_correct σ Hr) as (_ & Hw). exact (proj1 (Hw Hset 1%positive T HT Hpc)).
Defined.
End SyncPrimitivesCorrect.
