(* ===== verification/SocketHeader.v ===== *)
(** The shared header of a socket ([SocketMetadata.h], [RefCountedSession.h]): the
    64-bit state word (reference count, timeout epoch and flags) and the read and
    write words through which a coroutine and the poller hand a wake-up over. *)

From S2P Require Import Prelude.

Module SocketHeader.

(** * The state word *)

Definition CLOSED_MASK : Z := Z.shiftl 1 63.
Definition BUSY_MASK : Z := Z.shiftl 1 62.
Definition READING_MASK : Z := Z.shiftl 1 61.
Definition WRITING_MASK : Z := Z.shiftl 1 60.
Definition DISCONNECTED_MASK : Z := Z.shiftl 1 59.
Definition READ_PENDING_MASK : Z := Z.shiftl 1 58.
Definition WRITE_PENDING_MASK : Z := Z.shiftl 1 57.

Definition REFCOUNT_BITS : Z := 40.
Definition COUNT_MASK : Z := Z.shiftl 1 REFCOUNT_BITS - 1.

Definition TIMEOUT_EPOCH_SHIFT : Z := REFCOUNT_BITS.
Definition TIMEOUT_EPOCH_BITS : Z := 16.
Definition TIMEOUT_EPOCH_STEP : Z := Z.shiftl 1 TIMEOUT_EPOCH_SHIFT.
Definition TIMEOUT_EPOCH_MASK : Z := Z.shiftl (Z.shiftl 1 TIMEOUT_EPOCH_BITS - 1) TIMEOUT_EPOCH_SHIFT.

(** [~mask] on 64 bits *)
Definition not64 (m : Z) : Z := 2 ^ 64 - 1 - m.

Definition is_closed (s : Z) : bool := negb (Z.land s CLOSED_MASK =? 0).
Definition initial_state : Z := Z.lor (Z.land 1 COUNT_MASK) 0.

(** ** RefCounted *)

(** The compare-exchange loop of [try_add_ref], at the point where it succeeds or
    gives up. *)
Definition try_add_ref (s : Z) : bool * Z :=
  if is_closed s then (false, s)
  else if Z.land s COUNT_MASK =? COUNT_MASK then (false, s)
  else (true, Z.lor (Z.land s (not64 COUNT_MASK)) (Z.land s COUNT_MASK + 1)).

Definition add_ref (s : Z) : Z := u64 (s + 1).

(** [release]: the new word, and whether [destroy] is called. *)
Definition release (s : Z) : bool * Z := (Z.land s COUNT_MASK =? 1, u64 (s - 1)).

(** ** SocketHeader *)

Definition decrease_ref (s : Z) : Z := u64 (s - 1).
Definition close_for_new_refs (s : Z) : Z := Z.lor s CLOSED_MASK.

Definition try_mark_busy (s : Z) : bool * Z :=
  if negb (Z.land s (Z.lor CLOSED_MASK (Z.lor DISCONNECTED_MASK BUSY_MASK)) =? 0) then (false, s)
  else (true, Z.lor s BUSY_MASK).
Definition clear_busy (s : Z) : Z := Z.land s (not64 BUSY_MASK).
Definition is_busy_now (s : Z) : bool := negb (Z.land s BUSY_MASK =? 0).

(** [reuseaddr]: the build with UVENT_ENABLE_REUSEADDR. *)
Definition try_mark_reading (reuseaddr : bool) (s : Z) : bool * Z :=
  if negb reuseaddr && negb (Z.land s CLOSED_MASK =? 0) then (false, s) else (true, Z.lor s READING_MASK).
Definition clear_reading (s : Z) : Z := Z.land s (not64 READING_MASK).
Definition is_reading_now (s : Z) : bool := negb (Z.land s READING_MASK =? 0).

Definition try_mark_writing (reuseaddr : bool) (s : Z) : bool * Z :=
  if negb reuseaddr && negb (Z.land s CLOSED_MASK =? 0) then (false, s) else (true, Z.lor s WRITING_MASK).
Definition clear_writing (s : Z) : Z := Z.land s (not64 WRITING_MASK).
Definition is_writing_now (s : Z) : bool := negb (Z.land s WRITING_MASK =? 0).

Definition mark_disconnected (s : Z) : Z := Z.lor s DISCONNECTED_MASK.
Definition is_disconnected_now (s : Z) : bool := negb (Z.land s DISCONNECTED_MASK =? 0).

Definition timeout_epoch_snapshot (s : Z) : Z := Z.land s TIMEOUT_EPOCH_MASK.
Definition timeout_epoch_bump (s : Z) : Z := u64 (s + TIMEOUT_EPOCH_STEP).
Definition timeout_epoch_changed (s snap : Z) : bool := negb (Z.land s TIMEOUT_EPOCH_MASK =? snap).

Definition is_done_client_coroutine_with_timeout (s : Z) : bool := Z.land s COUNT_MASK =? 1.
Definition get_counter (s : Z) : Z := Z.land s COUNT_MASK.

(** Every operation on the word is one atomic update of it (a fetch-and-op, or the
    successful round of a compare-exchange loop): a history of the word is a list of
    operations, whichever threads made them. *)
Inductive header_op :=
| TryAddRef | AddRef | Release | DecreaseRef | CloseForNewRefs
| TryMarkBusy | ClearBusy | IsBusy
| TryMarkReading | ClearReading | IsReading
| TryMarkWriting | ClearWriting | IsWriting
| MarkDisconnected | IsDisconnected
| EpochSnapshot | EpochBump | EpochChanged (snap : Z)
| GetCounter | IsDoneClient.

(** What the operation answers, if it answers anything. *)
Inductive header_answer := NoAnswer | Answer (b : bool) | Value (z : Z).

Definition header_step (reuseaddr : bool) (op : header_op) (s : Z) : header_answer * Z :=
  let ask r := (Answer (fst r), snd r) in
  match op with
  | TryAddRef => ask (try_add_ref s)
  | AddRef => (NoAnswer, add_ref s)
  | Release => ask (release s)
  | DecreaseRef => (NoAnswer, decrease_ref s)
  | CloseForNewRefs => (NoAnswer, close_for_new_refs s)
  | TryMarkBusy => ask (try_mark_busy s)
  | ClearBusy => (NoAnswer, clear_busy s)
  | IsBusy => (Answer (is_busy_now s), s)
  | TryMarkReading => ask (try_mark_reading reuseaddr s)
  | ClearReading => (NoAnswer, clear_reading s)
  | IsReading => (Answer (is_reading_now s), s)
  | TryMarkWriting => ask (try_mark_writing reuseaddr s)
  | ClearWriting => (NoAnswer, clear_writing s)
  | IsWriting => (Answer (is_writing_now s), s)
  | MarkDisconnected => (NoAnswer, mark_disconnected s)
  | IsDisconnected => (Answer (is_disconnected_now s), s)
  | EpochSnapshot => (Value (timeout_epoch_snapshot s), s)
  | EpochBump => (NoAnswer, timeout_epoch_bump s)
  | EpochChanged snap => (Answer (timeout_epoch_changed s snap), s)
  | GetCounter => (Value (get_counter s), s)
  | IsDoneClient => (Answer (is_done_client_coroutine_with_timeout s), s)
  end.

Fixpoint header_run (reuseaddr : bool) (ops : list header_op) (s : Z) : list header_answer * Z :=
  match ops with
  | [] => ([], s)
  | op :: ops =>
      let '(a, s) := header_step reuseaddr op s in
      let '(l, s) := header_run reuseaddr ops s in (a :: l, s)
  end.

(** * The read and write words *)

Definition READY : Z := 1.

Definition handle_of (w : Z) : option Z :=
  if negb (Z.land w (not64 READY) =? 0) then Some (Z.land w (not64 READY)) else None.

(** [fire_read], [fire_write]: the parked waiter, and the word left. *)
Definition fire (w : Z) : option Z * Z := (handle_of w, READY).
Definition take_waiter (w : Z) : option Z * Z := (handle_of w, 0).
Definition unpark (h : Z) (w : Z) : bool * Z := if w =? h then (true, 0) else (false, w).
Definition is_armed (w : Z) : bool := negb (Z.land w READY =? 0).
Definition disarm (w : Z) : Z := if w =? READY then 0 else w.

(** One turn of the loop of [park] with the value [cur] last seen: the answer, or
    the value to go on with. *)
Definition park_turn (me cur w : Z) : (bool + Z) * Z :=
  if negb (Z.land cur READY =? 0) then
    if w =? cur then (inl false, 0) else (inr w, w)
  else if cur =? 0 then
    if w =? cur then (inl true, me) else (inr w, w)
  else (inl true, w).

(** * A reader, the poller and the kernel

    One direction of one socket: a coroutine that reads until [EAGAIN] and then
    suspends ([AwaiterRead]), the edge-triggered poller that fires the word, the
    kernel whose readiness changes, and cancellation or timeout that take the waiter
    away.  The writer's side is the same machine. *)

Inductive rpc :=
| RIdle                (** in no operation *)
| RCheck               (** [if (is_read_armed())] *)
| RDisarm              (** [disarm_read()] *)
| RProbe               (** [recv] *)
| RParkLoad            (** [park]: [word.load()] *)
| RParkTurn (cur : Z)
| RSusp                (** suspended *)
| RAsleepWithoutProbe. (** [async_sendfile]: [co_await AwaiterWrite] before any probe *)

Record park_st := mkPark {
  word : Z;
  ready : bool;     (** the kernel has something to read *)
  edge : bool;      (** an event the poller has not handled yet *)
  reader : rpc;
  queued : bool     (** the reader is in a run queue *)
}.

Inductive park_event :=
| KArrive             (** data arrives: readiness and an edge *)
| KPoll               (** the poller handles the event *)
| KRead (more : bool) (** the reader makes a step; [more]: data is left after a read *)
| KStart              (** it starts to read *)
| KStartBlind         (** it starts [async_sendfile] *)
| KResume             (** its worker resumes it *)
| KUnpark             (** the cancel hook *)
| KTake.              (** timeout or teardown *)

(** The step of the reader's coroutine, whose frame is at [me]. *)
Definition reader_step (me : Z) (more : bool) (σ : park_st) : option park_st :=
  match reader σ with
  | RIdle | RSusp => None
  | RCheck => Some {| σ with reader := if is_armed (word σ) then RDisarm else RProbe |}
  | RDisarm => Some {| σ with word := disarm (word σ); reader := RProbe |}
  | RProbe =>
      if ready σ then Some {| σ with ready := more; reader := RIdle |}
      else Some {| σ with reader := RParkLoad |}
  | RParkLoad => Some {| σ with reader := RParkTurn (word σ) |}
  | RAsleepWithoutProbe => Some {| σ with reader := RParkTurn (word σ) |}
  | RParkTurn cur =>
      let '(r, w) := park_turn me cur (word σ) in
      match r with
      | inl true => Some {| σ with word := w; reader := RSusp |}
      | inl false => Some {| σ with word := w; reader := RSusp; queued := true |}
      | inr cur => Some {| σ with word := w; reader := RParkTurn cur |}
      end
  end.

Definition park_step (me : Z) (e : park_event) (σ : park_st) : option park_st :=
  match e with
  | KArrive => Some {| σ with ready := true; edge := true |}
  | KPoll =>
      if edge σ then
        let '(h, w) := fire (word σ) in
        Some {| σ with word := w; edge := false; queued := queued σ || (if h is Some _ then true else false) |}
      else None
  | KRead more => reader_step me more σ
  | KStart => match reader σ with RIdle => Some {| σ with reader := RCheck |} | _ => None end
  | KStartBlind => match reader σ with RIdle => Some {| σ with reader := RAsleepWithoutProbe |} | _ => None end
  | KResume =>
      match reader σ, queued σ with
      | RSusp, true => Some {| σ with reader := RCheck; queued := false |}
      | _, _ => None
      end
  | KUnpark =>
      let '(b, w) := unpark me (word σ) in
      Some {| σ with word := w; queued := queued σ || b |}
  | KTake =>
      (* the timer runs on the worker the reader is pinned to, between its steps *)
      match reader σ with
      | RIdle | RSusp =>
          let '(h, w) := take_waiter (word σ) in
          Some {| σ with word := w; queued := queued σ || (if h is Some _ then true else false) |}
      | _ => None
      end
  end.

Definition park_init : park_st := mkPark 0 false false RIdle false.

Definition blind (e : park_event) : bool := match e with KStartBlind => true | _ => false end.

(** Runs in which every waiter probes before it parks. *)
Definition park_steps (me : Z) : relation park_st :=
  λ σ σ', ∃ e, blind e = false ∧ park_step me e σ = Some σ'.
End SocketHeader.
