(* ===== verification/SocketHeaderCorrect.v ===== *)
(** The fields of the socket header's state word do not disturb each other, until
    the timeout epoch has been bumped too often; the hand-over of wake-ups between a
    reader and the poller loses none, provided the reader probes before it parks. *)

From S2P Require Import Prelude SocketHeader.

Module SocketHeaderCorrect.
Import SocketHeader.

(** * Bits *)

Section bits.
Context (k low hi : Z) (b : bool) (Hk : 0 <= k) (Hlow : 0 <= low < 2 ^ k).

Let s := low + 2 ^ k * (Z.b2z b + 2 * hi).

Lemma b_cases : (b = true ∧ s = low + 2 ^ k * (1 + 2 * hi)) ∨ (b = false ∧ s = low + 2 ^ k * (2 * hi)).
Proof. unfold s. destruct b; [by left|by right]. Qed.

Lemma split_testbit : Z.testbit s k = b.
Proof.
  unfold s. apply Z.b2z_inj. rewrite Z.testbit_spec' by done.
  rewrite (Z.mul_comm (2 ^ k)), Z.div_add by lia. rewrite Z.div_small by done.
  rewrite Z.add_0_l, (Z.mul_comm 2), Z.mod_add by done. by destruct b.
Qed.

Lemma split_land : Z.land s (2 ^ k) = if b then 2 ^ k else 0.
Proof.
  apply Z.bits_inj'. intros n Hn. rewrite Z.land_spec, Z.pow2_bits_eqb by done.
  destruct (Z.eqb_spec k n) as [<-|Hne].
  - rewrite split_testbit. destruct b; [by rewrite Z.pow2_bits_true|by rewrite Z.bits_0].
  - rewrite andb_false_r. destruct b; [|by rewrite Z.bits_0]. by rewrite Z.pow2_bits_false.
Qed.

Lemma split_lor : Z.lor s (2 ^ k) = low + 2 ^ k * (1 + 2 * hi).
Proof.
  assert (Hl := split_land). destruct b_cases as [[Eb Es]|[Eb Es]]; rewrite Eb in Hl.
  - assert (Z.lor s (2 ^ k) = s) as ->; [|done].
    apply Z.bits_inj'. intros n Hn. rewrite Z.lor_spec, Z.pow2_bits_eqb by done.
    destruct (Z.eqb_spec k n) as [<-|Hne]; [by rewrite split_testbit, Eb|by rewrite orb_false_r].
  - rewrite <- Z.lxor_lor, <- Z.add_nocarry_lxor by done. rewrite Es. lia.
Qed.

Lemma split_clear : 0 <= s < 2 ^ 64 → k < 64 → Z.land s (not64 (2 ^ k)) = low + 2 ^ k * (2 * hi).
Proof.
  intros Hs Hk64. assert (H2k : 2 ^ k < 2 ^ 64) by (apply Z.pow_lt_mono_r; lia).
  assert (not64 (2 ^ k) = Z.ldiff (Z.ones 64) (2 ^ k)) as ->.
  { rewrite <- Z.sub_nocarry_ldiff; [by rewrite Z.ones_equiv|].
    rewrite Z.ldiff_ones_r by done. rewrite Z.shiftr_div_pow2 by done. rewrite Z.div_small by lia. done. }
  assert (Z.land s (Z.ldiff (Z.ones 64) (2 ^ k)) = Z.ldiff s (2 ^ k)) as ->.
  { rewrite !Z.ldiff_land, Z.land_assoc, Z.land_ones by done. by rewrite Z.mod_small. }
  assert (Hl := split_land). destruct b_cases as [[Eb Es]|[Eb Es]]; rewrite Eb in Hl.
  - rewrite <- Z.sub_nocarry_ldiff; [rewrite Es; lia|].
    apply Z.bits_inj'. intros n Hn. rewrite Z.ldiff_spec, Z.pow2_bits_eqb, Z.bits_0 by done.
    destruct (Z.eqb_spec k n) as [<-|Hne]; [by rewrite split_testbit, Eb|done].
  - assert (Z.ldiff s (2 ^ k) = s) as ->; [|exact Es].
    apply Z.bits_inj'. intros n Hn. rewrite Z.ldiff_spec, Z.pow2_bits_eqb by done.
    destruct (Z.eqb_spec k n) as [<-|Hne]; [by rewrite split_testbit, Eb|by rewrite andb_true_r].
Qed.
End bits.

(** * The fields *)

Record fields := mkFields {
  count : Z;
  epoch : Z;   (** with bit 56, which nothing else uses *)
  write_pending : bool;
  read_pending : bool;
  disconnected : bool;
  writing : bool;
  reading : bool;
  busy : bool;
  closed : bool
}.

Definition fields_ok (f : fields) : Prop := 0 <= count f < 2 ^ 40 ∧ 0 <= epoch f < 2 ^ 17.

Definition encode (f : fields) : Z :=
  count f + 2 ^ 40 * epoch f + 2 ^ 57 * Z.b2z (write_pending f) + 2 ^ 58 * Z.b2z (read_pending f)
  + 2 ^ 59 * Z.b2z (disconnected f) + 2 ^ 60 * Z.b2z (writing f) + 2 ^ 61 * Z.b2z (reading f)
  + 2 ^ 62 * Z.b2z (busy f) + 2 ^ 63 * Z.b2z (closed f).

Lemma b2z_range b : 0 <= Z.b2z b <= 1.
Proof. by destruct b. Qed.

Ltac ranges f :=
  pose proof (b2z_range (write_pending f)); pose proof (b2z_range (read_pending f));
  pose proof (b2z_range (disconnected f)); pose proof (b2z_range (writing f));
  pose proof (b2z_range (reading f)); pose proof (b2z_range (busy f)); pose proof (b2z_range (closed f)).

Section with_fields.
Context (f : fields) (Hf : fields_ok f).

Lemma encode_range : 0 <= encode f < 2 ^ 64.
Proof. destruct Hf. unfold encode. ranges f. lia. Qed.

(** The word seen from one of its flags: below it, the flag, above it. *)
Definition low57 : Z := count f + 2 ^ 40 * epoch f.
Definition low59 : Z := low57 + 2 ^ 57 * Z.b2z (write_pending f) + 2 ^ 58 * Z.b2z (read_pending f).
Definition low60 : Z := low59 + 2 ^ 59 * Z.b2z (disconnected f).
Definition low61 : Z := low60 + 2 ^ 60 * Z.b2z (writing f).
Definition low62 : Z := low61 + 2 ^ 61 * Z.b2z (reading f).
Definition low63 : Z := low62 + 2 ^ 62 * Z.b2z (busy f).

Ltac lows := destruct Hf; unfold encode, low63, low62, low61, low60, low59, low57; ranges f; lia.

Lemma at59 : encode f = low59 + 2 ^ 59 * (Z.b2z (disconnected f) + 2 * (Z.b2z (writing f)
  + 2 * Z.b2z (reading f) + 4 * Z.b2z (busy f) + 8 * Z.b2z (closed f))) ∧ 0 <= low59 < 2 ^ 59.
Proof. lows. Qed.
Lemma at60 : encode f = low60 + 2 ^ 60 * (Z.b2z (writing f) + 2 * (Z.b2z (reading f)
  + 2 * Z.b2z (busy f) + 4 * Z.b2z (closed f))) ∧ 0 <= low60 < 2 ^ 60.
Proof. lows. Qed.
Lemma at61 : encode f = low61 + 2 ^ 61 * (Z.b2z (reading f) + 2 * (Z.b2z (busy f) + 2 * Z.b2z (closed f)))
  ∧ 0 <= low61 < 2 ^ 61.
Proof. lows. Qed.
Lemma at62 : encode f = low62 + 2 ^ 62 * (Z.b2z (busy f) + 2 * Z.b2z (closed f)) ∧ 0 <= low62 < 2 ^ 62.
Proof. lows. Qed.
Lemma at63 : encode f = low63 + 2 ^ 63 * (Z.b2z (closed f) + 2 * 0) ∧ 0 <= low63 < 2 ^ 63.
Proof. lows. Qed.

Lemma encode_count : Z.land (encode f) COUNT_MASK = count f.
Proof.
  change COUNT_MASK with (2 ^ 40 - 1). rewrite land_mask by done. destruct Hf.
  assert (encode f = count f + (epoch f + 2 ^ 17 * (Z.b2z (write_pending f) + 2 * Z.b2z (read_pending f)
    + 4 * Z.b2z (disconnected f) + 8 * Z.b2z (writing f) + 16 * Z.b2z (reading f) + 32 * Z.b2z (busy f)
    + 64 * Z.b2z (closed f))) * 2 ^ 40) as -> by (unfold encode; lia).
  rewrite Z.mod_add by done. by apply Z.mod_small.
Qed.

Lemma encode_epoch : Z.land (encode f) TIMEOUT_EPOCH_MASK = epoch f mod 2 ^ 16 * 2 ^ 40.
Proof.
  change TIMEOUT_EPOCH_MASK with (Z.shiftl (2 ^ 16 - 1) 40).
  assert (Z.land (encode f) (Z.shiftl (2 ^ 16 - 1) 40)
          = Z.shiftl (Z.land (Z.shiftr (encode f) 40) (2 ^ 16 - 1)) 40) as ->.
  { apply Z.bits_inj'. intros n Hn. rewrite Z.land_spec, !Z.shiftl_spec, Z.land_spec by done.
    destruct (Z.neg_nonneg_cases (n - 40)) as [Hneg|Hpos].
    - rewrite !(Z.testbit_neg_r _ (n - 40)) by done. by rewrite !andb_false_r.
    - rewrite Z.shiftr_spec by done. by replace (n - 40 + 40) with n by lia. }
  rewrite Z.shiftl_mul_pow2, land_mask, Z.shiftr_div_pow2 by done. f_equal. destruct Hf.
  assert (encode f / 2 ^ 40 = epoch f + (Z.b2z (write_pending f) + 2 * Z.b2z (read_pending f)
    + 4 * Z.b2z (disconnected f) + 8 * Z.b2z (writing f) + 16 * Z.b2z (reading f) + 32 * Z.b2z (busy f)
    + 64 * Z.b2z (closed f)) * 2 * 2 ^ 16) as ->.
  { symmetry. apply Z.div_unique with (count f); [lia|]. unfold encode. lia. }
  by rewrite Z.mod_add.
Qed.

(** ** Setting, clearing and reading a flag *)

Lemma encode_closed : Z.land (encode f) CLOSED_MASK = if closed f then 2 ^ 63 else 0.
Proof. destruct at63 as [-> H]. by apply (split_land 63). Qed.
Lemma encode_busy : Z.land (encode f) BUSY_MASK = if busy f then 2 ^ 62 else 0.
Proof. destruct at62 as [-> H]. by apply (split_land 62). Qed.
Lemma encode_reading : Z.land (encode f) READING_MASK = if reading f then 2 ^ 61 else 0.
Proof. destruct at61 as [-> H]. by apply (split_land 61). Qed.
Lemma encode_writing : Z.land (encode f) WRITING_MASK = if writing f then 2 ^ 60 else 0.
Proof. destruct at60 as [-> H]. by apply (split_land 60). Qed.
Lemma encode_disconnected : Z.land (encode f) DISCONNECTED_MASK = if disconnected f then 2 ^ 59 else 0.
Proof. destruct at59 as [-> H]. by apply (split_land 59). Qed.

Ltac set_flag k at_ :=
  destruct at_ as [E ?]; rewrite E;
  (etransitivity; [by apply (split_lor k)|]); unfold encode, low63, low62, low61, low60, low59, low57; cbn; lia.

Lemma set_closed : Z.lor (encode f) CLOSED_MASK = encode {| f with closed := true |}.
Proof. set_flag 63 at63. Qed.
Lemma set_busy : Z.lor (encode f) BUSY_MASK = encode {| f with busy := true |}.
Proof. set_flag 62 at62. Qed.
Lemma set_reading : Z.lor (encode f) READING_MASK = encode {| f with reading := true |}.
Proof. set_flag 61 at61. Qed.
Lemma set_writing : Z.lor (encode f) WRITING_MASK = encode {| f with writing := true |}.
Proof. set_flag 60 at60. Qed.
Lemma set_disconnected : Z.lor (encode f) DISCONNECTED_MASK = encode {| f with disconnected := true |}.
Proof. set_flag 59 at59. Qed.

Ltac clear_flag k at_ :=
  pose proof encode_range as R; destruct at_ as [E ?]; rewrite E in R |- *;
  (etransitivity; [by apply (split_clear k)|]); unfold encode, low63, low62, low61, low60, low59, low57; cbn; lia.

Lemma unset_busy : Z.land (encode f) (not64 BUSY_MASK) = encode {| f with busy := false |}.
Proof. clear_flag 62 at62. Qed.
Lemma unset_reading : Z.land (encode f) (not64 READING_MASK) = encode {| f with reading := false |}.
Proof. clear_flag 61 at61. Qed.
Lemma unset_writing : Z.land (encode f) (not64 WRITING_MASK) = encode {| f with writing := false |}.
Proof. clear_flag 60 at60. Qed.
End with_fields.

(** * What the operations mean on the fields *)

Definition fields_step (reuseaddr : bool) (op : header_op) (f : fields) : header_answer * fields :=
  match op with
  | TryAddRef =>
      if closed f || (count f =? 2 ^ 40 - 1) then (Answer false, f)
      else (Answer true, {| f with count := count f + 1 |})
  | AddRef => (NoAnswer, {| f with count := count f + 1 |})
  | Release => (Answer (count f =? 1), {| f with count := count f - 1 |})
  | DecreaseRef => (NoAnswer, {| f with count := count f - 1 |})
  | CloseForNewRefs => (NoAnswer, {| f with closed := true |})
  | TryMarkBusy =>
      if closed f || (disconnected f || busy f) then (Answer false, f)
      else (Answer true, {| f with busy := true |})
  | ClearBusy => (NoAnswer, {| f with busy := false |})
  | IsBusy => (Answer (busy f), f)
  | TryMarkReading =>
      if negb reuseaddr && closed f then (Answer false, f) else (Answer true, {| f with reading := true |})
  | ClearReading => (NoAnswer, {| f with reading := false |})
  | IsReading => (Answer (reading f), f)
  | TryMarkWriting =>
      if negb reuseaddr && closed f then (Answer false, f) else (Answer true, {| f with writing := true |})
  | ClearWriting => (NoAnswer, {| f with writing := false |})
  | IsWriting => (Answer (writing f), f)
  | MarkDisconnected => (NoAnswer, {| f with disconnected := true |})
  | IsDisconnected => (Answer (disconnected f), f)
  | EpochSnapshot => (Value (epoch f mod 2 ^ 16 * 2 ^ 40), f)
  | EpochBump => (NoAnswer, {| f with epoch := epoch f + 1 |})
  | EpochChanged snap => (Answer (negb (epoch f mod 2 ^ 16 * 2 ^ 40 =? snap)), f)
  | GetCounter => (Value (count f), f)
  | IsDoneClient => (Answer (count f =? 1), f)
  end.

(** The contract: references are given back at most once, fewer than 2^40 are handed
    out unconditionally, and the epoch has room. *)
Definition allowed (op : header_op) (f : fields) : Prop :=
  match op with
  | AddRef => count f + 1 < 2 ^ 40
  | Release | DecreaseRef => 0 < count f
  | EpochBump => epoch f + 1 < 2 ^ 17
  | _ => True
  end.
#[export] Instance allowed_dec op f : Decision (allowed op f).
Proof. destruct op; unfold allowed; apply _. Defined.

Fixpoint fields_run (reuseaddr : bool) (ops : list header_op) (f : fields) : list header_answer * fields :=
  match ops with
  | [] => ([], f)
  | op :: ops =>
      let '(a, f) := fields_step reuseaddr op f in
      let '(l, f) := fields_run reuseaddr ops f in (a :: l, f)
  end.

Fixpoint all_allowed (reuseaddr : bool) (ops : list header_op) (f : fields) : Prop :=
  match ops with
  | [] => True
  | op :: ops => allowed op f ∧ all_allowed reuseaddr ops (fields_step reuseaddr op f).2
  end.

Lemma land_eqb_flag k (b : bool) : 0 <= k → ((if b then 2 ^ k else 0) =? 0) = negb b.
Proof. intros. destruct b; [|done]. apply Z.eqb_neq. lia. Qed.

Section steps.
Context (f : fields) (Hf : fields_ok f).

Lemma encode_is_closed : is_closed (encode f) = closed f.
Proof. unfold is_closed. rewrite encode_closed by done. by destruct (closed f). Qed.

(** Replacing the count leaves the other fields. *)
Lemma encode_count_set c : 0 <= c < 2 ^ 40 →
  Z.lor (Z.land (encode f) (not64 COUNT_MASK)) c = encode {| f with count := c |}.
Proof.
  intros Hc. pose proof (encode_range f Hf) as R. pose proof (encode_count f Hf) as Ec.
  assert (Z.land (encode f) (not64 COUNT_MASK) = encode f - count f) as ->.
  { change (not64 COUNT_MASK) with (Z.ldiff (Z.ones 64) COUNT_MASK).
    transitivity (Z.ldiff (encode f) COUNT_MASK).
    - rewrite !Z.ldiff_land, Z.land_assoc, Z.land_ones by done. by rewrite Z.mod_small.
    - rewrite <- Ec. rewrite Z.sub_nocarry_ldiff.
      + apply Z.bits_inj'. intros n Hn. rewrite !Z.ldiff_spec, Z.land_spec.
        by destruct (Z.testbit (encode f) n), (Z.testbit COUNT_MASK n).
      + apply Z.bits_inj'. intros n Hn. rewrite Z.ldiff_spec, Z.land_spec, Z.bits_0.
        by destruct (Z.testbit (encode f) n), (Z.testbit COUNT_MASK n). }
  assert (Hand : Z.land (encode f - count f) c = 0).
  { rewrite <- (Z.mod_small c (2 ^ 40)) by done. rewrite <- Z.land_ones by done.
    rewrite (Z.land_comm c), Z.land_assoc, Z.land_ones by done.
    replace ((encode f - count f) mod 2 ^ 40) with 0; [apply Z.land_0_l|].
    rewrite <- Ec. change COUNT_MASK with (2 ^ 40 - 1). rewrite land_mask by done.
    rewrite Zminus_mod, Z.mod_mod by done. by rewrite Z.sub_diag. }
  rewrite <- Z.lxor_lor, <- Z.add_nocarry_lxor by done. unfold encode. cbn. lia.
Qed.

Lemma try_add_ref_spec : try_add_ref (encode f) =
  if closed f || (count f =? 2 ^ 40 - 1) then (false, encode f) else (true, encode {| f with count := count f + 1 |}).
Proof.
  unfold try_add_ref. rewrite encode_is_closed, encode_count by done.
  destruct (closed f) eqn:Ecl; [done|]. change COUNT_MASK with (2 ^ 40 - 1) at 1. cbn [orb].
  destruct (Z.eqb_spec (count f) (2 ^ 40 - 1)); [done|].
  destruct Hf. rewrite encode_count_set by lia. by rewrite Ecl.
Qed.

Lemma try_mark_busy_spec : try_mark_busy (encode f) =
  if closed f || (disconnected f || busy f) then (false, encode f) else (true, encode {| f with busy := true |}).
Proof.
  unfold try_mark_busy. rewrite !Z.land_lor_distr_r, encode_closed, encode_disconnected, encode_busy by done.
  rewrite set_busy by done. by destruct (closed f) eqn:?, (disconnected f) eqn:?, (busy f) eqn:?.
Qed.

(** Adding to the count or the epoch without a carry changes that field only. *)
Lemma encode_eq_mod s g : fields_ok g → s = encode g → u64 s = encode g.
Proof. intros Hg ->. by apply wrap_small, encode_range. Qed.

Ltac add_field :=
  apply encode_eq_mod; [done|]; unfold TIMEOUT_EPOCH_STEP, encode;
  cbn [count epoch write_pending read_pending disconnected writing reading busy closed];
  change (Z.shiftl 1 TIMEOUT_EPOCH_SHIFT) with (2 ^ 40); lia.

Lemma step_ok reuseaddr op : allowed op f → fields_ok (fields_step reuseaddr op f).2.
Proof.
  intros Ha. destruct Hf as [Hc He]. destruct op; cbn in Ha |- *; try done;
    try case_match; try done; split; cbn; lia || (b2p; lia).
Qed.

Lemma step_refines reuseaddr op : allowed op f →
  header_step reuseaddr op (encode f) =
    ((fields_step reuseaddr op f).1, encode (fields_step reuseaddr op f).2)
  ∧ fields_ok (fields_step reuseaddr op f).2.
Proof.
  intros Ha. pose proof (step_ok reuseaddr op Ha) as Hok. split; [|done].
  destruct op; cbn [header_step fields_step] in *;
    unfold add_ref, release, decrease_ref, close_for_new_refs, clear_busy, is_busy_now, try_mark_reading,
      clear_reading, is_reading_now, try_mark_writing, clear_writing, is_writing_now, mark_disconnected,
      is_disconnected_now, timeout_epoch_snapshot, timeout_epoch_bump, timeout_epoch_changed,
      is_done_client_coroutine_with_timeout, get_counter;
    rewrite ?try_add_ref_spec, ?try_mark_busy_spec, ?encode_count, ?encode_epoch, ?encode_closed,
      ?encode_busy, ?encode_reading, ?encode_writing, ?encode_disconnected, ?set_closed, ?set_busy,
      ?set_reading, ?set_writing, ?set_disconnected, ?unset_busy, ?unset_reading, ?unset_writing by done;
    rewrite ?land_eqb_flag, ?negb_involutive by done; try done; try (case_match; done);
    cbn [fst snd] in *; f_equal; add_field.
Qed.
End steps.

Lemma run_refines reuseaddr ops : ∀ f, fields_ok f → all_allowed reuseaddr ops f →
  header_run reuseaddr ops (encode f) =
    ((fields_run reuseaddr ops f).1, encode (fields_run reuseaddr ops f).2).
Proof.
  induction ops as [|op ops IH]; intros f Hf Ha; [done|]. destruct Ha as [Ha1 Ha2].
  destruct (step_refines f Hf reuseaddr op Ha1) as [E Hok]. cbn [header_run fields_run].
  rewrite E. destruct (fields_step reuseaddr op f) as [a f1]; cbn in *.
  rewrite (IH f1 Hok Ha2). by destruct (fields_run reuseaddr ops f1).
Qed.

(** The header of a fresh socket. *)
Definition fresh : fields := mkFields 1 0 false false false false false false false.

(** The 64-bit state word behaves as the record of its fields.  Over every
    history of operations that respects the contract, from any state, each operation
    answers what it would answer on the record, changes only its own field, and
    [release] asks for destruction exactly when it drops the last reference. *)
Theorem header_word_is_its_fields reuseaddr ops f :
  fields_ok f → all_allowed reuseaddr ops f →
  encode fresh = initial_state
  ∧ header_run reuseaddr ops (encode f) = ((fields_run reuseaddr ops f).1, encode (fields_run reuseaddr ops f).2).
Proof. intros Hf Ha. split; [done|]. by apply run_refines. Qed.

Lemma header_word_is_its_fields_witness :
  header_run true [TryAddRef; TryMarkBusy; EpochBump; MarkDisconnected; CloseForNewRefs; TryAddRef;
                   TryMarkBusy; ClearBusy; GetCounter; Release; Release] initial_state =
    ([Answer true; Answer true; NoAnswer; NoAnswer; NoAnswer; Answer false; Answer false; NoAnswer; Value 2;
      Answer false; Answer true], encode (mkFields 0 1 false false true false false false true)).
Proof.
  apply (header_word_is_its_fields true [TryAddRef; TryMarkBusy; EpochBump; MarkDisconnected; CloseForNewRefs;
    TryAddRef; TryMarkBusy; ClearBusy; GetCounter; Release; Release] fresh).
  - split; done.
  - cbn. repeat split.
Defined.

(** ** The epoch carries into the flags *)

Lemma land_pow2_testbit s k : 0 <= k → negb (Z.land s (2 ^ k) =? 0) = Z.testbit s k.
Proof.
  intros Hk. destruct (Z.testbit s k) eqn:E.
  - apply negb_true_iff, Z.eqb_neq. intros H0. apply (f_equal (λ z, Z.testbit z k)) in H0.
    by rewrite Z.land_spec, E, Z.pow2_bits_true, Z.bits_0 in H0.
  - apply negb_false_iff, Z.eqb_eq, Z.bits_inj'. intros n Hn.
    rewrite Z.land_spec, Z.pow2_bits_eqb, Z.bits_0 by done.
    destruct (Z.eqb_spec k n) as [<-|]; [by rewrite E|apply andb_false_r].
Qed.

Lemma bumps n : Nat.iter n timeout_epoch_bump initial_state = u64 (1 + Z.of_nat n * 2 ^ 40).
Proof.
  induction n as [|n IH]; [done|]. rewrite Nat.iter_succ, IH. unfold timeout_epoch_bump, wrap.
  rewrite Zplus_mod_idemp_l. f_equal. change TIMEOUT_EPOCH_STEP with (2 ^ 40). lia.
Qed.

Lemma bumps_bit n k : 0 <= k < 24 →
  negb (Z.land (Nat.iter n timeout_epoch_bump initial_state) (2 ^ (40 + k)) =? 0) = Z.testbit (Z.of_nat n) k.
Proof.
  intros Hk. rewrite land_pow2_testbit by lia. rewrite bumps. unfold wrap.
  rewrite Z.mod_pow2_bits_low by lia.
  rewrite (Z.add_comm 40 k), <- (Z.div_pow2_bits _ 40 k) by lia. f_equal. symmetry.
  apply Z.div_unique with 1; lia.
Qed.

(** The timeout epoch is not confined to its 16 bits.  [timeout_epoch_bump] adds
    to the whole word, so the bumps of one connection count through bit 55: a socket
    that was never disconnected, marked busy or closed reports being disconnected
    exactly when bit 19 of the number of its bumps is set (from the 524288th on),
    busy at bit 22 and closed at bit 23, while its reference count stays 1. *)
Theorem timeout_epoch_overflows n :
  let s := Nat.iter n timeout_epoch_bump initial_state in
  is_disconnected_now s = Z.testbit (Z.of_nat n) 19
  ∧ is_busy_now s = Z.testbit (Z.of_nat n) 22
  ∧ is_closed s = Z.testbit (Z.of_nat n) 23
  ∧ get_counter s = 1.
Proof.
  cbv zeta. split_and!; [by apply (bumps_bit n 19)|by apply (bumps_bit n 22)|by apply (bumps_bit n 23)|].
  rewrite bumps. unfold get_counter. change COUNT_MASK with (2 ^ 40 - 1). rewrite land_mask by done.
  rewrite wrap_mod_pow2 by done. by rewrite Z.mod_add.
Qed.
End SocketHeaderCorrect.

(** The hand-over of wake-ups between a coroutine that reads or writes a socket, the
    edge-triggered poller and cancellation loses none, provided the coroutine probes
    the socket before it parks. *)

Module SocketParkCorrect.
Import SocketHeader SocketHeaderCorrect.

(** The address of a coroutine frame: not null, and even, so that [READY] is free. *)
Definition frame_address (me : Z) : Prop := 0 < me < 2 ^ 64 ∧ Z.even me = true.

Section protocol.
Context (me : Z) (Hme : frame_address me).

Lemma me_ne : me ≠ 0 ∧ me ≠ READY.
Proof. destruct Hme as [? He]. split; [lia|]. intros ->. done. Qed.

Lemma handle_of_me : handle_of me = Some me.
Proof.
  destruct Hme as [R He]. apply Z.even_spec in He as [q ->]. unfold handle_of, READY.
  pose proof (split_clear 0 0 q false) as E. cbn in E. rewrite !Z.mul_1_l in E.
  assert (Z.land (2 * q) (not64 1) = 2 * q) as ->; [|destruct (Z.eqb_spec (2 * q) 0); [lia|done]].
  destruct q; apply E; lia.
Qed.

Lemma handle_of_none : handle_of 0 = None ∧ handle_of READY = None.
Proof. done. Qed.

Lemma park_turns :
  park_turn me 0 0 = (inl true, me) ∧ park_turn me READY READY = (inl false, 0)
  ∧ park_turn me 0 READY = (inr READY, READY) ∧ park_turn me READY 0 = (inr 0, 0).
Proof. done. Qed.

Lemma me_tests : (me =? 0) = false ∧ (me =? READY) = false ∧ (READY =? me) = false ∧ (0 =? me) = false ∧ (me =? me) = true.
Proof. destruct me_ne. split_and!; by apply Z.eqb_neq || apply Z.eqb_refl. Qed.

(** The three values of the word, with what they say about the reader. *)
Inductive park_view : park_st → Prop :=
| view_parked rdy edg : (rdy = true → edg = true) → park_view (mkPark me rdy edg RSusp false)
| view_queued w rdy edg : w = 0 ∨ w = READY → park_view (mkPark w rdy edg RSusp true)
| view_committing w rdy edg r :
    w = 0 ∨ w = READY → r = RParkLoad ∨ r = RParkTurn 0 ∨ r = RParkTurn READY →
    (rdy = true → edg = true ∨ w = READY) → park_view (mkPark w rdy edg r false)
| view_running w rdy edg r :
    w = 0 ∨ w = READY → r = RIdle ∨ r = RCheck ∨ r = RDisarm ∨ r = RProbe → park_view (mkPark w rdy edg r false).

Lemma park_step_view e σ σ' :
  blind e = false → park_view σ → park_step me e σ = Some σ' → park_view σ'.
Proof.
  intros Hb V. destruct me_tests as (T1 & T2 & T3 & T4 & T5).
  pose proof handle_of_me as Hh. destruct handle_of_none as [N0 N1].
  destruct park_turns as (P00 & P11 & P01 & P10).
  destruct V as [rdy edg He|w rdy edg Hw|w rdy edg r Hw Hr He|w rdy edg r Hw Hr].
  - destruct e; cbn; unfold fire, take_waiter, unpark; rewrite ?Hh, ?T5; cbn; intros; simplify_eq; try by constructor; auto.
    destruct edg; simplify_eq. apply view_queued. auto.
  - destruct Hw as [-> | ->]; destruct e; cbn; unfold fire, take_waiter, unpark; rewrite ?T3, ?T4, ?N0, ?N1; cbn;
      intros; try case_match; simplify_eq/=; first [by apply view_queued; auto | by apply view_running; auto].
  - destruct Hw as [-> | ->]; destruct Hr as [-> |[-> | ->]]; destruct e; cbn;
      unfold fire, take_waiter, unpark; rewrite ?T3, ?T4, ?N0, ?N1, ?P00, ?P11, ?P01, ?P10; cbn; intros; try case_match; simplify_eq/=;
      first [by apply view_queued; auto | by apply view_committing; auto | apply view_parked; naive_solver].
  - destruct Hw as [-> | ->]; destruct Hr as [-> |[-> | [-> | ->]]]; destruct e; cbn;
      unfold fire, take_waiter, unpark; rewrite ?T3, ?T4, ?N0, ?N1; cbn; intros; try case_match; simplify_eq/=;
      first [by apply view_running; auto | by apply view_committing; auto].
Qed.

Lemma park_reachable σ : rtc (park_steps me) park_init σ → park_view σ.
Proof.
  intros H. eapply (rtc_invariant (park_steps me) park_view); [|exact H|].
  - intros a b Va (e & Hb & E). by eapply park_step_view.
  - apply view_running; auto.
Qed.
End protocol.

(** ** Runs *)

Definition park_run (me : Z) (es : list park_event) (σ : park_st) : option park_st :=
  foldl (λ o e, o ≫= park_step me e) (Some σ) es.

(** The steps of the poller, of the worker's queue and of the reader itself. *)
Definition own (e : park_event) : bool :=
  match e with KPoll | KResume | KRead _ => true | _ => false end.

Lemma woken_reads me w edg : w = 0 ∨ w = READY →
  ∃ es σ', Forall own es ∧ (length es <= 4)%nat ∧
    park_run me es (mkPark w true edg RSusp true) = Some σ' ∧ reader σ' = RIdle.
Proof.
  intros [-> | ->].
  - exists [KResume; KRead true; KRead true], (mkPark 0 true edg RIdle false).
    split_and!; [by repeat constructor|cbn; lia|done..].
  - exists [KResume; KRead true; KRead true; KRead true], (mkPark 0 true edg RIdle false).
    split_and!; [by repeat constructor|cbn; lia|done..].
Qed.

(** C8: a wake-up is not lost between a coroutine and the poller, and not delivered
    twice.  In every reachable state in which operations probe before they park, a
    parked handle belongs to a suspended coroutine that no queue holds; a suspended
    coroutine is parked or queued; if the socket is ready while it is suspended then
    it is queued or the poller has an event for it, and within five steps of the
    poller, the worker and the coroutine itself it has read. *)
Theorem socket_wakeups_not_lost me σ :
  frame_address me → rtc (park_steps me) park_init σ →
  (word σ = me → reader σ = RSusp ∧ queued σ = false)
  ∧ (reader σ = RSusp → word σ = me ∨ queued σ = true)
  ∧ (reader σ = RSusp → ready σ = true → queued σ = true ∨ edge σ = true)
  ∧ (reader σ = RSusp → ready σ = true →
       ∃ es σ', Forall own es ∧ (length es <= 5)%nat ∧ park_run me es σ = Some σ' ∧ reader σ' = RIdle).
Proof.
  intros Hme Hr. apply park_reachable in Hr; [|done]. destruct (me_ne me Hme) as [H0 H1].
  destruct Hr as [rdy edg He|w rdy edg Hw|w rdy edg r Hw Hr He|w rdy edg r Hw Hr]; cbn;
    (split_and!; [naive_solver congruence|naive_solver congruence|naive_solver congruence|]); intros Hs Hrdy.
  - subst rdy. rewrite He by done.
    destruct (woken_reads me READY false) as (es & σ' & Hown & Hlen & E & Ei); [by right|].
    exists (KPoll :: es), σ'. split_and!; [by constructor|cbn; lia| |done].
    rewrite <- E. unfold park_run. cbn. unfold fire. by rewrite handle_of_me.
  - subst rdy. destruct (woken_reads me w edg) as (es & σ' & Hown & Hlen & E & Ei); [done|].
    exists es, σ'. split_and!; [done|lia|done..].
  - destruct Hr as [-> |[-> | ->]]; done.
  - destruct Hr as [-> |[-> | [-> | ->]]]; done.
Qed.

Lemma socket_wakeups_not_lost_witness :
  ∃ es σ', Forall own es ∧ (length es <= 5)%nat ∧
    park_run 64 es (mkPark 64 true true RSusp false) = Some σ' ∧ reader σ' = RIdle.
Proof.
  apply (socket_wakeups_not_lost 64 (mkPark 64 true true RSusp false)); [by split| |done..].
  apply (rtc_l _ _ (mkPark 0 false false RCheck false)); [by exists KStart|].
  apply (rtc_l _ _ (mkPark 0 false false RProbe false)); [by exists (KRead false)|].
  apply (rtc_l _ _ (mkPark 0 false false RParkLoad false)); [by exists (KRead false)|].
  apply (rtc_l _ _ (mkPark 0 false false (RParkTurn 0) false)); [by exists (KRead false)|].
  apply (rtc_l _ _ (mkPark 64 false false RSusp false)); [by exists (KRead false)|].
  apply (rtc_l _ _ (mkPark 64 true true RSusp false)); [by exists KArrive|]. apply rtc_refl.
Defined.

(** A coroutine that parks without probing can sleep for ever.  [async_sendfile]
    awaits writability before its first attempt: on a socket that is writable, whose
    one edge an earlier write has consumed, it parks, the socket stays ready, and no
    step of the poller, the worker or the coroutine is possible: only another edge,
    a cancellation or a timeout would wake it. *)
Theorem parking_blind_can_hang me : frame_address me →
  ∃ es σ, park_run me es park_init = Some σ
    ∧ reader σ = RSusp ∧ ready σ = true ∧ queued σ = false
    ∧ (∀ e, own e = true → park_step me e σ = None).
Proof.
  intros Hme.
  exists [KArrive; KPoll; KStart; KRead true; KRead true; KRead true; KStartBlind; KRead true; KRead true],
    (mkPark me true false RSusp false).
  split_and!; [|done..|].
  - unfold park_run. cbn. unfold fire. destruct handle_of_none as [-> _]. cbn. done.
  - by intros [].
Qed.

Lemma parking_blind_can_hang_witness :
  ∃ es σ, park_run 4096 es park_init = Some σ
    ∧ reader σ = RSusp ∧ ready σ = true ∧ queued σ = false
    ∧ (∀ e, own e = true → park_step 4096 e σ = None).
Proof. apply (parking_blind_can_hang 4096). by split. Defined.
End SocketParkCorrect.
