(* ===== verification/DynamicBuffer.v ===== *)
(** The byte buffer that socket reads fill ([utils/buffer/DynamicBuffer.h] and
    [DynamicBuffer.cpp]): a block of raw storage that doubles when it is full. *)

From S2P Require Import Prelude.
From Stdlib Require Export Strings.Byte.

Module DynamicBuffer.

(** [data_] has one cell per byte of the block, [None] until something is written
    there; the null pointer is the empty block. *)
Record DynamicBuffer := mkBuffer {
  data_ : list (option byte);
  cap_ : Z;
  size_ : Z
}.

Definition empty_buffer : DynamicBuffer := mkBuffer [] 0 0.

(** [while (cap < need) cap <<= 1;] *)
Fixpoint grow_cap (fuel : nat) (cap need : Z) : outcome Z :=
  if cap <? need then
    match fuel with
    | O => OutOfFuel
    | S fuel => grow_cap fuel (u64 (Z.shiftl cap 1)) need
    end
  else Done cap.

(** [grow_]: the allocation is taken to succeed; the fuel bounds the doublings. *)
Definition grow_ (fuel : nat) (need : Z) (b : DynamicBuffer) : outcome DynamicBuffer :=
  cap ← grow_cap fuel (if cap_ b =? 0 then 4096 else cap_ b) need;
  let p := replicate (Z.to_nat cap) None in
  p ← (if size_ b =? 0 then Done p else memcpy p 0 (data_ b) 0 (size_ b));
  Done {| b with data_ := p; cap_ := cap |}.

Definition reserve (fuel : nat) (n : Z) (b : DynamicBuffer) : outcome DynamicBuffer :=
  if cap_ b <? n then grow_ fuel n b else Done b.

(** [reserve_tail]: the pointer it returns is the offset into the block. *)
Definition reserve_tail (fuel : nat) (len : Z) (b : DynamicBuffer) : outcome (Z * DynamicBuffer) :=
  let need := u64 (size_ b + len) in
  b ← (if cap_ b <? need then grow_ fuel need b else Done b);
  Done (size_ b, b).

Definition commit (n : Z) (b : DynamicBuffer) : DynamicBuffer :=
  let size := u64 (size_ b + n) in
  {| b with size_ := if cap_ b <? size then cap_ b else size |}.

(** What is stored through a pointer into the block: [memcpy] in [append], the
    kernel's copy in a socket read. *)
Definition store (off : Z) (src : list byte) (b : DynamicBuffer) : outcome DynamicBuffer :=
  d ← memcpy (data_ b) off (Some <$> src) 0 (Z.of_nat (length src));
  Done {| b with data_ := d |}.

Definition append (fuel : nat) (src : list byte) (b : DynamicBuffer) : outcome DynamicBuffer :=
  '(dst, b) ← reserve_tail fuel (Z.of_nat (length src)) b;
  b ← store dst src b;
  Done (commit (Z.of_nat (length src)) b).

Definition append_raw (fuel : nat) (len : Z) (b : DynamicBuffer) : outcome (Z * DynamicBuffer) :=
  '(dst, b) ← reserve_tail fuel len b;
  Done (dst, commit len b).

Definition shrink (new_size : Z) (b : DynamicBuffer) : DynamicBuffer :=
  if new_size <? size_ b then {| b with size_ := new_size |} else b.

Definition clear (b : DynamicBuffer) : DynamicBuffer := {| b with size_ := 0 |}.

Definition free_ (b : DynamicBuffer) : DynamicBuffer :=
  match data_ b with [] => b | _ => mkBuffer [] 0 0 end.

(** Move construction and move assignment: the target's new value and the source's. *)
Definition move (o : DynamicBuffer) : DynamicBuffer * DynamicBuffer := (o, mkBuffer [] 0 0).

(** ** Calls on a buffer *)

Inductive buffer_op :=
| Reserve (n : Z) | Append (src : list byte) | AppendRaw (len : Z)
| ReadInto (len : Z) (got : list byte) (** [reserve_tail(len)], a read into it, [commit] *)
| Shrink (n : Z) | Clear | Free.

Definition buffer_step (fuel : nat) (op : buffer_op) (b : DynamicBuffer) : outcome DynamicBuffer :=
  match op with
  | Reserve n => reserve fuel n b
  | Append src => append fuel src b
  | AppendRaw len => snd <$> append_raw fuel len b
  | ReadInto len got =>
      '(dst, b) ← reserve_tail fuel len b;
      b ← store dst got b;
      Done (commit (Z.of_nat (length got)) b)
  | Shrink n => Done (shrink n b)
  | Clear => Done (clear b)
  | Free => Done (free_ b)
  end.

Fixpoint buffer_run (fuel : nat) (ops : list buffer_op) (b : DynamicBuffer) : outcome DynamicBuffer :=
  match ops with
  | [] => Done b
  | op :: ops => b ← buffer_step fuel op b; buffer_run fuel ops b
  end.
End DynamicBuffer.
