(* ===== verification/DynamicBufferCorrect.v ===== *)
(** The dynamic buffer is a growing sequence of bytes as long as its size stays
    within 2^63; a larger request makes it double for ever. *)

From S2P Require Import Prelude DynamicBuffer.

Module DynamicBufferCorrect.
Import DynamicBuffer.

(** The committed part of the block. *)
Definition contents (b : DynamicBuffer) : list (option byte) := take (Z.to_nat (size_ b)) (data_ b).

Record buf_ok (b : DynamicBuffer) : Prop := {
  bo_len : Z.of_nat (length (data_ b)) = cap_ b;
  bo_size : 0 <= size_ b <= cap_ b;
  bo_cap : cap_ b = 0 ∨ ∃ k, 12 <= k <= 63 ∧ cap_ b = 2 ^ k
}.

Lemma empty_ok : buf_ok empty_buffer.
Proof. split; [done|done|by left]. Qed.

(** * Growing *)

Lemma grow_cap_pow (n : nat) k need :
  0 <= k <= 63 → 63 - k <= Z.of_nat n → need <= 2 ^ 63 →
  ∃ k', grow_cap n (2 ^ k) need = Done (2 ^ k') ∧ k <= k' <= 63 ∧ need <= 2 ^ k'.
Proof.
  revert k. induction n as [|n IH]; intros k Hk Hn Hneed; cbn; destruct (Z.ltb_spec (2 ^ k) need).
  - assert (k = 63) as -> by lia. lia.
  - exists k. split; [done|lia].
  - assert (k < 63). { destruct (decide (k = 63)) as [->|]; lia. }
    rewrite Z.shiftl_mul_pow2, Z.pow_1_r by done.
    assert (2 ^ k * 2 = 2 ^ (k + 1)) as -> by (rewrite Z.pow_add_r; lia).
    rewrite wrap_small by (split; [lia|apply Z.pow_lt_mono_r; lia]).
    destruct (IH (k + 1)) as (k' & E & ? & ?); [lia..|]. exists k'. split; [done|lia].
  - exists k. split; [done|lia].
Qed.

(** Beyond 2^63 the doubling overflows to 0 and never ends. *)
Lemma grow_cap_zero fuel need : 0 < need → grow_cap fuel 0 need = OutOfFuel.
Proof.
  intros Hn. induction fuel as [|fuel IH]; cbn; destruct (Z.ltb_spec 0 need); try lia; [done|exact IH].
Qed.

Lemma grow_cap_hangs fuel k need : 0 <= k <= 63 → 2 ^ 63 < need → grow_cap fuel (2 ^ k) need = OutOfFuel.
Proof.
  revert k. induction fuel as [|fuel IH]; intros k Hk Hneed;
    (assert (2 ^ k < need) by (pose proof (Z.pow_le_mono_r 2 k 63); lia)); cbn;
    destruct (Z.ltb_spec (2 ^ k) need); try lia; [done|].
  rewrite Z.shiftl_mul_pow2, Z.pow_1_r by done.
  assert (2 ^ k * 2 = 2 ^ (k + 1)) as -> by (rewrite Z.pow_add_r; lia).
  destruct (decide (k = 63)) as [->|].
  - apply grow_cap_zero. lia.
  - rewrite wrap_small by (split; [lia|apply Z.pow_lt_mono_r; lia]). apply IH; lia.
Qed.

Lemma first_cap b : buf_ok b → ∃ k, 12 <= k <= 63 ∧ (if cap_ b =? 0 then 4096 else cap_ b) = 2 ^ k.
Proof.
  intros [_ _ [E|(k & Hk & E)]]; rewrite E.
  - by exists 12.
  - exists k. split; [done|]. destruct (Z.eqb_spec (2 ^ k) 0); lia.
Qed.

Lemma grow_spec fuel need b :
  buf_ok b → (52 <= fuel)%nat → need <= 2 ^ 63 →
  ∃ b', grow_ fuel need b = Done b' ∧ buf_ok b' ∧ size_ b' = size_ b ∧ need <= cap_ b' ∧ contents b' = contents b.
Proof.
  intros Hb Hfuel Hneed. pose proof Hb as [Hlen Hsz Hcap].
  destruct (first_cap b Hb) as (k & Hk & Ek).
  destruct (grow_cap_pow fuel k need) as (k' & E & Hk' & Hn'); [lia..|].
  unfold grow_. rewrite Ek, E. orun. set (p := replicate (Z.to_nat (2 ^ k')) None).
  assert (Hp : Z.of_nat (length p) = 2 ^ k') by (unfold p; rewrite length_replicate; lia).
  assert (Hle : cap_ b <= 2 ^ k').
  { destruct (Z.eqb_spec (cap_ b) 0) as [->|]; [lia|]. rewrite Ek. apply Z.pow_le_mono_r; lia. }
  destruct (Z.eqb_spec (size_ b) 0) as [E0|E0].
  - orun. eexists. split; [done|]. split_and!; cbn; [|done|done|].
    + split; cbn; [done|lia|right; exists k'; lia].
    + unfold contents. cbn. by rewrite E0.
  - destruct (memcpy_ok p 0 (data_ b) 0 (size_ b)) as (l & El & Hll & Hlook); [lia..|].
    rewrite El. orun. eexists. split; [done|]. split_and!; cbn; [|done|done|].
    + split; cbn; [lia|lia|right; exists k'; lia].
    + unfold contents. cbn. apply list_eq_same_length with (n := Z.to_nat (size_ b)).
      * rewrite length_take. lia.
      * rewrite length_take. lia.
      * intros i x y Hi Hx Hy. rewrite lookup_take_lt in Hx, Hy by done.
        pose proof (Hlook (Z.of_nat i)) as Hl. rewrite Nat2Z.id in Hl. rewrite Hl in Hx by lia.
        rewrite decide_True in Hx by lia. rewrite Z.sub_0_r, Z.add_0_l, Nat2Z.id in Hx. congruence.
Qed.

Lemma reserve_tail_spec fuel len b :
  buf_ok b → (52 <= fuel)%nat → 0 <= len → size_ b + len <= 2 ^ 63 →
  ∃ b', reserve_tail fuel len b = Done (size_ b, b') ∧ buf_ok b' ∧ size_ b' = size_ b
        ∧ size_ b + len <= cap_ b' ∧ contents b' = contents b.
Proof.
  intros Hb Hfuel Hlen Hmax. pose proof Hb as [_ Hsz _]. unfold reserve_tail. rewrite wrap_small by lia.
  destruct (Z.ltb_spec (cap_ b) (size_ b + len)).
  - destruct (grow_spec fuel (size_ b + len) b) as (b' & E & Hok & Es & Hc & Econt); [done..|].
    rewrite E. orun. rewrite Es. by exists b'.
  - orun. by exists b.
Qed.

Lemma contents_length b : buf_ok b → Z.of_nat (length (contents b)) = size_ b.
Proof. intros [Hl Hs _]. unfold contents. rewrite length_take. lia. Qed.

(** Writing behind the committed part, then committing it. *)
Lemma store_commit_spec src b :
  buf_ok b → size_ b + Z.of_nat (length src) <= cap_ b →
  ∃ b', store (size_ b) src b = Done b' ∧ buf_ok (commit (Z.of_nat (length src)) b')
        ∧ contents (commit (Z.of_nat (length src)) b') = contents b ++ (Some <$> src).
Proof.
  intros Hb Hroom. pose proof Hb as [Hl Hs Hc]. unfold store, memcpy. rewrite length_fmap.
  assert (Hcap : cap_ b < 2 ^ 64) by (destruct Hc as [->|(k & Hk & ->)]; [done|apply Z.pow_lt_mono_r; lia]).
  destruct (Z.ltb_spec (size_ b) 0), (Z.ltb_spec 0 0), (Z.ltb_spec (Z.of_nat (length src)) 0),
    (Z.ltb_spec (Z.of_nat (length (data_ b))) (size_ b + Z.of_nat (length src))),
    (Z.ltb_spec (Z.of_nat (length src)) (0 + Z.of_nat (length src))); try lia.
  orun. eexists. split; [done|]. unfold commit. cbn [cap_ size_ data_].
  rewrite wrap_small by lia. destruct (Z.ltb_spec (cap_ b) (size_ b + Z.of_nat (length src))); [lia|].
  assert (Hlen : length (take (Z.to_nat (size_ b)) (data_ b)) = Z.to_nat (size_ b)) by (rewrite length_take; lia).
  split.
  - split; cbn; [|lia|done]. rewrite !length_app, !length_take, !length_drop, length_fmap. lia.
  - unfold contents. cbn. rewrite take_app_ge by lia. rewrite Hlen. f_equal.
    rewrite Nat2Z.id, drop_0, take_app_le; rewrite ?length_take, ?length_fmap; [|lia].
    rewrite take_take. apply take_ge. rewrite length_fmap. lia.
Qed.

(** Committing cells nobody wrote. *)
Lemma commit_spec n b :
  buf_ok b → 0 <= n → size_ b + n <= cap_ b →
  buf_ok (commit n b) ∧ ∃ x, Z.of_nat (length x) = n ∧ contents (commit n b) = contents b ++ x.
Proof.
  intros [Hl Hs Hc] Hn Hroom. unfold commit.
  assert (Hcap : cap_ b < 2 ^ 64) by (destruct Hc as [->|(k & Hk & ->)]; [done|apply Z.pow_lt_mono_r; lia]).
  rewrite wrap_small by lia. destruct (Z.ltb_spec (cap_ b) (size_ b + n)); [lia|].
  split; [split; cbn; [done|lia|done]|].
  exists (take (Z.to_nat n) (drop (Z.to_nat (size_ b)) (data_ b))). split.
  - rewrite length_take, length_drop. lia.
  - unfold contents. cbn. rewrite Z2Nat.inj_add by lia. symmetry. apply take_take_drop.
Qed.

(** * The buffer as a sequence *)

Inductive seq_step : buffer_op → list (option byte) → list (option byte) → Prop :=
| seq_reserve n l : seq_step (Reserve n) l l
| seq_append src l : seq_step (Append src) l (l ++ (Some <$> src))
| seq_append_raw len x l : Z.of_nat (length x) = len → seq_step (AppendRaw len) l (l ++ x)
| seq_read len got l : seq_step (ReadInto len got) l (l ++ (Some <$> got))
| seq_shrink n l : seq_step (Shrink n) l (take (Z.to_nat n) l)
| seq_clear l : seq_step Clear l []
| seq_free l : seq_step Free l [].

(** The sequence after a list of calls, one choice of the uninitialised cells. *)
Inductive seq_run : list buffer_op → list (option byte) → list (option byte) → Prop :=
| seq_nil l : seq_run [] l l
| seq_cons op ops l l1 l2 : seq_step op l l1 → seq_run ops l1 l2 → seq_run (op :: ops) l l2.

(** What a caller must keep to, given how many bytes are stored: stay within 2^63
    bytes, and let the kernel write no more than it was given room for. *)
Definition call_ok (op : buffer_op) (n : Z) : bool :=
  match op with
  | Reserve k => k <=? 2 ^ 63
  | Append src => n + Z.of_nat (length src) <=? 2 ^ 63
  | AppendRaw len => (0 <=? len) && (n + len <=? 2 ^ 63)
  | ReadInto len got => (0 <=? len) && (n + len <=? 2 ^ 63) && (Z.of_nat (length got) <=? len)
  | Shrink k => 0 <=? k
  | Clear | Free => true
  end.

(** The size after a call. *)
Definition size_after (op : buffer_op) (n : Z) : Z :=
  match op with
  | Reserve _ => n
  | Append src => n + Z.of_nat (length src)
  | AppendRaw len => n + len
  | ReadInto _ got => n + Z.of_nat (length got)
  | Shrink k => Z.min k n
  | Clear | Free => 0
  end.

Fixpoint calls_ok (ops : list buffer_op) (n : Z) : bool :=
  match ops with
  | [] => true
  | op :: ops => call_ok op n && calls_ok ops (size_after op n)
  end.

Lemma buffer_step_refines fuel op b :
  (52 <= fuel)%nat → buf_ok b → call_ok op (size_ b) = true →
  ∃ b', buffer_step fuel op b = Done b' ∧ buf_ok b' ∧ seq_step op (contents b) (contents b').
Proof.
  intros Hfuel Hb Hc. pose proof Hb as [Hl Hs Hcap]. destruct op as [n|src|len|len got|n| |]; cbn in Hc; b2p.
  - cbn. unfold reserve. destruct (Z.ltb_spec (cap_ b) n).
    + destruct (grow_spec fuel n b) as (b' & E & Hok & Es & Hcc & Econt); [done..|].
      exists b'. split_and!; [done..|]. rewrite Econt. constructor.
    + exists b. split_and!; [done..|constructor].
  - cbn. unfold append.
    destruct (reserve_tail_spec fuel (Z.of_nat (length src)) b) as (b1 & E1 & Hok & Es & Hroom & Econt); [done|done|lia|lia|].
    rewrite E1. orun. rewrite <- Es in Hroom |- *.
    destruct (store_commit_spec src b1 Hok Hroom) as (b2 & -> & Hok2 & Ec2). orun.
    eexists. split_and!; [done..|]. rewrite Ec2, Econt. constructor.
  - cbn. unfold append_raw.
    destruct (reserve_tail_spec fuel len b) as (b1 & E1 & Hok & Es & Hroom & Econt); [done|done|lia|lia|].
    rewrite E1. orun. destruct (commit_spec len b1) as (Hok2 & x & Hx & Ec2); [done|done|lia|].
    eexists. split_and!; [done..|]. cbn. rewrite Ec2, Econt. by constructor.
  - cbn.
    destruct (reserve_tail_spec fuel len b) as (b1 & E1 & Hok & Es & Hroom & Econt); [done|done|lia|lia|].
    rewrite E1. orun. rewrite <- Es in Hroom |- *.
    destruct (store_commit_spec got b1 Hok) as (b2 & -> & Hok2 & Ec2); [lia|]. orun.
    eexists. split_and!; [done..|]. rewrite Ec2, Econt. constructor.
  - eexists. split; [done|]. unfold shrink. destruct (Z.ltb_spec n (size_ b)).
    + split; [split; cbn; [done|lia|done]|]. unfold contents. cbn.
      replace (take (Z.to_nat n) (data_ b)) with (take (Z.to_nat n) (take (Z.to_nat (size_ b)) (data_ b))); [constructor|].
      rewrite take_take. f_equal. lia.
    + split; [done|]. replace (contents b) with (take (Z.to_nat n) (contents b)) at 2; [constructor|].
      apply take_ge. pose proof (contents_length b Hb). lia.
  - eexists. split; [done|]. split; [split; cbn; [done|lia|done]|constructor].
  - eexists. split; [done|]. unfold free_. destruct (data_ b) eqn:Ed.
    + split; [done|]. unfold contents. rewrite Ed, take_nil. constructor.
    + split; [apply empty_ok|constructor].
Qed.

Lemma size_after_ok op l l' : seq_step op l l' → call_ok op (Z.of_nat (length l)) = true →
  Z.of_nat (length l') = size_after op (Z.of_nat (length l)).
Proof.
  intros [ | | | | | | ] Hc; cbn in *; rewrite ?length_app, ?length_fmap, ?length_take; b2p; lia.
Qed.

(** The buffer is a sequence of bytes.  Every series of calls that keeps the
    contents within 2^63 bytes returns (no access outside the block, no endless
    growth), and the committed bytes are those the sequence operations give: growing
    and reserving keep them, appending and reading add at the end, shrinking takes a
    prefix, clearing empties. *)
Theorem dynamic_buffer_is_a_sequence fuel ops b :
  (52 <= fuel)%nat → buf_ok b → calls_ok ops (size_ b) = true →
  ∃ b', buffer_run fuel ops b = Done b' ∧ buf_ok b' ∧ seq_run ops (contents b) (contents b').
Proof.
  intros Hfuel. revert b. induction ops as [|op ops IH]; intros b Hb Hc.
  { exists b. split_and!; [done..|constructor]. }
  cbn in Hc. b2p. destruct (buffer_step_refines fuel op b) as (b1 & E1 & Hok & Hstep); [done..|].
  destruct (IH b1) as (b2 & E2 & Hok2 & Hrun); [done| |].
  { rewrite <- (contents_length b1), (size_after_ok _ _ _ Hstep); rewrite ?contents_length; done. }
  exists b2. cbn. rewrite E1. split_and!; [done..|]. by econstructor.
Qed.

Lemma dynamic_buffer_is_a_sequence_witness :
  ∃ b', buffer_run 52 [Append [x61; x62]; ReadInto 5000 [x63]; Shrink 2] empty_buffer = Done b'
        ∧ buf_ok b' ∧ seq_run [Append [x61; x62]; ReadInto 5000 [x63]; Shrink 2] [] (contents b').
Proof.
  apply (dynamic_buffer_is_a_sequence 52 [Append [x61; x62]; ReadInto 5000 [x63]; Shrink 2] empty_buffer);
    [lia|apply empty_ok|vm_compute; reflexivity].
Defined.

(** A request beyond 2^63 bytes never returns: the doubled capacity overflows to
    0 before it reaches the request, and the loop goes on whatever its fuel. *)
Theorem huge_reserve_hangs fuel n b : buf_ok b → 2 ^ 63 < n → reserve fuel n b = OutOfFuel.
Proof.
  intros Hb Hn. unfold reserve. destruct (first_cap b Hb) as (k & Hk & Ek).
  assert (cap_ b <= 2 ^ 63) by (destruct Hb as [_ _ [->|(j & Hj & ->)]]; [lia|apply Z.pow_le_mono_r; lia]).
  destruct (Z.ltb_spec (cap_ b) n); [|lia]. unfold grow_. rewrite Ek, grow_cap_hangs; [done|lia..].
Qed.

Lemma huge_reserve_hangs_witness : reserve 1000 (2 ^ 64 - 1) empty_buffer = OutOfFuel.
Proof. apply (huge_reserve_hangs 1000 (2 ^ 64 - 1) empty_buffer); [apply empty_ok|lia]. Defined.
End DynamicBufferCorrect.
