(* ===== verification/SocketIO.v ===== *)
(** Reading from and writing to a socket on Linux ([net/SocketLinux.h]): the loops of
    [async_read], [async_write], [read], [write], [async_send], [async_sendfile],
    [receive] and [async_accept] over the system calls.

    The kernel, and what happens while a coroutine is suspended, are a parameter
    (class [Kernel]).  Every call a loop makes is recorded in the state, so that the
    theorems can say which bytes the kernel handed over and took. *)

From S2P Require Import Prelude DynamicBuffer SocketHeader.

Module SocketIO.
Import DynamicBuffer SocketHeader.

Abbreviation len l := (Z.of_nat (length l)).

(** The error codes the loops tell apart; on Linux EWOULDBLOCK is EAGAIN. *)
Inductive errno_t :=
| EINTR | EAGAIN | ECANCELED | ECONNABORTED | EPROTO | ENOBUFS | ENOMEM | ENFILE | EMFILE
| EOther (code : Z).
#[export] Instance errno_eq_dec : EqDecision errno_t.
Proof. solve_decision. Defined.

Inductive direction := Rd | Wr.

(** The parts of a [SocketHeader] the loops touch. *)
Record header := mkHeader {
  fd : Z;
  rd : Z;
  wr : Z;
  state : Z
}.

(** An address as [Socket::address] keeps it: the variant and its family field. *)
Inductive client_addr := sockaddr_in (family : Z) | sockaddr_in6 (family : Z).
Definition AF_INET : Z := 2.
Definition AF_INET6 : Z := 10.

(** The flags of [recv] and [send] the loops use. *)
Record msg_flags := mkFlags { dontwait : bool; nosignal : bool }.
Definition no_flags : msg_flags := mkFlags false false.
Definition MSG_DONTWAIT : msg_flags := mkFlags true false.
Definition MSG_DONTWAIT_NOSIGNAL : msg_flags := mkFlags true true.

(** The operating system and the scheduler.  [suspend] is everything between the
    suspension of the coroutine and its resumption; it answers whether cancellation
    has been requested by then, and the poller may have changed the header.  [pause]
    is [coop::consume] and the yield it may lead to. *)
Class Kernel (K : Type) := {
  recv : msg_flags → Z → Z → K → (errno_t + list byte) * K;
  send : msg_flags → Z → option client_addr → list byte → K → (errno_t + Z) * K;
  sendfile_call : Z → Z → Z → K → (errno_t + Z) * K;
  accept4 : Z → K → (errno_t + Z) * K;
  suspend : direction → header → K → bool * header * K;
  pause : header → K → header * K
}.

(** The calls a loop makes, with their answers. *)
Inductive syscall :=
| SysRecv (flags : msg_flags) (n : Z) (r : errno_t + list byte)
| SysSend (flags : msg_flags) (bs : list byte) (r : errno_t + Z)
| SysSendfile (n : Z) (r : errno_t + Z)
| SysAccept (r : errno_t + Z)
| SysSuspend (d : direction) (cancelled : bool)
| SysClose (fd : Z)
| SysRemove. (** the descriptor is taken out of the poller and closed *)

(** What a socket operation sees and changes. *)
Record io (K : Type) := mkIo {
  hd : header;
  kern : K;
  errno : errno_t;
  trace : list syscall
}.
Arguments mkIo {K} _ _ _ _.
Arguments hd {K} _.
Arguments kern {K} _.
Arguments errno {K} _.
Arguments trace {K} _.

Section loops.
Context {K : Type} `{!Kernel K} (reuseaddr : bool). (** the build with UVENT_ENABLE_REUSEADDR *)

(** ** System calls on the state *)

Definition record_call (c : syscall) (s : io K) : io K := {| s with trace := trace s ++ [c] |}.

(** A call that answers -1 sets errno. *)
Definition do_recv (flags : msg_flags) (n : Z) (s : io K) : option (list byte) * io K :=
  let '(r, k) := recv flags (fd (hd s)) n (kern s) in
  let s := record_call (SysRecv flags n r) {| s with kern := k |} in
  match r with
  | inr bs => (Some bs, s)
  | inl e => (None, {| s with errno := e |})
  end.

Definition do_send (flags : msg_flags) (to : option client_addr) (bs : list byte) (s : io K) : option Z * io K :=
  let '(r, k) := send flags (fd (hd s)) to bs (kern s) in
  let s := record_call (SysSend flags bs r) {| s with kern := k |} in
  match r with
  | inr n => (Some n, s)
  | inl e => (None, {| s with errno := e |})
  end.

Definition do_sendfile (in_fd count : Z) (s : io K) : option Z * io K :=
  let '(r, k) := sendfile_call (fd (hd s)) in_fd count (kern s) in
  let s := record_call (SysSendfile count r) {| s with kern := k |} in
  match r with
  | inr n => (Some n, s)
  | inl e => (None, {| s with errno := e |})
  end.

Definition do_accept (s : io K) : option Z * io K :=
  let '(r, k) := accept4 (fd (hd s)) (kern s) in
  let s := record_call (SysAccept r) {| s with kern := k |} in
  match r with
  | inr cfd => (Some cfd, s)
  | inl e => (None, {| s with errno := e |})
  end.

(** [co_await AwaiterRead / AwaiterWrite / AwaiterAccept], then [cancel_requested()] *)
Definition await (d : direction) (s : io K) : bool * io K :=
  let '(b, h, k) := suspend d (hd s) (kern s) in
  (b, record_call (SysSuspend d b) {| s with hd := h; kern := k |}).

Definition coop_pause (s : io K) : io K :=
  let '(h, k) := pause (hd s) (kern s) in {| s with hd := h; kern := k |}.

(** [if (is_read_armed()) disarm_read();] *)
Definition disarm_rd (s : io K) : io K :=
  if is_armed (rd (hd s)) then {| s with hd := {| (hd s) with rd := disarm (rd (hd s)) |} |} else s.
Definition disarm_wr (s : io K) : io K :=
  if is_armed (wr (hd s)) then {| s with hd := {| (hd s) with wr := disarm (wr (hd s)) |} |} else s.

(** [timeout_epoch_bump] outside UVENT_ENABLE_REUSEADDR *)
Definition bump (s : io K) : io K :=
  if reuseaddr then s else {| s with hd := {| (hd s) with state := timeout_epoch_bump (state (hd s)) |} |}.
Definition bump_if (b : bool) (s : io K) : io K := if b then bump s else s.

(** [remove]: [removeEvent] closes the descriptor; no new references. *)
Definition remove (s : io K) : io K :=
  record_call SysRemove
    {| s with hd := {| (hd s) with fd := -1; state := close_for_new_refs (state (hd s)) |} |}.

Definition set_errno (e : errno_t) (s : io K) : io K := {| s with errno := e |}.
End loops.

(** ** Where a read puts its bytes

    The two overloads of [async_read] run the same loop, one into a [DynamicBuffer]
    in chunks of at most 16384 bytes, one into memory of the caller. *)
Class Sink (T : Type) := {
  chunk : Z → Z;                           (** how much to ask for *)
  room : Z → T → outcome T;                (** before the call *)
  fill : list byte → T → outcome T         (** the kernel's copy, and advancing *)
}.

(** [reserve_tail], then [commit]; 64 doublings are enough for 64 bits. *)
#[export] Instance buffer_sink : Sink DynamicBuffer := {
  chunk remaining := if 16384 <? remaining then 16384 else remaining;
  room n b := snd <$> reserve_tail 64 n b;
  fill bs b := b ← store (size_ b) bs b; Done (commit (len bs) b)
}.

(** Memory at [dst] and the number of bytes [out] has advanced. *)
Record memory := mkMemory { cells : list (option byte); out : Z }.
#[export] Instance memory_sink : Sink memory := {
  chunk remaining := remaining;
  room n m := Done m;
  fill bs m := c ← memcpy (cells m) (out m) (Some <$> bs) 0 (len bs); Done (mkMemory c (out m + len bs))
}.

Section reading.
Context {K : Type} `{!Kernel K} {T : Type} `{!Sink T} (reuseaddr : bool) (max_read_retries : Z).

(** The datagram loop of [async_read]. *)
Fixpoint async_read_udp (fuel : nat) (max_read_size retries : Z) (t : T) (s : io K) : outcome (Z * T * io K) :=
  match fuel with
  | O => OutOfFuel
  | S fuel =>
      t ← room max_read_size t;
      let '(res, s) := do_recv no_flags max_read_size (disarm_rd s) in
      match res with
      | Some ((_ :: _) as bs) => t ← fill bs t; Done (len bs, t, bump reuseaddr s)
      | Some [] => Done (0, t, s)
      | None =>
          match errno s with
          | EINTR =>
              if max_read_retries <=? retries + 1 then Done (-1, t, remove s)
              else async_read_udp fuel max_read_size (retries + 1) t s
          | EAGAIN =>
              let '(cancelled, s) := await Rd s in
              if cancelled then Done (-1, t, set_errno ECANCELED s)
              else async_read_udp fuel max_read_size retries t s
          | _ => Done (-1, t, remove s)
          end
      end
  end.

(** The stream loop of [async_read]; leaving the inner loop after a suspension comes
    back to its test. *)
Fixpoint async_read_tcp (fuel : nat) (max_read_size total_read retries : Z) (t : T) (s : io K) :
    outcome (Z * T * io K) :=
  match fuel with
  | O => OutOfFuel
  | S fuel =>
      if total_read <? signed 64 max_read_size then
        let remaining := u64 (max_read_size - total_read) in
        let to_read := chunk remaining in
        t ← room to_read t;
        let '(res, s) := do_recv no_flags to_read (disarm_rd s) in
        match res with
        | Some ((_ :: _) as bs) =>
            t ← fill bs t;
            let total_read := total_read + len bs in
            if len bs <? to_read then Done (total_read, t, bump reuseaddr s)
            else async_read_tcp fuel max_read_size total_read 0 t s
        | Some [] => Done (total_read, t, bump_if reuseaddr (0 <? total_read) s)
        | None =>
            match errno s with
            | EINTR =>
                if max_read_retries <=? retries + 1 then Done (-1, t, bump_if reuseaddr (0 <? total_read) s)
                else async_read_tcp fuel max_read_size total_read (retries + 1) t s
            | EAGAIN =>
                if 0 <? total_read then Done (total_read, t, bump reuseaddr s)
                else
                  let '(cancelled, s) := await Rd s in
                  if cancelled then Done (-1, t, set_errno ECANCELED s)
                  else async_read_tcp fuel max_read_size total_read retries t s
            | _ => Done (-1, t, bump_if reuseaddr (0 <? total_read) s)
            end
        end
      else Done (total_read, t, bump_if reuseaddr (0 <? total_read) s)
  end.

Definition async_read (fuel : nat) (udp : bool) (max_read_size : Z) (t : T) (s : io K) : outcome (Z * T * io K) :=
  if max_read_size =? 0 then Done (0, t, s)
  else
    let s := coop_pause s in
    if udp then async_read_udp fuel max_read_size 0 t s
    else async_read_tcp fuel max_read_size 0 0 t s.
End reading.

(** [async_read(DynamicBuffer&, size_t)] and [async_read(uint8_t*, size_t)] *)
Definition async_read_buffer {K} `{!Kernel K} (reuseaddr : bool) (max_read_retries : Z) (fuel : nat) (udp : bool)
    (max_read_size : Z) (b : DynamicBuffer) (s : io K) : outcome (Z * DynamicBuffer * io K) :=
  async_read reuseaddr max_read_retries fuel udp max_read_size b s.

Definition async_read_raw {K} `{!Kernel K} (reuseaddr : bool) (max_read_retries : Z) (fuel : nat) (udp : bool)
    (dst : option (list (option byte))) (max_read_size : Z) (s : io K) : outcome (Z * list (option byte) * io K) :=
  match dst with
  | None => Done (0, [], s)
  | Some dst =>
      '(r, m, s) ← async_read reuseaddr max_read_retries fuel udp max_read_size (mkMemory dst 0) s;
      Done (r, cells m, s)
  end.

(** ** The other direction, and the calls that do not suspend *)

Inductive SendError :=
| InvalidSocketFd | RecvFailed | RecvFromFailed | InvalidAddressVariant | Timeout | Closed | SendFailed | Cancelled.

Section writing.
Context {K : Type} `{!Kernel K} (reuseaddr : bool) (max_read_retries max_write_retries : Z).

(** [detail::udp_send] *)
Definition udp_send (flags : msg_flags) (address : client_addr) (bs : list byte) (s : io K) : option Z * io K :=
  match address with
  | sockaddr_in family => if family =? AF_INET then do_send flags (Some address) bs s else do_send flags None bs s
  | sockaddr_in6 family => if family =? AF_INET6 then do_send flags (Some address) bs s else do_send flags None bs s
  end.

(** [buf + total], [sz - total] of a caller's buffer *)
Definition rest (buf : list byte) (total : Z) : list byte := drop (Z.to_nat total) buf.

Fixpoint async_write_udp (fuel : nat) (address : client_addr) (buf : list byte) (retries : Z) (s : io K) :
    outcome (Z * io K) :=
  match fuel with
  | O => OutOfFuel
  | S fuel =>
      let '(res, s) := udp_send MSG_DONTWAIT address buf (disarm_wr s) in
      match res with
      | Some res => Done (res, bump_if reuseaddr (0 <? res) s)
      | None =>
          match errno s with
          | EINTR =>
              if max_write_retries <=? retries + 1 then Done (-1, s)
              else async_write_udp fuel address buf (retries + 1) s
          | EAGAIN =>
              let '(cancelled, s) := await Wr s in
              if cancelled then Done (-1, set_errno ECANCELED s)
              else async_write_udp fuel address buf retries s
          | _ => Done (-1, s)
          end
      end
  end.

Fixpoint async_write_tcp (fuel : nat) (buf : list byte) (total_written retries_eintr : Z) (s : io K) :
    outcome (Z * io K) :=
  match fuel with
  | O => OutOfFuel
  | S fuel =>
      if total_written <? signed 64 (len buf) then
        let '(res, s) := do_send MSG_DONTWAIT None (rest buf total_written) (disarm_wr s) in
        match res with
        | Some res =>
            if 0 <? res then
              let total_written := total_written + res in
              if len buf <=? total_written then Done (total_written, bump_if reuseaddr (0 <? total_written) s)
              else async_write_tcp fuel buf total_written 0 s
            else Done (-1, s)
        | None =>
            match errno s with
            | EINTR =>
                if max_write_retries <=? retries_eintr + 1 then Done (-1, s)
                else async_write_tcp fuel buf total_written (retries_eintr + 1) s
            | EAGAIN =>
                let '(cancelled, s) := await Wr s in
                if cancelled then Done (-1, set_errno ECANCELED s)
                else async_write_tcp fuel buf total_written retries_eintr s
            | _ => Done (-1, s)
            end
        end
      else Done (total_written, s)
  end.

(** [async_write(buf, sz)]; a stream socket ([address] = [None]) or a datagram one *)
Definition async_write (fuel : nat) (address : option client_addr) (buf : option (list byte)) (s : io K) :
    outcome (Z * io K) :=
  match buf with
  | None | Some [] => Done (0, s)
  | Some buf =>
      let s := coop_pause s in
      match address with
      | Some address => async_write_udp fuel address buf 0 s
      | None => async_write_tcp fuel buf 0 0 s
      end
  end.

(** [read]: what is there now, without suspending *)
Fixpoint read (fuel : nat) (max_read_size total_read retries : Z) (b : DynamicBuffer) (s : io K) :
    outcome (Z * DynamicBuffer * io K) :=
  match fuel with
  | O => OutOfFuel
  | S fuel =>
      let to_read := Z.min 16384 (u64 (max_read_size - size_ b)) in
      let '(res, s) := do_recv MSG_DONTWAIT to_read s in
      match res with
      | Some ((_ :: _) as temp) =>
          b ← append 64 temp b;
          if max_read_size <=? size_ b then Done (total_read + len temp, b, s)
          else read fuel max_read_size (total_read + len temp) 0 b s
      | Some [] => Done (if 0 <? total_read then total_read else 0, b, s)
      | None =>
          match errno s with
          | EAGAIN => Done (total_read, b, s)
          | EINTR =>
              if max_read_retries <=? retries + 1 then Done (-1, b, s)
              else read fuel max_read_size total_read (retries + 1) b s
          | _ => Done (-1, b, s)
          end
      end
  end.

(** [write]: as much as the socket takes now *)
Fixpoint write (fuel : nat) (address : option client_addr) (buf : list byte) (total_written retries : Z) (s : io K) :
    outcome (Z * io K) :=
  match fuel with
  | O => OutOfFuel
  | S fuel =>
      if total_written <? signed 64 (len buf) then
        let '(res, s) :=
          match address with
          | Some address => udp_send MSG_DONTWAIT_NOSIGNAL address (rest buf total_written) s
          | None => do_send MSG_DONTWAIT_NOSIGNAL None (rest buf total_written) s
          end in
        match res with
        | Some res =>
            if 0 <? res then write fuel address buf (total_written + res) 0 s
            else write fuel address buf total_written retries s
        | None =>
            match errno s with
            | EINTR =>
                if max_write_retries <=? retries + 1 then Done (-1, s)
                else write fuel address buf total_written (retries + 1) s
            | EAGAIN => Done (total_written, s)
            | _ => Done (-1, s)
            end
        end
      else Done (total_written, s)
  end.

(** [async_send] passes MSG_NOSIGNAL on a stream ([address] = [None]) only. *)
Definition send_flags (address : option client_addr) : msg_flags :=
  match address with None => MSG_DONTWAIT_NOSIGNAL | Some _ => MSG_DONTWAIT end.

(** [async_send]: the inner loop, and the suspension that leads back to it *)
Fixpoint async_send_loop (fuel : nat) (address : option client_addr) (buf : list byte) (total_written retries : Z)
    (s : io K) : outcome ((SendError + Z) * io K) :=
  match fuel with
  | O => OutOfFuel
  | S fuel =>
      let s := disarm_wr s in
      if is_disconnected_now (state (hd s)) then Done (inl Closed, s)
      else
        let '(res, s) := do_send (send_flags address) address (rest buf total_written) s in
        match res with
        | Some res =>
            if 0 <? res then
              let total_written := total_written + res in
              if signed 64 (len buf) <=? total_written then
                Done (inr total_written, bump_if reuseaddr (0 <? total_written) s)
              else async_send_loop fuel address buf total_written 0 s
            else Done (inl SendFailed, remove s)
        | None =>
            match errno s with
            | EINTR =>
                if max_write_retries <=? retries + 1 then Done (inl SendFailed, remove s)
                else async_send_loop fuel address buf total_written (retries + 1) s
            | EAGAIN =>
                let '(cancelled, s) := await Wr s in
                if cancelled then Done (inl Cancelled, remove s)
                else if total_written <? signed 64 (len buf) then async_send_loop fuel address buf total_written retries s
                else Done (inr total_written, bump_if reuseaddr (0 <? total_written) s)
            | _ => Done (inl SendFailed, remove s)
            end
        end
  end.

Definition async_send (fuel : nat) (address : option client_addr) (buf : list byte) (s : io K) :
    outcome ((SendError + Z) * io K) :=
  if 0 <? signed 64 (len buf) then async_send_loop fuel address buf 0 0 s else Done (inr 0, s).

(** [async_sendfile]: it bumps the epoch in every build *)
Definition async_sendfile (in_fd count : Z) (s : io K) : Z * io K :=
  let '(cancelled, s) := await Wr s in
  if cancelled then (-1, set_errno ECANCELED s)
  else if is_disconnected_now (state (hd s)) then (-3, s)
  else
    let '(res, s) := do_sendfile in_fd count s in
    match res with
    | None => (-1, match errno s with EAGAIN => remove s | _ => s end)
    | Some res => (res, bump_if false (0 <? res) s)
    end.

Definition sendfile (in_fd count : Z) (s : io K) : Z * io K :=
  let '(res, s) := do_sendfile in_fd count s in
  match res with
  | None => (-1, match errno s with EAGAIN => remove s | _ => s end)
  | Some res => (res, s)
  end.

(** The loop of [receive]. *)
Fixpoint receive (fuel : nat) (chunk_size maxSize totalReceive : Z) (result : list byte) (s : io K) :
    outcome ((SendError + list byte) * io K) :=
  match fuel with
  | O => OutOfFuel
  | S fuel =>
      if totalReceive <? maxSize then
        let want := Z.min chunk_size (u64 (maxSize - totalReceive)) in
        let '(received, s) := do_recv no_flags want s in
        match received with
        | None => match errno s with EAGAIN => Done (inr result, s) | _ => Done (inl RecvFailed, s) end
        | Some [] => Done (inr result, s)
        | Some ((_ :: _) as bs) =>
            if len bs <? want then Done (inr (result ++ bs), s)
            else receive fuel chunk_size maxSize (totalReceive + len bs) (result ++ bs) s
        end
      else Done (inr result, s)
  end.

(** [send_aux]: the [size_t] it answers is 2^64 - 1 for an error *)
Definition send_aux (address : option client_addr) (buf : list byte) (s : io K) : Z * io K :=
  if fd (hd s) <? 0 then (u64 (-1), s)
  else let '(res, s) := do_send no_flags address buf s in (match res with Some n => u64 n | None => u64 (-1) end, s).

Definition send_and_receive (fuel : nat) (address : option client_addr) (buf : list byte) (chunkSize maxSize : Z)
    (s : io K) : outcome ((SendError + list byte) * io K) :=
  let '(sendRes, s) := send_aux address buf s in
  if negb (sendRes =? u64 (-1)) then receive fuel chunkSize maxSize 0 [] s
  else Done (inl InvalidSocketFd, s).

(** ** Accepting *)

(** The header of an accepted connection. *)
Definition accepted_header (cfd : Z) : header := mkHeader cfd 0 0 (Z.land 1 COUNT_MASK).

Fixpoint async_accept (fuel : nat) (s : io K) : outcome (option header * io K) :=
  match fuel with
  | O => OutOfFuel
  | S fuel =>
      let '(cfd, s) := do_accept (disarm_rd s) in
      match cfd with
      | Some cfd => Done (Some (accepted_header cfd), s)
      | None =>
          match errno s with
          | EINTR | ECONNABORTED | EPROTO => async_accept fuel s
          | EAGAIN | ENOBUFS | ENOMEM | ENFILE | EMFILE =>
              let '(cancelled, s) := await Rd s in
              if cancelled then Done (None, s) else async_accept fuel s
          | _ => Done (None, s)
          end
      end
  end.

(** [async_accept(on_accept, ...)]: the connections it hands to [on_accept], in order *)
Fixpoint async_accept_each (fuel : nat) (handed : list header) (s : io K) : outcome (list header * io K) :=
  match fuel with
  | O => OutOfFuel
  | S fuel =>
      let '(cfd, s) := do_accept (disarm_rd s) in
      match cfd with
      | Some cfd => async_accept_each fuel (handed ++ [accepted_header cfd]) s
      | None =>
          match errno s with
          | EINTR | ECONNABORTED | EPROTO => async_accept_each fuel handed s
          | EAGAIN | ENOBUFS | ENOMEM | ENFILE | EMFILE =>
              let '(cancelled, s) := await Rd s in
              if cancelled then Done (handed, s) else async_accept_each fuel handed s
          | _ => Done (handed, s)
          end
      end
  end.
End writing.

(** ** A kernel that follows a script

    The answers of each call in order; when the script is over, reads, writes and
    accepts fail and suspensions end in cancellation. *)
Record script := mkScript {
  recvs : list (errno_t + list byte);
  sends : list (errno_t + Z);
  files : list (errno_t + Z);
  accepts : list (errno_t + Z);
  wakes : list bool
}.

#[export] Instance script_kernel : Kernel script := {
  recv flags fd n k :=
    match recvs k with
    | [] => (inl (EOther 9), k)
    | inl e :: l => (inl e, {| k with recvs := l |})
    | inr bs :: l => (inr (take (Z.to_nat n) bs), {| k with recvs := l |})
    end;
  send flags fd to bs k :=
    match sends k with
    | [] => (inl (EOther 9), k)
    | inl e :: l => (inl e, {| k with sends := l |})
    | inr n :: l => (inr (Z.max 0 (Z.min n (len bs))), {| k with sends := l |})
    end;
  sendfile_call fd in_fd n k :=
    match files k with
    | [] => (inl (EOther 9), k)
    | inl e :: l => (inl e, {| k with files := l |})
    | inr m :: l => (inr (Z.max 0 (Z.min n m)), {| k with files := l |})
    end;
  accept4 fd k :=
    match accepts k with
    | [] => (inl (EOther 9), k)
    | a :: l => (a, {| k with accepts := l |})
    end;
  suspend d h k :=
    match wakes k with
    | [] => (true, h, k)
    | b :: l => (b, h, {| k with wakes := l |})
    end;
  pause h k := (h, k)
}.
End SocketIO.
