(* ===== verification/SocketIOCorrect.v ===== *)
(** What the reading loops of a socket return and leave behind, for any kernel that
    keeps the contract of the system calls and any place to put the bytes. *)

From S2P Require Import Prelude DynamicBuffer DynamicBufferCorrect SocketHeader SocketIO.

Module SocketIOCorrect.
Import DynamicBuffer DynamicBufferCorrect SocketHeader SocketIO.

(** * The contracts *)

(** The kernel answers a read with at most the bytes asked for, and takes at most the
    bytes offered. *)
Class KernelLaws (K : Type) `{!Kernel K} : Prop := {
  recv_at_most flags fd n k bs k' : 0 <= n → recv flags fd n k = (inr bs, k') → len bs <= n;
  send_at_most flags fd to bs k m k' : send flags fd to bs k = (inr m, k') → 0 <= m <= len bs
}.

(** ** How often a call is woken

    A loop that finds nothing to do suspends, and starts over when it is woken: nothing
    in the kernel's contract bounds how often that happens.  So that the loops can be
    said to return, a run is measured by the number of times it is woken. *)
Section woken.
Context {K : Type} `{!Kernel K} (ends : bool → header → bool). (** a suspension after which the loop gives up *)

(** Calls that lead from one state of the kernel to another, with the number of those
    after which a loop starts over: a wake, or an accept that was interrupted. *)
Inductive calls_made : nat → K → K → Prop :=
| calls_none k : calls_made 0 k k
| calls_recv flags fd n k r k' c k2 : recv flags fd n k = (r, k') → calls_made c k' k2 → calls_made c k k2
| calls_send flags fd to bs k r k' c k2 : send flags fd to bs k = (r, k') → calls_made c k' k2 → calls_made c k k2
| calls_accept fd k r k' c k2 : accept4 fd k = (r, k') → calls_made c k' k2 →
    calls_made ((match r with inl (EINTR | ECONNABORTED | EPROTO) => 1 | _ => 0 end) + c) k k2
| calls_pause h k h' k' c k2 : pause h k = (h', k') → calls_made c k' k2 → calls_made c k k2
| calls_suspend d h k b h' k' c k2 : suspend d h k = (b, h', k') → calls_made c k' k2 →
    calls_made ((if ends b h' then 0 else 1) + c) k k2.

(** From here on that happens at most [n] times. *)
Definition woken_at_most (n : nat) (k : K) : Prop := ∀ c k', calls_made c k k' → (c <= n)%nat.

Lemma woken_recv flags fd n k r k' w : recv flags fd n k = (r, k') → woken_at_most w k → woken_at_most w k'.
Proof. intros E H c k2 Hc. eapply H. by eapply calls_recv. Qed.
Lemma woken_send flags fd to bs k r k' w : send flags fd to bs k = (r, k') → woken_at_most w k → woken_at_most w k'.
Proof. intros E H c k2 Hc. eapply H. by eapply calls_send. Qed.
Lemma woken_pause h k h' k' w : pause h k = (h', k') → woken_at_most w k → woken_at_most w k'.
Proof. intros E H c k2 Hc. eapply H. by eapply calls_pause. Qed.

Lemma woken_suspend d h k b h' k' w : suspend d h k = (b, h', k') → ends b h' = false → woken_at_most w k →
  ∃ w', w = S w' ∧ woken_at_most w' k'.
Proof.
  intros E He H. assert (H1 : ∀ c k2, calls_made c k' k2 → (S c <= w)%nat).
  { intros c k2 Hc. apply (H _ k2). pose proof (calls_suspend _ _ _ _ _ _ _ _ E Hc) as H1. by rewrite He in H1. }
  destruct w as [|w]; [specialize (H1 _ _ (calls_none k')); lia|].
  exists w. split; [done|]. intros c k2 Hc. specialize (H1 _ _ Hc). lia.
Qed.

Lemma woken_accept fd k e k' w : accept4 fd k = (inl e, k') → woken_at_most w k →
  ∃ w', w = ((match e with EINTR | ECONNABORTED | EPROTO => 1 | _ => 0 end) + w')%nat ∧ woken_at_most w' k'.
Proof.
  intros E H. set (n := match e with EINTR | ECONNABORTED | EPROTO => 1%nat | _ => 0%nat end).
  assert (H1 : ∀ c k2, calls_made c k' k2 → (n + c <= w)%nat) by (intros c k2 Hc; apply (H _ k2); by apply (calls_accept _ _ _ _ _ _ E Hc)).
  exists (w - n)%nat. pose proof (H1 _ _ (calls_none k')). split; [lia|]. intros c k2 Hc. specialize (H1 _ _ Hc). lia.
Qed.
End woken.

(** On Linux a loop gives up when it finds itself cancelled. *)
Definition if_cancelled (cancelled : bool) (_ : header) : bool := cancelled.

(** A place for the bytes read: what it holds, what lies behind that, how much more
    it can take. *)
Class SinkLaws (T : Type) `{!Sink T} := {
  holds : T → list (option byte);
  behind : T → list (option byte);
  capacity : T → Z;
  sink_ok : T → Prop;
  has_room : T → Z → Prop;
  chunk_range n : 0 < n → 0 < chunk n <= n;
  room_spec n t : sink_ok t → 0 <= n <= capacity t →
    ∃ t', room n t = Done t' ∧ sink_ok t' ∧ has_room t' n ∧ holds t' = holds t ∧ behind t' = behind t
          ∧ capacity t' = capacity t;
  fill_spec n bs t : sink_ok t → has_room t n → len bs <= n →
    ∃ t', fill bs t = Done t' ∧ sink_ok t' ∧ holds t' = holds t ++ (Some <$> bs)
          ∧ behind t' = drop (length bs) (behind t) ∧ capacity t' = capacity t - len bs
}.

#[export] Program Instance buffer_sink_laws : SinkLaws DynamicBuffer := {
  holds := contents;
  behind _ := [];
  capacity b := 2 ^ 63 - size_ b;
  sink_ok := buf_ok;
  has_room b n := size_ b + n <= cap_ b
}.
Next Obligation. intros n Hn. cbn. destruct (Z.ltb_spec 16384 n); lia. Qed.
Next Obligation.
  intros n b Hok Hn. cbn.
  destruct (reserve_tail_spec 64 n b) as (b' & -> & Hok' & Es & Hroom & Ec); [done|lia..|].
  exists b'. rewrite Es. split_and!; done || lia.
Qed.
Next Obligation.
  intros n bs b Hok Hroom Hlen. cbn in *.
  destruct (store_commit_spec bs b Hok) as (b' & -> & Hok' & Ec); [lia|]. orun.
  eexists. split_and!; [done..|by rewrite drop_nil|].
  rewrite <- (contents_length _ Hok'), Ec, length_app, length_fmap. pose proof (contents_length b Hok). lia.
Qed.

#[export] Program Instance memory_sink_laws : SinkLaws memory := {
  holds m := take (Z.to_nat (out m)) (cells m);
  behind m := drop (Z.to_nat (out m)) (cells m);
  capacity m := len (cells m) - out m;
  sink_ok m := 0 <= out m <= len (cells m);
  has_room m n := out m + n <= len (cells m)
}.
Next Obligation. intros n Hn. cbn. lia. Qed.
Next Obligation. intros n m Hok Hn. exists m. cbn in *. split_and!; done || lia. Qed.
Next Obligation.
  intros n bs [c o] Hok Hroom Hlen. cbn in *. unfold memcpy. rewrite length_fmap.
  destruct (Z.ltb_spec o 0), (Z.ltb_spec 0 0), (Z.ltb_spec (len bs) 0), (Z.ltb_spec (len c) (o + len bs)),
    (Z.ltb_spec (len bs) (0 + len bs)); try lia.
  cbn. eexists. split; [done|]. cbn.
  assert (Ht : length (take (Z.to_nat o) c) = Z.to_nat o) by (rewrite length_take; lia).
  rewrite Nat2Z.id, drop_0, (take_ge (Some <$> bs)) by (rewrite length_fmap; lia).
  split_and!.
  - lia.
  - rewrite !length_app, length_drop, length_fmap, Ht. lia.
  - rewrite app_assoc. rewrite take_app_le by (rewrite length_app, length_fmap, Ht; lia).
    apply take_ge. rewrite length_app, length_fmap, Ht. lia.
  - rewrite app_assoc. rewrite drop_app_ge by (rewrite length_app, length_fmap, Ht; lia).
    rewrite length_app, length_fmap, Ht, !drop_drop. f_equal. lia.
  - rewrite !length_app, length_drop, length_fmap, Ht. lia.
Qed.

(** * What the traces say *)

(** The bytes the kernel handed over, and those it took. *)
Definition received (tr : list syscall) : list byte :=
  flat_map (λ c, match c with SysRecv _ _ (inr bs) => bs | _ => [] end) tr.
Definition accepted (tr : list syscall) : list byte :=
  flat_map (λ c, match c with SysSend _ bs (inr n) => take (Z.to_nat n) bs | _ => [] end) tr.

Lemma received_app tr1 tr2 : received (tr1 ++ tr2) = received tr1 ++ received tr2.
Proof. apply flat_map_app. Qed.
Lemma accepted_app tr1 tr2 : accepted (tr1 ++ tr2) = accepted tr1 ++ accepted tr2.
Proof. apply flat_map_app. Qed.

(** Why a stream read stopped: [got] bytes were read, the answer is [r]. *)
Inductive read_stop (max got : Z) : Z → errno_t → list syscall → Prop :=
| stop_full e tr : got = max → read_stop max got got e tr
| stop_eof e tr n flags : read_stop max got got e (tr ++ [SysRecv flags n (inr [])])
| stop_short e tr n bs flags : 0 < len bs < n → read_stop max got got e (tr ++ [SysRecv flags n (inr bs)])
| stop_again e tr n flags : 0 < got → read_stop max got got e (tr ++ [SysRecv flags n (inl EAGAIN)])
| stop_error e tr n flags : e ≠ EAGAIN → got < max → read_stop max got (-1) e (tr ++ [SysRecv flags n (inl e)])
| stop_cancelled tr : got = 0 → read_stop max got (-1) ECANCELED (tr ++ [SysSuspend Rd true]).

(** Why a datagram read stopped. *)
Inductive datagram_stop (got : Z) : Z → errno_t → list syscall → Prop :=
| datagram_got e tr n bs flags : datagram_stop got got e (tr ++ [SysRecv flags n (inr bs)])
| datagram_error e tr n flags : e ≠ EAGAIN → got = 0 → datagram_stop got (-1) e (tr ++ [SysRecv flags n (inl e); SysRemove])
| datagram_cancelled tr : got = 0 → datagram_stop got (-1) ECANCELED (tr ++ [SysSuspend Rd true]).

(** A reason to stop that only looks at the last calls. *)
Class PrefixClosed {R} (stop : Z → R → errno_t → list syscall → Prop) : Prop :=
  stop_prefix got r e pre tr : stop got r e tr → stop got r e (pre ++ tr).
#[export] Instance read_stop_prefix max : PrefixClosed (read_stop max).
Proof. intros got r e pre tr. destruct 1; rewrite ?(app_assoc pre); by constructor. Qed.
#[export] Instance datagram_stop_prefix : PrefixClosed datagram_stop.
Proof. intros got r e pre tr. destruct 1; rewrite ?(app_assoc pre); by constructor. Qed.

(** * The calls *)

Section calls.
Context {K : Type} `{!Kernel K, !KernelLaws K} (ends : bool → header → bool).
Implicit Types s : io K.

(** The parts of the state the theorems are about. *)
Definition view s : K * errno_t * list syscall := (kern s, errno s, trace s).

Lemma disarm_rd_view s : view (disarm_rd s) = view s.
Proof. unfold disarm_rd. by case_match. Qed.
Lemma disarm_wr_view s : view (disarm_wr s) = view s.
Proof. unfold disarm_wr. by case_match. Qed.
Lemma bump_view b s : view (bump b s) = view s.
Proof. unfold bump. by case_match. Qed.
Lemma bump_if_view b c s : view (bump_if b c s) = view s.
Proof. unfold bump_if. case_match; [apply bump_view|done]. Qed.

Lemma view_eq s1 s2 : view s1 = view s2 → kern s1 = kern s2 ∧ errno s1 = errno s2 ∧ trace s1 = trace s2.
Proof. unfold view. naive_solver. Qed.

Lemma do_recv_spec flags n s res s' : 0 <= n → do_recv flags n s = (res, s') →
  (∀ w, woken_at_most ends w (kern s) → woken_at_most ends w (kern s'))
  ∧ match res with
    | Some bs => len bs <= n ∧ trace s' = trace s ++ [SysRecv flags n (inr bs)]
    | None => trace s' = trace s ++ [SysRecv flags n (inl (errno s'))]
    end.
Proof.
  intros Hn. unfold do_recv. destruct (recv _ _ _ _) as [r k] eqn:E.
  destruct r; intros [= <- <-]; cbn; (split; [by intros w; eapply woken_recv|]); [done|]. split; [|done].
  by eapply recv_at_most.
Qed.

Lemma do_send_spec flags to bs s res s' : do_send flags to bs s = (res, s') →
  (∀ w, woken_at_most ends w (kern s) → woken_at_most ends w (kern s'))
  ∧ match res with
    | Some n => 0 <= n <= len bs ∧ trace s' = trace s ++ [SysSend flags bs (inr n)]
    | None => trace s' = trace s ++ [SysSend flags bs (inl (errno s'))]
    end.
Proof.
  unfold do_send. destruct (send _ _ _ _ _) as [r k] eqn:E.
  destruct r; intros [= <- <-]; cbn; (split; [by intros w; eapply woken_send|]); [done|]. split; [|done].
  by eapply send_at_most.
Qed.

Lemma await_spec d s b s' : await d s = (b, s') →
  trace s' = trace s ++ [SysSuspend d b]
  ∧ (ends b (hd s') = false → ∀ w, woken_at_most ends w (kern s) → ∃ w', w = S w' ∧ woken_at_most ends w' (kern s')).
Proof.
  unfold await. destruct (suspend _ _ _) as [[b1 h] k] eqn:E. intros [= <- <-]. cbn. split; [done|].
  intros He w. by eapply woken_suspend.
Qed.

Lemma coop_pause_spec s :
  trace (coop_pause s) = trace s ∧ errno (coop_pause s) = errno s
  ∧ ∀ w, woken_at_most ends w (kern s) → woken_at_most ends w (kern (coop_pause s)).
Proof.
  unfold coop_pause. destruct (pause _ _) eqn:E. cbn. split_and!; [done..|]. intros w. by eapply woken_pause.
Qed.

Lemma signed_huge z : 2 ^ 63 <= z < 2 ^ 64 → signed 64 z < 0.
Proof.
  intros Hz. unfold signed. rewrite Z.mod_small by lia. destruct (Z.ltb_spec z (2 ^ (64 - 1))); lia.
Qed.
End calls.

(** * Reading a stream *)

Section stream.
Context {K : Type} `{!Kernel K, !KernelLaws K} {T : Type} `{!Sink T, !SinkLaws T}.
Context (reuseaddr : bool) (max_read_retries : Z).
Implicit Types (s : io K) (t : T) (w : nat).

(** The run is woken at most [w] times before it is cancelled. *)
Definition calm w s : Prop := woken_at_most if_cancelled w (kern s).

Definition tries (max_retries : Z) : Z := Z.max 1 max_retries.

(** What a read of at most [max] bytes leaves when [got] bytes were there before. *)
Definition read_result stop (max got : Z) t s (res : outcome (Z * T * io K)) : Prop :=
  ∃ r t' s' tr, res = Done (r, t', s') ∧ trace s' = trace s ++ tr ∧ sink_ok t'
    ∧ holds t' = holds t ++ (Some <$> received tr)
    ∧ behind t' = drop (length (received tr)) (behind t)
    ∧ got + len (received tr) <= max
    ∧ stop (got + len (received tr)) r (errno s') tr.

(** The loop stops after the call [c], which brought [bs]. *)
Lemma read_stops stop max got c bs r t t' s s' :
  trace s' = trace s ++ [c] → sink_ok t' → received [c] = bs →
  holds t' = holds t ++ (Some <$> bs) → behind t' = drop (length bs) (behind t) →
  got + len bs <= max → stop (got + len bs) r (errno s') [c] →
  read_result stop max got t s (Done (r, t', s')).
Proof.
  intros Ht Hok Hbs Hh Hb Hle Hstop. exists r, t', s', [c]. by rewrite Hbs.
Qed.

(** It goes on after the calls [cs], which brought [bs]. *)
Lemma read_goes_on stop `{!PrefixClosed stop} max got cs bs t t' s s' res :
  trace s' = trace s ++ cs → received cs = bs →
  holds t' = holds t ++ (Some <$> bs) → behind t' = drop (length bs) (behind t) →
  read_result stop max (got + len bs) t' s' res → read_result stop max got t s res.
Proof.
  intros Ht Hbs Hh Hb (r & t2 & s2 & tr & -> & Ht2 & Hok & Hh2 & Hb2 & Hle & Hstop).
  exists r, t2, s2, (cs ++ tr). rewrite received_app, Hbs, Ht2, Ht, !app_assoc. split_and!; [done..| | | |].
  - by rewrite Hh2, Hh, fmap_app, app_assoc.
  - rewrite Hb2, Hb, drop_drop, length_app. f_equal; lia.
  - rewrite length_app. lia.
  - rewrite length_app, Nat2Z.inj_add, Z.add_assoc. by apply stop_prefix.
Qed.

(** The same for calls that brought nothing. *)
Lemma read_stops_nil stop max got cs r t s s1 s' :
  view s' = view s1 → trace s1 = trace s ++ cs → received cs = [] → sink_ok t → got <= max →
  stop got r (errno s1) cs → read_result stop max got t s (Done (r, t, s')).
Proof.
  intros (_ & Ee & Et)%view_eq Ht Hcs Hok Hle Hstop. exists r, t, s', cs. rewrite Hcs. cbn.
  rewrite app_nil_r, Z.add_0_r, Ee, Et. done.
Qed.

Lemma read_goes_on_nil stop `{!PrefixClosed stop} max got cs t s s' res :
  trace s' = trace s ++ cs → received cs = [] → read_result stop max got t s' res → read_result stop max got t s res.
Proof.
  intros Ht Hcs H. eapply (read_goes_on stop _ _ _ []); [done..| |done|by rewrite Z.add_0_r].
  cbn. by rewrite app_nil_r.
Qed.

(** Only what the place and the trace hold counts. *)
Lemma read_result_ext stop max got t t1 s s1 res :
  holds t1 = holds t → behind t1 = behind t → trace s1 = trace s →
  read_result stop max got t1 s1 res → read_result stop max got t s res.
Proof. intros Hh Hb Ht. unfold read_result. by rewrite Hh, Hb, Ht. Qed.

(** The turns the loop can still make. *)
Definition turns (max got retries : Z) w : Z :=
  Z.of_nat w + (max - got) * tries max_read_retries + (tries max_read_retries - retries).

Lemma calm_disarm w s : calm w s → calm w (disarm_rd s).
Proof. unfold calm. by destruct (view_eq _ _ (disarm_rd_view s)) as (-> & _). Qed.

Lemma read_tcp_spec fuel max got retries t s w :
  0 < max < 2 ^ 63 → 0 <= got <= max → 0 <= retries < tries max_read_retries →
  sink_ok t → max - got <= capacity t → calm w s → turns max got retries w <= Z.of_nat fuel →
  read_result (read_stop max) max got t s (async_read_tcp reuseaddr max_read_retries fuel max got retries t s).
Proof.
  intros Hmax. revert got retries t s w.
  induction fuel as [|fuel IH]; intros got retries t s w Hgot Hret Hok Hcap Hw Hfuel; [unfold turns in Hfuel; nia|].
  cbn [async_read_tcp]. rewrite signed_small by lia. destruct (Z.ltb_spec got max) as [Hlt|Hge].
  2:{ apply (read_stops_nil _ _ _ [] _ _ _ s); [apply bump_if_view|by rewrite app_nil_r|done|done|lia|].
      apply stop_full. lia. }
  rewrite wrap_small by lia. destruct (chunk_range (max - got)) as [Hc0 Hc1]; [lia|].
  set (n := chunk (max - got)) in *.
  destruct (room_spec n t) as (t1 & -> & Hok1 & Hroom & Hh1 & Hb1 & Hcap1); [done|lia|]. orun.
  destruct (view_eq _ _ (disarm_rd_view s)) as (_ & _ & Etr). apply calm_disarm in Hw.
  apply (read_result_ext _ _ _ t t1 s (disarm_rd s)); [done..|].
  rewrite <- Hcap1 in Hcap. clear Etr Hh1 Hb1 Hcap1 Hok t. revert Hw. generalize (disarm_rd s). clear s.
  intros s Hw.
  destruct (do_recv no_flags n s) as [res s1] eqn:E. apply (do_recv_spec if_cancelled) in E as [Hp Hres]; [|lia].
  specialize (Hp _ Hw). destruct res as [[|b bs]|].
  - destruct Hres as [_ Ht]. eapply read_stops_nil; [apply bump_if_view|done|done|done|lia|].
    apply (stop_eof _ _ _ []).
  - destruct Hres as [Hlen Ht]. set (bs' := b :: bs) in *.
    destruct (fill_spec n bs' t1) as (t2 & -> & Hok2 & Hh2 & Hb2 & Hcap2); [done..|]. orun.
    assert (Hpos : 0 < len bs') by (cbn; lia).
    assert (Hrec : received [SysRecv no_flags n (inr bs')] = bs') by apply app_nil_r.
    destruct (Z.ltb_spec (len bs') n).
    + destruct (view_eq _ _ (bump_view reuseaddr s1)) as (_ & _ & Etr).
      eapply (read_stops _ _ _ _ bs'); [by rewrite Etr|done|done|done|done|lia|].
      by apply (stop_short _ _ _ []).
    + eapply (read_goes_on _ _ _ _ bs'); [done..|]. apply (IH _ _ _ _ w); try done; try lia.
      assert (tries max_read_retries <= len bs' * tries max_read_retries) by nia. unfold turns in *. lia.
  - destruct (errno s1) eqn:Ee.
    1: { destruct (Z.leb_spec max_read_retries (retries + 1)).
      - eapply read_stops_nil; [apply bump_if_view|done|done|done|lia|].
        rewrite Ee. by apply (stop_error _ _ _ []).
      - eapply (read_goes_on_nil _); [done..|]. apply (IH _ _ _ _ w); try done; unfold turns, tries in *; lia. }
    1: { destruct (Z.ltb_spec 0 got).
      - eapply read_stops_nil; [apply bump_view|done|done|done|lia|]. by apply (stop_again _ _ _ []).
      - destruct (await Rd s1) as [c s2] eqn:Ea. apply (await_spec if_cancelled) in Ea as [Ht2 Hp2].
        rewrite Hres, <- app_assoc in Ht2. destruct c.
        + eapply (read_stops_nil _ _ _ _ _ _ _ (set_errno ECANCELED s2)); [done|exact Ht2|done|done|lia|].
          apply (stop_cancelled _ _ [_]). lia.
        + destruct (Hp2 eq_refl _ Hp) as (w' & -> & Hw'). eapply (read_goes_on_nil _); [exact Ht2|done|].
          apply (IH _ _ _ _ w'); try done. unfold turns in *. lia. }
    all: (eapply read_stops_nil; [apply bump_if_view|done|done|done|lia|]);
      rewrite Ee; by apply (stop_error _ _ _ []).
Qed.

Lemma read_udp_spec fuel max retries t s w :
  0 < max → 0 <= retries < tries max_read_retries → sink_ok t → max <= capacity t → calm w s →
  Z.of_nat w + (tries max_read_retries - retries) <= Z.of_nat fuel →
  read_result datagram_stop max 0 t s (async_read_udp reuseaddr max_read_retries fuel max retries t s).
Proof.
  intros Hmax. revert retries t s w.
  induction fuel as [|fuel IH]; intros retries t s w Hret Hok Hcap Hw Hfuel; [lia|]. cbn [async_read_udp].
  destruct (room_spec max t) as (t1 & -> & Hok1 & Hroom & Hh1 & Hb1 & Hcap1); [done|lia|]. orun.
  destruct (view_eq _ _ (disarm_rd_view s)) as (_ & _ & Etr). apply calm_disarm in Hw.
  apply (read_result_ext _ _ _ t t1 s (disarm_rd s)); [done..|].
  rewrite <- Hcap1 in Hcap. clear Etr Hh1 Hb1 Hcap1 Hok t.
  revert Hw. generalize (disarm_rd s). clear s. intros s Hw.
  destruct (do_recv no_flags max s) as [res s1] eqn:E. apply (do_recv_spec if_cancelled) in E as [Hp Hres]; [|lia].
  specialize (Hp _ Hw). destruct res as [[|b bs]|].
  - destruct Hres as [_ Ht]. eapply read_stops_nil; [done|done|done|done|lia|].
    apply (datagram_got _ _ []).
  - destruct Hres as [Hlen Ht].
    destruct (fill_spec max (b :: bs) t1) as (t2 & -> & Hok2 & Hh2 & Hb2 & Hcap2); [done..|]. orun.
    destruct (view_eq _ _ (bump_view reuseaddr s1)) as (_ & _ & Etr).
    eapply (read_stops _ _ _ _ (b :: bs)); [by rewrite Etr|done|apply app_nil_r|done|done|lia|].
    rewrite Z.add_0_l. apply (datagram_got _ _ []).
  - destruct (errno s1) eqn:Ee.
    1: { destruct (Z.leb_spec max_read_retries (retries + 1)).
      - eapply (read_stops_nil _ _ _ _ _ _ _ (remove s1)); [done|cbn; by rewrite Hres, <- app_assoc|done|done|lia|].
        cbn. rewrite Ee. by apply (datagram_error _ _ []).
      - eapply (read_goes_on_nil _); [done..|]. apply (IH _ _ _ w); try done; unfold tries in *; lia. }
    1: { destruct (await Rd s1) as [c s2] eqn:Ea. apply (await_spec if_cancelled) in Ea as [Ht2 Hp2].
      rewrite Hres, <- app_assoc in Ht2. destruct c.
      - eapply (read_stops_nil _ _ _ _ _ _ _ (set_errno ECANCELED s2)); [done|exact Ht2|done|done|lia|].
        by apply (datagram_cancelled _ [_]).
      - destruct (Hp2 eq_refl _ Hp) as (w' & -> & Hw'). eapply (read_goes_on_nil _); [exact Ht2|done|].
        apply (IH _ _ _ w'); try done. lia. }
    all: (eapply (read_stops_nil _ _ _ _ _ _ _ (remove s1)); [done|cbn; by rewrite Hres, <- app_assoc|done|done|lia|]);
      cbn; rewrite Ee; by apply (datagram_error _ _ []).
Qed.

(** [async_read] on a stream or datagram socket; [turns] with nothing read is enough fuel. *)
Lemma async_read_spec fuel (udp : bool) max t s w :
  0 < max < 2 ^ 63 → sink_ok t → max <= capacity t → calm w s → turns max 0 0 w <= Z.of_nat fuel →
  read_result (if udp then datagram_stop else read_stop max) max 0 t s
    (async_read reuseaddr max_read_retries fuel udp max t s).
Proof.
  intros Hmax Hok Hcap Hw Hfuel. unfold async_read. destruct (Z.eqb_spec max 0); [lia|].
  destruct (coop_pause_spec if_cancelled s) as (Et & Ee & Hp). apply Hp in Hw.
  apply (read_result_ext _ _ _ t t s (coop_pause s)); [done..|].
  assert (0 < tries max_read_retries) by (unfold tries; lia). unfold turns in Hfuel.
  destruct udp.
  - apply (read_udp_spec _ _ _ _ _ w); try done; nia.
  - apply (read_tcp_spec _ _ _ _ _ _ w); try done; unfold turns; lia.
Qed.

(** C9: for a size from 1 to [2 ^ 63 - 1] for which there is room, [async_read] returns when it is woken at most [w] times before it is cancelled,
    within a number of turns that depends on [w] and the size.  Every byte the kernel
    handed over is appended to the destination in order, within the size asked for and
    without touching what lies behind.  When that was less than the size asked for, the
    answer says why it stopped.  On a stream: the number of bytes at the end of the
    stream, after a short read or when nothing more is there; -1 after an error or a
    cancellation, with errno.  On a datagram socket: the size of the one datagram read,
    or -1, the socket removed unless the operation was cancelled.  The answer 0 means
    the end of the stream (or an empty datagram). *)
Theorem async_read_correct fuel (udp : bool) max t s w :
  0 < max < 2 ^ 63 → sink_ok t → max <= capacity t → calm w s → turns max 0 0 w <= Z.of_nat fuel →
  ∃ r t' s' tr, async_read reuseaddr max_read_retries fuel udp max t s = Done (r, t', s')
    ∧ trace s' = trace s ++ tr ∧ sink_ok t'
    ∧ holds t' = holds t ++ (Some <$> received tr)
    ∧ behind t' = drop (length (received tr)) (behind t)
    ∧ len (received tr) <= max
    ∧ (len (received tr) < max →
       if udp then datagram_stop (len (received tr)) r (errno s') tr
       else read_stop max (len (received tr)) r (errno s') tr)
    ∧ (r = 0 → received tr = [] ∧ ∃ tr' flags n, tr = tr' ++ [SysRecv flags n (inr [])]).
Proof.
  intros Hmax Hok Hcap Hw Hfuel.
  destruct (async_read_spec fuel udp max t s w) as (r & t' & s' & tr & E & Ht & Hok' & Hh & Hb & Hle & Hstop); [done..|].
  rewrite Z.add_0_l in Hle, Hstop. exists r, t', s', tr. split_and!; [done..|by destruct udp|].
  intros ->. destruct udp; inversion Hstop; simplify_eq.
  - assert (bs = []) as ->.
    { rewrite received_app, length_app in *. cbn in *. rewrite app_nil_r in *. destruct bs; [done|cbn in *; lia]. }
    split; [by apply length_zero_iff_nil; lia|eauto].
  - lia.
  - split; [by apply length_zero_iff_nil; lia|eauto].
  - rewrite received_app, length_app in *. cbn in *. rewrite app_nil_r in *. lia.
  - lia.
Qed.

(** A read that got all it asked for answers that size.  (docs/socket.md says -2.) *)
Theorem async_read_full fuel (udp : bool) max t s w r t' s' :
  0 < max < 2 ^ 63 → sink_ok t → max <= capacity t → calm w s → turns max 0 0 w <= Z.of_nat fuel →
  async_read reuseaddr max_read_retries fuel udp max t s = Done (r, t', s') →
  ∀ tr, trace s' = trace s ++ tr → len (received tr) = max → r = max.
Proof.
  intros Hmax Hok Hcap Hw Hfuel E tr Ht Hlen.
  destruct (async_read_spec fuel udp max t s w) as (r0 & t0 & s0 & tr0 & E0 & Ht0 & _ & _ & _ & _ & Hstop); [done..|].
  rewrite E in E0. injection E0 as <- <- <-. rewrite Ht in Ht0. apply app_inv_head in Ht0 as <-. rewrite Hlen, Z.add_0_l in Hstop.
  destruct udp; inversion Hstop; subst; auto; lia.
Qed.
End stream.

(** * Kernels that follow a script keep the contract *)

#[export] Instance script_laws : KernelLaws script.
Proof.
  split; cbn.
  - intros flags fd n k bs k' Hn E. destruct (recvs k) as [|[e|l] rs]; simplify_eq. rewrite length_take. lia.
  - intros flags fd to bs k m k' E. destruct (sends k) as [|[e|n] rs]; simplify_eq. lia.
Qed.

(** A script that ends bounds how often a loop is woken. *)
Lemma script_woken w (k : script) : (length (wakes k) + length (accepts k) <= w)%nat → woken_at_most if_cancelled w k.
Proof.
  intros Hw c k' H. enough (c <= length (wakes k) + length (accepts k))%nat by lia. clear Hw.
  induction H as [k|flags fd n k r k' c k2 E _ IH|flags fd to bs k r k' c k2 E _ IH|fd k r k' c k2 E _ IH
    |h k h' k' c k2 E _ IH|d h k b h' k' c k2 E _ IH]; try cbn in E.
  - lia.
  - destruct (recvs k) as [|[e|l] rs]; injection E as <- <-; exact IH.
  - destruct (sends k) as [|[e|n] rs]; injection E as <- <-; exact IH.
  - destruct (accepts k) as [|a l] eqn:Ea; injection E as <- <-; cbn in IH; rewrite ?Ea in IH; cbn in *; [lia|].
    repeat case_match; lia.
  - by injection E as <- <-.
  - destruct (wakes k) as [|x l] eqn:Ew; injection E as <- <- <-; cbn in *; rewrite ?Ew in *; cbn in *; [lia|].
    destruct x; cbn; lia.
Qed.

(** A connected socket before its first operation, with the kernel's script. *)
Definition connected (k : script) : io script := mkIo (mkHeader 7 0 0 initial_state) k (EOther 0) [].

Lemma async_read_correct_witness :
  ∃ r b s' tr,
    async_read (T := DynamicBuffer) true 100 402
      false 3 empty_buffer (connected (mkScript [inl EINTR; inl EAGAIN; inr [x61; x62]] [] [] [] [false])) = Done (r, b, s')
    ∧ trace s' = [] ++ tr ∧ buf_ok b
    ∧ contents b = [] ++ (Some <$> received tr)
    ∧ behind b = drop (length (received tr)) (behind empty_buffer)
    ∧ len (received tr) <= 3
    ∧ (len (received tr) < 3 → read_stop 3 (len (received tr)) r (errno s') tr)
    ∧ (r = 0 → received tr = [] ∧ ∃ tr' flags n, tr = tr' ++ [SysRecv flags n (inr [])]).
Proof.
  pose proof (async_read_correct true 100 402 false 3 empty_buffer
    (connected (mkScript [inl EINTR; inl EAGAIN; inr [x61; x62]] [] [] [] [false])) 1) as H.
  apply H; [lia|apply empty_ok|by vm_compute|apply script_woken; cbn; lia|by vm_compute].
Defined.
End SocketIOCorrect.
