(* ===== verification/SocketWriteCorrect.v ===== *)
(** What the writing loops and the single calls of a socket return and leave behind, for any kernel that
    keeps the contract of the system calls. *)

From S2P Require Import Prelude SocketHeader DynamicBuffer DynamicBufferCorrect SocketIO SocketIOCorrect.

Module SocketWriteCorrect.
Import SocketHeader SocketIO SocketIOCorrect.

(** Why a write of [sz] bytes stopped: [got] bytes were taken, the answer is [r]. *)
Inductive write_stop (sz got : Z) : Z → errno_t → list syscall → Prop :=
| write_all e tr : got = sz → write_stop sz got got e tr
| write_zero e tr bs flags : write_stop sz got (-1) e (tr ++ [SysSend flags bs (inr 0)])
| write_error e tr bs flags : e ≠ EAGAIN → write_stop sz got (-1) e (tr ++ [SysSend flags bs (inl e)])
| write_cancelled tr : write_stop sz got (-1) ECANCELED (tr ++ [SysSuspend Wr true]).

(** The same for a datagram: it is taken in one call. *)
Inductive datagram_sent (got : Z) : Z → errno_t → list syscall → Prop :=
| sent_once e tr bs flags : datagram_sent got got e (tr ++ [SysSend flags bs (inr got)])
| sent_error e tr bs flags : e ≠ EAGAIN → got = 0 → datagram_sent got (-1) e (tr ++ [SysSend flags bs (inl e)])
| sent_cancelled tr : got = 0 → datagram_sent got (-1) ECANCELED (tr ++ [SysSuspend Wr true]).

(** Why [async_send] stopped: it removes the socket on every error but [Closed]. *)
Inductive send_stop (sz got : Z) : SendError + Z → errno_t → list syscall → Prop :=
| send_all e tr : got = sz → send_stop sz got (inr sz) e tr
| send_closed e tr : send_stop sz got (inl Closed) e tr
| send_zero e tr bs flags : send_stop sz got (inl SendFailed) e (tr ++ [SysSend flags bs (inr 0); SysRemove])
| send_error e tr bs flags : e ≠ EAGAIN → send_stop sz got (inl SendFailed) e (tr ++ [SysSend flags bs (inl e); SysRemove])
| send_cancelled e tr : send_stop sz got (inl Cancelled) e (tr ++ [SysSuspend Wr true; SysRemove]).

Ltac prefix_closed := intros got r e pre tr; destruct 1; rewrite ?(app_assoc pre); by constructor.
#[export] Instance write_stop_prefix sz : PrefixClosed (write_stop sz).
Proof. prefix_closed. Qed.
#[export] Instance datagram_sent_prefix : PrefixClosed datagram_sent.
Proof. prefix_closed. Qed.
#[export] Instance send_stop_prefix sz : PrefixClosed (send_stop sz).
Proof. prefix_closed. Qed.

Section writing.
Context {K : Type} `{!Kernel K, !KernelLaws K} (reuseaddr : bool) (max_write_retries : Z).
Implicit Types (s : io K) (w : nat).

(** What a write leaves of which [got] bytes were taken before: the bytes taken since
    are the next ones of the buffer, in order. *)
Definition write_result {R} (stop : Z → R → errno_t → list syscall → Prop) (buf : list byte) (got : Z) s
    (res : outcome (R * io K)) : Prop :=
  ∃ r s' tr, res = Done (r, s') ∧ trace s' = trace s ++ tr
    ∧ accepted tr = take (length (accepted tr)) (rest buf got)
    ∧ stop (got + len (accepted tr)) r (errno s') tr.

Section results.
Context {R : Type} (stop : Z → R → errno_t → list syscall → Prop) (buf : list byte).

Lemma write_stops got cs r s s1 s' :
  view s' = view s1 → trace s1 = trace s ++ cs → accepted cs = [] → stop got r (errno s1) cs →
  write_result stop buf got s (Done (r, s')).
Proof.
  intros (_ & Ee & Et)%view_eq Ht Hcs Hstop. exists r, s', cs. rewrite Hcs. cbn.
  by rewrite Z.add_0_r, Ee, Et.
Qed.

Lemma write_goes_on `{!PrefixClosed stop} got cs s s' res :
  trace s' = trace s ++ cs → accepted cs = [] → write_result stop buf got s' res → write_result stop buf got s res.
Proof.
  intros Ht Hcs (r & s2 & tr & -> & Ht2 & Ha & Hstop). exists r, s2, (cs ++ tr).
  rewrite accepted_app, Hcs, Ht2, Ht, app_assoc. split_and!; [done..|]. by apply stop_prefix.
Qed.

(** A call took the next [n] bytes, and the loop goes on or stops there. *)
Lemma write_took `{!PrefixClosed stop} got flags n s s' res :
  0 <= got → trace s' = trace s ++ [SysSend flags (rest buf got) (inr n)] → 0 <= n <= len (rest buf got) →
  write_result stop buf (got + n) s' res → write_result stop buf got s res.
Proof.
  intros Hgot Ht Hn (r & s2 & tr & -> & Ht2 & Ha & Hstop).
  assert (Hl : len (take (Z.to_nat n) (rest buf got)) = n) by (rewrite length_take; lia).
  exists r, s2, ([SysSend flags (rest buf got) (inr n)] ++ tr). rewrite Ht2, Ht, <- app_assoc. split_and!; [done..| |].
  - rewrite accepted_app. cbn [accepted flat_map]. rewrite app_nil_r, Ha at 1.
    rewrite app_nil_r, length_app, <- take_take_drop.
    assert (length (take (Z.to_nat n) (rest buf got)) = Z.to_nat n) as -> by lia. f_equal. f_equal.
    unfold rest. rewrite drop_drop. f_equal. lia.
  - rewrite accepted_app, length_app. cbn [accepted flat_map]. rewrite app_nil_r, Nat2Z.inj_add, Hl, Z.add_assoc.
    by apply stop_prefix.
Qed.

Lemma write_result_ext got s s1 res :
  trace s1 = trace s → write_result stop buf got s1 res → write_result stop buf got s res.
Proof. intros Ht. unfold write_result. by rewrite Ht. Qed.
End results.

Lemma len_rest buf got : 0 <= got <= len buf → len (rest buf got) = len buf - got.
Proof. intros. unfold rest. rewrite length_drop. lia. Qed.

Lemma calm_disarm_wr w s : calm w s → calm w (disarm_wr s).
Proof. unfold calm. by destruct (view_eq _ _ (disarm_wr_view s)) as (-> & _). Qed.

Definition write_turns (sz got retries : Z) w : Z :=
  Z.of_nat w + (sz - got) * tries max_write_retries + (tries max_write_retries - retries).

Lemma write_tcp_spec fuel buf got retries s w :
  len buf < 2 ^ 63 → 0 <= got <= len buf → 0 <= retries < tries max_write_retries →
  calm w s → write_turns (len buf) got retries w <= Z.of_nat fuel →
  write_result (write_stop (len buf)) buf got s (async_write_tcp reuseaddr max_write_retries fuel buf got retries s).
Proof.
  intros Hsz. revert got retries s w.
  induction fuel as [|fuel IH]; intros got retries s w Hgot Hret Hw Hfuel; [unfold write_turns in Hfuel; nia|].
  cbn [async_write_tcp]. rewrite signed_small by lia. destruct (Z.ltb_spec got (len buf)) as [Hlt|Hge].
  2:{ eapply write_stops; [done|symmetry; apply app_nil_r|done|]. apply write_all. lia. }
  destruct (view_eq _ _ (disarm_wr_view s)) as (_ & _ & Etr). apply calm_disarm_wr in Hw.
  apply (write_result_ext _ _ _ s (disarm_wr s)); [done|].
  clear Etr. revert Hw. generalize (disarm_wr s). clear s. intros s Hw.
  destruct (do_send MSG_DONTWAIT None (rest buf got) s) as [res s1] eqn:E.
  apply (do_send_spec if_cancelled) in E as [Hp Hres]. specialize (Hp _ Hw).
  destruct res as [n|].
  - destruct Hres as [Hn Ht]. rewrite len_rest in Hn by lia. destruct (Z.ltb_spec 0 n).
    + eapply (write_took _ _ _ _ n); [lia|done|rewrite len_rest; lia|].
      destruct (Z.leb_spec (len buf) (got + n)).
      * eapply write_stops; [apply bump_if_view|symmetry; apply app_nil_r|done|]. apply write_all. lia.
      * apply (IH _ _ _ w); [lia|lia|done|]. assert (tries max_write_retries <= n * tries max_write_retries) by nia.
        unfold write_turns in *. lia.
    + assert (n = 0) as -> by lia.
      eapply write_stops; [done|done|done|]. apply (write_zero _ _ _ []).
  - destruct (errno s1) eqn:Ee.
    1: { destruct (Z.leb_spec max_write_retries (retries + 1)).
      - eapply write_stops; [done|done|done|]. rewrite Ee. by apply (write_error _ _ _ []).
      - eapply (write_goes_on _ _); [done..|]. apply (IH _ _ _ w); try done; unfold write_turns, tries in *; lia. }
    1: { destruct (await Wr s1) as [c s2] eqn:Ea. apply (await_spec if_cancelled) in Ea as [Ht2 Hp2].
      rewrite Hres, <- app_assoc in Ht2. destruct c.
      - eapply (write_stops _ _ _ _ _ _ (set_errno ECANCELED s2)); [done|exact Ht2|done|]. apply (write_cancelled _ _ [_]).
      - destruct (Hp2 eq_refl _ Hp) as (w' & -> & Hw'). eapply (write_goes_on _ _); [exact Ht2|done|].
        apply (IH _ _ _ w'); try done. unfold write_turns in *. lia. }
    all: (eapply write_stops; [done|done|done|]); rewrite Ee; by apply (write_error _ _ _ []).
Qed.

Lemma udp_send_spec ends flags address bs s res s' : udp_send flags address bs s = (res, s') →
  (∀ w, woken_at_most ends w (kern s) → woken_at_most ends w (kern s'))
  ∧ match res with
    | Some n => 0 <= n <= len bs ∧ trace s' = trace s ++ [SysSend flags bs (inr n)]
    | None => trace s' = trace s ++ [SysSend flags bs (inl (errno s'))]
    end.
Proof. unfold udp_send. destruct address; case_match; apply do_send_spec. Qed.

Lemma write_udp_spec fuel address buf retries s w :
  0 <= retries < tries max_write_retries → calm w s →
  Z.of_nat w + (tries max_write_retries - retries) <= Z.of_nat fuel →
  write_result datagram_sent buf 0 s (async_write_udp reuseaddr max_write_retries fuel address buf retries s).
Proof.
  revert retries s w. induction fuel as [|fuel IH]; intros retries s w Hret Hw Hfuel; [lia|]. cbn [async_write_udp].
  destruct (view_eq _ _ (disarm_wr_view s)) as (_ & _ & Etr). apply calm_disarm_wr in Hw.
  apply (write_result_ext _ _ _ s (disarm_wr s)); [done|]. clear Etr.
  revert Hw. generalize (disarm_wr s). clear s. intros s Hw.
  destruct (udp_send MSG_DONTWAIT address buf s) as [res s1] eqn:E.
  apply (udp_send_spec if_cancelled) in E as [Hp Hres]. specialize (Hp _ Hw).
  destruct res as [n|].
  - destruct Hres as [Hn Ht]. destruct (view_eq _ _ (bump_if_view reuseaddr (0 <? n) s1)) as (_ & _ & Etr).
    exists n, (bump_if reuseaddr (0 <? n) s1), [SysSend MSG_DONTWAIT buf (inr n)]. rewrite Etr. split_and!; [done..| |].
    + cbn. rewrite app_nil_r, length_take, Nat.min_l by lia. done.
    + cbn. rewrite app_nil_r, length_take, Nat.min_l, Z2Nat.id by lia. apply (sent_once _ _ []).
  - destruct (errno s1) eqn:Ee.
    1: { destruct (Z.leb_spec max_write_retries (retries + 1)).
      - eapply write_stops; [done|done|done|]. rewrite Ee. by apply (sent_error _ _ []).
      - eapply (write_goes_on _ _); [done..|]. apply (IH _ _ w); try done; unfold tries in *; lia. }
    1: { destruct (await Wr s1) as [c s2] eqn:Ea. apply (await_spec if_cancelled) in Ea as [Ht2 Hp2].
      rewrite Hres, <- app_assoc in Ht2. destruct c.
      - eapply (write_stops _ _ _ _ _ _ (set_errno ECANCELED s2)); [done|exact Ht2|done|]. by apply (sent_cancelled _ [_]).
      - destruct (Hp2 eq_refl _ Hp) as (w' & -> & Hw'). eapply (write_goes_on _ _); [exact Ht2|done|].
        apply (IH _ _ w'); try done. lia. }
    all: (eapply write_stops; [done|done|done|]); rewrite Ee; by apply (sent_error _ _ []).
Qed.

Lemma send_loop_spec fuel address buf got retries s w :
  len buf < 2 ^ 63 → 0 <= got < len buf → 0 <= retries < tries max_write_retries →
  calm w s → write_turns (len buf) got retries w <= Z.of_nat fuel →
  write_result (send_stop (len buf)) buf got s
    (async_send_loop reuseaddr max_write_retries fuel address buf got retries s).
Proof.
  intros Hsz. revert got retries s w.
  induction fuel as [|fuel IH]; intros got retries s w Hgot Hret Hw Hfuel; [unfold write_turns in Hfuel; nia|].
  cbn [async_send_loop]. destruct (view_eq _ _ (disarm_wr_view s)) as (_ & _ & Etr). apply calm_disarm_wr in Hw.
  apply (write_result_ext _ _ _ s (disarm_wr s)); [done|].
  clear Etr. revert Hw. generalize (disarm_wr s). clear s. intros s Hw.
  destruct (is_disconnected_now (state (hd s))).
  { eapply write_stops; [done|symmetry; apply app_nil_r|done|]. apply send_closed. }
  destruct (do_send (send_flags address) address (rest buf got) s) as [res s1] eqn:E.
  apply (do_send_spec if_cancelled) in E as [Hp Hres]. specialize (Hp _ Hw).
  rewrite signed_small by lia. destruct res as [n|].
  - destruct Hres as [Hn Ht]. rewrite len_rest in Hn by lia. destruct (Z.ltb_spec 0 n).
    + eapply (write_took _ _ _ _ n); [lia|done|rewrite len_rest; lia|].
      destruct (Z.leb_spec (len buf) (got + n)).
      * eapply write_stops; [apply bump_if_view|symmetry; apply app_nil_r|done|].
        replace (got + n) with (len buf) by lia. by apply send_all.
      * apply (IH _ _ _ w); [lia|lia|done|]. assert (tries max_write_retries <= n * tries max_write_retries) by nia.
        unfold write_turns in *. lia.
    + assert (n = 0) as -> by lia.
      eapply (write_stops _ _ _ _ _ _ (remove s1)); [done|cbn; by rewrite Ht, <- app_assoc|done|].
      apply (send_zero _ _ _ []).
  - destruct (errno s1) eqn:Ee.
    1: { destruct (Z.leb_spec max_write_retries (retries + 1)).
      - eapply (write_stops _ _ _ _ _ _ (remove s1)); [done|cbn; by rewrite Hres, <- app_assoc|done|].
        cbn. rewrite Ee. by apply (send_error _ _ _ []).
      - eapply (write_goes_on _ _); [done..|]. apply (IH _ _ _ w); try done; unfold write_turns, tries in *; lia. }
    1: { destruct (await Wr s1) as [c s2] eqn:Ea. apply (await_spec if_cancelled) in Ea as [Ht2 Hp2].
      rewrite Hres, <- app_assoc in Ht2. destruct c.
      - eapply (write_stops _ _ _ _ _ _ (remove s2)); [done|cbn; by rewrite Ht2, <- app_assoc|done|].
        apply (send_cancelled _ _ _ [_]).
      - destruct (Z.ltb_spec got (len buf)); [|lia]. destruct (Hp2 eq_refl _ Hp) as (w' & -> & Hw').
        eapply (write_goes_on _ _); [exact Ht2|done|]. apply (IH _ _ _ w'); try done. unfold write_turns in *. lia. }
    all: (eapply (write_stops _ _ _ _ _ _ (remove s1)); [done|cbn; by rewrite Hres, <- app_assoc|done|]);
      cbn; rewrite Ee; by apply (send_error _ _ _ []).
Qed.

(** [async_write] with the reason why it stopped. *)
Lemma async_write_spec fuel address buf s w :
  0 < len buf < 2 ^ 63 → calm w s → write_turns (len buf) 0 0 w <= Z.of_nat fuel →
  write_result (if address is Some _ then datagram_sent else write_stop (len buf)) buf 0 s
    (async_write reuseaddr max_write_retries fuel address (Some buf) s).
Proof.
  intros Hsz Hw Hfuel. destruct (coop_pause_spec if_cancelled s) as (Et & _ & Hp). apply Hp in Hw.
  assert (0 < tries max_write_retries) by (unfold tries; lia).
  apply (write_result_ext _ _ _ s (coop_pause s)); [done|]. unfold write_turns in Hfuel.
  assert (async_write reuseaddr max_write_retries fuel address (Some buf) s =
    match address with
    | Some address => async_write_udp reuseaddr max_write_retries fuel address buf 0 (coop_pause s)
    | None => async_write_tcp reuseaddr max_write_retries fuel buf 0 0 (coop_pause s)
    end) as -> by (destruct buf; [cbn in *; lia|done]).
  destruct address; [apply (write_udp_spec _ _ _ _ _ w)|apply (write_tcp_spec _ _ _ _ _ w)]; try done; unfold write_turns; nia.
Qed.

(** Why a write answers -1. *)
Inductive write_failed : errno_t → list syscall → Prop :=
| failed_zero e tr bs flags : write_failed e (tr ++ [SysSend flags bs (inr 0)])
| failed_error e tr bs flags : e ≠ EAGAIN → write_failed e (tr ++ [SysSend flags bs (inl e)])
| failed_cancelled tr : write_failed ECANCELED (tr ++ [SysSuspend Wr true]).

(** C29: for a buffer of 1 to [2 ^ 63 - 1] bytes, [async_write] returns when it is woken at most [w] times before it is cancelled,
    within a number of turns that depends on [w] and the size.  The bytes the kernel
    took are the first ones of the buffer, in order, none twice.  The answer is their
    number, or -1 after an error other than EAGAIN, which errno tells, after a call that
    took nothing (errno then tells nothing), or after a cancellation, with
    ECANCELED; so the full size is answered only when all of the buffer was taken. *)
Theorem async_write_correct fuel address buf s w :
  0 < len buf < 2 ^ 63 → calm w s → write_turns (len buf) 0 0 w <= Z.of_nat fuel →
  ∃ r s' tr, async_write reuseaddr max_write_retries fuel address (Some buf) s = Done (r, s')
    ∧ trace s' = trace s ++ tr
    ∧ accepted tr = take (length (accepted tr)) buf
    ∧ (r = len (accepted tr) ∨ r = -1 ∧ write_failed (errno s') tr)
    ∧ (r = len buf → accepted tr = buf).
Proof.
  intros Hsz Hw Hfuel. destruct (async_write_spec fuel address buf s w) as (r & s' & tr & -> & Ht & Ha & Hstop); [done..|].
  rewrite Z.add_0_l in Hstop. change (rest buf 0) with buf in Ha.
  assert (Hr : r = len (accepted tr) ∨ r = -1 ∧ write_failed (errno s') tr).
  { remember (len (accepted tr)) as got. destruct address; destruct Hstop; auto; right; (split; [done|]); by constructor. }
  exists r, s', tr. split_and!; try done. intros ->. rewrite Ha. apply take_ge. destruct Hr as [|[]]; lia.
Qed.

(** On a stream it does not return when the socket would block: it waits, and answers
    a size only when everything was taken.  (docs/socket.md says that it sends until it
    would block.) *)
Theorem async_write_all_or_nothing fuel buf s w r s' :
  0 < len buf < 2 ^ 63 → calm w s → write_turns (len buf) 0 0 w <= Z.of_nat fuel →
  async_write reuseaddr max_write_retries fuel None (Some buf) s = Done (r, s') → r = len buf ∨ r = -1.
Proof.
  intros Hsz Hw Hfuel E. destruct (async_write_spec fuel None buf s w) as (r0 & s0 & tr & E0 & _ & _ & Hstop); [done..|].
  rewrite E in E0. injection E0 as <- <-. destruct Hstop; auto.
Qed.

(** [async_send] returns when it is woken at most [w] times; it answers the full size only when the kernel took
    every byte of the buffer, in order; a hang-up seen before a call answers
    [Closed]; every other error and a cancellation remove the socket. *)
Theorem async_send_correct fuel address buf s w :
  0 < len buf < 2 ^ 63 → calm w s → write_turns (len buf) 0 0 w <= Z.of_nat fuel →
  ∃ r s' tr, async_send reuseaddr max_write_retries fuel address buf s = Done (r, s')
    ∧ trace s' = trace s ++ tr
    ∧ accepted tr = take (length (accepted tr)) buf
    ∧ send_stop (len buf) (len (accepted tr)) r (errno s') tr
    ∧ (∀ n, r = inr n → n = len buf ∧ accepted tr = buf).
Proof.
  intros Hsz Hw Hfuel. unfold async_send. rewrite signed_small by lia. destruct (Z.ltb_spec 0 (len buf)); [|lia].
  destruct (send_loop_spec fuel address buf 0 0 s w) as (r & s' & tr & -> & Ht & Ha & Hstop);
    [lia|lia|unfold tries; lia|done|done|].
  rewrite Z.add_0_l in Hstop. change (rest buf 0) with buf in Ha. exists r, s', tr. split_and!; [done..|].
  intros n ->. inversion Hstop; simplify_eq. split; [done|]. rewrite Ha. apply take_ge. lia.
Qed.
End writing.

Lemma async_write_correct_witness :
  ∃ r s' tr,
    async_write true 3 13 None (Some [x61; x62; x63])
      (connected (mkScript [] [inl EINTR; inr 2; inl EAGAIN; inr 1] [] [] [false])) = Done (r, s')
    ∧ trace s' = [] ++ tr ∧ accepted tr = take (length (accepted tr)) [x61; x62; x63]
    ∧ (r = len (accepted tr) ∨ r = -1 ∧ write_failed (errno s') tr) ∧ (r = 3 → accepted tr = [x61; x62; x63]).
Proof.
  pose proof (async_write_correct true 3 13 None [x61; x62; x63]
    (connected (mkScript [] [inl EINTR; inr 2; inl EAGAIN; inr 1] [] [] [false])) 1) as H.
  apply H; [done|apply script_woken; cbn; lia|by vm_compute].
Defined.

Lemma async_send_correct_witness :
  ∃ r s' tr,
    async_send true 3 13 None [x61; x62; x63]
      (connected (mkScript [] [inr 2; inl EAGAIN; inr 1] [] [] [true])) = Done (r, s')
    ∧ trace s' = [] ++ tr ∧ accepted tr = take (length (accepted tr)) [x61; x62; x63]
    ∧ send_stop 3 (len (accepted tr)) r (errno s') tr ∧ (∀ n, r = inr n → n = 3 ∧ accepted tr = [x61; x62; x63]).
Proof.
  pose proof (async_send_correct true 3 13 None [x61; x62; x63]
    (connected (mkScript [] [inr 2; inl EAGAIN; inr 1] [] [] [true])) 1) as H.
  apply H; [done|apply script_woken; cbn; lia|by vm_compute].
Defined.
End SocketWriteCorrect.

(** The calls of a socket that do not suspend, accepting connections, and the sizes
    for which the loops do not do what they are asked. *)

Module SocketCallsCorrect.
Import DynamicBuffer DynamicBufferCorrect SocketHeader SocketIO SocketIOCorrect.

(** Why [read] stopped, when [room] bytes would have filled the limit. *)
Inductive now_stop (room got : Z) : Z → errno_t → list syscall → Prop :=
| now_full e tr : got = room → now_stop room got got e tr
| now_eof e tr n flags : now_stop room got got e (tr ++ [SysRecv flags n (inr [])])
| now_again e tr n flags : now_stop room got got e (tr ++ [SysRecv flags n (inl EAGAIN)])
| now_error e tr n flags : e ≠ EAGAIN → now_stop room got (-1) e (tr ++ [SysRecv flags n (inl e)]).
#[export] Instance now_stop_prefix room : PrefixClosed (now_stop room).
Proof. intros got r e pre tr. destruct 1; rewrite ?(app_assoc pre); by constructor. Qed.

Section calls.
Context {K : Type} `{!Kernel K, !KernelLaws K} (max_read_retries : Z).
Implicit Types (s : io K) (w : nat).

Lemma append_spec bs b : buf_ok b → size_ b + len bs <= 2 ^ 63 →
  ∃ b', append 64 bs b = Done b' ∧ buf_ok b' ∧ contents b' = contents b ++ (Some <$> bs).
Proof.
  intros Hok Hle. destruct (buffer_step_refines 64 (Append bs) b) as (b' & E & Hok' & Hs); [lia|done|by apply Z.leb_le|].
  exists b'. split_and!; [done..|]. by inversion Hs.
Qed.

(** The loop of [read] with [got] bytes appended so far. *)
Lemma read_now_spec fuel max got retries b s :
  buf_ok b → 0 <= got <= size_ b → size_ b <= max <= 2 ^ 63 → 0 <= retries < tries max_read_retries →
  (max - size_ b) * tries max_read_retries + (tries max_read_retries - retries) <= Z.of_nat fuel →
  read_result (now_stop (max - (size_ b - got))) (max - (size_ b - got)) got b s
    (read max_read_retries fuel max got retries b s).
Proof.
  revert got retries b s.
  induction fuel as [|fuel IH]; intros got retries b s Hok Hgot Hmax Hret Hfuel; [nia|]. cbn [read].
  rewrite wrap_small by lia. set (n := Z.min 16384 (max - size_ b)).
  destruct (do_recv MSG_DONTWAIT n s) as [res s1] eqn:E. apply (do_recv_spec if_cancelled) in E as [_ Hres]; [|lia].
  destruct res as [[|x bs]|].
  - destruct Hres as [_ Ht]. eapply read_stops_nil; [done|done|done|done|lia|].
    destruct (Z.ltb_spec 0 got); [|replace 0 with got by lia]; apply (now_eof _ _ _ []).
  - destruct Hres as [Hlen Ht]. set (bs' := x :: bs) in *. assert (0 < len bs') by (cbn; lia).
    destruct (append_spec bs' b) as (b1 & -> & Hok1 & Hc); [done|lia|]. orun.
    assert (Hs1 : size_ b1 = size_ b + len bs').
    { rewrite <- (contents_length b1), Hc, length_app, length_fmap by done. pose proof (contents_length b Hok). lia. }
    assert (Hrec : received [SysRecv MSG_DONTWAIT n (inr bs')] = bs') by apply app_nil_r.
    destruct (Z.leb_spec max (size_ b1)).
    + eapply (read_stops _ _ _ _ bs'); [done|done|done|done|done|lia|]. apply now_full. lia.
    + eapply (read_goes_on _ _ _ _ bs'); [done|done|done|done|].
      assert (tries max_read_retries <= len bs' * tries max_read_retries) by nia.
      replace (max - (size_ b - got)) with (max - (size_ b1 - (got + len bs'))) by lia.
      apply IH; [done|lia..].
  - destruct (errno s1) eqn:Ee.
    1: { destruct (Z.leb_spec max_read_retries (retries + 1)).
      - eapply read_stops_nil; [done|done|done|done|lia|]. rewrite Ee. by apply (now_error _ _ _ []).
      - eapply (read_goes_on_nil _); [done..|]. apply IH; try done; unfold tries in *; lia. }
    1: { eapply read_stops_nil; [done|done|done|done|lia|]. apply (now_again _ _ _ []). }
    all: (eapply read_stops_nil; [done|done|done|done|lia|]); rewrite Ee; by apply (now_error _ _ _ []).
Qed.

(** [read] returns without waiting, whatever the kernel answers; the bytes handed
    over are appended to the buffer in order, the buffer does not grow beyond the
    limit if it was not beyond it before, and the answer is their number, or -1 after
    an error or too many interruptions. *)
Theorem read_correct fuel max b s :
  buf_ok b → size_ b <= max <= 2 ^ 63 → (max - size_ b + 1) * tries max_read_retries <= Z.of_nat fuel →
  ∃ r b' s' tr, read max_read_retries fuel max 0 0 b s = Done (r, b', s')
    ∧ trace s' = trace s ++ tr ∧ buf_ok b'
    ∧ contents b' = contents b ++ (Some <$> received tr)
    ∧ size_ b' <= max
    ∧ now_stop (max - size_ b) (len (received tr)) r (errno s') tr.
Proof.
  intros Hok Hmax Hfuel. pose proof Hok as [_ Hs _].
  destruct (read_now_spec fuel max 0 0 b s) as (r & b' & s' & tr & -> & Ht & Hok' & Hh & _ & Hle & Hstop);
    [done|lia|lia|unfold tries; lia|lia|].
  rewrite Z.sub_0_r, Z.add_0_l in *. exists r, b', s', tr. split_and!; try done.
  rewrite <- (contents_length b') by done. cbn in Hh. rewrite Hh, length_app, length_fmap.
  pose proof (contents_length b Hok). lia.
Qed.

(** ** Accepting *)

Inductive accept_stop : option header → errno_t → list syscall → Prop :=
| accept_got e tr cfd : accept_stop (Some (accepted_header cfd)) e (tr ++ [SysAccept (inr cfd)])
| accept_cancelled e tr : accept_stop None e (tr ++ [SysSuspend Rd true])
| accept_error e tr : e ∉ [EINTR; ECONNABORTED; EPROTO; EAGAIN; ENOBUFS; ENOMEM; ENFILE; EMFILE] →
    accept_stop None e (tr ++ [SysAccept (inl e)]).

Lemma accept_stop_prefix r e pre tr : accept_stop r e tr → accept_stop r e (pre ++ tr).
Proof. destruct 1; rewrite ?(app_assoc pre); by constructor. Qed.

Lemma do_accept_spec s res s' : do_accept s = (res, s') →
  match res with
  | Some cfd => trace s' = trace s ++ [SysAccept (inr cfd)]
  | None => trace s' = trace s ++ [SysAccept (inl (errno s'))]
      ∧ ∀ w, calm w s → ∃ w', w = ((match errno s' with EINTR | ECONNABORTED | EPROTO => 1 | _ => 0 end) + w')%nat ∧ calm w' s'
  end.
Proof.
  unfold do_accept. destruct (accept4 _ _) as [r k] eqn:E.
  destruct r; intros [= <- <-]; cbn; [|done]. split; [done|]. intros w. by eapply woken_accept.
Qed.

Definition accept_result s (res : outcome (option header * io K)) : Prop :=
  ∃ r s' tr, res = Done (r, s') ∧ trace s' = trace s ++ tr ∧ accept_stop r (errno s') tr.

Lemma accept_goes_on cs s s' res : trace s' = trace s ++ cs → accept_result s' res → accept_result s res.
Proof.
  intros Ht (r & s2 & tr & -> & Ht2 & Hs). exists r, s2, (cs ++ tr).
  split_and!; [done|by rewrite Ht2, Ht, app_assoc|by apply accept_stop_prefix].
Qed.

(** After a shortage or an empty queue the loop waits and goes on, or is cancelled. *)
Lemma accept_waits fuel s e s1 w :
  (∀ s w, calm w s → (w < fuel)%nat → accept_result s (async_accept fuel s)) →
  trace s1 = trace s ++ [SysAccept (inl e)] → calm w s1 → (w <= fuel)%nat →
  accept_result s (let '(cancelled, s) := await Rd s1 in if cancelled then Done (None, s) else async_accept fuel s).
Proof.
  intros IH Ht Hw Hfuel. destruct (await Rd s1) as [c s2] eqn:Ea. apply (await_spec if_cancelled) in Ea as [Ht2 Hp2].
  rewrite Ht, <- app_assoc in Ht2. destruct c.
  - exists None, s2, [SysAccept (inl e); SysSuspend Rd true].
    split_and!; [done|exact Ht2|apply (accept_cancelled _ [_])].
  - destruct (Hp2 eq_refl _ Hw) as (w' & -> & Hw'). eapply accept_goes_on; [exact Ht2|]. apply (IH _ w'); [done|lia].
Qed.

Lemma accept_spec fuel s w : calm w s → (w < fuel)%nat → accept_result s (async_accept fuel s).
Proof.
  revert s w. induction fuel as [|fuel IH]; intros s w Hw Hfuel; [lia|]. cbn [async_accept].
  destruct (view_eq _ _ (disarm_rd_view s)) as (_ & _ & Etr). apply calm_disarm in Hw.
  apply (accept_goes_on [] s (disarm_rd s)); [by rewrite app_nil_r|].
  clear Etr. revert Hw. generalize (disarm_rd s). clear s. intros s Hw.
  destruct (do_accept s) as [res s1] eqn:E. apply do_accept_spec in E. destruct res as [cfd|].
  { exists (Some (accepted_header cfd)), s1, [SysAccept (inr cfd)]. split_and!; [done..|]. apply (accept_got _ []). }
  destruct E as [Ht Hp]. destruct (Hp _ Hw) as (w' & -> & Hw'). destruct (errno s1) eqn:Ee;
    try (eapply accept_goes_on; [exact Ht|apply (IH _ w'); [done|lia]]);
    try (eapply accept_waits; [done|exact Ht|exact Hw'|lia]).
  all: eexists None, s1, [_]; (split_and!; [done|exact Ht|]); rewrite Ee; apply (accept_error _ []); set_solver.
Qed.

(** [async_accept] returns when it is woken or interrupted at most [w] times; it hands out the header of exactly the connection the
    kernel accepted last, with one reference, and gives up only on cancellation or on
    an error that is neither transient nor a lack of resources. *)
Theorem async_accept_correct fuel s w : calm w s → (w < fuel)%nat →
  ∃ r s' tr, async_accept fuel s = Done (r, s') ∧ trace s' = trace s ++ tr ∧ accept_stop r (errno s') tr
    ∧ (∀ h, r = Some h → get_counter (state h) = 1 ∧ is_closed (state h) = false).
Proof.
  intros Hw Hfuel. destruct (accept_spec fuel s w Hw Hfuel) as (r & s' & tr & E & Ht & Hstop).
  exists r, s', tr. split_and!; [done..|]. intros h ->. by inversion Hstop.
Qed.
End calls.

Lemma read_correct_witness :
  ∃ r b' s' tr,
    read 2 8 3 0 0 empty_buffer (connected (mkScript [inr [x61]; inl EINTR; inr [x62; x63]] [] [] [] [])) = Done (r, b', s')
    ∧ trace s' = [] ++ tr ∧ buf_ok b' ∧ contents b' = [] ++ (Some <$> received tr) ∧ size_ b' <= 3
    ∧ now_stop (3 - 0) (len (received tr)) r (errno s') tr.
Proof.
  pose proof (read_correct 2 8 3 empty_buffer (connected (mkScript [inr [x61]; inl EINTR; inr [x62; x63]] [] [] [] []))) as H.
  apply H; [apply empty_ok|done|by vm_compute].
Defined.

Lemma async_accept_correct_witness :
  ∃ r s' tr,
    async_accept 6 (connected (mkScript [] [] [] [inl EMFILE; inl EINTR; inr 9] [false])) = Done (r, s')
    ∧ trace s' = [] ++ tr ∧ accept_stop r (errno s') tr
    ∧ (∀ h, r = Some h → get_counter (state h) = 1 ∧ is_closed (state h) = false).
Proof.
  pose proof (async_accept_correct 6 (connected (mkScript [] [] [] [inl EMFILE; inl EINTR; inr 9] [false])) 4) as H.
  apply H; [apply script_woken; cbn; lia|lia].
Defined.

(** ** Sizes *)

(** A limit below the size the buffer already has underflows: [read] goes past it. *)
Example read_overruns_its_limit :
  ∃ b s', append 64 [x61; x62; x63] empty_buffer = Done b
    ∧ read 100 5 2 0 0 b (connected (mkScript [inr [x64; x65; x66; x67]] [] [] [] [])) = s'
    ∧ (∃ b' s'', s' = Done (4, b', s'') ∧ size_ b' = 7).
Proof. eexists _, _. split; [vm_compute; reflexivity|]. split; [reflexivity|]. eexists _, _. by vm_compute. Qed.

(** A request of 2^63 bytes or more is negative as [ssize_t]: the read answers 0, what
    it answers at the end of the stream, without a system call. *)
Lemma huge_read_reads_nothing {K} `{!Kernel K} {T} `{!Sink T} reuseaddr retries fuel max (t : T) (s : io K) :
  2 ^ 63 <= max < 2 ^ 64 →
  async_read reuseaddr retries (S fuel) false max t s = Done (0, t, coop_pause s).
Proof.
  intros Hmax. unfold async_read. destruct (Z.eqb_spec max 0); [lia|]. cbn [async_read_tcp].
  pose proof (signed_huge max Hmax). destruct (Z.ltb_spec 0 (signed 64 max)); [lia|done].
Qed.
End SocketCallsCorrect.
