(* ===== verification/SocketBSD.v ===== *)
(** Reading from and writing to a socket on macOS and the BSDs ([net/SocketBSD.h]): the
    same operations as [SocketIO], written separately in the source, over the same
    kernel calls.  The header of a socket is there (a moved-from socket is not
    modelled); its descriptor may be gone, which these loops test for. *)

From S2P Require Import Prelude DynamicBuffer SocketHeader SocketIO.

Module SocketBSD.
Import DynamicBuffer SocketHeader SocketIO.

(** ** The calls Linux does not have *)

Inductive fcntl_cmd := F_GETFL | F_SETFL (flags : Z) | F_GETFD | F_SETFD (flags : Z).
Definition O_NONBLOCK : Z := 4.
Definition FD_CLOEXEC : Z := 1.

(** [accept] answers a descriptor or an error, [fcntl] -1 for an error; [sendfile]
    answers an error, if any, and the number of bytes sent in both cases. *)
Class KernelBSD (K : Type) := {
  accept : Z → K → (errno_t + Z) * K;
  fcntl : Z → fcntl_cmd → K → Z * K;
  sendfile_bsd : Z → Z → Z → Z → K → option errno_t * Z * K
}.

(** ** Where a stream read puts its bytes

    Through an array on the stack, then [append]. *)
Record appending := mkAppending { target : DynamicBuffer }.
#[export] Instance appending_sink : Sink appending := {
  chunk remaining := Z.min 16384 remaining;
  room n b := Done b;
  fill bs b := b ← append 64 bs (target b); Done (mkAppending b)
}.

Section reading.
Context {K : Type} `{!Kernel K} (reuseaddr : bool) (max_read_retries : Z).

Definition gone (s : io K) : bool := fd (hd s) <? 0.

(** The datagram loop of [async_read] into a buffer. *)
Fixpoint async_read_buffer_udp (fuel : nat) (max_read_size retries : Z) (b : DynamicBuffer) (s : io K) :
    outcome (Z * DynamicBuffer * io K) :=
  match fuel with
  | O => OutOfFuel
  | S fuel =>
      if gone s then Done (-1, b, s)
      else
        b ← room max_read_size b;
        let '(res, s) := do_recv MSG_DONTWAIT max_read_size (disarm_rd s) in
        match res with
        | Some ((_ :: _) as bs) => b ← fill bs b; Done (len bs, b, bump reuseaddr s)
        | Some [] => Done (0, b, s)
        | None =>
            match errno s with
            | EINTR =>
                if max_read_retries <=? retries + 1 then Done (-1, b, remove s)
                else async_read_buffer_udp fuel max_read_size (retries + 1) b s
            | EAGAIN =>
                let '(cancelled, s) := await Rd s in
                if cancelled then Done (-1, b, set_errno ECANCELED s)
                else async_read_buffer_udp fuel max_read_size retries b s
            | _ => Done (-1, b, remove s)
            end
        end
  end.

(** The datagram loop of [async_read] into memory: it does not look at cancellation. *)
Fixpoint async_read_raw_udp (fuel : nat) (max_read_size retries : Z) (dst : memory) (s : io K) :
    outcome (Z * memory * io K) :=
  match fuel with
  | O => OutOfFuel
  | S fuel =>
      if gone s then Done (-1, dst, s)
      else
        let '(res, s) := do_recv MSG_DONTWAIT max_read_size (disarm_rd s) in
        match res with
        | Some ((_ :: _) as bs) => dst ← fill bs dst; Done (len bs, dst, bump reuseaddr s)
        | Some [] => Done (0, dst, s)
        | None =>
            match errno s with
            | EINTR =>
                if max_read_retries <=? retries + 1 then Done (-1, dst, remove s)
                else async_read_raw_udp fuel max_read_size (retries + 1) dst s
            | EAGAIN =>
                let '(_, s) := await Rd s in
                if gone s then Done (0, dst, s)
                else async_read_raw_udp fuel max_read_size retries dst s
            | _ => Done (-1, dst, remove s)
            end
        end
  end.

(** The stream loop, the same for both overloads: at the end of the stream it removes
    the socket and answers 0. *)
Fixpoint async_read_tcp {T} `{!Sink T} (fuel : nat) (max_read_size total_read retries : Z) (t : T) (s : io K) :
    outcome (Z * T * io K) :=
  match fuel with
  | O => OutOfFuel
  | S fuel =>
      if total_read <? signed 64 max_read_size then
        if gone s then Done (if 0 <? total_read then total_read else -1, t, s)
        else
          let remaining := u64 (max_read_size - total_read) in
          if remaining =? 0 then
            (* the inner loop is left, and entered again unless everything was read *)
            if signed 64 max_read_size <=? total_read
            then Done (total_read, t, bump_if reuseaddr (0 <? total_read) s)
            else async_read_tcp fuel max_read_size total_read retries t s
          else
            let to_read := chunk remaining in
            t ← room to_read t;
            let '(res, s) := do_recv MSG_DONTWAIT to_read (disarm_rd s) in
            match res with
            | Some ((_ :: _) as bs) =>
                t ← fill bs t;
                async_read_tcp fuel max_read_size (total_read + len bs) 0 t s
            | Some [] => Done (0, t, bump_if reuseaddr (0 <? total_read) (remove s))
            | None =>
                match errno s with
                | EINTR =>
                    if max_read_retries <=? retries + 1
                    then Done (-1, t, bump_if reuseaddr (0 <? total_read) (remove s))
                    else async_read_tcp fuel max_read_size total_read (retries + 1) t s
                | EAGAIN =>
                    if 0 <? total_read then Done (total_read, t, bump reuseaddr s)
                    else
                      let '(_, s) := await Rd s in
                      if gone s then Done (0, t, s)
                      else async_read_tcp fuel max_read_size total_read retries t s
                | _ => Done (-1, t, bump_if reuseaddr (0 <? total_read) (remove s))
                end
            end
      else Done (total_read, t, bump_if reuseaddr (0 <? total_read) s)
  end.

(** The two places it is run with. *)
Definition async_read_buffer_tcp (fuel : nat) (max_read_size : Z) (b : DynamicBuffer) (s : io K) :
    outcome (Z * DynamicBuffer * io K) :=
  '(r, t, s) ← async_read_tcp fuel max_read_size 0 0 (mkAppending b) s; Done (r, target t, s).
Definition async_read_raw_tcp (fuel : nat) (max_read_size : Z) (dst : memory) (s : io K) : outcome (Z * memory * io K) :=
  async_read_tcp fuel max_read_size 0 0 dst s.

Definition async_read_buffer (fuel : nat) (udp : bool) (max_read_size : Z) (b : DynamicBuffer) (s : io K) :
    outcome (Z * DynamicBuffer * io K) :=
  if gone s then Done (-1, b, s)
  else if max_read_size =? 0 then Done (0, b, s)
  else if udp then async_read_buffer_udp fuel max_read_size 0 b s
  else async_read_buffer_tcp fuel max_read_size b s.

Definition async_read_raw (fuel : nat) (udp : bool) (dst : option (list (option byte))) (max_read_size : Z) (s : io K) :
    outcome (Z * list (option byte) * io K) :=
  match dst with
  | None => Done (0, [], s)
  | Some dst =>
      if max_read_size =? 0 then Done (0, dst, s)
      else if gone s then Done (-1, dst, s)
      else
        '(r, m, s) ← (if udp then async_read_raw_udp fuel max_read_size 0 (mkMemory dst 0) s
                      else async_read_raw_tcp fuel max_read_size (mkMemory dst 0) s);
        Done (r, cells m, s)
  end.

(** [read]: what is there now, without suspending *)
Fixpoint read (fuel : nat) (max_read_size total_read retries : Z) (b : DynamicBuffer) (s : io K) :
    outcome (Z * DynamicBuffer * io K) :=
  match fuel with
  | O => OutOfFuel
  | S fuel =>
      let remaining := u64 (max_read_size - size_ b) in
      if remaining =? 0 then Done (total_read, b, s)
      else
        let to_read := Z.min 16384 remaining in
        let '(res, s) := do_recv MSG_DONTWAIT to_read s in
        match res with
        | Some ((_ :: _) as temp) =>
            b ← append 64 temp b;
            read fuel max_read_size (total_read + len temp) 0 b s
        | Some [] => Done (if 0 <? total_read then total_read else 0, b, s)
        | None =>
            match errno s with
            | EAGAIN => Done (total_read, b, s)
            | EINTR =>
                if max_read_retries <=? retries + 1 then Done (-1, b, s)
                else read fuel max_read_size total_read (retries + 1) b s
            | _ => Done (-1, b, s)
            end
        end
  end.
End reading.

Section writing.
Context {K : Type} `{!Kernel K, !KernelBSD K} (reuseaddr : bool) (max_write_retries : Z).

(** A datagram that does not fit now is given up, with the answer 0. *)
Fixpoint async_write_udp (fuel : nat) (address : client_addr) (buf : list byte) (retries : Z) (s : io K) :
    outcome (Z * io K) :=
  match fuel with
  | O => OutOfFuel
  | S fuel =>
      let '(res, s) := udp_send MSG_DONTWAIT address buf (disarm_wr s) in
      match res with
      | Some res => Done (res, bump_if reuseaddr (0 <? res) s)
      | None =>
          match errno s with
          | EINTR =>
              if max_write_retries <=? retries + 1 then Done (-1, s)
              else async_write_udp fuel address buf (retries + 1) s
          | EAGAIN => Done (0, s)
          | _ => Done (-1, s)
          end
      end
  end.

Fixpoint async_write_tcp (fuel : nat) (buf : list byte) (total_written retries_eintr : Z) (s : io K) :
    outcome (Z * io K) :=
  match fuel with
  | O => OutOfFuel
  | S fuel =>
      if total_written <? signed 64 (len buf) then
        let '(res, s) := do_send MSG_DONTWAIT None (rest buf total_written) (disarm_wr s) in
        match res with
        | Some res =>
            if 0 <? res then
              let total_written := total_written + res in
              if signed 64 (len buf) <=? total_written then Done (total_written, bump_if reuseaddr (0 <? total_written) s)
              else async_write_tcp fuel buf total_written 0 s
            else Done (-1, s)
        | None =>
            match errno s with
            | EINTR =>
                if max_write_retries <=? retries_eintr + 1 then Done (-1, s)
                else async_write_tcp fuel buf total_written (retries_eintr + 1) s
            | EAGAIN =>
                let '(cancelled, s) := await Wr s in
                if cancelled then Done (-1, set_errno ECANCELED s)
                else async_write_tcp fuel buf total_written retries_eintr s
            | _ => Done (-1, s)
            end
        end
      else Done (total_written, s)
  end.

Definition async_write (fuel : nat) (address : option client_addr) (buf : option (list byte)) (s : io K) :
    outcome (Z * io K) :=
  match buf with
  | None | Some [] => Done (0, s)
  | Some buf =>
      match address with
      | Some address => async_write_udp fuel address buf 0 s
      | None => async_write_tcp fuel buf 0 0 s
      end
  end.

(** [write]: as much as the socket takes now, from a copy of the caller's bytes.
    Neither this nor [async_send] passes MSG_NOSIGNAL. *)
Fixpoint write_loop (fuel : nat) (address : option client_addr) (buf : list byte) (total_written retries : Z) (s : io K) :
    outcome (Z * io K) :=
  match fuel with
  | O => OutOfFuel
  | S fuel =>
      if total_written <? signed 64 (len buf) then
        let '(res, s) :=
          match address with
          | Some address => udp_send MSG_DONTWAIT address (rest buf total_written) s
          | None => do_send MSG_DONTWAIT None (rest buf total_written) s
          end in
        match res with
        | Some res =>
            if 0 <? res then write_loop fuel address buf (total_written + res) 0 s
            else write_loop fuel address buf total_written retries s
        | None =>
            match errno s with
            | EINTR =>
                if max_write_retries <=? retries + 1 then Done (-1, s)
                else write_loop fuel address buf total_written (retries + 1) s
            | EAGAIN => Done (total_written, s)
            | _ => Done (-1, s)
            end
        end
      else Done (total_written, s)
  end.

Definition write (fuel : nat) (address : option client_addr) (buf : list byte) (s : io K) : outcome (Z * io K) :=
  let buf_internal := buf in
  write_loop fuel address buf_internal 0 0 s.

(** [async_send]: like the one on Linux, without a look at cancellation *)
Fixpoint async_send_loop (fuel : nat) (address : option client_addr) (buf : list byte) (total_written retries : Z)
    (s : io K) : outcome ((SendError + Z) * io K) :=
  match fuel with
  | O => OutOfFuel
  | S fuel =>
      let s := disarm_wr s in
      if is_disconnected_now (state (hd s)) then Done (inl Closed, s)
      else
        let '(res, s) := do_send MSG_DONTWAIT address (rest buf total_written) s in
        match res with
        | Some res =>
            if 0 <? res then
              let total_written := total_written + res in
              if signed 64 (len buf) <=? total_written then
                Done (inr total_written, bump_if reuseaddr (0 <? total_written) s)
              else async_send_loop fuel address buf total_written 0 s
            else Done (inl SendFailed, remove s)
        | None =>
            match errno s with
            | EINTR =>
                if max_write_retries <=? retries + 1 then Done (inl SendFailed, remove s)
                else async_send_loop fuel address buf total_written (retries + 1) s
            | EAGAIN =>
                let '(_, s) := await Wr s in
                if total_written <? signed 64 (len buf) then async_send_loop fuel address buf total_written retries s
                else Done (inr total_written, bump_if reuseaddr (0 <? total_written) s)
            | _ => Done (inl SendFailed, remove s)
            end
        end
  end.

Definition async_send (fuel : nat) (address : option client_addr) (buf : list byte) (s : io K) :
    outcome ((SendError + Z) * io K) :=
  let buf_internal := buf in
  if 0 <? signed 64 (len buf) then async_send_loop fuel address buf_internal 0 0 s else Done (inr 0, s).

(** The loop of [receive]. *)
Fixpoint receive (fuel : nat) (chunk_size maxSize totalReceive : Z) (result : list byte) (s : io K) :
    outcome ((SendError + list byte) * io K) :=
  match fuel with
  | O => OutOfFuel
  | S fuel =>
      if totalReceive <? maxSize then
        let want := Z.min chunk_size (u64 (maxSize - totalReceive)) in
        let '(received, s) := do_recv no_flags want s in
        match received with
        | None => match errno s with EAGAIN => Done (inr result, s) | _ => Done (inl RecvFailed, s) end
        | Some [] => Done (inr result, s)
        | Some ((_ :: _) as bs) =>
            let totalReceive := totalReceive + len bs in
            let result := result ++ bs in
            if len bs <? want then Done (inr result, s)
            else receive fuel chunk_size maxSize totalReceive result s
        end
      else Done (inr result, s)
  end.

Definition send_aux (address : option client_addr) (buf : list byte) (s : io K) : Z * io K :=
  if gone s then (u64 (-1), s)
  else let '(res, s) := do_send no_flags address buf s in (match res with Some n => u64 n | None => u64 (-1) end, s).

Definition send_and_receive (fuel : nat) (address : option client_addr) (buf : list byte) (chunkSize maxSize : Z)
    (s : io K) : outcome ((SendError + list byte) * io K) :=
  let '(sendRes, s) := send_aux address buf s in
  if negb (sendRes =? u64 (-1)) then receive fuel chunkSize maxSize 0 [] s
  else Done (inl InvalidSocketFd, s).

(** ** Sending a file: [*offset] advances by what was sent *)

Definition do_sendfile_bsd (in_fd off count : Z) (s : io K) : option errno_t * Z * io K :=
  let '(e, sbytes, k) := sendfile_bsd in_fd (fd (hd s)) off count (kern s) in
  let s := record_call (SysSendfile count (match e with Some e => inl e | None => inr sbytes end)) {| s with kern := k |} in
  (e, sbytes, match e with Some e => {| s with errno := e |} | None => s end).

Definition async_sendfile (in_fd : Z) (offset : option Z) (count : Z) (s : io K) : Z * option Z * io K :=
  let '(_, s) := await Wr s in
  if is_disconnected_now (state (hd s)) then (-3, offset, s)
  else
    let off := default 0 offset in
    let '(rc, sbytes, s) := do_sendfile_bsd in_fd off count s in
    match rc with
    | Some EAGAIN =>
        if 0 <? sbytes then (sbytes, (λ _, off + sbytes) <$> offset, bump reuseaddr s)
        else (-1, offset, s)
    | Some _ => (-1, offset, s)
    | None => (sbytes, (λ _, off + sbytes) <$> offset, bump_if reuseaddr (0 <? sbytes) s)
    end.

Definition sendfile (in_fd : Z) (offset : option Z) (count : Z) (s : io K) : Z * option Z * io K :=
  let off := default 0 offset in
  let '(rc, sbytes, s) := do_sendfile_bsd in_fd off count s in
  match rc with
  | Some EAGAIN =>
      if 0 <? sbytes then (sbytes, (λ _, off + sbytes) <$> offset, s) else (-1, offset, remove s)
  | Some _ => (-1, offset, remove s)
  | None => (sbytes, (λ _, off + sbytes) <$> offset, s)
  end.

(** ** Accepting: the flags [accept4] sets at once are set by [fcntl] *)

Definition do_accept_bsd (s : io K) : option Z * io K :=
  let '(r, k) := accept (fd (hd s)) (kern s) in
  let s := record_call (SysAccept r) {| s with kern := k |} in
  match r with
  | inr cfd => (Some cfd, s)
  | inl e => (None, {| s with errno := e |})
  end.

Definition do_fcntl (cfd : Z) (c : fcntl_cmd) (s : io K) : Z * io K :=
  let '(r, k) := fcntl cfd c (kern s) in (r, {| s with kern := k |}).

(** Whether the flags could be set; the descriptor is closed otherwise. *)
Definition prepare_accepted (cfd : Z) (s : io K) : bool * io K :=
  let close s := record_call (SysClose cfd) s in
  let '(flags, s) := do_fcntl cfd F_GETFL s in
  if flags =? -1 then (false, close s)
  else
    let '(r, s) := do_fcntl cfd (F_SETFL (Z.lor flags O_NONBLOCK)) s in
    if r =? -1 then (false, close s)
    else
      let '(fdflags, s) := do_fcntl cfd F_GETFD s in
      if fdflags =? -1 then (false, close s)
      else
        let '(r, s) := do_fcntl cfd (F_SETFD (Z.lor fdflags FD_CLOEXEC)) s in
        if r =? -1 then (false, close s) else (true, s).

(** After a failed [fcntl] the loop behaves as if nothing had been there: it waits.  It
    does not look at cancellation. *)
Fixpoint async_accept (fuel : nat) (s : io K) : outcome (option header * io K) :=
  match fuel with
  | O => OutOfFuel
  | S fuel =>
      let '(cfd, s) := do_accept_bsd (disarm_rd s) in
      let '(cfd, s) :=
        match cfd with
        | Some cfd =>
            let '(ok, s) := prepare_accepted cfd s in
            if ok then (Some cfd, s) else (None, set_errno EAGAIN s)
        | None => (None, s)
        end in
      match cfd with
      | Some cfd => Done (Some (accepted_header cfd), s)
      | None =>
          match errno s with
          | EINTR | ECONNABORTED | EPROTO => async_accept fuel s
          | EAGAIN | ENOBUFS | ENOMEM | ENFILE | EMFILE =>
              let '(_, s) := await Rd s in async_accept fuel s
          | _ => Done (None, s)
          end
      end
  end.

(** [async_accept(on_accept, ...)] goes on with the next connection instead. *)
Fixpoint async_accept_each (fuel : nat) (handed : list header) (s : io K) : outcome (list header * io K) :=
  match fuel with
  | O => OutOfFuel
  | S fuel =>
      let '(cfd, s) := do_accept_bsd (disarm_rd s) in
      match cfd with
      | Some cfd =>
          let '(ok, s) := prepare_accepted cfd s in
          if ok then async_accept_each fuel (handed ++ [accepted_header cfd]) s
          else async_accept_each fuel handed s
      | None =>
          match errno s with
          | EINTR | ECONNABORTED | EPROTO => async_accept_each fuel handed s
          | EAGAIN | ENOBUFS | ENOMEM | ENFILE | EMFILE =>
              let '(_, s) := await Rd s in async_accept_each fuel handed s
          | _ => Done (handed, s)
          end
      end
  end.
End writing.
End SocketBSD.
