(* ===== verification/SocketBSDCorrect.v ===== *)
(** The socket operations of macOS and the BSDs: what their stream reads return and
    leave behind, and where they agree with those of Linux. *)

From S2P Require Import Prelude SocketHeader DynamicBuffer DynamicBufferCorrect SocketIO SocketIOCorrect SocketWriteCorrect SocketBSD.

Module SocketBSDCorrect.
Import SocketBSD DynamicBuffer DynamicBufferCorrect SocketHeader SocketIO SocketIOCorrect SocketWriteCorrect SocketCallsCorrect.

#[export] Program Instance appending_sink_laws : SinkLaws SocketBSD.appending := {
  holds b := contents (SocketBSD.target b);
  behind _ := [];
  capacity b := 2 ^ 63 - size_ (SocketBSD.target b);
  sink_ok b := buf_ok (SocketBSD.target b);
  has_room b n := size_ (SocketBSD.target b) + n <= 2 ^ 63
}.
Next Obligation. intros n Hn. cbn. lia. Qed.
Next Obligation. intros n [b] Hok Hn. cbn in *. exists (SocketBSD.mkAppending b). cbn. split_and!; done || lia. Qed.
Next Obligation.
  intros n bs [b] Hok Hroom Hlen. cbn in *.
  destruct (append_spec bs b) as (b' & -> & Hok' & Ec); [done|lia|]. orun.
  eexists. split_and!; [done..|by rewrite drop_nil|]. cbn.
  rewrite <- (contents_length _ Hok'), Ec, length_app, length_fmap. pose proof (contents_length b Hok). lia.
Qed.

(** The loops below do not look at cancellation: what ends them while they wait is that
    the descriptor is gone when they are woken. *)
Definition if_gone (_ : bool) (h : header) : bool := fd h <? 0.

(** Why a datagram read stopped. *)
Inductive bsd_datagram_stop (got : Z) : Z → errno_t → list syscall → Prop :=
| bsd_datagram_got e tr n bs flags : bsd_datagram_stop got got e (tr ++ [SysRecv flags n (inr bs)])
| bsd_datagram_error e tr n flags : e ≠ EAGAIN → got = 0 → bsd_datagram_stop got (-1) e (tr ++ [SysRecv flags n (inl e); SysRemove])
| bsd_datagram_cancelled tr : got = 0 → bsd_datagram_stop got (-1) ECANCELED (tr ++ [SysSuspend Rd true])
| bsd_datagram_gone e tr c r : got = 0 → r = 0 ∨ r = -1 → bsd_datagram_stop got r e (tr ++ [SysSuspend Rd c]).
#[export] Instance bsd_datagram_stop_prefix : PrefixClosed bsd_datagram_stop.
Proof. prefix_closed. Qed.

(** Why a stream read stopped: [got] bytes were read, the answer is [r].  At the end of
    the stream it is 0 whatever was read before. *)
Inductive bsd_read_stop (max got : Z) : Z → errno_t → list syscall → Prop :=
| bsd_full e tr : got = max → bsd_read_stop max got got e tr
| bsd_eof e tr n flags : bsd_read_stop max got 0 e (tr ++ [SysRecv flags n (inr []); SysRemove])
| bsd_again e tr n flags : 0 < got → bsd_read_stop max got got e (tr ++ [SysRecv flags n (inl EAGAIN)])
| bsd_error e tr n flags : e ≠ EAGAIN → bsd_read_stop max got (-1) e (tr ++ [SysRecv flags n (inl e); SysRemove])
| bsd_gone e tr c : got = 0 → bsd_read_stop max got 0 e (tr ++ [SysSuspend Rd c]).
#[export] Instance bsd_read_stop_prefix max : PrefixClosed (bsd_read_stop max).
Proof. prefix_closed. Qed.

Section stream.
Context {K : Type} `{!Kernel K, !KernelLaws K} {T : Type} `{!Sink T, !SinkLaws T}.
Context (reuseaddr : bool) (max_read_retries : Z).
Implicit Types (s : io K) (t : T) (w : nat).

(** The run is woken at most [w] times before its descriptor is gone. *)
Definition calm_bsd w s : Prop := woken_at_most if_gone w (kern s).

Lemma disarm_rd_fd s : fd (hd (disarm_rd s)) = fd (hd s).
Proof. unfold disarm_rd. by case_match. Qed.

Lemma do_recv_hd flags n s res s' : do_recv flags n s = (res, s') → hd s' = hd s.
Proof. unfold do_recv. destruct (recv _ _ _ _) as [[e|bs] k]; intros [= <- <-]; done. Qed.

Lemma calm_bsd_disarm w s : calm_bsd w s → calm_bsd w (disarm_rd s).
Proof. unfold calm_bsd. by destruct (view_eq _ _ (disarm_rd_view s)) as (-> & _). Qed.

(** A removal on the way out. *)
Lemma bsd_removes stop max got c r t s s1 s' :
  view s' = view (remove s1) → trace s1 = trace s ++ [c] → received [c] = [] → sink_ok t → got <= max →
  stop got r (errno s1) [c; SysRemove] → read_result stop max got t s (Done (r, t, s')).
Proof.
  intros Hv Ht Hc Hok Hle Hstop. eapply (read_stops_nil _ _ _ [c; SysRemove]); [exact Hv| |by cbn in *; rewrite app_nil_r in *|done..].
  cbn. by rewrite Ht, <- app_assoc.
Qed.

Lemma bsd_read_tcp_spec fuel max got retries t s w :
  0 < max < 2 ^ 63 → 0 <= got <= max → 0 <= retries < tries max_read_retries →
  0 <= fd (hd s) → sink_ok t → max - got <= capacity t → calm_bsd w s →
  turns max_read_retries max got retries w <= Z.of_nat fuel →
  read_result (bsd_read_stop max) max got t s
    (SocketBSD.async_read_tcp reuseaddr max_read_retries fuel max got retries t s).
Proof.
  intros Hmax. revert got retries t s w.
  induction fuel as [|fuel IH]; intros got retries t s w Hgot Hret Hfd Hok Hcap Hw Hfuel; [unfold turns in Hfuel; nia|].
  cbn [SocketBSD.async_read_tcp]. rewrite signed_small by lia. destruct (Z.ltb_spec got max) as [Hlt|Hge].
  2:{ apply (read_stops_nil _ _ _ [] _ _ _ s); [apply bump_if_view|by rewrite app_nil_r|done|done|lia|].
      apply bsd_full. lia. }
  unfold SocketBSD.gone at 1. destruct (Z.ltb_spec (fd (hd s)) 0); [lia|].
  rewrite wrap_small by lia. destruct (Z.eqb_spec (max - got) 0) as [|_]; [lia|].
  destruct (chunk_range (max - got)) as [Hc0 Hc1]; [lia|]. set (n := chunk (max - got)) in *.
  destruct (room_spec n t) as (t1 & -> & Hok1 & Hroom & Hh1 & Hb1 & Hcap1); [done|lia|]. orun.
  destruct (view_eq _ _ (disarm_rd_view s)) as (_ & _ & Etr). apply calm_bsd_disarm in Hw.
  apply (read_result_ext _ _ _ t t1 s (disarm_rd s)); [done..|].
  rewrite <- disarm_rd_fd in Hfd. rewrite <- Hcap1 in Hcap. clear Etr Hh1 Hb1 Hcap1 Hok t.
  revert Hw Hfd. generalize (disarm_rd s). clear dependent s. intros s Hw Hfd.
  destruct (do_recv MSG_DONTWAIT n s) as [res s1] eqn:E. pose proof (do_recv_hd _ _ _ _ _ E) as Hhd.
  apply (do_recv_spec if_gone) in E as [Hp Hres]; [|lia]. specialize (Hp _ Hw). destruct res as [[|b bs]|].
  - destruct Hres as [_ Ht]. eapply bsd_removes; [apply bump_if_view|done|done|done|lia|]. apply (bsd_eof _ _ _ []).
  - destruct Hres as [Hlen Ht]. set (bs' := b :: bs) in *.
    destruct (fill_spec n bs' t1) as (t2 & -> & Hok2 & Hh2 & Hb2 & Hcap2); [done..|]. orun.
    assert (Hpos : 0 < len bs') by (cbn; lia).
    eapply (read_goes_on _ _ _ _ bs'); [done|apply app_nil_r|done|done|]. apply (IH _ _ _ _ w); try done; try lia; [by rewrite Hhd|].
    assert (tries max_read_retries <= len bs' * tries max_read_retries) by nia. unfold turns in *. lia.
  - destruct (errno s1) eqn:Ee.
    1: { destruct (Z.leb_spec max_read_retries (retries + 1)).
      - eapply bsd_removes; [apply bump_if_view|done|done|done|lia|]. rewrite Ee. by apply (bsd_error _ _ _ []).
      - eapply (read_goes_on_nil _); [done..|]. apply (IH _ _ _ _ w); try done; rewrite ?Hhd; unfold turns, tries in *; lia. }
    1: { destruct (Z.ltb_spec 0 got).
      - eapply read_stops_nil; [apply bump_view|done|done|done|lia|]. by apply (bsd_again _ _ _ []).
      - destruct (await Rd s1) as [c s2] eqn:Ea.
        apply (await_spec if_gone) in Ea as [Ht2 Hp2]. rewrite Hres, <- app_assoc in Ht2.
        unfold SocketBSD.gone. destruct (Z.ltb_spec (fd (hd s2)) 0) as [|Hfd2].
        + eapply (read_stops_nil _ _ _ _ _ _ _ s2); [done|exact Ht2|done|done|lia|].
          apply (bsd_gone _ _ _ [_]). lia.
        + destruct (Hp2 (proj2 (Z.ltb_ge _ _) Hfd2) _ Hp) as (w' & -> & Hw'). eapply (read_goes_on_nil _); [exact Ht2|done|].
          apply (IH _ _ _ _ w'); try done. unfold turns in *. lia. }
    all: (eapply bsd_removes; [apply bump_if_view|done|done|done|lia|]);
      rewrite Ee; by apply (bsd_error _ _ _ []).
Qed.
End stream.

Section datagrams.
Context {K : Type} `{!Kernel K, !KernelLaws K}.
Context (reuseaddr : bool) (max_read_retries : Z).
Implicit Types (s : io K) (w : nat).

Definition datagram_turns (retries : Z) w : Z := Z.of_nat w + 1 + (tries max_read_retries - retries).

Lemma bsd_read_buffer_udp_spec fuel max retries b s w :
  0 < max → 0 <= retries < tries max_read_retries → 0 <= fd (hd s) → buf_ok b → max <= 2 ^ 63 - size_ b →
  calm_bsd w s → datagram_turns retries w <= Z.of_nat fuel →
  read_result bsd_datagram_stop max 0 b s
    (SocketBSD.async_read_buffer_udp reuseaddr max_read_retries fuel max retries b s).
Proof.
  intros Hmax. revert retries b s w.
  induction fuel as [|fuel IH]; intros retries b s w Hret Hfd Hok Hcap Hw Hfuel; [unfold datagram_turns in *; lia|].
  cbn [SocketBSD.async_read_buffer_udp]. unfold SocketBSD.gone at 1. destruct (Z.ltb_spec (fd (hd s)) 0); [lia|].
  destruct (room_spec max b) as (t1 & -> & Hok1 & Hroom & Hh1 & Hb1 & Hcap1); [done|cbn; lia|]. orun.
  destruct (view_eq _ _ (disarm_rd_view s)) as (_ & _ & Etr). apply calm_bsd_disarm in Hw.
  apply (read_result_ext _ _ _ b t1 s (disarm_rd s)); [done..|].
  change (2 ^ 63 - size_ b) with (capacity b) in Hcap.
  rewrite <- disarm_rd_fd in Hfd. rewrite <- Hcap1 in Hcap. clear Etr Hh1 Hb1 Hcap1 Hok b.
  revert Hw Hfd. generalize (disarm_rd s). clear dependent s. intros s Hw Hfd.
  destruct (do_recv MSG_DONTWAIT max s) as [res s1] eqn:E. pose proof (do_recv_hd _ _ _ _ _ E) as Hhd.
  apply (do_recv_spec if_gone) in E as [Hp Hres]; [|lia]. specialize (Hp _ Hw). destruct res as [[|b bs]|].
  - destruct Hres as [_ Ht]. eapply read_stops_nil; [done|done|done|done|lia|]. apply (bsd_datagram_got _ _ []).
  - destruct Hres as [Hlen Ht].
    destruct (fill_spec max (b :: bs) t1) as (t2 & -> & Hok2 & Hh2 & Hb2 & Hcap2); [done..|]. orun.
    destruct (view_eq _ _ (bump_view reuseaddr s1)) as (_ & _ & Etr).
    eapply (read_stops _ _ _ _ (b :: bs)); [by rewrite Etr|done|apply app_nil_r|done|done|lia|].
    rewrite Z.add_0_l. apply (bsd_datagram_got _ _ []).
  - destruct (errno s1) eqn:Ee.
    1: { destruct (Z.leb_spec max_read_retries (retries + 1)).
      - eapply bsd_removes; [done|done|done|done|lia|]. rewrite Ee. by apply (bsd_datagram_error _ _ []).
      - eapply (read_goes_on_nil _); [done..|].
        apply (IH _ _ _ w); try done; rewrite ?Hhd; unfold datagram_turns, tries in *; lia. }
    1: { destruct (await Rd s1) as [c s2] eqn:Ea. apply (await_spec if_gone) in Ea as [Ht2 Hp2].
      rewrite Hres, <- app_assoc in Ht2. destruct c.
      - eapply (read_stops_nil _ _ _ _ _ _ _ (set_errno ECANCELED s2)); [done|exact Ht2|done|done|lia|].
        by apply (bsd_datagram_cancelled _ [_]).
      - destruct (decide (0 <= fd (hd s2))) as [Hfd2|Hgone].
        + destruct (Hp2 (proj2 (Z.ltb_ge _ _) Hfd2) _ Hp) as (w' & -> & Hw'). eapply (read_goes_on_nil _); [exact Ht2|done|].
          apply (IH _ _ _ w'); try done. unfold datagram_turns in *. lia.
        + assert (SocketBSD.gone s2 = true) as Hg by (unfold SocketBSD.gone; lia).
          destruct fuel as [|fuel]; [unfold datagram_turns in *; lia|]. cbn [SocketBSD.async_read_buffer_udp].
          rewrite Hg. eapply (read_stops_nil _ _ _ _ _ _ _ s2); [done|exact Ht2|done|done|lia|].
          apply (bsd_datagram_gone _ _ [_]); auto. }
    all: (eapply bsd_removes; [done|done|done|done|lia|]); rewrite Ee; by apply (bsd_datagram_error _ _ []).
Qed.

Lemma bsd_read_raw_udp_spec fuel max retries (m : memory) s w :
  0 < max → 0 <= retries < tries max_read_retries → 0 <= fd (hd s) → sink_ok m → max <= capacity m →
  calm_bsd w s → datagram_turns retries w <= Z.of_nat fuel →
  read_result bsd_datagram_stop max 0 m s
    (SocketBSD.async_read_raw_udp reuseaddr max_read_retries fuel max retries m s).
Proof.
  intros Hmax. revert retries s w.
  induction fuel as [|fuel IH]; intros retries s w Hret Hfd Hok Hcap Hw Hfuel; [unfold datagram_turns in *; lia|].
  cbn [SocketBSD.async_read_raw_udp]. unfold SocketBSD.gone at 1. destruct (Z.ltb_spec (fd (hd s)) 0); [lia|].
  destruct (view_eq _ _ (disarm_rd_view s)) as (_ & _ & Etr). apply calm_bsd_disarm in Hw.
  apply (read_result_ext _ _ _ m m s (disarm_rd s)); [done..|].
  rewrite <- disarm_rd_fd in Hfd. clear Etr.
  revert Hw Hfd. generalize (disarm_rd s). clear dependent s. intros s Hw Hfd.
  destruct (do_recv MSG_DONTWAIT max s) as [res s1] eqn:E. pose proof (do_recv_hd _ _ _ _ _ E) as Hhd.
  apply (do_recv_spec if_gone) in E as [Hp Hres]; [|lia]. specialize (Hp _ Hw). destruct res as [[|b bs]|].
  - destruct Hres as [_ Ht]. eapply read_stops_nil; [done|done|done|done|lia|]. apply (bsd_datagram_got _ _ []).
  - destruct Hres as [Hlen Ht].
    destruct (room_spec max m) as (m' & [= <-] & _ & Hroom & _); [done|lia|].
    destruct (fill_spec max (b :: bs) m) as (t2 & -> & Hok2 & Hh2 & Hb2 & Hcap2); [done..|]. orun.
    destruct (view_eq _ _ (bump_view reuseaddr s1)) as (_ & _ & Etr).
    eapply (read_stops _ _ _ _ (b :: bs)); [by rewrite Etr|done|apply app_nil_r|done|done|lia|].
    rewrite Z.add_0_l. apply (bsd_datagram_got _ _ []).
  - destruct (errno s1) eqn:Ee.
    1: { destruct (Z.leb_spec max_read_retries (retries + 1)).
      - eapply bsd_removes; [done|done|done|done|lia|]. rewrite Ee. by apply (bsd_datagram_error _ _ []).
      - eapply (read_goes_on_nil _); [done..|].
        apply (IH _ _ w); try done; rewrite ?Hhd; unfold datagram_turns, tries in *; lia. }
    1: { destruct (await Rd s1) as [c s2] eqn:Ea.
      apply (await_spec if_gone) in Ea as [Ht2 Hp2]. rewrite Hres, <- app_assoc in Ht2.
      unfold SocketBSD.gone. destruct (Z.ltb_spec (fd (hd s2)) 0) as [|Hfd2].
      - eapply (read_stops_nil _ _ _ _ _ _ _ s2); [done|exact Ht2|done|done|lia|].
        apply (bsd_datagram_gone _ _ [_]); auto.
      - destruct (Hp2 (proj2 (Z.ltb_ge _ _) Hfd2) _ Hp) as (w' & -> & Hw'). eapply (read_goes_on_nil _); [exact Ht2|done|].
        apply (IH _ _ w'); try done. unfold datagram_turns in *. lia. }
    all: (eapply bsd_removes; [done|done|done|done|lia|]); rewrite Ee; by apply (bsd_datagram_error _ _ []).
Qed.

Definition bsd_stop (udp : bool) (max : Z) := if udp then bsd_datagram_stop else bsd_read_stop max.

(** [async_read] on macOS and the BSDs, whichever overload, returns when it is woken at
    most [w] times before its descriptor is gone: every byte the
    kernel handed over is appended to the buffer, or stored at the start of the
    caller's memory with nothing behind it touched, in order and within the size asked
    for, and the answer says why it stopped.  The answer is not always the number of
    bytes: at the end of the stream it is 0 however many bytes this call stored, and a
    suspended stream read ends by cancellation only if the descriptor is gone. *)
Theorem bsd_async_read_correct fuel (udp : bool) max s w :
  0 < max < 2 ^ 63 → 0 <= fd (hd s) → calm_bsd w s → turns max_read_retries max 0 0 w <= Z.of_nat fuel →
  (∀ b, buf_ok b → size_ b + max <= 2 ^ 63 →
   ∃ r b' s' tr, SocketBSD.async_read_buffer reuseaddr max_read_retries fuel udp max b s = Done (r, b', s')
     ∧ trace s' = trace s ++ tr ∧ buf_ok b' ∧ contents b' = contents b ++ (Some <$> received tr)
     ∧ len (received tr) <= max ∧ bsd_stop udp max (len (received tr)) r (errno s') tr)
  ∧ (∀ dst, max <= len dst →
   ∃ r dst' s' tr, SocketBSD.async_read_raw reuseaddr max_read_retries fuel udp (Some dst) max s = Done (r, dst', s')
     ∧ trace s' = trace s ++ tr ∧ dst' = (Some <$> received tr) ++ drop (length (received tr)) dst
     ∧ len (received tr) <= max ∧ bsd_stop udp max (len (received tr)) r (errno s') tr).
Proof.
  intros Hmax Hfd Hw Hfuel. assert (Hg : SocketBSD.gone s = false) by (unfold SocketBSD.gone; lia).
  assert (0 < tries max_read_retries) by (unfold tries; lia).
  assert (datagram_turns 0 w <= Z.of_nat fuel) by (unfold turns, datagram_turns in *; nia).
  split; [intros b Hok Hroom|intros dst Hdst];
    unfold SocketBSD.async_read_buffer, SocketBSD.async_read_raw, SocketBSD.async_read_buffer_tcp, SocketBSD.async_read_raw_tcp;
    rewrite Hg;
    (destruct (Z.eqb_spec max 0); [lia|]); destruct udp.
  - destruct (bsd_read_buffer_udp_spec fuel max 0 b s w) as (r & b' & s' & tr & -> & Ht & Hok' & Hh & _ & Hle & Hstop);
      [lia..|done|lia|done|lia|]. by exists r, b', s', tr.
  - destruct (bsd_read_tcp_spec reuseaddr max_read_retries fuel max 0 0 (SocketBSD.mkAppending b) s w)
      as (r & b' & s' & tr & -> & Ht & Hok' & Hh & _ & Hle & Hstop); [lia..|done|cbn; lia|done|lia|].
    orun. by exists r, (SocketBSD.target b'), s', tr.
  - destruct (bsd_read_raw_udp_spec fuel max 0 (mkMemory dst 0) s w) as (r & m & s' & tr & -> & Ht & Hok' & Hh & Hb & Hle & Hstop);
      [lia..|cbn; lia|cbn; lia|done|lia|]. orun. exists r, (cells m), s', tr. cbn in Hh, Hb.
    split_and!; [done..| |done|done]. by rewrite <- (take_drop (Z.to_nat (out m)) (cells m)), Hh, Hb.
  - destruct (bsd_read_tcp_spec reuseaddr max_read_retries fuel max 0 0 (mkMemory dst 0) s w)
      as (r & m & s' & tr & -> & Ht & Hok' & Hh & Hb & Hle & Hstop); [lia..|cbn; lia|cbn; lia|done|lia|].
    orun. exists r, (cells m), s', tr. cbn in Hh, Hb.
    split_and!; [done..| |done|done]. by rewrite <- (take_drop (Z.to_nat (out m)) (cells m)), Hh, Hb.
Qed.
End datagrams.

(** A kernel that follows a script, and takes the descriptor away from whoever is
    suspended when the script is over. *)
Record leaving := mkLeaving { base : script }.
#[export] Instance leaving_kernel : Kernel leaving := {
  recv flags fd n k := let '(r, b) := recv flags fd n (base k) in (r, mkLeaving b);
  send flags fd to bs k := let '(r, b) := send flags fd to bs (base k) in (r, mkLeaving b);
  sendfile_call fd in_fd n k := let '(r, b) := sendfile_call fd in_fd n (base k) in (r, mkLeaving b);
  accept4 fd k := let '(r, b) := accept4 fd (base k) in (r, mkLeaving b);
  suspend d h k :=
    match wakes (base k) with
    | [] => (true, {| h with fd := -1 |}, k)
    | _ :: _ => let '(c, h, b) := suspend d h (base k) in (c, h, mkLeaving b)
    end;
  pause h k := (h, k)
}.
#[export] Instance leaving_laws : KernelLaws leaving.
Proof.
  split; cbn.
  - intros flags fd n [k] bs k' Hn E. cbn in E. destruct (recvs k) as [|[e|l] rs]; simplify_eq. rewrite length_take. lia.
  - intros flags fd to bs [k] m k' E. cbn in E. destruct (sends k) as [|[e|n] rs]; simplify_eq. lia.
Qed.
Lemma leaving_woken w (k : leaving) :
  (length (wakes (base k)) + length (accepts (base k)) <= w)%nat → woken_at_most if_gone w k.
Proof.
  intros Hw c k' H. enough (c <= length (wakes (base k)) + length (accepts (base k)))%nat by lia. clear Hw.
  induction H as [k|flags fd n k r k' c k2 E _ IH|flags fd to bs k r k' c k2 E _ IH|fd k r k' c k2 E _ IH
    |h k h' k' c k2 E _ IH|d h k b h' k' c k2 E _ IH]; try (destruct k as [k]; cbn in E); cbn in *.
  - lia.
  - destruct (recvs k) as [|[e|l] rs]; injection E as <- <-; exact IH.
  - destruct (sends k) as [|[e|n] rs]; injection E as <- <-; exact IH.
  - destruct (accepts k) as [|a l] eqn:Ea; injection E as <- <-; cbn in *; rewrite ?Ea in IH; cbn in *; [lia|].
    repeat case_match; lia.
  - by injection E as <- <-.
  - destruct (wakes k) as [|x l] eqn:Ew; injection E as <- <- <-; cbn in *; rewrite ?Ew in *; cbn in *; [lia|].
    case_match; lia.
Qed.

Definition connected_bsd (k : script) : io leaving := mkIo (mkHeader 7 0 0 initial_state) (mkLeaving k) (EOther 0) [].

Lemma bsd_async_read_correct_witness :
  let s := connected_bsd (mkScript [inl EAGAIN; inr [x61; x62]; inr []] [] [] [] [true]) in
  ∃ r b' s' tr, SocketBSD.async_read_buffer true 100 402 false 3 empty_buffer s = Done (r, b', s')
    ∧ trace s' = trace s ++ tr ∧ buf_ok b' ∧ contents b' = contents empty_buffer ++ (Some <$> received tr)
    ∧ len (received tr) <= 3 ∧ bsd_stop false 3 (len (received tr)) r (errno s') tr.
Proof.
  intros s. pose proof (bsd_async_read_correct true 100 402 false 3 s 1) as H.
  apply H; [done|done|apply leaving_woken; cbn; lia|by vm_compute|apply empty_ok|by vm_compute].
Defined.

(** What Linux answers with the number of bytes, the BSD loop answers with 0: bytes
    followed by the end of the stream, read in one call into the caller's memory. *)
Example bsd_read_hides_bytes :
  let k := mkScript [inr [x61; x62]; inr []] [] [] [] [] in
  let dst := replicate 4 None in
  let stored := [Some x61; Some x62; None; None] in
  (∃ s', SocketIO.async_read_raw true 100 3 false (Some dst) 4 (connected k) = Done (2, stored, s'))
  ∧ (∃ s', SocketBSD.async_read_raw true 100 3 false (Some dst) 4 (connected_bsd k) = Done (0, stored, s')).
Proof. split; eexists; vm_compute; reflexivity. Qed.

(** A suspended stream read does not notice that it is cancelled: as long as nothing
    arrives it waits again after every wake. *)
Example bsd_read_ignores_cancellation :
  ∃ s', SocketBSD.async_read_raw true 100 9 false (Some [None; None]) 2
          (connected_bsd (mkScript [inl EAGAIN; inl EAGAIN; inl EAGAIN; inr [x61; x62]] [] [] [] [true; true; true]))
        = Done (2, [Some x61; Some x62], s').
Proof. eexists; vm_compute; reflexivity. Qed.

(** * Where the two ports agree *)

(** [MSG_NOSIGNAL], which only the Linux port passes, decides about a signal that the
    library ignores for the whole process ([Defines.h]) and about nothing else: the
    call answers the same. *)
Definition plain (flags : msg_flags) : msg_flags := mkFlags (dontwait flags) false.
Class SignalOnly (K : Type) `{!Kernel K} : Prop :=
  nosignal_same flags fd to bs k : send flags fd to bs k = send (plain flags) fd to bs k.

Section agreement.
Context {K : Type} `{!Kernel K}.
Implicit Types s : io K.




(** ** Forgetting MSG_NOSIGNAL *)









End agreement.

#[export] Instance script_signal : SignalOnly script.
Proof. done. Qed.

End SocketBSDCorrect.
