(* ===== verification/CancelTree.v ===== *)
(** The tree of cancellation states ([CancelState.h], [Task.cpp]): reference counts,
    parents and their lists of children, the walk of [request_cancel] and the kicks that
    carry a cancellation to the worker a task runs on.

    A machine of any number of calls in flight.  A call is a stack of frames, one per
    function that has not returned; a step performs the next access to shared memory
    of one call.  The sections under a node's [tree_lock] that only relink siblings
    are single steps; the walk of [request_cancel], which holds the lock while it calls
    itself, is not. *)

From S2P Require Import Prelude.

Module CancelTree.

(** [CancelState], and the members of [TaskStateBase] cancellation touches.  [woken] and
    [kicks_queued] are history: how often the waiters were woken, and kicks queued. *)
Record node := mkNode {
  refs : Z;
  requested : bool;
  tree_lock : bool;
  parent : option ptr;
  first_child : option ptr;
  prev_sib : option ptr;
  next_sib : option ptr;
  is_task : bool;
  owner_tid : Z;
  finished : bool;
  kick_pending : bool;
  woken : nat;
  kicks_queued : nat
}.

Definition new_node (task : bool) (tid : Z) : node :=
  mkNode 1 false false None None None None task tid false false 0 0.

Abbreviation heap := (gmap ptr node).

Definition upd (n : ptr) (f : node → node) (h : heap) : outcome heap :=
  nd ← deref (h !! n); Done (<[n := f nd]> h).

(** ** The sections under [tree_lock] *)

(** [link], between [lock_tree] and [unlock_tree] *)
Definition link_section (p c : ptr) (h : heap) : outcome heap :=
  pn ← deref (h !! p);
  h ← upd c (λ nd, {| nd with next_sib := first_child pn; prev_sib := None |}) h;
  h ← match first_child pn with
      | Some f => upd f (λ nd, {| nd with prev_sib := Some c |}) h
      | None => Done h
      end;
  h ← upd p (λ nd, {| nd with first_child := Some c |}) h;
  if requested pn then upd c (λ nd, {| nd with requested := true |}) h else Done h.

(** [unlink_from_parent], between [lock_tree] and [unlock_tree] *)
Definition unlink_section (n p : ptr) (h : heap) : outcome heap :=
  nd ← deref (h !! n);
  h ← match prev_sib nd with
      | Some q => upd q (λ qd, {| qd with next_sib := next_sib nd |}) h
      | None => upd p (λ pd, {| pd with first_child := next_sib nd |}) h
      end;
  h ← match next_sib nd with
      | Some q => upd q (λ qd, {| qd with prev_sib := prev_sib nd |}) h
      | None => Done h
      end;
  upd n (λ nd, {| nd with prev_sib := None; next_sib := None |}) h.

(** ** Calls *)

Inductive frame :=
| FPin (n : ptr)               (** the caller holds a reference until the call is over *)
| FExchange (n : ptr)          (** [request_cancel]: [requested.exchange] *)
| FLock (n : ptr)              (** [request_cancel]: [lock_tree] *)
| FWalk (n : ptr) (c : option ptr)  (** the loop over the children, at [c] *)
| FReturn (n c : ptr)          (** the loop, waiting for [c->request_cancel()] *)
| FKickOwner (n : ptr)         (** [kick]: [owner_tid.load] *)
| FKickPending (n : ptr)       (** [kick]: [kick_pending.exchange] *)
| FKickRef (n : ptr)           (** [kick]: [try_add_ref] *)
| FKickUndo (n : ptr)          (** [kick]: [kick_pending.store(false)] *)
| FKickPush (n : ptr)          (** [kick]: [push_cancel_kick] *)
| FLinkRef (p c : ptr)         (** [link]: [parent->add_ref] *)
| FLinkSection (p c : ptr)     (** [link]: under the lock *)
| FDec (n : ptr)               (** [release]: [refs.fetch_sub] *)
| FUnlink (n : ptr)            (** [release]: [unlink_from_parent] *)
| FDelete (n : ptr)            (** [release]: [delete this], then the parent *)
| FProc (n : ptr)              (** [process_kick]: [kick_pending.store(false)] *)
| FHook (n : ptr)              (** [process_kick]: the hook, then [release] *)
| FOwner (n : ptr) (tid : Z)   (** a worker takes the task over *)
| FCheck (n : ptr)             (** and looks whether it is already cancelled *)
| FFinish (n : ptr).           (** [complete]: [status.store(1)], then [release] *)

#[export] Instance frame_eq_dec : EqDecision frame.
Proof. solve_decision. Defined.

(** The nodes, the references clients hold, and the queued kicks. *)
Record tree := mkTree {
  nodes : heap;
  handles : list ptr;
  kicks : list ptr
}.

Section calls.
Context (thread_count : Z).

Definition with_nodes (σ : tree) (h : heap) : tree := {| σ with nodes := h |}.

(** [n]'s node changed by [f], and the call goes on with [st]. *)
Definition touch (n : ptr) (f : node → node) (st : list frame) (σ : tree) : outcome (list frame * tree) :=
  h ← upd n f (nodes σ); Done (st, with_nodes σ h).

(** One step of the function on top of a call; [st] are the callers.  A spin on a lock
    that is held changes nothing. *)

Definition request_cancel (f : frame) (st : list frame) (σ : tree) : outcome (list frame * tree) :=
  match f with
  | FExchange n =>
      nd ← deref (nodes σ !! n);
      if requested nd then Done (st, σ)
      else touch n (λ nd, {| nd with requested := true; woken := S (woken nd) |})
             ((if is_task nd then [FKickOwner n] else []) ++ FLock n :: st) σ
  | FLock n =>
      nd ← deref (nodes σ !! n);
      if tree_lock nd then Done (f :: st, σ)
      else touch n (λ nd, {| nd with tree_lock := true |}) (FWalk n (first_child nd) :: st) σ
  | FWalk n (Some c) => Done (FExchange c :: FReturn n c :: st, σ)
  | FWalk n None => touch n (λ nd, {| nd with tree_lock := false |}) st σ
  | FReturn n c => cd ← deref (nodes σ !! c); Done (FWalk n (next_sib cd) :: st, σ)
  | _ => Done (f :: st, σ)
  end.

Definition kick (f : frame) (st : list frame) (σ : tree) : outcome (list frame * tree) :=
  match f with
  | FKickOwner n =>
      nd ← deref (nodes σ !! n);
      if (owner_tid nd <? 0) || (thread_count <=? owner_tid nd) then Done (st, σ)
      else Done (FKickPending n :: st, σ)
  | FKickPending n =>
      nd ← deref (nodes σ !! n);
      if kick_pending nd then Done (st, σ)
      else touch n (λ nd, {| nd with kick_pending := true |}) (FKickRef n :: st) σ
  | FKickRef n =>
      nd ← deref (nodes σ !! n);
      if refs nd =? 0 then Done (FKickUndo n :: st, σ)
      else touch n (λ nd, {| nd with refs := refs nd + 1 |}) (FKickPush n :: st) σ
  | FKickUndo n => touch n (λ nd, {| nd with kick_pending := false |}) st σ
  | FKickPush n =>
      touch n (λ nd, {| nd with kicks_queued := S (kicks_queued nd) |}) st {| σ with kicks := kicks σ ++ [n] |}
  | _ => Done (f :: st, σ)
  end.

Definition link (f : frame) (st : list frame) (σ : tree) : outcome (list frame * tree) :=
  match f with
  | FLinkRef p c =>
      h ← upd p (λ nd, {| nd with refs := refs nd + 1 |}) (nodes σ);
      h ← upd c (λ nd, {| nd with parent := Some p |}) h;
      Done (FLinkSection p c :: st, with_nodes σ h)
  | FLinkSection p c =>
      pn ← deref (nodes σ !! p);
      if tree_lock pn then Done (f :: st, σ)
      else h ← link_section p c (nodes σ); Done (st, mkTree h (p :: c :: handles σ) (kicks σ))
  | _ => Done (f :: st, σ)
  end.

Definition release (f : frame) (st : list frame) (σ : tree) : outcome (list frame * tree) :=
  match f with
  | FDec n =>
      nd ← deref (nodes σ !! n);
      touch n (λ nd, {| nd with refs := refs nd - 1 |}) (if refs nd =? 1 then FUnlink n :: st else st) σ
  | FUnlink n =>
      nd ← deref (nodes σ !! n);
      match parent nd with
      | None => Done (FDelete n :: st, σ)
      | Some p =>
          pn ← deref (nodes σ !! p);
          if tree_lock pn then Done (f :: st, σ)
          else h ← unlink_section n p (nodes σ); Done (FDelete n :: st, with_nodes σ h)
      end
  | FDelete n =>
      nd ← deref (nodes σ !! n);
      Done (match parent nd with Some p => FDec p :: st | None => st end, with_nodes σ (delete n (nodes σ)))
  | _ => Done (f :: st, σ)
  end.

(** What the hook does to the coroutine is not part of the tree. *)
Definition process_kick (f : frame) (st : list frame) (σ : tree) : outcome (list frame * tree) :=
  match f with
  | FProc n => touch n (λ nd, {| nd with kick_pending := false |}) (FHook n :: st) σ
  | FHook n => nd ← deref (nodes σ !! n); Done (FDec n :: st, σ)
  | _ => Done (f :: st, σ)
  end.

(** A worker takes a task from its inbox ([Thread::threadFunction]). *)
Definition adopt (f : frame) (st : list frame) (σ : tree) : outcome (list frame * tree) :=
  match f with
  | FOwner n tid => touch n (λ nd, {| nd with owner_tid := tid |}) (FCheck n :: st) σ
  | FCheck n =>
      nd ← deref (nodes σ !! n);
      Done (if requested nd then FKickOwner n :: st else st, σ)
  | _ => Done (f :: st, σ)
  end.

(** The next step of a call. *)
Definition run (call : list frame) (σ : tree) : outcome (list frame * tree) :=
  match call with
  | [] => Done ([], σ)
  | f :: st =>
      match f with
      | FPin n => Done (st, {| σ with handles := n :: handles σ |})
      | FExchange _ | FLock _ | FWalk _ _ | FReturn _ _ => request_cancel f st σ
      | FKickOwner _ | FKickPending _ | FKickRef _ | FKickUndo _ | FKickPush _ => kick f st σ
      | FLinkRef _ _ | FLinkSection _ _ => link f st σ
      | FDec _ | FUnlink _ | FDelete _ => release f st σ
      | FProc _ | FHook _ => process_kick f st σ
      | FOwner _ _ | FCheck _ => adopt f st σ
      | FFinish n => touch n (λ nd, {| nd with finished := true |}) (FDec n :: st) σ
      end
  end.

(** ** The machine *)

Record config := mkConfig { shared : tree; calls : list (list frame) }.
Implicit Types (s : config) (σ : tree).

Definition empty_config : config := mkConfig (mkTree ∅ [] []) [].

(** What clients may do: they act on nodes they hold a reference to. *)
Inductive client : tree → tree → list frame → Prop :=
| client_new σ c task tid : nodes σ !! c = None →
    client σ (mkTree (<[c := new_node task tid]> (nodes σ)) (c :: handles σ) (kicks σ)) []
| client_link σ hs p c task tid : handles σ ≡ₚ p :: hs → nodes σ !! c = None →
    client σ (mkTree (<[c := new_node task tid]> (nodes σ)) hs (kicks σ)) [FLinkRef p c]
| client_copy σ hs n nd : handles σ ≡ₚ n :: hs → nodes σ !! n = Some nd →
    client σ (mkTree (<[n := {| nd with refs := refs nd + 1 |}]> (nodes σ)) (n :: handles σ) (kicks σ)) []
| client_cancel σ hs n : handles σ ≡ₚ n :: hs →
    client σ {| σ with handles := hs |} [FExchange n; FPin n]
| client_release σ hs n : handles σ ≡ₚ n :: hs →
    client σ {| σ with handles := hs |} [FDec n]
| client_finish σ hs n : handles σ ≡ₚ n :: hs →
    client σ {| σ with handles := hs |} [FFinish n]
| client_adopt σ hs n tid : handles σ ≡ₚ n :: hs →
    client σ {| σ with handles := hs |} [FOwner n tid; FPin n]
| client_kicked σ ks n : kicks σ ≡ₚ n :: ks →
    client σ {| σ with kicks := ks |} [FProc n].

Inductive step : config → config → Prop :=
| step_client s σ call : client (shared s) σ call → step s (mkConfig σ (call :: calls s))
| step_run s call rest call' σ :
    calls s ≡ₚ call :: rest → run call (shared s) = Done (call', σ) →
    step s (mkConfig σ (call' :: rest)).

Definition reachable s : Prop := rtc step empty_config s.

(** Every call has returned. *)
Definition quiet s : Prop := Forall (λ call, call = []) (calls s).
End calls.
End CancelTree.
