(* ===== verification/CancelTreeShape.v ===== *)
(** The lists of children of the cancellation tree: what [link] and [unlink_from_parent]
    do under the parent's lock, as operations on sequences. *)

From S2P Require Import Prelude CancelTree.

Module CancelTreeShape.
Import CancelTree.
Implicit Types (h : heap) (n p c x : ptr) (nd : node) (l : list ptr).

(** The siblings [l] are linked one after the other, between [pr] and [nx]. *)
Fixpoint seg h (pr : option ptr) l (nx : option ptr) : Prop :=
  match l with
  | [] => True
  | x :: l =>
      (∃ nd, h !! x = Some nd ∧ prev_sib nd = pr ∧ next_sib nd = match l with [] => nx | y :: _ => Some y end)
      ∧ seg h (Some x) l nx
  end.

(** What a node is besides its place among its siblings and its list of children. *)
Definition erase nd : node := {| nd with first_child := None; prev_sib := None; next_sib := None |}.
Definition same_core h h' : Prop := ∀ m, erase <$> h' !! m = erase <$> h !! m.

Definition links nd : option ptr * option ptr := (prev_sib nd, next_sib nd).

Lemma same_core_refl h : same_core h h.
Proof. done. Qed.
Lemma same_core_trans h1 h2 h3 : same_core h1 h2 → same_core h2 h3 → same_core h1 h3.
Proof. unfold same_core. intros H1 H2 m. by rewrite H2, H1. Qed.
Lemma same_core_insert h n nd nd' : h !! n = Some nd → erase nd' = erase nd → same_core h (<[n := nd']> h).
Proof.
  intros Hn E m. destruct (decide (m = n)) as [->|Hne]; [by rewrite lookup_insert_eq, Hn; cbn; rewrite E|].
  by rewrite lookup_insert_ne by done.
Qed.
Lemma same_core_write h h' n nd nd' :
  same_core h h' → h' !! n = Some nd → erase nd' = erase nd → same_core h (<[n := nd']> h').
Proof. intros Hs Hn E. eapply same_core_trans; [exact Hs|]. by eapply same_core_insert. Qed.
Lemma same_core_lookup h h' n nd' : same_core h h' → h' !! n = Some nd' → ∃ nd, h !! n = Some nd ∧ erase nd' = erase nd.
Proof. intros Hs Hn. specialize (Hs n). rewrite Hn in Hs. destruct (h !! n) as [nd|]; [|done]. exists nd. split; [done|]. cbn in Hs. by apply (inj Some) in Hs. Qed.
Lemma same_core_sym h h' : same_core h h' → same_core h' h.
Proof. intros Hs m. by rewrite Hs. Qed.

(** ** Segments *)

Lemma kids_seg_ext h h' pr l nx :
  (∀ x nd, x ∈ l → h !! x = Some nd → ∃ nd', h' !! x = Some nd' ∧ links nd' = links nd) →
  seg h pr l nx → seg h' pr l nx.
Proof.
  revert pr. induction l as [|x l IH]; intros pr Hext; [done|]. intros [(nd & Hx & Hp & Hn) Hs]. split.
  - destruct (Hext x nd) as (nd' & Hx' & E); [set_solver|done|]. exists nd'. unfold links in E.
    split_and!; [done|congruence|congruence].
  - apply IH; [|done]. intros y yd Hy. apply Hext. set_solver.
Qed.

Lemma kids_seg_frame h pr l nx x nd : x ∉ l → seg h pr l nx → seg (<[x := nd]> h) pr l nx.
Proof. intros Hx. apply kids_seg_ext. intros y yd Hy Hl. exists yd. by rewrite lookup_insert_ne by set_solver. Qed.

Lemma seg_same_links h pr l nx x nd nd' :
  h !! x = Some nd → links nd' = links nd → seg h pr l nx → seg (<[x := nd']> h) pr l nx.
Proof.
  intros Hx E. apply kids_seg_ext. intros y yd _ Hy. destruct (decide (y = x)) as [->|Hne].
  - exists nd'. rewrite lookup_insert_eq. split; [done|]. congruence.
  - exists yd. by rewrite lookup_insert_ne by done.
Qed.

Lemma kids_seg_app h pr a x b nx :
  seg h pr (a ++ x :: b) nx ↔
  seg h pr a (Some x) ∧ seg h (match last a with Some y => Some y | None => pr end) (x :: b) nx.
Proof.
  revert pr. induction a as [|y a IH]; intros pr; [cbn; naive_solver|].
  rewrite <- app_comm_cons. cbn [seg]. rewrite IH. destruct a as [|z a]; [cbn; naive_solver|].
  rewrite last_cons_cons. destruct (last (z :: a)) eqn:E; [naive_solver|]. by apply last_None in E.
Qed.

Lemma kids_seg_set_next h pr a x nx nx' nd :
  NoDup (a ++ [x]) → h !! x = Some nd → seg h pr (a ++ [x]) nx →
  seg (<[x := {| nd with next_sib := nx' |}]> h) pr (a ++ [x]) nx'.
Proof.
  intros (_ & Hx & _)%NoDup_app Hn. rewrite !kids_seg_app. cbn [seg].
  intros [Ha [(nd0 & Hn0 & Hp & _) _]]. split; [apply kids_seg_frame; set_solver|]. split; [|done].
  eexists. rewrite lookup_insert_eq. split; [done|]. cbn. split; [congruence|done].
Qed.

Lemma kids_seg_set_prev h pr pr' y b nx nd :
  NoDup (y :: b) → h !! y = Some nd → seg h pr (y :: b) nx →
  seg (<[y := {| nd with prev_sib := pr' |}]> h) pr' (y :: b) nx.
Proof.
  intros [Hy _]%NoDup_cons Hn [(nd0 & Hn0 & _ & Hnx) Hb]. split; [|by apply kids_seg_frame].
  eexists. rewrite lookup_insert_eq. split; [done|]. cbn. split; [done|congruence].
Qed.

(** The siblings behind [x]. *)
Fixpoint after x l : list ptr :=
  match l with
  | [] => []
  | y :: l => if decide (x = y) then l else after x l
  end.

Lemma after_app x a b : x ∉ a → after x (a ++ x :: b) = b.
Proof.
  induction a as [|y a IH]; intros Hx; cbn; [by rewrite decide_True|]. rewrite decide_False by set_solver.
  apply IH. set_solver.
Qed.

Lemma after_split x l : NoDup l → x ∈ l → ∃ a, l = a ++ x :: after x l ∧ x ∉ a.
Proof.
  intros Hnd (a & b & -> & Hx)%list_elem_of_split_l. exists a. by rewrite after_app.
Qed.

Lemma after_next x y l : NoDup l → x ∈ l → head (after x l) = Some y → y ∈ l ∧ after x l = y :: after y l.
Proof.
  intros Hnd Hx Hy. destruct (after_split x l Hnd Hx) as (a & E & Ha).
  destruct (after x l) as [|z b] eqn:Eb; [done|]. cbn in Hy. injection Hy as ->. split; [rewrite E; set_solver|].
  replace (a ++ x :: y :: b) with ((a ++ [x]) ++ y :: b) in E by (by rewrite <- app_assoc).
  rewrite E in Hnd |- *. rewrite after_app; [done|]. apply NoDup_app in Hnd. set_solver.
Qed.

Lemma seg_next h pr l x nd : seg h pr l None → NoDup l → x ∈ l → h !! x = Some nd → next_sib nd = head (after x l).
Proof.
  intros Hs Hnd Hx Hn. destruct (after_split x l Hnd Hx) as (a & E & Ha). rewrite E in Hs.
  apply kids_seg_app in Hs as [_ [(nd0 & Hn0 & _ & E') _]]. simplify_eq. rewrite E'. by destruct (after x l).
Qed.

(** ** The shape of the tree

    [kids n] is the sequence of children linked under [n]; [out] are the nodes with a
    parent that are not in its list (not yet, or not any more). *)

Record parents_ok h (kids : ptr → list ptr) (rank : ptr → nat) (out : list ptr) : Prop := {
  po_dead n : h !! n = None → kids n = [];
  po_kid n c : c ∈ kids n → ∃ cd, h !! c = Some cd ∧ parent cd = Some n;
  po_nodup n : NoDup (kids n);
  po_linked c cd p : h !! c = Some cd → parent cd = Some p → c ∉ out → c ∈ kids p;
  po_out n c : c ∈ out → c ∉ kids n;
  po_rank c cd p : h !! c = Some cd → parent cd = Some p → (rank p < rank c)%nat
}.

Definition lists_ok h (kids : ptr → list ptr) : Prop :=
  ∀ n nd, h !! n = Some nd → first_child nd = head (kids n) ∧ seg h None (kids n) None.

Definition set_kids (kids : ptr → list ptr) p l : ptr → list ptr := λ n, if decide (n = p) then l else kids n.

Lemma set_kids_eq kids p l : set_kids kids p l p = l.
Proof. unfold set_kids. by rewrite decide_True. Qed.
Lemma set_kids_ne kids p l n : n ≠ p → set_kids kids p l n = kids n.
Proof. intros. unfold set_kids. by rewrite decide_False. Qed.

Lemma erase_parent nd nd' : erase nd' = erase nd → parent nd' = parent nd.
Proof. unfold erase. by intros [=]. Qed.

Lemma parents_ok_core h h' kids rank out : same_core h h' → parents_ok h kids rank out → parents_ok h' kids rank out.
Proof.
  intros Hs [Hdead Hkid Hnd Hlinked Hout Hrank]. split; try done.
  - intros n Hn. apply Hdead. specialize (Hs n). rewrite Hn in Hs. by destruct (h !! n).
  - intros n c (cd & Hc & Hp)%Hkid. destruct (same_core_lookup h' h c cd) as (cd' & Hc' & E%erase_parent);
      [by apply same_core_sym|done|]. exists cd'. split; [done|congruence].
  - intros c cd p Hc Hp. destruct (same_core_lookup h h' c cd) as (cd' & Hc' & E%erase_parent); [done..|].
    eapply Hlinked; [done|congruence].
  - intros c cd p Hc Hp. destruct (same_core_lookup h h' c cd) as (cd' & Hc' & E%erase_parent); [done..|].
    eapply Hrank; [done|congruence].
Qed.

(** A change to one node that leaves its links and its parent alone. *)
Lemma parents_ok_scalar h kids rank out n nd nd' :
  h !! n = Some nd → parent nd' = parent nd → parents_ok h kids rank out → parents_ok (<[n := nd']> h) kids rank out.
Proof.
  intros Hn Hp [Hdead Hkid Hnd Hlinked Hout Hrank]. split; try done.
  - intros m. rewrite lookup_insert_None. naive_solver.
  - intros m c (cd & Hc & Hcp)%Hkid. destruct (decide (c = n)) as [->|Hne].
    + exists nd'. rewrite lookup_insert_eq. split; [done|congruence].
    + exists cd. by rewrite lookup_insert_ne by done.
  - intros c cd p [(-> & <-)|[? Hc]]%lookup_insert_Some ?; [eapply Hlinked; [done|congruence]|by eapply Hlinked].
  - intros c cd p [(-> & <-)|[? Hc]]%lookup_insert_Some ?; [eapply Hrank; [done|congruence]|by eapply Hrank].
Qed.

Lemma lists_ok_scalar h kids n nd nd' :
  h !! n = Some nd → links nd' = links nd → first_child nd' = first_child nd →
  lists_ok h kids → lists_ok (<[n := nd']> h) kids.
Proof.
  intros Hn Hl Hf H m md [(-> & <-)|[? Hm]]%lookup_insert_Some.
  - rewrite Hf. destruct (H _ _ Hn). split; [done|]. by eapply seg_same_links.
  - destruct (H _ _ Hm). split; [done|]. by eapply seg_same_links.
Qed.

Lemma upd_Some n f h nd : h !! n = Some nd → upd n f h = Done (<[n := f nd]> h).
Proof. unfold upd. by intros ->. Qed.

(** ** Linking *)

Section link.
Context h kids rank out p c pn cd
  (Hpar : parents_ok h kids rank (c :: out)) (Hlists : lists_ok h kids) (Hout : c ∉ out)
  (Hp : h !! p = Some pn) (Hc : h !! c = Some cd) (Hcp : parent cd = Some p).

Lemma link_ne : c ≠ p.
Proof. intros ->. pose proof (po_rank _ _ _ _ Hpar _ _ _ Hc Hcp). lia. Qed.

Lemma parents_ok_link : parents_ok h (set_kids kids p (c :: kids p)) rank out.
Proof.
  destruct Hpar as [Hdead Hkid Hnd Hlinked Ho Hrank]. split.
  - intros n Hn. rewrite set_kids_ne by congruence. by apply Hdead.
  - intros n x. destruct (decide (n = p)) as [->|Hne].
    + rewrite set_kids_eq. intros [->|Hx]%elem_of_cons; [by exists cd|by apply Hkid].
    + rewrite set_kids_ne by done. apply Hkid.
  - intros n. destruct (decide (n = p)) as [->|Hne]; [|by rewrite set_kids_ne].
    rewrite set_kids_eq. apply NoDup_cons. split; [apply Ho; set_solver|done].
  - intros x xd q Hx Hxq Hxo. destruct (decide (x = c)) as [->|Hxc].
    + simplify_eq. rewrite set_kids_eq. set_solver.
    + assert (x ∈ kids q) by (eapply Hlinked; [done..|set_solver]).
      unfold set_kids. case_decide; subst; set_solver.
  - intros n x Hx. unfold set_kids. case_decide as E; [|apply Ho; set_solver]. subst n.
    apply not_elem_of_cons. split; [set_solver|apply Ho; set_solver].
  - done.
Qed.

(** The three writes that put [c] in front. *)
Definition relinked : heap :=
  let h := <[c := {| cd with next_sib := first_child pn; prev_sib := None |}]> h in
  let h := match first_child pn with
           | Some f => match h !! f with Some fd => <[f := {| fd with prev_sib := Some c |}]> h | None => h end
           | None => h
           end in
  <[p := {| pn with first_child := Some c |}]> h.

Lemma first_kid f : first_child pn = Some f → ∃ fd b, kids p = f :: b ∧ h !! f = Some fd ∧ parent fd = Some p ∧ f ≠ c ∧ f ≠ p.
Proof.
  intros Hf. destruct (Hlists _ _ Hp) as [E _]. rewrite Hf in E. destruct (kids p) as [|f' b] eqn:Ek; [done|].
  cbn in E. simplify_eq. destruct (po_kid _ _ _ _ Hpar p f') as (fd & Hfd & Hfp); [rewrite Ek; set_solver|].
  exists fd, b. split_and!; try done.
  - intros ->. apply (po_out _ _ _ _ Hpar p c); [set_solver|rewrite Ek; set_solver].
  - intros ->. pose proof (po_rank _ _ _ _ Hpar _ _ _ Hfd Hfp). lia.
Qed.

Lemma relinked_core : same_core h relinked.
Proof.
  pose proof link_ne. unfold relinked. destruct (first_child pn) as [f|] eqn:Ef.
  - destruct (first_kid f Ef) as (fd & b & Ek & Hfd & Hfp & ? & ?). rewrite lookup_insert_ne, Hfd by done.
    eapply same_core_write; [|by rewrite !lookup_insert_ne|done].
    eapply same_core_write; [|by rewrite !lookup_insert_ne|done]. by eapply same_core_insert.
  - eapply same_core_write; [|by rewrite !lookup_insert_ne|done]. by eapply same_core_insert.
Qed.

(** A list that none of the written nodes belongs to. *)
Lemma relinked_frame pr l : c ∉ l → (∀ f, first_child pn = Some f → f ∉ l) → seg h pr l None → seg relinked pr l None.
Proof.
  intros Hcl Hfl Hs. pose proof link_ne. unfold relinked. destruct (first_child pn) as [f|] eqn:Ef.
  - destruct (first_kid f Ef) as (fd & b & Ek & Hfd & Hfp & ? & ?). rewrite lookup_insert_ne, Hfd by done.
    eapply seg_same_links; [by rewrite !lookup_insert_ne|done|]. apply kids_seg_frame; [by apply Hfl|]. by apply kids_seg_frame.
  - eapply seg_same_links; [by rewrite lookup_insert_ne|done|]. by apply kids_seg_frame.
Qed.

Lemma relinked_p : seg relinked None (c :: kids p) None.
Proof.
  pose proof link_ne. destruct (Hlists _ _ Hp) as [E Hs]. pose proof (po_nodup _ _ _ _ Hpar p) as Hnd.
  assert (Hcp' : c ∉ kids p) by (apply (po_out _ _ _ _ Hpar); set_solver).
  destruct (kids p) as [|f b] eqn:Ek; cbn in E.
  - split; [|done]. unfold relinked. rewrite E, lookup_insert_ne, lookup_insert_eq by done. by eexists.
  - destruct (first_kid f E) as (fd & b' & Ek' & Hfd & Hfp & ? & ?). unfold relinked.
    rewrite E, (lookup_insert_ne _ c f), Hfd by done. split.
    + rewrite !lookup_insert_ne, lookup_insert_eq by done. by eexists.
    + eapply seg_same_links; [by rewrite !lookup_insert_ne|done|].
      eapply (kids_seg_set_prev _ None); [done|by rewrite lookup_insert_ne|]. by apply kids_seg_frame.
Qed.

Lemma lists_ok_link : lists_ok relinked (set_kids kids p (c :: kids p)).
Proof.
  intros n nd Hn. destruct (decide (n = p)) as [->|Hne].
  { rewrite set_kids_eq. split; [|apply relinked_p]. unfold relinked in Hn. rewrite lookup_insert_eq in Hn. by simplify_eq. }
  rewrite set_kids_ne by done.
  assert (∃ nd0, h !! n = Some nd0 ∧ first_child nd = first_child nd0) as (nd0 & Hn0 & ->).
  { unfold relinked in Hn. rewrite lookup_insert_ne in Hn by done. destruct (first_child pn) as [f|] eqn:Ef.
    - destruct (first_kid f Ef) as (fd & b & Ek & Hfd & Hfp & ? & ?). rewrite lookup_insert_ne, Hfd in Hn by done.
      apply lookup_insert_Some in Hn as [(<- & <-)|[? [(<- & <-)|[? ?]]%lookup_insert_Some]]; eauto.
    - apply lookup_insert_Some in Hn as [(<- & <-)|[? ?]]; eauto. }
  destruct (Hlists _ _ Hn0) as [Ef Hs]. split; [done|]. apply relinked_frame; [| |done].
  - apply (po_out _ _ _ _ Hpar). set_solver.
  - intros f (fd & b & _ & Hfd & Hfp & _)%first_kid Hin. apply (po_kid _ _ _ _ Hpar) in Hin as (fd' & ? & ?). congruence.
Qed.

(** [link] puts the child in front of its parent's children, and passes a cancellation
    on to it. *)
Lemma link_section_spec : ∃ h', link_section p c h = Done h'
  ∧ parents_ok h' (set_kids kids p (c :: kids p)) rank out ∧ lists_ok h' (set_kids kids p (c :: kids p))
  ∧ same_core (<[c := {| cd with requested := requested cd || requested pn |}]> h) h'.
Proof.
  pose proof link_ne as Hne.
  assert (E : link_section p c h =
    if requested pn then upd c (λ nd, {| nd with requested := true |}) relinked else Done relinked).
  { unfold link_section, relinked. rewrite Hp. orun. rewrite (upd_Some c _ _ cd) by done. orun.
    destruct (first_child pn) as [f|] eqn:Ef.
    - destruct (first_kid f Ef) as (fd & b & Ek & Hfd & Hfp & ? & ?).
      rewrite (upd_Some f _ _ fd) by (by rewrite lookup_insert_ne). orun.
      rewrite (upd_Some p _ _ pn) by (by rewrite !lookup_insert_ne). orun. by rewrite lookup_insert_ne, Hfd by done.
    - orun. by rewrite (upd_Some p _ _ pn) by (by rewrite !lookup_insert_ne). }
  rewrite E. pose proof relinked_core as Hcore. pose proof lists_ok_link as Hl.
  pose proof (parents_ok_core _ _ _ _ _ Hcore parents_ok_link) as Hpo.
  destruct (same_core_lookup relinked h c cd) as (cd' & Hc' & Ee); [by apply same_core_sym|done|].
  destruct (requested pn).
  - rewrite (upd_Some c _ _ cd') by done. eexists. split; [done|]. split_and!.
    + by eapply parents_ok_scalar.
    + by eapply lists_ok_scalar.
    + intros m. destruct (decide (m = c)) as [->|Hmc].
      * rewrite !lookup_insert_eq, orb_true_r. cbn. f_equal. unfold erase in *. cbn. injection Ee. intros. f_equal; done.
      * rewrite !lookup_insert_ne by done. apply Hcore.
  - eexists. split_and!; [done..|]. intros m. destruct (decide (m = c)) as [->|Hmc].
    + rewrite lookup_insert_eq, orb_false_r, Hcore, Hc. cbn. by destruct cd.
    + rewrite lookup_insert_ne by done. apply Hcore.
Qed.
End link.

(** ** Unlinking *)

Section unlink.
Context h kids rank out p n pn nd a b
  (Hpar : parents_ok h kids rank out) (Hlists : lists_ok h kids)
  (Hp : h !! p = Some pn) (Hn : h !! n = Some nd) (Hk : kids p = a ++ n :: b).

Lemma unlink_nodup : NoDup (a ++ n :: b).
Proof. rewrite <- Hk. apply (po_nodup _ _ _ _ Hpar). Qed.

Lemma unlink_kid x : x ∈ a ++ n :: b → ∃ xd, h !! x = Some xd ∧ parent xd = Some p ∧ x ≠ p.
Proof.
  rewrite <- Hk. intros (xd & Hx & Hxp)%(po_kid _ _ _ _ Hpar). exists xd. split_and!; [done..|].
  intros ->. pose proof (po_rank _ _ _ _ Hpar _ _ _ Hx Hxp). lia.
Qed.

Lemma parents_ok_unlink : parents_ok h (set_kids kids p (a ++ b)) rank (n :: out).
Proof.
  pose proof unlink_nodup as Hnd. apply NoDup_app in Hnd as (Hna & Hdis & [Hnb Hndb]%NoDup_cons).
  destruct Hpar as [Hdead Hkid Hnd' Hlinked Ho Hrank]. split.
  - intros m Hm. rewrite set_kids_ne by congruence. by apply Hdead.
  - intros m x. unfold set_kids. case_decide; [subst m|apply Hkid]. intros Hx. apply Hkid. rewrite Hk. set_solver.
  - intros m. unfold set_kids. case_decide; [|done]. apply NoDup_app. split_and!; [done| |done]. set_solver.
  - intros x xd q Hx Hxq Hxo. assert (x ∈ kids q) as Hin by (eapply Hlinked; [done..|set_solver]).
    unfold set_kids. case_decide; [|done]. subst q. rewrite Hk in Hin. set_solver.
  - intros m x [->|Hx]%elem_of_cons; unfold set_kids; case_decide as E; subst.
    + set_solver.
    + intros (xd & Hxd & Hxp)%Hkid. destruct (unlink_kid n) as (? & ? & ? & ?); [set_solver|congruence].
    + specialize (Ho p x Hx). rewrite Hk in Ho. set_solver.
    + by apply Ho.
  - done.
Qed.

Lemma unlink_links : prev_sib nd = last a ∧ next_sib nd = head b
  ∧ seg h None a (Some n) ∧ seg h (Some n) b None.
Proof.
  destruct (Hlists _ _ Hp) as [_ Hs]. rewrite Hk in Hs. apply kids_seg_app in Hs as [Ha [(nd0 & Hn0 & Hpr & Hnx) Hb]].
  simplify_eq. split_and!; [|by destruct b|done|done]. rewrite Hpr. by destruct (last a).
Qed.

(** The writes that take [n] out: its predecessor or its parent, then its successor. *)
Definition bypassed1 : heap :=
  match last a with
  | Some q => match h !! q with Some qd => <[q := {| qd with next_sib := head b |}]> h | None => h end
  | None => <[p := {| pn with first_child := head b |}]> h
  end.
Definition bypassed : heap :=
  match head b with
  | Some q => match bypassed1 !! q with Some qd => <[q := {| qd with prev_sib := last a |}]> bypassed1 | None => bypassed1 end
  | None => bypassed1
  end.

Lemma last_kid q : last a = Some q → ∃ qd a', a = a' ++ [q] ∧ h !! q = Some qd ∧ q ≠ p ∧ q ≠ n ∧ q ∉ b.
Proof.
  intros (a' & Ea)%last_Some. destruct (unlink_kid q) as (qd & Hq & _ & ?); [rewrite Ea; set_solver|].
  pose proof unlink_nodup as (_ & Hd & _)%NoDup_app. exists qd, a'. specialize (Hd q). rewrite Ea in *. set_solver.
Qed.

Lemma head_kid q : head b = Some q → ∃ qd b', b = q :: b' ∧ h !! q = Some qd ∧ q ≠ p ∧ q ≠ n ∧ q ∉ a.
Proof.
  intros Hh. assert (∃ b', b = q :: b') as [b' Eb] by (clear - Hh; destruct b; naive_solver).
  destruct (unlink_kid q) as (qd & Hq & _ & ?); [rewrite Eb; set_solver|].
  pose proof unlink_nodup as (_ & Hd & [? ?]%NoDup_cons)%NoDup_app. exists qd, b'. specialize (Hd q). rewrite Eb in *. set_solver.
Qed.

(** What the first write leaves alone. *)
Lemma bypassed1_ne x : x ≠ p → last a ≠ Some x → bypassed1 !! x = h !! x.
Proof.
  intros Hx Hl. unfold bypassed1. destruct (last a) as [q|]; [|by rewrite lookup_insert_ne].
  destruct (h !! q); [|done]. rewrite lookup_insert_ne by congruence. done.
Qed.

Lemma bypassed1_core : same_core h bypassed1.
Proof.
  unfold bypassed1. destruct (last a) as [q|]; [destruct (h !! q) eqn:Eq; [|done]|]; by eapply same_core_insert.
Qed.

Lemma bypassed1_segs : seg bypassed1 None a (head b) ∧ seg bypassed1 (Some n) b None.
Proof.
  destruct unlink_links as (_ & _ & Ha & Hb). unfold bypassed1. destruct (last a) as [q|] eqn:El.
  - destruct (last_kid q El) as (qd & a' & Ea & Hq & ? & ? & ?). rewrite Hq. split; [|by apply kids_seg_frame].
    pose proof unlink_nodup as (Hnd & _)%NoDup_app. rewrite Ea in *. by eapply kids_seg_set_next.
  - apply last_None in El. rewrite El. split; [done|]. by eapply seg_same_links.
Qed.

Lemma bypassed_core : same_core h bypassed.
Proof.
  unfold bypassed. destruct (head b) as [q|]; [destruct (bypassed1 !! q) eqn:Eq|]; [|apply bypassed1_core..].
  by eapply same_core_write; [apply bypassed1_core|..].
Qed.

Lemma bypassed_segs : seg bypassed None a (head b) ∧ seg bypassed (last a) b None.
Proof.
  destruct bypassed1_segs as [Ha Hb]. unfold bypassed. destruct (head b) as [q|] eqn:Eh.
  - destruct (head_kid q Eh) as (qd & b' & Eb & Hq & ? & ? & Hqa).
    assert (last a ≠ Some q) by (intros (a' & Ea)%last_Some; rewrite Ea in Hqa; set_solver).
    rewrite bypassed1_ne, Hq by done. split; [by apply kids_seg_frame|].
    pose proof unlink_nodup as (_ & _ & [_ ?]%NoDup_cons)%NoDup_app. rewrite Eb in *.
    eapply kids_seg_set_prev; [done|by rewrite bypassed1_ne|done].
  - split; [done|]. clear - Eh. by destruct b.
Qed.

(** What the writes change: the links of siblings, and where the list of [p] starts. *)
Definition write_ok x xd xd' : Prop :=
  (x ∉ a ++ b → links xd = links xd')
  ∧ first_child xd = (if decide (x = p) then match last a with None => head b | _ => first_child xd' end
                      else first_child xd').

Lemma bypassed1_lookup x xd : bypassed1 !! x = Some xd → ∃ xd', h !! x = Some xd' ∧ write_ok x xd xd'.
Proof.
  unfold bypassed1, write_ok. destruct (last a) as [q|] eqn:El.
  - destruct (last_kid q El) as (qd & a' & Ea & Hq & ? & ? & ?). rewrite Hq.
    intros [(<- & <-)|[? Hx]]%lookup_insert_Some.
    + exists qd. rewrite decide_False by done. split_and!; [done| |done]. rewrite Ea. set_solver.
    + exists xd. split_and!; [done..|]. by case_decide.
  - intros [(<- & <-)|[? Hx]]%lookup_insert_Some.
    + exists pn. rewrite decide_True by done. by split_and!.
    + exists xd. rewrite decide_False by done. by split_and!.
Qed.

Lemma bypassed_lookup x xd : bypassed !! x = Some xd → ∃ xd', h !! x = Some xd' ∧ write_ok x xd xd'.
Proof.
  unfold bypassed. destruct (head b) as [q|] eqn:Eh; [|apply bypassed1_lookup].
  destruct (head_kid q Eh) as (qd & b' & Eb & Hq & ? & ? & ?).
  destruct (bypassed1 !! q) as [qd1|] eqn:Eq; [|apply bypassed1_lookup].
  intros [(<- & <-)|[? Hx]]%lookup_insert_Some; [|by apply bypassed1_lookup].
  apply bypassed1_lookup in Eq as (xd' & Hx & _ & Ef). exists xd'. split; [done|].
  split; [rewrite Eb; set_solver|done].
Qed.

Lemma bypassed_n : bypassed !! n = Some nd.
Proof.
  destruct (unlink_kid n) as (nd' & Hn' & _ & ?); [set_solver|]. simplify_eq.
  unfold bypassed. assert (bypassed1 !! n = Some nd) as E.
  { rewrite bypassed1_ne; [done..|]. intros (? & ? & ? & ? & ? & ? & ?)%last_kid. done. }
  destruct (head b) as [q|] eqn:Eh; [|done]. destruct (head_kid q Eh) as (? & ? & ? & ? & ? & ? & ?).
  destruct (bypassed1 !! q); [|done]. by rewrite lookup_insert_ne.
Qed.

Lemma lists_ok_unlink :
  lists_ok (<[n := {| nd with prev_sib := None; next_sib := None |}]> bypassed) (set_kids kids p (a ++ b)).
Proof.
  pose proof unlink_nodup as Hnd. destruct (unlink_kid n) as (nd' & Hn' & Hnp & Hne); [set_solver|]. simplify_eq.
  assert (n ∉ a ++ b) as Hnab.
  { apply NoDup_app in Hnd as (_ & Hd & [? _]%NoDup_cons). specialize (Hd n). set_solver. }
  intros m md Hm. assert (∃ md', bypassed !! m = Some md' ∧ first_child md = first_child md') as (md' & Hm' & ->).
  { apply lookup_insert_Some in Hm as [(<- & <-)|[? ?]]; [|by eauto]. exists nd. split; [apply bypassed_n|done]. }
  apply bypassed_lookup in Hm' as (md0 & Hm0 & _ & ->). destruct (Hlists _ _ Hm0) as [Ef Hs].
  destruct (decide (m = p)) as [->|Hmp].
  - rewrite set_kids_eq. split.
    + simplify_eq. rewrite Ef, Hk. clear. destruct (last a) as [q|] eqn:El; [by destruct a|by apply last_None in El as ->].
    + apply kids_seg_frame; [done|]. destruct bypassed_segs as [Ha Hb]. clear - Ha Hb.
      destruct b as [|y b']; [by rewrite app_nil_r|]. apply kids_seg_app. split; [done|]. by destruct (last a).
  - rewrite set_kids_ne by done. split; [done|].
    assert (Hdis : ∀ x, x ∈ kids m → x ∉ a ++ n :: b).
    { intros x (xd & Hx & Hxp)%(po_kid _ _ _ _ Hpar) (xd' & ? & ? & _)%unlink_kid. congruence. }
    apply kids_seg_frame; [intros Hin%Hdis; set_solver|]. eapply kids_seg_ext; [|done].
    intros x xd Hx%Hdis Hxd. destruct (bypassed !! x) as [xd2|] eqn:Ex.
    + exists xd2. split; [done|]. apply bypassed_lookup in Ex as (xd' & ? & Hl & _). simplify_eq. apply Hl. set_solver.
    + pose proof (bypassed_core x) as Hc. by rewrite Ex, Hxd in Hc.
Qed.

(** [unlink_from_parent] takes the child out of its parent's children and nothing else. *)
Lemma unlink_section_spec : ∃ h', unlink_section n p h = Done h'
  ∧ parents_ok h' (set_kids kids p (a ++ b)) rank (n :: out) ∧ lists_ok h' (set_kids kids p (a ++ b))
  ∧ same_core h h'.
Proof.
  destruct unlink_links as (Hpr & Hnx & _).
  exists (<[n := {| nd with prev_sib := None; next_sib := None |}]> bypassed). split; [|split_and!].
  - unfold unlink_section. rewrite Hn. orun. rewrite Hpr, Hnx.
    assert (match last a with
            | Some q => upd q (λ qd, {| qd with next_sib := head b |}) h
            | None => upd p (λ pd, {| pd with first_child := head b |}) h
            end = Done bypassed1) as ->.
    { unfold bypassed1. destruct (last a) as [q|] eqn:El; [|by rewrite (upd_Some _ _ _ pn)].
      destruct (last_kid q El) as (qd & a' & Ea & Hq & _). rewrite Hq. by rewrite (upd_Some _ _ _ qd). }
    orun.
    assert (match head b with
            | Some q => upd q (λ qd, {| qd with prev_sib := last a |}) bypassed1
            | None => Done bypassed1
            end = Done bypassed) as ->.
    { unfold bypassed. destruct (head b) as [q|] eqn:Eh; [|done].
      destruct (head_kid q Eh) as (qd & b' & Eb & Hq & _). pose proof (bypassed1_core q) as Hc. rewrite Hq in Hc.
      destruct (bypassed1 !! q) as [qd1|] eqn:Eq; [|done]. by rewrite (upd_Some _ _ _ qd1). }
    orun. by rewrite (upd_Some n _ _ nd) by apply bypassed_n.
  - eapply parents_ok_scalar; [apply bypassed_n|done|]. eapply parents_ok_core; [apply bypassed_core|apply parents_ok_unlink].
  - apply lists_ok_unlink.
  - eapply same_core_write; [apply bypassed_core|apply bypassed_n|done].
Qed.
End unlink.
End CancelTreeShape.
