(* ===== verification/CancelTreeInv.v ===== *)
(** The invariant of the cancellation tree: who holds references, who is on the way to
    delete a node, who holds a lock, how the calls in flight are stacked, and that a
    cancellation that has not reached a child is still on its way. *)

From S2P Require Import Prelude CancelTree CancelTreeShape.

Module CancelTreeInv.
Import CancelTree CancelTreeShape.
Implicit Types (h : heap) (n p c x m : ptr) (nd : node) (f : frame) (fs call : list frame) (σ : tree).

(** * What frames hold *)

(** References. *)
Definition refs_of f : list ptr :=
  match f with
  | FPin n | FKickPush n | FDec n | FProc n | FHook n | FFinish n => [n]
  | FLinkRef p c | FLinkSection p c => [p; c]
  | _ => []
  end.
(** The right to delete a node. *)
Definition dying f : list ptr := match f with FUnlink n | FDelete n => [n] | _ => [] end.
(** A lock. *)
Definition lock_of f : list ptr := match f with FWalk n _ | FReturn n _ => [n] | _ => [] end.
(** A node that is being linked for the first time. *)
Definition linking f : list ptr := match f with FLinkRef _ c | FLinkSection _ c => [c] | _ => [] end.
(** A node with a parent that is not in its list. *)
Definition out_of f : list ptr := match f with FLinkSection _ c => [c] | FDelete n => [n] | _ => [] end.

(** How many nodes have [n] as their parent. *)
Definition children h n : Z := Z.of_nat (size (filter (λ kv, parent (snd kv) = Some n) h)).

(** How many references to [n] there are. *)
Definition held σ fs n : Z :=
  occ n (handles σ) + occ n (kicks σ) + occ n (fs ≫= refs_of) + children (nodes σ) n.

Definition refs_ok σ fs : Prop := ∀ n,
  match nodes σ !! n with Some nd => refs nd = held σ fs n | None => held σ fs n = 0 end.
Definition dying_ok h fs : Prop := ∀ n,
  match h !! n with
  | Some nd => occ n (fs ≫= dying) = if refs nd =? 0 then 1 else 0
  | None => occ n (fs ≫= dying) = 0
  end.
Definition locks_ok h fs : Prop := ∀ n,
  match h !! n with
  | Some nd => occ n (fs ≫= lock_of) = if tree_lock nd then 1 else 0
  | None => occ n (fs ≫= lock_of) = 0
  end.
Definition linking_ok fs : Prop := ∀ n, occ n (fs ≫= linking) <= 1.

(** * How calls are stacked *)

(** Below a walk that has reached [n]: the caller's reference, or a walk over the
    children of [n]'s parent. *)
Fixpoint chain (kids : ptr → list ptr) n call : Prop :=
  match call with
  | [FPin m] => m = n
  | FReturn m c :: call => c = n ∧ c ∈ kids m ∧ chain kids m call
  | _ => False
  end.

Definition below_kick kids n call : Prop :=
  match call with
  | FLock m :: call => m = n ∧ chain kids n call
  | _ => call = [FPin n]
  end.

Definition call_ok (kids : ptr → list ptr) call : Prop :=
  match call with
  | [] => True
  | FPin _ :: call => call = []
  | FExchange n :: call | FLock n :: call | FWalk n None :: call => chain kids n call
  | FWalk n (Some c) :: call | FReturn n c :: call => c ∈ kids n ∧ chain kids n call
  | FKickOwner n :: call | FKickPending n :: call | FKickRef n :: call | FKickUndo n :: call
  | FKickPush n :: call => below_kick kids n call
  | FOwner n _ :: call | FCheck n :: call => call = [FPin n]
  | _ :: call => call = []
  end.

(** What single frames know. *)
Definition frame_ok h (rank : ptr → nat) f : Prop :=
  match f with
  | FLinkRef p c => (rank p < rank c)%nat ∧ ∃ cd, h !! c = Some cd ∧ parent cd = None
  | FLinkSection p c => ∃ cd, h !! c = Some cd ∧ parent cd = Some p
  | FKickUndo n => ∃ nd, h !! n = Some nd ∧ refs nd = 0
  | _ => True
  end.

(** * Cancellation on its way *)

(** [f] still has to visit [c] under [n]. *)
Definition visits (kids : ptr → list ptr) f n c : Prop :=
  match f with
  | FLock m => m = n
  | FWalk m (Some x) => m = n ∧ (c = x ∨ c ∈ after x (kids n))
  | FReturn m x => m = n ∧ c ∈ after x (kids n)
  | _ => False
  end.

Definition covered h kids fs : Prop := ∀ n nd c cd,
  h !! n = Some nd → requested nd = true → c ∈ kids n → h !! c = Some cd →
  requested cd = true ∨ FExchange c ∈ fs ∨ ∃ f, f ∈ fs ∧ visits kids f n c.

Section kicks.
Context (thread_count : Z).

(** The task is one a kick can be sent to. *)
Definition kickable nd : bool := is_task nd && negb ((owner_tid nd <? 0) || (thread_count <=? owner_tid nd)).

(** A kick for [n] is being queued. *)
Definition kicking fs n : Prop :=
  FKickOwner n ∈ fs ∨ FKickPending n ∈ fs ∨ FKickRef n ∈ fs ∨ FKickPush n ∈ fs ∨ FCheck n ∈ fs.
Definition claimed_kick fs n : Prop := FKickRef n ∈ fs ∨ FKickPush n ∈ fs.

Record kick_ok fs n nd : Prop := {
  ko_woken : woken nd = 0%nat ∨ (woken nd = 1%nat ∧ requested nd = true);
  ko_pending : kick_pending nd = true → (0 < kicks_queued nd)%nat ∨ refs nd = 0 ∨ claimed_kick fs n;
  ko_kicked : kickable nd = true → (0 < woken nd)%nat → (0 < kicks_queued nd)%nat ∨ refs nd = 0 ∨ kicking fs n
}.

Definition kicks_ok h fs : Prop := ∀ n nd, h !! n = Some nd → kick_ok fs n nd.

Record inv_with σ (calls : list (list frame)) fs (kids : ptr → list ptr) (rank : ptr → nat) : Prop := {
  i_parents : parents_ok (nodes σ) kids rank (fs ≫= out_of);
  i_lists : lists_ok (nodes σ) kids;
  i_refs : refs_ok σ fs;
  i_dying : dying_ok (nodes σ) fs;
  i_locks : locks_ok (nodes σ) fs;
  i_linking : linking_ok fs;
  i_fresh n : n ∈ fs ≫= linking → held σ fs n = 1;
  i_calls : Forall (call_ok kids) calls;
  i_frames : Forall (frame_ok (nodes σ) rank) fs;
  i_covered : covered (nodes σ) kids fs;
  i_kicks : kicks_ok (nodes σ) fs
}.

Definition inv (s : config) : Prop := ∃ kids rank, inv_with (shared s) (calls s) (concat (calls s)) kids rank.

(** * The order of calls and frames does not matter *)

Lemma concat_perm {A} (l1 l2 : list (list A)) : l1 ≡ₚ l2 → concat l1 ≡ₚ concat l2.
Proof.
  induction 1; cbn; [done|by f_equiv| |by etrans]. rewrite !app_assoc. f_equiv. apply Permutation_app_comm.
Qed.

Lemma inv_with_perm σ calls calls' fs fs' kids rank :
  calls ≡ₚ calls' → fs ≡ₚ fs' → inv_with σ calls fs kids rank → inv_with σ calls' fs' kids rank.
Proof.
  intros Hc Hf [Hpar Hlists Hrefs Hdy Hlk Hln Hfresh Hcalls Hframes Hcov Hkicks]. split.
  - destruct Hpar as [P1 P2 P3 P4 P5 P6]. split; try done.
    + intros c cd p ? ? Hout. eapply P4; [done..|]. by rewrite Hf.
    + intros n c. rewrite <- Hf. apply P5.
  - done.
  - intros n. specialize (Hrefs n). by assert (held σ fs' n = held σ fs n) as -> by (unfold held; by rewrite Hf).
  - intros n. specialize (Hdy n). by assert (occ n (fs' ≫= dying) = occ n (fs ≫= dying)) as -> by by rewrite Hf.
  - intros n. specialize (Hlk n). by assert (occ n (fs' ≫= lock_of) = occ n (fs ≫= lock_of)) as -> by by rewrite Hf.
  - intros n. rewrite <- Hf. apply Hln.
  - intros n Hin. rewrite <- Hf in Hin. apply Hfresh in Hin. unfold held in *. by rewrite <- Hf.
  - by rewrite <- Hc.
  - by rewrite <- Hf.
  - intros n nd c cd Hn Hr Hk Hcd. destruct (Hcov n nd c cd) as [?|[?|(f & Hin & ?)]]; [done..|by left|right; left; by rewrite <- Hf|].
    right; right. exists f. by rewrite <- Hf.
  - intros n nd Hn. destruct (Hkicks n nd Hn) as [K1 K2 K3]. split; [done|..].
    + unfold claimed_kick in *. by rewrite <- Hf.
    + unfold kicking in *. by rewrite <- !Hf.
Qed.

(** * Counting children *)

Lemma children_insert_same h n nd nd' m :
  h !! n = Some nd → parent nd' = parent nd → children (<[n := nd']> h) m = children h m.
Proof.
  intros Hn Hp. unfold children. f_equal. rewrite <- !(size_dom (D := gset ptr)). f_equal. apply set_eq. intros x.
  rewrite !elem_of_dom. unfold is_Some. setoid_rewrite map_lookup_filter_Some. cbn.
  destruct (decide (x = n)) as [->|Hne].
  - rewrite lookup_insert_eq, Hn. split; intros (y & [= <-] & ?); eexists; (split; [done|congruence]).
  - rewrite lookup_insert_ne by done. done.
Qed.

Lemma children_insert_fresh h n nd m :
  h !! n = None → children (<[n := nd]> h) m = (if decide (parent nd = Some m) then 1 else 0) + children h m.
Proof.
  intros Hn. unfold children. rewrite map_filter_insert. cbn. destruct (decide (parent nd = Some m)).
  - rewrite map_size_insert_None by (apply map_lookup_filter_None; auto). lia.
  - rewrite delete_id by done. lia.
Qed.

Lemma children_delete h n nd m :
  h !! n = Some nd → children h m = (if decide (parent nd = Some m) then 1 else 0) + children (delete n h) m.
Proof.
  intros Hn. rewrite <- (insert_delete_id h n nd Hn) at 1. apply children_insert_fresh. apply lookup_delete_eq.
Qed.

Lemma children_insert h n nd nd' m : h !! n = Some nd →
  children (<[n := nd']> h) m
  = children h m - (if decide (parent nd = Some m) then 1 else 0) + (if decide (parent nd' = Some m) then 1 else 0).
Proof.
  intros Hn. rewrite <- insert_delete_eq. rewrite children_insert_fresh by apply lookup_delete_eq.
  rewrite (children_delete h n nd) by done. lia.
Qed.

Lemma children_ge0 h m : 0 <= children h m.
Proof. unfold children. lia. Qed.

Lemma children_pos h m c cd : h !! c = Some cd → parent cd = Some m → 0 < children h m.
Proof. intros Hc Hp. rewrite (children_delete h c cd) by done. rewrite decide_True by done. pose proof (children_ge0 (delete c h) m). lia. Qed.

Lemma children_core h h' m : same_core h h' → children h' m = children h m.
Proof.
  intros Hs. unfold children. f_equal. rewrite <- !(size_dom (D := gset ptr)). f_equal. apply set_eq. intros x.
  rewrite !elem_of_dom. unfold is_Some. setoid_rewrite map_lookup_filter_Some. cbn.
  split; intros (y & Hy & Hp).
  - destruct (same_core_lookup h h' x y) as (y' & ? & E%erase_parent); [done..|]. exists y'. split; [done|congruence].
  - destruct (same_core_lookup h' h x y) as (y' & ? & E%erase_parent); [by apply same_core_sym|done|].
    exists y'. split; [done|congruence].
Qed.

(** * Chains *)

Lemma chain_call_ok kids n call : chain kids n call → call_ok kids call.
Proof. destruct call as [|[] [|? ?]]; cbn; try tauto. all: intros (-> & ? & ?); tauto. Qed.

Lemma below_kick_call_ok kids n call : below_kick kids n call → call_ok kids call.
Proof. destruct call as [|[] ?]; cbn; try done; try (by intros [=]); by intros [-> ?]. Qed.

(** The lists a call walks over are those of the nodes it holds the locks of. *)
Lemma chain_kids kids kids' n call :
  (∀ m, m ∈ call ≫= lock_of → kids' m = kids m) → chain kids n call → chain kids' n call.
Proof.
  revert n. induction call as [|f call IH]; intros n Hk; [done|]. destruct f; try done.
  intros (-> & Hc & Hch). cbn. rewrite Hk by (cbn; set_solver). split_and!; [done..|]. apply IH; [|done].
  intros m Hm. apply Hk. cbn. set_solver.
Qed.

Lemma call_ok_kids kids kids' call :
  (∀ m, m ∈ call ≫= lock_of → kids' m = kids m) → call_ok kids call → call_ok kids' call.
Proof.
  destruct call as [|f call]; intros Hk; [done|].
  assert (Hk' : ∀ m, m ∈ call ≫= lock_of → kids' m = kids m) by (intros m Hm; apply Hk; cbn; set_solver).
  destruct f; cbn; try done; try (by apply chain_kids).
  all: try (destruct call as [|[] ?]; cbn in *; try done; intros [-> ?]; split; [done|]; by eapply chain_kids).
  - case_match; [|by apply chain_kids]. rewrite (Hk n) by (cbn; set_solver). intros [? ?]. split; [done|]. by eapply chain_kids.
  - rewrite (Hk n) by (cbn; set_solver). intros [? ?]. split; [done|]. by eapply chain_kids.
Qed.

(** A node a walk or a kick works on is pinned by the caller, or a child of a node that
    is walked over. *)
Definition pin_of f : list ptr :=
  match f with FPin n | FDec n => [n] | FLinkRef p _ | FLinkSection p _ => [p] | _ => [] end.
Definition uses f : list ptr :=
  match f with
  | FExchange n | FLock n | FWalk n _ | FReturn n _ => [n]
  | FKickOwner n | FKickPending n | FKickRef n | FKickUndo n => [n]
  | _ => []
  end.

Lemma chain_top kids n call : chain kids n call → n ∈ call ≫= pin_of ∨ ∃ q, n ∈ kids q.
Proof.
  destruct call as [|[] call]; try done; cbn.
  - destruct call; [intros ->|done]. left. set_solver.
  - intros (-> & ? & ?). eauto.
Qed.

Lemma chain_uses kids n call m : chain kids n call → m ∈ call ≫= uses → m ∈ call ≫= pin_of ∨ ∃ q, m ∈ kids q.
Proof.
  revert n. induction call as [|f call IH]; intros n; [done|]. destruct f; try done; cbn.
  - destruct call; [set_solver|done].
  - intros (-> & Hc & Hch) [->|Hm]%elem_of_cons; [by eapply chain_top|by eapply IH].
Qed.

Lemma call_uses kids call m : call_ok kids call → m ∈ call ≫= uses → m ∈ call ≫= pin_of ∨ ∃ q, m ∈ kids q.
Proof.
  assert (Hd : ∀ n st, chain kids n st → m ∈ n :: (st ≫= uses) → m ∈ st ≫= pin_of ∨ ∃ q, m ∈ kids q).
  { intros n st Hch [->|Hm]%elem_of_cons; [by eapply chain_top|by eapply chain_uses]. }
  assert (Hk : ∀ n st, below_kick kids n st → m ∈ n :: (st ≫= uses) → m ∈ st ≫= pin_of ∨ ∃ q, m ∈ kids q).
  { intros n [|f st]; [done|]. destruct f; cbn; try (by intros [=]).
    - intros [= -> ->]. apply (Hd n [FPin n]). done.
    - intros [-> Hch] Hm. apply (Hd n st Hch). set_solver. }
  destruct call as [|f st]; [cbn; set_solver|]. destruct f; cbn; try (by apply Hd); try (by apply Hk).
  all: try (intros -> Hm; cbn in Hm; set_solver).
  - case_match; [intros [_ ?]; by apply Hd|by apply Hd].
  - intros [_ ?]. by apply Hd.
  - intros Hb Hm. destruct (Hk n st Hb) as [?|?]; [set_solver|by left|by right].
Qed.
End kicks.
End CancelTreeInv.
