(* ===== verification/CancelTreeSteps.v ===== *)
(** Every step of a call, and everything a client may do, preserves the invariant of
    the cancellation tree; no step is undefined behaviour. *)

From S2P Require Import Prelude CancelTree CancelTreeShape CancelTreeInv.

Module CancelTreeSteps.
Import CancelTree CancelTreeShape CancelTreeInv.
Implicit Types (h : heap) (n p c x m : ptr) (nd : node) (f : frame) (fs gs call : list frame) (σ : tree).

(** Counting: unfold the counts of explicit lists. *)
Ltac occs := rewrite ?bind_app, ?occ_app in *; cbn [mbind list_bind refs_of dying lock_of linking out_of app] in *;
  rewrite ?occ_app, ?occ_cons, ?occ_nil in *.
Ltac decides := repeat case_decide; subst.

Section steps.
Context (thread_count : Z).
Abbreviation inv_with := (inv_with thread_count).
Abbreviation kick_ok := (kick_ok thread_count).

(** ** One node changes, but not its place in the tree *)

Record touch_ok σ call gs call' n nd nd' handles' kicks' (kids : ptr → list ptr) rank : Prop := {
  t_place : parent nd' = parent nd ∧ links nd' = links nd ∧ first_child nd' = first_child nd;
  t_refs m : occ m handles' + occ m kicks' + occ m (call' ≫= refs_of) + (if decide (m = n) then refs nd else 0)
    = occ m (handles σ) + occ m (kicks σ) + occ m (call ≫= refs_of) + (if decide (m = n) then refs nd' else 0);
  t_dying m : occ m (call' ≫= dying) + (if decide (m = n) then (if refs nd =? 0 then 1 else 0) else 0)
    = occ m (call ≫= dying) + (if decide (m = n) then (if refs nd' =? 0 then 1 else 0) else 0);
  t_locks m : occ m (call' ≫= lock_of) + (if decide (m = n) then (if tree_lock nd then 1 else 0) else 0)
    = occ m (call ≫= lock_of) + (if decide (m = n) then (if tree_lock nd' then 1 else 0) else 0);
  t_linking m : occ m (call' ≫= linking) <= occ m (call ≫= linking);
  t_fresh : refs nd' = refs nd ∨ n ∉ (call' ++ gs) ≫= linking;
  t_out m : (m ∈ call ≫= out_of → m ∈ call' ≫= out_of)
    ∧ (m ∈ call' ≫= out_of → m ∈ call ≫= out_of ∨ (m = n ∧ parent nd = None));
  t_call : call_ok kids call';
  t_frames : Forall (frame_ok (<[n := nd']> (nodes σ)) rank) call';
  t_dead : refs nd = 0 → refs nd' = 0;
  t_requested : requested nd = true → requested nd' = true;
  t_new : requested nd' = true → requested nd = false → FLock n ∈ call';
  t_covered m c : c ∈ kids m → FExchange c ∈ call ∨ (∃ f, f ∈ call ∧ visits kids f m c) →
    (c = n ∧ requested nd' = true) ∨ FExchange c ∈ call' ∨ (∃ f, f ∈ call' ∧ visits kids f m c);
  t_kick : kick_ok (call ++ gs) n nd → kick_ok (call' ++ gs) n nd';
  t_others m : m ≠ n → (kicking call m → kicking call' m) ∧ (claimed_kick call m → claimed_kick call' m)
}.

Lemma kicking_app fs gs m : kicking (fs ++ gs) m ↔ kicking fs m ∨ kicking gs m.
Proof. unfold kicking. rewrite !elem_of_app. tauto. Qed.
Lemma claimed_app fs gs m : claimed_kick (fs ++ gs) m ↔ claimed_kick fs m ∨ claimed_kick gs m.
Proof. unfold claimed_kick. rewrite !elem_of_app. tauto. Qed.

Lemma lookup_touch (P : node → Prop) h n nd nd' m :
  h !! n = Some nd → (P nd → P nd') → (∃ md, h !! m = Some md ∧ P md) → ∃ md, <[n := nd']> h !! m = Some md ∧ P md.
Proof.
  intros Hn HP (md & Hm & Hmd). destruct (decide (m = n)) as [->|Hne].
  - exists nd'. rewrite lookup_insert_eq. split; [done|]. apply HP. congruence.
  - exists md. by rewrite lookup_insert_ne.
Qed.

Lemma frame_ok_touch h rank n nd nd' f :
  h !! n = Some nd → parent nd' = parent nd → (refs nd = 0 → refs nd' = 0) →
  frame_ok h rank f → frame_ok (<[n := nd']> h) rank f.
Proof.
  intros Hn Hp Hr. destruct f; cbn; try done.
  - by apply (lookup_touch (λ nd, refs nd = 0) h n nd).
  - intros [Hrank Hc]. split; [done|]. by apply (lookup_touch (λ cd, parent cd = None) h n nd); [|congruence|].
  - apply (lookup_touch (λ cd, parent cd = Some p) h n nd); [done|congruence].
Qed.

Lemma inv_touch σ call call' rest gs kids rank n nd nd' handles' kicks' :
  inv_with σ (call :: rest) (call ++ gs) kids rank → nodes σ !! n = Some nd →
  touch_ok σ call gs call' n nd nd' handles' kicks' kids rank →
  inv_with (mkTree (<[n := nd']> (nodes σ)) handles' kicks') (call' :: rest) (call' ++ gs) kids rank.
Proof.
  intros [Hpar Hlists Hrefs Hdy Hlk Hln Hfresh Hcalls Hframes Hcov Hkicks] Hn
    [(Hp & Hl & Hf) Trefs Tdy Tlk Tln Tfresh Tout Tcall Tframes Tdead Treq Tnew Tcov Tkick Tothers].
  split; cbn [nodes].
  - eapply parents_ok_scalar; [done..|]. destruct Hpar as [P1 P2 P3 P4 P5 P6]. split; try done.
    + intros c cd p ? ? Hout. eapply P4; [done..|]. rewrite bind_app, elem_of_app in *. specialize (Tout c). tauto.
    + intros m c. specialize (Tout c). rewrite bind_app, elem_of_app. intros [Hin|Hin].
      * destruct Tout as [_ [Hin'|[-> Hnone]]]; [done|apply P5; rewrite bind_app; set_solver|].
        intros (cd & Hcd & ?)%P2. congruence.
      * apply P5. rewrite bind_app. set_solver.
  - by eapply lists_ok_scalar.
  - intros m. specialize (Hrefs m). specialize (Trefs m). unfold held in *. cbn [nodes handles kicks].
    erewrite children_insert_same by done. rewrite bind_app, occ_app in *. destruct (decide (m = n)) as [->|].
    + rewrite Hn in Hrefs. rewrite lookup_insert_eq. lia.
    + rewrite lookup_insert_ne by done. destruct (nodes σ !! m); lia.
  - intros m. specialize (Hdy m). specialize (Tdy m). rewrite bind_app, occ_app in *. destruct (decide (m = n)) as [->|].
    + rewrite Hn in Hdy. rewrite lookup_insert_eq. lia.
    + rewrite lookup_insert_ne by done. destruct (nodes σ !! m); lia.
  - intros m. specialize (Hlk m). specialize (Tlk m). rewrite bind_app, occ_app in *. destruct (decide (m = n)) as [->|].
    + rewrite Hn in Hlk. rewrite lookup_insert_eq. lia.
    + rewrite lookup_insert_ne by done. destruct (nodes σ !! m); lia.
  - intros m. specialize (Hln m). specialize (Tln m). rewrite bind_app, occ_app in *. lia.
  - intros m Hin. assert (held σ (call ++ gs) m = 1) as Hheld.
    { apply Hfresh. revert Hin. rewrite !bind_app, !elem_of_app, !occ_pos. specialize (Tln m). lia. }
    specialize (Trefs m). unfold held in *. cbn [nodes handles kicks]. erewrite children_insert_same by done.
    rewrite !bind_app, !occ_app in *. destruct (decide (m = n)) as [->|]; [|lia]. destruct Tfresh as [Er|?]; [lia|].
    done.
  - inversion Hcalls. by constructor.
  - apply Forall_app in Hframes as [_ Hg]. apply Forall_app. split; [done|]. eapply Forall_impl; [done|].
    intros f. by eapply frame_ok_touch.
  - intros m md c cd Hm Hmr Hck Hcd.
    assert (requested cd = true ∨ ∃ cd0, nodes σ !! c = Some cd0 ∧ (requested cd0 = true → requested cd = true)) as [?|(cd0 & Hcd0 & Hmon)].
    { apply lookup_insert_Some in Hcd as [(<- & <-)|[? ?]]; eauto. }
    { by left. }
    destruct (decide (m = n ∧ requested nd = false)) as [[-> Hfalse]|Hold].
    { rewrite lookup_insert_eq in Hm. simplify_eq. right; right. exists (FLock n).
      split; [apply elem_of_app; left; by apply Tnew|done]. }
    assert (∃ md0, nodes σ !! m = Some md0 ∧ requested md0 = true) as (md0 & Hm0 & Hr0).
    { apply lookup_insert_Some in Hm as [(<- & <-)|[? ?]]; [|by eauto]. exists nd. split; [done|].
      destruct (requested nd); [done|]. naive_solver. }
    destruct (Hcov m md0 c cd0) as [?|Hv]; [done..|left; auto|].
    assert ((FExchange c ∈ call ∨ ∃ f, f ∈ call ∧ visits kids f m c) ∨ (FExchange c ∈ gs ∨ ∃ f, f ∈ gs ∧ visits kids f m c))
      as [Hin|Hin].
    { setoid_rewrite elem_of_app in Hv. naive_solver. }
    + destruct (Tcov m c Hck Hin) as [[-> Hr]|[?|(f & ? & ?)]].
      * rewrite lookup_insert_eq in Hcd. simplify_eq. by left.
      * right; left. set_solver.
      * right; right. exists f. set_solver.
    + right. destruct Hin as [?|(f & ? & ?)]; [left; set_solver|right; exists f; set_solver].
  - intros m md. rewrite lookup_insert_Some. intros [(<- & <-)|[Hne Hm]]; [by apply Tkick, Hkicks|].
    destruct (Hkicks m md Hm) as [K1 K2 K3]. destruct (Tothers m) as [To1 To2]; [done|].
    split; [done|..]; rewrite ?kicking_app, ?claimed_app in *; tauto.
Qed.

(** ** Who is alive *)

Lemma ref_live σ calls fs kids rank n :
  inv_with σ calls fs kids rank → n ∈ handles σ ++ kicks σ ++ (fs ≫= refs_of) →
  ∃ nd, nodes σ !! n = Some nd ∧ 0 < refs nd.
Proof.
  intros Hi Hin%occ_pos. pose proof (i_refs _ _ _ _ _ _ Hi n) as Hr. unfold held in Hr. rewrite !occ_app in Hin.
  pose proof (children_ge0 (nodes σ) n).
  destruct (nodes σ !! n) as [nd|]; [exists nd; split; [done|lia]|lia].
Qed.

Lemma dying_live σ calls fs kids rank n :
  inv_with σ calls fs kids rank → n ∈ fs ≫= dying → ∃ nd, nodes σ !! n = Some nd ∧ refs nd = 0.
Proof.
  intros Hi Hin%occ_pos. pose proof (i_dying _ _ _ _ _ _ Hi n) as Hr.
  destruct (nodes σ !! n) as [nd|]; [|lia]. exists nd. split; [done|]. destruct (Z.eqb_spec (refs nd) 0); lia.
Qed.

Lemma chain_live σ calls fs kids rank n st :
  inv_with σ calls fs kids rank → (∀ m, m ∈ st ≫= refs_of → m ∈ fs ≫= refs_of) → chain kids n st →
  ∃ nd, nodes σ !! n = Some nd.
Proof.
  intros Hi Hsub Hch. destruct st as [|[] st]; try done; cbn in Hch.
  - destruct st; [subst|done]. destruct (ref_live _ _ _ _ _ n Hi) as (nd & ? & _); [|by eauto].
    apply elem_of_app; right. apply elem_of_app; right. apply Hsub. cbn. set_solver.
  - destruct Hch as (-> & Hc & _). destruct (po_kid _ _ _ _ (i_parents _ _ _ _ _ _ Hi) _ _ Hc) as (cd & ? & _). eauto.
Qed.

Lemma below_kick_live σ calls fs kids rank n st :
  inv_with σ calls fs kids rank → (∀ m, m ∈ st ≫= refs_of → m ∈ fs ≫= refs_of) → below_kick kids n st →
  ∃ nd, nodes σ !! n = Some nd.
Proof.
  intros Hi Hsub Hb. assert (chain kids n st ∨ ∃ st', st = FLock n :: st' ∧ chain kids n st') as [Hch|(st' & -> & Hch)].
  { destruct st as [|[] st]; cbn in Hb; try done; [injection Hb as -> ->; by left|]. destruct Hb as [-> ?]. right. by exists st. }
  - by eapply chain_live.
  - eapply chain_live; [done| |done]. intros m Hm. apply Hsub. by cbn.
Qed.

(** Nobody but its creator knows a node that is being linked. *)
Lemma pins_and_links fs n : occ n (fs ≫= linking) + occ n (fs ≫= pin_of) <= occ n (fs ≫= refs_of).
Proof.
  induction fs as [|f fs IH]; [done|]. change (f :: fs) with ([f] ++ fs). rewrite !bind_app, !occ_app. cbn.
  rewrite !app_nil_r. destruct f; cbn; rewrite ?occ_cons, ?occ_nil; repeat case_decide; lia.
Qed.

Lemma not_linking σ calls fs kids rank n :
  inv_with σ calls fs kids rank → (n ∈ fs ≫= pin_of) ∨ (∃ m, n ∈ kids m) → n ∉ fs ≫= linking.
Proof.
  intros Hi [Hin|[m Hin]] Hl.
  - pose proof (i_fresh _ _ _ _ _ _ Hi n Hl) as Hh. unfold held in Hh. pose proof (pins_and_links fs n).
    apply occ_pos in Hin, Hl. pose proof (occ_ge0 n (handles σ)). pose proof (occ_ge0 n (kicks σ)).
    pose proof (children_ge0 (nodes σ) n). lia.
  - apply list_elem_of_bind in Hl as (f & Hf & Hfs). pose proof (i_frames _ _ _ _ _ _ Hi) as Hfr.
    rewrite Forall_forall in Hfr. pose proof (Hfr f Hfs) as Hok. pose proof (i_parents _ _ _ _ _ _ Hi) as Hpar.
    destruct (po_kid _ _ _ _ Hpar _ _ Hin) as (nd & Hn & Hp). destruct f; cbn in Hf; try (by apply not_elem_of_nil in Hf).
    + apply list_elem_of_singleton in Hf as ->. destruct Hok as (_ & cd & ? & ?). congruence.
    + apply list_elem_of_singleton in Hf as ->. apply (po_out _ _ _ _ Hpar m c); [|done].
      apply list_elem_of_bind. exists (FLinkSection p c). split; [cbn; set_solver|done].
Qed.

Lemma chain_not_linking σ calls fs kids rank n st :
  inv_with σ calls fs kids rank → (∀ f, f ∈ st → f ∈ fs) → chain kids n st → n ∉ fs ≫= linking.
Proof.
  intros Hi Hsub Hch. eapply not_linking; [exact Hi|]. destruct st as [|[] st]; try done; cbn in Hch.
  - destruct st; [subst|done]. left. apply list_elem_of_bind. exists (FPin n). split; [cbn; set_solver|]. apply Hsub. set_solver.
  - destruct Hch as (-> & Hc & _). right. eauto.
Qed.

(** ** The top frame is replaced *)

Record top_ok σ f st gs top n nd nd' handles' kicks' (kids : ptr → list ptr) rank : Prop := {
  tt_place : parent nd' = parent nd ∧ links nd' = links nd ∧ first_child nd' = first_child nd;
  tt_refs m : occ m handles' + occ m kicks' + occ m (top ≫= refs_of) + (if decide (m = n) then refs nd else 0)
    = occ m (handles σ) + occ m (kicks σ) + occ m (refs_of f) + (if decide (m = n) then refs nd' else 0);
  tt_dying m : occ m (top ≫= dying) + (if decide (m = n) then (if refs nd =? 0 then 1 else 0) else 0)
    = occ m (dying f) + (if decide (m = n) then (if refs nd' =? 0 then 1 else 0) else 0);
  tt_locks m : occ m (top ≫= lock_of) + (if decide (m = n) then (if tree_lock nd then 1 else 0) else 0)
    = occ m (lock_of f) + (if decide (m = n) then (if tree_lock nd' then 1 else 0) else 0);
  tt_linking : linking f = [] ∧ top ≫= linking = [];
  tt_fresh : refs nd' = refs nd ∨ n ∉ (st ++ gs) ≫= linking;
  tt_out : out_of f = [] ∧ (∀ m, m ∈ top ≫= out_of → m = n ∧ parent nd = None);
  tt_call : call_ok kids (top ++ st);
  tt_frames : Forall (frame_ok (<[n := nd']> (nodes σ)) rank) top;
  tt_dead : refs nd = 0 → refs nd' = 0;
  tt_requested : requested nd = true → requested nd' = true;
  tt_new : requested nd' = true → requested nd = false → FLock n ∈ top;
  tt_covered m c : c ∈ kids m → f = FExchange c ∨ visits kids f m c →
    (c = n ∧ requested nd' = true) ∨ FExchange c ∈ top ∨ (∃ f, f ∈ top ∧ visits kids f m c);
  tt_kick : kick_ok (f :: st ++ gs) n nd → kick_ok (top ++ st ++ gs) n nd';
  tt_others m : m ≠ n → ¬ kicking [f] m ∧ ¬ claimed_kick [f] m
}.

Lemma inv_top σ f st top rest gs kids rank n nd nd' handles' kicks' :
  inv_with σ ((f :: st) :: rest) ((f :: st) ++ gs) kids rank → nodes σ !! n = Some nd →
  top_ok σ f st gs top n nd nd' handles' kicks' kids rank →
  inv_with (mkTree (<[n := nd']> (nodes σ)) handles' kicks') ((top ++ st) :: rest) ((top ++ st) ++ gs) kids rank.
Proof.
  intros Hi Hn [Tp Trefs Tdy Tlk [Tln1 Tln2] Tfr [To1 To2] Tcall Tframes Tdead Treq Tnew Tcov Tkick Tothers].
  pose proof (i_frames _ _ _ _ _ _ Hi) as [_ Hst]%Forall_cons. apply Forall_app in Hst as [Hst _].
  eapply inv_touch; [done..|]. split; try done.
  - intros m. specialize (Trefs m). change (f :: st) with ([f] ++ st). rewrite !bind_app, !occ_app. cbn. rewrite app_nil_r. lia.
  - intros m. specialize (Tdy m). change (f :: st) with ([f] ++ st). rewrite !bind_app, !occ_app. cbn. rewrite app_nil_r. lia.
  - intros m. specialize (Tlk m). change (f :: st) with ([f] ++ st). rewrite !bind_app, !occ_app. cbn. rewrite app_nil_r. lia.
  - intros m. change (f :: st) with ([f] ++ st). rewrite !bind_app, !occ_app. cbn. rewrite app_nil_r, Tln1, Tln2. done.
  - rewrite !bind_app, Tln2 in *. by rewrite app_nil_l.
  - intros m. specialize (To2 m). change (f :: st) with ([f] ++ st). rewrite !bind_app, !elem_of_app. cbn.
    rewrite app_nil_r, To1. rewrite elem_of_nil. tauto.
  - apply Forall_app. split; [done|]. eapply Forall_impl; [done|]. intros g. by eapply frame_ok_touch; [|apply Tp|].
  - intros Ht Hf. apply elem_of_app. left. by apply Tnew.
  - intros m c Hc [Hin|(g & Hin & Hv)]; apply elem_of_cons in Hin as [Hg|Hin].
    + destruct (Tcov m c Hc) as [?|[?|(g & ? & ?)]]; [by left|by left|right; left; set_solver|right; right; exists g; set_solver].
    + right; left. set_solver.
    + subst g. destruct (Tcov m c Hc) as [?|[?|(g' & ? & ?)]]; [by right|by left|right; left; set_solver|right; right; exists g'; set_solver].
    + right; right. exists g. set_solver.
  - by rewrite <- app_assoc.
  - intros m Hm. destruct (Tothers m Hm) as [T1 T2]. change (f :: st) with ([f] ++ st).
    rewrite !kicking_app, !claimed_app. tauto.
Qed.

(** The same when no node changes. *)
Lemma inv_top_same σ f st top rest gs kids rank n nd handles' kicks' :
  inv_with σ ((f :: st) :: rest) ((f :: st) ++ gs) kids rank → nodes σ !! n = Some nd →
  top_ok σ f st gs top n nd nd handles' kicks' kids rank →
  inv_with (mkTree (nodes σ) handles' kicks') ((top ++ st) :: rest) ((top ++ st) ++ gs) kids rank.
Proof. intros Hi Hn Ht. rewrite <- (insert_id (nodes σ) n nd) by done. by eapply inv_top. Qed.

(** ** A list of children changes *)

Lemma same_core_cases h h' m : same_core h h' →
  (h !! m = None ∧ h' !! m = None) ∨ ∃ a b, h !! m = Some a ∧ h' !! m = Some b ∧ erase b = erase a.
Proof.
  intros Hs. destruct (h' !! m) as [b|] eqn:Eb.
  - right. destruct (same_core_lookup h h' m b) as (a & ? & ?); [done..|]. eauto.
  - left. specialize (Hs m). rewrite Eb in Hs. destruct (h !! m); [done|done].
Qed.

Lemma erase_fields a b : erase b = erase a →
  refs b = refs a ∧ requested b = requested a ∧ tree_lock b = tree_lock a ∧ is_task b = is_task a
  ∧ owner_tid b = owner_tid a ∧ kick_pending b = kick_pending a ∧ woken b = woken a ∧ kicks_queued b = kicks_queued a.
Proof. unfold erase. intros [=]. split_and!; done. Qed.

Lemma kick_ok_erase fs n a b : erase b = erase a → kick_ok fs n a → kick_ok fs n b.
Proof.
  intros (Er & Erq & _ & Et & Eo & Ep & Ew & Ek)%erase_fields [K1 K2 K3].
  split; unfold kickable; rewrite ?Er, ?Erq, ?Et, ?Eo, ?Ep, ?Ew, ?Ek; done.
Qed.

Lemma frame_ok_core h h' rank f : same_core h h' → frame_ok h rank f → frame_ok h' rank f.
Proof.
  intros Hs. destruct f; cbn; try done.
  - intros (nd & Hn & Hr). destruct (same_core_cases h h' n Hs) as [[? ?]|(a & b & Ha & Hb & E%erase_fields)]; [congruence|].
    exists b. split; [done|]. simplify_eq. destruct E as [-> _]. done.
  - intros [Hr (nd & Hn & Hp)]. split; [done|].
    destruct (same_core_cases h h' c Hs) as [[? ?]|(a & b & Ha & Hb & E%erase_parent)]; [congruence|].
    exists b. split; congruence.
  - intros (nd & Hn & Hp).
    destruct (same_core_cases h h' c Hs) as [[? ?]|(a & b & Ha & Hb & E%erase_parent)]; [congruence|].
    exists b. split; congruence.
Qed.

Lemma visits_kids kids kids' f n c :
  (∀ m, m ∈ lock_of f → kids' m = kids m) → visits kids f n c → visits kids' f n c.
Proof.
  intros Hk. destruct f; cbn; try done.
  - case_match; [|done]. intros [-> ?]. rewrite Hk by (cbn; set_solver). done.
  - intros [-> ?]. rewrite Hk by (cbn; set_solver). done.
Qed.

Lemma in_concat_lock (rest : list (list frame)) call m :
  call ∈ rest → m ∈ call ≫= lock_of → m ∈ concat rest ≫= lock_of.
Proof.
  induction rest as [|a rest IH]; [set_solver|]. cbn. rewrite bind_app, elem_of_app. intros [->|?]%elem_of_cons ?; [by left|].
  right. by apply IH.
Qed.

Lemma in_bind_lock gs f m : f ∈ gs → m ∈ lock_of f → m ∈ gs ≫= lock_of.
Proof. intros. apply list_elem_of_bind. by exists f. Qed.

Record relink_ok σ f (rest : list (list frame)) gs top c cd cd' h' handles' kids kids' rank : Prop := {
  r_core : same_core (<[c := cd']> (nodes σ)) h';
  r_node : erase cd' = erase {| cd with requested := requested cd' |} ∧ (requested cd = true → requested cd' = true);
  r_refs m : occ m handles' + occ m (top ≫= refs_of) = occ m (handles σ) + occ m (refs_of f);
  r_dying : top ≫= dying = dying f;
  r_locks : top ≫= lock_of = [] ∧ lock_of f = [];
  r_linking m : occ m (top ≫= linking) <= occ m (linking f);
  r_parents : parents_ok h' kids' rank ((top ≫= out_of) ++ (gs ≫= out_of));
  r_lists : lists_ok h' kids';
  r_call : call_ok kids' top;
  r_rest m : m ∈ gs ≫= lock_of → kids' m = kids m;
  r_frames : Forall (frame_ok h' rank) top;
  r_kids m md x xd : x ∈ kids' m → h' !! m = Some md → h' !! x = Some xd → requested md = true →
    x ∈ kids m ∧ (m = c → requested cd = true) ∨ requested xd = true;
  r_quiet x m : f ≠ FExchange x ∧ ¬ visits kids f m x ∧ ¬ kicking [f] m ∧ ¬ claimed_kick [f] m
}.

Lemma inv_relink σ f rest gs top c cd cd' h' handles' kids kids' rank :
  gs = concat rest → inv_with σ ([f] :: rest) ([f] ++ gs) kids rank → nodes σ !! c = Some cd →
  relink_ok σ f rest gs top c cd cd' h' handles' kids kids' rank →
  inv_with (mkTree h' handles' (kicks σ)) (top :: rest) (top ++ gs) kids' rank.
Proof.
  intros Hgs [Hpar Hlists Hrefs Hdy Hlk Hln Hfresh Hcalls Hframes Hcov Hkicks] Hc
    [Rcore [Rnode Rmon] Rrefs Rdy [Rlk Rlkf] Rln Rpar Rlists Rcall Rrest Rframes Rkids Rquiet].
  assert (Hch : ∀ m, children h' m = children (nodes σ) m).
  { intros m. rewrite (children_core _ _ _ Rcore). eapply children_insert_same; [done|]. by apply erase_parent in Rnode. }
  assert (Hcase : ∀ m, (nodes σ !! m = None ∧ h' !! m = None) ∨ ∃ a b, nodes σ !! m = Some a ∧ h' !! m = Some b
    ∧ erase b = erase {| a with requested := requested b |} ∧ (requested a = true → requested b = true)
    ∧ (m ≠ c → requested b = requested a)).
  { intros m. destruct (same_core_cases _ _ m Rcore) as [[Hm ?]|(a & b & Ha & Hb & E)].
    - left. apply lookup_insert_None in Hm as [? ?]. done.
    - right. destruct (erase_fields _ _ E) as (_ & Erq & _). apply lookup_insert_Some in Ha as [(<- & <-)|[? Ha]].
      + exists cd, b. rewrite Erq, E. split_and!; done.
      + exists a, b. split_and!; [done..| |congruence|done]. rewrite E, Erq. by destruct a. }
  split; cbn [nodes].
  - by rewrite bind_app.
  - done.
  - intros m. specialize (Hrefs m). specialize (Rrefs m). unfold held in *. cbn [nodes handles kicks]. rewrite Hch.
    rewrite bind_app, occ_app in *. cbn in Hrefs. rewrite app_nil_r in Hrefs.
    destruct (Hcase m) as [[E1 E2]|(a & b & E1 & E2 & E & _)]; rewrite E1 in Hrefs; rewrite E2; [lia|].
    apply erase_fields in E as [-> _]. cbn. lia.
  - intros m. specialize (Hdy m). rewrite bind_app, occ_app, Rdy in *. cbn in Hdy. rewrite app_nil_r in Hdy.
    destruct (Hcase m) as [[E1 E2]|(a & b & E1 & E2 & E & _)]; rewrite E1 in Hdy; rewrite E2; [lia|].
    apply erase_fields in E as [-> _]. cbn. lia.
  - intros m. specialize (Hlk m). rewrite bind_app, occ_app, Rlk in *. cbn in Hlk. rewrite app_nil_r, Rlkf in Hlk.
    destruct (Hcase m) as [[E1 E2]|(a & b & E1 & E2 & E & _)]; rewrite E1 in Hlk; rewrite E2; [lia|].
    apply erase_fields in E as (_ & _ & -> & _). cbn. lia.
  - intros m. specialize (Hln m). specialize (Rln m). rewrite bind_app, occ_app in *. cbn in Hln. rewrite app_nil_r in Hln. lia.
  - intros m Hin. assert (held σ ([f] ++ gs) m = 1) as Hheld.
    { apply Hfresh. revert Hin. specialize (Rln m). rewrite !bind_app, !elem_of_app, !occ_pos. cbn. rewrite app_nil_r. lia. }
    specialize (Rrefs m). unfold held in *. cbn [nodes handles kicks]. rewrite Hch, !bind_app, !occ_app in *.
    cbn in Hheld. rewrite app_nil_r in Hheld. lia.
  - constructor; [done|]. inversion Hcalls as [|? ? _ Hr]; subst. rewrite Forall_forall in *. intros call Hcall.
    eapply call_ok_kids; [|by apply Hr]. intros m Hm. apply Rrest. by eapply in_concat_lock.
  - apply Forall_app. split; [done|]. apply Forall_app in Hframes as [_ Hg]. eapply Forall_impl; [done|].
    intros g Hgok. eapply frame_ok_core; [done|]. eapply frame_ok_touch; [done|by apply erase_parent in Rnode| |done].
    apply erase_fields in Rnode as [-> _]. done.
  - intros m md x xd Hm Hr Hx Hxd. destruct (Rkids m md x xd) as [[Hk Hold]|]; [done..| |by left].
    destruct (Hcase m) as [[? ?]|(ma & mb & Hma & Hmb & _ & _ & Hmr)]; [congruence|].
    destruct (Hcase x) as [[? ?]|(xa & xb & Hxa & Hxb & _ & Hxr & _)]; [congruence|]. simplify_eq.
    assert (requested ma = true) as Hrm.
    { destruct (decide (m = c)) as [->|Hne]; [|rewrite <- Hmr; done]. simplify_eq. by apply Hold. }
    destruct (Hcov m ma x xa) as [?|[Hin|(g & Hin & Hv)]]; [done..|left; auto| |].
    + apply elem_of_app in Hin as [Hin|Hin]; [|right; left; set_solver].
      apply list_elem_of_singleton in Hin. by destruct (Rquiet x m) as (? & _).
    + apply elem_of_app in Hin as [Hin|Hin].
      * apply list_elem_of_singleton in Hin. subst g. destruct (Rquiet x m) as (_ & ? & _). done.
      * right; right. exists g. split; [set_solver|]. eapply visits_kids; [|done]. intros y Hy. apply Rrest.
        by eapply in_bind_lock.
  - intros m md Hm. destruct (Hcase m) as [[? ?]|(a & b & Ha & Hb & E & Hrq & _)]; [congruence|]. assert (b = md) as -> by congruence.
    eapply kick_ok_erase; [exact E|]. destruct (Hkicks m a Ha) as [K1 K2 K3]. destruct (Rquiet c m) as (_ & _ & Q1 & Q2).
    split; cbn.
    + destruct K1 as [?|[? ?]]; [by left|right; auto].
    + intros H%K2. rewrite ?claimed_app in *. tauto.
    + intros H1 H2. specialize (K3 H1 H2). rewrite ?kicking_app in *. tauto.
Qed.
End steps.
End CancelTreeSteps.
