(* ===== verification/CancelTreeRun.v ===== *)
(** The steps of the calls on the cancellation tree, one by one. *)

From S2P Require Import Prelude CancelTree CancelTreeShape CancelTreeInv CancelTreeSteps.

Module CancelTreeRun.
Import CancelTree CancelTreeShape CancelTreeInv CancelTreeSteps.
Implicit Types (h : heap) (n p c x m : ptr) (nd : node) (f : frame) (fs gs call st : list frame) (σ : tree).

(** Membership of kick frames, one frame at a time. *)
Definition is_kick f m : Prop :=
  match f with FKickOwner n | FKickPending n | FKickRef n | FKickPush n | FCheck n => n = m | _ => False end.
Definition is_claim f m : Prop := match f with FKickRef n | FKickPush n => n = m | _ => False end.

Lemma kicking_cons f fs m : kicking (f :: fs) m ↔ is_kick f m ∨ kicking fs m.
Proof. unfold kicking. rewrite !elem_of_cons. destruct f; cbn; naive_solver. Qed.
Lemma claimed_cons f fs m : claimed_kick (f :: fs) m ↔ is_claim f m ∨ claimed_kick fs m.
Proof. unfold claimed_kick. rewrite !elem_of_cons. destruct f; cbn; naive_solver. Qed.
Lemma kicking_nil m : ¬ kicking [] m.
Proof. unfold kicking. set_solver. Qed.
Lemma claimed_nil m : ¬ claimed_kick [] m.
Proof. unfold claimed_kick. set_solver. Qed.

Ltac kick_simpl :=
  rewrite ?kicking_cons, ?claimed_cons in *; cbn [is_kick is_claim app] in *.
Ltac counts :=
  intros m; cbn; try match goal with H : tree_lock _ = _ |- _ => rewrite !H end; rewrite ?occ_app, ?occ_cons, ?occ_nil; repeat case_decide; simplify_eq; try done;
  repeat match goal with |- context [?a =? ?b] => destruct (Z.eqb_spec a b) end; try done; lia.
Ltac others := intros m Hm; kick_simpl; split; (intros [Hx|Hx]; [done || congruence|]);
  [by apply kicking_nil in Hx|by apply claimed_nil in Hx].
(** The conditions of [top_ok] that are the same for every step. *)
Ltac top := split;
  [ done | counts | counts | counts | done | try (left; done) | split; [done|cbn; set_solver] | idtac
  | rewrite ?Forall_cons, ?Forall_nil; cbn; try done | cbn; try done; try lia | cbn; try done | cbn; try done; try congruence
  | intros m c' Hc' [Hf|Hv]; [try by simplify_eq|try done]
  | intros [K1 K2 K3]; split; cbn in *; kick_simpl; try tauto; try done
  | others ].

Section run.
Context (thread_count : Z).
Abbreviation inv_with := (inv_with thread_count).

Definition advances σ call rest gs : Prop := ∃ call' σ' kids rank,
  run thread_count call σ = Done (call', σ') ∧ inv_with σ' (call' :: rest) (call' ++ gs) kids rank.

Section one.
Context σ st (rest : list (list frame)) gs (kids : ptr → list ptr) (rank : ptr → nat).
Abbreviation now f := (inv_with σ ((f :: st) :: rest) ((f :: st) ++ gs) kids rank).

Lemma top_ref f n : now f → n ∈ refs_of f → ∃ nd, nodes σ !! n = Some nd ∧ 0 < refs nd.
Proof.
  intros Hi Hin. eapply ref_live; [exact Hi|]. cbn. rewrite !elem_of_app. tauto.
Qed.

Lemma st_ref f m : m ∈ st ≫= refs_of → m ∈ ((f :: st) ++ gs) ≫= refs_of.
Proof. cbn. rewrite bind_app, !elem_of_app. tauto. Qed.

Lemma top_chain f n : now f → chain kids n st → ∃ nd, nodes σ !! n = Some nd.
Proof. intros Hi. eapply chain_live; [exact Hi|apply st_ref]. Qed.
Lemma top_kick f n : now f → below_kick kids n st → ∃ nd, nodes σ !! n = Some nd.
Proof. intros Hi. eapply below_kick_live; [exact Hi|apply st_ref]. Qed.

Lemma top_call f : now f → call_ok kids (f :: st).
Proof. intros Hi. pose proof (i_calls _ _ _ _ _ _ Hi) as Hc. by inversion Hc. Qed.

Lemma refs_ge0 f n nd : now f → nodes σ !! n = Some nd → 0 <= refs nd.
Proof.
  intros Hi Hn. pose proof (i_refs _ _ _ _ _ _ Hi n) as Hr. rewrite Hn in Hr. rewrite Hr. unfold held.
  pose proof (children_ge0 (nodes σ) n). pose proof (occ_ge0 n (handles σ)). pose proof (occ_ge0 n (kicks σ)).
  pose proof (occ_ge0 n (((f :: st) ++ gs) ≫= refs_of)). lia.
Qed.

Lemma kick_fresh f n : now f → below_kick kids n st → linking f = [] → n ∉ (st ++ gs) ≫= linking.
Proof.
  intros Hi Hb Hf. assert (n ∉ ((f :: st) ++ gs) ≫= linking) as Hn.
  { assert (chain kids n st ∨ ∃ st', st = FLock n :: st' ∧ chain kids n st') as [Hch|(st' & E & Hch)].
    { clear Hi. destruct st as [|[] st']; cbn in Hb; try done; [injection Hb as -> ->; by left|].
      destruct Hb as [-> ?]. right. by exists st'. }
    - eapply chain_not_linking; [exact Hi| |exact Hch]. set_solver.
    - eapply chain_not_linking; [exact Hi| |exact Hch]. rewrite E. set_solver. }
  cbn in Hn. by rewrite Hf in Hn.
Qed.

(** Only frames change. *)
Lemma inv_frames f top n nd : now f → nodes σ !! n = Some nd →
  top_ok thread_count σ f st gs top n nd nd (handles σ) (kicks σ) kids rank →
  inv_with σ ((top ++ st) :: rest) ((top ++ st) ++ gs) kids rank.
Proof.
  intros Hi Hn Ht. replace σ with (mkTree (nodes σ) (handles σ) (kicks σ)) by (by destruct σ).
  by eapply inv_top_same.
Qed.

Lemma run_pin n : now (FPin n) → advances σ (FPin n :: st) rest gs.
Proof.
  intros Hi. destruct (top_ref _ n Hi) as (nd & Hn & Hr); [set_solver|]. pose proof (top_call _ Hi) as Hst. cbn in Hst.
  eexists _, _, kids, rank. split; [reflexivity|].
  apply (inv_top_same _ σ (FPin n) st [] rest gs kids rank n nd); [done..|]. top. by subst.
Qed.

Lemma run_exchange n : now (FExchange n) → advances σ (FExchange n :: st) rest gs.
Proof.
  intros Hi. pose proof (top_call _ Hi) as Hst. cbn in Hst. destruct (top_chain _ n Hi Hst) as (nd & Hn).
  unfold advances. cbn [run request_cancel kick link release process_kick adopt]. rewrite Hn. orun. destruct (requested nd) eqn:Er.
  - eexists _, _, kids, rank. split; [reflexivity|].
    apply (inv_frames (FExchange n) [] n nd); [done..|]. top.
    + by eapply chain_call_ok.
    + simplify_eq. by left.
  - unfold touch. rewrite (upd_Some n _ _ nd) by done. orun. eexists _, _, kids, rank. split; [reflexivity|].
    change (?a ++ FLock n :: st) with (a ++ [FLock n] ++ st). rewrite app_assoc.
    eapply (inv_top _ σ (FExchange n) st _ rest gs kids rank n nd); [done..|].
    destruct (is_task nd) eqn:Et; cbn [app]; top.
    + done.
    + set_solver.
    + simplify_eq. by left.
    + destruct K1 as [->|[_ ?]]; [by right|congruence].
    + done.
    + set_solver.
    + simplify_eq. by left.
    + destruct K1 as [->|[_ ?]]; [by right|congruence].
Qed.

Lemma run_kick_owner n : now (FKickOwner n) → advances σ (FKickOwner n :: st) rest gs.
Proof.
  intros Hi. pose proof (top_call _ Hi) as Hst. cbn in Hst. destruct (top_kick _ n Hi Hst) as (nd & Hn).
  unfold advances. cbn [run request_cancel kick link release process_kick adopt]. rewrite Hn. orun. destruct ((_ <? 0) || _) eqn:Eo; eexists _, _, kids, rank; (split; [reflexivity|]).
  - apply (inv_frames (FKickOwner n) [] n nd); [done..|]. top.
    + by eapply below_kick_call_ok.
    + unfold kickable. rewrite Eo. cbn. rewrite andb_false_r. done.
  - apply (inv_frames (FKickOwner n) [FKickPending n] n nd); [done..|]. top. done.
Qed.

Lemma run_kick_pending n : now (FKickPending n) → advances σ (FKickPending n :: st) rest gs.
Proof.
  intros Hi. pose proof (top_call _ Hi) as Hst. cbn in Hst. destruct (top_kick _ n Hi Hst) as (nd & Hn).
  unfold advances. cbn [run request_cancel kick link release process_kick adopt]. rewrite Hn. orun. destruct (kick_pending nd) eqn:Ek.
  - eexists _, _, kids, rank; (split; [reflexivity|]). apply (inv_frames (FKickPending n) [] n nd); [done..|]. top.
    + by eapply below_kick_call_ok.
    + intros _ _. destruct (K2 Ek) as [?|[?|[[]|Hcl]]]; [tauto..|]. right; right. unfold kicking, claimed_kick in *. tauto.
  - unfold touch. rewrite (upd_Some n _ _ nd) by done. orun. eexists _, _, kids, rank. split; [reflexivity|].
    eapply (inv_top _ σ (FKickPending n) st [FKickRef n] rest gs kids rank n nd); [done..|]. top.
    done.
Qed.

Lemma run_kick_ref n : now (FKickRef n) → advances σ (FKickRef n :: st) rest gs.
Proof.
  intros Hi. pose proof (top_call _ Hi) as Hst. cbn in Hst. destruct (top_kick _ n Hi Hst) as (nd & Hn).
  unfold advances. cbn [run request_cancel kick link release process_kick adopt]. rewrite Hn. orun. pose proof (refs_ge0 _ _ _ Hi Hn).
  destruct (Z.eqb_spec (refs nd) 0) as [Er|Er].
  - eexists _, _, kids, rank; (split; [reflexivity|]). apply (inv_frames (FKickRef n) [FKickUndo n] n nd); [done..|]. top.
    + done.
    + split; [|done]. exists nd. rewrite lookup_insert_eq. done.
  - unfold touch. rewrite (upd_Some n _ _ nd) by done. orun. eexists _, _, kids, rank. split; [reflexivity|].
    eapply (inv_top _ σ (FKickRef n) st [FKickPush n] rest gs kids rank n nd); [done..|]. top.
    + right. by eapply kick_fresh.
    + done.
Qed.

Lemma run_kick_undo n : now (FKickUndo n) → advances σ (FKickUndo n :: st) rest gs.
Proof.
  intros Hi. pose proof (top_call _ Hi) as Hst. cbn in Hst.
  pose proof (i_frames _ _ _ _ _ _ Hi) as [(nd & Hn & Hr) _]%Forall_cons.
  unfold advances. cbn [run request_cancel kick link release process_kick adopt]. unfold touch. rewrite (upd_Some n _ _ nd) by done. orun.
  eexists _, _, kids, rank. split; [reflexivity|].
  eapply (inv_top _ σ (FKickUndo n) st [] rest gs kids rank n nd); [done..|]. top. by eapply below_kick_call_ok.
Qed.

Lemma run_kick_push n : now (FKickPush n) → advances σ (FKickPush n :: st) rest gs.
Proof.
  intros Hi. pose proof (top_call _ Hi) as Hst. cbn in Hst. destruct (top_ref _ n Hi) as (nd & Hn & Hr); [set_solver|].
  unfold advances. cbn [run request_cancel kick link release process_kick adopt]. unfold touch. cbn [nodes]. rewrite (upd_Some n _ _ nd) by done. orun.
  eexists _, _, kids, rank. split; [reflexivity|].
  eapply (inv_top _ σ (FKickPush n) st [] rest gs kids rank n nd); [done..|]. top.
  - by eapply below_kick_call_ok.
  - intros _. left. lia.
  - intros _ _. left. lia.
Qed.

Lemma run_lock n : now (FLock n) → advances σ (FLock n :: st) rest gs.
Proof.
  intros Hi. pose proof (top_call _ Hi) as Hst. cbn in Hst. destruct (top_chain _ n Hi Hst) as (nd & Hn).
  unfold advances. cbn [run request_cancel kick link release process_kick adopt]. rewrite Hn. orun. destruct (tree_lock nd) eqn:El.
  { by eexists _, _, kids, rank. }
  unfold touch. rewrite (upd_Some n _ _ nd) by done. orun. eexists _, _, kids, rank. split; [reflexivity|].
  destruct (i_lists _ _ _ _ _ _ Hi n nd Hn) as [Ef _].
  eapply (inv_top _ σ (FLock n) st [FWalk n (first_child nd)] rest gs kids rank n nd); [done..|]. top.
  - cbn. rewrite Ef. destruct (kids n) as [|y l] eqn:Ek; [done|]. cbn. split; [set_solver|done].
  - cbn in Hv. subst m. right; right. exists (FWalk n (first_child nd)). split; [set_solver|]. rewrite Ef.
    destruct (kids n) as [|y l] eqn:Ek; [set_solver|]. cbn. rewrite Ek. split; [done|]. cbn. rewrite decide_True by done.
    set_solver.
Qed.

Lemma run_walk n (at_ : option ptr) : now (FWalk n at_) → advances σ (FWalk n at_ :: st) rest gs.
Proof.
  intros Hi. pose proof (top_call _ Hi) as Hst. cbn in Hst.
  destruct at_ as [c|].
  - destruct Hst as [Hc Hst]. destruct (top_chain _ n Hi Hst) as (nd & Hn).
    eexists _, _, kids, rank. split; [reflexivity|].
    apply (inv_frames (FWalk n (Some c)) [FExchange c; FReturn n c] n nd); [done..|]. top.
    + done.
    + destruct Hv as [<- [->|Hv]]; [right; left; set_solver|]. right; right. exists (FReturn n c). set_solver.
  - destruct (top_chain _ n Hi Hst) as (nd & Hn). unfold advances. cbn [run request_cancel kick link release process_kick adopt]. unfold touch.
    rewrite (upd_Some n _ _ nd) by done. orun. eexists _, _, kids, rank. split; [reflexivity|].
    assert (Hl : tree_lock nd = true).
    { pose proof (i_locks _ _ _ _ _ _ Hi n) as Hl. rewrite Hn in Hl. destruct (tree_lock nd); [done|]. exfalso.
      revert Hl. cbn. rewrite occ_cons, decide_True by done. pose proof (occ_ge0 n ((st ++ gs) ≫= lock_of)). lia. }
    eapply (inv_top _ σ (FWalk n None) st [] rest gs kids rank n nd); [done..|]. top. by eapply chain_call_ok.
Qed.

Lemma run_return n c : now (FReturn n c) → advances σ (FReturn n c :: st) rest gs.
Proof.
  intros Hi. pose proof (top_call _ Hi) as [Hc Hst]. destruct (top_chain _ n Hi Hst) as (nd & Hn).
  destruct (po_kid _ _ _ _ (i_parents _ _ _ _ _ _ Hi) _ _ Hc) as (cd & Hcd & _).
  unfold advances. cbn [run request_cancel kick link release process_kick adopt]. rewrite Hcd. orun. eexists _, _, kids, rank. split; [reflexivity|].
  destruct (i_lists _ _ _ _ _ _ Hi n nd Hn) as [_ Hs]. pose proof (po_nodup _ _ _ _ (i_parents _ _ _ _ _ _ Hi) n) as Hnd.
  rewrite (seg_next _ _ _ _ _ Hs Hnd Hc Hcd).
  apply (inv_frames (FReturn n c) [FWalk n (head (after c (kids n)))] n nd); [done..|]. top.
  - cbn. destruct (head (after c (kids n))) as [y|] eqn:Ey; [|done]. split; [|done]. by eapply after_next.
  - destruct Hv as [<- Hv]. right; right. eexists. split; [by apply list_elem_of_singleton|].
    destruct (head (after c (kids n))) as [y|] eqn:Ey.
    + apply after_next in Ey as [Hy E]; [|done..]. rewrite E in Hv. cbn. split; [done|]. set_solver.
    + destruct (after c (kids n)); [set_solver|done].
Qed.

Lemma run_dec n : now (FDec n) → advances σ (FDec n :: st) rest gs.
Proof.
  intros Hi. pose proof (top_call _ Hi) as Hst. cbn in Hst. destruct (top_ref _ n Hi) as (nd & Hn & Hr); [set_solver|].
  unfold advances. cbn [run request_cancel kick link release process_kick adopt]. rewrite Hn. orun. unfold touch. rewrite (upd_Some n _ _ nd) by done. orun.
  eexists _, _, kids, rank. split; [reflexivity|].
  assert (Hk : ∀ P Q : Prop, P ∨ refs nd = 0 ∨ Q → P ∨ refs nd - 1 = 0 ∨ Q) by (intros P Q [|[|]]; [tauto|lia|tauto]).
  assert (Hfr : n ∉ (st ++ gs) ≫= linking).
  { apply (not_linking _ σ _ _ _ _ n Hi). left. cbn. set_solver. }
  destruct (Z.eqb_spec (refs nd) 1).
  - apply (inv_top _ σ (FDec n) st [FUnlink n] rest gs kids rank n nd); [done..|]. top.
    + by right.
    + done.
    + intros H%K2. apply Hk. tauto.
    + intros H1 H2. apply Hk. tauto.
  - apply (inv_top _ σ (FDec n) st [] rest gs kids rank n nd); [done..|]. top.
    + by right.
    + by subst st.
    + intros H%K2. apply Hk. tauto.
    + intros H1 H2. apply Hk. tauto.
Qed.

Lemma run_proc n : now (FProc n) → advances σ (FProc n :: st) rest gs.
Proof.
  intros Hi. pose proof (top_call _ Hi) as Hst. cbn in Hst. destruct (top_ref _ n Hi) as (nd & Hn & Hr); [set_solver|].
  unfold advances. cbn [run request_cancel kick link release process_kick adopt]. unfold touch. rewrite (upd_Some n _ _ nd) by done. orun.
  eexists _, _, kids, rank. split; [reflexivity|].
  apply (inv_top _ σ (FProc n) st [FHook n] rest gs kids rank n nd); [done..|]. top. done.
Qed.

Lemma run_hook n : now (FHook n) → advances σ (FHook n :: st) rest gs.
Proof.
  intros Hi. pose proof (top_call _ Hi) as Hst. cbn in Hst. destruct (top_ref _ n Hi) as (nd & Hn & Hr); [set_solver|].
  unfold advances. cbn [run request_cancel kick link release process_kick adopt]. rewrite Hn. orun. eexists _, _, kids, rank. split; [reflexivity|].
  apply (inv_frames (FHook n) [FDec n] n nd); [done..|]. top. done.
Qed.

Lemma run_finish n : now (FFinish n) → advances σ (FFinish n :: st) rest gs.
Proof.
  intros Hi. pose proof (top_call _ Hi) as Hst. cbn in Hst. destruct (top_ref _ n Hi) as (nd & Hn & Hr); [set_solver|].
  unfold advances. cbn [run request_cancel kick link release process_kick adopt]. unfold touch. rewrite (upd_Some n _ _ nd) by done. orun.
  eexists _, _, kids, rank. split; [reflexivity|].
  apply (inv_top _ σ (FFinish n) st [FDec n] rest gs kids rank n nd); [done..|]. top. done.
Qed.

Lemma run_owner n tid : now (FOwner n tid) → advances σ (FOwner n tid :: st) rest gs.
Proof.
  intros Hi. pose proof (top_call _ Hi) as Hst. cbn in Hst.
  destruct (top_chain _ n Hi) as (nd & Hn); [by rewrite Hst|].
  unfold advances. cbn [run request_cancel kick link release process_kick adopt]. unfold touch. rewrite (upd_Some n _ _ nd) by done. orun.
  eexists _, _, kids, rank. split; [reflexivity|].
  apply (inv_top _ σ (FOwner n tid) st [FCheck n] rest gs kids rank n nd); [done..|]. top. done.
Qed.

Lemma run_tree_check n : now (FCheck n) → advances σ (FCheck n :: st) rest gs.
Proof.
  intros Hi. pose proof (top_call _ Hi) as Hst. cbn in Hst.
  destruct (top_chain _ n Hi) as (nd & Hn); [by rewrite Hst|].
  unfold advances. cbn [run request_cancel kick link release process_kick adopt]. rewrite Hn. orun. eexists _, _, kids, rank. split; [reflexivity|].
  destruct (requested nd) eqn:Er.
  - apply (inv_frames (FCheck n) [FKickOwner n] n nd); [done..|]. top. by rewrite Hst.
  - apply (inv_frames (FCheck n) [] n nd); [done..|]. top; [by rewrite Hst|].
    intros _ Hw. destruct K1 as [K1|[_ ?]]; [lia|congruence].
Qed.
End one.

Section relinking.
Context σ (rest : list (list frame)) gs (kids : ptr → list ptr) (rank : ptr → nat) (Hgs : gs = concat rest).
Abbreviation now f := (inv_with σ ([f] :: rest) ([f] ++ gs) kids rank).

Lemma parent_live f c cd p : now f → nodes σ !! c = Some cd → parent cd = Some p →
  ∃ pn, nodes σ !! p = Some pn ∧ 0 < refs pn.
Proof.
  intros Hi Hc Hp. pose proof (i_refs _ _ _ _ _ _ Hi p) as Hr. unfold held in Hr.
  pose proof (children_pos _ _ _ _ Hc Hp). pose proof (occ_ge0 p (handles σ)). pose proof (occ_ge0 p (kicks σ)).
  pose proof (occ_ge0 p (([f] ++ gs) ≫= refs_of)).
  destruct (nodes σ !! p) as [pn|]; [exists pn; split; [done|lia]|lia].
Qed.

(** No call walks over the children of a node whose lock is free. *)
Lemma unlocked f p pn : now f → nodes σ !! p = Some pn → tree_lock pn = false → p ∉ gs ≫= lock_of.
Proof.
  intros Hi Hp Hl. pose proof (i_locks _ _ _ _ _ _ Hi p) as Hk. rewrite Hp, Hl, bind_app, occ_app in Hk.
  apply occ_zero. pose proof (occ_ge0 p ([f] ≫= lock_of)). pose proof (occ_ge0 p (gs ≫= lock_of)). lia.
Qed.

(** A node that is to be deleted is not in the way of being linked, nor deleted twice. *)
Lemma dying_once f n : now f → n ∈ dying f → n ∉ gs ≫= out_of.
Proof.
  intros Hi Hd Hin. assert (n ∈ ([f] ++ gs) ≫= dying) as Hd' by (rewrite bind_app; cbn; set_solver).
  destruct (dying_live _ _ _ _ _ _ _ Hi Hd') as (nd & Hn & Hr).
  apply list_elem_of_bind in Hin as (g & Hg & Hgin). destruct g; cbn in Hg; try (by apply not_elem_of_nil in Hg);
    apply list_elem_of_singleton in Hg; subst.
  - destruct (ref_live _ _ _ _ _ _ c Hi) as (cd & ? & ?); [|naive_solver lia].
    rewrite !elem_of_app. right; right. apply list_elem_of_bind. exists (FLinkSection p c). split; [cbn; set_solver|set_solver].
  - pose proof (i_dying _ _ _ _ _ _ Hi n0) as Ho. rewrite Hn, Hr, bind_app, occ_app in Ho. cbn in Ho.
    assert (0 < occ n0 (concat rest ≫= dying)).
    { apply occ_pos, list_elem_of_bind. exists (FDelete n0). split; [cbn; set_solver|done]. }
    rewrite app_nil_r in Ho. apply occ_pos in Hd. lia.
Qed.

Lemma run_unlink n : now (FUnlink n) → advances σ [FUnlink n] rest gs.
Proof.
  intros Hi. destruct (dying_live _ _ _ _ _ _ n Hi) as (nd & Hn & Hr); [cbn; set_solver|].
  unfold advances. cbn [run request_cancel kick link release process_kick adopt]. rewrite Hn. orun. destruct (parent nd) as [p|] eqn:Ep.
  2:{ eexists _, _, kids, rank. split; [reflexivity|].
      apply (inv_frames σ [] rest gs kids rank (FUnlink n) [FDelete n] n nd); [done..|]. top. done. }
  destruct (parent_live _ _ _ _ Hi Hn Ep) as (pn & Hp & Hpr). rewrite Hp. orun.
  destruct (tree_lock pn) eqn:El; [by eexists _, _, kids, rank|].
  pose proof (unlocked _ _ _ Hi Hp El) as Hun.
  assert (n ∈ kids p) as Hin.
  { eapply po_linked; [apply Hi|done..|]. rewrite bind_app. cbn. apply (dying_once _ _ Hi). cbn. set_solver. }
  apply list_elem_of_split in Hin as (a & b & Ek).
  destruct (unlink_section_spec (nodes σ) kids rank (([FUnlink n] ++ gs) ≫= out_of) p n pn nd a b)
    as (h' & -> & Hpar & Hlists & Hcore); [apply Hi|apply Hi|done..|]. orun.
  eexists _, _, (set_kids kids p (a ++ b)), rank. split; [reflexivity|].
  apply (inv_relink _ σ (FUnlink n) rest gs [FDelete n] n nd nd h' (handles σ) kids); [done..|]. split.
  - by rewrite insert_id.
  - split; [by destruct nd|done].
  - counts.
  - done.
  - done.
  - counts.
  - done.
  - done.
  - done.
  - intros m Hm. apply set_kids_ne. intros ->. done.
  - by constructor.
  - intros m md x xd Hx Hm Hxd Hmr. left. split.
    + revert Hx. unfold set_kids. case_decide; [|done]. subst. rewrite Ek. set_solver.
    + intros ->. destruct (same_core_lookup _ _ _ _ Hcore Hm) as (md' & ? & E%erase_fields). destruct E as (_ & ? & _). congruence.
  - intros x m. split_and!; [done|by intros []|..]; intros H; kick_simpl; destruct H as [[]|H];
      (by apply kicking_nil in H) || (by apply claimed_nil in H).
Qed.

Lemma run_link_section p c : now (FLinkSection p c) → advances σ [FLinkSection p c] rest gs.
Proof.
  intros Hi. destruct (top_ref σ [] rest gs kids rank _ p Hi) as (pn & Hp & Hpr); [set_solver|].
  pose proof (i_frames _ _ _ _ _ _ Hi) as [(cd & Hc & Hcp) _]%Forall_cons.
  unfold advances. cbn [run request_cancel kick link release process_kick adopt]. rewrite Hp. orun. destruct (tree_lock pn) eqn:El; [by eexists _, _, kids, rank|].
  pose proof (unlocked _ _ _ Hi Hp El) as Hun.
  assert (Hkc : kids c = []).
  { destruct (kids c) as [|x l] eqn:Ek; [done|]. exfalso.
    destruct (po_kid _ _ _ _ (i_parents _ _ _ _ _ _ Hi) c x) as (xd & Hx & Hxp); [rewrite Ek; set_solver|].
    pose proof (i_fresh _ _ _ _ _ _ Hi c) as Hf. unfold held in Hf. pose proof (children_pos _ _ _ _ Hx Hxp).
    pose proof (occ_ge0 c (handles σ)). pose proof (occ_ge0 c (kicks σ)).
    assert (0 < occ c (([FLinkSection p c] ++ gs) ≫= refs_of)) by (apply occ_pos; cbn; set_solver).
    specialize (Hf ltac:(cbn; set_solver)). lia. }
  assert (c ∉ gs ≫= out_of) as Hout.
  { pose proof (i_linking _ _ _ _ _ _ Hi c) as Hl. rewrite bind_app, occ_app in Hl. cbn in Hl. rewrite occ_cons, decide_True in Hl by done.
    intros (g & Hg & Hgin)%list_elem_of_bind. destruct g; cbn in Hg; try (by apply not_elem_of_nil in Hg);
      apply list_elem_of_singleton in Hg; subst.
    - assert (0 < occ c0 (concat rest ≫= linking)); [|cbn in Hl; rewrite occ_nil in Hl; lia].
      apply occ_pos, list_elem_of_bind. exists (FLinkSection p0 c0). split; [cbn; set_solver|done].
    - destruct (dying_live _ _ _ _ _ _ n Hi) as (nd & ? & ?).
      { rewrite bind_app. apply elem_of_app. right. apply list_elem_of_bind. exists (FDelete n). split; [cbn; set_solver|done]. }
      destruct (top_ref σ [] rest _ kids rank _ n Hi) as (? & ? & ?); [set_solver|]. naive_solver lia. }
  destruct (link_section_spec (nodes σ) kids rank (gs ≫= out_of) p c pn cd)
    as (h' & -> & Hpar & Hlists & Hcore); [apply Hi|apply Hi|done..|]. orun.
  eexists _, _, (set_kids kids p (c :: kids p)), rank. split; [reflexivity|].
  eapply (inv_relink _ σ (FLinkSection p c) rest gs [] c cd _ h' _ kids); [done..|]. split.
  - exact Hcore.
  - split; [by destruct cd|]. cbn. by intros ->.
  - counts.
  - done.
  - done.
  - counts.
  - done.
  - done.
  - done.
  - intros m Hm. apply set_kids_ne. intros ->. done.
  - by constructor.
  - intros m md x xd Hx Hm Hxd Hmr.
    assert (p ≠ c) as Hpc. { intros ->. pose proof (po_rank _ _ _ _ (i_parents _ _ _ _ _ _ Hi) _ _ _ Hc Hcp). lia. }
    destruct (decide (m = c)) as [->|Hmc]; [rewrite set_kids_ne, Hkc in Hx by done; set_solver|].
    revert Hx. unfold set_kids. case_decide; [subst m|by left]. intros [->|Hx]%elem_of_cons; [|by left]. right.
    destruct (same_core_lookup _ _ _ _ Hcore Hm) as (md' & Hmd & E%erase_fields). destruct E as (_ & Em & _).
    destruct (same_core_lookup _ _ _ _ Hcore Hxd) as (xd' & Hxd' & E%erase_fields). destruct E as (_ & Ex & _).
    rewrite lookup_insert_ne in Hmd by done. rewrite lookup_insert_eq in Hxd'. simplify_eq. rewrite Ex. cbn.
    rewrite <- Em, Hmr. apply orb_true_r.
  - intros x m. split_and!; [done|by intros []|..]; intros H; kick_simpl; destruct H as [[]|H];
      (by apply kicking_nil in H) || (by apply claimed_nil in H).
Qed.

Lemma linking_gs f c g : now f → c ∈ linking f → g ∈ gs → c ∉ linking g.
Proof.
  intros Hi Hf Hg Hin. pose proof (i_linking _ _ _ _ _ _ Hi c) as Hl. rewrite bind_app, occ_app in Hl. cbn in Hl.
  rewrite app_nil_r in Hl. apply occ_pos in Hf.
  assert (0 < occ c (gs ≫= linking)); [|lia]. apply occ_pos, list_elem_of_bind. by exists g.
Qed.

Lemma run_link_ref p c : now (FLinkRef p c) → advances σ [FLinkRef p c] rest gs.
Proof.
  intros Hi. destruct (top_ref σ [] rest gs kids rank _ p Hi) as (pn & Hp & Hpr); [set_solver|].
  pose proof (i_frames _ _ _ _ _ _ Hi) as [(Hrk & cd & Hc & Hcp) Hfg]%Forall_cons.
  assert (Hpc : p ≠ c) by (intros ->; lia).
  unfold advances. cbn [run request_cancel kick link release process_kick adopt]. rewrite (upd_Some p _ _ pn) by done. orun.
  rewrite (upd_Some c _ _ cd) by (by rewrite lookup_insert_ne). orun. eexists _, _, kids, rank. split; [reflexivity|].
  set (pn' := {| pn with refs := refs pn + 1 |}). set (cd' := {| cd with parent := Some p |}).
  set (h' := <[c := cd']> (<[p := pn']> (nodes σ))).
  assert (Hcase : ∀ m, (m = c ∧ h' !! m = Some cd') ∨ (m = p ∧ h' !! m = Some pn') ∨ (m ≠ c ∧ m ≠ p ∧ h' !! m = nodes σ !! m)).
  { intros m. subst h'. destruct (decide (m = c)) as [->|]; [rewrite lookup_insert_eq; auto|].
    destruct (decide (m = p)) as [->|]; [rewrite lookup_insert_ne, lookup_insert_eq by done; auto|].
    rewrite !lookup_insert_ne by done. auto. }
  assert (Hch : ∀ m, children h' m = children (nodes σ) m + (if decide (p = m) then 1 else 0)).
  { intros m. subst h'. rewrite (children_insert _ c cd) by (by rewrite lookup_insert_ne). rewrite Hcp.
    rewrite (children_insert_same _ p pn) by done. cbn. repeat case_decide; simplify_eq; lia. }
  pose proof Hi as [Hpar Hlists Hrefs Hdy Hlk Hln Hfresh Hcalls Hframes Hcov Hkicks].
  split; cbn [nodes with_nodes].
  - destruct Hpar as [P1 P2 P3 P4 P5 P6]. split.
    + intros m Hm. apply P1. destruct (Hcase m) as [(-> & E)|[(-> & E)|(_ & _ & E)]]; congruence.
    + intros m x (xd & Hx & Hxp)%P2. destruct (Hcase x) as [(-> & E)|[(-> & E)|(_ & _ & E)]].
      * congruence.
      * exists pn'. split; [done|]. cbn. congruence.
      * exists xd. split; congruence.
    + done.
    + intros x xd q Hx Hxq Hxo. destruct (Hcase x) as [(-> & E)|[(-> & E)|(_ & _ & E)]].
      * exfalso. apply Hxo. cbn. set_solver.
      * rewrite E in Hx. simplify_eq. eapply P4; [done..|]. rewrite bind_app in *. cbn in *. set_solver.
      * rewrite E in Hx. eapply P4; [done..|]. rewrite bind_app in *. cbn in *. set_solver.
    + intros m x. rewrite bind_app. cbn. intros [->|Hx]%elem_of_cons; [|apply P5; rewrite bind_app; cbn; set_solver].
      intros (xd & ? & ?)%P2. congruence.
    + intros x xd q Hx Hxq. destruct (Hcase x) as [(-> & E)|[(-> & E)|(_ & _ & E)]]; rewrite E in Hx; simplify_eq; [|by eapply P6..].
      cbn in Hxq. by simplify_eq.
  - subst h'. eapply lists_ok_scalar; [by rewrite lookup_insert_ne|done|done|]. by eapply lists_ok_scalar.
  - intros m. specialize (Hrefs m). unfold held in *. cbn [nodes with_nodes handles kicks]. rewrite Hch.
    rewrite bind_app, occ_app in *. cbn [mbind list_bind refs_of app] in *.
    destruct (Hcase m) as [(-> & E)|[(-> & E)|(? & ? & E)]]; rewrite E.
    + rewrite Hc in Hrefs. rewrite decide_False by done. cbn. lia.
    + rewrite Hp in Hrefs. rewrite decide_True by done. cbn. lia.
    + rewrite decide_False by done. destruct (nodes σ !! m); lia.
  - intros m. specialize (Hdy m). rewrite bind_app, occ_app in *. cbn [mbind list_bind dying app] in *.
    destruct (Hcase m) as [(-> & E)|[(-> & E)|(? & ? & E)]]; rewrite E; [by rewrite Hc in Hdy| |done].
    rewrite Hp in Hdy. cbn. destruct (Z.eqb_spec (refs pn) 0), (Z.eqb_spec (refs pn + 1) 0); lia.
  - intros m. specialize (Hlk m). rewrite bind_app, occ_app in *. cbn [mbind list_bind lock_of app] in *.
    destruct (Hcase m) as [(-> & E)|[(-> & E)|(? & ? & E)]]; rewrite E; [by rewrite Hc in Hlk|by rewrite Hp in Hlk|done].
  - done.
  - intros m Hm. assert (m ≠ p) as Hmp.
    { intros ->. eapply not_linking; [exact Hi| |exact Hm]. left. cbn. set_solver. }
    apply Hfresh in Hm. unfold held in *. cbn [nodes with_nodes handles kicks]. rewrite Hch, decide_False by done.
    cbn [mbind list_bind refs_of app] in *. lia.
  - inversion Hcalls. by constructor.
  - constructor; [subst h'; exists cd'; by rewrite lookup_insert_eq|].
    change ([] ++ gs) with gs in *. rewrite Forall_forall in *. intros g Hg. pose proof (Hfg g Hg) as Hok.
    assert (c ∉ linking g) as Hcg by (eapply linking_gs; [exact Hi|cbn; set_solver|done]).
    destruct g; cbn in Hok, Hcg |- *; try done.
    + destruct Hok as (nd & Hn & Hr). destruct (Hcase n) as [(-> & E)|[(-> & E)|(_ & _ & E)]].
      * exists cd'. split; [done|]. cbn. congruence.
      * simplify_eq. lia.
      * exists nd. split; congruence.
    + destruct Hok as (Hr & nd & Hn & Hnp). split; [done|]. destruct (Hcase c0) as [(-> & E)|[(-> & E)|(_ & _ & E)]].
      * set_solver.
      * exists pn'. split; [done|]. cbn. congruence.
      * exists nd. split; congruence.
    + destruct Hok as (nd & Hn & Hnp). destruct (Hcase c0) as [(-> & E)|[(-> & E)|(_ & _ & E)]].
      * set_solver.
      * exists pn'. split; [done|]. cbn. congruence.
      * exists nd. split; congruence.
  - intros m md x xd Hm Hr Hx Hxd.
    assert (∀ y yd, h' !! y = Some yd → ∃ yd', nodes σ !! y = Some yd' ∧ requested yd = requested yd') as Hback.
    { intros y yd Hy. destruct (Hcase y) as [(-> & E)|[(-> & E)|(_ & _ & E)]]; rewrite E in Hy; simplify_eq; eauto. }
    destruct (Hback m md Hm) as (md' & Hm' & Em). destruct (Hback x xd Hxd) as (xd' & Hx' & Ex). rewrite Ex.
    destruct (Hcov m md' x xd') as [?|[Hin|(g & Hin & Hv)]]; [done|congruence|done|done|by left|..].
    + right; left. set_solver.
    + apply elem_of_cons in Hin as [->|Hin]; [done|]. right; right. exists g. set_solver.
  - intros m md Hm. assert (∃ md', nodes σ !! m = Some md' ∧ (refs md' = 0 → refs md = 0)
      ∧ erase {| md' with refs := refs md; parent := parent md |} = erase md) as (md' & Hm' & Hr & E).
    { destruct (Hcase m) as [(-> & E)|[(-> & E)|(_ & _ & E)]]; rewrite E in Hm; simplify_eq.
      - exists cd. by split_and!.
      - exists pn. split_and!; [done|lia|done].
      - exists md. split_and!; [done..|]. by destruct md. }
    eapply kick_ok_erase; [symmetry; exact E|]. destruct (Hkicks m md' Hm') as [K1 K2 K3]. split; [done|..]; cbn in *; kick_simpl.
    + intros H. destruct (K2 H) as [|[|]]; [tauto|right; left; auto|tauto].
    + intros H1 H2. destruct (K3 H1 H2) as [|[|]]; [tauto|right; left; auto|tauto].
Qed.

(** What is left of the tree when a node is deleted. *)
Section deleting.
Context n nd (Hi : now (FDelete n)) (Hn : nodes σ !! n = Some nd) (Hr : refs nd = 0).

Lemma deleted_unheld : occ n (handles σ) = 0 ∧ occ n (kicks σ) = 0 ∧ occ n (gs ≫= refs_of) = 0 ∧ children (nodes σ) n = 0.
Proof.
  pose proof (i_refs _ _ _ _ _ _ Hi n) as H. rewrite Hn, Hr in H. unfold held in H. cbn in H.
  pose proof (occ_ge0 n (handles σ)). pose proof (occ_ge0 n (kicks σ)). pose proof (occ_ge0 n (gs ≫= refs_of)).
  pose proof (children_ge0 (nodes σ) n). lia.
Qed.

Lemma deleted_not_parent c cd : nodes σ !! c = Some cd → parent cd ≠ Some n.
Proof. intros Hc Hp. pose proof (children_pos _ _ _ _ Hc Hp). destruct deleted_unheld as (_ & _ & _ & ?). lia. Qed.

Lemma deleted_no_kid m : n ∉ kids m.
Proof. apply (po_out _ _ _ _ (i_parents _ _ _ _ _ _ Hi)). cbn. set_solver. Qed.

Lemma deleted_unused : n ∉ gs ≫= uses.
Proof.
  intros Hu. assert (∃ call, call ∈ rest ∧ n ∈ call ≫= uses) as (call & Hcall & Hu').
  { rewrite Hgs in Hu. apply list_elem_of_bind in Hu as (g & Hg & Hin). rewrite elem_of_concat in Hin.
    destruct Hin as (call & ? & ?). exists call. split; [done|]. apply list_elem_of_bind. eauto. }
  pose proof (i_calls _ _ _ _ _ _ Hi) as [_ Hc]%Forall_cons. rewrite Forall_forall in Hc.
  destruct (call_uses kids call n (Hc call Hcall) Hu') as [Hp|[q Hq]]; [|by apply deleted_no_kid in Hq].
  destruct deleted_unheld as (_ & _ & H0 & _). apply occ_zero in H0. apply H0. rewrite Hgs.
  apply list_elem_of_bind in Hp as (g & Hg & Hin). apply list_elem_of_bind. exists g.
  split; [destruct g; cbn in *; set_solver|]. apply elem_of_concat. eauto.
Qed.

Lemma deleted_parents : parents_ok (delete n (nodes σ)) kids rank (gs ≫= out_of).
Proof.
  destruct (i_parents _ _ _ _ _ _ Hi) as [P1 P2 P3 P4 P5 P6]. split; try done.
  - intros m [E|Hm]%lookup_delete_None; [subst m|by apply P1].
    destruct (kids n) as [|x l] eqn:Ek; [done|]. destruct (P2 n x) as (xd & Hx & Hxp); [rewrite Ek; set_solver|].
    by apply deleted_not_parent in Hx.
  - intros m x Hx. destruct (P2 m x Hx) as (xd & ? & ?). exists xd. rewrite lookup_delete_ne; [done|].
    intros E. subst x. by apply deleted_no_kid in Hx.
  - intros c cd p [? Hc]%lookup_delete_Some ? ?. eapply P4; [done..|]. cbn. set_solver.
  - intros m c Hc. apply P5. cbn. set_solver.
  - intros c cd p [? Hc]%lookup_delete_Some ?. by eapply P6.
Qed.

Lemma deleted_lists : lists_ok (delete n (nodes σ)) kids.
Proof.
  intros m md [? Hm]%lookup_delete_Some. destruct (i_lists _ _ _ _ _ _ Hi m md Hm) as [? Hs]. split; [done|].
  eapply kids_seg_ext; [|done]. intros x xd Hx Hxd. exists xd. rewrite lookup_delete_ne; [done|].
  intros E. subst x. by apply deleted_no_kid in Hx.
Qed.

Lemma deleted_frame g : g ∈ gs → frame_ok (nodes σ) rank g → frame_ok (delete n (nodes σ)) rank g.
Proof.
  intros Hg. assert (Hu : n ∉ uses g) by (intros ?; apply deleted_unused, list_elem_of_bind; by exists g).
  assert (Hf : n ∉ refs_of g).
  { intros ?. destruct deleted_unheld as (_ & _ & H0 & _). apply occ_zero in H0. apply H0, list_elem_of_bind. by exists g. }
  destruct g; cbn in *; try done.
  - intros (x & ? & ?). exists x. rewrite lookup_delete_ne by set_solver. done.
  - intros (? & x & ? & ?). split; [done|]. exists x. rewrite lookup_delete_ne by set_solver. done.
  - intros (x & ? & ?). exists x. rewrite lookup_delete_ne by set_solver. done.
Qed.

Lemma inv_deleted : let top := match parent nd with Some p => [FDec p] | None => [] end in
  inv_with (with_nodes σ (delete n (nodes σ))) (top :: rest) (top ++ gs) kids rank.
Proof.
  intros top. destruct deleted_unheld as (U1 & U2 & U3 & U4).
  pose proof Hi as [Hpar Hlists Hrefs Hdy Hlk Hln Hfresh Hcalls Hframes Hcov Hkicks].
  assert (Htop : ∀ m, occ m (top ≫= refs_of) = if decide (parent nd = Some m) then 1 else 0).
  { intros m. subst top. destruct (parent nd) as [p|]; cbn; [|done]. rewrite occ_cons, occ_nil. repeat case_decide; simplify_eq; lia. }
  assert (Hnil : top ≫= out_of = [] ∧ top ≫= dying = [] ∧ top ≫= lock_of = [] ∧ top ≫= linking = []).
  { subst top. by destruct (parent nd). }
  destruct Hnil as (N1 & N2 & N3 & N4).
  assert (Hheld : ∀ m, held (with_nodes σ (delete n (nodes σ))) (top ++ gs) m = held σ ([FDelete n] ++ gs) m).
  { intros m. unfold held. cbn [with_nodes nodes handles kicks]. rewrite !bind_app, !occ_app, Htop.
    rewrite (children_delete (nodes σ) n nd) by done. cbn. rewrite occ_nil. lia. }
  split; cbn [with_nodes nodes].
  - rewrite bind_app, N1. apply deleted_parents.
  - apply deleted_lists.
  - intros m. specialize (Hrefs m). rewrite Hheld. cbn [with_nodes nodes]. destruct (decide (m = n)) as [->|].
    + rewrite lookup_delete_eq. rewrite Hn in Hrefs. congruence.
    + by rewrite lookup_delete_ne.
  - intros m. specialize (Hdy m). rewrite bind_app, N2, app_nil_l. cbn in Hdy. rewrite occ_cons in Hdy.
    destruct (decide (m = n)) as [->|].
    + rewrite lookup_delete_eq. rewrite Hn, Hr, decide_True in Hdy by done. cbn in Hdy. lia.
    + rewrite lookup_delete_ne, decide_False in * by done. done.
  - intros m. specialize (Hlk m). rewrite bind_app, N3, app_nil_l. cbn in Hlk. destruct (decide (m = n)) as [->|].
    + rewrite lookup_delete_eq. apply occ_zero. intros Hin. apply deleted_unused.
      apply list_elem_of_bind in Hin as (g & Hg & ?). apply list_elem_of_bind. exists g. split; [|done].
      destruct g; cbn in *; set_solver.
    + by rewrite lookup_delete_ne.
  - intros m. rewrite bind_app, N4. apply Hln.
  - intros m. rewrite bind_app, N4, Hheld. apply Hfresh.
  - constructor; [subst top; by destruct (parent nd)|]. by inversion Hcalls.
  - apply Forall_app. split; [subst top; destruct (parent nd); by repeat constructor|].
    apply Forall_app in Hframes as [_ Hg]. rewrite Forall_forall in *. intros g Hin. apply deleted_frame; auto.
  - intros m md x xd [? Hm]%lookup_delete_Some ? Hx [? Hxd]%lookup_delete_Some.
    destruct (Hcov m md x xd) as [?|[Hin|(g & Hin & Hv)]]; [done..|by left|right; left|].
    + set_solver.
    + apply elem_of_cons in Hin as [->|Hin]; [done|]. right; right. exists g. set_solver.
  - intros m md [? Hm]%lookup_delete_Some. destruct (Hkicks m md Hm) as [K1 K2 K3].
    split; [done|..]; rewrite ?kicking_app, ?claimed_app in *; kick_simpl.
    + intros Hx%K2. pose proof (claimed_nil m) as Hno. tauto.
    + intros Hx Hy. specialize (K3 Hx Hy). pose proof (kicking_nil m) as Hno. tauto.
Qed.
End deleting.

Lemma run_delete n : now (FDelete n) → advances σ [FDelete n] rest gs.
Proof.
  intros Hi. destruct (dying_live _ _ _ _ _ _ n Hi) as (nd & Hn & Hr); [cbn; set_solver|].
  pose proof (inv_deleted n nd Hi Hn Hr) as Hinv. unfold advances. cbn [run request_cancel kick link release process_kick adopt]. rewrite Hn. orun.
  eexists _, _, kids, rank. split; [reflexivity|]. exact Hinv.
Qed.
End relinking.

(** Every step of every call goes well. *)
Lemma run_advances σ call rest kids rank :
  inv_with σ (call :: rest) (call ++ concat rest) kids rank → advances σ call rest (concat rest).
Proof.
  intros Hi. destruct call as [|f st]; [by eexists _, _, kids, rank|].
  pose proof (i_calls _ _ _ _ _ _ Hi) as [Hc _]%Forall_cons.
  destruct f; try (cbn in Hc; subst st).
  - by eapply run_pin.
  - by eapply run_exchange.
  - by eapply run_lock.
  - by eapply run_walk.
  - by eapply run_return.
  - by eapply run_kick_owner.
  - by eapply run_kick_pending.
  - by eapply run_kick_ref.
  - by eapply run_kick_undo.
  - by eapply run_kick_push.
  - by eapply run_link_ref.
  - by eapply run_link_section.
  - by eapply run_dec.
  - by eapply run_unlink.
  - by eapply run_delete.
  - by eapply run_proc.
  - by eapply run_hook.
  - by eapply run_owner.
  - by eapply run_tree_check.
  - by eapply run_finish.
Qed.
End run.
End CancelTreeRun.
