(* ===== verification/CancelTreeCorrect.v ===== *)
(** The cancellation tree is safe under any interleaving of its calls, no node leaks,
    a cancellation reaches everything below it, and no call waits for ever. *)

From S2P Require Import Prelude CancelTree CancelTreeShape CancelTreeInv CancelTreeSteps CancelTreeRun.

Module CancelTreeCorrect.
Import CancelTree CancelTreeShape CancelTreeInv CancelTreeSteps CancelTreeRun.
Implicit Types (h : heap) (n p c x m : ptr) (nd : node) (f : frame) (fs gs call st : list frame) (σ : tree) (s : config).

Section correct.
Context (thread_count : Z).
Abbreviation inv_with := (inv_with thread_count).
Abbreviation inv := (inv thread_count).

(** * What clients do *)

Section start.
Context σ (calls : list (list frame)) fs kids rank (Hi : inv_with σ calls fs kids rank).

Lemma inv_idle : inv_with σ ([] :: calls) ([] ++ fs) kids rank.
Proof. destruct Hi. split; try done. by constructor. Qed.

(** A call on a node the client holds a reference to. *)
Lemma start_call n call handles' kicks' :
  n ∈ handles σ ++ kicks σ ++ (fs ≫= refs_of) → call_ok kids call →
  (∀ m, occ m handles' + occ m kicks' + occ m (call ≫= refs_of) = occ m (handles σ) + occ m (kicks σ)) →
  call ≫= dying = [] → call ≫= lock_of = [] → call ≫= linking = [] → call ≫= out_of = [] →
  Forall (frame_ok (nodes σ) rank) call →
  inv_with (mkTree (nodes σ) handles' kicks') (call :: calls) (call ++ fs) kids rank.
Proof.
  intros Hn Hcall Hrefs Hd Hl Hk Ho Hf. destruct (ref_live _ _ _ _ _ _ n Hi Hn) as (nd & Hnd & Hr).
  rewrite <- (insert_id (nodes σ) n nd) by done. eapply (inv_touch _ σ [] call); [apply inv_idle|done|]. split; cbn; try done.
  - intros m. specialize (Hrefs m). rewrite occ_nil. lia.
  - intros m. by rewrite Hd.
  - intros m. by rewrite Hl.
  - intros m. by rewrite Hk.
  - by left.
  - intros m. rewrite Ho. set_solver.
  - by rewrite insert_id.
  - congruence.
  - intros m c Hc [?|(f & ? & ?)]; set_solver.
  - intros [K1 K2 K3]. split; [done|..]; rewrite ?kicking_app, ?claimed_app in *; tauto.
  - intros m _. split; [by intros ?%kicking_nil|by intros ?%claimed_nil].
Qed.

Lemma start_copy n nd : n ∈ handles σ → nodes σ !! n = Some nd →
  inv_with (mkTree (<[n := {| nd with refs := refs nd + 1 |}]> (nodes σ)) (n :: handles σ) (kicks σ))
    ([] :: calls) ([] ++ fs) kids rank.
Proof.
  intros Hin Hn. destruct (ref_live _ _ _ _ _ _ n Hi) as (nd' & Hnd & Hr); [set_solver|]. simplify_eq.
  eapply (inv_touch _ σ [] []); [apply inv_idle|done|]. split; cbn; try done.
  - intros m. rewrite occ_cons. repeat case_decide; simplify_eq; lia.
  - intros m. case_decide; [|done]. destruct (Z.eqb_spec (refs nd) 0), (Z.eqb_spec (refs nd + 1) 0); lia.
  - right. intros Hl. pose proof (i_fresh _ _ _ _ _ _ Hi n Hl) as Hh. unfold held in Hh.
    pose proof (pins_and_links fs n). apply occ_pos in Hin, Hl. pose proof (occ_ge0 n (kicks σ)).
    pose proof (occ_ge0 n (fs ≫= pin_of)). pose proof (children_ge0 (nodes σ) n). lia.
  - intros m. set_solver.
  - lia.
  - congruence.
  - intros m c Hc [?|(f & ? & ?)]; set_solver.
  - intros [K1 K2 K3]. split; [done|..]; cbn.
    + intros H%K2. destruct H as [|[|]]; [tauto|lia|tauto].
    + intros H1 H2. destruct (K3 H1 H2) as [|[|]]; [tauto|lia|tauto].
Qed.

(** A new node. *)
Section fresh.
Context c (task : bool) (tid : Z) (handles' : list ptr) call (r : nat) (Hc : nodes σ !! c = None)
  (Hrefs : ∀ m, occ m handles' + occ m (call ≫= refs_of) = occ m (handles σ) + if decide (m = c) then 1 else 0)
  (Hcall : call = [] ∨ ∃ p, call = [FLinkRef p c] ∧ p ≠ c ∧ (rank p < r)%nat).

Definition rank' : ptr → nat := λ m, if decide (m = c) then r else rank m.

Lemma fresh_unheld : occ c (handles σ) = 0 ∧ occ c (kicks σ) = 0 ∧ occ c (fs ≫= refs_of) = 0 ∧ children (nodes σ) c = 0.
Proof.
  pose proof (i_refs _ _ _ _ _ _ Hi c) as H. rewrite Hc in H. unfold held in H.
  pose proof (occ_ge0 c (handles σ)). pose proof (occ_ge0 c (kicks σ)). pose proof (occ_ge0 c (fs ≫= refs_of)).
  pose proof (children_ge0 (nodes σ) c). lia.
Qed.

Lemma fresh_held m : held (mkTree (<[c := new_node task tid]> (nodes σ)) handles' (kicks σ)) (call ++ fs) m
  = held σ fs m + if decide (m = c) then 1 else 0.
Proof.
  unfold held. cbn [nodes handles kicks]. rewrite bind_app, occ_app, children_insert_fresh by done.
  specialize (Hrefs m). cbn [parent new_node]. rewrite decide_False by done. lia.
Qed.

Lemma fresh_parents : parents_ok (<[c := new_node task tid]> (nodes σ)) kids rank' (fs ≫= out_of).
Proof.
  destruct (i_parents _ _ _ _ _ _ Hi) as [P1 P2 P3 P4 P5 P6]. split; try done.
  - intros m [? ?]%lookup_insert_None. by apply P1.
  - intros m x (xd & Hx & ?)%P2. exists xd. rewrite lookup_insert_ne by congruence. done.
  - intros x xd q [(<- & <-)|[? Hx]]%lookup_insert_Some ? ?; [done|by eapply P4].
  - intros x xd q [(<- & <-)|[? Hx]]%lookup_insert_Some Hp; [done|]. unfold rank'.
    destruct (decide (q = c)) as [->|]; [|rewrite decide_False by done; by eapply P6].
    pose proof (children_pos _ _ _ _ Hx Hp). destruct fresh_unheld as (_ & _ & _ & ?). lia.
Qed.

Lemma fresh_frames : Forall (frame_ok (<[c := new_node task tid]> (nodes σ)) rank') (call ++ fs).
Proof.
  apply Forall_app. split.
  - destruct Hcall as [->|(p & -> & Hpc & Hr)]; [done|]. constructor; [|done]. cbn. unfold rank'.
    rewrite decide_False, decide_True by done. split; [done|]. eexists. by rewrite lookup_insert_eq.
  - destruct fresh_unheld as (_ & _ & H0 & _). apply occ_zero in H0.
    pose proof (i_frames _ _ _ _ _ _ Hi) as Hf. rewrite Forall_forall in *. intros g Hg. specialize (Hf g Hg).
    assert (c ∉ refs_of g) by (intros ?; apply H0, list_elem_of_bind; by exists g).
    destruct g; cbn in *; try done.
    + destruct Hf as (nd & ? & ?). exists nd. rewrite lookup_insert_ne by congruence. done.
    + destruct Hf as (? & nd & ? & ?). unfold rank'. rewrite !decide_False by set_solver. split; [done|].
      exists nd. rewrite lookup_insert_ne by congruence. done.
    + destruct Hf as (nd & ? & ?). exists nd. rewrite lookup_insert_ne by congruence. done.
Qed.

Lemma inv_fresh :
  inv_with (mkTree (<[c := new_node task tid]> (nodes σ)) handles' (kicks σ)) (call :: calls) (call ++ fs) kids rank'.
Proof.
  destruct fresh_unheld as (U1 & U2 & U3 & U4).
  pose proof Hi as [Hpar Hlists Hrf Hdy Hlk Hln Hfresh Hcalls Hframes Hcov Hkicks].
  assert (Hnil : call ≫= out_of = [] ∧ call ≫= dying = [] ∧ call ≫= lock_of = []) by (by destruct Hcall as [->|(p & -> & _)]).
  destruct Hnil as (N1 & N2 & N3).
  assert (Hlink : ∀ m, m ∈ call ≫= linking → m = c) by (destruct Hcall as [->|(p & -> & _)]; cbn; set_solver).
  assert (c ∉ fs ≫= linking) as Hcl.
  { intros Hin%occ_pos. pose proof (pins_and_links fs c). pose proof (occ_ge0 c (fs ≫= pin_of)). lia. }
  split; cbn [nodes].
  - rewrite bind_app, N1. apply fresh_parents.
  - intros m md [(<- & <-)|[? Hm]]%lookup_insert_Some; [by rewrite (po_dead _ _ _ _ Hpar c Hc)|].
    destruct (Hlists m md Hm) as [? Hs]. split; [done|]. eapply kids_seg_ext; [|done]. intros x xd Hx Hxd. exists xd.
    rewrite lookup_insert_ne by congruence. done.
  - intros m. rewrite fresh_held. specialize (Hrf m). cbn [nodes]. destruct (decide (m = c)) as [->|].
    + rewrite lookup_insert_eq. rewrite Hc in Hrf. cbn. lia.
    + rewrite lookup_insert_ne by done. destruct (nodes σ !! m); lia.
  - intros m. specialize (Hdy m). rewrite bind_app, N2. destruct (decide (m = c)) as [->|].
    + rewrite lookup_insert_eq. by rewrite Hc in Hdy.
    + by rewrite lookup_insert_ne.
  - intros m. specialize (Hlk m). rewrite bind_app, N3. destruct (decide (m = c)) as [->|].
    + rewrite lookup_insert_eq. by rewrite Hc in Hlk.
    + by rewrite lookup_insert_ne.
  - intros m. specialize (Hln m). rewrite bind_app, occ_app. destruct (decide (m = c)) as [->|].
    + apply occ_zero in Hcl. destruct Hcall as [->|(p & -> & _)]; cbn; rewrite ?occ_cons, ?occ_nil; repeat case_decide; lia.
    + assert (occ m (call ≫= linking) = 0) as -> by (apply occ_zero; intros ?%Hlink; done). done.
  - intros m. rewrite bind_app, elem_of_app, fresh_held. intros [->%Hlink|Hm].
    + rewrite decide_True by done. pose proof (Hrf c) as Hx. rewrite Hc in Hx. lia.
    + rewrite decide_False by (intros ->; done). rewrite Hfresh by done. lia.
  - constructor; [|done]. by destruct Hcall as [->|(p & -> & _)].
  - apply fresh_frames.
  - intros m md x xd Hm Hr Hx Hxd. assert (m ≠ c ∧ x ≠ c) as [Hmc Hxc].
    { destruct (po_kid _ _ _ _ Hpar m x Hx) as (xd' & ? & Hp). split; [intros ->|congruence].
      pose proof (children_pos _ _ _ _ H Hp). lia. }
    rewrite lookup_insert_ne in Hm, Hxd by done.
    destruct (Hcov m md x xd) as [?|[Hin|(g & Hin & Hv)]]; [done..|by left|right; left; set_solver|].
    right; right. exists g. set_solver.
  - intros m md [(<- & <-)|[? Hm]]%lookup_insert_Some; [split; cbn; [by left|done|lia]|].
    destruct (Hkicks m md Hm) as [K1 K2 K3]. split; [done|..]; rewrite ?kicking_app, ?claimed_app; tauto.
Qed.
End fresh.
End start.

(** * The invariant holds in every reachable state *)

Lemma inv_empty : inv empty_config.
Proof.
  exists (λ _, []), (λ _, 0%nat). split; cbn; try done.
  - split; cbn; try done.
    + by intros n c ?%not_elem_of_nil.
    + intros n. constructor.
    + by intros n c ?%not_elem_of_nil.
  - by intros n ?%not_elem_of_nil.
Qed.

Lemma tree_inv_client s σ call : inv s → client (shared s) σ call → inv (mkConfig σ (call :: calls s)).
Proof.
  intros (kids & rank & Hi) Hc. destruct s as [σ0 cs]. cbn in *. inversion Hc; subst; clear Hc.
  - exists kids, (rank' rank c 0). cbn [shared calls concat]. apply (inv_fresh _ _ _ _ _ Hi c task tid _ []); [done| |by left].
    intros m. cbn. rewrite occ_cons, occ_nil. repeat case_decide; simplify_eq; lia.
  - exists kids, (rank' rank c (S (rank p))). cbn [shared calls concat].
    destruct (ref_live _ _ _ _ _ _ p Hi) as (pn & Hp & _); [rewrite H; set_solver|].
    apply (inv_fresh _ _ _ _ _ Hi c task tid _ [FLinkRef p c]); [done| |right; exists p; split_and!; [done|congruence|lia]].
    intros m. rewrite H. cbn. rewrite !occ_cons, occ_nil. repeat case_decide; simplify_eq; lia.
  - exists kids, rank. cbn [shared calls concat]. apply start_copy; [done|rewrite H; set_solver|done].
  - exists kids, rank. cbn [shared calls concat]. eapply (start_call _ _ _ _ _ Hi n); try done; [rewrite H; set_solver| |by repeat constructor].
    intros m. rewrite H. cbn. rewrite !occ_cons, occ_nil. lia.
  - exists kids, rank. cbn [shared calls concat]. eapply (start_call _ _ _ _ _ Hi n); try done; [rewrite H; set_solver| |by repeat constructor].
    intros m. rewrite H. cbn. rewrite !occ_cons, occ_nil. lia.
  - exists kids, rank. cbn [shared calls concat]. eapply (start_call _ _ _ _ _ Hi n); try done; [rewrite H; set_solver| |by repeat constructor].
    intros m. rewrite H. cbn. rewrite !occ_cons, occ_nil. lia.
  - exists kids, rank. cbn [shared calls concat]. eapply (start_call _ _ _ _ _ Hi n); try done; [rewrite H; set_solver| |by repeat constructor].
    intros m. rewrite H. cbn. rewrite !occ_cons, occ_nil. lia.
  - exists kids, rank. cbn [shared calls concat]. eapply (start_call _ _ _ _ _ Hi n); try done; [rewrite H; set_solver| |by repeat constructor].
    intros m. rewrite H. cbn. rewrite !occ_cons, occ_nil. lia.
Qed.

Lemma inv_focus s call rest : inv s → calls s ≡ₚ call :: rest →
  ∃ kids rank, inv_with (shared s) (call :: rest) (call ++ concat rest) kids rank.
Proof.
  intros (kids & rank & Hi) Hp. exists kids, rank. eapply inv_with_perm; [exact Hp| |exact Hi].
  rewrite (concat_perm _ _ Hp). done.
Qed.

Lemma tree_inv_step s s' : inv s → step thread_count s s' → inv s'.
Proof.
  intros Hi Hs. destruct Hs as [s σ call Hc|s call rest call' σ Hp Hrun]; [by apply tree_inv_client|].
  destruct (inv_focus s call rest Hi Hp) as (kids & rank & Hw).
  destruct (run_advances _ _ _ _ _ _ Hw) as (call2 & σ2 & kids2 & rank2 & E & Hw2).
  rewrite Hrun in E. injection E as -> ->. by exists kids2, rank2.
Qed.

Lemma tree_reachable_inv s : reachable thread_count s → inv s.
Proof. intros Hr. eapply rtc_invariant; [apply tree_inv_step|exact Hr|apply inv_empty]. Qed.

(** * Quiet states *)

Lemma quiet_frames s : quiet s → concat (calls s) = [].
Proof. unfold quiet. induction 1 as [|c cs -> _ IH]; [done|]. exact IH. Qed.

(** [m] is [n] or below it. *)
Definition child_of h m n : Prop := ∃ md, h !! m = Some md ∧ parent md = Some n.
Definition below h : ptr → ptr → Prop := rtc (child_of h).

Lemma rank_bound (rank : ptr → nat) (l : list ptr) : ∃ R, ∀ x, x ∈ l → (rank x <= R)%nat.
Proof.
  induction l as [|y l [R IH]]; [exists 0%nat; set_solver|]. exists (R `max` rank y)%nat.
  intros x [->|Hx]%elem_of_cons; [lia|]. specialize (IH x Hx). lia.
Qed.

Lemma rank_bound_heap (rank : ptr → nat) h : ∃ R, ∀ n nd, h !! n = Some nd → (rank n <= R)%nat.
Proof.
  destruct (rank_bound rank (elements (dom h))) as [R HR]. exists R. intros n nd Hn. apply HR.
  apply elem_of_elements, elem_of_dom. eauto.
Qed.

Section quiet.
Context s kids rank (Hi : inv_with (shared s) (calls s) (concat (calls s)) kids rank) (Hq : quiet s).
Abbreviation h := (nodes (shared s)).

Lemma quiet_kids c cd p : h !! c = Some cd → parent cd = Some p → c ∈ kids p.
Proof.
  intros Hc Hp. eapply po_linked; [apply Hi|done..|]. rewrite (quiet_frames s Hq). by apply not_elem_of_nil.
Qed.

Lemma quiet_requested c cd n nd :
  below h c n → h !! n = Some nd → requested nd = true → h !! c = Some cd → requested cd = true.
Proof.
  intros Hb. revert cd. induction Hb as [c|c p n (cd0 & Hc & Hp) Hpn IH]; intros cd Hn Hr Hc'; [congruence|].
  assert (cd0 = cd) as -> by congruence.
  assert (∃ pd, h !! p = Some pd) as (pd & Hpd).
  { pose proof (i_refs _ _ _ _ _ _ Hi p) as Hh. destruct (h !! p); [eauto|]. unfold held in Hh.
    pose proof (children_pos _ _ _ _ Hc Hp). pose proof (occ_ge0 p (handles (shared s))).
    pose proof (occ_ge0 p (kicks (shared s))). pose proof (occ_ge0 p (concat (calls s) ≫= refs_of)). lia. }
  assert (requested pd = true) as Hpr by (by apply IH).
  destruct (i_covered _ _ _ _ _ _ Hi p pd c cd) as [?|[Hin|(g & Hin & _)]]; [done|done| |done|done|..].
  { by eapply quiet_kids. }
  all: rewrite (quiet_frames s Hq) in Hin; by apply not_elem_of_nil in Hin.
Qed.

Lemma quiet_owned n nd : h !! n = Some nd → ∃ m, below h m n ∧ m ∈ handles (shared s) ++ kicks (shared s).
Proof.
  destruct (rank_bound_heap rank h) as [R HR].
  assert (∀ k n nd, (R - rank n <= k)%nat → h !! n = Some nd →
    ∃ m, below h m n ∧ m ∈ handles (shared s) ++ kicks (shared s)) as Hall; [|by eauto].
  clear n nd. induction k as [|k IH]; intros n nd Hk Hn.
  all: destruct (decide (n ∈ handles (shared s) ++ kicks (shared s))) as [|Hno]; [by exists n|].
  all: pose proof (i_refs _ _ _ _ _ _ Hi n) as Hh; rewrite Hn in Hh; unfold held in Hh;
    rewrite (quiet_frames s Hq) in Hh; cbn in Hh; rewrite occ_nil in Hh;
    apply occ_zero in Hno; rewrite occ_app in Hno;
    pose proof (i_dying _ _ _ _ _ _ Hi n) as Hd; rewrite Hn, (quiet_frames s Hq) in Hd; cbn in Hd; rewrite occ_nil in Hd;
    pose proof (occ_ge0 n (handles (shared s))); pose proof (occ_ge0 n (kicks (shared s)));
    pose proof (children_ge0 h n); assert (0 < children h n) as Hch by (destruct (Z.eqb_spec (refs nd) 0); lia).
  all: assert (∃ c cd, h !! c = Some cd ∧ parent cd = Some n) as (c & cd & Hc & Hp)
    by (unfold children in Hch; destruct (map_choose (filter (λ kv, parent kv.2 = Some n) h)) as (c & cd & Hf);
        [by intros E; rewrite E, map_size_empty in Hch|]; apply map_lookup_filter_Some in Hf as [? ?]; eauto).
  all: pose proof (po_rank _ _ _ _ (i_parents _ _ _ _ _ _ Hi) _ _ _ Hc Hp); pose proof (HR c cd Hc).
  - lia.
  - destruct (IH c cd) as (m & Hb & Hm); [lia|done|]. exists m. split; [|done]. eapply rtc_r; [exact Hb|]. by exists cd.
Qed.

Lemma quiet_kicked n nd : h !! n = Some nd → kickable thread_count nd = true → (0 < woken nd)%nat → (0 < kicks_queued nd)%nat.
Proof.
  intros Hn Hk Hw. destruct (i_kicks _ _ _ _ _ _ Hi n nd Hn) as [_ _ K3]. destruct (K3 Hk Hw) as [?|[Hr|Hin]]; [done|..].
  - pose proof (i_dying _ _ _ _ _ _ Hi n) as Hd. rewrite Hn, Hr, (quiet_frames s Hq) in Hd. done.
  - rewrite (quiet_frames s Hq) in Hin. by apply kicking_nil in Hin.
Qed.
End quiet.

(** * No deadlock *)

(** The call spins on the lock of [n]. *)
Definition waits_for σ call n : Prop :=
  match call with
  | FLock m :: _ => m = n
  | FLinkSection p _ :: _ => p = n
  | FUnlink m :: _ => ∃ md, nodes σ !! m = Some md ∧ parent md = Some n
  | _ => False
  end.

Lemma cons_cycle {A} (x : A) l : l ≠ x :: l.
Proof. intros E%(f_equal length). cbn in E. lia. Qed.

Lemma touch_call n g st σ call σ' : touch n g st σ = Done (call, σ') → call = st.
Proof. unfold touch. intros (h & _ & E)%bind_Done. by injection E as <- _. Qed.

(** A step that leaves its call as it was is a spin on a lock. *)
Lemma stutter_waits σ σ' call : run thread_count call σ = Done (call, σ') →
  call = [] ∨ ∃ n nd, waits_for σ call n ∧ nodes σ !! n = Some nd ∧ tree_lock nd = true.
Proof.
  destruct call as [|f st]; [by left|]. intros Hrun. right.
  destruct f; cbn [run request_cancel kick link release process_kick adopt] in Hrun;
    repeat match type of Hrun with
           | touch _ _ _ _ = _ => apply touch_call in Hrun
           | _ ≫= _ = Done _ => apply bind_Done in Hrun as (? & ?%deref_Done & Hrun)
           | _ ≫= _ = Done _ => apply bind_Done in Hrun as (? & _ & Hrun)
           | (if ?b then _ else _) = _ => destruct b eqn:?
           | match ?b with Some _ => _ | None => _ end = _ => destruct b eqn:?
           | Done _ = Done _ => injection Hrun as Hrun _
           end; try discriminate.
  all: try (by apply cons_cycle in Hrun); try (symmetry in Hrun; by apply cons_cycle in Hrun).
  - by destruct (is_task x).
  - by exists n, x.
  - by exists p, x.
  - case_match; [done|]. by symmetry in Hrun; apply cons_cycle in Hrun.
  - eexists _, _. split; [eexists; done|done].
Qed.

Section progress.
Context s kids rank (Hi : inv_with (shared s) (calls s) (concat (calls s)) kids rank).
Abbreviation h := (nodes (shared s)).

(** Some call is not waiting. *)
Definition can_move : Prop := ∃ call rest call' σ',
  calls s ≡ₚ call :: rest ∧ call ≠ [] ∧ run thread_count call (shared s) = Done (call', σ') ∧ call' ≠ call.

Lemma move_or_wait call : call ∈ calls s → call ≠ [] →
  can_move ∨ ∃ n nd, waits_for (shared s) call n ∧ h !! n = Some nd ∧ tree_lock nd = true.
Proof.
  intros Hin Hne. apply elem_of_Permutation in Hin as (rest & Hp).
  assert (inv_with (shared s) (call :: rest) (call ++ concat rest) kids rank) as Hw.
  { eapply inv_with_perm; [exact Hp| |exact Hi]. by rewrite (concat_perm _ _ Hp). }
  destruct (run_advances _ _ _ _ _ _ Hw) as (call' & σ' & _ & _ & E & _).
  destruct (decide (call' = call)) as [->|Hneq]; [|by left; exists call, rest, call', σ'].
  right. by destruct (stutter_waits _ _ _ E).
Qed.

Lemma kid_rank m c : c ∈ kids m → (rank m < rank c)%nat.
Proof.
  intros (cd & Hc & Hp)%(po_kid _ _ _ _ (i_parents _ _ _ _ _ _ Hi)).
  by apply (po_rank _ _ _ _ (i_parents _ _ _ _ _ _ Hi) _ _ _ Hc).
Qed.

Lemma chain_rank n st m : chain kids n st → m ∈ st ≫= lock_of → (rank m < rank n)%nat.
Proof.
  revert n. induction st as [|f st IH]; intros n; [done|]. destruct f; cbn; try done.
  - destruct st; [|done]. set_solver.
  - intros (-> & Hc & Hch) Hm. apply kid_rank in Hc. apply elem_of_cons in Hm as [->|Hm]; [done|].
    specialize (IH _ Hch Hm). lia.
Qed.

(** The holder of a lock moves, or waits for a lock further down. *)
Lemma holder_moves k : ∀ n nd R, (∀ m md, h !! m = Some md → (rank m <= R)%nat) →
  (R - rank n <= k)%nat → h !! n = Some nd → tree_lock nd = true → can_move.
Proof.
  induction k as [|k IH]; intros n nd R HR Hk Hn Hl.
  all: pose proof (i_locks _ _ _ _ _ _ Hi n) as Ho; rewrite Hn, Hl in Ho;
    assert (n ∈ concat (calls s) ≫= lock_of) as Hin by (apply occ_pos; lia);
    apply list_elem_of_bind in Hin as (f & Hf & Hin); apply elem_of_concat in Hin as (call & Hcall & Hfc);
    (destruct (move_or_wait call Hcall) as [?|(m & md & Hw & Hm & Hml)]; [by intros ->; set_solver|done|]);
    pose proof (i_calls _ _ _ _ _ _ Hi) as Hok; rewrite Forall_forall in Hok; specialize (Hok call Hcall);
    assert (n ∈ call ≫= lock_of) as Hnl by (apply list_elem_of_bind; eauto).
  all: assert (rank n < rank m)%nat
    by (destruct call as [|[] st]; cbn in Hw, Hok; try done;
        [subst m; apply (chain_rank _ st n Hok); cbn in Hnl; done|subst st; cbn in Hnl; set_solver..]).
  all: pose proof (HR m md Hm).
  - lia.
  - apply (IH m md R); [done|lia|done..].
Qed.

Lemma not_quiet_moves : ¬ quiet s → can_move.
Proof.
  intros Hnq. assert (∃ call, call ∈ calls s ∧ call ≠ []) as (call & Hin & Hne).
  { apply not_Forall_Exists in Hnq; [|intros c; unfold Decision; destruct c; [by left|by right]].
    apply Exists_exists in Hnq as (call & ? & ?). eauto. }
  destruct (move_or_wait call Hin Hne) as [?|(n & nd & _ & Hn & Hl)]; [done|].
  destruct (rank_bound_heap rank h) as [R HR]. by eapply (holder_moves (R - rank n)).
Qed.
End progress.

(** C10: under any interleaving of any number of calls the cancellation tree is memory
    safe.  No step of a call in flight dereferences a node that is gone (a walk of
    [request_cancel] over children that are being released, a kick of a task on its
    way out, included); whoever holds a reference holds it to a live node; and when all
    calls have returned every node is still needed: it or something below it is held
    by a client or by a queued kick, and its count is exactly the references to it. *)
Theorem cancel_tree_safe s : reachable thread_count s →
  (∀ call rest, calls s ≡ₚ call :: rest → ∃ call' σ', run thread_count call (shared s) = Done (call', σ'))
  ∧ (∀ n, n ∈ handles (shared s) ++ kicks (shared s) → ∃ nd, nodes (shared s) !! n = Some nd ∧ 0 < refs nd)
  ∧ (quiet s → ∀ n nd, nodes (shared s) !! n = Some nd →
      (∃ m, below (nodes (shared s)) m n ∧ m ∈ handles (shared s) ++ kicks (shared s))
      ∧ refs nd = occ n (handles (shared s)) + occ n (kicks (shared s)) + children (nodes (shared s)) n).
Proof.
  intros Hinv%tree_reachable_inv. split_and!.
  - intros call rest Hp. destruct (inv_focus s call rest Hinv Hp) as (kids & rank & Hw).
    destruct (run_advances _ _ _ _ _ _ Hw) as (call' & σ' & _ & _ & E & _). eauto.
  - intros n Hn. destruct Hinv as (kids & rank & Hi). eapply ref_live; [exact Hi|]. rewrite app_assoc. set_solver.
  - intros Hq n nd Hn. destruct Hinv as (kids & rank & Hi). split; [by eapply quiet_owned|].
    pose proof (i_refs _ _ _ _ _ _ Hi n) as Hr. rewrite Hn in Hr. unfold held in Hr.
    rewrite (quiet_frames s Hq) in Hr. cbn in Hr. rewrite occ_nil in Hr. lia.
Qed.

(** C4: a cancellation reaches everything below it.  No call waits for ever: as long
    as some call has not returned, some call can take a step other than spinning on a
    lock.  And once all have returned, everything below a cancelled node is cancelled,
    whatever was linked or released meanwhile; the waiters of a node were woken at most
    once; and a task whose waiters were woken and that runs on one of the workers had a
    kick queued there. *)
Theorem cancellation_reaches_all s : reachable thread_count s →
  (¬ quiet s → ∃ call rest call' σ', calls s ≡ₚ call :: rest ∧ call ≠ []
     ∧ run thread_count call (shared s) = Done (call', σ') ∧ call' ≠ call)
  ∧ (quiet s → ∀ n nd, nodes (shared s) !! n = Some nd →
      (∀ c cd, below (nodes (shared s)) c n → nodes (shared s) !! c = Some cd →
         requested nd = true → requested cd = true)
      ∧ (woken nd <= 1)%nat
      ∧ (is_task nd = true → 0 <= owner_tid nd < thread_count → (0 < woken nd)%nat → (0 < kicks_queued nd)%nat)).
Proof.
  intros (kids & rank & Hi)%tree_reachable_inv. split; [intros Hq; by eapply not_quiet_moves|]. intros Hq n nd Hn. split_and!.
  - intros c cd Hb Hc Hr. by eapply quiet_requested.
  - destruct (i_kicks _ _ _ _ _ _ Hi n nd Hn) as [[->|[-> _]] _ _]; lia.
  - intros Ht Ho Hw. eapply quiet_kicked; [done..| |done]. unfold kickable. rewrite Ht. lia.
Qed.
End correct.

(** ** A concrete run *)

(** A call on its own, step by step. *)
Fixpoint run_call (thread_count : Z) (fuel : nat) call σ : outcome (list frame * tree) :=
  match fuel with
  | O => Done (call, σ)
  | S fuel => '(call, σ) ← run thread_count call σ; run_call thread_count fuel call σ
  end.

Lemma run_call_steps thread_count fuel call rest σ call' σ' :
  run_call thread_count fuel call σ = Done (call', σ') →
  rtc (step thread_count) (mkConfig σ (call :: rest)) (mkConfig σ' (call' :: rest)).
Proof.
  revert call σ. induction fuel as [|fuel IH]; intros call σ; cbn [run_call]; [by intros [= -> ->]|].
  intros ([c1 σ1] & E & Hr)%bind_Done. eapply rtc_l; [|by apply IH].
  by apply (step_run _ (mkConfig σ (call :: rest)) call rest).
Qed.

(** A scope with a task on worker 0, cancelled. *)
Definition scope : ptr := 1.
Definition job : ptr := 2.
Definition cancelled_scope : tree :=
  mkTree
    {[ scope := mkNode 2 true false None (Some job) None None false (-1) false false 1 0;
       job := mkNode 2 true false (Some scope) None None None true 0 false true 1 1 ]}
    [scope; job] [job].

Lemma cancelled_scope_reachable : reachable 4 (mkConfig cancelled_scope [[]; []; []]).
Proof.
  eapply rtc_l; [apply step_client, (client_new _ scope false (-1)); reflexivity|].
  eapply rtc_l; [apply step_client, (client_link _ [] scope job true 0); reflexivity|].
  etrans; [apply (run_call_steps 4 2); vm_compute; reflexivity|].
  eapply rtc_l; [apply step_client, (client_cancel _ [job] scope); reflexivity|].
  etrans; [apply (run_call_steps 4 14); vm_compute; reflexivity|].
  apply rtc_refl.
Qed.

Lemma cancel_tree_safe_witness :
  (∃ nd, nodes cancelled_scope !! job = Some nd ∧ 0 < refs nd)
  ∧ ∃ m, below (nodes cancelled_scope) m scope ∧ m ∈ [scope; job] ++ [job].
Proof.
  pose proof (cancel_tree_safe 4 (mkConfig cancelled_scope [[]; []; []]) cancelled_scope_reachable) as (_ & H2 & H3).
  split; [apply H2; cbn; set_solver|].
  eapply (H3 ltac:(by repeat constructor) scope); vm_compute; reflexivity.
Defined.

Lemma cancellation_reaches_all_witness :
  ∃ nd, nodes cancelled_scope !! job = Some nd ∧ requested nd = true ∧ (0 < kicks_queued nd)%nat.
Proof.
  pose proof (cancellation_reaches_all 4 (mkConfig cancelled_scope [[]; []; []]) cancelled_scope_reachable) as (_ & H).
  assert (Hq : quiet (mkConfig cancelled_scope [[]; []; []])) by (by repeat constructor).
  destruct (H Hq scope _ eq_refl) as (Hall & _ & _). destruct (H Hq job _ eq_refl) as (_ & _ & Hk).
  eexists. split; [reflexivity|]. split.
  - eapply (Hall job); [|reflexivity|reflexivity]. apply rtc_once. by eexists.
  - by apply Hk; [|cbn; lia|cbn; lia].
Defined.
End CancelTreeCorrect.
