(* ===== verification/QSBR.v ===== *)
(** Quiescent-state reclamation ([QSBR.h], [QSBR.cpp]): a thread is active between [enter]
    and [leave] and notes the global epoch when it enters; an object retired in an epoch is
    deleted once every active thread has entered in a later one.

    Any number of threads interleave, one step per access to memory other threads see; the
    sections under [orphan_mu_] are one step.  The objects belong to clients, who put them
    into shared pointers, read them while active, take them out and retire them.  [held] is
    what a thread has read since it entered.  The stores of [enter] are relaxed and released, with
    no fence before the reads that follow: [Late] lets a thread go on while the last one is in its
    store buffer, from where it leaves it ([Flush]) before the thread's next store.  Epochs are counted without bound: a counter of
    64 bits does not come round in practice. *)

From S2P Require Import Prelude.

Module QSBR.

Local Open Scope nat_scope.

(** Which of the two calls of [min_active_epoch] in [quiesce_tick]. *)
Inductive call := First | Second.

Inductive pc :=
| Out                                        (** between calls, not active *)
| In                                         (** between [enter] and [leave] *)
| EStore (g : nat)                           (** [enter]: [epoch.store] *)
| EActive                                    (** [active.store(true)] *)
| AClear                                     (** [attach_current_thread]: [active.store(false)] *)
| DLock                                      (** [detach_current_thread]: the retired are left to others *)
| DRelease                                   (** [in_use.store(false)] *)
| MHead (c : call)                           (** [min_active_epoch]: [head_.load] *)
| MInUse (c : call) (n : nat) (m : option nat)  (** [n] states are left: [in_use.load] of the next *)
| MActive (c : call) (n : nat) (m : option nat) (** [active.load] of state [n] *)
| MEpoch (c : call) (n : nat) (m : option nat)  (** [epoch.load] of state [n] *)
| MGlobal (c : call)                         (** nobody is active: [global_epoch_.load] *)
| TCompare (m : nat)                         (** [quiesce_tick]: [global_epoch_.load] *)
| TAdd                                       (** [global_epoch_.fetch_add] *)
| TOwn (safe : nat) (kept todo : list (ptr * nat)) (** the loop over [retired_tls_] *)
| TCount (safe : nat)                        (** [orphan_count_.load] *)
| TAdopt (safe : nat)                        (** [adopt_orphans_into] *)
| TFree (todo : list (ptr * nat)).           (** what was adopted is deleted *)

(** A thread's state and what the thread keeps to itself. *)
Record ThreadState := mkThread {
  epoch : nat;
  active : bool;
  in_use : bool;
  retired_tls_ : list (ptr * nat);  (** with the epoch of the retirement *)
  held : gset ptr;
  at_ : pc;
  buffered : bool                   (** [active.store(true)] is still in the store buffer *)
}.

Record domain := mkDomain {
  states : list ThreadState;  (** from the oldest to the newest, which [head_] points to *)
  global_epoch_ : nat;
  orphans_ : list (ptr * nat);
  orphan_count_ : nat;
  objects : gset ptr;         (** the objects that exist *)
  sources : gmap nat ptr;     (** the shared pointers that are not null *)
  history : list ptr * list ptr (** what was retired and what was deleted *)
}.

Definition ThreadState_new : ThreadState := mkThread 0 false true [] ∅ Out false.
Definition QSBR_new : domain := mkDomain [] 1 [] 0 ∅ ∅ ([], []).

Definition set_state (me : nat) (r : ThreadState) (d : domain) : domain := {| d with states := <[me := r]> (states d) |}.

(** ** [attach_current_thread], [detach_current_thread], [enter] *)

Definition simple_step (me : nat) (r : ThreadState) (d : domain) : option domain :=
  match at_ r with
  | AClear => Some (set_state me {| r with active := false; at_ := Out |} d)
  | EStore g => Some (set_state me {| r with epoch := g; at_ := EActive |} d)
  | EActive => Some (set_state me {| r with active := true; at_ := In |} d)
  | DLock =>
      match retired_tls_ r with
      | [] => Some (set_state me {| r with at_ := DRelease |} d)
      | l => let orphans := orphans_ d ++ l in
             Some (set_state me {| r with retired_tls_ := []; at_ := DRelease |} {| d with orphans_ := orphans; orphan_count_ := length orphans |})
      end
  | DRelease => Some (set_state me {| r with in_use := false; at_ := Out |} d)
  | _ => None
  end.

(** ** [min_active_epoch] *)

(** The call returns [m]. *)
Definition min_returned (c : call) (m : nat) (r : ThreadState) : pc :=
  match c with First => TCompare m | Second => TOwn m [] (retired_tls_ r) end.

Definition min_of (m : option nat) (e : nat) : option nat :=
  match m with None => Some e | Some m => Some (if e <? m then e else m) end.

Definition min_step (r : ThreadState) (d : domain) : option (outcome pc) :=
  match at_ r with
  | MHead c => Some (Done (MInUse c (length (states d)) None))
  | MInUse c 0 None => Some (Done (MGlobal c))
  | MInUse c 0 (Some m) => Some (Done (min_returned c m r))
  | MInUse c (S n) m => Some (s ← deref (states d !! n); Done (if in_use s then MActive c n m else MInUse c n m))
  | MActive c n m => Some (s ← deref (states d !! n); Done (if active s then MEpoch c n m else MInUse c n m))
  | MEpoch c n m => Some (s ← deref (states d !! n); Done (MInUse c n (min_of m (epoch s))))
  | MGlobal c => Some (Done (min_returned c (global_epoch_ d) r))
  | _ => None
  end.

(** ** [quiesce_tick] *)

(** A deleter runs. *)
Definition destroy (p : ptr) (d : domain) : outcome domain :=
  if bool_decide (p ∈ objects d) then Done {| d with objects := objects d ∖ {[p]}; history := ((history d).1, (history d).2 ++ [p]) |} else UB.

Definition adopted (safe : nat) (l : list (ptr * nat)) : list (ptr * nat) := filter (λ x, x.2 < safe) l.
Definition left_over (safe : nat) (l : list (ptr * nat)) : list (ptr * nat) := filter (λ x, ¬ x.2 < safe) l.

Definition tick_step (me : nat) (r : ThreadState) (d : domain) : option (outcome domain) :=
  match at_ r with
  | TCompare m => Some (Done (set_state me {| r with at_ := if m =? global_epoch_ d then TAdd else MHead Second |} d))
  | TAdd => Some (Done (set_state me {| r with at_ := MHead Second |} {| d with global_epoch_ := S (global_epoch_ d) |}))
  | TOwn safe kept ((p, e) :: todo) =>
      if e <? safe then
        Some (d ← destroy p d; Done (set_state me {| r with retired_tls_ := kept ++ todo; at_ := TOwn safe kept todo |} d))
      else Some (Done (set_state me {| r with at_ := TOwn safe (kept ++ [(p, e)]) todo |} d))
  | TOwn safe kept [] => Some (Done (set_state me {| r with retired_tls_ := kept; at_ := TCount safe |} d))
  | TCount safe => Some (Done (set_state me {| r with at_ := if orphan_count_ d =? 0 then Out else TAdopt safe |} d))
  | TAdopt safe =>
      let rest := left_over safe (orphans_ d) in
      Some (Done (set_state me {| r with at_ := TFree (adopted safe (orphans_ d)) |} {| d with orphans_ := rest; orphan_count_ := length rest |}))
  | TFree ((p, _) :: todo) => Some (d ← destroy p d; Done (set_state me {| r with at_ := TFree todo |} d))
  | TFree [] => Some (Done (set_state me {| r with at_ := Out |} d))
  | _ => None
  end.

(** ** The machine *)

Definition in_flight (r : ThreadState) : list ptr := match at_ r with TFree todo => todo.*1 | _ => [] end.

(** Everything that is retired and still exists. *)
Definition pending (d : domain) : list ptr := (states d ≫= λ r, (retired_tls_ r).*1 ++ in_flight r) ++ (orphans_ d).*1.

Inductive action :=
| New (p : ptr)                      (** a client makes an object *)
| Store (src : nat) (v : option ptr) (** a client writes a shared pointer *)
| AttachNew                          (** a thread attaches with a new state *)
| AttachReuse (me : nat)             (** or with one that is not in use *)
| Enter (me : nat)
| Read (me src : nat)                (** an active thread reads a shared pointer *)
| Leave (me : nat)
| Retire (me : nat) (p : ptr)
| Tick (me : nat)
| Detach (me : nat)
| Late (me : nat)                    (** the last store of [enter] is delayed: no fence follows it *)
| Flush (me : nat)                   (** and becomes visible *)
| Step (me : nat).                   (** the thread goes on *)

(** Thread [me], if it is attached and between calls. *)
Definition idle (me : nat) (d : domain) : option ThreadState :=
  r ← states d !! me;
  match in_use r, at_ r with
  | true, Out => Some r
  | _, _ => None
  end.

(** [None]: the action is not possible now. *)
Definition act (a : action) (d : domain) : option (outcome domain) :=
  match a with
  | New p => if bool_decide (p ∉ objects d) then Some (Done {| d with objects := {[p]} ∪ objects d |}) else None
  | Store src None => Some (Done {| d with sources := delete src (sources d) |})
  | Store src (Some p) =>
      if bool_decide (p ∈ objects d ∧ p ∉ pending d) then Some (Done {| d with sources := <[src := p]> (sources d) |}) else None
  | AttachNew => Some (Done {| d with states := states d ++ [ThreadState_new] |})
  | AttachReuse me =>
      r ← states d !! me;
      if in_use r then None else Some (Done (set_state me {| r with in_use := true; at_ := AClear |} d))
  | Enter me => r ← idle me d; Some (Done (set_state me {| r with at_ := EStore (global_epoch_ d) |} d))
  | Read me src =>
      r ← states d !! me;
      match at_ r, sources d !! src with
      | In, Some p => Some (Done (set_state me {| r with held := {[p]} ∪ held r |} d))
      | _, _ => None
      end
  | Leave me =>
      r ← states d !! me;
      match at_ r with
      | In => if buffered r then None else Some (Done (set_state me {| r with active := false; held := ∅; at_ := Out |} d))
      | _ => None
      end
  | Retire me p =>
      r ← states d !! me;
      match at_ r with
      | In | Out =>
          if bool_decide (in_use r = true ∧ p ∈ objects d ∧ p ∉ pending d ∧ Forall (λ q, q.2 ≠ p) (map_to_list (sources d))) then
            Some (Done (set_state me {| r with retired_tls_ := retired_tls_ r ++ [(p, global_epoch_ d)] |} {| d with history := ((history d).1 ++ [p], (history d).2) |}))
          else None
      | _ => None
      end
  | Tick me => r ← idle me d; Some (Done (set_state me {| r with at_ := MHead First |} d))
  | Detach me => r ← idle me d; Some (Done (set_state me {| r with active := false; at_ := DLock |} d))
  | Late me =>
      r ← states d !! me;
      match at_ r with
      | EActive => Some (Done (set_state me {| r with buffered := true; at_ := In |} d))
      | _ => None
      end
  | Flush me =>
      r ← states d !! me;
      if buffered r then Some (Done (set_state me {| r with active := true; buffered := false |} d)) else None
  | Step me =>
      r ← states d !! me;
      match simple_step me r d, min_step r d, tick_step me r d with
      | Some d', _, _ => Some (Done d')
      | _, Some o, _ => Some (c ← o; Done (set_state me {| r with at_ := c |} d))
      | _, _, Some o => Some o
      | _, _, _ => None
      end
  end.

Definition step (d d' : domain) : Prop := ∃ a, act a d = Some (Done d').
Definition reachable (d : domain) : Prop := rtc step QSBR_new d.

(** No thread detaches while it still has something to reclaim, and the stores of [enter] are
    visible before the thread goes on. *)
Definition tidy (a : action) (d : domain) : bool :=
  match a with
  | Late _ | Flush _ => false
  | Detach me => match states d !! me with Some r => bool_decide (retired_tls_ r = []) | None => true end
  | _ => true
  end.
Definition tidy_step (d d' : domain) : Prop := ∃ a, tidy a d = true ∧ act a d = Some (Done d').
Definition tidily_reachable (d : domain) : Prop := rtc tidy_step QSBR_new d.

Fixpoint run (l : list action) (d : domain) : option (outcome domain) :=
  match l with
  | [] => Some (Done d)
  | a :: l => match act a d with Some (Done d') => run l d' | o => o end
  end.
End QSBR.
