(* ===== verification/QSBRCorrect.v ===== *)
(** Quiescent-state reclamation deletes nothing that an active thread may still use, as
    long as no thread detaches with objects left to reclaim; with orphans it can. *)

From S2P Require Import Prelude QSBR.

Module QSBRCorrect.
Import QSBR.
Local Open Scope nat_scope.
Implicit Types (d : domain) (r : ThreadState) (p : ptr) (c : call).

(** * The invariant *)

(** What thread [A] holds of the retired objects of [r] is protected: [A] has still to be
    looked at, or the minimum is not beyond the epoch of the retirement. *)
Definition covered d r (todo : nat → Prop) (m : option nat) : Prop :=
  ∀ A a p e, states d !! A = Some a → p ∈ held a → (p, e) ∈ retired_tls_ r → todo A ∨ ∃ m0, m = Some m0 ∧ m0 ≤ e.

Definition place_ok d r : Prop :=
  match at_ r with
  | EStore g => g ≤ global_epoch_ d
  | DLock | DRelease => retired_tls_ r = []
  | MInUse First n _ => n ≤ length (states d)
  | MActive First n _ | MEpoch First n _ => n < length (states d)
  | MInUse Second n m => n ≤ length (states d) ∧ covered d r (λ A, A < n) m
  | MActive Second n m | MEpoch Second n m => n < length (states d) ∧ covered d r (λ A, A ≤ n) m
  | MGlobal Second => covered d r (λ _, False) None
  | TOwn safe kept todo => retired_tls_ r = kept ++ todo ∧ covered d r (λ _, False) (Some safe)
  | TAdopt _ | TFree _ => False
  | _ => True
  end.

Record thread_ok d r : Prop := {
  t_epoch : epoch r ≤ global_epoch_ d;
  t_active : active r = true ↔ at_ r = In;
  t_held : at_ r ≠ In → held r = ∅;
  t_unused : in_use r = false → at_ r = Out ∧ retired_tls_ r = [];
  t_retired p e : (p, e) ∈ retired_tls_ r → e ≤ global_epoch_ d;
  t_place : place_ok d r
}.

Record q_inv d : Prop := {
  q_thread me r : states d !! me = Some r → thread_ok d r;
  q_old A a B b p e : states d !! A = Some a → p ∈ held a → states d !! B = Some b → (p, e) ∈ retired_tls_ b → epoch a ≤ e;
  q_held A a p : states d !! A = Some a → p ∈ held a → p ∈ objects d;
  q_source src p : sources d !! src = Some p → p ∈ objects d ∧ p ∉ pending d;
  q_pending : NoDup (pending d);
  q_exists p : p ∈ pending d → p ∈ objects d;
  q_orphans : orphans_ d = [] ∧ orphan_count_ d = 0;
  q_history : (history d).1 ≡ₚ (history d).2 ++ pending d
}.

(** ** What is pending *)

Definition mine (r : ThreadState) : list ptr := (retired_tls_ r).*1 ++ in_flight r.
Definition others (me : nat) (l : list ThreadState) : list ThreadState := take me l ++ drop (S me) l.

Lemma states_insert (l : list ThreadState) me r r' : l !! me = Some r → <[me := r']> l ≡ₚ r' :: others me l.
Proof. intros H. rewrite (insert_take_drop _ _ _ (lookup_lt_Some _ _ _ H)). unfold others. by rewrite Permutation_middle. Qed.

Lemma pending_set d d' me r r' : states d !! me = Some r → states d' = <[me := r']> (states d) →
  pending d' ≡ₚ mine r' ++ (others me (states d) ≫= mine) ++ (orphans_ d').*1.
Proof. intros H E. unfold pending. rewrite E, (states_insert _ _ _ r' H). cbn. unfold mine. by rewrite !app_assoc. Qed.

Lemma pending_at d me r : states d !! me = Some r → pending d ≡ₚ mine r ++ (others me (states d) ≫= mine) ++ (orphans_ d).*1.
Proof. intros H. apply (pending_set d d me r r H). by rewrite list_insert_id. Qed.

Lemma retired_pending d me r p e : states d !! me = Some r → (p, e) ∈ retired_tls_ r → p ∈ pending d.
Proof.
  intros Hr He. rewrite (pending_at d me r Hr), elem_of_app. left. unfold mine. rewrite elem_of_app. left. apply list_elem_of_fmap. by exists (p, e).
Qed.

(** * Changing one thread *)

(** A covering stays when the others let go, or take what is not pending. *)
Lemma covered_frame d d' b todo m : (∀ p e, (p, e) ∈ retired_tls_ b → p ∈ pending d) →
  (∀ A a' p, states d' !! A = Some a' → p ∈ held a' → (∃ a, states d !! A = Some a ∧ p ∈ held a) ∨ p ∉ pending d) → covered d b todo m → covered d' b todo m.
Proof. intros Hb Hh Hc A a' p e Ha Hp He. destruct (Hh A a' p Ha Hp) as [(a & Ha0 & Hp0)|Hn]; [by eapply Hc|]. destruct Hn. by eapply Hb. Qed.

Lemma place_frame d d' b : (∀ p e, (p, e) ∈ retired_tls_ b → p ∈ pending d) → global_epoch_ d ≤ global_epoch_ d' → length (states d) ≤ length (states d') →
  (∀ A a' p, states d' !! A = Some a' → p ∈ held a' → (∃ a, states d !! A = Some a ∧ p ∈ held a) ∨ p ∉ pending d) → place_ok d b → place_ok d' b.
Proof.
  intros Hb Hg Hl Hh H6. pose proof (covered_frame d d' b) as Hcf. unfold place_ok in *.
  destruct (at_ b) as [| | | | | | | |[] ? ?|[] ? ?|[] ? ?|[]| | | | | |]; try done; try lia; try by apply Hcf.
  all: destruct H6 as [? Hc]; (split; [done || lia|by apply Hcf]).
Qed.

Lemma thread_ok_frame d d' B b : states d !! B = Some b → global_epoch_ d ≤ global_epoch_ d' → length (states d) ≤ length (states d') →
  (∀ A a' p, states d' !! A = Some a' → p ∈ held a' → (∃ a, states d !! A = Some a ∧ p ∈ held a) ∨ p ∉ pending d) → thread_ok d b → thread_ok d' b.
Proof.
  intros Hb Hg Hl Hh [H1 H2 H3 H4 H5 H6]. split; [lia|done|done|done|intros p e He; specialize (H5 p e He); lia|].
  eapply place_frame; [|done..]. intros p e. by eapply retired_pending.
Qed.

Section change.
Context d (Hi : q_inv d) (me : nat) r (Hr : states d !! me = Some r).

Lemma q_change d' r' : states d' = <[me := r']> (states d) → global_epoch_ d ≤ global_epoch_ d' → orphans_ d' = orphans_ d → orphan_count_ d' = orphan_count_ d →
  (∀ p, p ∈ held r' → p ∈ held r ∨ p ∈ objects d ∧ p ∉ pending d) → (held r' = ∅ ∨ epoch r' = epoch r) → epoch r' ≤ global_epoch_ d →
  (∀ p e, (p, e) ∈ retired_tls_ r' → (p, e) ∈ retired_tls_ r ∨ e = global_epoch_ d) →
  ((∀ A a' p, states d' !! A = Some a' → p ∈ held a' → (∃ a, states d !! A = Some a ∧ p ∈ held a) ∨ p ∉ pending d) → length (states d') = length (states d) → thread_ok d' r') →
  ((∀ A a' p, states d' !! A = Some a' → p ∈ held a' → (∃ a, states d !! A = Some a ∧ p ∈ held a) ∨ p ∈ objects d ∧ p ∉ pending d) → ∀ A a p, states d' !! A = Some a → p ∈ held a → p ∈ objects d') →
  (∀ src p, sources d' !! src = Some p → p ∈ objects d' ∧ p ∉ pending d') → NoDup (pending d') → (∀ p, p ∈ pending d' → p ∈ objects d') →
  (history d').1 ≡ₚ (history d').2 ++ pending d' → q_inv d'.
Proof.
  intros E Hg Eo Ec Hheld Hep Hepg Hret Hok Hhe Hsrc Hnd Hex Hh.
  assert (Hlen : length (states d') = length (states d)) by (rewrite E; apply length_insert).
  assert (Hlook : ∀ A a', states d' !! A = Some a' → A = me ∧ a' = r' ∨ A ≠ me ∧ states d !! A = Some a').
  { intros A a' Ha. rewrite E in Ha. apply list_lookup_insert_Some in Ha as [(<- & <- & _)|[? ?]]; [by left|by right]. }
  assert (Hm : ∀ A a' p, states d' !! A = Some a' → p ∈ held a' → (∃ a, states d !! A = Some a ∧ p ∈ held a) ∨ p ∈ objects d ∧ p ∉ pending d).
  { intros A a' p Ha Hp. apply Hlook in Ha as [[-> ->]|[_ Ha]]; [|left; by eexists]. apply Hheld in Hp as [?|?]; [left; by exists r|by right]. }
  assert (Hm' : ∀ A a' p, states d' !! A = Some a' → p ∈ held a' → (∃ a, states d !! A = Some a ∧ p ∈ held a) ∨ p ∉ pending d) by (intros A a' p Ha Hp; destruct (Hm A a' p Ha Hp); tauto).
  split; [| |by apply Hhe|done|done|done|by rewrite Eo, Ec; apply (q_orphans d Hi)|done].
  - intros A a Ha. apply Hlook in Ha as [[-> ->]|[_ Ha]]; [by apply Hok|]. eapply thread_ok_frame; [done|done|lia|done|by eapply (q_thread d Hi)].
  - intros A a B b p e Ha Hp Hb He.
    assert (Hea : epoch a ≤ global_epoch_ d) by (apply Hlook in Ha as [[-> ->]|[_ Ha]]; [done|by apply (t_epoch _ _ (q_thread d Hi _ _ Ha))]).
    assert (Hb0 : (∃ b0, states d !! B = Some b0 ∧ (p, e) ∈ retired_tls_ b0) ∨ e = global_epoch_ d).
    { apply Hlook in Hb as [[-> ->]|[_ Hb]]; [|left; by eexists]. apply Hret in He as [?|?]; [left; by eexists|by right]. }
    destruct Hb0 as [(b0 & Hb0 & He0)| ->]; [|done]. destruct (Hm' A a p Ha Hp) as [(a0 & Ha0 & Hp0)|Hn].
    + pose proof (q_old d Hi _ _ _ _ _ _ Ha0 Hp0 Hb0 He0) as Hle. apply Hlook in Ha as [[-> ->]|[_ Ha]]; [|congruence].
      assert (a0 = r) as -> by congruence. destruct Hep as [Hem|Hem]; [rewrite Hem in Hp; set_solver|lia].
    + destruct Hn. by eapply retired_pending.
Qed.

(** The thread moves on; what is pending and what exists stay. *)
Lemma q_move d' r' : states d' = <[me := r']> (states d) → global_epoch_ d ≤ global_epoch_ d' → orphans_ d' = orphans_ d → orphan_count_ d' = orphan_count_ d →
  objects d' = objects d → sources d' = sources d → history d' = history d → retired_tls_ r' = retired_tls_ r → in_flight r' = in_flight r →
  (∀ p, p ∈ held r' → p ∈ held r ∨ p ∈ objects d ∧ p ∉ pending d) → (held r' = ∅ ∨ epoch r' = epoch r) → epoch r' ≤ global_epoch_ d →
  ((∀ A a' p, states d' !! A = Some a' → p ∈ held a' → (∃ a, states d !! A = Some a ∧ p ∈ held a) ∨ p ∉ pending d) → length (states d') = length (states d) → thread_ok d' r') →
  q_inv d'.
Proof.
  intros E Hg Eo Ec Eob Es Eh Er Ef Hheld Hep Hepg Hok.
  assert (Ep : pending d' ≡ₚ pending d) by (rewrite (pending_set d d' me r r' Hr E), (pending_at d me r Hr), Eo; unfold mine; by rewrite Er, Ef).
  eapply q_change; try done.
  - intros p e. rewrite Er. by left.
  - intros Hm A a p Ha Hp. rewrite Eob. destruct (Hm A a p Ha Hp) as [(a0 & ? & ?)|[? _]]; [by eapply (q_held d Hi)|done].
  - intros src p. rewrite Eob, Es, Ep. apply (q_source d Hi).
  - rewrite Ep. apply (q_pending d Hi).
  - intros p. rewrite Eob, Ep. apply (q_exists d Hi).
  - rewrite Eh, Ep. apply (q_history d Hi).
Qed.

Context (Hok : thread_ok d r).

Lemma used : at_ r ≠ Out → in_use r = true.
Proof. intros H. destruct (in_use r) eqn:E; [done|]. by destruct (t_unused d r Hok E). Qed.

(** The thread goes on from one place outside [In] to another. *)
Lemma q_goto_at (c : pc) g : global_epoch_ d ≤ g → in_use r = true → at_ r ≠ In → c ≠ In → in_flight r = [] → in_flight {| r with at_ := c |} = [] → place_ok d {| r with at_ := c |} →
  q_inv (set_state me {| r with at_ := c |} {| d with global_epoch_ := g |}).
Proof.
  intros Hg Hu Ha Hc Hf Hf' Hp. pose proof Hok as [H1 H2 H3 H4 H5 H6].
  apply (q_move _ {| r with at_ := c |}); [done..|by rewrite Hf, Hf'|by left|by right|done|].
  intros Hm Hl. split; [cbn in *; lia| | |by cbn; rewrite Hu|cbn; intros p e He; specialize (H5 p e He); lia|].
  - cbn. split; [|done]. intros Hact. by apply H2 in Hact.
  - intros _. by apply H3.
  - eapply (place_frame d); [|done|by rewrite Hl|done|done]. intros p e. intros He; by eapply (retired_pending d me r).
Qed.

Lemma q_goto (c : pc) : in_use r = true → at_ r ≠ In → c ≠ In → in_flight r = [] → in_flight {| r with at_ := c |} = [] → place_ok d {| r with at_ := c |} →
  q_inv (set_state me {| r with at_ := c |} d).
Proof. intros. pose proof (q_goto_at c (global_epoch_ d)) as H'. by apply H'. Qed.

Lemma flight_none : in_flight r = [].
Proof. pose proof (t_place d r Hok) as Hp. unfold place_ok in Hp. unfold in_flight. by destruct (at_ r). Qed.

(** ** [min_active_epoch] *)

Lemma covered_all (todo : nat → Prop) m : (∀ A, A < length (states d) → todo A) → covered d r todo m.
Proof. intros H A a p e Ha _ _. left. apply H. by eapply lookup_lt_Some. Qed.

(** A thread that is not active holds nothing. *)
Lemma inactive_holds_nothing A a : states d !! A = Some a → in_use a = false ∨ active a = false → held a = ∅.
Proof.
  intros Ha H. pose proof (q_thread d Hi _ _ Ha) as Ht. apply (t_held _ _ Ht). intros E. destruct H as [H|H].
  - apply (t_unused _ _ Ht) in H as [H _]. congruence.
  - apply (t_active _ _ Ht) in E. congruence.
Qed.

(** State [n] has been looked at: [m'] covers what it holds. *)
Lemma covered_next n a m m' : covered d r (λ A, A ≤ n) m → states d !! n = Some a → (∀ m0, m = Some m0 → ∃ m1, m' = Some m1 ∧ m1 ≤ m0) →
  (held a = ∅ ∨ ∃ m1, m' = Some m1 ∧ m1 ≤ epoch a) → covered d r (λ A, A < n) m'.
Proof.
  intros Hc Ha Hm Hn A a0 p e Ha0 Hp He. destruct (decide (A = n)) as [->|Hne].
  - right. assert (a0 = a) as -> by congruence. destruct Hn as [Hn|(m1 & -> & Hle)]; [rewrite Hn in Hp; set_solver|].
    exists m1. split; [done|]. pose proof (q_old d Hi _ _ _ _ _ _ Ha Hp Hr He). lia.
  - destruct (Hc A a0 p e Ha0 Hp He) as [?|(m0 & E & ?)]; [left; lia|]. right. destruct (Hm m0 E) as (m1 & -> & ?). exists m1. split; [done|lia].
Qed.

Lemma covered_keep (m : option nat) m0 : m = Some m0 → ∃ m1, m = Some m1 ∧ m1 ≤ m0.
Proof. intros ->. by exists m0. Qed.

Lemma min_of_le m e : ∃ m1, min_of m e = Some m1 ∧ m1 ≤ e ∧ ∀ m0, m = Some m0 → m1 ≤ m0.
Proof.
  destruct m as [m|]; [|by exists e]. cbn [min_of]. exists (if e <? m then e else m). split; [done|].
  destruct (Nat.ltb_spec e m); (split; [lia|]); intros m0 E; injection E as <-; lia.
Qed.

(** Every step of the scan is defined, and what follows is in order. *)
Lemma min_place o : min_step r d = Some o → ∃ c : pc, o = Done c ∧ c ≠ In ∧ in_flight {| r with at_ := c |} = [] ∧ place_ok d {| r with at_ := c |}.
Proof.
  intros H. pose proof (t_place d r Hok) as Hp. unfold place_ok in Hp. unfold min_step in H.
  destruct (at_ r) as [| | | | | | |c|c [|n] m|c n m|c n m|c| | | | | |] eqn:E; try done.
  - injection H as <-. eexists. split; [done|]. split; [done|]. split; [done|]. destruct c; [cbn; lia|]. split; [lia|]. by apply covered_all.
  - destruct m as [m|]; injection H as <-; (eexists; split; [done|]).
    + destruct c; [done|]. destruct Hp as [_ Hc]. split; [done|]. split; [done|]. split; [done|]. intros A a p e Ha Hh He. destruct (Hc A a p e Ha Hh He); [lia|by right].
    + destruct c; [done|]. destruct Hp as [_ Hc]. split; [done|]. split; [done|]. intros A a p e Ha Hh He. destruct (Hc A a p e Ha Hh He); [lia|by right].
  - assert (Hn : n < length (states d)) by (destruct c; [|destruct Hp]; lia). destruct (lookup_lt_is_Some_2 _ _ Hn) as [a Ha]. rewrite Ha in H. injection H as <-.
    eexists. split; [done|]. assert (Hc : c = Second → covered d r (λ A, A ≤ n) m).
    { intros ->. destruct Hp as [_ Hc]. intros A a0 p e H1 H2 H3. destruct (Hc A a0 p e H1 H2 H3) as [?|?]; [left; lia|by right]. }
    destruct (in_use a) eqn:Eu; (split; [done|]); (split; [done|]).
    + destruct c; [done|]. split; [done|]. by apply Hc.
    + destruct c; [cbn; lia|]. split; [lia|]. eapply (covered_next n a m); [by apply Hc|done|apply covered_keep|]. left. by eapply inactive_holds_nothing; [|left].
  - assert (Hn : n < length (states d)) by (destruct c; [|destruct Hp]; lia). destruct (lookup_lt_is_Some_2 _ _ Hn) as [a Ha]. rewrite Ha in H. injection H as <-.
    eexists. split; [done|]. destruct (active a) eqn:Eu; (split; [done|]); (split; [done|]).
    + by destruct c.
    + destruct c; [cbn; lia|]. destruct Hp as [_ Hc]. split; [lia|]. eapply (covered_next n a m); [done|done|apply covered_keep|]. left. by eapply inactive_holds_nothing; [|right].
  - assert (Hn : n < length (states d)) by (destruct c; [|destruct Hp]; lia). destruct (lookup_lt_is_Some_2 _ _ Hn) as [a Ha]. rewrite Ha in H. injection H as <-.
    eexists. split; [done|]. split; [done|]. split; [done|]. destruct c; [cbn; lia|]. destruct Hp as [_ Hc]. split; [lia|].
    destruct (min_of_le m (epoch a)) as (m1 & Em & He & Hm). eapply (covered_next n a m); [done|done|intros m0 E0; exists m1; auto|right; by exists m1].
  - injection H as <-. eexists. split; [done|]. split; [by destruct c|]. split; [by destruct c|]. destruct c; [done|]. split; [done|].
    intros A a p e Ha Hh He. destruct (Hp A a p e Ha Hh He) as [?|(? & ? & _)]; done.
Qed.

Lemma qsbr_min_inv o : min_step r d = Some o → ∃ d', (c ← o; Done (set_state me {| r with at_ := c |} d)) = Done d' ∧ q_inv d'.
Proof.
  intros H. destruct (min_place o H) as (c & -> & Hc & Hf & Hp). eexists. split; [done|].
  assert (at_ r ≠ In ∧ at_ r ≠ Out) as [Ha Ho] by (unfold min_step in H; by destruct (at_ r)). apply q_goto; [by apply used|done|done|apply flight_none|done|done].
Qed.

(** ** [enter], [attach_current_thread], [detach_current_thread] *)

Lemma qsbr_simple_inv d' : simple_step me r d = Some d' → q_inv d'.
Proof.
  intros H. pose proof Hok as [H1 H2 H3 H4 H5 H6]. unfold place_ok in H6. unfold simple_step in H.
  destruct (at_ r) eqn:E; try done; pose proof (used ltac:(by rewrite E)) as Hu; specialize (H3 ltac:(done)).
  - injection H as <-. apply (q_move _ {| r with epoch := g; at_ := EActive |}); [done..|unfold in_flight; by rewrite E|by left|by left|done|].
    intros _ _. split; [done| |done|by cbn; rewrite Hu|done|done]. cbn. split; [|done]. by intros ?%H2.
  - injection H as <-. apply (q_move _ {| r with active := true; at_ := In |}); [done..|unfold in_flight; by rewrite E|by left|by right|done|].
    intros _ _. by split; cbn; rewrite ?Hu.
  - injection H as <-. apply (q_move _ {| r with active := false; at_ := Out |}); [done..|unfold in_flight; by rewrite E|by left|by right|done|].
    intros _ _. by split; cbn; rewrite ?Hu.
  - assert (Hgo : q_inv (set_state me {| r with at_ := DRelease |} d)) by (apply q_goto; [done|by rewrite E|done|apply flight_none|done|done]).
    rewrite H6 in H, Hgo. by injection H as <-.
  - injection H as <-. apply (q_move _ {| r with in_use := false; at_ := Out |}); [done..|unfold in_flight; by rewrite E|by left|by right|done|].
    intros _ _. split; [done| |done|done|done|done]. cbn. split; [|done]. by intros ?%H2.
Qed.

(** ** [quiesce_tick] *)

Lemma own_delete safe kept p e todo : at_ r = TOwn safe kept ((p, e) :: todo) → e < safe →
  ∃ d', destroy p d = Done d' ∧ q_inv (set_state me {| r with retired_tls_ := kept ++ todo; at_ := TOwn safe kept todo |} d').
Proof.
  intros E Hlt. pose proof Hok as [H1 H2 H3 H4 H5 H6]. unfold place_ok in H6. rewrite E in H6. destruct H6 as [Hl Hc]. pose proof (used ltac:(by rewrite E)) as Hu.
  assert (Hin : (p, e) ∈ retired_tls_ r) by (rewrite Hl; set_solver). pose proof (retired_pending d me r p e Hr Hin) as Hp.
  assert (Hno : ∀ A a, states d !! A = Some a → p ∉ held a) by (intros A a Ha Hh; destruct (Hc A a p e Ha Hh Hin) as [?|(m0 & [= <-] & ?)]; [done|lia]).
  unfold destroy. rewrite bool_decide_true by by apply (q_exists d Hi). eexists. split; [done|]. set (d' := set_state _ _ _).
  set (r' := {| r with retired_tls_ := kept ++ todo; at_ := TOwn safe kept todo |}) in d'.
  assert (Hpd : pending d ≡ₚ p :: pending d').
  { rewrite (pending_at d me r Hr), (pending_set d d' me r r' Hr eq_refl). unfold mine. rewrite flight_none, Hl. cbn. rewrite !fmap_app. cbn. rewrite !app_nil_r. by rewrite <- Permutation_middle. }
  pose proof (q_pending d Hi) as Hnd. rewrite Hpd in Hnd. apply NoDup_cons in Hnd as [Hnin Hnd].
  assert (Hsub : ∀ q f, (q, f) ∈ kept ++ todo → (q, f) ∈ retired_tls_ r) by (intros q f; rewrite Hl; set_solver).
  apply (q_change d' r'); [done..|by left|by right|done|left; by apply Hsub| | | |done| |].
  - intros Hm Hlen. split; [done|cbn; rewrite H2, E; done|intros _; apply H3; by rewrite E|by cbn; rewrite Hu| |].
    + cbn. intros q f Hq. by apply (H5 q f), Hsub.
    + split; [done|]. intros A a q f Ha Hh Hq. apply Hsub in Hq. destruct (Hm A a q Ha Hh) as [(a0 & Ha0 & Hh0)|Hn]; [by apply (Hc A a0 q f)|]. destruct Hn. by eapply retired_pending.
  - intros Hm A a q Ha Hh. cbn. apply elem_of_difference. destruct (Hm A a q Ha Hh) as [(a0 & Ha0 & Hh0)|[Hob Hn]].
    + split; [by eapply (q_held d Hi)|]. intros ->%elem_of_singleton. by eapply Hno.
    + split; [done|]. intros ->%elem_of_singleton. by apply Hn.
  - intros src q Hs. apply (q_source d Hi) in Hs as [Hob Hn]. rewrite Hpd, not_elem_of_cons in Hn. destruct Hn as [Hne Hn].
    split; [|done]. cbn. apply elem_of_difference. split; [done|]. by intros ?%elem_of_singleton.
  - intros q Hq. cbn. apply elem_of_difference. split; [apply (q_exists d Hi); rewrite Hpd; by apply elem_of_cons; right|]. by intros ->%elem_of_singleton.
  - cbn. rewrite (q_history d Hi), Hpd. by rewrite <- app_assoc.
Qed.

Lemma qsbr_tick_inv o : tick_step me r d = Some o → ∃ d', o = Done d' ∧ q_inv d'.
Proof.
  intros H. pose proof (t_place d r Hok) as Hp. pose proof flight_none as Hf. unfold place_ok in Hp. unfold tick_step in H.
  destruct (at_ r) as [| | | | | | | | | | | |m| |safe kept [|[p e] todo]|safe|safe|] eqn:E; try done; pose proof (used ltac:(by rewrite E)) as Hu; assert (Ha : at_ r ≠ In) by by rewrite E.
  - injection H as <-. eexists. split; [done|]. destruct (m =? _); by apply q_goto.
  - injection H as <-. eexists. split; [done|]. apply (q_goto_at (MHead Second) (S (global_epoch_ d))); try done. lia.
  - destruct Hp as [Hl _]. rewrite app_nil_r in Hl. injection H as <-. eexists. split; [done|]. rewrite <- Hl. by apply q_goto.
  - destruct Hp as [Hl Hc]. destruct (Nat.ltb_spec e safe) as [Hlt|Hge]; injection H as <-.
    + destruct (own_delete safe kept p e todo E Hlt) as (d' & -> & ?). eexists. by split.
    + eexists. split; [done|]. apply q_goto; try done. split; [|done]. cbn. by rewrite <- app_assoc.
  - injection H as <-. eexists. split; [done|]. destruct (q_orphans d Hi) as [_ ->]. by apply q_goto.
Qed.
End change.

(** * The machine *)

Section machine.
Context d (Hi : q_inv d).

Lemma q_new p : q_inv {| d with objects := {[p]} ∪ objects d |}.
Proof.
  split; try apply Hi.
  - intros me r Hr. eapply (thread_ok_frame d); [done..| |by eapply (q_thread d Hi)]. intros A a q ? ?. left. by exists a.
  - intros A a q Ha Hq. apply elem_of_union_r. by eapply (q_held d Hi).
  - intros src q Hq. apply (q_source d Hi) in Hq as [? ?]. split; [by apply elem_of_union_r|done].
  - intros q Hq. apply elem_of_union_r. by apply (q_exists d Hi).
Qed.

Lemma q_store m : (∀ src p, m !! src = Some p → p ∈ objects d ∧ p ∉ pending d) → q_inv {| d with sources := m |}.
Proof.
  intros Hm. split; try apply Hi; [|done]. intros me r Hr. eapply (thread_ok_frame d); [done..| |by eapply (q_thread d Hi)]. intros A a q ? ?. left. by exists a.
Qed.

Lemma q_attach : q_inv {| d with states := states d ++ [ThreadState_new] |}.
Proof.
  set (d' := {| d with states := _ |}).
  assert (Hl : ∀ A a, states d' !! A = Some a → states d !! A = Some a ∨ a = ThreadState_new).
  { intros A a Ha. apply lookup_app_Some in Ha as [Ha|[_ Ha]]; [by left|]. apply list_lookup_singleton_Some in Ha as [_ <-]. by right. }
  assert (Hh : ∀ A a p, states d' !! A = Some a → p ∈ held a → states d !! A = Some a).
  { intros A a p Ha Hp. apply Hl in Ha as [Ha|Ha]; [done|]. rewrite Ha in Hp. cbn in Hp. set_solver. }
  assert (Hpd : pending d' = pending d) by (unfold pending, d'; cbn; rewrite bind_app; cbn; by rewrite app_nil_r).
  split; [| | | | | |apply (q_orphans d Hi)|].
  - intros me r Hr. apply Hl in Hr as [Hr| ->].
    + eapply (thread_ok_frame d); [done|done|cbn; rewrite length_app; lia| |by eapply (q_thread d Hi)]. intros A a q Ha Hq. left. exists a. split; [by eapply Hh|done].
    + split; [cbn; lia|done|done|done| |done]. cbn. intros p e He. by apply elem_of_nil in He.
  - intros A a B b p e Ha Hp Hb He. apply Hl in Hb as [Hb| ->]; [|by apply elem_of_nil in He]. eapply (q_old d Hi); [by eapply Hh|done..].
  - intros A a p Ha Hp. eapply (q_held d Hi); [by eapply Hh|done].
  - intros src p. rewrite Hpd. apply (q_source d Hi).
  - rewrite Hpd. apply (q_pending d Hi).
  - intros p. rewrite Hpd. apply (q_exists d Hi).
  - rewrite Hpd. apply (q_history d Hi).
Qed.

Lemma qsbr_idle_inv me r : idle me d = Some r → states d !! me = Some r ∧ in_use r = true ∧ at_ r = Out.
Proof.
  unfold idle. destruct (states d !! me) as [r0|]; cbn; [|done]. destruct (in_use r0) eqn:Eu, (at_ r0) eqn:E; try done. intros [= <-]. done.
Qed.

Lemma when_between {A} r (x : option A) o : match at_ r with In | Out => x | _ => None end = Some o → (at_ r = In ∨ at_ r = Out) ∧ x = Some o.
Proof. destruct (at_ r); try done; auto. Qed.

Lemma qsbr_retire_inv me r p : states d !! me = Some r → in_use r = true → at_ r = In ∨ at_ r = Out → p ∈ objects d → p ∉ pending d → (∀ src, sources d !! src ≠ Some p) →
  q_inv (set_state me {| r with retired_tls_ := retired_tls_ r ++ [(p, global_epoch_ d)] |} {| d with history := ((history d).1 ++ [p], (history d).2) |}).
Proof.
  intros Hr Hu Ha Hob Hnp Hsrc. pose proof (q_thread d Hi _ _ Hr) as [H1 H2 H3 H4 H5 H6]. set (r' := {| r with retired_tls_ := _ |}). set (d' := set_state _ _ _).
  assert (Hpd : pending d' ≡ₚ p :: pending d).
  { rewrite (pending_set d d' me r r' Hr eq_refl), (pending_at d me r Hr). unfold mine, r'. cbn. rewrite fmap_app, <- !app_assoc. cbn.
    unfold in_flight. cbn. by rewrite <- Permutation_middle. }
  eapply (q_change d Hi me r Hr d' r'); [done..|by left|by right|done| | | | | | |].
  - cbn. intros q e [?|Hq]%elem_of_app; [by left|]. right. apply list_elem_of_singleton in Hq. by injection Hq.
  - intros _ _. split; [done|done|done|by cbn; rewrite Hu| |].
    + cbn. intros q e [?|Hq]%elem_of_app; [by eapply H5|]. apply list_elem_of_singleton in Hq. by injection Hq as _ ->.
    + unfold place_ok. cbn. by destruct Ha as [-> | ->].
  - intros Hm A a q HA Hq. destruct (Hm A a q HA Hq) as [(a0 & ? & ?)|[? _]]; [by eapply (q_held d Hi)|done].
  - intros src q Hq. rewrite Hpd. pose proof Hq as Hq'. apply (q_source d Hi) in Hq as [? ?]. split; [done|]. intros [->|?]%elem_of_cons; [by eapply Hsrc|done].
  - rewrite Hpd. apply NoDup_cons. split; [done|apply (q_pending d Hi)].
  - intros q. rewrite Hpd. intros [->|?]%elem_of_cons; [done|by apply (q_exists d Hi)].
  - rewrite Hpd. cbn. rewrite (q_history d Hi), <- app_assoc. apply Permutation_app_head. symmetry. apply Permutation_cons_append.
Qed.

Lemma qsbr_read_inv me r src p : states d !! me = Some r → at_ r = In → sources d !! src = Some p → q_inv (set_state me {| r with held := {[p]} ∪ held r |} d).
Proof.
  intros Hr E Hs. pose proof (q_thread d Hi _ _ Hr) as [H1 H2 H3 H4 H5 H6]. apply (q_source d Hi) in Hs.
  eapply (q_move d Hi me r Hr _ {| r with held := {[p]} ∪ held r |}); [done..| |by right|done|].
  - cbn. intros q [->%elem_of_singleton|?]%elem_of_union; [by right|by left].
  - intros _ _. split; [done|done|by cbn; rewrite E|done|done|]. unfold place_ok. cbn. by rewrite E.
Qed.

Lemma qsbr_leave_inv me r : states d !! me = Some r → at_ r = In → q_inv (set_state me {| r with active := false; held := ∅; at_ := Out |} d).
Proof.
  intros Hr E. pose proof (q_thread d Hi _ _ Hr) as [H1 H2 H3 H4 H5 H6].
  eapply (q_move d Hi me r Hr _ {| r with active := false; held := ∅; at_ := Out |}); [done..|unfold in_flight; by rewrite E|cbn; set_solver|by left|done|].
  intros _ _. split; [done|done|done| |done|done]. cbn. intros Hu. apply H4 in Hu as [Hu _]. congruence.
Qed.

(** Every action that is possible is defined; a tidy one keeps the invariant. *)
Lemma qsbr_act_inv a o : tidy a d = true → act a d = Some o → ∃ d', o = Done d' ∧ q_inv d'.
Proof.
  intros Ht H. destruct a as [p|src [p|]| |me|me|me src|me|me p|me|me|me|me|me]; cbn [act] in H; try done.
  - case_bool_decide; [|done]. injection H as <-. eexists. split; [done|]. apply q_new.
  - case_bool_decide as Hp; [|done]. injection H as <-. eexists. split; [done|]. apply q_store.
    intros s q [[_ <-]|[_ Hs]]%lookup_insert_Some; [done|by eapply (q_source d Hi)].
  - injection H as <-. eexists. split; [done|]. apply q_store. intros s q [_ Hs]%lookup_delete_Some. by eapply (q_source d Hi).
  - injection H as <-. eexists. split; [done|]. apply q_attach.
  - destruct (states d !! me) as [r|] eqn:Hr; cbn in H; [|done]. destruct (in_use r) eqn:Hu; [done|]. injection H as <-. eexists. split; [done|].
    pose proof (q_thread d Hi _ _ Hr) as [H1 H2 H3 H4 H5 H6]. destruct (H4 Hu) as [E El].
    apply (q_move d Hi me r Hr _ {| r with in_use := true; at_ := AClear |}); [done..|unfold in_flight; by rewrite E|by left|by right|done|].
    intros _ _. split; [done|cbn; rewrite H2, E; done|intros _; apply H3; by rewrite E|done|done|done].
  - destruct (idle me d) as [r|] eqn:Hr; cbn in H; [|done]. apply qsbr_idle_inv in Hr as (Hr & Hu & E). injection H as <-. eexists. split; [done|].
    apply (q_goto d Hi me r Hr (q_thread d Hi _ _ Hr)); [done|by rewrite E|done|unfold in_flight; by rewrite E|done|cbn; lia].
  - destruct (states d !! me) as [r|] eqn:Hr; cbn in H; [|done]. destruct (at_ r) eqn:E; try done. destruct (sources d !! src) as [p|] eqn:Es; [|done].
    injection H as <-. eexists. split; [done|]. rewrite <- E. by eapply qsbr_read_inv.
  - destruct (states d !! me) as [r|] eqn:Hr; cbn in H; [|done]. destruct (at_ r) eqn:E; try done. destruct (bool_dec (buffered r) false) as [Eb|Eb%not_false_is_true]; [rewrite (if_false _ _ _ Eb) in H|by rewrite Eb in H].
    injection H as <-. eexists. split; [done|]. by apply qsbr_leave_inv.
  - destruct (states d !! me) as [r|] eqn:Hr; cbn in H; [|done].
    apply when_between in H as [Ha H]. case_bool_decide as Hp; [|done]. destruct Hp as (Hu & Hob & Hnp & Hf). injection H as <-.
    eexists. split; [done|]. apply qsbr_retire_inv; [done..|]. intros src Hs. rewrite Forall_forall in Hf. apply (Hf (src, p)); [by apply elem_of_map_to_list|done].
  - destruct (idle me d) as [r|] eqn:Hr; cbn in H; [|done]. apply qsbr_idle_inv in Hr as (Hr & Hu & E). injection H as <-. eexists. split; [done|].
    apply (q_goto d Hi me r Hr (q_thread d Hi _ _ Hr)); [done|by rewrite E|done|unfold in_flight; by rewrite E|done|done].
  - destruct (idle me d) as [r|] eqn:Hr; cbn in H; [|done]. apply qsbr_idle_inv in Hr as (Hr & Hu & E). cbn in Ht. rewrite Hr in Ht. apply bool_decide_eq_true in Ht.
    injection H as <-. eexists. split; [done|]. pose proof (q_thread d Hi _ _ Hr) as [H1 H2 H3 H4 H5 H6].
    apply (q_move d Hi me r Hr _ {| r with active := false; at_ := DLock |}); [done..|unfold in_flight; by rewrite E|by left|by right|done|].
    intros _ _. split; [done|done|intros _; apply H3; by rewrite E|by cbn; rewrite Hu|done|done].
  - destruct (states d !! me) as [r|] eqn:Hr; cbn in H; [|done]. pose proof (q_thread d Hi _ _ Hr) as Hok.
    destruct (simple_step me r d) as [d'|] eqn:Es; [injection H as <-; eexists; split; [done|]; by eapply qsbr_simple_inv|].
    destruct (min_step r d) as [o'|] eqn:Em; [injection H as <-; by eapply qsbr_min_inv|].
    destruct (tick_step me r d) as [o'|] eqn:El; [|done]. injection H as <-. by eapply qsbr_tick_inv.
Qed.
End machine.

Lemma qsbr_new_inv : q_inv QSBR_new.
Proof. split; try done. - apply NoDup_nil_2. - intros p Hp. by apply elem_of_nil in Hp. Qed.

Lemma qsbr_reachable_inv d : tidily_reachable d → q_inv d.
Proof. apply rtc_ind_r; [apply qsbr_new_inv|]. intros x y _ (a & Ht & Ha) Hx. by destruct (qsbr_act_inv x Hx a _ Ht Ha) as (d' & [= <-] & ?). Qed.

(** * A tick by itself *)

Definition tick_alone (me : nat) d d' : Prop := act (Step me) d = Some (Done d').

Section alone.
Context d (me : nat) r (Hr : states d !! me = Some r) (Hnone : ∀ A a, states d !! A = Some a → active a = false).

Lemma state_at (r' : ThreadState) d0 : states d0 = states d → states (set_state me r' d0) !! me = Some r'.
Proof. intros E. cbn. rewrite E. apply list_lookup_insert_eq. by eapply lookup_lt_Some. Qed.

Lemma set_set (r1 r2 : ThreadState) d0 : set_state me r2 (set_state me r1 d0) = set_state me r2 d0.
Proof. unfold set_state. cbn. by rewrite list_insert_insert_eq. Qed.

(** Nobody is active, whatever place the thread itself is at. *)
Lemma nobody_active (c : pc) A a : states (set_state me {| r with at_ := c |} d) !! A = Some a → active a = false.
Proof. intros H. cbn in H. apply list_lookup_insert_Some in H as [(_ & <- & _)|[_ H]]; [by eapply (Hnone me r)|by eapply Hnone]. Qed.

Lemma min_goes (c c' : pc) : min_step {| r with at_ := c |} (set_state me {| r with at_ := c |} d) = Some (Done c') →
  tick_alone me (set_state me {| r with at_ := c |} d) (set_state me {| r with at_ := c' |} d).
Proof.
  intros H. unfold tick_alone. cbn [act]. rewrite state_at by done. cbn [mbind option_bind]. rewrite H.
  assert (Hs : simple_step me {| r with at_ := c |} (set_state me {| r with at_ := c |} d) = None) by (unfold min_step in H; unfold simple_step; cbn in *; by destruct c).
  rewrite Hs. cbn [mbind outcome_bind]. do 2 f_equal. apply set_set.
Qed.

Lemma min_alone c n : n ≤ length (states d) →
  rtc (tick_alone me) (set_state me {| r with at_ := MInUse c n None |} d) (set_state me {| r with at_ := MGlobal c |} d).
Proof.
  induction n as [|n IH]; intros Hn; [apply rtc_once; by apply min_goes|].
  assert (Hlook : ∀ x : pc, ∃ a, states (set_state me {| r with at_ := x |} d) !! n = Some a ∧ active a = false).
  { intros x. destruct (lookup_lt_is_Some_2 (states (set_state me {| r with at_ := x |} d)) n) as [a Ha]; [cbn; rewrite length_insert; lia|]. exists a. split; [done|by eapply nobody_active]. }
  destruct (Hlook (MInUse c (S n) None)) as (a & Ha & _). destruct (in_use a) eqn:Eu.
  - eapply rtc_l; [apply (min_goes _ (MActive c n None)); unfold min_step; cbn [at_]; rewrite Ha; cbn; by rewrite Eu|].
    destruct (Hlook (MActive c n None)) as (b & Hb & Eb). eapply rtc_l; [apply (min_goes _ (MInUse c n None)); unfold min_step; cbn [at_]; rewrite Hb; cbn; by rewrite Eb|].
    apply IH. lia.
  - eapply rtc_l; [apply (min_goes _ (MInUse c n None)); unfold min_step; cbn [at_]; rewrite Ha; cbn; by rewrite Eu|]. apply IH. lia.
Qed.

(** The call, from its start to the place after it. *)
Lemma min_call_alone c :
  rtc (tick_alone me) (set_state me {| r with at_ := MHead c |} d) (set_state me {| r with at_ := min_returned c (global_epoch_ d) r |} d).
Proof.
  eapply rtc_l; [apply (min_goes _ (MInUse c (length (states d)) None)); cbn; by rewrite length_insert|].
  etrans; [by apply min_alone|]. apply rtc_once. by apply min_goes.
Qed.
End alone.

(** The loop over the retired objects, when all of them are old enough. *)
Lemma own_alone safe todo : ∀ d me r, q_inv d → states d !! me = Some r → at_ r = TOwn safe [] todo → (∀ p e, (p, e) ∈ todo → e < safe) →
  ∃ d' r', rtc (tick_alone me) d d' ∧ states d' !! me = Some r' ∧ at_ r' = Out ∧ retired_tls_ r' = [] ∧ ∀ p, p ∈ objects d' ↔ p ∈ objects d ∧ p ∉ todo.*1.
Proof.
  induction todo as [|[p e] todo IH]; intros d me r Hi Hr E Hold; pose proof (q_thread d Hi _ _ Hr) as Hok; pose proof (lookup_lt_Some _ _ _ Hr) as Hlt.
  - eexists _, {| r with retired_tls_ := []; at_ := Out |}. split.
    { eapply rtc_l; [unfold tick_alone; cbn [act]; rewrite Hr; cbn [mbind option_bind]; unfold simple_step, min_step, tick_step; rewrite E; done|].
      apply rtc_once. unfold tick_alone. cbn [act]. rewrite (state_at d me r Hr) by done. cbn. rewrite (proj2 (q_orphans d Hi)). done. }
    cbn. rewrite list_lookup_insert_eq by (by rewrite length_insert). split; [done|]. split; [done|]. split; [done|]. set_solver.
  - destruct (own_delete d Hi me r Hr Hok safe [] p e todo E) as (d1 & Hd1 & Hi1); [apply (Hold p e); by left|]. cbn in Hi1.
    assert (Hst : states d1 = states d ∧ objects d1 = objects d ∖ {[p]}) by (unfold destroy in Hd1; case_bool_decide; [|done]; by injection Hd1 as <-).
    destruct Hst as [Hst Hob]. destruct (IH _ me _ Hi1 (state_at d me r Hr _ d1 Hst) eq_refl) as (d' & r' & Hrun & Hr' & E' & Hret & Hobj); [intros q f Hq; apply (Hold q f); by right|].
    exists d', r'. split; [|split; [done|split; [done|split; [done|]]]].
    + eapply rtc_l; [|exact Hrun]. unfold tick_alone. cbn [act]. rewrite Hr. cbn [mbind option_bind]. unfold simple_step, min_step, tick_step. rewrite E, Hd1.
      assert (e < safe) by (apply (Hold p e); by left). by rewrite (proj2 (Nat.ltb_lt _ _)).
    + intros q. rewrite Hobj. cbn. rewrite Hob. set_solver.
Qed.

Lemma alone_inv me d d' : rtc (tick_alone me) d d' → q_inv d → q_inv d'.
Proof. intros H. induction H as [|x y z Hxy _ IH]; [done|]. intros Hx. apply IH. by destruct (qsbr_act_inv x Hx (Step me) _ eq_refl Hxy) as (? & [= <-] & ?). Qed.

(** C25: as long as no thread has detached with something left to reclaim, a thread that
    ticks while nobody is active and no other thread runs deletes everything it has retired;
    the tick ends. *)
Theorem tick_reclaims d me r : tidily_reachable d → states d !! me = Some r → at_ r = MHead First → (∀ A a, states d !! A = Some a → active a = false) →
  ∃ d' r', rtc (tick_alone me) d d' ∧ states d' !! me = Some r' ∧ at_ r' = Out ∧ retired_tls_ r' = [] ∧ ∀ p, p ∈ objects d' ↔ p ∈ objects d ∧ p ∉ (retired_tls_ r).*1.
Proof.
  intros Hd Hr E Hnone. pose proof (qsbr_reachable_inv d Hd) as Hi. pose proof (q_thread d Hi _ _ Hr) as Hok.
  set (G := global_epoch_ d). set (d1 := {| d with global_epoch_ := S G |}).
  assert (Hid : set_state me {| r with at_ := MHead First |} d = d) by (unfold set_state; rewrite <- E; destruct r, d; cbn in *; by rewrite list_insert_id).
  pose proof (min_call_alone d me r Hr Hnone First) as Hrun1. rewrite Hid in Hrun1.
  assert (Hgo : ∀ (c : pc) d0 o, states d0 = states d → simple_step me {| r with at_ := c |} (set_state me {| r with at_ := c |} d0) = None → min_step {| r with at_ := c |} (set_state me {| r with at_ := c |} d0) = None →
    tick_step me {| r with at_ := c |} (set_state me {| r with at_ := c |} d0) = Some (Done o) → tick_alone me (set_state me {| r with at_ := c |} d0) o).
  { intros c d0 o Es H1 H2 H3. unfold tick_alone. cbn [act]. rewrite (state_at d me r Hr) by done. cbn [mbind option_bind]. by rewrite H1, H2, H3. }
  assert (Hrun2 : rtc (tick_alone me) (set_state me {| r with at_ := TCompare G |} d) (set_state me {| r with at_ := MHead Second |} d1)).
  { eapply rtc_l; [apply (Hgo _ d (set_state me {| r with at_ := TAdd |} d)); [done..|]|].
    - unfold tick_step. cbn [at_ set_state global_epoch_]. rewrite Nat.eqb_refl. do 2 f_equal. apply set_set.
    - apply rtc_once. apply (Hgo TAdd d); [done..|]. unfold tick_step. cbn [at_]. do 2 f_equal. unfold set_state, d1, G. cbn. by rewrite list_insert_insert_eq. }
  pose proof (min_call_alone d1 me r Hr Hnone Second) as Hrun3. cbn [global_epoch_ d1 min_returned] in Hrun3.
  assert (Hrun : rtc (tick_alone me) d (set_state me {| r with at_ := TOwn (S G) [] (retired_tls_ r) |} d1)) by (etrans; [exact Hrun1|]; etrans; [exact Hrun2|exact Hrun3]).
  destruct (own_alone (S G) (retired_tls_ r) _ me _ (alone_inv _ _ _ Hrun Hi) (state_at d me r Hr _ d1 eq_refl) eq_refl) as (d' & r' & Hrun4 & Hr' & E' & Hret & Hobj).
  - intros p e He. pose proof (t_retired d r Hok p e He). unfold G. lia.
  - exists d', r'. split; [by etrans|]. done.
Qed.

Lemma qsbr_run_tidy l : ∀ d d', tidily_reachable d → forallb (λ a, match a with Detach _ | Late _ | Flush _ => false | _ => true end) l = true → run l d = Some (Done d') → tidily_reachable d'.
Proof.
  induction l as [|a l IH]; intros d d' Hd Hl H; cbn in H; [by injection H as <-|]. cbn in Hl. apply andb_true_iff in Hl as [Ha Hl].
  destruct (act a d) as [[d1| |]|] eqn:Ea; try done. apply (IH d1); [|done|done]. eapply rtc_r; [exact Hd|]. exists a. split; [by destruct a|done].
Qed.

Definition after_run (l : list action) : domain := match run l QSBR_new with Some (Done d) => d | _ => QSBR_new end.
Definition state_of (me : nat) d : ThreadState := default ThreadState_new (states d !! me).

(** Two threads; the first has retired an object that the second has read, and ticks. *)
Definition one_retired : list action :=
  [New 1; Store 0 (Some 1); AttachNew; AttachNew; Enter 1; Step 1; Step 1; Read 1 0; Store 0 None; Retire 0 1]%positive.

Lemma tick_reclaims_witness :
  let d := after_run (one_retired ++ [Leave 1; Tick 0]) in
  retired_tls_ (state_of 0 d) = [(1%positive, 1)] ∧
  ∃ d' r', rtc (tick_alone 0) d d' ∧ states d' !! 0 = Some r' ∧ at_ r' = Out ∧ retired_tls_ r' = [] ∧ ∀ p, p ∈ objects d' ↔ p ∈ objects d ∧ p ∉ (retired_tls_ (state_of 0 d)).*1.
Proof.
  intros d. split; [vm_compute; reflexivity|]. apply (tick_reclaims d 0 (state_of 0 d)).
  - apply (qsbr_run_tidy (one_retired ++ [Leave 1; Tick 0]) QSBR_new); [apply rtc_refl|vm_compute; reflexivity|vm_compute; reflexivity].
  - vm_compute; reflexivity.
  - vm_compute; reflexivity.
  - intros [|[|A]] a Ha; vm_compute in Ha; [injection Ha as <-; reflexivity|injection Ha as <-; reflexivity|discriminate].
Defined.

(** C24: as long as no thread detaches with something left to reclaim, and the stores of
    [enter] are visible before the reads that follow (the code has no fence between them), under
    every interleaving: no step deletes an object that is gone, every object that an active
    thread has read since it entered exists, no shared pointer dangles, and what was
    retired is, without repetition, what was deleted and what still waits. *)
Theorem qsbr_safe d : tidily_reachable d →
  (∀ a o, tidy a d = true → act a d = Some o → ∃ d', o = Done d') ∧
  (∀ A a p, states d !! A = Some a → p ∈ held a → at_ a = In ∧ p ∈ objects d) ∧
  (∀ src p, sources d !! src = Some p → p ∈ objects d) ∧
  NoDup (pending d) ∧ (∀ p, p ∈ pending d → p ∈ objects d) ∧ (history d).1 ≡ₚ (history d).2 ++ pending d.
Proof.
  intros Hd. pose proof (qsbr_reachable_inv d Hd) as Hi. split; [|split; [|split; [|split; [|split]]]].
  - intros a o Ht Ha. destruct (qsbr_act_inv d Hi a o Ht Ha) as (d' & -> & _). by eexists.
  - intros A a p HA Hp. split; [|by eapply (q_held d Hi)]. pose proof (q_thread d Hi _ _ HA) as Ht.
    destruct (active a) eqn:Ea; [by apply (t_active _ _ Ht)|]. rewrite (t_held _ _ Ht) in Hp; [set_solver|]. intros E. apply (t_active _ _ Ht) in E. congruence.
  - intros src p Hs. by eapply (q_source d Hi).
  - apply (q_pending d Hi).
  - apply (q_exists d Hi).
  - apply (q_history d Hi).
Qed.

(** The first thread ticks to the end while the second still holds the object. *)
Definition one_held : list action := one_retired ++ Tick 0 :: replicate 19 (Step 0).

Lemma qsbr_safe_witness :
  let d := after_run one_held in
  at_ (state_of 0 d) = Out ∧ 1%positive ∈ held (state_of 1 d) ∧
  (∀ A a p, states d !! A = Some a → p ∈ held a → at_ a = In ∧ p ∈ objects d) ∧ NoDup (pending d).
Proof.
  intros d. split; [vm_compute; reflexivity|]. split; [apply (bool_decide_eq_true_1 _); vm_compute; reflexivity|].
  assert (Hd : tidily_reachable d) by (apply (qsbr_run_tidy one_held QSBR_new); [apply rtc_refl|vm_compute; reflexivity|vm_compute; reflexivity]).
  split; apply (qsbr_safe d Hd).
Defined.

(** * Orphans *)

(** Thread 1 ticks and finds nobody active; before it reads the global epoch, thread 0
    enters and reads the object, and thread 2 takes it out, retires it, ticks (which
    advances the epoch) and detaches. *)
Definition orphan_race : list action :=
  [New 1; Store 0 (Some 1); AttachNew; AttachNew; AttachNew; Tick 1]%positive ++ replicate 19 (Step 1) ++
  [Enter 0; Step 0; Step 0; Read 0 0; Store 0 None; Retire 2 1; Tick 2]%positive ++ replicate 23 (Step 2) ++ [Detach 2; Step 2; Step 2] ++ replicate 5 (Step 1).

(** Thread 1 reads the object while its mark is still in the store buffer. *)
Definition delayed_race : list action :=
  [New 1; Store 0 (Some 1); AttachNew; AttachNew; Enter 1; Step 1; Late 1; Read 1 0; Store 0 None; Retire 0 1; Tick 0]%positive ++ replicate 19 (Step 0) ++ [Flush 1].

(** Without a fence in [enter] an object can be deleted under an active thread that uses it: the
    tick does not see the thread yet. *)
Theorem delayed_enter_unsafe :
  ∃ d a, run delayed_race QSBR_new = Some (Done d) ∧ states d !! 1 = Some a ∧ at_ a = In ∧ active a = true ∧ 1%positive ∈ held a ∧ 1%positive ∉ objects d.
Proof.
  eexists _, _. split; [vm_compute; reflexivity|]. split; [vm_compute; reflexivity|]. split; [reflexivity|]. split; [reflexivity|].
  split; apply (bool_decide_eq_true_1 _); vm_compute; reflexivity.
Qed.

(** With orphans an object can be deleted under an active thread that uses it: the first
    thread reads a global epoch that was advanced after it had looked at the others. *)
Theorem orphans_unsafe :
  ∃ d a, run orphan_race QSBR_new = Some (Done d) ∧ states d !! 0 = Some a ∧ at_ a = In ∧ active a = true ∧ 1%positive ∈ held a ∧ 1%positive ∉ objects d.
Proof.
  eexists _, _. split; [vm_compute; reflexivity|]. split; [vm_compute; reflexivity|]. split; [reflexivity|]. split; [reflexivity|].
  split; apply (bool_decide_eq_true_1 _); vm_compute; reflexivity.
Qed.
End QSBRCorrect.
