(* ===== verification/TaggedPtr.v ===== *)
(** Tagged pointers ([TaggedPtr.h]): an address of 48 bits and a counter of 16 bits in one
    word, exchanged together.

    An address is a 64-bit word; the word [bits_] is read and written atomically, so every
    operation is a function of it.  A weak exchange may fail although the words are equal:
    [spurious] says whether it does. *)

From S2P Require Import Prelude.

Module TaggedPtr.

Definition kPtrBits : Z := 48.
Definition kTagBits : Z := 64 - kPtrBits.
Definition kPtrMask : Z := 2 ^ kPtrBits - 1.
Definition kTagShift : Z := kPtrBits.
Definition kTagVMask : Z := 2 ^ kTagBits - 1.

(** ** Packing *)

Definition pack (ptr tag : Z) : Z :=
  let raw := Z.land ptr kPtrMask in
  Z.lor raw (u64 (Z.shiftl (Z.land tag kTagVMask) kTagShift)).

Definition unpack_ptr (v : Z) : Z :=
  let raw := Z.land v kPtrMask in
  let sign_bit := 2 ^ (kPtrBits - 1) in
  u64 (Z.lxor raw sign_bit - sign_bit).

Definition unpack_tag (v : Z) : Z := u16 (Z.land (Z.shiftr v kTagShift) kTagVMask).

(** ** The word *)

Record Snapshot := mkSnapshot { ptr_ : Z; tag : Z }.
Record TaggedPtr := mkTaggedPtr { bits_ : Z }.

#[export] Instance Snapshot_eq_dec : EqDecision Snapshot.
Proof. solve_decision. Defined.

Definition TaggedPtr_null : TaggedPtr := mkTaggedPtr 0.
Definition TaggedPtr_new (p tag : Z) : TaggedPtr := mkTaggedPtr (pack p tag).

Definition load (t : TaggedPtr) : Snapshot := mkSnapshot (unpack_ptr (bits_ t)) (unpack_tag (bits_ t)).
Definition store (s : Snapshot) (t : TaggedPtr) : TaggedPtr := mkTaggedPtr (pack (ptr_ s) (tag s)).
Definition store_parts (ptr tag : Z) (t : TaggedPtr) : TaggedPtr := mkTaggedPtr (pack ptr tag).

(** [bits_.compare_exchange]: whether it succeeded, [exp] afterwards, the word. *)
Definition exchange (spurious : bool) (exp des : Z) (t : TaggedPtr) : bool * Z * TaggedPtr :=
  if (bits_ t =? exp) && negb spurious then (true, exp, mkTaggedPtr des) else (false, bits_ t, t).

(** The exchanges answer, leave [expected] behind and change the word. *)
Definition compare_exchange_weak (spurious : bool) (expected : Snapshot) (desired : Z) (t : TaggedPtr) : bool * Snapshot * TaggedPtr :=
  let exp := pack (ptr_ expected) (tag expected) in
  let ntag := u16 (Z.land (tag expected + 1) kTagVMask) in
  let des := pack desired ntag in
  let '(ok, exp, t) := exchange spurious exp des t in
  if ok then (true, expected, t) else (false, mkSnapshot (unpack_ptr exp) (unpack_tag exp), t).

Definition compare_exchange_strong (expected : Snapshot) (desired : Z) (t : TaggedPtr) : bool * Snapshot * TaggedPtr :=
  let exp := pack (ptr_ expected) (tag expected) in
  let ntag := u16 (Z.land (tag expected + 1) kTagVMask) in
  let des := pack desired ntag in
  let '(ok, exp, t) := exchange false exp des t in
  if ok then (true, expected, t) else (false, mkSnapshot (unpack_ptr exp) (unpack_tag exp), t).

Definition compare_exchange_weak_tag (spurious : bool) (expected : Snapshot) (desired desired_tag : Z) (t : TaggedPtr) : bool * Snapshot * TaggedPtr :=
  let exp := pack (ptr_ expected) (tag expected) in
  let des := pack desired desired_tag in
  let '(ok, exp, t) := exchange spurious exp des t in
  if ok then (true, expected, t) else (false, mkSnapshot (unpack_ptr exp) (unpack_tag exp), t).

Definition compare_exchange_strong_tag (expected : Snapshot) (desired desired_tag : Z) (t : TaggedPtr) : bool * Snapshot * TaggedPtr :=
  let exp := pack (ptr_ expected) (tag expected) in
  let des := pack desired desired_tag in
  let '(ok, exp, t) := exchange false exp des t in
  if ok then (true, expected, t) else (false, mkSnapshot (unpack_ptr exp) (unpack_tag exp), t).

(** Any threads: each turn reads the word and exchanges it for a new pointer. *)
Fixpoint exchanges (l : list Z) (t : TaggedPtr) : TaggedPtr :=
  match l with
  | [] => t
  | p :: l => exchanges l (compare_exchange_strong (load t) p t).2
  end.
End TaggedPtr.

(** A tagged pointer is its pair: packing and unpacking are inverse for canonical
    addresses, an exchange succeeds when the pair is the expected one, and a stale pair is
    refused until the counter has come round. *)

Module TaggedPtrCorrect.
Import TaggedPtr.

(** The addresses a program can have with four levels of page tables: bits 47 to 63 agree. *)
Definition canonical (p : Z) : Prop := 0 <= p < 2 ^ 47 ∨ 2 ^ 64 - 2 ^ 47 <= p < 2 ^ 64.
Definition snapshot_ok (s : Snapshot) : Prop := canonical (ptr_ s) ∧ in_range 16 (tag s).
Definition word_ok (t : TaggedPtr) : Prop := in_range 64 (bits_ t).

(** * Words as numbers *)

Lemma pack_number p t : pack p t = p mod 2 ^ 48 + t mod 2 ^ 16 * 2 ^ 48.
Proof.
  unfold pack. cbn zeta. change kPtrMask with (2 ^ 48 - 1). change kTagVMask with (2 ^ 16 - 1). change kTagShift with 48.
  rewrite !land_mask by lia. rewrite Z.shiftl_mul_pow2 by lia.
  pose proof (Z.mod_pos_bound p (2 ^ 48) ltac:(lia)). pose proof (Z.mod_pos_bound t (2 ^ 16) ltac:(lia)).
  rewrite wrap_small by lia. symmetry. apply Z.add_nocarry_lor.
  rewrite <- (Z.mod_small (p mod 2 ^ 48) (2 ^ 48)) by lia. rewrite <- Z.land_ones by lia. rewrite <- Z.land_assoc, (Z.land_comm (Z.ones 48)).
  rewrite Z.land_ones, Z.mod_mul by lia. apply Z.land_0_r.
Qed.

Lemma unpack_tag_number v : in_range 64 v → unpack_tag v = v / 2 ^ 48.
Proof.
  intros Hv. unfold in_range in Hv. unfold unpack_tag. change kTagVMask with (2 ^ 16 - 1). change kTagShift with 48.
  rewrite land_mask, Z.shiftr_div_pow2 by lia. assert (0 <= v / 2 ^ 48 < 2 ^ 16) by (split; [apply Z.div_pos; lia|apply Z.div_lt_upper_bound; lia]).
  rewrite Z.mod_small by lia. by apply wrap_small.
Qed.

(** The sign bit, flipped and subtracted, fills the upper bits. *)
Lemma flip_sign raw : 0 <= raw < 2 ^ 48 → Z.lxor raw (2 ^ 47) - 2 ^ 47 = if raw <? 2 ^ 47 then raw else raw - 2 ^ 48.
Proof.
  intros Hr. pose proof (Z.add_lxor_2land raw (2 ^ 47)) as Hx.
  assert (Hl : Z.land raw (2 ^ 47) = if raw <? 2 ^ 47 then 0 else 2 ^ 47).
  { apply Z.bits_inj'. intros n Hn. rewrite Z.land_spec, Z.pow2_bits_eqb by done. destruct (Z.eqb_spec 47 n) as [<-|Hne].
    - rewrite andb_true_r. destruct (Z.ltb_spec raw (2 ^ 47)).
      + rewrite Z.bits_0. destruct (decide (raw = 0)) as [->|]; [done|]. apply Z.bits_above_log2; [lia|]. apply Z.log2_lt_pow2; lia.
      + rewrite Z.pow2_bits_true by done. replace raw with (raw - 2 ^ 47 + 1 * 2 ^ 47) by lia. apply Z.b2z_inj. rewrite Z.testbit_spec' by done.
        rewrite Z.div_add by lia. by rewrite Z.div_small by lia.
    - rewrite andb_false_r. destruct (Z.ltb_spec raw (2 ^ 47)); [by rewrite Z.bits_0|]. by rewrite Z.pow2_bits_false. }
  rewrite Hl in Hx. destruct (raw <? 2 ^ 47); lia.
Qed.

Lemma unpack_ptr_number v : unpack_ptr v = let raw := v mod 2 ^ 48 in if raw <? 2 ^ 47 then raw else raw + (2 ^ 64 - 2 ^ 48).
Proof.
  unfold unpack_ptr. cbn zeta. change kPtrMask with (2 ^ 48 - 1). change (kPtrBits - 1) with 47. rewrite land_mask by lia.
  pose proof (Z.mod_pos_bound v (2 ^ 48) ltac:(lia)) as Hb. rewrite flip_sign by done. destruct (Z.ltb_spec (v mod 2 ^ 48) (2 ^ 47)).
  - apply wrap_small. lia.
  - unfold wrap. rewrite <- (Z.mod_add _ 1) by lia. rewrite Z.mod_small; lia.
Qed.

(** * Round trips *)

Lemma pack_word p t : in_range 64 (pack p t).
Proof.
  rewrite pack_number. pose proof (Z.mod_pos_bound p (2 ^ 48) ltac:(lia)). pose proof (Z.mod_pos_bound t (2 ^ 16) ltac:(lia)). unfold in_range. lia.
Qed.

Lemma unpack_canonical v : canonical (unpack_ptr v).
Proof.
  rewrite unpack_ptr_number. cbn zeta. pose proof (Z.mod_pos_bound v (2 ^ 48) ltac:(lia)). unfold canonical. destruct (Z.ltb_spec (v mod 2 ^ 48) (2 ^ 47)); lia.
Qed.

Lemma unpack_tag_range v : in_range 16 (unpack_tag v).
Proof. unfold unpack_tag, in_range. apply wrap_bound. lia. Qed.

Lemma unpack_pack_tag p t : in_range 16 t → unpack_tag (pack p t) = t.
Proof.
  intros Ht. unfold in_range in Ht. rewrite unpack_tag_number by apply pack_word. rewrite pack_number. pose proof (Z.mod_pos_bound p (2 ^ 48) ltac:(lia)).
  rewrite Z.div_add by lia. rewrite Z.div_small, Z.mod_small by lia. lia.
Qed.

Lemma pack_mod p t : pack p t mod 2 ^ 48 = p mod 2 ^ 48.
Proof. rewrite pack_number, Z.mod_add, Z.mod_mod by lia. done. Qed.

Lemma canonical_mod p : canonical p → p mod 2 ^ 48 = if p <? 2 ^ 47 then p else p - (2 ^ 64 - 2 ^ 48).
Proof.
  intros Hp. destruct (Z.ltb_spec p (2 ^ 47)); unfold canonical in Hp.
  - apply Z.mod_small. lia.
  - rewrite <- (Z.mod_add _ (- (2 ^ 16 - 1))) by lia. rewrite Z.mod_small; lia.
Qed.

Lemma unpack_pack_ptr p t : canonical p → unpack_ptr (pack p t) = p.
Proof.
  intros Hp. rewrite unpack_ptr_number, pack_mod, canonical_mod by done. cbn zeta. unfold canonical in Hp.
  destruct (Z.ltb_spec p (2 ^ 47)); [by rewrite (proj2 (Z.ltb_lt _ _))|]. rewrite (proj2 (Z.ltb_ge _ _)) by lia. lia.
Qed.

Lemma pack_unpack v : in_range 64 v → pack (unpack_ptr v) (unpack_tag v) = v.
Proof.
  intros Hv. rewrite pack_number, unpack_tag_number by done. rewrite canonical_mod by apply unpack_canonical. rewrite unpack_ptr_number. cbn zeta.
  unfold in_range in Hv. assert (0 <= v / 2 ^ 48 < 2 ^ 16) by (split; [apply Z.div_pos; lia|apply Z.div_lt_upper_bound; lia]).
  rewrite (Z.mod_small (v / 2 ^ 48)) by lia. pose proof (Z.div_mod v (2 ^ 48) ltac:(lia)). pose proof (Z.mod_pos_bound v (2 ^ 48) ltac:(lia)).
  destruct (Z.ltb_spec (v mod 2 ^ 48) (2 ^ 47)); [rewrite (proj2 (Z.ltb_lt _ _)) by done; lia|]. rewrite (proj2 (Z.ltb_ge _ _)) by lia. lia.
Qed.

Lemma pack_inj s s' : snapshot_ok s → snapshot_ok s' → pack (ptr_ s) (tag s) = pack (ptr_ s') (tag s') → s = s'.
Proof.
  intros [Hp Ht] [Hp' Ht'] H. destruct s as [p t], s' as [p' t']. cbn in *.
  f_equal; [rewrite <- (unpack_pack_ptr p t Hp), H; by apply unpack_pack_ptr|rewrite <- (unpack_pack_tag p t Ht), H; by apply unpack_pack_tag].
Qed.

(** C40: packing and unpacking are inverse both ways.  A canonical address and a 16-bit
    counter come back from the word they are packed into, every word is the packing of
    what it unpacks to, and what is unpacked is canonical; any other address is changed. *)
Theorem tagged_ptr_round_trip :
  (∀ p t, canonical p → in_range 16 t → unpack_ptr (pack p t) = p ∧ unpack_tag (pack p t) = t ∧ in_range 64 (pack p t)) ∧
  (∀ v, in_range 64 v → pack (unpack_ptr v) (unpack_tag v) = v ∧ canonical (unpack_ptr v) ∧ in_range 16 (unpack_tag v)) ∧
  (∀ p t, ¬ canonical p → unpack_ptr (pack p t) ≠ p).
Proof.
  split; [|split].
  - intros p t Hp Ht. split; [by apply unpack_pack_ptr|]. split; [by apply unpack_pack_tag|apply pack_word].
  - intros v Hv. split; [by apply pack_unpack|]. split; [apply unpack_canonical|apply unpack_tag_range].
  - intros p t Hp E. apply Hp. rewrite <- E. apply unpack_canonical.
Qed.

Lemma tagged_ptr_round_trip_witness :
  unpack_ptr (pack (2 ^ 64 - 4096) 65535) = 2 ^ 64 - 4096 ∧ pack (unpack_ptr (2 ^ 63 + 7)) (unpack_tag (2 ^ 63 + 7)) = 2 ^ 63 + 7 ∧ unpack_ptr (pack (2 ^ 50) 1) ≠ 2 ^ 50.
Proof.
  destruct tagged_ptr_round_trip as (H1 & H2 & H3). split; [|split].
  - destruct (H1 (2 ^ 64 - 4096) 65535) as [E _]; [right; lia|unfold in_range; lia|exact E].
  - destruct (H2 (2 ^ 63 + 7)) as [E _]; [unfold in_range; lia|exact E].
  - apply (H3 (2 ^ 50) 1). unfold canonical. lia.
Defined.

(** * Exchanges *)

Lemma load_ok t : snapshot_ok (load t).
Proof. split; [apply unpack_canonical|apply unpack_tag_range]. Qed.

Lemma load_new p t : snapshot_ok (mkSnapshot p t) → load (TaggedPtr_new p t) = mkSnapshot p t.
Proof. intros [Hp Ht]. unfold load. cbn in *. by rewrite unpack_pack_ptr, unpack_pack_tag. Qed.

Lemma word_of_load t : word_ok t → bits_ t = pack (ptr_ (load t)) (tag (load t)).
Proof. intros H. cbn. by rewrite pack_unpack. Qed.

(** The comparison of words is that of the pairs. *)
Lemma word_eqb t s : word_ok t → snapshot_ok s → (bits_ t =? pack (ptr_ s) (tag s)) = bool_decide (load t = s).
Proof.
  intros Ht Hs. rewrite (word_of_load t Ht) at 1. destruct (Z.eqb_spec (pack (ptr_ (load t)) (tag (load t))) (pack (ptr_ s) (tag s))) as [E|E].
  - rewrite bool_decide_true; [done|]. apply pack_inj; [apply load_ok|done|done].
  - rewrite bool_decide_false; [done|]. by intros <-.
Qed.

Lemma next_tag t : in_range 16 t → u16 (Z.land (t + 1) kTagVMask) = (t + 1) mod 2 ^ 16.
Proof. intros. change kTagVMask with (2 ^ 16 - 1). rewrite land_mask by lia. apply wrap_small. apply Z.mod_pos_bound. lia. Qed.

Lemma next_tag_range t : in_range 16 ((t + 1) mod 2 ^ 16).
Proof. apply Z.mod_pos_bound. lia. Qed.

(** An exchange acts on the pair.  A strong one succeeds exactly when the pair is the
    expected one, and then the pointer is the desired one and the counter one more, modulo
    2^16; when it fails the word is as it was and [expected] holds its pair.  A weak one
    may also fail for no reason; with an explicit counter that counter is stored. *)
Theorem tagged_ptr_exchange t s p : word_ok t → snapshot_ok s → canonical p →
  let won := mkSnapshot p ((tag s + 1) mod 2 ^ 16) in
  (∃ t', word_ok t' ∧ load t' = won ∧ compare_exchange_strong s p t = if bool_decide (load t = s) then (true, s, t') else (false, load t, t)) ∧
  (∀ spurious, ∃ t', word_ok t' ∧ load t' = won ∧
     compare_exchange_weak spurious s p t = if bool_decide (load t = s) && negb spurious then (true, s, t') else (false, load t, t)) ∧
  (∀ spurious g, in_range 16 g → ∃ t', word_ok t' ∧ load t' = mkSnapshot p g ∧
     compare_exchange_weak_tag spurious s p g t = (if bool_decide (load t = s) && negb spurious then (true, s, t') else (false, load t, t)) ∧
     compare_exchange_strong_tag s p g t = if bool_decide (load t = s) then (true, s, t') else (false, load t, t)).
Proof.
  intros Ht Hs Hp won. destruct Hs as [Hsp Hst] eqn:Ehs. clear Ehs. pose proof (word_eqb t s Ht (conj Hsp Hst)) as Heq.
  assert (Hwon : load (TaggedPtr_new p ((tag s + 1) mod 2 ^ 16)) = won) by (apply load_new; split; [done|apply next_tag_range]).
  unfold compare_exchange_strong, compare_exchange_weak, compare_exchange_weak_tag, compare_exchange_strong_tag, exchange. cbn zeta.
  rewrite next_tag, Heq by done. split; [|split].
  - exists (TaggedPtr_new p ((tag s + 1) mod 2 ^ 16)). split; [apply pack_word|]. split; [exact Hwon|]. rewrite andb_true_r. by case_bool_decide.
  - intros spurious. exists (TaggedPtr_new p ((tag s + 1) mod 2 ^ 16)). split; [apply pack_word|]. split; [exact Hwon|]. by destruct (bool_decide _ && negb spurious).
  - intros spurious g Hg. exists (TaggedPtr_new p g). split; [apply pack_word|]. split; [by apply load_new|].
    split; [by destruct (bool_decide _ && negb spurious)|]. rewrite andb_true_r. by case_bool_decide.
Qed.

Lemma tagged_ptr_exchange_witness :
  load (TaggedPtr_new 64 65535) = mkSnapshot 64 65535 ∧
  (∃ t', word_ok t' ∧ load t' = mkSnapshot 128 0 ∧ compare_exchange_strong (mkSnapshot 64 65535) 128 (TaggedPtr_new 64 65535) = (true, mkSnapshot 64 65535, t')).
Proof.
  split; [vm_compute; reflexivity|].
  destruct (tagged_ptr_exchange (TaggedPtr_new 64 65535) (mkSnapshot 64 65535) 128) as [(t' & H1 & H2 & H3) _].
  - apply pack_word.
  - split; [left; cbn; lia|unfold in_range; cbn; lia].
  - left. lia.
  - exists t'. split; [exact H1|]. split; [exact H2|exact H3].
Defined.

(** * The counter against reuse *)

(** One turn of [exchanges]: it always succeeds. *)
Lemma exchange_turn t p : word_ok t → canonical p →
  let t' := (compare_exchange_strong (load t) p t).2 in word_ok t' ∧ load t' = mkSnapshot p ((tag (load t) + 1) mod 2 ^ 16).
Proof.
  intros Ht Hp t'. unfold t', compare_exchange_strong, exchange. cbn zeta. rewrite word_eqb by (done || apply load_ok). rewrite bool_decide_true by done. cbn [andb negb snd].
  rewrite next_tag by apply (load_ok t). split; [apply pack_word|]. apply load_new. split; [done|apply next_tag_range].
Qed.

Lemma exchanges_load l : ∀ t, word_ok t → Forall canonical l →
  word_ok (exchanges l t) ∧ load (exchanges l t) = mkSnapshot (default (ptr_ (load t)) (last l)) ((tag (load t) + Z.of_nat (length l)) mod 2 ^ 16).
Proof.
  induction l as [|p l IH]; intros t Ht Hl.
  - split; [done|]. cbn [exchanges last length default]. rewrite Z.add_0_r, Z.mod_small by apply (load_ok t). by destruct (load t).
  - apply Forall_cons in Hl as [Hp Hl]. destruct (exchange_turn t p Ht Hp) as [Ht' El]. destruct (IH _ Ht' Hl) as [Hw Hlo]. split; [done|].
    cbn [exchanges]. rewrite Hlo, El. cbn [ptr_ tag]. rewrite last_cons. f_equal; [by destruct (last l)|].
    rewrite Zplus_mod_idemp_l. f_equal. cbn [length]. lia.
Qed.

(** A stale pair is refused for a while, and only for a while.  After fewer than 2^16
    exchanges by anyone an exchange that expects the pair of before fails, whatever the
    pointer has become; after 2^16 that end in the old pointer it succeeds. *)
Theorem stale_snapshot l t p : word_ok t → Forall canonical l → canonical p →
  (0 < Z.of_nat (length l) < 2 ^ 16 → (compare_exchange_strong (load t) p (exchanges l t)).1.1 = false) ∧
  (Z.of_nat (length l) = 2 ^ 16 → last l = Some (ptr_ (load t)) → (compare_exchange_strong (load t) p (exchanges l t)).1.1 = true).
Proof.
  intros Ht Hl Hp. destruct (exchanges_load l t Ht Hl) as [Hw Hlo]. pose proof (load_ok t) as Hs. pose proof Hs as [_ Hr]. unfold in_range in Hr.
  unfold compare_exchange_strong, exchange. cbn zeta. rewrite word_eqb by done. split.
  - intros Hlen. rewrite bool_decide_false; [done|]. rewrite Hlo. intros E. apply (f_equal tag) in E. cbn [tag] in E.
    destruct (Z_lt_ge_dec (tag (load t) + Z.of_nat (length l)) (2 ^ 16)); [rewrite Z.mod_small in E; lia|].
    rewrite <- (Z.mod_add _ (-1)), Z.mod_small in E; lia.
  - intros Hlen Hlast. rewrite bool_decide_true; [done|]. rewrite Hlo, Hlast, Hlen. cbn [default].
    replace (2 ^ 16) with (1 * 2 ^ 16) at 1 by done. rewrite Z.mod_add, Z.mod_small by lia. by destruct (load t).
Qed.

Lemma stale_snapshot_witness :
  (compare_exchange_strong (mkSnapshot 64 7) 8 (exchanges [128; 64] (TaggedPtr_new 64 7))).1.1 = false ∧
  (compare_exchange_strong (mkSnapshot 64 7) 8 (exchanges (replicate (Z.to_nat 65536) 64) (TaggedPtr_new 64 7))).1.1 = true.
Proof.
  split.
  - apply (stale_snapshot [128; 64] (TaggedPtr_new 64 7) 8);
      [apply pack_word|repeat constructor; lia|left; lia|cbn; lia].
  - apply (stale_snapshot (replicate (Z.to_nat 65536) 64) (TaggedPtr_new 64 7) 8);
      [apply pack_word|apply Forall_replicate; left; lia|left; lia|vm_compute; reflexivity|vm_compute; reflexivity].
Defined.
End TaggedPtrCorrect.
