(* ===== verification/HazardPointers.v ===== *)
(** Hazard pointers ([HazardPointers.h], [HazardPointers.cpp]): every thread publishes the
    pointers it is about to use in the slots of a record; a retired object is deleted by
    a scan that finds it in no slot.

    Any number of threads interleave, one step per access to memory other threads see.
    The objects belong to clients: a client may put an object into a shared pointer,
    take it out again, and retire it once it is out of all of them.  A slot carries a mark
    that the program does not have: it says that its thread has read this pointer from a
    shared pointer since the slot was written. *)

From S2P Require Import Prelude.

Module HazardPointers.

Local Open Scope nat_scope.

(** The pointers that fit into a cache line. *)
Definition kSlots : nat := 8.

(** Which list a scan reclaims. *)
Inductive target := Mine | Orphans.
(** What comes after a scan: [retire] returns, [release_record] goes on. *)
Inductive after := AReturn | ARelease.

Inductive pc :=
| Idle
| Counting                                       (** [acquire_record]: [n_records_.fetch_add] *)
| PLoad (src : nat)                              (** [protect]: [src.load] *)
| PFind (src : nat) (p : ptr)                    (** the slots are searched, or one is published *)
| PVerify (src : nat) (p : ptr)                  (** [src.load] again *)
| SHead (t : target) (k : after)                 (** [collect_hazards]: [head_.load] *)
| SRec (t : target) (k : after) (n : nat) (out : list ptr)        (** [n] records are left: is the next one active? *)
| SSlot (t : target) (k : after) (n i : nat) (out : list ptr)     (** slot [i] of record [n] *)
| SFree (t : target) (k : after) (out kept todo : list ptr)       (** [reclaim]: the loop over the list *)
| SLock (k : after)                              (** [scan]: [orphan_mu_.try_lock] *)
| XLock                                          (** [release_record]: the retired are left to others *)
| XClear (i : nat)                               (** slot [i] is cleared *)
| XInactive.                                     (** [active.store(false)] *)

Record Rec := mkRec {
  hp : list (option (ptr * bool));  (** with the mark *)
  active : bool;
  retired : list ptr;
  victim : nat;
  at_ : pc
}.

Record domain := mkDomain {
  records : list Rec;       (** from the oldest to the newest, which [head_] points to *)
  n_records_ : nat;
  orphan_mu_ : option nat;  (** the record of the thread that holds the mutex *)
  orphans_ : list ptr;
  objects : gset ptr;       (** the objects that exist *)
  sources : gmap nat ptr;   (** the shared pointers that are not null *)
  history : list ptr * list ptr (** what was retired and what was deleted *)
}.

Definition Rec_new : Rec := mkRec (replicate kSlots None) true [] 0 Counting.
Definition HazardDomain_new : domain := mkDomain [] 0 None [] ∅ ∅ ([], []).

(** ** [protect] *)

(** The mark is set on the slots that hold [p]. *)
Definition mark (p : ptr) (slots : list (option (ptr * bool))) : list (option (ptr * bool)) :=
  (λ o, match o with Some (q, b) => Some (q, b || bool_decide (q = p)) | None => None end) <$> slots.

Definition holds (p : ptr) (slots : list (option (ptr * bool))) : bool :=
  existsb (λ o, match o with Some (q, _) => bool_decide (q = p) | None => false end) slots.

(** One step of [protect] by the owner of [r]; it answers when it returns. *)
Definition protect_step (r : Rec) (d : domain) : option (Rec * option (option ptr)) :=
  match at_ r with
  | PLoad src =>
      match sources d !! src with
      | None => Some ({| r with at_ := Idle |}, Some None)
      | Some p => Some ({| r with hp := mark p (hp r); at_ := PFind src p |}, None)
      end
  | PFind src p =>
      if holds p (hp r) then Some ({| r with at_ := Idle |}, Some (Some p))
      else Some ({| r with hp := <[victim r := Some (p, false)]> (hp r); victim := (victim r + 1) mod kSlots; at_ := PVerify src p |}, None)
  | PVerify src p =>
      match sources d !! src with
      | None => Some ({| r with at_ := Idle |}, Some None)
      | Some again =>
          let slots := mark again (hp r) in
          if bool_decide (again = p) then Some ({| r with hp := slots; at_ := Idle |}, Some (Some p))
          else Some ({| r with hp := slots; at_ := PFind src again |}, None)
      end
  | _ => None
  end.

(** ** [scan] *)

Definition list_of (t : target) (r : Rec) (d : domain) : list ptr := match t with Mine => retired r | Orphans => orphans_ d end.

(** [rec] of thread [me] and the list it reclaims. *)
Definition put_list (t : target) (me : nat) (r : Rec) (l : list ptr) (d : domain) : domain :=
  match t with
  | Mine => {| d with records := <[me := {| r with retired := l |}]> (records d) |}
  | Orphans => {| d with records := <[me := r]> (records d); orphans_ := l |}
  end.

(** Where the call goes after the whole scan. *)
Definition scanned (k : after) : pc := match k with AReturn => Idle | ARelease => XLock end.

(** After a list is reclaimed: its own list is followed by the orphans; then the mutex
    is unlocked. *)
Definition reclaimed (t : target) (k : after) : pc := match t with Mine => SLock k | Orphans => scanned k end.

Definition scan_step (me : nat) (r : Rec) (d : domain) : option (outcome domain) :=
  match at_ r with
  | SHead t k => Some (Done {| d with records := <[me := {| r with at_ := SRec t k (length (records d)) [] |}]> (records d) |})
  | SRec t k 0 out => Some (Done {| d with records := <[me := {| r with at_ := SFree t k out [] (list_of t r d) |}]> (records d) |})
  | SRec t k (S n) out =>
      Some (o ← deref (records d !! n);
            Done {| d with records := <[me := {| r with at_ := if active o then SSlot t k n 0 out else SRec t k n out |}]> (records d) |})
  | SSlot t k n i out =>
      if i <? kSlots then
        Some (o ← deref (records d !! n);
              v ← deref (hp o !! i);
              let out := match v with Some (p, _) => p :: out | None => out end in
              Done {| d with records := <[me := {| r with at_ := SSlot t k n (S i) out |}]> (records d) |})
      else Some (Done {| d with records := <[me := {| r with at_ := SRec t k n out |}]> (records d) |})
  | SFree t k out kept (p :: todo) =>
      if bool_decide (p ∈ out) then Some (Done (put_list t me {| r with at_ := SFree t k out (kept ++ [p]) todo |} ((kept ++ [p]) ++ todo) d))
      else if bool_decide (p ∈ objects d) then
        Some (Done (put_list t me {| r with at_ := SFree t k out kept todo |} (kept ++ todo)
                      {| d with objects := objects d ∖ {[p]}; history := ((history d).1, (history d).2 ++ [p]) |}))
      else Some UB
  | SFree t k out kept [] =>
      Some (Done (put_list t me {| r with at_ := reclaimed t k |} kept
                    {| d with orphan_mu_ := match t with Orphans => None | Mine => orphan_mu_ d end |}))
  | SLock k =>
      match orphan_mu_ d with
      | Some _ => Some (Done {| d with records := <[me := {| r with at_ := scanned k |}]> (records d) |})
      | None =>
          match orphans_ d with
          | [] => Some (Done {| d with records := <[me := {| r with at_ := scanned k |}]> (records d) |})
          | _ => Some (Done {| d with records := <[me := {| r with at_ := SHead Orphans k |}]> (records d); orphan_mu_ := Some me |})
          end
      end
  | _ => None
  end.

(** ** [acquire_record] and [release_record] *)

Definition release_step (me : nat) (r : Rec) (d : domain) : option domain :=
  match at_ r with
  | XLock =>
      match retired r, orphan_mu_ d with
      | [], _ => Some {| d with records := <[me := {| r with at_ := XClear 0 |}]> (records d) |}
      | _, None => Some {| d with records := <[me := {| r with retired := []; at_ := XClear 0 |}]> (records d); orphans_ := orphans_ d ++ retired r |}
      | _, Some _ => None
      end
  | XClear i =>
      if i <? kSlots then Some {| d with records := <[me := {| r with hp := <[i := None]> (hp r); at_ := XClear (S i) |}]> (records d) |}
      else Some {| d with records := <[me := {| r with at_ := XInactive |}]> (records d) |}
  | XInactive => Some {| d with records := <[me := {| r with active := false; at_ := Idle |}]> (records d) |}
  | Counting => Some {| d with records := <[me := {| r with at_ := Idle |}]> (records d); n_records_ := S (n_records_ d) |}
  | _ => None
  end.

(** ** [retire] *)

Definition retire_by (me : nat) (r : Rec) (p : ptr) (d : domain) : domain :=
  let l := retired r ++ [p] in
  let threshold := Nat.max 64 (2 * kSlots * n_records_ d) in
  {| d with records := <[me := {| r with retired := l; at_ := if threshold <=? length l then SHead Mine AReturn else Idle |}]> (records d);
            history := ((history d).1 ++ [p], (history d).2) |}.

(** ** The machine *)

(** Everything that is retired and still exists. *)
Definition pending (d : domain) : list ptr := (records d ≫= retired) ++ orphans_ d.

Inductive action :=
| New (p : ptr)                      (** a client makes an object *)
| Store (src : nat) (v : option ptr) (** a client writes a shared pointer *)
| Acquire                            (** a thread makes a record *)
| Reuse (me : nat)                   (** or takes one that is inactive *)
| Protect (me src : nat)
| Retire (me : nat) (p : ptr)
| Exit (me : nat)                    (** the thread ends *)
| Step (me : nat).                   (** the thread goes on *)

(** [None]: the action is not possible now. *)
Definition act (a : action) (d : domain) : option (outcome domain) :=
  match a with
  | New p => if bool_decide (p ∉ objects d) then Some (Done {| d with objects := {[p]} ∪ objects d |}) else None
  | Store src None => Some (Done {| d with sources := delete src (sources d) |})
  | Store src (Some p) =>
      if bool_decide (p ∈ objects d ∧ p ∉ pending d) then Some (Done {| d with sources := <[src := p]> (sources d) |}) else None
  | Acquire => Some (Done {| d with records := records d ++ [Rec_new] |})
  | Reuse me =>
      r ← records d !! me;
      if active r then None else Some (Done {| d with records := <[me := {| r with active := true |}]> (records d) |})
  | Protect me src =>
      r ← records d !! me;
      match active r, at_ r with
      | true, Idle => Some (Done {| d with records := <[me := {| r with at_ := PLoad src |}]> (records d) |})
      | _, _ => None
      end
  | Retire me p =>
      r ← records d !! me;
      match active r, at_ r with
      | true, Idle =>
          if bool_decide (p ∈ objects d ∧ p ∉ pending d ∧ Forall (λ q, q.2 ≠ p) (map_to_list (sources d))) then Some (Done (retire_by me r p d)) else None
      | _, _ => None
      end
  | Exit me =>
      r ← records d !! me;
      match active r, at_ r with
      | true, Idle => Some (Done {| d with records := <[me := {| r with at_ := SHead Mine ARelease |}]> (records d) |})
      | _, _ => None
      end
  | Step me =>
      r ← records d !! me;
      match protect_step r d, scan_step me r d, release_step me r d with
      | Some (r', _), _, _ => Some (Done {| d with records := <[me := r']> (records d) |})
      | _, Some o, _ => Some o
      | _, _, Some d' => Some (Done d')
      | _, _, _ => None
      end
  end.

Definition step (d d' : domain) : Prop := ∃ a, act a d = Some (Done d').
Definition reachable (d : domain) : Prop := rtc step HazardDomain_new d.

Fixpoint run (l : list action) (d : domain) : option (outcome domain) :=
  match l with
  | [] => Some (Done d)
  | a :: l => match act a d with Some (Done d') => run l d' | o => o end
  end.
End HazardPointers.
