(* ===== verification/HazardPointersCorrect.v ===== *)
(** Hazard pointers protect: a pointer that [protect] answered stays valid as long as its
    slot is not written again; nothing is deleted twice, and nothing that was retired is
    forgotten. *)

From S2P Require Import Prelude HazardPointers.

Module HazardPointersCorrect.
Import HazardPointers.
Local Open Scope nat_scope.
Implicit Types (d : domain) (r : Rec) (p : ptr) (t : target) (k : after).

(** * The invariant *)

(** Slot [j] of record [i] holds [p], and its thread has read it since. *)
Definition marked d (i j : nat) p : Prop := ∃ r, records d !! i = Some r ∧ hp r !! j = Some (Some (p, true)).

(** The slots a collection has still to visit, what it found, and what it will decide on. *)
Inductive collecting d r : target → (nat → nat → Prop) → list ptr → list ptr → Prop :=
| col_rec t k n out : at_ r = SRec t k n out → collecting d r t (λ i _, i < n) out (list_of t r d)
| col_slot t k n j0 out : at_ r = SSlot t k n j0 out → collecting d r t (λ i j, i < n ∨ i = n ∧ j0 ≤ j) out (list_of t r d)
| col_free t k out kept todo : at_ r = SFree t k out kept todo → collecting d r t (λ _ _, False) out todo.

Definition uses_orphans (c : pc) : bool :=
  match c with
  | SHead Orphans _ | SRec Orphans _ _ _ | SSlot Orphans _ _ _ _ | SFree Orphans _ _ _ _ => true
  | _ => false
  end.

(** What the place of a thread says about its record and the others. *)
Definition place_ok d r : Prop :=
  match at_ r with
  | PFind _ p => ∀ j b, hp r !! j = Some (Some (p, b)) → b = true
  | PVerify _ p => holds p (hp r) = true
  | SRec _ _ n _ => n ≤ length (records d)
  | SSlot _ _ n _ _ => n < length (records d)
  | SFree t _ _ kept todo => list_of t r d = kept ++ todo
  | XClear i => ∀ j, j < i → j < kSlots → hp r !! j = Some None
  | XInactive => ∀ j, j < kSlots → hp r !! j = Some None
  | _ => True
  end.

Record rec_ok d r : Prop := {
  r_slots : length (hp r) = kSlots ∧ victim r < kSlots;
  r_inactive : active r = false → at_ r = Idle ∧ ∀ j, j < kSlots → hp r !! j = Some None;
  r_place : place_ok d r;
  r_collect t left out l : collecting d r t left out l → ∀ p i j, p ∈ l → marked d i j p → left i j ∨ p ∈ out
}.

Record inv d : Prop := {
  i_rec me r : records d !! me = Some r → rec_ok d r;
  i_marked i j p : marked d i j p → p ∈ objects d;
  i_source src p : sources d !! src = Some p → p ∈ objects d ∧ p ∉ pending d;
  i_pending : NoDup (pending d);
  i_exists p : p ∈ pending d → p ∈ objects d;
  i_mutex me r : records d !! me = Some r → uses_orphans (at_ r) = true ↔ orphan_mu_ d = Some me;
  i_owner me : orphan_mu_ d = Some me → me < length (records d);
  i_history : (history d).1 ≡ₚ (history d).2 ++ pending d
}.

(** * Lists of records *)

Definition others (me : nat) (l : list Rec) : list Rec := take me l ++ drop (S me) l.

Lemma records_split (l : list Rec) me r : l !! me = Some r → l ≡ₚ r :: others me l.
Proof. intros H. rewrite <- (take_drop_middle l me r H) at 1. unfold others. by rewrite Permutation_middle. Qed.

Lemma records_insert (l : list Rec) me r r' : l !! me = Some r → <[me := r']> l ≡ₚ r' :: others me l.
Proof.
  intros H. rewrite (insert_take_drop _ _ _ (lookup_lt_Some _ _ _ H)). unfold others. by rewrite Permutation_middle.
Qed.

Lemma pending_split d me r : records d !! me = Some r → pending d ≡ₚ retired r ++ (others me (records d) ≫= retired) ++ orphans_ d.
Proof. intros H. unfold pending. rewrite (records_split _ _ _ H) at 1. cbn. by rewrite app_assoc. Qed.

Lemma pending_insert d d' me r r' : records d !! me = Some r → records d' = <[me := r']> (records d) →
  pending d' ≡ₚ retired r' ++ (others me (records d) ≫= retired) ++ orphans_ d'.
Proof. intros H E. unfold pending. rewrite E, (records_insert _ _ _ r' H). cbn. by rewrite app_assoc. Qed.

(** What a collection decides on is pending. *)
Lemma collecting_pending d me r t left out l : records d !! me = Some r → rec_ok d r → collecting d r t left out l → ∀ p, p ∈ l → p ∈ pending d.
Proof.
  intros Hr Hok Hc p Hp. assert (Hl : p ∈ list_of t r d).
  { destruct Hc as [| |t k out kept todo E]; [done..|]. pose proof (r_place _ _ Hok) as Hpl. unfold place_ok in Hpl. rewrite E in Hpl. rewrite Hpl. set_solver. }
  rewrite (pending_split _ _ _ Hr). destruct t; cbn in Hl; set_solver.
Qed.

(** ** Slots *)

Lemma mark_length p slots : length (mark p slots) = length slots.
Proof. apply length_fmap. Qed.

Lemma mark_lookup p slots j q b : mark p slots !! j = Some (Some (q, b)) → ∃ b', slots !! j = Some (Some (q, b')) ∧ b = b' || bool_decide (q = p).
Proof.
  unfold mark. rewrite list_lookup_fmap. destruct (slots !! j) as [[[q' b']|]|]; cbn; [|done..]. intros [= -> <-]. eauto.
Qed.

Lemma mark_marks p slots j q b : mark p slots !! j = Some (Some (q, b)) → q = p → b = true.
Proof. intros (b' & _ & ->)%mark_lookup ->. rewrite bool_decide_true by done. apply orb_true_r. Qed.

Lemma mark_none p slots j : slots !! j = Some None → mark p slots !! j = Some None.
Proof. intros H. unfold mark. by rewrite list_lookup_fmap, H. Qed.

Lemma holds_spec p slots : holds p slots = true ↔ ∃ j b, slots !! j = Some (Some (p, b)).
Proof.
  unfold holds. rewrite existsb_exists. split.
  - intros ([[q b]|] & Hin & Hq); [|done]. apply bool_decide_eq_true in Hq as ->. apply list_elem_of_In, list_elem_of_lookup in Hin as [j Hj]. eauto.
  - intros (j & b & Hj). exists (Some (p, b)). split; [|by apply bool_decide_eq_true]. apply list_elem_of_In. by eapply list_elem_of_lookup_2.
Qed.

(** * Changing one record *)

Lemma collecting_ext d d' r t left out l : (uses_orphans (at_ r) = true → orphans_ d' = orphans_ d) →
  collecting d' r t left out l → collecting d r t left out l.
Proof.
  intros Ho Hc. destruct Hc as [t k n out E|t k n j0 out E|t k out kept todo E].
  - replace (list_of t r d') with (list_of t r d); [by econstructor|]. destruct t; [done|]. cbn. symmetry. apply Ho. by rewrite E.
  - replace (list_of t r d') with (list_of t r d); [by econstructor|]. destruct t; [done|]. cbn. symmetry. apply Ho. by rewrite E.
  - by econstructor.
Qed.

Lemma rec_ok_frame d d' me r : rec_ok d r → records d !! me = Some r → length (records d) ≤ length (records d') →
  (uses_orphans (at_ r) = true → orphans_ d' = orphans_ d) → (∀ i j p, marked d' i j p → marked d i j p ∨ p ∉ pending d) → rec_ok d' r.
Proof.
  intros Hok Hr Hlen Ho Hm. pose proof Hok as [Hs Hi Hp Hc]. split; [done|done| |].
  - unfold place_ok in *. destruct (at_ r) as [| | | | | |t k n out|t k n j out|t k out kept todo| | | |]; try done; [lia|lia|].
    rewrite <- Hp. destruct t; [done|]. by apply Ho.
  - intros t left out l Hcol p i j Hin Hmk. apply (collecting_ext d) in Hcol; [|done]. apply Hm in Hmk as [Hmk|Hnp]; [by eapply Hc|].
    destruct Hnp. by eapply collecting_pending.
Qed.

Lemma marked_insert d d' me r r' i j p : records d !! me = Some r → records d' = <[me := r']> (records d) →
  marked d' i j p → i = me ∧ hp r' !! j = Some (Some (p, true)) ∨ i ≠ me ∧ marked d i j p.
Proof.
  intros Hr E (r0 & Hr0 & Hj). rewrite E in Hr0. apply list_lookup_insert_Some in Hr0 as [(-> & -> & _)|(Hne & Hr0)]; [by left|].
  right. split; [done|]. by exists r0.
Qed.

Section change.
Context d (Hi : inv d) (me : nat) r (Hr : records d !! me = Some r).

(** The record of one thread changes, and with it what the invariant says of the lists. *)
Lemma change_inv d' r' : records d' = <[me := r']> (records d) →
  (uses_orphans (at_ r') = true ↔ orphan_mu_ d' = Some me) → (∀ i, i ≠ me → orphan_mu_ d' = Some i ↔ orphan_mu_ d = Some i) →
  (∀ i r0, i ≠ me → records d !! i = Some r0 → uses_orphans (at_ r0) = true → orphans_ d' = orphans_ d) →
  (∀ j p, hp r' !! j = Some (Some (p, true)) → hp r !! j = Some (Some (p, true)) ∨ p ∈ objects d ∧ p ∉ pending d) →
  ((∀ i j p, marked d' i j p → marked d i j p ∨ p ∉ pending d) → length (records d') = length (records d) → rec_ok d' r') →
  ((∀ i j p, marked d' i j p → marked d i j p ∨ p ∈ objects d ∧ p ∉ pending d) → ∀ i j p, marked d' i j p → p ∈ objects d') →
  (∀ src p, sources d' !! src = Some p → p ∈ objects d' ∧ p ∉ pending d') → NoDup (pending d') → (∀ p, p ∈ pending d' → p ∈ objects d') →
  (history d').1 ≡ₚ (history d').2 ++ pending d' → inv d'.
Proof.
  intros E1 Hm1 Hm2 Ho Hslots Hok Hmk Hsrc Hnd Hex Hh.
  assert (Hlen : length (records d') = length (records d)) by (rewrite E1; apply length_insert).
  assert (Hm : ∀ i j p, marked d' i j p → marked d i j p ∨ p ∈ objects d ∧ p ∉ pending d).
  { intros i j p Hj. apply (marked_insert d d' me r r') in Hj as [(-> & Hj)|[_ Hj]]; [|by left|done|done].
    apply Hslots in Hj as [?|?]; [left; by exists r|by right]. }
  assert (Hm' : ∀ i j p, marked d' i j p → marked d i j p ∨ p ∉ pending d) by (intros i j p Hj; apply Hm in Hj; tauto).
  split; [| |done..| | |done].
  - intros i r0 Hr0. rewrite E1 in Hr0. apply list_lookup_insert_Some in Hr0 as [(-> & -> & _)|(Hne & Hr0)]; [by apply Hok|].
    eapply rec_ok_frame; [by eapply (i_rec d Hi)|done|lia|by apply (Ho i)|done].
  - by apply Hmk.
  - intros i r0 Hr0. rewrite E1 in Hr0. apply list_lookup_insert_Some in Hr0 as [(<- & <- & _)|(Hne & Hr0)]; [done|].
    rewrite Hm2 by done. by apply (i_mutex d Hi).
  - intros i Hmi. rewrite Hlen. destruct (decide (i = me)) as [->|]; [by eapply lookup_lt_Some|]. apply (i_owner d Hi). by apply Hm2.
Qed.

(** The record moves on; what is pending stays. *)
Lemma set_rec_inv d' r' : records d' = <[me := r']> (records d) → objects d' = objects d → sources d' = sources d → history d' = history d →
  pending d' ≡ₚ pending d →
  (uses_orphans (at_ r') = true ↔ orphan_mu_ d' = Some me) → (∀ i, i ≠ me → orphan_mu_ d' = Some i ↔ orphan_mu_ d = Some i) →
  (∀ i r0, i ≠ me → records d !! i = Some r0 → uses_orphans (at_ r0) = true → orphans_ d' = orphans_ d) →
  (∀ j p, hp r' !! j = Some (Some (p, true)) → hp r !! j = Some (Some (p, true)) ∨ p ∈ objects d ∧ p ∉ pending d) →
  ((∀ i j p, marked d' i j p → marked d i j p ∨ p ∉ pending d) → length (records d') = length (records d) → rec_ok d' r') → inv d'.
Proof.
  intros E1 E4 E5 E6 Ep Hm1 Hm2 Ho Hslots Hok. apply (change_inv d' r'); try done; rewrite ?E4, ?E5, ?E6, ?Ep.
  - intros Hm i j p Hj. apply Hm in Hj as [Hj|[? _]]; [by eapply (i_marked d Hi)|done].
  - intros src p. rewrite Ep. apply (i_source d Hi).
  - apply (i_pending d Hi).
  - intros p. rewrite Ep. apply (i_exists d Hi).
  - apply (i_history d Hi).
Qed.

(** The thread moves within a call: no list changes. *)
Lemma move_inv d' r' : records d' = <[me := r']> (records d) → orphan_mu_ d' = orphan_mu_ d → orphans_ d' = orphans_ d →
  objects d' = objects d → sources d' = sources d → history d' = history d →
  retired r' = retired r → uses_orphans (at_ r') = uses_orphans (at_ r) →
  (∀ j p, hp r' !! j = Some (Some (p, true)) → hp r !! j = Some (Some (p, true)) ∨ p ∈ objects d ∧ p ∉ pending d) →
  ((∀ i j p, marked d' i j p → marked d i j p ∨ p ∉ pending d) → length (records d') = length (records d) → rec_ok d' r') → inv d'.
Proof.
  intros E1 E2 E3 E4 E5 E6 Hret Huse Hslots Hok. apply (set_rec_inv d' r'); try done; try by rewrite E2.
  - by rewrite (pending_insert d d' me r r' Hr E1), (pending_split d me r Hr), Hret, E3.
  - rewrite Huse, E2. by apply (i_mutex d Hi).
Qed.

Hypothesis (Hok : rec_ok d r).

Lemma active_of : at_ r ≠ Idle → active r = true.
Proof. intros H. destruct (active r) eqn:E; [done|]. by destruct (r_inactive d r Hok E). Qed.

(** ** [protect] *)

Definition scanning (c : pc) : bool := match c with SRec _ _ _ _ | SSlot _ _ _ _ _ | SFree _ _ _ _ _ => true | _ => false end.

(** A record outside a scan. *)
Lemma plain_ok d' r' : length (hp r') = kSlots → victim r' < kSlots → (active r' = false → at_ r' = Idle ∧ ∀ j, j < kSlots → hp r' !! j = Some None) →
  place_ok d' r' → scanning (at_ r') = false → rec_ok d' r'.
Proof. intros ? ? ? ? H. split; [done..|]. intros t left out l Hc. destruct Hc as [? ? ? ? E|? ? ? ? ? E|? ? ? ? ? E]; by rewrite E in H. Qed.

Lemma mark_slots src p j q : sources d !! src = Some p → mark p (hp r) !! j = Some (Some (q, true)) →
  hp r !! j = Some (Some (q, true)) ∨ q ∈ objects d ∧ q ∉ pending d.
Proof.
  intros Hs (b' & Hj & Hb)%mark_lookup. destruct b'; [by left|]. right. symmetry in Hb. apply bool_decide_eq_true in Hb as ->.
  by eapply (i_source d Hi).
Qed.

Lemma protect_inv r' a : protect_step r d = Some (r', a) → inv {| d with records := <[me := r']> (records d) |}.
Proof.
  pose proof (r_slots d r Hok) as [Hl Hv]. pose proof active_of as Hact. intros H. unfold protect_step in H.
  destruct (at_ r) as [| |src|src p|src p| | | | | | | |] eqn:Ea; try done; specialize (Hact ltac:(done)).
  - destruct (sources d !! src) as [p|] eqn:Es; injection H as <- <-.
    + eapply move_inv; cbn; [done..|by rewrite Ea|intros j q; by apply (mark_slots src)|].
      intros _ _. apply plain_ok; cbn; [by rewrite mark_length|done|by rewrite Hact| |done]. intros j b Hj. by eapply mark_marks.
    + eapply move_inv; cbn; [done..|by rewrite Ea|by left|]. intros _ _. by apply plain_ok; cbn; rewrite ?Hact.
  - destruct (holds p (hp r)) eqn:Eh; injection H as <- <-.
    + eapply move_inv; cbn; [done..|by rewrite Ea|by left|]. intros _ _. by apply plain_ok; cbn; rewrite ?Hact.
    + eapply move_inv; cbn; [done..|by rewrite Ea| |].
      * intros j q [(_ & ? & _)|[_ ?]]%list_lookup_insert_Some; [congruence|by left].
      * intros _ _. apply plain_ok; [cbn; by rewrite length_insert|unfold victim at 1; by apply (Nat.mod_upper_bound _ kSlots)|cbn; by rewrite Hact| |done].
        apply holds_spec. exists (victim r), false. apply list_lookup_insert_eq. lia.
  - destruct (sources d !! src) as [p'|] eqn:Es; [case_bool_decide as Ep|]; injection H as <- <-.
    + eapply move_inv; cbn; [done..|by rewrite Ea|intros j q; by apply (mark_slots src)|].
      intros _ _. by apply plain_ok; cbn; rewrite ?mark_length, ?Hact.
    + eapply move_inv; cbn; [done..|by rewrite Ea|intros j q; by apply (mark_slots src)|].
      intros _ _. apply plain_ok; cbn; [by rewrite mark_length|done|by rewrite Hact| |done]. intros j b Hj. by eapply mark_marks.
    + eapply move_inv; cbn; [done..|by rewrite Ea|by left|]. intros _ _. by apply plain_ok; cbn; rewrite ?Hact.
Qed.

(** What [protect] answers is marked in a slot of the thread. *)
Lemma protect_answer r' p : protect_step r d = Some (r', Some (Some p)) → ∃ j, hp r' !! j = Some (Some (p, true)).
Proof.
  pose proof (r_place d r Hok) as Hpl. unfold place_ok in Hpl. intros H. unfold protect_step in H.
  destruct (at_ r) as [| |src|src q|src q| | | | | | | |] eqn:Ea; try done.
  - by destruct (sources d !! src).
  - destruct (holds q (hp r)) eqn:Eh; [|done]. injection H as <- ->. apply holds_spec in Eh as (j & b & Hj).
    exists j. cbn. by rewrite Hj, (Hpl _ _ Hj).
  - destruct (sources d !! src) as [q'|]; [|done]. case_bool_decide as Eq; [|done]. injection H as <- ->. subst q'.
    apply holds_spec in Hpl as (j & b & Hj). exists j. cbn. unfold mark. rewrite list_lookup_fmap, Hj. cbn.
    by rewrite bool_decide_true, orb_true_r.
Qed.

(** ** [scan] *)

Definition goto (c : pc) : domain := {| d with records := <[me := {| r with at_ := c |}]> (records d) |}.

Lemma list_of_pending t p : p ∈ list_of t r d → p ∈ pending d.
Proof. rewrite (pending_split _ _ _ Hr), !elem_of_app. destruct t; cbn; tauto. Qed.

(** A step of the scan that changes no list. *)
Lemma scan_goto c : at_ r ≠ Idle → uses_orphans c = uses_orphans (at_ r) → place_ok d {| r with at_ := c |} →
  (∀ t left out l, collecting d {| r with at_ := c |} t left out l →
     ∀ p, p ∈ l → p ∈ list_of t r d ∧ ∀ i j, marked d i j p → left i j ∨ p ∈ out) → inv (goto c).
Proof.
  intros Ha Hu Hp Hc. pose proof (active_of Ha) as Hact. eapply move_inv; cbn; [done..|by left|]. intros Hm Hlen.
  split; cbn; [apply (r_slots d r Hok)|by rewrite Hact| |].
  - unfold place_ok in *. cbn in *. by destruct c; rewrite ?Hlen.
  - intros t left out l Hcol p i j Hin Hmk. apply (collecting_ext d) in Hcol; [|done].
    destruct (Hc _ _ _ _ Hcol p Hin) as [Hl Hf]. apply Hm in Hmk as [Hmk|Hnp]; [by apply Hf|]. destruct Hnp. by eapply list_of_pending.
Qed.

(** Inversion of [collecting] at a known place. *)
Lemma collecting_at d0 r0 t left out l : collecting d0 r0 t left out l →
  match at_ r0 with
  | SRec t' _ n out' => t = t' ∧ left = (λ i _, i < n) ∧ out = out' ∧ l = list_of t r0 d0
  | SSlot t' _ n j0 out' => t = t' ∧ left = (λ i j, i < n ∨ i = n ∧ j0 ≤ j) ∧ out = out' ∧ l = list_of t r0 d0
  | SFree t' _ out' _ todo => t = t' ∧ left = (λ _ _, False) ∧ out = out' ∧ l = todo
  | _ => False
  end.
Proof. by intros [? ? ? ? ->|? ? ? ? ? ->|? ? ? ? ? ->]. Qed.

Lemma marked_record i j p : marked d i j p → i < length (records d) ∧ j < kSlots.
Proof.
  intros (o & Ho & Hj). split; [by eapply lookup_lt_Some|]. destruct (r_slots _ _ (i_rec d Hi _ _ Ho)) as [<- _]. by eapply lookup_lt_Some.
Qed.

Lemma scan_head t k : at_ r = SHead t k → inv (goto (SRec t k (length (records d)) [])).
Proof.
  intros E. apply scan_goto; rewrite ?E; [done|by destruct t|cbn; lia|]. intros t' left out l Hc p Hp. apply collecting_at in Hc as (-> & -> & -> & ->).
  split; [done|]. intros i j Hm. left. by destruct (marked_record _ _ _ Hm).
Qed.

Lemma scan_record t k n out o : at_ r = SRec t k (S n) out → records d !! n = Some o →
  inv (goto (if active o then SSlot t k n 0 out else SRec t k n out)).
Proof.
  intros E Ho. pose proof (lookup_lt_Some _ _ _ Ho). pose proof (i_rec d Hi _ _ Ho) as Hoo.
  pose proof (r_collect d r Hok t _ _ _ (col_rec d r t k (S n) out E)) as Hold. destruct (active o) eqn:Ea.
  - apply scan_goto; rewrite ?E; [done|by destruct t|cbn; lia|]. intros t' left out' l Hc p Hp. apply collecting_at in Hc as (-> & -> & -> & ->).
    split; [done|]. intros i j Hm. destruct (Hold p i j) as [?|?]; [done|done|left; lia|by right].
  - apply scan_goto; rewrite ?E; [done|by destruct t|cbn; lia|]. intros t' left out' l Hc p Hp. apply collecting_at in Hc as (-> & -> & -> & ->).
    split; [done|]. intros i j Hm. destruct (Hold p i j) as [?|?]; [done|done| |by right]. left.
    destruct (decide (i = n)) as [->|]; [|lia]. pose proof (marked_record _ _ _ Hm) as [_ Hj].
    destruct Hm as (o' & Ho' & Hoj). destruct (r_inactive _ _ Hoo Ea) as [_ Hn]. specialize (Hn j Hj). congruence.
Qed.

Lemma scan_slot t k n i out o v : at_ r = SSlot t k n i out → records d !! n = Some o → hp o !! i = Some v →
  inv (goto (SSlot t k n (S i) (match v with Some (p, _) => p :: out | None => out end))).
Proof.
  intros E Ho Hv. pose proof (lookup_lt_Some _ _ _ Ho).
  pose proof (r_collect d r Hok t _ _ _ (col_slot d r t k n i out E)) as Hold.
  apply scan_goto; rewrite ?E; [done|by destruct t|cbn; lia|]. intros t' left out' l Hc p Hp. apply collecting_at in Hc as (-> & -> & -> & ->).
  split; [done|]. intros i' j Hm. destruct (Hold p i' j) as [[?|[-> ?]]|?]; [done|done|by left; left| |right; destruct v as [[]|]; set_solver].
  destruct (decide (j = i)) as [->|]; [|left; right; lia]. destruct Hm as (o' & Ho' & Hoj).
  assert (o' = o) as -> by congruence. rewrite Hoj in Hv. injection Hv as <-. right. set_solver.
Qed.

Lemma scan_slots_end t k n i out : at_ r = SSlot t k n i out → kSlots ≤ i → inv (goto (SRec t k n out)).
Proof.
  intros E Hk. pose proof (r_place d r Hok) as Hpl. unfold place_ok in Hpl. rewrite E in Hpl.
  pose proof (r_collect d r Hok t _ _ _ (col_slot d r t k n i out E)) as Hold.
  apply scan_goto; rewrite ?E; [done|by destruct t|cbn; lia|]. intros t' left out' l Hc p Hp. apply collecting_at in Hc as (-> & -> & -> & ->).
  split; [done|]. intros i' j Hm. destruct (Hold p i' j) as [[?|[-> ?]]|?]; [done|done|by left| |by right].
  apply marked_record in Hm. lia.
Qed.

Lemma scan_collected t k out : at_ r = SRec t k 0 out → inv (goto (SFree t k out [] (list_of t r d))).
Proof.
  intros E. pose proof (r_collect d r Hok t _ _ _ (col_rec d r t k 0 out E)) as Hold.
  apply scan_goto; rewrite ?E; [done|by destruct t|done|]. intros t' left out' l Hc p Hp. apply collecting_at in Hc as (-> & -> & -> & ->).
  split; [done|]. intros i j Hm. destruct (Hold p i j) as [?|?]; [done|done|lia|by right].
Qed.

(** ** [reclaim] *)

(** Writing the list that is there already. *)
Lemma put_list_same t c d0 : put_list t me {| r with at_ := c |} (list_of t r d0) d0 = {| d0 with records := <[me := {| r with at_ := c |}]> (records d0) |}.
Proof. clear. by destruct t, r, d0. Qed.

Lemma free_list t k out kept todo : at_ r = SFree t k out kept todo → list_of t r d = kept ++ todo.
Proof. intros E. pose proof (r_place d r Hok) as Hpl. unfold place_ok in Hpl. by rewrite E in Hpl. Qed.

Lemma reclaim_keep t k out kept p todo : at_ r = SFree t k out kept (p :: todo) → p ∈ out →
  inv (put_list t me {| r with at_ := SFree t k out (kept ++ [p]) todo |} ((kept ++ [p]) ++ todo) d).
Proof.
  intros E Hout. pose proof (free_list _ _ _ _ _ E) as Hl.
  rewrite <- (app_assoc kept [p] todo). cbn [app]. rewrite <- Hl, put_list_same.
  pose proof (r_collect d r Hok t _ _ _ (col_free d r t k out kept (p :: todo) E)) as Hold.
  apply scan_goto; rewrite ?E; [done|by destruct t| |].
  - unfold place_ok. cbn. rewrite <- app_assoc. by destruct t.
  - intros t' left out' l Hc q Hq. apply collecting_at in Hc as (-> & -> & -> & ->). split; [rewrite Hl; set_solver|].
    intros i j Hm. apply (Hold q i j); set_solver.
Qed.

(** The list and what is pending lose the object that is deleted. *)
Lemma pending_delete t k out kept p todo c d' : at_ r = SFree t k out kept (p :: todo) → orphans_ d' = orphans_ d → records d' = records d →
  pending d ≡ₚ p :: pending (put_list t me {| r with at_ := c |} (kept ++ todo) d').
Proof.
  intros E Eo Er. pose proof (free_list _ _ _ _ _ E) as Hl. rewrite (pending_split _ _ _ Hr). destruct t; cbn in Hl.
  - rewrite (pending_insert d _ me r {| r with retired := kept ++ todo; at_ := c |} Hr) by (cbn; by rewrite Er). cbn.
    rewrite Hl, Eo, <- (Permutation_middle kept todo p). done.
  - rewrite (pending_insert d _ me r {| r with at_ := c |} Hr) by (cbn; by rewrite Er). cbn.
    rewrite Hl, <- (Permutation_middle kept todo p). by rewrite !Permutation_middle.
Qed.

Lemma reclaim_delete t k out kept p todo : at_ r = SFree t k out kept (p :: todo) → p ∉ out →
  inv (put_list t me {| r with at_ := SFree t k out kept todo |} (kept ++ todo)
         {| d with objects := objects d ∖ {[p]}; history := ((history d).1, (history d).2 ++ [p]) |}).
Proof.
  intros E Hout. pose proof (free_list _ _ _ _ _ E) as Hl. pose proof (active_of ltac:(by rewrite E)) as Hact.
  pose proof (i_mutex d Hi _ _ Hr) as Hmu. pose proof (i_pending d Hi) as Hnd.
  pose proof (r_collect d r Hok t _ _ _ (col_free d r t k out kept (p :: todo) E)) as Hold.
  assert (Hnp : ∀ i j, ¬ marked d i j p) by (intros i j Hm; destruct (Hold p i j); set_solver).
  assert (Hp : p ∈ pending d) by (eapply list_of_pending; rewrite Hl; set_solver).
  set (d1 := {| d with objects := _; history := _ |}). pose proof (pending_delete t k out kept p todo (SFree t k out kept todo) d1 E eq_refl eq_refl) as Hpd.
  set (r' := match t with Mine => {| r with retired := kept ++ todo; at_ := SFree t k out kept todo |} | Orphans => {| r with at_ := SFree t k out kept todo |} end).
  set (d' := put_list _ _ _ _ _) in *. assert (E1 : records d' = <[me := r']> (records d)) by by destruct t.
  assert (Ex : objects d' = objects d ∖ {[p]} ∧ sources d' = sources d ∧ orphan_mu_ d' = orphan_mu_ d ∧ at_ r' = SFree t k out kept todo ∧ hp r' = hp r
    ∧ history d' = ((history d).1, (history d).2 ++ [p]) ∧ victim r' = victim r ∧ active r' = true ∧ list_of t r' d' = kept ++ todo)
    by (destruct t; cbn; repeat split; done).
  destruct Ex as (Eob & Esr & Emu & Eat & Ehp & Eh & Ev & Eac & Els). rewrite Hpd in Hp, Hnd. apply NoDup_cons in Hnd as [Hnin Hnd].
  apply (change_inv d' r' E1); rewrite ?Eat, ?Ehp, ?Emu, ?Eh; cbn.
  - rewrite <- Hmu, E. by destruct t.
  - done.
  - intros i r0 Hne H0 Hu. destruct t; [done|]. apply (i_mutex d Hi _ _ H0) in Hu. rewrite E in Hmu. destruct Hmu as [Hmu _]. rewrite Hmu in Hu by done. congruence.
  - by left.
  - intros Hm _. split; [rewrite Ehp, Ev; apply (r_slots d r Hok)|by rewrite Eac|unfold place_ok; by rewrite Eat|].
    intros t' left out' l Hc q i j Hq Hmq. apply collecting_at in Hc. rewrite Eat in Hc. destruct Hc as (-> & -> & -> & ->).
    apply Hm in Hmq as [Hmq|Hnpq]; [apply (Hold q i j); set_solver|]. destruct Hnpq. eapply (list_of_pending t). rewrite Hl. set_solver.
  - intros Hm i j q Hmq. rewrite Eob. apply elem_of_difference. apply Hm in Hmq as [Hmq|[Hob Hnq]].
    + split; [by eapply (i_marked d Hi)|]. intros ->%elem_of_singleton. by eapply Hnp.
    + split; [done|]. intros ->%elem_of_singleton. apply Hnq. rewrite Hpd. set_solver.
  - intros src q Hs. rewrite Esr in Hs. apply (i_source d Hi) in Hs as [Hob Hnq]. rewrite Hpd in Hnq. rewrite Eob. set_solver.
  - done.
  - intros q Hq. rewrite Eob. apply elem_of_difference. split; [apply (i_exists d Hi); rewrite Hpd; set_solver|]. by intros ->%elem_of_singleton.
  - rewrite (i_history d Hi), Hpd. by rewrite <- app_assoc.
Qed.

(** The thread leaves one part of the call for another; the mutex may change hands. *)
Lemma leave_inv c mu : at_ r ≠ Idle → scanning c = false → place_ok d {| r with at_ := c |} →
  (uses_orphans c = true ↔ mu = Some me) → (∀ i, i ≠ me → mu = Some i ↔ orphan_mu_ d = Some i) →
  inv {| d with records := <[me := {| r with at_ := c |}]> (records d); orphan_mu_ := mu |}.
Proof.
  intros Ha Hs Hp Hm1 Hm2. pose proof (active_of Ha) as Hact. pose proof (r_slots d r Hok) as [Hl Hv].
  apply (set_rec_inv _ {| r with at_ := c |}); [done..| |done|done|done|by left|].
  - rewrite (pending_insert d _ me r {| r with at_ := c |} Hr) by done. by rewrite (pending_split d me r Hr).
  - intros _ Hlen. apply plain_ok; cbn; [done|done|by rewrite Hact| |done]. unfold place_ok in *. cbn in *. by destruct c; rewrite ?Hlen.
Qed.

Lemma leave_inv_same c : at_ r ≠ Idle → scanning c = false → place_ok d {| r with at_ := c |} → uses_orphans c = uses_orphans (at_ r) → inv (goto c).
Proof.
  intros Ha Hs Hp Hu. pose proof (leave_inv c (orphan_mu_ d) Ha Hs Hp) as H. apply H; [|done]. rewrite Hu. by apply (i_mutex d Hi).
Qed.

Lemma reclaim_end t k out kept : at_ r = SFree t k out kept [] →
  inv (put_list t me {| r with at_ := reclaimed t k |} kept {| d with orphan_mu_ := match t with Orphans => None | Mine => orphan_mu_ d end |}).
Proof.
  intros E. pose proof (free_list _ _ _ _ _ E) as Hl. rewrite app_nil_r in Hl. pose proof (i_mutex d Hi _ _ Hr) as Hmu. rewrite E in Hmu.
  assert (Hl' : kept = list_of t r {| d with orphan_mu_ := match t with Orphans => None | Mine => orphan_mu_ d end |}) by (by destruct t).
  rewrite Hl', put_list_same. apply leave_inv; rewrite ?E; [done|by destruct t, k|by destruct t, k| |].
  - destruct t; [rewrite <- Hmu|]; by destruct k.
  - intros i Hne. destruct t; [done|]. split; [done|]. destruct Hmu as [Hmu _]. rewrite Hmu by done. congruence.
Qed.

Lemma scan_lock k o : at_ r = SLock k → scan_step me r d = Some o → ∃ d', o = Done d' ∧ inv d'.
Proof.
  intros E H. pose proof (i_mutex d Hi _ _ Hr) as Hmu. rewrite E in Hmu. unfold scan_step in H. rewrite E in H.
  assert (Hskip : inv (goto (scanned k))) by (apply leave_inv_same; rewrite ?E; by destruct k). unfold goto in Hskip.
  assert (Htake : orphan_mu_ d = None → inv {| d with records := <[me := {| r with at_ := SHead Orphans k |}]> (records d); orphan_mu_ := Some me |}).
  { intros Em. apply leave_inv; rewrite ?E; [done..|]. intros i Hne. rewrite Em. split; congruence. }
  destruct (orphan_mu_ d); [injection H as <-; by eexists|]. destruct (orphans_ d); injection H as <-; [by eexists|]. eexists. split; [done|]. by apply Htake.
Qed.

(** Every step of the scan is defined. *)
Lemma scan_inv o : scan_step me r d = Some o → ∃ d', o = Done d' ∧ inv d'.
Proof.
  intros H. pose proof (r_place d r Hok) as Hpl. unfold place_ok in Hpl. destruct (at_ r) as [| | | | |t k|t k [|n] out|t k n i out|t k out kept [|p todo]|k| | |] eqn:E;
    [try (unfold scan_step in H; rewrite E in H; done)..]; [..|by eapply scan_lock]; unfold scan_step in H; rewrite E in H.
  - injection H as <-. eexists. split; [done|]. by apply scan_head.
  - injection H as <-. eexists. split; [done|]. by apply scan_collected.
  - injection H as <-. destruct (lookup_lt_is_Some_2 (records d) n) as [o' Ho']; [lia|]. rewrite Ho'. eexists. split; [done|]. by apply (scan_record t k n out o').
  - destruct (Nat.ltb_spec i kSlots) as [Hlt|Hge]; injection H as <-; [|eexists; split; [done|]; by eapply scan_slots_end].
    destruct (lookup_lt_is_Some_2 (records d) n) as [o' Ho']; [lia|]. rewrite Ho'.
    destruct (lookup_lt_is_Some_2 (hp o') i) as [v Hv]; [by rewrite (proj1 (r_slots _ _ (i_rec d Hi _ _ Ho')))|]. cbn. rewrite Hv.
    eexists. split; [done|]. by apply (scan_slot t k n i out o').
  - injection H as <-. eexists. split; [done|]. by eapply reclaim_end.
  - case_bool_decide as Hin; [injection H as <-; eexists; split; [done|]; by eapply reclaim_keep|].
    rewrite bool_decide_true in H; [injection H as <-; eexists; split; [done|]; by eapply reclaim_delete|].
    apply (i_exists d Hi). eapply (list_of_pending t). rewrite Hpl. set_solver.
Qed.

(** ** [release_record] *)

Lemma release_orphans : at_ r = XLock → orphan_mu_ d = None →
  inv {| d with records := <[me := {| r with retired := []; at_ := XClear 0 |}]> (records d); orphans_ := orphans_ d ++ retired r |}.
Proof.
  intros E Em. pose proof (r_slots d r Hok) as [Hl Hv]. pose proof (active_of ltac:(by rewrite E)) as Hact.
  apply (set_rec_inv _ {| r with retired := []; at_ := XClear 0 |}); [done..| | |done| |by left|].
  - rewrite (pending_insert d _ me r {| r with retired := []; at_ := XClear 0 |} Hr) by done. rewrite (pending_split d me r Hr). cbn.
    rewrite (app_assoc _ (orphans_ d) (retired r)). apply Permutation_app_comm.
  - cbn. rewrite Em. by split.
  - intros i r0 _ H0 Hu. apply (i_mutex d Hi _ _ H0) in Hu. congruence.
  - intros _ _. apply plain_ok; cbn; [done|done|by rewrite Hact| |done]. intros j ?. lia.
Qed.

Lemma release_inv d' : release_step me r d = Some d' → inv d'.
Proof.
  intros H. pose proof (r_slots d r Hok) as [Hl Hv]. pose proof (r_place d r Hok) as Hpl. unfold place_ok in Hpl. unfold release_step in H.
  destruct (at_ r) as [| | | | | | | | | | |i|] eqn:E; try done; pose proof (active_of ltac:(by rewrite E)) as Hact.
  - injection H as <-. eapply move_inv; cbn; [done..|by rewrite E|by left|]. intros _ _. by apply plain_ok; cbn; rewrite ?Hact.
  - destruct (retired r) eqn:Er.
    + injection H as <-. eapply move_inv; cbn; [done..|by rewrite E|by left|]. intros _ _. apply plain_ok; cbn; [done|done|by rewrite Hact| |done]. intros j ?. lia.
    + destruct (orphan_mu_ d) eqn:Em; [done|]. injection H as <-. rewrite <- Er, <- Em. by apply release_orphans.
  - destruct (Nat.ltb_spec i kSlots) as [Hlt|Hge]; injection H as <-.
    + eapply move_inv; cbn; [done..|by rewrite E| |].
      * intros j q [(_ & ? & _)|[_ ?]]%list_lookup_insert_Some; [done|by left].
      * intros _ _. apply plain_ok; cbn; [by rewrite length_insert|done|by rewrite Hact| |done]. intros j Hj Hk.
        destruct (decide (j = i)) as [->|]; [by rewrite list_lookup_insert_eq by lia|]. rewrite list_lookup_insert_ne by done. apply Hpl; lia.
    + eapply move_inv; cbn; [done..|by rewrite E|by left|]. intros _ _. apply plain_ok; cbn; [done|done|by rewrite Hact| |done]. intros j Hj. apply Hpl; lia.
  - injection H as <-. eapply move_inv; cbn; [done..|by rewrite E|by left|]. intros _ _. by apply plain_ok; cbn.
Qed.

(** ** The calls *)

(** A thread that is outside all calls starts one. *)
Lemma start_inv c : at_ r = Idle → active r = true → scanning c = false → uses_orphans c = false → place_ok d {| r with at_ := c |} → inv (goto c).
Proof.
  intros E Ha Hs Hu Hp. pose proof (r_slots d r Hok) as [Hl Hv]. apply (move_inv _ {| r with at_ := c |}); [done..|rewrite E; exact Hu|by left|].
  intros _ Hlen. apply plain_ok; cbn; [done|done|by rewrite Ha| |done]. unfold place_ok in *. cbn in *. by destruct c; rewrite ?Hlen.
Qed.

Lemma retire_inv p : at_ r = Idle → active r = true → p ∈ objects d → p ∉ pending d → (∀ src, sources d !! src ≠ Some p) → inv (retire_by me r p d).
Proof.
  intros E Ha Hob Hnp Hsrc. pose proof (r_slots d r Hok) as [Hl Hv]. pose proof (i_mutex d Hi _ _ Hr) as Hmu. rewrite E in Hmu.
  unfold retire_by. set (c := if _ <=? _ then _ else _). assert (Hc : scanning c = false ∧ uses_orphans c = false ∧ (c = Idle ∨ c = SHead Mine AReturn)) by (unfold c; case_match; auto).
  clearbody c. destruct Hc as (Hs & Hu & Hc). set (r' := {| r with retired := retired r ++ [p]; at_ := c |}). set (d' := {| d with records := _; history := _ |}).
  assert (Hpd : pending d' ≡ₚ p :: pending d).
  { unfold d'. rewrite (pending_insert d _ me r r' Hr) by done. rewrite (pending_split d me r Hr). unfold r'. cbn. rewrite <- app_assoc. cbn. by rewrite <- Permutation_middle. }
  apply (change_inv d' r'); [done|change (at_ r') with c; rewrite Hu; exact Hmu|done|done|by left| | | | | |].
  - intros _ _. apply plain_ok; [done|done|cbn; by rewrite Ha| |done]. unfold place_ok. cbn. by destruct Hc as [-> | ->].
  - intros Hm i j q Hq. apply Hm in Hq as [Hq|[? _]]; [by eapply (i_marked d Hi)|done].
  - intros src q Hq. rewrite Hpd. pose proof Hq as Hq'. apply (i_source d Hi) in Hq as [? ?]. split; [done|]. intros [->|?]%elem_of_cons; [by eapply Hsrc|done].
  - rewrite Hpd. apply NoDup_cons. split; [done|apply (i_pending d Hi)].
  - intros q. rewrite Hpd. intros [->|?]%elem_of_cons; [done|by apply (i_exists d Hi)].
  - rewrite Hpd. cbn. rewrite (i_history d Hi). rewrite <- app_assoc. apply Permutation_app_head. symmetry. apply Permutation_cons_append.
Qed.
End change.

(** * The machine *)

Section machine.
Context d (Hi : inv d).

Lemma new_inv p : inv {| d with objects := {[p]} ∪ objects d |}.
Proof.
  split; try apply Hi.
  - intros me r Hr. eapply (rec_ok_frame d); [by eapply (i_rec d Hi)|done|done|done|]. by left.
  - intros i j q Hq. apply elem_of_union_r. by eapply (i_marked d Hi).
  - intros src q Hq. apply (i_source d Hi) in Hq as [? ?]. split; [by apply elem_of_union_r|done].
  - intros q Hq. apply elem_of_union_r. by apply (i_exists d Hi).
Qed.

Lemma store_inv m : (∀ src p, m !! src = Some p → p ∈ objects d ∧ p ∉ pending d) → inv {| d with sources := m |}.
Proof.
  intros Hm. split; try apply Hi; [|done]. intros me r Hr. eapply (rec_ok_frame d); [by eapply (i_rec d Hi)|done|done|done|]. by left.
Qed.

Lemma acquire_inv : inv {| d with records := records d ++ [Rec_new] |}.
Proof.
  set (d' := {| d with records := _ |}).
  assert (Hm : ∀ i j p, marked d' i j p → marked d i j p).
  { intros i j p (r & Hr & Hj). apply lookup_app_Some in Hr as [Hr|[_ Hr]]; [by exists r|].
    apply list_lookup_singleton_Some in Hr as [_ <-]. apply lookup_replicate in Hj as [? _]. done. }
  assert (Hp : pending d' = pending d) by (unfold pending, d'; cbn; rewrite bind_app; cbn; by rewrite app_nil_r).
  split.
  - intros me r Hr. apply lookup_app_Some in Hr as [Hr|[_ Hr]].
    + eapply (rec_ok_frame d); [by eapply (i_rec d Hi)|done|cbn; rewrite length_app; lia|done|]. intros i j p ?. left. by apply Hm.
    + apply list_lookup_singleton_Some in Hr as [_ <-]. apply plain_ok; [done|cbn; unfold kSlots; lia|done|done|done].
  - intros i j p Hj. apply Hm in Hj. by eapply (i_marked d Hi).
  - intros src p. rewrite Hp. apply (i_source d Hi).
  - rewrite Hp. apply (i_pending d Hi).
  - intros p. rewrite Hp. apply (i_exists d Hi).
  - intros me r Hr. apply lookup_app_Some in Hr as [Hr|[Hge Hr]]; [by apply (i_mutex d Hi)|].
    apply list_lookup_singleton_Some in Hr as [_ <-]. split; [done|]. cbn. intros Em. apply (i_owner d Hi) in Em. lia.
  - intros me Em. apply (i_owner d Hi) in Em. cbn. rewrite length_app. lia.
  - rewrite Hp. apply (i_history d Hi).
Qed.

Lemma when_idle {A} r (x : option A) o : match active r, at_ r with true, Idle => x | _, _ => None end = Some o → active r = true ∧ at_ r = Idle ∧ x = Some o.
Proof. by destruct (active r), (at_ r). Qed.

(** Every action that is possible is defined and keeps the invariant. *)
Lemma act_inv a o : act a d = Some o → ∃ d', o = Done d' ∧ inv d'.
Proof.
  destruct a as [p|src [p|]| |me|me src|me p|me|me]; cbn [act]; intros H.
  - case_bool_decide; [|done]. injection H as <-. eexists. split; [done|]. apply new_inv.
  - case_bool_decide as Hp; [|done]. injection H as <-. eexists. split; [done|]. apply store_inv.
    intros s q [[_ <-]|[_ Hs]]%lookup_insert_Some; [done|by eapply (i_source d Hi)].
  - injection H as <-. eexists. split; [done|]. apply store_inv. intros s q [_ Hs]%lookup_delete_Some. by eapply (i_source d Hi).
  - injection H as <-. eexists. split; [done|]. apply acquire_inv.
  - destruct (records d !! me) as [r|] eqn:Hr; cbn in H; [|done]. destruct (active r) eqn:Ha; [done|]. injection H as <-. eexists. split; [done|].
    pose proof (i_rec d Hi _ _ Hr) as Hok. destruct (r_inactive d r Hok Ha) as [E _]. pose proof (r_slots d r Hok) as [Hl Hv].
    apply (move_inv d Hi me r Hr _ {| r with active := true |}); [done..|by left|]. intros _ _. apply plain_ok; cbn; [done|done|done| |by rewrite E].
    unfold place_ok. cbn. by rewrite E.
  - destruct (records d !! me) as [r|] eqn:Hr; cbn in H; [|done]. apply when_idle in H as (Ha & E & H).
    injection H as <-. eexists. split; [done|]. apply (start_inv d Hi me r Hr (i_rec d Hi _ _ Hr)); done.
  - destruct (records d !! me) as [r|] eqn:Hr; cbn in H; [|done]. apply when_idle in H as (Ha & E & H).
    case_bool_decide as Hp; [|done]. destruct Hp as (Hob & Hnp & Hf). injection H as <-. eexists. split; [done|].
    apply (retire_inv d Hi me r Hr (i_rec d Hi _ _ Hr)); [done..|]. intros src Hs. rewrite Forall_forall in Hf.
    apply (Hf (src, p)); [by apply elem_of_map_to_list|done].
  - destruct (records d !! me) as [r|] eqn:Hr; cbn in H; [|done]. apply when_idle in H as (Ha & E & H).
    injection H as <-. eexists. split; [done|]. apply (start_inv d Hi me r Hr (i_rec d Hi _ _ Hr)); done.
  - destruct (records d !! me) as [r|] eqn:Hr; cbn in H; [|done]. pose proof (i_rec d Hi _ _ Hr) as Hok.
    destruct (protect_step r d) as [[r' a]|] eqn:Ep; [injection H as <-; eexists; split; [done|]; by eapply protect_inv|].
    destruct (scan_step me r d) as [o'|] eqn:Es; [injection H as <-; by eapply scan_inv|].
    destruct (release_step me r d) as [d'|] eqn:El; [|done]. injection H as <-. eexists. split; [done|]. by eapply release_inv.
Qed.
End machine.

Lemma domain_new_inv : inv HazardDomain_new.
Proof. split; try done. - intros i j p (r & Hr & _). done. - apply NoDup_nil_2. - intros p Hp. by apply elem_of_nil in Hp. Qed.

Lemma hazard_reachable_inv d : reachable d → inv d.
Proof. apply rtc_ind_r; [apply domain_new_inv|]. intros x y _ [a Ha] Hx. destruct (act_inv x Hx a _ Ha) as (d' & [= <-] & ?). done. Qed.

(** * What protection means *)

(** A thread's own step that writes slot [j]: another pointer is published there, or the
    thread ends. *)
Definition overwrites d (i j : nat) (a : action) : Prop :=
  a = Step i ∧ ∃ r, records d !! i = Some r ∧ (at_ r = XClear j ∨ victim r = j ∧ ∃ src q, at_ r = PFind src q ∧ holds q (hp r) = false).

Lemma mark_keeps q slots j p : slots !! j = Some (Some (p, true)) → mark q slots !! j = Some (Some (p, true)).
Proof. intros H. unfold mark. by rewrite list_lookup_fmap, H. Qed.

Lemma protect_keeps d i r r' a j p : records d !! i = Some r → protect_step r d = Some (r', a) → hp r !! j = Some (Some (p, true)) →
  hp r' !! j = Some (Some (p, true)) ∨ overwrites d i j (Step i).
Proof.
  intros Hr H Hj. unfold protect_step in H. destruct (at_ r) as [| |src|src q|src q| | | | | | | |] eqn:Ea; try done.
  - destruct (sources d !! src); injection H as <- <-; left; [by apply mark_keeps|done].
  - destruct (holds q (hp r)) eqn:Eh; injection H as <- <-; [by left|]. cbn. destruct (decide (victim r = j)) as [Ev|Hne].
    + right. split; [done|]. exists r. split; [done|]. right. eauto.
    + left. by rewrite list_lookup_insert_ne.
  - destruct (sources d !! src) as [q'|]; [case_bool_decide|]; injection H as <- <-; left; [by apply mark_keeps..|done].
Qed.

Lemma marked_by d d' i r r' j p : records d' = <[i := r']> (records d) → records d !! i = Some r → hp r' !! j = Some (Some (p, true)) → marked d' i j p.
Proof. intros E Hr Hj. exists r'. split; [|done]. rewrite E. apply list_lookup_insert_eq. by eapply lookup_lt_Some. Qed.

(** A step of the scan writes no slot. *)
Lemma scan_slots me r d d' : records d !! me = Some r → scan_step me r d = Some (Done d') → ∃ r', records d' = <[me := r']> (records d) ∧ hp r' = hp r.
Proof.
  intros Hr H. unfold scan_step in H.
  destruct (at_ r) as [| | | | |t k|t k [|n] out|t k n i out|t k out kept [|p todo]|k| | |]; try done;
    repeat (case_match; try done); try (injection H as <-; first [by eexists|destruct t; by eexists]).
  - destruct (records d !! n); [|done]. injection H as <-. by eexists.
  - destruct (records d !! n) as [o|]; cbn in H; [|done]. destruct (hp o !! i); [|done]. injection H as <-. by eexists.
Qed.

Lemma release_slots me r d d' j v : records d !! me = Some r → release_step me r d = Some d' → hp r !! j = Some v →
  (∃ r', records d' = <[me := r']> (records d) ∧ hp r' !! j = Some v) ∨ overwrites d me j (Step me).
Proof.
  intros Hr H Hj. unfold release_step in H. destruct (at_ r) as [| | | | | | | | | | |i|] eqn:E; try done.
  - injection H as <-. left. by eexists.
  - destruct (retired r), (orphan_mu_ d); try done; injection H as <-; left; by eexists.
  - destruct (i <? kSlots); injection H as <-; [|left; by eexists]. destruct (decide (i = j)) as [->|Hne].
    + right. split; [done|]. exists r. by split; [|left].
    + left. eexists. split; [done|]. cbn. by rewrite list_lookup_insert_ne.
  - injection H as <-. left. by eexists.
Qed.

(** Protection lasts until the thread itself writes the slot again. *)
Lemma marked_kept d d' a i j p : act a d = Some (Done d') → marked d i j p → marked d' i j p ∨ overwrites d i j a.
Proof.
  intros H (r & Hr & Hj).
  assert (Hother : ∀ me (r0 r1 : Rec), records d !! me = Some r0 → records d' = <[me := r1]> (records d) → hp r1 = hp r0 → marked d' i j p).
  { intros me r0 r1 H0 E1 Eh. destruct (decide (me = i)) as [->|Hne].
    - assert (r0 = r) as -> by congruence. eapply marked_by; [done..|by rewrite Eh].
    - exists r. split; [|done]. by rewrite E1, list_lookup_insert_ne. }
  destruct a as [q|src [q|]| |me|me src|me q|me|me]; cbn [act] in H.
  - case_bool_decide; [|done]. injection H as <-. left. by exists r.
  - case_bool_decide; [|done]. injection H as <-. left. by exists r.
  - injection H as <-. left. by exists r.
  - injection H as <-. left. exists r. split; [|done]. by apply lookup_app_l_Some.
  - destruct (records d !! me) as [r0|] eqn:H0; cbn in H; [|done]. destruct (active r0); [done|]. injection H as <-. left. by apply (Hother _ _ _ H0 eq_refl).
  - destruct (records d !! me) as [r0|] eqn:H0; cbn in H; [|done]. apply when_idle in H as (_ & _ & [= <-]). left. by apply (Hother _ _ _ H0 eq_refl).
  - destruct (records d !! me) as [r0|] eqn:H0; cbn in H; [|done]. apply when_idle in H as (_ & _ & H). case_bool_decide; [|done]. injection H as <-.
    left. by apply (Hother _ _ _ H0 eq_refl).
  - destruct (records d !! me) as [r0|] eqn:H0; cbn in H; [|done]. apply when_idle in H as (_ & _ & [= <-]). left. by apply (Hother _ _ _ H0 eq_refl).
  - destruct (records d !! me) as [r0|] eqn:H0; cbn in H; [|done].
    destruct (decide (me = i)) as [->|Hne]; [assert (r0 = r) as -> by congruence|].
    + destruct (protect_step r d) as [[r' a]|] eqn:Ep.
      { injection H as <-. destruct (protect_keeps _ _ _ _ _ _ _ Hr Ep Hj); [left; by eapply marked_by|by right]. }
      destruct (scan_step i r d) as [o|] eqn:Es; [injection H as ->; left; destruct (scan_slots _ _ _ _ Hr Es) as (r' & ? & ?); by eapply Hother|].
      destruct (release_step i r d) as [d1|] eqn:El; [|done]. injection H as <-. destruct (release_slots _ _ _ _ _ _ Hr El Hj) as [(r' & ? & ?)|?]; [left; by eapply marked_by|by right].
    + left. exists r. split; [|done].
      assert (∃ r1, records d' = <[me := r1]> (records d)) as [r1 ->]; [|by rewrite list_lookup_insert_ne].
      destruct (protect_step r0 d) as [[r' a]|] eqn:Ep; [injection H as <-; by eexists|].
      destruct (scan_step me r0 d) as [o|] eqn:Es; [injection H as ->; destruct (scan_slots _ _ _ _ H0 Es) as (r' & ? & ?); by eexists|].
      destruct (release_step me r0 d) as [d1|] eqn:El; [|done]. injection H as <-. unfold release_step in El. repeat (case_match; try done); injection El as <-; by eexists.
Qed.

(** * A scan by itself *)

(** Some slot of an active record below [n] holds [p]. *)
Definition published d (n : nat) p : Prop := ∃ i o j b, i < n ∧ records d !! i = Some o ∧ active o = true ∧ hp o !! j = Some (Some (p, b)).

(** The thread goes on, and no other. *)
Definition alone (me : nat) d d' : Prop := act (Step me) d = Some (Done d').

Section scan.
Context d (Hi : inv d) (me : nat) r (Hr : records d !! me = Some r) (Ha : active r = true) (t : target) (k : after).

Let at_place (c : pc) : domain := goto d me r c.

Lemma place_record c : records (at_place c) !! me = Some {| r with at_ := c |}.
Proof. apply list_lookup_insert_eq. by eapply lookup_lt_Some. Qed.

Lemma place_other c n o : records d !! n = Some o → ∃ o', records (at_place c) !! n = Some o' ∧ active o' = active o ∧ hp o' = hp o.
Proof.
  intros Ho. destruct (decide (n = me)) as [->|Hne]; [|exists o; split; [|done]; cbn; by rewrite list_lookup_insert_ne].
  assert (o = r) as -> by congruence. eexists. split; [apply place_record|done].
Qed.

Lemma alone_goto c c' : scan_step me {| r with at_ := c |} (at_place c) = Some (Done (goto (at_place c) me r c')) →
  protect_step {| r with at_ := c |} (at_place c) = None → alone me (at_place c) (at_place c').
Proof.
  intros Hs Hp. unfold alone. cbn [act]. rewrite place_record. cbn [mbind option_bind]. rewrite Hp, Hs. do 2 f_equal. unfold at_place, goto. cbn.
  f_equal. by rewrite list_insert_insert_eq.
Qed.

(** The slots of one record. *)
Lemma scan_slots_alone n o out m : m ≤ kSlots → records d !! n = Some o →
  ∃ out', rtc (alone me) (at_place (SSlot t k n (kSlots - m) out)) (at_place (SRec t k n out')) ∧
    ∀ p, p ∈ out' ↔ p ∈ out ∨ ∃ j b, kSlots - m ≤ j ∧ hp o !! j = Some (Some (p, b)).
Proof.
  intros Hm Ho. pose proof (r_slots _ _ (i_rec d Hi _ _ Ho)) as [Hl _]. revert out. induction m as [|m IH]; intros out.
  - exists out. split.
    + apply rtc_once, alone_goto; [|done]. cbn [scan_step at_]. by rewrite (proj2 (Nat.ltb_ge _ _)) by lia.
    + intros p. split; [by left|]. intros [?|(j & b & Hj & Hv)]; [done|]. apply lookup_lt_Some in Hv. lia.
  - destruct (lookup_lt_is_Some_2 (hp o) (kSlots - S m)) as [v Hv]; [lia|].
    destruct (IH ltac:(lia) (match v with Some (p, _) => p :: out | None => out end)) as (out' & Hrun & Hout). exists out'. split.
    + eapply rtc_l; [|exact Hrun]. replace (kSlots - m) with (S (kSlots - S m)) by lia. assert (Hlt : kSlots - S m < kSlots) by (unfold kSlots; lia).
      revert Hv Hlt. generalize (kSlots - S m). intros i Hv Hlt. destruct (place_other (SSlot t k n i out) n o Ho) as (o' & Ho' & _ & Eh).
      apply alone_goto; [|done]. cbn [scan_step at_]. rewrite (proj2 (Nat.ltb_lt _ _)) by done. rewrite Ho'. cbn. by rewrite Eh, Hv.
    + intros p. rewrite Hout. split.
      * intros [Hp|(j & b & Hj & Hjv)]; [|right; exists j, b; split; [lia|done]]. destruct v as [[q b]|]; [|by left].
        apply elem_of_cons in Hp as [->|]; [|by left]. right. exists (kSlots - S m), b. by split.
      * intros [Hp|(j & b & Hj & Hjv)]; [left; destruct v as [[]|]; set_solver|].
        destruct (decide (j = kSlots - S m)) as [->|]; [left|right; exists j, b; split; [lia|done]].
        assert (v = Some (p, b)) as -> by congruence. set_solver.
Qed.

(** The collection of all hazards. *)
Lemma collect_alone n out : n ≤ length (records d) →
  ∃ out', rtc (alone me) (at_place (SRec t k n out)) (at_place (SRec t k 0 out')) ∧ ∀ p, p ∈ out' ↔ p ∈ out ∨ published d n p.
Proof.
  revert out. induction n as [|n IH]; intros out Hn.
  - exists out. split; [done|]. intros p. split; [by left|]. intros [?|(i & o & j & b & ? & _)]; [done|lia].
  - destruct (lookup_lt_is_Some_2 (records d) n) as [o Ho]; [lia|].
    assert (Hgo : alone me (at_place (SRec t k (S n) out)) (at_place (if active o then SSlot t k n 0 out else SRec t k n out))).
    { destruct (place_other (SRec t k (S n) out) n o Ho) as (o' & Ho' & Ea & _). apply alone_goto; [|done]. cbn [scan_step at_]. rewrite Ho'. cbn. by rewrite Ea. }
    assert (Hrec : ∃ out1, rtc (alone me) (at_place (SRec t k (S n) out)) (at_place (SRec t k n out1)) ∧
      ∀ p, p ∈ out1 ↔ p ∈ out ∨ active o = true ∧ ∃ j b, hp o !! j = Some (Some (p, b))).
    { destruct (active o) eqn:Ea.
      - destruct (scan_slots_alone n o out kSlots ltac:(lia) Ho) as (out1 & Hrun & Hout). exists out1. split; [by eapply rtc_l|].
        intros p. rewrite Hout. split; (intros [?|Hx]; [by left|right]); [destruct Hx as (j & b & _ & ?); eauto|destruct Hx as (_ & j & b & ?)]. exists j, b. split; [lia|done].
      - exists out. split; [by apply rtc_once|]. intros p. split; [by left|]. by intros [?|[? _]]. }
    destruct Hrec as (out1 & Hrun1 & Hout1). destruct (IH out1 ltac:(lia)) as (out' & Hrun & Hout). exists out'. split; [by etrans|].
    intros p. rewrite Hout, Hout1. split.
    + intros [[?|(Eo & j & b & Hj)]|(i & o' & j & b & ? & ?)]; [by left|right; exists n, o, j, b; split; [lia|done]|right; exists i, o', j, b; split; [lia|done]].
    + intros [?|(i & o' & j & b & Hlt & Hio & Eo & Hj)]; [by left; left|]. destruct (decide (i = n)) as [->|].
      * assert (o' = o) as -> by congruence. left. right. eauto.
      * right. exists i, o', j, b. split; [lia|done].
Qed.
End scan.

(** What other threads see of the records. *)
Definition slots d : list (bool * list (option (ptr * bool))) := (λ r, (active r, hp r)) <$> records d.

Lemma published_slots d d' n p : slots d' = slots d → published d n p → published d' n p.
Proof.
  intros E (i & o & j & b & Hlt & Ho & Ha & Hj). assert (Hs : slots d' !! i = Some (active o, hp o)) by (rewrite E; unfold slots; by rewrite list_lookup_fmap, Ho).
  unfold slots in Hs. rewrite list_lookup_fmap in Hs. destruct (records d' !! i) as [o'|] eqn:Eo; [|done]. injection Hs as E1 E2. exists i, o', j, b. rewrite E1, E2. done.
Qed.

Lemma slots_insert d d' me r r' : records d !! me = Some r → records d' = <[me := r']> (records d) → active r' = active r → hp r' = hp r → slots d' = slots d.
Proof. intros Hr E E1 E2. unfold slots. rewrite E, list_fmap_insert, E1, E2. apply list_insert_id. by rewrite list_lookup_fmap, Hr. Qed.

(** What reclaiming list [t] leaves alone. *)
Definition rest (t : target) r d : list ptr * option (option nat) := match t with Mine => (orphans_ d, Some (orphan_mu_ d)) | Orphans => (retired r, None) end.

(** One step of [reclaim] by itself. *)
Lemma reclaim_step_alone t d me r k out kept p todo : inv d → records d !! me = Some r → at_ r = SFree t k out kept (p :: todo) →
  ∃ d' r', alone me d d' ∧ inv d' ∧ records d' !! me = Some r' ∧
    at_ r' = SFree t k out (if bool_decide (p ∈ out) then kept ++ [p] else kept) todo ∧
    objects d' = (if bool_decide (p ∈ out) then objects d else objects d ∖ {[p]}) ∧ slots d' = slots d ∧ rest t r' d' = rest t r d.
Proof.
  intros Hi Hr E. pose proof (i_rec d Hi _ _ Hr) as Hok. pose proof (lookup_lt_Some _ _ _ Hr) as Hlt.
  assert (Hob : p ∈ objects d) by (apply (i_exists d Hi), (list_of_pending d me r Hr t); rewrite (free_list d r Hok _ _ _ _ _ E); set_solver).
  assert (Hgo : ∃ d' r', scan_step me r d = Some (Done d') ∧ records d' = <[me := r']> (records d) ∧
    at_ r' = SFree t k out (if bool_decide (p ∈ out) then kept ++ [p] else kept) todo ∧ objects d' = (if bool_decide (p ∈ out) then objects d else objects d ∖ {[p]}) ∧
    active r' = active r ∧ hp r' = hp r ∧ rest t r' d' = rest t r d).
  { unfold scan_step. rewrite E. rewrite (bool_decide_true (p ∈ objects d)) by done. destruct (bool_decide (p ∈ out)), t; (do 2 eexists; split; [done|]; cbn; done). }
  destruct Hgo as (d' & r' & Hs & E1 & Eat & Eob & Ea & Eh & Ert). assert (Hact : act (Step me) d = Some (Done d')).
  { cbn [act]. rewrite Hr. cbn [mbind option_bind]. unfold protect_step. rewrite E. by rewrite Hs. }
  exists d', r'. split_and!; try done.
  - by destruct (act_inv d Hi _ _ Hact) as (d0 & [= <-] & ?).
  - by rewrite E1, list_lookup_insert_eq.
  - by apply (slots_insert d d' me r r').
Qed.

Lemma reclaim_alone t k out todo : ∀ d me r kept, inv d → records d !! me = Some r → at_ r = SFree t k out kept todo →
  ∃ d' r', rtc (alone me) d d' ∧ inv d' ∧ records d' !! me = Some r' ∧ at_ r' = reclaimed t k ∧ list_of t r' d' = kept ++ filter (.∈ out) todo ∧
    (∀ p, p ∈ objects d' ↔ p ∈ objects d ∧ (p ∈ todo → p ∈ out)) ∧ slots d' = slots d ∧ rest t r' d' = rest t r d.
Proof.
  induction todo as [|p todo IH]; intros d me r kept Hi Hr E.
  - pose proof (lookup_lt_Some _ _ _ Hr).
    assert (Hgo : ∃ d' r', act (Step me) d = Some (Done d') ∧ records d' = <[me := r']> (records d) ∧ at_ r' = reclaimed t k ∧ list_of t r' d' = kept ∧ objects d' = objects d ∧ active r' = active r ∧ hp r' = hp r ∧ rest t r' d' = rest t r d).
    { cbn [act]. rewrite Hr. cbn [mbind option_bind]. unfold protect_step, scan_step. rewrite E. destruct t; (do 2 eexists; split; [done|]; cbn; done). }
    destruct Hgo as (d' & r' & Hact & E1 & Eat & El & Eob & Ea & Eh & Ert). exists d', r'. split_and!; try done.
    + by apply rtc_once.
    + by destruct (act_inv d Hi _ _ Hact) as (d0 & [= <-] & ?).
    + by rewrite E1, list_lookup_insert_eq.
    + by rewrite app_nil_r.
    + rewrite Eob. set_solver.
    + by apply (slots_insert d d' me r r').
  - destruct (reclaim_step_alone t d me r k out kept p todo Hi Hr E) as (d1 & r1 & Hgo & Hi1 & Hr1 & E1 & Eob & Esl & Ert).
    destruct (IH d1 me r1 _ Hi1 Hr1 E1) as (d' & r' & Hrun & Hi' & Hr' & E' & Hret & Hob & Esl' & Ert'). exists d', r'. split_and!; try done; try congruence.
    + by eapply rtc_l.
    + rewrite Hret, filter_cons. case_bool_decide; [rewrite decide_True by done; by rewrite <- app_assoc|by rewrite decide_False].
    + intros q. rewrite Hob, Eob. case_bool_decide; set_solver.
Qed.

Lemma hazard_alone_inv me d d' : rtc (alone me) d d' → inv d → inv d'.
Proof. intros H. induction H as [|x y z Hxy _ IH]; [done|]. intros Hx. apply IH. by destruct (act_inv x Hx _ _ Hxy) as (? & [= <-] & ?). Qed.

(** A whole call of [reclaim], from the fence to its end. *)
Lemma reclaim_call t k d me r : inv d → records d !! me = Some r → at_ r = SHead t k →
  ∃ d' r', rtc (alone me) d d' ∧ inv d' ∧ records d' !! me = Some r' ∧ at_ r' = reclaimed t k ∧ slots d' = slots d ∧ rest t r' d' = rest t r d ∧
    (∀ p, p ∈ list_of t r' d' ↔ p ∈ list_of t r d ∧ published d (length (records d)) p) ∧
    (∀ p, p ∈ objects d' ↔ p ∈ objects d ∧ (p ∈ list_of t r d → published d (length (records d)) p)).
Proof.
  intros Hi Hr E. pose proof (lookup_lt_Some _ _ _ Hr) as Hlt. pose proof (i_rec d Hi _ _ Hr) as Hok. pose proof (active_of d r Hok ltac:(by rewrite E)) as Ha.
  destruct (collect_alone d Hi me r Hr Ha t k (length (records d)) [] ltac:(done)) as (out & Hrun & Hout).
  assert (H0 : alone me d (goto d me r (SRec t k (length (records d)) []))) by (unfold alone; cbn [act]; rewrite Hr; cbn [mbind option_bind]; unfold protect_step, scan_step; by rewrite E).
  set (d1 := goto d me r (SRec t k 0 out)) in Hrun. assert (Hi1 : inv d1) by (by eapply hazard_alone_inv; [eapply rtc_l|]).
  set (r1 := {| r with at_ := SRec t k 0 out |}). assert (Hr1 : records d1 !! me = Some r1) by (by apply list_lookup_insert_eq).
  pose proof (scan_collected d1 Hi1 me r1 Hr1 (i_rec d1 Hi1 _ _ Hr1) t k out eq_refl) as Hi2. set (l := list_of t r1 d1) in Hi2. assert (El : l = list_of t r d) by (by destruct t).
  set (r2 := {| r1 with at_ := SFree t k out [] l |}). set (d2 := goto d1 me r1 (SFree t k out [] l)) in Hi2. assert (Hr2 : records d2 !! me = Some r2) by (unfold d2, goto; cbn; rewrite list_lookup_insert_eq; [done|by rewrite length_insert]).
  destruct (reclaim_alone t k out l d2 me r2 [] Hi2 Hr2 eq_refl) as (d' & r' & Hrun2 & Hi' & Hr' & E' & Hret & Hob & Esl & Ert). exists d', r'. split_and!; try done.
  - eapply rtc_l; [exact H0|]. etrans; [exact Hrun|]. eapply rtc_l; [|exact Hrun2]. unfold alone. cbn [act]. by rewrite Hr1.
  - rewrite Esl. apply (slots_insert d d2 me r r2); try done. unfold d2, d1, goto. cbn. by rewrite list_insert_insert_eq.
  - intros p. rewrite Hret, El. cbn. rewrite list_elem_of_filter, Hout. set_solver.
  - intros p. rewrite Hob, El. cbn. rewrite Hout. set_solver.
Qed.

(** C23: a thread that scans while no other thread runs comes to the end of [scan], the
    pass over the orphans included: of what it has retired and, when nobody holds the
    mutex, of the orphans it deletes all but what an active record publishes, and keeps
    exactly that. *)
Theorem scan_reclaims d me r k : reachable d → records d !! me = Some r → at_ r = SHead Mine k →
  ∃ d' r', rtc (alone me) d d' ∧ records d' !! me = Some r' ∧ at_ r' = scanned k ∧
    (∀ p, p ∈ retired r' ↔ p ∈ retired r ∧ published d (length (records d)) p) ∧
    (∀ p, p ∈ orphans_ d' ↔ p ∈ orphans_ d ∧ (orphan_mu_ d = None → published d (length (records d)) p)) ∧
    (∀ p, p ∈ objects d' ↔ p ∈ objects d ∧ (p ∈ retired r ∨ p ∈ orphans_ d ∧ orphan_mu_ d = None → published d (length (records d)) p)).
Proof.
  intros Hd Hr E. pose proof (hazard_reachable_inv d Hd) as Hi. destruct (reclaim_call Mine k d me r Hi Hr E) as (d1 & r1 & Hrun & Hi1 & Hr1 & E1 & Esl & Ert & Hl & Hob). cbn in E1, Hl, Hob. injection Ert as Eo Em.
  assert (Hn : length (records d1) = length (records d)) by (pose proof (f_equal length Esl) as H; unfold slots in H; by rewrite !length_fmap in H).
  pose proof (lookup_lt_Some _ _ _ Hr1) as Hlt1.
  assert (Hstep : ∀ d2, scan_step me r1 d1 = Some (Done d2) → alone me d1 d2) by (intros d2 H; unfold alone; cbn [act]; rewrite Hr1; cbn [mbind option_bind]; unfold protect_step; rewrite E1; by rewrite H).
  destruct (orphan_mu_ d) as [h|] eqn:Emu; [|destruct (orphans_ d) as [|q l] eqn:Eor].
  - eexists _, {| r1 with at_ := scanned k |}. split; [eapply rtc_r; [exact Hrun|]; apply Hstep; unfold scan_step; rewrite E1, Em; done|]. cbn. rewrite list_lookup_insert_eq by done.
    split_and!; try done; [intros p; rewrite Eo; naive_solver|]. intros p. rewrite Hob. naive_solver.
  - eexists _, {| r1 with at_ := scanned k |}. split; [eapply rtc_r; [exact Hrun|]; apply Hstep; unfold scan_step; rewrite E1, Em, Eo; done|]. cbn. rewrite list_lookup_insert_eq by done.
    split_and!; try done; [set_solver|]. intros p. rewrite Hob. set_solver.
  - set (d2 := {| d1 with records := <[me := {| r1 with at_ := SHead Orphans k |}]> (records d1); orphan_mu_ := Some me |}).
    assert (Hal : alone me d1 d2) by (apply Hstep; unfold d2, scan_step; by rewrite E1, Em, Eo). assert (Hi2 : inv d2) by (eapply hazard_alone_inv; [by apply rtc_once|done]).
    assert (Hr2 : records d2 !! me = Some {| r1 with at_ := SHead Orphans k |}) by (cbn; by rewrite list_lookup_insert_eq).
    destruct (reclaim_call Orphans k d2 me _ Hi2 Hr2 eq_refl) as (d' & r' & Hrun' & _ & Hr' & E' & Esl' & Ert' & Hl' & Hob'). cbn in E', Hl', Hob'. injection Ert' as Eret.
    assert (Esl2 : slots d2 = slots d) by (rewrite <- Esl; by apply (slots_insert d1 d2 me r1 {| r1 with at_ := SHead Orphans k |})).
    assert (Hn2 : length (records d2) = length (records d)) by (cbn; by rewrite length_insert).
    assert (Hpub : ∀ p, published d2 (length (records d2)) p ↔ published d (length (records d)) p) by (intros p; rewrite Hn2; split; by apply published_slots).
    cbn [records d2] in Hpub. exists d', r'. split; [etrans; [exact Hrun|]; by eapply rtc_l|]. split_and!; try done.
    + intros p. rewrite Eret. apply Hl.
    + intros p. rewrite Hl', Hpub, Eo. naive_solver.
    + intros p. rewrite Hob', Hpub, Hob, Eo. naive_solver.
Qed.

Lemma run_reachable l : ∀ d d', reachable d → run l d = Some (Done d') → reachable d'.
Proof.
  induction l as [|a l IH]; intros d d' Hd H; cbn in H; [by injection H as <-|]. destruct (act a d) as [[d1| |]|] eqn:Ea; try done.
  apply (IH d1); [|done]. eapply rtc_r; [exact Hd|]. by exists a.
Qed.

(** Thread 0 has retired the objects 1 and 2, and thread 1 uses the first: thread 0 ends. *)
Definition two_retired : list action :=
  [New 1; New 2; Store 0 (Some 1); Acquire; Step 0; Acquire; Step 1; Protect 1 0; Step 1; Step 1; Step 1;
   Store 0 None; Retire 0 1; Retire 0 2; Exit 0]%positive.

Definition after_run (l : list action) : domain := match run l HazardDomain_new with Some (Done d) => d | _ => HazardDomain_new end.
Definition record_of (me : nat) d : Rec := default Rec_new (records d !! me).

Lemma scan_reclaims_witness :
  retired (record_of 0 (after_run two_retired)) = [1; 2]%positive ∧
  ∃ d' r', rtc (alone 0) (after_run two_retired) d' ∧ records d' !! 0 = Some r' ∧ at_ r' = scanned ARelease ∧
    (∀ p, p ∈ retired r' ↔ p ∈ [1; 2]%positive ∧ published (after_run two_retired) 2 p).
Proof.
  split; [vm_compute; reflexivity|].
  destruct (scan_reclaims (after_run two_retired) 0 (record_of 0 (after_run two_retired)) ARelease) as (d' & r' & H1 & H2 & H3 & H4 & _).
  - apply (run_reachable two_retired HazardDomain_new); [apply rtc_refl|vm_compute; reflexivity].
  - vm_compute; reflexivity.
  - vm_compute; reflexivity.
  - exists d', r'. exact (conj H1 (conj H2 (conj H3 H4))).
Defined.

(** C22: under every interleaving: no step deletes an object that is
    gone; what [protect] answers is in a slot of its thread, exists, and goes on existing
    until that thread publishes another pointer in the slot or ends; no shared pointer
    dangles; and what was retired is, without repetition, what was deleted and what still
    waits in a list. *)
Theorem hazard_pointers_safe d : reachable d →
  (∀ a o, act a d = Some o → ∃ d', o = Done d') ∧
  (∀ me r r' p, records d !! me = Some r → protect_step r d = Some (r', Some (Some p)) → ∃ j, hp r' !! j = Some (Some (p, true))) ∧
  (∀ i j p, marked d i j p → p ∈ objects d ∧ ∀ a d', act a d = Some (Done d') → marked d' i j p ∨ overwrites d i j a) ∧
  (∀ src p, sources d !! src = Some p → p ∈ objects d) ∧
  NoDup (pending d) ∧ (∀ p, p ∈ pending d → p ∈ objects d) ∧ (history d).1 ≡ₚ (history d).2 ++ pending d.
Proof.
  intros Hd. pose proof (hazard_reachable_inv d Hd) as Hi. split; [|split; [|split; [|split; [|split; [|split]]]]].
  - intros a o Ha. destruct (act_inv d Hi a o Ha) as (d' & -> & _). by eexists.
  - intros me r r' p Hr Hp. eapply protect_answer; [by eapply (i_rec d Hi)|done].
  - intros i j p Hm. split; [by eapply (i_marked d Hi)|]. intros a d' Ha. by eapply marked_kept.
  - intros src p Hs. by eapply (i_source d Hi).
  - apply (i_pending d Hi).
  - apply (i_exists d Hi).
  - apply (i_history d Hi).
Qed.

Lemma hazard_pointers_safe_witness :
  let d := after_run two_retired in
  marked d 1 0 1%positive ∧ (∀ i j p, marked d i j p → p ∈ objects d ∧ ∀ a d', act a d = Some (Done d') → marked d' i j p ∨ overwrites d i j a) ∧ NoDup (pending d).
Proof.
  intros d. split; [exists (record_of 1 d); split; vm_compute; reflexivity|].
  assert (Hd : reachable d) by (apply (run_reachable two_retired HazardDomain_new); [apply rtc_refl|vm_compute; reflexivity]).
  split; apply (hazard_pointers_safe d Hd).
Defined.

(** ** Two pointers at once *)

(** Thread 0 has used eight objects, the first of them again in [head_] (0); another one is
    in [tail_] (1). *)
Definition eight_used : list action :=
  [Acquire; Step 0; Acquire; Step 1] ++
  (p ← [1; 2; 3; 4; 5; 6; 7; 8; 9]%positive; [New p]) ++
  (p ← [1; 2; 3; 4; 5; 6; 7; 8]%positive; [Store 0 (Some p); Protect 0 0; Step 0; Step 0; Step 0]) ++
  [Store 0 (Some 1); Store 1 (Some 9); Protect 0 0; Step 0]%positive.

(** The second [protect]; meanwhile thread 1 takes the first object out, retires it and ends. *)
Definition protect_again : list action :=
  [Step 0; Protect 0 1; Step 0; Step 0; Step 0; Store 0 None; Retire 1 1; Exit 1]%positive ++ replicate 23 (Step 1).

(** The first pointer is found in the slot that the second call writes next: after
    the two calls of [size_relaxed] the first object may be deleted. *)
Theorem size_relaxed_loses_head :
  (∃ r, protect_step (record_of 0 (after_run eight_used)) (after_run eight_used) = Some (r, Some (Some 1%positive))) ∧
  ∃ d, run protect_again (after_run eight_used) = Some (Done d) ∧ at_ (record_of 0 d) = Idle ∧ 1%positive ∉ objects d.
Proof.
  split; [vm_compute; by eexists|].
  eexists. split; [vm_compute; reflexivity|]. split; [vm_compute; reflexivity|]. apply (bool_decide_eq_true_1 _). vm_compute. reflexivity.
Qed.
End HazardPointersCorrect.
