(* ===== verification/SegmentedQueue.v ===== *)
(** The unbounded concurrent queue ([SegmentedMPMCQueue] of [ConcurrentQueues.h]): a
    linked list of segments; producers and consumers claim cells by fetch-and-add,
    consumers kill the cells they claimed ahead of the producers, and exhausted segments
    are retired to the hazard-pointer domain.

    Any number of calls interleave, one step per access to shared memory.  A segment
    that was retired may be freed, and its address used again, as soon as no call holds
    it: this is what [HazardDomain] grants to a pointer read with [protect].  A recycled
    segment ([SpareHolder]) is a new one at an old address.  Positions within a segment
    and the base of a segment do not overflow their 64 bits. *)

From S2P Require Import Prelude.

Module SegmentedQueue.

Section queue.
Context {T : Type} (SegmentSize : nat).
Local Open Scope nat_scope.

Inductive cell_state := kEmpty | kFull | kDead.
#[export] Instance cell_state_eq_dec : EqDecision cell_state.
Proof. solve_decision. Defined.

Record Cell := mkCell { state : cell_state; storage : option T }.

Record Segment := mkSegment {
  enq_pos : nat;
  deq_pos : nat;
  next : option ptr;
  base : nat;
  cells : list Cell
}.

Record queue := mkQueue {
  segments : gmap ptr Segment;
  head_ : ptr;
  tail_ : ptr;
  retired : list ptr   (** handed to the hazard-pointer domain *)
}.

Definition Segment_new (b : nat) : Segment := mkSegment 0 0 None b (replicate SegmentSize (mkCell kEmpty None)).
Definition SegmentedMPMCQueue_new (s : ptr) : queue := mkQueue {[ s := Segment_new 0 ]} s s [].

Definition segment (s : ptr) (q : queue) : outcome Segment := deref (segments q !! s).
Definition set_segment (s : ptr) (sg : Segment) (q : queue) : queue := {| q with segments := <[s := sg]> (segments q) |}.
Definition cell (s : ptr) (i : nat) (q : queue) : outcome Cell := sg ← segment s q; deref (cells sg !! i).
Definition set_cell (s : ptr) (i : nat) (c : Cell) (q : queue) : outcome queue :=
  sg ← segment s q;
  _ ← deref (cells sg !! i);
  Done (set_segment s {| sg with cells := <[i := c]> (cells sg) |} q).

(** ** Enqueueing

    [one] tells [do_enqueue] of a single value from [enqueue_bulk]: [advance_tail] is
    given the value to put into the segment it makes, or nothing. *)

Inductive enq_pc :=
| EProtect (one : bool) (vs : list T)                       (** [hz.protect(rec, tail_)] *)
| EFetch (one : bool) (s : ptr) (vs : list T)               (** [enq_pos.fetch_add] *)
| EPublish (one : bool) (s : ptr) (i : nat) (v : T) (todo rest : list T) (** the value is built in its cell *)
| EFull (one : bool) (s : ptr) (i : nat) (v : T) (todo rest : list T)    (** [state.store(kFull)] *)
| ENext (one : bool) (s : ptr) (vs : list T)                (** [advance_tail]: the load of [next] *)
| EAlloc (one : bool) (s : ptr) (vs : list T)               (** [take_segment] *)
| ELink (one : bool) (s fresh : ptr) (vs : list T)          (** [next.compare_exchange_strong] *)
| ESwung (one : bool) (s fresh : ptr) (vs : list T)         (** the new segment becomes the tail *)
| ESwing (one : bool) (s nx : ptr) (vs : list T).           (** another's segment does *)

(** After a cell is published: the next of the claimed cells, the values the segment
    has no room for, or the end. *)
Definition published (one : bool) (s : ptr) (i : nat) (todo rest : list T) : option enq_pc :=
  match todo, rest with
  | v :: todo, _ => Some (EPublish one s (S i) v todo rest)
  | [], [] => None
  | [], _ => Some (ENext one s rest)
  end.

(** The segment a producer prepares. *)
Definition prepared (one : bool) (b : nat) (vs : list T) : Segment :=
  match one, vs with
  | true, v :: _ =>
      let sg := Segment_new b in {| sg with cells := <[0 := mkCell kFull (Some v)]> (cells sg); enq_pos := 1 |}
  | _, _ => Segment_new b
  end.

(** The next step; [None] when the call has returned.  [fresh] is the address the
    allocator would answer. *)
Definition enqueue_step (fresh : ptr) (c : enq_pc) (q : queue) : outcome (option enq_pc * queue) :=
  match c with
  | EProtect one vs => Done (Some (EFetch one (tail_ q) vs), q)
  | EFetch one s vs =>
      sg ← segment s q;
      let pos := enq_pos sg in
      let q := set_segment s {| sg with enq_pos := pos + length vs |} q in
      if SegmentSize <=? pos then Done (Some (ENext one s vs), q)
      else
        match take (SegmentSize - pos) vs with
        | [] => Done (None, q)
        | v :: todo => Done (Some (EPublish one s pos v todo (drop (SegmentSize - pos) vs)), q)
        end
  | EPublish one s i v todo rest =>
      c ← cell s i q;
      q ← set_cell s i {| c with storage := Some v |} q;
      Done (Some (EFull one s i v todo rest), q)
  | EFull one s i v todo rest =>
      c ← cell s i q;
      q ← set_cell s i {| c with state := kFull |} q;
      Done (published one s i todo rest, q)
  | ENext one s vs =>
      sg ← segment s q;
      match next sg with
      | None => Done (Some (EAlloc one s vs), q)
      | Some nx => Done (Some (ESwing one s nx vs), q)
      end
  | EAlloc one s vs =>
      sg ← segment s q;
      Done (Some (ELink one s fresh vs), set_segment fresh (prepared one (base sg + SegmentSize) vs) q)
  | ELink one s fr vs =>
      sg ← segment s q;
      match next sg with
      | None => Done (Some (ESwung one s fr vs), set_segment s {| sg with next := Some fr |} q)
      | Some nx => _ ← segment fr q; Done (Some (ESwing one s nx vs), {| q with segments := delete fr (segments q) |})
      end
  | ESwung one s fr vs =>
      let q := if bool_decide (tail_ q = s) then {| q with tail_ := fr |} else q in
      Done (if one then None else Some (EProtect one vs), q)
  | ESwing one s nx vs =>
      let q := if bool_decide (tail_ q = s) then {| q with tail_ := nx |} else q in
      Done (Some (EProtect one vs), q)
  end.

(** ** Dequeueing *)

Inductive mode := One | Bulk (max_items : nat).

Inductive deq_pc :=
| DProtect (m : mode)                              (** [hz.protect(rec, head_)] *)
| DLoad (m : mode) (s : ptr)                       (** the load of [deq_pos] *)
| DState (s : ptr) (d : nat)                       (** [try_dequeue]: the state of the cell *)
| DScarce (s : ptr) (d : nat)                      (** and of the one after it *)
| DScan (max_items : nat) (s : ptr) (d ready : nat) (** [try_dequeue_bulk]: how many are ready *)
| DEnq (m : mode) (s : ptr) (d : nat)              (** [d >= enq_pos] *)
| DCas (m : mode) (s : ptr) (d : nat)              (** [deq_pos.compare_exchange_weak] *)
| DFetch (m : mode) (s : ptr) (ready : nat)        (** [deq_pos.fetch_add] *)
| DTake (m : mode) (s : ptr) (i stop : nat) (got : list T)     (** [take_cell]: the load of the state *)
| DTakeEnq (m : mode) (s : ptr) (i stop : nat) (got : list T)  (** the load of [enq_pos] *)
| DTakeCas (m : mode) (s : ptr) (i stop : nat) (got : list T) (e : nat) (** [enq_pos.compare_exchange_weak] *)
| DMark (m : mode) (s : ptr) (i stop : nat) (got : list T) (j : nat)    (** [state.store(kDead)] *)
| DConsume (m : mode) (s : ptr) (i stop : nat) (got : list T)  (** [consume_cell] *)
| DNext (m : mode) (s : ptr)                       (** [advance_head]: the load of [next] *)
| DHead (m : mode) (s nx : ptr).                   (** [head_.compare_exchange_strong] *)

(** A call goes on or returns what it took; nothing taken is the answer [false]. *)
Inductive answer := Goes (c : deq_pc) | Returns (vs : list T).

(** After a claimed cell: the next one, or the end of the claim. *)
Definition taken (m : mode) (s : ptr) (i stop : nat) (got : list T) : answer :=
  if S i <? stop then Goes (DTake m s (S i) stop got)
  else match got with [] => Goes (DLoad m s) | _ => Returns got end.

(** What [try_dequeue_bulk] does with [ready] full cells from [d] on. *)
Definition scanned (max_items : nat) (s : ptr) (d ready : nat) : deq_pc :=
  match ready with
  | 0 => DEnq (Bulk max_items) s d
  | 1 => DCas (Bulk max_items) s d
  | _ => DFetch (Bulk max_items) s ready
  end.

(** [weak] makes a weak compare-and-exchange fail for no reason. *)
Definition dequeue_step (weak : bool) (c : deq_pc) (q : queue) : outcome (answer * queue) :=
  match c with
  | DProtect m => Done (Goes (DLoad m (head_ q)), q)
  | DLoad m s =>
      sg ← segment s q;
      let d := deq_pos sg in
      if SegmentSize <=? d then Done (Goes (DNext m s), q)
      else Done (Goes match m with One => DState s d | Bulk n => DScan n s d 0 end, q)
  | DState s d =>
      c ← cell s d q;
      if bool_decide (state c ≠ kFull) then Done (Goes (DEnq One s d), q)
      else Done (Goes (if SegmentSize <=? S d then DCas One s d else DScarce s d), q)
  | DScarce s d =>
      c ← cell s (S d) q;
      Done (Goes (if bool_decide (state c ≠ kFull) then DCas One s d else DFetch One s 1), q)
  | DScan n s d ready =>
      if ready <? Nat.min (SegmentSize - d) n then
        c ← cell s (d + ready) q;
        Done (Goes (if bool_decide (state c = kFull) then DScan n s d (S ready) else scanned n s d ready), q)
      else Done (Goes (scanned n s d ready), q)
  | DEnq m s d =>
      sg ← segment s q;
      Done (if enq_pos sg <=? d then Returns [] else Goes (DLoad m s), q)
  | DCas m s d =>
      sg ← segment s q;
      if negb weak && (deq_pos sg =? d)
      then Done (Goes (DConsume m s d (S d) []), set_segment s {| sg with deq_pos := S d |} q)
      else Done (Goes (DLoad m s), q)
  | DFetch m s ready =>
      sg ← segment s q;
      let pos := deq_pos sg in
      let q := set_segment s {| sg with deq_pos := pos + ready |} q in
      Done (Goes (if SegmentSize <=? pos then DLoad m s else DTake m s pos (Nat.min (pos + ready) SegmentSize) []), q)
  | DTake m s i stop got =>
      c ← cell s i q;
      Done (match state c with
            | kEmpty => Goes (DTakeEnq m s i stop got)
            | kDead => taken m s i stop got
            | kFull => Goes (DConsume m s i stop got)
            end, q)
  | DTakeEnq m s i stop got =>
      sg ← segment s q;
      Done (Goes (if i <? enq_pos sg then DTake m s i stop got else DTakeCas m s i stop got (enq_pos sg)), q)
  | DTakeCas m s i stop got e =>
      sg ← segment s q;
      if negb weak && (enq_pos sg =? e)
      then Done (Goes (DMark m s i stop got e), set_segment s {| sg with enq_pos := S i |} q)
      else Done (Goes (DTakeEnq m s i stop got), q)
  | DMark m s i stop got j =>
      c ← cell s j q;
      q ← set_cell s j {| c with state := kDead |} q;
      Done (if j <? i then Goes (DMark m s i stop got (S j)) else taken m s i stop got, q)
  | DConsume m s i stop got =>
      c ← cell s i q;
      v ← deref (storage c);
      q ← set_cell s i {| c with storage := None |} q;
      Done (taken m s i stop (got ++ [v]), q)
  | DNext m s =>
      sg ← segment s q;
      Done (match next sg with None => Returns [] | Some nx => Goes (DHead m s nx) end, q)
  | DHead m s nx =>
      let q := if bool_decide (head_ q = s) then {| q with head_ := nx; retired := s :: retired q |} else q in
      Done (Goes (DProtect m), q)
  end.

(** ** Observers and the destructor *)

Definition empty_relaxed (q : queue) : outcome bool :=
  sg ← segment (head_ q) q;
  Done (if deq_pos sg <? SegmentSize then enq_pos sg <=? deq_pos sg
        else match next sg with None => true | Some _ => false end).

Definition size_relaxed (q : queue) : outcome nat :=
  h ← segment (head_ q) q;
  t ← segment (tail_ q) q;
  let hd := base h + Nat.min (deq_pos h) SegmentSize in
  let te := base t + Nat.min (enq_pos t) SegmentSize in
  Done (if hd <? te then te - hd else 0).

(** The values of the full cells [i], ..., [i + n - 1]. *)
Fixpoint destroy_cells (cs : list Cell) (i n : nat) : outcome (list T) :=
  match n with
  | 0 => Done []
  | S n =>
      c ← deref (cs !! i);
      here ← (if bool_decide (state c = kFull) then v ← deref (storage c); Done [v] else Done []);
      rest ← destroy_cells cs (S i) n;
      Done (here ++ rest)
  end.

(** The destructor, with the values it destroys in order. *)
Fixpoint destroy (fuel : nat) (s : option ptr) (q : queue) : outcome (list T) :=
  match s with
  | None => Done []
  | Some s =>
      match fuel with
      | 0 => OutOfFuel
      | S fuel =>
          sg ← segment s q;
          let d := Nat.min (deq_pos sg) SegmentSize in
          let e := Nat.min (enq_pos sg) SegmentSize in
          here ← destroy_cells (cells sg) d (e - d);
          rest ← destroy fuel (next sg) {| q with segments := delete s (segments q) |};
          Done (here ++ rest)
      end
  end.

(** ** The machine *)

Inductive call := Enq (c : enq_pc) | Deq (c : deq_pc).

Record system := mkSystem {
  mem : queue;
  calls : list call;
  claimed : list (nat * T);  (** history: the positions producers obtained, with the values for them *)
  handed : list (nat * T)    (** history: the values consumers took, with their positions *)
}.

(** What the history records of a step. *)
Definition new_claims (c : enq_pc) (q : queue) : list (nat * T) :=
  match c with
  | EFetch _ s vs =>
      match segments q !! s with
      | Some sg => let got := take (SegmentSize - enq_pos sg) vs in zip (seq (base sg + enq_pos sg) (length got)) got
      | None => []
      end
  | ELink true s _ (v :: _) =>
      match segments q !! s with
      | Some sg => match next sg with None => [(base sg + SegmentSize, v)] | Some _ => [] end
      | None => []
      end
  | _ => []
  end.
Definition new_handed (c : deq_pc) (q : queue) : list (nat * T) :=
  match c with
  | DConsume _ s i _ _ =>
      match segments q !! s with
      | Some sg => match cells sg !! i with Some c => (λ v, (base sg + i, v)) <$> option_list (storage c) | None => [] end
      | None => []
      end
  | _ => []
  end.

(** The segment a call has protected. *)
Definition held (c : call) : list ptr :=
  match c with
  | Enq (EProtect _ _) | Deq (DProtect _) => []
  | Enq (EFetch _ s _ | EPublish _ s _ _ _ _ | EFull _ s _ _ _ _ | ENext _ s _ | EAlloc _ s _ | ELink _ s _ _
         | ESwung _ s _ _ | ESwing _ s _ _) => [s]
  | Deq (DLoad _ s | DState s _ | DScarce s _ | DScan _ s _ _ | DEnq _ s _ | DCas _ s _ | DFetch _ s _
         | DTake _ s _ _ _ | DTakeEnq _ s _ _ _ | DTakeCas _ s _ _ _ _ | DMark _ s _ _ _ _ | DConsume _ s _ _ _
         | DNext _ s | DHead _ s _) => [s]
  end.

Inductive step : system → system → Prop :=
| step_enqueue x v : step x {| x with calls := Enq (EProtect true [v]) :: calls x |}
| step_enqueue_bulk x vs : vs ≠ [] → step x {| x with calls := Enq (EProtect false vs) :: calls x |}
| step_try_dequeue x : step x {| x with calls := Deq (DProtect One) :: calls x |}
| step_try_dequeue_bulk x n : 0 < n → step x {| x with calls := Deq (DProtect (Bulk n)) :: calls x |}
| step_enq x c rest fresh c' q : calls x ≡ₚ Enq c :: rest → segments (mem x) !! fresh = None →
    enqueue_step fresh c (mem x) = Done (c', q) →
    step x {| x with mem := q; calls := (Enq <$> option_list c') ++ rest; claimed := claimed x ++ new_claims c (mem x) |}
| step_deq x c rest weak a q : calls x ≡ₚ Deq c :: rest → dequeue_step weak c (mem x) = Done (a, q) →
    step x {| x with mem := q; calls := match a with Goes c' => [Deq c'] | Returns _ => [] end ++ rest;
              handed := handed x ++ new_handed c (mem x) |}
| step_reclaim x s rest : retired (mem x) ≡ₚ s :: rest → s ∉ (calls x ≫= held) →
    step x {| x with mem := {| (mem x) with segments := delete s (segments (mem x)); retired := rest |} |}.

(** Calls with nobody else running. *)
Fixpoint run_enqueue (fuel : nat) (c : enq_pc) (q : queue) : outcome queue :=
  match fuel with
  | 0 => OutOfFuel
  | S fuel =>
      '(c', q) ← enqueue_step (fresh (dom (segments q))) c q;
      match c' with
      | Some c' => run_enqueue fuel c' q
      | None => Done q
      end
  end.
Fixpoint run_dequeue (fuel : nat) (c : deq_pc) (q : queue) : outcome (list T * queue) :=
  match fuel with
  | 0 => OutOfFuel
  | S fuel =>
      '(a, q) ← dequeue_step false c q;
      match a with
      | Goes c => run_dequeue fuel c q
      | Returns vs => Done (vs, q)
      end
  end.
Definition enqueue (v : T) (q : queue) : outcome queue := run_enqueue 6 (EProtect true [v]) q.
Definition try_dequeue (q : queue) : outcome (list T * queue) := run_dequeue 11 (DProtect One) q.

Definition init (s : ptr) : system := mkSystem (SegmentedMPMCQueue_new s) [] [] [].
Definition reachable (x : system) : Prop := ∃ s, rtc step (init s) x.
End queue.
Arguments Cell : clear implicits.
Arguments Segment : clear implicits.
Arguments queue : clear implicits.
Arguments enq_pc : clear implicits.
Arguments deq_pc : clear implicits.
Arguments answer : clear implicits.
Arguments call : clear implicits.
Arguments system : clear implicits.
End SegmentedQueue.
