(* ===== verification/SegmentedQueueInv.v ===== *)
(** The invariant of the segmented queue: the chain of segments and the retired ones, who
    works on which cell, and how the cells relate to the history. *)

From stdpp Require Import sorting.
From S2P Require Import Prelude SegmentedQueue.

Module SegmentedQueueInv.
Import SegmentedQueue.

Section inv.
Context {T : Type} (SegmentSize : nat).
Local Open Scope nat_scope.
Abbreviation system := (SegmentedQueue.system T).
Implicit Types (x : system) (p s : ptr) (sg : Segment T) (c : call T) (C : list ptr).

(** * Who works on which cell *)

(** What the owner of a claim on the producers' side is about to do. *)
Inductive work := Building (v : T) | Built (v : T) | Killing.

Fixpoint building s (i : nat) (vs : list T) : list (ptr * nat * work) :=
  match vs with
  | [] => []
  | v :: vs => (s, i, Building v) :: building s (S i) vs
  end.

Definition works c : list (ptr * nat * work) :=
  match c with
  | Enq (EPublish _ s i v todo _) => building s i (v :: todo)
  | Enq (EFull _ s i v todo _) => (s, i, Built v) :: building s (S i) todo
  | Deq (DMark _ s i _ _ j) => (λ k, (s, k, Killing)) <$> seq j (S i - j)
  | _ => []
  end.

(** The cells a consumer has claimed and not yet dealt with. *)
Definition takes c : list (ptr * nat) :=
  match c with
  | Deq (DTake _ s i stop _ | DTakeEnq _ s i stop _ | DTakeCas _ s i stop _ _ | DMark _ s i stop _ _
         | DConsume _ s i stop _) => (λ k, (s, k)) <$> seq i (stop - i)
  | _ => []
  end.

(** The segment a producer has made and not yet linked. *)
Definition owned c : list ptr := match c with Enq (ELink _ _ fr _) => [fr] | _ => [] end.

Definition all_works x := calls x ≫= works.
Definition all_takes x := calls x ≫= takes.

(** * Cells *)

(** [E]: the position was claimed on the producers' side; [D]: on the consumers' side;
    [K]: the work in progress; [C]: a consumer is about to take it; [V]: the value
    claimed for it; [H]: it was handed out. *)
Definition cell_ok (E D : Prop) (K : work → Prop) (C : Prop) (V : T → Prop) (H : Prop) (c : Cell T) : Prop :=
  match state c with
  | kEmpty =>
      ¬ H ∧ (E ∨ storage c = None ∧ ∀ v, ¬ V v) ∧ (D → C) ∧
      (E → ∃ k, K k ∧ match k with
                      | Building v => V v ∧ storage c = None
                      | Built v => V v ∧ storage c = Some v
                      | Killing => D ∧ storage c = None ∧ ∀ v, ¬ V v
                      end)
  | kFull =>
      E ∧ (∀ k, ¬ K k) ∧
      ∃ v, V v ∧ (storage c = Some v ∧ ¬ H ∧ (D → C) ∨ storage c = None ∧ H ∧ D ∧ ¬ C)
  | kDead => E ∧ D ∧ (∀ k, ¬ K k) ∧ (∀ v, ¬ V v) ∧ storage c = None
  end.

Lemma cell_ok_ext (E E' D D' : Prop) (K K' : work → Prop) (C C' : Prop) (V V' : T → Prop) (H H' : Prop) (c : Cell T) :
  (E ↔ E') → (D ↔ D') → (∀ k, K k ↔ K' k) → (C ↔ C') → (∀ v, V v ↔ V' v) → (H ↔ H') →
  cell_ok E D K C V H c → cell_ok E' D' K' C' V' H' c.
Proof.
  intros HE HD HK HC HV HH. unfold cell_ok. destruct (state c).
  - intros (? & [?|[? Hv]] & Hd & He); (split; [tauto|split; [|split; [tauto|]]]).
    + left. tauto.
    + intros _. destruct (He ltac:(tauto)) as (k & Hk & Hm). exists k. rewrite <- HK. split; [done|].
      destruct k; rewrite <- ?HV, <- ?HD; [done..|]. destruct Hm as (? & ? & Hm). split_and!; [done..|]. intros v. rewrite <- HV. apply Hm.
    + right. split; [done|]. intros v. rewrite <- HV. apply Hv.
    + intros HE'. destruct (He ltac:(tauto)) as (k & Hk & Hm). exists k. rewrite <- HK. split; [done|].
      destruct k; rewrite <- ?HV, <- ?HD; [done..|]. destruct Hm as (? & ? & Hm). split_and!; [done..|]. intros v. rewrite <- HV. apply Hm.
  - intros (? & Hk & v & Hv & Hr). split_and!; [tauto| |]; [intros k; rewrite <- HK; apply Hk|].
    exists v. rewrite <- HV. split; [done|]. tauto.
  - intros (? & ? & Hk & Hv & ?). split_and!; [tauto..| | |done]; intros y; [rewrite <- HK; apply Hk|rewrite <- HV; apply Hv].
Qed.

Definition cell_inv x p sg (i : nat) (c : Cell T) : Prop :=
  cell_ok (i < enq_pos sg) (i < deq_pos sg) (λ k, (p, i, k) ∈ all_works x) ((p, i) ∈ all_takes x)
    (λ v, (base sg + i, v) ∈ claimed x) (base sg + i ∈ (handed x).*1) c.

Definition seg_inv x p sg : Prop :=
  length (cells sg) = SegmentSize ∧ (enq_pos sg < SegmentSize → next sg = None) ∧
  ∀ i (c : Cell T), cells sg !! i = Some c → cell_inv x p sg i c.

(** * Segments *)

(** A segment only moves on. *)
Definition seg_le sg sg' : Prop :=
  enq_pos sg ≤ enq_pos sg' ∧ deq_pos sg ≤ deq_pos sg' ∧ base sg = base sg' ∧
  (∀ n, next sg = Some n → next sg' = Some n) ∧ length (cells sg) = length (cells sg') ∧
  ∀ i (c : Cell T), cells sg !! i = Some c → state c = kFull → ∃ c' : Cell T, cells sg' !! i = Some c' ∧ state c' = kFull.

#[export] Instance seg_le_refl : Reflexive seg_le.
Proof. intros sg. split_and!; eauto. Qed.

Definition full_at sg (i : nat) : Prop := ∃ c : Cell T, cells sg !! i = Some c ∧ state c = kFull.

(** What a call relies on about the segment it holds; [tb] and [hb] are the bases of the
    tail and of the head. *)
Definition enq_ok (tb : nat) sg (c : enq_pc T) : Prop :=
  base sg ≤ tb ∧
  match c with
  | EProtect _ _ | EFetch _ _ _ => True
  | EPublish _ _ i _ todo rest | EFull _ _ i _ todo rest =>
      i + length todo < SegmentSize ∧ i + length todo < enq_pos sg ∧ (rest ≠ [] → SegmentSize ≤ enq_pos sg)
  | ENext _ _ _ | EAlloc _ _ _ | ELink _ _ _ _ => SegmentSize ≤ enq_pos sg
  | ESwung _ _ n _ | ESwing _ _ n _ => next sg = Some n
  end.

Definition deq_ok (hb : nat) sg (c : deq_pc T) : Prop :=
  base sg ≤ hb ∧
  match c with
  | DProtect _ | DLoad _ _ => True
  | DState _ d | DEnq _ _ d => d < SegmentSize ∧ d ≤ deq_pos sg
  | DScarce _ d => S d < SegmentSize ∧ full_at sg d
  | DScan _ _ d ready => d < SegmentSize ∧ d ≤ deq_pos sg ∧ (0 < ready → full_at sg d)
  | DCas _ _ d => d < SegmentSize ∧ full_at sg d
  | DFetch _ _ ready => 0 < ready
  | DTake _ _ i stop _ | DTakeEnq _ _ i stop _ => i < stop ∧ stop ≤ SegmentSize ∧ stop ≤ deq_pos sg
  | DConsume _ _ i stop _ => i < stop ∧ stop ≤ SegmentSize ∧ stop ≤ deq_pos sg ∧ full_at sg i
  | DTakeCas _ _ i stop _ e => i < stop ∧ stop ≤ SegmentSize ∧ stop ≤ deq_pos sg ∧ e ≤ i
  | DMark _ _ i stop _ j => i < stop ∧ stop ≤ SegmentSize ∧ stop ≤ deq_pos sg ∧ j ≤ i ∧ i < enq_pos sg
  | DNext _ _ => SegmentSize ≤ deq_pos sg
  | DHead _ _ nx => SegmentSize ≤ deq_pos sg ∧ next sg = Some nx
  end.

Definition call_ok (tb hb : nat) sg c : Prop := match c with Enq c => enq_ok tb sg c | Deq c => deq_ok hb sg c end.

(** What a call relies on stays true. *)
Lemma full_at_le sg sg' i : seg_le sg sg' → full_at sg i → full_at sg' i.
Proof. intros (_ & _ & _ & _ & _ & Hf) (c & ? & ?). by eapply Hf. Qed.

Lemma call_ok_le tb tb' hb hb' sg sg' c : tb ≤ tb' → hb ≤ hb' → seg_le sg sg' → call_ok tb hb sg c → call_ok tb' hb' sg' c.
Proof.
  intros Htb Hhb Hle. pose proof (λ i, full_at_le sg sg' i Hle) as Hf. destruct Hle as (He & Hd & Hb & Hn & _ & _).
  destruct c as [c|c]; destruct c; cbn; intros (? & ?); (split; [lia|]); naive_solver lia.
Qed.

(** * The invariant *)

Definition linked x C : list ptr := C ++ retired (mem x).

(** The chain from the head on; [b] is the base of its first segment.  Nobody has taken
    anything from the segments after the first. *)
Definition chain (segs : gmap ptr (Segment T)) (b : nat) C : Prop :=
  ∀ j p, C !! j = Some p → ∃ sg, segs !! p = Some sg ∧ base sg = b + j * SegmentSize ∧ next sg = C !! S j
    ∧ (0 < j → deq_pos sg = 0).

Definition retired_ok (segs : gmap ptr (Segment T)) (b : nat) p : Prop :=
  ∃ sg, segs !! p = Some sg ∧ base sg + SegmentSize ≤ b ∧ SegmentSize ≤ deq_pos sg ∧ SegmentSize ≤ enq_pos sg ∧ is_Some (next sg).

(** The tail is the last segment, or the producer that linked the last one is about to
    move it there. *)
Definition tail_ok x C (tb : nat) : Prop :=
  tail_ (mem x) ∈ linked x C ∧ ∃ sg, segments (mem x) !! tail_ (mem x) = Some sg ∧ base sg = tb ∧
  (next sg = None ∨ ∃ n, next sg = Some n ∧ last C = Some n ∧ ∃ one vs, Enq (ESwung one (tail_ (mem x)) n vs) ∈ calls x).

Record inv_with x C (b tb : nat) : Prop := {
  i_head : head C = Some (head_ (mem x));
  i_nodup : NoDup (linked x C);
  i_chain : chain (segments (mem x)) b C;
  i_retired p : p ∈ retired (mem x) → retired_ok (segments (mem x)) b p;
  i_apart p p' sg sg' : p ∈ linked x C → p' ∈ linked x C → p ≠ p' →
    segments (mem x) !! p = Some sg → segments (mem x) !! p' = Some sg' →
    base sg + SegmentSize ≤ base sg' ∨ base sg' + SegmentSize ≤ base sg;
  i_tail : tail_ok x C tb;
  i_seg p sg : p ∈ linked x C → segments (mem x) !! p = Some sg → seg_inv x p sg;
  i_calls c p : c ∈ calls x → p ∈ held c → p ∈ linked x C ∧ ∃ sg, segments (mem x) !! p = Some sg ∧ call_ok tb b sg c;
  i_works : NoDup (all_works x).*1;
  i_takes : NoDup (all_takes x);
  i_owned : NoDup (calls x ≫= owned);
  i_fresh c one s fr vs : c ∈ calls x → c = Enq (ELink one s fr vs) → fr ∉ linked x C ∧
    ∃ sg, segments (mem x) !! s = Some sg ∧
    segments (mem x) !! fr = Some (prepared SegmentSize one (base sg + SegmentSize) vs);
  i_sorted : StronglySorted lt (claimed x).*1;
  i_end g p sg : g ∈ (claimed x).*1 → last C = Some p → segments (mem x) !! p = Some sg →
    g < base sg + Nat.min (enq_pos sg) SegmentSize;
  i_handed : NoDup (handed x).*1 ∧ ∀ y, y ∈ handed x → y ∈ claimed x;
  i_live g v : (g, v) ∈ claimed x → g ∉ (handed x).*1 →
    ∃ p sg, p ∈ linked x C ∧ segments (mem x) !! p = Some sg ∧ base sg ≤ g < base sg + SegmentSize
}.

Definition inv x : Prop := ∃ C b tb, inv_with x C b tb.
End inv.
End SegmentedQueueInv.
