(* ===== verification/SegmentedQueueSteps.v ===== *)
(** Steps of the segmented queue that work on one segment keep its invariant. *)

From stdpp Require Import sorting.
From S2P Require Import Prelude SegmentedQueue SegmentedQueueInv.

Module SegmentedQueueSteps.
Import SegmentedQueue SegmentedQueueInv.

Section steps.
Context {T : Type} (SegmentSize : nat).
Local Open Scope nat_scope.
Abbreviation system := (SegmentedQueue.system T).
Abbreviation inv_with := (inv_with SegmentSize).
Implicit Types (x : system) (p s : ptr) (sg : Segment T) (c : call T) (C : list ptr).

(** * Claims *)

Lemma building_elem s i vs (y : ptr * nat * work (T:=T)) :
  y ∈ building s i vs ↔ ∃ k v, vs !! k = Some v ∧ y = (s, i + k, Building v).
Proof.
  revert i. induction vs as [|v vs IH]; intros i; cbn [building].
  - split; [by intros ?%elem_of_nil|]. by intros (k & w & ? & _).
  - rewrite elem_of_cons, IH. split.
    + intros [->|(k & w & ? & ->)]; [exists 0, v; by rewrite Nat.add_0_r|]. exists (S k), w. split; [done|]. do 2 f_equal. lia.
    + intros ([|k] & w & Hk & ->); [left; injection Hk as ->; by rewrite Nat.add_0_r|].
      right. exists k, w. split; [done|]. do 2 f_equal. lia.
Qed.

Lemma building_nodup s i vs : NoDup (building (T:=T) s i vs).*1.
Proof.
  revert i. induction vs as [|v vs IH]; intros i; cbn; [apply NoDup_nil_2|]. apply NoDup_cons. split; [|apply IH].
  rewrite list_elem_of_fmap. intros (y & E & Hy). apply building_elem in Hy as (k & w & _ & ->). cbn in E. injection E. lia.
Qed.

Lemma works_held c p i k : (p, i, k) ∈ works c → held c = [p].
Proof.
  destruct c as [[]|[]]; cbn [works held]; rewrite ?elem_of_nil, ?elem_of_cons, ?building_elem, ?list_elem_of_fmap; try done;
    naive_solver.
Qed.

Lemma takes_held c p i : (p, i) ∈ takes c → held c = [p].
Proof. destruct c as [[]|[]]; cbn [takes held]; rewrite ?elem_of_nil, ?list_elem_of_fmap; naive_solver. Qed.

Lemma takes_elem s i stop k p : (p, k) ∈ ((λ k, (s, k)) <$> seq i (stop - i)) ↔ p = s ∧ i ≤ k < stop.
Proof.
  rewrite list_elem_of_fmap. split.
  - intros (j & [= -> ->] & Hj%elem_of_seq). lia.
  - intros [-> ?]. exists k. rewrite elem_of_seq. split; [done|lia].
Qed.

Lemma works_split x c rest y : calls x ≡ₚ c :: rest → y ∈ all_works x ↔ y ∈ works c ∨ y ∈ (rest ≫= works).
Proof. intros Hc. unfold all_works. rewrite Hc. cbn. apply elem_of_app. Qed.
Lemma takes_split x c rest y : calls x ≡ₚ c :: rest → y ∈ all_takes x ↔ y ∈ takes c ∨ y ∈ (rest ≫= takes).
Proof. intros Hc. unfold all_takes. rewrite Hc. cbn. apply elem_of_app. Qed.

(** * The shape of the queue *)

Section shape.
Context x C b tb (Hi : inv_with x C b tb).

Lemma linked_live p : p ∈ linked x C → ∃ sg, segments (mem x) !! p = Some sg.
Proof.
  intros [Hp|Hp]%elem_of_app.
  - apply list_elem_of_lookup in Hp as [j Hj]. destruct (i_chain _ _ _ _ _ Hi j p Hj) as (sg & ? & _). eauto.
  - destruct (i_retired _ _ _ _ _ Hi p Hp) as (sg & ? & _). eauto.
Qed.

(** Only the last segment of the chain has no successor. *)
Lemma last_unique p sg : p ∈ linked x C → segments (mem x) !! p = Some sg → next sg = None → last C = Some p.
Proof.
  intros [Hp|Hp]%elem_of_app Hsg Hn.
  - apply list_elem_of_lookup in Hp as [j Hj]. destruct (i_chain _ _ _ _ _ Hi j p Hj) as (sg' & ? & _ & Hnx & _).
    simplify_eq. rewrite Hn in Hnx. symmetry in Hnx. apply lookup_ge_None in Hnx. pose proof (lookup_lt_Some _ _ _ Hj).
    rewrite last_lookup. by replace (Init.Nat.pred (length C)) with j by lia.
  - destruct (i_retired _ _ _ _ _ Hi p Hp) as (sg' & ? & _ & _ & _ & [? ?]). simplify_eq.
Qed.

(** Consumers work on the head or on a retired segment. *)
Lemma not_later j p sg : 0 < SegmentSize → C !! j = Some p → segments (mem x) !! p = Some sg → base sg ≤ b → j = 0.
Proof. intros ? Hj Hsg Hb. destruct (i_chain _ _ _ _ _ Hi j p Hj) as (sg' & ? & ? & _). simplify_eq. destruct j; [done|]. lia. Qed.
End shape.

(** The segment a call has protected is there. *)
Lemma call_here x C b tb c rest p : inv_with x C b tb → calls x ≡ₚ c :: rest → held c = [p] →
  p ∈ linked x C ∧ ∃ sg, segments (mem x) !! p = Some sg ∧ call_ok SegmentSize tb b sg c.
Proof. intros Hi Hc Hp. apply (i_calls _ _ _ _ _ Hi c p); [rewrite Hc|rewrite Hp]; set_solver. Qed.

(** * A step on one segment *)

Section on_segment.
Context (x : system) (C : list ptr) (b tb : nat) (Hi : inv_with x C b tb) (HS : 0 < SegmentSize).
Context (c : call T) (cs rest : list (call T)) (Hc : calls x ≡ₚ c :: rest).
Context (p : ptr) (Hp : held c = [p]) (sg sg' : Segment T) (Hsg : segments (mem x) !! p = Some sg).
Context (cl hd : list (nat * T)).

Definition on_segment : system :=
  mkSystem (set_segment p sg' (mem x)) (cs ++ rest) (claimed x ++ cl) (handed x ++ hd).

Lemma works_on : all_works on_segment = (cs ≫= works) ++ (rest ≫= works).
Proof. unfold all_works. cbn [on_segment calls]. by rewrite bind_app. Qed.
Lemma takes_on : all_takes on_segment = (cs ≫= takes) ++ (rest ≫= takes).
Proof. unfold all_takes. cbn [on_segment calls]. by rewrite bind_app. Qed.

Lemma here_linked : p ∈ linked x C.
Proof. apply (i_calls _ _ _ _ _ Hi c p); [rewrite Hc|rewrite Hp]; set_solver. Qed.

Lemma here_ok : call_ok SegmentSize tb b sg c.
Proof.
  destruct (i_calls _ _ _ _ _ Hi c p) as (_ & sg0 & ? & ?); [rewrite Hc; set_solver|rewrite Hp; set_solver|]. by simplify_eq.
Qed.

Context (Hcs : ∀ c' q, c' ∈ cs → q ∈ held c' → q = p ∧ call_ok SegmentSize tb b sg' c').
Context (Hle : seg_le sg sg') (Hnext : next sg' = next sg) (Hdeq : deq_pos sg' = deq_pos sg ∨ base sg ≤ b).

(** Other cells are not concerned. *)
Lemma works_elsewhere q i k : q ≠ p → (q, i, k) ∈ all_works x ↔ (q, i, k) ∈ all_works on_segment.
Proof.
  intros Hq. rewrite (works_split x c rest) by done. unfold all_works, on_segment. cbn [calls]. rewrite bind_app, elem_of_app.
  split; [intros [Hw|?]; [|by right]|intros [Hw|?]; [|by right]].
  - apply works_held in Hw. rewrite Hp in Hw. by simplify_eq.
  - apply list_elem_of_bind in Hw as (c' & Hw & Hin). apply works_held in Hw. destruct (Hcs c' q Hin); [rewrite Hw; set_solver|done].
Qed.
Lemma takes_elsewhere q i : q ≠ p → (q, i) ∈ all_takes x ↔ (q, i) ∈ all_takes on_segment.
Proof.
  intros Hq. rewrite (takes_split x c rest) by done. unfold all_takes, on_segment. cbn [calls]. rewrite bind_app, elem_of_app.
  split; [intros [Hw|?]; [|by right]|intros [Hw|?]; [|by right]].
  - apply takes_held in Hw. rewrite Hp in Hw. by simplify_eq.
  - apply list_elem_of_bind in Hw as (c' & Hw & Hin). apply takes_held in Hw. destruct (Hcs c' q Hin); [rewrite Hw; set_solver|done].
Qed.

(** The history grows within the segment. *)
Context (Hcl : ∀ g v, (g, v) ∈ cl → base sg ≤ g < base sg + SegmentSize).
Context (Hhd : ∀ g v, (g, v) ∈ hd → base sg ≤ g < base sg + SegmentSize ∧ (g, v) ∈ claimed x ∧ g ∉ (handed x).*1).

Lemma cell_elsewhere q sq i (cc : Cell T) : q ∈ linked x C → q ≠ p → segments (mem x) !! q = Some sq → i < SegmentSize →
  cell_inv x q sq i cc → cell_inv on_segment q sq i cc.
Proof.
  intros Hq Hne Hsq Hlt. destruct (i_apart _ _ _ _ _ Hi p q sg sq here_linked Hq ltac:(done) Hsg Hsq) as [Ha|Ha];
  (apply cell_ok_ext; [done|done|intros k; by apply works_elsewhere|by apply takes_elsewhere|..]; cbn [on_segment claimed handed];
  [intros v; rewrite elem_of_app; split; [by left|]; intros [|Hv]; [done|]; apply Hcl in Hv; lia
  |rewrite fmap_app, elem_of_app; split; [by left|]; intros [|Hv]; [done|]; apply list_elem_of_fmap in Hv as ([g v] & E & Hv);
   apply Hhd in Hv; cbn in E; lia]).
Qed.

Lemma on_chain : chain SegmentSize (segments (mem on_segment)) b C.
Proof.
  intros j q Hj. destruct (i_chain _ _ _ _ _ Hi j q Hj) as (sq & Hsq & Hb & Hn & Hd). cbn. destruct (decide (p = q)) as [<-|].
  - simplify_eq. rewrite lookup_insert_eq. exists sg'. destruct Hle as (_ & _ & Hbs & _). rewrite Hnext, <- Hbs. split_and!; [done..|].
    intros Hj0. destruct Hdeq as [->|Hb0]; [by apply Hd|]. rewrite (not_later _ _ _ _ Hi j p sg) in Hj0 by done. lia.
  - rewrite lookup_insert_ne by done. eauto.
Qed.

Lemma on_retired q : q ∈ retired (mem x) → retired_ok SegmentSize (segments (mem on_segment)) b q.
Proof.
  intros Hq. destruct (i_retired _ _ _ _ _ Hi q Hq) as (sq & Hsq & Hb & Hd & He & Hn). unfold retired_ok. cbn.
  destruct (decide (p = q)) as [<-|].
  - simplify_eq. rewrite lookup_insert_eq. exists sg'. destruct Hle as (? & ? & <- & _). rewrite Hnext. split_and!; [done|lia..|done].
  - rewrite lookup_insert_ne by done. by exists sq.
Qed.

(** Segments of the new state are segments of the old one that moved on. *)
Lemma on_le q sq : segments (mem x) !! q = Some sq → ∃ sq', segments (mem on_segment) !! q = Some sq' ∧ seg_le sq sq' ∧ next sq' = next sq.
Proof.
  intros Hq. cbn. destruct (decide (p = q)) as [<-|].
  - simplify_eq. rewrite lookup_insert_eq. eauto.
  - rewrite lookup_insert_ne by done. exists sq. split_and!; done.
Qed.

Context (Hown : owned c = [] ∧ cs ≫= owned = []) (Hswung : ∀ one n vs, c ≠ Enq (ESwung one p n vs)).
Context (Hworks : NoDup ((cs ≫= works) ++ (rest ≫= works)).*1) (Htakes : NoDup ((cs ≫= takes) ++ (rest ≫= takes))).
Context (Hcells : ∀ i cc, cells sg' !! i = Some cc → cell_inv on_segment p sg' i cc).
Context (Hclaims : StronglySorted lt cl.*1)
  (Hlast : ∀ g v, (g, v) ∈ cl → next sg = None ∧ base sg + enq_pos sg ≤ g < base sg + Nat.min (enq_pos sg') SegmentSize).
Context (Hhanded : NoDup hd.*1).

Lemma on_tail : tail_ok on_segment C tb.
Proof.
  destruct (i_tail _ _ _ _ _ Hi) as (Hin & sq & Hsq & Hb & Ht). split; [done|].
  destruct (on_le _ _ Hsq) as (sq' & Hsq' & (_ & _ & Hbs & _) & Hn). exists sq'. rewrite Hn, <- Hbs. split_and!; [done..|].
  destruct Ht as [?|(n & ? & ? & one & vs & Hin')]; [by left|right]. exists n. split_and!; [done..|]. exists one, vs.
  cbn. rewrite Hc in Hin'. apply elem_of_cons in Hin' as [E|?]; [|set_solver]. exfalso. subst c. cbn in Hp.
  injection Hp as E. rewrite E in Hswung. by eapply Hswung.
Qed.

Lemma on_end g q sq : g ∈ (claimed on_segment).*1 → last C = Some q → segments (mem on_segment) !! q = Some sq →
  g < base sq + Nat.min (enq_pos sq) SegmentSize.
Proof.
  cbn [on_segment claimed]. intros Hg Hl Hsq. destruct (linked_live x C b tb Hi q) as [sq0 Hsq0].
  { apply elem_of_app. left. by apply last_Some_elem_of. }
  destruct (on_le _ _ Hsq0) as (sq' & Hsq' & (He & _ & Hb & _) & _). rewrite Hsq in Hsq'. injection Hsq' as <-.
  rewrite fmap_app in Hg. apply elem_of_app in Hg as [Hg|Hg].
  - pose proof (i_end _ _ _ _ _ Hi g q sq0 Hg Hl Hsq0). lia.
  - apply list_elem_of_fmap in Hg as ([g' v] & -> & Hg). apply Hlast in Hg as [Hn Hr]. cbn in *.
    pose proof (last_unique x C b tb Hi p sg here_linked Hsg Hn) as Hl'. rewrite Hl in Hl'. injection Hl' as ->.
    cbn in Hsq. rewrite lookup_insert_eq in Hsq. simplify_eq. lia.
Qed.

Lemma on_sorted : StronglySorted lt (claimed on_segment).*1.
Proof.
  cbn [on_segment claimed]. rewrite fmap_app. apply StronglySorted_app_2; [|apply (i_sorted _ _ _ _ _ Hi)|done].
  intros g1 g2 H1 H2. apply list_elem_of_fmap in H2 as ([g v] & -> & Hg). apply Hlast in Hg as [Hn Hr]. cbn.
  pose proof (last_unique x C b tb Hi p sg here_linked Hsg Hn) as Hl.
  pose proof (i_end _ _ _ _ _ Hi g1 p sg H1 Hl Hsg). lia.
Qed.

Lemma on_handed : NoDup (handed on_segment).*1 ∧ ∀ y, y ∈ handed on_segment → y ∈ claimed on_segment.
Proof.
  destruct (i_handed _ _ _ _ _ Hi) as [Hn Hsub]. cbn [on_segment handed claimed]. split.
  - rewrite fmap_app. apply NoDup_app. split_and!; [done| |done]. intros g H1 H2.
    apply list_elem_of_fmap in H2 as ([g' v] & -> & Hg). by apply Hhd in Hg as (_ & _ & ?).
  - intros [g v]. rewrite !elem_of_app. intros [?|Hg]; [left; by apply Hsub|]. left. by apply Hhd in Hg as (_ & ? & _).
Qed.

Lemma on_live g v : (g, v) ∈ claimed on_segment → g ∉ (handed on_segment).*1 →
  ∃ q sq, q ∈ linked on_segment C ∧ segments (mem on_segment) !! q = Some sq ∧ base sq ≤ g < base sq + SegmentSize.
Proof.
  cbn [on_segment handed claimed]. rewrite fmap_app, !elem_of_app. intros [Hg|Hg] Hh.
  - destruct (i_live _ _ _ _ _ Hi g v Hg) as (q & sq & Hq & Hsq & Hr); [tauto|].
    destruct (on_le _ _ Hsq) as (sq' & Hsq' & (_ & _ & Hb & _) & _). exists q, sq'. rewrite <- Hb. done.
  - exists p, sg'. split; [exact here_linked|]. cbn. rewrite lookup_insert_eq. split; [done|].
    apply Hcl in Hg. destruct Hle as (_ & _ & <- & _). done.
Qed.

Lemma on_calls c' q : c' ∈ calls on_segment → q ∈ held c' →
  q ∈ linked on_segment C ∧ ∃ sq, segments (mem on_segment) !! q = Some sq ∧ call_ok SegmentSize tb b sq c'.
Proof.
  cbn [on_segment calls]. intros [Hin|Hin]%elem_of_app Hq.
  - destruct (Hcs c' q Hin Hq) as [-> ?]. split; [exact here_linked|]. exists sg'. cbn. by rewrite lookup_insert_eq.
  - destruct (i_calls _ _ _ _ _ Hi c' q) as (? & sq & Hsq & Hok); [rewrite Hc; set_solver|done|]. split; [done|].
    destruct (on_le _ _ Hsq) as (sq' & Hsq' & Hl & _). exists sq'. split; [done|]. by eapply call_ok_le.
Qed.

Lemma on_fresh c' one s fr vs : c' ∈ calls on_segment → c' = Enq (ELink one s fr vs) → fr ∉ linked on_segment C ∧
  ∃ sq, segments (mem on_segment) !! s = Some sq ∧
  segments (mem on_segment) !! fr = Some (prepared SegmentSize one (base sq + SegmentSize) vs).
Proof.
  cbn [on_segment calls]. intros [Hin|Hin]%elem_of_app E.
  - exfalso. destruct Hown as [_ Ho]. assert (Hfr : fr ∈ (cs ≫= owned)); [|rewrite Ho in Hfr; by apply elem_of_nil in Hfr].
    apply list_elem_of_bind. exists c'. subst c'. cbn. set_solver.
  - destruct (i_fresh _ _ _ _ _ Hi c' one s fr vs) as (Hfr & sq & Hsq & Hf); [rewrite Hc; set_solver|done|]. split; [done|].
    destruct (on_le _ _ Hsq) as (sq' & Hsq' & (_ & _ & Hb & _) & _). exists sq'. rewrite <- Hb. split; [done|]. cbn.
    rewrite lookup_insert_ne; [done|]. intros Ep. apply Hfr. rewrite <- Ep. apply here_linked.
Qed.

(** The invariant is kept. *)
Lemma on_segment_inv : inv_with on_segment C b tb.
Proof.
  pose proof on_le as Hmono. split.
  - apply (i_head _ _ _ _ _ Hi).
  - apply (i_nodup _ _ _ _ _ Hi).
  - apply on_chain.
  - apply on_retired.
  - intros q q' sq sq' Hq Hq' Hne H1 H2. destruct (linked_live x C b tb Hi q Hq) as [s1 E1]. destruct (linked_live x C b tb Hi q' Hq') as [s2 E2].
    destruct (Hmono _ _ E1) as (? & ? & (_ & _ & B1 & _) & _). destruct (Hmono _ _ E2) as (? & ? & (_ & _ & B2 & _) & _). simplify_eq.
    rewrite <- B1, <- B2. by apply (i_apart _ _ _ _ _ Hi q q').
  - apply on_tail.
  - intros q sq Hq Hsq. destruct (decide (q = p)) as [->|Hne].
    + cbn in Hsq. rewrite lookup_insert_eq in Hsq. injection Hsq as <-. destruct (i_seg _ _ _ _ _ Hi p sg here_linked Hsg) as (Hlen & Hn & _).
      destruct Hle as (He & _ & _ & _ & Hl & _). split_and!; [congruence| |done]. rewrite Hnext. intros ?. apply Hn. lia.
    + cbn in Hsq. rewrite lookup_insert_ne in Hsq by done. destruct (i_seg _ _ _ _ _ Hi q sq Hq Hsq) as (Hlen & Hn & Hcc).
      split_and!; [done..|]. intros i cc Hcell. apply cell_elsewhere; [done..| |by apply Hcc]. rewrite <- Hlen. by eapply lookup_lt_Some.
  - apply on_calls.
  - unfold all_works. cbn [on_segment calls]. by rewrite bind_app.
  - unfold all_takes. cbn [on_segment calls]. by rewrite bind_app.
  - cbn [on_segment calls]. rewrite bind_app. destruct Hown as [Ho1 Ho2]. rewrite Ho2. pose proof (i_owned _ _ _ _ _ Hi) as Ho.
    rewrite Hc in Ho. cbn in Ho. by rewrite Ho1 in Ho.
  - apply on_fresh.
  - apply on_sorted.
  - apply on_end.
  - apply on_handed.
  - apply on_live.
Qed.
End on_segment.

(** * Bounds of the claims in progress *)

Section bounds.
Context (x : system) (C : list ptr) (b tb : nat) (Hi : inv_with x C b tb) (p : ptr) (sg : Segment T).
Context (Hsg : segments (mem x) !! p = Some sg).

Lemma works_bound i k : (p, i, k) ∈ all_works x → i < enq_pos sg ∧ i < SegmentSize.
Proof.
  intros (c & Hw & Hin)%list_elem_of_bind. destruct (i_calls _ _ _ _ _ Hi c p Hin) as (_ & sg0 & ? & Hok).
  { rewrite (works_held c p i k Hw). set_solver. }
  simplify_eq. destruct c as [[]|[]]; cbn [works] in Hw; rewrite ?elem_of_nil in Hw; try done; cbn [call_ok] in Hok; unfold enq_ok, deq_ok in Hok.
  - apply building_elem in Hw as (j & w & Hj & [= -> -> ->]). apply lookup_lt_Some in Hj. cbn in Hj. lia.
  - apply elem_of_cons in Hw as [[= -> -> ->]|Hw]; [lia|]. apply building_elem in Hw as (j & w & Hj & [= -> -> ->]).
    apply lookup_lt_Some in Hj. lia.
  - apply list_elem_of_fmap in Hw as (j' & [= -> -> ->] & Hj%elem_of_seq). lia.
Qed.

Lemma takes_bound i : (p, i) ∈ all_takes x → i < deq_pos sg ∧ i < SegmentSize.
Proof.
  intros (c & Hw & Hin)%list_elem_of_bind. destruct (i_calls _ _ _ _ _ Hi c p Hin) as (_ & sg0 & ? & Hok).
  { rewrite (takes_held c p i Hw). set_solver. }
  simplify_eq. destruct c as [[]|[]]; cbn [takes] in Hw; rewrite ?elem_of_nil in Hw; try done; cbn [call_ok] in Hok; unfold deq_ok in Hok;
    apply takes_elem in Hw; lia.
Qed.

Lemma works_fun i k k' : (p, i, k) ∈ all_works x → (p, i, k') ∈ all_works x → k = k'.
Proof.
  pose proof (i_works _ _ _ _ _ Hi) as Hn. intros H1 H2. apply list_elem_of_lookup in H1 as [j1 H1]. apply list_elem_of_lookup in H2 as [j2 H2].
  assert (j1 = j2) as ->; [|by simplify_eq]. eapply NoDup_lookup; [exact Hn|rewrite list_lookup_fmap, H1; done|by rewrite list_lookup_fmap, H2].
Qed.
End bounds.

(** * Steps that leave the history alone *)

Lemma set_segment_id (q : queue T) p sg : segments q !! p = Some sg → set_segment p sg q = q.
Proof. intros Hp. unfold set_segment. destruct q as [segs h t r]. cbn in *. by rewrite insert_id. Qed.

Lemma set_cell_ok (q : queue T) p sg i (c c' : Cell T) : segments q !! p = Some sg → cells sg !! i = Some c →
  set_cell p i c' q = Done (set_segment p {| sg with cells := <[i := c']> (cells sg) |} q).
Proof. intros Hp Hc. unfold set_cell, segment. rewrite Hp. orun. by rewrite Hc. Qed.

Lemma cell_at (q : queue T) p sg i (c : Cell T) : segments q !! p = Some sg → cells sg !! i = Some c → cell p i q = Done c.
Proof. intros Hp Hc. unfold cell, segment. rewrite Hp. orun. by rewrite Hc. Qed.

Lemma segment_at (q : queue T) p sg : segments q !! p = Some sg → segment p q = Done sg.
Proof. intros Hp. unfold segment. by rewrite Hp. Qed.

(** A cell that neither changes nor changes hands. *)
Lemma cell_same x c cs rest p sg sg' cl hd i (cc : Cell T) : calls x ≡ₚ c :: rest → base sg = base sg' →
  (i < enq_pos sg ↔ i < enq_pos sg') → (i < deq_pos sg ↔ i < deq_pos sg') →
  (∀ k, (p, i, k) ∈ works c ↔ (p, i, k) ∈ (cs ≫= works)) → ((p, i) ∈ takes c ↔ (p, i) ∈ (cs ≫= takes)) →
  (∀ v, (base sg + i, v) ∉ cl) → (∀ v, (base sg + i, v) ∉ hd) →
  cell_inv x p sg i cc → cell_inv (on_segment x cs rest p sg' cl hd) p sg' i cc.
Proof.
  intros Hc Hb HE HD HK HC HV HH. unfold cell_inv. rewrite <- Hb. apply cell_ok_ext; [done|done|..].
  - intros k. rewrite (works_split x c rest) by done. unfold all_works, on_segment. cbn [calls]. rewrite bind_app, elem_of_app, HK. done.
  - rewrite (takes_split x c rest) by done. unfold all_takes, on_segment. cbn [calls]. rewrite bind_app, elem_of_app, HC. done.
  - intros v. cbn [on_segment claimed]. rewrite elem_of_app. specialize (HV v). tauto.
  - cbn [on_segment handed]. rewrite fmap_app, elem_of_app. split; [by left|]. intros [|Hg]; [done|].
    apply list_elem_of_fmap in Hg as ([g v] & E & Hg). cbn in E. subst g. by apply HH in Hg.
Qed.

(** A step that changes one cell. *)
Lemma cells_update x c cs rest p sg i (cc' : Cell T) cl hd : calls x ≡ₚ c :: rest →
  (∀ j cc, cells sg !! j = Some cc → cell_inv x p sg j cc) →
  (∀ j k, j ≠ i → (p, j, k) ∈ works c ↔ (p, j, k) ∈ (cs ≫= works)) → (∀ j, j ≠ i → (p, j) ∈ takes c ↔ (p, j) ∈ (cs ≫= takes)) →
  (∀ j v, j ≠ i → (base sg + j, v) ∉ cl) → (∀ j v, j ≠ i → (base sg + j, v) ∉ hd) →
  let sg' := {| sg with cells := <[i := cc']> (cells sg) |} in
  cell_inv (on_segment x cs rest p sg' cl hd) p sg' i cc' →
  ∀ j cc, cells sg' !! j = Some cc → cell_inv (on_segment x cs rest p sg' cl hd) p sg' j cc.
Proof.
  intros Hc Hold Hw Ht Hcl Hhd sg' Hnew j cc Hj. destruct (decide (j = i)) as [->|Hne].
  - cbn in Hj. apply list_lookup_insert_Some in Hj as [(_ & <- & _)|(? & _)]; done.
  - cbn in Hj. rewrite list_lookup_insert_ne in Hj by done. eapply (cell_same x c); [done|done|done|done|intros k; by apply Hw|by apply Ht|intros v; by apply Hcl|intros v; by apply Hhd|by apply Hold].
Qed.

Lemma seg_le_cell sg i (cc cc' : Cell T) : cells sg !! i = Some cc → (state cc = kFull → state cc' = kFull) →
  seg_le sg {| sg with cells := <[i := cc']> (cells sg) |}.
Proof.
  intros Hi Hf. split_and!; cbn; [done|done|done|done|by rewrite length_insert|]. intros j cj Hj Hs. destruct (decide (i = j)) as [<-|].
  - simplify_eq. rewrite list_lookup_insert_eq by (by eapply lookup_lt_Some). eauto.
  - rewrite list_lookup_insert_ne by done. eauto.
Qed.

Section plain.
Context (x : system) (C : list ptr) (b tb : nat) (Hi : inv_with x C b tb) (HS : 0 < SegmentSize).
Context (c : call T) (cs rest : list (call T)) (Hc : calls x ≡ₚ c :: rest).
Context (p : ptr) (Hp : held c = [p]) (sg sg' : Segment T) (Hsg : segments (mem x) !! p = Some sg).
Context (Hown : owned c = [] ∧ cs ≫= owned = []) (Hswung : ∀ one n vs, c ≠ Enq (ESwung one p n vs)).
Context (Hcs : ∀ c' q, c' ∈ cs → q ∈ held c' → q = p ∧ call_ok SegmentSize tb b sg' c').
Context (Hle : seg_le sg sg') (Hnext : next sg' = next sg) (Hdeq : deq_pos sg' = deq_pos sg ∨ base sg ≤ b).

Context (Hworks : NoDup ((cs ≫= works) ++ (rest ≫= works)).*1) (Htakes : NoDup ((cs ≫= takes) ++ (rest ≫= takes))).
Context (Hcells : ∀ i cc, cells sg' !! i = Some cc → cell_inv (on_segment x cs rest p sg' [] []) p sg' i cc).

Lemma plain_inv : inv_with (mkSystem (set_segment p sg' (mem x)) (cs ++ rest) (claimed x) (handed x)) C b tb.
Proof.
  replace (mkSystem _ _ _ _) with (on_segment x cs rest p sg' [] []) by (unfold on_segment; by rewrite !app_nil_r).
  eapply (on_segment_inv x C b tb Hi HS c cs rest Hc p Hp sg sg' Hsg [] []); try done.
  - by intros g v ?%elem_of_nil.
  - by intros g v ?%elem_of_nil.
  - apply SSorted_nil.
  - by intros g v ?%elem_of_nil.
  - apply NoDup_nil_2.
Qed.
End plain.

Lemma works_nodup x C b tb c rest : inv_with x C b tb → calls x ≡ₚ c :: rest → NoDup (works c ++ (rest ≫= works)).*1.
Proof. intros Hi Hc. pose proof (i_works _ _ _ _ _ Hi) as H. unfold all_works in H. by rewrite Hc in H. Qed.
Lemma takes_nodup x C b tb c rest : inv_with x C b tb → calls x ≡ₚ c :: rest → NoDup (takes c ++ (rest ≫= takes)).
Proof. intros Hi Hc. pose proof (i_takes _ _ _ _ _ Hi) as H. unfold all_takes in H. by rewrite Hc in H. Qed.

(** Calls start, return or go on with the same claims; linked segments are left alone. *)
Lemma frame_inv x C b tb segs old new rest : inv_with x C b tb → calls x ≡ₚ old ++ rest →
  (∀ p, p ∈ linked x C → segs !! p = segments (mem x) !! p) →
  new ≫= works = old ≫= works → new ≫= takes = old ≫= takes →
  (∀ one n vs, Enq (ESwung one (tail_ (mem x)) n vs) ∉ old) →
  (∀ c p, c ∈ new → p ∈ held c → p ∈ linked x C ∧ ∃ sg, segments (mem x) !! p = Some sg ∧ call_ok SegmentSize tb b sg c) →
  NoDup ((new ++ rest) ≫= owned) →
  (∀ one s fr vs, Enq (ELink one s fr vs) ∈ new ++ rest → fr ∉ linked x C ∧
    ∃ sg, segs !! s = Some sg ∧ segs !! fr = Some (prepared SegmentSize one (base sg + SegmentSize) vs)) →
  inv_with (mkSystem {| (mem x) with segments := segs |} (new ++ rest) (claimed x) (handed x)) C b tb.
Proof.
  intros Hi Hc Hsame Hw Ht Hsw Hnew Hown Hfresh. set (x' := mkSystem _ _ _ _).
  assert (Ew : all_works x ≡ₚ all_works x') by (unfold all_works; rewrite Hc; cbn; by rewrite !bind_app, Hw).
  assert (Et : all_takes x ≡ₚ all_takes x') by (unfold all_takes; rewrite Hc; cbn; by rewrite !bind_app, Ht).
  destruct Hi as [Hhd Hnd Hch Hre Hap Hta Hse Hca Hwo Hto How Hfr Hso Hen Hha Hli].
  assert (Hlast : ∀ p, last C = Some p → p ∈ linked x C) by (intros; apply elem_of_app; left; by apply last_Some_elem_of).
  split; try done; cbn [x' mem segments].
  - intros j p Hj. rewrite Hsame; [by apply Hch|]. apply elem_of_app. left. by eapply list_elem_of_lookup_2.
  - intros p Hp. unfold retired_ok. rewrite Hsame; [by apply Hre|]. apply elem_of_app. by right.
  - intros p p' sg sg' Hp Hp' Hne. rewrite !Hsame by done. by apply Hap.
  - destruct Hta as (? & sg & ? & ? & Hn). split; [done|]. exists sg. cbn. rewrite Hsame by done. split_and!; [done..|].
    destruct Hn as [?|(n & ? & ? & one & vs & Hin)]; [by left|right]. exists n. split_and!; [done..|]. exists one, vs.
    rewrite Hc in Hin. apply elem_of_app in Hin as [Hin|?]; [by apply Hsw in Hin|set_solver].
  - intros p sg Hp. rewrite Hsame by done. intros Hsg. destruct (Hse p sg Hp Hsg) as (? & ? & Hcell). split_and!; [done..|].
    intros i cc Hi. generalize (Hcell i cc Hi). apply cell_ok_ext; [done|done|intros k; by rewrite Ew|by rewrite Et|done|done].
  - intros c p [Hin|Hin]%elem_of_app Hp.
    + destruct (Hnew c p Hin Hp) as (? & sg & ? & ?). split; [done|]. exists sg. by rewrite Hsame.
    + destruct (Hca c p) as (? & sg & ? & ?); [rewrite Hc; set_solver|done|]. split; [done|]. exists sg. by rewrite Hsame.
  - by rewrite <- Ew.
  - by rewrite <- Et.
  - intros c one s fr vs Hin ->. by apply Hfresh.
  - intros g p sg Hg Hl. rewrite Hsame by auto. by apply Hen.
  - intros g v Hg Hn. destruct (Hli g v Hg Hn) as (p & sg & Hp & ? & ?). exists p, sg. by rewrite Hsame.
Qed.

(** The same with the memory left alone. *)
Lemma calls_inv x C b tb old new rest : inv_with x C b tb → calls x ≡ₚ old ++ rest →
  new ≫= works = old ≫= works → new ≫= takes = old ≫= takes → old ≫= owned = [] → new ≫= owned = [] →
  (∀ one n vs, Enq (ESwung one (tail_ (mem x)) n vs) ∉ old) →
  (∀ c p, c ∈ new → p ∈ held c → p ∈ linked x C ∧ ∃ sg, segments (mem x) !! p = Some sg ∧ call_ok SegmentSize tb b sg c) →
  inv_with (mkSystem (mem x) (new ++ rest) (claimed x) (handed x)) C b tb.
Proof.
  intros Hi Hc Hw Ht Ho1 Ho2 Hsw Hnew.
  replace (mem x) with {| (mem x) with segments := segments (mem x) |} by (by destruct (mem x)).
  apply (frame_inv x C b tb _ old); try done.
  - pose proof (i_owned _ _ _ _ _ Hi) as How. rewrite Hc, bind_app, Ho1 in How. by rewrite bind_app, Ho2.
  - intros one s fr vs [Hin|Hin]%elem_of_app; [|apply (i_fresh _ _ _ _ _ Hi (Enq (ELink one s fr vs))); [rewrite Hc; set_solver|done]].
    exfalso. assert (Hx : fr ∈ (new ≫= owned)); [|rewrite Ho2 in Hx; by apply elem_of_nil in Hx].
    apply list_elem_of_bind. exists (Enq (ELink one s fr vs)). cbn. set_solver.
Qed.

End steps.
End SegmentedQueueSteps.
