(* ===== verification/SegmentedQueueEnq.v ===== *)
(** The steps of the producers of the segmented queue succeed and keep its invariant. *)

From stdpp Require Import sorting.
From S2P Require Import Prelude SegmentedQueue SegmentedQueueInv SegmentedQueueSteps.

Module SegmentedQueueEnq.
Import SegmentedQueue SegmentedQueueInv SegmentedQueueSteps.

(** * Positions in order *)

Section positions.
Local Open Scope nat_scope.

Lemma zip_seq_elem {T} a (got : list T) g v : (g, v) ∈ zip (seq a (length got)) got ↔ ∃ k, got !! k = Some v ∧ g = a + k.
Proof.
  revert a. induction got as [|w got IH]; intros a; cbn.
  - split; [by intros ?%elem_of_nil|]. by intros (k & ? & _).
  - rewrite elem_of_cons, IH. split.
    + intros [[= -> ->]|(k & ? & ->)]; [exists 0; split; [done|lia]|exists (S k); split; [done|lia]].
    + intros ([|k] & Hk & ->); cbn in Hk; [left; simplify_eq; f_equal; lia|right; exists k; split; [done|lia]].
Qed.

Lemma seq_sorted a n : StronglySorted lt (seq a n).
Proof.
  revert a. induction n as [|n IH]; intros a; cbn; [apply SSorted_nil|]. apply SSorted_cons; [apply IH|].
  apply Forall_forall. intros k Hk%elem_of_seq. lia.
Qed.
End positions.

Section enq.
Context {T : Type} (SegmentSize : nat) (HS : (0 < SegmentSize)%nat).
Local Open Scope nat_scope.
Abbreviation system := (SegmentedQueue.system T).
Abbreviation inv_with := (inv_with SegmentSize).
Implicit Types (x : system) (p s : ptr) (sg : Segment T) (C : list ptr).

Definition after_enq x (c : enq_pc T) rest (c' : option (enq_pc T)) (q : queue T) : system :=
  mkSystem q ((Enq <$> option_list c') ++ rest) (claimed x ++ new_claims SegmentSize c (mem x)) (handed x).

Definition enq_keeps x (c : enq_pc T) rest : Prop := ∀ fresh, segments (mem x) !! fresh = None →
  ∃ c' q, enqueue_step SegmentSize fresh c (mem x) = Done (c', q) ∧ inv SegmentSize (after_enq x c rest c' q).

Section step.
Context (x : system) (C : list ptr) (b tb : nat) (Hi : inv_with x C b tb) (rest : list (call T)).

Lemma enq_read c c' s : calls x ≡ₚ Enq c :: rest → held (Enq c) = [s] → works (Enq c) = [] → owned (Enq c) = [] →
  (∀ one n vs, c ≠ ESwung one (tail_ (mem x)) n vs) → new_claims SegmentSize c (mem x) = [] →
  (∀ d, c' = Some d → works (Enq d) = [] ∧ owned (Enq d) = [] ∧
     (held (Enq d) = [] ∨ held (Enq d) = [s] ∧ ∃ sg, segments (mem x) !! s = Some sg ∧ enq_ok SegmentSize tb sg d)) →
  inv_with (after_enq x c rest c' (mem x)) C b tb.
Proof.
  intros Hc Hh Hw Ho Hsw Hn Hnew. unfold after_enq. rewrite Hn, app_nil_r.
  assert (takes (Enq c) = []) as Ht by done.
  apply (calls_inv SegmentSize x C b tb [Enq c]); [done|done|..].
  - destruct c' as [d|]; [destruct (Hnew d eq_refl) as (E & _)|]; cbn in *; by rewrite ?E, Hw.
  - by destruct c'.
  - cbn in *. by rewrite Ho.
  - destruct c' as [d|]; [|done]. destruct (Hnew d eq_refl) as (_ & E & _). cbn in *. by rewrite E.
  - intros one n vs [=]%list_elem_of_singleton. by eapply Hsw.
  - intros d p Hd Hp. destruct c' as [c'|]; [|by apply elem_of_nil in Hd]. apply list_elem_of_singleton in Hd as ->.
    destruct (Hnew c' eq_refl) as (_ & _ & [E|[E (sg & ? & ?)]]); rewrite E in Hp; [by apply elem_of_nil in Hp|].
    apply list_elem_of_singleton in Hp as ->. split; [|by exists sg].
    apply (i_calls _ _ _ _ _ Hi (Enq c)); [rewrite Hc; set_solver|rewrite Hh; set_solver].
Qed.

Lemma enq_next one s vs : calls x ≡ₚ Enq (ENext one s vs) :: rest → enq_keeps x (ENext one s vs) rest.
Proof.
  intros Hc fresh _. destruct (call_here _ x C b tb _ rest s Hi Hc eq_refl) as (_ & sg & Hsg & Hok).
  cbn [enqueue_step]. rewrite (segment_at _ _ _ Hsg). orun.
  destruct (next sg) as [nx|] eqn:Hn; eexists _, _; (split; [reflexivity|]); exists C, b, tb;
    (eapply enq_read; [done|done|done|done|done|done|]; intros d [= <-]; split_and!; [done..|]; right; split; [done|];
     exists sg; split; [done|]; split; [apply Hok|]; first [done|apply Hok]).
Qed.

Lemma enq_protect one vs : calls x ≡ₚ Enq (EProtect one vs) :: rest → enq_keeps x (EProtect one vs) rest.
Proof.
  intros Hc fresh _. eexists _, _. split; [reflexivity|]. exists C, b, tb. unfold after_enq. cbn [new_claims]. rewrite app_nil_r.
  apply (calls_inv SegmentSize x C b tb [Enq (EProtect one vs)]); try done.
  - by intros ? ? ? [=]%list_elem_of_singleton.
  - intros d p Hd Hp. apply list_elem_of_singleton in Hd as ->. apply list_elem_of_singleton in Hp as ->.
    destruct (i_tail _ _ _ _ _ Hi) as (? & sg & ? & Hb & _). split; [done|]. exists sg. split; [done|]. split; [lia|done].
Qed.

(** The cell a producer works on. *)
Lemma worked_cell p sg i k : p ∈ linked x C → segments (mem x) !! p = Some sg → (p, i, k) ∈ all_works x →
  ∃ cc, cells sg !! i = Some cc ∧ state cc = kEmpty ∧ base sg + i ∉ (handed x).*1 ∧ (i < deq_pos sg → (p, i) ∈ all_takes x) ∧
  match k with
  | Building v => (base sg + i, v) ∈ claimed x ∧ storage cc = None
  | Built v => (base sg + i, v) ∈ claimed x ∧ storage cc = Some v
  | Killing => i < deq_pos sg ∧ storage cc = None ∧ ∀ v, (base sg + i, v) ∉ claimed x
  end.
Proof.
  intros Hp Hsg Hw. destruct (works_bound _ x C b tb Hi p sg Hsg i k Hw) as [He Hlt].
  destruct (i_seg _ _ _ _ _ Hi p sg Hp Hsg) as (Hlen & _ & Hcells). destruct (lookup_lt_is_Some_2 (cells sg) i) as [cc Hcc]; [lia|].
  exists cc. split; [done|]. pose proof (Hcells i cc Hcc) as Hok. unfold cell_inv, cell_ok in Hok. destruct (state cc).
  - destruct Hok as (? & _ & ? & Hk). destruct (Hk He) as (k' & Hk' & Hm). split_and!; [done..|].
    rewrite (works_fun _ x C b tb Hi p i k k' Hw Hk'). done.
  - destruct Hok as (_ & Hk & _). by apply Hk in Hw.
  - destruct Hok as (_ & _ & Hk & _). by apply Hk in Hw.
Qed.

Lemma building_split s i v (todo : list T) j k : j ≠ i → (s, j, k) ∈ building s i (v :: todo) ↔ (s, j, k) ∈ building s (S i) todo.
Proof. intros Hne. cbn [building]. rewrite elem_of_cons. naive_solver. Qed.

Lemma enq_publish one s i v todo rst : calls x ≡ₚ Enq (EPublish one s i v todo rst) :: rest →
  enq_keeps x (EPublish one s i v todo rst) rest.
Proof.
  intros Hc fresh _. destruct (call_here _ x C b tb _ rest s Hi Hc eq_refl) as (Hl & sg & Hsg & Hok).
  destruct (worked_cell s sg i (Building v) Hl Hsg) as (cc & Hcc & Hst & Hh & Hd & Hcl & Hs).
  { rewrite (works_split x _ rest) by done. left. cbn. set_solver. }
  cbn [enqueue_step]. rewrite (cell_at _ _ _ _ _ Hsg Hcc). orun. rewrite (set_cell_ok _ _ _ _ _ _ Hsg Hcc). orun.
  eexists _, _. split; [reflexivity|]. exists C, b, tb. unfold after_enq. cbn [new_claims option_list fmap list_fmap]. rewrite app_nil_r.
  pose proof (works_nodup _ _ _ _ _ _ _ Hi Hc) as Hnd.
  eapply (plain_inv SegmentSize x C b tb Hi HS _ [_] rest Hc s eq_refl sg _ Hsg); try done.
  - intros c' q ->%list_elem_of_singleton ->%list_elem_of_singleton. done.
  - by eapply seg_le_cell.
  - by left.
  - cbn [mbind list_bind]. rewrite app_nil_r. exact Hnd.
  - exact (takes_nodup _ _ _ _ _ _ _ Hi Hc).
  - apply (cells_update x (Enq (EPublish one s i v todo rst))); try done.
    + apply (i_seg _ _ _ _ _ Hi s sg Hl Hsg).
    + intros j k Hne. cbn [mbind list_bind]. rewrite app_nil_r. cbn [works]. rewrite building_split by done. rewrite elem_of_cons. naive_solver.
    + by intros j w _ ?%elem_of_nil.
    + by intros j w _ ?%elem_of_nil.
    + unfold cell_inv, cell_ok. cbn [state]. rewrite Hst. cbn [enq_pos deq_pos base storage on_segment claimed handed]. rewrite !app_nil_r.
      destruct Hok as (_ & ? & ? & _). split_and!; [done|left; lia| |].
      * intros Hlt. specialize (Hd Hlt). rewrite (takes_split x _ rest) in Hd by done. destruct Hd as [Hd|Hd]; [by apply elem_of_nil in Hd|].
        by rewrite takes_on.
      * intros _. exists (Built v). split; [|done]. rewrite works_on. cbn. set_solver.
Qed.

Lemma published_calls one s i (todo rst : list T) tb' sg : 
  base sg ≤ tb' → i + length todo < SegmentSize → i + length todo < enq_pos sg → (rst ≠ [] → SegmentSize ≤ enq_pos sg) →
  let cs := Enq <$> option_list (published one s i todo rst) in
  cs ≫= works = building s (S i) todo ∧ cs ≫= takes = [] ∧ cs ≫= owned = [] ∧
  ∀ c q, c ∈ cs → q ∈ held c → q = s ∧ call_ok SegmentSize tb' b sg c.
Proof.
  intros Hb H1 H2 H3 cs. split_and!.
  - destruct todo, rst; cbn; by rewrite ?app_nil_r.
  - by destruct todo, rst.
  - by destruct todo, rst.
  - intros c q Hin Hq. destruct todo as [|w todo], rst as [|r rst]; [by apply elem_of_nil in Hin|..];
      apply list_elem_of_singleton in Hin as ->; apply list_elem_of_singleton in Hq as ->; (split; [done|split; [done|]]); cbn in *;
      [by apply H3|split_and!; [lia..|done]|split_and!; [lia..|done]].
Qed.

Lemma enq_full one s i v todo rst : calls x ≡ₚ Enq (EFull one s i v todo rst) :: rest →
  enq_keeps x (EFull one s i v todo rst) rest.
Proof.
  intros Hc fresh _. destruct (call_here _ x C b tb _ rest s Hi Hc eq_refl) as (Hl & sg & Hsg & Hok).
  destruct (worked_cell s sg i (Built v) Hl Hsg) as (cc & Hcc & Hst & Hh & Hd & Hcl & Hs).
  { rewrite (works_split x _ rest) by done. left. cbn. set_solver. }
  cbn [enqueue_step]. rewrite (cell_at _ _ _ _ _ Hsg Hcc). orun. rewrite (set_cell_ok _ _ _ _ _ _ Hsg Hcc). orun.
  eexists _, _. split; [reflexivity|]. exists C, b, tb. unfold after_enq. cbn [new_claims]. rewrite app_nil_r.
  pose proof (works_nodup _ _ _ _ _ _ _ Hi Hc) as Hnd. set (sg' := {| sg with cells := _ |}). destruct Hok as (Hb & H1 & H2 & H3).
  destruct (published_calls one s i todo rst tb sg' Hb H1 H2 H3) as (Ew & Et & Eo & Hcs).
  cbn [works fmap list_fmap app] in Hnd. apply NoDup_cons in Hnd as [Hfree Hnd].
  eapply (plain_inv SegmentSize x C b tb Hi HS _ _ rest Hc s eq_refl sg sg' Hsg); try done.
  - by eapply seg_le_cell.
  - by left.
  - by rewrite Ew.
  - rewrite Et. exact (takes_nodup _ _ _ _ _ _ _ Hi Hc).
  - apply (cells_update x (Enq (EFull one s i v todo rst))); try done.
    + apply (i_seg _ _ _ _ _ Hi s sg Hl Hsg).
    + intros j k Hne. rewrite Ew. cbn [works]. rewrite elem_of_cons. naive_solver.
    + intros j _. by rewrite Et.
    + by intros j w _ ?%elem_of_nil.
    + by intros j w _ ?%elem_of_nil.
    + unfold cell_inv, cell_ok. cbn [state enq_pos deq_pos base storage on_segment claimed handed]. rewrite !app_nil_r.
      split_and!; [lia| |].
      * intros k Hk. apply Hfree. rewrite works_on, Ew in Hk. apply list_elem_of_fmap. by exists (s, i, k).
      * exists v. split; [done|]. left. split_and!; [done..|]. intros Hlt. specialize (Hd Hlt).
        rewrite (takes_split x _ rest) in Hd by done. destruct Hd as [Hd|Hd]; [by apply elem_of_nil in Hd|].
        by rewrite takes_on, Et.
Qed.

(** Where [fetch_add] leads. *)
Definition fetched one s (pos : nat) (vs : list T) : option (enq_pc T) :=
  if SegmentSize <=? pos then Some (ENext one s vs)
  else match take (SegmentSize - pos) vs with
       | [] => None
       | v :: todo => Some (EPublish one s pos v todo (drop (SegmentSize - pos) vs))
       end.

Lemma fetched_calls one s vs sg sg' : base sg' ≤ tb → enq_pos sg' = enq_pos sg + length vs → 
  let pos := enq_pos sg in let cs := Enq <$> option_list (fetched one s pos vs) in
  cs ≫= works = building s pos (take (SegmentSize - pos) vs) ∧ cs ≫= takes = [] ∧ cs ≫= owned = [] ∧
  ∀ c q, c ∈ cs → q ∈ held c → q = s ∧ call_ok SegmentSize tb b sg' c.
Proof.
  intros Hb He pos cs. unfold cs, fetched. pose proof (length_take vs (SegmentSize - pos)) as Hlen.
  destruct (Nat.leb_spec SegmentSize pos) as [Hle|Hlt].
  - replace (SegmentSize - pos) with 0 by lia. split_and!; try done. intros c q ->%list_elem_of_singleton ->%list_elem_of_singleton.
    split; [done|]. split; [done|]. lia.
  - destruct (take (SegmentSize - pos) vs) as [|v todo] eqn:Eg; [split_and!; try done; by intros c q ?%elem_of_nil|].
    split_and!; try done; [cbn; by rewrite app_nil_r|]. intros c q ->%list_elem_of_singleton ->%list_elem_of_singleton.
    split; [done|]. split; [done|]. cbn in Hlen. split_and!; [lia..|]. intros Hr.
    assert (length (drop (SegmentSize - pos) vs) ≠ 0) by (by destruct (drop _ vs)). rewrite length_drop in *. lia.
Qed.

Lemma enq_fetch one s vs : calls x ≡ₚ Enq (EFetch one s vs) :: rest → enq_keeps x (EFetch one s vs) rest.
Proof.
  intros Hc fresh _. destruct (call_here _ x C b tb _ rest s Hi Hc eq_refl) as (Hl & sg & Hsg & Hok).
  destruct (i_seg _ _ _ _ _ Hi s sg Hl Hsg) as (Hlen & Hnx & Hcells).
  set (pos := enq_pos sg). set (got := take (SegmentSize - pos) vs). set (sg' := {| sg with enq_pos := pos + length vs |}).
  pose proof (length_take vs (SegmentSize - pos)) as Hgot. fold got in Hgot.
  exists (fetched one s pos vs), (set_segment s sg' (mem x)). split.
  { cbn [enqueue_step]. rewrite (segment_at _ _ _ Hsg). orun. unfold fetched. fold pos. destruct (SegmentSize <=? pos); [done|].
    by destruct (take _ vs). }
  exists C, b, tb. unfold after_enq. cbn [new_claims]. rewrite Hsg. fold pos. fold got.
  destruct (fetched_calls one s vs sg sg') as (Ew & Et & Eo & Hcs); [apply Hok|done|]. fold pos in Ew, Et, Eo, Hcs. fold got in Ew.
  rewrite <- (app_nil_r (handed x)).
  eapply (on_segment_inv SegmentSize x C b tb Hi HS _ _ rest Hc s eq_refl sg sg' Hsg _ []); try done.
  - split_and!; cbn; [lia|done..|]. eauto.
  - by left.
  - intros g v (k & Hk%lookup_lt_Some & ->)%zip_seq_elem. lia.
  - by intros g v ?%elem_of_nil.
  - rewrite Ew, fmap_app. apply NoDup_app. split_and!; [apply building_nodup| |exact (works_nodup _ _ _ _ _ _ _ Hi Hc)].
    intros [p i] Hin Hin2. apply list_elem_of_fmap in Hin as (y & E & Hy). apply building_elem in Hy as (k & v & Hk & ->). injection E as -> ->.
    apply list_elem_of_fmap in Hin2 as ([[p j] w] & E & Hw). injection E as <- <-.
    destruct (works_bound _ x C b tb Hi s sg Hsg (pos + k) w); [|unfold pos in *; lia]. rewrite (works_split x _ rest) by done. by right.
  - rewrite Et. exact (takes_nodup _ _ _ _ _ _ _ Hi Hc).
  - intros i cc Hcc. cbn in Hcc. pose proof (lookup_lt_Some _ _ _ Hcc) as Hi'. pose proof (Hcells i cc Hcc) as Hold.
    destruct (decide (pos ≤ i < pos + length got)) as [Hin|Hout].
    + destruct (lookup_lt_is_Some_2 got (i - pos)) as [v Hv]; [lia|]. unfold cell_inv, cell_ok in Hold |- *. fold pos in Hold.
      destruct (state cc); [|lia|lia]. destruct Hold as (Hh & [?|[Hs Hv']] & Hd & _); [lia|]. cbn [sg' enq_pos deq_pos base on_segment handed claimed].
      rewrite app_nil_r. split_and!; [done|left; lia| |].
      * intros Hlt. rewrite takes_on, Et. apply Hd in Hlt. rewrite (takes_split x _ rest) in Hlt by done.
        by destruct Hlt as [?%elem_of_nil|?].
      * intros _. exists (Building v). rewrite works_on, Ew, elem_of_app, building_elem, elem_of_app, zip_seq_elem. split_and!; [|right|done].
        -- left. exists (i - pos), v. split; [done|]. do 2 f_equal. lia.
        -- exists (i - pos). split; [done|]. lia.
    + eapply (cell_same x _ _ _ _ sg sg' _ _ _ _ Hc); cbn; [done| |done| | | |by intros ? ?%elem_of_nil|done]; fold pos.
      * lia.
      * intros k. rewrite Ew. split; [by intros ?%elem_of_nil|]. intros (j & v & Hj%lookup_lt_Some & [= ->])%building_elem. lia.
      * by rewrite Et.
      * intros v (j & Hj%lookup_lt_Some & ?)%zip_seq_elem. lia.
  - rewrite fst_zip by (rewrite length_seq; lia). apply seq_sorted.
  - intros g v (k & Hk%lookup_lt_Some & ->)%zip_seq_elem. split; [apply Hnx; fold pos; lia|]. cbn. fold pos. lia.
  - apply NoDup_nil_2.
Qed.

(** ** The tail moves *)

Lemma last_facts n : last C = Some n → n ∈ linked x C ∧ ∃ sg, segments (mem x) !! n = Some sg ∧ next sg = None ∧
  (∀ p sp, p ∈ linked x C → segments (mem x) !! p = Some sp → base sp ≤ base sg) ∧ b ≤ base sg.
Proof.
  intros Hl. rewrite last_lookup in Hl. destruct (i_chain _ _ _ _ _ Hi _ n Hl) as (sg & Hsg & Hb & Hn & _).
  split; [apply elem_of_app; left; by eapply list_elem_of_lookup_2|]. exists sg. pose proof (lookup_lt_Some _ _ _ Hl) as Hlen.
  assert (Hge : b ≤ base sg) by (rewrite Hb; apply Nat.le_add_r). split_and!; [done| | |done].
  - rewrite Hn. apply lookup_ge_None. lia.
  - intros p sp [Hp|Hp]%elem_of_app Hsp.
    + apply list_elem_of_lookup in Hp as [j Hj]. destruct (i_chain _ _ _ _ _ Hi j p Hj) as (sp' & ? & Hb' & _). simplify_eq.
      pose proof (lookup_lt_Some _ _ _ Hj). rewrite Hb, Hb'. apply Nat.add_le_mono_l, Nat.mul_le_mono_r. lia.
    + destruct (i_retired _ _ _ _ _ Hi p Hp) as (sp' & ? & ? & _). simplify_eq. lia.
Qed.

Lemma move_tail s n sg : tail_ (mem x) = s → segments (mem x) !! s = Some sg → next sg = Some n →
  s ≠ n ∧ ∃ tb', inv_with (mkSystem {| (mem x) with tail_ := n |} (calls x) (claimed x) (handed x)) C b tb'.
Proof.
  intros Ht Hsg Hn. pose proof (i_tail _ _ _ _ _ Hi) as (_ & sg0 & Hsg0 & Htb & Htl). rewrite Ht in Hsg0.
  assert (sg0 = sg) as -> by congruence. destruct Htl as [?|(n' & ? & Hl & _)]; [congruence|].
  assert (n' = n) as -> by congruence. destruct (last_facts n Hl) as (Hin & sn & Hsn & Hnn & Hmax & _).
  split; [intros ->; congruence|]. exists (base sn). pose proof (i_tail _ _ _ _ _ Hi) as (Hin0 & _).
  rewrite Ht in Hin0. pose proof (Hmax _ _ Hin0 Hsg) as Hge. rewrite Htb in Hge. destruct Hi as [Hhd Hnd Hch Hre Hap Hta Hse Hca Hwo Hto How Hfr Hso Hen Hha Hli].
  split; try done.
  - split; [done|]. exists sn. split_and!; [done..|by left].
  - intros c p Hc Hp. destruct (Hca c p Hc Hp) as (? & sp & ? & Hok). split; [done|]. exists sp. split; [done|].
    eapply call_ok_le; [exact Hge|done|reflexivity|done].
Qed.

(** The end of [advance_tail]. *)
Lemma swing c' c s n : calls x ≡ₚ Enq c :: rest → (∃ one vs, c = ESwung one s n vs ∨ c = ESwing one s n vs) →
  (c' = None ∨ ∃ one vs, c' = Some (EProtect one vs)) →
  inv SegmentSize (after_enq x c rest c' (if bool_decide (tail_ (mem x) = s) then {| (mem x) with tail_ := n |} else mem x)).
Proof.
  intros Hc Hcase Hc'. assert (Hh : held (Enq c) = [s]) by naive_solver.
  destruct (call_here _ x C b tb _ rest s Hi Hc Hh) as (Hl & sg & Hsg & Hok).
  assert (Hn : next sg = Some n) by (destruct Hcase as (? & ? & [->| ->]); apply Hok).
  assert (Hnil : new_claims SegmentSize c (mem x) = [] ∧ works (Enq c) = [] ∧ takes (Enq c) = [] ∧ owned (Enq c) = []) by naive_solver.
  destruct Hnil as (E1 & E2 & E3 & E4). unfold after_enq. rewrite E1, app_nil_r.
  assert (Hnew : ∀ c0 p, c0 ∈ Enq <$> option_list c' → p ∉ held c0).
  { intros c0 p Hin. destruct Hc' as [->|(? & ? & ->)]; [by apply elem_of_nil in Hin|]. apply list_elem_of_singleton in Hin as ->. apply not_elem_of_nil. }
  assert (Hnil' : (Enq <$> option_list c') ≫= works = [] ∧ (Enq <$> option_list c') ≫= takes = [] ∧ (Enq <$> option_list c') ≫= owned = [])
    by (by destruct Hc' as [->|(? & ? & ->)]).
  destruct Hnil' as (E5 & E6 & E7). case_bool_decide as Ht.
  - destruct (move_tail s n sg Ht Hsg Hn) as (Hne & tb' & Hi'). exists C, b, tb'.
    apply (calls_inv SegmentSize (mkSystem {| (mem x) with tail_ := n |} (calls x) (claimed x) (handed x)) C b tb' [Enq c]); try done.
    + rewrite E5. cbn [mbind list_bind]. by rewrite E2.
    + cbn [mbind list_bind]. by rewrite E4.
    + intros one' n' vs' Hin%list_elem_of_singleton. cbn in Hin. injection Hin as <-. cbn in Hh. by simplify_eq.
    + intros c0 p Hin Hp. by apply Hnew in Hp.
  - exists C, b, tb. apply (calls_inv SegmentSize x C b tb [Enq c]); try done.
    + rewrite E5. cbn [mbind list_bind]. by rewrite E2.
    + cbn [mbind list_bind]. by rewrite E4.
    + intros one' n' vs' Hin%list_elem_of_singleton. injection Hin as <-. cbn in Hh. by simplify_eq.
    + intros c0 p Hin Hp. by apply Hnew in Hp.
Qed.

Lemma enq_swung one s n vs : calls x ≡ₚ Enq (ESwung one s n vs) :: rest → enq_keeps x (ESwung one s n vs) rest.
Proof.
  intros Hc fresh _. eexists _, _. split; [reflexivity|]. apply swing; [done|eauto|]. destruct one; eauto.
Qed.
Lemma enq_swing one s n vs : calls x ≡ₚ Enq (ESwing one s n vs) :: rest → enq_keeps x (ESwing one s n vs) rest.
Proof. intros Hc fresh _. eexists _, _. split; [reflexivity|]. apply swing; [done|eauto|]. eauto. Qed.

(** ** A segment is made *)

(** The segments producers have made are their own. *)
Lemma fresh_apart c one s fr vs : calls x ≡ₚ c :: rest → Enq (ELink one s fr vs) ∈ rest →
  fr ∉ owned c ∧ fr ∉ linked x C ∧ ∃ sg, s ∈ linked x C ∧ segments (mem x) !! s = Some sg ∧
  segments (mem x) !! fr = Some (prepared SegmentSize one (base sg + SegmentSize) vs).
Proof.
  intros Hc Hin. destruct (i_fresh _ _ _ _ _ Hi (Enq (ELink one s fr vs)) one s fr vs) as (Hl & sg & ? & ?); [rewrite Hc; set_solver|done|].
  destruct (i_calls _ _ _ _ _ Hi (Enq (ELink one s fr vs)) s) as (? & _); [rewrite Hc; set_solver|cbn; set_solver|].
  split; [|split; [done|by exists sg]]. pose proof (i_owned _ _ _ _ _ Hi) as Ho. rewrite Hc in Ho. cbn in Ho.
  apply NoDup_app in Ho as (_ & Ho & _). intros Hx. apply (Ho fr Hx), list_elem_of_bind. eexists. split; [|done]. cbn. set_solver.
Qed.

Lemma enq_alloc one s vs : calls x ≡ₚ Enq (EAlloc one s vs) :: rest → enq_keeps x (EAlloc one s vs) rest.
Proof.
  intros Hc fresh Hfresh. destruct (call_here _ x C b tb _ rest s Hi Hc eq_refl) as (Hl & sg & Hsg & Hok).
  cbn [enqueue_step]. rewrite (segment_at _ _ _ Hsg). orun. eexists _, _. split; [reflexivity|]. exists C, b, tb.
  unfold after_enq. cbn [new_claims option_list fmap list_fmap]. rewrite app_nil_r.
  assert (Hne : ∀ p, is_Some (segments (mem x) !! p) → fresh ≠ p) by (intros p [? ?] ->; congruence).
  assert (Hnl : ∀ p, p ∈ linked x C → fresh ≠ p) by (intros p Hp; destruct (linked_live _ x C b tb Hi p Hp) as [? ?]; eauto).
  apply (frame_inv SegmentSize x C b tb _ [Enq (EAlloc one s vs)]); try done.
  - intros p Hp. by rewrite lookup_insert_ne by auto.
  - by intros one' n vs' [=]%list_elem_of_singleton.
  - intros c p ->%list_elem_of_singleton ->%list_elem_of_singleton. split; [done|]. by exists sg.
  - pose proof (i_owned _ _ _ _ _ Hi) as Ho. rewrite Hc in Ho. cbn in Ho |- *. apply NoDup_cons. split; [|done].
    intros (c & Hc' & Hin)%list_elem_of_bind. destruct c as [[]|]; cbn in Hc'; try (by apply elem_of_nil in Hc').
    apply list_elem_of_singleton in Hc' as ->. destruct (fresh_apart _ _ _ _ _ Hc Hin) as (_ & _ & ? & _ & _ & E). congruence.
  - intros one' s' fr vs' [E|Hin]%elem_of_cons.
    + injection E as -> -> -> ->. split; [intros Hx; by apply (Hnl fresh)|]. exists sg.
      rewrite lookup_insert_ne, lookup_insert_eq by eauto. done.
    + destruct (fresh_apart _ _ _ _ _ Hc Hin) as (_ & ? & sg' & Hs' & ? & E). split; [done|]. exists sg'.
      rewrite !lookup_insert_ne by eauto. done.
Qed.

(** Another producer has linked a segment first. *)
Lemma enq_link_lost one s fr vs sg nx : calls x ≡ₚ Enq (ELink one s fr vs) :: rest →
  segments (mem x) !! s = Some sg → next sg = Some nx → enq_keeps x (ELink one s fr vs) rest.
Proof.
  intros Hc Hsg Hn fresh _. destruct (call_here _ x C b tb _ rest s Hi Hc eq_refl) as (Hl & sg0 & Hsg0 & Hok). simplify_eq.
  destruct (i_fresh _ _ _ _ _ Hi (Enq (ELink one s fr vs)) one s fr vs) as (Hfr & sg0 & ? & Hf); [rewrite Hc; set_solver|done|].
  cbn [enqueue_step]. rewrite (segment_at _ _ _ Hsg). orun. rewrite Hn, (segment_at _ _ _ Hf). orun.
  eexists _, _. split; [reflexivity|]. exists C, b, tb. unfold after_enq.
  assert (new_claims SegmentSize (ELink one s fr vs) (mem x) = []) as -> by (cbn; rewrite Hsg, Hn; by destruct one, vs). rewrite app_nil_r.
  assert (Hnl : ∀ p, p ∈ linked x C → fr ≠ p) by (by intros p Hp ->).
  apply (frame_inv SegmentSize x C b tb _ [Enq (ELink one s fr vs)]); try done.
  - intros p Hp. by rewrite lookup_delete_ne by auto.
  - by intros one' n vs' [=]%list_elem_of_singleton.
  - intros c p ->%list_elem_of_singleton ->%list_elem_of_singleton. split; [done|]. exists sg. split; [done|]. split; [apply Hok|done].
  - pose proof (i_owned _ _ _ _ _ Hi) as Ho. rewrite Hc in Ho. cbn in Ho |- *. by apply NoDup_cons in Ho as [_ ?].
  - intros one' s' fr' vs' [E|Hin]%elem_of_cons; [done|].
    destruct (fresh_apart _ _ _ _ _ Hc Hin) as (Hne & ? & sg' & Hs' & ? & E). split; [done|]. exists sg'.
    rewrite !lookup_delete_ne; [done| |by apply Hnl]. intros ->. apply Hne. cbn. set_solver.
Qed.
End step.

(** What is in a prepared segment. *)
Lemma prepared_cell one b vs i (cc : Cell T) : cells (prepared SegmentSize one b vs) !! i = Some cc →
  i = 0 ∧ (∃ v, one = true ∧ head vs = Some v ∧ cc = mkCell kFull (Some v)) ∧ enq_pos (prepared SegmentSize one b vs) = 1
  ∨ cc = mkCell kEmpty None ∧ enq_pos (prepared SegmentSize one b vs) ≤ i ∧ ∀ v, one = true → head vs = Some v → i ≠ 0.
Proof.
  destruct one, vs as [|v vs']; cbn; intros Hcc; try (apply lookup_replicate_1 in Hcc as [-> _]; right; split_and!; [done|lia|done]).
  apply list_lookup_insert_Some in Hcc as [(-> & <- & _)|(Hne & Hcc)]; [left; eauto 8|right].
  apply lookup_replicate_1 in Hcc as [-> _]. split_and!; [done|lia|]. intros ? _ _. lia.
Qed.

(** ** A segment is linked *)

Section link.
Context (x : system) (C : list ptr) (b tb : nat) (Hi : inv_with x C b tb) (rest : list (call T)).
Context (one : bool) (s fr : ptr) (vs : list T) (Hc : calls x ≡ₚ Enq (ELink one s fr vs) :: rest).
Context (sg : Segment T) (Hsg : segments (mem x) !! s = Some sg) (Hn : next sg = None).

Definition link_claims : list (nat * T) := new_claims SegmentSize (ELink one s fr vs) (mem x).
Definition linked_state : system :=
  mkSystem (set_segment s {| sg with next := Some fr |} (mem x)) (Enq (ESwung one s fr vs) :: rest)
    (claimed x ++ link_claims) (handed x).
Abbreviation x' := linked_state.
Abbreviation pf := (prepared SegmentSize one (base sg + SegmentSize) vs).

Lemma pf_fields : base pf = base sg + SegmentSize ∧ next pf = None ∧ deq_pos pf = 0 ∧ length (cells pf) = SegmentSize.
Proof. destruct one, vs; cbn; by rewrite ?length_insert, ?length_replicate. Qed.

Lemma link_claims_elem g v : (g, v) ∈ link_claims ↔ g = base sg + SegmentSize ∧ one = true ∧ head vs = Some v.
Proof.
  unfold link_claims. cbn. rewrite Hsg, Hn. destruct one, vs as [|w vs']; cbn; rewrite ?list_elem_of_singleton, ?elem_of_nil; naive_solver.
Qed.

Lemma here : s ∈ linked x C ∧ SegmentSize ≤ enq_pos sg ∧ base sg ≤ tb ∧ last C = Some s ∧ fr ∉ linked x C ∧ segments (mem x) !! fr = Some pf.
Proof.
  destruct (call_here _ x C b tb _ rest s Hi Hc eq_refl) as (Hl & sg0 & Hsg0 & Hok).
  assert (sg0 = sg) as -> by congruence. destruct Hok as [Hb He].
  destruct (i_fresh _ _ _ _ _ Hi (Enq (ELink one s fr vs)) one s fr vs) as (Hfr & sg1 & Hsg1 & Hf); [rewrite Hc; set_solver|done|].
  assert (sg1 = sg) as -> by congruence. split_and!; try done. by eapply last_unique.
Qed.

Lemma fr_not_s : fr ≠ s.
Proof. destruct here as (Hl & _ & _ & _ & Hfr & _). by intros ->. Qed.

Lemma segments_fr : segments (mem x') !! fr = Some pf.
Proof. destruct here as (_ & _ & _ & _ & _ & Hf). cbn. by rewrite lookup_insert_ne by (apply not_eq_sym, fr_not_s). Qed.
Lemma segments_s : segments (mem x') !! s = Some {| sg with next := Some fr |}.
Proof. cbn. by rewrite lookup_insert_eq. Qed.
Lemma segments_other p : p ≠ s → segments (mem x') !! p = segments (mem x) !! p.
Proof. intros. cbn. by rewrite lookup_insert_ne. Qed.

(** Segments that were linked before only move on. *)
Lemma link_le p sp : segments (mem x) !! p = Some sp → ∃ sp', segments (mem x') !! p = Some sp' ∧ seg_le sp sp'
  ∧ enq_pos sp' = enq_pos sp ∧ deq_pos sp' = deq_pos sp ∧ cells sp' = cells sp.
Proof.
  intros Hp. destruct (decide (p = s)) as [->|Hne].
  - exists {| sg with next := Some fr |}. rewrite segments_s. assert (sp = sg) as -> by congruence.
    split_and!; try done; split_and!; cbn; try done; [intros n; by rewrite Hn|eauto].
  - rewrite segments_other by done. exists sp. by split_and!.
Qed.

Lemma base_le p sp : p ∈ linked x C → segments (mem x) !! p = Some sp → base sp ≤ base sg.
Proof.
  destruct here as (_ & _ & _ & Hlast & _). destruct (last_facts x C b tb Hi s Hlast) as (_ & sg0 & ? & _ & Hmax & _).
  assert (sg0 = sg) as -> by congruence. apply Hmax.
Qed.

Lemma claimed_below g v : (g, v) ∈ claimed x → g < base sg + SegmentSize.
Proof.
  intros Hg. destruct here as (_ & _ & _ & Hlast & _).
  pose proof (i_end _ _ _ _ _ Hi g s sg ltac:(apply list_elem_of_fmap; by exists (g, v)) Hlast Hsg). lia.
Qed.

Lemma link_works : all_works x ≡ₚ all_works x'.
Proof. unfold all_works. rewrite Hc. done. Qed.
Lemma link_takes : all_takes x ≡ₚ all_takes x'.
Proof. unfold all_takes. rewrite Hc. done. Qed.

Lemma link_linked : linked x' (C ++ [fr]) ≡ₚ fr :: linked x C.
Proof. unfold linked. cbn. rewrite <- app_assoc. cbn. by rewrite Permutation_middle. Qed.

Lemma link_chain : chain SegmentSize (segments (mem x')) b (C ++ [fr]).
Proof.
  destruct here as (Hl & _ & _ & Hlast & Hfr & _). pose proof pf_fields as (Hpb & Hpn & Hpd & _). pose proof Hlast as Hlast'. rewrite last_lookup in Hlast'.
  pose proof (lookup_lt_Some _ _ _ Hlast') as Hpos.
  destruct (i_chain _ _ _ _ _ Hi _ s Hlast') as (sg0 & ? & Hb & _ & Hd0). assert (sg0 = sg) as -> by congruence.
  pose proof (i_nodup _ _ _ _ _ Hi) as (HndC & _ & _)%NoDup_app.
  intros j p Hj. apply lookup_app_Some in Hj as [Hj|[Hge Hj]].
  - pose proof (lookup_lt_Some _ _ _ Hj). destruct (i_chain _ _ _ _ _ Hi j p Hj) as (sp & Hsp & Hbp & Hnp & Hdp).
    destruct (decide (p = s)) as [->|Hne].
    + assert (j = Init.Nat.pred (length C)) as Ej by (by eapply NoDup_lookup).
      exists {| sg with next := Some fr |}. rewrite segments_s. split_and!; [done|by rewrite Ej| |rewrite Ej; exact Hd0].
      rewrite lookup_app_r by lia. by replace (S j - length C) with 0 by lia.
    + exists sp. rewrite segments_other by done. split_and!; try done. rewrite lookup_app_l; [done|].
      destruct (decide (S j < length C)); [done|]. exfalso. apply Hne. replace (Init.Nat.pred (length C)) with j in Hlast' by lia. congruence.
  - apply list_lookup_singleton_Some in Hj as [Hj <-]. exists pf. rewrite segments_fr. split_and!; [done| | |done].
    + rewrite Hpb, Hb. replace j with (S (Init.Nat.pred (length C))) by lia. cbn. lia.
    + rewrite Hpn. symmetry. apply lookup_ge_None. rewrite length_app. cbn. lia.
Qed.

Lemma link_tail : tail_ok x' (C ++ [fr]) tb.
Proof.
  destruct here as (Hl & _ & Hb & Hlast & _). destruct (i_tail _ _ _ _ _ Hi) as (Hin & st & Hst & Htb & Hcase).
  assert (Ht : tail_ (mem x) = s).
  { destruct Hcase as [Hnone|(n & Hnt & Hln & _)]; [pose proof (last_unique _ x C b tb Hi _ _ Hin Hst Hnone); congruence|].
    assert (n = s) as -> by congruence. apply elem_of_app in Hin as [Hin|Hin].
    - apply list_elem_of_lookup in Hin as [j Hj]. destruct (i_chain _ _ _ _ _ Hi j _ Hj) as (st' & ? & Hbt & Hnx & _). assert (st' = st) as -> by congruence.
      rewrite Hnt in Hnx. symmetry in Hnx. destruct (i_chain _ _ _ _ _ Hi _ s Hnx) as (sg0 & ? & Hbs & _). assert (sg0 = sg) as -> by congruence. lia.
    - destruct (i_retired _ _ _ _ _ Hi _ Hin) as (st' & ? & Hbt & _). assert (st' = st) as -> by congruence.
      destruct (last_facts x C b tb Hi s Hlast) as (_ & sg0 & ? & _ & _ & Hge). assert (sg0 = sg) as -> by congruence. lia. }
  split; [rewrite link_linked; cbn; rewrite Ht; apply elem_of_cons; by right|]. exists {| sg with next := Some fr |}. change (tail_ (mem x')) with (tail_ (mem x)). rewrite Ht.
  rewrite segments_s. assert (st = sg) as -> by congruence. split_and!; [done|done|]. right. exists fr. split_and!; [done|by rewrite last_snoc|].
  exists one, vs. cbn. apply elem_of_cons. by left.
Qed.

(** The cells of the segments linked before. *)
Lemma link_cell_old p sp i (cc : Cell T) : p ∈ linked x C → segments (mem x) !! p = Some sp → i < SegmentSize →
  cell_inv x p sp i cc → cell_inv x' p sp i cc.
Proof.
  intros Hp Hsp Hlt. apply cell_ok_ext; [done|done|intros k; by rewrite link_works|by rewrite link_takes| |done].
  intros v. cbn [linked_state claimed]. rewrite elem_of_app. split; [by left|]. intros [?|Hv]; [done|].
  apply link_claims_elem in Hv as [? _]. pose proof (base_le p sp Hp Hsp). lia.
Qed.

(** The cells of the new one. *)
Lemma link_cell_new i (cc : Cell T) : cells pf !! i = Some cc → cell_inv x' fr pf i cc.
Proof.
  intros Hcc. destruct here as (_ & _ & _ & _ & Hfr & _). pose proof pf_fields as (Hpb & _ & Hpd & Hplen).
  assert (Hnw : ∀ k, (fr, i, k) ∉ all_works x').
  { intros k Hk. rewrite <- link_works in Hk. apply list_elem_of_bind in Hk as (c & Hw & Hin). apply works_held in Hw.
    apply Hfr. apply (i_calls _ _ _ _ _ Hi c); [done|rewrite Hw; set_solver]. }
  assert (Hnc : ∀ v, (base pf + i, v) ∉ claimed x) by (intros v Hv; apply claimed_below in Hv; lia).
  assert (Hnh : base pf + i ∉ (handed x).*1).
  { intros ([g v] & Eg & Hg)%list_elem_of_fmap. cbn in Eg. subst g. by apply (Hnc v), (i_handed _ _ _ _ _ Hi). }
  unfold cell_inv, cell_ok. cbn [linked_state handed claimed]. destruct (prepared_cell _ _ _ _ _ Hcc) as [(-> & (v & H1 & H2 & ->) & ->)|(-> & He & Hnl)]; cbn [state storage].
  - split_and!; [lia|done|]. exists v. rewrite elem_of_app, link_claims_elem. split; [right; split_and!; [lia|done..]|]. left. split_and!; [done..|lia].
  - split_and!; [done| |lia|lia]. right. split; [done|]. intros v. rewrite elem_of_app. intros [Hv|Hv]; [by apply (Hnc v)|].
    apply link_claims_elem in Hv as (? & ? & Hv). apply (Hnl v); [done..|lia].
Qed.

Lemma link_sorted : StronglySorted lt (claimed x').*1.
Proof.
  cbn [linked_state claimed]. rewrite fmap_app. apply StronglySorted_app_2; [|apply (i_sorted _ _ _ _ _ Hi)|].
  - intros g1 g2 H1 H2. apply list_elem_of_fmap in H1 as ([g v] & -> & Hg). apply list_elem_of_fmap in H2 as ([g' v'] & -> & Hg').
    apply link_claims_elem in Hg' as [-> _]. by apply claimed_below in Hg.
  - unfold link_claims. cbn. rewrite Hsg, Hn. destruct one, vs; cbn; repeat constructor.
Qed.

Lemma link_end g p sp : g ∈ (claimed x').*1 → last (C ++ [fr]) = Some p → segments (mem x') !! p = Some sp →
  g < base sp + Nat.min (enq_pos sp) SegmentSize.
Proof.
  intros Hg Hl Hsp. rewrite last_snoc in Hl. injection Hl as <-. rewrite segments_fr in Hsp. injection Hsp as <-.
  pose proof pf_fields as (Hpb & _). rewrite Hpb. apply list_elem_of_fmap in Hg as ([g' v] & -> & Hg). cbn [linked_state claimed] in Hg.
  apply elem_of_app in Hg as [Hg|Hg]; [apply claimed_below in Hg; cbn [fst]; lia|].
  apply link_claims_elem in Hg as (-> & E1 & E2). assert (enq_pos pf = 1) as -> by (rewrite E1; by destruct vs). cbn [fst]. lia.
Qed.

Lemma link_live g v : (g, v) ∈ claimed x' → g ∉ (handed x').*1 →
  ∃ p sp, p ∈ linked x' (C ++ [fr]) ∧ segments (mem x') !! p = Some sp ∧ base sp ≤ g < base sp + SegmentSize.
Proof.
  cbn [linked_state claimed handed]. intros [Hg|Hg]%elem_of_app Hh.
  - destruct (i_live _ _ _ _ _ Hi g v Hg Hh) as (p & sp & Hp & Hsp & Hr). destruct (link_le p sp Hsp) as (sp' & ? & (_ & _ & Hb & _) & _).
    exists p, sp'. rewrite <- Hb. split; [rewrite link_linked; apply elem_of_cons; by right|done].
  - apply link_claims_elem in Hg as [-> _]. exists fr, pf. rewrite segments_fr. pose proof pf_fields as (-> & _).
    split_and!; [rewrite link_linked; apply elem_of_cons; by left|done|lia..].
Qed.

Lemma link_fresh c one' s' fr' vs' : c ∈ calls x' → c = Enq (ELink one' s' fr' vs') → fr' ∉ linked x' (C ++ [fr]) ∧
  ∃ sp, segments (mem x') !! s' = Some sp ∧ segments (mem x') !! fr' = Some (prepared SegmentSize one' (base sp + SegmentSize) vs').
Proof.
  intros [->|Hin]%elem_of_cons E; [done|]. subst c.
  destruct (fresh_apart x C b tb Hi rest _ _ _ _ _ Hc Hin) as (Hne & Hfr' & sp & Hs' & Hsp & Hf').
  destruct here as (Hl & _). destruct (link_le s' sp Hsp) as (sp' & ? & (_ & _ & Hb & _) & _). split.
  - rewrite link_linked, elem_of_cons. intros [->|?]; [|done]. apply Hne. cbn. set_solver.
  - exists sp'. rewrite <- Hb. split; [done|]. rewrite segments_other; [done|]. by intros ->.
Qed.

Lemma linked_inv : inv_with x' (C ++ [fr]) b tb.
Proof.
  destruct here as (Hl & He & Hb & Hlast & Hfr & Hf). pose proof pf_fields as (Hpb & Hpn & Hpd & Hplen).
  assert (Hold : ∀ p, p ∈ linked x' (C ++ [fr]) → p = fr ∧ segments (mem x') !! p = Some pf ∨ p ∈ linked x C ∧
    ∃ sp sp', segments (mem x) !! p = Some sp ∧ segments (mem x') !! p = Some sp' ∧ base sp = base sp').
  { intros p. rewrite link_linked, elem_of_cons. intros [->|Hp]; [left; by rewrite segments_fr|right]. split; [done|].
    destruct (linked_live _ x C b tb Hi p Hp) as [sp Hsp]. destruct (link_le p sp Hsp) as (sp' & ? & (_ & _ & ? & _) & _). eauto. }
  split.
  - rewrite head_app. by rewrite (i_head _ _ _ _ _ Hi).
  - rewrite link_linked. apply NoDup_cons. split; [done|apply (i_nodup _ _ _ _ _ Hi)].
  - apply link_chain.
  - intros p Hp. destruct (i_retired _ _ _ _ _ Hi p Hp) as (sp & Hsp & ?). exists sp. rewrite segments_other; [done|].
    intros ->. pose proof (i_nodup _ _ _ _ _ Hi) as (_ & Hd & _)%NoDup_app. apply (Hd s); [by apply last_Some_elem_of|done].
  - intros p p' sp sp' Hp Hp' Hne E1 E2. destruct (Hold p Hp) as [(-> & E)|(Hpl & s1 & s1' & Hs1 & Hs1' & B1)],
      (Hold p' Hp') as [(-> & E')|(Hpl' & s2 & s2' & Hs2 & Hs2' & B2)]; simplify_eq.
    + right. rewrite <- B2, Hpb. pose proof (base_le _ _ Hpl' Hs2). lia.
    + left. rewrite <- B1, Hpb. pose proof (base_le _ _ Hpl Hs1). lia.
    + rewrite <- B1, <- B2. by apply (i_apart _ _ _ _ _ Hi p p').
  - apply link_tail.
  - intros p sp Hp E. destruct (Hold p Hp) as [(-> & E')|(Hpl & s1 & _ & Hs1 & _)].
    + assert (sp = pf) as -> by congruence. split_and!; [done|done|]. apply link_cell_new.
    + destruct (i_seg _ _ _ _ _ Hi p s1 Hpl Hs1) as (Hlen & Hnx & Hcells). destruct (link_le p s1 Hs1) as (s1' & E1 & (_ & _ & Hbb & _) & Ee & Ed & Ec).
      assert (sp = s1') as -> by congruence. split_and!; [congruence| |].
      * intros Hlt. destruct (decide (p = s)) as [->|Hne]; [rewrite Hsg in Hs1; simplify_eq; lia|]. rewrite segments_other in E by done.
        assert (s1' = s1) as -> by congruence. by apply Hnx.
      * rewrite Ec. intros i cc Hcc. unfold cell_inv. rewrite Ee, Ed, <- Hbb. apply (link_cell_old p s1); [done|done| |by apply Hcells].
        rewrite <- Hlen. by eapply lookup_lt_Some.
  - intros c p Hcin Hp. rewrite link_linked, elem_of_cons. cbn [linked_state calls] in Hcin. apply elem_of_cons in Hcin as [->|Hcin].
    + apply list_elem_of_singleton in Hp as ->. split; [by right|]. exists {| sg with next := Some fr |}. rewrite segments_s. done.
    + destruct (i_calls _ _ _ _ _ Hi c p) as (? & sp & Hsp & Hok); [rewrite Hc; set_solver|done|]. split; [by right|].
      destruct (link_le p sp Hsp) as (sp' & ? & Hle & _). exists sp'. split; [done|].
      eapply call_ok_le; [reflexivity|reflexivity|exact Hle|exact Hok].
  - rewrite <- link_works. apply (i_works _ _ _ _ _ Hi).
  - rewrite <- link_takes. apply (i_takes _ _ _ _ _ Hi).
  - pose proof (i_owned _ _ _ _ _ Hi) as Ho. rewrite Hc in Ho. cbn in Ho |- *. by apply NoDup_cons in Ho as [_ ?].
  - apply link_fresh.
  - apply link_sorted.
  - apply link_end.
  - destruct (i_handed _ _ _ _ _ Hi) as [? Hsub]. split; [done|]. intros y Hy. cbn [linked_state claimed]. apply elem_of_app. left. by apply Hsub.
  - apply link_live.
Qed.

Lemma enq_linked : enq_keeps x (ELink one s fr vs) rest.
Proof.
  intros fresh _. cbn [enqueue_step]. rewrite (segment_at _ _ _ Hsg). orun. rewrite Hn. eexists _, _. split; [reflexivity|].
  exists (C ++ [fr]), b, tb. exact linked_inv.
Qed.
End link.

(** Every step of a producer succeeds and keeps the invariant. *)
Lemma enq_ok_step x c rest : inv SegmentSize x → calls x ≡ₚ Enq c :: rest → enq_keeps x c rest.
Proof.
  intros (C & b & tb & Hi) Hc. destruct c as [| | | | | |one s fr vs| |].
  - by eapply enq_protect.
  - by eapply enq_fetch.
  - by eapply enq_publish.
  - by eapply enq_full.
  - by eapply enq_next.
  - by eapply enq_alloc.
  - destruct (call_here _ x C b tb _ rest s Hi Hc eq_refl) as (_ & sg & Hsg & _).
    destruct (next sg) as [nx|] eqn:Hn; [by eapply enq_link_lost|by eapply enq_linked].
  - by eapply enq_swung.
  - by eapply enq_swing.
Qed.
End enq.
End SegmentedQueueEnq.
