(* ===== verification/SegmentedQueueDeq.v ===== *)
(** The steps of the consumers of the segmented queue succeed and keep its invariant, and
    a consumer leaves with nothing only when nothing is left. *)

From stdpp Require Import sorting.
From S2P Require Import Prelude SegmentedQueue SegmentedQueueInv SegmentedQueueSteps SegmentedQueueEnq.

Module SegmentedQueueDeq.
Import SegmentedQueue SegmentedQueueInv SegmentedQueueSteps SegmentedQueueEnq.

Section deq.
Context {T : Type} (SegmentSize : nat) (HS : (0 < SegmentSize)%nat).
Local Open Scope nat_scope.
Abbreviation system := (SegmentedQueue.system T).
Abbreviation inv_with := (inv_with SegmentSize).
Implicit Types (x : system) (p s : ptr) (sg : Segment T) (C : list ptr).

(** The first position no consumer has claimed. *)
Definition front (q : queue T) : nat :=
  match segments q !! head_ q with Some sg => base sg + Nat.min (deq_pos sg) SegmentSize | None => 0 end.

Definition goes (a : answer T) : list (call T) := match a with Goes c => [Deq c] | Returns _ => [] end.
Definition after_deq x (c : deq_pc T) rest (a : answer T) (q : queue T) : system :=
  mkSystem q (goes a ++ rest) (claimed x) (handed x ++ new_handed c (mem x)).

Definition deq_keeps x (c : deq_pc T) rest : Prop := ∀ weak, ∃ a q, dequeue_step SegmentSize weak c (mem x) = Done (a, q) ∧
  inv SegmentSize (after_deq x c rest a q) ∧ (a = Returns [] → ∀ g v, (g, v) ∈ claimed x → g < front (mem x)).

Section step.
Context (x : system) (C : list ptr) (b tb : nat) (Hi : inv_with x C b tb) (rest : list (call T)).

(** A step that only reads. *)
Lemma deq_read c a s sg : calls x ≡ₚ Deq c :: rest → held (Deq c) = [s] → works (Deq c) = [] → new_handed c (mem x) = [] →
  segments (mem x) !! s = Some sg →
  match a with
  | Goes d => works (Deq d) = [] ∧ takes (Deq d) = takes (Deq c) ∧ held (Deq d) = [s] ∧ deq_ok SegmentSize b sg d
  | Returns _ => takes (Deq c) = []
  end → inv SegmentSize (after_deq x c rest a (mem x)).
Proof.
  intros Hc Hh Hw Hn Hsg Ha. exists C, b, tb. unfold after_deq. rewrite Hn, app_nil_r.
  apply (calls_inv SegmentSize x C b tb [Deq c]); [done|done|..].
  - cbn [mbind list_bind]. rewrite Hw. destruct a as [d|]; [|done]. cbn [goes mbind list_bind]. by destruct Ha as (-> & _).
  - destruct a as [d|]; cbn [goes mbind list_bind]; [by destruct Ha as (_ & -> & _)|by rewrite Ha].
  - done.
  - by destruct a.
  - by intros ? ? ? [=]%list_elem_of_singleton.
  - intros d p Hd Hp. destruct a as [d'|]; [|by apply elem_of_nil in Hd]. apply list_elem_of_singleton in Hd as ->.
    destruct Ha as (_ & _ & E & Hok). rewrite E in Hp. apply list_elem_of_singleton in Hp as ->.
    destruct (call_here _ x C b tb _ rest s Hi Hc Hh) as (? & _). split; [done|]. by exists sg.
Qed.

Lemma deq_protect m : calls x ≡ₚ Deq (DProtect m) :: rest → deq_keeps x (DProtect m) rest.
Proof.
  intros Hc weak. eexists _, _. split; [reflexivity|]. split; [|done]. exists C, b, tb. unfold after_deq. cbn [new_handed]. rewrite app_nil_r.
  apply (calls_inv SegmentSize x C b tb [Deq (DProtect m)]); try done.
  - by intros ? ? ? [=]%list_elem_of_singleton.
  - intros d p Hd Hp. apply list_elem_of_singleton in Hd as ->. apply list_elem_of_singleton in Hp as ->.
    pose proof (i_head _ _ _ _ _ Hi) as Hh. destruct C as [|c0 C0]; [done|]. injection Hh as <-.
    destruct (i_chain _ _ _ _ _ Hi 0 c0 eq_refl) as (sg & Hsg & Hb & _). split; [apply elem_of_app; left; set_solver|].
    exists sg. split; [done|]. split; [lia|done].
Qed.

(** The cell at an index below the size of a segment. *)
Lemma cell_there s sg i : s ∈ linked x C → segments (mem x) !! s = Some sg → i < SegmentSize → ∃ cc, cells sg !! i = Some cc.
Proof. intros Hl Hsg Hlt. destruct (i_seg _ _ _ _ _ Hi s sg Hl Hsg) as (Hlen & _). apply lookup_lt_is_Some_2. lia. Qed.

Local Ltac at_segment Hc :=
  match type of Hc with _ ≡ₚ Deq ?c :: _ =>
    destruct (call_here _ x C b tb _ rest _ Hi Hc eq_refl) as (Hl & sg & Hsg & Hok); cbn [call_ok] in Hok;
    destruct Hok as (Hb & Hok); cbn [dequeue_step]; rewrite ?(segment_at _ _ _ Hsg); orun
  end.
Local Ltac at_cell i :=
  match goal with Hl : ?s ∈ linked x C, Hsg : segments (mem x) !! ?s = Some ?sg |- _ =>
    destruct (cell_there s sg i Hl Hsg ltac:(lia)) as (cc & Hcc); rewrite (cell_at _ _ _ _ _ Hsg Hcc); orun
  end.
Local Ltac reads Hc := eapply deq_read; [exact Hc|done|done|done|eassumption|]; split_and!; [done|done|done|].

Lemma deq_load m s : calls x ≡ₚ Deq (DLoad m s) :: rest → deq_keeps x (DLoad m s) rest.
Proof.
  intros Hc weak. at_segment Hc. destruct (Nat.leb_spec SegmentSize (deq_pos sg)); eexists _, _; (split; [reflexivity|]); (split; [|done]).
  - reads Hc. by split.
  - destruct m; reads Hc; split; try done. split_and!; [lia|lia|lia].
Qed.

Lemma deq_state s d : calls x ≡ₚ Deq (DState s d) :: rest → deq_keeps x (DState s d) rest.
Proof.
  intros Hc weak. at_segment Hc. at_cell d. case_bool_decide as Hst; eexists _, _; (split; [reflexivity|]); (split; [|done]).
  - reads Hc. split; [done|]. done.
  - assert (full_at sg d) by (exists cc; split; [done|]; by destruct (state cc); first [done|exfalso; apply Hst]).
    destruct (Nat.leb_spec SegmentSize (S d)); reads Hc; (split; [done|]); split; [lia|done|lia|done].
Qed.

Lemma deq_scarce s d : calls x ≡ₚ Deq (DScarce s d) :: rest → deq_keeps x (DScarce s d) rest.
Proof.
  intros Hc weak. at_segment Hc. at_cell (S d). eexists _, _. split; [reflexivity|]. split; [|by case_bool_decide].
  case_bool_decide; reads Hc; (split; [done|]); [split; [lia|apply Hok]|lia].
Qed.

Lemma scanned_ok n s d ready sg : base sg ≤ b → d < SegmentSize → d ≤ deq_pos sg → (0 < ready → full_at sg d) →
  let c := scanned (T:=T) n s d ready in
  works (Deq c) = [] ∧ takes (Deq c) = [] ∧ held (Deq c) = [s] ∧ deq_ok SegmentSize b sg c.
Proof. intros. destruct ready as [|[|ready]]; split_and!; try done; split; try done; [split; [done|auto with lia]|cbn; lia]. Qed.

Lemma deq_scan n s d ready : calls x ≡ₚ Deq (DScan n s d ready) :: rest → deq_keeps x (DScan n s d ready) rest.
Proof.
  intros Hc weak. at_segment Hc. destruct Hok as (H1 & H2 & H3). pose proof (scanned_ok n s d ready sg Hb H1 H2 H3).
  destruct (Nat.ltb_spec ready (Nat.min (SegmentSize - d) n)).
  - at_cell (d + ready). eexists _, _. split; [reflexivity|]. split; [|by case_bool_decide]. case_bool_decide as Hst.
    + reads Hc. split; [done|]. split_and!; [done..|]. intros _. destruct ready; [|auto with lia]. rewrite Nat.add_0_r in Hcc. by exists cc.
    + by eapply deq_read.
  - eexists _, _. split; [reflexivity|]. split; [|done]. by eapply deq_read.
Qed.

Lemma deq_take_enq m s i stop got : calls x ≡ₚ Deq (DTakeEnq m s i stop got) :: rest → deq_keeps x (DTakeEnq m s i stop got) rest.
Proof.
  intros Hc weak. at_segment Hc. eexists _, _. split; [reflexivity|]. split; [|by case_match].
  destruct (Nat.ltb_spec i (enq_pos sg)); reads Hc; (split; [done|]); [done|]. destruct Hok as (? & ? & ?). by split_and!.
Qed.

(** ** Nothing left *)

(** A consumer that holds the last segment holds the head. *)
Lemma last_is_head s sg : s ∈ linked x C → segments (mem x) !! s = Some sg → next sg = None → base sg ≤ b →
  last C = Some s ∧ head_ (mem x) = s.
Proof.
  intros Hl Hsg Hn Hb. pose proof (last_unique _ x C b tb Hi s sg Hl Hsg Hn) as Hlast. split; [done|].
  pose proof Hlast as Hj. rewrite last_lookup in Hj. rewrite (not_later _ x C b tb Hi _ s sg HS Hj Hsg Hb) in Hj.
  pose proof (i_head _ _ _ _ _ Hi) as Hh. rewrite head_lookup in Hh. congruence.
Qed.

Lemma nothing_left s sg : s ∈ linked x C → segments (mem x) !! s = Some sg → next sg = None → base sg ≤ b →
  Nat.min (enq_pos sg) SegmentSize ≤ deq_pos sg → ∀ g v, (g, v) ∈ claimed x → g < front (mem x).
Proof.
  intros Hl Hsg Hn Hb Hle g v Hg. destruct (last_is_head s sg Hl Hsg Hn Hb) as [Hlast Hh].
  pose proof (i_end _ _ _ _ _ Hi g s sg ltac:(apply list_elem_of_fmap; by exists (g, v)) Hlast Hsg). unfold front. rewrite Hh, Hsg. lia.
Qed.

Lemma deq_enq m s d : calls x ≡ₚ Deq (DEnq m s d) :: rest → deq_keeps x (DEnq m s d) rest.
Proof.
  intros Hc weak. at_segment Hc. eexists _, _. split; [reflexivity|]. destruct (Nat.leb_spec (enq_pos sg) d).
  - split; [by eapply deq_read|]. intros _. destruct (i_seg _ _ _ _ _ Hi s sg Hl Hsg) as (_ & Hn & _).
    eapply nothing_left; [done|done|apply Hn; lia|done|lia].
  - split; [|done]. reads Hc. by split.
Qed.

Lemma deq_next m s : calls x ≡ₚ Deq (DNext m s) :: rest → deq_keeps x (DNext m s) rest.
Proof.
  intros Hc weak. at_segment Hc. eexists _, _. split; [reflexivity|]. destruct (next sg) as [nx|] eqn:Hn.
  - split; [|done]. reads Hc. by split.
  - split; [by eapply deq_read|]. intros _. eapply nothing_left; [done|done|done|done|lia].
Qed.

(** ** A claimed cell is done with *)

Lemma taken_calls m s i stop (got : list T) sg : base sg ≤ b → i < stop → stop ≤ SegmentSize → stop ≤ deq_pos sg →
  let cs := goes (taken m s i stop got) in
  cs ≫= works = [] ∧ cs ≫= takes = (λ k, (s, k)) <$> seq (S i) (stop - S i) ∧ cs ≫= owned = [] ∧
  ∀ c q, c ∈ cs → q ∈ held c → q = s ∧ call_ok SegmentSize tb b sg c.
Proof.
  intros Hb H1 H2 H3 cs. unfold cs, taken. destruct (Nat.ltb_spec (S i) stop).
  - split_and!; try done; [cbn; by rewrite app_nil_r|]. intros c q ->%list_elem_of_singleton ->%list_elem_of_singleton.
    split; [done|]. split; [done|]. lia.
  - replace (stop - S i) with 0 by lia. destruct got; split_and!; try done; intros c q Hin; [|by apply elem_of_nil in Hin].
    apply list_elem_of_singleton in Hin as ->. intros ->%list_elem_of_singleton. split; [done|]. by split.
Qed.

Lemma takes_next s i stop : i < stop → (λ k, (s, k)) <$> seq i (stop - i) = (s, i) :: ((λ k, (s, k)) <$> seq (S i) (stop - S i)).
Proof. intros. replace (stop - i) with (S (stop - S i)) by lia. done. Qed.

Lemma takes_other s i stop j : j ≠ i →
  (s, j) ∈ ((λ k, (s, k)) <$> seq i (stop - i)) ↔ (s, j) ∈ ((λ k, (s, k)) <$> seq (S i) (stop - S i)).
Proof. intros. rewrite !takes_elem. naive_solver lia. Qed.

(** The rest of a claim, once its first cell is done with. *)
Lemma takes_drop c s i stop : calls x ≡ₚ Deq c :: rest → takes (Deq c) = (λ k, (s, k)) <$> seq i (stop - i) → i < stop →
  (s, i) ∉ ((λ k, (s, k)) <$> seq (S i) (stop - S i)) ++ (rest ≫= takes) ∧ NoDup (((λ k, (s, k)) <$> seq (S i) (stop - S i)) ++ (rest ≫= takes)).
Proof.
  intros Hc Et Hlt. pose proof (takes_nodup _ _ _ _ _ _ _ Hi Hc) as Hnd. rewrite Et, takes_next in Hnd by done. by apply NoDup_cons in Hnd.
Qed.

Lemma deq_take m s i stop got : calls x ≡ₚ Deq (DTake m s i stop got) :: rest → deq_keeps x (DTake m s i stop got) rest.
Proof.
  intros Hc weak. at_segment Hc. at_cell i. destruct (state cc) eqn:Hst; eexists _, _; (split; [reflexivity|]).
  - split; [|done]. reads Hc. by split.
  - split; [|done]. reads Hc. split; [done|]. destruct Hok as (? & ? & ?). split_and!; [done..|]. by exists cc.
  - split.
    2: { intros E. unfold taken in E. case_match; [done|]. by destruct got. }
    destruct Hok as (H1 & H2 & H3). destruct (taken_calls m s i stop got sg Hb H1 H2 H3) as (Ew & Et & Eo & Hcs).
    destruct (takes_drop _ _ _ _ Hc eq_refl H1) as [Hfree Hnd].
    exists C, b, tb. unfold after_deq. cbn [new_handed]. rewrite app_nil_r, <- (set_segment_id (mem x) s sg Hsg).
    eapply (plain_inv SegmentSize x C b tb Hi HS _ _ rest Hc s eq_refl sg sg Hsg); try done.
    + by left.
    + rewrite Ew. exact (works_nodup _ _ _ _ _ _ _ Hi Hc).
    + by rewrite Et.
    + intros j cj Hj. pose proof (i_seg _ _ _ _ _ Hi s sg Hl Hsg) as (_ & _ & Hcells). destruct (decide (j = i)) as [->|Hne].
      * assert (cj = cc) as -> by congruence. pose proof (Hcells i cc Hcc) as Hold. unfold cell_inv, cell_ok in Hold |- *. rewrite Hst in *.
        cbn [on_segment claimed]. rewrite works_on, Ew, app_nil_r. destruct Hold as (? & ? & Hk & ? & ?). split_and!; try done.
        intros k Hin. apply (Hk k). rewrite (works_split x _ rest) by done. by right.
      * eapply (cell_same x _ _ _ _ sg sg _ _ _ _ Hc); [done|done|done| | |by intros ? ?%elem_of_nil|by intros ? ?%elem_of_nil|by apply Hcells].
        -- intros k. by rewrite Ew.
        -- rewrite Et. by apply takes_other.
Qed.

(** A value is handed out. *)
Lemma deq_consume m s i stop got : calls x ≡ₚ Deq (DConsume m s i stop got) :: rest → deq_keeps x (DConsume m s i stop got) rest.
Proof.
  intros Hc weak. at_segment Hc. destruct Hok as (H1 & H2 & H3 & (cc & Hcc & Hst)). rewrite (cell_at _ _ _ _ _ Hsg Hcc). orun.
  destruct (takes_drop _ _ _ _ Hc eq_refl H1) as [Hfree Hnd].
  assert (Hmine : (s, i) ∈ all_takes x) by (rewrite (takes_split x _ rest) by done; left; apply takes_elem; split; [done|lia]).
  pose proof (i_seg _ _ _ _ _ Hi s sg Hl Hsg) as (_ & _ & Hcells). pose proof (Hcells i cc Hcc) as Hold.
  unfold cell_inv, cell_ok in Hold. rewrite Hst in Hold. destruct Hold as (He & Hk & v & Hv & [(Hs & Hh & _)|(_ & _ & _ & ?)]); [|done].
  rewrite Hs. orun. rewrite (set_cell_ok _ _ _ _ _ _ Hsg Hcc). orun. eexists _, _. split; [reflexivity|].
  split; [|intros E; unfold taken in E; case_match; [done|]; by destruct got].
  set (sg' := {| sg with cells := _ |}). destruct (taken_calls m s i stop (got ++ [v]) sg' Hb H1 H2 H3) as (Ew & Et & Eo & Hcs).
  exists C, b, tb. unfold after_deq. cbn [new_handed]. rewrite Hsg, Hcc, Hs. cbn [option_list fmap list_fmap].
  rewrite <- (app_nil_r (claimed x)).
  eapply (on_segment_inv SegmentSize x C b tb Hi HS _ _ rest Hc s eq_refl sg sg' Hsg [] [(base sg + i, v)]); try done.
  - by eapply seg_le_cell.
  - by left.
  - by intros g w ?%elem_of_nil.
  - intros g w [= -> ->]%list_elem_of_singleton. split_and!; [lia|lia|done|done].
  - rewrite Ew. exact (works_nodup _ _ _ _ _ _ _ Hi Hc).
  - by rewrite Et.
  - apply (cells_update x (Deq (DConsume m s i stop got))); try done.
    + intros j k _. by rewrite Ew.
    + intros j Hne. rewrite Et. by apply takes_other.
    + by intros j w _ ?%elem_of_nil.
    + intros j w Hne [= Ej]%list_elem_of_singleton. lia.
    + unfold cell_inv, cell_ok. cbn [state storage]. rewrite Hst, works_on, takes_on, Ew, Et. cbn [on_segment claimed handed].
      rewrite app_nil_r, fmap_app. split_and!; [done| |].
      * intros k Hin. apply (Hk k). rewrite (works_split x _ rest) by done. by right.
      * exists v. split; [done|]. right. split_and!; [done| |cbn; lia|done]. rewrite elem_of_app. right. by apply list_elem_of_singleton.
  - apply SSorted_nil.
  - by intros g w ?%elem_of_nil.
  - apply NoDup_singleton.
Qed.

(** ** Cells are claimed *)

Lemma cell_claimed (E D D' : Prop) (K : work (T:=T) → Prop) (A A' : Prop) (V : T → Prop) (H : Prop) (cc : Cell T) :
  ¬ D → D' → A' → cell_ok E D K A V H cc → cell_ok E D' K A' V H cc.
Proof.
  intros HD HD' HA. unfold cell_ok. destruct (state cc).
  - intros (? & ? & _ & Hk). split_and!; [done..|]. intros HE. destruct (Hk HE) as (k & ? & Hm). exists k. split; [done|]. destruct k; [done..|]. tauto.
  - intros (? & ? & v & ? & Hr). split_and!; [done..|]. exists v. split; [done|]. tauto.
  - tauto.
Qed.

(** [deq_pos] moves on by [n], and the caller owns what lies between. *)
Lemma claim_inv c c' s sg n : calls x ≡ₚ Deq c :: rest → held (Deq c) = [s] → segments (mem x) !! s = Some sg → base sg ≤ b →
  works (Deq c) = [] → takes (Deq c) = [] → new_handed c (mem x) = [] →
  let pos := deq_pos sg in let sg' := {| sg with deq_pos := pos + n |} in
  works (Deq c') = [] → takes (Deq c') = (λ k, (s, k)) <$> seq pos (Nat.min (pos + n) SegmentSize - pos) → held (Deq c') = [s] →
  deq_ok SegmentSize b sg' c' → inv SegmentSize (after_deq x c rest (Goes c') (set_segment s sg' (mem x))).
Proof.
  intros Hc Hh Hsg Hb Ew Et Eh pos sg' Ew' Et' Hh' Hok. exists C, b, tb. unfold after_deq. rewrite Eh, app_nil_r.
  destruct (call_here _ x C b tb _ rest s Hi Hc Hh) as (Hl & _). pose proof (i_seg _ _ _ _ _ Hi s sg Hl Hsg) as (Hlen & _ & Hcells).
  pose proof (works_nodup _ _ _ _ _ _ _ Hi Hc) as Hnw. pose proof (takes_nodup _ _ _ _ _ _ _ Hi Hc) as Hnt. rewrite Ew in Hnw. rewrite Et in Hnt.
  assert (Ew2 : goes (Goes c') ≫= works = []) by (cbn [goes mbind list_bind]; by rewrite Ew').
  assert (Et2 : goes (Goes c') ≫= takes = takes (Deq c')) by (cbn [goes mbind list_bind]; by rewrite app_nil_r).
  eapply (plain_inv SegmentSize x C b tb Hi HS _ _ rest Hc s Hh sg sg' Hsg); try done.
  - intros d q ->%list_elem_of_singleton Hq. rewrite Hh' in Hq. apply list_elem_of_singleton in Hq as ->. done.
  - split_and!; cbn; try done; [lia|eauto].
  - by right.
  - by rewrite Ew2.
  - rewrite Et2, Et'. apply NoDup_app. split_and!; [apply NoDup_fmap_2; [congruence|apply NoDup_seq]| |done].
    intros [p i] [-> Hr]%takes_elem Hin. destruct (takes_bound _ x C b tb Hi s sg Hsg i); [|unfold pos in *; lia].
    rewrite (takes_split x _ rest) by done. by right.
  - intros i cc Hcc. cbn in Hcc. pose proof (lookup_lt_Some _ _ _ Hcc) as Hlt. pose proof (Hcells i cc Hcc) as Hold.
    destruct (decide (pos ≤ i < pos + n)) as [Hin|Hout].
    + unfold cell_inv in *. rewrite works_on, takes_on, Ew2, Et2, Et'. cbn [on_segment claimed handed sg' enq_pos deq_pos base]. rewrite !app_nil_r.
      eapply cell_claimed; [| | |eapply cell_ok_ext; [..|exact Hold]].
      * instantiate (1 := i < pos). lia.
      * lia.
      * apply elem_of_app. left. apply takes_elem. split; [done|lia].
      * done.
      * done.
      * intros k. rewrite (works_split x _ rest), Ew by done. split; [intros [?%elem_of_nil|?]; done|by right].
      * done.
      * done.
      * done.
    + eapply (cell_same x _ _ _ _ sg sg' _ _ _ _ Hc); cbn; [done|done| | | |by intros ? ?%elem_of_nil|by intros ? ?%elem_of_nil|done].
      * unfold pos in *. lia.
      * intros k. cbn in Ew, Ew'. by rewrite Ew, Ew'.
      * cbn in Et. rewrite Et, app_nil_r. cbn in Et'. rewrite Et', takes_elem. split; [by intros ?%elem_of_nil|lia].
Qed.

Lemma deq_cas m s d : calls x ≡ₚ Deq (DCas m s d) :: rest → deq_keeps x (DCas m s d) rest.
Proof.
  intros Hc weak. at_segment Hc. destruct Hok as [Hd Hf]. destruct (negb weak && (deq_pos sg =? d)) eqn:Hcas; eexists _, _; (split; [reflexivity|]); (split; [|done]).
  - apply andb_true_iff in Hcas as [_ <-%Nat.eqb_eq]. replace (S (deq_pos sg)) with (deq_pos sg + 1) by lia.
    eapply claim_inv; try done.
    + cbn [takes]. by replace (Nat.min (deq_pos sg + 1) SegmentSize) with (deq_pos sg + 1) by lia.
    + split; [done|]. cbn [deq_pos]. split_and!; [lia|lia|lia|done].
  - reads Hc. by split.
Qed.

Lemma deq_fetch m s ready : calls x ≡ₚ Deq (DFetch m s ready) :: rest → deq_keeps x (DFetch m s ready) rest.
Proof.
  intros Hc weak. at_segment Hc. eexists _, _. split; [reflexivity|]. split; [|by case_match].
  destruct (Nat.leb_spec SegmentSize (deq_pos sg)); eapply claim_inv; try done.
  - by replace (Nat.min (deq_pos sg + ready) SegmentSize - deq_pos sg) with 0 by lia.
  - split; [done|]. cbn. lia.
Qed.

(** ** Cells are killed *)

Lemma deq_take_cas m s i stop got e : calls x ≡ₚ Deq (DTakeCas m s i stop got e) :: rest → deq_keeps x (DTakeCas m s i stop got e) rest.
Proof.
  intros Hc weak. at_segment Hc. destruct Hok as (H1 & H2 & H3 & He).
  destruct (negb weak && (enq_pos sg =? e)) eqn:Hcas; eexists _, _; (split; [reflexivity|]); (split; [|done]); [|reads Hc; by split].
  apply andb_true_iff in Hcas as [_ <-%Nat.eqb_eq]. exists C, b, tb. unfold after_deq. cbn [new_handed goes]. rewrite app_nil_r.
  set (sg' := {| sg with enq_pos := S i |}). pose proof (i_seg _ _ _ _ _ Hi s sg Hl Hsg) as (Hlen & _ & Hcells).
  eapply (plain_inv SegmentSize x C b tb Hi HS _ [_] rest Hc s eq_refl sg sg' Hsg); try done.
  - intros d q ->%list_elem_of_singleton ->%list_elem_of_singleton. split; [done|]. split; [done|]. cbn. lia.
  - split_and!; cbn; try done; [lia|eauto].
  - by left.
  - cbn [mbind list_bind works]. rewrite app_nil_r, fmap_app. apply NoDup_app. split_and!; [| |exact (works_nodup _ _ _ _ _ _ _ Hi Hc)].
    + rewrite <- list_fmap_compose. apply NoDup_fmap_2; [intros ? ? [=]; done|apply NoDup_seq].
    + intros [p j] Hin Hin2. apply list_elem_of_fmap in Hin as (y & E & Hy). apply list_elem_of_fmap in Hy as (k & -> & Hk%elem_of_seq). injection E as -> ->.
      apply list_elem_of_fmap in Hin2 as ([[p j] w] & E & Hw). injection E as <- <-.
      destruct (works_bound _ x C b tb Hi s sg Hsg k w); [|lia]. rewrite (works_split x _ rest) by done. by right.
  - cbn [mbind list_bind]. rewrite app_nil_r. exact (takes_nodup _ _ _ _ _ _ _ Hi Hc).
  - intros j cc Hcc. cbn in Hcc. pose proof (Hcells j cc Hcc) as Hold. destruct (decide (enq_pos sg ≤ j < S i)) as [Hin|Hout].
    + unfold cell_inv, cell_ok in Hold |- *. cbn [sg' enq_pos deq_pos base on_segment handed claimed]. rewrite !app_nil_r.
      destruct (state cc); [|lia|lia]. destruct Hold as (Hh & [?|[Hs Hv]] & Hd & _); [lia|]. split_and!; [done|left; lia| |].
      * intros Hlt. apply Hd in Hlt. by rewrite (takes_split x _ rest), <- elem_of_app in Hlt by done.
      * intros _. exists Killing. rewrite works_on. split; [|split_and!; [lia|done|done]]. apply elem_of_app. left. cbn. rewrite app_nil_r.
        apply list_elem_of_fmap. exists j. split; [done|]. apply elem_of_seq. lia.
    + eapply (cell_same x _ _ _ _ sg sg' _ _ _ _ Hc); cbn; [done| |done| | |by intros ? ?%elem_of_nil|by intros ? ?%elem_of_nil|done].
      * lia.
      * intros k. rewrite app_nil_r. split; [by intros ?%elem_of_nil|]. intros (j' & [= <- _] & Hj%elem_of_seq)%list_elem_of_fmap. lia.
      * by rewrite app_nil_r.
Qed.

(** The call after a cell was marked dead. *)
Definition marked m s i stop (got : list T) (j : nat) : answer T :=
  if j <? i then Goes (DMark m s i stop got (S j)) else taken m s i stop got.

Lemma marked_calls m s i stop got j sg : base sg ≤ b → i < stop → stop ≤ SegmentSize → stop ≤ deq_pos sg → j ≤ i → i < enq_pos sg →
  let cs := goes (marked m s i stop got j) in
  cs ≫= works = (λ k, (s, k, Killing)) <$> seq (S j) (i - j) ∧
  cs ≫= takes = (if j <? i then (λ k, (s, k)) <$> seq i (stop - i) else (λ k, (s, k)) <$> seq (S i) (stop - S i)) ∧ cs ≫= owned = [] ∧
  ∀ c q, c ∈ cs → q ∈ held c → q = s ∧ call_ok SegmentSize tb b sg c.
Proof.
  intros Hb H1 H2 H3 H4 H5 cs. unfold cs, marked. destruct (Nat.ltb_spec j i).
  - split_and!; try done; [cbn; by rewrite app_nil_r..|]. intros c q ->%list_elem_of_singleton ->%list_elem_of_singleton.
    split; [done|]. split; [done|]. lia.
  - replace (i - j) with 0 by lia. by apply taken_calls.
Qed.

Lemma deq_mark m s i stop got j : calls x ≡ₚ Deq (DMark m s i stop got j) :: rest → deq_keeps x (DMark m s i stop got j) rest.
Proof.
  intros Hc weak. at_segment Hc. destruct Hok as (H1 & H2 & H3 & H4 & H5).
  assert (Ew0 : works (Deq (DMark m s i stop got j)) = (s, j, Killing) :: ((λ k, (s, k, Killing)) <$> seq (S j) (i - j)))
    by (cbn [works]; replace (S i - j) with (S (i - j)) by lia; done).
  destruct (worked_cell _ HS x C b tb Hi s sg j Killing Hl Hsg) as (cc & Hcc & Hst & Hh & Hd & Hlt & Hs & Hv).
  { rewrite (works_split x _ rest), Ew0 by done. left. set_solver. }
  rewrite (cell_at _ _ _ _ _ Hsg Hcc). orun. rewrite (set_cell_ok _ _ _ _ _ _ Hsg Hcc). orun.
  set (sg' := {| sg with cells := _ |}). exists (marked m s i stop got j), (set_segment s sg' (mem x)). split; [done|].
  split; [|intros E; unfold marked, taken in E; repeat case_match; done].
  destruct (marked_calls m s i stop got j sg' Hb H1 H2 H3 H4 H5) as (Ew & Et & Eo & Hcs).
  pose proof (works_nodup _ _ _ _ _ _ _ Hi Hc) as Hnw. rewrite Ew0 in Hnw. cbn [app] in Hnw. apply NoDup_cons in Hnw as [Hfree Hnw].
  pose proof (takes_nodup _ _ _ _ _ _ _ Hi Hc) as Hnt.
  exists C, b, tb. unfold after_deq. cbn [new_handed]. rewrite app_nil_r.
  eapply (plain_inv SegmentSize x C b tb Hi HS _ _ rest Hc s eq_refl sg sg' Hsg); try done.
  - eapply seg_le_cell; [done|]. by rewrite Hst.
  - by left.
  - by rewrite Ew.
  - rewrite Et. destruct (j <? i); [exact Hnt|]. by destruct (takes_drop _ _ _ _ Hc eq_refl H1) as [_ ?].
  - apply (cells_update x (Deq (DMark m s i stop got j))); try done.
    + apply (i_seg _ _ _ _ _ Hi s sg Hl Hsg).
    + intros j' k Hne. rewrite Ew, Ew0, elem_of_cons. naive_solver.
    + intros j' Hne. rewrite Et. destruct (Nat.ltb_spec j i); [done|]. apply takes_other. lia.
    + by intros ? ? _ ?%elem_of_nil.
    + by intros ? ? _ ?%elem_of_nil.
    + unfold cell_inv, cell_ok. cbn [state storage enq_pos deq_pos base on_segment claimed handed sg']. rewrite app_nil_r. split_and!; [lia|done| |done|done].
      intros k Hk. apply Hfree. rewrite works_on, Ew in Hk. apply list_elem_of_fmap. by exists (s, j, k).
Qed.

(** ** The head moves *)

Lemma move_head s nx sg : head_ (mem x) = s → segments (mem x) !! s = Some sg → next sg = Some nx → SegmentSize ≤ deq_pos sg →
  ∃ C', inv_with (mkSystem {| (mem x) with head_ := nx; retired := s :: retired (mem x) |} (calls x) (claimed x) (handed x)) C' (b + SegmentSize) tb.
Proof.
  intros Hh Hsg Hn Hd. pose proof (i_head _ _ _ _ _ Hi) as Hhead. rewrite Hh in Hhead.
  assert (∃ C', C = s :: nx :: C') as [C' EC].
  { pose proof (i_chain _ _ _ _ _ Hi 0 s) as H0. destruct C as [|c0 [|c1 C']]; [done|..]; injection Hhead as ->;
      destruct (H0 eq_refl) as (sg0 & ? & _ & Hn0 & _); assert (sg0 = sg) as -> by congruence; rewrite Hn in Hn0; cbn in Hn0; [done|injection Hn0 as ->; by eexists]. }
  exists (nx :: C'). destruct Hi as [_ Hnd Hch Hre Hap Hta Hse Hca Hwo Hto How Hfr Hso Hen Hha Hli]. rewrite EC in *. clear Hhead.
  set (x' := mkSystem _ _ _ _). assert (El : linked x' (nx :: C') ≡ₚ linked x (s :: nx :: C')) by (unfold linked; cbn; solve_Permutation).
  assert (Hin : ∀ p, p ∈ linked x' (nx :: C') ↔ p ∈ linked x (s :: nx :: C')) by (intros p; by rewrite El).
  destruct (Hch 0 s eq_refl) as (sg0 & ? & Hb0 & _). assert (sg0 = sg) as -> by congruence.
  split; try done; cbn [x' mem segments retired calls claimed handed].
  - by rewrite El.
  - intros j p Hj. destruct (Hch (S j) p Hj) as (sp & ? & Hbp & Hnp & Hdp). exists sp. split_and!; [done| |done|intros; apply Hdp; lia]. rewrite Hbp. cbn. lia.
  - intros p [->|Hp]%elem_of_cons.
    + exists sg. destruct (Hse s sg) as (_ & He & _); [set_solver|done|]. split_and!; [done|lia|done| |by exists nx].
      destruct (decide (enq_pos sg < SegmentSize)) as [Hlt|]; [|lia]. apply He in Hlt. congruence.
    + destruct (Hre p Hp) as (sp & ? & ? & ?). exists sp. split_and!; [done|lia|tauto..].
  - intros p p' sp sp' Hp Hp'. apply Hap; by apply Hin.
  - destruct Hta as (Ht & st & Hst & Hb & Hcase). split; [by apply Hin|]. exists st. split_and!; [done..|].
    destruct Hcase as [?|(n & ? & Hl & ?)]; [by left|right]. exists n. by split_and!.
  - intros p sp Hp. apply Hse. by apply Hin.
  - intros c p Hc Hp. destruct (Hca c p Hc Hp) as (? & sp & ? & Hok). split; [by apply Hin|]. exists sp. split; [done|].
    eapply call_ok_le; [reflexivity| |reflexivity|exact Hok]. lia.
  - intros c one s' fr vs Hc E. rewrite Hin. by eapply Hfr.
  - intros g v Hg Hnh. destruct (Hli g v Hg Hnh) as (p & sp & ? & ? & ?). exists p, sp. by rewrite Hin.
Qed.

Lemma deq_head m s nx : calls x ≡ₚ Deq (DHead m s nx) :: rest → deq_keeps x (DHead m s nx) rest.
Proof.
  intros Hc weak. at_segment Hc. destruct Hok as [Hd Hn]. eexists _, _. split; [reflexivity|]. split; [|done]. unfold after_deq. cbn [new_handed goes]. rewrite app_nil_r.
  case_bool_decide as Hh.
  - destruct (move_head s nx sg Hh Hsg Hn Hd) as [C' Hi']. exists C', (b + SegmentSize), tb.
    apply (calls_inv SegmentSize (mkSystem _ (calls x) (claimed x) (handed x)) C' _ _ [Deq (DHead m s nx)] [_] rest Hi' Hc); try done.
    + by intros ? ? ? [=]%list_elem_of_singleton.
    + by intros ? p ->%list_elem_of_singleton ?%elem_of_nil.
  - exists C, b, tb. apply (calls_inv SegmentSize x C b tb [Deq (DHead m s nx)] [_] rest Hi Hc); try done.
    + by intros ? ? ? [=]%list_elem_of_singleton.
    + by intros ? p ->%list_elem_of_singleton ?%elem_of_nil.
Qed.
End step.

(** Every step of a consumer succeeds and keeps the invariant. *)
Lemma deq_ok_step x c rest : inv SegmentSize x → calls x ≡ₚ Deq c :: rest → deq_keeps x c rest.
Proof.
  intros (C & b & tb & Hi) Hc. destruct c;
    [eapply deq_protect|eapply deq_load|eapply deq_state|eapply deq_scarce|eapply deq_scan|eapply deq_enq|eapply deq_cas|eapply deq_fetch
    |eapply deq_take|eapply deq_take_enq|eapply deq_take_cas|eapply deq_mark|eapply deq_consume|eapply deq_next|eapply deq_head]; done.
Qed.
End deq.
End SegmentedQueueDeq.
