(* ===== verification/SegmentedQueueCorrect.v ===== *)
(** The segmented queue under any interleaving of its calls and of the reclamation of
    retired segments: values come out once, in the order of the claims, no freed segment
    is touched, and a consumer leaves with nothing only when nothing is left. *)

From stdpp Require Import sorting.
From S2P Require Import Prelude SegmentedQueue SegmentedQueueInv SegmentedQueueSteps SegmentedQueueEnq SegmentedQueueDeq.

Module SegmentedQueueCorrect.
Import SegmentedQueue SegmentedQueueInv SegmentedQueueSteps SegmentedQueueEnq SegmentedQueueDeq.

Section correct.
Context {T : Type} (SegmentSize : nat) (HS : (0 < SegmentSize)%nat).
Local Open Scope nat_scope.
Abbreviation system := (SegmentedQueue.system T).
Abbreviation inv_with := (inv_with SegmentSize).
Abbreviation front := (front SegmentSize).
Implicit Types (x : system) (p s : ptr) (sg : Segment T) (C : list ptr).

(** * Every step keeps the invariant *)

Lemma segq_inv_init s : inv SegmentSize (init (T:=T) SegmentSize s).
Proof.
  assert (Hs : segments (mem (init (T:=T) SegmentSize s)) !! s = Some (Segment_new (T:=T) SegmentSize 0)) by apply lookup_singleton_eq.
  assert (Hl : ∀ p, p ∈ linked (init (T:=T) SegmentSize s) [s] ↔ p = s) by (intros p; unfold linked; cbn; by rewrite list_elem_of_singleton).
  exists [s], 0, 0. split; try done.
  - apply NoDup_singleton.
  - intros j p [-> <-]%list_lookup_singleton_Some. by exists (Segment_new (T:=T) SegmentSize 0).
  - by intros p ?%elem_of_nil.
  - intros p p' sg sg' ->%Hl ->%Hl. done.
  - split; [by apply Hl|]. exists (Segment_new (T:=T) SegmentSize 0). split_and!; [done|done|by left].
  - intros p sg ->%Hl Hsg. rewrite Hs in Hsg. injection Hsg as <-. split_and!; [apply length_replicate|done|].
    intros i cc [-> _]%lookup_replicate_1. unfold cell_inv, cell_ok. cbn. split_and!; [apply not_elem_of_nil| |lia|lia].
    right. split; [done|]. intros v. apply not_elem_of_nil.
  - by intros c p ?%elem_of_nil.
  - apply NoDup_nil_2.
  - apply NoDup_nil_2.
  - apply NoDup_nil_2.
  - by intros c one s' fr vs ?%elem_of_nil.
  - apply SSorted_nil.
  - by intros g p sg ?%elem_of_nil.
  - split; [apply NoDup_nil_2|]. by intros y ?%elem_of_nil.
  - by intros g v ?%elem_of_nil.
Qed.

Lemma segq_inv_start x c : inv SegmentSize x → held c = [] → works c = [] → takes c = [] → owned c = [] →
  inv SegmentSize {| x with calls := c :: calls x |}.
Proof.
  intros (C & b & tb & Hi) Hh Hw Ht Ho. exists C, b, tb. apply (calls_inv SegmentSize x C b tb [] [c] (calls x)); try done.
  - cbn [mbind list_bind]. by rewrite Hw.
  - cbn [mbind list_bind]. by rewrite Ht.
  - cbn [mbind list_bind]. by rewrite Ho.
  - intros ? ? ?. apply not_elem_of_nil.
  - intros c' p ->%list_elem_of_singleton Hp. rewrite Hh in Hp. by apply elem_of_nil in Hp.
Qed.

(** Every value of a retired segment nobody holds was handed out. *)
Lemma retired_done x C b tb s sg : inv_with x C b tb → s ∈ retired (mem x) → s ∉ (calls x ≫= held) → segments (mem x) !! s = Some sg →
  ∀ g v, (g, v) ∈ claimed x → base sg ≤ g < base sg + SegmentSize → g ∈ (handed x).*1.
Proof.
  intros Hi Hs Hh Hsg g v Hg Hr. assert (Hl : s ∈ linked x C) by (apply elem_of_app; by right).
  destruct (i_retired _ _ _ _ _ Hi s Hs) as (sg0 & ? & _ & Hd & He & _). assert (sg0 = sg) as -> by congruence.
  destruct (i_seg _ _ _ _ _ Hi s sg Hl Hsg) as (Hlen & _ & Hcells). destruct (lookup_lt_is_Some_2 (cells sg) (g - base sg)) as [cc Hcc]; [lia|].
  pose proof (Hcells _ cc Hcc) as Hok. unfold cell_inv, cell_ok in Hok. replace (base sg + (g - base sg)) with g in Hok by lia.
  assert (Hnt : (s, g - base sg) ∉ all_takes x).
  { intros (c & Hc & Hin)%list_elem_of_bind. apply takes_held in Hc. apply Hh, list_elem_of_bind. exists c. rewrite Hc. set_solver. }
  destruct (state cc).
  - destruct Hok as (_ & _ & Hd' & _). exfalso. apply Hnt, Hd'. lia.
  - destruct Hok as (_ & _ & w & _ & [(_ & _ & Hd')|(_ & ? & _)]); [|done]. exfalso. apply Hnt, Hd'. lia.
  - destruct Hok as (_ & _ & _ & Hv & _). by apply Hv in Hg.
Qed.

Lemma segq_inv_reclaim x s rest : inv SegmentSize x → retired (mem x) ≡ₚ s :: rest → s ∉ (calls x ≫= held) →
  inv SegmentSize {| x with mem := {| (mem x) with segments := delete s (segments (mem x)); retired := rest |} |}.
Proof.
  intros (C & b & tb & Hi) Hr Hh. exists C, b, tb. set (x' := mkSystem _ _ _ _).
  assert (Hs : s ∈ retired (mem x)) by (rewrite Hr; set_solver). pose proof (i_retired _ _ _ _ _ Hi s Hs) as (sg & Hsg & _ & _ & _ & [nx Hnx]).
  pose proof (retired_done x C b tb s sg Hi Hs Hh Hsg) as Hdone.
  assert (El : linked x C ≡ₚ s :: linked x' C) by (unfold linked; cbn; rewrite Hr; by rewrite Permutation_middle).
  destruct Hi as [Hhd Hnd Hch Hre Hap Hta Hse Hca Hwo Hto How Hfr Hso Hen Hha Hli]. rewrite El in Hnd. apply NoDup_cons in Hnd as [Hns Hnd].
  assert (Hin : ∀ p, p ∈ linked x' C → p ∈ linked x C ∧ segments (mem x') !! p = segments (mem x) !! p).
  { intros p Hp. split; [rewrite El; apply elem_of_cons; by right|]. cbn. rewrite lookup_delete_ne; [done|]. by intros ->. }
  assert (Hheld : ∀ c p, c ∈ calls x → p ∈ held c → p ≠ s).
  { intros c p Hc Hp ->. apply Hh, list_elem_of_bind. eauto. }
  assert (Hin' : ∀ p, p ∈ linked x C → p ≠ s → p ∈ linked x' C) by (intros p Hp Hne; rewrite El in Hp; apply elem_of_cons in Hp as [|]; done).
  split; try done.
  - intros j p Hj. destruct (Hin p) as [_ ->]; [apply elem_of_app; left; by eapply list_elem_of_lookup_2|]. by apply Hch.
  - intros p Hp. unfold retired_ok. destruct (Hin p) as [_ ->]; [apply elem_of_app; by right|]. apply Hre. rewrite Hr. apply elem_of_cons. by right.
  - intros p p' sp sp' Hp Hp'. destruct (Hin p Hp) as [? ->], (Hin p' Hp') as [? ->]. by apply Hap.
  - destruct Hta as (Ht & st & Hst & Hb & Hcase). assert (Hne : tail_ (mem x) ≠ s).
    { intros E. rewrite E in *. assert (st = sg) as -> by congruence. destruct Hcase as [?|(n & _ & _ & one & vs & Hc)]; [congruence|].
      apply (Hheld _ s Hc); [cbn; set_solver|done]. }
    destruct (Hin (tail_ (mem x)) (Hin' _ Ht Hne)) as [_ E]. split; [by apply Hin'|]. exists st. cbn in E |- *. by rewrite E.
  - intros p sp Hp. destruct (Hin p Hp) as [? ->]. by apply Hse.
  - intros c p Hc Hp. destruct (Hca c p Hc Hp) as (Hl & sp & ? & ?). pose proof (Hin' p Hl (Hheld c p Hc Hp)) as Hl'.
    destruct (Hin p Hl') as [_ ->]. eauto.
  - intros c one s' fr vs Hc E. destruct (Hfr c one s' fr vs Hc E) as (Hl & sp & Hsp & Hf). assert (fr ≠ s) by (intros ->; apply Hl; rewrite El; set_solver).
    split; [intros Hx; apply Hl; by apply Hin|]. exists sp. cbn. rewrite !lookup_delete_ne; [done|done|]. intros <-. by eapply (Hheld c s Hc); [subst c; cbn; set_solver|].
  - intros g p sp Hg Hl. destruct (Hin p) as [_ ->]; [apply elem_of_app; left; by apply last_Some_elem_of|]. by apply Hen.
  - intros g v Hg Hnh. destruct (Hli g v Hg Hnh) as (p & sp & Hp & Hsp & Hr'). assert (Hne : p ≠ s).
    { intros ->. assert (sp = sg) as -> by congruence. by apply Hnh, (Hdone g v). }
    pose proof (Hin' p Hp Hne) as Hp'. exists p, sp. destruct (Hin p Hp') as [_ ->]. done.
Qed.

Lemma segq_step_inv x x' : step SegmentSize x x' → inv SegmentSize x → inv SegmentSize x'.
Proof.
  intros [x0 v|x0 vs _|x0|x0 n _|x0 c rest fresh c' q Hc Hf Hq|x0 c rest weak a q Hc Hq|x0 s rest Hr Hh] Hi.
  - by apply segq_inv_start.
  - by apply segq_inv_start.
  - by apply segq_inv_start.
  - by apply segq_inv_start.
  - destruct (enq_ok_step _ HS x0 c rest Hi Hc fresh Hf) as (c'' & q' & Hq' & ?). rewrite Hq in Hq'. by simplify_eq.
  - destruct (deq_ok_step _ HS x0 c rest Hi Hc weak) as (a' & q' & Hq' & ? & _). rewrite Hq in Hq'. by simplify_eq.
  - by apply segq_inv_reclaim.
Qed.

Lemma segq_reachable_inv x : reachable SegmentSize x → inv SegmentSize x.
Proof. intros [s Hr]. pose proof (segq_inv_init s) as Hi. revert Hi. induction Hr; eauto using segq_step_inv. Qed.

(** * What waits *)

(** The values consumers have not claimed, in the order of their positions. *)
Definition waiting x : list (nat * T) := filter (λ y, front (mem x) ≤ y.1) (claimed x).
(** A consumer in flight has claimed the position. *)
Definition being_taken x (g : nat) : Prop := ∃ p i sg, (p, i) ∈ all_takes x ∧ segments (mem x) !! p = Some sg ∧ g = base sg + i.

Section facts.
Context x C b tb (Hi : inv_with x C b tb).

Lemma head_facts : ∃ sg, segments (mem x) !! head_ (mem x) = Some sg ∧ base sg = b ∧ C !! 0 = Some (head_ (mem x)) ∧ next sg = C !! 1
  ∧ front (mem x) = b + Nat.min (deq_pos sg) SegmentSize.
Proof.
  pose proof (i_head _ _ _ _ _ Hi) as Hh. rewrite head_lookup in Hh. destruct (i_chain _ _ _ _ _ Hi 0 _ Hh) as (sg & Hsg & Hb & Hn & _).
  exists sg. unfold SegmentedQueueDeq.front. rewrite Hsg. split_and!; [done|lia|done|done|lia].
Qed.

(** A position of a linked segment is in front of [front] exactly when it was claimed. *)
Lemma front_deq p sg i : p ∈ linked x C → segments (mem x) !! p = Some sg → i < SegmentSize → base sg + i < front (mem x) ↔ i < deq_pos sg.
Proof.
  intros Hp Hsg Hlt. destruct head_facts as (sh & Hsh & Hbh & H0 & _ & Hf). apply elem_of_app in Hp as [Hp|Hp].
  - apply list_elem_of_lookup in Hp as [j Hj]. destruct (i_chain _ _ _ _ _ Hi j p Hj) as (sg' & ? & Hb & _ & Hd). assert (sg' = sg) as -> by congruence.
    destruct j as [|j]; [assert (sh = sg) as -> by congruence; lia|]. rewrite Hd by lia. cbn in Hb. lia.
  - destruct (i_retired _ _ _ _ _ Hi p Hp) as (sg' & ? & ? & ? & _). assert (sg' = sg) as -> by congruence. lia.
Qed.

Lemma claimed_front g v : (g, v) ∈ claimed x → g ∉ (handed x).*1 → g < front (mem x) → being_taken x g.
Proof.
  intros Hg Hh Hf. destruct (i_live _ _ _ _ _ Hi g v Hg Hh) as (p & sg & Hp & Hsg & Hr).
  destruct (i_seg _ _ _ _ _ Hi p sg Hp Hsg) as (Hlen & _ & Hcells). destruct (lookup_lt_is_Some_2 (cells sg) (g - base sg)) as [cc Hcc]; [lia|].
  pose proof (front_deq p sg (g - base sg) Hp Hsg ltac:(lia)) as Hd. pose proof (Hcells _ cc Hcc) as Hok. unfold cell_inv, cell_ok in Hok.
  replace (base sg + (g - base sg)) with g in * by lia. exists p, (g - base sg), sg. split_and!; [|done|lia]. destruct (state cc).
  - destruct Hok as (_ & _ & Ha & _). apply Ha. tauto.
  - destruct Hok as (_ & _ & w & _ & [(_ & _ & Ha)|(_ & ? & _)]); [apply Ha; tauto|done].
  - destruct Hok as (_ & _ & _ & Hv & _). by apply Hv in Hg.
Qed.

(** The chain covers the positions from its base on. *)
Lemma chain_covers g v : b ≤ g → (g, v) ∈ claimed x → ∃ p sg, p ∈ linked x C ∧ segments (mem x) !! p = Some sg ∧ base sg ≤ g < base sg + SegmentSize.
Proof.
  intros Hg Hc. destruct head_facts as (_ & _ & _ & H0 & _). pose proof (lookup_lt_Some _ _ _ H0) as Hlen.
  destruct (lookup_lt_is_Some_2 C (Init.Nat.pred (length C))) as [l Hl]; [lia|]. destruct (i_chain _ _ _ _ _ Hi _ l Hl) as (sl & Hsl & Hbl & _).
  pose proof (i_end _ _ _ _ _ Hi g l sl ltac:(apply list_elem_of_fmap; by exists (g, v)) ltac:(by rewrite last_lookup) Hsl) as Hend.
  pose proof (Nat.div_mod (g - b) SegmentSize ltac:(lia)) as Hdm. pose proof (Nat.mod_upper_bound (g - b) SegmentSize ltac:(lia)) as Hmod.
  set (j := (g - b) / SegmentSize) in *. assert (Hj : j < length C).
  { destruct (decide (j < length C)) as [|Hge]; [done|]. assert (length C * SegmentSize ≤ j * SegmentSize) by (apply Nat.mul_le_mono_r; lia).
    destruct (length C) as [|n]; [lia|]. cbn in *. lia. }
  destruct (lookup_lt_is_Some_2 C j Hj) as [p Hp]. destruct (i_chain _ _ _ _ _ Hi j p Hp) as (sg & ? & Hb & _).
  exists p, sg. split; [apply elem_of_app; left; by eapply list_elem_of_lookup_2|]. split; [done|]. rewrite Hb, Nat.mul_comm. lia.
Qed.

Lemma handed_front g v : (g, v) ∈ handed x → g < front (mem x).
Proof.
  intros Hg. destruct head_facts as (sh & Hsh & Hbh & H0 & _ & Hf). destruct (decide (b ≤ g)) as [Hge|]; [|lia].
  pose proof (i_handed _ _ _ _ _ Hi) as [_ Hsub]. destruct (chain_covers g v Hge (Hsub _ Hg)) as (p & sg & Hp & Hsg & Hr).
  destruct (i_seg _ _ _ _ _ Hi p sg Hp Hsg) as (Hlen & _ & Hcells). destruct (lookup_lt_is_Some_2 (cells sg) (g - base sg)) as [cc Hcc]; [lia|].
  pose proof (front_deq p sg (g - base sg) Hp Hsg ltac:(lia)) as Hd. pose proof (Hcells _ cc Hcc) as Hok. unfold cell_inv, cell_ok in Hok.
  replace (base sg + (g - base sg)) with g in * by lia. apply Hd.
  assert (Hh : g ∈ (handed x).*1) by (apply list_elem_of_fmap; by exists (g, v)). destruct (state cc); tauto || naive_solver.
Qed.
End facts.

Lemma waiting_nil x : (∀ g v, (g, v) ∈ claimed x → g < front (mem x)) → waiting x = [].
Proof.
  intros H. apply elem_of_nil_inv. intros [g v] [Hf Hg]%list_elem_of_filter. apply H in Hg. cbn in Hf. lia.
Qed.

(** * Histories sorted by position *)

Definition key_lt (y z : nat * T) : Prop := y.1 < z.1.
#[local] Instance key_lt_antisym : AntiSymm (=) key_lt.
Proof. intros y z. unfold key_lt. lia. Qed.

Lemma sorted_pairs (ys : list (nat * T)) : StronglySorted lt ys.*1 → StronglySorted key_lt ys.
Proof.
  induction ys as [|z zs IH]; [intros; apply SSorted_nil|]. cbn. rewrite !StronglySorted_cons, !Forall_forall. intros [Ha Hs].
  split; [|by apply IH]. intros y Hy. apply Ha, list_elem_of_fmap. eauto.
Qed.

Lemma sorted_filter (P : nat * T → Prop) `{!∀ y, Decision (P y)} ys : StronglySorted key_lt ys → StronglySorted key_lt (filter P ys).
Proof.
  induction ys as [|z zs IH]; [done|]. rewrite StronglySorted_cons, filter_cons. intros [Ha Hs]. case_decide; [|by apply IH].
  apply StronglySorted_cons. split; [|by apply IH]. rewrite Forall_forall in *. intros y [_ Hy]%list_elem_of_filter. by apply Ha.
Qed.

Lemma sorted_keys (gs : list nat) : StronglySorted lt gs → NoDup gs.
Proof.
  induction gs as [|g gs IH]; [intros; apply NoDup_nil_2|]. rewrite StronglySorted_cons, Forall_forall. intros [Ha Hs]. apply NoDup_cons.
  split; [|by apply IH]. intros Hin. apply Ha in Hin. lia.
Qed.

Lemma keys_fun (ys : list (nat * T)) g v w : NoDup ys.*1 → (g, v) ∈ ys → (g, w) ∈ ys → v = w.
Proof.
  intros Hnd [i Hv]%list_elem_of_lookup [j Hw]%list_elem_of_lookup. assert (i = j) as ->; [|by simplify_eq].
  eapply NoDup_lookup; [exact Hnd|by rewrite list_lookup_fmap, Hv|by rewrite list_lookup_fmap, Hw].
Qed.

Lemma filter_same (P Q : nat * T → Prop) `{!∀ y, Decision (P y), !∀ y, Decision (Q y)} (ys : list (nat * T)) :
  (∀ y, y ∈ ys → P y ↔ Q y) → filter P ys = filter Q ys.
Proof.
  induction ys as [|y ys IH]; intros Hpq; [done|]. rewrite !filter_cons, IH by (intros; apply Hpq; by right).
  destruct (Hpq y ltac:(by left)). repeat case_decide; first [done|tauto].
Qed.

Lemma filter_true (P : nat * T → Prop) `{!∀ y, Decision (P y)} (ys : list (nat * T)) : (∀ y, y ∈ ys → P y) → filter P ys = ys.
Proof.
  induction ys as [|y ys IH]; intros Hp; [done|]. rewrite filter_cons_True by (apply Hp; by left). f_equal. apply IH. intros; apply Hp; by right.
Qed.

(** * Without calls in flight *)

Section quiet.
Context x C b tb (Hi : inv_with x C b tb) (Hq : calls x = []).

Lemma quiet_works y : y ∉ all_works x.
Proof. unfold all_works. rewrite Hq. apply not_elem_of_nil. Qed.
Lemma quiet_takes y : y ∉ all_takes x.
Proof. unfold all_takes. rewrite Hq. apply not_elem_of_nil. Qed.

(** The cells between the consumers and the producers are full. *)
Lemma quiet_cell p sg i : p ∈ linked x C → segments (mem x) !! p = Some sg → i < SegmentSize → deq_pos sg ≤ i → i < enq_pos sg →
  ∃ v, cells sg !! i = Some (mkCell kFull (Some v)) ∧ (base sg + i, v) ∈ claimed x.
Proof.
  intros Hp Hsg Hlt Hd He. destruct (i_seg _ _ _ _ _ Hi p sg Hp Hsg) as (Hlen & _ & Hcells).
  destruct (lookup_lt_is_Some_2 (cells sg) i) as [[st so] Hcc]; [lia|]. pose proof (Hcells _ _ Hcc) as Hok. unfold cell_inv, cell_ok in Hok. cbn in Hok.
  destruct st.
  - destruct Hok as (_ & _ & _ & Hk). destruct (Hk He) as (k & Hw & _). by apply quiet_works in Hw.
  - destruct Hok as (_ & _ & v & Hv & [(-> & _)|(_ & _ & ? & _)]); [|lia]. eauto.
  - lia.
Qed.

(** Consumers are not ahead of producers. *)
Lemma quiet_order p sg : p ∈ linked x C → segments (mem x) !! p = Some sg → Nat.min (deq_pos sg) SegmentSize ≤ enq_pos sg.
Proof.
  intros Hp Hsg. destruct (i_seg _ _ _ _ _ Hi p sg Hp Hsg) as (Hlen & _ & Hcells).
  destruct (decide (enq_pos sg < Nat.min (deq_pos sg) SegmentSize)) as [Hlt|]; [|lia].
  destruct (lookup_lt_is_Some_2 (cells sg) (enq_pos sg)) as [cc Hcc]; [lia|]. pose proof (Hcells _ _ Hcc) as Hok. unfold cell_inv, cell_ok in Hok.
  destruct (state cc); [|lia..]. destruct Hok as (_ & _ & Ha & _). exfalso. eapply quiet_takes, Ha. lia.
Qed.

Lemma quiet_tail : last C = Some (tail_ (mem x)).
Proof.
  destruct (i_tail _ _ _ _ _ Hi) as (Ht & sg & Hsg & _ & [Hn|(n & _ & _ & one & vs & Hc)]); [by eapply last_unique|].
  rewrite Hq in Hc. by apply elem_of_nil in Hc.
Qed.

Lemma destroy_cells_ok sg i n : (∀ k, k < n → ∃ v, cells sg !! (i + k) = Some (mkCell kFull (Some v)) ∧ (base sg + (i + k), v) ∈ claimed x) →
  ∃ l, destroy_cells (cells sg) i n = Done l.*2 ∧ l.*1 = seq (base sg + i) n ∧ ∀ y, y ∈ l → y ∈ claimed x.
Proof.
  revert i. induction n as [|n IH]; intros i Hall; cbn [destroy_cells].
  - exists []. split_and!; [done..|]. by intros y ?%elem_of_nil.
  - destruct (Hall 0) as (v & Hc & Hv); [lia|]. rewrite Nat.add_0_r in Hc, Hv. rewrite Hc. orun. rewrite bool_decide_true by done. cbn [storage]. orun.
    destruct (IH (S i)) as (l & Hl & Hk & Hsub).
    { intros k Hk. destruct (Hall (S k)) as (w & ? & ?); [lia|]. exists w. by replace (S i + k) with (i + S k) by lia. }
    rewrite Hl. orun. exists ((base sg + i, v) :: l). split_and!; [done|cbn; rewrite Hk; do 2 f_equal; lia|].
    intros y [->|Hy]%elem_of_cons; [done|by apply Hsub].
Qed.

(** Where the positions end. *)
Definition finish (sl : Segment T) : nat := base sl + Nat.min (enq_pos sl) SegmentSize.

Lemma destroy_segment p sg : p ∈ linked x C → segments (mem x) !! p = Some sg →
  let d := Nat.min (deq_pos sg) SegmentSize in let e := Nat.min (enq_pos sg) SegmentSize in
  ∃ l, destroy_cells (cells sg) d (e - d) = Done l.*2 ∧ l.*1 = seq (base sg + d) (e - d) ∧ ∀ y, y ∈ l → y ∈ claimed x.
Proof. intros Hp Hsg d e. apply destroy_cells_ok. intros k Hk. apply (quiet_cell p sg); try done; lia. Qed.

Lemma destroy_chain D : ∀ pre q p sg l sl, C = pre ++ D → (∀ p, p ∈ D → segments q !! p = segments (mem x) !! p) →
  head D = Some p → segments (mem x) !! p = Some sg → last D = Some l → segments (mem x) !! l = Some sl →
  let st := base sg + Nat.min (deq_pos sg) SegmentSize in
  st ≤ finish sl ∧ ∃ ys, destroy SegmentSize (length D) (head D) q = Done ys.*2 ∧ ys.*1 = seq st (finish sl - st) ∧ ∀ y, y ∈ ys → y ∈ claimed x.
Proof.
  induction D as [|p D IH]; intros pre q p0 sg l sl EC Hsame Hh Hsg Hl Hsl st; [done|]. injection Hh as <-.
  assert (Hp : p ∈ linked x C) by (rewrite EC; unfold linked; set_solver).
  assert (Hj : C !! length pre = Some p) by (rewrite EC; by apply list_lookup_middle).
  destruct (i_chain _ _ _ _ _ Hi _ p Hj) as (sg0 & ? & Hb & Hn & _). assert (sg0 = sg) as -> by congruence.
  destruct (destroy_segment p sg Hp Hsg) as (ys & Hys & Hk & Hsub). pose proof (quiet_order p sg Hp Hsg) as Hord.
  cbn [destroy length head]. unfold segment. rewrite (Hsame p) by set_solver. rewrite Hsg. orun. rewrite Hys. orun.
  destruct D as [|p2 D].
  - injection Hl as <-. assert (sl = sg) as -> by congruence. assert (next sg = None) as ->.
    { rewrite Hn, EC. apply lookup_ge_None. rewrite length_app. cbn. lia. }
    cbn [destroy length]. orun. split; [unfold finish, st; lia|]. exists ys. rewrite app_nil_r. split_and!; [done| |done]. rewrite Hk. unfold finish, st. f_equal. lia.
  - assert (Hj2 : C !! S (length pre) = Some p2) by (rewrite EC, (cons_middle p pre), app_assoc; apply list_lookup_middle; rewrite length_app; cbn; lia).
    rewrite Hn, Hj2. destruct (i_chain _ _ _ _ _ Hi _ p2 Hj2) as (sg2 & Hsg2 & Hb2 & _ & Hd2). rewrite last_cons_cons in Hl.
    destruct (IH (pre ++ [p]) {| q with segments := delete p (segments q) |} p2 sg2 l sl) as (Hle & ys2 & Hys2 & Hk2 & Hsub2); try done.
    { by rewrite <- app_assoc. }
    { intros p' Hp'. cbn. rewrite lookup_delete_ne; [apply Hsame; by right|]. intros <-.
      pose proof (i_nodup _ _ _ _ _ Hi) as (Hnd & _ & _)%NoDup_app. rewrite EC in Hnd. apply NoDup_app in Hnd as (_ & _ & [? _]%NoDup_cons). done. }
    cbn [head length] in Hys2 |- *. rewrite Hys2. orun. rewrite Hd2 in Hle, Hk2 by lia. rewrite Nat.min_0_l, Nat.add_0_r in Hle, Hk2.
    assert (He : SegmentSize ≤ enq_pos sg).
    { destruct (i_seg _ _ _ _ _ Hi p sg Hp Hsg) as (_ & He & _). destruct (decide (enq_pos sg < SegmentSize)) as [Hlt|]; [|lia].
      apply He in Hlt. congruence. }
    assert (Eb : base sg2 = base sg + SegmentSize) by (rewrite Hb2, Hb; cbn; lia). split; [unfold st; lia|].
    exists (ys ++ ys2). rewrite !fmap_app, Hk, Hk2. split_and!; [done| |intros y [?|?]%elem_of_app; auto].
    replace (finish sl - st) with (Nat.min (enq_pos sg) SegmentSize - Nat.min (deq_pos sg) SegmentSize + (finish sl - base sg2)) by (unfold st; lia).
    rewrite seq_app. do 2 f_equal. unfold st. lia.
Qed.

(** What the destructor finds is what waits. *)
Lemma quiet_waiting l sl : last C = Some l → segments (mem x) !! l = Some sl →
  front (mem x) ≤ finish sl ∧ destroy SegmentSize (length C) (Some (head_ (mem x))) (mem x) = Done (waiting x).*2 ∧
  (waiting x).*1 = seq (front (mem x)) (finish sl - front (mem x)).
Proof.
  intros Hl Hsl. destruct (head_facts x C b tb Hi) as (sh & Hsh & Hbh & H0 & _ & Hf). rewrite <- head_lookup in H0.
  destruct (destroy_chain C [] (mem x) _ sh l sl eq_refl ltac:(done) H0 Hsh Hl Hsl) as (Hle & ys & Hys & Hk & Hsub).
  rewrite Hbh, <- Hf in Hle, Hk. rewrite <- H0, Hys. assert (ys = waiting x) as ->; [|done].
  pose proof (i_sorted _ _ _ _ _ Hi) as Hso. pose proof (sorted_keys _ Hso) as Hnd.
  apply (StronglySorted_unique key_lt); [apply sorted_pairs; rewrite Hk; apply seq_sorted|by apply sorted_filter, sorted_pairs|].
  apply NoDup_Permutation; [apply (NoDup_fmap_1 fst); rewrite Hk; apply NoDup_seq|apply NoDup_filter, (NoDup_fmap_1 fst), Hnd|].
  intros [g v]. unfold waiting. rewrite list_elem_of_filter. cbn [fst]. split.
  - intros Hy. split; [|by apply Hsub]. assert (Hg : g ∈ ys.*1) by (apply list_elem_of_fmap; by exists (g, v)).
    rewrite Hk in Hg. apply elem_of_seq in Hg. lia.
  - intros [Hge Hg]. assert (Hg' : g ∈ (claimed x).*1) by (apply list_elem_of_fmap; by exists (g, v)).
    pose proof (i_end _ _ _ _ _ Hi g l sl Hg' Hl Hsl) as Hlt. fold (finish sl) in Hlt.
    assert (Hin : g ∈ ys.*1) by (rewrite Hk; apply elem_of_seq; lia). apply list_elem_of_fmap in Hin as ([g2 w] & -> & Hy). cbn in *.
    by rewrite (keys_fun _ g2 v w Hnd Hg (Hsub _ Hy)).
Qed.
End quiet.

(** * Calls with nobody else running *)

Lemma run_dequeue_more fuel n c (q : queue T) r : run_dequeue SegmentSize fuel c q = Done r → run_dequeue SegmentSize (fuel + n) c q = Done r.
Proof.
  revert c q. induction fuel as [|fuel IH]; intros c q; [done|]. cbn. destruct (dequeue_step SegmentSize false c q) as [[[c'|vs] q']| |]; orun; auto.
Qed.

(** The values a producer has not claimed yet. *)
Definition pending (c : enq_pc T) : list T :=
  match c with
  | EProtect _ vs | EFetch _ _ vs | ENext _ _ vs | EAlloc _ _ vs | ELink _ _ _ vs | ESwing _ _ _ vs => vs
  | EPublish _ _ _ _ _ rest | EFull _ _ _ _ _ rest => rest
  | ESwung one _ _ vs => if one then [] else vs
  end.
Definition is_one (c : enq_pc T) : bool :=
  match c with
  | EProtect one _ | EFetch one _ _ | EPublish one _ _ _ _ _ | EFull one _ _ _ _ _ | ENext one _ _ | EAlloc one _ _ | ELink one _ _ _
  | ESwung one _ _ _ | ESwing one _ _ _ => one
  end.

(** A step claims the first of them, in order. *)
Lemma pending_step fr c (q : queue T) c' q' : enqueue_step SegmentSize fr c q = Done (c', q') → is_one c = true → length (pending c) ≤ 1 →
  (new_claims SegmentSize c q).*2 ++ (c'' ← option_list c'; pending c'') = pending c ∧ ∀ c'', c' = Some c'' → is_one c'' = true.
Proof.
  destruct c as [one vs|one s vs|one s i v todo rs|one s i v todo rs|one s vs|one s vs|one s fr' vs|one s n vs|one s n vs]; cbn [enqueue_step is_one pending]; intros H -> Hlen.
  - simplify_eq. cbn. rewrite app_nil_r. naive_solver.
  - unfold segment in H. cbn [new_claims]. destruct (segments q !! s) as [sg|]; [|done]. orun in H.
    rewrite snd_zip by (rewrite length_seq; lia). pose proof (take_drop (SegmentSize - enq_pos sg) vs) as Htd.
    destruct (Nat.leb_spec SegmentSize (enq_pos sg)).
    + simplify_eq. replace (SegmentSize - enq_pos sg) with 0 by lia. cbn. rewrite app_nil_r. naive_solver.
    + destruct (take (SegmentSize - enq_pos sg) vs) as [|v todo] eqn:Eg; simplify_eq.
      * pose proof (length_take vs (SegmentSize - enq_pos sg)) as Hl. rewrite Eg in Hl. cbn in Hl. destruct vs; cbn in *; [done|lia].
      * split; [|naive_solver]. cbn in Htd |- *. by rewrite app_nil_r.
  - destruct (cell s i q); [|done..]. orun in H. destruct (set_cell _ _ _ q); [|done..]. orun in H. simplify_eq. cbn. rewrite app_nil_r. naive_solver.
  - destruct (cell s i q); [|done..]. orun in H. destruct (set_cell _ _ _ q); [|done..]. orun in H. simplify_eq.
    destruct todo, rs; cbn; rewrite ?app_nil_r; naive_solver.
  - destruct (segment s q) as [sg| |]; [|done..]. orun in H. destruct (next sg); simplify_eq; cbn; rewrite app_nil_r; naive_solver.
  - destruct (segment s q) as [sg| |]; [|done..]. orun in H. simplify_eq. cbn. rewrite app_nil_r. naive_solver.
  - unfold segment in H. cbn [new_claims]. destruct (segments q !! s) as [sg|]; [|done]. orun in H.
    destruct (next sg); [destruct (segments q !! fr'); [|done]; orun in H|]; simplify_eq; cbn; (split; [|naive_solver]).
    + rewrite app_nil_r. by destruct vs.
    + destruct vs as [|v [|]]; cbn in *; [done|done|lia].
  - simplify_eq. naive_solver.
  - simplify_eq. cbn. rewrite app_nil_r. naive_solver.
Qed.

(** A run of one call is a run of the machine. *)
Lemma run_enqueue_steps fuel c q' : ∀ x, calls x = [Enq c] → is_one c = true → length (pending c) ≤ 1 →
  run_enqueue SegmentSize fuel c (mem x) = Done q' →
  ∃ x' cl, rtc (step SegmentSize) x x' ∧ calls x' = [] ∧ mem x' = q' ∧ handed x' = handed x ∧ claimed x' = claimed x ++ cl ∧ cl.*2 = pending c.
Proof.
  revert c. induction fuel as [|fuel IH]; intros c x Hc Ho Hlen Hrun; [done|]. cbn in Hrun. set (fr := fresh (dom (segments (mem x)))) in *.
  assert (Hfr : segments (mem x) !! fr = None) by (apply not_elem_of_dom, is_fresh).
  destruct (enqueue_step SegmentSize fr c (mem x)) as [[c' q]| |] eqn:Hs; [|done..]. orun in Hrun.
  assert (Hstep : step SegmentSize x (after_enq SegmentSize x c [] c' q)) by (eapply step_enq; [by rewrite Hc|done|exact Hs]).
  destruct (pending_step _ _ _ _ _ Hs Ho Hlen) as [Hp Ho']. destruct c' as [c'|].
  - destruct (IH c' (after_enq SegmentSize x c [] (Some c') q)) as (x' & cl & Hr & H1 & H2 & H3 & H4 & H5); try done.
    + by apply Ho'.
    + cbn in Hp. rewrite app_nil_r in Hp. rewrite <- Hp, length_app in Hlen. lia.
    + exists x', (new_claims SegmentSize c (mem x) ++ cl). split_and!; [by eapply rtc_l|done..| |].
      * rewrite H4. cbn. by rewrite app_assoc.
      * rewrite fmap_app, H5. cbn in Hp. by rewrite app_nil_r in Hp.
  - simplify_eq. eexists _, _. split_and!; [by apply rtc_once|done..|]. cbn in Hp. by rewrite app_nil_r in Hp.
Qed.

(** What a consumer has taken so far. *)
Definition got_of (c : deq_pc T) : list T :=
  match c with
  | DTake _ _ _ _ got | DTakeEnq _ _ _ _ got | DTakeCas _ _ _ _ got _ | DMark _ _ _ _ got _ | DConsume _ _ _ _ got => got
  | _ => []
  end.

Lemma taken_got m s i stop (got : list T) : match taken m s i stop got with Goes c => got_of c | Returns vs => vs end = got.
Proof. unfold taken. destruct (S i <? stop); [done|]. by destruct got. Qed.

Lemma scanned_got n s d ready : got_of (scanned n s d ready) = [].
Proof. by destruct ready as [|[|]]. Qed.

Lemma got_step weak c (q : queue T) a q' : dequeue_step SegmentSize weak c q = Done (a, q') →
  match a with Goes c' => got_of c' | Returns vs => vs end = got_of c ++ (new_handed c q).*2.
Proof.
  destruct c as [m|m s|s d|s d|n s d ready|m s d|m s d|m s ready|m s i stop got|m s i stop got|m s i stop got e|m s i stop got j
                |m s i stop got|m s|m s nx]; cbn [dequeue_step got_of]; intros H.
  13: { unfold cell, segment in H. cbn [new_handed]. destruct (segments q !! s) as [sg|]; [|done]. orun in H. destruct (cells sg !! i) as [cc|]; [|done].
        orun in H. destruct (storage cc) as [v|]; [|done]. orun in H. destruct (set_cell _ _ _ q); [|done..]. orun in H. simplify_eq. apply taken_got. }
  all: cbn [new_handed]; cbn [fmap list_fmap]; rewrite ?app_nil_r.
  all: try (destruct (segment s q) as [sg| |]; [|done..]; orun in H).
  all: try (destruct (cell s _ q) as [cc| |] eqn:?; [|done..]; orun in H).
  all: try (destruct (set_cell _ _ _ q); [|done..]; orun in H).
  all: repeat case_bool; simplify_eq; try done; rewrite ?scanned_got, ?taken_got; try done.
  all: try (by destruct m).
  - destruct (cell s (d + ready) q); [|done..]. orun in H. simplify_eq. case_bool_decide; [done|apply scanned_got].
  - destruct (state cc); [done|done|apply taken_got].
  - by destruct (next sg).
Qed.

Lemma run_dequeue_steps fuel c vs q' : ∀ x, calls x = [Deq c] → run_dequeue SegmentSize fuel c (mem x) = Done (vs, q') →
  ∃ x' hd, rtc (step SegmentSize) x x' ∧ calls x' = [] ∧ mem x' = q' ∧ claimed x' = claimed x ∧ handed x' = handed x ++ hd ∧ vs = got_of c ++ hd.*2.
Proof.
  revert c. induction fuel as [|fuel IH]; intros c x Hc Hrun; [done|]. cbn in Hrun.
  destruct (dequeue_step SegmentSize false c (mem x)) as [[a q]| |] eqn:Hs; [|done..]. orun in Hrun.
  assert (Hstep : step SegmentSize x (after_deq x c [] a q)) by (eapply step_deq; [by rewrite Hc|exact Hs]).
  pose proof (got_step _ _ _ _ _ Hs) as Hg. destruct a as [c'|vs'].
  - destruct (IH c' (after_deq x c [] (Goes c') q)) as (x' & hd & Hr & H1 & H2 & H3 & H4 & H5); try done.
    exists x', (new_handed c (mem x) ++ hd). split_and!; [by eapply rtc_l|done..| |].
    + rewrite H4. cbn. by rewrite app_assoc.
    + rewrite H5, Hg, fmap_app. by rewrite app_assoc.
  - simplify_eq. eexists _, _. split_and!; [by apply rtc_once|done..].
Qed.

(** Without calls in flight, what waits is what was not handed out. *)
Lemma quiet_not_handed x : inv SegmentSize x → calls x = [] → waiting x = filter (λ y, y.1 ∉ (handed x).*1) (claimed x).
Proof.
  intros (C & b & tb & Hi) Hq. apply filter_same. intros [g v] Hg. cbn. split.
  - intros Hge ([g' w] & E & Hh)%list_elem_of_fmap. cbn in E. subst g'. pose proof (handed_front x C b tb Hi g w Hh). lia.
  - intros Hnh. destruct (decide (front (mem x) ≤ g)) as [|Hlt]; [done|].
    destruct (claimed_front x C b tb Hi g v Hg Hnh) as (p & i & sg & Ht & _); [lia|]. by apply (quiet_takes x Hq) in Ht.
Qed.

Local Ltac go := cbn [run_dequeue dequeue_step mbind outcome_bind deref].

(** [try_dequeue] alone, from a segment that is not exhausted. *)
Lemma solo_take (q : queue T) s sg v : segments q !! s = Some sg → length (cells sg) = SegmentSize → deq_pos sg < SegmentSize →
  cells sg !! deq_pos sg = Some (mkCell kFull (Some v)) → ∃ q', run_dequeue SegmentSize 6 (DLoad One s) q = Done ([v], q').
Proof.
  intros Hs Hlen Hd Hc. set (sg1 := {| sg with deq_pos := S (deq_pos sg) |}).
  assert (Hs1 : segments (set_segment s sg1 q) !! s = Some sg1) by (cbn; by rewrite lookup_insert_eq).
  assert (Hconsume : ∀ n stop, stop ≤ S (deq_pos sg) →
    ∃ q', run_dequeue SegmentSize (S n) (DConsume One s (deq_pos sg) stop []) (set_segment s sg1 q) = Done ([v], q')).
  { intros n stop Hst. go. rewrite (cell_at _ _ sg1 _ _ Hs1 Hc). go. cbn [storage]. go.
    rewrite (set_cell_ok _ _ sg1 _ _ _ Hs1 Hc). go. unfold taken. destruct (Nat.ltb_spec (S (deq_pos sg)) stop); [lia|]. by eexists. }
  assert (Hcas : ∀ n, ∃ q', run_dequeue SegmentSize (S (S n)) (DCas One s (deq_pos sg)) q = Done ([v], q')).
  { intros n. go. rewrite (segment_at _ _ _ Hs). go. rewrite Nat.eqb_refl. go. by apply Hconsume. }
  remember 4 as k4. go. rewrite (segment_at _ _ _ Hs). go.
  destruct (Nat.leb_spec SegmentSize (deq_pos sg)); [lia|]. go. rewrite (cell_at _ _ _ _ _ Hs Hc). go. cbn [state].
  rewrite bool_decide_false by tauto. go. subst k4. destruct (Nat.leb_spec SegmentSize (S (deq_pos sg))); [apply Hcas|].
  destruct (lookup_lt_is_Some_2 (cells sg) (S (deq_pos sg))) as [c2 Hc2]; [lia|]. remember 3 as k3. go.
  rewrite (cell_at _ _ _ _ _ Hs Hc2). go. subst k3. case_bool_decide; [apply Hcas|]. remember 2 as k2. go.
  rewrite (segment_at _ _ _ Hs). go. destruct (Nat.leb_spec SegmentSize (deq_pos sg)); [lia|]. subst k2.
  replace (deq_pos sg + 1) with (S (deq_pos sg)) by lia. fold sg1. remember 1 as k1. go.
  rewrite (cell_at _ _ sg1 _ _ Hs1 Hc). go. cbn [state]. subst k1. apply Hconsume. lia.
Qed.

Lemma solo_empty (q : queue T) s sg c : segments q !! s = Some sg → deq_pos sg < SegmentSize → enq_pos sg ≤ deq_pos sg →
  cells sg !! deq_pos sg = Some c → state c ≠ kFull → ∃ q', run_dequeue SegmentSize 6 (DLoad One s) q = Done ([], q').
Proof.
  intros Hs Hd He Hc Hst. go. rewrite (segment_at _ _ _ Hs). go.
  destruct (Nat.leb_spec SegmentSize (deq_pos sg)); [lia|]. go. rewrite (cell_at _ _ _ _ _ Hs Hc). go. rewrite bool_decide_true by done. go.
  rewrite (segment_at _ _ _ Hs). go. destruct (Nat.leb_spec (enq_pos sg) (deq_pos sg)); [|lia]. by eexists.
Qed.

(** Both: the value of the first unclaimed position, or nothing. *)
Lemma solo_load x C b tb (q : queue T) s sg : inv_with x C b tb → calls x = [] → s ∈ linked x C → segments (mem x) !! s = Some sg →
  segments q = segments (mem x) → deq_pos sg < SegmentSize →
  ∃ vs q', run_dequeue SegmentSize 6 (DLoad One s) q = Done (vs, q') ∧
  (vs = [] ∧ enq_pos sg ≤ deq_pos sg ∨ ∃ v, vs = [v] ∧ (base sg + deq_pos sg, v) ∈ claimed x).
Proof.
  intros Hi Hq Hl Hsg Eq Hd. destruct (i_seg _ _ _ _ _ Hi s sg Hl Hsg) as (Hlen & _ & Hcells). rewrite <- Eq in Hsg.
  destruct (decide (deq_pos sg < enq_pos sg)) as [Hlt|Hge].
  - destruct (quiet_cell x C b tb Hi Hq s sg (deq_pos sg)) as (v & Hc & Hv); [done|by rewrite <- Eq|lia|lia|done|].
    destruct (solo_take q s sg v Hsg Hlen Hd Hc) as [q' Hrun]. exists [v], q'. split; [done|]. right. eauto.
  - destruct (lookup_lt_is_Some_2 (cells sg) (deq_pos sg)) as [c Hc]; [lia|]. pose proof (Hcells _ _ Hc) as Hok. unfold cell_inv, cell_ok in Hok.
    destruct (solo_empty q s sg c Hsg Hd) as [q' Hrun]; [lia|done|intros E; rewrite E in Hok; lia|]. exists [], q'. split; [done|]. left. split; [done|lia].
Qed.

(** The value at the first unclaimed position is the first that waits. *)
Lemma first_waiting x C b tb s sg vs : inv_with x C b tb → calls x = [] → s ∈ linked x C → segments (mem x) !! s = Some sg →
  base sg + deq_pos sg = front (mem x) → deq_pos sg < SegmentSize →
  (vs = [] ∧ enq_pos sg ≤ deq_pos sg ∨ ∃ v, vs = [v] ∧ (base sg + deq_pos sg, v) ∈ claimed x) → vs = option_list (head (waiting x).*2).
Proof.
  intros Hi Hq Hs Hsg Ef Hlt Hcase. pose proof (quiet_tail x C b tb Hi Hq) as Htl.
  destruct (last_facts SegmentSize HS x C b tb Hi _ Htl) as (_ & sl & Hsl & _). destruct (quiet_waiting x C b tb Hi Hq _ sl Htl Hsl) as (Hle & _ & Hk).
  destruct Hcase as [(-> & He)|(v & -> & Hv)].
  - destruct (i_seg _ _ _ _ _ Hi s sg Hs Hsg) as (_ & Hn & _). pose proof (last_unique _ x C b tb Hi s sg Hs Hsg (Hn ltac:(lia))) as Hl.
    rewrite (waiting_nil x); [done|]. intros g v Hg.
    pose proof (i_end _ _ _ _ _ Hi g _ sg ltac:(apply list_elem_of_fmap; by exists (g, v)) Hl Hsg). lia.
  - rewrite Ef in Hv. assert (Hw : (front (mem x), v) ∈ waiting x) by (apply list_elem_of_filter; split; [cbn; lia|done]).
    assert (Hsub : ∀ y, y ∈ waiting x → y ∈ claimed x) by (intros y [_ ?]%list_elem_of_filter; done).
    destruct (waiting x) as [|[g w] ws]; [by apply elem_of_nil in Hw|]. assert (g = front (mem x)) as ->.
    { cbn in Hk. destruct (finish sl - front (mem x)); cbn in Hk; by simplify_eq. }
    cbn. f_equal. apply (keys_fun (claimed x) (front (mem x)) v w (sorted_keys _ (i_sorted _ _ _ _ _ Hi)) Hv). apply Hsub. by left.
Qed.

(** [try_dequeue] alone answers what waits first. *)
Lemma solo_try_dequeue x : inv SegmentSize x → calls x = [] →
  ∃ q', try_dequeue SegmentSize (mem x) = Done (option_list (head (waiting x).*2), q').
Proof.
  intros (C & b & tb & Hi) Hq. destruct (head_facts x C b tb Hi) as (sh & Hsh & Hbh & H0 & Hnx & Hf).
  assert (Hhead : head_ (mem x) ∈ linked x C) by (apply elem_of_app; left; by eapply list_elem_of_lookup_2).
  unfold try_dequeue. destruct (decide (deq_pos sh < SegmentSize)) as [Hd|Hd].
  - destruct (solo_load x C b tb (mem x) _ sh Hi Hq Hhead Hsh eq_refl Hd) as (vs & q' & Hrun & Hres). exists q'.
    rewrite <- (first_waiting x C b tb _ sh vs Hi Hq Hhead Hsh) by (done || lia). exact (run_dequeue_more 6 4 _ _ _ Hrun).
  - assert (Hload : ∀ n c, run_dequeue SegmentSize (S (S n)) (DLoad c (head_ (mem x))) (mem x) =
      match next sh with Some nx => run_dequeue SegmentSize n (DHead c (head_ (mem x)) nx) (mem x) | None => Done ([], mem x) end).
    { intros n c. cbn [run_dequeue dequeue_step]. rewrite (segment_at _ _ _ Hsh). orun. destruct (Nat.leb_spec SegmentSize (deq_pos sh)); [|lia].
      cbn [mbind outcome_bind dequeue_step]. rewrite (segment_at _ _ _ Hsh). orun. by destruct (next sh). }
    change (run_dequeue SegmentSize 11 (DProtect One) (mem x)) with (run_dequeue SegmentSize 10 (DLoad One (head_ (mem x))) (mem x)). rewrite Hload.
    destruct (next sh) as [nx|] eqn:En.
    + symmetry in Hnx. destruct (i_chain _ _ _ _ _ Hi 1 nx Hnx) as (sn & Hsn & Hbn & _ & Hdn). specialize (Hdn ltac:(lia)).
      assert (Hnl : nx ∈ linked x C) by (apply elem_of_app; left; by eapply list_elem_of_lookup_2).
      set (q1 := {| (mem x) with head_ := nx; retired := head_ (mem x) :: retired (mem x) |}).
      destruct (solo_load x C b tb q1 nx sn Hi Hq Hnl Hsn eq_refl) as (vs & q' & Hrun & Hres); [lia|]. exists q'.
      rewrite <- (first_waiting x C b tb nx sn vs Hi Hq Hnl Hsn) by (done || lia). rewrite <- Hrun.
      remember 6 as k6. cbn [run_dequeue dequeue_step]. rewrite bool_decide_true by done. done.
    + eexists. rewrite (waiting_nil x); [done|].
      apply (nothing_left SegmentSize HS x C b tb Hi (head_ (mem x)) sh); [done|done|done|lia|lia].
Qed.

(** [enqueue] alone returns. *)
Lemma solo_enqueue x v : inv SegmentSize x → calls x = [] → ∃ q', enqueue SegmentSize v (mem x) = Done q'.
Proof.
  intros (C & b & tb & Hi) Hq. pose proof (quiet_tail x C b tb Hi Hq) as Htl.
  destruct (last_facts SegmentSize HS x C b tb Hi _ Htl) as (Hl & sg & Hsg & Hn & _). destruct (i_seg _ _ _ _ _ Hi _ sg Hl Hsg) as (Hlen & _).
  set (s := tail_ (mem x)) in *. set (sg1 := {| sg with enq_pos := enq_pos sg + 1 |}). set (q1 := set_segment s sg1 (mem x)).
  assert (Hs1 : segments q1 !! s = Some sg1) by (cbn; by rewrite lookup_insert_eq).
  unfold enqueue. remember 4 as k4. cbn [run_enqueue enqueue_step mbind outcome_bind]. fold s. rewrite (segment_at _ _ _ Hsg). orun. cbn [length]. fold sg1. fold q1. subst k4.
  destruct (Nat.leb_spec SegmentSize (enq_pos sg)) as [Hfull|Hroom].
  - orun. set (fr := fresh (dom (segments q1))). remember 1 as k1. cbn [run_enqueue enqueue_step mbind outcome_bind]. rewrite (segment_at _ _ _ Hs1). orun. cbn [next sg1].
    rewrite Hn. cbn [enqueue_step mbind outcome_bind]. rewrite (segment_at _ _ _ Hs1). orun. fold fr.
    assert (Hne : fr ≠ s). { intros E. pose proof (is_fresh (dom (segments q1))) as Hf. fold fr in Hf. rewrite E in Hf. apply Hf. apply elem_of_dom. by exists sg1. }
    cbn [enqueue_step mbind outcome_bind]. rewrite (segment_at (set_segment fr _ q1) s sg1) by (rewrite <- Hs1; exact (lookup_insert_ne _ _ _ _ Hne)). orun. cbn [next sg1]. rewrite Hn. orun. subst k1. by eexists.
  - replace (take (SegmentSize - enq_pos sg) [v]) with [v] by (by rewrite take_ge by (cbn; lia)).
    destruct (lookup_lt_is_Some_2 (cells sg1) (enq_pos sg)) as [c Hc]; [cbn; lia|]. orun.
    replace (drop (SegmentSize - enq_pos sg) [v]) with (@nil T) by (by rewrite drop_ge by (cbn; lia)).
    remember 2 as k2. cbn [run_enqueue enqueue_step mbind outcome_bind]. rewrite (cell_at _ _ _ _ _ Hs1 Hc). orun. rewrite (set_cell_ok _ _ _ _ _ _ Hs1 Hc). orun.
    set (sg2 := {| sg1 with cells := _ |}). assert (Hs2 : segments (set_segment s sg2 q1) !! s = Some sg2) by (cbn; by rewrite lookup_insert_eq).
    destruct (lookup_lt_is_Some_2 (cells sg2) (enq_pos sg)) as [c2 Hc2]; [cbn; rewrite length_insert; lia|].
    cbn [enqueue_step mbind outcome_bind]. rewrite (cell_at _ _ _ _ _ Hs2 Hc2). orun. rewrite (set_cell_ok _ _ _ _ _ _ Hs2 Hc2). orun. by eexists.
Qed.

(** ** The two together with the histories *)

Lemma reachable_steps x x' : reachable SegmentSize x → rtc (step SegmentSize) x x' → reachable SegmentSize x'.
Proof. intros [s ?] ?. exists s. by etrans. Qed.

(** What the queue holds, as the destructor finds it. *)
Definition contents (q : queue T) (vs : list T) : Prop := ∃ n, destroy SegmentSize n (Some (head_ q)) q = Done vs.

Lemma contents_waiting x : inv SegmentSize x → calls x = [] → contents (mem x) (waiting x).*2 ∧ size_relaxed SegmentSize (mem x) = Done (length (waiting x)).
Proof.
  intros (C & b & tb & Hi) Hq. pose proof (quiet_tail x C b tb Hi Hq) as Htl.
  destruct (last_facts SegmentSize HS x C b tb Hi _ Htl) as (_ & sl & Hsl & _). destruct (quiet_waiting x C b tb Hi Hq _ sl Htl Hsl) as (Hle & Hd & Hk).
  split; [by eexists|]. destruct (head_facts x C b tb Hi) as (sh & Hsh & Hbh & _ & _ & Hf). unfold size_relaxed.
  rewrite (segment_at _ _ _ Hsh), (segment_at _ _ _ Hsl). orun. rewrite Hbh, <- Hf. fold (finish sl). rewrite <- (length_fmap fst (waiting x)), Hk, length_seq.
  f_equal. destruct (Nat.ltb_spec (front (mem x)) (finish sl)); lia.
Qed.

Lemma after_enqueue x v q' : reachable SegmentSize x → calls x = [] → enqueue SegmentSize v (mem x) = Done q' → contents q' ((waiting x).*2 ++ [v]).
Proof.
  intros Hr Hq Hrun. pose proof (segq_reachable_inv x Hr) as Hi.
  destruct (run_enqueue_steps 6 (EProtect true [v]) q' {| x with calls := [Enq (EProtect true [v])] |}) as (x' & cl & Hsteps & Hq' & Hm & Hh & Hc & Hp); try done.
  assert (Hr' : reachable SegmentSize x').
  { eapply reachable_steps; [exact Hr|]. eapply rtc_l; [|exact Hsteps]. pose proof (step_enqueue SegmentSize x v) as Hst. by rewrite Hq in Hst. }
  pose proof (segq_reachable_inv x' Hr') as Hi'. rewrite <- Hm. replace ((waiting x).*2 ++ [v]) with (waiting x').*2; [by apply contents_waiting|].
  rewrite (quiet_not_handed x' Hi' Hq'), (quiet_not_handed x Hi Hq), Hc, Hh. cbn [claimed handed pending] in *. rewrite filter_app, fmap_app, <- Hp. f_equal. f_equal.
  destruct Hi' as (C & b & tb & Hi'). destruct Hi as (C0 & b0 & tb0 & Hi). pose proof (sorted_keys _ (i_sorted _ _ _ _ _ Hi')) as Hnd. rewrite Hc, fmap_app in Hnd.
  apply NoDup_app in Hnd as (_ & Hdis & _). apply filter_true. intros y Hy ([g w] & E & Hin)%list_elem_of_fmap.
  apply (Hdis y.1); [|apply list_elem_of_fmap; eauto]. rewrite E. apply list_elem_of_fmap. exists (g, w). split; [done|]. by apply (i_handed _ _ _ _ _ Hi).
Qed.

Lemma waiting_first x y ws : inv SegmentSize x → waiting x = y :: ws → ∀ z, z ∈ ws → y.1 < z.1.
Proof.
  intros (C & b & tb & Hi) Ew z Hz. pose proof (sorted_filter (λ y, front (mem x) ≤ y.1) _ (sorted_pairs _ (i_sorted _ _ _ _ _ Hi))) as Hso.
  fold (waiting x) in Hso. rewrite Ew in Hso. apply StronglySorted_cons in Hso as [Ha _]. rewrite Forall_forall in Ha. by apply Ha.
Qed.

Lemma after_try_dequeue x vs q' : reachable SegmentSize x → calls x = [] → vs = option_list (head (waiting x).*2) →
  try_dequeue SegmentSize (mem x) = Done (vs, q') → contents q' (tail (waiting x).*2).
Proof.
  intros Hr Hq Hvs Hrun. pose proof (segq_reachable_inv x Hr) as Hi.
  destruct (run_dequeue_steps 11 (DProtect One) vs q' {| x with calls := [Deq (DProtect One)] |}) as (x' & hd & Hsteps & Hq' & Hm & Hc & Hh & Hp); try done.
  assert (Hr' : reachable SegmentSize x').
  { eapply reachable_steps; [exact Hr|]. eapply rtc_l; [|exact Hsteps]. pose proof (step_try_dequeue SegmentSize x) as Hst. by rewrite Hq in Hst. }
  pose proof (segq_reachable_inv x' Hr') as Hi'. rewrite <- Hm. replace (tail (waiting x).*2) with (waiting x').*2; [by apply contents_waiting|].
  assert (Hw : waiting x' = filter (λ y, y.1 ∉ hd.*1) (waiting x)).
  { rewrite (quiet_not_handed x' Hi' Hq'), (quiet_not_handed x Hi Hq), Hc, Hh. cbn [claimed handed]. rewrite list_filter_filter. apply filter_same.
    intros y _. rewrite fmap_app, elem_of_app. tauto. }
  cbn in Hp. destruct Hi' as (C & b & tb & Hi').
  destruct (waiting x) as [|[g v] ws] eqn:Ew; [by rewrite Hw|]. pose proof (waiting_first x _ ws Hi Ew) as Hfirst. cbn in Hvs. rewrite Hvs in Hp. destruct hd as [|[g' v'] [|]]; simplify_eq/=.
  assert (g' = g) as ->.
  { destruct (decide (g' = g)) as [|Hne]; [done|exfalso]. pose proof (handed_front x' C b tb Hi' g' v' ltac:(rewrite Hh; set_solver)) as Hlt.
    assert (Hin : (g, v') ∈ waiting x') by (rewrite Hw; apply list_elem_of_filter; split; [cbn; set_solver|by left]).
    apply list_elem_of_filter in Hin as [Hge _]. cbn in Hge. assert (Hgg : (g', v') ∈ waiting x).
    { rewrite (quiet_not_handed x Hi Hq). apply list_elem_of_filter. pose proof (i_handed _ _ _ _ _ Hi') as [Hnh Hsub]. rewrite Hh in Hnh. cbn in Hnh.
      rewrite fmap_app in Hnh. apply NoDup_app in Hnh as (_ & Hdis & _). split; [intros Hx; apply (Hdis _ Hx); set_solver|].
      specialize (Hsub (g', v') ltac:(rewrite Hh; set_solver)). by rewrite Hc in Hsub. }
    rewrite Ew in Hgg. apply elem_of_cons in Hgg as [?|Hgg]; [by simplify_eq|]. apply Hfirst in Hgg. cbn in Hgg. lia. }
  rewrite Hw, filter_cons_False by (cbn; set_solver). f_equal. apply filter_true. intros y Hy [= Ey]%list_elem_of_singleton.
  apply Hfirst in Hy. cbn in Hy. lia.
Qed.

(** C19: [SegmentedMPMCQueue] under any interleaving of [enqueue], [enqueue_bulk],
    [try_dequeue] and [try_dequeue_bulk] with the reclamation of retired segments.  No
    step of any call touches a freed segment or reads a cell that holds no value.
    Producers obtain positions in increasing order.  What consumers took are claimed
    values, each position once.  Every value in front of the consumers' position was
    taken or is being taken by a call in flight, and nothing behind it was taken: values
    come out in the order of the claims, none is lost and none comes twice.  A consumer
    leaves with nothing only when no value waits. *)
Theorem segmented_queue_correct x : reachable SegmentSize x →
  (∀ c fresh, Enq c ∈ calls x → segments (mem x) !! fresh = None → ∃ r, enqueue_step SegmentSize fresh c (mem x) = Done r) ∧
  (∀ c weak, Deq c ∈ calls x → ∃ a q, dequeue_step SegmentSize weak c (mem x) = Done (a, q) ∧ (a = Returns [] → waiting x = [])) ∧
  StronglySorted lt (claimed x).*1 ∧
  NoDup (handed x).*1 ∧ (∀ g v, (g, v) ∈ handed x → (g, v) ∈ claimed x ∧ g < front (mem x)) ∧
  (∀ g v, (g, v) ∈ claimed x → g < front (mem x) → (g, v) ∈ handed x ∨ being_taken x g).
Proof.
  intros Hr. pose proof (segq_reachable_inv x Hr) as Hinv. pose proof Hinv as (C & b & tb & Hi). destruct (i_handed _ _ _ _ _ Hi) as [Hnh Hsub]. split_and!.
  - intros c fr [rest Hc]%elem_of_Permutation Hfr. destruct (enq_ok_step _ HS x c rest Hinv Hc fr Hfr) as (c' & q & Hq & _). by eexists.
  - intros c weak [rest Hc]%elem_of_Permutation. destruct (deq_ok_step _ HS x c rest Hinv Hc weak) as (a & q & Hq & _ & He).
    exists a, q. split; [done|]. intros Ha. by apply waiting_nil, He.
  - apply (i_sorted _ _ _ _ _ Hi).
  - done.
  - intros g v Hg. split; [by apply Hsub|]. by eapply handed_front.
  - intros g v Hg Hf. destruct (decide (g ∈ (handed x).*1)) as [Hin|Hn]; [left|right; by eapply claimed_front].
    apply list_elem_of_fmap in Hin as ([g' w] & -> & Hin). cbn in *. pose proof (sorted_keys _ (i_sorted _ _ _ _ _ Hi)) as Hnd.
    by rewrite (keys_fun _ g' v w Hnd Hg (Hsub _ Hin)).
Qed.

(** C20: [SegmentedMPMCQueue] with no call in flight is a list, whatever happened before:
    there is a sequence of values, which the destructor would find and whose length
    [size_relaxed] answers, such that [enqueue], run alone, returns and adds its value at
    the end, and [try_dequeue], run alone, returns, takes the first value or answers that
    there is none, and leaves the rest. *)
Theorem segmented_queue_is_a_list x : reachable SegmentSize x → calls x = [] →
  ∃ vs, contents (mem x) vs ∧ size_relaxed SegmentSize (mem x) = Done (length vs) ∧
  (∀ v, ∃ q, enqueue SegmentSize v (mem x) = Done q ∧ contents q (vs ++ [v])) ∧
  (∃ q, try_dequeue SegmentSize (mem x) = Done (option_list (head vs), q) ∧ contents q (tail vs)).
Proof.
  intros Hr Hq. pose proof (segq_reachable_inv x Hr) as Hi. destruct (contents_waiting x Hi Hq) as [Hc Hs]. exists (waiting x).*2.
  split_and!; [done|by rewrite length_fmap| |].
  - intros v. destruct (solo_enqueue x v Hi Hq) as [q He]. exists q. split; [done|]. by eapply after_enqueue.
  - destruct (solo_try_dequeue x Hi Hq) as [q Hd]. exists q. split; [done|]. by eapply after_try_dequeue.
Qed.
End correct.

(** A producer between the claim of its cell and the value, and a consumer behind it. *)
Definition in_flight : SegmentedQueue.system nat :=
  mkSystem (mkQueue {[ 1%positive := mkSegment 1 0 None 0 [mkCell kEmpty None; mkCell kEmpty None] ]} 1 1 [])
    [Deq (DLoad One 1); Enq (EPublish true 1 0 7%nat [] [])] [(0, 7)%nat] [].

Lemma in_flight_reachable : reachable 2 in_flight.
Proof.
  exists 1%positive. eapply rtc_l; [apply (step_enqueue 2 _ 7%nat)|]. cbn.
  do 2 (eapply rtc_l; [eapply (step_enq 2 _ _ _ 2%positive); [cbn; reflexivity|reflexivity|reflexivity]|]; cbn).
  eapply rtc_l; [apply step_try_dequeue|]. cbn.
  eapply rtc_l; [eapply (step_deq 2 _ _ _ false); [cbn; reflexivity|reflexivity]|]. cbn.
  match goal with |- rtc _ ?s ?t => replace s with t by (vm_compute; reflexivity) end. apply rtc_refl.
Qed.

Lemma segmented_queue_correct_witness : ∃ a q, dequeue_step 2 false (DLoad One 1) (mem in_flight) = Done (a, q) ∧ a ≠ Returns [].
Proof.
  destruct (segmented_queue_correct 2 ltac:(lia) in_flight in_flight_reachable) as (_ & Hd & _).
  destruct (Hd (DLoad One 1) false) as (a & q & Hq & He); [cbn; apply elem_of_cons; by left|]. exists a, q. split; [exact Hq|].
  intros Ha. apply He in Ha. vm_compute in Ha. discriminate Ha.
Defined.

(** One value enqueued, nobody at work. *)
Definition one_value : SegmentedQueue.system nat :=
  mkSystem (mkQueue {[ 1%positive := mkSegment 1 0 None 0 [mkCell kFull (Some 7%nat); mkCell kEmpty None] ]} 1 1 []) [] [(0, 7)%nat] [].

Lemma one_value_reachable : reachable 2 one_value.
Proof.
  exists 1%positive. eapply rtc_l; [apply (step_enqueue 2 _ 7%nat)|]. cbn.
  do 4 (eapply rtc_l; [eapply (step_enq 2 _ _ _ 2%positive); [cbn; reflexivity|reflexivity|reflexivity]|]; cbn).
  match goal with |- rtc _ ?s ?t => replace s with t by (vm_compute; reflexivity) end. apply rtc_refl.
Qed.

Lemma segmented_queue_is_a_list_witness : ∃ vs q, try_dequeue 2 (mem one_value) = Done (vs, q) ∧ vs = [7%nat].
Proof.
  destruct (segmented_queue_is_a_list 2 ltac:(lia) one_value one_value_reachable eq_refl) as (vs & _ & _ & _ & q & Hq & _).
  assert (∃ q', try_dequeue 2 (mem one_value) = Done ([7%nat], q')) as [q' E] by (eexists; vm_compute; reflexivity).
  eexists _, q. split; [exact Hq|]. rewrite E in Hq. congruence.
Defined.
End SegmentedQueueCorrect.
