(* ===== verification/IntrusiveMPSC.v ===== *)
(** The intrusive multi-producer single-consumer queue ([IntrusiveMPSC.h]) that carries
    cancel kicks: producers exchange the tail and then link the previous node, the one
    consumer follows the links and puts a stub back when it takes the last node.

    Any number of producers interleave with the consumer, one step per access to shared
    memory.  The nodes belong to clients: a client may free a node it owns, so a late
    write to a node that was handed out would be undefined behaviour. *)

From S2P Require Import Prelude.

Module IntrusiveMPSC.

Section queue.
Context (stub_ : ptr). (** the address of the stub inside the queue *)

(** [mpsc_next_] of every node, the stub's included, and the two ends. *)
Record queue := mkQueue {
  mpsc_next_ : gmap ptr (option ptr);
  tail_ : ptr;
  head_ : ptr
}.

Definition IntrusiveMPSCQueue_new : queue := mkQueue {[ stub_ := None ]} stub_ stub_.

Definition load_next (n : ptr) (q : queue) : outcome (option ptr) := deref (mpsc_next_ q !! n).
Definition store_next (n : ptr) (v : option ptr) (q : queue) : outcome queue :=
  _ ← load_next n q; Done {| q with mpsc_next_ := <[n := v]> (mpsc_next_ q) |}.

(** ** [push] *)

Inductive push_pc :=
| PStore (n : ptr)         (** [node->mpsc_next_.store(nullptr)] *)
| PExchange (n : ptr)      (** [tail_.exchange(node)] *)
| PLink (prev n : ptr).    (** [prev->mpsc_next_.store(node)] *)

(** The next step; [None] when the call has returned. *)
Definition push (pc : push_pc) (q : queue) : outcome (option push_pc * queue) :=
  match pc with
  | PStore n => q ← store_next n None q; Done (Some (PExchange n), q)
  | PExchange n => Done (Some (PLink (tail_ q) n), {| q with tail_ := n |})
  | PLink prev n => q ← store_next prev (Some n) q; Done (None, q)
  end.

(** ** [pop] *)

Inductive pop_pc :=
| CIdle
| CNext                                 (** the first load of [head->mpsc_next_] *)
| CSkip (next : ptr)                    (** [head == &stub_]: over it to [next] *)
| CNext2 (head : ptr)                   (** the load of [next->mpsc_next_] *)
| CTail (head : ptr)                    (** [tail_.load() != head] *)
| CStub (head : ptr)                    (** [stub_.mpsc_next_.store(nullptr)] *)
| CExchange (head : ptr)                (** [tail_.exchange(&stub_)] *)
| CLink (head prev : ptr)               (** [prev->mpsc_next_.store(&stub_)] *)
| CNext3 (head : ptr).                  (** the last load of [head->mpsc_next_] *)

(** What a step does besides: nothing, or return a node or [nullptr]. *)
Inductive answer := Goes (pc : pop_pc) | Returns (r : option ptr).

(** [if (next) { head_ = next; return head; }] and what follows otherwise *)
Definition take_or (head : ptr) (next : option ptr) (other : answer) (q : queue) : answer * queue :=
  match next with
  | Some n => (Returns (Some head), {| q with head_ := n |})
  | None => (other, q)
  end.

Definition pop (pc : pop_pc) (q : queue) : outcome (answer * queue) :=
  match pc with
  | CIdle => Done (Goes CNext, q)
  | CNext =>
      let head := head_ q in
      next ← load_next head q;
      if bool_decide (head = stub_) then
        match next with
        | None => Done (Returns None, q)
        | Some n => Done (Goes (CSkip n), q)
        end
      else Done (take_or head next (Goes (CTail head)) q)
  | CSkip next => Done (Goes (CNext2 next), {| q with head_ := next |})
  | CNext2 head => next ← load_next head q; Done (take_or head next (Goes (CTail head)) q)
  | CTail head => Done (if bool_decide (tail_ q = head) then Goes (CStub head) else Returns None, q)
  | CStub head => q ← store_next stub_ None q; Done (Goes (CExchange head), q)
  | CExchange head => Done (Goes (CLink head (tail_ q)), {| q with tail_ := stub_ |})
  | CLink head prev => q ← store_next prev (Some stub_) q; Done (Goes (CNext3 head), q)
  | CNext3 head => next ← load_next head q; Done (take_or head next (Returns None) q)
  end.

(** [empty_relaxed] *)
Definition empty_relaxed (q : queue) : bool := bool_decide (tail_ q = stub_) && bool_decide (head_ q = stub_).

(** ** The machine *)

Record state := mkState {
  mem : queue;
  producers : list push_pc;
  consumer : pop_pc;
  owned : list ptr;        (** the nodes clients own *)
  pushed : list ptr;       (** history: in the order of the exchanges *)
  answers : list (option ptr); (** history: what [pop] returned *)
  completed : nat          (** history: pushes completed since [pop] was called *)
}.

Definition init : state := mkState IntrusiveMPSCQueue_new [] CIdle [] [] [] 0.

(** What the history records of a producer's step. *)
Definition push_history (pc : push_pc) (l : list ptr) : list ptr :=
  match pc with PExchange n => l ++ [n] | _ => l end.
Definition push_completed (pc : push_pc) (k : nat) : nat := match pc with PLink _ _ => S k | _ => k end.

Inductive step : state → state → Prop :=
| step_new s n : mpsc_next_ (mem s) !! n = None →
    step s {| s with mem := {| (mem s) with mpsc_next_ := <[n := None]> (mpsc_next_ (mem s)) |};
              owned := n :: owned s |}
| step_free s n rest : owned s ≡ₚ n :: rest →
    step s {| s with mem := {| (mem s) with mpsc_next_ := delete n (mpsc_next_ (mem s)) |}; owned := rest |}
| step_start s n rest : owned s ≡ₚ n :: rest →
    step s {| s with producers := PStore n :: producers s; owned := rest |}
| step_push s pc rest pc' q : producers s ≡ₚ pc :: rest → push pc (mem s) = Done (pc', q) →
    step s {| s with mem := q; producers := option_list pc' ++ rest; pushed := push_history pc (pushed s);
              completed := push_completed pc (completed s) |}
| step_pop s pc q : pop (consumer s) (mem s) = Done (Goes pc, q) →
    step s {| s with mem := q; consumer := pc; completed := match consumer s with CIdle => 0%nat | _ => completed s end |}
| step_return s r q : pop (consumer s) (mem s) = Done (Returns r, q) →
    step s {| s with mem := q; consumer := CIdle; owned := option_list r ++ owned s; answers := answers s ++ [r] |}.

(** [pop] with nobody else running. *)
Fixpoint run_pop (fuel : nat) (pc : pop_pc) (q : queue) : outcome (option ptr * queue) :=
  match fuel with
  | O => OutOfFuel
  | S fuel =>
      '(a, q) ← pop pc q;
      match a with
      | Goes pc => run_pop fuel pc q
      | Returns r => Done (r, q)
      end
  end.

Definition reachable (s : state) : Prop := rtc step init s.
End queue.
End IntrusiveMPSC.
