(* ===== verification/IntrusiveMPSCCorrect.v ===== *)
(** The intrusive queue hands every pushed node out once, in the order of the pushes,
    and never touches a node it has handed out; [pop] answers nothing only when the
    queue is empty or a push overlaps with it. *)

From S2P Require Import Prelude IntrusiveMPSC.

Module IntrusiveMPSCCorrect.
Import IntrusiveMPSC.
Implicit Types (l : list ptr) (n a b : ptr) (nxt : gmap ptr (option ptr)).

(** * Consecutive nodes *)

Fixpoint pairs l : list (ptr * ptr) :=
  match l with
  | a :: ((b :: _) as l) => (a, b) :: pairs l
  | _ => []
  end.

Lemma elem_of_pairs_cons x y l ab : ab ∈ pairs (x :: y :: l) ↔ ab = (x, y) ∨ ab ∈ pairs (y :: l).
Proof. apply elem_of_cons. Qed.

Lemma pairs_snoc l z n : last l = Some z → pairs (l ++ [n]) = pairs l ++ [(z, n)].
Proof.
  induction l as [|a l IH]; [done|]. destruct l as [|b l]; [by intros [= ->]|]. intros Hz. rewrite last_cons_cons in Hz.
  cbn [app pairs]. f_equal. by apply IH.
Qed.

Lemma pairs_in l a b : (a, b) ∈ pairs l → a ∈ l ∧ b ∈ l.
Proof.
  induction l as [|x l IH]; [set_solver|]. destruct l as [|y l]; [set_solver|].
  intros [?|Hin]%elem_of_pairs_cons; [simplify_eq; set_solver|]. apply IH in Hin. set_solver.
Qed.

Lemma pairs_fun l a b b' : NoDup l → (a, b) ∈ pairs l → (a, b') ∈ pairs l → b = b'.
Proof.
  induction l as [|x l IH]; [set_solver|]. destruct l as [|y l]; [set_solver|]. intros [Hx Hnd]%NoDup_cons.
  intros [?|H1]%elem_of_pairs_cons [?|H2]%elem_of_pairs_cons; simplify_eq; [done|..].
  - by apply pairs_in in H2 as [? _].
  - by apply pairs_in in H1 as [? _].
  - by apply IH.
Qed.

Lemma pairs_last l a b : NoDup l → (a, b) ∈ pairs l → last l ≠ Some a.
Proof.
  induction l as [|x l IH]; [set_solver|]. destruct l as [|y l]; [set_solver|]. intros [Hx Hnd]%NoDup_cons.
  rewrite last_cons_cons. intros [?|Hin]%elem_of_pairs_cons; [|by apply IH]. simplify_eq. intros Hl.
  apply last_Some_elem_of in Hl. done.
Qed.

Lemma pairs_next l a : a ∈ l → last l ≠ Some a → ∃ b, (a, b) ∈ pairs l.
Proof.
  induction l as [|x l IH]; [set_solver|]. destruct l as [|y l]; [cbn; set_solver|]. rewrite last_cons_cons.
  intros [->|Hin]%elem_of_cons Hl; [exists y|destruct (IH Hin Hl) as [b Hb]; exists b]; apply elem_of_pairs_cons; auto.
Qed.

(** * The invariant *)

Section correct.
Context (stub_ : ptr).
Abbreviation state := IntrusiveMPSC.state.
Implicit Types (s : state).

Definition pend_of (pc : push_pc) : list (ptr * ptr) := match pc with PLink p n => [(p, n)] | _ => [] end.
Definition pend_pop (pc : pop_pc) : list (ptr * ptr) := match pc with CLink _ p => [(p, stub_)] | _ => [] end.
Definition pend s : list (ptr * ptr) := pend_pop (consumer s) ++ (producers s ≫= pend_of).
Definition busy_of (pc : push_pc) : list ptr := match pc with PStore n | PExchange n => [n] | _ => [] end.
Definition outside s : list ptr := (producers s ≫= busy_of) ++ owned s.

Definition links nxt (ps : list (ptr * ptr)) l : Prop :=
  (∀ a b, (a, b) ∈ pairs l → nxt !! a = Some (Some b) ∧ (a, b) ∉ ps ∨ nxt !! a = Some None ∧ (a, b) ∈ ps)
  ∧ (∀ z, last l = Some z → nxt !! z = Some None).

Definition consumer_ok s l : Prop :=
  match consumer s with
  | CIdle | CNext => True
  | CSkip n => (stub_, n) ∈ pairs l ∧ mpsc_next_ (mem s) !! stub_ = Some (Some n) ∧ head l = Some stub_
  | CNext2 h | CLink h _ => head l = Some h ∧ h ≠ stub_
  | CNext3 h => head l = Some h ∧ h ≠ stub_ ∧ last l ≠ Some h
  | CTail h => head l = Some h ∧ h ≠ stub_ ∧ (mpsc_next_ (mem s) !! h = Some None ∨ (0 < completed s)%nat)
  | CStub h => head l = Some h ∧ h ≠ stub_ ∧ stub_ ∉ l
  | CExchange h => head l = Some h ∧ h ≠ stub_ ∧ stub_ ∉ l ∧ mpsc_next_ (mem s) !! stub_ = Some None
  end.

Record inv_with s l : Prop := {
  i_head : head l = Some (head_ (mem s));
  i_tail : last l = Some (tail_ (mem s));
  i_nodup : NoDup l;
  i_links : links (mpsc_next_ (mem s)) (pend s) l;
  i_pend : NoDup (pend s) ∧ ∀ ab, ab ∈ pend s → ab ∈ pairs l;
  i_outside : NoDup (outside s) ∧ ∀ n, n ∈ outside s → is_Some (mpsc_next_ (mem s) !! n) ∧ n ≠ stub_ ∧ n ∉ l;
  i_ready : ∀ n, PExchange n ∈ producers s → mpsc_next_ (mem s) !! n = Some None;
  i_stub : is_Some (mpsc_next_ (mem s) !! stub_);
  i_consumer : consumer_ok s l;
  i_fifo : pushed s = omap id (answers s) ++ filter (.≠ stub_) l
}.

Definition inv s : Prop := ∃ l, inv_with s l.

(** Every node of the queue is live. *)
Lemma live s l n : inv_with s l → n ∈ l → is_Some (mpsc_next_ (mem s) !! n).
Proof.
  intros [Hh Ht Hnd [Hl1 Hl2] _ _ _ _ _ _] Hn. destruct (decide (last l = Some n)) as [E|E].
  - by rewrite (Hl2 n E).
  - destruct (pairs_next l n Hn E) as [b Hb]. by destruct (Hl1 n b Hb) as [[-> _]|[-> _]].
Qed.

(** A write outside the queue. *)
Lemma links_frame nxt ps l n v : n ∉ l → links nxt ps l → links (<[n := v]> nxt) ps l.
Proof.
  intros Hn [H1 H2]. split.
  - intros a b Hab. pose proof (pairs_in _ _ _ Hab) as [? _]. rewrite lookup_insert_ne by set_solver. by apply H1.
  - intros z Hz. rewrite lookup_insert_ne; [by apply H2|]. intros ->. apply Hn. by apply last_Some_elem_of.
Qed.

(** Linking a pending pair. *)
Lemma links_link nxt ps ps' l a b :
  NoDup l → NoDup ps → ps ≡ₚ (a, b) :: ps' → (∀ ab, ab ∈ ps → ab ∈ pairs l) → links nxt ps l →
  links (<[a := Some b]> nxt) ps' l.
Proof.
  intros Hnd Hps Hp Hsub [H1 H2]. assert (Hab : (a, b) ∈ pairs l) by (apply Hsub; rewrite Hp; set_solver).
  rewrite Hp in Hps. apply NoDup_cons in Hps as [Hno _]. split.
  - intros c d Hcd. destruct (decide (c = a)) as [->|Hne].
    + left. rewrite lookup_insert_eq. by rewrite (pairs_fun _ _ _ _ Hnd Hcd Hab).
    + rewrite lookup_insert_ne by done. destruct (H1 c d Hcd) as [[? Hn]|[? Hn]]; [left|right]; (split; [done|]);
        rewrite Hp in Hn; set_solver.
  - intros z Hz. rewrite lookup_insert_ne; [by apply H2|]. intros ->. by apply (pairs_last _ _ _ Hnd Hab).
Qed.

(** Appending a node. *)
Lemma links_snoc nxt ps ps' l z n :
  NoDup l → n ∉ l → last l = Some z → nxt !! n = Some None → ps' ≡ₚ (z, n) :: ps → (∀ ab, ab ∈ ps → ab ∈ pairs l) →
  links nxt ps l → links nxt ps' (l ++ [n]).
Proof.
  intros Hnd Hn Hz Hnn Hp Hsub [H1 H2]. split.
  - intros a b. rewrite (pairs_snoc _ z) by done. rewrite elem_of_app, list_elem_of_singleton. intros [Hab|[= -> ->]].
    + assert ((a, b) ≠ (z, n)) by (intros [= -> ->]; apply pairs_in in Hab; set_solver).
      destruct (H1 a b Hab) as [[? Hx]|[? Hx]]; [left|right]; (split; [done|]); rewrite Hp; set_solver.
    + right. split; [by apply H2|]. rewrite Hp. set_solver.
  - intros y. rewrite last_snoc. by intros [= <-].
Qed.

(** Dropping the first node, once it is linked. *)
Lemma links_tail nxt ps h b l : links nxt ps (h :: b :: l) → links nxt ps (b :: l).
Proof. intros [H1 H2]. split; [|done]. intros x y Hxy. apply H1, elem_of_pairs_cons. by right. Qed.

Lemma linked_not_pending nxt ps l a b :
  links nxt ps l → (a, b) ∈ pairs l → nxt !! a = Some (Some b) → (a, b) ∉ ps.
Proof. intros [H1 _] Hab Hn. destruct (H1 a b Hab) as [[_ ?]|[? _]]; [done|congruence]. Qed.

(** What a non-null link of the first node leads to. *)
Lemma first_link s l h c : inv_with s l → head l = Some h → mpsc_next_ (mem s) !! h = Some (Some c) →
  ∃ l', l = h :: c :: l' ∧ (h, c) ∉ pend s.
Proof.
  intros Hi Hh Hn. destruct l as [|x [|y l']]; simplify_eq/=.
  - destruct (i_links _ _ Hi) as [_ H2]. rewrite (H2 h) in Hn by done. done.
  - destruct (i_links _ _ Hi) as [H1 _]. destruct (H1 h y) as [[E ?]|[E ?]]; [apply elem_of_pairs_cons; by left|..]; simplify_eq. by exists l'.
Qed.

(** ** Producers *)

Section push.
Context s l pc rest (Hi : inv_with s l) (Hp : producers s ≡ₚ pc :: rest).

Lemma pend_split : pend s ≡ₚ pend_of pc ++ pend_pop (consumer s) ++ (rest ≫= pend_of).
Proof. unfold pend. rewrite Hp. cbn. rewrite !app_assoc. by rewrite (Permutation_app_comm (pend_pop _)). Qed.
Lemma outside_split : outside s ≡ₚ busy_of pc ++ (rest ≫= busy_of) ++ owned s.
Proof. unfold outside. rewrite Hp. cbn. by rewrite app_assoc. Qed.

Lemma busy_outside n : n ∈ busy_of pc → n ≠ stub_ ∧ n ∉ l ∧ is_Some (mpsc_next_ (mem s) !! n).
Proof. intros Hn. destruct (i_outside _ _ Hi) as [_ Ho]. destruct (Ho n) as (? & ? & ?); [rewrite outside_split; set_solver|done]. Qed.

(** The step of a producer at [pc] succeeds and keeps the invariant. *)
Definition push_keeps (pc : push_pc) : Prop := ∃ pc' q, push pc (mem s) = Done (pc', q)
  ∧ inv {| s with mem := q; producers := option_list pc' ++ rest; pushed := push_history pc (pushed s);
           completed := push_completed pc (completed s) |}.
End push.

Lemma store_live q n v : is_Some (mpsc_next_ q !! n) →
  store_next n v q = Done {| q with mpsc_next_ := <[n := v]> (mpsc_next_ q) |}.
Proof. intros [w Hw]. unfold store_next, load_next. by rewrite Hw. Qed.

Lemma consumer_frame s s' l n v :
  consumer s' = consumer s → completed s' = completed s → mpsc_next_ (mem s') = <[n := v]> (mpsc_next_ (mem s)) →
  n ∉ l → n ≠ stub_ → consumer_ok s l → consumer_ok s' l.
Proof.
  intros E1 E2 E3 Hn Hs Hc. unfold consumer_ok in *. rewrite E1, E2, E3. assert (Hne : ∀ h, head l = Some h → n ≠ h)
    by (intros h Hx ->; by apply Hn, head_Some_elem_of).
  destruct (consumer s); try done; destruct Hc as (? & ? & ?); split_and!; try tauto; rewrite lookup_insert_ne by auto; tauto.
Qed.

Lemma push_store s l n rest : inv_with s l → producers s ≡ₚ PStore n :: rest → push_keeps s rest (PStore n).
Proof.
  intros Hi Hp. pose proof Hi as [Hh Ht Hnd Hl [Hpn Hps] [Hon Ho] Hready Hstub Hc Hf].
  pose proof (pend_split s _ rest Hp) as Epend. pose proof (outside_split s _ rest Hp) as Eout. cbn in Epend, Eout.
  destruct (busy_outside s l _ rest Hi Hp n) as (Hns & Hnl & Hv); [cbn; set_solver|].
  unfold push_keeps. cbn [push]. rewrite store_live by done. orun. eexists _, _. split; [reflexivity|]. exists l.
  split; cbn [mem mpsc_next_ head_ tail_]; try done.
  - unfold pend. cbn. apply links_frame; [done|]. destruct Hl as [H1 H2]. split; [|done].
    intros x y Hxy. rewrite <- Epend. by apply H1.
  - unfold pend. cbn. split; [by rewrite <- Epend|]. intros ab. rewrite <- Epend. apply Hps.
  - unfold outside. cbn. split; [by rewrite <- Eout|]. intros m Hm. rewrite <- Eout in Hm. destruct (Ho m Hm) as (? & ? & ?).
    rewrite lookup_insert_is_Some. split_and!; [|done..]. destruct (decide (n = m)); auto.
  - cbn. intros m [[= ->]|Hm]%elem_of_cons; [by rewrite lookup_insert_eq|].
    destruct (decide (m = n)) as [->|]; [by rewrite lookup_insert_eq|]. rewrite lookup_insert_ne by done.
    apply Hready. rewrite Hp. set_solver.
  - by rewrite lookup_insert_ne.
  - eapply (consumer_frame s _ l n None); done.
Qed.

Lemma consumer_snoc s s' l z n :
  consumer s' = consumer s → completed s' = completed s → mpsc_next_ (mem s') = mpsc_next_ (mem s) →
  last l = Some z → n ∉ l → n ≠ stub_ → consumer_ok s l → consumer_ok s' (l ++ [n]).
Proof.
  intros E1 E2 E3 Hz Hn Hs Hc. unfold consumer_ok in *. rewrite E1, E2, E3.
  assert (Hhd : ∀ h, head l = Some h → head (l ++ [n]) = Some h) by (by destruct l).
  assert (Hst : stub_ ∉ l → stub_ ∉ l ++ [n]) by (rewrite elem_of_app, list_elem_of_singleton; naive_solver).
  destruct (consumer s); [done..| | | | | | |]; try (naive_solver).
  - rewrite (pairs_snoc _ z), elem_of_app by done. naive_solver.
  - destruct Hc as (? & ? & ?). split_and!; [auto|done|]. rewrite last_snoc. intros [= ->]. apply Hn. by apply head_Some_elem_of.
Qed.

Lemma push_exchange s l n rest : inv_with s l → producers s ≡ₚ PExchange n :: rest → push_keeps s rest (PExchange n).
Proof.
  intros Hi Hp. pose proof Hi as [Hh Ht Hnd Hl [Hpn Hps] [Hon Ho] Hready Hstub Hc Hf].
  pose proof (pend_split s _ rest Hp) as Epend. pose proof (outside_split s _ rest Hp) as Eout. cbn in Epend, Eout.
  destruct (busy_outside s l _ rest Hi Hp n) as (Hns & Hnl & Hv); [cbn; set_solver|].
  assert (Hnn : mpsc_next_ (mem s) !! n = Some None) by (apply Hready; rewrite Hp; set_solver).
  assert (Epend' : ∀ s', consumer s' = consumer s → producers s' = PLink (tail_ (mem s)) n :: rest →
    pend s' ≡ₚ (tail_ (mem s), n) :: pend s).
  { intros s' E1 E2. unfold pend at 1. rewrite E1, E2, Epend. cbn. by rewrite Permutation_middle. }
  eexists _, _. split; [reflexivity|]. exists (l ++ [n]). split; cbn [mem mpsc_next_ head_ tail_]; [..|done| |].
  - by destruct l.
  - by rewrite last_snoc.
  - apply NoDup_app. split_and!; [done| |apply NoDup_singleton]. set_solver.
  - eapply links_snoc; [done|done|done|done|by apply Epend'|done|done].
  - rewrite (pairs_snoc _ (tail_ (mem s))) by done. split.
    + rewrite Epend' by done. apply NoDup_cons. split; [|done]. intros Hin%Hps. by apply pairs_in in Hin as [_ ?].
    + intros ab Hab. rewrite Epend' in Hab by done. rewrite elem_of_app, list_elem_of_singleton.
      apply elem_of_cons in Hab as [->|Hin]; auto.
  - unfold outside. cbn. rewrite Eout in Hon. apply NoDup_cons in Hon as [Hno Hon]. split; [done|].
    intros m Hm. destruct (Ho m) as (? & ? & ?); [rewrite Eout; set_solver|]. split_and!; [done..|].
    rewrite elem_of_app. set_solver.
  - cbn. intros m [|Hm]%elem_of_cons; [done|]. apply Hready. rewrite Hp. set_solver.
  - by eapply consumer_snoc.
  - cbn. rewrite Hf, filter_app, app_assoc. f_equal. by rewrite filter_cons_True.
Qed.

Lemma push_link s l a b rest : inv_with s l → producers s ≡ₚ PLink a b :: rest → push_keeps s rest (PLink a b).
Proof.
  intros Hi Hp. pose proof Hi as [Hh Ht Hnd Hl [Hpn Hps] [Hon Ho] Hready Hstub Hc Hf].
  pose proof (pend_split s _ rest Hp) as Epend. pose proof (outside_split s _ rest Hp) as Eout. cbn in Epend, Eout.
  assert (Hab : (a, b) ∈ pairs l) by (apply Hps; rewrite Epend; set_solver).
  pose proof (pairs_in _ _ _ Hab) as [Hal _]. pose proof (live _ _ a Hi Hal) as Hv.
  unfold push_keeps. cbn [push]. rewrite store_live by done. orun. eexists _, _. split; [reflexivity|]. exists l.
  split; cbn [mem mpsc_next_ head_ tail_]; try done.
  - eapply (links_link _ (pend s)); [done..|]. exact Hl.
  - rewrite Epend in Hpn. apply NoDup_cons in Hpn as [_ ?]. split; [done|]. intros ab Hin. apply Hps. rewrite Epend. set_solver.
  - unfold outside. cbn. split; [by rewrite <- Eout|]. intros m Hm. rewrite <- Eout in Hm. destruct (Ho m Hm) as (? & ? & ?).
    rewrite lookup_insert_is_Some. split_and!; [|done..]. destruct (decide (a = m)); auto.
  - intros m Hm. rewrite lookup_insert_ne; [apply Hready; rewrite Hp; set_solver|]. intros ->.
    destruct (Ho m) as (_ & _ & ?); [|done]. rewrite Eout. apply elem_of_app. left.
    apply list_elem_of_bind. exists (PExchange m). cbn. set_solver.
  - apply lookup_insert_is_Some. destruct (decide (a = stub_)); auto.
  - unfold consumer_ok in *. cbn [consumer mem mpsc_next_ completed push_completed]. destruct (consumer s); try done.
    + destruct Hc as (? & ? & ?). split_and!; [done| |done]. destruct (decide (a = stub_)) as [->|].
      * rewrite lookup_insert_eq. by rewrite (pairs_fun l stub_ b next).
      * by rewrite lookup_insert_ne.
    + destruct Hc as (? & ? & ?). split_and!; [done..|]. right. lia.
    + destruct Hc as (? & ? & ? & ?). split_and!; [done..|]. rewrite lookup_insert_ne by set_solver. done.
Qed.

Lemma mpsc_push_ok s pc rest : inv s → producers s ≡ₚ pc :: rest → push_keeps s rest pc.
Proof. intros [l Hi] Hp. destruct pc; [by eapply push_store|by eapply push_exchange|by eapply push_link]. Qed.
(** ** The consumer *)

(** The state the step of the consumer leads to. *)
Definition after_pop s (a : answer) (q : queue) : state :=
  match a with
  | Goes pc => {| s with mem := q; consumer := pc; completed := match consumer s with CIdle => 0%nat | _ => completed s end |}
  | Returns r => {| s with mem := q; consumer := CIdle; owned := option_list r ++ owned s; answers := answers s ++ [r] |}
  end.

(** Only the place of the consumer changes. *)
Lemma inv_goes s l pc : inv_with s l → pend_pop (consumer s) = pend_pop pc →
  consumer_ok (after_pop s (Goes pc) (mem s)) l → inv_with (after_pop s (Goes pc) (mem s)) l.
Proof.
  intros [Hh Ht Hnd Hl Hp Ho Hready Hstub Hc Hf] E Hok.
  assert (Epend : pend (after_pop s (Goes pc) (mem s)) = pend s) by (unfold pend; cbn; by rewrite E).
  split; try done; by rewrite Epend.
Qed.

Lemma inv_null s l : inv_with s l → pend_pop (consumer s) = [] → inv_with (after_pop s (Returns None) (mem s)) l.
Proof.
  intros [Hh Ht Hnd Hl Hp Ho Hready Hstub Hc Hf] E.
  assert (Epend : pend (after_pop s (Returns None) (mem s)) = pend s) by (unfold pend; cbn; by rewrite E).
  split; try done; [by rewrite Epend..|]. cbn [after_pop pushed answers]. rewrite Hf, omap_app. cbn. by rewrite app_nil_r.
Qed.

Lemma pairs_tail x y l (ps : list (ptr * ptr)) : (∀ ab, ab ∈ ps → ab ∈ pairs (x :: y :: l)) → (x, y) ∉ ps → ∀ ab, ab ∈ ps → ab ∈ pairs (y :: l).
Proof. intros H Hn ab Hab. pose proof (H ab Hab) as [->|?]%elem_of_pairs_cons; done. Qed.

(** The first node is handed out. *)
Lemma inv_take s h c l : inv_with s (h :: c :: l) → h ≠ stub_ → (h, c) ∉ pend s → pend_pop (consumer s) = [] →
  inv_with (after_pop s (Returns (Some h)) {| (mem s) with head_ := c |}) (c :: l).
Proof.
  intros [Hh Ht Hnd Hl [Hpn Hps] [Hon Ho] Hready Hstub Hc Hf] Hs Hn E.
  set (s' := after_pop _ _ _). assert (Epend : pend s' = pend s) by (unfold pend; cbn; by rewrite E).
  assert (Eout : outside s' ≡ₚ h :: outside s) by (unfold outside; cbn; by rewrite Permutation_middle).
  apply NoDup_cons in Hnd as [Hhl Hnd].
  assert (Hlive : is_Some (mpsc_next_ (mem s) !! h)).
  { destruct Hl as [H1 _]. destruct (H1 h c) as [[-> _]|[-> _]]; [apply elem_of_pairs_cons; by left|done..]. }
  split; try done.
  - rewrite Epend. by eapply links_tail.
  - rewrite Epend. split; [done|]. by eapply pairs_tail.
  - rewrite Eout. split.
    + apply NoDup_cons. split; [|done]. intros Hx. destruct (Ho h Hx) as (_ & _ & Hx'). apply Hx', elem_of_cons. by left.
    + intros m Hm. rewrite Eout in Hm. apply elem_of_cons in Hm as [->|Hm]; [done|].
      destruct (Ho m Hm) as (? & ? & Hml). split_and!; [done..|]. rewrite elem_of_cons in Hml. tauto.
  - cbn [s' after_pop pushed answers]. rewrite Hf, omap_app, <- app_assoc. f_equal. by rewrite filter_cons_True by done.
Qed.

(** The stub is skipped. *)
Lemma inv_skip s n l : inv_with s (stub_ :: n :: l) → (stub_, n) ∉ pend s → pend_pop (consumer s) = [] →
  inv_with (after_pop s (Goes (CNext2 n)) {| (mem s) with head_ := n |}) (n :: l).
Proof.
  intros [Hh Ht Hnd Hl [Hpn Hps] [Hon Ho] Hready Hstub Hc Hf] Hn E.
  set (s' := after_pop _ _ _). assert (Epend : pend s' = pend s) by (unfold pend; cbn; by rewrite E).
  apply NoDup_cons in Hnd as [Hsl Hnd]. split; try done.
  - rewrite Epend. by eapply links_tail.
  - rewrite Epend. split; [done|]. by eapply pairs_tail.
  - split; [done|]. intros m Hm. destruct (Ho m Hm) as (? & ? & Hml). split_and!; [done..|]. rewrite elem_of_cons in Hml. tauto.
  - cbn. split; [done|]. intros ->. apply Hsl, elem_of_cons. by left.
  - cbn [s' after_pop pushed answers]. rewrite Hf. f_equal. rewrite filter_cons_False; [done|]. tauto.
Qed.

(** The stub is cleared. *)
Lemma inv_stub s l h : inv_with s l → consumer s = CStub h →
  inv_with (after_pop s (Goes (CExchange h)) {| (mem s) with mpsc_next_ := <[stub_ := None]> (mpsc_next_ (mem s)) |}) l.
Proof.
  intros [Hh Ht Hnd Hl Hp [Hon Ho] Hready Hstub Hc Hf] E. unfold consumer_ok in Hc. rewrite E in Hc.
  destruct Hc as (Hhl & Hhs & Hsl). set (s' := after_pop _ _ _).
  assert (Epend : pend s' = pend s) by (unfold pend; cbn; by rewrite E).
  split; try done.
  - rewrite Epend. by apply links_frame.
  - by rewrite Epend.
  - split; [done|]. intros m Hm. destruct (Ho m Hm) as (? & ? & ?). cbn. by rewrite lookup_insert_ne.
  - intros m Hm. cbn. rewrite lookup_insert_ne; [by apply Hready|]. intros <-.
    destruct (Ho stub_) as (_ & ? & _); [|done]. unfold outside. rewrite elem_of_app, list_elem_of_bind. left. exists (PExchange stub_). cbn. set_solver.
  - cbn. by rewrite lookup_insert_eq.
  - cbn. by rewrite lookup_insert_eq.
Qed.

(** The stub is put back at the tail. *)
Lemma inv_exchange s l h : inv_with s l → consumer s = CExchange h →
  inv_with (after_pop s (Goes (CLink h (tail_ (mem s)))) {| (mem s) with tail_ := stub_ |}) (l ++ [stub_]).
Proof.
  intros [Hh Ht Hnd Hl [Hpn Hps] [Hon Ho] Hready Hstub Hc Hf] E. unfold consumer_ok in Hc. rewrite E in Hc.
  destruct Hc as (Hhl & Hhs & Hsl & Hsn). set (s' := after_pop _ _ _).
  assert (Epend : pend s' = (tail_ (mem s), stub_) :: pend s) by (unfold pend; cbn; by rewrite E).
  split; try done.
  - by destruct l.
  - by rewrite last_snoc.
  - apply NoDup_app. split_and!; [done| |apply NoDup_singleton]. set_solver.
  - rewrite Epend. by eapply links_snoc.
  - rewrite Epend, (pairs_snoc _ (tail_ (mem s))) by done. split.
    + apply NoDup_cons. split; [|done]. intros Hin%Hps. by apply pairs_in in Hin as [_ ?].
    + intros ab. rewrite elem_of_app, elem_of_cons, list_elem_of_singleton. intros [->|?]; auto.
  - split; [done|]. intros m Hm. destruct (Ho m Hm) as (? & ? & ?). split_and!; [done..|]. rewrite elem_of_app, list_elem_of_singleton. tauto.
  - cbn. split; [|done]. by destruct l.
  - cbn [s' after_pop pushed answers]. rewrite Hf, filter_app. f_equal. rewrite filter_cons_False by tauto. by rewrite app_nil_r.
Qed.

(** ... and linked. *)
Lemma inv_link s l h p : inv_with s l → consumer s = CLink h p → 
  inv_with (after_pop s (Goes (CNext3 h)) {| (mem s) with mpsc_next_ := <[p := Some stub_]> (mpsc_next_ (mem s)) |}) l.
Proof.
  intros Hi E. pose proof Hi as [Hh Ht Hnd Hl [Hpn Hps] [Hon Ho] Hready Hstub Hc Hf]. unfold consumer_ok in Hc. rewrite E in Hc.
  destruct Hc as (Hhl & Hhs). set (s' := after_pop _ _ _).
  assert (Epend : pend s = (p, stub_) :: pend s') by (unfold pend; cbn; by rewrite E).
  assert (Hab : (p, stub_) ∈ pairs l) by (apply Hps; rewrite Epend; set_solver).
  pose proof (pairs_in _ _ _ Hab) as [Hpl _].
  split; try done.
  - eapply (links_link _ (pend s)); [done|done|by rewrite Epend|done|done].
  - rewrite Epend in Hpn. apply NoDup_cons in Hpn as [_ ?]. split; [done|]. intros ab ?. apply Hps. rewrite Epend. set_solver.
  - split; [done|]. intros m Hm. destruct (Ho m Hm) as (? & ? & ?). cbn. by rewrite lookup_insert_ne by set_solver.
  - intros m Hm. cbn. rewrite lookup_insert_ne; [by apply Hready|]. intros ->.
    destruct (Ho m) as (_ & _ & ?); [|done]. unfold outside. rewrite elem_of_app, list_elem_of_bind. left. exists (PExchange m). cbn. set_solver.
  - cbn. apply lookup_insert_is_Some. destruct (decide (p = stub_)); auto.
  - cbn. split_and!; [done..|]. intros Hlast. destruct l as [|x [|y l]]; [done|set_solver|].
    injection Hhl as ->. apply NoDup_cons in Hnd as [Hx _]. rewrite last_cons_cons in Hlast. by apply Hx, last_Some_elem_of.
Qed.

(** ** One step of [pop] *)

Definition half_pushed s : Prop := ∃ a b, PLink a b ∈ producers s.

(** The step succeeds, keeps the invariant, and answers nothing only when it may. *)
Definition pop_keeps s l : Prop := ∃ (a : answer) q, pop stub_ (consumer s) (mem s) = Done (a, q) ∧ inv (after_pop s a q)
  ∧ (a = Returns None → filter (.≠ stub_) l = [] ∨ half_pushed s ∨ (0 < completed s)%nat).

(** A missing link inside the queue belongs to a producer. *)
Lemma unlinked s l h : inv_with s l → pend_pop (consumer s) = [] → h ∈ l → last l ≠ Some h →
  mpsc_next_ (mem s) !! h = Some None → half_pushed s.
Proof.
  intros Hi E Hin Hlast Hn. destruct (pairs_next l h Hin Hlast) as [b Hb].
  destruct (i_links _ _ Hi) as [H1 _]. destruct (H1 h b Hb) as [[? _]|[_ Hp]]; [congruence|].
  unfold pend in Hp. rewrite E in Hp. apply list_elem_of_bind in Hp as (pc & Hpc & ?).
  destruct pc as [| |x y]; cbn in Hpc; [set_solver..|]. by exists x, y.
Qed.

Lemma load_live s l h : inv_with s l → head l = Some h → ∃ v, mpsc_next_ (mem s) !! h = Some v ∧ load_next h (mem s) = Done v.
Proof.
  intros Hi Hh. destruct (live s l h Hi) as [v Hv]; [by apply head_Some_elem_of|]. exists v. split; [done|].
  unfold load_next. by rewrite Hv.
Qed.

(** [if (next) ...], from any of the loads of the link of the first node. *)
Lemma take_keeps s l h v other : inv_with s l → head l = Some h → h ≠ stub_ → mpsc_next_ (mem s) !! h = Some v →
  pend_pop (consumer s) = [] →
  (v = None → inv (after_pop s other (mem s)) ∧ (other = Returns None → half_pushed s)) →
  ∃ (a : answer) q, Done (take_or h v other (mem s)) = Done (a, q) ∧ inv (after_pop s a q)
  ∧ (a = Returns None → filter (.≠ stub_) l = [] ∨ half_pushed s ∨ (0 < completed s)%nat).
Proof.
  intros Hi Hh Hs Hv E Hother. destruct v as [c|]; cbn [take_or]; eexists _, _; (split; [reflexivity|]).
  - destruct (first_link _ _ _ _ Hi Hh Hv) as (l' & -> & Hn). split; [|done]. exists (c :: l'). by apply inv_take.
  - destruct (Hother eq_refl) as [? ?]. tauto.
Qed.

Lemma to_tail s l h : inv_with s l → head l = Some h → h ≠ stub_ → mpsc_next_ (mem s) !! h = Some None →
  pend_pop (consumer s) = [] → inv (after_pop s (Goes (CTail h)) (mem s)).
Proof. intros Hi Hh Hs Hn E. exists l. apply inv_goes; [done|by rewrite E|]. cbn. auto. Qed.

Lemma pop_next s l : inv_with s l → consumer s = CNext → pop_keeps s l.
Proof.
  intros Hi E. unfold pop_keeps. rewrite E. cbn [pop]. assert (Ep : pend_pop (consumer s) = []) by (by rewrite E).
  destruct (load_live s l _ Hi (i_head _ _ Hi)) as (v & Hv & ->). orun. case_bool_decide as Hs.
  - rewrite Hs in Hv. destruct v as [n|]; eexists _, _; (split; [reflexivity|]).
    + split; [|done]. exists l. apply inv_goes; [done|done|]. cbn. pose proof (i_head _ _ Hi) as Hh. rewrite Hs in Hh.
      destruct (first_link _ _ _ _ Hi Hh Hv) as (l' & -> & _). split_and!; [|done..]. apply elem_of_pairs_cons. by left.
    + split; [exists l; by apply inv_null|]. intros _. pose proof (i_head _ _ Hi) as Hh. rewrite Hs in Hh.
      destruct (decide (last l = Some stub_)) as [Hl|Hl].
      * left. destruct l as [|x [|y l]]; [done|..]; injection Hh as ->; [by rewrite filter_cons_False by tauto|].
        pose proof (i_nodup _ _ Hi) as [Hx _]%NoDup_cons. rewrite last_cons_cons in Hl.
        by destruct Hx; apply last_Some_elem_of.
      * right; left. eapply unlinked; [done|done|by apply head_Some_elem_of|done|done].
  - eapply take_keeps; [done|apply (i_head _ _ Hi)|done|done|done|]. intros ->. split; [|done].
    eapply to_tail; [done|apply (i_head _ _ Hi)|done..].
Qed.

Lemma pop_tail s l h : inv_with s l → consumer s = CTail h → pop_keeps s l.
Proof.
  intros Hi E. unfold pop_keeps. rewrite E. cbn [pop]. assert (Ep : pend_pop (consumer s) = []) by (by rewrite E).
  pose proof (i_consumer _ _ Hi) as Hc. unfold consumer_ok in Hc. rewrite E in Hc. destruct Hc as (Hh & Hs & Hn).
  eexists _, _. split; [reflexivity|]. pose proof (i_tail _ _ Hi) as Ht. case_bool_decide as Hd.
  - split; [|done]. exists l. apply inv_goes; [done|done|]. cbn. split_and!; [done..|]. rewrite Hd in Ht.
    destruct l as [|x [|y l]]; [done|..]; injection Hh as ->; [set_solver|]. rewrite last_cons_cons in Ht.
    pose proof (i_nodup _ _ Hi) as [Hx _]%NoDup_cons. by destruct Hx; apply last_Some_elem_of.
  - split; [exists l; by apply inv_null|]. intros _. right. destruct Hn as [Hn|?]; [left|by right].
    eapply unlinked; [done|done|by apply head_Some_elem_of| |done]. congruence.
Qed.

Lemma pop_ok s l : inv_with s l → pop_keeps s l.
Proof.
  intros Hi. destruct (consumer s) eqn:E; [|by apply pop_next| | |by eapply pop_tail|..]; unfold pop_keeps; rewrite E; cbn [pop];
    pose proof (i_consumer _ _ Hi) as Hc; unfold consumer_ok in Hc; rewrite E in Hc.
  - eexists _, _. split; [reflexivity|]. split; [|done]. exists l. apply inv_goes; [done|by rewrite E|done].
  - destruct Hc as (Hin & Hn & Hh). destruct (first_link _ _ _ _ Hi Hh Hn) as (l' & -> & Hnp).
    eexists _, _. split; [reflexivity|]. split; [|done]. eexists. apply inv_skip; [done..|by rewrite E].
  - destruct Hc as (Hh & Hs). destruct (load_live s l _ Hi Hh) as (v & Hv & ->). orun.
    eapply take_keeps; [done..|by rewrite E|]. intros ->. split; [|done]. eapply to_tail; [done..|by rewrite E].
  - rewrite store_live by apply (i_stub _ _ Hi). orun. eexists _, _. split; [reflexivity|]. split; [|done].
    exists l. by apply inv_stub.
  - eexists _, _. split; [reflexivity|]. split; [|done]. eexists. by apply inv_exchange.
  - destruct (i_pend _ _ Hi) as [_ Hps]. destruct (pairs_in l prev stub_) as [Hpl _].
    { apply Hps. unfold pend. rewrite E. cbn. set_solver. }
    rewrite store_live by (by eapply live). orun. eexists _, _. split; [reflexivity|]. split; [|done]. exists l. by apply inv_link.
  - destruct Hc as (Hh & Hs & Hl). destruct (load_live s l _ Hi Hh) as (v & Hv & ->). orun.
    eapply take_keeps; [done..|by rewrite E|]. intros ->. split; [exists l; apply inv_null; [done|by rewrite E]|].
    intros _. eapply unlinked; [done|by rewrite E|by apply head_Some_elem_of|done|done].
Qed.

(** ** Clients *)

Lemma mpsc_inv_init : inv (init stub_).
Proof.
  assert (H0 : mpsc_next_ (mem (init stub_)) !! stub_ = Some None) by apply lookup_singleton_eq.
  exists [stub_]. split; try done.
  - apply NoDup_singleton.
  - split; [cbn; set_solver|]. by intros z [= <-].
  - split; [apply NoDup_nil_2|cbn; set_solver].
  - split; [apply NoDup_nil_2|cbn; set_solver].
  - cbn. set_solver.
  - by rewrite filter_cons_False by tauto.
Qed.

(** The nodes of the queue and of the producers are not the one that is made or freed. *)
Lemma mpsc_inv_client s l nxt owned' :
  inv_with s l → (∀ n, n ∈ l ∨ n = stub_ ∨ n ∈ (producers s ≫= busy_of) → nxt !! n = mpsc_next_ (mem s) !! n) →
  NoDup ((producers s ≫= busy_of) ++ owned') → (∀ n, n ∈ owned' → is_Some (nxt !! n) ∧ n ≠ stub_ ∧ n ∉ l) →
  inv_with {| s with mem := {| (mem s) with mpsc_next_ := nxt |}; owned := owned' |} l.
Proof.
  intros [Hh Ht Hnd [H1 H2] Hp [Hon Ho] Hready Hstub Hc Hf] Heq Hnd' Hown.
  split; try done; cbn [mem mpsc_next_ producers consumer].
  - split.
    + intros a b Hab. rewrite Heq by (left; by apply pairs_in in Hab as [? _]). by apply H1.
    + intros z Hz. rewrite Heq by (left; by apply last_Some_elem_of). by apply H2.
  - split; [done|]. intros n [Hn|Hn]%elem_of_app; [|by apply Hown]. cbn in Hn. rewrite Heq by auto. apply Ho. unfold outside. set_solver.
  - intros n Hn. rewrite Heq; [by apply Hready|]. right; right. apply list_elem_of_bind. exists (PExchange n). cbn. set_solver.
  - by rewrite Heq by auto.
  - unfold consumer_ok in *. cbn [consumer mem mpsc_next_ completed].
    destruct (consumer s); try done; try (rewrite Heq by auto; done). destruct Hc as (? & ? & ?).
    rewrite Heq by (left; by apply head_Some_elem_of). done.
Qed.

Lemma inv_new s n : inv s → mpsc_next_ (mem s) !! n = None →
  inv {| s with mem := {| (mem s) with mpsc_next_ := <[n := None]> (mpsc_next_ (mem s)) |}; owned := n :: owned s |}.
Proof.
  intros [l Hi] Hn. exists l. destruct (i_outside _ _ Hi) as [Hon Ho].
  assert (Hfresh : ∀ m, is_Some (mpsc_next_ (mem s) !! m) → n ≠ m) by (intros m [v Hv] ->; congruence).
  assert (Hnl : n ∉ l) by (intros Hin; by apply (Hfresh n (live _ _ _ Hi Hin))).
  apply mpsc_inv_client; [done|..].
  - intros m Hm. rewrite lookup_insert_ne; [done|]. apply Hfresh. destruct Hm as [Hm|[->|Hm]].
    + by eapply live.
    + apply (i_stub _ _ Hi).
    + apply Ho. unfold outside. set_solver.
  - rewrite <- Permutation_middle. apply NoDup_cons. split; [|done]. intros Hx. destruct (Ho n Hx) as (Hlive & _). by apply (Hfresh n Hlive).
  - intros m [->|Hm]%elem_of_cons.
    + rewrite lookup_insert_eq. split_and!; [done| |done]. apply Hfresh, (i_stub _ _ Hi).
    + destruct (Ho m) as (? & ? & ?); [unfold outside; set_solver|]. rewrite lookup_insert_ne by auto. done.
Qed.

Lemma inv_free s n rest : inv s → owned s ≡ₚ n :: rest →
  inv {| s with mem := {| (mem s) with mpsc_next_ := delete n (mpsc_next_ (mem s)) |}; owned := rest |}.
Proof.
  intros [l Hi] Hn. exists l. destruct (i_outside _ _ Hi) as [Hon Ho]. unfold outside in Hon. rewrite Hn in Hon.
  rewrite <- Permutation_middle in Hon. apply NoDup_cons in Hon as [Hno Hon]. rewrite elem_of_app in Hno.
  destruct (Ho n) as (_ & Hns & Hnl); [unfold outside; rewrite Hn; set_solver|].
  apply mpsc_inv_client; [done| |done|].
  - intros m Hm. rewrite lookup_delete_ne; [done|]. intros <-. tauto.
  - intros m Hm. rewrite lookup_delete_ne; [|by intros ->; tauto]. apply Ho. unfold outside. rewrite Hn. set_solver.
Qed.

Lemma inv_start s n rest : inv s → owned s ≡ₚ n :: rest → inv {| s with producers := PStore n :: producers s; owned := rest |}.
Proof.
  intros [l [Hh Ht Hnd Hl Hp [Hon Ho] Hready Hstub Hc Hf]] Hn. exists l.
  assert (Eout : outside {| s with producers := PStore n :: producers s; owned := rest |} ≡ₚ outside s)
    by (unfold outside; cbn; rewrite Hn; by rewrite Permutation_middle).
  split; try done.
  - split; [by rewrite Eout|]. intros m Hm. rewrite Eout in Hm. by apply Ho.
  - cbn. intros m [|Hm]%elem_of_cons; [done|]. by apply Hready.
Qed.

Lemma mpsc_step_inv s s' : step stub_ s s' → inv s → inv s'.
Proof.
  intros [s0 n Hn|s0 n rest Hn|s0 n rest Hn|s0 pc rest pc' q Hp Hq|s0 pc q Hq|s0 r q Hq] Hi.
  - by apply inv_new.
  - by eapply inv_free.
  - by eapply inv_start.
  - destruct (mpsc_push_ok _ _ _ Hi Hp) as (pc'' & q' & Hq' & Hinv). rewrite Hq in Hq'. by simplify_eq.
  - destruct Hi as [l Hi]. destruct (pop_ok _ _ Hi) as (a & q' & Hq' & Hinv & _). rewrite Hq in Hq'. by simplify_eq.
  - destruct Hi as [l Hi]. destruct (pop_ok _ _ Hi) as (a & q' & Hq' & Hinv & _). rewrite Hq in Hq'. by simplify_eq.
Qed.

Lemma mpsc_reachable_inv s : reachable stub_ s → inv s.
Proof. intros H. unfold reachable in H. pose proof mpsc_inv_init as Hi. revert Hi. induction H; eauto using mpsc_step_inv. Qed.

(** ** [pop] on its own *)

Definition rank (pc : pop_pc) : nat :=
  match pc with
  | CIdle => 8 | CNext => 7 | CSkip _ => 6 | CNext2 _ => 5 | CTail _ => 4
  | CStub _ => 3 | CExchange _ => 2 | CLink _ _ => 1 | CNext3 _ => 0
  end.

Local Ltac destruct_all_matches H :=
  repeat (orun in H; simplify_eq/=; first [lia|case_bool_decide|case_match]).

Lemma rank_falls pc q pc' q' : pop stub_ pc q = Done (Goes pc', q') → (rank pc' < rank pc)%nat.
Proof.
  destruct pc; cbn [pop]; unfold store_next, take_or, load_next, deref; intros H; destruct_all_matches H.
Qed.

(** Alone, [pop] returns within nine steps, and with no push half done it answers
    nothing only when nothing waits. *)
Lemma run_alone fuel s l : inv_with s l → (rank (consumer s) < fuel)%nat → ¬ half_pushed s →
  (completed s = 0%nat ∨ consumer s = CIdle) →
  ∃ r q l', run_pop stub_ fuel (consumer s) (mem s) = Done (r, q)
  ∧ filter (.≠ stub_) l = option_list r ++ filter (.≠ stub_) l' ∧ (r = None → filter (.≠ stub_) l = []).
Proof.
  revert s l. induction fuel as [|fuel IH]; intros s l Hi Hr Hnh Hcomp; [lia|].
  cbn [run_pop]. destruct (pop_ok s l Hi) as (a & q & Hq & [l' Hi'] & Hnull). rewrite Hq. orun.
  pose proof (i_fifo _ _ Hi) as Hf. pose proof (i_fifo _ _ Hi') as Hf'. destruct a as [pc|r].
  - cbn [after_pop pushed answers] in Hf'. rewrite Hf in Hf'. apply app_inv_head in Hf'. rewrite Hf'.
    apply (IH _ _ Hi'); cbn; [|done|].
    + apply rank_falls in Hq. lia.
    + left. destruct (consumer s); naive_solver.
  - exists r, q, l'. split; [done|]. cbn [after_pop pushed answers] in Hf'. rewrite Hf, omap_app, <- app_assoc in Hf'.
    apply app_inv_head in Hf'. split; [by destruct r|]. intros ->. destruct (Hnull eq_refl) as [?|[?|Hx]]; [done..|].
    destruct Hcomp as [?|Ec]; [lia|]. rewrite Ec in Hq. done.
Qed.

(** C31: [IntrusiveMPSCQueue], with any number of producers interleaving with the one
    consumer and clients that make and free the nodes they own.  No step of [push] or
    [pop] touches a freed node.  The nodes handed out so far, in order, followed by
    those that wait are exactly the nodes pushed, in the order of the exchanges, so
    every node comes out once and first in, first out; the waiting nodes are no
    client's.  [pop] answers null only when nothing waits, when a push is between its
    exchange and its link, or when a push completed while [pop] ran.  And when no push
    is half done, [pop] left alone returns, within nine steps, exactly the oldest
    waiting node, or null when there is none. *)
Theorem intrusive_mpsc_correct s : reachable stub_ s →
  (∀ pc, pc ∈ producers s → ∃ r, push pc (mem s) = Done r) ∧ (∃ r, pop stub_ (consumer s) (mem s) = Done r)
  ∧ ∃ waiting, pushed s = omap id (answers s) ++ waiting ∧ NoDup (waiting ++ owned s)
    ∧ (∀ q, pop stub_ (consumer s) (mem s) = Done (Returns None, q) → waiting = [] ∨ half_pushed s ∨ (0 < completed s)%nat)
    ∧ (consumer s = CIdle → ¬ half_pushed s → ∃ q, run_pop stub_ 9 CIdle (mem s) = Done (head waiting, q)).
Proof.
  intros Hr. destruct (mpsc_reachable_inv s Hr) as [l Hi]. split; [|split].
  - intros pc Hpc. apply elem_of_Permutation in Hpc as [rest Hp].
    destruct (mpsc_push_ok s pc rest (ex_intro _ l Hi) Hp) as (pc' & q & Hq & _). by eexists.
  - destruct (pop_ok s l Hi) as (a & q & Hq & _). by eexists.
  - exists (filter (.≠ stub_) l). split; [apply (i_fifo _ _ Hi)|]. split; [|split].
    + destruct (i_outside _ _ Hi) as [Hon Ho]. unfold outside in *. apply NoDup_app in Hon as (_ & _ & Hon). apply NoDup_app.
      split; [apply NoDup_filter, (i_nodup _ _ Hi)|]. split; [|done]. intros n [_ Hn]%list_elem_of_filter Hx.
      destruct (Ho n) as (_ & _ & ?); [set_solver|done].
    + intros q Hq. destruct (pop_ok s l Hi) as (a & q' & Hq' & _ & Hnull). rewrite Hq in Hq'. simplify_eq. by apply Hnull.
    + intros E Hnh. destruct (run_alone 9 s l Hi) as (r & q & l' & Hrun & Hf & Hnone); [rewrite E; cbn; lia|done|by right|].
      rewrite E in Hrun. exists q. rewrite Hrun. do 2 f_equal. destruct r as [n|]; [by rewrite Hf|]. by rewrite Hnone.
Qed.
End correct.

(** Two nodes pushed one after the other, with the stub at address 1. *)
Definition two_pushed : IntrusiveMPSC.state :=
  mkState (mkQueue {[ 1%positive := Some 2%positive; 2%positive := Some 3%positive; 3%positive := None ]} 3 1)
    [] CIdle [] [2; 3]%positive [] 2.

Local Ltac next_step c := eapply rtc_l; [eapply c; cbn; reflexivity|]; cbn.

Lemma two_pushed_reachable : reachable 1 two_pushed.
Proof.
  unfold reachable. eapply rtc_l; [by apply (step_new 1 (init 1) 3)|]. cbn.
  eapply rtc_l; [by eapply (step_new 1 _ 2)|]. cbn. do 2 (next_step step_start; do 3 next_step step_push).
  match goal with |- rtc _ ?s ?t => replace s with t by (vm_compute; reflexivity) end. apply rtc_refl.
Qed.

Lemma intrusive_mpsc_correct_witness : ∃ q, run_pop 1 9 CIdle (mem two_pushed) = Done (Some 2%positive, q).
Proof.
  destruct (intrusive_mpsc_correct 1 two_pushed two_pushed_reachable) as (_ & _ & w & Hw & _ & _ & Hrun).
  cbn in Hw. subst w. apply Hrun; [reflexivity|]. intros (a & b & Hab). cbn in Hab. by apply elem_of_nil in Hab.
Defined.
End IntrusiveMPSCCorrect.
