(* ===== verification/Select.v ===== *)
(** Waiting for the first of several operations ([Select.h], and [select_recv] of
    [AsyncChannel.h]): the operations are tried in turn from a rotating start; if none
    completes, a node is attached to each of them, all with one shared word [winner] that
    the first wake, timer or cancellation claims.

    Any number of coroutines, wakes and timers interleave, one step per access to shared
    memory.  What the operations work on is the class [Selectable]; its wait lists are the
    sequences they hold (the list itself is the subject of [WaitListCorrect]), and popping
    a node with the claim that follows, which happen under the lock of the list, are one
    step.  A sleep is an operation with a timer; what the timer wheel promises of it is that
    it fires once, or is cancelled before it has begun to fire. *)

From S2P Require Import Prelude WaitList.

Module Select.
Import WaitList.

Local Open Scope nat_scope.

(** The objects selects wait for. *)
Class Selectable (X : Type) := {
  Op : Type;
  op_list : Op → nat;              (** the wait list the operation attaches to *)
  op_try : Op → X → option X;      (** [try_complete] *)
  op_keep : Op → X → bool;         (** [attach]: still nothing to do after the node is queued *)
  op_drained : Op → X → bool;      (** a channel that is closed and empty *)
  Act : Type;                      (** what others do *)
  act_on : Act → X → option (X * list nat) (** with the lists in which it wakes one waiter *)
}.

(** ** [SleepOp] *)

(** How far the timer is. *)
Inductive stage :=
| TNull      (** not made yet *)
| TArmed     (** in the wheel *)
| F1         (** [on_fire]: [fired.store(true)] *)
| F2         (** [waiter.exchange(nullptr)] *)
| F3         (** [fire_waiter] *)
| F4         (** [fire_done.store(true)] *)
| TDone
| TCancelled.

Record SleepOp := mkSleep {
  t_ : stage;
  waiter : bool;    (** the node of the select, or null *)
  fired : bool;
  fire_done : bool
}.

Definition SleepOp_new : SleepOp := mkSleep TNull false false false.

(** [attach] up to its last read. *)
Definition sleep_attach (s : SleepOp) : SleepOp := {| s with waiter := true; t_ := match t_ s with TNull => TArmed | x => x end |}.

Section machine.
Context {X : Type} `{!Selectable X}.

Inductive sel_op :=
| Obj (o : Op)
| Sleep (s : SleepOp).

(** ** The coroutine *)

(** Which [detach_all] it is: after an attach failed, after the cancellation won, in
    [await_resume]. *)
Inductive detaching := DAnswer | DCancel | DResume.

Inductive pc :=
| STry (start k : nat)          (** [select_try_round]: the [k]th operation of the round *)
| SDrained (i : nat)            (** [select_recv]: is channel [i] drained? *)
| SEnter                        (** [await_suspend]: [cancel_requested] *)
| SAttach (i : nat)             (** [attach_all]: operation [i] *)
| SCheck (i : nat)              (** its last read *)
| SDetach (k : detaching) (i : nat) (** [detach_all]: operation [i] *)
| SFired (k : detaching) (i : nat)  (** [SleepOp::detach]: [fired.load] *)
| SSpin (k : detaching) (i : nat)   (** the wait for [fire_done] *)
| SAnswer                       (** [winner->load() != -1] *)
| SArm                          (** [arm_cancel] *)
| SCas                          (** [winner->compare_exchange_strong] *)
| SSusp                         (** suspended *)
| SWinner                       (** [winner->load() != kCancelledIndex] *)
| SFinal (i : nat) (res : option nat)     (** [finalize] of operation [i] *)
| SFinalSpin (i : nat) (res : option nat) (** its wait for [fire_done] *)
| SRet (res : option nat).      (** the index, or cancelled *)

(** [select], or [select_recv] *)
Inductive kind := KSelect | KSelectRecv.

Record Sel := mkSel {
  flavour : kind;
  rotation : nat;            (** [start] of [select], which keeps it for all rounds *)
  ops : list sel_op;
  active : list bool;        (** [MultiRecvWait::active] *)
  at_ : pc;
  winner : Z;
  owner : Z;
  cancel_requested : bool;
  kick : bool;               (** a cancel kick waits in the owner's inbox *)
  hook : bool;               (** [cancel_fn_] points to [on_cancel] *)
  completed : list nat       (** the operations that completed in this call *)
}.

Record St := mkSt {
  obj : X;
  waitq : gmap nat (list (ptr * nat)); (** the nodes in each list *)
  sels : gmap ptr Sel;
  wakes : list nat;          (** wakes on their way *)
  runq : list (ptr * Z)
}.

Definition wq (σ : St) (l : nat) : list (ptr * nat) := default [] (waitq σ !! l).
Definition set_wq (l : nat) (q : list (ptr * nat)) (σ : St) : St := {| σ with waitq := <[l := q]> (waitq σ) |}.
Definition set_sel (t : ptr) (T : Sel) (σ : St) : St := {| σ with sels := <[t := T]> (sels σ) |}.
Definition goto (t : ptr) (T : Sel) (p : pc) (σ : St) : St := set_sel t {| T with at_ := p |} σ.

(** The operations a list of wakes can pass over. *)
Definition is_active (T : Sel) (i : nat) : bool := default false (active T !! i).

(** After operation [i] of [attach_all], [detach_all] and [finalize]. *)
Definition next_attach (T : Sel) (i : nat) : pc := if S i <? length (ops T) then SAttach (S i) else SArm.
Definition next_detach (T : Sel) (k : detaching) (i : nat) : pc :=
  if S i <? length (ops T) then SDetach k (S i)
  else match k with DAnswer => SAnswer | DCancel => SFinal 0 None | DResume => SWinner end.
Definition next_final (T : Sel) (i : nat) (res : option nat) : pc := if S i <? length (ops T) then SFinal (S i) res else SRet res.

(** The round has found nothing: [select] suspends, [select_recv] looks for closed channels. *)
Definition after_round (T : Sel) : Sel :=
  match flavour T with
  | KSelect => {| T with winner := (-1)%Z; active := replicate (length (ops T)) true; at_ := SEnter |}
  | KSelectRecv => {| T with active := []; at_ := SDrained 0 |}
  end.

Definition try_step (t : ptr) (T : Sel) (start k : nat) (σ : St) : option St :=
  let i := (start + k) mod length (ops T) in
  let fail := set_sel t (if S k <? length (ops T) then {| T with at_ := STry start (S k) |} else after_round T) σ in
  let complete := set_sel t {| T with at_ := SFinal 0 (Some i); completed := completed T ++ [i] |} in
  match ops T !! i with
  | Some (Obj o) => match op_try o (obj σ) with Some x => Some (complete {| σ with obj := x |}) | None => Some fail end
  | Some (Sleep s) => Some (if fired s then complete σ else fail)
  | None => None
  end.

(** [select_recv]: the channel is skipped if it is drained; all drained is the end. *)
Definition drained_step (t : ptr) (T : Sel) (i : nat) (σ : St) : option St :=
  match ops T !! i with
  | Some (Obj o) =>
      let T := {| T with active := active T ++ [negb (op_drained o (obj σ))] |} in
      Some (if S i <? length (ops T) then goto t T (SDrained (S i)) σ
            else if existsb id (active T) then set_sel t {| T with winner := (-1)%Z; at_ := SEnter |} σ
            else goto t T (SFinal 0 None) σ)
  | _ => None
  end.

Definition set_op (T : Sel) (i : nat) (s : SleepOp) : Sel := {| T with ops := <[i := Sleep s]> (ops T) |}.

(** [SleepOp::detach]: the exchange, the look at [fired], the wait for [fire_done]. *)
Definition sleep_detach (t : ptr) (T : Sel) (k : detaching) (i : nat) (s : SleepOp) (σ : St) : option St :=
  match at_ T with
  | SDetach _ _ => Some (goto t (set_op T i {| s with waiter := false |}) (if waiter s then next_detach T k i else SFired k i) σ)
  | SFired _ _ => Some (goto t T (if fired s then SSpin k i else next_detach T k i) σ)
  | SSpin _ _ => if fire_done s then Some (goto t T (next_detach T k i) σ) else None
  | _ => None
  end.

(** [SelectSuspend]: [await_suspend] and [await_resume]. *)
Definition wait_step (t : ptr) (T : Sel) (σ : St) : option St :=
  match at_ T with
  | SEnter => Some (goto t T (if cancel_requested T then SFinal 0 None else SAttach 0) σ)
  | SAttach i =>
      if is_active T i then
        match ops T !! i with
        | Some (Obj o) => Some (goto t T (SCheck i) (set_wq (op_list o) (wq σ (op_list o) ++ [(t, i)]) σ))
        | Some (Sleep s) => Some (goto t (set_op T i (sleep_attach s)) (SCheck i) σ)
        | None => None
        end
      else Some (goto t T (next_attach T i) σ)
  | SCheck i =>
      match ops T !! i with
      | Some (Obj o) => Some (goto t T (if op_keep o (obj σ) then next_attach T i else SDetach DAnswer 0) σ)
      | Some (Sleep s) => Some (goto t T (if fired s then SDetach DAnswer 0 else next_attach T i) σ)
      | None => None
      end
  | SDetach k i =>
      if is_active T i then
        match ops T !! i with
        | Some (Obj o) => Some (goto t T (next_detach T k i) (set_wq (op_list o) (filter (λ n, n ≠ (t, i)) (wq σ (op_list o))) σ))
        | Some (Sleep s) => sleep_detach t T k i s σ
        | None => None
        end
      else Some (goto t T (next_detach T k i) σ)
  | SFired k i | SSpin k i =>
      match ops T !! i with
      | Some (Sleep s) => sleep_detach t T k i s σ
      | _ => None
      end
  | SAnswer => Some (goto t T (if (winner T =? -1)%Z then SDetach DResume 0 else SSusp) σ)
  | SArm => Some (goto t {| T with hook := true |} (if cancel_requested T then SCas else SSusp) σ)
  | SCas =>
      Some (if (winner T =? -1)%Z then goto t {| T with winner := kCancelledIndex; hook := false |} (SDetach DCancel 0) σ
            else goto t T SSusp σ)
  | _ => None
  end.

(** [MultiRecvWait] of [select_recv] has the same text, over the channels that are active. *)
Definition multi_recv_wait_step (t : ptr) (T : Sel) (σ : St) : option St := wait_step t T σ.

(** [SleepOp::finalize]: the timer is cancelled, or has to have fired. *)
Definition sleep_finalize (t : ptr) (T : Sel) (i : nat) (res : option nat) (s : SleepOp) (σ : St) : option St :=
  match at_ T with
  | SFinal _ _ =>
      Some (match t_ s with
            | TNull => goto t T (next_final T i res) σ
            | TArmed => goto t (set_op T i {| s with t_ := TCancelled |}) (next_final T i res) σ
            | _ => goto t T (SFinalSpin i res) σ
            end)
  | SFinalSpin _ _ => if fire_done s then Some (goto t T (next_final T i res) σ) else None
  | _ => None
  end.

(** The end of the loop: another round, or the end of the call. *)
Definition end_step (t : ptr) (T : Sel) (start : nat) (σ : St) : option St :=
  match at_ T with
  | SWinner => Some (goto t T (if (winner T =? kCancelledIndex)%Z then SFinal 0 None
                                else STry (match flavour T with KSelect => rotation T | KSelectRecv => start end) 0) σ)
  | SFinal i res | SFinalSpin i res =>
      match ops T !! i with
      | Some (Obj _) => Some (goto t T (next_final T i res) σ)
      | Some (Sleep s) => sleep_finalize t T i res s σ
      | None => None
      end
  | _ => None
  end.

Definition task_step (t : ptr) (T : Sel) (start : nat) (σ : St) : option St :=
  match at_ T with
  | STry start k => try_step t T start k σ
  | SDrained i => drained_step t T i σ
  | SWinner | SFinal _ _ | SFinalSpin _ _ => end_step t T start σ
  | _ => match flavour T with KSelect => wait_step t T σ | KSelectRecv => multi_recv_wait_step t T σ end
  end.

(** ** Wakes, timers, cancellation *)

(** [fire_waiter]: the claim, and the coroutine is queued. *)
Definition fire_waiter (t : ptr) (T : Sel) (i : nat) (σ : St) : bool * St :=
  if (winner T =? -1)%Z then (true, {| (set_sel t {| T with winner := Z.of_nat i |} σ) with runq := runq σ ++ [(t, owner T)] |})
  else (false, σ).

(** A wake takes nodes until a claim succeeds or the list is empty. *)
Definition wake_step (j : nat) (l : nat) (σ : St) : option St :=
  let drop (σ : St) := {| σ with wakes := delete j (wakes σ) |} in
  match wq σ l with
  | [] => Some (drop σ)
  | (t, i) :: q =>
      T ← sels σ !! t;
      let '(ok, σ) := fire_waiter t T i (set_wq l q σ) in
      Some (if (ok : bool) then drop σ else σ)
  end.

(** [on_fire] *)
Definition timer_step (t : ptr) (T : Sel) (i : nat) (s : SleepOp) (σ : St) : option St :=
  match t_ s with
  | TArmed => Some (set_sel t (set_op T i {| s with t_ := F1 |}) σ)
  | F1 => Some (set_sel t (set_op T i {| s with fired := true; t_ := F2 |}) σ)
  | F2 => Some (set_sel t (set_op T i {| s with waiter := false; t_ := if waiter s then F3 else F4 |}) σ)
  | F3 => Some (let T := set_op T i {| s with t_ := F4 |} in snd (fire_waiter t T i (set_sel t T σ)))
  | F4 => Some (set_sel t (set_op T i {| s with fire_done := true; t_ := TDone |}) σ)
  | TNull | TDone | TCancelled => None
  end.

(** [SelectSuspend::on_cancel], run by the owner while the coroutine is suspended. *)
Definition run_cancel_hook (t : ptr) (T : Sel) (σ : St) : St :=
  let armed := hook T in
  let T := {| T with hook := false; kick := false |} in
  let σ := set_sel t T σ in
  if armed && (winner T =? -1)%Z then {| (set_sel t {| T with winner := kCancelledIndex |} σ) with runq := runq σ ++ [(t, owner T)] |}
  else σ.

(** ** Steps *)

Inductive event :=
| EBegin (t : ptr) (k : kind) (l : list (option Op)) (start : nat) (own_ : Z) (** a call; no operation means a sleep *)
| ETask (t : ptr) (start : nat)  (** the coroutine goes on; [start] is the rotation of a next round of [select_recv] *)
| EAct (a : Act)                 (** others change the objects *)
| EWake (j : nat)                (** a wake goes on *)
| ETimer (t : ptr) (i : nat)     (** a timer goes on *)
| EResume (j : nat)              (** a worker resumes a coroutine *)
| ECancel (t : ptr)              (** [request_cancel] *)
| EKick (t : ptr).               (** the owner processes a cancel kick *)

Definition new_op (o : option Op) : sel_op := match o with Some o => Obj o | None => Sleep SleepOp_new end.

Definition call_ok (k : kind) (l : list (option Op)) : bool :=
  negb (length l =? 0) && match k with KSelect => true | KSelectRecv => forallb (λ o, match o with Some _ => true | None => false end) l end.

Definition step (e : event) (σ : St) : option St :=
  match e with
  | EBegin t k l start own_ =>
      if call_ok k l then
        match sels σ !! t with
        | None => Some (set_sel t (mkSel k start (new_op <$> l) [] (STry start 0) (-1) own_ false false false []) σ)
        | Some T =>
            match at_ T with
            | SRet _ => Some (set_sel t {| T with flavour := k; rotation := start; ops := new_op <$> l; active := []; at_ := STry start 0; winner := (-1)%Z; completed := [] |} σ)
            | _ => None
            end
        end
      else None
  | ETask t start => T ← sels σ !! t; task_step t T start σ
  | EAct a => '(x, l) ← act_on a (obj σ); Some {| σ with obj := x; wakes := wakes σ ++ l |}
  | EWake j => l ← wakes σ !! j; wake_step j l σ
  | ETimer t i => T ← sels σ !! t; match ops T !! i with Some (Sleep s) => timer_step t T i s σ | _ => None end
  | EResume j =>
      match runq σ !! j with
      | Some (t, _) =>
          T ← sels σ !! t;
          match at_ T with
          | SSusp => Some {| (goto t {| T with hook := false |} (SDetach DResume 0) σ) with runq := delete j (runq σ) |}
          | _ => None
          end
      | None => None
      end
  | ECancel t => T ← sels σ !! t; Some (if cancel_requested T then σ else set_sel t {| T with cancel_requested := true; kick := true |} σ)
  | EKick t =>
      T ← sels σ !! t;
      match kick T, at_ T with
      | true, SSusp => Some (run_cancel_hook t T σ)
      | _, _ => None
      end
  end.

Definition init (x : X) : St := mkSt x ∅ ∅ [] [].
Definition steps (σ σ' : St) : Prop := ∃ e, step e σ = Some σ'.
Definition reachable (x : X) (σ : St) : Prop := rtc steps (init x) σ.

Fixpoint run (es : list event) (σ : St) : option St :=
  match es with
  | [] => Some σ
  | e :: es => σ ← step e σ; run es σ
  end.
End machine.
End Select.
