(* ===== verification/SelectInv.v ===== *)
(** The invariant of a select: where its nodes and timers are while it goes through its
    places, and when it is queued. *)

From S2P Require Import Prelude WaitList Select.

Module SelectInv.
Import WaitList Select.
Local Open Scope nat_scope.

Section inv.
Context {X : Type} `{!Selectable X}.
Implicit Types (σ : St) (t : ptr) (T : Sel) (p : pc) (s : SleepOp) (i : nat).

(** * What a place says *)

(** Node [i] may be in its list, or in its timer. *)
Definition att p i : bool :=
  match p with
  | SAttach j => i <? j
  | SCheck j => i <=? j
  | SDetach _ j => j <=? i
  | SFired _ j | SSpin _ j => j <? i
  | SArm | SCas | SSusp => true
  | _ => false
  end.

(** The wait for a timer that is about to use the node. *)
Definition midway p i : bool := match p with SFired _ j | SSpin _ j => i =? j | _ => false end.

(** Node [i] has been attached, and nothing had happened to it by then. *)
Definition must p i : bool := match p with SAttach j | SCheck j => i <? j | SArm | SCas | SSusp => true | _ => false end.

(** The coroutine is on its way to be suspended, or is. *)
Definition pre p : bool :=
  match p with
  | SAttach _ | SCheck _ | SDetach DAnswer _ | SFired DAnswer _ | SSpin DAnswer _ | SAnswer | SArm | SCas | SSusp => true
  | _ => false
  end.

Definition in_detach (k : detaching) p : bool :=
  match p with SDetach k' _ | SFired k' _ | SSpin k' _ => match k, k' with DAnswer, DAnswer | DCancel, DCancel | DResume, DResume => true | _, _ => false end | _ => false end.

(** Between the first look at the cancellation and the end of the wait. *)
Definition waiting p : bool := pre p || in_detach DCancel p || in_detach DResume p || match p with SEnter => true | _ => false end.

Definition index_of p : option nat :=
  match p with SAttach i | SCheck i | SDetach _ i | SFired _ i | SSpin _ i | SFinal i _ | SFinalSpin i _ | SDrained i => Some i | _ => None end.

(** [finalize] is behind operation [i]. *)
Definition finalized p i : bool := match p with SFinal j _ | SFinalSpin j _ => i <? j | SRet _ => true | _ => false end.

Definition result_of p : option (option nat) := match p with SFinal _ r | SFinalSpin _ r | SRet r => Some r | _ => None end.

(** ** Sleeps *)

Definition stage_fired (x : stage) : bool := match x with F2 | F3 | F4 | TDone => true | _ => false end.
Definition settled (x : stage) : bool := match x with TNull | TDone | TCancelled => true | _ => false end.
Definition is_F3 (x : stage) : bool := match x with F3 => true | _ => false end.
Definition is_cancelled (x : stage) : bool := match x with TCancelled => true | _ => false end.

Record sleep_ok p i s : Prop := {
  s_fired : fired s = stage_fired (t_ s);
  s_done : fire_done s = match t_ s with TDone => true | _ => false end;
  s_waiter : waiter s = true → att p i = true;
  s_F3 : is_F3 (t_ s) = true → att p i || midway p i = true;
  s_final : finalized p i = true → settled (t_ s) = true;
  s_cancelled : is_cancelled (t_ s) = true → finalized p i = true;
  s_excl : waiter s = true → is_F3 (t_ s) = false
}.

(** The timer will claim the winner. *)
Definition will_fire s : bool := match t_ s with TArmed | F1 | F2 => waiter s | F3 => true | _ => false end.

(** * A select by itself: [lk i] says that node [i] is in its list, [q] that the coroutine
    is queued *)

Definition quiet (lk : nat → Prop) T : Prop :=
  (∀ i, ¬ lk i) ∧ ∀ i s, ops T !! i = Some (Sleep s) → waiter s = false ∧ is_F3 (t_ s) = false.

Record sel_ok (lk : nat → Prop) (q : Prop) T : Prop := {
  o_index i : index_of (at_ T) = Some i → i < length (ops T);
  o_len : 0 < length (ops T);
  o_att i : lk i → att (at_ T) i = true ∧ i < length (ops T) ∧ is_active T i = true;
  o_enter : at_ T = SEnter → winner T = (-1)%Z;
  o_recv i : at_ T = SDrained i → flavour T = KSelectRecv;
  o_sleep i s : ops T !! i = Some (Sleep s) → sleep_ok (at_ T) i s;
  o_queued : q ↔ winner T ≠ (-1)%Z ∧ pre (at_ T) = true;
  o_quiet : in_detach DResume (at_ T) = true → winner T ≠ (-1)%Z ∨ quiet lk T;
  o_cancelling : in_detach DCancel (at_ T) = true → winner T ≠ (-1)%Z;
  o_must i : winner T = (-1)%Z → must (at_ T) i = true → is_active T i = true →
    match ops T !! i with Some (Obj _) => lk i | Some (Sleep s) => will_fire s = true | None => True end;
  o_check i : winner T = (-1)%Z → at_ T = SCheck i →
    match ops T !! i with Some (Obj _) => lk i | Some (Sleep s) => waiter s || is_F3 (t_ s) = true | None => True end;
  o_made i s : ops T !! i = Some (Sleep s) → at_ T = SCheck i → t_ s ≠ TNull;
  o_done : completed T = match result_of (at_ T) with Some (Some i) => [i] | _ => [] end;
  o_request : kick T = true ∨ winner T = kCancelledIndex ∨ at_ T = SCas ∨ (flavour T = KSelect ∧ result_of (at_ T) = Some None) ∨ in_detach DCancel (at_ T) = true → cancel_requested T = true;
  o_all : flavour T = KSelect → waiting (at_ T) = true → active T = replicate (length (ops T)) true;
  o_kind i s : flavour T = KSelectRecv → ops T !! i ≠ Some (Sleep s)
}.

(** * All selects *)

Definition linked σ t i : Prop := ∃ l, (t, i) ∈ wq σ l.
Definition queued σ t : Prop := t ∈ (runq σ).*1.

Record inv σ : Prop := {
  i_node t i l : (t, i) ∈ wq σ l → ∃ T o, sels σ !! t = Some T ∧ ops T !! i = Some (Obj o) ∧ op_list o = l;
  i_nodup l : NoDup (wq σ l);
  i_runq : NoDup (runq σ).*1;
  i_owner t tid : (t, tid) ∈ runq σ → ∃ T, sels σ !! t = Some T ∧ tid = owner T;
  i_sel t T : sels σ !! t = Some T → sel_ok (linked σ t) (queued σ t) T
}.

Lemma sel_ok_ext (lk lk' : nat → Prop) (q q' : Prop) T : (∀ i, lk' i ↔ lk i) → (q' ↔ q) → sel_ok lk q T → sel_ok lk' q' T.
Proof.
  intros Hlk Hq [H1 H2 H3 H3' H3'' H4 H5 H6 H7 H8 H9 H10 H11 H12 H13 H14]. split; try done.
  - intros i Hi. by apply H3, Hlk.
  - tauto.
  - intros Hd. destruct (H6 Hd) as [?|[Ha Hb]]; [by left|]. right. split; [|done]. intros i Hi. by apply (Ha i), Hlk.
  - intros i Hw Hm Ha. specialize (H8 i Hw Hm Ha). destruct (ops T !! i) as [[|]|]; [by apply Hlk|done|done].
  - intros i Hw Hm. specialize (H9 i Hw Hm). destruct (ops T !! i) as [[|]|]; [by apply Hlk|done|done].
Qed.

(** One select changes, with its nodes and its place in the queue. *)
Lemma lift σ σ' t T' : inv σ → sels σ' = <[t := T']> (sels σ) →
  (∀ t' i l, t' ≠ t → (t', i) ∈ wq σ' l ↔ (t', i) ∈ wq σ l) → (∀ t', t' ≠ t → queued σ' t' ↔ queued σ t') →
  (∀ i l, (t, i) ∈ wq σ' l → ∃ o, ops T' !! i = Some (Obj o) ∧ op_list o = l) → (∀ l, NoDup (wq σ' l)) → NoDup (runq σ').*1 →
  (∀ t' tid, (t', tid) ∈ runq σ' → (t', tid) ∈ runq σ ∧ t' ≠ t ∨ t' = t ∧ tid = owner T') →
  sel_ok (linked σ' t) (queued σ' t) T' → inv σ'.
Proof.
  intros Hi E Hwq Hq Hnode Hnd Hrq Hown Hok. split; [|done|done| |].
  - intros t' i l Hin. rewrite E. destruct (decide (t' = t)) as [->|Hne].
    + destruct (Hnode i l Hin) as (o & ? & ?). exists T', o. by rewrite lookup_insert_eq.
    + apply Hwq in Hin; [|done]. rewrite lookup_insert_ne by done. by apply (i_node σ Hi).
  - intros t' tid Hin. rewrite E. apply Hown in Hin as [[Hin Hne]|[-> ->]]; [|exists T'; by rewrite lookup_insert_eq].
    rewrite lookup_insert_ne by done. by apply (i_owner σ Hi).
  - intros t' T1 H1. rewrite E in H1. apply lookup_insert_Some in H1 as [[<- <-]|[Hne H1]]; [done|].
    eapply sel_ok_ext; [| |by apply (i_sel σ Hi)].
    + intros i. unfold linked. split; intros [l Hl]; exists l; by apply (Hwq t' i l).
    + by apply Hq.
Qed.

(** The objects and the wakes on their way are not part of it. *)
Lemma inv_obj σ σ' : inv σ → waitq σ' = waitq σ → sels σ' = sels σ → runq σ' = runq σ → inv σ'.
Proof. intros [H1 H2 H3 H4 H5] E1 E2 E3. destruct σ, σ'. cbn in *. subst. by split. Qed.

(** Only the select itself changes. *)
Lemma lift_self σ t T T' : inv σ → sels σ !! t = Some T → owner T' = owner T → (∀ i o, ops T !! i = Some (Obj o) → ops T' !! i = Some (Obj o)) →
  (sel_ok (linked σ t) (queued σ t) T → sel_ok (linked σ t) (queued σ t) T') → inv (set_sel t T' σ).
Proof.
  intros Hi HT Eo Hops Hok. apply (lift σ _ t T'); [done|done|done|done| |apply (i_nodup σ Hi)|apply (i_runq σ Hi)| |].
  - intros i l Hin. destruct (i_node σ Hi t i l Hin) as (T0 & o & HT0 & Ho & El). assert (T0 = T) as -> by congruence. exists o. split; [by apply Hops|done].
  - intros t' tid Hin. destruct (decide (t' = t)) as [->|Hne]; [|by left]. right. split; [done|].
    destruct (i_owner σ Hi t tid Hin) as (T0 & HT0 & ->). assert (T0 = T) as -> by congruence. done.
  - by apply Hok, (i_sel σ Hi).
Qed.

(** * Moving on *)

Lemma sleep_move p p' i s : sleep_ok p i s → (waiter s = true → att p' i = true) → (is_F3 (t_ s) = true → att p' i || midway p' i = true) →
  (finalized p' i = true → settled (t_ s) = true) → (is_cancelled (t_ s) = true → finalized p' i = true) → sleep_ok p' i s.
Proof. intros [? ? ? ? ? ? ?] ? ? ? ?. by split. Qed.

(** From a place without nodes to another, within or at the end of a call. *)
Definition bare p : bool := match p with STry _ _ | SDrained _ | SEnter | SAnswer | SWinner | SFinal _ _ | SFinalSpin _ _ | SRet _ => true | _ => false end.

Lemma bare_att p i : bare p = true → att p i = false ∧ midway p i = false ∧ must p i = false ∧ in_detach DResume p = false ∧ in_detach DCancel p = false.
Proof. by destruct p. Qed.

Lemma bare_quiet lk q T : sel_ok lk q T → bare (at_ T) = true → quiet lk T.
Proof.
  intros Hok Hb. split.
  - intros i Hl. apply (o_att _ _ _ Hok) in Hl as (Hl & _). by rewrite (proj1 (bare_att _ i Hb)) in Hl.
  - intros i s Hs. destruct (o_sleep _ _ _ Hok i s Hs) as [_ _ Hw H3 _ _ _]. destruct (bare_att _ i Hb) as (Ha & Hm & _). rewrite Ha in Hw, H3. rewrite Hm in H3.
    split; [destruct (waiter s); [by specialize (Hw eq_refl)|done]|destruct (is_F3 (t_ s)); [by specialize (H3 eq_refl)|done]].
Qed.

(** A select that is quiet keeps its sleeps in order at any place that is not after them. *)
Lemma quiet_sleep lk T p p' i s : quiet lk T → ops T !! i = Some (Sleep s) → sleep_ok p i s → finalized p i = false → finalized p' i = false → sleep_ok p' i s.
Proof.
  intros [_ Hq] Hs Hok Hf Hf'. destruct (Hq i s Hs) as [Hw H3]. apply (sleep_move p); [done|by rewrite Hw|by rewrite H3|by rewrite Hf'|].
  intros Hc. apply (s_cancelled _ _ _ Hok) in Hc. congruence.
Qed.
End inv.
End SelectInv.
