(* ===== verification/SelectSteps.v ===== *)
(** Every step of a select keeps the invariant. *)

From S2P Require Import Prelude WaitList Select SelectInv.

Module SelectSteps.
Import WaitList Select SelectInv.
Local Open Scope nat_scope.

Section steps.
Context {X : Type} `{!Selectable X}.
Implicit Types (σ : St) (t : ptr) (T : Sel) (p : pc) (s : SleepOp) (i : nat).

(** * Places without nodes *)

(** From a place without nodes to another one, before the end of the call. *)
Lemma ok_bare lk q T T' : sel_ok lk q T → bare (at_ T) = true → bare (at_ T') = true → pre (at_ T) = false → pre (at_ T') = false →
  ops T' = ops T → flavour T' = flavour T → kick T' = kick T → cancel_requested T' = cancel_requested T →
  (∀ i, index_of (at_ T') = Some i → i < length (ops T)) → (at_ T' = SEnter → winner T' = (-1)%Z) →
  (∀ i, at_ T' = SDrained i → flavour T = KSelectRecv) → (∀ i, finalized (at_ T) i = false) → (∀ i, finalized (at_ T') i = false) →
  completed T' = match result_of (at_ T') with Some (Some i) => [i] | _ => [] end →
  (winner T' = kCancelledIndex ∨ (flavour T = KSelect ∧ result_of (at_ T') = Some None) → cancel_requested T = true) →
  (flavour T = KSelect → at_ T' = SEnter → active T' = replicate (length (ops T)) true) → sel_ok lk q T'.
Proof.
  intros Hok Hb Hb' Hp Hp' Eo Ef Ek Ec Hidx Hent Hrecv Hf Hf' Hdone Hreq Hall. pose proof (bare_quiet _ _ _ Hok Hb) as Hq.
  destruct (bare_att (at_ T') 0 Hb') as (_ & _ & _ & Hr' & Hc'). split; rewrite ?Eo, ?Ef, ?Ek, ?Ec; try done.
  - apply (o_len _ _ _ Hok).
  - intros i Hl. by destruct (proj1 Hq i).
  - intros i s Hs. eapply (quiet_sleep lk T (at_ T)); [done|done|by apply (o_sleep _ _ _ Hok)|done|done].
  - rewrite (o_queued _ _ _ Hok). rewrite Hp, Hp'. split; by intros [_ ?].
  - by rewrite Hr'.
  - by rewrite Hc'.
  - intros i _ Hm. destruct (bare_att (at_ T') i Hb') as (_ & _ & Hm' & _). congruence.
  - intros i _ Hs. rewrite Hs in Hb'. done.
  - intros i s Hs Hs'. by rewrite Hs' in Hb'.
  - intros [Hk|[Hw|[Hs|[Hr|Hd]]]]; [apply (o_request _ _ _ Hok); by left|apply Hreq; by left|by rewrite Hs in Hb'|apply Hreq; by right|congruence].
  - intros Hfl Hw. apply Hall; [done|]. unfold waiting in Hw. rewrite Hp', Hr', Hc' in Hw. by destruct (at_ T').
  - apply (o_kind _ _ _ Hok).
Qed.

Lemma try_ok t T start k σ σ' : inv σ → sels σ !! t = Some T → at_ T = STry start k → try_step t T start k σ = Some σ' → inv σ'.
Proof.
  intros Hi HT E H. pose proof (i_sel σ Hi t T HT) as Hok. pose proof (o_len _ _ _ Hok) as Hlen. pose proof (o_done _ _ _ Hok) as Hd. rewrite E in Hd. cbn in Hd.
  assert (Hreq : winner T = kCancelledIndex → cancel_requested T = true) by (intros Hw; apply (o_request _ _ _ Hok); auto).
  set (i := (start + k) mod length (ops T)) in *.
  assert (Hcomp : inv (set_sel t {| T with at_ := SFinal 0 (Some i); completed := completed T ++ [i] |} σ)).
  { apply (lift_self σ t T); [done..|]. intros _. eapply ok_bare; rewrite ?E; cbn; try done.
    - by intros j [= <-].
    - by rewrite Hd.
    - intros [Hw|[_ ?]]; [by apply Hreq|done]. }
  assert (Hfail : inv (set_sel t (if S k <? length (ops T) then {| T with at_ := STry start (S k) |} else after_round T) σ)).
  { apply (lift_self σ t T); [done|done|unfold after_round; by repeat case_match|intros j o Ho; unfold after_round; by repeat case_match|]. intros _. destruct (S k <? length (ops T)).
    - eapply ok_bare; rewrite ?E; cbn; try done. intros [Hw|[_ ?]]; [by apply Hreq|done].
    - unfold after_round. destruct (flavour T) eqn:Ef; eapply ok_bare; rewrite ?E; cbn; try done.
      + by intros [?|[_ ?]].
      + by intros j [= <-].
      + intros [Hw|[_ ?]]; [by apply Hreq|done]. }
  unfold try_step in H. cbn zeta in H. change ((start + k) mod length (ops T)) with i in H. destruct (ops T !! i) as [[o|s]|] eqn:Eo; [| |done].
  - destruct (op_try o (obj σ)) as [x|]; injection H as <-; [|exact Hfail]. by eapply inv_obj; [exact Hcomp|..].
  - injection H as <-. destruct (fired s); [exact Hcomp|exact Hfail].
Qed.

Lemma drained_ok t T i σ σ' : inv σ → sels σ !! t = Some T → at_ T = SDrained i → drained_step t T i σ = Some σ' → inv σ'.
Proof.
  intros Hi HT E H. pose proof (i_sel σ Hi t T HT) as Hok. pose proof (o_recv _ _ _ Hok i E) as Hfl. pose proof (o_done _ _ _ Hok) as Hd. rewrite E in Hd. cbn in Hd.
  assert (Hreq : winner T = kCancelledIndex → cancel_requested T = true) by (intros Hw; apply (o_request _ _ _ Hok); auto).
  unfold drained_step in H. destruct (ops T !! i) as [[o|s]|]; [|done..]. injection H as <-. cbn [ops active goto].
  destruct (Nat.ltb_spec (S i) (length (ops T))) as [Hlt|Hge].
  - apply (lift_self σ t T); [done..|]. intros _. eapply ok_bare; rewrite ?E; cbn; try done.
    + by intros j [= <-].
    + intros [Hw|[_ ?]]; [by apply Hreq|done].
  - destruct (existsb _ _); (apply (lift_self σ t T); [done..|]); intros _; eapply ok_bare; rewrite ?E; cbn; try done.
    + by intros [?|[_ ?]].
    + congruence.
    + intros j [= <-]. apply (o_len _ _ _ Hok).
    + intros [Hw|[? _]]; [by apply Hreq|congruence].
Qed.

(** * Places with nodes *)

(** A move within [await_suspend] or [await_resume]: the nodes, the sleeps and the place
    change. *)
Lemma ok_move lk lk' (q : Prop) T (p' : pc) ops' : sel_ok lk q T → length ops' = length (ops T) → pre p' = pre (at_ T) →
  result_of (at_ T) = None → result_of p' = None → p' ≠ SEnter → (∀ i, p' ≠ SDrained i) → (p' = SCas → cancel_requested T = true) →
  (in_detach DCancel p' = true → in_detach DCancel (at_ T) = true) → (waiting p' = true → waiting (at_ T) = true) →
  (∀ i, index_of p' = Some i → i < length (ops T)) → (∀ i, lk' i → att p' i = true ∧ i < length (ops T) ∧ is_active T i = true) →
  (∀ i s, ops' !! i = Some (Sleep s) → sleep_ok p' i s) → (∀ i s, ops' !! i = Some (Sleep s) → ∃ s0, ops T !! i = Some (Sleep s0)) →
  (in_detach DResume p' = true → winner T ≠ (-1)%Z ∨ quiet lk' {| T with ops := ops' |}) →
  (∀ i, winner T = (-1)%Z → must p' i = true ∧ is_active T i = true →
    match ops' !! i with Some (Obj _) => lk' i | Some (Sleep s) => will_fire s = true | None => True end) →
  (∀ i, winner T = (-1)%Z → p' = SCheck i →
    match ops' !! i with Some (Obj _) => lk' i | Some (Sleep s) => waiter s || is_F3 (t_ s) = true | None => True end) →
  (∀ i s, ops' !! i = Some (Sleep s) → p' = SCheck i → t_ s ≠ TNull) →
  sel_ok lk' q {| T with ops := ops'; at_ := p' |}.
Proof.
  intros Hok El Ep Er Er' Hne Hnd Hcas Hcan Hwt Hidx Hatt Hsl Hsl0 Hres Hmust Hchk Hmade. split; cbn; rewrite ?El, ?Ep; try done.
  - apply (o_len _ _ _ Hok).
  - intros i Hp. by destruct (Hnd i).
  - apply (o_queued _ _ _ Hok).
  - intros Hd. by apply (o_cancelling _ _ _ Hok), Hcan.
  - intros i Hw Hm Ha. by apply Hmust.
  - rewrite Er'. pose proof (o_done _ _ _ Hok) as Hd. by rewrite Er in Hd.
  - rewrite Er'. intros [Hk|[Hw|[Hs|[[_ ?]|Hd]]]]; [apply (o_request _ _ _ Hok); tauto..|by apply Hcas|done|apply (o_request _ _ _ Hok); tauto].
  - intros Hf Hp. by apply (o_all _ _ _ Hok Hf), Hwt.
  - intros i s Hf Hs. destruct (Hsl0 i s Hs) as [s0 Hs0]. by apply (o_kind _ _ _ Hok i s0 Hf) in Hs0.
Qed.

(** The same when the sleeps stay. *)
Lemma ok_goto lk lk' (q : Prop) T (p' : pc) : sel_ok lk q T → pre p' = pre (at_ T) →
  result_of (at_ T) = None → result_of p' = None → p' ≠ SEnter → (∀ i, p' ≠ SDrained i) → (p' = SCas → cancel_requested T = true) →
  (in_detach DCancel p' = true → in_detach DCancel (at_ T) = true) → (waiting p' = true → waiting (at_ T) = true) →
  (∀ i, index_of p' = Some i → i < length (ops T)) → (∀ i, lk' i → att p' i = true ∧ i < length (ops T) ∧ is_active T i = true) →
  (∀ i s, ops T !! i = Some (Sleep s) → waiter s = true → att p' i = true) → (∀ i s, ops T !! i = Some (Sleep s) → is_F3 (t_ s) = true → att p' i || midway p' i = true) →
  (in_detach DResume p' = true → winner T ≠ (-1)%Z ∨ quiet lk' T) →
  (∀ i, winner T = (-1)%Z → must p' i = true ∧ is_active T i = true →
    match ops T !! i with Some (Obj _) => lk' i | Some (Sleep s) => will_fire s = true | None => True end) →
  (∀ i, winner T = (-1)%Z → p' = SCheck i →
    match ops T !! i with Some (Obj _) => lk' i | Some (Sleep s) => waiter s || is_F3 (t_ s) = true | None => True end) →
  (∀ i s, ops T !! i = Some (Sleep s) → p' = SCheck i → t_ s ≠ TNull) →
  sel_ok lk' q {| T with at_ := p' |}.
Proof.
  intros Hok Ep Er Er' Hne Hnd Hcas Hcan Hwt Hidx Hatt Hw H3 Hres Hmust Hchk Hmade. apply (ok_move lk lk' q T p' (ops T)); try done; [|eauto].
  intros i s Hs. pose proof (o_sleep _ _ _ Hok i s Hs) as Hso. assert (Hf : ∀ p, result_of p = None → finalized p i = false) by by intros [].
  apply (sleep_move (at_ T)); [done|by apply (Hw i)|by apply (H3 i)|by rewrite (Hf p')|]. intros Hc. apply (s_cancelled _ _ _ Hso) in Hc. by rewrite (Hf (at_ T)) in Hc.
Qed.

(** ** Detaching *)

(** The last place of [detach_all], or the next node: those up to [i] are free. *)
Lemma ok_next_detach lk lk' (q : Prop) T k i ops' : sel_ok lk q T → in_detach k (at_ T) = true → index_of (at_ T) = Some i → length ops' = length (ops T) →
  (∀ j, lk' j → i < j ∧ lk j) → (∀ j s, ops' !! j = Some (Sleep s) → sleep_ok (at_ T) j s ∧ (waiter s = true → i < j) ∧ (is_F3 (t_ s) = true → i < j)) →
  (∀ j s, ops' !! j = Some (Sleep s) → ∃ s0, ops T !! j = Some (Sleep s0) ∧ (waiter s = true → waiter s0 = true) ∧ t_ s = t_ s0) →
  sel_ok lk' q {| T with ops := ops'; at_ := next_detach T k i |}.
Proof.
  intros Hok Hin Hidx El Hlk Hsl Hsub. pose proof (o_index _ _ _ Hok i Hidx) as Hi.
  assert (Hlt : ∀ j s, ops' !! j = Some (Sleep s) → j < length (ops T)) by (intros j s Hs; rewrite <- El; by eapply lookup_lt_Some).
  assert (Hfin : ∀ j, finalized (at_ T) j = false) by (intros j; by destruct (at_ T)).
  assert (Hq : quiet lk T → quiet lk' {| T with ops := ops' |}).
  { intros [Ha Hb]. split; [intros j Hj; by apply (Ha j), Hlk|]. cbn. intros j s Hs. destruct (Hsub j s Hs) as (s0 & Hs0 & Hw & Et). destruct (Hb j s0 Hs0) as [Hw0 H3].
    rewrite Et. split; [|done]. destruct (waiter s); [by rewrite Hw in Hw0|done]. }
  assert (Hmove : ∀ p', pre p' = pre (at_ T) → result_of p' = None → p' ≠ SEnter → (∀ j, p' ≠ SDrained j) → p' ≠ SCas → (∀ j, must p' j = false) → (∀ j, p' ≠ SCheck j) →
    (in_detach DCancel p' = true → in_detach DCancel (at_ T) = true) → (in_detach DResume p' = true → in_detach DResume (at_ T) = true) →
    (∀ j, index_of p' = Some j → j < length (ops T)) → (∀ j, j < length (ops T) → att p' j = (i <? j)) → sel_ok lk' q {| T with ops := ops'; at_ := p' |}).
  { intros p' Hpre Hres Hne Hnd Hnc Hmu Hnch Hc Hr Hb Hatt. apply (ok_move lk); try done.
    - by destruct (at_ T).
    - by destruct (at_ T); [..|destruct k0|destruct k0|destruct k0| | | | | | | |].
    - intros j Hj. destruct (Hlk j Hj) as [Hij Hl]. destruct (o_att _ _ _ Hok j Hl) as (_ & Hjl & Ha). rewrite Hatt by done. split; [by apply Nat.ltb_lt|done].
    - intros j s Hs. destruct (Hsl j s Hs) as (Hso & Hw & H3). pose proof (Hlt j s Hs) as Hj. apply (sleep_move (at_ T)); [done| | | |].
      + intros Hw'. rewrite Hatt by done. by apply Nat.ltb_lt, Hw.
      + intros H3'. rewrite Hatt by done. rewrite (proj2 (Nat.ltb_lt i j)); [done|by apply H3].
      + by destruct p'.
      + intros Hc'. apply (s_cancelled _ _ _ Hso) in Hc'. by rewrite Hfin in Hc'.
    - intros j s Hs. destruct (Hsub j s Hs) as (s0 & Hs0 & _). by exists s0.
    - intros Hr'. destruct (o_quiet _ _ _ Hok (Hr Hr')) as [?|?]; [by left|right; by apply Hq].
    - intros j _ [Hm _]. by rewrite Hmu in Hm.
    - intros j _ Hch. by destruct (Hnch j).
    - intros j s _ Hch. by destruct (Hnch j). }
  unfold next_detach. destruct (Nat.ltb_spec (S i) (length (ops T))) as [Hn|Hn].
  - apply Hmove; try done; [by destruct (at_ T); try done; destruct k, k0|by destruct (at_ T); try done; destruct k, k0|by destruct (at_ T); try done; destruct k, k0|by intros j [= <-]].
  - assert (Hend : ∀ p', pre p' = pre (at_ T) → result_of p' = None → bare p' = true → p' ≠ SEnter → (∀ j, p' ≠ SDrained j) → sel_ok lk' q {| T with ops := ops'; at_ := p' |}).
    { intros p' Hpre Hres Hb Hne Hnd. destruct (bare_att p' 0 Hb) as (_ & _ & _ & Hr & Hc). apply Hmove; try done.
      - by intros ->.
      - intros j. by destruct (bare_att p' j Hb) as (_ & _ & ? & _).
      - by intros j ->.
      - by rewrite Hc.
      - by rewrite Hr.
      - intros j Hj. exfalso. destruct p' as [| i' | | | | | | | | | | | | | |]; try done. by destruct (Hnd i').
      - intros j Hj. destruct (bare_att p' j Hb) as (-> & _). symmetry. apply Nat.ltb_ge. lia. }
    destruct k.
    + apply Hend; try done. by destruct (at_ T); try done; destruct k.
    + apply (ok_bare lk' q {| T with ops := ops'; at_ := SWinner |}); cbn; try done.
      * apply Hend; try done. by destruct (at_ T); try done; destruct k.
      * intros j [= <-]. rewrite El. lia.
      * pose proof (o_done _ _ _ Hok) as Hd. by destruct (at_ T).
      * intros _. apply (o_request _ _ _ Hok). tauto.
    + apply Hend; try done. by destruct (at_ T); try done; destruct k.
Qed.

(** * Lists *)

Lemma wq_set l q σ l' : wq (set_wq l q σ) l' = if decide (l' = l) then q else wq σ l'.
Proof. unfold wq, set_wq. cbn. case_decide as E; [subst; by rewrite lookup_insert_eq|by rewrite lookup_insert_ne]. Qed.

Lemma linked_at σ t i T o l : inv σ → sels σ !! t = Some T → ops T !! i = Some (Obj o) → (t, i) ∈ wq σ l → l = op_list o.
Proof. intros Hi HT Ho Hin. destruct (i_node σ Hi t i l Hin) as (T0 & o0 & HT0 & Ho0 & <-). congruence. Qed.

(** A node is queued. *)
Lemma lift_push σ t T i o p' : inv σ → sels σ !! t = Some T → ops T !! i = Some (Obj o) → ¬ linked σ t i →
  (∀ lk, (∀ j, lk j ↔ linked σ t j ∨ j = i) → sel_ok lk (queued σ t) {| T with at_ := p' |}) →
  inv (goto t T p' (set_wq (op_list o) (wq σ (op_list o) ++ [(t, i)]) σ)).
Proof.
  intros Hi HT Ho Hnl Hok. set (σ' := goto _ _ _ _). assert (Hwq : ∀ l, wq σ' l = if decide (l = op_list o) then wq σ (op_list o) ++ [(t, i)] else wq σ l) by (intros l; apply wq_set).
  assert (Hin : ∀ t' j l, (t', j) ∈ wq σ' l ↔ (t', j) ∈ wq σ l ∨ t' = t ∧ j = i ∧ l = op_list o).
  { intros t' j l. rewrite Hwq. case_decide as E; [subst|naive_solver]. rewrite elem_of_app, list_elem_of_singleton. split; [intros [?|[= -> ->]]; auto|intros [?|(-> & -> & _)]; auto]. }
  apply (lift σ σ' t {| T with at_ := p' |}); [done|done| |done| | |apply (i_runq σ Hi)| |].
  - intros t' j l Hne. rewrite Hin. tauto.
  - intros j l [Hj|(_ & -> & ->)]%Hin; [|by exists o]. destruct (i_node σ Hi t j l Hj) as (T0 & o0 & HT0 & Ho0 & El). assert (T0 = T) as -> by congruence. by exists o0.
  - intros l. rewrite Hwq. case_decide; [|apply (i_nodup σ Hi)]. apply NoDup_app. split; [apply (i_nodup σ Hi)|]. split; [|apply NoDup_singleton].
    intros x Hx ->%list_elem_of_singleton. apply Hnl. by eexists.
  - intros t' tid Hq. destruct (decide (t' = t)) as [->|]; [|by left]. right. split; [done|]. destruct (i_owner σ Hi t tid Hq) as (T0 & HT0 & ->). by assert (T0 = T) as -> by congruence.
  - apply Hok. intros j. unfold linked. split.
    + intros [l [Hl|(_ & -> & _)]%Hin]; [left; by exists l|by right].
    + intros [[l Hl]| ->]; [exists l; apply Hin; by left|exists (op_list o); apply Hin; by right].
Qed.

(** A node is taken out. *)
Lemma lift_remove σ t T i o p' : inv σ → sels σ !! t = Some T → ops T !! i = Some (Obj o) →
  (∀ lk, (∀ j, lk j ↔ linked σ t j ∧ j ≠ i) → sel_ok lk (queued σ t) {| T with at_ := p' |}) →
  inv (goto t T p' (set_wq (op_list o) (filter (λ n, n ≠ (t, i)) (wq σ (op_list o))) σ)).
Proof.
  intros Hi HT Ho Hok. set (σ' := goto _ _ _ _).
  assert (Hwq : ∀ l, wq σ' l = if decide (l = op_list o) then filter (λ n, n ≠ (t, i)) (wq σ (op_list o)) else wq σ l) by (intros l; apply wq_set).
  assert (Hin : ∀ t' j l, (t', j) ∈ wq σ' l ↔ (t', j) ∈ wq σ l ∧ (t', j) ≠ (t, i)).
  { intros t' j l. rewrite Hwq. case_decide as E; [subst; rewrite list_elem_of_filter; tauto|]. split; [|tauto]. intros Hl. split; [done|]. intros [= -> ->].
    by apply E, (linked_at σ t i T). }
  apply (lift σ σ' t {| T with at_ := p' |}); [done|done| |done| | |apply (i_runq σ Hi)| |].
  - intros t' j l Hne. rewrite Hin. split; [tauto|]. intros ?. split; [done|congruence].
  - intros j l [Hj _]%Hin. destruct (i_node σ Hi t j l Hj) as (T0 & o0 & HT0 & Ho0 & El). assert (T0 = T) as -> by congruence. by exists o0.
  - intros l. rewrite Hwq. case_decide; [apply NoDup_filter|]; apply (i_nodup σ Hi).
  - intros t' tid Hq. destruct (decide (t' = t)) as [->|]; [|by left]. right. split; [done|]. destruct (i_owner σ Hi t tid Hq) as (T0 & HT0 & ->). by assert (T0 = T) as -> by congruence.
  - apply Hok. intros j. unfold linked. split.
    + intros [l [Hl Hne]%Hin]. split; [by exists l|congruence].
    + intros [[l Hl] Hne]. exists l. apply Hin. split; [done|congruence].
Qed.

(** * [await_suspend] *)

(** Attaching has reached the next place: all up to [i] is attached. *)
Lemma ok_next_attach lk (q : Prop) T i : sel_ok lk q T → (at_ T = SAttach i ∧ is_active T i = false ∨ at_ T = SCheck i) →
  (winner T = (-1)%Z → is_active T i = true → match ops T !! i with Some (Obj _) => lk i | Some (Sleep s) => will_fire s = true | None => True end) →
  sel_ok lk q {| T with at_ := next_attach T i |}.
Proof.
  intros Hok Hat Hlast. assert (Hi : i < length (ops T)) by (apply (o_index _ _ _ Hok); by destruct Hat as [[-> _]| ->]).
  assert (Hpre : pre (at_ T) = true ∧ result_of (at_ T) = None ∧ waiting (at_ T) = true) by (by destruct Hat as [[-> _]| ->]). destruct Hpre as (Hpre & Hres & Hwt).
  assert (Hold : ∀ j, j < length (ops T) → att (at_ T) j = true → j ≤ i).
  { intros j Hj Ha. destruct Hat as [[E _]|E]; rewrite E in Ha; cbn in Ha; [apply Nat.ltb_lt in Ha|apply Nat.leb_le in Ha]; lia. }
  assert (Hmold : ∀ j, j < i → must (at_ T) j = true) by (intros j Hj; destruct Hat as [[-> _]| ->]; by apply Nat.ltb_lt).
  assert (Hmid : ∀ j, midway (at_ T) j = false) by (intros j; by destruct Hat as [[-> _]| ->]).
  assert (Hatt : ∀ j, j < length (ops T) → att (next_attach T i) j = (j <=? i) ∧ must (next_attach T i) j = (j <=? i)).
  { intros j Hj. unfold next_attach. destruct (Nat.ltb_spec (S i) (length (ops T))); cbn; [done|].
    split; symmetry; apply Nat.leb_le; lia. }
  assert (Hshape : ∃ p, next_attach T i = p ∧ pre p = true ∧ result_of p = None ∧ p ≠ SEnter ∧ (∀ j, p ≠ SDrained j) ∧ p ≠ SCas ∧ in_detach DCancel p = false ∧ in_detach DResume p = false ∧ waiting p = true ∧
    (∀ j, index_of p = Some j → j < length (ops T)) ∧ (∀ j, p ≠ SCheck j)).
  { unfold next_attach. destruct (Nat.ltb_spec (S i) (length (ops T))); eexists; (split; [done|]); repeat split; try done. by intros j [= <-]. }
  destruct Hshape as (p & Ep & Hp1 & Hp2 & Hp3 & Hp4 & Hp5 & Hp6 & Hp7 & Hp8 & Hp9 & Hp10). rewrite Ep in *. apply (ok_goto lk); try done; try congruence.
  - intros j Hj. destruct (o_att _ _ _ Hok j Hj) as (Ha & Hjl & Hac). rewrite (proj1 (Hatt j Hjl)). split; [by apply Nat.leb_le, Hold|done].
  - intros j s Hs Hw. pose proof (lookup_lt_Some _ _ _ Hs) as Hjl. rewrite (proj1 (Hatt j Hjl)). apply Nat.leb_le, Hold; [done|]. by apply (s_waiter _ _ _ (o_sleep _ _ _ Hok j s Hs)).
  - intros j s Hs H3. pose proof (lookup_lt_Some _ _ _ Hs) as Hjl. pose proof (s_F3 _ _ _ (o_sleep _ _ _ Hok j s Hs) H3) as Ha. rewrite Hmid, orb_false_r in Ha.
    rewrite (proj1 (Hatt j Hjl)). apply orb_true_iff. left. apply Nat.leb_le, Hold; done.
  - intros j Hw [Hm Ha]. destruct (decide (j < length (ops T))) as [Hjl|Hjl]; [|rewrite (lookup_ge_None_2 (ops T) j) by lia; done].
    rewrite (proj2 (Hatt j Hjl)) in Hm. apply Nat.leb_le in Hm. destruct (decide (j = i)) as [->|]; [by apply Hlast|]. apply (o_must _ _ _ Hok); [done|apply Hmold; lia|done].
Qed.

Lemma set_op_lookup T i s j x : ops (set_op T i s) !! j = Some x → j = i ∧ x = Sleep s ∨ j ≠ i ∧ ops T !! j = Some x.
Proof. cbn. intros [(-> & -> & _)|[? ?]]%list_lookup_insert_Some; auto. Qed.

Lemma select_enter_ok lk (q : Prop) T : sel_ok lk q T → at_ T = SEnter → sel_ok lk q {| T with at_ := if cancel_requested T then SFinal 0 None else SAttach 0 |}.
Proof.
  intros Hok E. pose proof (o_enter _ _ _ Hok E) as Hw. pose proof (bare_quiet _ _ _ Hok ltac:(by rewrite E)) as Hq. pose proof (o_done _ _ _ Hok) as Hd. rewrite E in Hd.
  pose proof (o_len _ _ _ Hok) as Hl. destruct (cancel_requested T) eqn:Ec.
  - apply (ok_bare lk q T); rewrite ?E; cbn; try done. by intros j [= <-].
  - split; cbn; try done; try congruence.
    + intros j Hj. by destruct (proj1 Hq j).
    + intros j s Hs. eapply (quiet_sleep lk T SEnter); [done|done|rewrite <- E; by apply (o_sleep _ _ _ Hok)|done|done].
    + rewrite (o_queued _ _ _ Hok), E. cbn. split; [by intros []|by intros []].
    + intros [Hk|[Hw'|[?|[[_ ?]|?]]]]; [|by rewrite Hw in Hw'|done|done|done]. rewrite <- Ec. apply (o_request _ _ _ Hok). by left.
    + intros Hf _. apply (o_all _ _ _ Hok Hf). by rewrite E.
    + apply (o_kind _ _ _ Hok).
Qed.

(** The timer is started with the node in it. *)
Lemma attach_sleep_ok lk (q : Prop) T i s : sel_ok lk q T → at_ T = SAttach i → is_active T i = true → ops T !! i = Some (Sleep s) →
  sel_ok lk q {| (set_op T i (sleep_attach s)) with at_ := SCheck i |}.
Proof.
  intros Hok E Ha Hs. pose proof (lookup_lt_Some _ _ _ Hs) as Hi.
  assert (Hother : ∀ j s0, ops T !! j = Some (Sleep s0) → j ≠ i → sleep_ok (SCheck i) j s0).
  { intros j s0 Hs0 Hne. pose proof (o_sleep _ _ _ Hok j s0 Hs0) as Hso. rewrite E in Hso. apply (sleep_move (SAttach i)); [done| | |done|by apply Hso].
    - intros Hw. apply (s_waiter _ _ _ Hso) in Hw. cbn in *. apply Nat.ltb_lt in Hw. apply Nat.leb_le. lia.
    - intros H3. apply (s_F3 _ _ _ Hso) in H3. cbn in *. rewrite orb_false_r in *. apply Nat.ltb_lt in H3. apply Nat.leb_le. lia. }
  apply (ok_move lk lk q T (SCheck i) (<[i := Sleep (sleep_attach s)]> (ops T))); rewrite ?E; cbn; try done.
  - by rewrite length_insert.
  - by intros j [= <-].
  - intros j Hj. destruct (o_att _ _ _ Hok j Hj) as (Hatt & ? & ?). rewrite E in Hatt. cbn in Hatt. apply Nat.ltb_lt in Hatt. split; [apply Nat.leb_le; lia|done].
  - intros j s0 [(<- & [= <-] & _)|[Hne Hs0]]%list_lookup_insert_Some; [|by apply Hother].
    destruct (o_sleep _ _ _ Hok i s Hs) as [H1 H2 H3 H4 H5 H6 H7]. rewrite E in *. split; cbn; try done.
    + rewrite H1. by destruct (t_ s).
    + rewrite H2. by destruct (t_ s).
    + intros _. apply Nat.leb_refl.
    + intros _. by rewrite Nat.leb_refl.
    + by destruct (t_ s).
    + intros _. unfold att, midway in H4. rewrite orb_false_r, Nat.ltb_irrefl in H4. destruct (t_ s); try done. by specialize (H4 eq_refl).
  - intros j s0 [(<- & [= <-] & _)|[Hne Hs0]]%list_lookup_insert_Some; eauto.
  - intros j Hw [Hm Hac]. apply Nat.ltb_lt in Hm. rewrite list_lookup_insert_ne by lia. apply (o_must _ _ _ Hok); [done| |done]. rewrite E. by apply Nat.ltb_lt.
  - intros j Hw [= <-]. by rewrite list_lookup_insert_eq.
  - intros j s0 [(<- & [= <-] & _)|[Hne Hs0]]%list_lookup_insert_Some; [intros _; cbn; by destruct (t_ s)|].
    intros [= ?]. congruence.
Qed.

Lemma attach_obj_ok lk lk' (q : Prop) T i o : sel_ok lk q T → at_ T = SAttach i → is_active T i = true → ops T !! i = Some (Obj o) → (∀ j, lk' j ↔ lk j ∨ j = i) →
  sel_ok lk' q {| T with at_ := SCheck i |}.
Proof.
  intros Hok E Ha Hs Hlk. pose proof (lookup_lt_Some _ _ _ Hs) as Hi. apply (ok_goto lk); rewrite ?E; cbn; try done.
  - by intros j [= <-].
  - intros j [Hj| ->]%Hlk; [|split; [apply Nat.leb_refl|done]]. destruct (o_att _ _ _ Hok j Hj) as (Hatt & ? & ?). rewrite E in Hatt. cbn in Hatt. apply Nat.ltb_lt in Hatt. split; [apply Nat.leb_le; lia|done].
  - intros j s Hs' Hw. apply (s_waiter _ _ _ (o_sleep _ _ _ Hok j s Hs')) in Hw. rewrite E in Hw. cbn in Hw. apply Nat.ltb_lt in Hw. apply Nat.leb_le. lia.
  - intros j s Hs' Hw. apply (s_F3 _ _ _ (o_sleep _ _ _ Hok j s Hs')) in Hw. rewrite E in Hw. cbn in Hw. rewrite orb_false_r in *. apply Nat.ltb_lt in Hw. apply Nat.leb_le. lia.
  - intros j Hw [Hm Hac]. apply Nat.ltb_lt in Hm. pose proof (o_must _ _ _ Hok j Hw) as Hmu. rewrite E in Hmu. specialize (Hmu (proj2 (Nat.ltb_lt _ _) Hm) Hac).
    destruct (ops T !! j) as [[|]|]; [apply Hlk; by left|done|done].
  - intros j Hw [= <-]. rewrite Hs. apply Hlk. by right.
  - intros j s Hs' [= ->]. congruence.
Qed.

(** An attach has failed, or the wait is over: all nodes are to be detached. *)
Lemma start_detach_ok lk (q : Prop) T k : sel_ok lk q T → pre (SDetach k 0) = pre (at_ T) → result_of (at_ T) = None → waiting (at_ T) = true → k ≠ DCancel → (∀ j, midway (at_ T) j = false) →
  (k = DResume → winner T ≠ (-1)%Z ∨ quiet lk T) → sel_ok lk q {| T with at_ := SDetach k 0 |}.
Proof.
  intros Hok Hp Hr Hwt Hk Hmid Hq. apply (ok_goto lk); try done.
  - by destruct k.
  - intros j [= <-]. apply (o_len _ _ _ Hok).
  - intros j Hj. destruct (o_att _ _ _ Hok j Hj) as (_ & ? & ?). done.
  - intros Hd. apply Hq. by destruct k.
  - intros j _ [? _]. done.
Qed.

(** ** Detaching one node *)

(** What a place of [detach_all] says of the nodes before it. *)
Lemma detach_behind lk (q : Prop) T i : sel_ok lk q T → index_of (at_ T) = Some i → (∃ k, in_detach k (at_ T) = true) →
  (∀ j, lk j → i ≤ j) ∧ (∀ j s, ops T !! j = Some (Sleep s) → (waiter s = true → i ≤ j) ∧ (is_F3 (t_ s) = true → i ≤ j)).
Proof.
  intros Hok Hidx [k Hk].
  assert (Ha : ∀ j, att (at_ T) j || midway (at_ T) j = true → i ≤ j).
  { intros j. destruct (at_ T); try done; cbn in Hidx; injection Hidx as ->; unfold att, midway; rewrite ?orb_true_iff, ?Nat.leb_le, ?Nat.ltb_lt, ?Nat.eqb_eq; [intros [?|?]; done|lia|lia]. }
  split.
  - intros j Hj. apply Ha. by rewrite (proj1 (o_att _ _ _ Hok j Hj)).
  - intros j s Hs. destruct (o_sleep _ _ _ Hok j s Hs) as [_ _ Hw H3 _ _ _]. split; [intros ?; apply Ha; by rewrite Hw|intros ?; by apply Ha, H3].
Qed.

Lemma inactive_free lk (q : Prop) T i : sel_ok lk q T → waiting (at_ T) = true → is_active T i = false → ¬ lk i ∧ ∀ s, ops T !! i ≠ Some (Sleep s).
Proof.
  intros Hok Hw Ha. split; [intros Hl; destruct (o_att _ _ _ Hok i Hl) as (_ & _ & ?); congruence|]. intros s Hs. destruct (flavour T) eqn:Ef; [|by apply (o_kind _ _ _ Hok i s)].
  unfold is_active in Ha. rewrite (o_all _ _ _ Hok Ef Hw), lookup_replicate_2 in Ha; [done|by eapply lookup_lt_Some].
Qed.

(** The exchange in [SleepOp::detach]. *)
Lemma detach_sleep_ok lk (q : Prop) T k i s : sel_ok lk q T → at_ T = SDetach k i → ops T !! i = Some (Sleep s) → ¬ lk i →
  sel_ok lk q {| (set_op T i {| s with waiter := false |}) with at_ := if waiter s then next_detach T k i else SFired k i |}.
Proof.
  intros Hok E Ho Hnl. assert (Hin : in_detach k (at_ T) = true) by (rewrite E; by destruct k). assert (Hidx : index_of (at_ T) = Some i) by by rewrite E.
  destruct (detach_behind _ _ T i Hok Hidx ltac:(by exists k)) as [Hl Hs]. pose proof (o_sleep _ _ _ Hok i s Ho) as Hso. pose proof Hso as [H1 H2 H3 H4 H5 H6 H7].
  pose proof (lookup_lt_Some _ _ _ Ho) as Hi.
  assert (Hso' : ∀ p, sleep_ok p i s → sleep_ok p i {| s with waiter := false |}) by (intros p [? ? ? ? ? ? ?]; by split).
  destruct (waiter s) eqn:Ew.
  - apply (ok_next_detach lk lk q T k i (<[i := Sleep {| s with waiter := false |}]> (ops T))); [done..|by rewrite length_insert| | |].
    + intros j Hj. pose proof (Hl j Hj). assert (j ≠ i) by (by intros ->). split; [lia|done].
    + intros j s0 [(<- & [= <-] & _)|[Hne Hs0]]%list_lookup_insert_Some.
      * split; [by apply Hso'|]. split; [done|]. cbn. by rewrite H7.
      * destruct (Hs j s0 Hs0) as [Hw H3']. split; [by apply (o_sleep _ _ _ Hok)|]. split; intros Hx; [specialize (Hw Hx)|specialize (H3' Hx)]; lia.
    + intros j s0 [(<- & [= <-] & _)|[Hne Hs0]]%list_lookup_insert_Some; [by exists s|by exists s0].
  - apply (ok_move lk lk q T (SFired k i) (<[i := Sleep {| s with waiter := false |}]> (ops T))); rewrite ?E; try done.
    + by rewrite length_insert.
    + by intros j [= <-].
    + intros j Hj. destruct (o_att _ _ _ Hok j Hj) as (? & ? & ?). pose proof (Hl j Hj). assert (j ≠ i) by (by intros ->). split; [apply Nat.ltb_lt; lia|done].
    + intros j s0 [(<- & [= <-] & _)|[Hne Hs0]]%list_lookup_insert_Some.
      * apply (sleep_move (at_ T)); [by apply Hso'|done|intros _; unfold att, midway; by rewrite Nat.eqb_refl, orb_true_r|done|]. intros Hc. apply H6 in Hc. by rewrite E in Hc.
      * destruct (Hs j s0 Hs0) as [Hw H3']. pose proof (o_sleep _ _ _ Hok j s0 Hs0) as Hso0. apply (sleep_move (at_ T)); [done| | |done|].
        -- intros Hx. apply Nat.ltb_lt. specialize (Hw Hx). lia.
        -- intros Hx. apply orb_true_iff. left. apply Nat.ltb_lt. specialize (H3' Hx). lia.
        -- intros Hc. apply (s_cancelled _ _ _ Hso0) in Hc. by rewrite E in Hc.
    + intros j s0 [(<- & [= <-] & _)|[Hne Hs0]]%list_lookup_insert_Some; [by exists s|by exists s0].
    + intros Hd. assert (Hd' : in_detach DResume (at_ T) = true) by by rewrite E. destruct (o_quiet _ _ _ Hok Hd') as [?|[Qa Qb]]; [by left|right]. split; [done|].
      intros j s0 [(<- & [= <-] & _)|[Hne Hs0]]%list_lookup_insert_Some; [split; [done|]; by apply (Qb i s)|by apply (Qb j)].
    + intros j _ [? _]. done.
Qed.

Lemma select_detach_ok σ t T k i σ' : inv σ → sels σ !! t = Some T → at_ T = SDetach k i → wait_step t T σ = Some σ' → inv σ'.
Proof.
  intros Hi HT E H. pose proof (i_sel σ Hi t T HT) as Hok. assert (Hin : in_detach k (at_ T) = true) by (rewrite E; by destruct k).
  assert (Hidx : index_of (at_ T) = Some i) by by rewrite E. destruct (detach_behind _ _ T i Hok Hidx ltac:(by exists k)) as [Hl Hs].
  assert (Hwt : waiting (at_ T) = true) by (rewrite E; by destruct k). unfold wait_step in H. rewrite E in H. destruct (is_active T i) eqn:Ha.
  - unfold sleep_detach in H. rewrite E in H. destruct (ops T !! i) as [[o|s]|] eqn:Ho; [| |done]; injection H as <-.
    + apply lift_remove; [done..|]. intros lk Hlk. apply (ok_next_detach (linked σ t) lk _ T k i (ops T)); [done..| | |].
      * intros j [Hj Hne]%Hlk. specialize (Hl j Hj). split; [lia|done].
      * intros j s0 Hs0. destruct (Hs j s0 Hs0) as [Hw H3]. assert (j ≠ i) by congruence. split; [by apply (o_sleep _ _ _ Hok)|]. split; intros Hx; [specialize (Hw Hx)|specialize (H3 Hx)]; lia.
      * intros j s0 Hs0. by exists s0.
    + apply (lift_self σ t T); [done|done|done|intros j o Hj; cbn; rewrite list_lookup_insert_ne; [done|congruence]|]. intros _. apply detach_sleep_ok; [done..|].
      intros [l Hin']. destruct (i_node σ Hi t i l Hin') as (T0 & o & HT0 & Ho' & _). congruence.
  - injection H as <-. destruct (inactive_free _ _ T i Hok Hwt Ha) as [Hnl Hns]. apply (lift_self σ t T); [done..|]. intros _.
    apply (ok_next_detach (linked σ t) (linked σ t) _ T k i (ops T)); [done..| | |].
    + intros j Hj. pose proof (Hl j Hj). assert (j ≠ i) by (by intros ->). split; [lia|done].
    + intros j s0 Hs0. destruct (Hs j s0 Hs0) as [Hw H3]. assert (j ≠ i) by (intros ->; by apply (Hns s0)). split; [by apply (o_sleep _ _ _ Hok)|].
      split; intros Hx; [specialize (Hw Hx)|specialize (H3 Hx)]; lia.
    + intros j s0 Hs0. by exists s0.
Qed.

(** A wait for a timer is over: [on_fire] is at its end, or has not begun. *)
Lemma midway_ok lk (q : Prop) T k i s : sel_ok lk q T → at_ T = SFired k i ∨ at_ T = SSpin k i → ops T !! i = Some (Sleep s) → is_F3 (t_ s) = false →
  sel_ok lk q {| T with at_ := next_detach T k i |}.
Proof.
  intros Hok Hat Ho H3. assert (Hin : in_detach k (at_ T) = true) by (destruct Hat as [-> | ->]; by destruct k). assert (Hidx : index_of (at_ T) = Some i) by (by destruct Hat as [-> | ->]).
  destruct (detach_behind _ _ T i Hok Hidx ltac:(by exists k)) as [Hl Hs].
  assert (Hatt : att (at_ T) i = false) by (destruct Hat as [-> | ->]; apply Nat.ltb_irrefl).
  apply (ok_next_detach lk lk q T k i (ops T)); [done..| | |].
  - intros j Hj. pose proof (Hl j Hj). assert (j ≠ i) by (intros ->; destruct (o_att _ _ _ Hok i Hj) as (? & _); congruence). split; [lia|done].
  - intros j s0 Hs0. destruct (Hs j s0 Hs0) as [Hw H3']. pose proof (o_sleep _ _ _ Hok j s0 Hs0) as Hso. split; [done|]. destruct (decide (j = i)) as [->|].
    + assert (s0 = s) as -> by congruence. split; [intros Hx; apply (s_waiter _ _ _ Hso) in Hx; congruence|congruence].
    + split; intros Hx; [specialize (Hw Hx)|specialize (H3' Hx)]; lia.
  - intros j s0 Hs0. by exists s0.
Qed.

Lemma to_spin_ok lk (q : Prop) T k i : sel_ok lk q T → at_ T = SFired k i → sel_ok lk q {| T with at_ := SSpin k i |}.
Proof.
  intros Hok E. assert (Hi : i < length (ops T)) by (apply (o_index _ _ _ Hok); by rewrite E). apply (ok_goto lk); rewrite ?E; try done; try by destruct k.
  - by intros j [= <-].
  - intros j Hj. pose proof (o_att _ _ _ Hok j Hj) as Ha. by rewrite E in Ha.
  - intros j s Hs Hw. pose proof (s_waiter _ _ _ (o_sleep _ _ _ Hok j s Hs) Hw) as Ha. by rewrite E in Ha.
  - intros j s Hs Hw. pose proof (s_F3 _ _ _ (o_sleep _ _ _ Hok j s Hs) Hw) as Ha. by rewrite E in Ha.
  - intros Hd. apply (o_quiet _ _ _ Hok). by rewrite E.
  - by intros j _ [? _].
Qed.

(** Between [SArm] and the suspension nothing moves. *)
Lemma select_arm_ok lk (q : Prop) T p' : sel_ok lk q T → at_ T = SArm ∨ at_ T = SCas → p' = SCas ∨ p' = SSusp → (p' = SCas → cancel_requested T = true) → sel_ok lk q {| T with at_ := p' |}.
Proof.
  intros Hok Hat Hp Hc. assert (Ha : ∀ j, att (at_ T) j = true ∧ att p' j = true ∧ must (at_ T) j = true) by (intros j; destruct Hat as [-> | ->], Hp as [-> | ->]; done).
  apply (ok_goto lk); try (destruct Hat as [E|E], Hp as [-> | ->]; rewrite ?E; done).
  - intros j Hj. destruct (o_att _ _ _ Hok j Hj) as (_ & ? & ?). split; [apply Ha|done].
  - intros j Hw [_ Hac]. apply (o_must _ _ _ Hok); [done|apply Ha|done].
Qed.

(** The cancellation wins in [await_suspend]. *)
Lemma cas_ok lk (q : Prop) T : sel_ok lk q T → at_ T = SCas → winner T = (-1)%Z → sel_ok lk q {| T with winner := kCancelledIndex; hook := false; at_ := SDetach DCancel 0 |}.
Proof.
  intros Hok E Hw. pose proof (o_len _ _ _ Hok) as Hl. assert (Hcr : cancel_requested T = true) by (apply (o_request _ _ _ Hok); tauto). split; cbn; try done.
  - by intros j [= <-].
  - intros j Hj. destruct (o_att _ _ _ Hok j Hj) as (_ & ? & ?). done.
  - intros j s Hs. pose proof (o_sleep _ _ _ Hok j s Hs) as Hso. apply (sleep_move (at_ T)); [done..|]. intros Hc. apply (s_cancelled _ _ _ Hso) in Hc. by rewrite E in Hc.
  - rewrite (o_queued _ _ _ Hok), Hw. split; [by intros []|by intros []].
  - pose proof (o_done _ _ _ Hok) as Hd. by rewrite E in Hd.
  - intros Hf _. apply (o_all _ _ _ Hok Hf). by rewrite E.
  - apply (o_kind _ _ _ Hok).
Qed.

(** A claim has been made while the nodes were detached: the coroutine is suspended and
    waits for the resumption that is queued. *)
Lemma answer_ok lk (q : Prop) T : sel_ok lk q T → at_ T = SAnswer → sel_ok lk q {| T with at_ := if (winner T =? -1)%Z then SDetach DResume 0 else SSusp |}.
Proof.
  intros Hok E. pose proof (bare_quiet _ _ _ Hok ltac:(by rewrite E)) as Hq. pose proof (o_len _ _ _ Hok) as Hl. destruct (Z.eqb_spec (winner T) (-1)) as [Hw|Hw].
  - split; cbn; try done.
    + by intros j [= <-].
    + intros j Hj. by destruct (proj1 Hq j).
    + intros j s Hs. eapply (quiet_sleep lk T (at_ T)); [done|done|by apply (o_sleep _ _ _ Hok)|by rewrite E|done].
    + rewrite (o_queued _ _ _ Hok), Hw. split; by intros [].
    + by right.
    + pose proof (o_done _ _ _ Hok) as Hd. by rewrite E in Hd.
    + intros Hr. apply (o_request _ _ _ Hok). rewrite E. naive_solver.
    + intros Hf _. apply (o_all _ _ _ Hok Hf). by rewrite E.
    + apply (o_kind _ _ _ Hok).
  - apply (ok_goto lk); rewrite ?E; try done.
    + intros j Hj. by destruct (proj1 Hq j).
Qed.

Lemma hook_ok lk (q : Prop) T b : sel_ok lk q T → sel_ok lk q {| T with hook := b |}.
Proof. intros [? ? ? ? ? ? ? ? ? ? ? ? ? ? ? ?]. by split. Qed.

Lemma check_ok lk (q : Prop) T i : sel_ok lk q T → at_ T = SCheck i → (∀ s, ops T !! i = Some (Sleep s) → fired s = false) → sel_ok lk q {| T with at_ := next_attach T i |}.
Proof.
  intros Hok E Hf. apply ok_next_attach; [done|by right|]. intros Hw _. pose proof (o_check _ _ _ Hok i Hw E) as Hc. destruct (ops T !! i) as [[o|s]|] eqn:Ho; [done| |done].
  pose proof (o_made _ _ _ Hok i s Ho E) as Hm. pose proof (o_sleep _ _ _ Hok i s Ho) as Hso. pose proof (s_fired _ _ _ Hso) as Hsf. rewrite (Hf s eq_refl) in Hsf.
  pose proof (s_cancelled _ _ _ Hso) as Hsc. rewrite E in Hsc. unfold will_fire. destruct (t_ s); try done; cbn in Hc; rewrite orb_false_r in Hc; try done. by specialize (Hsc eq_refl).
Qed.

Lemma wait_ok t T σ σ' : inv σ → sels σ !! t = Some T → wait_step t T σ = Some σ' → inv σ'.
Proof.
  intros Hi HT H. pose proof (i_sel σ Hi t T HT) as Hok. destruct (at_ T) as [| | |i|i|k i|k i|k i| | | | | | | |] eqn:E; try (unfold wait_step in H; rewrite E in H; done).
  - unfold wait_step in H. rewrite E in H. injection H as <-. apply (lift_self σ t T); [done..|]. intros _. by apply select_enter_ok.
  - unfold wait_step in H. rewrite E in H. destruct (is_active T i) eqn:Ha.
    + destruct (ops T !! i) as [[o|s]|] eqn:Ho; [| |done]; injection H as <-.
      * apply lift_push; [done..| |intros lk Hlk; by eapply attach_obj_ok].
        intros Hl. apply (o_att _ _ _ Hok) in Hl as (Hl & _). rewrite E in Hl. unfold att in Hl. by rewrite Nat.ltb_irrefl in Hl.
      * apply (lift_self σ t T); [done|done|done|intros j o Hj; cbn; rewrite list_lookup_insert_ne; [done|congruence]|]. intros _. by apply attach_sleep_ok.
    + injection H as <-. apply (lift_self σ t T); [done..|]. intros _. apply ok_next_attach; [done|by left|congruence].
  - unfold wait_step in H. rewrite E in H. assert (Hd : sel_ok (linked σ t) (queued σ t) {| T with at_ := SDetach DAnswer 0 |}) by (apply start_detach_ok; rewrite ?E; done).
    destruct (ops T !! i) as [[o|s]|] eqn:Ho; [| |done]; injection H as <-; (apply (lift_self σ t T); [done..|]); intros _.
    + destruct (op_keep o (obj σ)); [|done]. apply check_ok; [done..|congruence].
    + destruct (fired s) eqn:Ef; [done|]. apply check_ok; [done..|congruence].
  - by eapply select_detach_ok.
  - unfold wait_step in H. rewrite E in H. destruct (ops T !! i) as [[o|s]|] eqn:Ho; [done| |done]. unfold sleep_detach in H. rewrite E in H. injection H as <-. apply (lift_self σ t T); [done..|]. intros _.
    destruct (fired s) eqn:Ef; [by apply to_spin_ok|]. eapply midway_ok; [done|by left|done|]. rewrite (s_fired _ _ _ (o_sleep _ _ _ Hok i s Ho)) in Ef. by destruct (t_ s).
  - unfold wait_step in H. rewrite E in H. destruct (ops T !! i) as [[o|s]|] eqn:Ho; [done| |done]. unfold sleep_detach in H. rewrite E in H. destruct (fire_done s) eqn:Ef; [|done]. injection H as <-. apply (lift_self σ t T); [done..|].
    intros _. eapply midway_ok; [done|by right|done|]. rewrite (s_done _ _ _ (o_sleep _ _ _ Hok i s Ho)) in Ef. by destruct (t_ s).
  - unfold wait_step in H. rewrite E in H. injection H as <-. apply (lift_self σ t T); [done..|]. intros _. by apply answer_ok.
  - unfold wait_step in H. rewrite E in H. injection H as <-. apply (lift_self σ t T); [done..|]. intros _.
    apply (select_arm_ok _ _ {| T with hook := true |}); [by apply hook_ok|by left|destruct (cancel_requested T); auto|cbn; by destruct (cancel_requested T)].
  - unfold wait_step in H. rewrite E in H. injection H as <-. destruct (Z.eqb_spec (winner T) (-1)); (apply (lift_self σ t T); [done..|]); intros _.
    + exact (cas_ok _ _ T Hok E e).
    + apply select_arm_ok; [done|by right|by right|done].
Qed.

(** * The end of the call *)

(** From one operation of [finalize] to the next. *)
Lemma ok_next_final lk (q : Prop) T i res ops' : sel_ok lk q T → (at_ T = SFinal i res ∨ at_ T = SFinalSpin i res) → length ops' = length (ops T) →
  (∀ j s, ops' !! j = Some (Sleep s) → ∃ s0, ops T !! j = Some (Sleep s0) ∧ fired s = fired s0 ∧ fire_done s = fire_done s0 ∧ waiter s = waiter s0 ∧ (j ≠ i → s = s0) ∧ is_F3 (t_ s) = is_F3 (t_ s0) ∧
     stage_fired (t_ s) = stage_fired (t_ s0) ∧ (match t_ s with TDone => true | _ => false end) = (match t_ s0 with TDone => true | _ => false end) ∧ (j = i → settled (t_ s) = true)) →
  sel_ok lk q {| T with ops := ops'; at_ := next_final T i res |}.
Proof.
  intros Hok Hat El Hsl. pose proof (bare_quiet _ _ _ Hok ltac:(by destruct Hat as [-> | ->])) as Hq. pose proof (o_len _ _ _ Hok) as Hlen.
  assert (Hi : i < length (ops T)) by (apply (o_index _ _ _ Hok); by destruct Hat as [-> | ->]).
  assert (Hfin : ∀ j, finalized (at_ T) j = (j <? i)) by (intros j; by destruct Hat as [-> | ->]).
  assert (Hres : result_of (at_ T) = Some res ∧ pre (at_ T) = false) by (by destruct Hat as [-> | ->]). destruct Hres as [Hres Hpre].
  assert (Hp : ∃ p, next_final T i res = p ∧ bare p = true ∧ pre p = false ∧ result_of p = Some res ∧ (∀ j, index_of p = Some j → j < length (ops T)) ∧ (∀ j, j < length (ops T) → finalized p j = (j <=? i)) ∧ waiting p = false).
  { unfold next_final. destruct (Nat.ltb_spec (S i) (length (ops T))); eexists; (split; [done|]); repeat split; try done; [by intros j [= <-]|]. intros j Hj. symmetry. apply Nat.leb_le. lia. }
  destruct Hp as (p & -> & Hb & Hpp & Hr & Hidx & Hf & Hwt). destruct (bare_att p 0 Hb) as (_ & _ & _ & Hdr & Hdc). split; cbn; rewrite ?El; try done; try congruence.
  - intros j Hj. by destruct (proj1 Hq j).
  - intros ->. done.
  - intros j ->. done.
  - intros j s Hs. destruct (Hsl j s Hs) as (s0 & Hs0 & E1 & E2 & E3 & E4 & E5 & E6 & E7 & E8). assert (Hj : j < length (ops T)) by (rewrite <- El; by eapply lookup_lt_Some).
    destruct (o_sleep _ _ _ Hok j s0 Hs0) as [S1 S2 S3 S4 S5 S6 S7]. destruct (proj2 Hq j s0 Hs0) as [Qw Q3]. split; rewrite ?E1, ?E2, ?E3, ?E5, ?E6, ?E7, ?Qw, ?Q3, ?Hf; try done.
    + intros Hle. apply Nat.leb_le in Hle. destruct (decide (j = i)) as [->|Hne]; [by apply E8|]. rewrite (E4 Hne). apply S5. rewrite Hfin. apply Nat.ltb_lt. lia.
    + intros Hc. apply Nat.leb_le. destruct (decide (j = i)) as [->|Hne]; [lia|]. rewrite (E4 Hne) in Hc. apply S6 in Hc. rewrite Hfin in Hc. apply Nat.ltb_lt in Hc. lia.
  - rewrite (o_queued _ _ _ Hok), Hpre, Hpp. split; by intros [].
  - intros j _ Hm. destruct (bare_att p j Hb) as (_ & _ & Hm' & _). congruence.
  - intros j _ ->. done.
  - intros j s _ ->. done.
  - rewrite Hr. pose proof (o_done _ _ _ Hok) as Hd. by rewrite Hres in Hd.
  - rewrite Hr. intros Hx. apply (o_request _ _ _ Hok). rewrite Hres. destruct Hx as [?|[?|[?|[?|?]]]]; [tauto..|subst; done|tauto|congruence].
  - intros j s Hk Hs. destruct (Hsl j s Hs) as (s0 & Hs0 & _). by apply (o_kind _ _ _ Hok j s0 Hk).
Qed.

Lemma end_ok t T start σ σ' : inv σ → sels σ !! t = Some T → end_step t T start σ = Some σ' → inv σ'.
Proof.
  intros Hi HT H. pose proof (i_sel σ Hi t T HT) as Hok. unfold end_step in H. pose proof (o_done _ _ _ Hok) as Hd. pose proof (o_len _ _ _ Hok) as Hlen.
  destruct (at_ T) as [| | | | | | | | | | | | |i res|i res|] eqn:E; try done.
  - injection H as <-. apply (lift_self σ t T); [done..|]. intros _. destruct (Z.eqb_spec (winner T) kCancelledIndex) as [Hw|Hw].
    + apply (ok_bare _ _ T); rewrite ?E; cbn; try done; [by intros j [= <-]|]. intros _. apply (o_request _ _ _ Hok). tauto.
    + apply (ok_bare _ _ T); rewrite ?E; cbn; try done. by intros [?|[_ ?]].
  - destruct (ops T !! i) as [[o|s]|] eqn:Ho; [| |done].
    + injection H as <-. apply (lift_self σ t T); [done..|]. intros _. apply (ok_next_final _ _ T i res (ops T)); [done|by left|done|].
      intros j s0 Hs0. exists s0. repeat split; try done. intros ->. congruence.
    + pose proof (o_sleep _ _ _ Hok i s Ho) as Hso. pose proof (lookup_lt_Some _ _ _ Ho) as Hlt.
      assert (Hspin : inv (goto t T (SFinalSpin i res) σ)).
      { apply (lift_self σ t T); [done..|]. intros _. pose proof (bare_quiet _ _ _ Hok ltac:(by rewrite E)) as Hq. split; cbn; try done; rewrite ?E in *; try apply Hok; try done.
        - by intros j [= <-].
        - intros j Hj. by destruct (proj1 Hq j).
        - intros j s0 Hs0. destruct (o_sleep _ _ _ Hok j s0 Hs0) as [S1 S2 S3 S4 S5 S6 S7]. rewrite E in *. by split.
        - rewrite (o_queued _ _ _ Hok), E. done.
        - intros Hx. apply (o_request _ _ _ Hok). rewrite E. cbn. destruct Hx as [?|[?|[?|[?|?]]]]; try done; tauto. }
      assert (Hset : settled (t_ s) = true ∨ t_ s = TArmed → ∀ s', s' = s ∧ settled (t_ s) = true ∨ s' = {| s with t_ := TCancelled |} ∧ t_ s = TArmed →
        inv (goto t (set_op T i s') (next_final T i res) σ)).
      { intros _ s' Hs'. apply (lift_self σ t T); [done|done|done|intros j o Hj; cbn; rewrite list_lookup_insert_ne; [done|congruence]|]. intros _.
        apply (ok_next_final _ _ T i res (<[i := Sleep s']> (ops T))); [done|by left|by rewrite length_insert|].
        intros j s0 [(<- & [= <-] & _)|[Hne Hs0]]%list_lookup_insert_Some.
        - exists s. destruct Hs' as [[-> Hset]|[-> Hset]]; repeat split; try done; cbn; by rewrite Hset.
        - exists s0. repeat split; try done. }
      unfold sleep_finalize in H. rewrite E in H. injection H as <-. destruct (t_ s) eqn:Et; try done.
      * replace T with (set_op T i s) at 1; [apply Hset; [by left|by left]|]. unfold set_op. rewrite list_insert_id by done. by destruct T.
      * apply Hset; [by right|by right].
  - destruct (ops T !! i) as [[o|s]|] eqn:Ho; [| |done].
    { injection H as <-. apply (lift_self σ t T); [done..|]. intros _. apply (ok_next_final _ _ T i res (ops T)); [done|by right|done|].
      intros j s0 Hs0. exists s0. repeat split; try done. intros ->. congruence. }
    unfold sleep_finalize in H. rewrite E in H. destruct (fire_done s) eqn:Ef; [|done]. injection H as <-. apply (lift_self σ t T); [done..|]. intros _.
    apply (ok_next_final _ _ T i res (ops T)); [done|by right|done|]. intros j s0 Hs0. exists s0. repeat split; try done. intros ->. assert (s0 = s) as -> by congruence.
    rewrite (s_done _ _ _ (o_sleep _ _ _ Hok i s Ho)) in Ef. by destruct (t_ s).
Qed.

Lemma task_ok t T start σ σ' : inv σ → sels σ !! t = Some T → task_step t T start σ = Some σ' → inv σ'.
Proof.
  intros Hi HT H. unfold task_step, multi_recv_wait_step in H. destruct (at_ T) eqn:E; try (destruct (flavour T)); first [by eapply wait_ok|by eapply try_ok|by eapply drained_ok|by eapply end_ok].
Qed.
End steps.
End SelectSteps.
