(* ===== verification/SelectCorrect.v ===== *)
(** What a select promises: while it is suspended all its operations can wake it, it is
    queued once, no node or timer outlives the call, and exactly one operation completes;
    and what it does not: the wake that it swallows. *)

From S2P Require Import Prelude WaitList Select SelectInv SelectSteps.

Module SelectCorrect.
Import WaitList Select SelectInv SelectSteps.
Local Open Scope nat_scope.

Section correct.
Context {X : Type} `{!Selectable X}.
Implicit Types (σ : St) (t : ptr) (T : Sel) (p : pc) (s : SleepOp) (i : nat).

(** * Claims *)

(** The places from which the winner can be claimed are on the way to the suspension. *)
Lemma claim_place lk (q : Prop) T i : sel_ok lk q T → winner T = (-1)%Z → att (at_ T) i || midway (at_ T) i = true → (in_detach DResume (at_ T) = true → ¬ quiet lk T) → pre (at_ T) = true.
Proof.
  intros Hok Hw Ha Hq. pose proof (o_quiet _ _ _ Hok) as H1. pose proof (o_cancelling _ _ _ Hok) as H2.
  destruct (at_ T) as [| | | | |[] ?|[] ?|[] ?| | | | | | | |]; try done; try (by specialize (H2 eq_refl)); destruct (H1 eq_refl) as [?|?]; try done; by destruct Hq.
Qed.

Lemma claimed_ok lk lk' (q : Prop) T w : sel_ok lk q T → (∀ i, lk' i → lk i) → winner T = (-1)%Z → pre (at_ T) = true → w ≠ (-1)%Z → (w = kCancelledIndex → cancel_requested T = true) →
  sel_ok lk' True {| T with winner := w |}.
Proof.
  intros Hok Hsub Hw Hp Hne Hreq. assert (HnR : in_detach DResume (at_ T) = false) by by destruct (at_ T) as [| | | | |[] ?|[] ?|[] ?| | | | | | | |]. split; cbn; try done.
  - apply (o_index _ _ _ Hok).
  - apply (o_len _ _ _ Hok).
  - intros i Hi. by apply (o_att _ _ _ Hok), Hsub.
  - intros E. by rewrite E in Hp.
  - apply (o_recv _ _ _ Hok).
  - apply (o_sleep _ _ _ Hok).
  - by rewrite HnR.
  - apply (o_made _ _ _ Hok).
  - apply (o_done _ _ _ Hok).
  - intros [?|[?|[?|[?|?]]]]; [apply (o_request _ _ _ Hok); tauto|by apply Hreq|apply (o_request _ _ _ Hok); tauto..].
  - apply (o_all _ _ _ Hok).
  - apply (o_kind _ _ _ Hok).
Qed.

(** Once it is claimed, nodes can go without being missed. *)
Lemma shrink_ok lk lk' (q : Prop) T : sel_ok lk q T → (∀ i, lk' i → lk i) → winner T ≠ (-1)%Z → sel_ok lk' q T.
Proof.
  intros Hok Hsub Hw. pose proof Hok as [? ? ? ? ? ? ? ? ? ? ? ? ? ? ? ?]. split; try done.
  - intros i Hi. by apply (o_att _ _ _ Hok), Hsub.
  - intros _. by left.
Qed.

(** The claim and the queueing that comes with it. *)
Lemma lift_claim σ t T T' : inv σ → sels σ !! t = Some T → owner T' = owner T → (∀ i o, ops T !! i = Some (Obj o) → ops T' !! i = Some (Obj o)) → ¬ queued σ t →
  sel_ok (linked σ t) True T' → inv {| (set_sel t T' σ) with runq := runq σ ++ [(t, owner T)] |}.
Proof.
  intros Hi HT Eo Hops Hnq Hok. apply (lift σ _ t T'); [done|done|done| | |apply (i_nodup σ Hi)| | |].
  - intros t' Hne. unfold queued. cbn. rewrite fmap_app, elem_of_app. cbn. rewrite list_elem_of_singleton. tauto.
  - intros i l Hin. destruct (i_node σ Hi t i l Hin) as (T0 & o & HT0 & Ho & El). assert (T0 = T) as -> by congruence. exists o. split; [by apply Hops|done].
  - cbn. rewrite fmap_app. apply NoDup_app. split; [apply (i_runq σ Hi)|]. split; [|apply NoDup_singleton]. intros x Hx ->%list_elem_of_singleton. by apply Hnq.
  - cbn. intros t' tid [Hx|Hx]%elem_of_app; [|apply list_elem_of_singleton in Hx; injection Hx as -> ->; right; by rewrite Eo].
    left. split; [done|]. intros ->. apply Hnq, list_elem_of_fmap. by exists (t, tid).
  - eapply sel_ok_ext; [done| |exact Hok]. split; [done|]. intros _. unfold queued. cbn. rewrite fmap_app, elem_of_app. right. by left.
Qed.

(** ** A wake *)

Lemma wake_ok j l σ σ' : inv σ → wakes σ !! j = Some l → wake_step j l σ = Some σ' → inv σ'.
Proof.
  intros Hi Hj H. unfold wake_step in H. destruct (wq σ l) as [|[t i] rest] eqn:Eq; [injection H as <-; by eapply inv_obj|].
  destruct (i_node σ Hi t i l) as (T & o & HT & Ho & Eo); [rewrite Eq; by left|]. rewrite HT in H. cbn in H. pose proof (i_sel σ Hi t T HT) as Hok.
  pose proof (i_nodup σ Hi l) as Hnd. rewrite Eq in Hnd. apply NoDup_cons in Hnd as [Hni Hnd].
  assert (Hlk : linked σ t i) by (exists l; rewrite Eq; by left).
  set (σ1 := set_wq l rest σ) in *. assert (Hwq : ∀ l', wq σ1 l' = if decide (l' = l) then rest else wq σ l') by (intros; apply wq_set).
  assert (Hin : ∀ t' k l', (t', k) ∈ wq σ1 l' ↔ (t', k) ∈ wq σ l' ∧ (t', k) ≠ (t, i)).
  { intros t' k l'. rewrite Hwq. case_decide as El; [subst l'; rewrite Eq, elem_of_cons|].
    - split; [intros Hx; split; [by right|]; intros [= -> ->]; by apply Hni|]. intros [[?|?] ?]; done.
    - split; [|tauto]. intros Hx. split; [done|]. intros [= -> ->]. destruct (i_node σ Hi t i l' Hx) as (T0 & o0 & HT0 & Ho0 & <-). congruence. }
  assert (Hsub : ∀ k, linked σ1 t k → linked σ t k) by (intros k [l' [Hl' _]%Hin]; by exists l').
  assert (Hlift : ∀ σ2 T', sels σ2 = <[t := T']> (sels σ) → waitq σ2 = waitq σ1 → ops T' = ops T → owner T' = owner T → NoDup (runq σ2).*1 →
    (∀ t' tid, (t', tid) ∈ runq σ2 → (t', tid) ∈ runq σ ∨ t' = t ∧ tid = owner T) → (∀ t', t' ≠ t → queued σ2 t' ↔ queued σ t') → sel_ok (linked σ1 t) (queued σ2 t) T' → inv σ2).
  { intros σ2 T' E1 E2 E3 E4 Hq2 Hq3 Hq4 Hok2. assert (Hw2 : ∀ l', wq σ2 l' = wq σ1 l') by (intros; unfold wq; by rewrite E2).
    apply (lift σ σ2 t T'); [done|done| |done| | |done| |].
    - intros t' k l' Hne. rewrite Hw2, Hin. split; [tauto|]. intros ?. split; [done|congruence].
    - intros k l' Hk. rewrite Hw2 in Hk. apply Hin in Hk as [Hk _]. destruct (i_node σ Hi t k l' Hk) as (T0 & o0 & HT0 & Ho0 & El). assert (T0 = T) as -> by congruence. exists o0. by rewrite E3.
    - intros l'. rewrite Hw2, Hwq. case_decide; [done|apply (i_nodup σ Hi)].
    - intros t' tid Hx. rewrite E4. apply Hq3 in Hx as [Hx|?]; [|by right]. destruct (decide (t' = t)) as [->|]; [|by left]. right. split; [done|].
      destruct (i_owner σ Hi t tid Hx) as (T0 & HT0 & ->). by assert (T0 = T) as -> by congruence.
    - eapply sel_ok_ext; [|done|exact Hok2]. intros k. unfold linked. split; intros [l' Hl']; exists l'; by rewrite Hw2 in *. }
  unfold fire_waiter in H. destruct (Z.eqb_spec (winner T) (-1)) as [Hw|Hw]; injection H as <-.
  - assert (Hpre : pre (at_ T) = true).
    { eapply claim_place; [done|done|by rewrite (proj1 (o_att _ _ _ Hok i Hlk))|]. intros _ [Hq _]. by destruct (Hq i). }
    assert (Hnq : ¬ queued σ t) by (rewrite (o_queued _ _ _ Hok), Hw; by intros []). apply (Hlift _ {| T with winner := Z.of_nat i |}); try done; cbn.
    + rewrite fmap_app. apply NoDup_app. split; [apply (i_runq σ Hi)|]. split; [|apply NoDup_singleton]. intros x Hx ->%list_elem_of_singleton. by apply Hnq.
    + intros t' tid [?|Hx]%elem_of_app; [by left|]. apply list_elem_of_singleton in Hx. injection Hx as -> ->. by right.
    + intros t' Hne. unfold queued. cbn. rewrite fmap_app, elem_of_app. cbn. rewrite list_elem_of_singleton. tauto.
    + eapply sel_ok_ext; [done| |eapply (claimed_ok (linked σ t)); [exact Hok|exact Hsub|done|done|lia|unfold kCancelledIndex; lia]].
      split; [done|]. intros _. unfold queued. cbn. rewrite fmap_app, elem_of_app. right. by left.
  - apply (Hlift _ T); try done; cbn; [by rewrite insert_id|apply (i_runq σ Hi)|by left|]. eapply shrink_ok; [exact Hok|exact Hsub|done].
Qed.

(** ** Timers *)

(** The timer of operation [i] goes on; [F3], the claim, apart. *)
Lemma timer_ok lk (q : Prop) T i s s' : sel_ok lk q T → ops T !! i = Some (Sleep s) → (waiter s' = true → waiter s = true) →
  (∀ p, sleep_ok p i s → sleep_ok p i s') → (t_ s ≠ TNull) → t_ s' ≠ TNull → (winner T = (-1)%Z → will_fire s = true → will_fire s' = true) →
  (winner T = (-1)%Z → waiter s || is_F3 (t_ s) = true → waiter s' || is_F3 (t_ s') = true) → (waiter s = false → is_F3 (t_ s) = false → is_F3 (t_ s') = false) →
  sel_ok lk q (set_op T i s').
Proof.
  intros Hok Ho Hw Hsl Hn Hn' Hwf Hch H3. assert (Hlook : ∀ j x, ops (set_op T i s') !! j = Some (Sleep x) → j = i ∧ x = s' ∨ j ≠ i ∧ ops T !! j = Some (Sleep x)).
  { intros j x Hx. apply set_op_lookup in Hx as [[-> Hx]|?]; [left; split; [done|congruence]|by right]. }
  assert (Hother : ∀ j, j ≠ i → ops (set_op T i s') !! j = ops T !! j) by (intros j Hj; cbn; by apply list_lookup_insert_ne).
  assert (Hself : ops (set_op T i s') !! i = Some (Sleep s')) by (cbn; apply list_lookup_insert_eq; by eapply lookup_lt_Some).
  pose proof Hok as [G1 G2 G3 G4 G5 G6 G7 G8 G9 G10 G11 G12 G13 G14 G15 G16]. split; try done.
  - cbn. by rewrite length_insert.
  - cbn. by rewrite length_insert.
  - cbn. rewrite length_insert. done.
  - intros j x [[-> ->]|[_ Hx]]%Hlook; [by apply Hsl, G6|by apply G6].
  - intros Hd. destruct (G8 Hd) as [?|[Qa Qb]]; [by left|right]. split; [done|]. intros j x [[-> ->]|[_ Hx]]%Hlook; [|by apply (Qb j)].
    destruct (Qb i s Ho) as [Q1 Q2]. split; [destruct (waiter s'); [by rewrite Hw in Q1|done]|by apply H3].
  - intros j Hwi Hm Ha. specialize (G10 j Hwi Hm Ha). destruct (decide (j = i)) as [->|Hj]; [rewrite Hself; rewrite Ho in G10; by apply Hwf|by rewrite Hother].
  - intros j Hwi E. specialize (G11 j Hwi E). destruct (decide (j = i)) as [->|Hj]; [rewrite Hself; rewrite Ho in G11; by apply Hch|by rewrite Hother].
  - intros j x [[-> ->]|[_ Hx]]%Hlook; [done|by apply G12].
  - cbn. rewrite length_insert. done.
  - intros j x Hk [[-> ->]|[_ Hx]]%Hlook; [by apply (G16 i s Hk)|by apply (G16 j x Hk)].
Qed.

Lemma timer_self σ t T i s s' : inv σ → sels σ !! t = Some T → ops T !! i = Some (Sleep s) → (sel_ok (linked σ t) (queued σ t) T → sel_ok (linked σ t) (queued σ t) (set_op T i s')) →
  inv (set_sel t (set_op T i s') σ).
Proof. intros Hi HT Ho H. apply (lift_self σ t T); [done|done|done|intros j o Hj; cbn; rewrite list_lookup_insert_ne; [done|congruence]|done]. Qed.

Ltac sleep_next Et := intros p [S1 S2 S3 S4 S5 S6 S7]; rewrite Et in *; split; cbn in *; try done; try (intros Hx; by apply S5 in Hx); try (intros Hx; by apply S4).

Lemma timer_step_ok σ t T i s σ' : inv σ → sels σ !! t = Some T → ops T !! i = Some (Sleep s) → timer_step t T i s σ = Some σ' → inv σ'.
Proof.
  intros Hi HT Ho H. pose proof (i_sel σ Hi t T HT) as Hok. pose proof (o_sleep _ _ _ Hok i s Ho) as Hso. unfold timer_step in H. destruct (t_ s) eqn:Et; try done; injection H as <-.
  - apply (timer_self σ t T i s); [done..|]. intros _. apply (timer_ok _ _ T i s); unfold will_fire; cbn; rewrite ?Et; try done. sleep_next Et.
  - apply (timer_self σ t T i s); [done..|]. intros _. apply (timer_ok _ _ T i s); unfold will_fire; cbn; rewrite ?Et; try done. sleep_next Et.
  - apply (timer_self σ t T i s); [done..|]. intros _. apply (timer_ok _ _ T i s); unfold will_fire; cbn; rewrite ?Et; destruct (waiter s) eqn:Ew; try done; sleep_next Et.
    intros _. by rewrite (S3 Ew).
  - unfold fire_waiter. cbn [winner set_op]. destruct (Z.eqb_spec (winner T) (-1)) as [Hw|Hw].
    + assert (Hpre : pre (at_ T) = true).
      { eapply claim_place; [done|done|apply (s_F3 _ _ _ Hso); by rewrite Et|]. intros _ [_ Hq]. destruct (Hq i s Ho) as [_ Hq']. by rewrite Et in Hq'. }
      pose proof (claimed_ok _ (linked σ t) _ T (Z.of_nat i) Hok (λ _ Hx, Hx) Hw Hpre ltac:(lia) ltac:(unfold kCancelledIndex; lia)) as Hcl.
      assert (Hok' : sel_ok (linked σ t) True (set_op {| T with winner := Z.of_nat i |} i {| s with t_ := F4 |})).
      { apply (timer_ok _ _ {| T with winner := Z.of_nat i |} i s); cbn; rewrite ?Et; try done; try lia. sleep_next Et. }
      apply (inv_obj {| (set_sel t (set_op {| T with winner := Z.of_nat i |} i {| s with t_ := F4 |}) σ) with runq := runq σ ++ [(t, owner T)] |}); [|done|cbn; by rewrite insert_insert_eq|done].
      apply lift_claim; [done|done|done|intros j o Hj; cbn; rewrite list_lookup_insert_ne; [done|congruence]| |done]. rewrite (o_queued _ _ _ Hok), Hw. by intros [].
    + apply (timer_self σ t T i s); [done..|]. intros _. apply (timer_ok _ _ T i s); unfold will_fire; cbn; rewrite ?Et; try done. sleep_next Et.
  - apply (timer_self σ t T i s); [done..|]. intros _. apply (timer_ok _ _ T i s); unfold will_fire; cbn; rewrite ?Et; try done. sleep_next Et.
Qed.

(** ** Resumption and cancellation *)

Lemma select_resume_ok σ j t tid T : inv σ → runq σ !! j = Some (t, tid) → sels σ !! t = Some T → at_ T = SSusp →
  inv {| (goto t {| T with hook := false |} (SDetach DResume 0) σ) with runq := delete j (runq σ) |}.
Proof.
  intros Hi Hj HT E. pose proof (i_sel σ Hi t T HT) as Hok. pose proof (delete_Permutation (runq σ) j _ Hj) as Hp.
  assert (Hp' : (runq σ).*1 ≡ₚ t :: (delete j (runq σ)).*1) by (by rewrite Hp at 1). pose proof (i_runq σ Hi) as Hnd. rewrite Hp' in Hnd. apply NoDup_cons in Hnd as [Hni Hnd].
  assert (Hq : queued σ t) by (unfold queued; rewrite Hp'; by left). apply (o_queued _ _ _ Hok) in Hq as [Hw _]. pose proof (o_len _ _ _ Hok) as Hlen.
  apply (lift σ _ t {| T with hook := false; at_ := SDetach DResume 0 |}); [done|done|done| | |apply (i_nodup σ Hi)|done| |].
  - intros t' Hne. unfold queued. cbn. rewrite Hp', elem_of_cons. split; [by right|]. by intros [?|?].
  - intros i l Hin. destruct (i_node σ Hi t i l Hin) as (T0 & o & HT0 & Ho & El). assert (T0 = T) as -> by congruence. by exists o.
  - cbn. intros t' tid' Hin. left. split; [apply (elem_of_Permutation_proper _ _ _ Hp); by right|]. intros ->. apply Hni, list_elem_of_fmap. by exists (t, tid').
  - apply (sel_ok_ext (linked σ t) _ False); [done|unfold queued; cbn; split; [apply Hni|done]|]. split; cbn; try done.
    + by intros i [= <-].
    + intros i Hl. destruct (o_att _ _ _ Hok i Hl) as (_ & ? & ?). done.
    + intros i s Hs. pose proof (o_sleep _ _ _ Hok i s Hs) as Hso. apply (sleep_move (at_ T)); [done..|]. intros Hc. apply (s_cancelled _ _ _ Hso) in Hc. by rewrite E in Hc.
    + by split; [|intros []].
    + by left.
    + pose proof (o_done _ _ _ Hok) as Hd. by rewrite E in Hd.
    + intros Hx. apply (o_request _ _ _ Hok). rewrite E. naive_solver.
    + intros Hf _. apply (o_all _ _ _ Hok Hf). by rewrite E.
    + apply (o_kind _ _ _ Hok).
Qed.

Lemma request_ok lk (q : Prop) T : sel_ok lk q T → sel_ok lk q {| T with cancel_requested := true; kick := true |}.
Proof. intros [? ? ? ? ? ? ? ? ? ? ? ? ? ? ? ?]. by split. Qed.

Lemma select_kick_ok σ t T : inv σ → sels σ !! t = Some T → at_ T = SSusp → kick T = true → inv (run_cancel_hook t T σ).
Proof.
  intros Hi HT E Hk. pose proof (i_sel σ Hi t T HT) as Hok. assert (Hcr : cancel_requested T = true) by (apply (o_request _ _ _ Hok); by left).
  assert (Hclear : ∀ lk q T0, kick T0 = true → sel_ok lk q T0 → sel_ok lk q {| T0 with hook := false; kick := false |}).
  { intros lk q T0 Hk0 Hok0. pose proof Hok0 as [? ? ? ? ? ? ? ? ? ? ? ? ? ? ? ?]. split; try done. intros _. apply (o_request _ _ _ Hok0). by left. }
  unfold run_cancel_hook. cbn [winner hook]. destruct (hook T && (winner T =? -1)%Z) eqn:Eh.
  - apply andb_true_iff in Eh as [_ Hw]. apply Z.eqb_eq in Hw.
    apply (inv_obj {| (set_sel t {| T with hook := false; kick := false; winner := kCancelledIndex |} σ) with runq := runq σ ++ [(t, owner T)] |}); [|done|cbn; by rewrite insert_insert_eq|done].
    apply lift_claim; [done..| |].
    + rewrite (o_queued _ _ _ Hok), Hw. by intros [].
    + apply (Hclear (linked σ t) True {| T with winner := kCancelledIndex |}); [done|]. apply (claimed_ok (linked σ t) (linked σ t) (queued σ t) T); try done. by rewrite E.
  - apply (lift_self σ t T); [done..|]. intros _. by apply Hclear.
Qed.

(** ** A call begins *)

Lemma new_ok k l start ow cr kk hk : call_ok k l = true → (kk = true → cr = true) →
  sel_ok (λ _, False) False (mkSel k start (new_op <$> l) [] (STry start 0) (-1) ow cr kk hk []).
Proof.
  intros Hc Hk. unfold call_ok in Hc. apply andb_true_iff in Hc as [Hl Hc]. apply negb_true_iff, Nat.eqb_neq in Hl.
  assert (Hs : ∀ i s, (new_op <$> l) !! i = Some (Sleep s) → s = SleepOp_new ∧ l !! i = Some None).
  { intros i s Hx. rewrite list_lookup_fmap in Hx. destruct (l !! i) as [[o|]|]; cbn in Hx; [done| |done]. by injection Hx as <-. }
  split; cbn; try done; rewrite ?length_fmap.
  - lia.
  - intros i s Hx. destruct (Hs i s Hx) as [-> _]. by split.
  - split; [done|by intros []].
  - naive_solver.
  - intros i s -> Hx. destruct (Hs i s Hx) as [_ Hn]. rewrite forallb_forall in Hc. apply list_elem_of_lookup_2, list_elem_of_In in Hn. by specialize (Hc _ Hn).
Qed.

Lemma fresh_none σ t : inv σ → sels σ !! t = None → (∀ i, ¬ linked σ t i) ∧ ¬ queued σ t.
Proof.
  intros Hi HT. split.
  - intros i [l Hin]. destruct (i_node σ Hi t i l Hin) as (T & o & ? & _). congruence.
  - intros ([t' tid] & E & Hin)%list_elem_of_fmap. cbn in E. subst t'. destruct (i_owner σ Hi t tid Hin) as (T & ? & _). congruence.
Qed.

Lemma returned_none σ t T r : inv σ → sels σ !! t = Some T → at_ T = SRet r → (∀ i, ¬ linked σ t i) ∧ ¬ queued σ t.
Proof.
  intros Hi HT E. pose proof (i_sel σ Hi t T HT) as Hok. split.
  - apply (bare_quiet _ _ _ Hok). by rewrite E.
  - rewrite (o_queued _ _ _ Hok), E. by intros [_ ?].
Qed.

Lemma select_begin_ok σ t T' : inv σ → (∀ i, ¬ linked σ t i) → ¬ queued σ t → sel_ok (λ _, False) False T' → inv (set_sel t T' σ).
Proof.
  intros Hi Hl Hq Hok. apply (lift σ _ t T'); [done|done|done|done| |apply (i_nodup σ Hi)|apply (i_runq σ Hi)| |].
  - intros i l Hin. destruct (Hl i). by exists l.
  - intros t' tid Hin. left. split; [done|]. intros ->. apply Hq, list_elem_of_fmap. by exists (t, tid).
  - eapply sel_ok_ext; [| |exact Hok]; [intros i; split; [apply Hl|done]|split; [apply Hq|done]].
Qed.

Lemma select_step_inv σ σ' e : inv σ → step e σ = Some σ' → inv σ'.
Proof.
  intros Hi H. destruct e as [t k l start ow|t start|a|j|t i|j|t|t]; cbn [step] in H.
  - destruct (call_ok k l) eqn:Hc; [|done]. destruct (sels σ !! t) as [T|] eqn:HT.
    + destruct (at_ T) eqn:E; try done. injection H as <-. destruct (returned_none σ t T res Hi HT E) as [Hl Hq]. apply select_begin_ok; [done..|]. apply new_ok; [done|].
      intros Hk. apply (o_request _ _ _ (i_sel σ Hi t T HT)). by left.
    + injection H as <-. destruct (fresh_none σ t Hi HT) as [Hl Hq]. apply select_begin_ok; [done..|]. by apply new_ok.
  - destruct (sels σ !! t) as [T|] eqn:HT; [|done]. by eapply task_ok.
  - destruct (act_on a (obj σ)) as [[x l]|]; [|done]. injection H as <-. by eapply inv_obj.
  - destruct (wakes σ !! j) as [l|] eqn:Hj; [|done]. by eapply wake_ok.
  - destruct (sels σ !! t) as [T|] eqn:HT; [|done]. cbn in H. destruct (ops T !! i) as [[o|s]|] eqn:Ho; [done| |done]. by eapply timer_step_ok.
  - destruct (runq σ !! j) as [[t tid]|] eqn:Hj; [|done]. destruct (sels σ !! t) as [T|] eqn:HT; [|done]. cbn in H. destruct (at_ T) eqn:E; try done. injection H as <-.
    exact (select_resume_ok σ j t tid T Hi Hj HT E).
  - destruct (sels σ !! t) as [T|] eqn:HT; [|done]. cbn in H. injection H as <-. destruct (cancel_requested T); [done|]. apply (lift_self σ t T); [done..|]. apply request_ok.
  - destruct (sels σ !! t) as [T|] eqn:HT; [|done]. cbn in H. destruct (kick T) eqn:Hk, (at_ T) eqn:E; try done. injection H as <-. by apply select_kick_ok.
Qed.

Lemma select_init_inv x : inv (init x).
Proof.
  assert (Hw : ∀ l, wq (init x) l = []) by (intros l; unfold wq, init; cbn; by rewrite lookup_empty).
  split; cbn; try done.
  - intros t i l. rewrite Hw. by intros ?%elem_of_nil.
  - intros l. rewrite Hw. apply NoDup_nil_2.
  - apply NoDup_nil_2.
  - intros t tid ?%elem_of_nil. done.
Qed.

Lemma select_reachable_inv x σ : reachable x σ → inv σ.
Proof. apply (rtc_ind_r inv (init x)); [apply select_init_inv|]. intros y z _ [e He] Hy. by eapply select_step_inv. Qed.

(** C34: waiting for the first of several operations, under every interleaving of the
    coroutines, the wakes, the timers and the cancellations.  A coroutine is queued at most
    once, by its own worker, and only while it waits or is about to; suspended, it is
    queued as soon as its winner is claimed, and before that every operation can still
    wake it: its node is in the list, or its timer will claim it.  No node stays in a list
    and no timer can still fire when the call has returned; a call that returns an index
    has completed that operation and no other, a cancelled one none. *)
Theorem select_correct x σ t T : reachable x σ → sels σ !! t = Some T →
  NoDup (runq σ).*1 ∧ (∀ tid, (t, tid) ∈ runq σ → tid = owner T ∧ pre (at_ T) = true) ∧
  (at_ T = SSusp → (winner T ≠ (-1)%Z ↔ t ∈ (runq σ).*1) ∧
     (winner T = (-1)%Z → ∀ i, is_active T i = true → (flavour T = KSelect → i < length (ops T)) ∧
        match ops T !! i with Some (Obj o) => (t, i) ∈ wq σ (op_list o) | Some (Sleep s) => will_fire s = true | None => True end)) ∧
  (at_ T = SSusp → flavour T = KSelect → ∀ i, i < length (ops T) → is_active T i = true) ∧
  (∀ r, at_ T = SRet r → (∀ i l, (t, i) ∉ wq σ l) ∧ (∀ i s, ops T !! i = Some (Sleep s) → settled (t_ s) = true) ∧
     completed T = match r with Some i => [i] | None => [] end ∧ (flavour T = KSelect → r = None → cancel_requested T = true)).
Proof.
  intros Hr HT. pose proof (select_reachable_inv x σ Hr) as Hi. pose proof (i_sel σ Hi t T HT) as Hok. split; [apply (i_runq σ Hi)|]. split; [|split; [|split]].
  - intros tid Hin. destruct (i_owner σ Hi t tid Hin) as (T0 & HT0 & ->). assert (T0 = T) as -> by congruence. split; [done|]. apply (o_queued _ _ _ Hok), list_elem_of_fmap. by exists (t, owner T).
  - intros E. split; [|intros Hw i Ha; split].
    + pose proof (o_queued _ _ _ Hok) as Hq. rewrite E in Hq. unfold queued in Hq. rewrite Hq. naive_solver.
    + intros Hf. unfold is_active in Ha. rewrite (o_all _ _ _ Hok Hf) in Ha by by rewrite E. destruct (decide (i < length (ops T))) as [|Hge]; [done|].
      rewrite lookup_ge_None_2 in Ha; [done|]. rewrite length_replicate. lia.
    + pose proof (o_must _ _ _ Hok i Hw) as Hm. rewrite E in Hm. specialize (Hm eq_refl Ha). destruct (ops T !! i) as [[o|s]|] eqn:Ho; [|done|done].
      destruct Hm as [l Hl]. by rewrite <- (linked_at σ t i T o l Hi HT Ho Hl).
  - intros E Hf i Hlt. unfold is_active. rewrite (o_all _ _ _ Hok Hf) by by rewrite E. by rewrite lookup_replicate_2.
  - intros r E. destruct (returned_none σ t T r Hi HT E) as [Hl _]. split; [|split; [|split]].
    + intros i l Hin. destruct (Hl i). by exists l.
    + intros i s Hs. apply (s_final _ _ _ (o_sleep _ _ _ Hok i s Hs)). by rewrite E.
    + pose proof (o_done _ _ _ Hok) as Hd. rewrite E in Hd. exact Hd.
    + intros Hf ->. apply (o_request _ _ _ Hok). rewrite E. tauto.
Qed.
End correct.

(** * Two channels *)

(** The items in each channel; receiving takes one, sending adds one and wakes a waiter. *)
Definition channels : Type := nat * nat.
Definition items (o : bool) (x : channels) : nat := if o then x.2 else x.1.
Definition set_items (o : bool) (n : nat) (x : channels) : channels := if o then (x.1, n) else (n, x.2).

#[export] Instance channels_selectable : Selectable channels := {
  Op := bool;
  op_list o := if o then 1 else 0;
  op_try o x := match items o x with 0 => None | S n => Some (set_items o n x) end;
  op_keep o x := items o x =? 0;
  op_drained _ _ := false;
  Act := bool;
  act_on o x := Some (set_items o (S (items o x)) x, [if o then 1 else 0])
}.

Lemma select_run_reachable {X} `{!Selectable X} x es : ∀ σ σ', reachable x σ → run es σ = Some σ' → reachable x σ'.
Proof.
  induction es as [|e es IH]; intros σ σ' Hσ H; cbn in H; [by injection H as <-|]. destruct (step e σ) as [σ1|] eqn:E; [|done]. cbn in H.
  apply (IH σ1); [|done]. eapply rtc_r; [exact Hσ|]. by exists e.
Qed.

(** Coroutine 1 waits for either channel or a sleep, coroutine 2 for the first channel. *)
Definition two_wait : list event :=
  [EBegin 1 KSelect [Some false; Some true; None] 1 0]%positive ++ replicate 11 (ETask 1 0) ++ [EBegin 2 KSelect [Some false] 0 0]%positive ++ replicate 5 (ETask 2 0).

Definition after_events (es : list event) : St := default (init (0, 0)) (run es (init (0, 0))).
Definition sel_at (t : ptr) (σ : St) : Sel := default (mkSel KSelect 0 [] [] SEnter 0 0 false false false []) (sels σ !! t).

Lemma select_correct_witness :
  let σ := after_events two_wait in
  at_ (sel_at 1 σ) = SSusp ∧ winner (sel_at 1 σ) = (-1)%Z ∧
  (winner (sel_at 1 σ) = (-1)%Z → ∀ i, is_active (sel_at 1 σ) i = true → (flavour (sel_at 1 σ) = KSelect → i < length (ops (sel_at 1 σ))) ∧
        match ops (sel_at 1 σ) !! i with Some (Obj o) => (1%positive, i) ∈ wq σ (op_list o) | Some (Sleep s) => will_fire s = true | None => True end).
Proof.
  intros σ. split; [vm_compute; reflexivity|]. split; [vm_compute; reflexivity|].
  destruct (select_correct (0, 0) σ 1%positive (sel_at 1 σ)) as (_ & _ & H & _).
  - apply (select_run_reachable (0, 0) two_wait (init (0, 0))); [apply rtc_refl|vm_compute; reflexivity].
  - vm_compute; reflexivity.
  - destruct H as [_ H]; [vm_compute; reflexivity|exact H].
Defined.

(** ** The wake that is swallowed *)

(** Coroutine 1 waits for both channels and coroutine 2 for the first.  An item is sent to
    the first channel and its wake claims coroutine 1; before that one runs, an item is sent
    to the second channel.  Coroutine 1 starts its round with the second channel and
    returns its item. *)
Definition strand : list event :=
  [EBegin 1 KSelect [Some false; Some true] 1 0]%positive ++ replicate 8 (ETask 1 0) ++ [EBegin 2 KSelect [Some false] 0 0]%positive ++ replicate 5 (ETask 2 0) ++
  [EAct false; EWake 0; EAct true; EWake 0; EWake 0; EResume 0] ++ replicate 6 (ETask 1 0).

(** A select can swallow a wake.  A run ends with an item in the first channel and a
    coroutine suspended in its list, although nothing is on its way any more: no wake, no
    coroutine that is queued or running. *)
Theorem select_can_strand_an_item :
  ∃ σ, run strand (init (0, 0)) = Some σ ∧ obj σ = (1, 0) ∧ wakes σ = [] ∧ runq σ = [] ∧
    at_ (sel_at 1 σ) = SRet (Some 1) ∧ at_ (sel_at 2 σ) = SSusp ∧ winner (sel_at 2 σ) = (-1)%Z ∧ wq σ 0 = [(2%positive, 0)].
Proof. eexists. split; [vm_compute; reflexivity|]. repeat split. Qed.
End SelectCorrect.
