(* ===== verification/AsyncBarrier.v ===== *)
(** The cyclic barrier ([AsyncBarrier.h]): coroutines that arrive wait in a list of nodes
    that live in their awaiters; the last one to arrive takes the list and queues all of
    them.

    Any number of coroutines interleave.  The section under the spin lock is one step; the
    walk over the list, which the last coroutine makes without the lock, is one step per
    node.  A suspended coroutine is resumed by its worker, from the queue; its awaiter and
    the node in it are gone then.  [arrivals] and [trips] count what has happened. *)

From S2P Require Import Prelude WaitList.

Module AsyncBarrier.

Import WaitList.

(** [Awaiter::Node]; the node of a coroutine has the coroutine's address. *)
Record Node := mkNode { h : handle; next : option ptr; thread_id : Z }.

(** Where a coroutine stands; waiting, it remembers the round it arrived in. *)
Inductive pc :=
| Idle
| Arriving                    (** [await_suspend] up to [lock_] *)
| Releasing (list : option ptr) (** the walk *)
| Waiting (round : nat).

Record Task := mkTask { at_ : pc; owner : Z }.

Record barrier := mkBarrier {
  parties_ : Z;
  arrived_ : Z;
  waiters_ : option ptr;
  nodes : gmap ptr Node;
  tasks : gmap ptr Task;
  runq : list (option handle * Z);
  arrivals : nat;
  trips : nat
}.

Definition AsyncBarrier_new (parties : Z) : barrier := mkBarrier parties 0 None ∅ ∅ [] 0 0.

(** ** [await_suspend] *)

(** The section under the lock; the answer is the list to release, if this is the last. *)
Definition arrive (t : ptr) (b : barrier) : outcome (option (option ptr) * barrier) :=
  let n := u64 (arrived_ b + 1) in
  let b := {| b with arrived_ := n; arrivals := S (arrivals b) |} in
  if n =? parties_ b then
    Done (Some (waiters_ b), {| b with arrived_ := 0; waiters_ := None; trips := S (trips b) |})
  else
    nd ← deref (nodes b !! t);
    Done (None, {| b with nodes := <[t := {| nd with next := waiters_ b |}]> (nodes b); waiters_ := Some t |}).

Definition task_step (t : ptr) (T : Task) (b : barrier) : outcome (option barrier) :=
  match at_ T with
  | Arriving =>
      let round := trips b in
      '(res, b) ← arrive t b;
      let c := match res with Some list => Releasing list | None => Waiting round end in
      Done (Some {| b with tasks := <[t := {| T with at_ := c |}]> (tasks b) |})
  | Releasing (Some list) =>
      nd ← deref (nodes b !! list);
      Done (Some {| b with tasks := <[t := {| T with at_ := Releasing (next nd) |}]> (tasks b);
                           runq := resume_on (Some (h nd)) (thread_id nd) (runq b) |})
  | Releasing None =>
      (* [await_suspend] answers false: the coroutine goes on, its awaiter ends *)
      Done (Some {| b with tasks := <[t := {| T with at_ := Idle |}]> (tasks b); nodes := delete t (nodes b) |})
  | Idle | Waiting _ => Done None
  end.

(** ** The machine *)

Inductive event :=
| EArrive (t : ptr) (tid : Z) (** [co_await arrive_and_wait()] *)
| ETask (t : ptr)
| EResume (i : nat).          (** the worker resumes a coroutine of its queue *)

Definition step (e : event) (b : barrier) : outcome (option barrier) :=
  match e with
  | EArrive t tid =>
      match tasks b !! t with
      | None | Some (mkTask Idle _) =>
          Done (Some {| b with tasks := <[t := mkTask Arriving tid]> (tasks b); nodes := <[t := mkNode t None tid]> (nodes b) |})
      | _ => Done None
      end
  | ETask t => match tasks b !! t with Some T => task_step t T b | None => Done None end
  | EResume i =>
      match runq b !! i with
      | Some (Some t, _) =>
          match tasks b !! t with
          | Some T =>
              match at_ T with
              | Waiting _ => Done (Some {| b with tasks := <[t := {| T with at_ := Idle |}]> (tasks b); nodes := delete t (nodes b); runq := delete i (runq b) |})
              | _ => Done None
              end
          | None => Done None
          end
      | _ => Done None
      end
  end.

Definition steps (b b' : barrier) : Prop := ∃ e, step e b = Done (Some b').
Definition reachable (parties : Z) (b : barrier) : Prop := rtc steps (AsyncBarrier_new parties) b.

Fixpoint run (es : list event) (b : barrier) : outcome (option barrier) :=
  match es with
  | [] => Done (Some b)
  | e :: es => o ← step e b; match o with Some b => run es b | None => Done None end
  end.
End AsyncBarrier.
