(* ===== verification/AsyncBarrierCorrect.v ===== *)
(** The barrier holds everyone back until all have arrived, and then forgets nobody. *)

From S2P Require Import Prelude WaitList AsyncBarrier.

Module AsyncBarrierCorrect.
Import WaitList AsyncBarrier.
Implicit Types (b : barrier) (t : ptr) (T : Task) (m : gmap ptr Node).

(** * Chains of nodes *)

Fixpoint chain m (hd : option ptr) (l : list ptr) : Prop :=
  match l with
  | [] => hd = None
  | x :: l => hd = Some x ∧ ∃ nd, m !! x = Some nd ∧ chain m (next nd) l
  end.

Lemma chain_frame m m' l : ∀ hd, (∀ x, x ∈ l → m' !! x = m !! x) → chain m hd l → chain m' hd l.
Proof.
  induction l as [|x l IH]; intros hd Hm; cbn; [done|]. intros (-> & nd & Hx & Hc). split; [done|]. exists nd. split; [rewrite Hm; [done|by left]|].
  apply IH; [|done]. intros y Hy. apply Hm. by right.
Qed.

Lemma chain_insert m hd l x nd : x ∉ l → chain m hd l → chain (<[x := nd]> m) hd l.
Proof. intros Hx. apply chain_frame. intros y Hy. apply lookup_insert_ne. by intros ->. Qed.

Lemma chain_delete m hd l x : x ∉ l → chain m hd l → chain (delete x m) hd l.
Proof. intros Hx. apply chain_frame. intros y Hy. apply lookup_delete_ne. by intros ->. Qed.

(** * The invariant *)

(** Where a waiting coroutine is: in the list of the barrier, in the list the coroutine [r]
    walks over, or in the queue. *)
Inductive place := InW | InL (r : ptr) | InQ.
#[export] Instance place_eq_dec : EqDecision place.
Proof. solve_decision. Defined.

Implicit Types (loc : gmap ptr place).

(** The nodes from [hd] on are those at [pl]. *)
Definition holds_at m loc (hd : option ptr) (pl : place) (l : list ptr) : Prop :=
  chain m hd l ∧ NoDup l ∧ ∀ t, t ∈ l ↔ loc !! t = Some pl.

Record inv_at loc b : Prop := {
  i_wait t : is_Some (loc !! t) ↔ ∃ T r, tasks b !! t = Some T ∧ at_ T = Waiting r;
  i_round t T r : tasks b !! t = Some T → at_ T = Waiting r → (r ≤ trips b)%nat ∧ (r = trips b ↔ loc !! t = Some InW);
  i_node t nd : nodes b !! t = Some nd → h nd = t ∧ ∃ T, tasks b !! t = Some T ∧ thread_id nd = owner T;
  i_has t T : tasks b !! t = Some T → at_ T ≠ Idle → is_Some (nodes b !! t);
  i_W : ∃ W, holds_at (nodes b) loc (waiters_ b) InW W ∧ Z.of_nat (length W) = arrived_ b;
  i_L r T hd : tasks b !! r = Some T → at_ T = Releasing hd → ∃ l, holds_at (nodes b) loc hd (InL r) l;
  i_walker t r : loc !! t = Some (InL r) → ∃ T hd, tasks b !! r = Some T ∧ at_ T = Releasing hd;
  i_Q : NoDup (runq b).*1 ∧ ∀ t, Some t ∈ (runq b).*1 ↔ loc !! t = Some InQ;
  i_queue o tid : (o, tid) ∈ runq b → ∃ t T, o = Some t ∧ tasks b !! t = Some T ∧ tid = owner T;
  i_parties : 0 <= arrived_ b < parties_ b ∧ parties_ b < 2 ^ 64 ∧ Z.of_nat (arrivals b) = Z.of_nat (trips b) * parties_ b + arrived_ b
}.

Definition inv b : Prop := ∃ loc, inv_at loc b.

(** A coroutine that does not wait is in no list. *)
Lemma not_waiting loc b t T : inv_at loc b → tasks b !! t = Some T → (∀ r, at_ T ≠ Waiting r) → loc !! t = None.
Proof.
  intros Hi Ht Hn. destruct (loc !! t) as [pl|] eqn:E; [|done]. destruct (proj1 (i_wait loc b Hi t)) as (T' & r & HT & Hr); [by rewrite E|].
  assert (T' = T) as -> by congruence. by destruct (Hn r).
Qed.

Lemma unknown_not_waiting loc b t : inv_at loc b → tasks b !! t = None → loc !! t = None.
Proof. intros Hi Ht. destruct (loc !! t) as [pl|] eqn:E; [|done]. destruct (proj1 (i_wait loc b Hi t)) as (T' & r & HT & Hr); [by rewrite E|]. congruence. Qed.

Lemma holds_at_frame m m' loc hd pl l t : holds_at m loc hd pl l → loc !! t ≠ Some pl → (∀ x, x ≠ t → m' !! x = m !! x) → holds_at m' loc hd pl l.
Proof.
  intros (Hc & Hn & Hl) Ht Hm. split; [|done]. eapply chain_frame; [|done]. intros x Hx. apply Hm. intros ->. by apply Ht, Hl.
Qed.

Section steps.
Context loc b (Hi : inv_at loc b).

(** [arrive_and_wait]: a new node, in no list. *)
Lemma begin_inv t tid : loc !! t = None → (∀ T, tasks b !! t = Some T → at_ T = Idle) →
  inv_at loc {| b with tasks := <[t := mkTask Arriving tid]> (tasks b); nodes := <[t := mkNode t None tid]> (nodes b) |}.
Proof.
  intros Hloc Hidle.
  assert (Hm : ∀ x, x ≠ t → <[t := mkNode t None tid]> (nodes b) !! x = nodes b !! x) by (intros x Hx; by apply lookup_insert_ne).
  assert (Hl : ∀ x T, <[t := mkTask Arriving tid]> (tasks b) !! x = Some T → x = t ∧ T = mkTask Arriving tid ∨ x ≠ t ∧ tasks b !! x = Some T).
  { intros x T [[<- <-]|[? ?]]%lookup_insert_Some; [by left|by right]. }
  assert (Hold : ∀ x T, x ≠ t → tasks b !! x = Some T → <[t := mkTask Arriving tid]> (tasks b) !! x = Some T) by (intros x T Hx HT; by rewrite lookup_insert_ne).
  split; cbn; try apply Hi.
  - intros x. rewrite (i_wait loc b Hi x). split; intros (T & r & HT & Hr).
    + exists T, r. split; [|done]. apply Hold; [|done]. intros ->. rewrite (Hidle T HT) in Hr. done.
    + apply Hl in HT as [[-> ->]|[_ HT]]; [done|]. by exists T, r.
  - intros x T r HT Hr. apply Hl in HT as [[-> ->]|[_ HT]]; [done|]. by apply (i_round loc b Hi x T).
  - intros x nd [[<- <-]|[Hx Hnd]]%lookup_insert_Some; [split; [done|]; eexists; split; [by rewrite lookup_insert_eq|done]|].
    destruct (i_node loc b Hi x nd Hnd) as (? & T & HT & ?). split; [done|]. exists T. split; [by apply Hold|done].
  - intros x T HT Ha. destruct (decide (x = t)) as [->|Hx]; [by rewrite lookup_insert_eq|]. rewrite Hm by done. apply Hl in HT as [[-> _]|[_ HT]]; [done|]. by apply (i_has loc b Hi x T).
  - destruct (i_W loc b Hi) as (W & HW & Hlen). exists W. split; [|done]. eapply holds_at_frame; [done|by rewrite Hloc|done].
  - intros r T hd HT Hr. apply Hl in HT as [[-> ->]|[_ HT]]; [done|]. destruct (i_L loc b Hi r T hd HT Hr) as (l & Hl'). exists l.
    eapply holds_at_frame; [done|by rewrite Hloc|done].
  - intros x r Hx. destruct (i_walker loc b Hi x r Hx) as (T & hd & HT & Hr). exists T, hd. split; [|done]. apply Hold; [|done]. intros ->. rewrite (Hidle T HT) in Hr. done.
  - intros o tid' Hin. destruct (i_queue loc b Hi o tid' Hin) as (x & T & -> & HT & ->). exists x, T. split; [done|]. split; [|done]. apply Hold; [|done]. intros ->.
    assert (is_Some (loc !! t)) as [? ?]; [|congruence]. exists InQ. apply (proj2 (i_Q loc b Hi)). apply list_elem_of_fmap. by exists (Some t, owner T).
Qed.

Context t T (HT : tasks b !! t = Some T).

Lemma upd_task (T' : Task) x T0 : <[t := T']> (tasks b) !! x = Some T0 → x = t ∧ T0 = T' ∨ x ≠ t ∧ tasks b !! x = Some T0.
Proof. intros [[<- <-]|[? ?]]%lookup_insert_Some; [by left|by right]. Qed.

(** Lists that [t] is not in do not see a change of its node or its place. *)
Lemma keep_list m' loc' hd pl l : holds_at (nodes b) loc hd pl l → loc !! t ≠ Some pl → (∀ x, x ≠ t → m' !! x = nodes b !! x) →
  (∀ x, x ≠ t → loc' !! x = loc !! x) → loc' !! t ≠ Some pl → holds_at m' loc' hd pl l.
Proof.
  intros Hh Ht Hm Hl Ht'. destruct (holds_at_frame _ m' _ _ _ _ t Hh Ht Hm) as (Hc & Hn & Hiff). split; [done|]. split; [done|].
  intros x. rewrite Hiff. destruct (decide (x = t)) as [->|Hx]; [tauto|by rewrite Hl].
Qed.

(** Not the last: the coroutine waits in the list of the barrier. *)
Lemma arrive_wait nd n : at_ T = Arriving → nodes b !! t = Some nd → n = arrived_ b + 1 → n < parties_ b →
  inv_at (<[t := InW]> loc) {| b with arrived_ := n; arrivals := S (arrivals b); nodes := <[t := {| nd with next := waiters_ b |}]> (nodes b); waiters_ := Some t;
    tasks := <[t := {| T with at_ := Waiting (trips b) |}]> (tasks b) |}.
Proof.
  intros Ha Hnd -> Hn. assert (Hloc : loc !! t = None) by (eapply not_waiting; [done..|]; intros r; by rewrite Ha).
  set (T' := {| T with at_ := _ |}). set (nd' := {| nd with next := _ |}). destruct (i_node loc b Hi t nd Hnd) as (Eh & T0 & HT0 & Eo). assert (T0 = T) as -> by congruence.
  assert (Hm : ∀ x, x ≠ t → <[t := nd']> (nodes b) !! x = nodes b !! x) by (intros; by apply lookup_insert_ne).
  assert (Hlo : ∀ x, x ≠ t → <[t := InW]> loc !! x = loc !! x) by (intros; by apply lookup_insert_ne).
  split; cbn.
  - intros x. destruct (decide (x = t)) as [->|Hx].
    + rewrite !lookup_insert_eq. split; [|done]. intros _. by exists T', (trips b).
    + rewrite Hlo, lookup_insert_ne by done. apply (i_wait loc b Hi).
  - intros x T1 r H1 Hr. apply upd_task in H1 as [[-> ->]|[Hx H1]].
    + injection Hr as <-. rewrite lookup_insert_eq. done.
    + rewrite Hlo by done. by apply (i_round loc b Hi x T1).
  - intros x nd1 [[<- <-]|[Hx H1]]%lookup_insert_Some; [split; [done|]; exists T'; by rewrite lookup_insert_eq|].
    rewrite lookup_insert_ne by done. by apply (i_node loc b Hi).
  - intros x T1 H1 Ha1. destruct (decide (x = t)) as [->|Hx]; [by rewrite lookup_insert_eq|]. rewrite Hm by done. apply upd_task in H1 as [[-> _]|[_ H1]]; [done|]. by apply (i_has loc b Hi x T1).
  - destruct (i_W loc b Hi) as (W & (Hc & Hnd' & HW) & Hlen). exists (t :: W). assert (HtW : t ∉ W) by (rewrite HW, Hloc; done). split.
    + split; [|split; [by apply NoDup_cons|]].
      * split; [done|]. exists nd'. split; [by rewrite lookup_insert_eq|]. by apply chain_insert.
      * intros x. rewrite elem_of_cons, HW. destruct (decide (x = t)) as [->|Hx]; [rewrite lookup_insert_eq; tauto|rewrite Hlo by done; tauto].
    + cbn [length]. lia.
  - intros r T1 hd H1 Hr. apply upd_task in H1 as [[-> ->]|[Hx H1]]; [done|]. destruct (i_L loc b Hi r T1 hd H1 Hr) as (l & Hl). exists l.
    eapply keep_list; [done|by rewrite Hloc|done|done|by rewrite lookup_insert_eq].
  - intros x r Hx. apply lookup_insert_Some in Hx as [[_ ?]|[_ Hx]]; [done|]. destruct (i_walker loc b Hi x r Hx) as (T1 & hd & H1 & Hr). exists T1, hd. split; [|done].
    rewrite lookup_insert_ne; [done|]. intros <-. congruence.
  - split; [apply (i_Q loc b Hi)|]. intros x. rewrite (proj2 (i_Q loc b Hi)). destruct (decide (x = t)) as [->|Hx]; [by rewrite lookup_insert_eq, Hloc|by rewrite Hlo].
  - intros o tid Hin. destruct (i_queue loc b Hi o tid Hin) as (x & T1 & -> & H1 & ->). destruct (decide (x = t)) as [->|Hx].
    + exists t, T'. rewrite lookup_insert_eq. assert (T1 = T) as -> by congruence. done.
    + exists x, T1. by rewrite lookup_insert_ne.
  - pose proof (i_parties loc b Hi). lia.
Qed.

(** The last: all that wait in the barrier's list are now in the list of [t]. *)
Lemma arrive_last : at_ T = Arriving → arrived_ b + 1 = parties_ b →
  inv_at ((λ pl, match pl with InW => InL t | _ => pl end) <$> loc)
    {| b with arrived_ := 0; arrivals := S (arrivals b); waiters_ := None; trips := S (trips b); tasks := <[t := {| T with at_ := Releasing (waiters_ b) |}]> (tasks b) |}.
Proof.
  intros Ha Hn. assert (Hloc : loc !! t = None) by (eapply not_waiting; [done..|]; intros r; by rewrite Ha). set (T' := {| T with at_ := _ |}). set (loc' := _ <$> loc).
  assert (Hsome : ∀ x, is_Some (loc' !! x) ↔ is_Some (loc !! x)) by (intros x; unfold loc'; by rewrite lookup_fmap, fmap_is_Some).
  assert (HnoL : ∀ x, loc !! x ≠ Some (InL t)).
  { intros x Hx. destruct (i_walker loc b Hi x t Hx) as (T1 & hd & H1 & Hr). congruence. }
  assert (Hpl : ∀ x pl, pl ≠ InW → pl ≠ InL t → loc' !! x = Some pl ↔ loc !! x = Some pl).
  { intros x pl H1 H2. unfold loc'. rewrite lookup_fmap. destruct (loc !! x) as [[| |]|]; cbn; split; congruence. }
  assert (HL : ∀ x, loc' !! x = Some (InL t) ↔ loc !! x = Some InW).
  { intros x. unfold loc'. rewrite lookup_fmap. specialize (HnoL x). destruct (loc !! x) as [[| |]|]; cbn; split; congruence. }
  assert (HW' : ∀ x, loc' !! x ≠ Some InW) by (intros x; unfold loc'; rewrite lookup_fmap; by destruct (loc !! x) as [[| |]|]).
  split; cbn.
  - intros x. rewrite Hsome. rewrite (i_wait loc b Hi x). split; intros (T1 & r & H1 & Hr).
    + exists T1, r. split; [|done]. rewrite lookup_insert_ne; [done|]. intros <-. congruence.
    + apply upd_task in H1 as [[-> ->]|[_ H1]]; [done|]. by exists T1, r.
  - intros x T1 r H1 Hr. apply upd_task in H1 as [[-> ->]|[Hx H1]]; [done|]. destruct (i_round loc b Hi x T1 r H1 Hr) as [Hle _]. split; [lia|]. split; [lia|]. by intros ?%HW'.
  - intros x nd Hnd. destruct (i_node loc b Hi x nd Hnd) as (? & T1 & H1 & ?). split; [done|]. destruct (decide (x = t)) as [->|Hx].
    + exists T'. rewrite lookup_insert_eq. assert (T1 = T) as -> by congruence. done.
    + exists T1. by rewrite lookup_insert_ne.
  - intros x T1 H1 Ha1. apply upd_task in H1 as [[-> ->]|[_ H1]]; [|by apply (i_has loc b Hi x T1)]. apply (i_has loc b Hi t T HT). by rewrite Ha.
  - exists []. split; [|done]. split; [done|]. split; [apply NoDup_nil_2|]. intros x. split; [by intros ?%elem_of_nil|]. by intros ?%HW'.
  - intros r T1 hd H1 Hr. apply upd_task in H1 as [[-> ->]|[Hx H1]].
    + injection Hr as <-. destruct (i_W loc b Hi) as (W & (Hc & Hnd' & HW) & _). exists W. split; [done|]. split; [done|]. intros x. by rewrite HW, HL.
    + destruct (i_L loc b Hi r T1 hd H1 Hr) as (l & Hc & Hnd' & Hl). exists l. split; [done|]. split; [done|]. intros x. rewrite Hl, Hpl; [done|done|congruence].
  - intros x r Hx. destruct (decide (r = t)) as [->|Hr]; [exists T', (waiters_ b); by rewrite lookup_insert_eq|].
    apply Hpl in Hx; [|done|congruence]. destruct (i_walker loc b Hi x r Hx) as (T1 & hd & H1 & ?). exists T1, hd. by rewrite lookup_insert_ne.
  - split; [apply (i_Q loc b Hi)|]. intros x. rewrite (proj2 (i_Q loc b Hi)), Hpl; done.
  - intros o tid Hin. destruct (i_queue loc b Hi o tid Hin) as (x & T1 & -> & H1 & ->). destruct (decide (x = t)) as [->|Hx].
    + exists t, T'. rewrite lookup_insert_eq. assert (T1 = T) as -> by congruence. done.
    + exists x, T1. by rewrite lookup_insert_ne.
  - pose proof (i_parties loc b Hi). lia.
Qed.

(** The walk takes one node. *)
Lemma release_one x nd : at_ T = Releasing (Some x) → nodes b !! x = Some nd →
  inv_at (<[x := InQ]> loc) {| b with tasks := <[t := {| T with at_ := Releasing (next nd) |}]> (tasks b); runq := resume_on (Some (h nd)) (thread_id nd) (runq b) |}.
Proof.
  intros Ha Hnd. destruct (i_L loc b Hi t T _ HT Ha) as ([|x' l] & Hc & Hno & Hl); [done|]. destruct Hc as (E & nd0 & Hnd0 & Hc). injection E as <-.
  assert (nd0 = nd) as -> by congruence. apply NoDup_cons in Hno as [Hxl Hno]. assert (Hx : loc !! x = Some (InL t)) by (apply Hl; by left).
  destruct (i_node loc b Hi x nd Hnd) as (Eh & Tx & HTx & Eo). rewrite Eh, Eo. set (T' := {| T with at_ := _ |}).
  assert (Hlo : ∀ y, y ≠ x → <[x := InQ]> loc !! y = loc !! y) by (intros; by apply lookup_insert_ne).
  assert (Hpl : ∀ y pl, pl ≠ InQ → pl ≠ InL t → <[x := InQ]> loc !! y = Some pl ↔ loc !! y = Some pl).
  { intros y pl H1 H2. destruct (decide (y = x)) as [->|Hy]; [rewrite lookup_insert_eq, Hx; split; congruence|by rewrite Hlo]. }
  assert (Hxt : x ≠ t).
  { intros ->. destruct (proj1 (i_wait loc b Hi t)) as (T1 & r & H1 & Hr); [by rewrite Hx|]. congruence. }
  split; cbn.
  - intros y. rewrite lookup_insert_is_Some. transitivity (is_Some (loc !! y)).
    { split; [intros [<-|[_ ?]]; [by rewrite Hx|done]|intros ?; destruct (decide (x = y)); tauto]. }
    rewrite (i_wait loc b Hi y). split; intros (T1 & r & H1 & Hr); exists T1, r; (split; [|done]).
    + rewrite lookup_insert_ne; [done|]. intros <-. congruence.
    + apply upd_task in H1 as [[-> ->]|[_ H1]]; done.
  - intros y T1 r H1 Hr. apply upd_task in H1 as [[-> ->]|[Hy H1]]; [done|]. rewrite Hpl by done. by apply (i_round loc b Hi y T1).
  - intros y nd1 H1. destruct (i_node loc b Hi y nd1 H1) as (? & T1 & HT1 & ?). split; [done|]. destruct (decide (y = t)) as [->|Hy].
    + exists T'. rewrite lookup_insert_eq. assert (T1 = T) as -> by congruence. done.
    + exists T1. by rewrite lookup_insert_ne.
  - intros y T1 H1 Ha1. apply upd_task in H1 as [[-> ->]|[_ H1]]; [|by apply (i_has loc b Hi y T1)]. apply (i_has loc b Hi t T HT). by rewrite Ha.
  - destruct (i_W loc b Hi) as (W & (HcW & HnW & HW) & Hlen). exists W. split; [|done]. split; [done|]. split; [done|]. intros y. by rewrite HW, Hpl.
  - intros r T1 hd H1 Hr. apply upd_task in H1 as [[-> ->]|[Hr' H1]].
    + injection Hr as <-. exists l. split; [done|]. split; [done|]. intros y. destruct (decide (y = x)) as [->|Hy].
      * rewrite lookup_insert_eq. split; [done|congruence].
      * rewrite Hlo, <- Hl, elem_of_cons by done. tauto.
    + destruct (i_L loc b Hi r T1 hd H1 Hr) as (l1 & Hc1 & Hn1 & Hl1). exists l1. split; [done|]. split; [done|]. intros y. rewrite Hl1, Hpl; [done|done|congruence].
  - intros y r Hy. apply lookup_insert_Some in Hy as [[_ ?]|[_ Hy]]; [done|]. destruct (i_walker loc b Hi y r Hy) as (T1 & hd & H1 & Hr). destruct (decide (r = t)) as [->|Hr'].
    + exists T', (next nd). by rewrite lookup_insert_eq.
    + exists T1, hd. by rewrite lookup_insert_ne.
  - destruct (i_Q loc b Hi) as [HnQ HQ]. unfold resume_on. rewrite fmap_app. cbn. split.
    + apply NoDup_app. split; [done|]. split; [|apply NoDup_singleton]. intros o Ho ->%list_elem_of_singleton. apply HQ in Ho. congruence.
    + intros y. rewrite elem_of_app, list_elem_of_singleton, HQ. destruct (decide (y = x)) as [->|Hy]; [rewrite lookup_insert_eq; split; [done|by right]|].
      rewrite Hlo by done. split; [intros [?|?]; [done|congruence]|by left].
  - unfold resume_on. intros o tid [Hin|Hin]%elem_of_app.
    + destruct (i_queue loc b Hi o tid Hin) as (y & T1 & -> & H1 & ->). destruct (decide (y = t)) as [->|Hy].
      * exists t, T'. rewrite lookup_insert_eq. assert (T1 = T) as -> by congruence. done.
      * exists y, T1. by rewrite lookup_insert_ne.
    + apply list_elem_of_singleton in Hin. injection Hin as -> ->. exists x, Tx. split; [done|]. by rewrite lookup_insert_ne.
  - apply (i_parties loc b Hi).
Qed.

(** A coroutine leaves the barrier: its node is gone. *)
Lemma leave_barrier loc' rq : (∀ x, x ≠ t → loc' !! x = loc !! x) → loc' !! t = None → loc !! t ≠ Some InW → (∀ r, loc !! t ≠ Some (InL r)) → (∀ x, loc !! x ≠ Some (InL t)) →
  NoDup rq.*1 → (∀ x, Some x ∈ rq.*1 ↔ loc' !! x = Some InQ) → (∀ e, e ∈ rq → e ∈ runq b) →
  inv_at loc' {| b with tasks := <[t := {| T with at_ := Idle |}]> (tasks b); nodes := delete t (nodes b); runq := rq |}.
Proof.
  intros Hlo Ht HtW HtL HLt HnQ HQ Hsub. set (T' := {| T with at_ := _ |}).
  assert (Hm : ∀ x, x ≠ t → delete t (nodes b) !! x = nodes b !! x) by (intros; by apply lookup_delete_ne).
  split; cbn.
  - intros x. destruct (decide (x = t)) as [->|Hx].
    + rewrite Ht. split; [by intros []|]. intros (T1 & r & H1 & Hr). rewrite lookup_insert_eq in H1. injection H1 as <-. done.
    + rewrite Hlo, lookup_insert_ne by done. apply (i_wait loc b Hi).
  - intros x T1 r H1 Hr. apply upd_task in H1 as [[-> ->]|[Hx H1]]; [done|]. rewrite Hlo by done. by apply (i_round loc b Hi x T1).
  - intros x nd [Hx H1]%lookup_delete_Some. rewrite lookup_insert_ne by done. by apply (i_node loc b Hi).
  - intros x T1 H1 Ha1. apply upd_task in H1 as [[-> ->]|[Hx H1]]; [done|]. rewrite Hm by done. by apply (i_has loc b Hi x T1).
  - destruct (i_W loc b Hi) as (W & HW & Hlen). exists W. split; [|done]. eapply keep_list; [done|done|done|done|by rewrite Ht].
  - intros r T1 hd H1 Hr. apply upd_task in H1 as [[-> ->]|[Hx H1]]; [done|]. destruct (i_L loc b Hi r T1 hd H1 Hr) as (l & Hl). exists l.
    eapply keep_list; [done|done|done|done|by rewrite Ht].
  - intros x r Hx. assert (x ≠ t) by congruence. rewrite Hlo in Hx by done. destruct (i_walker loc b Hi x r Hx) as (T1 & hd & H1 & Hr). exists T1, hd. split; [|done].
    rewrite lookup_insert_ne; [done|]. intros <-. by destruct (HLt x).
  - done.
  - intros o tid Hin. destruct (i_queue loc b Hi o tid (Hsub _ Hin)) as (x & T1 & -> & H1 & ->). exists x, T1. split; [done|]. rewrite lookup_insert_ne; [done|]. intros <-.
    assert (Hq : loc' !! t = Some InQ); [|congruence]. apply HQ, list_elem_of_fmap. by exists (Some t, owner T1).
  - apply (i_parties loc b Hi).
Qed.

Lemma release_end : at_ T = Releasing None → inv_at loc {| b with tasks := <[t := {| T with at_ := Idle |}]> (tasks b); nodes := delete t (nodes b) |}.
Proof.
  intros Ha. assert (Hloc : loc !! t = None) by (eapply not_waiting; [done..|]; intros r; by rewrite Ha).
  apply (leave_barrier loc (runq b)); [done|done|by rewrite Hloc|by rewrite Hloc| |apply (i_Q loc b Hi)|apply (i_Q loc b Hi)|done].
  intros x Hx. destruct (i_L loc b Hi t T None HT Ha) as ([|y l] & Hc & _ & Hl); [apply Hl in Hx; by apply elem_of_nil in Hx|]. by destruct Hc.
Qed.

Lemma resume_waiting i tid r : runq b !! i = Some (Some t, tid) → at_ T = Waiting r →
  inv_at (delete t loc) {| b with tasks := <[t := {| T with at_ := Idle |}]> (tasks b); nodes := delete t (nodes b); runq := delete i (runq b) |}.
Proof.
  intros Hq Ha. destruct (i_Q loc b Hi) as [HnQ HQ].
  assert (Hloc : loc !! t = Some InQ) by (apply HQ, list_elem_of_fmap; exists (Some t, tid); split; [done|by eapply list_elem_of_lookup_2]).
  pose proof (delete_Permutation (runq b) i _ Hq) as Hp. assert (Hp' : (runq b).*1 ≡ₚ Some t :: (delete i (runq b)).*1) by (by rewrite Hp at 1).
  pose proof HnQ as HnQ'. rewrite Hp' in HnQ'. apply NoDup_cons in HnQ' as [Hnot Hnd].
  apply (leave_barrier (delete t loc) (delete i (runq b))); [intros; by apply lookup_delete_ne|apply lookup_delete_eq|by rewrite Hloc|by rewrite Hloc| |done| |].
  - intros x Hx. destruct (i_walker loc b Hi x t Hx) as (T1 & hd & H1 & Hr). congruence.
  - intros x. destruct (decide (x = t)) as [->|Hx]; [rewrite lookup_delete_eq; split; [done|done]|]. rewrite lookup_delete_ne, <- HQ, Hp', elem_of_cons by done.
    split; [by right|]. intros [?|?]; [congruence|done].
  - intros e He. apply (elem_of_Permutation_proper e _ _ Hp). by right.
Qed.
End steps.

(** * The machine *)

Lemma task_defined b t T : inv b → tasks b !! t = Some T → ∃ o, task_step t T b = Done o ∧ ∀ b', o = Some b' → inv b' ∧ parties_ b' = parties_ b.
Proof.
  intros (loc & Hi) HT. unfold task_step. destruct (at_ T) as [| |[x|]|r] eqn:Ha; [by eexists| | | |by eexists].
  - pose proof (i_parties loc b Hi) as ((Hlo & Hhi) & Hmax & _). unfold arrive. cbn zeta. cbn [arrived_ parties_ waiters_ nodes trips arrivals]. rewrite (wrap_small 64) by lia.
    destruct (Z.eqb_spec (arrived_ b + 1) (parties_ b)) as [E|Hne].
    + eexists. split; [done|]. intros b' Hb. injection Hb as <-. split; [|done]. eexists. by apply arrive_last.
    + destruct (i_has loc b Hi t T HT) as [nd Hnd]; [by rewrite Ha|]. rewrite Hnd. cbn. eexists. split; [done|]. intros b' Hb. injection Hb as <-. split; [|done].
      eexists. apply arrive_wait; [done..|lia].
  - destruct (i_L loc b Hi t T _ HT Ha) as ([|y l] & Hc & _); [done|]. destruct Hc as (E & nd & Hnd & _). injection E as <-. rewrite Hnd. eexists. split; [done|].
    intros b' Hb. injection Hb as <-. split; [|done]. eexists. by apply release_one.
  - eexists. split; [done|]. intros b' Hb. injection Hb as <-. split; [|done]. exists loc. by apply release_end.
Qed.

Lemma step_defined b e : inv b → ∃ o, step e b = Done o ∧ ∀ b', o = Some b' → inv b' ∧ parties_ b' = parties_ b.
Proof.
  intros Hb. pose proof Hb as (loc & Hi). destruct e as [t tid|t|i]; cbn [step].
  - destruct (tasks b !! t) as [[[| | |] ow]|] eqn:HT; try by eexists.
    + eexists. split; [done|]. intros b' E. injection E as <-. split; [|done]. exists loc. apply begin_inv; [done| |intros T HT'; by rewrite HT in HT'; injection HT' as <-].
      by eapply not_waiting.
    + eexists. split; [done|]. intros b' E. injection E as <-. split; [|done]. exists loc. apply begin_inv; [done|by eapply unknown_not_waiting|by rewrite HT].
  - destruct (tasks b !! t) as [T|] eqn:HT; [by apply task_defined|by eexists].
  - destruct (runq b !! i) as [[[t|] tid]|] eqn:Hq; try by eexists. destruct (tasks b !! t) as [T|] eqn:HT; [|by eexists].
    destruct (at_ T) as [| | |r] eqn:Ha; try by eexists. eexists. split; [done|]. intros b' E. injection E as <-. split; [|done]. eexists. by eapply resume_waiting.
Qed.

Lemma barrier_new_inv n : 1 <= n < 2 ^ 64 → inv (AsyncBarrier_new n).
Proof.
  intros Hn. exists ∅. split; cbn; try done; try lia.
  - intros t. split; [by intros []|]. by intros (T & r & HT & _).
  - exists []. split; [|done]. split; [done|]. split; [apply NoDup_nil_2|]. intros t. split; [by intros ?%elem_of_nil|done].
  - split; [apply NoDup_nil_2|]. intros t. split; [by intros ?%elem_of_nil|done].
  - intros o tid Hin. by apply elem_of_nil in Hin.
Qed.

Lemma barrier_reachable_inv n b : 1 <= n < 2 ^ 64 → reachable n b → inv b ∧ parties_ b = n.
Proof.
  intros Hn. apply (rtc_ind_r (λ b, inv b ∧ parties_ b = n) (AsyncBarrier_new n)); [split; [by apply barrier_new_inv|done]|]. intros x y _ [e He] [Hx Ex].
  destruct (step_defined x e Hx) as (o & Ho & Hy). assert (o = Some y) as -> by congruence. destruct (Hy y eq_refl) as [? ->]. done.
Qed.

(** The walk of [t] by itself reaches its end and has queued everyone. *)
Lemma walk_ends b t T l : ∀ hd rq, chain (nodes b) hd l →
  run (replicate (length l) (ETask t)) {| b with tasks := <[t := {| T with at_ := Releasing hd |}]> (tasks b); runq := rq |} =
  Done (Some {| b with tasks := <[t := {| T with at_ := Releasing None |}]> (tasks b); runq := rq ++ omap (λ x, nd ← nodes b !! x; Some (Some (h nd), thread_id nd)) l |}).
Proof.
  induction l as [|x l IH]; intros hd rq Hc; cbn in Hc.
  - subst hd. cbn. by rewrite app_nil_r.
  - destruct Hc as (-> & nd & Hnd & Hc). cbn [replicate run length step tasks]. rewrite lookup_insert_eq. unfold task_step. cbn [at_ nodes]. rewrite Hnd. cbn [deref mbind outcome_bind].
    specialize (IH (next nd) (rq ++ [(Some (h nd), thread_id nd)]) Hc). cbn [omap list_omap]. rewrite Hnd. cbn [mbind option_bind]. rewrite <- app_assoc in IH. cbn [app] in IH.
    cbn [tasks owner runq parties_ arrived_ waiters_ nodes arrivals trips]. rewrite insert_insert_eq. exact IH.
Qed.

Lemma same_state b t T hd : tasks b !! t = Some T → at_ T = Releasing hd → {| b with tasks := <[t := {| T with at_ := Releasing hd |}]> (tasks b); runq := runq b |} = b.
Proof. intros HT <-. replace {| T with at_ := at_ T |} with T by by destruct T. rewrite insert_id by done. by destruct b. Qed.

(** A coroutine that waits in the list of the barrier stays there through every step of it. *)
Lemma stays_in_list loc b b' e t T r : inv_at loc b → step e b = Done (Some b') → tasks b !! t = Some T → at_ T = Waiting r → loc !! t = Some InW → tasks b' !! t = Some T.
Proof.
  intros Hi Hs HT Hw Hloc. destruct e as [t' tid|t'|i]; cbn [step] in Hs.
  - assert (t' ≠ t).
    { intros ->. rewrite HT in Hs. destruct T as [c ow]. cbn in Hw. subst c. done. }
    destruct (tasks b !! t') as [[[| | |] ow]|]; try done; injection Hs as <-; cbn; by rewrite lookup_insert_ne.
  - destruct (tasks b !! t') as [T'|] eqn:HT'; [|done]. unfold task_step in Hs. assert (t' ≠ t).
    { intros ->. assert (T' = T) as -> by congruence. by rewrite Hw in Hs. }
    destruct (at_ T') as [| |[x|]|]; [done| | | |done].
    + unfold arrive in Hs. destruct (_ =? _); [injection Hs as <-; cbn; by rewrite lookup_insert_ne|]. cbn in Hs. destruct (nodes b !! t'); [|done]. injection Hs as <-. cbn. by rewrite lookup_insert_ne.
    + destruct (nodes b !! x); [|done]. injection Hs as <-. cbn. by rewrite lookup_insert_ne.
    + injection Hs as <-. cbn. by rewrite lookup_insert_ne.
  - destruct (runq b !! i) as [[[t'|] tid]|] eqn:Hq; try done. destruct (tasks b !! t') as [T'|] eqn:HT'; [|done]. destruct (at_ T'); try done. injection Hs as <-. cbn.
    rewrite lookup_insert_ne; [done|]. intros ->. assert (loc !! t = Some InQ); [|congruence].
    apply (proj2 (i_Q loc b Hi)), list_elem_of_fmap. exists (Some t, tid). split; [done|by eapply list_elem_of_lookup_2].
Qed.

(** C12: a barrier of [n] parties.  Every step is defined: no node is used after its
    coroutine has gone on.  The arrivals are counted in rounds of [n]; a coroutine that
    waits leaves only when all of its round have arrived; once they have, it is in the
    queue of its worker or ahead of the coroutine that releases the round; what waits of
    the current round are exactly the [arrived_] coroutines in the list.  Nobody is queued
    twice, and the walk that releases a round ends and queues all of its list. *)
Theorem barrier_correct n b : 1 <= n < 2 ^ 64 → reachable n b →
  (∀ e, ∃ o, step e b = Done o) ∧
  (0 <= arrived_ b < n ∧ Z.of_nat (arrivals b) = Z.of_nat (trips b) * n + arrived_ b) ∧
  (∀ e b' t T r, step e b = Done (Some b') → tasks b !! t = Some T → at_ T = Waiting r → tasks b' !! t ≠ Some T → Z.of_nat (S r) * n <= Z.of_nat (arrivals b)) ∧
  (∃ W, chain (nodes b) (waiters_ b) W ∧ NoDup W ∧ Z.of_nat (length W) = arrived_ b ∧
     ∀ t T r, tasks b !! t = Some T → at_ T = Waiting r →
       if decide (r = trips b) then t ∈ W
       else (Some t, owner T) ∈ runq b ∨ ∃ t' T' hd l, tasks b !! t' = Some T' ∧ at_ T' = Releasing hd ∧ chain (nodes b) hd l ∧ t ∈ l) ∧
  NoDup (runq b).*1 ∧
  (∀ t T hd, tasks b !! t = Some T → at_ T = Releasing hd →
     ∃ l b', chain (nodes b) hd l ∧ run (replicate (length l) (ETask t)) b = Done (Some b') ∧
       tasks b' !! t = Some {| T with at_ := Releasing None |} ∧ ∀ x, x ∈ l → Some x ∈ (runq b').*1).
Proof.
  intros Hn Hr. destruct (barrier_reachable_inv n b Hn Hr) as [Hi En]. pose proof Hi as (loc & Hl). pose proof (i_parties loc b Hl) as (Ha & _ & Harr). rewrite En in Ha, Harr.
  split; [intros e; destruct (step_defined b e Hi) as (o & Ho & _); by exists o|]. split; [done|]. split; [|split; [|split; [apply (i_Q loc b Hl)|]]].
  - intros e b' t T r Hs HT Hw Hch. assert (Hlt : (r < trips b)%nat); [|nia].
    destruct (i_round loc b Hl t T r HT Hw) as [Hle Hiff]. destruct (decide (r = trips b)) as [E|]; [|lia]. exfalso. apply Hiff in E. apply Hch. eapply stays_in_list; done.
  - destruct (i_W loc b Hl) as (W & (Hc & Hnd & HW) & Hlen). exists W. split; [done|]. split; [done|]. split; [done|]. intros t T r HT Hw.
    destruct (i_round loc b Hl t T r HT Hw) as [Hle Hiff]. case_decide as E; [by apply HW, Hiff|].
    destruct (proj2 (i_wait loc b Hl t)) as [pl Hpl]; [by exists T, r|]. destruct pl as [|t'|]; [by apply Hiff in Hpl| |].
    + right. destruct (i_walker loc b Hl t t' Hpl) as (T' & hd & HT' & Hr'). destruct (i_L loc b Hl t' T' hd HT' Hr') as (l & Hcl & _ & Hll).
      exists t', T', hd, l. repeat split; try done. by apply Hll.
    + left. apply (proj2 (i_Q loc b Hl)), list_elem_of_fmap in Hpl as ([o tid] & Eo & Hin). cbn in Eo. subst o.
      destruct (i_queue loc b Hl _ _ Hin) as (t0 & T0 & [= <-] & HT0 & ->). by assert (T0 = T) as -> by congruence.
  - intros t T hd HT Hrel. destruct (i_L loc b Hl t T hd HT Hrel) as (l & Hc & _ & Hll). exists l. eexists. split; [done|].
    pose proof (walk_ends b t T l hd (runq b) Hc) as Hrun. rewrite (same_state b t T hd HT Hrel) in Hrun. split; [exact Hrun|]. cbn. rewrite lookup_insert_eq. split; [done|].
    intros x Hx. rewrite fmap_app, elem_of_app. right. assert (is_Some (nodes b !! x)) as [nd Hnd].
    { apply Hll in Hx. destruct (proj1 (i_wait loc b Hl x)) as (Tx & r & HTx & Hrx); [by rewrite Hx|]. eapply (i_has loc b Hl x Tx HTx). by rewrite Hrx. }
    apply list_elem_of_fmap. exists (Some x, thread_id nd). split; [done|]. apply list_elem_of_omap. exists x. rewrite Hnd. split; [done|]. cbn. by rewrite (proj1 (i_node loc b Hl x nd Hnd)).
Qed.

Lemma barrier_run_reachable n es : ∀ b b', reachable n b → run es b = Done (Some b') → reachable n b'.
Proof.
  induction es as [|e es IH]; intros b b' Hb Hr; cbn in Hr; [by injection Hr as <-|]. destruct (step e b) as [[b1|]| |] eqn:E; try done.
  apply (IH b1); [|done]. eapply rtc_r; [exact Hb|]. by exists e.
Qed.

(** Three coroutines at a barrier for two. *)
Definition three_at_two : list event := [EArrive 1 0; ETask 1; EArrive 2 1; EArrive 3 0; ETask 2; ETask 3]%positive.
Definition barrier_after (es : list event) : barrier := match run es (AsyncBarrier_new 2) with Done (Some b) => b | _ => AsyncBarrier_new 2 end.

Lemma barrier_correct_witness :
  let b := barrier_after three_at_two in
  (at_ <$> tasks b !! 1%positive) = Some (Waiting 0) ∧ (at_ <$> tasks b !! 2%positive) = Some (Releasing (Some 1%positive)) ∧ (at_ <$> tasks b !! 3%positive) = Some (Waiting 1) ∧
  (0 <= arrived_ b < 2 ∧ Z.of_nat (arrivals b) = Z.of_nat (trips b) * 2 + arrived_ b) ∧ NoDup (runq b).*1.
Proof.
  intros b. split; [vm_compute; reflexivity|]. split; [vm_compute; reflexivity|]. split; [vm_compute; reflexivity|].
  destruct (barrier_correct 2 b) as (_ & H1 & _ & _ & H2 & _); [lia|apply (barrier_run_reachable 2 three_at_two (AsyncBarrier_new 2)); [apply rtc_refl|vm_compute; reflexivity]|].
  split; [exact H1|exact H2].
Defined.
End AsyncBarrierCorrect.
