(* ===== verification/AsyncMutex.v ===== *)
(** The asynchronous mutex ([AsyncMutex.h], [AsyncMutex.cpp]): a lock word, a list of
    suspended coroutines, and hand-off of the lock to the oldest of them.

    A machine of any number of coroutines; one step per access to shared state.  The
    sections under the list's spin lock are single steps: nothing else touches the
    list meanwhile, and the one access to the lock word inside them is atomic. *)

From S2P Require Import Prelude WaitList.

Module AsyncMutex.
Import WaitList.

Record AsyncMutex := mkMutex {
  state_ : Z;
  waiters_ : WaitList
}.

Definition AsyncMutex_new : AsyncMutex := mkMutex 0 WaitList_new.

(** [state_.compare_exchange_strong(0, 1)] *)
Definition try_lock_raw (m : AsyncMutex) : bool * AsyncMutex :=
  if state_ m =? 0 then (true, {| m with state_ := 1 |}) else (false, m).

(** Where a coroutine stands. *)
Inductive mpc :=
| MOut (refused : bool)             (** in no operation; [refused]: the last [lock()] gave an empty guard *)
| MReady                            (** [LockAwaiter::await_ready] *)
| MEnter                            (** [await_suspend]: [cancel_requested()] *)
| MPush                             (** [node.reset], the section that takes the lock or queues *)
| MArm                              (** [arm_cancel] *)
| MUnarm                            (** [waiters_.remove(&node)] *)
| MSusp
| MResume (acquired cancelled : bool) (** [await_resume] *)
| MHold                             (** owns a guard *)
| MHandOff (w : ptr).               (** [unlock]: [resume_on(w->h, w->tid)] *)

Record MTask := mkMTask {
  pc : mpc;
  owner : Z;                (** the worker the coroutine is pinned to *)
  cancel_requested : bool;
  kick : bool;              (** a cancel kick waits in the owner's inbox *)
  hook : bool               (** [cancel_fn_] is [LockAwaiter::on_cancel] *)
}.

Record MSt := mkMSt {
  mutex : AsyncMutex;
  memory : mem;
  tasks : gmap ptr MTask;
  runq : list (option handle * Z)
}.

Definition set_task (t : ptr) (T : MTask) (σ : MSt) : MSt := {| σ with tasks := <[t := T]> (tasks σ) |}.
Definition goto (t : ptr) (T : MTask) (p : mpc) (σ : MSt) : MSt := set_task t {| T with pc := p |} σ.
Definition set_waiters (l : WaitList) (m : mem) (σ : MSt) : MSt :=
  {| σ with mutex := {| (mutex σ) with waiters_ := l |}; memory := m |}.

(** [lock()]: the awaiter, with its node, comes to life. *)
Definition lock (t : ptr) (T : MTask) (σ : MSt) : MSt :=
  goto t T MReady {| σ with memory := set_node t Waiter_new (memory σ) |}.

Definition try_lock (t : ptr) (T : MTask) (σ : MSt) : MSt :=
  let '(b, m) := try_lock_raw (mutex σ) in
  goto t T (if b then MHold else MOut false) {| σ with mutex := m |}.

Definition await_ready (t : ptr) (T : MTask) (σ : MSt) : MSt :=
  let '(b, m) := try_lock_raw (mutex σ) in
  goto t T (if b then MResume true false else MEnter) {| σ with mutex := m |}.

(** [await_suspend] *)
Definition await_suspend (t : ptr) (T : MTask) (σ : MSt) : outcome (option MSt) :=
  match pc T with
  | MEnter => Done (Some (goto t T (if cancel_requested T then MResume false true else MPush) σ))
  | MPush =>
      m ← reset t t (owner T) (memory σ);
      let '(b, mx) := try_lock_raw (mutex σ) in
      if b then Done (Some (goto t T (MResume true false) {| σ with mutex := mx; memory := m |}))
      else
        '(l, m) ← push_locked t (waiters_ (mutex σ)) m;
        Done (Some (goto t T MArm (set_waiters l m σ)))
  | MArm =>
      Done (Some (goto t {| T with hook := true |} (if cancel_requested T then MUnarm else MSusp) σ))
  | MUnarm =>
      '(b, l, m) ← remove t (waiters_ (mutex σ)) (memory σ);
      let σ := set_waiters l m σ in
      Done (Some (if (b : bool) then goto t {| T with hook := false |} (MResume false true) σ else goto t T MSusp σ))
  | _ => Done None
  end.

(** [await_resume], and the end of the awaiter's life *)
Definition await_resume (t : ptr) (T : MTask) (acquired cancelled : bool) (σ : MSt) : outcome MSt :=
  c ← cancel_claimed t (memory σ);
  let σ := {| σ with memory := {| (memory σ) with nodes := delete t (nodes (memory σ)) |} |} in
  Done (if acquired then goto t T MHold σ
        else if cancelled || c then goto t T (MOut true) σ
        else goto t T MHold σ).

(** [LockAwaiter::on_cancel] *)
Definition on_cancel (t : ptr) (T : MTask) (σ : MSt) : outcome MSt :=
  '(b, l, m) ← remove t (waiters_ (mutex σ)) (memory σ);
  let σ := set_waiters l m σ in
  if (b : bool) then
    m ← store_word (OwnOf t) kCancelledIndex m;
    Done {| σ with memory := m; runq := resume_on (Some t) (owner T) (runq σ) |}
  else Done σ.

(** The owner processes a cancel kick while the coroutine is suspended. *)
Definition run_cancel_hook (t : ptr) (T : MTask) (σ : MSt) : outcome MSt :=
  let armed := hook T in
  let T := {| T with hook := false; kick := false |} in
  let σ := set_task t T σ in
  if armed then on_cancel t T σ else Done σ.

(** [unlock()]: pop under the lock, release the word if nobody waits ... *)
Definition unlock (t : ptr) (T : MTask) (σ : MSt) : outcome MSt :=
  '(w, l, m) ← pop_front_locked (waiters_ (mutex σ)) (memory σ);
  let σ := set_waiters l m σ in
  Done (match w with
        | None => goto t T (MOut false) {| σ with mutex := {| (mutex σ) with state_ := 0 |} |}
        | Some w => goto t T (MHandOff w) σ
        end).

(** ... else resume the waiter that now has it. *)
Definition hand_off (t : ptr) (T : MTask) (w : ptr) (σ : MSt) : outcome MSt :=
  n ← deref (nodes (memory σ) !! w);
  Done (goto t T (MOut false) {| σ with runq := resume_on (h n) (tid n) (runq σ) |}).

(** ** Steps *)

Inductive mevent :=
| LSpawn (t : ptr) (own_ : Z)  (** a coroutine appears on a worker *)
| LLock (t : ptr)
| LTryLock (t : ptr)
| LStep (t : ptr)              (** one step of [lock] or [unlock] *)
| LUnlock (t : ptr)            (** its guard is released *)
| LResume (i : nat)            (** a worker resumes a coroutine of its queue *)
| LCancel (t : ptr)            (** [request_cancel] *)
| LKick (t : ptr).             (** the owner processes a cancel kick *)

Definition task_step (t : ptr) (T : MTask) (σ : MSt) : outcome (option MSt) :=
  match pc T with
  | MReady => Done (Some (await_ready t T σ))
  | MEnter | MPush | MArm | MUnarm => await_suspend t T σ
  | MResume a c => σ ← await_resume t T a c σ; Done (Some σ)
  | MHandOff w => σ ← hand_off t T w σ; Done (Some σ)
  | MOut _ | MSusp | MHold => Done None
  end.

Definition mstep (e : mevent) (σ : MSt) : outcome (option MSt) :=
  match e with
  | LSpawn t own_ =>
      (* a wait list counts its nodes in 32 bits *)
      if 2 ^ 32 - 3 <? Z.of_nat (size (tasks σ)) then Done None
      else match tasks σ !! t with
           | None => Done (Some (set_task t (mkMTask (MOut false) own_ false false false) σ))
           | Some _ => Done None
           end
  | LLock t =>
      match tasks σ !! t with
      | Some T => match pc T with MOut _ => Done (Some (lock t T σ)) | _ => Done None end
      | None => Done None
      end
  | LTryLock t =>
      match tasks σ !! t with
      | Some T => match pc T with MOut _ => Done (Some (try_lock t T σ)) | _ => Done None end
      | None => Done None
      end
  | LStep t => match tasks σ !! t with Some T => task_step t T σ | None => Done None end
  | LUnlock t =>
      match tasks σ !! t with
      | Some T => match pc T with MHold => σ ← unlock t T σ; Done (Some σ) | _ => Done None end
      | None => Done None
      end
  | LResume i =>
      match runq σ !! i with
      | Some (Some t, _) =>
          match tasks σ !! t with
          | Some T =>
              match pc T with
              | MSusp => Done (Some {| (goto t {| T with hook := false |} (MResume false false) σ)
                                       with runq := delete i (runq σ) |})
              | _ => Done None
              end
          | None => Done None
          end
      | _ => Done None
      end
  | LCancel t =>
      match tasks σ !! t with
      | Some T => Done (Some (if cancel_requested T then σ
                              else set_task t {| T with cancel_requested := true; kick := true |} σ))
      | None => Done None
      end
  | LKick t =>
      match tasks σ !! t with
      | Some T =>
          match kick T, pc T with
          | true, MSusp => σ ← run_cancel_hook t T σ; Done (Some σ)
          | _, _ => Done None
          end
      | None => Done None
      end
  end.

Definition minit : MSt := mkMSt AsyncMutex_new (mkMem ∅ ∅) ∅ [].

Definition msteps : relation MSt := λ σ σ', ∃ e, mstep e σ = Done (Some σ').

Fixpoint mrun (es : list mevent) (σ : MSt) : outcome (option MSt) :=
  match es with
  | [] => Done (Some σ)
  | e :: es => o ← mstep e σ; match o with Some σ => mrun es σ | None => Done None end
  end.
End AsyncMutex.
