(* ===== verification/AsyncMutexCorrect.v ===== *)
(** The mutex excludes, loses no waiter and hands over in order: an invariant of its
    machine that names the one coroutine the lock belongs to, whether it runs, is on
    its way to be resumed or is just passing the lock on. *)

From S2P Require Import Prelude WaitList WaitListCorrect AsyncMutex.

Module AsyncMutexCorrect.
Import WaitList WaitListCorrect AsyncMutex.
Implicit Types (σ : MSt) (t u : ptr) (T U : MTask) (g : option ptr) (ps : list ptr).

(** * The invariant *)

Definition q σ : list (option handle) := (runq σ).*1.

(** The waiter the lock's owner [g] has popped and not yet resumed. *)
Definition handing σ g : option ptr :=
  u ← g; U ← tasks σ !! u; match pc U with MHandOff w => Some w | _ => None end.

(** How a coroutine stands: in the list, being handed the lock, resumed with it, or
    resumed because it was cancelled. *)
Definition phase (inps inq isg ish : Prop) (v : Z) (req : bool) : Prop :=
  (inps ∧ ¬ inq ∧ v = -1 ∧ ¬ isg ∧ ¬ ish)
  ∨ (¬ inps ∧ ¬ inq ∧ v = -1 ∧ ¬ isg ∧ ish)
  ∨ (¬ inps ∧ inq ∧ v = -1 ∧ isg ∧ ¬ ish)
  ∨ (¬ inps ∧ inq ∧ v = kCancelledIndex ∧ ¬ isg ∧ ¬ ish ∧ req = true).

Definition gives_up (acquired cancelled : bool) (v : Z) : bool :=
  negb acquired && (cancelled || (v =? kCancelledIndex)).

Definition task_ok (inps inq isg ish : Prop) (nd : option Waiter) t T : Prop :=
  (kick T = true → cancel_requested T = true) ∧
  match pc T with
  | MOut r => nd = None ∧ ¬ inps ∧ ¬ inq ∧ ¬ isg ∧ ¬ ish ∧ (r = true → cancel_requested T = true)
  | MHold | MHandOff _ => nd = None ∧ ¬ inps ∧ ¬ inq ∧ isg ∧ ¬ ish
  | MReady | MEnter | MPush => (∃ w, nd = Some w) ∧ ¬ inps ∧ ¬ inq ∧ ¬ isg ∧ ¬ ish
  | MArm | MUnarm | MSusp =>
      (pc T = MUnarm → cancel_requested T = true) ∧
      ∃ w, nd = Some w ∧ h w = Some t ∧ tid w = owner T ∧ phase inps inq isg ish (own w) (cancel_requested T)
  | MResume a c =>
      ¬ inps ∧ ¬ inq ∧ ¬ ish ∧
      ∃ w, nd = Some w ∧ (isg ↔ gives_up a c (own w) = false) ∧ (gives_up a c (own w) = true → cancel_requested T = true)
  end.

Definition task_at ps g σ t : Prop :=
  match tasks σ !! t with
  | Some T => task_ok (t ∈ ps) (Some t ∈ q σ) (g = Some t) (handing σ g = Some t) (nodes (memory σ) !! t) t T
  | None => nodes (memory σ) !! t = None ∧ t ∉ ps ∧ Some t ∉ q σ ∧ g ≠ Some t ∧ handing σ g ≠ Some t
  end.

Record inv ps g σ : Prop := {
  i_size : Z.of_nat (size (tasks σ)) <= 2 ^ 32 - 2;
  i_rep : wl_rep (waiters_ (mutex σ)) (memory σ) ps;
  i_state : state_ (mutex σ) = if g is Some _ then 1 else 0;
  i_wait : ps ≠ [] → g ≠ None;
  i_nodup : NoDup (q σ);
  i_runq x : x ∈ runq σ → ∃ u U, x = (Some u, owner U) ∧ tasks σ !! u = Some U;
  i_task t : task_at ps g σ t
}.

Lemma m_inv_init : inv [] None minit.
Proof.
  split; try done.
  - apply wl_rep_new.
  - constructor.
  - intros x Hx. by apply not_elem_of_nil in Hx.
  - intros t. unfold task_at. cbn. rewrite !lookup_empty. set_solver.
Qed.

(** * What a step of one coroutine leaves alone *)

Lemma task_ok_ext inps inps' inq inq' isg isg' ish ish' nd nd' t T :
  (inps' ↔ inps) → (inq' ↔ inq) → (isg' ↔ isg) → (ish' ↔ ish) → payload <$> nd' = payload <$> nd →
  task_ok inps inq isg ish nd t T → task_ok inps' inq' isg' ish' nd' t T.
Proof.
  intros H1 H2 H3 H4 Hp [Hk H]. split; [done|].
  assert (Hn : nd = None → nd' = None) by (intros ->; by destruct nd').
  assert (Hs : ∀ w, nd = Some w → ∃ w', nd' = Some w' ∧ h w' = h w ∧ tid w' = tid w ∧ own w' = own w).
  { intros w ->. destruct nd' as [w'|]; [|done]. exists w'. cbn in Hp. unfold payload in Hp. split; [done|].
    split_and!; congruence. }
  assert (He : (∃ w, nd = Some w) → ∃ w, nd' = Some w).
  { intros [w (w' & -> & _)%Hs]. by exists w'. }
  destruct (pc T); rewrite ?H1, ?H2, ?H3, ?H4;
    try (destruct H as [Hx H]; split; [by auto|exact H]).
  4: { destruct H as (? & ? & ? & w & (w' & -> & Eh & Et & Eo)%Hs & Hg & Hc). split_and!; [done..|].
    exists w'. by rewrite Eo, H3. }
  all: destruct H as [Hc (w & (w' & -> & Eh & Et & Eo)%Hs & Hh & Ht & Hph)]; split; [done|]; exists w';
    rewrite Eh, Et, Eo; unfold phase in *; rewrite H1, H2, H3, H4; done.
Qed.

Definition same_standing ps g σ ps' g' σ' u : Prop :=
  (u ∈ ps' ↔ u ∈ ps) ∧ (Some u ∈ q σ' ↔ Some u ∈ q σ) ∧ (g' = Some u ↔ g = Some u)
  ∧ (handing σ' g' = Some u ↔ handing σ g = Some u)
  ∧ payload <$> nodes (memory σ') !! u = payload <$> nodes (memory σ) !! u.

Lemma task_at_frame ps g σ ps' g' σ' u :
  tasks σ' !! u = tasks σ !! u → same_standing ps g σ ps' g' σ' u → task_at ps g σ u → task_at ps' g' σ' u.
Proof.
  intros Et (H1 & H2 & H3 & H4 & Hp). unfold task_at. rewrite Et. destruct (tasks σ !! u) as [U|].
  - by apply task_ok_ext.
  - rewrite H1, H2, H3, H4. intros (Hn & ?). split; [|done]. rewrite Hn in Hp. by destruct (nodes (memory σ') !! u).
Qed.

(** A step of [t], which becomes [T']. *)
Lemma m_inv_step ps g σ ps' g' σ' t T T' :
  inv ps g σ → tasks σ !! t = Some T → tasks σ' = <[t := T']> (tasks σ) → owner T' = owner T →
  wl_rep (waiters_ (mutex σ')) (memory σ') ps' →
  state_ (mutex σ') = (if g' is Some _ then 1 else 0) → (ps' ≠ [] → g' ≠ None) →
  NoDup (q σ') →
  (∀ x, x ∈ runq σ' → x ∈ runq σ ∨ ∃ u U, x = (Some u, owner U) ∧ tasks σ !! u = Some U) →
  (∀ u, u ≠ t → task_at ps g σ u → task_at ps' g' σ' u) →
  task_ok (t ∈ ps') (Some t ∈ q σ') (g' = Some t) (handing σ' g' = Some t) (nodes (memory σ') !! t) t T' →
  inv ps' g' σ'.
Proof.
  intros I HT Et Eo Hrep Hst Hw Hnd Hq Hoth Ht. split; try done.
  - rewrite Et, map_size_insert_Some by done. apply (i_size _ _ _ I).
  - intros x Hx. assert (∃ u U, x = (Some u, owner U) ∧ tasks σ !! u = Some U) as (u & U & -> & HU).
    { destruct (Hq x Hx) as [Hx'|?]; [by apply (i_runq _ _ _ I)|done]. }
    rewrite Et. destruct (decide (u = t)) as [->|Hne].
    + exists t, T'. rewrite lookup_insert_eq. split; [|done]. rewrite HT in HU. injection HU as <-. by rewrite Eo.
    + exists u, U. by rewrite lookup_insert_ne.
  - intros u. destruct (decide (u = t)) as [->|Hne]; [|apply Hoth; [done|apply (i_task _ _ _ I)]].
    unfold task_at. by rewrite Et, lookup_insert_eq.
Qed.

(** ** Who is being handed the lock *)

Definition hp U : option ptr := match pc U with MHandOff w => Some w | _ => None end.

Lemma handing_self σ t T : tasks σ !! t = Some T → handing σ (Some t) = hp T.
Proof. intros E. unfold handing. cbn. by rewrite E. Qed.

Lemma handing_set σ σ' g t T T' :
  tasks σ !! t = Some T → tasks σ' = <[t := T']> (tasks σ) → g ≠ Some t ∨ hp T' = hp T →
  handing σ' g = handing σ g.
Proof.
  intros HT Et H. unfold handing. destruct g as [u|]; [|done]. cbn. rewrite Et.
  destruct (decide (u = t)) as [->|Hne]; [|by rewrite lookup_insert_ne].
  rewrite lookup_insert_eq, HT. cbn. by destruct H.
Qed.

(** ** Kinds of steps *)

(** Only where [t] stands changes. *)
Lemma inv_goto ps g σ t T T' :
  inv ps g σ → tasks σ !! t = Some T → owner T' = owner T → hp T' = hp T →
  (∀ inps inq isg ish nd, task_ok inps inq isg ish nd t T → task_ok inps inq isg ish nd t T') →
  inv ps g (set_task t T' σ).
Proof.
  intros I HT Eo Ehp Hok.
  assert (Eh : handing (set_task t T' σ) g = handing σ g) by (eapply handing_set; [done..|by right]).
  eapply m_inv_step; [exact I|exact HT|done|done|apply (i_rep _ _ _ I)|apply (i_state _ _ _ I)|apply (i_wait _ _ _ I)
    |apply (i_nodup _ _ _ I)|by left| |].
  - intros u Hu. apply task_at_frame; [by cbn; rewrite lookup_insert_ne|]. unfold same_standing. by rewrite Eh.
  - rewrite Eh. apply Hok. pose proof (i_task _ _ _ I t) as H. unfold task_at in H. by rewrite HT in H.
Qed.

Lemma inv_task ps g σ t T : inv ps g σ → tasks σ !! t = Some T →
  task_ok (t ∈ ps) (Some t ∈ q σ) (g = Some t) (handing σ g = Some t) (nodes (memory σ) !! t) t T.
Proof. intros I HT. pose proof (i_task _ _ _ I t) as H. unfold task_at in H. by rewrite HT in H. Qed.

(** A step after which only [t] stands differently: its node, its place in the list
    and in the run queue, and it may take the free lock. *)
Lemma inv_self ps ps' g g' σ σ' t T T' :
  inv ps g σ → tasks σ !! t = Some T → owner T' = owner T → hp T = None → hp T' = None →
  tasks σ' = <[t := T']> (tasks σ) →
  wl_rep (waiters_ (mutex σ')) (memory σ') ps' → (∀ u, u ≠ t → u ∈ ps' ↔ u ∈ ps) →
  NoDup (q σ') → (∀ x, x ∈ runq σ' → x ∈ runq σ ∨ x = (Some t, owner T)) → (∀ u, u ≠ t → Some u ∈ q σ' ↔ Some u ∈ q σ) →
  (g' = g ∨ g = None ∧ g' = Some t) → (ps' ≠ [] → g' ≠ None) → state_ (mutex σ') = (if g' is Some _ then 1 else 0) →
  (∀ u, u ≠ t → payload <$> nodes (memory σ') !! u = payload <$> nodes (memory σ) !! u) →
  (task_ok (t ∈ ps) (Some t ∈ q σ) (g = Some t) (handing σ g = Some t) (nodes (memory σ) !! t) t T →
   task_ok (t ∈ ps') (Some t ∈ q σ') (g' = Some t) (handing σ g = Some t) (nodes (memory σ') !! t) t T') →
  inv ps' g' σ'.
Proof.
  intros I HT Eo Eh Eh' Et Hrep Hps Hnd Hrq Hq Hg Hw Hst Hpay Hok.
  assert (Hhd : handing σ' g' = handing σ g).
  { destruct Hg as [->|[-> ->]]; [by eapply handing_set; [done..|right; congruence]|].
    rewrite (handing_self _ t T'); [done|]. by rewrite Et, lookup_insert_eq. }
  eapply m_inv_step; [exact I|exact HT|done|done|done|done|done|done| | |].
  - intros x [?| ->]%Hrq; [by left|right]. eauto.
  - intros u Hu. apply task_at_frame; [by rewrite Et, lookup_insert_ne|]. unfold same_standing. rewrite Hhd.
    split_and!; [by apply Hps|by apply Hq| |done|by apply Hpay].
    destruct Hg as [->|[-> ->]]; [done|]. split; [intros [=]; by subst|done].
  - rewrite Hhd. apply Hok. by eapply inv_task.
Qed.

(** The same when the list and the run queue stay. *)
Lemma inv_local ps g g' σ σ' t T T' :
  inv ps g σ → tasks σ !! t = Some T → owner T' = owner T → hp T = None → hp T' = None →
  tasks σ' = <[t := T']> (tasks σ) → waiters_ (mutex σ') = waiters_ (mutex σ) → runq σ' = runq σ →
  (g' = g ∨ g = None ∧ g' = Some t) → state_ (mutex σ') = (if g' is Some _ then 1 else 0) →
  wl_rep (waiters_ (mutex σ)) (memory σ') ps →
  (∀ u, u ≠ t → payload <$> nodes (memory σ') !! u = payload <$> nodes (memory σ) !! u) →
  (task_ok (t ∈ ps) (Some t ∈ q σ) (g = Some t) (handing σ g = Some t) (nodes (memory σ) !! t) t T →
   task_ok (t ∈ ps) (Some t ∈ q σ) (g' = Some t) (handing σ g = Some t) (nodes (memory σ') !! t) t T') →
  inv ps g' σ'.
Proof.
  intros I HT Eo Eh Eh' Et Ew Er Hg Hst Hrep Hpay Hok.
  assert (Eq : q σ' = q σ) by (unfold q; by rewrite Er).
  eapply inv_self; try done; rewrite ?Ew, ?Eq, ?Er; try done; [apply (i_nodup _ _ _ I)|by left|].
  intros Hne. destruct Hg as [->|[_ ->]]; [by apply (i_wait _ _ _ I)|done].
Qed.

Ltac local_step I HT Epc :=
  eapply inv_local; [exact I|exact HT| | | |reflexivity|..];
  [done|unfold hp; by rewrite Epc|done|done|done|..].

(** * The steps *)

Lemma spawn_ok ps g σ t own_ : inv ps g σ → tasks σ !! t = None → Z.of_nat (size (tasks σ)) <= 2 ^ 32 - 3 →
  inv ps g (set_task t (mkMTask (MOut false) own_ false false false) σ).
Proof.
  intros I HN Hsz. set (T' := mkMTask _ _ _ _ _). pose proof (i_task _ _ _ I t) as Ht. unfold task_at in Ht.
  rewrite HN in Ht. destruct Ht as (Hn & Hp & Hq & Hg & Hh).
  assert (Eh : handing (set_task t T' σ) g = handing σ g).
  { unfold handing. destruct g as [u|]; [|done]. cbn. by rewrite lookup_insert_ne by congruence. }
  split; try apply I.
  - cbn. rewrite map_size_insert_None by done. lia.
  - intros x Hx. destruct (i_runq _ _ _ I x Hx) as (u & U & -> & HU). exists u, U. cbn.
    by rewrite lookup_insert_ne by congruence.
  - intros u. destruct (decide (u = t)) as [->|Hne].
    + unfold task_at. cbn. rewrite lookup_insert_eq, Eh. split; [done|]. cbn. done.
    + eapply (task_at_frame _ _ σ); [by cbn; rewrite lookup_insert_ne| |apply (i_task _ _ _ I)].
      unfold same_standing. by rewrite Eh.
Qed.

Lemma lock_ok ps g σ t T r : inv ps g σ → tasks σ !! t = Some T → pc T = MOut r → inv ps g (lock t T σ).
Proof.
  intros I HT Epc. pose proof (inv_task _ _ _ _ _ I HT) as [Hk H]. rewrite Epc in H.
  destruct H as (Hn & Hp & Hq & Hg & Hh & _).
  local_step I HT Epc; [by left|apply (i_state _ _ _ I)
    | | |].
  - by apply wl_rep_alloc; [|apply (i_rep _ _ _ I)].
  - intros u Hu. cbn. by rewrite lookup_insert_ne.
  - intros _. split; [done|]. cbn. rewrite lookup_insert_eq. split_and!; eauto.
Qed.

(** The lock word says whether somebody has the lock. *)
Lemma try_lock_raw_ok ps g σ : inv ps g σ →
  (g = None ∧ try_lock_raw (mutex σ) = (true, {| (mutex σ) with state_ := 1 |}))
  ∨ (g ≠ None ∧ try_lock_raw (mutex σ) = (false, mutex σ)).
Proof. intros I. unfold try_lock_raw. rewrite (i_state _ _ _ I). destruct g; [by right|by left]. Qed.

Lemma try_lock_ok ps g σ t T r : inv ps g σ → tasks σ !! t = Some T → pc T = MOut r →
  ∃ g', inv ps g' (try_lock t T σ).
Proof.
  intros I HT Epc. pose proof (inv_task _ _ _ _ _ I HT) as [Hk H]. rewrite Epc in H.
  destruct H as (Hn & Hp & Hq & Hg & Hh & _). unfold try_lock.
  destruct (try_lock_raw_ok _ _ _ I) as [[-> ->]|[Hg0 ->]].
  - exists (Some t). local_step I HT Epc; [by right|done|apply (i_rep _ _ _ I)|done|]. intros _. split; done.
  - exists g. local_step I HT Epc; [by left|apply (i_state _ _ _ I)|apply (i_rep _ _ _ I)|done|]. intros _. split; done.
Qed.

Lemma await_ready_ok ps g σ t T : inv ps g σ → tasks σ !! t = Some T → pc T = MReady →
  ∃ g', inv ps g' (await_ready t T σ).
Proof.
  intros I HT Epc. pose proof (inv_task _ _ _ _ _ I HT) as [Hk H]. rewrite Epc in H.
  destruct H as ([w Hn] & Hp & Hq & Hg & Hh). unfold await_ready.
  destruct (try_lock_raw_ok _ _ _ I) as [[-> ->]|[Hg0 ->]].
  - exists (Some t). local_step I HT Epc; [by right|done|apply (i_rep _ _ _ I)|done|]. intros _. split; [done|]. cbn. split_and!; [done..|]. by exists w.
  - exists g. local_step I HT Epc; [by left|apply (i_state _ _ _ I)|apply (i_rep _ _ _ I)|done|]. intros _. split; [done|]. cbn. split_and!; eauto.
Qed.

Lemma enter_ok ps g σ t T : inv ps g σ → tasks σ !! t = Some T → pc T = MEnter →
  inv ps g (goto t T (if cancel_requested T then MResume false true else MPush) σ).
Proof.
  intros I HT Epc. apply (inv_goto _ _ _ _ T); [done|done|done| |].
  - unfold hp. rewrite Epc. cbn. by destruct (cancel_requested T).
  - intros inps inq isg ish nd [Hk H]. split; [done|]. rewrite Epc in H. cbn.
    destruct H as ([w ->] & Hp & Hq & Hg & Hh), (cancel_requested T); split_and!; eauto.
    exists w. split_and!; [done|by split|done].
Qed.

(** There are no more waiters than coroutines. *)
Lemma waiters_bound ps g σ t T : inv ps g σ → tasks σ !! t = Some T → t ∉ ps → Z.of_nat (length ps) + 1 < 2 ^ 32.
Proof.
  intros I HT Ht. pose proof (i_size _ _ _ I). destruct (i_rep _ _ _ I) as [Hnd _].
  assert (length (t :: ps) <= size (tasks σ))%nat; [|cbn in *; lia].
  rewrite <- (size_list_to_set (C := gset ptr) (t :: ps)) by by constructor. rewrite <- size_dom.
  apply subseteq_size. intros u [->|Hu]%elem_of_list_to_set%elem_of_cons; [by eapply elem_of_dom_2|].
  pose proof (i_task _ _ _ I u) as H'. unfold task_at in H'. destruct (tasks σ !! u) eqn:E; [by eapply elem_of_dom_2|].
  naive_solver.
Qed.

Lemma push_ok ps g σ t T : inv ps g σ → tasks σ !! t = Some T → pc T = MPush →
  ∃ σ' ps' g', await_suspend t T σ = Done (Some σ') ∧ inv ps' g' σ'.
Proof.
  intros I HT Epc. pose proof (inv_task _ _ _ _ _ I HT) as [Hk H]. rewrite Epc in H.
  destruct H as ([w Hn] & Hp & Hq & Hg & Hh). unfold await_suspend, reset. rewrite Epc, Hn. orun.
  set (w' := {| w with h := Some t; tid := owner T; winner := Some (OwnOf t); own := -1; index := 0 |}).
  set (m := set_node t w' (memory σ)).
  assert (Hm : nodes m !! t = Some w') by (cbn; apply lookup_insert_eq).
  assert (R : wl_rep (waiters_ (mutex σ)) m ps).
  { eapply wl_rep_same_links; [by eapply same_links_set|apply (i_rep _ _ _ I)]. }
  assert (Hpay : ∀ u, u ≠ t → nodes m !! u = nodes (memory σ) !! u) by (intros u Hu; cbn; by rewrite lookup_insert_ne).
  destruct (try_lock_raw_ok _ _ _ I) as [[-> ->]|[Hg0 ->]].
  - eexists _, ps, (Some t). split; [done|]. local_step I HT Epc; [by right|done|done|intros u Hu; cbn; by rewrite Hpay|].
    intros _. split; [done|]. cbn [pc]. split_and!; [done..|]. exists w'. split; [done|]. by split.
  - destruct (push_rep _ _ _ t w' R Hm Hp) as (l' & m' & -> & R' & [_ P]); [by eapply waiters_bound|]. orun.
    assert (Hp' : ∀ u, payload <$> nodes m' !! u = payload <$> nodes m !! u).
    { intros u. apply (f_equal (.!! u)) in P. by rewrite !lookup_fmap in P. }
    eexists _, (ps ++ [t]), g. split; [done|].
    eapply inv_self; [exact I|exact HT| | | |reflexivity|..]; try done.
    + unfold hp. by rewrite Epc.
    + set_solver.
    + apply (i_nodup _ _ _ I).
    + by left.
    + by left.
    + apply (i_state _ _ _ I).
    + intros u Hu. cbn. by rewrite Hp', Hpay.
    + intros _. split; [done|]. cbn. split; [done|]. specialize (Hp' t). rewrite Hm in Hp'.
      destruct (nodes m' !! t) as [w2|]; [|done]. cbn in Hp'. unfold payload, w' in Hp'. cbn in Hp'. simplify_eq.
      exists w2. split_and!; try congruence. left. split_and!; [set_solver|done|congruence|done|done].
Qed.

Lemma arm_ok ps g σ t T : inv ps g σ → tasks σ !! t = Some T → pc T = MArm →
  inv ps g (goto t {| T with hook := true |} (if cancel_requested T then MUnarm else MSusp) σ).
Proof.
  intros I HT Epc. apply (inv_goto _ _ _ _ T); [done|done|done| |].
  - unfold hp. rewrite Epc. cbn. by destruct (cancel_requested T).
  - intros inps inq isg ish nd [Hk H]. split; [done|]. rewrite Epc in H. cbn.
    destruct H as (_ & w & H). destruct (cancel_requested T); (split; [done|by exists w]).
Qed.

(** [t] leaves the list, if it was in it. *)
Definition without ps t : list ptr := filter (λ u, u ≠ t) ps.

Lemma m_elem_without ps t u : u ∈ without ps t ↔ u ∈ ps ∧ u ≠ t.
Proof. unfold without. rewrite list_elem_of_filter. naive_solver. Qed.

Lemma without_nil ps t : without ps t ≠ [] → ps ≠ [].
Proof. intros H ->. by apply H. Qed.

Lemma remove_step ps g σ t w : inv ps g σ → nodes (memory σ) !! t = Some w →
  ∃ l m, remove t (waiters_ (mutex σ)) (memory σ) = Done (bool_decide (t ∈ ps), l, m)
    ∧ wl_rep l m (without ps t) ∧ (∀ u, payload <$> nodes m !! u = payload <$> nodes (memory σ) !! u).
Proof.
  intros I Hn. destruct (remove_ok _ _ _ t w (i_rep _ _ _ I) Hn) as (l & m & E & R & [_ P]).
  exists l, m. split_and!; [done..|]. intros u. apply (f_equal (.!! u)) in P. by rewrite !lookup_fmap in P.
Qed.

Lemma payload_node (o : option Waiter) w : payload <$> o = payload <$> Some w →
  ∃ w', o = Some w' ∧ h w' = h w ∧ tid w' = tid w ∧ own w' = own w.
Proof.
  destruct o as [w'|]; [|done]. cbn. unfold payload. intros E. exists w'. split; [done|]. split_and!; congruence.
Qed.

Lemma unarm_ok ps g σ t T : inv ps g σ → tasks σ !! t = Some T → pc T = MUnarm →
  ∃ σ' ps', await_suspend t T σ = Done (Some σ') ∧ inv ps' g σ'.
Proof.
  intros I HT Epc. pose proof (inv_task _ _ _ _ _ I HT) as [Hk H]. rewrite Epc in H.
  destruct H as (Hc & w & Hn & Hh & Ht & Hph). specialize (Hc eq_refl). unfold await_suspend. rewrite Epc.
  destruct (remove_step _ _ _ _ _ I Hn) as (l & m & -> & R & P). orun.
  destruct (payload_node (nodes m !! t) w) as (w' & Hw' & Eh' & Et' & Eo'); [by rewrite P, Hn|].
  assert (Hnot : t ∉ without ps t) by (rewrite m_elem_without; naive_solver).
  eexists _, (without ps t). split; [done|].
  case_bool_decide as Hin; (eapply inv_self; [exact I|exact HT| | | |reflexivity|..]); try done;
    try (unfold hp; by rewrite Epc); try (intros u Hu; rewrite m_elem_without; naive_solver);
    try (by left); try apply (i_nodup _ _ _ I); try apply (i_state _ _ _ I);
    try (intros Hne%without_nil; by apply (i_wait _ _ _ I)).
  - intros _. split; [done|]. cbn. unfold phase in Hph. rewrite Hw'. split_and!; [done|naive_solver..|].
    exists w'. split_and!; [done| |done]. cbn. naive_solver.
  - intros _. split; [done|]. cbn. split; [done|]. exists w'. rewrite Eh', Et', Eo'. split_and!; [done..|].
    unfold phase in *. tauto.
Qed.

Lemma m_await_resume_ok ps g σ t T a c : inv ps g σ → tasks σ !! t = Some T → pc T = MResume a c →
  ∃ σ', await_resume t T a c σ = Done σ' ∧ inv ps g σ'.
Proof.
  intros I HT Epc. pose proof (inv_task _ _ _ _ _ I HT) as [Hk H]. rewrite Epc in H.
  destruct H as (Hp & Hq & Hh & w & Hn & Hg & Hc). unfold await_resume, cancel_claimed. rewrite Hn. orun.
  eexists. split; [done|].
  assert (R : wl_rep (waiters_ (mutex σ)) {| (memory σ) with nodes := delete t (nodes (memory σ)) |} ps).
  { apply wl_rep_free; [done|apply (i_rep _ _ _ I)]. }
  assert (P : ∀ u, u ≠ t → delete t (nodes (memory σ)) !! u = nodes (memory σ) !! u).
  { intros u Hu. by rewrite lookup_delete_ne. }
  unfold gives_up in *. destruct a; cbn in *; [|destruct (c || (own w =? kCancelledIndex)); cbn in *];
    (local_step I HT Epc; [by left|apply (i_state _ _ _ I)|done|intros u Hu; cbn; by rewrite P|]);
    intros _; (split; [done|]); cbn; rewrite lookup_delete_eq; split_and!; naive_solver.
Qed.

Lemma m_resume_ok ps g σ i t z T : inv ps g σ → runq σ !! i = Some (Some t, z) → tasks σ !! t = Some T → pc T = MSusp →
  inv ps g {| (goto t {| T with hook := false |} (MResume false false) σ) with runq := delete i (runq σ) |}.
Proof.
  intros I Hi HT Epc. pose proof (inv_task _ _ _ _ _ I HT) as [Hk H]. rewrite Epc in H.
  destruct H as (_ & w & Hn & Hh & Ht & Hph). pose proof (i_nodup _ _ _ I) as Hnd.
  assert (Hqi : q σ !! i = Some (Some t)) by (unfold q; by rewrite list_lookup_fmap, Hi).
  assert (Eq : (delete i (runq σ)).*1 = delete i (q σ)).
  { unfold q. rewrite !delete_take_drop, fmap_app, fmap_take, fmap_drop. done. }
  pose proof (delete_Permutation _ _ _ Hqi) as Hperm.
  assert (Hnd' : NoDup (Some t :: delete i (q σ))) by (by rewrite <- Hperm).
  apply NoDup_cons in Hnd' as [Hout Hnd'].
  eapply inv_self; [exact I|exact HT| | | |reflexivity|..]; try done; try apply (i_rep _ _ _ I);
    try (unfold hp; by rewrite Epc); try apply (i_state _ _ _ I); try apply (i_wait _ _ _ I); try (by left).
  - unfold q. cbn. by rewrite Eq.
  - intros x Hx. left. cbn in Hx. rewrite delete_take_drop in Hx.
    rewrite <- (take_drop_middle _ _ _ Hi). set_solver.
  - intros u Hu. unfold q. cbn. rewrite Eq. fold (q σ). rewrite Hperm at 2. set_solver.
  - intros _. split; [done|]. unfold q. cbn. rewrite Eq. assert (Hin : Some t ∈ q σ) by (rewrite Hperm; set_solver).
    unfold phase in Hph. split_and!; [naive_solver|done|naive_solver|]. exists w. split; [done|].
    unfold gives_up. cbn. destruct (Z.eqb_spec (own w) kCancelledIndex) as [E|E];
      [rewrite E in Hph|]; split; naive_solver.
Qed.

Lemma m_cancel_ok ps g σ t T : inv ps g σ → tasks σ !! t = Some T →
  inv ps g (set_task t {| T with cancel_requested := true; kick := true |} σ).
Proof.
  intros I HT. apply (inv_goto _ _ _ _ T); [done..|].
  intros inps inq isg ish nd [Hk H]. split; [done|]. cbn. unfold phase in *.
  destruct (pc T); try tauto; [destruct H as (_ & w & H)..|destruct H as (? & ? & ? & w & H)];
    (split_and!; [done..|]); exists w; tauto.
Qed.

Lemma on_cancel_ok ps g σ t T :
  inv ps g σ → tasks σ !! t = Some T → pc T = MSusp → cancel_requested T = true →
  ∃ σ' ps', on_cancel t T σ = Done σ' ∧ inv ps' g σ'.
Proof.
  intros I HT Epc Hreq. pose proof (inv_task _ _ _ _ _ I HT) as [Hk H]. rewrite Epc in H.
  destruct H as (_ & w & Hn & Hh & Ht & Hph). unfold on_cancel.
  destruct (remove_step _ _ _ _ _ I Hn) as (l & m & -> & R & P). orun.
  destruct (payload_node (nodes m !! t) w) as (w' & Hw' & Eh' & Et' & Eo'); [by rewrite P, Hn|].
  assert (Hnot : t ∉ without ps t) by (rewrite m_elem_without; naive_solver).
  assert (Eins : tasks σ = <[t := T]> (tasks σ)) by (by rewrite insert_id).
  assert (Hps : ∀ u, u ≠ t → u ∈ without ps t ↔ u ∈ ps) by (intros u Hu; rewrite m_elem_without; naive_solver).
  assert (Hwait : without ps t ≠ [] → g ≠ None) by (intros Hne%without_nil; by apply (i_wait _ _ _ I)).
  assert (Hhp : hp T = None) by (unfold hp; by rewrite Epc).
  case_bool_decide as Hin.
  - cbn [store_word]. rewrite Hw'. orun. assert (Hq : Some t ∉ q σ) by (unfold phase in Hph; naive_solver).
    eexists _, (without ps t). split; [done|].
    assert (Eq : (runq σ ++ [(Some t, owner T)]).*1 = q σ ++ [Some t]) by (unfold q; by rewrite fmap_app).
    eapply inv_self; [exact I|exact HT|done|done|done|exact Eins| |done| | | |by left|done|apply (i_state _ _ _ I)| |].
    + eapply wl_rep_same_links; [by eapply same_links_set|exact R].
    + unfold q. cbn. unfold resume_on. rewrite Eq. apply NoDup_app. split; [apply (i_nodup _ _ _ I)|]. split; [set_solver|].
      apply NoDup_singleton.
    + intros x. cbn. unfold resume_on. set_solver.
    + intros u Hu. unfold q. cbn. unfold resume_on. rewrite Eq. fold (q σ). set_solver.
    + intros u Hu. cbn. rewrite lookup_insert_ne by done. apply P.
    + intros _. split; [done|]. rewrite Epc. split; [done|]. eexists. cbn. rewrite lookup_insert_eq. split; [done|].
      cbn. rewrite Eh', Et'. split_and!; [done..|]. right; right; right. unfold phase in Hph.
      split_and!; [done| |done|naive_solver..]. unfold q. cbn. unfold resume_on. rewrite Eq. set_solver.
  - eexists _, (without ps t). split; [done|].
    eapply inv_self; [exact I|exact HT|done|done|done|exact Eins|done|done|apply (i_nodup _ _ _ I)|by left|done|by left|done
      |apply (i_state _ _ _ I)|done|].
    intros _. split; [done|]. rewrite Epc. split; [done|]. exists w'. cbn. rewrite Eh', Et', Eo'. split_and!; [done..|].
    unfold phase in *. tauto.
Qed.

Lemma m_kick_ok ps g σ t T : inv ps g σ → tasks σ !! t = Some T → pc T = MSusp → kick T = true →
  ∃ σ' ps', run_cancel_hook t T σ = Done σ' ∧ inv ps' g σ'.
Proof.
  intros I HT Epc Hkick. unfold run_cancel_hook. set (T1 := {| T with kick := false; hook := false |}).
  pose proof (inv_task _ _ _ _ _ I HT) as [Hk _]. specialize (Hk Hkick).
  assert (I1 : inv ps g (set_task t T1 σ)).
  { apply (inv_goto _ _ _ _ T); [done..|]. intros inps inq isg ish nd [_ H]. split; done. }
  destruct (hook T); [|by eexists _, ps].
  apply (on_cancel_ok ps g _ t T1); [done|cbn; apply lookup_insert_eq|done|done].
Qed.

(** A coroutine in the list, or being handed the lock, is waiting, and stays so
    whatever becomes of it in the list and the queue. *)
Lemma waiting_view inps inq isg ish nd t T : task_ok inps inq isg ish nd t T → inps ∨ ish →
  hp T = None
  ∧ (∃ w, nd = Some w ∧ h w = Some t ∧ tid w = owner T ∧ own w = -1 ∧ ¬ inq ∧ ¬ isg ∧ (inps ↔ ¬ ish))
  ∧ (∀ inps' inq' isg' ish' w', h w' = Some t → tid w' = owner T →
       phase inps' inq' isg' ish' (own w') (cancel_requested T) → task_ok inps' inq' isg' ish' (Some w') t T).
Proof.
  intros [Hk H] Hor. unfold hp, task_ok.
  destruct (pc T); try (exfalso; tauto);
    destruct H as (Hc & w & -> & Hh & Ht & Hph); (split; [done|]); (split; [|by eauto 10]);
    exists w; unfold phase in Hph; split_and!; try done; tauto.
Qed.

(** The oldest waiter is popped for the lock, or the lock is released. *)
Lemma unlock_ok ps g σ t T : inv ps g σ → tasks σ !! t = Some T → pc T = MHold →
  ∃ σ' g', unlock t T σ = Done σ' ∧ inv (tail ps) g' σ'
    ∧ tasks σ' !! t = Some {| T with pc := match ps with [] => MOut false | w :: _ => MHandOff w end |}.
Proof.
  intros I HT Epc. pose proof (inv_task _ _ _ _ _ I HT) as [Hk H]. rewrite Epc in H.
  destruct H as (Hn & Hp & Hq & Hg & Hh). subst g. pose proof (i_rep _ _ _ I) as R. unfold unlock.
  assert (Hhd : handing σ (Some t) = None) by (rewrite (handing_self _ t T) by done; unfold hp; by rewrite Epc).
  destruct ps as [|w ps].
  - rewrite pop_rep_nil by done. orun. eexists _, None. split; [done|]. split; [|cbn; apply lookup_insert_eq].
    eapply m_inv_step; [exact I|exact HT|reflexivity|done|done|done|done|apply (i_nodup _ _ _ I)|by left| |].
    + intros u Hu. apply task_at_frame; [by cbn; rewrite lookup_insert_ne|]. unfold same_standing. rewrite Hhd.
      split_and!; try done. split; [done|intros [=]; by subst].
    + split; [done|]. cbn. split_and!; done.
  - destruct (pop_rep _ _ _ _ R) as (l & m & -> & R' & [_ P]). orun.
    assert (P' : ∀ u, payload <$> nodes m !! u = payload <$> nodes (memory σ) !! u).
    { intros u. apply (f_equal (.!! u)) in P. by rewrite !lookup_fmap in P. }
    eexists _, (Some t). split; [done|]. split; [|cbn; apply lookup_insert_eq]. set (σ' := goto _ _ _ _).
    assert (Hhd' : handing σ' (Some t) = Some w) by (rewrite (handing_self _ t {| T with pc := MHandOff w |});
      [done|cbn; apply lookup_insert_eq]).
    destruct R as [[Hw Hnd]%NoDup_cons _]. assert (w ≠ t) by set_solver.
    eapply m_inv_step; [exact I|exact HT|reflexivity|done|exact R'|apply (i_state _ _ _ I)|done|apply (i_nodup _ _ _ I)|by left| |].
    + intros u Hu. destruct (decide (u = w)) as [->|Hne].
      * unfold task_at. cbn [tasks σ' goto set_task set_waiters]. rewrite lookup_insert_ne by done. rewrite Hhd, Hhd'.
        destruct (tasks σ !! w) as [W|]; [|intros (_ & [] & _); set_solver].
        intros HW. destruct (waiting_view _ _ _ _ _ _ _ HW) as (_ & (n & En & Ehn & Etn & Eon & Hnq & _) & Hok);
          [left; set_solver|].
        destruct (payload_node (nodes m !! w) n) as (n' & En' & Eh' & Et' & Eo'); [by rewrite P', En|].
        unfold σ'. cbn [memory goto set_task set_waiters]. rewrite En'. apply Hok; [congruence..|].
        right; left. split_and!; [done|done|congruence|congruence|done].
      * apply task_at_frame; [by cbn; rewrite lookup_insert_ne|]. unfold same_standing. rewrite Hhd, Hhd'.
        split_and!; [set_solver|done|done|naive_solver|apply P'].
    + split; [done|]. rewrite Hhd'. unfold σ'. cbn. split_and!; [|set_solver|done|done|congruence].
      specialize (P' t). rewrite Hn in P'. by destruct (nodes m !! t).
Qed.

(** Passing the lock on. *)
Lemma hand_off_ok ps g σ t T w : inv ps g σ → tasks σ !! t = Some T → pc T = MHandOff w →
  ∃ σ', hand_off t T w σ = Done σ' ∧ inv ps (Some w) σ'.
Proof.
  intros I HT Epc. pose proof (inv_task _ _ _ _ _ I HT) as [Hk H]. rewrite Epc in H.
  destruct H as (Hn & Hp & Hq & -> & Hh).
  assert (Hhd : handing σ (Some t) = Some w) by (rewrite (handing_self _ t T) by done; unfold hp; by rewrite Epc).
  assert (Hwt : w ≠ t) by congruence. pose proof (i_task _ _ _ I w) as Hw. unfold task_at in Hw.
  destruct (tasks σ !! w) as [W|] eqn:HW; [|naive_solver].
  destruct (waiting_view _ _ _ _ _ _ _ Hw) as (Hhp & (n & En & Ehn & Etn & Eon & Hnq & _ & Hps) & Hok); [by right|].
  unfold hand_off. rewrite En. orun. rewrite Ehn, Etn. eexists. split; [done|]. set (σ' := goto _ _ _ _).
  assert (Hhd' : handing σ' (Some w) = None).
  { rewrite (handing_self _ w W); [done|]. cbn. by rewrite lookup_insert_ne. }
  assert (Eq : q σ' = q σ ++ [Some w]) by (unfold q; cbn; unfold resume_on; by rewrite fmap_app).
  eapply m_inv_step; [exact I|exact HT|reflexivity|done|apply (i_rep _ _ _ I)|apply (i_state _ _ _ I)|done| | | |].
  - rewrite Eq. apply NoDup_app. split; [apply (i_nodup _ _ _ I)|]. split; [set_solver|apply NoDup_singleton].
  - intros x. cbn. unfold resume_on. rewrite elem_of_app, list_elem_of_singleton. intros [?| ->]; [by left|right]. eauto.
  - intros u Hu. destruct (decide (u = w)) as [->|Hne].
    + intros _. unfold task_at. cbn [tasks σ' goto set_task]. rewrite lookup_insert_ne by done. rewrite HW, Hhd', Eq.
      unfold σ'. cbn [memory goto set_task]. rewrite En. apply Hok; [done..|]. right; right; left.
      split_and!; [naive_solver|set_solver|done|done|done].
    + apply task_at_frame; [by cbn; rewrite lookup_insert_ne|]. unfold same_standing. rewrite Hhd, Hhd', Eq.
      split_and!; [done|set_solver|naive_solver|naive_solver|done].
  - split; [done|]. rewrite Hhd', Eq. cbn. split_and!; [done|done|set_solver|naive_solver|done|done].
Qed.

(** Every step is defined and keeps the invariant. *)
Lemma mstep_inv ps g σ e : inv ps g σ →
  ∃ o, mstep e σ = Done o ∧ (∀ σ', o = Some σ' → ∃ ps' g', inv ps' g' σ').
Proof.
  intros I. destruct e as [t own_|t|t|t|t|i|t|t]; cbn.
  1: { destruct (Z.ltb_spec (2 ^ 32 - 3) (Z.of_nat (size (tasks σ)))); [by eexists|].
       destruct (tasks σ !! t) eqn:E; eexists; (split; [done|]); [done|]. intros ? [= <-].
       eexists _, _. by apply spawn_ok. }
  4: { destruct (tasks σ !! t) as [T|] eqn:HT; [|by eexists]. destruct (pc T) eqn:Epc; try by eexists.
       destruct (unlock_ok _ _ _ _ _ I HT Epc) as (σ' & g' & -> & I' & _). orun. eexists. split; [done|]. intros ? [= <-]. eauto. }
  4: { destruct (runq σ !! i) as [[[t|] z]|] eqn:Hi; [|by eexists|by eexists].
       destruct (tasks σ !! t) as [T|] eqn:HT; [|by eexists]. destruct (pc T) eqn:Epc; try by eexists.
       eexists. split; [done|]. intros ? [= <-]. eexists _, _. by eapply m_resume_ok. }
  all: destruct (tasks σ !! t) as [T|] eqn:HT; [|by eexists].
  - destruct (pc T) eqn:Epc; eexists; (split; [done|]); try done. intros ? [= <-]. eexists _, _. by eapply lock_ok.
  - destruct (pc T) eqn:Epc; eexists; (split; [done|]); try done. intros ? [= <-].
    destruct (try_lock_ok _ _ _ _ _ _ I HT Epc) as [g' ?]. eauto.
  - unfold task_step. destruct (pc T) eqn:Epc; try by eexists.
    + eexists. split; [done|]. intros ? [= <-]. destruct (await_ready_ok _ _ _ _ _ I HT Epc). eauto.
    + unfold await_suspend. rewrite Epc. eexists. split; [done|]. intros ? [= <-]. eexists _, _. by apply enter_ok.
    + destruct (push_ok _ _ _ _ _ I HT Epc) as (σ' & ps' & g' & -> & I'). eexists. split; [done|]. intros ? [= <-]. eauto.
    + unfold await_suspend. rewrite Epc. eexists. split; [done|]. intros ? [= <-]. eexists _, _. by apply arm_ok.
    + destruct (unarm_ok _ _ _ _ _ I HT Epc) as (σ' & ps' & -> & I'). eexists. split; [done|]. intros ? [= <-]. eauto.
    + destruct (m_await_resume_ok _ _ _ _ _ _ _ I HT Epc) as (σ' & -> & I'). orun. eexists. split; [done|]. intros ? [= <-]. eauto.
    + destruct (hand_off_ok _ _ _ _ _ _ I HT Epc) as (σ' & -> & I'). orun. eexists. split; [done|]. intros ? [= <-]. eauto.
  - eexists. split; [done|]. intros ? [= <-]. destruct (cancel_requested T); [by eauto|]. eexists _, _. by apply m_cancel_ok.
  - destruct (kick T) eqn:Ek; [|by eexists]. destruct (pc T) eqn:Epc; try by eexists.
    destruct (m_kick_ok _ _ _ _ _ I HT Epc Ek) as (σ' & ps' & -> & I'). orun. eexists. split; [done|]. intros ? [= <-]. eauto.
Qed.

Lemma mreachable_inv σ : rtc msteps minit σ → ∃ ps g, inv ps g σ.
Proof.
  intros H. apply (rtc_invariant msteps (λ σ, ∃ ps g, inv ps g σ) minit σ); [|done|eexists _, _; apply m_inv_init].
  intros a b (ps & g & I) [e E]. destruct (mstep_inv _ _ _ e I) as (o & Eo & Hn). rewrite E in Eo. injection Eo as <-.
  by apply Hn.
Qed.

(** * What the invariant says *)

(** The coroutine holds the lock: it owns a guard, or is passing it on. *)
Definition holds T : Prop := pc T = MHold ∨ ∃ w, pc T = MHandOff w.

(** Nobody has the lock and nothing is on its way. *)
Definition quiet σ : Prop :=
  runq σ = [] ∧ ∀ t T, tasks σ !! t = Some T → ¬ holds T ∧ ∀ a c, pc T ≠ MResume a c.

Lemma m_holds_owner ps g σ t T : inv ps g σ → tasks σ !! t = Some T → holds T → g = Some t.
Proof.
  intros I HT Hh. pose proof (inv_task _ _ _ _ _ I HT) as [_ H].
  destruct Hh as [E|[w E]]; rewrite E in H; naive_solver.
Qed.

Lemma quiet_free ps g σ t T : inv ps g σ → quiet σ → tasks σ !! t = Some T → g ≠ Some t.
Proof.
  intros I [Hr Hq] HT ->. destruct (Hq t T HT) as [Hh Hres]. pose proof (inv_task _ _ _ _ _ I HT) as [_ H].
  assert (Hnq : Some t ∉ q σ) by (unfold q; rewrite Hr; apply not_elem_of_nil).
  unfold holds, phase in *. destruct (pc T) eqn:Epc.
  1-4: by destruct H as (_ & _ & _ & [] & _).
  1-3: destruct H as (_ & w & _ & _ & _ & [H|[H|[H|H]]]); destruct H as (_ & H1 & _ & H2 & _); by (apply H2 || apply Hnq).
  - by apply (Hres acquired cancelled).
  - apply Hh. by left.
  - apply Hh. right. eauto.
Qed.

Lemma unlock_pops_head ps g σ w ps' t T :
  inv ps g σ → wl_rep (waiters_ (mutex σ)) (memory σ) (w :: ps') → tasks σ !! t = Some T → pc T = MHold →
  ∃ σ', mstep (LUnlock t) σ = Done (Some σ') ∧ tasks σ' !! t = Some {| T with pc := MHandOff w |}.
Proof.
  intros I R HT Epc. assert (ps = w :: ps') as -> by (by eapply wl_rep_unique; [apply (i_rep _ _ _ I)|]).
  destruct (unlock_ok _ _ _ _ _ I HT Epc) as (σ' & g' & E & _ & Et). exists σ'. cbn. rewrite HT, Epc, E. done.
Qed.

(** The hand-over is first in, first out: [unlock] pops the oldest waiter of the
    list.  (docs/synchronization.md calls it LIFO.) *)
Theorem unlock_hands_to_oldest σ w ps t T :
  rtc msteps minit σ → wl_rep (waiters_ (mutex σ)) (memory σ) (w :: ps) → tasks σ !! t = Some T → pc T = MHold →
  ∃ σ', mstep (LUnlock t) σ = Done (Some σ') ∧ tasks σ' !! t = Some {| T with pc := MHandOff w |}.
Proof. intros (qs & g & I)%mreachable_inv R HT Epc. by eapply unlock_pops_head. Qed.

(** C6: the mutex is correct.  In every reachable state of any number of coroutines
    that lock, try to lock, unlock and are cancelled, on any workers: no step is
    undefined behaviour; at most one coroutine holds the lock, and the lock word is
    then 1; when the lock word is 0 nobody waits in the list, and when nobody holds
    the lock and nothing is on its way nobody is suspended: no waiter is forgotten;
    an [unlock] with waiters in the list pops one of them to hand the lock to; a
    [lock()] that gave up had been cancelled. *)
Theorem mutex_correct σ : rtc msteps minit σ →
  (∀ e, ∃ o, mstep e σ = Done o)
  ∧ (∀ t T u U, tasks σ !! t = Some T → tasks σ !! u = Some U → holds T → holds U → t = u ∧ state_ (mutex σ) = 1)
  ∧ (state_ (mutex σ) = 0 → empty_relaxed (waiters_ (mutex σ)) = true)
  ∧ (quiet σ → ∀ t T, tasks σ !! t = Some T → pc T ≠ MSusp)
  ∧ (∀ ps t T, wl_rep (waiters_ (mutex σ)) (memory σ) ps → ps ≠ [] → tasks σ !! t = Some T → pc T = MHold →
       ∃ w σ', w ∈ ps ∧ mstep (LUnlock t) σ = Done (Some σ') ∧ tasks σ' !! t = Some {| T with pc := MHandOff w |})
  ∧ (∀ t T, tasks σ !! t = Some T → pc T = MOut true → cancel_requested T = true).
Proof.
  intros (ps & g & I)%mreachable_inv. split_and!.
  - intros e. destruct (mstep_inv _ _ _ e I) as (o & E & _). eauto.
  - intros t T u U HT HU Ht Hu. pose proof (m_holds_owner _ _ _ _ _ I HT Ht). pose proof (m_holds_owner _ _ _ _ _ I HU Hu).
    rewrite (i_state _ _ _ I). by simplify_eq.
  - intros H0. apply (wl_rep_empty _ _ _ (i_rep _ _ _ I)). destruct ps; [done|]. rewrite (i_state _ _ _ I) in H0.
    pose proof (i_wait _ _ _ I). by destruct g; [|naive_solver].
  - intros Hqt t T HT Epc. pose proof Hqt as [Hr Hq]. pose proof (inv_task _ _ _ _ _ I HT) as [_ H]. rewrite Epc in H.
    destruct H as (_ & w & _ & _ & _ & Hph). unfold q in Hph. rewrite Hr in Hph.
    assert (Hg : g = None).
    { destruct g as [u|]; [|done]. pose proof (i_task _ _ _ I u) as Hu. unfold task_at in Hu.
      destruct (tasks σ !! u) eqn:HU; [by destruct (quiet_free _ _ _ _ _ I Hqt HU)|naive_solver]. }
    subst g. pose proof (i_wait _ _ _ I) as Hw. cbn in Hph.
    destruct Hph as [(Hin & _)|[(_ & _ & _ & _ & [=])|[(_ & Hin%not_elem_of_nil & _)|(_ & Hin%not_elem_of_nil & _)]]]; try done.
    destruct ps; [by apply not_elem_of_nil in Hin|]. by apply Hw.
  - intros [|w ps'] t T R Hps HT Epc; [done|].
    destruct (unlock_pops_head _ _ _ _ _ _ _ I R HT Epc) as (σ' & E & Et). exists w, σ'. by split; [left|].
  - intros t T HT Epc. pose proof (inv_task _ _ _ _ _ I HT) as [_ H]. rewrite Epc in H. naive_solver.
Qed.

Lemma mrun_steps es σ σ' : mrun es σ = Done (Some σ') → rtc msteps σ σ'.
Proof.
  revert σ. induction es as [|e es IH]; intros σ; cbn; [intros [= ->]; apply rtc_refl|].
  destruct (mstep e σ) as [[σ1|]| |] eqn:E; cbn; try done. intros H. eapply rtc_l; [by exists e|]. by apply IH.
Qed.

(** Coroutine 1 locks, 2 and 3 wait, 3 is cancelled. *)
Definition mutex_demo : list mevent :=
  [LSpawn 1 0; LSpawn 2 1; LSpawn 3 1; LLock 1; LStep 1; LStep 1;
   LLock 2; LStep 2; LStep 2; LStep 2; LStep 2; LLock 3; LStep 3; LStep 3; LStep 3; LStep 3; LCancel 3; LKick 3].

Definition mutex_demo_state : MSt := if mrun mutex_demo minit is Done (Some σ) then σ else minit.

Lemma mutex_correct_witness :
  pc <$> tasks mutex_demo_state !! 1%positive = Some MHold
  ∧ (∀ t T u U, tasks mutex_demo_state !! t = Some T → tasks mutex_demo_state !! u = Some U → holds T → holds U →
       t = u ∧ state_ (mutex mutex_demo_state) = 1)
  ∧ (state_ (mutex mutex_demo_state) = 0 → empty_relaxed (waiters_ (mutex mutex_demo_state)) = true).
Proof.
  split; [vm_compute; reflexivity|].
  pose proof (mutex_correct mutex_demo_state) as H. destruct H as (_ & Hex & H0 & _); [|by split].
  apply (mrun_steps mutex_demo). vm_compute. reflexivity.
Defined.
End AsyncMutexCorrect.
