(* ===== verification/ConcurrentVector.v ===== *)
(** The lock-free vector ([ConcurrentVector.h]) and its client [TLSRegistry].

    Cell [i] of the vector lives in one of 64 buckets, which are allocated on demand and
    never move; [locate] computes its place.  A cell is claimed, constructed and released
    through its state byte.  Any number of threads interleave, one step per access to
    memory other threads see; the load of a bucket pointer and the access to one of its
    cells that follows are one step, because a bucket pointer changes only once.

    The atomic operations are acquire and release.  An action [Step _ Late] keeps the store
    of [READY] in the store buffer of its thread until [Drain]; the other actions alone
    are the sequentially consistent executions. *)

From S2P Require Import Prelude.

Module ConcurrentVector.

(** ** Where an index lives *)

(** The loop of [clz64]: the bits below [2^n]. *)
Fixpoint clz_from (x : Z) (n : nat) : Z :=
  match n with
  | O => 0
  | S n => if Z.land x (Z.shiftl 1 (Z.of_nat n)) =? 0 then 1 + clz_from x n else 0
  end.

Definition clz64 (x : Z) : Z := if x =? 0 then 64 else clz_from x 64.

Definition pow2 (e : Z) : Z := if 64 <=? e then Z.shiftl 1 63 else Z.shiftl 1 e.

Definition locate (index : Z) : Z * Z :=
  let L := if index =? 0 then 0 else wrap 64 (63 - clz64 (wrap 64 (index + 1))) in
  let base := wrap 64 (pow2 L - 1) in
  (L, wrap 64 (index - base)).

#[global] Arguments locate : simpl never.

Definition MAX_LEVELS : nat := 64.
Definition MAX_BUCKET : Z := Z.shiftl 1 24.
Definition SOFT_MAX : Z := Z.shiftl 1 27.

Inductive cstate := EMPTY | WRITING | READY | DELETING.
#[global] Instance cstate_eq_dec : EqDecision cstate.
Proof. solve_decision. Defined.

Section vector.
Context {T : Type}.

(** [storage] holds an object between [construct_at] and [destroy_at]. *)
Record Cell := mkCell { state : cstate; storage : option T }.
Definition Cell_new : Cell := mkCell EMPTY None.

(** A bucket is the array of its cells. *)
Definition Bucket_allocate (cap : Z) : list Cell := replicate (Z.to_nat (if cap =? 0 then 1 else cap)) Cell_new.

Record LockFreeVector := mkVector {
  alloc_idx_ : Z;
  published_ : Z;
  buckets_ : list (option (list Cell))
}.

Definition LockFreeVector_new : LockFreeVector := mkVector 0 0 (replicate MAX_LEVELS None).

(** ** Access to memory *)

Definition bucket_load (v : LockFreeVector) (L : Z) : outcome (option (list Cell)) := aread (buckets_ v) L.

(** [b->cells[off]] for a bucket that is not null. *)
Definition cell_load (v : LockFreeVector) (i : Z) : outcome Cell :=
  b ← sread (buckets_ v) (locate i).1; aread b (locate i).2.

Definition cell_store (v : LockFreeVector) (i : Z) (c : Cell) : outcome LockFreeVector :=
  b ← sread (buckets_ v) (locate i).1;
  b' ← awrite b (locate i).2 c;
  bs ← awrite (buckets_ v) (locate i).1 (Some b');
  Done {| v with buckets_ := bs |}.

(** [construct_at] needs raw storage, [destroy_at] and a reader an object. *)
Definition construct_at (v : LockFreeVector) (i : Z) (x : T) : outcome LockFreeVector :=
  c ← cell_load v i;
  match storage c with None => cell_store v i (mkCell (state c) (Some x)) | Some _ => UB end.

Definition destroy_at (v : LockFreeVector) (i : Z) : outcome LockFreeVector :=
  c ← cell_load v i;
  match storage c with Some _ => cell_store v i (mkCell (state c) None) | None => UB end.

Definition state_store (v : LockFreeVector) (i : Z) (st : cstate) : outcome LockFreeVector :=
  c ← cell_load v i; cell_store v i (mkCell st (storage c)).

(** ** The calls and where a thread stands in them *)

Inductive call := Emplace (x : T) | PopBack | Erase (i : Z) | Index (i : Z) | At (i : Z) | Size | Reserve (n : Z).

Inductive result := RIndex (i : Z) | RBool (b : bool) | RValue (x : T) | RSize (n : Z) | RUnit
  | RThrow   (** [std::bad_alloc] *)
  | RTrap.   (** [TRAP()] ends the process *)

(** Who called [ensure_bucket]. *)
Inductive caller := ForEmplace (idx : Z) (x : T) | ForReserve (top i : Z).

Inductive pc :=
| Idle
| BLoad (L : Z) (k : caller)       (** [ensure_bucket]: is the bucket there? *)
| BAlloc (L : Z) (k : caller)      (** [Bucket::allocate] *)
| BCas (L : Z) (k : caller)        (** the candidate is put in its place, or destroyed *)
| EState (idx : Z) (x : T)         (** [emplace_back]: wait for [EMPTY] *)
| EClaim (idx : Z) (x : T)         (** [EMPTY] to [WRITING] *)
| EConstruct (idx : Z) (x : T)
| EReady (idx : Z)                 (** the store of [READY] *)
| EWait (idx : Z)                  (** the claim failed: wait for [READY] *)
| EPub (idx : Z)                   (** is it the next to be published? *)
| ALoad (idx : Z)                  (** [advance_published] *)
| AHead (idx cur : Z)
| AScan (idx cur scan : Z)
| ACas (idx cur scan : Z)
| PLoad                            (** [pop_back] *)
| PCas (pub : Z)
| PWait (idx : Z)
| PClaim (idx : Z)
| PDestroy (idx : Z)
| PStore (idx : Z)
| RLoad (i : Z)                    (** [erase] *)
| RState (i : Z)
| RSpin (i : Z)                    (** another thread deletes it *)
| RClaim (i : Z)
| RDestroy (i : Z)
| RStore (i : Z)
| SLoad                            (** [shrink_published_tail_] *)
| SState (pub : Z)
| SCas (pub : Z)
| ILoad (i : Z)                    (** [operator[]] *)
| TSize (i : Z)                    (** [at]: its bounds check *)
| ZSize                            (** [size] *)
| VLoop (top i : Z).               (** [reserve]: level [i] *)

Inductive next := Goto (p : pc) | Return (r : result).

(** [Fail]: an allocation throws, a [compare_exchange_weak] fails for no reason. *)
Inductive choice := Go | Fail | Late.
#[global] Instance choice_eq_dec : EqDecision choice.
Proof. solve_decision. Defined.

Definition is_fail (c : choice) : bool := match c with Fail => true | _ => false end.

(** ** The start of a call *)

(** [emplace_back] takes its index at once. *)
Definition emplace_back_start (x : T) (v : LockFreeVector) : LockFreeVector * next :=
  ({| v with alloc_idx_ := wrap 64 (alloc_idx_ v + 1) |}, Goto (BLoad (locate (alloc_idx_ v)).1 (ForEmplace (alloc_idx_ v) x))).

Definition reserve_start (n : Z) (v : LockFreeVector) : LockFreeVector * next :=
  if n =? 0 then (v, Return RUnit)
  else (v, Goto (VLoop (locate ((if SOFT_MAX <? n then SOFT_MAX else n) - 1)).1 0)).

Definition start (c : call) (v : LockFreeVector) : LockFreeVector * next :=
  match c with
  | Emplace x => emplace_back_start x v
  | PopBack => (v, Goto PLoad)
  | Erase i => (v, Goto (RLoad i))
  | Index i => (v, Goto (ILoad i))
  | At i => (v, Goto (TSize i))
  | Size => (v, Goto ZSize)
  | Reserve n => reserve_start n v
  end.

(** ** [ensure_bucket] *)

Definition ensured (k : caller) : next :=
  match k with ForEmplace idx x => Goto (EState idx x) | ForReserve top i => Goto (VLoop top (i + 1)) end.

Definition not_ensured (k : caller) : next := match k with ForEmplace _ _ => Return RThrow | ForReserve _ _ => Return RUnit end.

Definition ensure_bucket_step (ch : choice) (v : LockFreeVector) (p : pc) : option (outcome (LockFreeVector * next)) :=
  match p with
  | BLoad L k => Some (b ← bucket_load v L; Done (v, match b with Some _ => ensured k | None => Goto (BAlloc L k) end))
  | BAlloc L k => Some (Done (v, if (MAX_BUCKET <? pow2 L) || is_fail ch then not_ensured k else Goto (BCas L k)))
  | BCas L k =>
      Some (b ← bucket_load v L;
            match b with
            | Some _ => Done (v, ensured k)
            | None => bs ← awrite (buckets_ v) L (Some (Bucket_allocate (pow2 L))); Done ({| v with buckets_ := bs |}, ensured k)
            end)
  | _ => None
  end.

(** ** [emplace_back] and [advance_published] *)

(** [seen i st]: what the thread reads where memory has [st]: its own buffered store first. *)
Definition seen (buf : option Z) (i : Z) (st : cstate) : cstate := if bool_decide (buf = Some i) then READY else st.

Definition is_ready (buf : option Z) (v : LockFreeVector) (i : Z) : outcome bool :=
  b ← bucket_load v (locate i).1;
  match b with
  | None => Done false
  | Some b => c ← aread b (locate i).2; Done (bool_decide (seen buf i (state c) = READY))
  end.

Definition emplace_back_step (buf : option Z) (v : LockFreeVector) (p : pc) : option (outcome (LockFreeVector * next)) :=
  match p with
  | EState idx x =>
      Some (c ← cell_load v idx; Done (v, Goto (match seen buf idx (state c) with EMPTY => EClaim idx x | _ => EState idx x end)))
  | EClaim idx x =>
      Some (c ← cell_load v idx;
            match state c with
            | EMPTY => v' ← state_store v idx WRITING; Done (v', Goto (EConstruct idx x))
            | _ => Done (v, Goto (EWait idx))
            end)
  | EConstruct idx x => Some (v' ← construct_at v idx x; Done (v', Goto (EReady idx)))
  | EReady idx => Some (v' ← state_store v idx READY; Done (v', Goto (EPub idx)))
  | EWait idx => Some (c ← cell_load v idx; Done (v, Goto (match seen buf idx (state c) with READY => EPub idx | _ => EWait idx end)))
  | EPub idx => Some (Done (v, if idx =? published_ v then Goto (ALoad idx) else Return (RIndex idx)))
  | _ => None
  end.

Definition advance_published_step (ch : choice) (buf : option Z) (v : LockFreeVector) (p : pc) : option (outcome (LockFreeVector * next)) :=
  match p with
  | ALoad idx => Some (Done (v, Goto (AHead idx (published_ v))))
  | AHead idx cur => Some (r ← is_ready buf v cur; Done (v, if r : bool then Goto (AScan idx cur cur) else Return (RIndex idx)))
  | AScan idx cur scan =>
      Some (r ← is_ready buf v scan; Done (v, if r : bool then Goto (AScan idx cur (wrap 64 (scan + 1))) else Goto (ACas idx cur scan)))
  | ACas idx cur scan =>
      Some (Done (if (published_ v =? cur) && negb (is_fail ch) then {| v with published_ := scan |} else v, Goto (ALoad idx)))
  | _ => None
  end.

(** ** [pop_back] *)

Definition pop_back_step (ch : choice) (buf : option Z) (v : LockFreeVector) (p : pc) : option (outcome (LockFreeVector * next)) :=
  match p with
  | PLoad => Some (Done (v, if published_ v =? 0 then Return (RBool false) else Goto (PCas (published_ v))))
  | PCas pub =>
      Some (Done (if (published_ v =? pub) && negb (is_fail ch) then ({| v with published_ := wrap 64 (pub - 1) |}, Goto (PWait (wrap 64 (pub - 1))))
                  else (v, Goto PLoad)))
  | PWait idx => Some (c ← cell_load v idx; Done (v, Goto (match seen buf idx (state c) with READY => PClaim idx | _ => PWait idx end)))
  | PClaim idx =>
      Some (c ← cell_load v idx;
            match state c with
            | READY => v' ← state_store v idx DELETING; Done (v', Goto (PDestroy idx))
            | _ => Done (v, Return (RBool true))
            end)
  | PDestroy idx => Some (v' ← destroy_at v idx; Done (v', Goto (PStore idx)))
  | PStore idx => Some (v' ← state_store v idx EMPTY; Done (v', Return (RBool true)))
  | _ => None
  end.

(** ** [erase] and [shrink_published_tail_] *)

Definition erase_step (buf : option Z) (v : LockFreeVector) (p : pc) : option (outcome (LockFreeVector * next)) :=
  match p with
  | RLoad i => Some (Done (v, if published_ v <=? i then Return (RBool false) else Goto (RState i)))
  | RState i =>
      Some (b ← bucket_load v (locate i).1;
            match b with
            | None => Done (v, Return (RBool false))
            | Some b =>
                c ← aread b (locate i).2;
                Done (v, match seen buf i (state c) with
                         | READY => Goto (RClaim i)
                         | EMPTY => Return (RBool false)
                         | DELETING => Goto (RSpin i)
                         | WRITING => Goto (RState i)
                         end)
            end)
  | RSpin i => Some (c ← cell_load v i; Done (v, match seen buf i (state c) with DELETING => Goto (RSpin i) | _ => Return (RBool false) end))
  | RClaim i =>
      Some (c ← cell_load v i;
            match state c with
            | READY => v' ← state_store v i DELETING; Done (v', Goto (RDestroy i))
            | _ => Done (v, Return (RBool false))
            end)
  | RDestroy i => Some (v' ← destroy_at v i; Done (v', Goto (RStore i)))
  | RStore i => Some (v' ← state_store v i EMPTY; Done (v', Goto SLoad))
  | _ => None
  end.

Definition shrink_published_tail_step (ch : choice) (buf : option Z) (v : LockFreeVector) (p : pc) : option (outcome (LockFreeVector * next)) :=
  match p with
  | SLoad => Some (Done (v, if published_ v =? 0 then Return (RBool true) else Goto (SState (published_ v))))
  | SState pub =>
      Some (b ← bucket_load v (locate (wrap 64 (pub - 1))).1;
            match b with
            | None => Done (v, Return (RBool true))
            | Some b =>
                c ← aread b (locate (wrap 64 (pub - 1))).2;
                Done (v, match seen buf (wrap 64 (pub - 1)) (state c) with EMPTY => Goto (SCas pub) | _ => Return (RBool true) end)
            end)
  | SCas pub =>
      Some (Done (if (published_ v =? pub) && negb (is_fail ch) then {| v with published_ := wrap 64 (pub - 1) |} else v, Goto SLoad))
  | _ => None
  end.

(** ** Reading and [reserve] *)

Definition read_step (buf : option Z) (v : LockFreeVector) (p : pc) : option (outcome (LockFreeVector * next)) :=
  match p with
  | ILoad i =>
      Some (b ← bucket_load v (locate i).1;
            match b with
            | None => Done (v, Goto (ILoad i))
            | Some b =>
                c ← aread b (locate i).2;
                match seen buf i (state c) with
                | READY => x ← deref (storage c); Done (v, Return (RValue x))
                | EMPTY => Done (v, Return RTrap)
                | _ => Done (v, Goto (ILoad i))
                end
            end)
  | TSize i => Some (Done (v, if published_ v <=? i then Return RTrap else Goto (ILoad i)))
  | ZSize => Some (Done (v, Return (RSize (published_ v))))
  | _ => None
  end.

Definition reserve_step (v : LockFreeVector) (p : pc) : option (outcome (LockFreeVector * next)) :=
  match p with
  | VLoop top i =>
      Some (if top <? i then Done (v, Return RUnit)
            else b ← bucket_load v i;
                 Done (v, match b with Some _ => Goto (VLoop top (i + 1)) | None => Goto (BLoad i (ForReserve top i)) end))
  | _ => None
  end.

(** One step of a thread at [p]; [None] for [Idle]. *)
Definition pc_step (ch : choice) (buf : option Z) (v : LockFreeVector) (p : pc) : option (outcome (LockFreeVector * next)) :=
  match p with
  | Idle => None
  | BLoad _ _ | BAlloc _ _ | BCas _ _ => ensure_bucket_step ch v p
  | EState _ _ | EClaim _ _ | EConstruct _ _ | EReady _ | EWait _ | EPub _ => emplace_back_step buf v p
  | ALoad _ | AHead _ _ | AScan _ _ _ | ACas _ _ _ => advance_published_step ch buf v p
  | PLoad | PCas _ | PWait _ | PClaim _ | PDestroy _ | PStore _ => pop_back_step ch buf v p
  | RLoad _ | RState _ | RSpin _ | RClaim _ | RDestroy _ | RStore _ => erase_step buf v p
  | SLoad | SState _ | SCas _ => shrink_published_tail_step ch buf v p
  | ILoad _ | TSize _ | ZSize => read_step buf v p
  | VLoop _ _ => reserve_step v p
  end.

(** A step that writes: an atomic read-modify-write or a store, before which the store
    buffer of its thread drains. *)
Definition writes (p : pc) : bool :=
  match p with
  | BCas _ _ | EClaim _ _ | EConstruct _ _ | EReady _ | ACas _ _ _
  | PCas _ | PClaim _ | PDestroy _ | PStore _ | RClaim _ | RDestroy _ | RStore _ | SCas _ => true
  | _ => false
  end.

(** ** The machine *)

Record thread := mkThread { at_ : pc; buf : option Z }.

Record machine := mkMachine {
  vec : LockFreeVector;
  threads : list thread;
  answers : list (nat * result)   (** what the calls returned, the latest first *)
}.

Definition init (n : nat) : machine := mkMachine LockFreeVector_new (replicate n (mkThread Idle None)) [].

Inductive action := Call (me : nat) (c : call) | Step (me : nat) (ch : choice) | Drain (me : nat).

(** The thread goes on, or its call returns. *)
Definition continue (me : nat) (t : thread) (m : machine) (o : LockFreeVector * next) : machine :=
  match o.2 with
  | Goto p => mkMachine o.1 (<[me := {| t with at_ := p |}]> (threads m)) (answers m)
  | Return r => mkMachine o.1 (<[me := {| t with at_ := Idle |}]> (threads m)) ((me, r) :: answers m)
  end.

Definition act (a : action) (m : machine) : option (outcome machine) :=
  match a with
  | Call me c =>
      t ← threads m !! me;
      match at_ t, buf t with Idle, None => Some (Done (continue me t m (start c (vec m)))) | _, _ => None end
  | Step me ch =>
      t ← threads m !! me;
      match at_ t, ch, buf t with
      | EReady idx, Late, None => Some (Done {| m with threads := <[me := mkThread (EPub idx) (Some idx)]> (threads m) |})
      | p, _, Some _ => if writes p then None else o ← pc_step ch (buf t) (vec m) p; Some (o ← o; Done (continue me t m o))
      | p, _, None => o ← pc_step ch None (vec m) p; Some (o ← o; Done (continue me t m o))
      end
  | Drain me =>
      t ← threads m !! me;
      idx ← buf t;
      Some (v ← state_store (vec m) idx READY; Done {| m with vec := v; threads := <[me := {| t with buf := None |}]> (threads m) |})
  end.

Fixpoint run (l : list action) (m : machine) : option (outcome machine) :=
  match l with
  | [] => Some (Done m)
  | a :: l => match act a m with Some (Done m') => run l m' | o => o end
  end.

(** ** A call that runs alone *)

(** The rest of a call from [p] on, of at most [fuel] steps. *)
Fixpoint solo (fuel : nat) (v : LockFreeVector) (p : pc) : outcome (LockFreeVector * result) :=
  match fuel with
  | O => OutOfFuel
  | S fuel =>
      o ← default UB (pc_step Go None v p);
      match o.2 with Goto p' => solo fuel o.1 p' | Return r => Done (o.1, r) end
  end.

Definition solo_call (fuel : nat) (c : call) (v : LockFreeVector) : outcome (LockFreeVector * result) :=
  match start c v with
  | (v', Goto p) => solo fuel v' p
  | (v', Return r) => Done (v', r)
  end.

(** ** The destructor *)

Definition destroy_if_ready (v : LockFreeVector) (i : Z) : outcome LockFreeVector :=
  c ← cell_load v i;
  match state c with READY => v ← destroy_at v i; state_store v i EMPTY | _ => Done v end.

(** Its first loop; then the buckets are freed, with whatever their cells still hold. *)
Definition LockFreeVector_destroy (v : LockFreeVector) : outcome LockFreeVector :=
  for_from 0 (Z.to_nat (published_ v))
    (λ i v, b ← bucket_load v (locate i).1; match b with Some _ => destroy_if_ready v i | None => Done v end) v.

(** ** [TLSRegistry] *)

(** The calls of [emplace_back] for the storages that [new] gave; [bad_alloc] ends them. *)
Fixpoint emplace_all (fuel : nat) (storages : list T) (v : LockFreeVector) : outcome (LockFreeVector * result) :=
  match storages with
  | [] => Done (v, RUnit)
  | x :: storages =>
      o ← solo_call fuel (Emplace x) v;
      match o.2 with RThrow => Done o | _ => emplace_all fuel storages o.1 end
  end.

(** The constructor; [threadCount] is the number of the storages. *)
Definition TLSRegistry_new (fuel : nat) (storages : list T) : outcome (LockFreeVector * result) :=
  o ← solo_call fuel (Reserve (Z.of_nat (length storages))) LockFreeVector_new;
  emplace_all fuel storages o.1.

Definition getStorage (fuel : nat) (v : LockFreeVector) (index : Z) : outcome (LockFreeVector * result) :=
  solo_call fuel (Index (wrap 64 index)) v.

End vector.
#[global] Arguments Cell : clear implicits.
#[global] Arguments LockFreeVector : clear implicits.
#[global] Arguments pc : clear implicits.
#[global] Arguments caller : clear implicits.
#[global] Arguments next : clear implicits.
#[global] Arguments call : clear implicits.
#[global] Arguments result : clear implicits.
#[global] Arguments machine : clear implicits.
#[global] Arguments thread : clear implicits.
#[global] Arguments action : clear implicits.

End ConcurrentVector.
