(* ===== verification/ConcurrentVectorMem.v ===== *)
(** The memory of the lock-free vector: [locate] numbers the cells of the buckets without
    gaps or overlaps, so the buckets are one array of cells, of which some exist. *)

From S2P Require Import Prelude ConcurrentVector.

Module ConcurrentVectorMem.
Import ConcurrentVector.

(** * Where an index lives *)

Lemma land_pow2_zero x k : 0 <= k → 0 <= x < 2 ^ (k + 1) → (Z.land x (Z.shiftl 1 k) =? 0) = (x <? 2 ^ k).
Proof.
  intros Hk [Hx Hl]. rewrite Z.shiftl_1_l. destruct (Z.ltb_spec x (2 ^ k)) as [Hlt|Hge].
  - apply Z.eqb_eq. apply Z.bits_inj'. intros n Hn. rewrite Z.land_spec, Z.pow2_bits_eqb, Z.bits_0 by lia.
    destruct (Z.eqb_spec k n) as [<-|]; [|apply andb_false_r].
    destruct (decide (x = 0)) as [->|]; [by rewrite Z.bits_0|]. rewrite Z.bits_above_log2; [done|lia|]. apply Z.log2_lt_pow2; lia.
  - apply Z.eqb_neq. intros H0. assert (Hb : Z.testbit (Z.land x (2 ^ k)) k = false) by (rewrite H0; apply Z.bits_0).
    rewrite Z.land_spec, Z.pow2_bits_true, andb_true_r in Hb by lia.
    assert (Z.log2 x = k) as E.
    { apply Z.log2_unique; [lia|]. rewrite <- Z.add_1_r. lia. }
    rewrite <- E, Z.bit_log2 in Hb by lia. done.
Qed.

Lemma clz_from_log2 x n : 0 < x < 2 ^ Z.of_nat n → clz_from x n = Z.of_nat n - 1 - Z.log2 x.
Proof.
  induction n as [|n IH]; [cbn; lia|]. intros Hx. rewrite Nat2Z.inj_succ, <- Z.add_1_r in *. cbn [clz_from].
  rewrite land_pow2_zero by lia. destruct (Z.ltb_spec x (2 ^ Z.of_nat n)) as [Hlt|Hge]; [rewrite IH by lia; lia|].
  enough (Z.log2 x = Z.of_nat n) by lia. apply Z.log2_unique; [lia|]. rewrite <- Z.add_1_r. lia.
Qed.

Lemma pow2_eq e : 0 <= e < 64 → pow2 e = 2 ^ e.
Proof. intros He. unfold pow2. rewrite (proj2 (Z.leb_gt 64 e)) by lia. apply Z.shiftl_1_l. Qed.

Definition level (i : Z) : Z := Z.log2 (i + 1).
Definition offset (i : Z) : Z := i + 1 - 2 ^ level i.

Definition valid (i : Z) : Prop := 0 <= i < 2 ^ 64 - 1.

Lemma level_spec i : 0 <= i → 0 <= level i ∧ 2 ^ level i <= i + 1 < 2 ^ (level i + 1).
Proof. intros Hi. split; [apply Z.log2_nonneg|]. rewrite Z.add_1_r. apply Z.log2_spec. lia. Qed.

Lemma level_lt i n : 0 <= i → 0 <= n → i + 1 < 2 ^ n → level i < n.
Proof. intros Hi Hn H. apply Z.log2_lt_pow2; lia. Qed.

Lemma offset_bounds i : 0 <= i → 0 <= offset i < 2 ^ level i.
Proof. intros Hi. destruct (level_spec i Hi) as [H0 H]. rewrite Z.pow_add_r in H by lia. unfold offset. lia. Qed.

Lemma place_inj i j : level i = level j → offset i = offset j → i = j.
Proof. unfold offset. intros -> H. lia. Qed.

Lemma place_surj L off : 0 <= L → 0 <= off < 2 ^ L → level (2 ^ L - 1 + off) = L ∧ offset (2 ^ L - 1 + off) = off.
Proof.
  intros HL Ho. assert (E : level (2 ^ L - 1 + off) = L).
  { apply Z.log2_unique; [done|]. rewrite <- Z.add_1_r, Z.pow_add_r by lia. lia. }
  split; [done|]. unfold offset. rewrite E. lia.
Qed.

Lemma locate_eq i : valid i → locate i = (level i, offset i).
Proof.
  intros Hi. unfold valid in Hi. destruct (level_spec i ltac:(lia)) as [H0 HL].
  assert (Hl : level i < 64) by (apply level_lt; lia).
  assert (E : (if i =? 0 then 0 else wrap 64 (63 - clz64 (wrap 64 (i + 1)))) = level i).
  { destruct (Z.eqb_spec i 0) as [->|Hn]; [done|]. rewrite (wrap_small 64 (i + 1)) by lia. unfold clz64.
    rewrite (proj2 (Z.eqb_neq (i + 1) 0)), clz_from_log2 by (cbn [Z.of_nat]; lia). fold (level i).
    rewrite wrap_small by (change (Z.of_nat 64) with 64; lia). change (Z.of_nat 64) with 64. lia. }
  unfold locate. rewrite E, pow2_eq by lia.
  assert (Hp : 1 <= 2 ^ level i <= 2 ^ 63) by (split; [|apply Z.pow_le_mono_r]; lia).
  rewrite (wrap_small 64 (2 ^ level i - 1)) by lia. rewrite wrap_small by (split; lia). unfold offset. f_equal. lia.
Qed.

(** * The cells *)

Section cells.
Context {T : Type}.
Implicit Types (v : LockFreeVector T) (c : Cell T).

Definition cell v (i : Z) : option (Cell T) :=
  if bool_decide (0 <= i) then (buckets_ v !! Z.to_nat (level i)) ≫= λ o, o ≫= λ b, b !! Z.to_nat (offset i) else None.

Record vec_ok v : Prop := {
  v_levels : length (buckets_ v) = MAX_LEVELS;
  v_bucket L b : buckets_ v !! L = Some (Some b) → Z.of_nat (length b) = 2 ^ Z.of_nat L ∧ (L <= 24)%nat
}.

Lemma cell_inv v i c : cell v i = Some c →
  0 <= i ∧ ∃ b, buckets_ v !! Z.to_nat (level i) = Some (Some b) ∧ b !! Z.to_nat (offset i) = Some c.
Proof.
  unfold cell. case_bool_decide; [|done]. destruct (buckets_ v !! _) as [[b|]|] eqn:E; cbn; [|done..]. eauto.
Qed.

Lemma cell_intro v i b c : 0 <= i → buckets_ v !! Z.to_nat (level i) = Some (Some b) → b !! Z.to_nat (offset i) = Some c → cell v i = Some c.
Proof. intros Hi Hb Hc. unfold cell. rewrite bool_decide_true by done. by rewrite Hb. Qed.

(** Only levels 0 to 24 are ever allocated. *)
Lemma cell_bound v i : vec_ok v → is_Some (cell v i) → 0 <= i < 2 ^ 25 - 1.
Proof.
  intros Hv [c Hc]. apply cell_inv in Hc as (Hi & b & Hb & _). split; [done|].
  apply (v_bucket _ Hv) in Hb as [_ Hl]. destruct (level_spec i Hi) as [H0 [_ H]].
  assert (2 ^ (level i + 1) <= 2 ^ 25) by (apply Z.pow_le_mono_r; lia). lia.
Qed.

Lemma cell_valid v i : vec_ok v → is_Some (cell v i) → valid i.
Proof. intros Hv H. apply cell_bound in H; [|done]. unfold valid. lia. Qed.

Lemma level_nat v i : vec_ok v → valid i → 0 <= level i < Z.of_nat (length (buckets_ v)).
Proof.
  intros Hv Hi. rewrite (v_levels _ Hv). change (Z.of_nat MAX_LEVELS) with 64. unfold valid in Hi.
  split; [apply level_spec; lia|apply level_lt; lia].
Qed.

Lemma bucket_load_in v L : vec_ok v → 0 <= L < 64 → ∃ o, bucket_load v L = Done o ∧ buckets_ v !! Z.to_nat L = Some o.
Proof.
  intros Hv HL. destruct (lookup_lt_is_Some_2 (buckets_ v) (Z.to_nat L)) as [o Ho].
  { rewrite (v_levels _ Hv). unfold MAX_LEVELS. lia. }
  exists o. split; [|done]. apply aread_Some; [lia|done].
Qed.

(** What a load of the bucket of [i] finds. *)
Lemma bucket_load_cell v i : vec_ok v → valid i →
  (bucket_load v (locate i).1 = Done None ∧ cell v i = None) ∨
  (∃ b c, bucket_load v (locate i).1 = Done (Some b) ∧ aread b (locate i).2 = Done c ∧ cell v i = Some c).
Proof.
  intros Hv Hi. rewrite locate_eq by done. cbn [fst snd]. assert (H0 : 0 <= i) by (unfold valid in Hi; lia).
  destruct (level_spec i H0) as [Hl _]. destruct (level_nat v i Hv Hi) as [_ Hl'].
  rewrite (v_levels _ Hv) in Hl'. change (Z.of_nat MAX_LEVELS) with 64 in Hl'.
  destruct (bucket_load_in v (level i) Hv (conj Hl Hl')) as ([b|] & Ho & E); [right|left].
  - destruct (offset_bounds i H0) as [Ho0 Ho1]. destruct (v_bucket _ Hv _ _ E) as [Hb _].
    rewrite Z2Nat.id in Hb by done. destruct (lookup_lt_is_Some_2 b (Z.to_nat (offset i))) as [c Hc]; [lia|].
    exists b, c. split_and!; [done|by apply aread_Some|by eapply cell_intro].
  - split; [done|]. unfold cell. rewrite bool_decide_true by done. by rewrite E.
Qed.

Lemma cell_load_eq v i c : vec_ok v → cell v i = Some c → cell_load v i = Done c.
Proof.
  intros Hv Hc. assert (Hi : valid i) by (apply (cell_valid v); eauto).
  destruct (bucket_load_cell v i Hv Hi) as [[_ E]|(b & c' & E & Ec & E')]; [congruence|].
  unfold cell_load, sread, bucket_load in *. rewrite E. orun. rewrite Ec. congruence.
Qed.

Lemma is_ready_eq v i : vec_ok v → valid i →
  is_ready None v i = Done (match cell v i with Some c => bool_decide (state c = READY) | None => false end).
Proof.
  intros Hv Hi. unfold is_ready. destruct (bucket_load_cell v i Hv Hi) as [[-> ->]|(b & c & -> & Ec & ->)]; orun; [done|].
  rewrite Ec. done.
Qed.

(** ** Writing a cell *)

Definition set_cell v (i : Z) c : LockFreeVector T :=
  {| v with buckets_ := alter (fmap (λ b, <[Z.to_nat (offset i) := c]> b)) (Z.to_nat (level i)) (buckets_ v) |}.

Lemma cell_store_eq v i c c' : vec_ok v → cell v i = Some c → cell_store v i c' = Done (set_cell v i c').
Proof.
  intros Hv Hc. assert (Hi : valid i) by (apply (cell_valid v); eauto).
  destruct (cell_inv _ _ _ Hc) as (H0 & b & Hb & Ho). destruct (level_spec i H0) as [Hl _]. destruct (offset_bounds i H0) as [Ho0 _].
  unfold cell_store, sread. rewrite locate_eq by done. cbn [fst snd]. rewrite (aread_Some _ _ (Some b)) by done. orun.
  rewrite awrite_in by (split; [done|]; apply lookup_lt_Some in Ho; lia). orun.
  rewrite awrite_in by (by apply level_nat). orun. unfold set_cell. do 2 f_equal.
  apply list_eq. intros j. destruct (decide (j = Z.to_nat (level i))) as [->|Hj].
  - rewrite list_lookup_insert_eq by (by eapply lookup_lt_Some). by rewrite list_lookup_alter_eq, Hb.
  - by rewrite list_lookup_insert_ne, list_lookup_alter_ne.
Qed.

Lemma vec_ok_set v i c : vec_ok v → vec_ok (set_cell v i c).
Proof.
  intros [Hl Hb]. split; [by cbn; rewrite length_alter|]. intros L b. cbn.
  destruct (decide (L = Z.to_nat (level i))) as [->|Hn].
  - rewrite list_lookup_alter_eq. destruct (buckets_ v !! Z.to_nat (level i)) as [[b0|]|] eqn:E; cbn; [|done..].
    intros [= <-]. rewrite length_insert. by apply Hb.
  - rewrite list_lookup_alter_ne by done. apply Hb.
Qed.

Lemma cell_set_eq v i c : is_Some (cell v i) → cell (set_cell v i c) i = Some c.
Proof.
  intros [c0 Hc]. apply cell_inv in Hc as (H0 & b & Hb & Ho). eapply cell_intro; [done| |].
  - cbn. by rewrite list_lookup_alter_eq, Hb.
  - apply list_lookup_insert_eq. by eapply lookup_lt_Some.
Qed.

Lemma cell_set_ne v i j c : 0 <= i → i ≠ j → cell (set_cell v i c) j = cell v j.
Proof.
  intros Hi Hn. unfold cell. case_bool_decide as Hj; [|done]. cbn.
  destruct (decide (Z.to_nat (level j) = Z.to_nat (level i))) as [E|Hl]; [|by rewrite list_lookup_alter_ne].
  rewrite E, list_lookup_alter_eq. destruct (buckets_ v !! Z.to_nat (level i)) as [[b|]|]; cbn; [|done..].
  apply list_lookup_insert_ne. intros Eo. destruct (level_spec i Hi) as [? _], (level_spec j Hj) as [? _].
  destruct (offset_bounds i Hi) as [? _], (offset_bounds j Hj) as [? _]. apply Hn, place_inj; lia.
Qed.

Lemma state_store_eq v i c st : vec_ok v → cell v i = Some c → state_store v i st = Done (set_cell v i (mkCell st (storage c))).
Proof. intros Hv Hc. unfold state_store. rewrite (cell_load_eq _ _ _ Hv Hc). orun. by eapply cell_store_eq. Qed.

Lemma construct_at_eq v i st x : vec_ok v → cell v i = Some (mkCell st None) → construct_at v i x = Done (set_cell v i (mkCell st (Some x))).
Proof. intros Hv Hc. unfold construct_at. rewrite (cell_load_eq _ _ _ Hv Hc). orun. by eapply cell_store_eq. Qed.

Lemma destroy_at_eq v i st x : vec_ok v → cell v i = Some (mkCell st (Some x)) → destroy_at v i = Done (set_cell v i (mkCell st None)).
Proof. intros Hv Hc. unfold destroy_at. rewrite (cell_load_eq _ _ _ Hv Hc). orun. by eapply cell_store_eq. Qed.

(** ** A new bucket *)

Definition grow v (L : Z) : LockFreeVector T := {| v with buckets_ := <[Z.to_nat L := Some (Bucket_allocate (2 ^ L))]> (buckets_ v) |}.

Lemma Bucket_allocate_length L : 0 <= L → Z.of_nat (length (@Bucket_allocate T (2 ^ L))) = 2 ^ L.
Proof.
  intros HL. unfold Bucket_allocate. rewrite length_replicate. assert (0 < 2 ^ L) by lia.
  rewrite (proj2 (Z.eqb_neq (2 ^ L) 0)) by lia. lia.
Qed.

Lemma vec_ok_grow v L : vec_ok v → 0 <= L <= 24 → vec_ok (grow v L).
Proof.
  intros [Hl Hb] HL. split; [by cbn; rewrite length_insert|]. intros L' b. cbn. rewrite list_lookup_insert_Some.
  intros [(<- & [= <-] & _)|[_ H]]; [|by apply Hb]. rewrite Z2Nat.id by lia. split; [apply Bucket_allocate_length|]; lia.
Qed.

Lemma cell_grow v L i : vec_ok v → 0 <= L < 64 → buckets_ v !! Z.to_nat L = Some None →
  cell (grow v L) i = if bool_decide (0 <= i ∧ level i = L) then Some Cell_new else cell v i.
Proof.
  intros Hv HL Hn. unfold cell. case_bool_decide as Hi; [|rewrite bool_decide_false by tauto; done].
  destruct (level_spec i Hi) as [Hl _]. cbn. case_bool_decide as E.
  - destruct E as [_ <-]. rewrite list_lookup_insert_eq by (by eapply lookup_lt_Some). cbn.
    apply lookup_replicate. split; [done|]. destruct (offset_bounds i Hi). assert (0 < 2 ^ level i) by lia.
    rewrite (proj2 (Z.eqb_neq (2 ^ level i) 0)) by lia. lia.
  - rewrite list_lookup_insert_ne; [done|]. intros EL. apply E. split; [done|]. lia.
Qed.

Lemma cell_grow_some v L i c : vec_ok v → 0 <= L < 64 → buckets_ v !! Z.to_nat L = Some None → cell v i = Some c → cell (grow v L) i = Some c.
Proof.
  intros Hv HL Hn Hc. rewrite cell_grow by done. case_bool_decide as E; [|done].
  apply cell_inv in Hc as (_ & b & Hb & _). destruct E as [_ <-]. congruence.
Qed.

(** ** Cells that all exist *)

Definition below v (n : Z) : Prop := 0 <= n ∧ ∀ j, 0 <= j < n → is_Some (cell v j).
Definition mono v v' : Prop := ∀ i, is_Some (cell v i) → is_Some (cell v' i).

Lemma below_mono v v' n : mono v v' → below v n → below v' n.
Proof. intros Hm [H0 H]. split; [done|]. intros j Hj. by apply Hm, H. Qed.

Lemma below_bound v n : vec_ok v → below v n → n < 2 ^ 25.
Proof.
  intros Hv [H0 H]. destruct (decide (n <= 0)); [lia|]. destruct (cell_bound v (n - 1) Hv); [apply H; lia|lia].
Qed.

Lemma below_valid v n : vec_ok v → below v n → valid n.
Proof. intros Hv H. pose proof (below_bound _ _ Hv H). destruct H. unfold valid. lia. Qed.

Lemma below_succ v n : below v n → is_Some (cell v n) → below v (n + 1).
Proof. intros [H0 H] Hn. split; [lia|]. intros j Hj. destruct (decide (j = n)) as [->|]; [done|]. apply H. lia. Qed.

Lemma below_pred v n : below v n → 0 < n → below v (n - 1) ∧ is_Some (cell v (n - 1)).
Proof. intros [H0 H] Hn. split; [split; [lia|]; intros; apply H; lia|apply H; lia]. Qed.

Lemma mono_refl v v' : buckets_ v' = buckets_ v → mono v v'.
Proof. intros E i. unfold cell. by rewrite E. Qed.

Lemma mono_set v i c : is_Some (cell v i) → mono v (set_cell v i c).
Proof.
  intros Hi j Hj. destruct (decide (i = j)) as [<-|Hn]; [rewrite cell_set_eq by done; eauto|].
  destruct Hi as [c0 Hc]. rewrite cell_set_ne; [done| |done]. by apply cell_inv in Hc as [? _].
Qed.

Lemma vec_ok_ext v v' : buckets_ v' = buckets_ v → vec_ok v → vec_ok v'.
Proof. intros E [H1 H2]. split; rewrite E; [done|apply H2]. Qed.

Lemma cell_ext v v' i : buckets_ v' = buckets_ v → cell v' i = cell v i.
Proof. intros E. unfold cell. by rewrite E. Qed.

Lemma vec_ok_new : vec_ok LockFreeVector_new.
Proof. split; [done|]. intros L b H. apply lookup_replicate in H as [[=] _]. Qed.

Lemma cell_new i : cell LockFreeVector_new i = None.
Proof.
  unfold cell. case_bool_decide; [|done]. cbn -[replicate]. destruct (replicate MAX_LEVELS None !! Z.to_nat (level i)) as [o|] eqn:E; [|done].
  apply lookup_replicate in E as [-> _]. done.
Qed.
End cells.

#[export] Hint Resolve below_mono below_valid vec_ok_set mono_set : uvent.
End ConcurrentVectorMem.
