(* ===== verification/ConcurrentVectorInv.v ===== *)
(** The life of the cells of the lock-free vector: under every interleaving of all its
    operations a cell is written and destroyed by one thread at a time, [READY] cells hold
    an object and [EMPTY] ones do not, and no access leaves the buckets. *)

From S2P Require Import Prelude ConcurrentVector ConcurrentVectorMem.

Module ConcurrentVectorInv.
Import ConcurrentVector ConcurrentVectorMem.

Section inv.
Context {T : Type}.
Implicit Types (v : LockFreeVector T) (c : Cell T) (p : pc T) (t : thread T) (m : machine T).

(** * The invariant *)

(** The cell a thread has claimed, the state it has set, and whether it holds an object. *)
Definition owns p : option (Z * (cstate * bool)) :=
  match p with
  | EConstruct i _ => Some (i, (WRITING, false))
  | EReady i => Some (i, (WRITING, true))
  | PDestroy i | RDestroy i => Some (i, (DELETING, true))
  | PStore i | RStore i => Some (i, (DELETING, false))
  | _ => None
  end.

Definition caller_ok (L : Z) (k : caller T) : Prop :=
  match k with ForEmplace idx _ => valid idx ∧ L = level idx | ForReserve top i => L = i ∧ 0 <= i <= top ∧ top < 64 end.

(** What is true of the values a thread holds. *)
Definition place_ok v p : Prop :=
  match p with
  | BLoad L k | BAlloc L k => caller_ok L k
  | BCas L k => caller_ok L k ∧ L <= 24
  | EState i _ | EClaim i _ | EWait i | PWait i | PClaim i | RState i | RSpin i | RClaim i => is_Some (cell v i)
  | AHead _ n | AScan _ _ n | ACas _ _ n => below v n
  | PCas n | SState n | SCas n => 0 < n ∧ below v n
  | RLoad i | TSize i => 0 <= i
  | ILoad i => valid i
  | VLoop top i => 0 <= i ∧ top < 64
  | _ => True
  end.

Definition cell_is v (i : Z) (o : cstate * bool) : Prop := ∃ x, cell v i = Some (mkCell o.1 x) ∧ (if o.2 then is_Some x else x = None).

(** A cell that no thread owns. *)
Definition settled c : Prop := match state c with EMPTY => storage c = None | READY => is_Some (storage c) | _ => False end.

Record inv v (ts : list (thread T)) : Prop := {
  i_vec : vec_ok v;
  i_pub : below v (published_ v);
  i_cell i c : cell v i = Some c → settled c ∨ ∃ me t o, ts !! me = Some t ∧ owns (at_ t) = Some (i, o);
  i_buf me t : ts !! me = Some t → buf t = None;
  i_place me t : ts !! me = Some t → place_ok v (at_ t);
  i_owns me t i o : ts !! me = Some t → owns (at_ t) = Some (i, o) → cell_is v i o;
  i_unique me1 me2 t1 t2 i o1 o2 : ts !! me1 = Some t1 → ts !! me2 = Some t2 →
    owns (at_ t1) = Some (i, o1) → owns (at_ t2) = Some (i, o2) → me1 = me2
}.

Lemma caller_ok_level L k : caller_ok L k → 0 <= L < 64.
Proof.
  destruct k as [idx x|top i]; cbn; [|lia]. intros [Hv ->]. unfold valid in Hv.
  destruct (level_spec idx ltac:(lia)). split; [lia|]. apply level_lt; lia.
Qed.

Lemma place_ok_mono v v' p : mono v v' → place_ok v p → place_ok v' p.
Proof. intros Hm. destruct p; cbn; try apply Hm; try done; try (by apply below_mono); intros [? ?]; eauto with uvent. Qed.

(** * One thread moves *)

(** It may change one cell, which no other thread owns, and grow the vector. *)
Lemma inv_change v v' ts me t p' i : inv v ts → ts !! me = Some t → vec_ok v' → mono v v' → below v' (published_ v') → place_ok v' p' →
  (∀ j c, j ≠ i → cell v j = Some c → cell v' j = Some c) →
  (∀ j c, j ≠ i → cell v' j = Some c → cell v j = Some c ∨ c = Cell_new) →
  (∀ o j, owns (at_ t) = Some (j, o) → j = i) →
  (∀ o j, owns p' = Some (j, o) → j = i ∧ cell_is v' i o) →
  (∀ c, cell v' i = Some c → settled c ∨ ∃ o, owns p' = Some (i, o)) →
  (∀ me' t' o, me' ≠ me → ts !! me' = Some t' → owns (at_ t') ≠ Some (i, o)) →
  inv v' (<[me := mkThread p' None]> ts).
Proof.
  intros Hi Ht Hv Hm Hpub Hp Hkeep Hnew Hown Hown' Hci Hothers.
  assert (Hme : <[me := mkThread p' None]> ts !! me = Some (mkThread p' None)) by (apply list_lookup_insert_eq; by eapply lookup_lt_Some).
  assert (Hcase : ∀ me' t', <[me := mkThread p' None]> ts !! me' = Some t' → (me' = me ∧ t' = mkThread p' None) ∨ (me' ≠ me ∧ ts !! me' = Some t')).
  { intros me' t' H. apply list_lookup_insert_Some in H as [(-> & <- & _)|[? ?]]; eauto. }
  constructor; [done|done| | | | |].
  - intros j c Hc. destruct (decide (j = i)) as [->|Hj].
    { destruct (Hci c Hc) as [?|[o Ho]]; [by left|]. right. exists me, (mkThread p' None), o. done. }
    destruct (Hnew j c Hj Hc) as [Hc0| ->]; [|by left].
    destruct (i_cell _ _ Hi j c Hc0) as [?|(me' & t' & o & Ht' & Ho)]; [by left|]. right. exists me', t', o. split; [|done].
    rewrite list_lookup_insert_ne; [done|]. intros <-. simplify_eq. by apply Hown in Ho.
  - intros me' t' [[-> ->]|[_ H]]%Hcase; [done|by eapply i_buf].
  - intros me' t' [[-> ->]|[_ H]]%Hcase; [done|]. eapply place_ok_mono; [done|]. by eapply i_place.
  - intros me' t' j o [[-> ->]|[Hn H]]%Hcase Ho; [by destruct (Hown' o j Ho) as [-> ?]|].
    destruct (i_owns _ _ Hi _ _ _ _ H Ho) as (x & Hc & Hx). exists x. split; [|done]. apply Hkeep; [|done].
    intros ->. by apply (Hothers me' t' o).
  - intros me1 me2 t1 t2 j o1 o2 [[-> ->]|[H1 H1']]%Hcase [[-> ->]|[H2 H2']]%Hcase Ho1 Ho2; [done| | |by eapply i_unique].
    + destruct (Hown' _ _ Ho1) as [-> _]. by destruct (Hothers me2 t2 o2).
    + destruct (Hown' _ _ Ho2) as [-> _]. by destruct (Hothers me1 t1 o1).
Qed.

(** It owns nothing and changes no cell. *)
Lemma inv_move v v' ts me t p' : inv v ts → ts !! me = Some t → owns (at_ t) = None → owns p' = None → buckets_ v' = buckets_ v →
  below v (published_ v') → place_ok v p' → inv v' (<[me := mkThread p' None]> ts).
Proof.
  intros Hi Ht Ho Ho' E Hb Hp. assert (Hm : mono v v') by (by apply mono_refl).
  apply (inv_change v v' ts me t p' (-1)); [done|done|by apply (vec_ok_ext v), (i_vec _ _ Hi)|done|by eapply below_mono|by eapply place_ok_mono|..].
  - intros j c _. by rewrite (cell_ext v v').
  - intros j c _. rewrite (cell_ext v v') by done. by left.
  - intros o j. by rewrite Ho.
  - intros o j. by rewrite Ho'.
  - intros c Hc. by apply cell_inv in Hc as [? _].
  - intros me' t' o _ H Hx. destruct (i_owns _ _ Hi _ _ _ _ H Hx) as (x & Hc & _). by apply cell_inv in Hc as [? _].
Qed.

(** It grows the vector. *)
Lemma inv_grow v ts me t p' L : inv v ts → ts !! me = Some t → owns (at_ t) = None → owns p' = None →
  0 <= L <= 24 → buckets_ v !! Z.to_nat L = Some None → place_ok (grow v L) p' → inv (grow v L) (<[me := mkThread p' None]> ts).
Proof.
  intros Hi Ht Ho Ho' HL Hn Hp. pose proof (i_vec _ _ Hi) as Hv.
  assert (Hkeep : ∀ j c, cell v j = Some c → cell (grow v L) j = Some c) by (intros; apply cell_grow_some; [done|lia|done..]).
  assert (Hm : mono v (grow v L)) by (intros j [c Hc]; eauto).
  apply (inv_change v _ ts me t p' (-1)); [done|done|by apply vec_ok_grow|done|apply (below_mono v); [done|by apply (i_pub _ _ Hi)]|done|..].
  - eauto.
  - intros j c _. rewrite cell_grow by (done || lia). case_bool_decide; [|by left]. intros [= <-]. by right.
  - intros o j. by rewrite Ho.
  - intros o j. by rewrite Ho'.
  - intros c Hc. by apply cell_inv in Hc as [? _].
  - intros me' t' o _ H Hx. destruct (i_owns _ _ Hi _ _ _ _ H Hx) as (x & Hc & _). by apply cell_inv in Hc as [? _].
Qed.

(** It writes the cell [i], of which it is the owner or which is settled. *)
Lemma inv_write v ts me t p' i c c' : inv v ts → ts !! me = Some t → cell v i = Some c →
  (settled c ∧ owns (at_ t) = None ∨ ∃ o, owns (at_ t) = Some (i, o)) →
  (∀ v', mono v v' → place_ok v' p') →
  (owns p' = None ∧ settled c' ∨ ∃ b, owns p' = Some (i, (state c', b)) ∧ (if b then is_Some (storage c') else storage c' = None)) →
  inv (set_cell v i c') (<[me := mkThread p' None]> ts).
Proof.
  intros Hi Ht Hc Hown Hp Hc'. pose proof (i_vec _ _ Hi) as Hv. assert (Hs : is_Some (cell v i)) by eauto.
  assert (Hm : mono v (set_cell v i c')) by (by apply mono_set). assert (H0 : 0 <= i) by (by apply cell_inv in Hc as [? _]).
  apply (inv_change v _ ts me t p' i);
    [done|done|by apply vec_ok_set|done|apply (below_mono v); [done|by apply (i_pub _ _ Hi)]|by apply Hp|..].
  - intros j c0 Hj. by rewrite cell_set_ne.
  - intros j c0 Hj. rewrite cell_set_ne by done. by left.
  - intros o j Ho. destruct Hown as [[_ E]|[o' E]]; rewrite E in Ho; by simplify_eq.
  - intros o j Ho. destruct Hc' as [[E _]|(b & E & Hb)]; rewrite E in Ho; simplify_eq. split; [done|].
    exists (storage c'). rewrite cell_set_eq by done. by destruct c'.
  - intros c0. rewrite cell_set_eq by done. intros [= <-]. destruct Hc' as [[_ ?]|(b & E & _)]; [by left|eauto].
  - intros me' t' o Hn H Hx. destruct Hown as [[Hse _]|[o' E]]; [|by apply Hn; eapply i_unique].
    destruct (i_owns _ _ Hi _ _ _ _ H Hx) as (x & Hc0 & _). rewrite Hc in Hc0. simplify_eq.
    destruct (at_ t') eqn:Ep; cbn in Hx; simplify_eq; done.
Qed.

(** An unowned cell that a thread finds [EMPTY] or [READY] is settled. *)
Lemma state_settled v ts i c : inv v ts → cell v i = Some c → state c = EMPTY ∨ state c = READY → settled c.
Proof.
  intros Hi Hc Hs. destruct (i_cell _ _ Hi i c Hc) as [?|(me & t & o & Ht & Ho)]; [done|].
  destruct (i_owns _ _ Hi _ _ _ _ Ht Ho) as (x & Hc0 & _). rewrite Hc in Hc0. simplify_eq.
  destruct (at_ t); cbn in Ho; simplify_eq; cbn in Hs; by destruct Hs.
Qed.

(** * Every step keeps the invariant *)

Definition pc_of (n : next T) : pc T := match n with Goto p => p | Return _ => Idle end.

(** The step of thread [me] is defined, and its result is again well formed. *)
Definition fine v ts me (o : outcome (LockFreeVector T * next T)) : Prop :=
  ∃ v' n, o = Done (v', n) ∧ alloc_idx_ v' = alloc_idx_ v ∧ inv v' (<[me := mkThread (pc_of n) None]> ts).

Lemma fine_move v v' ts me t n : inv v ts → ts !! me = Some t → owns (at_ t) = None → owns (pc_of n) = None → buckets_ v' = buckets_ v →
  alloc_idx_ v' = alloc_idx_ v → below v (published_ v') → place_ok v (pc_of n) → fine v ts me (Done (v', n)).
Proof. intros. exists v', n. split_and!; [done|done|]. by eapply inv_move. Qed.

Lemma fine_stay v ts me t n : inv v ts → ts !! me = Some t → owns (at_ t) = None → owns (pc_of n) = None → place_ok v (pc_of n) → fine v ts me (Done (v, n)).
Proof. intros. eapply fine_move; [done..| |done]. by eapply i_pub. Qed.

(** A claim: the cell goes from [EMPTY] or [READY] to a state of its owner. *)
Lemma fine_claim v ts me t i c st n : inv v ts → ts !! me = Some t → owns (at_ t) = None → cell v i = Some c →
  state c = EMPTY ∨ state c = READY → place_ok v (pc_of n) → (∀ v', mono v v' → place_ok v' (pc_of n)) →
  owns (pc_of n) = Some (i, (st, bool_decide (state c = READY))) →
  fine v ts me (v' ← state_store v i st; Done (v', n)).
Proof.
  intros Hi Ht Ho Hc Hs Hp Hp' Hn. rewrite (state_store_eq _ _ _ _ (i_vec _ _ Hi) Hc). orun.
  exists (set_cell v i (mkCell st (storage c))), n. split_and!; [done|done|]. pose proof (state_settled _ _ _ _ Hi Hc Hs) as Hse.
  eapply inv_write; [done..|by left|done|]. right. exists (bool_decide (state c = READY)). split; [done|].
  unfold settled in Hse. destruct Hs as [E|E]; rewrite E in *; cbn; done.
Qed.

(** A write by the owner of the cell. *)
Lemma fine_owner v ts me t i o c c' n : inv v ts → ts !! me = Some t → owns (at_ t) = Some (i, o) → cell v i = Some c →
  (∀ v', mono v v' → place_ok v' (pc_of n)) →
  (owns (pc_of n) = None ∧ settled c' ∨ ∃ b, owns (pc_of n) = Some (i, (state c', b)) ∧ (if b then is_Some (storage c') else storage c' = None)) →
  fine v ts me (Done (set_cell v i c', n)).
Proof. intros. exists (set_cell v i c'), n. split_and!; [done|done|]. eapply inv_write; [done..|right; eauto|done|done]. Qed.

Lemma seen_None i st : seen None i st = st.
Proof. unfold seen. by rewrite bool_decide_false. Qed.

Lemma ensure_bucket_fine v ts me t ch o : inv v ts → ts !! me = Some t → ensure_bucket_step ch v (at_ t) = Some o → fine v ts me o.
Proof.
  intros Hi Ht. pose proof (i_place _ _ Hi me t Ht) as Hp. pose proof (i_vec _ _ Hi) as Hv.
  assert (Hens : ∀ L k w, caller_ok L k → (∀ j, 0 <= j → level j = L → valid j → is_Some (cell w j)) → place_ok w (pc_of (ensured k)) ∧ owns (pc_of (ensured k)) = None).
  { intros L [idx x|top i] w; cbn; [|intros (-> & ? & ?) _; split; [lia|done]]. intros [Hva ->] H. split; [|done]. apply H; [unfold valid in Hva; lia|done..]. }
  destruct (at_ t) as [|L k|L k|L k| | | | | | | | | | | | | | | | | | | | | | | | | | | | |] eqn:Ep; try done; cbn [ensure_bucket_step]; intros <-%(inj Some); cbn in Hp.
  - destruct (bucket_load_in v L Hv (caller_ok_level _ _ Hp)) as (b & -> & Hb). orun. eapply fine_stay; [done..|by rewrite Ep|destruct b, k; done|].
    destruct b as [b|]; [|done]. apply (Hens L k v Hp). intros j Hj El Hva.
    destruct (bucket_load_cell v j Hv Hva) as [[H _]|(? & c & _ & _ & ->)]; [|eauto].
    rewrite locate_eq in H by done. cbn in H. apply aread_Done in H as [_ H]. rewrite El, Hb in H. done.
  - eapply fine_stay; [done..|by rewrite Ep| |]; destruct ((MAX_BUCKET <? pow2 L) || is_fail ch) eqn:E; try (by destruct k). split; [done|].
    apply orb_false_iff in E as [E _]. destruct (caller_ok_level _ _ Hp) as [H0 H1]. rewrite pow2_eq in E by lia. apply Z.ltb_ge in E.
    unfold MAX_BUCKET in E. rewrite Z.shiftl_1_l in E. apply Z.pow_le_mono_r_iff in E; lia.
  - destruct Hp as [Hp HL]. destruct (caller_ok_level _ _ Hp) as [H0 H1].
    destruct (bucket_load_in v L Hv (conj H0 H1)) as ([b|] & -> & Hb); orun.
    + eapply fine_stay; [done..|by rewrite Ep|by destruct k|]. apply (Hens L k v Hp). intros j Hj El Hva.
      destruct (bucket_load_cell v j Hv Hva) as [[H _]|(? & c & _ & _ & ->)]; [|eauto].
      rewrite locate_eq in H by done. cbn in H. apply aread_Done in H as [_ H]. rewrite El, Hb in H. done.
    + rewrite awrite_in by (rewrite (v_levels _ Hv); change (Z.of_nat MAX_LEVELS) with 64; lia). orun. rewrite pow2_eq by lia.
      exists (grow v L), (ensured k). split_and!; [done|done|]. destruct (Hens L k (grow v L) Hp) as [Hpl Hown].
      { intros j Hj El _. rewrite cell_grow by (done || lia). rewrite bool_decide_true by done. eauto. }
      eapply inv_grow; [done..|by rewrite Ep|done|lia|done|done].
Qed.

Lemma emplace_back_fine v ts me t o : inv v ts → ts !! me = Some t → emplace_back_step None v (at_ t) = Some o → fine v ts me o.
Proof.
  intros Hi Ht. pose proof (i_place _ _ Hi me t Ht) as Hp. pose proof (i_vec _ _ Hi) as Hv.
  pose proof (λ i o, i_owns _ _ Hi me t i o Ht) as Hown.
  destruct (at_ t) as [| | | |i x|i x|i x|i|i|i| | | | | | | | | | | | | | | | | | | | | | |] eqn:Ep; try done; cbn [emplace_back_step]; intros <-%(inj Some); cbn in Hp.
  - destruct Hp as [c Hc]. rewrite (cell_load_eq _ _ _ Hv Hc). orun. rewrite seen_None. eapply fine_stay; [done..|by rewrite Ep| |]; cbn; destruct (state c); cbn; eauto.
  - destruct Hp as [c Hc]. rewrite (cell_load_eq _ _ _ Hv Hc). orun. destruct (state c) eqn:Es.
    1: { eapply fine_claim; [done..|by rewrite Ep|done|by left|done|done|by rewrite Es]. }
    all: eapply fine_stay; [done..|by rewrite Ep|done|cbn; eauto].
  - destruct (Hown i _ eq_refl) as (y & Hc & ->). rewrite (construct_at_eq _ _ _ x Hv Hc). orun.
    eapply fine_owner; [done..|by rewrite Ep|done|done|]. right. exists true. done.
  - destruct (Hown i _ eq_refl) as (y & Hc & Hy). rewrite (state_store_eq _ _ _ _ Hv Hc). orun.
    eapply fine_owner; [done..|by rewrite Ep|done|done|]. by left.
  - destruct Hp as [c Hc]. rewrite (cell_load_eq _ _ _ Hv Hc). orun. rewrite seen_None. eapply fine_stay; [done..|by rewrite Ep| |]; cbn; destruct (state c); cbn; eauto.
  - eapply fine_stay; [done..|by rewrite Ep| |]; by destruct (i =? published_ v).
Qed.

Lemma advance_published_fine v ts me t ch o : inv v ts → ts !! me = Some t → advance_published_step ch None v (at_ t) = Some o → fine v ts me o.
Proof.
  intros Hi Ht. pose proof (i_place _ _ Hi me t Ht) as Hp. pose proof (i_vec _ _ Hi) as Hv. pose proof (i_pub _ _ Hi) as Hpub.
  destruct (at_ t) as [| | | | | | | | | |idx|idx cur|idx cur scan|idx cur scan| | | | | | | | | | | | | | | | | | |] eqn:Ep; try done; cbn [advance_published_step]; intros <-%(inj Some); cbn in Hp.
  - eapply fine_stay; [done..|by rewrite Ep|done|done].
  - rewrite is_ready_eq by (done || by eapply below_valid). orun. destruct (cell v cur) as [c|] eqn:Ec;
      [case_bool_decide|]; eapply fine_stay; try (by rewrite Ep); done.
  - pose proof (below_bound _ _ Hv Hp) as Hb. pose proof Hp as [H0 _]. rewrite is_ready_eq by (done || by eapply below_valid). orun.
    destruct (cell v scan) as [c|] eqn:Ec; [case_bool_decide|]; (eapply fine_stay; [done..|by rewrite Ep|done|]); [|done..].
    cbn. rewrite wrap_small by lia. apply below_succ; [done|]. eauto.
  - destruct ((published_ v =? cur) && negb (is_fail ch)); eapply fine_move; try (by rewrite Ep); done.
Qed.

Lemma pop_back_fine v ts me t ch o : inv v ts → ts !! me = Some t → pop_back_step ch None v (at_ t) = Some o → fine v ts me o.
Proof.
  intros Hi Ht. pose proof (i_place _ _ Hi me t Ht) as Hp. pose proof (i_vec _ _ Hi) as Hv. pose proof (i_pub _ _ Hi) as Hpub.
  pose proof (λ i o, i_owns _ _ Hi me t i o Ht) as Hown.
  destruct (at_ t) as [| | | | | | | | | | | | | | |pub|i|i|i|i| | | | | | | | | | | | |] eqn:Ep; try done; cbn [pop_back_step]; intros <-%(inj Some); cbn in Hp.
  - destruct (Z.eqb_spec (published_ v) 0); (eapply fine_stay; [done..|by rewrite Ep|done|]); [done|]. cbn. split; [|done]. destruct Hpub. lia.
  - destruct Hp as [H0 Hb]. pose proof (below_bound _ _ Hv Hb). destruct (below_pred _ _ Hb H0) as [Hb' Hc].
    destruct ((published_ v =? pub) && negb (is_fail ch)); [|by eapply fine_stay; [done..|by rewrite Ep|done|done]].
    rewrite wrap_small by lia. eapply fine_move; [done..|by rewrite Ep|done|done|done|done|done].
  - destruct Hp as [c Hc]. rewrite (cell_load_eq _ _ _ Hv Hc). orun. rewrite seen_None. eapply fine_stay; [done..|by rewrite Ep| |]; cbn; destruct (state c); cbn; eauto.
  - destruct Hp as [c Hc]. rewrite (cell_load_eq _ _ _ Hv Hc). orun. destruct (state c) eqn:Es.
    3: { eapply fine_claim; [done..|by rewrite Ep|done|by right|done|done|by rewrite Es]. }
    all: eapply fine_stay; [done..|by rewrite Ep|done|done].
  - destruct (Hown i _ eq_refl) as (y & Hc & [x ->]). rewrite (destroy_at_eq _ _ _ x Hv Hc). orun.
    eapply fine_owner; [done..|by rewrite Ep|done|done|]. right. exists false. done.
  - destruct (Hown i _ eq_refl) as (y & Hc & ->). rewrite (state_store_eq _ _ _ _ Hv Hc). orun.
    eapply fine_owner; [done..|by rewrite Ep|done|done|]. by left.
Qed.

Lemma erase_fine v ts me t o : inv v ts → ts !! me = Some t → erase_step None v (at_ t) = Some o → fine v ts me o.
Proof.
  intros Hi Ht. pose proof (i_place _ _ Hi me t Ht) as Hp. pose proof (i_vec _ _ Hi) as Hv. pose proof (i_pub _ _ Hi) as Hpub.
  pose proof (λ i o, i_owns _ _ Hi me t i o Ht) as Hown.
  destruct (at_ t) as [| | | | | | | | | | | | | | | | | | | |i|i|i|i|i|i| | | | | | |] eqn:Ep; try done; cbn [erase_step]; intros <-%(inj Some); cbn in Hp.
  - destruct (Z.leb_spec (published_ v) i); (eapply fine_stay; [done..|by rewrite Ep|done|]); [done|]. apply Hpub. lia.
  - assert (Hi' : valid i) by (by eapply cell_valid). destruct (bucket_load_cell v i Hv Hi') as [[_ E]|(b & c & -> & Ec & E)]; [by rewrite E in Hp; destruct Hp|].
    orun. rewrite Ec. orun. rewrite seen_None. eapply fine_stay; [done..|by rewrite Ep| |]; cbn; destruct (state c); cbn; eauto.
  - destruct Hp as [c Hc]. rewrite (cell_load_eq _ _ _ Hv Hc). orun. rewrite seen_None. eapply fine_stay; [done..|by rewrite Ep| |]; cbn; destruct (state c); cbn; eauto.
  - destruct Hp as [c Hc]. rewrite (cell_load_eq _ _ _ Hv Hc). orun. destruct (state c) eqn:Es.
    3: { eapply fine_claim; [done..|by rewrite Ep|done|by right|done|done|by rewrite Es]. }
    all: eapply fine_stay; [done..|by rewrite Ep|done|done].
  - destruct (Hown i _ eq_refl) as (y & Hc & [x ->]). rewrite (destroy_at_eq _ _ _ x Hv Hc). orun.
    eapply fine_owner; [done..|by rewrite Ep|done|done|]. right. exists false. done.
  - destruct (Hown i _ eq_refl) as (y & Hc & ->). rewrite (state_store_eq _ _ _ _ Hv Hc). orun.
    eapply fine_owner; [done..|by rewrite Ep|done|done|]. by left.
Qed.

Lemma shrink_fine v ts me t ch o : inv v ts → ts !! me = Some t → shrink_published_tail_step ch None v (at_ t) = Some o → fine v ts me o.
Proof.
  intros Hi Ht. pose proof (i_place _ _ Hi me t Ht) as Hp. pose proof (i_vec _ _ Hi) as Hv. pose proof (i_pub _ _ Hi) as Hpub.
  destruct (at_ t) as [| | | | | | | | | | | | | | | | | | | | | | | | | | |pub|pub| | | |] eqn:Ep; try done; cbn [shrink_published_tail_step]; intros <-%(inj Some); cbn in Hp.
  - destruct (Z.eqb_spec (published_ v) 0); (eapply fine_stay; [done..|by rewrite Ep|done|]); [done|]. cbn. split; [|done]. destruct Hpub. lia.
  - destruct Hp as [H0 Hb]. pose proof (below_bound _ _ Hv Hb). destruct (below_pred _ _ Hb H0) as [_ Hc].
    rewrite wrap_small by lia. destruct (bucket_load_cell v (pub - 1) Hv (cell_valid _ _ Hv Hc)) as [[_ E]|(b & c & -> & Ec & E)]; [by rewrite E in Hc; destruct Hc|].
    orun. rewrite Ec. orun. rewrite seen_None. eapply fine_stay; [done..|by rewrite Ep| |]; cbn; destruct (state c); cbn; eauto.
  - destruct Hp as [H0 Hb]. pose proof (below_bound _ _ Hv Hb). destruct (below_pred _ _ Hb H0) as [Hb' _]. rewrite wrap_small by lia.
    destruct ((published_ v =? pub) && negb (is_fail ch)); eapply fine_move; try (by rewrite Ep); done.
Qed.

Lemma read_fine v ts me t o : inv v ts → ts !! me = Some t → read_step None v (at_ t) = Some o → fine v ts me o.
Proof.
  intros Hi Ht. pose proof (i_place _ _ Hi me t Ht) as Hp. pose proof (i_vec _ _ Hi) as Hv. pose proof (i_pub _ _ Hi) as Hpub.
  destruct (at_ t) as [| | | | | | | | | | | | | | | | | | | | | | | | | | | | |i|i| |] eqn:Ep; try done; cbn [read_step]; intros <-%(inj Some); cbn in Hp.
  - destruct (bucket_load_cell v i Hv Hp) as [[-> E]|(b & c & -> & Ec & E)]; orun; [by eapply fine_stay; [done..|by rewrite Ep|done|done]|].
    rewrite Ec. orun. rewrite seen_None. destruct (state c) eqn:Es; cbn.
    3: { pose proof (state_settled _ _ _ _ Hi E (or_intror Es)) as Hse. unfold settled in Hse. rewrite Es in Hse. destruct Hse as [x ->]. orun.
         eapply fine_stay; [done..|by rewrite Ep|done|done]. }
    all: eapply fine_stay; [done..|by rewrite Ep|done|done].
  - destruct (Z.leb_spec (published_ v) i); (eapply fine_stay; [done..|by rewrite Ep|done|]); [done|]. cbn.
    pose proof (below_bound _ _ Hv Hpub). unfold valid. lia.
  - eapply fine_stay; [done..|by rewrite Ep|done|done].
Qed.

Lemma reserve_fine v ts me t o : inv v ts → ts !! me = Some t → reserve_step v (at_ t) = Some o → fine v ts me o.
Proof.
  intros Hi Ht. pose proof (i_place _ _ Hi me t Ht) as Hp. pose proof (i_vec _ _ Hi) as Hv.
  destruct (at_ t) as [| | | | | | | | | | | | | | | | | | | | | | | | | | | | | | | |top i] eqn:Ep; try done; cbn [reserve_step]; intros <-%(inj Some); cbn in Hp.
  destruct (Z.ltb_spec top i); [by eapply fine_stay; [done..|by rewrite Ep|done|done]|].
  destruct (bucket_load_in v i Hv ltac:(lia)) as ([b|] & -> & _); orun; (eapply fine_stay; [done..|by rewrite Ep|done|cbn; lia]).
Qed.

Lemma pc_step_fine v ts me t ch o : inv v ts → ts !! me = Some t → pc_step ch None v (at_ t) = Some o → fine v ts me o.
Proof.
  intros Hi Ht H. destruct (at_ t) eqn:Ep; cbn [pc_step] in H; try rewrite <- Ep in H;
    eauto using ensure_bucket_fine, emplace_back_fine, advance_published_fine, pop_back_fine, erase_fine, shrink_fine, read_fine, reserve_fine; done.
Qed.
End inv.
End ConcurrentVectorInv.
