(* ===== verification/ConcurrentVectorPush.v ===== *)
(** Threads that append and read: every index that was handed out is filled with the value
    of its call, the published prefix is full, and whoever fills the cell at its end goes
    on to publish it. *)

From S2P Require Import Prelude ConcurrentVector ConcurrentVectorMem ConcurrentVectorInv.

Module ConcurrentVectorPush.
Import ConcurrentVector ConcurrentVectorMem ConcurrentVectorInv.

Section push.
Context {T : Type}.
Implicit Types (v : LockFreeVector T) (c : Cell T) (p : pc T) (t : thread T) (m : machine T).

(** * The invariant *)

(** The places of [emplace_back], the reading calls and [reserve]; [EWait] is not among
    them: the claim of a cell never fails. *)
Definition push_pc p : bool :=
  match p with
  | EWait _ | PLoad | PCas _ | PWait _ | PClaim _ | PDestroy _ | PStore _
  | RLoad _ | RState _ | RSpin _ | RClaim _ | RDestroy _ | RStore _ | SLoad | SState _ | SCas _ => false
  | _ => true
  end.

(** The index and the value a call has still to store. *)
Definition carries p : option (Z * T) :=
  match p with
  | BLoad _ (ForEmplace i x) | BAlloc _ (ForEmplace i x) | BCas _ (ForEmplace i x) | EState i x | EClaim i x | EConstruct i x => Some (i, x)
  | _ => None
  end.

(** The index whose cell is not [READY] yet. *)
Definition claims p : option Z := match p with EReady i => Some i | _ => fst <$> carries p end.

(** The state its cell is in. *)
Definition phase p : cstate := match owns p with Some _ => WRITING | None => EMPTY end.

Definition ready v (i : Z) : Prop := ∃ c, cell v i = Some c ∧ state c = READY.

Definition local_ok v p : Prop :=
  match p with
  | EPub i | ALoad i => ready v i
  | AHead i cur => ready v i ∧ 0 <= cur <= published_ v
  | AScan i cur scan | ACas i cur scan => ready v i ∧ 0 <= cur <= published_ v ∧ cur <= scan ∧ ∀ j, 0 <= j < scan → ready v j
  | _ => True
  end.

(** The thread will try to publish the cell [n]. *)
Definition resp (n : Z) p : bool :=
  match p with
  | EPub i => i =? n
  | ALoad _ | AHead _ _ | AScan _ _ _ | ACas _ _ _ => true
  | _ => false
  end.

Record pinv (log : list T) v (ts : list (thread T)) (ans : list (nat * result T)) : Prop := {
  p_alloc : alloc_idx_ v = Z.of_nat (length log);
  p_push me t : ts !! me = Some t → push_pc (at_ t) = true;
  p_value i c x : cell v i = Some c → storage c = Some x → log !! Z.to_nat i = Some x;
  p_carries me t i x : ts !! me = Some t → carries (at_ t) = Some (i, x) → log !! Z.to_nat i = Some x;
  p_claims me t i : ts !! me = Some t → claims (at_ t) = Some i →
    0 <= i < alloc_idx_ v ∧ ∀ c, cell v i = Some c → state c = phase (at_ t);
  p_unique me1 me2 t1 t2 i : ts !! me1 = Some t1 → ts !! me2 = Some t2 → claims (at_ t1) = Some i → claims (at_ t2) = Some i → me1 = me2;
  p_cover i : 0 <= i < alloc_idx_ v → ready v i ∨ (∃ me t, ts !! me = Some t ∧ claims (at_ t) = Some i) ∨ RThrow ∈ ans.*2;
  p_pub i : 0 <= i < published_ v → ready v i;
  p_local me t : ts !! me = Some t → local_ok v (at_ t);
  p_resp : ready v (published_ v) → ∃ me t, ts !! me = Some t ∧ resp (published_ v) (at_ t) = true
}.

Lemma local_ok_mono v v' p : (∀ i, ready v i → ready v' i) → published_ v <= published_ v' → local_ok v p → local_ok v' p.
Proof. intros Hr Hp. destruct p; cbn; try done; try apply Hr; [intros [? ?]; split; [by apply Hr|lia]|..]; intros (? & ? & ? & ?); split_and!; try lia; auto. Qed.

Lemma ready_storage v ts i : inv v ts → ready v i → ∃ c x, cell v i = Some c ∧ state c = READY ∧ storage c = Some x.
Proof.
  intros Hi (c & Hc & Hs). pose proof (state_settled _ _ _ _ Hi Hc (or_intror Hs)) as Hse.
  unfold settled in Hse. rewrite Hs in Hse. destruct Hse as [x Hx]. eauto.
Qed.

Lemma claims_owns p i j o : claims p = Some i → owns p = Some (j, o) → j = i.
Proof. destruct p; cbn; intros; by simplify_eq. Qed.

(** * One thread moves *)

Lemma pinv_change log v v' ts ans ans' me t p' : inv v ts → pinv log v ts ans → ts !! me = Some t → alloc_idx_ v' = alloc_idx_ v →
  push_pc p' = true → local_ok v' p' →
  (∀ i, ready v i → ready v' i) →
  (∀ j c, cell v' j = Some c → cell v j = Some c ∨ (c = Cell_new ∧ cell v j = None) ∨ claims (at_ t) = Some j) →
  (∀ i c x, claims (at_ t) = Some i → cell v' i = Some c → storage c = Some x → log !! Z.to_nat i = Some x) →
  (claims p' = claims (at_ t) ∨ claims p' = None) → (∀ i c, claims p' = Some i → cell v' i = Some c → state c = phase p') →
  (∀ i x, carries p' = Some (i, x) → carries (at_ t) = Some (i, x)) →
  (∀ i, claims (at_ t) = Some i → claims p' = Some i ∨ ready v' i ∨ RThrow ∈ ans'.*2) → (RThrow ∈ ans.*2 → RThrow ∈ ans'.*2) →
  published_ v <= published_ v' → (∀ i, 0 <= i < published_ v' → ready v' i) →
  (ready v' (published_ v') → resp (published_ v') p' = true ∨ published_ v' = published_ v ∧ ready v (published_ v) ∧ resp (published_ v) (at_ t) = false) →
  pinv log v' (<[me := mkThread p' None]> ts) ans'.
Proof.
  intros Hinv Hi Ht Ha Hpush Hloc Hrdy Hcells Hval Hcl Hcl' Hcar Hcov Hthr Hle Hpub Hresp.
  assert (Hcase : ∀ me' t', <[me := mkThread p' None]> ts !! me' = Some t' → (me' = me ∧ t' = mkThread p' None) ∨ (me' ≠ me ∧ ts !! me' = Some t')).
  { intros me' t' H. apply list_lookup_insert_Some in H as [(-> & <- & _)|[? ?]]; eauto. }
  assert (Hme : <[me := mkThread p' None]> ts !! me = Some (mkThread p' None)) by (apply list_lookup_insert_eq; by eapply lookup_lt_Some).
  assert (Hsub : ∀ i, claims p' = Some i → claims (at_ t) = Some i) by (intros i Hx; destruct Hcl; congruence).
  constructor.
  - rewrite Ha. by eapply p_alloc.
  - intros me' t' [[-> ->]|[_ H]]%Hcase; [done|]. by eapply p_push.
  - intros i c x Hc Hx. destruct (Hcells i c Hc) as [?|[[-> _]|?]]; [by eapply p_value|done|by eapply Hval].
  - intros me' t' i x [[-> ->]|[_ H]]%Hcase Hx; [|by eapply p_carries]. eapply p_carries; [done..|]. by apply Hcar.
  - intros me' t' i [[-> ->]|[Hn H]]%Hcase Hx; rewrite Ha.
    { split; [|intros c; by apply Hcl']. by destruct (p_claims _ _ _ _ Hi _ _ _ Ht (Hsub _ Hx)). }
    destruct (p_claims _ _ _ _ Hi _ _ _ H Hx) as [Hb Hs]. split; [done|]. intros c Hc.
    destruct (Hcells i c Hc) as [?|[[-> E]|E]]; [by apply Hs| |by destruct Hn; eapply (p_unique _ _ _ _ Hi)].
    unfold phase. destruct (owns (at_ t')) as [[j o]|] eqn:Eo; [|done]. rewrite (claims_owns _ _ _ _ Hx Eo) in Eo.
    destruct (i_owns _ _ Hinv _ _ _ _ H Eo) as (y & Hy & _). congruence.
  - intros me1 me2 t1 t2 i [[-> ->]|[H1 H1']]%Hcase [[-> ->]|[H2 H2']]%Hcase Hc1 Hc2; [done|..|by eapply p_unique].
    + eapply p_unique; [done|exact Ht|done|by apply Hsub|done].
    + eapply p_unique; [done|done|exact Ht|done|by apply Hsub].
  - intros i Hb. rewrite Ha in Hb. destruct (p_cover _ _ _ _ Hi i Hb) as [?|[(me' & t' & H & Hx)|?]]; [by left; apply Hrdy| |right; right; by apply Hthr].
    destruct (decide (me' = me)) as [->|Hn].
    + simplify_eq. destruct (Hcov i Hx) as [?|[?|?]]; [right; left; eauto|by left|by right; right].
    + right. left. exists me', t'. by rewrite list_lookup_insert_ne.
  - done.
  - intros me' t' [[-> ->]|[_ H]]%Hcase; [done|]. eapply local_ok_mono; [done..|]. by eapply p_local.
  - intros Hr. destruct (Hresp Hr) as [?|(E & Hr' & Ef)]; [eauto|]. rewrite E.
    destruct (p_resp _ _ _ _ Hi Hr') as (me' & t' & H & Hx). exists me', t'. split; [|done].
    rewrite list_lookup_insert_ne; [done|]. intros <-. simplify_eq. congruence.
Qed.

(** It changes no cell and publishes nothing. *)
Lemma pinv_move log v ts ans ans' me t p' : inv v ts → pinv log v ts ans → ts !! me = Some t →
  push_pc p' = true → local_ok v p' → owns p' = owns (at_ t) → (RThrow ∈ ans.*2 → RThrow ∈ ans'.*2) →
  (claims p' = claims (at_ t) ∨ claims p' = None ∧ RThrow ∈ ans'.*2) → carries p' = carries (at_ t) ∨ carries p' = None →
  (ready v (published_ v) → resp (published_ v) (at_ t) = true → resp (published_ v) p' = true) →
  pinv log v (<[me := mkThread p' None]> ts) ans'.
Proof.
  intros Hinv Hi Ht Hpush Hloc Ho Hthr Hcl Hcar Hresp. eapply pinv_change; try done; try lia; eauto.
  - intros i c x _. by eapply p_value.
  - destruct Hcl as [?|[? _]]; [by left|by right].
  - intros i c Hx. destruct Hcl as [E|[E _]]; rewrite E in Hx; [|done]. unfold phase. rewrite Ho. by destruct (p_claims _ _ _ _ Hi _ _ _ Ht Hx) as [_ H]; eauto.
  - intros i x Hx. destruct Hcar as [E|E]; congruence.
  - intros i Hx. destruct Hcl as [E|[_ E]]; [left; congruence|eauto].
  - by eapply p_pub.
  - intros Hr. destruct (resp (published_ v) (at_ t)) eqn:E; [left; by apply Hresp|by right].
Qed.

(** It adds a bucket. *)
Lemma pinv_grow log v ts ans me t p' L : inv v ts → pinv log v ts ans → ts !! me = Some t → 0 <= L <= 24 → buckets_ v !! Z.to_nat L = Some None →
  push_pc p' = true → (∀ w, local_ok w p') → owns p' = None → owns (at_ t) = None → claims p' = claims (at_ t) → carries p' = carries (at_ t) →
  resp (published_ v) (at_ t) = false →
  pinv log (grow v L) (<[me := mkThread p' None]> ts) ans.
Proof.
  intros Hinv Hi Ht HL Hn Hpush Hloc Ho Ho' Hcl Hcar Hresp. pose proof (i_vec _ _ Hinv) as Hv.
  assert (Hkeep : ∀ j c, cell v j = Some c → cell (grow v L) j = Some c) by (intros; apply cell_grow_some; [done|lia|done..]).
  assert (Hcells : ∀ j c, cell (grow v L) j = Some c → cell v j = Some c ∨ c = Cell_new ∧ cell v j = None).
  { intros j c H. destruct (cell v j) as [c0|] eqn:E; [rewrite (Hkeep _ _ E) in H; by left|]. right. split; [|done].
    rewrite cell_grow in H by (done || lia). case_bool_decide; congruence. }
  assert (Hr : ∀ i, ready v i → ready (grow v L) i) by (intros i (c & Hc & Hs); exists c; eauto).
  eapply pinv_change; try done; try lia; eauto.
  - intros j c Hc. destruct (Hcells j c Hc) as [?|?]; eauto.
  - intros i c x _ Hc Hx. destruct (Hcells i c Hc) as [?|[-> _]]; [by eapply p_value|done].
  - intros i c Hx Hc. rewrite Hcl in Hx. unfold phase. rewrite Ho. destruct (Hcells i c Hc) as [?|[-> _]]; [|done].
    destruct (p_claims _ _ _ _ Hi _ _ _ Ht Hx) as [_ H1]. unfold phase in H1. rewrite Ho' in H1. by apply H1.
  - intros i x. by rewrite Hcar.
  - intros i Hx. left. congruence.
  - intros i Hb. apply Hr. by eapply p_pub.
  - intros (c & Hc & Hs). right. split_and!; [done| |done]. destruct (Hcells _ c Hc) as [?|[-> _]]; [by exists c|done].
Qed.

(** It writes the cell it has to fill. *)
Lemma pinv_write log v ts ans me t p' i c c' : inv v ts → pinv log v ts ans → ts !! me = Some t → cell v i = Some c → claims (at_ t) = Some i →
  state c ≠ READY → push_pc p' = true → (∀ x, storage c' = Some x → log !! Z.to_nat i = Some x) → resp (published_ v) (at_ t) = false →
  (claims p' = Some i ∧ (∀ w, local_ok w p') ∧ state c' = WRITING ∧ is_Some (owns p') ∧ resp (published_ v) p' = false ∧
     (∀ i x, carries p' = Some (i, x) → carries (at_ t) = Some (i, x)) ∨
   p' = EPub i ∧ state c' = READY) →
  pinv log (set_cell v i c') (<[me := mkThread p' None]> ts) ans.
Proof.
  intros Hinv Hi Ht Hc Hcl Hnr Hpush Hval Hresp Hp'. assert (H0 : 0 <= i) by (by apply cell_inv in Hc as [? _]).
  assert (Hs : cell (set_cell v i c') i = Some c') by (apply cell_set_eq; eauto).
  assert (Hr : ∀ j, ready v j → ready (set_cell v i c') j).
  { intros j (c0 & Hc0 & Hs0). exists c0. rewrite cell_set_ne; [done|done|]. intros <-. simplify_eq. }
  eapply pinv_change; try done; try lia; eauto.
  - destruct Hp' as [(_ & H & _)|[-> H]]; [done|]. cbn. by exists c'.
  - intros j c0. destruct (decide (i = j)) as [<-|Hn]; [by right; right|]. rewrite cell_set_ne by done. by left.
  - intros j c0 x Hj. rewrite Hcl in Hj. simplify_eq. rewrite Hs. intros [= <-]. apply Hval.
  - destruct Hp' as [(H & _)|[-> H]]; [left; congruence|by right].
  - intros j c0 Hj. destruct Hp' as [(H & _ & Hw & [o Ho] & _)|[-> H]]; [|done]. rewrite H in Hj. simplify_eq. unfold phase. rewrite Hs, Ho. by intros [= <-].
  - intros j x Hj. destruct Hp' as [(H & _ & Hw & Ho & _ & Hcar)|[-> H]]; [by apply Hcar|done].
  - intros j Hj. rewrite Hcl in Hj. simplify_eq. destruct Hp' as [(H & _)|[-> H]]; [by left|right; left; by exists c'].
  - intros j Hb. apply Hr. by eapply p_pub.
  - intros Hrd. cbn [published_ set_cell] in *. destruct (decide (i = published_ v)) as [E|Hn].
    + destruct Hp' as [(_ & _ & Hw & _)|[-> _]]; [|left; cbn; lia]. destruct Hrd as (c0 & Hc0 & Hs0). rewrite <- E, Hs in Hc0. simplify_eq. congruence.
    + right. split_and!; [done| |done]. destruct Hrd as (c0 & Hc0 & Hs0). exists c0. by rewrite cell_set_ne in Hc0.
Qed.

(** It publishes the cells it has found [READY]. *)
Lemma pinv_publish log v ts ans me t i cur scan : inv v ts → pinv log v ts ans → ts !! me = Some t → at_ t = ACas i cur scan → published_ v = cur →
  pinv log {| v with published_ := scan |} (<[me := mkThread (ALoad i) None]> ts) ans.
Proof.
  intros Hinv Hi Ht Ep Hcur. destruct v as [al pu bs]. cbn in *. subst pu.
  pose proof (p_local _ _ _ _ Hi _ _ Ht) as Hl. rewrite Ep in Hl. cbn in Hl. destruct Hl as (Hrd & Hcur & Hsc & Hall).
  eapply pinv_change; try done; rewrite ?Ep; try done; eauto; cbn; try lia; eauto.
Qed.

(** * Every step keeps the invariant *)

Definition answered (me : nat) (n : next T) (ans : list (nat * result T)) : list (nat * result T) :=
  match n with Goto _ => ans | Return r => (me, r) :: ans end.

Lemma answered_throw me n ans : RThrow ∈ ans.*2 → RThrow ∈ (answered me n ans).*2.
Proof. destruct n; [done|]. cbn. intros H. by apply elem_of_cons; right. Qed.

(** What one step of thread [me] has to show. *)
Definition kept log ts ans me (o : outcome (LockFreeVector T * next T)) : Prop :=
  ∀ v' n, o = Done (v', n) → pinv log v' (<[me := mkThread (pc_of n) None]> ts) (answered me n ans).

Lemma kept_move log v ts ans me t n : inv v ts → pinv log v ts ans → ts !! me = Some t →
  push_pc (pc_of n) = true → local_ok v (pc_of n) → owns (pc_of n) = owns (at_ t) →
  (claims (pc_of n) = claims (at_ t) ∨ claims (pc_of n) = None ∧ n = Return RThrow) → carries (pc_of n) = carries (at_ t) ∨ carries (pc_of n) = None →
  (ready v (published_ v) → resp (published_ v) (at_ t) = true → resp (published_ v) (pc_of n) = true) →
  kept log ts ans me (Done (v, n)).
Proof.
  intros Hinv Hi Ht Hpush Hloc Ho Hcl Hcar Hresp v' n' [= <- <-]. eapply pinv_move; try done; [apply answered_throw|].
  destruct Hcl as [?|[? ->]]; [by left|]. right. split; [done|]. by left.
Qed.

Lemma kept_bind {A} (o : outcome A) log ts ans me f : (∀ a, o = Done a → kept log ts ans me (f a)) → kept log ts ans me (a ← o; f a).
Proof. intros H v' n Hd. apply bind_Done in Hd as (a & Ha & Hf). by eapply H. Qed.

(** A step that only moves its thread. *)
Local Ltac kmove Ep := eapply kept_move; [eassumption|eassumption|eassumption|..]; rewrite ?Ep; cbn.

Lemma ensure_bucket_kept log v ts ans me t ch o : inv v ts → pinv log v ts ans → ts !! me = Some t →
  ensure_bucket_step ch v (at_ t) = Some o → kept log ts ans me o.
Proof.
  intros Hinv Hi Ht. pose proof (i_place _ _ Hinv me t Ht) as Hp. pose proof (i_vec _ _ Hinv) as Hv.
  destruct (at_ t) as [|L k|L k|L k| | | | | | | | | | | | | | | | | | | | | | | | | | | | |] eqn:Ep; try done; cbn [ensure_bucket_step]; intros <-%(inj Some); cbn in Hp.
  - apply kept_bind. intros [b|] _; (kmove Ep; destruct k; cbn); eauto; done.
  - destruct ((MAX_BUCKET <? pow2 L) || is_fail ch); (kmove Ep; destruct k; cbn); eauto; done.
  - destruct Hp as [Hp HL]. destruct (caller_ok_level _ _ Hp) as [H0 H1].
    destruct (bucket_load_in v L Hv (conj H0 H1)) as ([b|] & -> & Hb); orun.
    { kmove Ep; destruct k; cbn; eauto; done. }
    rewrite awrite_in by (rewrite (v_levels _ Hv); change (Z.of_nat MAX_LEVELS) with 64; lia). orun. rewrite pow2_eq by lia.
    intros v' n [= <- <-]. change (pinv log (grow v L) (<[me := mkThread (pc_of (ensured k)) None]> ts) (answered me (ensured k) ans)).
    replace (answered me (ensured k) ans) with ans by (by destruct k).
    eapply pinv_grow; try done; rewrite ?Ep; try (by destruct k); lia.
Qed.

Lemma emplace_back_kept log v ts ans me t o : inv v ts → pinv log v ts ans → ts !! me = Some t →
  emplace_back_step None v (at_ t) = Some o → kept log ts ans me o.
Proof.
  intros Hinv Hi Ht. pose proof (i_place _ _ Hinv me t Ht) as Hp. pose proof (i_vec _ _ Hinv) as Hv. pose proof (p_push _ _ _ _ Hi _ _ Ht) as Hpush.
  pose proof (λ i o, i_owns _ _ Hinv me t i o Ht) as Hown. pose proof (λ i, p_claims _ _ _ _ Hi me t i Ht) as Hcl.
  pose proof (λ i x, p_carries _ _ _ _ Hi me t i x Ht) as Hcar.
  destruct (at_ t) as [| | | |i x|i x|i x|i|i|i| | | | | | | | | | | | | | | | | | | | | | |] eqn:Ep; try done; cbn [emplace_back_step]; intros <-%(inj Some); cbn in Hp.
  - destruct Hp as [c Hc]. rewrite (cell_load_eq _ _ _ Hv Hc). orun. rewrite seen_None. destruct (Hcl i eq_refl) as [_ Hs]. rewrite (Hs c Hc). cbn.
    kmove Ep; eauto; done.
  - destruct Hp as [c Hc]. rewrite (cell_load_eq _ _ _ Hv Hc). orun. destruct (Hcl i eq_refl) as [_ Hs]. pose proof (Hs c Hc) as E. cbn in E. rewrite E.
    rewrite (state_store_eq _ _ _ _ Hv Hc). orun. intros v' n [= <- <-].
    eapply pinv_write; [done..|by rewrite Ep|by rewrite E|done| |by rewrite Ep|].
    + intros y Hy. by eapply (p_value _ _ _ _ Hi i _ y Hc).
    + left. rewrite Ep. cbn. split_and!; eauto.
  - destruct (Hown i _ eq_refl) as (y & Hc & ->). rewrite (construct_at_eq _ _ _ x Hv Hc). orun. intros v' n [= <- <-].
    eapply pinv_write; [done..|by rewrite Ep|done|done| |by rewrite Ep|].
    + intros y. cbn. intros [= <-]. by apply Hcar.
    + left. cbn. split_and!; eauto; done.
  - destruct (Hown i _ eq_refl) as (y & Hc & Hy). rewrite (state_store_eq _ _ _ _ Hv Hc). orun. intros v' n [= <- <-].
    eapply pinv_write; [done..|by rewrite Ep|done|done| |by rewrite Ep|by right].
    intros x Hx. by eapply (p_value _ _ _ _ Hi i _ x Hc).
  - pose proof (p_local _ _ _ _ Hi _ _ Ht) as Hl. rewrite Ep in Hl. destruct (Z.eqb_spec i (published_ v)); kmove Ep; eauto; try done.
    intros _ ?%Z.eqb_eq. done.
Qed.

Lemma advance_published_kept log v ts ans me t ch o : inv v ts → pinv log v ts ans → ts !! me = Some t →
  advance_published_step ch None v (at_ t) = Some o → kept log ts ans me o.
Proof.
  intros Hinv Hi Ht. pose proof (i_place _ _ Hinv me t Ht) as Hp. pose proof (i_vec _ _ Hinv) as Hv.
  pose proof (p_local _ _ _ _ Hi _ _ Ht) as Hl. pose proof (i_pub _ _ Hinv) as [H0 _].
  assert (Hnr : ∀ n, match cell v n with Some c => bool_decide (state c = READY) | None => false end = true ↔ ready v n).
  { intros n. unfold ready. destruct (cell v n) as [c|]; [rewrite bool_decide_eq_true; naive_solver|]. split; [done|by intros (c & ? & _)]. }
  destruct (at_ t) as [| | | | | | | | | |idx|idx cur|idx cur scan|idx cur scan| | | | | | | | | | | | | | | | | | |] eqn:Ep; try done; cbn [advance_published_step]; intros <-%(inj Some); cbn in Hp, Hl.
  - kmove Ep; eauto; try done; lia.
  - destruct Hl as [Hl Hc]. rewrite is_ready_eq by (done || by eapply below_valid). orun. specialize (Hnr cur).
    destruct (match cell v cur with Some c => bool_decide (state c = READY) | None => false end) eqn:E.
    + kmove Ep; eauto; try done. split_and!; [done|lia|lia|lia|]. intros j Hj. apply (p_pub _ _ _ _ Hi). lia.
    + kmove Ep; eauto; try done. intros Hr _. exfalso.
      destruct (decide (cur = published_ v)) as [->|]; [apply Hnr in Hr; congruence|].
      assert (ready v cur) as Hr' by (apply (p_pub _ _ _ _ Hi); lia). apply Hnr in Hr'. congruence.
  - destruct Hl as (Hl & Hc & Hs & Hall). pose proof (below_bound _ _ Hv Hp) as Hb. rewrite is_ready_eq by (done || by eapply below_valid). orun. specialize (Hnr scan).
    destruct (match cell v scan with Some c => bool_decide (state c = READY) | None => false end) eqn:E.
    + kmove Ep; eauto; try done. rewrite wrap_small by lia. split_and!; [done|lia|lia|lia|].
      intros j Hj. destruct (decide (j = scan)) as [->|]; [by apply Hnr|]. apply Hall. lia.
    + kmove Ep; eauto; done.
  - destruct ((published_ v =? cur) && negb (is_fail ch)) eqn:E.
    + apply andb_true_iff in E as [E%Z.eqb_eq _]. intros v' n [= <- <-]. by eapply pinv_publish.
    + destruct Hl as (Hl & _). kmove Ep; eauto; done.
Qed.

Lemma read_kept log v ts ans me t o : inv v ts → pinv log v ts ans → ts !! me = Some t → read_step None v (at_ t) = Some o → kept log ts ans me o.
Proof.
  intros Hinv Hi Ht.
  destruct (at_ t) as [| | | | | | | | | | | | | | | | | | | | | | | | | | | | |i|i| |] eqn:Ep; try done; cbn [read_step]; intros <-%(inj Some).
  - apply kept_bind. intros [b|] _; [apply kept_bind; intros c _; destruct (seen None i (state c)); [..|apply kept_bind; intros x _|]|];
      kmove Ep; eauto; done.
  - destruct (published_ v <=? i); kmove Ep; eauto; done.
  - kmove Ep; eauto; done.
Qed.

Lemma reserve_kept log v ts ans me t o : inv v ts → pinv log v ts ans → ts !! me = Some t → reserve_step v (at_ t) = Some o → kept log ts ans me o.
Proof.
  intros Hinv Hi Ht.
  destruct (at_ t) as [| | | | | | | | | | | | | | | | | | | | | | | | | | | | | | | |top i] eqn:Ep; try done; cbn [reserve_step]; intros <-%(inj Some).
  destruct (top <? i); [|apply kept_bind; intros [b|] _]; kmove Ep; eauto; done.
Qed.

Lemma pc_step_kept log v ts ans me t ch o : inv v ts → pinv log v ts ans → ts !! me = Some t → pc_step ch None v (at_ t) = Some o → kept log ts ans me o.
Proof.
  intros Hinv Hi Ht H. pose proof (p_push _ _ _ _ Hi _ _ Ht) as Hpush. destruct (at_ t) eqn:Ep; cbn [pc_step push_pc] in *; try done; rewrite <- Ep in H;
    eauto using ensure_bucket_kept, emplace_back_kept, advance_published_kept, read_kept, reserve_kept.
Qed.
End push.
End ConcurrentVectorPush.
