(* ===== verification/ConcurrentVectorCorrect.v ===== *)
(** The lock-free vector keeps its cells intact under every interleaving of its operations;
    when threads only append and read, everything appended is published.  After a
    [pop_back], and on processors that delay stores, it is not. *)

From S2P Require Import Prelude ConcurrentVector ConcurrentVectorMem ConcurrentVectorInv ConcurrentVectorPush.

Module ConcurrentVectorCorrect.
Import ConcurrentVector ConcurrentVectorMem ConcurrentVectorInv ConcurrentVectorPush.

Section correct.
Context {T : Type}.
Implicit Types (v : LockFreeVector T) (t : thread T) (m : machine T) (a : action T) (l : list (action T)) (log : list T).

(** * Programs *)

(** Indices and sizes are [size_t]; [operator[]] is not called with the greatest one. *)
Definition call_ok (c : call T) : Prop :=
  match c with Erase i | At i | Reserve i => 0 <= i | Index i => valid i | _ => True end.

(** Calls and steps, without delayed stores. *)
Definition sc_action a : Prop := match a with Call _ c => call_ok c | Step _ ch => ch ≠ Late | Drain _ => False end.

Definition push_call (c : call T) : Prop := match c with PopBack | Erase _ => False | _ => True end.
Definition push_action a : Prop := match a with Call _ c => push_call c | _ => True end.

(** The values that are appended, in the order in which the calls begin. *)
Definition emplaced l : list T := omap (λ a, match a with Call _ (Emplace x) => Some x | _ => None end) l.

Lemma emplaced_snoc l a : emplaced (l ++ [a]) = emplaced l ++ (match a with Call _ (Emplace x) => [x] | _ => [] end).
Proof. unfold emplaced. rewrite omap_app. destruct a as [me []| |]; done. Qed.

Lemma run_snoc l a m : run (l ++ [a]) m = match run l m with Some (Done m') => act a m' | o => o end.
Proof.
  revert m. induction l as [|b l IH]; intros m; cbn; [by destruct (act a m) as [[]|]|].
  destruct (act b m) as [[m'| |]|]; [apply IH|done..].
Qed.

(** ** The actions *)

Lemma continue_eq me t m v n : buf t = None →
  continue me t m (v, n) = mkMachine v (<[me := mkThread (pc_of n) None]> (threads m)) (answered me n (answers m)).
Proof. destruct t as [p b]. cbn. intros ->. by destruct n. Qed.

Lemma act_step m me t ch : threads m !! me = Some t → buf t = None → ch ≠ Late →
  act (Step me ch) m = (r ← pc_step ch None (vec m) (at_ t); Some (x ← r; Done (continue me t m x))).
Proof. intros Ht Hb Hc. unfold act. rewrite Ht. destruct t as [p b]. cbn in Hb. subst b. cbn [mbind option_bind at_ buf]. by destruct p, ch. Qed.

(** An action is the start of a call or a step of a thread whose store buffer is empty. *)
Lemma vec_act_inv a m o : inv (vec m) (threads m) → sc_action a → act a m = Some o → ∃ me t, threads m !! me = Some t ∧ buf t = None ∧
  ((∃ c, a = Call me c ∧ at_ t = Idle ∧ o = Done (continue me t m (start c (vec m)))) ∨
   (∃ ch r, a = Step me ch ∧ pc_step ch None (vec m) (at_ t) = Some r ∧ o = (x ← r; Done (continue me t m x)))).
Proof.
  intros Hi Hs Ha. destruct a as [me c|me ch|me]; [..|done]; cbn in Hs.
  - cbn in Ha. destruct (threads m !! me) as [t|] eqn:Ht; [|done]. cbn in Ha. exists me, t. pose proof (i_buf _ _ Hi _ _ Ht) as Hb.
    rewrite Hb in Ha. split_and!; [done|done|]. left. exists c. destruct (at_ t); try done. split_and!; [done|done|congruence].
  - destruct (threads m !! me) as [t|] eqn:Ht; [|by cbn in Ha; rewrite Ht in Ha].
    pose proof (i_buf _ _ Hi _ _ Ht) as Hb. rewrite (act_step _ _ _ _ Ht Hb Hs) in Ha.
    destruct (pc_step ch None (vec m) (at_ t)) as [r|] eqn:Er; [|done]. exists me, t. split_and!; [done|done|]. right. exists ch, r.
    split_and!; [done|done|]. cbn in Ha. congruence.
Qed.

(** * Safety *)

Lemma vec_start_inv v ts me t c : inv v ts → ts !! me = Some t → at_ t = Idle → call_ok c → 0 <= alloc_idx_ v < 2 ^ 64 - 1 →
  inv (start c v).1 (<[me := mkThread (pc_of (start c v).2) None]> ts).
Proof.
  intros Hi Ht Ep Hc Ha. pose proof (i_pub _ _ Hi) as Hp. destruct c as [x| |i|i|i| |n]; cbn in *; unfold reserve_start;
    try (eapply inv_move; [done..|by rewrite Ep|done|done|done|done]).
  - eapply inv_move; [done..|by rewrite Ep|done|done|done|]. cbn. rewrite locate_eq; done.
  - destruct (Z.eqb_spec n 0); cbn; (eapply inv_move; [done..|by rewrite Ep|done|done|done|]); [done|]. cbn.
    set (k := (if SOFT_MAX <? n then SOFT_MAX else n) - 1).
    assert (Hk : 0 <= k < 2 ^ 27) by (unfold k, SOFT_MAX; rewrite Z.shiftl_1_l; destruct (Z.ltb_spec (2 ^ 27) n); lia).
    rewrite locate_eq by (unfold valid; lia). cbn. split; [done|]. enough (level k < 64) by done. apply level_lt; lia.
Qed.

Lemma start_alloc c v : 0 <= alloc_idx_ v < 2 ^ 64 - 1 → alloc_idx_ (start c v).1 = alloc_idx_ v + match c with Emplace _ => 1 | _ => 0 end.
Proof. intros H. destruct c; cbn; unfold reserve_start; try lia; [by apply wrap_small; lia|]. destruct (n =? 0); cbn; lia. Qed.

Lemma vec_inv_init n : inv (vec (init n)) (threads (init n) : list (thread T)).
Proof.
  assert (H : ∀ me t, threads (@init T n) !! me = Some t → t = mkThread Idle None).
  { intros me t Hl. by apply lookup_replicate in Hl as [-> _]. }
  constructor; [apply vec_ok_new|split; [done|cbn; lia]|..].
  - intros i c Hc. cbn [vec init] in Hc. by rewrite cell_new in Hc.
  - by intros me t ->%H.
  - by intros me t ->%H.
  - by intros me t i o ->%H.
  - by intros me1 me2 t1 t2 i o1 o2 ->%H.
Qed.

(** One action of a run. *)
Lemma act_safe a m o : inv (vec m) (threads m) → sc_action a → 0 <= alloc_idx_ (vec m) < 2 ^ 64 - 1 → act a m = Some o →
  ∃ m', o = Done m' ∧ inv (vec m') (threads m') ∧
    alloc_idx_ (vec m') = alloc_idx_ (vec m) + match a with Call _ (Emplace _) => 1 | _ => 0 end.
Proof.
  intros Hi Hs Ha H. destruct (vec_act_inv a m o Hi Hs H) as (me & t & Ht & Hb & [(c & -> & Ep & ->)|(ch & r & -> & Hr & ->)]).
  - destruct (start c (vec m)) as [v' nx] eqn:E. rewrite continue_eq by done. eexists. split; [done|]. cbn [vec threads].
    split; [|pose proof (start_alloc c _ Ha) as H'; rewrite E in H'; done].
    pose proof (vec_start_inv _ _ _ _ c Hi Ht Ep Hs Ha) as H'. by rewrite E in H'.
  - destruct (pc_step_fine _ _ _ _ _ _ Hi Ht Hr) as (v' & nx & -> & Ea & Hi'). orun. rewrite continue_eq by done.
    eexists. split_and!; [done..|]. cbn. lia.
Qed.

Lemma run_safe n l o : Forall sc_action l → Z.of_nat (length (emplaced l)) < 2 ^ 64 - 1 → run l (init n) = Some o →
  ∃ m, o = Done m ∧ inv (vec m) (threads m) ∧ alloc_idx_ (vec m) = Z.of_nat (length (emplaced l)).
Proof.
  revert o. induction l as [|a l IH] using rev_ind; intros o Hs Hl Hr.
  { injection Hr as <-. eexists. split_and!; [done|apply vec_inv_init|done]. }
  apply Forall_app in Hs as [Hs Ha]. rewrite Forall_singleton in Ha. rewrite emplaced_snoc, length_app in *. rewrite run_snoc in Hr.
  destruct (run l (init n)) as [o'|] eqn:E; [|done]. destruct (IH o' Hs ltac:(lia) eq_refl) as (m & -> & Hi & Hal).
  destruct (act_safe a m o Hi Ha ltac:(lia) Hr) as (m' & -> & Hi' & Ea). exists m'. split_and!; [done|done|].
  rewrite Ea, Hal. destruct a as [me []| |]; cbn; lia.
Qed.

(** Thread [me] has claimed the cell [i], to fill it or to empty it. *)
Definition owner m (me : nat) (i : Z) : Prop := ∃ t o, threads m !! me = Some t ∧ owns (at_ t) = Some (i, o).

(** ** Every operation is safe *)

(** C27: the cells keep their type: whatever sequence of calls and steps the threads make (appending, popping,
    erasing, reading and reserving, with failing allocations), no step reads or writes outside a bucket, constructs
    an object over another or destroys one twice; a [READY] cell holds an object, an [EMPTY] one does not, and a cell
    in between belongs to exactly one thread; all cells below [published_] exist. *)
Theorem vector_cells_typed n l o : Forall sc_action l → Z.of_nat (length (emplaced l)) < 2 ^ 64 - 1 → run l (init n) = Some o →
  ∃ m, o = Done m ∧
    (∀ i c, cell (vec m) i = Some c →
      match state c with
      | EMPTY => storage c = None
      | READY => is_Some (storage c)
      | WRITING | DELETING => ∃ me, ∀ me', owner m me' i ↔ me' = me
      end) ∧
    (∀ i, 0 <= i < published_ (vec m) → is_Some (cell (vec m) i)).
Proof.
  intros Hs Hl Hr. destruct (run_safe n l o Hs Hl Hr) as (m & -> & Hi & _). exists m. split_and!; [done| |apply (i_pub _ _ Hi)].
  intros i c Hc.
  assert (Hone : settled c ∨ ∃ me, ∀ me', owner m me' i ↔ me' = me).
  { destruct (i_cell _ _ Hi i c Hc) as [?|(me & t & o & Ht & Ho)]; [by left|]. right. exists me. intros me'.
    split; [|intros ->; by exists t, o]. intros (t' & o' & Ht' & Ho'). by eapply i_unique. }
  pose proof (state_settled _ _ _ _ Hi Hc) as Hse. unfold settled in *. destruct (state c); try tauto; destruct Hone; done.
Qed.

(** * Appending and reading *)

Definition appended (c : call T) : list T := match c with Emplace x => [x] | _ => [] end.

Lemma pinv_init n : pinv [] (vec (init n)) (threads (init n) : list (thread T)) [].
Proof.
  assert (H : ∀ me t, threads (@init T n) !! me = Some t → t = mkThread Idle None).
  { intros me t Hl. by apply lookup_replicate in Hl as [-> _]. }
  constructor; try (by intros me t ->%H); try (by intros me t i ->%H); try (by intros me t i x ->%H); try (cbn; lia); [|..].
  - intros i c x Hc. cbn [vec init] in Hc. by rewrite cell_new in Hc.
  - by intros me1 me2 t1 t2 i ->%H.
  - intros (c & Hc & _). cbn [vec init] in Hc. by rewrite cell_new in Hc.
Qed.

(** Nothing was ever written at or beyond [alloc_idx_]. *)
Lemma beyond_empty log v ts ans i c : inv v ts → pinv log v ts ans → alloc_idx_ v <= i → cell v i = Some c → state c = EMPTY.
Proof.
  intros Hinv Hi Hb Hc. pose proof (cell_inv _ _ _ Hc) as [H0 _]. destruct (i_cell _ _ Hinv i c Hc) as [Hs|(me & t & o & Ht & Ho)].
  - unfold settled in Hs. destruct (state c) eqn:E; try done. destruct Hs as [x Hx].
    pose proof (p_value _ _ _ _ Hi i c x Hc Hx) as Hl. apply lookup_lt_Some in Hl. rewrite (p_alloc _ _ _ _ Hi) in Hb. lia.
  - assert (Hcl : claims (at_ t) = Some i).
    { pose proof (p_push _ _ _ _ Hi _ _ Ht) as Hp. destruct (at_ t); cbn in *; simplify_eq; done. }
    destruct (p_claims _ _ _ _ Hi _ _ _ Ht Hcl) as [? _]. lia.
Qed.

(** A call of [emplace_back] takes the next index for its value. *)
Lemma emplace_push log v ts ans me t x : inv v ts → pinv log v ts ans → ts !! me = Some t → at_ t = Idle → 0 <= alloc_idx_ v < 2 ^ 64 - 1 →
  pinv (log ++ [x]) {| v with alloc_idx_ := wrap 64 (alloc_idx_ v + 1) |}
    (<[me := mkThread (BLoad (locate (alloc_idx_ v)).1 (ForEmplace (alloc_idx_ v) x)) None]> ts) ans.
Proof.
  intros Hinv Hi Ht Ep Ha. set (p' := BLoad _ _). rewrite wrap_small by lia.
  assert (Hcase : ∀ me' t', <[me := mkThread p' None]> ts !! me' = Some t' → (me' = me ∧ t' = mkThread p' None) ∨ (me' ≠ me ∧ ts !! me' = Some t')).
  { intros me' t' H. apply list_lookup_insert_Some in H as [(-> & <- & _)|[? ?]]; eauto. }
  assert (Hme : <[me := mkThread p' None]> ts !! me = Some (mkThread p' None)) by (apply list_lookup_insert_eq; by eapply lookup_lt_Some).
  assert (Hoth : ∀ me' t', ts !! me' = Some t' → at_ t' ≠ Idle → <[me := mkThread p' None]> ts !! me' = Some t').
  { intros me' t' H Hn. rewrite list_lookup_insert_ne; [done|]. intros <-. simplify_eq. }
  assert (Hal := p_alloc _ _ _ _ Hi). assert (El : Z.to_nat (alloc_idx_ v) = length log) by lia.
  constructor; cbn [alloc_idx_ published_].
  - rewrite length_app. cbn. lia.
  - intros me' t' [[-> ->]|[_ H]]%Hcase; [done|by eapply p_push].
  - intros i c y Hc Hy. apply lookup_app_l_Some. by eapply (p_value _ _ _ _ Hi).
  - intros me' t' i y [[-> ->]|[_ H]]%Hcase Hy; [|apply lookup_app_l_Some; by eapply (p_carries _ _ _ _ Hi)].
    cbn in Hy. simplify_eq. rewrite El. by apply list_lookup_middle.
  - intros me' t' i [[-> ->]|[_ H]]%Hcase Hx.
    + cbn in Hx. simplify_eq. split; [lia|]. intros c Hc. by eapply beyond_empty; [done..|].
    + destruct (p_claims _ _ _ _ Hi _ _ _ H Hx) as [? Hst]. split; [lia|done].
  - intros me1 me2 t1 t2 i [[-> ->]|[H1 H1']]%Hcase [[-> ->]|[H2 H2']]%Hcase Hc1 Hc2; [done|..|by eapply (p_unique _ _ _ _ Hi)];
      cbn in *; simplify_eq; [destruct (p_claims _ _ _ _ Hi _ _ _ H2' Hc2)|destruct (p_claims _ _ _ _ Hi _ _ _ H1' Hc1)]; lia.
  - intros i Hb. destruct (decide (i = alloc_idx_ v)) as [->|]; [by right; left; exists me, (mkThread p' None)|].
    destruct (p_cover _ _ _ _ Hi i ltac:(lia)) as [?|[(me' & t' & H & Hx)|?]]; [by left| |by right; right].
    right. left. exists me', t'. split; [|done]. apply Hoth; [done|]. intros E. by rewrite E in Hx.
  - apply (p_pub _ _ _ _ Hi).
  - intros me' t' [[-> ->]|[_ H]]%Hcase; [done|]. by apply (p_local _ _ _ _ Hi me').
  - intros Hr. destruct (p_resp _ _ _ _ Hi Hr) as (me' & t' & H & Hx). exists me', t'. split; [|done]. apply Hoth; [done|]. intros E. by rewrite E in Hx.
Qed.

Lemma start_push log v ts ans me t c : inv v ts → pinv log v ts ans → ts !! me = Some t → at_ t = Idle → push_call c → 0 <= alloc_idx_ v < 2 ^ 64 - 1 →
  pinv (log ++ appended c) (start c v).1 (<[me := mkThread (pc_of (start c v).2) None]> ts) (answered me (start c v).2 ans).
Proof.
  intros Hinv Hi Ht Ep Hc Ha. destruct c as [x| |i|i|i| |n]; cbn in Hc |- *; unfold reserve_start; try done; [by eapply emplace_push|..]; rewrite app_nil_r;
    [..|destruct (n =? 0); cbn]; eapply pinv_move; try done; rewrite ?Ep; auto; apply (answered_throw me (Return RUnit) ans).
Qed.

Lemma run_push n l m : Forall sc_action l → Forall push_action l → Z.of_nat (length (emplaced l)) < 2 ^ 64 - 1 → run l (init n) = Some (Done m) →
  inv (vec m) (threads m) ∧ pinv (emplaced l) (vec m) (threads m) (answers m).
Proof.
  revert m. induction l as [|a l IH] using rev_ind; intros m Hs Hp Hl Hr.
  { injection Hr as <-. split; [apply vec_inv_init|apply pinv_init]. }
  split. { destruct (run_safe n _ _ Hs Hl Hr) as (m' & [= <-] & Hi & _). done. }
  apply Forall_app in Hs as [Hs Ha]. rewrite Forall_singleton in Ha. apply Forall_app in Hp as [Hp Hpa]. rewrite Forall_singleton in Hpa.
  rewrite emplaced_snoc in *. rewrite length_app in Hl. rewrite run_snoc in Hr.
  destruct (run l (init n)) as [[m0| |]|] eqn:E; try done. destruct (IH m0 Hs Hp ltac:(lia) eq_refl) as [Hi Hpi].
  assert (Hal : 0 <= alloc_idx_ (vec m0) < 2 ^ 64 - 1) by (rewrite (p_alloc _ _ _ _ Hpi); lia).
  destruct (vec_act_inv a m0 _ Hi Ha Hr) as (me & t & Ht & Hb & [(c & -> & Ep & Eo)|(ch & r & -> & Hst & Eo)]).
  - pose proof (start_push _ _ _ _ _ _ c Hi Hpi Ht Ep Hpa Hal) as H. destruct (start c (vec m0)) as [v' nx]. rewrite continue_eq in Eo by done.
    injection Eo as ->. by destruct c.
  - rewrite app_nil_r. destruct (pc_step_fine _ _ _ _ _ _ Hi Ht Hst) as (v' & nx & -> & _). cbn [mbind outcome_bind] in Eo.
    rewrite continue_eq in Eo by done. injection Eo as ->. by eapply (pc_step_kept (emplaced l)).
Qed.

(** What a reader of a [READY] cell gets. *)
Lemma ready_read log v ts ans i x : inv v ts → pinv log v ts ans → ready v i → log !! Z.to_nat i = Some x →
  read_step None v (ILoad i) = Some (Done (v, Return (RValue x))).
Proof.
  intros Hi Hp Hr Hx. destruct (ready_storage _ _ _ Hi Hr) as (c & y & Hc & Hs & Hy).
  pose proof (p_value _ _ _ _ Hp i c y Hc Hy) as Hl. assert (y = x) as -> by congruence.
  assert (Hv : valid i) by (eapply cell_valid; [by apply (i_vec _ _ Hi)|eauto]).
  cbn [read_step]. destruct (bucket_load_cell v i (i_vec _ _ Hi) Hv) as [[_ ?]|(b & c' & -> & Ec & E)]; [congruence|].
  orun. rewrite Ec. orun. rewrite seen_None. assert (c' = c) as -> by congruence. by rewrite Hs, Hy.
Qed.

Lemma ready_alloc log v ts ans i : inv v ts → pinv log v ts ans → ready v i → 0 <= i < Z.of_nat (length log).
Proof.
  intros Hi Hp Hr. destruct (ready_storage _ _ _ Hi Hr) as (c & y & Hc & _ & Hy). apply (p_value _ _ _ _ Hp i c y Hc), lookup_lt_Some in Hy.
  apply cell_inv in Hc as [? _]. lia.
Qed.

(** ** Everything appended is published *)

(** C26: any number of threads that append, read and reserve, when their stores become visible
    in program order ([sc_action]; with the release and acquire orders of the source a
    delayed READY can leave a value unpublished, see [delayed_ready_unpublished]): at every moment
    the published prefix reads as the values of the calls, in the order in which the calls took their index; an
    index that [emplace_back] has returned holds the value of a call; and when no call is under way, nothing more is
    ready, and unless an allocation failed every value that was appended is published. *)
Theorem vector_publishes n l m : Forall sc_action l → Forall push_action l → Z.of_nat (length (emplaced l)) < 2 ^ 64 - 1 →
  run l (init n) = Some (Done m) →
  published_ (vec m) <= Z.of_nat (length (emplaced l)) ∧
  (∀ i, 0 <= i < published_ (vec m) → ∃ x, emplaced l !! Z.to_nat i = Some x ∧ read_step None (vec m) (ILoad i) = Some (Done (vec m, Return (RValue x)))) ∧
  (Forall (λ t, at_ t = Idle) (threads m) →
     is_ready None (vec m) (published_ (vec m)) = Done false ∧
     (RThrow ∉ (answers m).*2 → published_ (vec m) = Z.of_nat (length (emplaced l)))).
Proof.
  intros Hs Hp Hl Hr. destruct (run_push n l m Hs Hp Hl Hr) as [Hi Hpi]. pose proof (i_pub _ _ Hi) as Hb.
  assert (Hread : ∀ i, 0 <= i < published_ (vec m) → ready (vec m) i) by apply (p_pub _ _ _ _ Hpi).
  assert (Hle : published_ (vec m) <= Z.of_nat (length (emplaced l))).
  { destruct (decide (published_ (vec m) <= 0)); [lia|].
    pose proof (ready_alloc _ _ _ _ _ Hi Hpi (Hread (published_ (vec m) - 1) ltac:(lia))). lia. }
  split_and!; [done|..].
  - intros i Hx. pose proof (Hread i Hx) as Hrd. destruct (lookup_lt_is_Some_2 (emplaced l) (Z.to_nat i)) as [x Hx']; [lia|].
    exists x. split; [done|]. by eapply ready_read.
  - intros Hidle. assert (Hat : ∀ me t, threads m !! me = Some t → at_ t = Idle) by (by apply Forall_lookup).
    assert (Hnr : ¬ ready (vec m) (published_ (vec m))).
    { intros Hrd. destruct (p_resp _ _ _ _ Hpi Hrd) as (me & t & Ht & Hx). by rewrite (Hat _ _ Ht) in Hx. }
    split.
    + rewrite is_ready_eq; [|apply (i_vec _ _ Hi)|by eapply below_valid; [apply (i_vec _ _ Hi)|]].
      destruct (cell (vec m) (published_ (vec m))) as [c|] eqn:Ec; [|done]. case_bool_decide; [|done]. destruct Hnr. by exists c.
    + intros Hnt. destruct (decide (published_ (vec m) = Z.of_nat (length (emplaced l)))) as [|Hn]; [done|]. destruct Hb as [Hb _].
      destruct (p_cover _ _ _ _ Hpi (published_ (vec m))) as [?|[(me & t & Ht & Hx)|?]]; [rewrite (p_alloc _ _ _ _ Hpi); lia|done| |done].
      by rewrite (Hat _ _ Ht) in Hx.
Qed.
End correct.

(** * Executions *)

(** [k] steps of thread [me]. *)
Definition steps (me k : nat) : list (action Z) := replicate k (Step me Go).

(** Two threads append, the second one finishes first; then the first one publishes both. *)
Definition two_threads : list (action Z) :=
  [Call 0 (Emplace 10); Call 1 (Emplace 20)] ++ steps 1 8 ++ steps 0 16.

Lemma vector_cells_typed_witness : ∃ m, run (two_threads ++ [Call 1 PopBack] ++ steps 1 4) (init 2) = Some (Done m) ∧
  (state <$> cell (vec m) 1 = Some DELETING) ∧ (∃ me, ∀ me', owner m me' 1 ↔ me' = me).
Proof.
  destruct (vector_cells_typed 2 (two_threads ++ [Call 1 PopBack] ++ steps 1 4) (default UB (run (two_threads ++ [Call 1 PopBack] ++ steps 1 4) (init 2))))
    as (m & Em & Hc & _).
  - repeat constructor; done.
  - by vm_compute.
  - by vm_compute.
  - exists m. split; [rewrite <- Em; by vm_compute|]. revert Hc. vm_compute in Em. injection Em as <-. intros Hc. split; [by vm_compute|].
    exact (Hc 1 (mkCell DELETING (Some 20)) eq_refl).
Defined.

Lemma vector_publishes_witness : ∃ m, run two_threads (init 2) = Some (Done m) ∧ published_ (vec m) = 2.
Proof.
  set (m := match run two_threads (init 2) with Some (Done m) => m | _ => init 0 end).
  destruct (vector_publishes 2 two_threads m) as (_ & _ & H).
  - repeat constructor; done.
  - repeat constructor; done.
  - by vm_compute.
  - by vm_compute.
  - assert (Er : run two_threads (init 2) = Some (Done m)) by (by vm_compute). assert (Ea : (answers m).*2 = [RIndex 0; RIndex 1]) by (by vm_compute).
    assert (Hi : Forall (λ t, at_ t = Idle) (threads m)) by (by vm_compute; repeat constructor).
    clearbody m. exists m. split; [exact Er|]. destruct (H Hi) as [_ H']. apply H'. rewrite Ea, !elem_of_cons, elem_of_nil. intros [|[|]]; done.
Defined.

(** ** Delayed stores *)

(** The second thread stores [READY] and finds [published_ = 0]; its store becomes visible only
    after the first thread has published cell 0 and looked at cell 1.  Then a third value is appended. *)
Definition delayed_ready : list (action Z) :=
  [Call 0 (Emplace 10)] ++ steps 0 11 ++ [Call 1 (Emplace 20)] ++ steps 1 6 ++ [Step 1 Late; Step 1 Go] ++ steps 0 4 ++ [Drain 1] ++
  [Call 0 (Emplace 30)] ++ steps 0 6.

(** The release store of [READY] and the acquire load of [published_] after it are not ordered: when the store is
    delayed, both threads leave the publication to the other one.  Then all calls have returned, the cells 0, 1
    and 2 are [READY], and [published_] is 1 and stays so when further values are appended. *)
Theorem delayed_ready_unpublished : ∃ m, run delayed_ready (init 2) = Some (Done m) ∧
  Forall (λ t, at_ t = Idle ∧ buf t = None) (threads m) ∧ (answers m).*2 = [RIndex 2; RIndex 0; RIndex 1] ∧
  published_ (vec m) = 1 ∧ is_ready None (vec m) 1 = Done true ∧ is_ready None (vec m) 2 = Done true.
Proof.
  exists (match run delayed_ready (init 2) with Some (Done m) => m | _ => init 0 end).
  split; [by vm_compute|]. split; [by vm_compute; repeat constructor|]. by vm_compute.
Qed.
End ConcurrentVectorCorrect.
