(* ===== verification/ConcurrentVectorSeq.v ===== *)
(** The lock-free vector in the hands of one thread: every call ends, and [reserve] and
    [emplace_back] act on the list of the published values.  [TLSRegistry] is such a
    client.  A [pop_back] takes the last value away, but the values appended after it are
    out of reach. *)

From S2P Require Import Prelude ConcurrentVector ConcurrentVectorMem ConcurrentVectorInv.

Module ConcurrentVectorSeq.
Import ConcurrentVector ConcurrentVectorMem ConcurrentVectorInv.

Section seq.
Context {T : Type}.
Implicit Types (v : LockFreeVector T) (log : list T) (c : Cell T).

(** * Running *)

Lemma solo_goto k v p v' p' : pc_step Go None v p = Some (Done (v', Goto p')) → solo (S k) v p = solo k v' p'.
Proof. intros H. cbn [solo]. by rewrite H. Qed.

Lemma solo_return k v p v' r : pc_step Go None v p = Some (Done (v', Return r)) → solo (S k) v p = Done (v', r).
Proof. intros H. cbn [solo]. by rewrite H. Qed.

Lemma solo_more k k' v p o : (k <= k')%nat → solo k v p = Done o → solo k' v p = Done o.
Proof.
  revert k' v p. induction k as [|k IH]; intros k' v p Hk H; [done|]. destruct k' as [|k']; [lia|]. cbn [solo] in *.
  apply bind_Done in H as ([v' n] & E & H). rewrite E. cbn [mbind outcome_bind snd fst] in *. destruct n; [|done]. apply IH; [lia|done].
Qed.

Lemma solo_call_more k k' (c : call T) v o : (k <= k')%nat → solo_call k c v = Done o → solo_call k' c v = Done o.
Proof. intros Hk. unfold solo_call. destruct (start c v) as [v' [p|r]]; [|done]. by apply solo_more. Qed.

(** * What a thread alone finds *)

(** [log] is published; [al] indices were handed out; the cell after the last published one is
    not ready, and nothing was written from [al] on. *)
Record holds log (al : Z) v : Prop := {
  h_vec : vec_ok v;
  h_pub : published_ v = Z.of_nat (length log);
  h_alloc : alloc_idx_ v = al;
  h_le : Z.of_nat (length log) <= al;
  h_ready i x : log !! i = Some x → cell v (Z.of_nat i) = Some (mkCell READY (Some x));
  h_next c : cell v (Z.of_nat (length log)) = Some c → state c ≠ READY;
  h_fresh i c : al <= i → cell v i = Some c → c = Cell_new
}.

(** The same cells, and new ones that are empty. *)
Definition extends v v' : Prop := published_ v' = published_ v ∧ alloc_idx_ v' = alloc_idx_ v ∧
  ∀ j, cell v' j = cell v j ∨ cell v j = None ∧ cell v' j = Some Cell_new.

Lemma extends_refl v : extends v v.
Proof. split; [done|]. split; [done|]. by left. Qed.

Lemma holds_extends log al v v' : holds log al v → vec_ok v' → extends v v' → holds log al v'.
Proof.
  intros H Hv (Ep & Ea & Hc). constructor; [done|rewrite Ep; apply H|rewrite Ea; apply H|apply H|..].
  - intros i x Hx. pose proof (h_ready _ _ _ H i x Hx) as E. destruct (Hc (Z.of_nat i)) as [->|[? _]]; [done|congruence].
  - intros c. destruct (Hc (Z.of_nat (length log))) as [->|[_ ->]]; [apply H|]. by intros [= <-].
  - intros i c Hi. destruct (Hc i) as [->|[_ ->]]; [by apply H|]. by intros [= <-].
Qed.

(** ** [ensure_bucket] *)

Lemma grow_extends v L : vec_ok v → 0 <= L <= 24 → buckets_ v !! Z.to_nat L = Some None → vec_ok (grow v L) ∧ extends v (grow v L).
Proof.
  intros Hv HL Hn. split; [by apply vec_ok_grow|]. split_and!; [done..|]. intros j.
  destruct (cell v j) as [c|] eqn:E; [left; apply cell_grow_some; (done || lia)|]. rewrite cell_grow by (done || lia).
  case_bool_decide; [by right|]. left. done.
Qed.

Lemma solo_ensure v L k kont p : vec_ok v → 0 <= L <= 24 → ensured kont = Goto p →
  ∃ v' d, (k <= d)%nat ∧ solo (3 + k) v (BLoad L kont) = solo d v' p ∧ vec_ok v' ∧ extends v v' ∧ ∃ b, buckets_ v' !! Z.to_nat L = Some (Some b).
Proof.
  intros Hv HL Hk. destruct (bucket_load_in v L Hv ltac:(lia)) as (o & Eo & Hb).
  assert (E1 : pc_step Go None v (BLoad L kont) = Some (Done (v, match o with Some _ => Goto p | None => Goto (BAlloc L kont) end))).
  { cbn [pc_step ensure_bucket_step]. rewrite Eo. orun. by rewrite Hk. }
  destruct o as [b|].
  { exists v, (2 + k)%nat. split; [lia|]. split; [by apply solo_goto|]. split; [done|]. split; [apply extends_refl|by exists b]. }
  destruct (grow_extends v L Hv HL Hb) as [Hv' He]. exists (grow v L), k. split; [lia|]. split; [|split; [done|split; [done|]]].
  - change (3 + k)%nat with (S (S (S k))). rewrite (solo_goto _ _ _ _ _ E1). rewrite (solo_goto _ v (BAlloc L kont) v (BCas L kont)); [apply solo_goto|].
    + cbn [pc_step ensure_bucket_step]. rewrite Eo. orun.
      rewrite awrite_in by (rewrite (v_levels _ Hv); change (Z.of_nat MAX_LEVELS) with 64; lia). orun. rewrite pow2_eq by lia. by rewrite Hk.
    + cbn [pc_step ensure_bucket_step is_fail]. rewrite pow2_eq, orb_false_r by lia. unfold MAX_BUCKET. rewrite Z.shiftl_1_l.
      rewrite (proj2 (Z.ltb_ge (2 ^ 24) (2 ^ L))); [done|]. apply Z.pow_le_mono_r; lia.
  - cbn. exists (Bucket_allocate (2 ^ L)). apply list_lookup_insert_eq. by eapply lookup_lt_Some.
Qed.

(** ** [reserve] *)

Lemma solo_reserve_loop v top n i : vec_ok v → top - i < Z.of_nat n → 0 <= i → top <= 24 →
  ∃ v', solo (4 * n + 1) v (VLoop top i) = Done (v', RUnit) ∧ vec_ok v' ∧ extends v v'.
Proof.
  revert v i. induction n as [|n IH]; intros v i Hv Hn Hi Ht.
  - exists v. split; [|split; [done|apply extends_refl]]. apply solo_return. cbn [pc_step reserve_step]. by rewrite (proj2 (Z.ltb_lt top i)) by lia.
  - destruct (decide (top < i)) as [Hlt|Hge].
    { exists v. split; [|split; [done|apply extends_refl]]. replace (4 * S n + 1)%nat with (S (4 * n + 4)) by lia. apply solo_return.
      cbn [pc_step reserve_step]. by rewrite (proj2 (Z.ltb_lt top i)) by lia. }
    destruct (bucket_load_in v i Hv ltac:(lia)) as (o & Eo & Hb).
    assert (Es : pc_step Go None v (VLoop top i) = Some (Done (v, match o with Some _ => Goto (VLoop top (i + 1)) | None => Goto (BLoad i (ForReserve top i)) end))).
    { cbn [pc_step reserve_step]. rewrite (proj2 (Z.ltb_ge top i)) by lia. by rewrite Eo. }
    destruct (solo_ensure v i (4 * n + 1) (ForReserve top i) (VLoop top (i + 1)) Hv ltac:(lia) eq_refl) as (v1 & d & Hd & E1 & Hv1 & He1 & _).
    replace (4 * S n + 1)%nat with (S (3 + (4 * n + 1))) by lia. destruct o as [b|].
    + destruct (IH v (i + 1) Hv ltac:(lia) ltac:(lia) Ht) as (v' & E & Hv' & He). exists v'. split; [|done].
      rewrite (solo_goto _ _ _ _ _ Es). eapply solo_more; [|done]. lia.
    + destruct (IH v1 (i + 1) Hv1 ltac:(lia) ltac:(lia) Ht) as (v' & E & Hv' & Hp & Ha & Hc). destruct He1 as (Hp1 & Ha1 & Hc1).
      exists v'. split; [|split; [done|split; [congruence|split; [congruence|]]]].
      * rewrite (solo_goto _ _ _ _ _ Es), E1. by eapply solo_more.
      * intros j. destruct (Hc1 j) as [E2|[E2 E3]], (Hc j) as [E4|[E4 E5]]; [left|right|right|right]; split_and?; congruence.
Qed.

(** ** [emplace_back] *)

Lemma bucket_cell v i b : vec_ok v → 0 <= i → valid i → buckets_ v !! Z.to_nat (level i) = Some (Some b) → is_Some (cell v i).
Proof.
  intros Hv Hi Hva Hb. destruct (bucket_load_cell v i Hv Hva) as [[E _]|(? & c & _ & _ & ->)]; [|eauto].
  rewrite locate_eq in E by done. cbn in E. apply aread_Done in E as [_ E]. congruence.
Qed.

(** A cell goes through its states. *)
Lemma solo_write k v i x : vec_ok v → cell v i = Some Cell_new →
  ∃ v', solo (4 + k) v (EState i x) = solo k v' (EPub i) ∧ vec_ok v' ∧ published_ v' = published_ v ∧ alloc_idx_ v' = alloc_idx_ v ∧
    cell v' i = Some (mkCell READY (Some x)) ∧ ∀ j, j ≠ i → cell v' j = cell v j.
Proof.
  intros Hv Hc. assert (H0 : 0 <= i) by (by apply cell_inv in Hc as [? _]).
  set (v1 := set_cell v i (mkCell WRITING None)). set (v2 := set_cell v1 i (mkCell WRITING (Some x))). set (v3 := set_cell v2 i (mkCell READY (Some x))).
  assert (Hv1 : vec_ok v1) by (by apply vec_ok_set). assert (Hv2 : vec_ok v2) by (by apply vec_ok_set).
  assert (H1 : cell v1 i = Some (mkCell WRITING None)) by (apply cell_set_eq; eauto).
  assert (H2 : cell v2 i = Some (mkCell WRITING (Some x))) by (apply cell_set_eq; eauto).
  exists v3. split; [|split_and!; [by apply vec_ok_set|done|done|apply cell_set_eq; eauto|]].
  - change (4 + k)%nat with (S (S (S (S k)))).
    rewrite (solo_goto _ v (EState i x) v (EClaim i x)) by (cbn [pc_step emplace_back_step]; rewrite (cell_load_eq _ _ _ Hv Hc); orun; by rewrite seen_None).
    rewrite (solo_goto _ v (EClaim i x) v1 (EConstruct i x)).
    2: { cbn [pc_step emplace_back_step]. rewrite (cell_load_eq _ _ _ Hv Hc). orun. cbn [state Cell_new]. by rewrite (state_store_eq _ _ _ _ Hv Hc). }
    rewrite (solo_goto _ v1 (EConstruct i x) v2 (EReady i)) by (cbn [pc_step emplace_back_step]; by rewrite (construct_at_eq _ _ _ x Hv1 H1)).
    apply solo_goto. cbn [pc_step emplace_back_step]. by rewrite (state_store_eq _ _ _ _ Hv2 H2).
  - intros j Hj. unfold v3, v2, v1. by rewrite !cell_set_ne.
Qed.

(** After it, the cell [al] is filled; the others are as before, or new. *)
Definition filled (al : Z) (x : T) v v' : Prop :=
  vec_ok v' ∧ published_ v' = published_ v ∧ alloc_idx_ v' = al + 1 ∧ cell v' al = Some (mkCell READY (Some x)) ∧
  ∀ j, j ≠ al → cell v' j = cell v j ∨ cell v j = None ∧ cell v' j = Some Cell_new.

Lemma solo_fill k log al v x : holds log al v → al < 2 ^ 25 - 1 →
  ∃ v' d, (k <= d)%nat ∧ solo_call (7 + k) (Emplace x) v = solo d v' (EPub al) ∧ filled al x v v'.
Proof.
  intros H Hal. assert (H0 : 0 <= al) by (pose proof (h_le _ _ _ H); lia). assert (Hva : valid al) by (unfold valid; lia).
  unfold solo_call. cbn [start emplace_back_start reserve_start]. rewrite (h_alloc _ _ _ H), locate_eq, wrap_small by (done || lia). cbn [fst].
  set (w := {| v with alloc_idx_ := al + 1 |}). assert (Hw : vec_ok w) by (apply (vec_ok_ext v); [done|apply H]).
  assert (Hcw : ∀ j, cell w j = cell v j) by (intros j; by apply cell_ext).
  assert (HL : 0 <= level al <= 24) by (split; [apply level_spec; lia|]; pose proof (level_lt al 25); lia).
  destruct (solo_ensure w (level al) (4 + k) (ForEmplace al x) (EState al x) Hw HL eq_refl) as (v1 & d & Hd & E1 & Hv1 & (Hp1 & Ha1 & Hc1) & b & Hb).
  destruct (bucket_cell v1 al b Hv1 H0 Hva Hb) as [c Hc].
  assert (c = Cell_new) as ->.
  { destruct (Hc1 al) as [E|[_ E]]; [|congruence]. apply (h_fresh _ _ _ H al c); [lia|]. by rewrite <- Hcw, <- E. }
  destruct (solo_write (d - 4) v1 al x Hv1 Hc) as (v' & E2 & Hv' & Hp2 & Ha2 & Hc2 & Hcj). exists v', (d - 4)%nat. split; [lia|]. split.
  - change (7 + k)%nat with (3 + (4 + k))%nat. rewrite E1. by replace d with (4 + (d - 4))%nat at 1 by lia.
  - split_and!; [done|by rewrite Hp2, Hp1|by rewrite Ha2, Ha1|done|]. intros j Hj. rewrite (Hcj j Hj), <- Hcw. apply Hc1.
Qed.

(** The next index is published at once. *)
Lemma solo_emplace log v x : holds log (Z.of_nat (length log)) v → Z.of_nat (length log) < 2 ^ 25 - 1 →
  ∃ v', solo_call 16 (Emplace x) v = Done (v', RIndex (Z.of_nat (length log))) ∧ holds (log ++ [x]) (Z.of_nat (length log) + 1) v'.
Proof.
  intros H Hl. set (n := Z.of_nat (length log)) in *. destruct (solo_fill 9 log n v x H Hl) as (v1 & d & Hd & E & Hv1 & Hp & Ha & Hc & Hcj).
  rewrite (h_pub _ _ _ H) in Hp. fold n in Hp. change (16)%nat with (7 + 9)%nat. rewrite E. set (v' := {| v1 with published_ := n + 1 |}).
  assert (Hv' : vec_ok v') by (by apply (vec_ok_ext v1)). assert (Hext : ∀ j, cell v' j = cell v1 j) by (intros j; by apply cell_ext).
  assert (Hn : ∀ c, cell v1 (n + 1) = Some c → state c = EMPTY).
  { intros c Hc'. destruct (Hcj (n + 1) ltac:(lia)) as [E'|[_ E']]; [|rewrite E' in Hc'; by injection Hc' as <-].
    rewrite E' in Hc'. by rewrite (h_fresh _ _ _ H (n + 1) c ltac:(lia) Hc'). }
  assert (Hrn : is_ready None v1 n = Done true) by (rewrite is_ready_eq, Hc by (done || unfold valid; lia); done).
  assert (Hrs : ∀ w, vec_ok w → cell w (n + 1) = cell v1 (n + 1) → is_ready None w (n + 1) = Done false).
  { intros w Hw Ew. rewrite is_ready_eq, Ew by (done || unfold valid; lia). destruct (cell v1 (n + 1)) as [c|] eqn:Ec; [|done]. by rewrite (Hn c). }
  exists v'. split.
  - apply (solo_more 9); [done|].
    rewrite (solo_goto _ v1 _ v1 (ALoad n)) by (cbn [pc_step emplace_back_step]; rewrite Hp; by rewrite Z.eqb_refl).
    rewrite (solo_goto _ v1 _ v1 (AHead n n)) by (cbn [pc_step advance_published_step]; by rewrite Hp).
    rewrite (solo_goto _ v1 _ v1 (AScan n n n)) by (cbn [pc_step advance_published_step]; by rewrite Hrn).
    rewrite (solo_goto _ v1 _ v1 (AScan n n (n + 1))) by (cbn [pc_step advance_published_step]; rewrite Hrn, wrap_small by lia; done).
    rewrite (solo_goto _ v1 _ v1 (ACas n n (n + 1))) by (cbn [pc_step advance_published_step]; by rewrite Hrs).
    rewrite (solo_goto _ v1 _ v' (ALoad n)) by (cbn [pc_step advance_published_step is_fail negb]; by rewrite Hp, Z.eqb_refl).
    rewrite (solo_goto _ v' _ v' (AHead n (n + 1))) by done.
    apply solo_return. cbn [pc_step advance_published_step]. by rewrite Hrs.
  - constructor; [done|cbn; rewrite length_app; cbn; lia|done|rewrite length_app; cbn; lia|..].
    + intros i y Hy. rewrite Hext. apply lookup_snoc_Some in Hy as [[Hi Hy]|[-> <-]]; [|done].
      destruct (Hcj (Z.of_nat i) ltac:(lia)) as [->|[E' _]]; [by apply H|]. rewrite (h_ready _ _ _ H i y Hy) in E'. done.
    + intros c. rewrite Hext, length_app. cbn. replace (Z.of_nat (length log + 1)) with (n + 1) by lia. intros Hc' Hs. rewrite (Hn c Hc') in Hs. done.
    + intros i c Hi. rewrite Hext. destruct (Hcj i ltac:(lia)) as [->|[_ ->]]; [apply H; lia|]. by intros [= <-].
Qed.

(** An index beyond the end of the published prefix is filled, and not published. *)
Lemma solo_emplace_beyond log al v x : holds log al v → Z.of_nat (length log) < al → al < 2 ^ 25 - 1 →
  ∃ v', solo_call 16 (Emplace x) v = Done (v', RIndex al) ∧ holds log (al + 1) v'.
Proof.
  intros H Hlt Hal. destruct (solo_fill 9 log al v x H Hal) as (v1 & d & Hd & E & Hv1 & Hp & Ha & Hc & Hcj).
  change (16)%nat with (7 + 9)%nat. rewrite E. exists v1. split.
  - apply (solo_more 1); [lia|]. apply solo_return. cbn [pc_step emplace_back_step]. rewrite Hp, (h_pub _ _ _ H).
    by rewrite (proj2 (Z.eqb_neq al (Z.of_nat (length log)))) by lia.
  - constructor; [done|rewrite Hp; apply H|done|lia|..].
    + intros i y Hy. pose proof (lookup_lt_Some _ _ _ Hy). destruct (Hcj (Z.of_nat i) ltac:(lia)) as [->|[E' _]]; [by apply H|].
      rewrite (h_ready _ _ _ H i y Hy) in E'. done.
    + intros c. destruct (Hcj (Z.of_nat (length log)) ltac:(lia)) as [->|[_ ->]]; [apply H|]. by intros [= <-].
    + intros i c Hi. destruct (Hcj i ltac:(lia)) as [->|[_ ->]]; [apply H; lia|]. by intros [= <-].
Qed.

(** ** [pop_back] *)

Lemma solo_pop log al v x : holds (log ++ [x]) al v → al < 2 ^ 25 →
  ∃ v', solo_call 6 PopBack v = Done (v', RBool true) ∧ holds log al v'.
Proof.
  intros H Hal. assert (Hlen : Z.of_nat (length (log ++ [x])) = Z.of_nat (length log) + 1) by (rewrite length_app; cbn; lia).
  set (n := Z.of_nat (length log)) in *. pose proof (h_vec _ _ _ H) as Hv. pose proof (h_le _ _ _ H) as Hle. rewrite Hlen in Hle.
  assert (Hc : cell v n = Some (mkCell READY (Some x))) by (apply (h_ready _ _ _ H); by apply list_lookup_middle).
  assert (Hp : published_ v = n + 1) by (rewrite (h_pub _ _ _ H); lia).
  set (v0 := {| v with published_ := n |}). set (v1 := set_cell v0 n (mkCell DELETING (Some x))). set (v2 := set_cell v1 n (mkCell DELETING None)).
  set (v3 := set_cell v2 n (mkCell EMPTY None)).
  assert (Hv0 : vec_ok v0) by (by apply (vec_ok_ext v)). assert (Hv1 : vec_ok v1) by (by apply vec_ok_set). assert (Hv2 : vec_ok v2) by (by apply vec_ok_set).
  assert (Hc0 : cell v0 n = Some (mkCell READY (Some x))) by (by rewrite (cell_ext v)).
  assert (Hc1 : cell v1 n = Some (mkCell DELETING (Some x))) by (apply cell_set_eq; eauto).
  assert (Hc2 : cell v2 n = Some (mkCell DELETING None)) by (apply cell_set_eq; eauto).
  assert (Hc3 : cell v3 n = Some (mkCell EMPTY None)) by (apply cell_set_eq; eauto).
  assert (Hcj : ∀ j, j ≠ n → cell v3 j = cell v j) by (intros j Hj; unfold v3, v2, v1; rewrite !cell_set_ne by (done || lia); by apply cell_ext).
  exists v3. split.
  - unfold solo_call. cbn [start emplace_back_start reserve_start].
    rewrite (solo_goto _ v _ v (PCas (n + 1))) by (cbn [pc_step pop_back_step]; rewrite Hp, (proj2 (Z.eqb_neq (n + 1) 0)) by lia; done).
    rewrite (solo_goto _ v _ v0 (PWait n)).
    2: { cbn [pc_step pop_back_step is_fail negb]. rewrite Hp, Z.eqb_refl. cbn [andb]. rewrite wrap_small by lia. by replace (n + 1 - 1) with n by lia. }
    rewrite (solo_goto _ v0 _ v0 (PClaim n)) by (cbn [pc_step pop_back_step]; rewrite (cell_load_eq _ _ _ Hv0 Hc0); orun; by rewrite seen_None).
    rewrite (solo_goto _ v0 _ v1 (PDestroy n)).
    2: { cbn [pc_step pop_back_step]. rewrite (cell_load_eq _ _ _ Hv0 Hc0). orun. cbn [state]. by rewrite (state_store_eq _ _ _ _ Hv0 Hc0). }
    rewrite (solo_goto _ v1 _ v2 (PStore n)) by (cbn [pc_step pop_back_step]; by rewrite (destroy_at_eq _ _ _ x Hv1 Hc1)).
    apply solo_return. cbn [pc_step pop_back_step]. by rewrite (state_store_eq _ _ _ _ Hv2 Hc2).
  - constructor; [by apply vec_ok_set|done|cbn; apply H|lia|..].
    + intros i y Hy. pose proof (lookup_lt_Some _ _ _ Hy). rewrite Hcj by lia. apply (h_ready _ _ _ H). by apply lookup_app_l_Some.
    + intros c. fold n. rewrite Hc3. by intros [= <-].
    + intros i c Hi. rewrite Hcj by lia. by apply H.
Qed.

(** ** Reading *)

Lemma solo_index log al v i x : holds log al v → log !! i = Some x → solo_call 1 (Index (Z.of_nat i)) v = Done (v, RValue x).
Proof.
  intros H Hx. pose proof (h_ready _ _ _ H i x Hx) as Hc. pose proof (h_vec _ _ _ H) as Hv.
  assert (Hva : valid (Z.of_nat i)) by (apply (cell_valid v); eauto).
  unfold solo_call. cbn [start emplace_back_start reserve_start]. apply solo_return. cbn [pc_step read_step].
  destruct (bucket_load_cell v (Z.of_nat i) Hv Hva) as [[_ ?]|(b & c & -> & Ec & E)]; [congruence|]. orun. rewrite Ec. orun.
  rewrite seen_None. rewrite Hc in E. by injection E as <-.
Qed.

Lemma solo_at_beyond log al v i : holds log al v → Z.of_nat (length log) <= i → solo_call 1 (At i) v = Done (v, RTrap).
Proof.
  intros H Hi. unfold solo_call. cbn [start emplace_back_start reserve_start]. apply solo_return. cbn [pc_step read_step]. by rewrite (h_pub _ _ _ H), (proj2 (Z.leb_le _ _) Hi).
Qed.

Lemma holds_new : holds [] 0 (LockFreeVector_new : LockFreeVector T).
Proof. constructor; [apply vec_ok_new|done|done|done|done|..]; intros *; rewrite cell_new; done. Qed.

(** ** The destructor *)

(** The objects below [published_] are destroyed. *)
Lemma destroy_holds log al v : holds log al v → ∃ v', LockFreeVector_destroy v = Done v' ∧
  ∀ j, cell v' j = if bool_decide (0 <= j < Z.of_nat (length log)) then Some Cell_new else cell v j.
Proof.
  intros H. unfold LockFreeVector_destroy. rewrite (h_pub _ _ _ H).
  match goal with |- context [for_from 0 ?n ?f v] => destruct (for_from_inv (λ i w, 0 <= i ∧ vec_ok w ∧
    ∀ j, cell w j = if bool_decide (0 <= j < i) then Some Cell_new else cell v j) 0 n f v) as (v' & -> & _ & _ & Hc) end.
  - split_and!; [done|apply H|]. intros j. by rewrite bool_decide_false by lia.
  - intros i w Hi (H0 & Hw & Hcw). destruct (lookup_lt_is_Some_2 log (Z.to_nat i)) as [x Hx]; [lia|].
    assert (Hc : cell w i = Some (mkCell READY (Some x))).
    { rewrite Hcw, bool_decide_false by lia. pose proof (h_ready _ _ _ H _ x Hx) as Hc. by rewrite Z2Nat.id in Hc. }
    set (w1 := set_cell w i (mkCell READY None)). set (w2 := set_cell w1 i (mkCell EMPTY None)).
    assert (Hw1 : vec_ok w1) by (by apply vec_ok_set). assert (Hc1 : cell w1 i = Some (mkCell READY None)) by (apply cell_set_eq; eauto).
    destruct (bucket_load_cell w i Hw (cell_valid w i Hw (mk_is_Some _ _ Hc))) as [[_ ?]|(b & c & -> & _ & _)]; [congruence|]. exists w2. split.
    + orun. unfold destroy_if_ready. rewrite (cell_load_eq _ _ _ Hw Hc). orun. cbn [state]. rewrite (destroy_at_eq _ _ _ x Hw Hc). orun.
      fold w1. by rewrite (state_store_eq _ _ _ _ Hw1 Hc1).
    + split_and!; [lia|by apply vec_ok_set|]. intros j. destruct (decide (j = i)) as [->|Hj].
      * rewrite bool_decide_true by lia. apply cell_set_eq. eauto.
      * unfold w2, w1. rewrite !cell_set_ne, Hcw by done. by rewrite (bool_decide_ext (0 <= j < i + 1) (0 <= j < i)) by lia.
  - exists v'. split; [done|]. intros j. rewrite Hc. by rewrite (bool_decide_ext (0 <= j < 0 + _) (0 <= j < Z.of_nat (length log))) by lia.
Qed.

(** * [TLSRegistry] *)

Lemma emplace_all_holds log xs v : holds log (Z.of_nat (length log)) v → Z.of_nat (length (log ++ xs)) <= 2 ^ 25 - 1 →
  ∃ v', emplace_all 128 xs v = Done (v', RUnit) ∧ holds (log ++ xs) (Z.of_nat (length (log ++ xs))) v'.
Proof.
  revert log v. induction xs as [|x xs IH]; intros log v H Hl; [exists v; by rewrite app_nil_r|]. rewrite length_app in Hl. cbn in Hl.
  destruct (solo_emplace log v x H ltac:(lia)) as (v1 & E & H1).
  assert (E' : solo_call 128 (Emplace x) v = Done (v1, RIndex (Z.of_nat (length log)))) by (apply (solo_call_more 16); [lia|done]).
  destruct (IH (log ++ [x]) v1) as (v' & E2 & H2); [|rewrite !length_app; cbn; lia|].
  - rewrite length_app. cbn. by replace (Z.of_nat (length log + 1)) with (Z.of_nat (length log) + 1) by lia.
  - rewrite <- app_assoc in H2. exists v'. split; [|done]. cbn [emplace_all]. by rewrite E'.
Qed.

Lemma solo_reserve n : 0 <= n <= 2 ^ 25 - 1 →
  ∃ v' : LockFreeVector T, solo_call 128 (Reserve n) LockFreeVector_new = Done (v', RUnit) ∧ holds [] 0 v'.
Proof.
  intros Hn. unfold solo_call, start, reserve_start. destruct (Z.eqb_spec n 0) as [->|Hn0]; [exists LockFreeVector_new; split; [done|apply holds_new]|].
  unfold SOFT_MAX. rewrite Z.shiftl_1_l, (proj2 (Z.ltb_ge (2 ^ 27) n)), locate_eq by (unfold valid; lia). cbn [fst].
  assert (level (n - 1) < 25) by (apply level_lt; lia).
  destruct (solo_reserve_loop LockFreeVector_new (level (n - 1)) 25 0 vec_ok_new ltac:(lia) ltac:(lia) ltac:(lia)) as (v' & E & Hv' & He).
  exists v'. split; [|by eapply holds_extends; [apply holds_new|..]]. eapply solo_more; [|done]. lia.
Qed.

(** The registry of the workers' storages: for every list of at most 2^25-1 storages the
    constructor ends without an error within 128 steps per call, and [getStorage(i)] then is storage [i];
    the destructor of the vector leaves no object behind. *)
Theorem tls_registry_gets storages : Z.of_nat (length storages) <= 2 ^ 25 - 1 →
  ∃ v : LockFreeVector T, TLSRegistry_new 128 storages = Done (v, RUnit) ∧ published_ v = Z.of_nat (length storages) ∧
    (∀ i x, storages !! i = Some x → getStorage 128 v (Z.of_nat i) = Done (v, RValue x)) ∧
    ∃ v', LockFreeVector_destroy v = Done v' ∧ ∀ i c, cell v' i = Some c → storage c = None.
Proof.
  intros Hl. destruct (solo_reserve (Z.of_nat (length storages)) ltac:(lia)) as (v1 & E1 & H1).
  destruct (emplace_all_holds [] storages v1 H1 ltac:(cbn; lia)) as (v & E2 & H2). cbn [app] in H2. exists v. split_and!.
  - unfold TLSRegistry_new. by rewrite E1.
  - apply H2.
  - intros i x Hx. pose proof (lookup_lt_Some _ _ _ Hx). unfold getStorage. rewrite wrap_small by lia.
    apply (solo_call_more 1); [lia|]. exact (solo_index _ _ _ _ _ H2 Hx).
  - destruct (destroy_holds _ _ _ H2) as (v' & Ed & Hc). exists v'. split; [done|]. intros i c. rewrite Hc. case_bool_decide as Hb; [by intros [= <-]|].
    intros Hi. assert (H0 : 0 <= i) by (by apply cell_inv in Hi as [? _]). by rewrite (h_fresh _ _ _ H2 i c ltac:(lia) Hi).
Qed.

(** * [pop_back] *)

(** The states one thread reaches that only appends. *)
Definition pushed (xs : list T) v : Prop := emplace_all 128 xs LockFreeVector_new = Done (v, RUnit).

(** After a [pop_back] nothing that is appended is published any more: [pop_back] takes the
    last value away, but does not give its index back, so the next [emplace_back] answers an index [size()] does not
    reach, [at] refuses it, and so it stays for every further one. *)
Theorem pop_back_strands xs x ys v : pushed (xs ++ [x]) v → Z.of_nat (length xs + length ys) < 2 ^ 25 - 2 →
  ∃ v1 v2, solo_call 6 PopBack v = Done (v1, RBool true) ∧ published_ v1 = Z.of_nat (length xs) ∧
    emplace_all 128 ys v1 = Done (v2, RUnit) ∧ alloc_idx_ v2 = Z.of_nat (length xs) + 1 + Z.of_nat (length ys) ∧
    published_ v2 = Z.of_nat (length xs) ∧ ∀ i, Z.of_nat (length xs) <= i → solo_call 1 (At i) v2 = Done (v2, RTrap).
Proof.
  intros Hp Hl. assert (Hlen : length (xs ++ [x]) = S (length xs)) by (rewrite length_app; cbn; lia).
  destruct (emplace_all_holds [] (xs ++ [x]) LockFreeVector_new holds_new) as (v' & E & H); [cbn [app]; lia|].
  unfold pushed in Hp. cbn [app] in H. rewrite Hp in E. injection E as <-. rewrite Hlen in H.
  destruct (solo_pop xs _ v x H ltac:(lia)) as (v1 & E1 & H1). exists v1.
  enough (∀ al w, holds xs al w → Z.of_nat (length xs) < al → al + Z.of_nat (length ys) <= 2 ^ 25 - 1 →
    ∃ v2, emplace_all 128 ys w = Done (v2, RUnit) ∧ holds xs (al + Z.of_nat (length ys)) v2) as Hys.
  { destruct (Hys _ v1 H1 ltac:(lia) ltac:(lia)) as (v2 & E2 & H2). exists v2. split_and!; [done|apply H1|done|rewrite (h_alloc _ _ _ H2); lia|apply H2|].
    intros i Hi. by eapply solo_at_beyond. }
  clear -Hl. induction ys as [|y ys IH]; intros al w H Hlt Hal; [exists w; split; [done|by rewrite Z.add_0_r]|]. cbn [length] in *.
  destruct (solo_emplace_beyond xs al w y H Hlt ltac:(lia)) as (w1 & E & H1).
  assert (E' : solo_call 128 (Emplace y) w = Done (w1, RIndex al)) by (apply (solo_call_more 16); [lia|done]).
  destruct (IH ltac:(lia) (al + 1) w1 H1 ltac:(lia) ltac:(lia)) as (v2 & E2 & H2). exists v2. split; [cbn [emplace_all]; by rewrite E'|].
  by replace (al + Z.of_nat (S (length ys))) with (al + 1 + Z.of_nat (length ys)) by lia.
Qed.
End seq.

Lemma tls_registry_gets_witness : ∃ v, TLSRegistry_new 128 [11; 22; 33] = Done (v, RUnit) ∧ getStorage 128 v 2 = Done (v, RValue 33).
Proof.
  destruct (tls_registry_gets [11; 22; 33]) as (v & E & _ & H & _); [by vm_compute|]. exists v. split; [done|]. exact (H 2%nat 33 eq_refl).
Defined.

Lemma pop_back_strands_witness : ∃ v1 v2 v, pushed [1; 2] v ∧ solo_call 6 PopBack v = Done (v1, RBool true) ∧
  emplace_all 128 [3] v1 = Done (v2, RUnit) ∧ published_ v2 = 1.
Proof.
  set (v := match emplace_all 128 [1; 2] LockFreeVector_new with Done (v, _) => v | _ => LockFreeVector_new end).
  destruct (pop_back_strands [1] 2 [3] v) as (v1 & v2 & E1 & _ & E2 & _ & E3 & _); [by vm_compute|done|].
  exists v1, v2, v. split; [by vm_compute|exact (conj E1 (conj E2 E3))].
Defined.
End ConcurrentVectorSeq.
