(* ===== verification/HappyEyeballs.v ===== *)
(** Racing connections ([HappyEyeballs.cpp]): the addresses of a host are tried one after
    the other, a new one whenever the last attempt fails or a pacer's delay is over, while
    both address families may still be resolving; the first connection wins, the others
    are closed.

    The coroutines of one race share an [HEState] under a mutex.  Every section under the
    mutex is one step, and so is every action outside it that another coroutine can notice;
    the coroutines interleave in any way (they may run on several threads).  What the name
    service and the connections answer is part of the schedule. *)

From stdpp Require Import strings.
From S2P Require Import Prelude.

Module HappyEyeballs.

Local Open Scope nat_scope.

Inductive IPV := IPV4 | IPV6.
Record ResolvedAddr := mkAddr { ip : string; ipv : IPV }.

Inductive ConnectError := GetAddrInfoFailed | SocketCreationFailed | ConnectFailed | InvalidAddressFamily | InvalidSockType
  | FcntlFailed | EpollAddFailed | AlreadyConnected | InvalidHostname | Timeout_ | Cancelled | Unknown.

(** A connected socket is known by the number of the coroutine that connected it. *)
Record HEState := mkHE {
  done_ : bool;
  parent_waiting : bool;
  parent : bool;                  (** a handle is stored *)
  addrs : list ResolvedAddr;
  max_attempts : nat;
  next_idx : nat;
  finished : nat;
  resolves_pending : nat;
  v6_resolved : bool;
  winner : option nat;
  last_error : option ConnectError
}.

Definition exhausted (st : HEState) : bool :=
  (resolves_pending st =? 0) && (next_idx st =? length (addrs st)) && (finished st =? length (addrs st)).
Definition decided (st : HEState) : bool := done_ st || exhausted st.

(** The handle of the parent, if it is to be resumed. *)
Definition take_parent_if_decided (st : HEState) : HEState * bool :=
  if decided st && parent_waiting st then ({| st with parent_waiting := false; parent := false |}, parent st) else (st, false).

(** ** The addresses *)

(** What the name service answers, as far as it is used: the family of an address and its
    numeric form, when [getnameinfo] gives one. *)
Inductive family := AF_INET | AF_INET6 | AF_OTHER.
Record addrinfo := mkInfo { ai_family : family; numeric : option string }.

Fixpoint collect_numeric (l : list addrinfo) : list ResolvedAddr :=
  match l with
  | [] => []
  | ai :: l =>
      match numeric ai, ai_family ai with
      | Some buf, AF_INET6 => mkAddr buf IPV6 :: collect_numeric l
      | Some buf, AF_INET => mkAddr buf IPV4 :: collect_numeric l
      | _, _ => collect_numeric l
      end
  end.

(** [push_back] unless the cap is reached; [None]: there is no cap. *)
Definition push_capped (cap : option nat) (o : option ResolvedAddr) (l : list ResolvedAddr) : list ResolvedAddr :=
  match o with
  | Some a => if match cap with Some n => length l <? n | None => true end then l ++ [a] else l
  | None => l
  end.

(** The loop of [weave_tail] from [i] on, [n] more times. *)
Fixpoint weave_loop (cap : option nat) (first second : list ResolvedAddr) (i n : nat) (l : list ResolvedAddr) : list ResolvedAddr :=
  match n with
  | O => l
  | S n => weave_loop cap first second (S i) n (push_capped cap (second !! i) (push_capped cap (first !! i) l))
  end.

Definition weave_tail (st : HEState) (found : list ResolvedAddr) (found_first : bool) : HEState :=
  let tail := drop (next_idx st) (addrs st) in
  let cap := if max_attempts st =? 0 then None else Some (Nat.max (max_attempts st) (next_idx st)) in
  let first := if found_first then found else tail in
  let second := if found_first then tail else found in
  {| st with addrs := weave_loop cap first second 0 (Nat.max (length first) (length second)) (take (next_idx st) (addrs st)) |}.

(** ** The coroutines *)

Inductive co :=
| AStart (a : ResolvedAddr)                        (** [he_attempt]: its first section *)
| AConnect (a : ResolvedAddr)                      (** it waits for [async_connect] *)
| ATail (lost launch wake : bool)                  (** what is left after its last section *)
| PSleep                                           (** [he_pacer] *)
| PLaunch
| RResolve (v6 : bool)                             (** [he_resolve]: it waits for [async_resolve] *)
| RCheck (found : list ResolvedAddr)               (** is the other family still resolving? *)
| RDelay (found : list ResolvedAddr)               (** [resolution_delay] *)
| RSection (v6 : bool) (found : list ResolvedAddr)
| RKick (wake : bool)                              (** [kick_if_stalled] *)
| RLaunch (wake : bool)
| RWake (wake : bool)
| Ended.

(** The coroutine that called [connect_happy] or [connect_happy_addrs]. *)
Inductive caller :=
| CReady                                           (** [RaceAwaiter::await_ready] *)
| CSuspend                                         (** [await_suspend] *)
| CWaiting                                         (** suspended *)
| CResult                                          (** it takes the result *)
| CReturned (r : nat + ConnectError).

Record race := mkRace {
  st : HEState;
  cos : list co;
  par : caller;
  by_name : bool;                                  (** [connect_happy] *)
  resolution_delay : bool;                         (** it is not zero *)
  launched : list ResolvedAddr;                    (** history: the addresses of the attempts, in order *)
  connected : list nat;                            (** the sockets that were connected, the latest first *)
  closed : list nat                                (** those that were shut down *)
}.

Definition goto (k : nat) (c : co) (w : race) : race := {| w with cos := <[k := c]> (cos w) |}.

(** ** [launch_next] and [resume_parent] *)

Definition launch_next (w : race) : race :=
  if done_ (st w) then w
  else match addrs (st w) !! next_idx (st w) with
       | None => w
       | Some a => {| w with st := {| (st w) with next_idx := S (next_idx (st w)) |}; cos := cos w ++ [AStart a]; launched := launched w ++ [a] |}
       end.

(** Resuming a coroutine that is not suspended is undefined. *)
Definition resume_parent (w : race) : outcome race :=
  match par w with CWaiting => Done {| w with par := CResult |} | _ => UB end.

(** ** [he_attempt] *)

Definition attempt_start (k : nat) (a : ResolvedAddr) (w : race) : race :=
  if done_ (st w) then
    let '(s, wake) := take_parent_if_decided {| (st w) with finished := S (finished (st w)) |} in
    goto k (ATail false false wake) {| w with st := s |}
  else goto k (AConnect a) w.

(** [async_connect] has answered. *)
Definition attempt_finish (k : nat) (err : option ConnectError) (w : race) : race :=
  let s := {| (st w) with finished := S (finished (st w)) |} in
  match err with
  | None =>
      let w := {| w with connected := k :: connected w |} in
      if done_ s then
        let '(s, wake) := take_parent_if_decided s in goto k (ATail true false wake) {| w with st := s |}
      else
        let '(s, wake) := take_parent_if_decided {| s with done_ := true; winner := Some k |} in goto k (ATail false false wake) {| w with st := s |}
  | Some e =>
      let launch_early := negb (done_ s) && (next_idx s <? length (addrs s)) in
      let '(s, wake) := take_parent_if_decided {| s with last_error := Some e |} in
      goto k (ATail false launch_early wake) {| w with st := s |}
  end.

(** The socket is closed, the next attempt is launched, the parent is resumed. *)
Definition attempt_tail (k : nat) (lost launch wake : bool) (w : race) : outcome race :=
  if lost then Done (goto k (ATail false launch wake) {| w with closed := k :: closed w |})
  else if launch then Done (goto k (ATail false false wake) (launch_next w))
  else if wake then resume_parent (goto k Ended w)
  else Done (goto k Ended w).

(** ** [he_pacer] *)

Definition pacer_step (k : nat) (w : race) : race :=
  let s := st w in
  if done_ s || ((resolves_pending s =? 0) && (length (addrs s) <=? next_idx s)) then goto k Ended w else goto k PLaunch w.

(** ** [he_resolve] *)

(** [async_resolve] has answered. *)
Definition resolve_answer (k : nat) (v6 : bool) (resolved : option (list addrinfo)) (w : race) : race :=
  let found := match resolved with Some l => collect_numeric l | None => [] end in
  goto k (if negb v6 && negb (bool_decide (found = [])) && resolution_delay w then RCheck found else RSection v6 found) w.

Definition resolve_check (k : nat) (found : list ResolvedAddr) (w : race) : race :=
  goto k (if negb (v6_resolved (st w)) && negb (done_ (st w)) then RDelay found else RSection false found) w.

Definition resolve_section (k : nat) (v6 : bool) (found : list ResolvedAddr) (w : race) : race :=
  let s := {| (st w) with v6_resolved := v6 || v6_resolved (st w); resolves_pending := resolves_pending (st w) - 1 |} in
  let s := if negb (done_ s) && negb (bool_decide (found = [])) then weave_tail s found v6 else s in
  let '(s, wake) := take_parent_if_decided s in
  goto k (RKick wake) {| w with st := s |}.

Definition kick_if_stalled (k : nat) (wake : bool) (w : race) : race :=
  let s := st w in
  if done_ s || (length (addrs s) <=? next_idx s) || negb (finished s =? next_idx s) then goto k (RWake wake) w else goto k (RLaunch wake) w.

(** ** The machine *)

Inductive answer := NoAnswer | ConnectAnswer (e : option ConnectError) | ResolveAnswer (l : option (list addrinfo)).

Definition co_step (k : nat) (ans : answer) (w : race) : option (outcome race) :=
  c ← cos w !! k;
  match c, ans with
  | AStart a, NoAnswer => Some (Done (attempt_start k a w))
  | AConnect _, ConnectAnswer e => Some (Done (attempt_finish k e w))
  | ATail lost launch wake, NoAnswer => Some (attempt_tail k lost launch wake w)
  | PSleep, NoAnswer => Some (Done (pacer_step k w))
  | PLaunch, NoAnswer => Some (Done (goto k PSleep (launch_next w)))
  | RResolve v6, ResolveAnswer l => Some (Done (resolve_answer k v6 l w))
  | RCheck found, NoAnswer => Some (Done (resolve_check k found w))
  | RDelay found, NoAnswer => Some (Done (goto k (RSection false found) w))
  | RSection v6 found, NoAnswer => Some (Done (resolve_section k v6 found w))
  | RKick wake, NoAnswer => Some (Done (kick_if_stalled k wake w))
  | RLaunch wake, NoAnswer => Some (Done (goto k (RWake wake) (launch_next w)))
  | RWake wake, NoAnswer => Some (if wake then resume_parent (goto k Ended w) else Done (goto k Ended w))
  | _, _ => None
  end.

(** The end of [connect_happy] and [connect_happy_addrs]. *)
Definition result_of (w : race) : nat + ConnectError :=
  match winner (st w) with
  | Some k => inl k
  | None => if by_name w && bool_decide (addrs (st w) = []) then inr GetAddrInfoFailed else inr (default ConnectFailed (last_error (st w)))
  end.

Definition caller_step (w : race) : option race :=
  match par w with
  | CReady => Some {| w with par := if decided (st w) then CResult else CSuspend |}
  | CSuspend =>
      if decided (st w) then Some {| w with par := CResult |}
      else Some {| w with st := {| (st w) with parent := true; parent_waiting := true |}; par := CWaiting |}
  | CResult => Some {| w with par := CReturned (result_of w) |}
  | _ => None
  end.

Inductive action := Co (k : nat) (ans : answer) | Caller.

Definition act (a : action) (w : race) : option (outcome race) :=
  match a with Co k ans => co_step k ans w | Caller => Done <$> caller_step w end.

Definition HEState_new (l : list ResolvedAddr) (m : nat) : HEState := mkHE false false false l m 0 0 0 false None None.

(** Up to its [co_await]: the first attempt is launched, and the pacer if there is another
    address.  An empty list is an error at once. *)
Definition connect_happy_addrs (l : list ResolvedAddr) (max : nat) : race + ConnectError :=
  match l with
  | [] => inr GetAddrInfoFailed
  | _ =>
      let l := if (0 <? max) && (max <? length l) then take max l else l in
      let w := launch_next (mkRace (HEState_new l max) [] CReady false false [] [] []) in
      inl (if 1 <? length l then {| w with cos := cos w ++ [PSleep] |} else w)
  end.

Definition connect_happy (max : nat) (delay : bool) : race :=
  mkRace {| (HEState_new [] max) with resolves_pending := 2 |} [RResolve true; RResolve false; PSleep] CReady true delay [] [] [].

Inductive started : race → Prop :=
| started_addrs l max w : connect_happy_addrs l max = inl w → started w
| started_name max delay : started (connect_happy max delay).

Definition step (w w' : race) : Prop := ∃ a, act a w = Some (Done w').
Definition reachable (w : race) : Prop := ∃ w0, started w0 ∧ rtc step w0 w.

Fixpoint run (l : list action) (w : race) : option (outcome race) :=
  match l with
  | [] => Some (Done w)
  | a :: l => match act a w with Some (Done w') => run l w' | o => o end
  end.
End HappyEyeballs.
