(* ===== verification/HappyEyeballsInv.v ===== *)
(** The invariant of a race of connections: how many attempts and resolutions are under
    way, who will resume the caller, and what becomes of every connected socket. *)

From S2P Require Import Prelude HappyEyeballs.

Module HappyEyeballsInv.
Import HappyEyeballs.
Local Open Scope nat_scope.
Implicit Types (w : race) (s : HEState) (c : co) (k : nat).

(** * Counting coroutines *)

(** Attempts that have not finished. *)
Definition live c : nat := match c with AStart _ | AConnect _ => 1 | _ => 0 end.
(** Resolutions that have not reported. *)
Definition pend c : nat := match c with RResolve _ | RCheck _ | RDelay _ | RSection _ _ => 1 | _ => 0 end.
(** Those that will resume the caller. *)
Definition wakes c : nat := match c with ATail _ _ b | RKick b | RLaunch b | RWake b => Nat.b2n b | _ => 0 end.
Definition paces c : nat := match c with PSleep | PLaunch => 1 | _ => 0 end.

Definition cnt (f : co → nat) (l : list co) : nat := sum_list_with f l.

Lemma cnt_app f l1 l2 : cnt f (l1 ++ l2) = cnt f l1 + cnt f l2.
Proof. apply sum_list_with_app. Qed.

Lemma cnt_insert f l k c c' : l !! k = Some c → cnt f (<[k := c']> l) + f c = cnt f l + f c'.
Proof.
  revert k. induction l as [|d l IH]; intros [|k]; cbn; [done|done|intros [= ->]; lia|]. intros H. pose proof (IH k H). change (f d + cnt f (<[k := c']> l) + f c = f d + cnt f l + f c'). lia.
Qed.

Lemma cnt_elem f l k c : l !! k = Some c → f c <= cnt f l.
Proof.
  revert k. induction l as [|d l IH]; intros [|k]; cbn; [done|done|intros [= ->]; lia|]. intros H. pose proof (IH k H) as Hk. unfold cnt in Hk. cbn in Hk. lia.
Qed.

Lemma cnt_zero f l : cnt f l = 0 ↔ ∀ k c, l !! k = Some c → f c = 0.
Proof.
  split; [intros H k c Hk; pose proof (cnt_elem f l k c Hk); lia|]. induction l as [|d l IH]; intros H; [done|]. cbn.
  pose proof (H 0 d eq_refl). assert (E : cnt f l = 0) by (apply IH; intros k c Hk; by apply (H (S k))). unfold cnt in E. lia.
Qed.

Lemma cnt_one f c : cnt f [c] = f c.
Proof. unfold cnt. cbn. lia. Qed.
#[global] Arguments cnt : simpl never.
#[global] Arguments decided : simpl never.
#[global] Arguments exhausted : simpl never.

(** * The invariant *)

Record numbers w : Prop := {
  n_live : next_idx (st w) = finished (st w) + cnt live (cos w);
  n_next : next_idx (st w) <= length (addrs (st w));
  n_pend : resolves_pending (st w) = cnt pend (cos w);
  n_pacer : 0 < cnt paces (cos w) ∨ done_ (st w) = true ∨ resolves_pending (st w) = 0 ∧ next_idx (st w) = length (addrs (st w));
  n_launched : launched w = take (next_idx (st w)) (addrs (st w));
  n_max : 0 < max_attempts (st w) → length (addrs (st w)) <= max_attempts (st w)
}.

Definition is_waiting (c : caller) : bool := match c with CWaiting => true | _ => false end.

Record waking w : Prop := {
  w_count : Nat.b2n (parent_waiting (st w)) + cnt wakes (cos w) = Nat.b2n (is_waiting (par w));
  w_parent : parent (st w) = parent_waiting (st w);
  w_waiting : parent_waiting (st w) = true → decided (st w) = false;
  w_decided : match par w with CResult | CReturned _ => decided (st w) = true | _ => True end;
  w_tokens : 0 < cnt wakes (cos w) → decided (st w) = true;
  w_result : match par w with CReturned (inl k) => winner (st w) = Some k | CReturned (inr _) => done_ (st w) = false | _ => True end
}.

Definition lost w k : Prop := ∃ launch wake, cos w !! k = Some (ATail true launch wake).
Definition over c : bool := match c with ATail _ _ _ | Ended => true | _ => false end.

Record fates w : Prop := {
  f_done : done_ (st w) = true ↔ is_Some (winner (st w));
  f_fate k : k ∈ connected w ↔ winner (st w) = Some k ∨ k ∈ closed w ∨ lost w k;
  f_winner k : winner (st w) = Some k → k ∉ closed w ∧ ¬ lost w k;
  f_lost k : lost w k → k ∉ closed w;
  f_over k : k ∈ connected w → ∃ c, cos w !! k = Some c ∧ over c = true;
  f_first k : k ∈ connected w → done_ (st w) = true;
  f_nodup : NoDup (connected w) ∧ NoDup (closed w)
}.

Definition inv w : Prop := numbers w ∧ waking w ∧ fates w.

(** * Parts of the steps *)

Lemma take_parent_spec s s' b : take_parent_if_decided s = (s', b) → parent s = parent_waiting s →
  (∃ p, s' = {| s with parent_waiting := p; parent := p |} ∧ Nat.b2n p + Nat.b2n b = Nat.b2n (parent_waiting s) ∧ (p = true → decided s = false) ∧ (b = true → decided s = true)).
Proof.
  intros H Hp. unfold take_parent_if_decided in H. destruct s as [a1 pw pa a2 a3 a4 a5 a6 a7 a8 a9]. cbn in *. subst pa.
  set (s := mkHE _ _ _ _ _ _ _ _ _ _ _) in *. destruct (decided s) eqn:E, pw; cbn in H; simplify_eq; (eexists; split; [reflexivity|]); cbn; auto.
Qed.

Lemma decided_ext s s' : done_ s' = done_ s → resolves_pending s' = resolves_pending s → next_idx s' = next_idx s → addrs s' = addrs s → finished s' = finished s →
  decided s' = decided s.
Proof. unfold decided, exhausted. by intros -> -> -> -> ->. Qed.

Lemma exhausted_spec s : exhausted s = true ↔ resolves_pending s = 0 ∧ next_idx s = length (addrs s) ∧ finished s = length (addrs s).
Proof. unfold exhausted. rewrite !andb_true_iff, !Nat.eqb_eq. tauto. Qed.

(** ** [weave_tail] *)

(** Two lists in turn, the rest of the longer one behind. *)
Fixpoint interleave (l1 l2 : list ResolvedAddr) : list ResolvedAddr :=
  match l1, l2 with
  | [], _ => l2
  | _, [] => l1
  | a :: l1, b :: l2 => a :: b :: interleave l1 l2
  end.

Definition limit (cap : option nat) (l : list ResolvedAddr) : list ResolvedAddr := match cap with Some n => take n l | None => l end.

Lemma push_capped_limit cap o l r : match cap with Some n => length l <= n | None => True end →
  limit cap (push_capped cap o l ++ r) = limit cap (l ++ option_list o ++ r) ∧ match cap with Some n => length (push_capped cap o l) <= n | None => True end.
Proof.
  intros Hl. destruct o as [a|]; [|done]. unfold limit, push_capped. destruct cap as [n|]; [|by rewrite <- app_assoc]. destruct (Nat.ltb_spec (length l) n) as [Hlt|Hge].
  - rewrite <- app_assoc, length_app. cbn. split; [done|lia].
  - split; [|done]. rewrite !take_app. replace (n - length l) with 0 by lia. done.
Qed.

Lemma interleave_nil_r l : interleave l [] = l.
Proof. by destruct l. Qed.

Lemma interleave_drop l1 l2 i : interleave (drop i l1) (drop i l2) = option_list (l1 !! i) ++ option_list (l2 !! i) ++ interleave (drop (S i) l1) (drop (S i) l2).
Proof.
  destruct (l1 !! i) as [a|] eqn:E1, (l2 !! i) as [b|] eqn:E2; cbn [option_list];
    rewrite ?(drop_S _ _ _ E1), ?(drop_S _ _ _ E2); try apply lookup_ge_None in E1; try apply lookup_ge_None in E2; cbn [app interleave]; [done|..].
  - rewrite (drop_ge l2 i), (drop_ge l2 (S i)), interleave_nil_r by lia. done.
  - rewrite (drop_ge l1 i), (drop_ge l1 (S i)) by lia. done.
  - by rewrite !(drop_ge l1), !(drop_ge l2) by lia.
Qed.

Lemma weave_loop_spec cap first second i n l : match cap with Some m => length l <= m | None => True end →
  Nat.max (length first) (length second) <= i + n →
  weave_loop cap first second i n l = limit cap (l ++ interleave (drop i first) (drop i second)).
Proof.
  revert i l. induction n as [|n IH]; intros i l Hl Hn; cbn [weave_loop].
  - rewrite !drop_ge by lia. cbn. rewrite app_nil_r. destruct cap as [m|]; cbn; [by rewrite take_ge|done].
  - destruct (push_capped_limit cap (first !! i) l (option_list (second !! i) ++ interleave (drop (S i) first) (drop (S i) second)) Hl) as [E1 H1].
    destruct (push_capped_limit cap (second !! i) (push_capped cap (first !! i) l) (interleave (drop (S i) first) (drop (S i) second)) H1) as [E2 H2].
    rewrite IH, E2, E1, (interleave_drop first second i) by (done || lia). done.
Qed.

Lemma weave_tail_spec s found ff : next_idx s <= length (addrs s) → (0 < max_attempts s → length (addrs s) <= max_attempts s) →
  let l := addrs (weave_tail s found ff) in
  take (next_idx s) l = take (next_idx s) (addrs s) ∧ next_idx s <= length l ∧ (0 < max_attempts s → length l <= max_attempts s).
Proof.
  intros Hn Hm. cbn. set (cap := if max_attempts s =? 0 then None else Some (Nat.max (max_attempts s) (next_idx s))).
  assert (Ht : length (take (next_idx s) (addrs s)) = next_idx s) by (rewrite length_take; lia).
  rewrite weave_loop_spec; [|unfold cap; destruct (max_attempts s =? 0); [done|lia]|lia].
  set (r := interleave _ _). unfold cap. destruct (Nat.eqb_spec (max_attempts s) 0) as [E|E]; cbn.
  - rewrite take_app_le, take_ge, length_app by lia. split_and!; [done|lia|lia].
  - rewrite take_take, length_take, length_app, Ht. replace (next_idx s `min` (max_attempts s `max` next_idx s)) with (next_idx s) by lia.
    rewrite take_app_le, (take_ge (take _ _)) by lia. split_and!; [done|lia|intros Hp; specialize (Hm Hp); lia].
Qed.

(** * A coroutine moves *)

Lemma numbers_goto w k c c' : numbers w → cos w !! k = Some c → live c' = live c → pend c' = pend c →
  paces c <= paces c' ∨ done_ (st w) = true ∨ resolves_pending (st w) = 0 ∧ next_idx (st w) = length (addrs (st w)) → numbers (goto k c' w).
Proof.
  intros [Hl Hn Hp Hpa Hla Hm] Hk El Ep Hpc. pose proof (cnt_insert live _ _ _ c' Hk). pose proof (cnt_insert pend _ _ _ c' Hk). pose proof (cnt_insert paces _ _ _ c' Hk).
  constructor; cbn [goto st cos launched]; try done; try lia. destruct Hpc as [?|[?|?]], Hpa as [?|[?|?]]; auto. left. lia.
Qed.

Lemma waking_goto w k c c' : waking w → cos w !! k = Some c → wakes c' = wakes c → waking (goto k c' w).
Proof.
  intros [Hc Hp Hw Hd Ht Hr] Hk E. pose proof (cnt_insert wakes _ _ _ c' Hk). constructor; cbn [goto st cos par]; try done; [lia|]. intros ?. apply Ht. lia.
Qed.

Definition is_lost c : bool := match c with ATail true _ _ => true | _ => false end.

Lemma lost_iff w k : lost w k ↔ ∃ c, cos w !! k = Some c ∧ is_lost c = true.
Proof.
  split; [intros (l & b & H); eauto|]. intros (c & H & E). destruct c as [| |[] l b| | | | | | | | | |]; try done. by exists l, b.
Qed.

Lemma lost_insert w w' k c c' : cos w' = <[k := c']> (cos w) → cos w !! k = Some c → is_lost c' = is_lost c → ∀ j, lost w' j ↔ lost w j.
Proof.
  intros E Hk El j. rewrite !lost_iff, E. destruct (decide (j = k)) as [->|Hj]; [|by rewrite list_lookup_insert_ne].
  rewrite list_lookup_insert_eq by (by eapply lookup_lt_Some). rewrite Hk. split; intros (d & [= <-] & H); eexists; (split; [done|congruence]).
Qed.

Lemma fates_goto w k c c' : fates w → cos w !! k = Some c → is_lost c' = is_lost c → (over c = true → over c' = true) → fates (goto k c' w).
Proof.
  intros [Hd Hf Hw Hl Ho Hfi Hnd] Hk El Eo. pose proof (lost_insert w (goto k c' w) k c c' eq_refl Hk El) as Hlo.
  constructor; cbn [st connected closed goto]; try done.
  - intros j. rewrite Hlo. apply Hf.
  - intros j Hj. rewrite Hlo. by apply Hw.
  - intros j. rewrite Hlo. apply Hl.
  - intros j Hj. destruct (Ho j Hj) as (d & Hd' & Hov). destruct (decide (j = k)) as [->|Hn].
    + exists c'. cbn. rewrite list_lookup_insert_eq by (by eapply lookup_lt_Some). split; [done|]. apply Eo. congruence.
    + exists d. cbn. by rewrite list_lookup_insert_ne.
Qed.

Lemma race_goto w k c c' : inv w → cos w !! k = Some c → live c' = live c → pend c' = pend c →
  paces c <= paces c' ∨ done_ (st w) = true ∨ resolves_pending (st w) = 0 ∧ next_idx (st w) = length (addrs (st w)) →
  wakes c' = wakes c → is_lost c' = is_lost c → (over c = true → over c' = true) → inv (goto k c' w).
Proof. intros (Hn & Hw & Hf) **. split_and!; [by eapply numbers_goto|by eapply waking_goto|by eapply fates_goto]. Qed.

(** ** [launch_next] *)

Lemma launch_next_cases w : launch_next w = w ∨ ∃ a, done_ (st w) = false ∧ addrs (st w) !! next_idx (st w) = Some a ∧
  launch_next w = {| w with st := {| (st w) with next_idx := S (next_idx (st w)) |}; cos := cos w ++ [AStart a]; launched := launched w ++ [a] |}.
Proof.
  unfold launch_next. destruct w as [[d ? ? ad ? n] ? ? ? ? ? ? ?]. cbn. destruct d; [by left|]. destruct (ad !! n) as [a|]; [right; by exists a|by left].
Qed.

Lemma inv_launch w : inv w → inv (launch_next w).
Proof.
  intros (Hn & Hw & Hf). destruct (launch_next_cases w) as [->|(a & Ed & Ea & ->)]; [done|]. pose proof (lookup_lt_Some _ _ _ Ea) as Hlt.
  destruct w as [s l p b d la co cl]. cbn in *. split_and!.
  - destruct Hn as [Hl Hnx Hp Hpa Hla Hm]. cbn in *. constructor; cbn; rewrite ?cnt_app, ?cnt_one; cbn; try lia; try done.
    + destruct Hpa as [?|[?|?]]; [left; lia|congruence|lia].
    + by rewrite Hla, (take_S_r _ _ a).
  - destruct Hw as [Hc Hpw Hwt Hdc Ht Hr]. cbn in *.
    assert (Hud : decided s = false).
    { unfold decided. rewrite Ed. cbn [orb]. apply not_true_is_false. rewrite exhausted_spec. destruct Hn as [? _ _ _ _ _]. lia. }
    assert (Hud' : ∀ s', done_ s' = false → next_idx s' = S (next_idx s) → finished s' = finished s → decided s' = false).
    { intros s' E1 E2 E3. unfold decided. rewrite E1. cbn [orb]. apply not_true_is_false. rewrite exhausted_spec. destruct Hn as [Hl _ _ _ _ _]. cbn in Hl. lia. }
    constructor; cbn; rewrite ?cnt_app, ?cnt_one; cbn; try done; [lia|..].
    + intros _. by apply Hud'.
    + destruct p; try done; congruence.
    + intros H. rewrite Nat.add_0_r in H. apply Ht in H. congruence.
  - destruct Hf as [Hd Hfa Hwi Hl Ho Hfi Hnd]. cbn in *.
    assert (Hlo : ∀ j, lost {| st := {| s with next_idx := S (next_idx s) |}; cos := l ++ [AStart a]; par := p; by_name := b; resolution_delay := d; launched := la ++ [a]; connected := co; closed := cl |} j
      ↔ lost {| st := s; cos := l; par := p; by_name := b; resolution_delay := d; launched := la; connected := co; closed := cl |} j).
    { intros j. rewrite !lost_iff. cbn. split; intros (c & Hc & E); exists c; (split; [|done]).
      - apply lookup_snoc_Some in Hc as [[_ ?]|[_ <-]]; done.
      - by apply lookup_app_l_Some. }
    constructor; cbn; try done.
    + intros j. rewrite Hlo. apply Hfa.
    + intros j Hj. rewrite Hlo. by apply Hwi.
    + intros j. rewrite Hlo. apply Hl.
    + intros j Hj. destruct (Ho j Hj) as (c & Hc & E). exists c. split; [|done]. by apply lookup_app_l_Some.
Qed.

Lemma launch_cos w k c : cos w !! k = Some c → cos (launch_next w) !! k = Some c.
Proof.
  intros H. unfold launch_next. destruct (done_ (st w)); [done|]. destruct (addrs (st w) !! next_idx (st w)); [|done]. cbn. by apply lookup_app_l_Some.
Qed.

(** ** [resume_parent] *)

Lemma inv_resume w k c : inv w → cos w !! k = Some c → wakes c = 1 → live c = 0 → pend c = 0 → paces c = 0 → is_lost c = false →
  ∃ w', resume_parent (goto k Ended w) = Done w' ∧ inv w'.
Proof.
  intros (Hn & Hw & Hf) Hk Ew El Ep Epa Elo. pose proof (cnt_insert wakes _ _ _ Ended Hk) as Hc. pose proof (cnt_elem wakes _ _ _ Hk) as He.
  destruct Hw as [Hcw Hpw Hwt Hdc Ht Hr]. unfold resume_parent. cbn [par goto]. destruct (par w) eqn:Epar; cbn in Hcw, Hc; try lia.
  eexists. split; [reflexivity|]. split_and!.
  - destruct (numbers_goto w k c Ended Hn Hk) as [? ? ? ? ? ?]; [done|done|left; cbn; lia|]. by constructor.
  - constructor; cbn [goto st cos par is_waiting Nat.b2n]; try done; [lia|by apply Ht; lia|]. intros ?. apply Ht. lia.
  - destruct (fates_goto w k c Ended Hf Hk) as [? ? ? ? ? ? ?]; [done|done|]. by constructor.
Qed.

(** ** A section that ends with [take_parent_if_decided] *)

Lemma waking_section w k c c' s s' b conn : waking w → cos w !! k = Some c → wakes c = 0 →
  parent s = parent (st w) → parent_waiting s = parent_waiting (st w) → (decided (st w) = true → decided s = true) →
  match par w with CReturned (inl j) => winner s = Some j | CReturned (inr _) => done_ s = false | _ => True end →
  take_parent_if_decided s = (s', b) → wakes c' = Nat.b2n b →
  waking (goto k c' {| w with st := s'; connected := conn |}).
Proof.
  intros [Hc Hp Hw Hd Ht Hr] Hk E0 Ep Epw Hst Hres Htk Ew. destruct (take_parent_spec s s' b Htk ltac:(congruence)) as (p & -> & Hb & Hpd & Hbd).
  assert (Hdec : decided {| s with parent_waiting := p; parent := p |} = decided s) by (by apply decided_ext).
  pose proof (cnt_insert wakes _ _ _ c' Hk) as Hcnt. constructor; cbn [goto st cos par parent parent_waiting winner done_]; rewrite ?Hdec; try done.
  - rewrite Epw in Hb. lia.
  - destruct (par w); try done; by apply Hst.
  - intros Hpos. destruct b; [by apply Hbd|]. apply Hst, Ht. cbn in Ew. lia.
Qed.

(** What a section does to the other fields. *)
Lemma take_parent_fields s s' b : take_parent_if_decided s = (s', b) →
  next_idx s' = next_idx s ∧ finished s' = finished s ∧ addrs s' = addrs s ∧ resolves_pending s' = resolves_pending s ∧
  done_ s' = done_ s ∧ max_attempts s' = max_attempts s ∧ winner s' = winner s.
Proof. unfold take_parent_if_decided. destruct (decided s && parent_waiting s); intros [= <- <-]; done. Qed.

(** While an attempt or a resolution is under way, only a winner decides. *)
Lemma undecided_done w k c : numbers w → cos w !! k = Some c → 0 < live c + pend c → decided (st w) = done_ (st w).
Proof.
  intros [Hl Hn Hp _ _ _] Hk H. unfold decided. destruct (done_ (st w)); [done|]. cbn [orb]. apply not_true_is_false. rewrite exhausted_spec.
  pose proof (cnt_elem live _ _ _ Hk). pose proof (cnt_elem pend _ _ _ Hk). lia.
Qed.

(** A caller that has returned without a socket is not waited for by any of them. *)
Lemma returned_result w k c s : numbers w → waking w → cos w !! k = Some c → 0 < live c + pend c →
  (done_ (st w) = true → winner s = winner (st w)) → (∀ j, winner (st w) = Some j → done_ (st w) = true) →
  match par w with CReturned (inl j) => winner s = Some j | CReturned (inr _) => done_ s = false | _ => True end.
Proof.
  intros Hn Hw Hk H Hwin Hdone. pose proof (undecided_done w k c Hn Hk H) as Hd. destruct Hw as [_ _ _ Hdc _ Hr].
  destruct (par w) as [| | | |[j|e]]; try done; [rewrite Hwin; [done|by eapply Hdone]|]. congruence.
Qed.

(** ** [he_attempt] *)

Lemma numbers_finish w k c c' s conn : numbers w → cos w !! k = Some c → live c = 1 → pend c = 0 → paces c = 0 →
  live c' = 0 → pend c' = 0 → paces c' = 0 → next_idx s = next_idx (st w) → finished s = S (finished (st w)) → addrs s = addrs (st w) →
  resolves_pending s = resolves_pending (st w) → max_attempts s = max_attempts (st w) → (done_ (st w) = true → done_ s = true) →
  numbers (goto k c' {| w with st := s; connected := conn |}).
Proof.
  intros [Hl Hnx Hp Hpa Hla Hm] Hk L1 P1 A1 L2 P2 A2 E1 E2 E3 E4 E5 E6.
  pose proof (cnt_insert live _ _ _ c' Hk). pose proof (cnt_insert pend _ _ _ c' Hk). pose proof (cnt_insert paces _ _ _ c' Hk).
  constructor; cbn [goto st cos launched]; rewrite ?E1, ?E2, ?E3, ?E4, ?E5; try done; try lia.
  destruct Hpa as [?|[?|?]]; [left; lia|right; left; by apply E6|right; right; done].
Qed.

Lemma inv_attempt_start w k a : inv w → cos w !! k = Some (AStart a) → inv (attempt_start k a w).
Proof.
  intros Hi Hk. unfold attempt_start. destruct (decide (done_ (st w) = true)) as [Ed|Ed%not_true_is_false].
  2: { rewrite (if_false _ _ _ Ed). eapply race_goto; try done. by left. }
  rewrite (if_true _ _ _ Ed). destruct Hi as (Hn & Hw & Hf). destruct (take_parent_if_decided _) as [s' b] eqn:Et.
  destruct (take_parent_fields _ _ _ Et) as (E1 & E2 & E3 & E4 & E5 & E6 & E7). cbn in E1, E2, E3, E4, E5, E6, E7.
  split_and!.
  - eapply (numbers_finish w); try done. congruence.
  - eapply (waking_section w); [done|exact Hk|done|..|exact Et|done]; try done.
    + intros _. unfold decided. cbn. by rewrite Ed.
    + eapply returned_result; [done|done|exact Hk|cbn; lia|done|done].
  - destruct (fates_goto _ k (AStart a) (ATail false false b) Hf Hk) as [Hd Hfa Hwi Hlo Ho Hfi Hnd]; [done|done|].
    constructor; cbn [goto st connected closed cos] in *; rewrite ?E5, ?E7; done.
Qed.

(** A socket is connected: it is the winner, or it will be closed. *)
Lemma fates_connected w k a s launch b : fates w → cos w !! k = Some (AConnect a) → done_ s = true →
  winner s = (if done_ (st w) then winner (st w) else Some k) →
  fates (goto k (ATail (done_ (st w)) launch b) {| w with st := s; connected := k :: connected w |}).
Proof.
  intros [Hd Hfa Hwi Hl Ho Hfi Hnd] Hk Es Ew. set (w' := goto _ _ _).
  assert (Hnk : k ∉ connected w). { intros Hin. destruct (Ho k Hin) as (c & Hc & E). rewrite Hk in Hc. by injection Hc as <-. }
  assert (Hlk : ¬ lost w k). { rewrite lost_iff. intros (c & Hc & E). rewrite Hk in Hc. by injection Hc as <-. }
  assert (Hcl : k ∉ closed w) by (intros Hc; apply Hnk, Hfa; eauto). assert (Hwk : winner (st w) ≠ Some k) by (intros Hc; apply Hnk, Hfa; eauto).
  assert (Hck : cos w' !! k = Some (ATail (done_ (st w)) launch b)) by (apply list_lookup_insert_eq; by eapply lookup_lt_Some).
  assert (Hloj : ∀ j, j ≠ k → lost w' j ↔ lost w j) by (intros j Hj; rewrite !lost_iff; cbn [w' goto cos]; by rewrite list_lookup_insert_ne).
  assert (Hlok : lost w' k ↔ done_ (st w) = true).
  { rewrite lost_iff, Hck. split; [intros (c & [= <-] & E); by destruct (done_ (st w))|]. intros E. eexists. split; [done|]. by rewrite E. }
  assert (Hnw : done_ (st w) = false → winner (st w) = None).
  { intros E. destruct (winner (st w)) eqn:Ewi; [|done]. assert (done_ (st w) = true) by (apply Hd; eauto). congruence. }
  constructor; cbn [w' goto st connected closed]; fold w'.
  - rewrite Es, Ew. split; [|done]. intros _. destruct (done_ (st w)) eqn:E; [by apply Hd|eauto].
  - intros j. rewrite elem_of_cons, Ew. destruct (decide (j = k)) as [->|Hj].
    + rewrite Hlok. split; [|by left]. intros _. destruct (done_ (st w)) eqn:E; auto.
    + rewrite Hloj, Hfa by done. destruct (done_ (st w)) eqn:E; [tauto|]. rewrite Hnw by done. split; [intros [?|[?|?]]; [done|done|naive_solver]|].
      intros [[= ->]|?]; [done|tauto].
  - intros j. rewrite Ew. destruct (done_ (st w)) eqn:E.
    + intros Hj. assert (j ≠ k) by congruence. rewrite Hloj by done. by apply Hwi.
    + intros [= <-]. split; [done|]. rewrite Hlok. done.
  - intros j Hj. destruct (decide (j = k)) as [->|Hjk]; [done|]. apply Hl. by apply Hloj.
  - intros j [->|Hj]%elem_of_cons; [eauto|]. destruct (Ho j Hj) as (c & Hc & E). exists c. split; [|done]. cbn [w' goto cos].
    rewrite list_lookup_insert_ne; [done|]. intros <-. done.
  - intros j _. done.
  - destruct Hnd. split; [by constructor|done].
Qed.

Lemma inv_attempt_finish w k a err : inv w → cos w !! k = Some (AConnect a) → inv (attempt_finish k err w).
Proof.
  intros (Hn & Hw & Hf) Hk. pose proof (undecided_done _ _ _ Hn Hk ltac:(cbn; lia)) as Hud.
  assert (Hwd : ∀ j, winner (st w) = Some j → done_ (st w) = true) by (intros j Hj; apply (f_done _ Hf); eauto).
  unfold attempt_finish. destruct err as [e|]; cbn [done_ next_idx addrs].
  - destruct (take_parent_if_decided _) as [s' b] eqn:Et.
    destruct (take_parent_fields _ _ _ Et) as (E1 & E2 & E3 & E4 & E5 & E6 & E7). cbn in E1, E2, E3, E4, E5, E6, E7. split_and!.
    + eapply (numbers_finish w); try done. congruence.
    + eapply (waking_section w); [done|exact Hk|done|..|exact Et|done]; try done.
      * intros H. unfold decided. cbn. by rewrite <- Hud, H.
      * eapply returned_result; [done|done|exact Hk|cbn; lia|done|done].
    + destruct (fates_goto _ k (AConnect a) (ATail false (negb (done_ (st w)) && (next_idx (st w) <? length (addrs (st w)))) b) Hf Hk)
        as [Hd Hfa Hwi Hlo Ho Hfi Hnd]; [done|done|]. constructor; cbn [goto st connected closed cos] in *; rewrite ?E5, ?E7; done.
  - destruct (decide (done_ (st w) = true)) as [Ed|Ed%not_true_is_false]; [rewrite (if_true _ _ _ Ed)|rewrite (if_false _ _ _ Ed)];
      destruct (take_parent_if_decided _) as [s' b] eqn:Et;
      destruct (take_parent_fields _ _ _ Et) as (E1 & E2 & E3 & E4 & E5 & E6 & E7); cbn in E1, E2, E3, E4, E5, E6, E7; split_and!.
    + eapply (numbers_finish w); try done. congruence.
    + eapply (waking_section w); [done|exact Hk|done|..|exact Et|done]; try done.
      * intros H. unfold decided. cbn. by rewrite Ed.
      * eapply returned_result; [done|done|exact Hk|cbn; lia|done|done].
    + pose proof (fates_connected w k a s' false b Hf Hk) as H. rewrite Ed in H. apply H; [by rewrite E5|done].
    + eapply (numbers_finish w); try done.
    + eapply (waking_section w); [done|exact Hk|done|..|exact Et|done]; try done.
      eapply returned_result; [done|done|exact Hk|cbn; lia|by rewrite Ed|done].
    + pose proof (fates_connected w k a s' false b Hf Hk) as H. rewrite Ed in H. by apply H.
Qed.

(** The socket of a late attempt is closed. *)
Lemma inv_close w k launch wake : inv w → cos w !! k = Some (ATail true launch wake) →
  inv (goto k (ATail false launch wake) {| w with closed := k :: closed w |}).
Proof.
  intros (Hn & Hw & Hf) Hk. split_and!.
  - destruct (numbers_goto w k _ (ATail false launch wake) Hn Hk) as [? ? ? ? ? ?]; [done|done|by left|]. by constructor.
  - destruct (waking_goto w k _ (ATail false launch wake) Hw Hk) as [? ? ? ? ? ?]; [done|]. by constructor.
  - destruct Hf as [Hd Hfa Hwi Hl Ho Hfi Hnd]. set (w' := goto _ _ _).
    assert (Hlk : lost w k) by (by exists launch, wake). assert (Hlok : ¬ lost w' k).
    { rewrite lost_iff. intros (c & Hc & E). cbn [w' goto cos] in Hc. rewrite list_lookup_insert_eq in Hc by (by eapply lookup_lt_Some). by injection Hc as <-. }
    assert (Hloj : ∀ j, j ≠ k → lost w' j ↔ lost w j) by (intros j Hj; rewrite !lost_iff; cbn [w' goto cos]; by rewrite list_lookup_insert_ne).
    assert (Hwk : winner (st w) ≠ Some k) by (intros E; by destruct (Hwi k E)).
    constructor; cbn [w' goto st connected closed]; fold w'; try done.
    + intros j. rewrite elem_of_cons, Hfa. destruct (decide (j = k)) as [->|Hj]; [tauto|]. rewrite Hloj by done. tauto.
    + intros j Hj. assert (j ≠ k) by congruence. rewrite elem_of_cons, Hloj by done. destruct (Hwi j Hj). tauto.
    + intros j Hj. destruct (decide (j = k)) as [->|Hjk]; [done|]. rewrite elem_of_cons. apply Hloj in Hj; [|done]. apply Hl in Hj. tauto.
    + intros j Hj. destruct (decide (j = k)) as [->|Hjk].
      * exists (ATail false launch wake). split; [|done]. apply list_lookup_insert_eq. by eapply lookup_lt_Some.
      * destruct (Ho j Hj) as (c & Hc & E). exists c. split; [|done]. cbn [w' goto cos]. by rewrite list_lookup_insert_ne.
    + destruct Hnd as [? ?]. split; [done|]. constructor; [|done]. by apply Hl.
Qed.

Lemma inv_attempt_tail w k l launch wake : inv w → cos w !! k = Some (ATail l launch wake) → ∃ w', attempt_tail k l launch wake w = Done w' ∧ inv w'.
Proof.
  intros Hi Hk. unfold attempt_tail. destruct l; [eexists; split; [done|by apply inv_close]|].
  destruct launch; [eexists; split; [done|]; eapply race_goto; [by apply inv_launch|by apply launch_cos|done|done|by left|done|done|done]|].
  destruct wake; [by eapply inv_resume|]. eexists. split; [done|]. eapply race_goto; try done. by left.
Qed.

(** ** [he_pacer] and [he_resolve] *)

Lemma inv_pacer w k : inv w → cos w !! k = Some PSleep → inv (pacer_step k w).
Proof.
  intros Hi Hk. unfold pacer_step. destruct (done_ (st w) || (resolves_pending (st w) =? 0) && (length (addrs (st w)) <=? next_idx (st w))) eqn:E;
    eapply race_goto; try done; [|by left].
  right. apply orb_true_iff in E as [?|[E1%Nat.eqb_eq E2%Nat.leb_le]%andb_true_iff]; [by left|right]. destruct Hi as ([_ ? _ _ _ _] & _). lia.
Qed.

Lemma inv_resolve_answer w k v6 l : inv w → cos w !! k = Some (RResolve v6) → inv (resolve_answer k v6 l w).
Proof. intros Hi Hk. unfold resolve_answer. case_match; (eapply race_goto; try done; by left). Qed.

Lemma inv_resolve_check w k found : inv w → cos w !! k = Some (RCheck found) → inv (resolve_check k found w).
Proof. intros Hi Hk. unfold resolve_check. case_match; (eapply race_goto; try done; by left). Qed.

Lemma inv_kick w k wake : inv w → cos w !! k = Some (RKick wake) → inv (kick_if_stalled k wake w).
Proof. intros Hi Hk. unfold kick_if_stalled. case_match; (eapply race_goto; try done; by left). Qed.

(** The state after the addresses that were found are woven in. *)
Lemma woven_fields s found v6 : let s' := if negb (done_ s) && negb (bool_decide (found = [])) then weave_tail s found v6 else s in
  next_idx s' = next_idx s ∧ finished s' = finished s ∧ resolves_pending s' = resolves_pending s ∧ done_ s' = done_ s ∧
  max_attempts s' = max_attempts s ∧ winner s' = winner s ∧ parent s' = parent s ∧ parent_waiting s' = parent_waiting s.
Proof. cbn. by destruct (negb (done_ s) && _). Qed.

Lemma inv_resolve_section w k v6 found : inv w → cos w !! k = Some (RSection v6 found) → inv (resolve_section k v6 found w).
Proof.
  intros (Hn & Hw & Hf) Hk. pose proof (undecided_done _ _ _ Hn Hk ltac:(cbn; lia)) as Hud.
  assert (Hwd : ∀ j, winner (st w) = Some j → done_ (st w) = true) by (intros j Hj; apply (f_done _ Hf); eauto).
  unfold resolve_section. set (s0 := {| (st w) with v6_resolved := _; resolves_pending := _ |}).
  destruct (woven_fields s0 found v6) as (W1 & W2 & W4 & W5 & W6 & W7 & W8 & W9).
  assert (Wa : let l := addrs (if negb (done_ s0) && negb (bool_decide (found = [])) then weave_tail s0 found v6 else s0) in
    take (next_idx s0) l = take (next_idx s0) (addrs s0) ∧ next_idx s0 <= length l ∧ (0 < max_attempts s0 → length l <= max_attempts s0)).
  { destruct Hn as [_ Hnx _ _ _ Hm]. destruct (negb (done_ s0) && _); [by apply weave_tail_spec|]. done. }
  set (s1 := if negb (done_ s0) && negb (bool_decide (found = [])) then weave_tail s0 found v6 else s0) in *. clearbody s1. destruct Wa as (Wt & Wn & Wm).
  destruct (take_parent_if_decided s1) as [s' b] eqn:Et. destruct (take_parent_fields _ _ _ Et) as (E1 & E2 & E3 & E4 & E5 & E6 & E7).
  rewrite W1 in E1. rewrite W2 in E2. rewrite W4 in E4. rewrite W5 in E5. rewrite W6 in E6. rewrite W7 in E7. cbn in E1, E2, E4, E5, E6, E7, Wt, Wn, Wm. split_and!.
  - destruct Hn as [Hl Hnx Hp Hpa Hla Hm]. pose proof (cnt_insert live _ _ _ (RKick b) Hk) as C1. pose proof (cnt_insert pend _ _ _ (RKick b) Hk) as C2.
    pose proof (cnt_insert paces _ _ _ (RKick b) Hk) as C3. cbn in C1, C2, C3.
    constructor; cbn [goto st cos launched]; rewrite ?E1, ?E2, ?E3, ?E4, ?E5, ?E6; try done; try lia; [|congruence].
    destruct Hpa as [?|[?|?]]; [left; lia|by right; left|lia].
  - eapply (waking_section w); [done|exact Hk|done|..|exact Et|done]; [by rewrite W8|by rewrite W9| |].
    + intros H. unfold decided. rewrite W5. change (done_ s0) with (done_ (st w)). by rewrite <- Hud, H.
    + eapply returned_result; [done|done|exact Hk|cbn; lia|by rewrite W7|done].
  - destruct (fates_goto _ k _ (RKick b) Hf Hk) as [Hd Hfa Hwi Hlo Ho Hfi Hnd]; [done|done|].
    constructor; cbn [goto st connected closed cos] in *; rewrite ?E5, ?E7; done.
Qed.

(** ** The caller *)

Lemma inv_caller w w' : inv w → caller_step w = Some w' → inv w'.
Proof.
  intros (Hn & Hw & Hf) H. unfold caller_step in H. destruct w as [s l p bn d la co cl]. cbn in *.
  pose proof (w_count _ Hw) as Hc. cbn in Hc.
  assert (Hsame : ∀ s' p', next_idx s' = next_idx s → finished s' = finished s → addrs s' = addrs s → resolves_pending s' = resolves_pending s → done_ s' = done_ s →
    max_attempts s' = max_attempts s → winner s' = winner s → numbers (mkRace s' l p' bn d la co cl) ∧ fates (mkRace s' l p' bn d la co cl)).
  { intros s' p' E1 E2 E3 E4 E5 E6 E7. destruct Hn as [? ? ? ? ? ?], Hf as [? ? ? ? ? ? ?]. cbn in *. split; constructor; cbn; rewrite ?E1, ?E2, ?E3, ?E4, ?E5, ?E6, ?E7; done. }
  assert (Hpar : ∀ p', is_waiting p = false → is_waiting p' = false → (match p' with CResult | CReturned _ => decided s = true | _ => True end) →
    match p' with CReturned (inl k) => winner s = Some k | CReturned (inr _) => done_ s = false | _ => True end → inv (mkRace s l p' bn d la co cl)).
  { intros p' Ew Ew' Hd Hr. destruct (Hsame s p') as [? ?]; try done. split_and!; [done| |done]. destruct Hw as [? ? ? ? ? ?]. cbn in *.
    constructor; cbn; try done. by rewrite Ew', <- Ew. }
  destruct p as [| | | |r]; try done; [injection H as <-|destruct (decided s) eqn:Ed; injection H as <-|injection H as <-].
  - destruct (decided s) eqn:Ed; by apply Hpar.
  - by apply Hpar.
  - cbn in Hc. destruct (Hsame {| s with parent := true; parent_waiting := true |} CWaiting) as [? ?]; try done. split_and!; [done| |done].
    assert (Hd' : decided {| s with parent := true; parent_waiting := true |} = false) by (by rewrite <- Ed; apply decided_ext).
    constructor; cbn [st cos par parent parent_waiting is_waiting Nat.b2n]; try done; lia.
  - pose proof (w_decided _ Hw) as Hd. cbn in Hd. apply Hpar; [done|done|done|]. unfold result_of. cbn. destruct (winner s) as [k|] eqn:Ew; [done|].
    assert (done_ s = false). { apply not_true_is_false. intros E. apply (f_done _ Hf) in E. cbn in E. rewrite Ew in E. by destruct E. }
    by destruct (bn && _).
Qed.

(** * All steps *)

Lemma act_keeps w a o : inv w → act a w = Some o → ∃ w', o = Done w' ∧ inv w'.
Proof.
  intros Hi H. destruct a as [k ans|]; cbn in H.
  2: { destruct (caller_step w) as [w'|] eqn:E; [|done]. injection H as <-. exists w'. split; [done|]. by eapply inv_caller. }
  unfold co_step in H. destruct (cos w !! k) as [c|] eqn:Hk; [|done]. cbn in H.
  destruct c, ans; try done; injection H as <-; try (eexists; split; [done|]).
  - by apply inv_attempt_start.
  - by eapply inv_attempt_finish.
  - by apply inv_attempt_tail.
  - by apply inv_pacer.
  - eapply race_goto; [by apply inv_launch|by apply launch_cos|done|done|by left|done|done|done].
  - by apply inv_resolve_answer.
  - by apply inv_resolve_check.
  - eapply race_goto; try done. by left.
  - by apply inv_resolve_section.
  - by apply inv_kick.
  - eapply race_goto; [by apply inv_launch|by apply launch_cos|done|done|by left|done|done|done].
  - destruct wake; [by eapply inv_resume|]. eexists. split; [done|]. eapply race_goto; try done. by left.
Qed.
End HappyEyeballsInv.
