(* ===== verification/HappyEyeballsCorrect.v ===== *)
(** A race of connections gives its caller one connected socket or an error, closes every
    other socket it connected, and never forgets to answer. *)

From stdpp Require Import strings.
From S2P Require Import Prelude HappyEyeballs HappyEyeballsInv.

Module HappyEyeballsCorrect.
Import HappyEyeballs HappyEyeballsInv.
Local Open Scope nat_scope.
Implicit Types (w : race) (k : nat).

(** * The start *)

Lemma inv_connect_happy max delay : inv (connect_happy max delay).
Proof.
  assert (Hlo : ∀ j, ¬ lost (connect_happy max delay) j).
  { intros j (l & b & H). destruct j as [|[|[|j]]]; cbn in H; done. }
  split_and!; constructor; cbn; try done; try (unfold cnt; cbn; lia).
  - intros k. split; [by intros ?%elem_of_nil|]. intros [?|[?%elem_of_nil|?%Hlo]]; done.
  - by intros k ?%Hlo.
  - by intros k ?%elem_of_nil.
  - by intros k ?%elem_of_nil.
  - split; constructor.
Qed.

Lemma inv_connect_happy_addrs l max w : connect_happy_addrs l max = inl w → inv w.
Proof.
  unfold connect_happy_addrs. destruct l as [|a0 l0]; [done|]. set (l1 := if (0 <? max) && (max <? length (a0 :: l0)) then take max (a0 :: l0) else a0 :: l0). cbn zeta. intros Hw. apply (inj inl) in Hw. subst w.
  assert (Hl1 : ∃ a l, l1 = a :: l).
  { unfold l1. destruct (Nat.ltb_spec 0 max) as [H|H]; cbn; [|by eexists _, _]. destruct max; [lia|]. case_match; by eexists _, _. }
  assert (Hmax : 0 < max → length l1 <= max).
  { intros H. unfold l1. destruct (Nat.ltb_spec 0 max) as [_|]; [|lia]. destruct (Nat.ltb_spec max (length (a0 :: l0))); cbn [andb]; [|lia]. rewrite length_take. lia. }
  clearbody l1. destruct Hl1 as (a & l & ->). unfold launch_next. cbn [st done_ addrs next_idx HEState_new lookup list_lookup].
  match goal with |- inv ?x => set (w := x) end. assert (Hcos : cos w = [AStart a] ∨ cos w = [AStart a; PSleep]) by (unfold w; case_match; auto).
  assert (Hw : st w = {| (HEState_new (a :: l) max) with next_idx := 1 |} ∧ par w = CReady ∧ launched w = [a] ∧ connected w = [] ∧ closed w = []) by (unfold w; case_match; done).
  assert (Hp : 0 < cnt paces (cos w) ∨ l = []). { unfold w. destruct l as [|b l]; [by right|]. left. by unfold cnt; cbn; lia. }
  clearbody w. destruct Hw as (Es & Ep & Ela & Eco & Ecl).
  assert (Hlo : ∀ j, ¬ lost w j). { intros j (x & b & H). destruct Hcos as [E|E]; rewrite E in H; destruct j as [|[|j]]; cbn in H; done. }
  split_and!; constructor; rewrite ?Es, ?Ep, ?Ela, ?Eco, ?Ecl; cbn; try done.
  - destruct Hcos as [-> | ->]; unfold cnt; cbn; lia.
  - lia.
  - destruct Hcos as [-> | ->]; unfold cnt; cbn; lia.
  - destruct Hp as [?| ->]; [by left|]. by right; right.
  - destruct Hcos as [-> | ->]; unfold cnt; cbn; lia.
  - destruct Hcos as [-> | ->]; unfold cnt; cbn; lia.
  - intros k. split; [by intros ?%elem_of_nil|]. intros [?|[?%elem_of_nil|?%Hlo]]; done.
  - by intros k ?%Hlo.
  - by intros k ?%elem_of_nil.
  - by intros k ?%elem_of_nil.
  - split; constructor.
Qed.

Lemma race_inv w : reachable w → inv w.
Proof.
  intros (w0 & H0 & Hr). assert (Hi : inv w0) by (destruct H0; [by eapply inv_connect_happy_addrs|apply inv_connect_happy]). clear H0.
  induction Hr as [|x y z [a Ha] _ IH]; [done|]. apply IH. destruct (act_keeps _ _ _ Hi Ha) as (w' & [= <-] & ?). done.
Qed.

(** * What the race does *)

(** Every attempt and every resolution has reported. *)
Definition nothing_pending w : Prop := cnt live (cos w) = 0 ∧ cnt pend (cos w) = 0.

Lemma exhausted_pending w : inv w → exhausted (st w) = true → nothing_pending w ∧ launched w = addrs (st w).
Proof.
  intros ([Hl Hn Hp _ Hla _] & _) (E1 & E2 & E3)%exhausted_spec. split; [split; lia|]. rewrite Hla, E2. by apply take_ge.
Qed.

(** C14: however the coroutines of a race interleave and whatever the name service
    and the connections answer: no step is undefined (the caller is resumed once, and only while it is suspended); the
    addresses are tried in order, each once, and at most [max_attempts] of them; a socket that is connected is
    the answer or is closed, or its coroutine is about to close it; when the caller gets a socket, it is connected,
    open and the only such one; when it gets an error, every address was tried, none is connected, and nothing
    is under way any more. *)
Theorem happy_eyeballs_correct w : reachable w →
  (∀ a o, act a w = Some o → ∃ w', o = Done w') ∧
  launched w = take (length (launched w)) (addrs (st w)) ∧ (0 < max_attempts (st w) → length (launched w) <= max_attempts (st w)) ∧
  (∀ k, k ∈ connected w → winner (st w) = Some k ∧ k ∉ closed w ∨ k ∈ closed w ∨ lost w k) ∧
  (∀ k, par w = CReturned (inl k) → k ∈ connected w ∧ k ∉ closed w ∧ ∀ j, j ∈ connected w → j ≠ k → j ∈ closed w ∨ lost w j) ∧
  (∀ e, par w = CReturned (inr e) → connected w = [] ∧ launched w = addrs (st w) ∧ nothing_pending w).
Proof.
  intros Hr. pose proof (race_inv w Hr) as Hi. pose proof Hi as (Hn & Hw & Hf).
  assert (Hlen : length (launched w) = next_idx (st w)) by (rewrite (n_launched _ Hn), length_take; pose proof (n_next _ Hn); lia).
  split_and!.
  - intros a o Ha. destruct (act_keeps _ _ _ Hi Ha) as (w' & -> & _). eauto.
  - rewrite Hlen. apply (n_launched _ Hn).
  - intros Hm. pose proof (n_max _ Hn Hm). pose proof (n_next _ Hn). lia.
  - intros k Hk. apply (f_fate _ Hf) in Hk as [Hk|?]; [|tauto]. left. split; [done|]. by apply (f_winner _ Hf).
  - intros k Hp. pose proof (w_result _ Hw) as Hres. rewrite Hp in Hres. split_and!; [apply (f_fate _ Hf); by left|by apply (f_winner _ Hf)|].
    intros j Hj Hne. apply (f_fate _ Hf) in Hj as [?|?]; [congruence|done].
  - intros e Hp. pose proof (w_result _ Hw) as Hres. pose proof (w_decided _ Hw) as Hd. rewrite Hp in Hres, Hd.
    assert (He : exhausted (st w) = true) by (unfold decided in Hd; by rewrite Hres in Hd).
    destruct (exhausted_pending w Hi He) as [? ?]. split_and!; [|done..]. destruct (connected w) as [|k l] eqn:Ec; [done|].
    assert (done_ (st w) = true) by (apply (f_first _ Hf k); rewrite Ec; by left). congruence.
Qed.

(** * The caller gets its answer *)

Definition stuck w : Prop := ∀ a, act a w = None.

Lemma stuck_ended w : stuck w → ∀ k c, cos w !! k = Some c → c = Ended.
Proof.
  intros H k c Hk. pose proof (H (Co k NoAnswer)) as H1. pose proof (H (Co k (ConnectAnswer None))) as H2. pose proof (H (Co k (ResolveAnswer None))) as H3.
  cbn in H1, H2, H3. unfold co_step in *. rewrite Hk in *. by destruct c.
Qed.

(** C15: the caller never waits in vain: while it waits, someone is about to resume it, or an
    attempt or a resolution is under way, or there is an address left and a pacer to try it; so when no coroutine can
    go on, the caller has returned. *)
Theorem happy_eyeballs_answers w : reachable w →
  (par w = CWaiting → 0 < cnt wakes (cos w) ∨ 0 < cnt live (cos w) ∨ 0 < cnt pend (cos w) ∨ next_idx (st w) < length (addrs (st w)) ∧ 0 < cnt paces (cos w)) ∧
  (stuck w → ∃ r, par w = CReturned r).
Proof.
  intros Hr. pose proof (race_inv w Hr) as (Hn & Hw & Hf).
  assert (Hwait : par w = CWaiting → 0 < cnt wakes (cos w) ∨ 0 < cnt live (cos w) ∨ 0 < cnt pend (cos w) ∨ next_idx (st w) < length (addrs (st w)) ∧ 0 < cnt paces (cos w)).
  { intros Hp. destruct Hw as [Hc _ Hwt _ _ _]. rewrite Hp in Hc. cbn in Hc. destruct (parent_waiting (st w)) eqn:Epw; cbn in Hc; [|lia].
    specialize (Hwt eq_refl). unfold decided in Hwt. apply orb_false_iff in Hwt as [Hd He]. destruct Hn as [Hl Hnx Hpe Hpa _ _].
    assert (~ (resolves_pending (st w) = 0 ∧ next_idx (st w) = length (addrs (st w)) ∧ finished (st w) = length (addrs (st w)))) by (rewrite <- exhausted_spec; congruence).
    destruct Hpa as [?|[?|?]]; [lia|congruence|lia]. }
  split; [done|]. intros Hs. pose proof (stuck_ended w Hs) as Hend. pose proof (Hs Caller) as Hc. cbn in Hc. unfold caller_step in Hc.
  destruct (par w) eqn:Ep; try (by destruct (decided (st w))); [|eauto].
  assert (Hz : ∀ f, f Ended = 0 → cnt f (cos w) = 0) by (intros f Hf0; apply cnt_zero; intros k c Hk; by rewrite (Hend k c Hk)).
  destruct (Hwait eq_refl) as [H|[H|[H|[_ H]]]]; rewrite Hz in H by done; lia.
Qed.

(** * Executions *)

Lemma race_run l w0 w : started w0 → run l w0 = Some (Done w) → reachable w.
Proof.
  intros H0 H. exists w0. split; [done|]. clear H0. revert w0 H. induction l as [|a l IH]; intros w0 H; cbn in H; [by injection H as <-|].
  destruct (act a w0) as [[w1| |]|] eqn:E; try done. eapply rtc_l; [by exists a|by apply IH].
Qed.

(** A host with one address of each family: the first attempt is slow, the pacer starts the second; both
    connect, and the later one is closed. *)
Definition slow_first : list action :=
  let n k := Co k NoAnswer in
  [Co 0 (ResolveAnswer (Some [mkInfo AF_INET6 (Some "::1"%string)])); n 0; n 0; n 0; n 0; (* the IPv6 address: attempt 3 *)
   Co 1 (ResolveAnswer (Some [mkInfo AF_INET (Some "127.0.0.1"%string)])); n 1; n 1; n 1;
   Caller; Caller; n 3; n 2; n 2; (* the pacer starts attempt 4 *)
   n 4; Co 4 (ConnectAnswer None); n 4; Caller; Co 3 (ConnectAnswer None); n 3; n 3; n 2].

Definition slow_first_end : race := match run slow_first (connect_happy 4 false) with Some (Done w) => w | _ => connect_happy 0 false end.

Lemma happy_eyeballs_correct_witness : par slow_first_end = CReturned (inl 4) ∧ 3 ∈ closed slow_first_end ∧ 4 ∉ closed slow_first_end.
Proof.
  assert (Hr : reachable slow_first_end) by (apply (race_run slow_first (connect_happy 4 false)); [constructor|by vm_compute]).
  destruct (happy_eyeballs_correct slow_first_end Hr) as (_ & _ & _ & _ & H & _).
  assert (Hp : par slow_first_end = CReturned (inl 4)) by (by vm_compute). destruct (H 4 Hp) as (_ & Hn & _). split; [done|]. split; [|done]. by vm_compute; constructor.
Defined.

Lemma happy_eyeballs_answers_witness : ∃ r, par slow_first_end = CReturned r.
Proof.
  assert (Hr : reachable slow_first_end) by (apply (race_run slow_first (connect_happy 4 false)); [constructor|by vm_compute]).
  destruct (happy_eyeballs_answers slow_first_end Hr) as [_ H]. apply H. intros [k ans|]; [|by vm_compute].
  destruct k as [|[|[|[|[|k]]]]]; destruct ans; by vm_compute.
Defined.
End HappyEyeballsCorrect.
