(* ===== verification/Resolver.v ===== *)
(** Name resolution ([Resolver.h], [Resolver.cpp]): a coroutine first asks for a numeric
    address, which answers at once; otherwise its request waits in a queue for a worker
    thread, which asks the name service and resumes the coroutine.

    [getaddrinfo] is code of the system: a parameter.  Sections under the mutex are one step;
    waiting on the condition variable is a state of the worker, which a notification or
    nothing at all ends. *)

From stdpp Require Import strings.
From S2P Require Import Prelude.

Module Resolver.

(** The hints, as far as they are used here. *)
Record hints := mkHints { ai_family : Z; ai_socktype : Z; ai_flags : Z }.

Section resolver.
Context {Info : Type}.
(** The service: node, service and hints to a code and, with code 0, a chain of addresses. *)
Variable getaddrinfo : option string → option string → hints → Z * Info.
Variable AI_NUMERICHOST : Z.

Record ResolveRequest := mkRequest {
  host : string;
  service : string;
  req_hints : hints;
  result : option Info;    (** [nullptr] *)
  rc : Z
}.

(** The constructor of [ResolveAwaiter]. *)
Definition ResolveAwaiter_new (h s : string) (hi : hints) : ResolveRequest := mkRequest h s hi None 0.

Definition c_str (s : string) : option string := if bool_decide (s = EmptyString) then None else Some s.

(** ** [ResolveAwaiter] *)

(** It answers whether the coroutine goes on at once. *)
Definition await_ready (r : ResolveRequest) : bool * ResolveRequest :=
  let probe := {| (req_hints r) with ai_flags := Z.lor (ai_flags (req_hints r)) AI_NUMERICHOST |} in
  let '(code, res) := getaddrinfo (c_str (host r)) (c_str (service r)) probe in
  if code =? 0 then (true, {| r with rc := 0; result := Some res |}) else (false, {| r with result := None |}).

Definition await_resume (r : ResolveRequest) : option Info + Z := if negb (rc r =? 0) then inr (rc r) else inl (result r).

(** What a worker does with a request. *)
Definition serve (r : ResolveRequest) : ResolveRequest :=
  let '(code, res) := getaddrinfo (c_str (host r)) (c_str (service r)) (req_hints r) in
  {| r with rc := code; result := if negb (code =? 0) then None else Some res |}.

(** ** The machine *)

Inductive client :=
| CProbe                             (** before [await_ready] *)
| CSubmit                            (** [submit]: the section *)
| CWait                              (** suspended *)
| CReady                             (** resumed, before [await_resume] *)
| CDone (r : option Info + Z).

Inductive worker :=
| WCheck                             (** it locks the mutex and evaluates the predicate *)
| WBlocked                           (** it waits on [cv_] *)
| WServe (i : nat)                   (** it has taken request [i] *)
| WExit.

Record machine := mkMachine {
  queue_ : list nat;
  stop_ : bool;
  told : bool;                       (** the destructor has called [notify_all] *)
  notifies : nat;                    (** calls of [notify_one] that are about to be made *)
  workers_ : list worker;
  clients : list (ResolveRequest * client)
}.

(** The workers start in their loop; [settings::resolver_threads] is [n]. *)
Definition Resolver_new (n : Z) : machine := mkMachine [] false false 0 (replicate (Z.to_nat (if n <? 1 then 1 else n)) WCheck) [].

Definition client_step (i : nat) (m : machine) : option (outcome machine) :=
  rc ← clients m !! i;
  let '(r, c) := rc in
  match c with
  | CProbe =>
      let '(ready, r) := await_ready r in
      Some (Done {| m with clients := <[i := (r, if ready then CReady else CSubmit)]> (clients m) |})
  | CSubmit => Some (Done {| m with queue_ := queue_ m ++ [i]; notifies := S (notifies m); clients := <[i := (r, CWait)]> (clients m) |})
  | CReady => Some (Done {| m with clients := <[i := (r, CDone (await_resume r))]> (clients m) |})
  | CWait | CDone _ => None
  end.

(** [workerLoop]; resuming a coroutine that is not suspended is undefined. *)
Definition worker_step (j : nat) (m : machine) : option (outcome machine) :=
  w ← workers_ m !! j;
  match w with
  | WCheck =>
      match queue_ m with
      | i :: q => Some (Done {| m with queue_ := q; workers_ := <[j := WServe i]> (workers_ m) |})
      | [] => Some (Done {| m with workers_ := <[j := if stop_ m then WExit else WBlocked]> (workers_ m) |})
      end
  | WServe i =>
      Some (rc ← deref (clients m !! i);
            match rc.2 with
            | CWait => Done {| m with workers_ := <[j := WCheck]> (workers_ m); clients := <[i := (serve rc.1, CReady)]> (clients m) |}
            | _ => UB
            end)
  | WBlocked | WExit => None
  end.

Definition is_blocked (w : worker) : bool := match w with WBlocked => true | _ => false end.

Inductive action :=
| Resolve (h s : string) (hi : hints)  (** a coroutine calls [async_resolve] *)
| Client (i : nat)
| Worker (j : nat)
| Notify (j : nat)                     (** [notify_one] wakes worker [j] *)
| NotifyNobody                         (** or nobody waits *)
| Spurious (j : nat)                   (** a worker wakes for no reason *)
| Stop                                 (** the destructor: [stop_ = true] *)
| NotifyAll.

Definition submitted (c : client) : bool := match c with CProbe | CSubmit => false | _ => true end.

(** The destructor of the resolver, a static object, runs when nobody submits any more. *)
Definition act (a : action) (m : machine) : option (outcome machine) :=
  match a with
  | Resolve h s hi => if stop_ m then None else Some (Done {| m with clients := clients m ++ [(ResolveAwaiter_new h s hi, CProbe)] |})
  | Client i => client_step i m
  | Worker j => worker_step j m
  | Notify j =>
      match notifies m, workers_ m !! j with
      | S n, Some WBlocked => Some (Done {| m with notifies := n; workers_ := <[j := WCheck]> (workers_ m) |})
      | _, _ => None
      end
  | NotifyNobody =>
      match notifies m with
      | S n => if existsb is_blocked (workers_ m) then None else Some (Done {| m with notifies := n |})
      | O => None
      end
  | Spurious j => match workers_ m !! j with Some WBlocked => Some (Done {| m with workers_ := <[j := WCheck]> (workers_ m) |}) | _ => None end
  | Stop => if forallb (λ rc, submitted rc.2) (clients m) then Some (Done {| m with stop_ := true |}) else None
  | NotifyAll =>
      if stop_ m then Some (Done {| m with told := true; workers_ := (λ w, if is_blocked w then WCheck else w) <$> workers_ m |}) else None
  end.

Definition step (m m' : machine) : Prop := ∃ a, act a m = Some (Done m').
Definition reachable (n : Z) (m : machine) : Prop := rtc step (Resolver_new n) m.

Fixpoint run (l : list action) (m : machine) : option (outcome machine) :=
  match l with
  | [] => Some (Done m)
  | a :: l => match act a m with Some (Done m') => run l m' | o => o end
  end.
End resolver.
#[global] Arguments ResolveRequest : clear implicits.
#[global] Arguments client : clear implicits.
#[global] Arguments machine : clear implicits.
End Resolver.
