(* ===== verification/ResolverCorrect.v ===== *)
(** Every coroutine that asks the resolver gets the answer of the name service to its own
    question, once; no request stays in the queue while all workers sleep, and none is
    left behind when the resolver stops. *)

From stdpp Require Import strings.
From S2P Require Import Prelude Resolver.

Module ResolverCorrect.
Import Resolver.

Section correct.
Context {Info : Type}.
Variable getaddrinfo : option string → option string → hints → Z * Info.
Variable AI_NUMERICHOST : Z.
Implicit Types (m : machine Info) (r : ResolveRequest Info) (w : worker).
Abbreviation act := (act getaddrinfo AI_NUMERICHOST).
Abbreviation reachable := (reachable getaddrinfo AI_NUMERICHOST).
Abbreviation await_ready := (await_ready getaddrinfo AI_NUMERICHOST).
Abbreviation serve := (serve getaddrinfo).

(** * The answer *)

(** A numeric address is answered at once; otherwise the service has the word. *)
Definition answer_to r : option Info + Z :=
  let hi := req_hints r in
  let numeric := getaddrinfo (c_str (host r)) (c_str (service r)) {| hi with ai_flags := Z.lor (ai_flags hi) AI_NUMERICHOST |} in
  if numeric.1 =? 0 then inl (Some numeric.2)
  else let full := getaddrinfo (c_str (host r)) (c_str (service r)) hi in
       if full.1 =? 0 then inl (Some full.2) else inr full.1.

Lemma await_ready_true r r' : await_ready r = (true, r') → await_resume r' = answer_to r ∧ answer_to r' = answer_to r.
Proof.
  unfold Resolver.await_ready, answer_to. destruct (getaddrinfo _ _ _) as [code res] eqn:E. destruct (Z.eqb_spec code 0) as [->|]; [|done].
  intros [= <-]. cbn. rewrite E. cbn. done.
Qed.

Lemma await_ready_false r r' : await_ready r = (false, r') → answer_to r' = answer_to r ∧ (await_ready r').1 = false.
Proof.
  unfold Resolver.await_ready, answer_to. destruct (getaddrinfo _ _ _) as [code res] eqn:E. destruct (Z.eqb_spec code 0) as [->|Hn]; [done|].
  intros [= <-]. cbn. rewrite E. cbn. rewrite !(proj2 (Z.eqb_neq code 0)) by done. done.
Qed.

Lemma serve_answer r : (await_ready r).1 = false → await_resume (serve r) = answer_to r ∧ answer_to (serve r) = answer_to r.
Proof.
  unfold Resolver.await_ready, Resolver.serve, answer_to, await_resume. 
  destruct (getaddrinfo _ _ {| (req_hints r) with ai_flags := _ |}) as [c0 r0] eqn:E0.
  destruct (Z.eqb_spec c0 0) as [->|Hn0]; [done|]. intros _. destruct (getaddrinfo _ _ (req_hints r)) as [code res] eqn:E. cbn.
  rewrite E0, E. cbn. rewrite (proj2 (Z.eqb_neq c0 0)) by done. by destruct (Z.eqb_spec code 0).
Qed.

(** * Workers and their requests *)

Definition served w : list nat := match w with WServe i => [i] | _ => [] end.
Definition awake w : nat := match w with WCheck => 1 | _ => 0 end.
Definition checking (ws : list worker) : nat := sum_list_with awake ws.

Local Arguments checking : simpl never.

(** The requests that wait for their answer. *)
Definition pending m : list nat := queue_ m ++ (workers_ m ≫= served).

Lemma insert_delete_Permutation {A} (l : list A) j x y : l !! j = Some x → <[j := y]> l ≡ₚ y :: delete j l.
Proof.
  intros H. rewrite (insert_take_drop _ _ _ (lookup_lt_Some _ _ _ H)), delete_take_drop. by rewrite Permutation_middle.
Qed.

Lemma served_insert ws j w w' : ws !! j = Some w → served w ++ (<[j := w']> ws ≫= served) ≡ₚ served w' ++ (ws ≫= served).
Proof.
  intros H. rewrite (insert_delete_Permutation _ _ _ w' H). rewrite (delete_Permutation _ _ _ H) at 2. cbn. by rewrite !app_assoc, (Permutation_app_comm (served w)).
Qed.

Lemma checking_insert ws j w w' : ws !! j = Some w → (checking (<[j := w']> ws) + awake w = checking ws + awake w')%nat.
Proof.
  unfold checking. revert j. induction ws as [|x ws IH]; intros [|j]; [done|done|intros [= ->]; cbn; lia|]. intros H. cbn [lookup list_lookup] in H.
  pose proof (IH j H). change (<[S j := w']> (x :: ws)) with (x :: <[j := w']> ws). cbn [sum_list_with]. lia.
Qed.

(** * The invariant *)

Definition no_blocked m : Prop := ∀ j, workers_ m !! j ≠ Some WBlocked.

Definition value_ok (rc : ResolveRequest Info * client Info) : Prop :=
  match rc.2 with
  | CProbe => True
  | CSubmit | CWait => (await_ready rc.1).1 = false
  | CReady => await_resume rc.1 = answer_to rc.1
  | CDone x => x = answer_to rc.1
  end.

Record inv m : Prop := {
  q_nodup : NoDup (pending m);
  q_pending i : i ∈ pending m ↔ ∃ r, clients m !! i = Some (r, CWait);
  q_wake : no_blocked m ∨ (length (queue_ m) <= notifies m + checking (workers_ m))%nat;
  q_exit j : workers_ m !! j = Some WExit → stop_ m = true ∧ queue_ m = [];
  q_told : told m = true → stop_ m = true ∧ no_blocked m;
  q_stop : stop_ m = true → ∀ i rc, clients m !! i = Some rc → submitted rc.2 = true;
  q_workers : (0 < length (workers_ m))%nat;
  q_value i rc : clients m !! i = Some rc → value_ok rc
}.

(** A client changes its state, but not to or from waiting. *)
Lemma inv_client m i r c r' c' : inv m → clients m !! i = Some (r, c) → (c = CWait ↔ c' = CWait) → (submitted c = true → submitted c' = true) → value_ok (r', c') →
  inv {| m with clients := <[i := (r', c')]> (clients m) |}.
Proof.
  intros Hi Hc Hw Hs Hv. pose proof (lookup_lt_Some _ _ _ Hc) as Hlt. destruct Hi as [Hnd Hp Hwk Hex Ht Hst Hws Hva].
  constructor; cbn; try done.
  - intros k. unfold pending in *. cbn. rewrite Hp. destruct (decide (k = i)) as [->|Hk]; [|by rewrite list_lookup_insert_ne].
    rewrite list_lookup_insert_eq, Hc by done. split; intros (x & [= -> E]); [exists r'|exists r]; f_equal; f_equal; tauto.
  - intros Hstop k rc Hk. apply list_lookup_insert_Some in Hk as [(-> & <- & _)|[_ Hk]]; [|by eapply Hst]. apply Hs. by apply (Hst Hstop k (r, c)).
  - intros k rc Hk. apply list_lookup_insert_Some in Hk as [(-> & <- & _)|[_ Hk]]; [done|by eapply Hva].
Qed.

Lemma inv_submit m i r : inv m → clients m !! i = Some (r, CSubmit) →
  inv {| m with queue_ := queue_ m ++ [i]; notifies := S (notifies m); clients := <[i := (r, CWait)]> (clients m) |}.
Proof.
  intros Hi Hc. pose proof (lookup_lt_Some _ _ _ Hc) as Hlt. destruct Hi as [Hnd Hp Hwk Hex Ht Hst Hws Hva].
  assert (Hni : i ∉ pending m). { rewrite Hp, Hc. intros (x & [= ]). }
  assert (Hperm : (queue_ m ++ [i]) ++ (workers_ m ≫= served) ≡ₚ i :: pending m) by (unfold pending; rewrite <- app_assoc; by rewrite (Permutation_middle (queue_ m))).
  assert (Hns : stop_ m = false). { apply not_true_is_false. intros E. by specialize (Hst E i _ Hc). }
  constructor; cbn; try done.
  - unfold pending. cbn. rewrite Hperm. by constructor.
  - intros k. unfold pending. cbn. rewrite Hperm, elem_of_cons. destruct (decide (k = i)) as [->|Hk].
    + rewrite list_lookup_insert_eq by done. split; [by exists r|by left].
    + rewrite list_lookup_insert_ne, Hp by done. tauto.
  - destruct Hwk as [?|?]; [by left|right]. rewrite length_app. cbn. lia.
  - intros j Hj. destruct (Hex j Hj). congruence.
  - intros E. congruence.
  - intros k rc Hk. apply list_lookup_insert_Some in Hk as [(-> & <- & _)|[_ Hk]]; [exact (Hva k _ Hc)|by eapply Hva].
Qed.

(** A worker changes its state and the queue; no other worker is touched. *)
Lemma inv_worker m j w w' q : inv m → workers_ m !! j = Some w → q ++ served w' ≡ₚ queue_ m ++ served w → w' ≠ WBlocked ∨ q = [] ∧ told m = false →
  (w' = WExit → stop_ m = true ∧ q = []) → (queue_ m = [] → q = []) →
  (no_blocked m ∨ (length (queue_ m) <= notifies m + checking (workers_ m)) → length q <= notifies m + checking (<[j := w']> (workers_ m)) ∨ no_blocked m ∧ w' ≠ WBlocked)%nat →
  inv {| m with queue_ := q; workers_ := <[j := w']> (workers_ m) |}.
Proof.
  intros Hi Hj Hq Hb Hx Hq0 Hwake. pose proof (lookup_lt_Some _ _ _ Hj) as Hlt. destruct Hi as [Hnd Hp Hwk Hex Ht Hst Hws Hva].
  assert (Hperm : q ++ (<[j := w']> (workers_ m) ≫= served) ≡ₚ pending m).
  { unfold pending. apply (Permutation_app_inv_l (served w)). rewrite !app_assoc, (Permutation_app_comm (served w) q), <- app_assoc, (served_insert _ _ _ w' Hj).
    rewrite app_assoc, Hq. by rewrite (Permutation_app_comm (served w)). }
  assert (Hnb : no_blocked m → w' ≠ WBlocked → ∀ i, <[j := w']> (workers_ m) !! i ≠ Some WBlocked).
  { intros Hn Hw i H. apply list_lookup_insert_Some in H as [(-> & ? & _)|[_ H]]; [done|by eapply Hn]. }
  constructor; cbn; try done.
  - unfold pending. cbn. by rewrite Hperm.
  - intros i. unfold pending. cbn. rewrite Hperm. apply Hp.
  - destruct (Hwake Hwk) as [?|[Hn Hw]]; [by right|]. left. exact (Hnb Hn Hw).
  - intros i H. apply list_lookup_insert_Some in H as [(-> & ? & _)|[_ H]]; [by apply Hx|]. destruct (Hex i H). auto.
  - intros E. destruct (Ht E) as [? Hn]. split; [done|]. refine (Hnb Hn _). destruct Hb as [?|[_ ?]]; [done|congruence].
  - by rewrite length_insert.
Qed.

(** A worker gives the answer. *)
Lemma inv_serve m j i : inv m → workers_ m !! j = Some (WServe i) →
  ∃ r, clients m !! i = Some (r, CWait) ∧ inv {| m with workers_ := <[j := WCheck]> (workers_ m); clients := <[i := (serve r, CReady)]> (clients m) |}.
Proof.
  intros Hi Hj. pose proof Hi as [Hnd Hp Hwk Hex Ht Hst Hws Hva].
  assert (Hin : i ∈ pending m). { unfold pending. apply elem_of_app. right. apply list_elem_of_bind. exists (WServe i). split; [by left|by eapply list_elem_of_lookup_2]. }
  apply Hp in Hin as [r Hc]. exists r. split; [done|]. pose proof (lookup_lt_Some _ _ _ Hc) as Hlt.
  assert (Hperm : i :: queue_ m ++ (<[j := WCheck]> (workers_ m) ≫= served) ≡ₚ pending m).
  { unfold pending. rewrite Permutation_middle. change (i :: ?x) with (served (WServe i) ++ x). by rewrite (served_insert _ _ _ WCheck Hj). }
  pose proof (checking_insert _ _ _ WCheck Hj) as Hck. cbn in Hck.
  assert (Hnb : no_blocked m → ∀ k, <[j := WCheck]> (workers_ m) !! k ≠ Some WBlocked).
  { intros Hn k H. apply list_lookup_insert_Some in H as [(_ & [=] & _)|[_ H]]. by eapply Hn. }
  rewrite <- Hperm in Hnd. apply NoDup_cons in Hnd as [Hni Hnd].
  destruct (serve_answer r (Hva i _ Hc)) as [Hs1 Hs2].
  constructor; cbn; try done.
  - intros k. unfold pending. cbn. destruct (decide (k = i)) as [->|Hk].
    + rewrite list_lookup_insert_eq by done. split; [done|by intros (x & [=])].
    + rewrite list_lookup_insert_ne, <- Hp, <- Hperm, elem_of_cons by done. tauto.
  - destruct Hwk as [Hn|?]; [left; exact (Hnb Hn)|right; lia].
  - intros k H. apply list_lookup_insert_Some in H as [(_ & [=] & _)|[_ H]]. by eapply Hex.
  - intros E. destruct (Ht E) as [? Hn]. split; [done|exact (Hnb Hn)].
  - intros E k rc Hk. apply list_lookup_insert_Some in Hk as [(_ & <- & _)|[_ Hk]]; [done|by eapply Hst].
  - by rewrite length_insert.
  - intros k rc Hk. apply list_lookup_insert_Some in Hk as [(_ & <- & _)|[_ Hk]]; [|by eapply Hva]. unfold value_ok. cbn [fst snd]. by rewrite Hs1, Hs2.
Qed.

(** * Every action *)

Lemma act_keeps_inv m a o : inv m → act a m = Some o → ∃ m', o = Done m' ∧ inv m'.
Proof.
  intros Hi H. pose proof Hi as [Hnd Hp Hwk Hex Ht Hst Hws Hva]. destruct a as [h s hi|i|j|j| |j| |]; cbn in H.
  - destruct (stop_ m) eqn:Es; [done|]. injection H as <-. eexists. split; [done|].
    constructor; cbn; try done; try congruence.
    + intros i. unfold pending in *. cbn. rewrite Hp. split; intros (r & E); exists r; [by apply lookup_app_l_Some|]. apply lookup_snoc_Some in E as [[_ ?]|[_ [=]]]; done.
    + intros i rc E. apply lookup_snoc_Some in E as [[_ ?]|[_ <-]]; [by eapply Hva|done].
  - unfold client_step in H. destruct (clients m !! i) as [[r c]|] eqn:Hc; [|done]. cbn in H. destruct c; try done.
    + destruct (await_ready r) as [ready r'] eqn:E. injection H as <-. eexists. split; [done|]. destruct ready.
      * destruct (await_ready_true r r' E) as [E1 E2]. eapply inv_client; try done. unfold value_ok. cbn [fst snd]. congruence.
      * destruct (await_ready_false r r' E) as [E1 E2]. by eapply inv_client.
    + injection H as <-. eexists. split; [done|]. by apply inv_submit.
    + injection H as <-. eexists. split; [done|]. eapply inv_client; try done. exact (Hva i _ Hc).
  - unfold worker_step in H. destruct (workers_ m !! j) as [w|] eqn:Hj; [|done]. cbn in H. destruct w as [| |i|]; try done.
    + destruct (queue_ m) as [|i q] eqn:Eq; injection H as <-; (eexists; split; [done|]).
      * replace {| m with workers_ := _ |} with {| m with queue_ := []; workers_ := <[j := if stop_ m then WExit else WBlocked]> (workers_ m) |} by (by destruct m; cbn in Eq; subst).
        eapply inv_worker; [done|exact Hj|by rewrite Eq; destruct (stop_ m)| |by destruct (stop_ m)|done|].
        -- destruct (stop_ m) eqn:Es; [by left|right]. split; [done|]. apply not_true_is_false. intros E. destruct (Ht E). congruence.
        -- intros _. left. cbn. lia.
      * pose proof (checking_insert _ _ _ (WServe i) Hj) as Hck. cbn in Hck.
        eapply inv_worker; [done|exact Hj| |by left|done|congruence|].
        -- rewrite Eq. cbn. rewrite app_nil_r. by rewrite Permutation_app_comm.
        -- rewrite Eq. cbn [length]. intros [?|?]; [by right|left; lia].
    + destruct (inv_serve m j i Hi Hj) as (r & Hc & Hi'). rewrite Hc in H. cbn in H. injection H as <-. eauto.
  - destruct (notifies m) as [|n] eqn:En; [done|]. destruct (workers_ m !! j) as [[]|] eqn:Hj; try done. injection H as <-. eexists. split; [done|].
    pose proof (checking_insert _ _ _ WCheck Hj) as Hck. cbn in Hck.
    assert (Hi' : inv {| m with queue_ := queue_ m; workers_ := <[j := WCheck]> (workers_ m) |}).
    { eapply inv_worker; [done|exact Hj|done|by left|done|done|]. intros [Hn|?]; [by destruct (Hn j)|left; lia]. }
    destruct Hi' as [? ? Hw' ? ? ? ? ?]. constructor; cbn in *; try done. right. destruct Hwk as [Hn|?]; [by destruct (Hn j)|lia].
  - destruct (notifies m) as [|n] eqn:En; [done|]. destruct (existsb is_blocked (workers_ m)) eqn:Eb; [done|]. injection H as <-. eexists. split; [done|].
    constructor; cbn; try done. left. intros k Hk. assert (existsb is_blocked (workers_ m) = true) as E; [|congruence].
    apply existsb_exists. exists WBlocked. split; [|done]. apply list_elem_of_In. by eapply list_elem_of_lookup_2.
  - destruct (workers_ m !! j) as [[]|] eqn:Hj; try done. injection H as <-. eexists. split; [done|].
    pose proof (checking_insert _ _ _ WCheck Hj) as Hck. cbn in Hck.
    replace {| m with workers_ := _ |} with {| m with queue_ := queue_ m; workers_ := <[j := WCheck]> (workers_ m) |} by done.
    eapply inv_worker; [done|exact Hj|done|by left|done|done|]. intros [Hn|?]; [by destruct (Hn j)|left; lia].
  - destruct (forallb _ (clients m)) eqn:Ef; [|done]. injection H as <-. eexists. split; [done|].
    rewrite forallb_forall in Ef. constructor; cbn; try done; [..|intros E; by destruct (Ht E)|].
    + intros k Hk. by destruct (Hex k Hk).
    + intros _ i rc Hc. apply Ef. apply list_elem_of_In. by eapply list_elem_of_lookup_2.
  - destruct (stop_ m) eqn:Es; [|done]. injection H as <-. eexists. split; [done|].
    set (f := λ w, if is_blocked w then WCheck else w).
    assert (Hse : (f <$> workers_ m) ≫= served = workers_ m ≫= served).
    { clear. induction (workers_ m) as [|w ws IH]; [done|]. cbn. rewrite IH. by destruct w. }
    assert (Hnb : ∀ k, (f <$> workers_ m) !! k ≠ Some WBlocked).
    { intros k. rewrite list_lookup_fmap. by destruct (workers_ m !! k) as [[]|]. }
    constructor; cbn; try done; fold f; rewrite ?Es.
    + unfold pending. cbn. by rewrite Hse.
    + intros i. unfold pending. cbn. rewrite Hse. apply Hp.
    + by left.
    + intros k. rewrite list_lookup_fmap. destruct (workers_ m !! k) as [[]|] eqn:Ek; try done. intros _. by destruct (Hex k Ek).
    + by rewrite length_fmap.
Qed.

Lemma resolver_inv n m : reachable n m → inv m.
Proof.
  intros Hr. assert (Hi : inv (Resolver_new n)).
  { assert (Hs : ∀ k, replicate k WCheck ≫= served = []) by (intros k; induction k; done).
    assert (Hl : ∀ j w, workers_ (@Resolver_new Info n) !! j = Some w → w = WCheck) by (intros j w H; by apply lookup_replicate in H as [-> _]).
    constructor; cbn; try done; unfold pending; cbn; rewrite ?Hs; cbn.
    - constructor.
    - intros i. rewrite elem_of_nil. split; [done|by intros (r & ?)].
    - right. lia.
    - intros j Hj. by apply Hl in Hj.
    - rewrite length_replicate. destruct (Z.ltb_spec n 1); lia. }
  induction Hr as [|x y z [a Ha] _ IH]; [done|]. apply IH. destruct (act_keeps_inv _ _ _ Hi Ha) as (m' & [= <-] & ?). done.
Qed.

(** * What the resolver promises *)

(** No coroutine and no worker can go on, and no notification is under way. *)
Definition quiet m : Prop :=
  (∀ i, act (Client i) m = None) ∧ (∀ j, act (Worker j) m = None) ∧ (∀ j, act (Notify j) m = None) ∧ act NotifyNobody m = None.

Lemma quiet_workers m j w : inv m → quiet m → workers_ m !! j = Some w → w = WBlocked ∨ w = WExit.
Proof.
  intros Hi (_ & Hw & _) Hj. specialize (Hw j). cbn in Hw. unfold worker_step in Hw. rewrite Hj in Hw. cbn in Hw.
  destruct w; [by destruct (queue_ m)|by left|done|by right].
Qed.

Lemma quiet_notifies m : quiet m → notifies m = 0%nat.
Proof.
  intros (_ & _ & Hn & Hb). cbn in Hn, Hb. destruct (notifies m) as [|n]; [done|]. destruct (existsb is_blocked (workers_ m)) eqn:E; [|done].
  apply existsb_exists in E as (w & Hin & Hw). apply list_elem_of_In, list_elem_of_lookup in Hin as [j Hj]. specialize (Hn j). rewrite Hj in Hn. by destruct w.
Qed.

Lemma checking_zero ws : (∀ j w, ws !! j = Some w → awake w = 0%nat) → checking ws = 0%nat.
Proof.
  unfold checking. induction ws as [|w ws IH]; intros H; [done|]. cbn. rewrite IH by (intros j x Hj; by apply (H (S j))). by rewrite (H 0%nat w).
Qed.

Lemma quiet_queue m : inv m → quiet m → queue_ m = [].
Proof.
  intros Hi Hq. pose proof (quiet_workers m) as Hw. destruct (q_wake _ Hi) as [Hn|Hl].
  - destruct (lookup_lt_is_Some_2 _ _ (q_workers _ Hi)) as [w H0]. destruct (Hw 0%nat w Hi Hq H0) as [->| ->]; [by destruct (Hn 0%nat)|].
    by destruct (q_exit _ Hi 0%nat H0).
  - rewrite (quiet_notifies _ Hq), checking_zero in Hl; [destruct (queue_ m); [done|cbn in Hl; lia]|]. intros j w Hj.
    by destruct (Hw j w Hi Hq Hj) as [->| ->].
Qed.

Lemma quiet_served m : inv m → quiet m → pending m = [].
Proof.
  intros Hi Hq. unfold pending. rewrite (quiet_queue m Hi Hq). cbn. pose proof (λ j w, quiet_workers m j w Hi Hq) as Hw.
  induction (workers_ m) as [|w ws IH]; [done|]. cbn. rewrite IH by (intros j x Hj; by apply (Hw (S j))). by destruct (Hw 0%nat w eq_refl) as [->| ->].
Qed.

(** C37: however workers and coroutines interleave, and whichever worker a notification
    wakes: no step is undefined (in particular no coroutine is resumed twice); a coroutine that has its answer has the
    one of the name service to its own request, at once if the host is numeric; when nobody can go on, every
    coroutine has its answer; and when the resolver is stopped too, all its workers have ended. *)
Theorem resolver_answers n m : reachable n m →
  (∀ a o, act a m = Some o → ∃ m', o = Done m') ∧
  (∀ i r x, clients m !! i = Some (r, CDone x) → x = answer_to r) ∧
  (quiet m → ∀ i r c, clients m !! i = Some (r, c) → c = CDone (answer_to r)) ∧
  (quiet m → told m = true → Forall (λ w, w = WExit) (workers_ m)).
Proof.
  intros Hr. pose proof (resolver_inv n m Hr) as Hi. assert (Hval : ∀ i r x, clients m !! i = Some (r, CDone x) → x = answer_to r) by (intros i r x Hc; exact (q_value _ Hi i _ Hc)).
  split_and!; [|done|..].
  - intros a o Ha. destruct (act_keeps_inv _ _ _ Hi Ha) as (m' & -> & _). eauto.
  - intros Hq i r c Hc. pose proof Hq as (Hcl & _). specialize (Hcl i). cbn in Hcl. unfold client_step in Hcl. rewrite Hc in Hcl. cbn in Hcl.
    destruct c as [| | | |x]; [by destruct (await_ready r)|done| |done|by rewrite (Hval i r x)].
    assert (Hin : i ∈ pending m) by (apply (q_pending _ Hi); eauto). rewrite (quiet_served m Hi Hq) in Hin. by apply elem_of_nil in Hin.
  - intros Hq Ht. apply Forall_lookup. intros j w Hj. destruct (quiet_workers m j w Hi Hq Hj) as [->|?]; [|done]. by destruct (q_told _ Hi Ht) as [_ Hn]; destruct (Hn j).
Qed.
End correct.

(** * An execution *)

(** A service that knows one host. *)
Definition one_host (h s : option string) (hi : hints) : Z * Z :=
  if Z.testbit (ai_flags hi) 2 then (-2, 0) else match h with Some _ => (0, 77) | None => (-2, 0) end.

(** Two coroutines ask; one worker serves both. *)
Definition two_requests : list action :=
  [Worker 0; Resolve "a"%string "80"%string (mkHints 0 1 0); Resolve ""%string "80"%string (mkHints 0 1 0);
   Client 0; Client 1; Client 0; Client 1; Notify 0; NotifyNobody; Worker 0; Worker 0; Worker 0; Worker 0; Client 1; Client 0; Worker 0].

Definition two_requests_end : machine Z := match run one_host 4 two_requests (Resolver_new 0) with Some (Done m) => m | _ => Resolver_new 0 end.

Lemma resolver_run {Info} (g : option string → option string → hints → Z * Info) flag l m0 m : run g flag l m0 = Some (Done m) → rtc (step g flag) m0 m.
Proof.
  revert m0. induction l as [|a l IH]; intros m0 H; cbn in H; [by injection H as <-|].
  destruct (act g flag a m0) as [[m1| |]|] eqn:E; try done. eapply rtc_l; [by exists a|by apply IH].
Qed.

Lemma resolver_answers_witness : snd <$> clients two_requests_end = [CDone (inl (Some 77)); CDone (inr (-2))] ∧
  ∀ i r c, clients two_requests_end !! i = Some (r, c) → c = CDone (answer_to one_host 4 r).
Proof.
  split; [by vm_compute|].
  assert (Hr : reachable one_host 4 0 two_requests_end) by (apply (resolver_run _ _ two_requests); by vm_compute).
  destruct (resolver_answers one_host 4 0 two_requests_end Hr) as (_ & _ & H & _). apply H.
  unfold quiet. split_and!; [intros [|[|i]]|intros [|j]|intros [|j]|]; by vm_compute.
Defined.
End ResolverCorrect.
