(* ===== verification/SocketLifetime.v ===== *)
(** The life of a TCP client socket's header in the build with UVENT_ENABLE_REUSEADDR
    ([SocketLinux.h], [SocketLinux.cpp]): its handles count references, its timer holds one
    of its own, and everything that touches the timer wheel, the poller or the queue of
    headers to delete happens on the worker that owns it; the others forward what they want
    done.

    One header is followed.  The owner and any number of calls on other workers
    interleave, one step per access to what they share.  The handles ([Socket] objects) may be
    used by any worker, each by one at a time. *)

From S2P Require Import Prelude.

Module SocketLifetime.

Local Open Scope nat_scope.

(** [SocketOp::Kind]. *)
Inductive op := Timeout | Shutdown | Destroy.

Record header := mkHeader {
  refs : nat;                 (** the count in the state word *)
  closed : bool;              (** its CLOSED bit *)
  TIMER_CLAIMED : bool;       (** [tflags] *)
  TEARDOWN_PENDING : bool;
  DESTROYED : bool;
  timer_id : bool;            (** it is not 0 *)
  pending_ops : nat;
  fd : bool                   (** open *)
}.

(** What a forwarding call does next. *)
Inductive fnext := KReturn | KGone | KClaim.

(** A call on a worker that is not the owner. *)
Inductive fpc :=
| FEnd
| FRel                        (** [~Socket]: [release] *)
| FRelTimer                   (** [shutdown]: [release] of the timer's reference *)
| FDest (k : fnext)           (** [destroy]: the flag *)
| FFwdAdd (o : op) (k : fnext) (** [forward_socket_op]: the count *)
| FFwdPush (o : op) (k : fnext) (** and the queue *)
| FSet1                       (** [set_timeout_ms]: [timer_id] *)
| FSet2                       (** the reference *)
| FSet3                       (** the flag *)
| FUpd                        (** [update_timeout] *)
| FShut1                      (** [shutdown]: [timer_id] *)
| FClaim.                     (** the flag *)

(** What the owner does after a teardown: it returns, or it ends the op. *)
Inductive onext := ONothing | OHandle | OOp.

Inductive opc :=
| OIdle
| OFire                       (** [processSocketTimeout] *)
| OFireSkip
| OFire2
| ORel (k : onext)            (** [release]; [OHandle]: by [shutdown], the handle stays *)
| OTear1 (k : onext)          (** [teardown_socket_header_local]: the timer *)
| OTear2 (k : onext)          (** the bit and the poller *)
| OTear3 (k : onext)          (** the flag *)
| OTear4 (k : onext)          (** the queue of headers to delete *)
| OSet1                       (** [set_timeout_ms] *)
| OSet2
| OSet3
| OArm (k : onext)            (** [arm_or_refresh_socket_timer] *)
| OShut1                      (** [shutdown] *)
| OClaim
| OConn1                      (** [async_connect] has succeeded: the timer is cancelled *)
| OConn2                      (** and its reference dropped *)
| OApply (o : op)             (** [apply_socket_op] *)
| OOpShut
| OEnd1
| OEnd2.

Record world := mkWorld {
  hd : header;
  armed : bool;               (** the owner's wheel holds the timer *)
  ops : list op;              (** [sock_ops_q_] of the owner *)
  q_sh : nat;                 (** how often the header is in the queue of headers to delete *)
  deleted : bool;
  handles : nat;              (** those that no call uses *)
  owner : opc;
  foreign : list fpc;
  ever : bool                 (** history: a timer was asked for *)
}.

(** A socket with one handle. *)
Definition Socket_new : world :=
  mkWorld (mkHeader 1 false false false false false 0 true) false [] 0 false 1 OIdle [] false.

(** ** The parts of the calls *)

(** The count goes down; [destroy] when it was 1. *)
Definition release (h : header) : outcome (header * bool) :=
  match refs h with O => UB | S n => Done ({| h with refs := n |}, n =? 0) end.

(** The compare-exchange loop of [set_timeout_ms]. *)
Definition timer_ref (h : header) : header := if closed h then h else {| h with refs := S (refs h) |}.

Definition put (f : fpc) (i : nat) (w : world) : world := {| w with foreign := <[i := f]> (foreign w) |}.

(** A call on another worker goes on, or it returns and leaves its handle. *)
Definition follow (k : fnext) (i : nat) (w : world) : world :=
  match k with
  | KReturn => put FEnd i {| w with handles := S (handles w) |}
  | KGone => put FEnd i w
  | KClaim => put FClaim i w
  end.

Definition foreign_step (i : nat) (f : fpc) (w : world) : option (outcome world) :=
  let h := hd w in
  match f with
  | FEnd => None
  | FRel =>
      Some (r ← release h; Done (let w := {| w with hd := r.1 |} in if r.2 : bool then put (FDest KGone) i w else put FEnd i w))
  | FRelTimer =>
      Some (r ← release h; Done (let w := {| w with hd := r.1 |} in if r.2 : bool then put (FDest KReturn) i w else follow KReturn i w))
  | FDest k => Some (Done (put (FFwdAdd Destroy k) i {| w with hd := {| h with TEARDOWN_PENDING := true |} |}))
  | FFwdAdd o k => Some (Done (put (FFwdPush o k) i {| w with hd := {| h with pending_ops := S (pending_ops h) |} |}))
  | FFwdPush o k => Some (Done (follow k i {| w with ops := ops w ++ [o] |}))
  | FSet1 => Some (Done (put (if timer_id h then FFwdAdd Timeout KReturn else FSet2) i w))
  | FSet2 => Some (Done (put FSet3 i {| w with hd := timer_ref h |}))
  | FSet3 => Some (Done (put (FFwdAdd Timeout KReturn) i {| w with hd := {| h with TIMER_CLAIMED := false |}; ever := true |}))
  | FUpd => Some (Done (if timer_id h then put (FFwdAdd Timeout KReturn) i w else follow KReturn i w))
  | FShut1 => Some (Done (put (FFwdAdd Shutdown (if timer_id h then KClaim else KReturn)) i w))
  | FClaim =>
      let w' := {| w with hd := {| h with TIMER_CLAIMED := true |} |} in
      Some (Done (if TIMER_CLAIMED h then follow KReturn i w' else put FRelTimer i w'))
  end.

Definition turn (o : opc) (w : world) : world := {| w with owner := o |}.

Definition finish (k : onext) (w : world) : world :=
  match k with
  | ONothing => turn OIdle w
  | OHandle => turn OIdle {| w with handles := S (handles w) |}
  | OOp => turn OEnd1 w
  end.

(** [cancelTimer] and [timer_id = 0]. *)
Definition drop_timer (w : world) : world := {| w with armed := false; hd := {| (hd w) with timer_id := false |} |}.

Definition owner_step (w : world) : option (outcome world) :=
  let h := hd w in
  match owner w with
  | OIdle => None
  | OFire =>
      let w' := {| w with hd := {| h with TIMER_CLAIMED := true |} |} in
      Some (Done (turn (if TIMER_CLAIMED h || TEARDOWN_PENDING h then OFireSkip else OFire2) w'))
  | OFireSkip => Some (Done (turn OIdle {| w with hd := {| h with timer_id := false |} |}))
  | OFire2 => Some (Done (turn (ORel ONothing) {| w with hd := {| h with timer_id := false; fd := false |} |}))
  | ORel k =>
      Some (r ← release h; Done (let w := {| w with hd := r.1 |} in if r.2 : bool then turn (OTear1 k) w else finish k w))
  | OTear1 k => Some (Done (turn (OTear2 k) (if timer_id h then drop_timer w else w)))
  | OTear2 k => Some (Done (turn (OTear3 k) {| w with hd := {| h with closed := true; fd := false |} |}))
  | OTear3 k => Some (Done (turn (OTear4 k) {| w with hd := {| h with DESTROYED := true |} |}))
  | OTear4 k => Some (Done (finish k (if pending_ops h =? 0 then {| w with q_sh := S (q_sh w) |} else w)))
  | OSet1 => Some (Done (if timer_id h then finish OHandle w else turn OSet2 w))
  | OSet2 => Some (Done (turn OSet3 {| w with hd := timer_ref h |}))
  | OSet3 => Some (Done (turn (OArm OHandle) {| w with hd := {| h with TIMER_CLAIMED := false |}; ever := true |}))
  | OArm k => Some (Done (finish k (if timer_id h then w else {| w with armed := true; hd := {| h with timer_id := true |} |})))
  | OShut1 => Some (Done (if timer_id h && armed w then turn OClaim (drop_timer w) else finish OHandle w))
  | OClaim =>
      let w' := {| w with hd := {| h with TIMER_CLAIMED := true |} |} in
      Some (Done (if TIMER_CLAIMED h then finish OHandle w' else turn (ORel OHandle) w'))
  | OConn1 => Some (Done (turn OConn2 (drop_timer w)))
  | OConn2 => Some (r ← release h; Done (finish OHandle {| w with hd := r.1 |}))
  | OApply o =>
      if DESTROYED h then Some (Done (turn OEnd1 w))
      else match o with
           | Timeout =>
               if TEARDOWN_PENDING h || (negb (timer_id h) && TIMER_CLAIMED h) then Some (Done (turn OEnd1 w))
               else Some (Done (turn (OArm OOp) w))
           | Shutdown => Some (Done (turn OOpShut w))
           | Destroy => Some (Done (turn (OTear1 OOp) w))
           end
  | OOpShut => Some (Done (turn OEnd1 (if timer_id h then drop_timer w else w)))
  | OEnd1 =>
      match pending_ops h with
      | O => Some UB
      | S n => Some (Done (turn (if n =? 0 then OEnd2 else OIdle) {| w with hd := {| h with pending_ops := n |} |}))
      end
  | OEnd2 => Some (Done (turn OIdle (if DESTROYED h then {| w with q_sh := S (q_sh w) |} else w)))
  end.

(** ** The machine *)

Inductive call := Drop | SetTimeout | UpdateTimeout | Shut.

Definition foreign_start (c : call) : fpc := match c with Drop => FRel | SetTimeout => FSet1 | UpdateTimeout => FUpd | Shut => FShut1 end.
(** [update_timeout] by the owner only changes the time of its timer. *)
Definition owner_start (c : call) : opc := match c with Drop => ORel ONothing | SetTimeout => OSet1 | UpdateTimeout => OIdle | Shut => OShut1 end.

Inductive action :=
| Copy                        (** a handle is copied *)
| Foreign (c : call)          (** a call on another worker *)
| FStep (i : nat)
| Own (c : call)              (** a call on the owner *)
| OStep
| Fire                        (** the wheel calls back *)
| Take                        (** the owner takes the next op *)
| Free                        (** and deletes what is in [q_sh] *)
| Connected                   (** the end of an [async_connect] with a timeout *)
| Remove.                     (** [Socket::remove], on the owner *)

Definition is_idle (o : opc) : bool := match o with OIdle => true | _ => false end.

Definition use (w : world) (o : outcome world) : option (outcome world) := Some (if deleted w then UB else o).

(** [None]: it is not possible now.  Whatever uses a header that was deleted is undefined. *)
Definition act (a : action) (w : world) : option (outcome world) :=
  match a with
  | Copy =>
      match handles w with O => None | S n => use w (Done {| w with hd := {| (hd w) with refs := S (refs (hd w)) |}; handles := S (S n) |}) end
  | Foreign c =>
      match handles w with O => None | S n => use w (Done {| w with handles := n; foreign := foreign w ++ [foreign_start c] |}) end
  | FStep i => f ← foreign w !! i; o ← foreign_step i f w; use w o
  | Own UpdateTimeout => match handles w with O => None | S _ => use w (Done w) end
  | Own c =>
      match handles w with
      | O => None
      | S n => if is_idle (owner w) then use w (Done (turn (owner_start c) {| w with handles := n |})) else None
      end
  | OStep => o ← owner_step w; use w o
  | Fire => if is_idle (owner w) && armed w then use w (Done (turn OFire {| w with armed := false |})) else None
  | Take =>
      match ops w with
      | o :: l => if is_idle (owner w) then use w (Done (turn (OApply o) {| w with ops := l |})) else None
      | [] => None
      end
  | Free =>
      match q_sh w with
      | S n => if is_idle (owner w) then use w (Done {| w with q_sh := n; deleted := true |}) else None
      | O => None
      end
  | Connected =>
      match handles w with
      | O => None
      | S n => if is_idle (owner w) && timer_id (hd w) then use w (Done (turn OConn1 {| w with handles := n |})) else None
      end
  | Remove =>
      match handles w with
      | O => None
      | S _ => if is_idle (owner w) then use w (Done {| w with hd := {| (hd w) with closed := true; fd := false |} |}) else None
      end
  end.

Fixpoint run (l : list action) (w : world) : option (outcome world) :=
  match l with
  | [] => Some (Done w)
  | a :: l => match act a w with Some (Done w') => run l w' | o => o end
  end.
End SocketLifetime.
