(* ===== verification/SocketLifetimeCorrect.v ===== *)
(** The header of a socket is deleted once, after its last use, whichever workers use,
    time out, shut down and drop its handles, and whenever the owner gets to what they
    forward.  Timers that only the owner sets leave nothing behind; a timer set from another
    worker can leak the header, and two rarer calls can free it too early. *)

From S2P Require Import Prelude SocketLifetime.

Module SocketLifetimeCorrect.
Import SocketLifetime.
Local Open Scope nat_scope.
Local Arguments Nat.eqb : simpl nomatch.
Implicit Types (w : world) (h : header) (f : fpc) (o : opc) (i : nat).

(** * Contributions *)

(** The references a call on another worker answers for: its handle, a timer's reference
    that it has taken or claimed. *)
Definition fheld f : nat :=
  match f with
  | FEnd | FDest _ | FFwdAdd Destroy _ | FFwdPush Destroy _ => 0
  | FRelTimer | FSet3 => 2
  | _ => 1
  end.
Definition oheld o : nat :=
  match o with
  | ORel OHandle | OSet3 => 2
  | OFire2 | ORel _ | OSet1 | OSet2 | OArm OHandle | OShut1 | OClaim | OConn1 | OConn2 => 1
  | _ => 0
  end.

(** Who is to tear the header down. *)
Definition fdest f : nat := match f with FDest _ | FFwdAdd Destroy _ | FFwdPush Destroy _ => 1 | _ => 0 end.
Definition odest o : nat := match o with OApply Destroy | OTear1 _ | OTear2 _ | OTear3 _ => 1 | _ => 0 end.
Definition qdest (q : op) : nat := match q with Destroy => 1 | _ => 0 end.

(** Ops that are counted and not in the queue. *)
Definition fpend f : nat := match f with FFwdPush _ _ => 1 | _ => 0 end.
Definition opend o : nat :=
  match o with OApply _ | OTear1 OOp | OTear2 OOp | OTear3 OOp | OTear4 OOp | OArm OOp | OOpShut | OEnd1 => 1 | _ => 0 end.

(** What only happens after a timer was asked for. *)
Definition fever f : bool := match f with FClaim | FRelTimer | FFwdAdd Timeout _ | FFwdPush Timeout _ | FFwdAdd _ KClaim | FFwdPush _ KClaim => true | _ => false end.
Definition oever o : bool := match o with OFire | OFireSkip | OFire2 | ORel OHandle | OArm _ | OClaim | OApply Timeout => true | _ => false end.

(** Where a call cannot stand. *)
Definition fwrong f : bool :=
  match f with FDest KReturn | FDest KClaim | FFwdAdd Destroy KReturn | FFwdPush Destroy KReturn | FFwdAdd Destroy KClaim | FFwdPush Destroy KClaim => true | _ => false end.
Definition owrong o : bool :=
  match o with ORel OOp | OTear1 OHandle | OTear2 OHandle | OTear3 OHandle | OTear4 OHandle | OArm ONothing | OConn1 | OConn2 => true | _ => false end.

(** The timer is not on the wheel: it has fired, or the teardown has cancelled it. *)
Definition otorn o : bool := match o with OFire | OFireSkip | OFire2 | OTear2 _ | OTear3 _ | OTear4 _ => true | _ => false end.

(** The owner has seen that the header is not destroyed. *)
Definition oarm o : bool := match o with OArm OOp => true | _ => false end.

(** The owner has destroyed it, or has seen the last op. *)
Definition odone o : bool := match o with OTear4 _ => true | _ => false end.
Definition olast o : bool := match o with OEnd2 => true | _ => false end.

(** * The invariant *)

Definition owed w : bool := ever w && negb (TIMER_CLAIMED (hd w)).

Record inv w : Prop := {
  s_refs : handles w + total fheld (foreign w) + oheld (owner w) + Nat.b2n (owed w) <= refs (hd w);
  s_dest : total fdest (foreign w) + total qdest (ops w) + odest (owner w) + Nat.b2n (DESTROYED (hd w)) = Nat.b2n (refs (hd w) =? 0);
  s_pend : pending_ops (hd w) = length (ops w) + total fpend (foreign w) + opend (owner w);
  s_closed : closed (hd w) = true → refs (hd w) = 0;
  s_timer : armed w = true → timer_id (hd w) = true;
  s_ever : timer_id (hd w) = true → ever w = true;
  s_qever : Timeout ∈ ops w → ever w = true;
  s_fever i f : foreign w !! i = Some f → fever f = true → ever w = true;
  s_oever : oever (owner w) = true → ever w = true;
  s_fwrong i f : foreign w !! i = Some f → fwrong f = false;
  s_owrong : owrong (owner w) = false;
  s_torn : otorn (owner w) || DESTROYED (hd w) = true → armed w = false;
  s_arm : oarm (owner w) = true → DESTROYED (hd w) = false;
  s_done : odone (owner w) = true → DESTROYED (hd w) = true;
  s_last : olast (owner w) && DESTROYED (hd w) = true → pending_ops (hd w) = 0;
  s_free : q_sh w + Nat.b2n (deleted w) = 1 ∧ DESTROYED (hd w) = true ∧ pending_ops (hd w) = 0 ∧ owner w = OIdle ∨
           q_sh w = 0 ∧ deleted w = false ∧
             (DESTROYED (hd w) = true → 0 < pending_ops (hd w) ∨ owner w = OEnd2 ∨ owner w = OTear4 ONothing ∨ owner w = OTear4 OOp)
}.

(** While somebody holds a reference, the header is neither destroyed nor queued. *)
Lemma held_live w : inv w → 0 < refs (hd w) → deleted w = false ∧ DESTROYED (hd w) = false ∧ closed (hd w) = false ∧ q_sh w = 0.
Proof.
  intros Hi Hr. pose proof (s_dest _ Hi) as Hd. rewrite (proj2 (Nat.eqb_neq _ _)) in Hd by lia. cbn in Hd.
  assert (E : DESTROYED (hd w) = false) by (destruct (DESTROYED (hd w)); [cbn in Hd; lia|done]).
  destruct (s_free _ Hi) as [(_ & ? & _)|(? & ? & _)]; [congruence|]. split_and!; try done. apply not_true_is_false. intros Hc. apply (s_closed _ Hi) in Hc. lia.
Qed.

Lemma pending_live w : inv w → 0 < pending_ops (hd w) → deleted w = false.
Proof. intros Hi Hp. destruct (s_free _ Hi) as [(_ & _ & ? & _)|(_ & ? & _)]; [lia|done]. Qed.

(** A call that is not over uses a header that exists. *)
Lemma foreign_live w i f : inv w → foreign w !! i = Some f → f ≠ FEnd → deleted w = false.
Proof.
  intros Hi Hf Hn. destruct (decide (0 < refs (hd w))) as [Hr|Hr]; [by apply held_live|].
  pose proof (total_elem fheld _ _ _ Hf) as H1. pose proof (total_elem fdest _ _ _ Hf) as H2. pose proof (s_refs _ Hi) as H3. pose proof (s_dest _ Hi) as H4.
  destruct (s_free _ Hi) as [(_ & E & _)|(_ & ? & _)]; [|done]. rewrite E in H4. rewrite (proj2 (Nat.eqb_eq _ _)) in H4 by lia. cbn in H4.
  destruct f as [| | | |[]|[]| | | | | |]; cbn in *; (done || lia).
Qed.

Lemma owner_live w : inv w → owner w ≠ OIdle → deleted w = false.
Proof. intros Hi Hn. destruct (s_free _ Hi) as [(_ & _ & _ & ?)|(_ & ? & _)]; done. Qed.

(** * Calls on other workers *)

(** The accounts after a call has moved. *)
Ltac accounts Hf y :=
  pose proof (total_insert fheld _ _ _ y Hf); pose proof (total_insert fdest _ _ _ y Hf); pose proof (total_insert fpend _ _ _ y Hf).

(** A call moves from [f] to [f'], without the owner. *)
Lemma inv_foreign w w' i f f' hn : inv w → foreign w !! i = Some f → foreign w' = <[i := f']> (foreign w) → handles w' = handles w + hn →
  owner w' = owner w → armed w' = armed w → q_sh w' = q_sh w → deleted w' = deleted w → (ever w = true → ever w' = true) →
  timer_id (hd w') = timer_id (hd w) → DESTROYED (hd w') = DESTROYED (hd w) → (closed (hd w') = closed (hd w)) →
  hn + fheld f' + Nat.b2n (owed w') + refs (hd w) <= fheld f + Nat.b2n (owed w) + refs (hd w') →
  total qdest (ops w') + fdest f' + Nat.b2n (refs (hd w) =? 0) = total qdest (ops w) + fdest f + Nat.b2n (refs (hd w') =? 0) →
  pending_ops (hd w') + length (ops w) + fpend f = pending_ops (hd w) + length (ops w') + fpend f' →
  (closed (hd w) = true → refs (hd w') = 0) → (pending_ops (hd w) <= pending_ops (hd w')) → (DESTROYED (hd w) = true → pending_ops (hd w') = pending_ops (hd w)) →
  (Timeout ∈ ops w' → ever w' = true) → (fever f' = true → ever w' = true) → fwrong f' = false → inv w'.
Proof.
  intros Hi Hf Ef Eh Eo Ea Eq Ed Eev Et Ede Ec Hr Hd Hp Hc Hpm Hpd Hq Hfe Hfw. accounts Hf f'. destruct Hi as [R D P C T E QE FE OE FW OW TO AR DN LA FR].
  assert (Hcase : ∀ j g, <[i := f']> (foreign w) !! j = Some g → g = f' ∨ foreign w !! j = Some g).
  { intros j g Hg. apply list_lookup_insert_Some in Hg as [(-> & <- & _)|[_ ?]]; auto. }
  constructor; rewrite ?Ef, ?Eo, ?Eh, ?Ea, ?Et, ?Ede, ?Ec, ?Eq, ?Ed; try done; try lia.
  - intros. apply Eev. by apply E.
  - intros j g Hg Hx. destruct (Hcase j g Hg) as [->|?]; [by apply Hfe|]. apply Eev. by eapply FE.
  - intros. apply Eev. by apply OE.
  - intros j g Hg. destruct (Hcase j g Hg) as [->|?]; [done|by eapply FW].
  - intros HL. rewrite Hpd; [by apply LA|]. by apply andb_true_iff in HL as [_ ?].
  - destruct FR as [(? & HD & ? & ?)|(? & ? & HH)]; [left; split_and!; try done; by rewrite Hpd|right; split_and!; try done].
    intros HD. destruct (HH HD) as [?|?]; [left; lia|by right].
Qed.

(** What [inv_foreign] asks of a step that is given by its fields. *)
Ltac foreign_move Hi Hf f' n := eapply (inv_foreign _ _ _ _ f' n Hi Hf); unfold owed; cbn; try done; try lia; try apply (s_closed _ Hi); try apply (s_qever _ Hi).

Lemma foreign_keeps w i f (o : outcome world) : inv w → foreign w !! i = Some f → foreign_step i f w = Some o → ∃ w', o = Done w' ∧ inv w'.
Proof.
  intros Hi Hf. pose proof (total_elem fheld _ _ _ Hf) as Hh. pose proof (total_elem fdest _ _ _ Hf) as Hds. pose proof (s_fwrong _ Hi _ _ Hf) as Hw. pose proof (s_fever _ Hi _ _ Hf) as Hfe.
  pose proof (s_refs _ Hi) as Hr. pose proof (s_qever _ Hi) as Hqe. pose proof (s_dest _ Hi) as Hd.
  assert (Hq : ∀ q, (q = Timeout → ever w = true) → Timeout ∈ ops w ++ [q] → ever w = true) by (intros q Hq [?|?%list_elem_of_singleton]%elem_of_app; auto).
  assert (Hrel : fheld f ≠ 0 → deleted w = false ∧ DESTROYED (hd w) = false ∧ closed (hd w) = false ∧ q_sh w = 0) by (intros; apply held_live; [done|lia]).
  destruct f as [| | |k|q k|q k| | | | | |]; cbn [foreign_step]; intros E; [done|..]; apply (inj Some) in E; subst o; cbn in Hh, Hds, Hw, Hfe.
  - destruct (Hrel ltac:(done)) as (_ & Hde & Hcl & _). unfold release. destruct (refs (hd w)) as [|n] eqn:En; [lia|]. cbn [mbind outcome_bind fst snd].
    eexists. split; [reflexivity|]. destruct (Nat.eqb_spec n 0) as [->|Hn].
    + foreign_move Hi Hf (FDest KGone) 0; rewrite ?En; cbn; try done; try lia; try congruence.
    + foreign_move Hi Hf FEnd 0; rewrite ?En; cbn; try done; try lia; try congruence. by rewrite (proj2 (Nat.eqb_neq n 0)).
  - destruct (Hrel ltac:(done)) as (_ & Hde & Hcl & _). unfold release. destruct (refs (hd w)) as [|n] eqn:En; [lia|]. cbn [mbind outcome_bind fst snd].
    rewrite (proj2 (Nat.eqb_neq n 0)) by lia. eexists. split; [reflexivity|].
    foreign_move Hi Hf FEnd 1; rewrite ?En; cbn; try done; try lia; try congruence. by rewrite (proj2 (Nat.eqb_neq n 0)) by lia.
  - eexists. split; [reflexivity|]. foreign_move Hi Hf (FFwdAdd Destroy k) 0; by destruct k.
  - eexists. split; [reflexivity|]. foreign_move Hi Hf (FFwdPush q k) 0.
    intros HD. exfalso. rewrite HD in Hd. destruct q; cbn in *; try (destruct (Hrel ltac:(done)) as (_ & ? & _); congruence). destruct (refs (hd w) =? 0); cbn in Hd; lia.
  - eexists. split; [reflexivity|].
    assert (Hde : DESTROYED (hd w) = true → False).
    { intros HD. rewrite HD in Hd. destruct q; cbn in *; try (destruct (Hrel ltac:(done)) as (_ & ? & _); congruence). destruct (refs (hd w) =? 0); cbn in Hd; lia. }
    destruct k; cbn [follow].
    + foreign_move Hi Hf FEnd 1; rewrite ?total_app, ?length_app, ?total_one; cbn; try lia; try (by destruct q); try (apply Hq; intros ->; by apply Hfe). destruct q; cbn in *; try lia; done.
    + foreign_move Hi Hf FEnd 0; rewrite ?total_app, ?length_app, ?total_one; cbn; try lia; try (by destruct q); try (apply Hq; intros ->; by apply Hfe); destruct q; cbn in *; lia.
    + foreign_move Hi Hf FClaim 0; rewrite ?total_app, ?length_app, ?total_one; cbn; try lia; try (by destruct q); try (apply Hq; intros ->; by apply Hfe); destruct q; cbn in *; try lia; try done; by apply Hfe.
  - eexists. split; [reflexivity|]. destruct (timer_id (hd w)) eqn:Et; [foreign_move Hi Hf (FFwdAdd Timeout KReturn) 0; intros _; by apply (s_ever _ Hi)|foreign_move Hi Hf FSet2 0].
  - destruct (Hrel ltac:(done)) as (_ & Hde & Hcl & _). eexists. split; [reflexivity|]. unfold timer_ref. rewrite Hcl.
    foreign_move Hi Hf FSet3 0; try congruence. rewrite (proj2 (Nat.eqb_neq (refs (hd w)) 0)) by lia. done.
  - eexists. split; [reflexivity|]. foreign_move Hi Hf (FFwdAdd Timeout KReturn) 0.
  - eexists. split; [reflexivity|]. destruct (timer_id (hd w)) eqn:Et; [foreign_move Hi Hf (FFwdAdd Timeout KReturn) 0; intros _; by apply (s_ever _ Hi)|foreign_move Hi Hf FEnd 1].
  - eexists. split; [reflexivity|]. destruct (timer_id (hd w)) eqn:Et; [foreign_move Hi Hf (FFwdAdd Shutdown KClaim) 0; intros _; by apply (s_ever _ Hi)|foreign_move Hi Hf (FFwdAdd Shutdown KReturn) 0].
  - eexists. split; [reflexivity|]. destruct (TIMER_CLAIMED (hd w)) eqn:Ecl.
    + foreign_move Hi Hf FEnd 1. rewrite Ecl, andb_false_r. cbn. lia.
    + foreign_move Hi Hf FRelTimer 0. rewrite Ecl, andb_false_r, (Hfe eq_refl). cbn. lia.
Qed.

(** * The owner *)

(** When the header is in no queue yet, or has just been put there. *)
Definition queued w : Prop :=
  q_sh w + Nat.b2n (deleted w) = 1 ∧ DESTROYED (hd w) = true ∧ pending_ops (hd w) = 0 ∧ owner w = OIdle ∨
  q_sh w = 0 ∧ deleted w = false ∧
    (DESTROYED (hd w) = true → 0 < pending_ops (hd w) ∨ owner w = OEnd2 ∨ owner w = OTear4 ONothing ∨ owner w = OTear4 OOp).

Lemma inv_owner w w' hn : inv w → foreign w' = foreign w → handles w' = handles w + hn → (ever w = true → ever w' = true) →
  hn + oheld (owner w') + Nat.b2n (owed w') + refs (hd w) <= oheld (owner w) + Nat.b2n (owed w) + refs (hd w') →
  total qdest (ops w') + odest (owner w') + Nat.b2n (DESTROYED (hd w')) + Nat.b2n (refs (hd w) =? 0) =
    total qdest (ops w) + odest (owner w) + Nat.b2n (DESTROYED (hd w)) + Nat.b2n (refs (hd w') =? 0) →
  pending_ops (hd w') + length (ops w) + opend (owner w) = pending_ops (hd w) + length (ops w') + opend (owner w') →
  (closed (hd w') = true → refs (hd w') = 0) → (armed w' = true → timer_id (hd w') = true) → (timer_id (hd w') = true → ever w' = true) →
  (Timeout ∈ ops w' → ever w' = true) → (oever (owner w') = true → ever w' = true) → owrong (owner w') = false →
  (otorn (owner w') || DESTROYED (hd w') = true → armed w' = false) → (oarm (owner w') = true → DESTROYED (hd w') = false) →
  (odone (owner w') = true → DESTROYED (hd w') = true) → (olast (owner w') && DESTROYED (hd w') = true → pending_ops (hd w') = 0) → queued w' → inv w'.
Proof.
  intros Hi Ef Eh Eev Hr Hd Hp Hc Ht He Hq Ho Hw Hto Har Hdn Hla Hfr. destruct Hi as [R D P C T E QE FE OE FW OW TO AR DN LA FR].
  constructor; rewrite ?Ef, ?Eh; try done; try lia. intros i f Hf Hx. apply Eev. by eapply FE.
Qed.

Ltac owner_move Hi n := eapply (inv_owner _ _ n Hi); unfold owed, queued; cbn; try done; try lia;
  try apply (s_closed _ Hi); try apply (s_qever _ Hi); try apply (s_timer _ Hi); try apply (s_ever _ Hi).

(** A reference is dropped: the caller holds it, so there is one. *)
Lemma release_some w (x : nat) : inv w → oheld (owner w) = x → 0 < x → ∃ n, refs (hd w) = S n ∧ x + Nat.b2n (owed w) + handles w <= S n.
Proof. intros Hi Ex Hx. pose proof (s_refs _ Hi) as Hr. rewrite Ex in Hr. destruct (refs (hd w)) as [|n]; [lia|]. exists n. split; [done|lia]. Qed.

(** What the invariant says where the owner stands, and is not idle. *)
Lemma owner_facts w : inv w → owner w ≠ OIdle →
  q_sh w = 0 ∧ deleted w = false ∧ (oheld (owner w) ≠ 0 → DESTROYED (hd w) = false ∧ closed (hd w) = false) ∧
  (odest (owner w) ≠ 0 → DESTROYED (hd w) = false ∧ refs (hd w) = 0 ∧ total qdest (ops w) = 0).
Proof.
  intros Hi Hn. pose proof (s_refs _ Hi) as Hr. pose proof (s_dest _ Hi) as Hd.
  destruct (s_free _ Hi) as [(_ & _ & _ & E)|(Hq & Hdel & _)]; [done|]. split_and!; [done|done| |].
  - intros Ho. destruct (held_live _ Hi) as (_ & ? & ? & _); [lia|done].
  - intros Ho. destruct (Nat.eqb_spec (refs (hd w)) 0); destruct (DESTROYED (hd w)); cbn in Hd; split_and!; (done || lia).
Qed.

(** One goal per way the step can go. *)
Ltac owner_cases H :=
  repeat (match type of H with
  | context [?n =? 0] => destruct (Nat.eqb_spec n 0)
  | context [?b || _] => is_var b; destruct b
  | context [?b && _] => is_var b; destruct b
  | context [negb ?b] => is_var b; destruct b
  | context [if ?b then _ else _] => is_var b; destruct b
  end; cbn in H).

Ltac owner_done :=
  repeat match goal with
  | H : ?a = ?a → _ |- _ => specialize (H eq_refl)
  | H : S _ ≠ 0 → _ |- _ => specialize (H (Nat.neq_succ_0 _))
  | H : _ ∧ _ |- _ => destruct H
  | H : ?n ≠ 0 |- context [?n =? 0] => rewrite (proj2 (Nat.eqb_neq n 0) H)
  | H : ?b = true → false = true |- _ => is_var b; destruct b; [discriminate (H eq_refl)|clear H]
  end;
  subst; unfold timer_ref in *; cbn in *; rewrite ?andb_false_r, ?andb_true_r in *; cbn in *;
  solve [done | lia | auto | congruence | intros; intuition (congruence || lia) ].

Lemma owner_keeps w (o : outcome world) : inv w → owner_step w = Some o → ∃ w', o = Done w' ∧ inv w'.
Proof.
  intros Hi Hs. assert (Hn : owner w ≠ OIdle) by (intros Eo; unfold owner_step in Hs; by rewrite Eo in Hs).
  destruct (owner_facts _ Hi Hn) as (Hq & Hdel & Hheld & Hdst).
  pose proof (s_owrong _ Hi) as How. pose proof (s_oever _ Hi) as Hoe. pose proof (s_refs _ Hi) as Hr. pose proof (s_dest _ Hi) as Hd.
  pose proof (s_pend _ Hi) as Hp. pose proof (s_torn _ Hi) as Hto. pose proof (s_ever _ Hi) as Hev. pose proof (s_free _ Hi) as Hfr. pose proof (s_arm _ Hi) as Har. pose proof (s_timer _ Hi) as Hti.
  pose proof (s_done _ Hi) as Hdn. pose proof (s_last _ Hi) as Hla.
  destruct w as [[rf cl tc tp de ti po fdd] ar os q del hn ow fo ev]. cbn in Hq, Hdel, Hheld, Hdst, How, Hoe, Hr, Hd, Hp, Hto, Hev, Hfr, Hn, Har, Hti, Hdn, Hla. unfold owed in Hr. cbn in Hr.
  destruct ow as [| | | |[]|[]|[]|[]|[]| | | |[]| | | | |[]| | |]; try done; cbn in Hs, Hheld, Hdst, Hoe, Hr, Hd, Hp, Hto, Hfr, Har, Hdn, Hla.
  all: clear How Hn.
  all: try (destruct rf as [|rf]; [exfalso; cbn in *; lia|]; cbn [release refs mbind outcome_bind] in Hs).
  all: try (destruct po as [|po]; [exfalso; cbn in *; lia|]).
  all: cbn in Hs; owner_cases Hs; apply (inj Some) in Hs; subst o; eexists; (split; [reflexivity|]); cbn.
  all: try (owner_move Hi 0; owner_done).
  all: (owner_move Hi 1; owner_done).
Qed.

(** * Every action *)

(** Everything but the two calls that drop or skip the timer's reference without its flag. *)
Definition usual (a : action) : bool := match a with Connected | Remove => false | _ => true end.

(** The facts of the invariant as hypotheses on the fields. *)
Ltac facts Hi :=
  pose proof (s_refs _ Hi) as Hr; pose proof (s_dest _ Hi) as Hd; pose proof (s_pend _ Hi) as Hp; pose proof (s_torn _ Hi) as Hto;
  pose proof (s_ever _ Hi) as Hev; pose proof (s_free _ Hi) as Hfr; pose proof (s_timer _ Hi) as Hti; pose proof (s_qever _ Hi) as Hqe.

Lemma idle_of o : is_idle o = true → o = OIdle.
Proof. by destruct o. Qed.

Lemma own_keeps w c (o : outcome world) : inv w → act (Own c) w = Some o → ∃ w', o = Done w' ∧ inv w'.
Proof.
  intros Hi Hs. facts Hi. destruct w as [[rf cl tc tp de ti po fdd] ar os q del [|hn] ow fo ev]; cbn in *; [by destruct c|].
  destruct (held_live _ Hi) as (Hdel & Hde & Hcl & Hq); cbn in *; [lia|]. subst. unfold use in Hs. cbn in Hs.
  destruct c; [| |injection Hs as <-; by eexists|]; destruct (is_idle ow) eqn:Eo; try done; apply idle_of in Eo; subst ow; injection Hs as <-; eexists; (split; [reflexivity|]).
  all: constructor; cbn in *; try done; try lia; try (by intros; right); try apply (s_fever _ Hi); try apply (s_fwrong _ Hi); unfold owed in *; cbn in *; try lia.
Qed.

(** A handle is copied or used on another worker. *)
Lemma handle_keeps w a (o : outcome world) : inv w → a = Copy ∨ (∃ c, a = Foreign c) → act a w = Some o → ∃ w', o = Done w' ∧ inv w'.
Proof.
  intros Hi Ha Hs. facts Hi. destruct w as [[rf cl tc tp de ti po fdd] ar os q del [|hn] ow fo ev]; cbn in *; [by destruct Ha as [->|[c ->]]|].
  destruct (held_live _ Hi) as (Hdel & Hde & Hcl & Hq); cbn in *; [lia|]. subst. pose proof (s_fever _ Hi) as Hfe. pose proof (s_fwrong _ Hi) as Hfw. cbn in Hfe, Hfw.
  destruct Ha as [->|[c ->]]; cbn in Hs; unfold use in Hs; cbn in Hs; injection Hs as <-; eexists; (split; [reflexivity|]); constructor;
    cbn in *; try done; try apply (s_oever _ Hi); try apply (s_owrong _ Hi); try apply (s_done _ Hi);
    unfold owed in *; cbn in *; rewrite ?total_app, ?total_one; try lia; try (destruct c; cbn; lia).
  - destruct (rf =? 0) eqn:E; [apply Nat.eqb_eq in E; lia|]. done.
  - intros i f [?|[_ Hf]]%lookup_app_Some; [by eapply Hfe|]. apply list_lookup_singleton_Some in Hf as [_ <-]. by destruct c.
  - intros i f [?|[_ Hf]]%lookup_app_Some; [by eapply Hfw|]. apply list_lookup_singleton_Some in Hf as [_ <-]. by destruct c.
Qed.

(** The owner turns to the wheel, to its queue of ops or to the headers to delete. *)
Lemma loop_keeps w a (o : outcome world) : inv w → a = Fire ∨ a = Take ∨ a = Free → act a w = Some o → ∃ w', o = Done w' ∧ inv w'.
Proof.
  intros Hi Ha Hs. facts Hi. destruct w as [[rf cl tc tp de ti po fdd] ar os q del hn ow fo ev]. unfold owed in Hr. cbn in *.
  assert (Eo : ow = OIdle).
  { apply idle_of. destruct Ha as [->|[->| ->]]; cbn in Hs; [|destruct os|destruct q]; destruct (is_idle ow); done. }
  subst ow. pose proof (s_fever _ Hi) as Hfe. pose proof (s_fwrong _ Hi) as Hfw. pose proof (s_closed _ Hi) as Hcl. cbn in *.
  destruct Ha as [->|[->| ->]]; cbn in Hs.
  - destruct ar; [|done]. destruct de; [discriminate (Hto eq_refl)|]. destruct Hfr as [(_ & ? & _)|(Hq & Hdel & _)]; [done|]. subst. cbn in Hs. injection Hs as <-.
    eexists. split; [reflexivity|]. constructor; unfold owed; cbn in *; auto; try done; try lia.
  - destruct os as [|x os]; [done|]. destruct del; [destruct Hfr as [(_ & _ & ? & _)|(_ & ? & _)]; [cbn in Hp; lia|done]|]. cbn in Hs. injection Hs as <-. rewrite total_cons in Hd. cbn in Hp.
    destruct Hfr as [(_ & _ & ? & _)|(Hq & _ & Hx)]; [lia|].
    eexists. split; [reflexivity|]. constructor; unfold owed; cbn in *; auto; try done; try lia; try (destruct x; cbn in *; (done || lia || auto)).
    all: intros; apply Hqe; (by left) || (by right).
  - destruct q as [|q]; [done|]. destruct Hfr as [(Hq & -> & -> & _)|(? & _)]; [|done]. destruct del; cbn in Hq; [lia|]. cbn in Hs. injection Hs as <-.
    eexists. split; [reflexivity|]. constructor; unfold owed; cbn in *; auto; try done; try lia. left. split_and!; (done || lia).
Qed.

Lemma lifetime_keeps w a (o : outcome world) : inv w → usual a = true → act a w = Some o → ∃ w', o = Done w' ∧ inv w'.
Proof.
  intros Hi Hu Hs. destruct a as [|c|i|c| | | | | |]; try done;
    [apply (handle_keeps w _ o Hi (or_introl eq_refl) Hs)|apply (handle_keeps w _ o Hi (or_intror (ex_intro _ c eq_refl)) Hs)| |by eapply own_keeps| |refine (loop_keeps w _ o Hi _ Hs); tauto..].
  - cbn in Hs. apply bind_Some in Hs as (f & Hf & (o1 & H1 & H2)%bind_Some). unfold use in H2. assert (f ≠ FEnd) by (intros ->; done).
    rewrite (foreign_live _ _ _ Hi Hf) in H2 by done. injection H2 as <-. by eapply foreign_keeps.
  - cbn in Hs. apply bind_Some in Hs as (o1 & H1 & H2). unfold use in H2.
    rewrite (owner_live _ Hi) in H2 by (intros E; unfold owner_step in H1; by rewrite E in H1). injection H2 as <-. by eapply owner_keeps.
Qed.

Lemma lifetime_new : inv Socket_new.
Proof. constructor; cbn; try done; [intros H; inversion H|by right]. Qed.

Lemma run_keeps l w (o : outcome world) : inv w → forallb usual l = true → run l w = Some o → ∃ w', o = Done w' ∧ inv w'.
Proof.
  revert w. induction l as [|a l IH]; intros w Hi Hu; cbn; [intros [= <-]; by eexists|]. apply andb_true_iff in Hu as [Ha Hl].
  destruct (act a w) as [o1|] eqn:E; [|done]. destruct (lifetime_keeps _ _ _ Hi Ha E) as (w1 & -> & Hi1). by apply IH.
Qed.

Definition ended f : bool := match f with FEnd => true | _ => false end.

(** Nothing refers to the header but the queue of headers to delete. *)
Definition unused w : Prop :=
  handles w = 0 ∧ forallb ended (foreign w) = true ∧ ops w = [] ∧ owner w = OIdle ∧ armed w = false ∧ refs (hd w) = 0.

(** A header that is queued or deleted is not used. *)
Lemma queued_unused w : inv w → 0 < q_sh w + Nat.b2n (deleted w) → unused w.
Proof.
  intros Hi Hq. facts Hi. destruct Hfr as [(_ & Ed & Ep & Eo)|(E1 & E2 & _)]; [|rewrite E1, E2 in Hq; cbn in Hq; lia].
  rewrite Ed in Hd. destruct (Nat.eqb_spec (refs (hd w)) 0) as [E0|]; [|cbn in Hd; lia]. rewrite Eo in Hd, Hp. cbn in Hd, Hp.
  split_and!; [lia| |destruct (ops w); [done|cbn in Hp; lia]|done|apply Hto; by rewrite Eo, Ed|done].
  apply forallb_forall. intros f Hf%list_elem_of_In. apply list_elem_of_lookup in Hf as (i & Hf).
  pose proof (total_elem fheld _ _ _ Hf) as H1. pose proof (total_elem fdest _ _ _ Hf) as H2. destruct f as [| | | |[]|[]| | | | | |]; cbn in *; (done || lia).
Qed.

(** C32: in runs without [remove()] and without the end of an [async_connect] that had a
    timeout ([usual]; with either of them a header can be deleted too early, see
    [unclaimed_frees_early]), however the workers interleave, with any timers set, refreshed and
    cut short from any of them: no step touches a header that was deleted, drops a reference that is not
    there or ends an op that was not counted; the header is put into the queue of headers to
    delete at most once, and not before every handle, call, op and timer is done with it. *)
Theorem socket_header_safe l (o : outcome world) : forallb usual l = true → run l Socket_new = Some o →
  ∃ w, o = Done w ∧ q_sh w + Nat.b2n (deleted w) <= 1 ∧ (0 < q_sh w + Nat.b2n (deleted w) → unused w).
Proof.
  intros Hl Hr. destruct (run_keeps _ _ _ lifetime_new Hl Hr) as (w & -> & Hi). exists w. split_and!; [done| |by apply queued_unused].
  destruct (s_free _ Hi) as [(-> & _)|(-> & -> & _)]; cbn; lia.
Qed.

(** The owner sets a timeout, the handle is dropped elsewhere while the timer fires: the
    owner tears the header down after the op was forwarded. *)
Definition timed_out : list action :=
  [Own SetTimeout; OStep; OStep; OStep; OStep; Foreign Drop; Fire; OStep; FStep 0; OStep; OStep; OStep; OStep; OStep; OStep; Free].

Lemma socket_header_safe_witness : ∃ w, run timed_out Socket_new = Some (Done w) ∧ deleted w = true ∧ unused w.
Proof.
  destruct (run timed_out Socket_new) as [o|] eqn:E; [|vm_compute in E; discriminate E].
  destruct (socket_header_safe timed_out o eq_refl E) as (w & -> & _ & Hu). exists w. vm_compute in E. injection E as <-.
  split; [done|]. split; [done|]. apply Hu. cbn. lia.
Defined.
End SocketLifetimeCorrect.
