(* ===== verification/SocketReclaim.v ===== *)
(** The header of a socket does not leak: when its timer is set on the worker that owns it
    and the others only use, refresh and drop their handles, it is deleted once the last
    handle is gone and its timer has run out.  What goes wrong otherwise is shown on runs:
    timers set or cut short on other workers can leave a reference nobody drops, and two
    calls can drop one too many. *)

From S2P Require Import Prelude SocketLifetime SocketLifetimeCorrect.

Module SocketReclaim.
Import SocketLifetime SocketLifetimeCorrect.
Local Open Scope nat_scope.
Local Arguments Nat.eqb : simpl nomatch.
#[local] Instance call_eq_dec : EqDecision call.
Proof. solve_decision. Defined.
Implicit Types (w : world) (h : header) (f : fpc) (o : opc) (i : nat).

(** * Runs that leave nothing behind *)

(** Other workers drop handles and refresh the timeout; nobody calls [remove()] or ends an
    [async_connect] that had a timeout. *)
Definition tidy (a : action) : bool :=
  match a with Foreign SetTimeout | Foreign Shut | Connected | Remove => false | _ => true end.

(** Where such calls stand. *)
Definition ftidy f : bool :=
  match f with
  | FEnd | FRel | FUpd | FDest KGone | FFwdAdd Destroy KGone | FFwdPush Destroy KGone | FFwdAdd Timeout KReturn | FFwdPush Timeout KReturn => true
  | _ => false
  end.
Definition qtidy (q : op) : bool := match q with Shutdown => false | _ => true end.

(** The timer holds its reference exactly while it is on the wheel, but for the moments in
    which the owner moves it. *)
Definition timer_at o (arm tid owd : bool) : Prop :=
  match o with
  | OFire => arm = false ∧ tid = true ∧ owd = true
  | OFire2 => arm = false ∧ tid = true ∧ owd = false
  | OSet2 | OSet3 => arm = false ∧ tid = false ∧ owd = false
  | OArm OHandle | OClaim => arm = false ∧ tid = false ∧ owd = true
  | OArm OOp => arm = true ∧ tid = true ∧ owd = true
  | OFireSkip | OOpShut | OConn1 | OConn2 | OApply Shutdown => False
  | _ => arm = tid ∧ tid = owd
  end.

Record exact w : Prop := {
  x_refs : refs (hd w) = handles w + total fheld (foreign w) + oheld (owner w) + Nat.b2n (owed w);
  x_timer : timer_at (owner w) (armed w) (timer_id (hd w)) (owed w);
  x_pend : TEARDOWN_PENDING (hd w) = true → refs (hd w) = 0;
  x_calls : forallb ftidy (foreign w) = true;
  x_ops : forallb qtidy (ops w) = true
}.

Lemma exact_new : exact Socket_new.
Proof. by constructor. Qed.

Lemma ftidy_at w i f : exact w → foreign w !! i = Some f → ftidy f = true.
Proof. intros Hx Hf. pose proof (x_calls _ Hx) as H. rewrite forallb_forall in H. apply H. apply list_elem_of_In. by eapply list_elem_of_lookup_2. Qed.

Lemma forallb_insert {A} (g : A → bool) l i y : forallb g l = true → g y = true → forallb g (<[i := y]> l) = true.
Proof.
  intros Hl Hy. apply forallb_forall. intros x Hx%list_elem_of_In. apply list_elem_of_lookup in Hx as (j & Hj).
  apply list_lookup_insert_Some in Hj as [(_ & <- & _)|[_ Hj]]; [done|]. rewrite forallb_forall in Hl. apply Hl, list_elem_of_In. by eapply list_elem_of_lookup_2.
Qed.

Lemma exact_foreign w i f w' : inv w → exact w → foreign w !! i = Some f → foreign_step i f w = Some (Done w') → exact w'.
Proof.
  intros Hi Hx Hf. pose proof (ftidy_at _ _ _ Hx Hf) as Ht. pose proof (x_refs _ Hx) as Hr. pose proof (x_timer _ Hx) as Htm. pose proof (x_pend _ Hx) as Hp.
  pose proof (x_calls _ Hx) as Hc. pose proof (x_ops _ Hx) as Ho. pose proof (s_dest _ Hi) as Hd. pose proof (total_elem fdest _ _ _ Hf) as Hfd.
  pose proof (λ y, total_insert fheld _ _ _ y Hf) as Hin. destruct w as [[rf cl tc tp de ti po fdd] ar os q del hn ow fo ev]. unfold owed in *. cbn in *.
  destruct f as [| | |[]|[] []|[] []| | | | | |]; try done; cbn [foreign_step]; intros E; try (destruct rf as [|rf]; [exfalso; cbn in E; done|]; cbn [release refs mbind outcome_bind] in E).
  all: apply (inj Some) in E; cbn in E; owner_cases E; injection E as <-; constructor; unfold owed; cbn; auto; try (apply forallb_insert; done).
  all: try match goal with |- context [total fheld (<[_ := ?y]> _)] => pose proof (Hin y) end; cbn in *; try lia.
  all: rewrite ?forallb_app, ?Ho; try done.
  all: destruct (Nat.eqb_spec rf 0); cbn in *; auto; try lia. intros Htp. specialize (Hp Htp). lia.
Qed.

Lemma exact_owner w w' : inv w → exact w → owner_step w = Some (Done w') → exact w'.
Proof.
  intros Hi Hx Hs. assert (Hn : owner w ≠ OIdle) by (intros Eo; unfold owner_step in Hs; by rewrite Eo in Hs).
  destruct (owner_facts _ Hi Hn) as (_ & _ & Hheld & Hdst). pose proof (s_oever _ Hi) as Hoe. pose proof (s_owrong _ Hi) as How.
  pose proof (x_refs _ Hx) as Hr. pose proof (x_timer _ Hx) as Htm. pose proof (x_pend _ Hx) as Hp. pose proof (x_calls _ Hx) as Hc. pose proof (x_ops _ Hx) as Ho.
  destruct w as [[rf cl tc tp de ti po fdd] ar os q del hn ow fo ev]. unfold owed in Hr, Htm. cbn in Hheld, Hdst, Hoe, How, Hr, Htm, Hp, Hc, Ho, Hn.
  destruct ow as [| | | |[]|[]|[]|[]|[]| | | |[]| | | | |[]| | |]; try done; cbn in Hs, Hheld, Hdst, Hoe, Hr, Htm; clear How Hn Hi Hx.
  all: try (destruct rf as [|rf]; [exfalso; cbn in *; lia|]; cbn [release refs mbind outcome_bind] in Hs).
  all: try (destruct po as [|po]; [exfalso; cbn in *; done|]).
  all: cbn in Hs; owner_cases Hs; apply (inj Some) in Hs; injection Hs as <-.
  all: constructor; unfold owed; cbn; try done.
  all: try owner_done.
  all: destruct (ev && negb tc); cbn in *; intuition (congruence || lia).
Qed.

Lemma tidy_usual a : tidy a = true → usual a = true.
Proof. by destruct a as [|[]| | | | | | | |]. Qed.

Lemma use_done w (o : outcome world) w' : use w o = Some (Done w') → o = Done w'.
Proof. unfold use. destruct (deleted w); congruence. Qed.

Lemma exact_act w a w' : inv w → exact w → tidy a = true → act a w = Some (Done w') → exact w'.
Proof.
  intros Hi Hx Ha Hs. pose proof Hx as [R T P C O]. unfold owed in *.
  destruct a as [|c|i|c| | | | | |]; try done; cbn in Hs.
  - destruct (handles w) eqn:E; [done|]. apply use_done in Hs. injection Hs as <-. constructor; unfold owed; cbn; auto; try lia. intros Htp. specialize (P Htp). lia.
  - destruct (handles w) eqn:E; [done|]. apply use_done in Hs. injection Hs as <-. constructor; unfold owed; cbn; auto; rewrite ?total_app, ?total_one, ?forallb_app; destruct c; try done; cbn; try lia; by rewrite C.
  - apply bind_Some in Hs as (f & Hf & (o1 & H1 & ->%use_done)%bind_Some). by eapply exact_foreign.
  - destruct (handles w) eqn:E; [by destruct c|]. destruct (decide (c = UpdateTimeout)) as [->|Hc]; [apply use_done in Hs; injection Hs as <-; done|].
    assert (Eo : owner w = OIdle) by (apply idle_of; destruct c, (is_idle (owner w)); done). rewrite Eo in *. cbn in T, R.
    destruct c; try done; cbn in Hs; apply use_done in Hs; injection Hs as <-; constructor; unfold owed; cbn; auto; lia.
  - apply bind_Some in Hs as (o1 & H1 & ->%use_done). by eapply exact_owner.
  - destruct (is_idle (owner w)) eqn:Eo, (armed w) eqn:Ea; try done. apply idle_of in Eo. rewrite Eo in *. cbn in T, R. destruct T as [T1 T2].
    apply use_done in Hs. injection Hs as <-. constructor; unfold owed; cbn; auto. split_and!; congruence.
  - destruct (ops w) as [|x os] eqn:Eq; [done|]. destruct (is_idle (owner w)) eqn:Eo; [|done]. apply idle_of in Eo. rewrite Eo in *. cbn in T, R, O.
    apply andb_true_iff in O as [Ox O]. apply use_done in Hs. injection Hs as <-. by constructor; unfold owed; cbn; auto; destruct x.
  - destruct (q_sh w) as [|n]; [done|]. destruct (is_idle (owner w)) eqn:Eo; [|done]. apply use_done in Hs. injection Hs as <-. by constructor.
Qed.

Lemma exact_run l w w' : inv w → exact w → forallb tidy l = true → run l w = Some (Done w') → inv w' ∧ exact w'.
Proof.
  revert w. induction l as [|a l IH]; intros w Hi Hx Ht; cbn; [by intros [= <-]|]. apply andb_true_iff in Ht as [Ha Hl].
  destruct (act a w) as [o1|] eqn:E; [|done]. destruct (lifetime_keeps _ _ _ Hi (tidy_usual _ Ha) E) as (w1 & -> & Hi1). apply IH; [done|exact (exact_act w a w1 Hi Hx Ha E)|done].
Qed.

(** * Nothing is left to do *)

(** What goes on by itself: calls under way and the owner's loop. *)
Definition internal (a : action) : bool := match a with FStep _ | OStep | Fire | Take | Free => true | _ => false end.
Definition at_rest w : Prop := ∀ a, internal a = true → act a w = None.

Lemma use_some w (o : outcome world) : use w o ≠ None.
Proof. done. Qed.

Lemma rest_owner w : at_rest w → owner w = OIdle.
Proof.
  intros Hr. specialize (Hr OStep eq_refl). cbn in Hr. unfold owner_step in Hr. destruct (owner w); try done; cbn in Hr; try discriminate Hr.
  - destruct (DESTROYED (hd w)); [done|]. destruct o; try done. by destruct (_ || _).
  - by destruct (pending_ops (hd w)).
Qed.

Lemma rest_foreign w i f : at_rest w → foreign w !! i = Some f → f = FEnd.
Proof. intros Hr Hf. specialize (Hr (FStep i) eq_refl). cbn in Hr. rewrite Hf in Hr. by destruct f. Qed.

Lemma rest_total g w : at_rest w → g FEnd = 0 → total g (foreign w) = 0.
Proof.
  intros Hr Hg. assert (H : ∀ i f, foreign w !! i = Some f → f = FEnd) by (intros; by eapply rest_foreign). clear Hr.
  induction (foreign w) as [|f l IH]; [done|]. rewrite total_cons, (H 0 f eq_refl), Hg, IH; [done|]. intros i f' Hf. by apply (H (S i)).
Qed.

(** A header without handles that has nothing left to do was deleted. *)
Lemma rest_deleted w : inv w → exact w → at_rest w → handles w = 0 → deleted w = true.
Proof.
  intros Hi Hx Hr Hh. pose proof (rest_owner _ Hr) as Eo. pose proof (s_dest _ Hi) as Hd. pose proof (x_refs _ Hx) as Hrf. pose proof (x_timer _ Hx) as Ht. pose proof (s_pend _ Hi) as Hp.
  rewrite Eo in *. cbn in Ht. rewrite !(rest_total _ _ Hr) in * by done.
  assert (Eq : ops w = []) by (pose proof (Hr Take eq_refl) as H; cbn in H; rewrite Eo in H; by destruct (ops w)).
  assert (Ea : armed w = false) by (pose proof (Hr Fire eq_refl) as H; cbn in H; rewrite Eo in H; by destruct (armed w)).
  assert (Ef : q_sh w = 0) by (pose proof (Hr Free eq_refl) as H; cbn in H; rewrite Eo in H; by destruct (q_sh w)).
  destruct Ht as [Ht1 Ht2]. rewrite <- Ht2, <- Ht1, Ea, Hh in Hrf. cbn in Hrf. rewrite Hrf, Eq in Hd. rewrite Eq in Hp. cbn in Hd, Hp.
  destruct (s_free _ Hi) as [(H & _)|(_ & _ & H)]; [rewrite Ef in H; by destruct (deleted w)|].
  destruct H as [?|[?|[?|?]]]; [by destruct (DESTROYED (hd w))|lia|congruence..].
Qed.

(** * The work that is left *)

Definition orank o : nat :=
  match o with
  | OIdle => 0 | OFireSkip | OConn2 => 1 | OEnd2 | OConn1 => 2 | OEnd1 => 3 | OOpShut => 4 | OTear4 _ => 5 | OTear3 _ => 6 | OTear2 _ => 7 | OTear1 _ => 8
  | ORel _ => 9 | OFire2 | OClaim => 10 | OFire | OShut1 => 11 | OArm _ => 16 | OApply _ | OSet3 => 17 | OSet2 => 18 | OSet1 => 19
  end.
Definition frank f : nat :=
  match f with
  | FEnd => 0 | FFwdPush _ KClaim => 42 | FFwdAdd _ KClaim => 43 | FDest KClaim | FShut1 => 44
  | FFwdPush _ _ => 19 | FFwdAdd _ _ => 20 | FDest _ | FUpd | FSet3 => 21 | FRel | FRelTimer | FSet2 => 22 | FClaim | FSet1 => 23
  end.
Definition work w : nat := total frank (foreign w) + 18 * length (ops w) + orank (owner w) + 12 * Nat.b2n (armed w) + q_sh w.

Lemma foreign_work w i f w' : foreign w !! i = Some f → foreign_step i f w = Some (Done w') → work w' < work w.
Proof.
  intros Hf. pose proof (λ y, total_insert frank _ _ _ y Hf) as Hin. unfold work. destruct w as [h ar os q del hn ow fo ev]. cbn in *. intros E.
  destruct f as [| | |k|x k|x k| | | | | |]; cbn [foreign_step hd] in E; [done|unfold release in E; destruct (refs h) as [|n]; [done|]|unfold release in E; destruct (refs h) as [|n]; [done|]|..]; cbn in E; apply (inj Some) in E; injection E as <-.
  all: repeat match goal with |- context [if ?b then _ else _] => destruct b end.
  all: try (destruct k); cbn in *; rewrite ?length_app; cbn; match goal with |- context [total frank (<[_ := ?y]> _)] => pose proof (Hin y) as Hy end; cbn in Hy; lia.
Qed.

Lemma owner_work w w' : owner_step w = Some (Done w') → work w' < work w.
Proof.
  unfold owner_step, release, work, drop_timer. destruct w as [[rf cl tc tp de ti po fdd] ar os q del hn ow fo ev]. cbn.
  destruct ow as [| | | |k|k|k|k|k| | | |k| | | | |x| | |]; cbn; intros E; [done|..]; try (destruct rf as [|rf]; [done|]); try (destruct po as [|po]; [done|]); try destruct x; cbn in E; owner_cases E; try done; injection E as <-.
  all: try destruct k; cbn; try destruct ar; cbn; lia.
Qed.

Lemma internal_work w a w' : internal a = true → act a w = Some (Done w') → work w' < work w.
Proof.
  intros Ha Hs. destruct a as [|c|i|c| | | | | |]; try done; cbn in Hs.
  - apply bind_Some in Hs as (f & Hf & (o1 & H1 & ->%use_done)%bind_Some). by eapply foreign_work.
  - apply bind_Some in Hs as (o1 & H1 & ->%use_done). by apply owner_work.
  - destruct (is_idle (owner w)) eqn:Eo, (armed w) eqn:Ea; try done. apply idle_of in Eo. apply use_done in Hs. injection Hs as <-. unfold work. rewrite Eo, Ea. cbn. lia.
  - destruct (ops w) as [|x os] eqn:Eq; [done|]. destruct (is_idle (owner w)) eqn:Eo; [|done]. apply idle_of in Eo. apply use_done in Hs. injection Hs as <-. unfold work. rewrite Eo, Eq. cbn. lia.
  - destruct (q_sh w) as [|n] eqn:Eq; [done|]. destruct (is_idle (owner w)) eqn:Eo; [|done]. apply idle_of in Eo. apply use_done in Hs. injection Hs as <-. unfold work. rewrite Eq. cbn. lia.
Qed.

(** Whatever goes on by itself comes to an end. *)
Lemma internal_ends l w w' : forallb internal l = true → run l w = Some (Done w') → length l + work w' <= work w.
Proof.
  revert w. induction l as [|a l IH]; intros w Ht; cbn; [intros [= <-]; lia|]. apply andb_true_iff in Ht as [Ha Hl].
  destruct (act a w) as [[w1| |]|] eqn:E; [|done..]. intros Hr. pose proof (internal_work _ _ _ Ha E). pose proof (IH _ Hl Hr). lia.
Qed.

(** What can go on now. *)
Definition enabled w : list action :=
  filter (λ a, is_Some (act a w)) ([OStep; Fire; Take; Free] ++ (FStep <$> seq 0 (length (foreign w)))).

Lemma enabled_rest w : enabled w = [] → at_rest w.
Proof.
  intros E a Ha. apply eq_None_not_Some. intros Hs. assert (Hin : a ∈ enabled w); [|rewrite E in Hin; inversion Hin].
  apply list_elem_of_filter. split; [done|]. apply elem_of_app. destruct a as [|c|i|c| | | | | |]; try done; [right|left; rewrite !elem_of_cons; tauto..].
  apply list_elem_of_fmap. exists i. split; [done|]. apply elem_of_seq. cbn in Hs. destruct (foreign w !! i) eqn:Ei; [apply lookup_lt_Some in Ei; lia|by destruct Hs].
Qed.

Lemma rest_or_step w : at_rest w ∨ ∃ a (o : outcome world), internal a = true ∧ act a w = Some o.
Proof.
  destruct (enabled w) as [|a l] eqn:E.
  - left. by apply enabled_rest.
  - right. assert (Ha : a ∈ enabled w) by (rewrite E; by left). apply list_elem_of_filter in Ha as [[o Ho] Ha]. exists a, o. split; [|done].
    apply elem_of_app in Ha as [Ha|Ha]; [rewrite !elem_of_cons in Ha; destruct Ha as [->|[->|[->|[->|Ha]]]]; done || inversion Ha|]. by apply list_elem_of_fmap in Ha as (i & -> & _).
Qed.

Lemma reaches_rest w : inv w → ∃ l w', forallb internal l = true ∧ run l w = Some (Done w') ∧ at_rest w'.
Proof.
  remember (work w) as n eqn:En. revert w En. induction (lt_wf n) as [n _ IH]. intros w -> Hi.
  destruct (rest_or_step w) as [Hr|(a & o & Ha & Ho)]; [by exists [], w|].
  assert (Hu : usual a = true) by (by destruct a). destruct (lifetime_keeps _ _ _ Hi Hu Ho) as (w1 & -> & Hi1). pose proof (internal_work _ _ _ Ha Ho) as Hw.
  destruct (IH _ Hw w1 eq_refl Hi1) as (l & w' & Hl & Hr & Hrest). exists (a :: l), w'. cbn. by rewrite Ha, Hl, Ho.
Qed.

(** C33: when other workers only drop their handles and refresh the timeout, and nobody, the
    owner included, calls [remove()] or comes to the end of an [async_connect] that had a
    timeout ([tidy]; [foreign_timer_leaks], [removed_then_timed] and [unclaimed_frees_early]
    show what happens otherwise): the calls under way and the owner's loop finish within a bounded number of
    steps, and once they have, a header without handles has been deleted. *)
Theorem socket_reclaimed l w : forallb tidy l = true → run l Socket_new = Some (Done w) →
  (∀ l' w', forallb internal l' = true → run l' w = Some (Done w') → length l' <= work w ∧ (at_rest w' → handles w' = 0 → deleted w' = true)) ∧
  (∃ l' w', forallb internal l' = true ∧ run l' w = Some (Done w') ∧ at_rest w').
Proof.
  intros Hl Hr. destruct (exact_run _ _ _ lifetime_new exact_new Hl Hr) as [Hi Hx]. split; [|by apply reaches_rest].
  intros l' w' Hl' Hr'. split; [pose proof (internal_ends _ _ _ Hl' Hr'); lia|]. intros Hrest Hh.
  assert (Ht : forallb tidy l' = true) by (rewrite forallb_forall in *; intros a Ha; specialize (Hl' a Ha); by destruct a).
  destruct (exact_run _ _ _ Hi Hx Ht Hr') as [Hi' Hx']. by apply rest_deleted.
Qed.

(** The timeout is refreshed elsewhere, the timer fires while the op is under way and the
    last handle is dropped on another worker. *)
Definition refreshed : list action :=
  [Own SetTimeout; OStep; OStep; OStep; OStep; Copy; Foreign UpdateTimeout; FStep 0; Foreign Drop; FStep 1; FStep 0; Fire; OStep; FStep 0; OStep; Foreign Drop; FStep 2].

Lemma socket_reclaimed_witness : ∃ w, run refreshed Socket_new = Some (Done w) ∧ handles w = 0 ∧ ∃ l' w', run l' w = Some (Done w') ∧ at_rest w' ∧ (handles w' = 0 → deleted w' = true).
Proof.
  destruct (run refreshed Socket_new) as [[w| |]|] eqn:E; [|vm_compute in E; discriminate E..].
  destruct (socket_reclaimed refreshed w eq_refl E) as [H1 (l' & w' & Hl & Hr & Hrest)]. exists w. split; [done|]. split; [vm_compute in E; injection E as <-; reflexivity|].
  exists l', w'. split; [done|]. split; [done|]. by apply (H1 l' w').
Defined.

(** * What goes wrong otherwise *)

(** A call on another worker, from its start to its end; the owner, until it is idle. *)
Definition call_on (c : call) (i n : nat) : list action := Foreign c :: replicate n (FStep i).
Definition own (c : call) (n : nat) : list action := Own c :: replicate n OStep.
Definition taken (n : nat) : list action := Take :: replicate n OStep.

(** The second call to set a timeout comes before the owner has armed the timer. *)
Definition set_twice : list action :=
  call_on SetTimeout 0 5 ++ call_on SetTimeout 1 5 ++ call_on Drop 2 1 ++ taken 3 ++ taken 4 ++ [Fire] ++ replicate 3 OStep.
(** The socket is shut down on another worker before the owner has armed the timer. *)
Definition set_and_shut : list action :=
  call_on SetTimeout 0 5 ++ call_on Shut 1 3 ++ call_on Drop 2 1 ++ taken 3 ++ taken 4.

Definition leaked w : Prop := at_rest w ∧ handles w = 0 ∧ q_sh w = 0 ∧ deleted w = false ∧ refs (hd w) = 1.

(** A timeout set on a worker that is not the owner can leak the header: when it is set twice,
    or the socket is shut down, before the owner gets to the first op, a reference is left
    that nobody will drop, without a handle and without a timer. *)
Theorem foreign_timer_leaks :
  (∃ w, run set_twice Socket_new = Some (Done w) ∧ leaked w) ∧ (∃ w, run set_and_shut Socket_new = Some (Done w) ∧ leaked w).
Proof.
  split; (eexists; split; [vm_compute; reflexivity|]); (split; [apply enabled_rest; vm_compute; reflexivity|]); split_and!; reflexivity.
Qed.

(** The socket is removed from its poller and a timeout is set after that. *)
Definition removed_then_timed : list action := [Remove] ++ own SetTimeout 4 ++ [Fire] ++ replicate 7 OStep ++ [Free; Copy].
(** A timeout is refreshed on another worker while [async_connect] ends; the header is
    dropped by one of two handles and used by the other. *)
Definition refreshed_while_connecting : list action :=
  own SetTimeout 4 ++ [Copy] ++ call_on UpdateTimeout 0 3 ++ [Connected; OStep; OStep] ++ taken 4 ++ [Fire; OStep; OStep; OStep] ++
  own Drop 5 ++ [Free; Copy].
(** It is shut down on another worker while [async_connect] ends. *)
Definition shut_while_connecting : list action :=
  own SetTimeout 4 ++ [Copy] ++ call_on Shut 0 3 ++ [Connected; OStep; OStep; FStep 0; FStep 0] ++ taken 4 ++ own Drop 5 ++ [Free; Copy].

(** The two calls that pass over the flag of the timer's reference free the header while
    a handle still uses it: [set_timeout_ms] after [remove] arms the timer without a reference,
    and [async_connect] drops the timer's reference without claiming it. *)
Theorem unclaimed_frees_early :
  run removed_then_timed Socket_new = Some UB ∧ run refreshed_while_connecting Socket_new = Some UB ∧ run shut_while_connecting Socket_new = Some UB.
Proof. split_and!; vm_compute; reflexivity. Qed.
End SocketReclaim.
