(* ===== verification/Worker.v ===== *)
(** A worker and its mail ([Thread.cpp], [TLS.cpp], the wake of [EPoller.cpp]): other threads
    put coroutines, cancel kicks and socket ops into the boxes of its [ThreadLocalStorage],
    raise a flag and wake its poller; the worker sleeps in the poller, runs what is ready and
    empties the boxes.

    The worker and any number of calls on other threads interleave, one step per access to
    what they share.  The calls a coroutine makes on the worker itself are calls that are
    finished before the worker goes on.  The queues of the boxes are known by their contract
    ([IntrusiveMPSC], [SegmentedQueue]): they keep their order, and a [pop] may only fail when
    a box is empty or somebody is still linking an entry. *)

From S2P Require Import Prelude.

Module Worker.

Local Open Scope nat_scope.

(** [inbox_q_], [kick_q_] and [sock_ops_q_]. *)
Inductive box := Inbox | Kicks | SockOps.
#[export] Instance box_eq_dec : EqDecision box.
Proof. solve_decision. Defined.

(** An entry: the call that put it there, and what it is. *)
Record mailbox := mkBox {
  queue : list (nat * nat);
  flag : bool;                (** [is_added_new_], [has_kicks_], [has_sock_ops_] *)
  taken : list nat;           (** history: the entries handed out *)
  pushed : list nat           (** history: the entries put in *)
}.

(** [push_task_inbox], [push_cancel_kick], [push_socket_op] and [stop]. *)
Inductive cpc :=
| CEnd
| CPush (b : box) (x : nat)   (** the queue: a place *)
| CLink (b : box) (x : nat)   (** and the link *)
| CFlag (b : box)
| CStop                       (** [request_stop] *)
| CAdd                        (** [kick_poller]: [wake_inflight_.fetch_add] *)
| CLoad                       (** [poller_.load] *)
| CWake                       (** [EPoller::wake]: [wake_pending.exchange] *)
| CWrite                      (** [write(wake_fd)] *)
| CSub.                       (** [wake_inflight_.fetch_sub] *)

(** Where the boxes are emptied: at the start, in the loop, at the end. *)
Inductive phase := PStart | PLoop | PExit.

Inductive wpc :=
| WSet                        (** [set_poller] *)
| WTop                        (** [token.stop_requested] *)
| WTimeout                    (** [getNextTimeout] and [local_q.empty] *)
| WPoll (t : Z)               (** in [epoll_wait] *)
| WRead                       (** [read(wake_fd)] *)
| WClear                      (** [wake_pending.store(false)] *)
| WRun (quantum : nat)        (** [dequeue_bulk] *)
| WBatch (rest : list nat) (quantum : nat) (** the tasks of a batch *)
| WTick
| WShared                     (** [st->dequeue] *)
| WClean                      (** frames and headers are deleted *)
| WFlag (b : box) (p : phase) (** the flag is taken *)
| WPop (b : box) (p : phase)
| WUnset                      (** [unset_poller]: [poller_.store(nullptr)] *)
| WWait                       (** [wake_inflight_.load] *)
| WGone.                      (** the thread has ended, and with it its poller *)

Record world := mkWorld {
  mail : box → mailbox;
  poller_ : bool;             (** it is not null *)
  alive : bool;               (** the poller exists *)
  wake_inflight_ : nat;
  wake_pending : bool;
  wake_fd : nat;              (** the count of the eventfd *)
  stop_requested : bool;
  local_q : list nat;
  st : list nat;              (** the tasks that belong to no worker *)
  worker : wpc;
  calls : list cpc;
  started : bool;             (** history: the loop has been through once *)
  resumed : list nat;         (** history: the tasks resumed *)
  queued : list nat           (** history: what was put into [local_q] *)
}.

(** What the steps of the worker leave open: the time of the next timer, whether the wake is
    among the events, whether a [pop] fails, and the coroutines that become ready. *)
Record choice := mkChoice { next_timeout : Z; by_wake : bool; fails : bool; ready : list nat }.

Section worker.
Context (loop_task_quantum tmp_tasks : nat) (idle_fallback_ms : Z).

Definition Thread_new : world :=
  mkWorld (λ _, mkBox [] false [] []) false true 0 false 0 false [] [] WSet [] false [] [].

Definition put_mail (b : box) (m : mailbox) (w : world) : world :=
  {| w with mail := λ c, if decide (c = b) then m else mail w c |}.
Definition put_call (i : nat) (c : cpc) (w : world) : world := {| w with calls := <[i := c]> (calls w) |}.
Definition turn (p : wpc) (w : world) : world := {| w with worker := p |}.
(** [local_q.enqueue] *)
Definition enqueue (l : list nat) (w : world) : world := {| w with local_q := local_q w ++ l; queued := queued w ++ l |}.

(** ** The other threads *)

(** The call [i] takes a step.  Whoever uses a poller that is gone is undefined. *)
Definition call_step (i : nat) (c : cpc) (w : world) : option (outcome world) :=
  match c with
  | CEnd => None
  | CPush b x =>
      let m := mail w b in
      Some (Done (put_call i (CLink b x) (put_mail b {| m with queue := queue m ++ [(i, x)]; pushed := pushed m ++ [x] |} w)))
  | CLink b x => Some (Done (put_call i (CFlag b) w))
  | CFlag b => let m := mail w b in Some (Done (put_call i CAdd (put_mail b {| m with flag := true |} w)))
  | CStop => Some (Done (put_call i CAdd {| w with stop_requested := true |}))
  | CAdd => Some (Done (put_call i CLoad {| w with wake_inflight_ := S (wake_inflight_ w) |}))
  | CLoad => Some (Done (put_call i (if poller_ w then CWake else CSub) w))
  | CWake =>
      if alive w then Some (Done (put_call i (if wake_pending w then CSub else CWrite) {| w with wake_pending := true |}))
      else Some UB
  | CWrite => if alive w then Some (Done (put_call i CSub {| w with wake_fd := S (wake_fd w) |})) else Some UB
  | CSub => Some (Done (put_call i CEnd {| w with wake_inflight_ := pred (wake_inflight_ w) |}))
  end.

(** ** The worker *)

(** The argument of [poll]. *)
Definition poll_timeout (q : list nat) (next : Z) : Z :=
  match q with
  | [] => if (0 <? next)%Z then next else idle_fallback_ms
  | _ => 0%Z
  end.

(** What follows when a box is empty. *)
Definition after (b : box) (p : phase) (w : world) : world :=
  match p, b with
  | PStart, _ => turn WTop w
  | PLoop, Inbox => turn (WFlag Kicks PLoop) w
  | PLoop, Kicks => turn (WFlag SockOps PLoop) w
  | PLoop, SockOps => turn WTop {| w with started := true |}
  | PExit, Kicks => turn (WFlag SockOps PExit) w
  | PExit, _ => turn WGone {| w with alive := false |}
  end.

(** [processInboxQueue] puts the coroutine into the worker's queue; a kick may make coroutines
    ready; a socket op ([apply_socket_op]) does neither. *)
Definition deliver (b : box) (x : nat) (l : list nat) (w : world) : world :=
  match b with Inbox => enqueue [x] w | Kicks => enqueue l w | SockOps => w end.

Definition linking (b : box) (c : cpc) : bool := match c with CLink b' _ => bool_decide (b' = b) | _ => false end.

(** The call [i] has not linked its entry yet. *)
Definition unlinked (b : box) (i : nat) (w : world) : bool :=
  match calls w !! i with Some c => linking b c | None => false end.

Definition pop_step (b : box) (p : phase) (c : choice) (w : world) : option (outcome world) :=
  let m := mail w b in
  match queue m with
  | [] => Some (Done (after b p w))
  | (i, x) :: q =>
      if fails c then if existsb (linking b) (calls w) then Some (Done (after b p w)) else None
      else if unlinked b i w then None
      else Some (Done (deliver b x (ready c) (put_mail b {| m with queue := q; taken := taken m ++ [x] |} w)))
  end.

Definition worker_step (c : choice) (w : world) : option (outcome world) :=
  match worker w with
  | WSet => Some (Done (turn (WFlag Inbox PStart) {| w with poller_ := true |}))
  | WTop => Some (Done (turn (if stop_requested w then WUnset else WTimeout) w))
  | WTimeout => Some (Done (turn (WPoll (poll_timeout (local_q w) (next_timeout c))) w))
  | WPoll _ =>
      if by_wake c then if wake_fd w =? 0 then None else Some (Done (turn WRead (enqueue (ready c) w)))
      else Some (Done (turn (WRun loop_task_quantum) (enqueue (ready c) w)))
  | WRead => Some (Done (turn WClear {| w with wake_fd := 0 |}))
  | WClear => Some (Done (turn (WRun loop_task_quantum) (enqueue (ready c) {| w with wake_pending := false |})))
  | WRun quantum =>
      let n := quantum `min` tmp_tasks in
      match take n (local_q w) with
      | [] => Some (Done (turn WTick w))
      | l => Some (Done (turn (WBatch l (quantum - length l)) {| w with local_q := drop n (local_q w) |}))
      end
  | WBatch [] quantum => Some (Done (turn (WRun quantum) w))
  | WBatch (x :: l) quantum => Some (Done (turn (WBatch l quantum) (enqueue (ready c) {| w with resumed := resumed w ++ [x] |})))
  | WTick => Some (Done (turn WShared (enqueue (ready c) w)))
  | WShared =>
      match st w with
      | [] => Some (Done (turn WClean w))
      | x :: l => Some (Done (turn WClean (enqueue [x] {| w with st := l |})))
      end
  | WClean => Some (Done (turn (WFlag Inbox PLoop) w))
  | WFlag b p =>
      let m := mail w b in
      if flag m then Some (Done (turn (WPop b p) (put_mail b {| m with flag := false |} w))) else Some (Done (after b p w))
  | WPop b p => pop_step b p c w
  | WUnset => Some (Done (turn WWait {| w with poller_ := false |}))
  | WWait => if wake_inflight_ w =? 0 then Some (Done (turn (WFlag Kicks PExit) w)) else Some (Done w)
  | WGone => None
  end.

(** ** The machine *)

Inductive action :=
| Push (b : box) (x : nat)    (** another thread puts [x] into a box *)
| Stop                        (** another thread stops the worker *)
| Spawn (x : nat)             (** [co_spawn]: a task for any worker *)
| CStep (i : nat)
| WStep (c : choice).

Definition act (a : action) (w : world) : option (outcome world) :=
  match a with
  | Push b x => Some (Done {| w with calls := calls w ++ [CPush b x] |})
  | Stop => Some (Done {| w with calls := calls w ++ [CStop] |})
  | Spawn x => Some (Done {| w with st := st w ++ [x] |})
  | CStep i => c ← calls w !! i; call_step i c w
  | WStep c => worker_step c w
  end.

Fixpoint run (l : list action) (w : world) : option (outcome world) :=
  match l with
  | [] => Some (Done w)
  | a :: l => match act a w with Some (Done w') => run l w' | o => o end
  end.
End worker.
End Worker.
