(* ===== verification/WorkerCorrect.v ===== *)
(** A worker's mail is not lost: when it sleeps and nobody is about to wake it, its boxes are
    empty, no stop was asked for and its queue has no task; whoever wakes it never uses a
    poller that is gone; mail and tasks are handed out once and in order. *)

From S2P Require Import Prelude Worker.

Module WorkerCorrect.
Import Worker.
Local Open Scope nat_scope.
Implicit Types (w : world) (c : cpc) (b : box) (p : wpc) (i : nat).

(** * Contributions *)

(** Calls that will raise the flag of a box. *)
Definition will b c : nat := match c with CLink b' _ | CFlag b' => if decide (b' = b) then 1 else 0 | _ => 0 end.
(** Calls that will wake the poller, if there is one. *)
Definition waking c : nat := match c with CAdd | CLoad | CWake | CWrite => 1 | _ => 0 end.
Definition writing c : nat := match c with CWrite => 1 | _ => 0 end.
(** Calls that hold the poller. *)
Definition holding c : nat := match c with CWake | CWrite => 1 | _ => 0 end.
Definition counted c : nat := match c with CLoad | CWake | CWrite | CSub => 1 | _ => 0 end.

(** * The worker *)

Definition rank b : nat := match b with Inbox => 0 | Kicks => 1 | SockOps => 2 end.

(** The worker will take the flag of the box before it sleeps again, or never sleeps again. *)
Definition coming b p : bool :=
  match p with
  | WTop | WTimeout | WPoll _ | WPop _ PStart => false
  | WFlag _ PStart => rank b =? 0
  | WFlag b' PLoop => rank b' <=? rank b
  | WPop b' PLoop => rank b' <? rank b
  | _ => true
  end.

(** The first time round, the kicks and the socket ops are only looked at after the poll. *)
Definition early b p : bool :=
  negb (rank b =? 0) && match p with WTop | WTimeout | WPoll _ | WPop _ PStart | WFlag _ PStart => true | _ => false end.

Definition popping b p : bool := match p with WPop b' _ => bool_decide (b' = b) | _ => false end.
(** It will look at the token before it sleeps. *)
Definition looks p : bool := match p with WTimeout | WPoll _ => false | _ => true end.
(** Its poller is not published. *)
Definition unpublished p : bool := match p with WSet | WWait | WFlag _ PExit | WPop _ PExit | WGone => true | _ => false end.
(** Nobody holds it any more. *)
Definition left p : bool := match p with WFlag _ PExit | WPop _ PExit | WGone => true | _ => false end.
Definition batch p : list nat := match p with WBatch l _ => l | _ => [] end.
(** Where a box cannot be. *)
Definition odd p : bool := match p with WFlag Inbox PExit | WPop Inbox PExit | WFlag Kicks PStart | WFlag SockOps PStart | WPop Kicks PStart | WPop SockOps PStart => true | _ => false end.

Definition is_clear p : bool := match p with WClear => true | _ => false end.
Lemma is_clear_eq p : is_clear p = true → p = WClear.
Proof. by destruct p. Qed.

(** The loop has not begun. *)
Definition fresh p : bool := match p with WSet | WFlag _ PStart | WPop _ PStart => true | _ => false end.

Definition notified w : nat := wake_fd w + total waking (calls w).

Record inv w : Prop := {
  i_queue b : queue (mail w b) ≠ [] → flag (mail w b) = false → popping b (worker w) = false → 0 < total (will b) (calls w);
  i_flag b : flag (mail w b) = true → coming b (worker w) = false → early b (worker w) && negb (started w) = false → 0 < notified w;
  i_stop : stop_requested w = true → looks (worker w) = false → 0 < notified w;
  i_pending : wake_pending w = true → worker w ≠ WClear → 0 < wake_fd w + total writing (calls w);
  i_count : wake_inflight_ w = total counted (calls w);
  i_poller : poller_ w = negb (unpublished (worker w));
  i_left : left (worker w) = true → total holding (calls w) = 0;
  i_alive : alive w = false → worker w = WGone;
  i_order b : pushed (mail w b) = taken (mail w b) ++ (queue (mail w b)).*2;
  i_local : queued w = resumed w ++ batch (worker w) ++ local_q w;
  i_poll t : worker w = WPoll t → local_q w ≠ [] → t = 0%Z;
  i_odd : odd (worker w) = false;
  i_fresh : fresh (worker w) = true → started w = false
}.

Lemma worker_new : inv Thread_new.
Proof. by constructor. Qed.

Lemma writing_waking l : total writing l <= total waking l.
Proof. induction l as [|x l IH]; [done|]. rewrite !total_cons. destruct x; cbn; lia. Qed.

Lemma holding_counted l : total holding l <= total counted l.
Proof. induction l as [|x l IH]; [done|]. rewrite !total_cons. destruct x; cbn; lia. Qed.

(** * Calls *)

(** A call moves; the worker does not. *)
Lemma inv_call w w' i c c' : inv w → calls w !! i = Some c → calls w' = <[i := c']> (calls w) → worker w' = worker w → started w' = started w →
  poller_ w' = poller_ w → alive w' = alive w → local_q w' = local_q w → resumed w' = resumed w → queued w' = queued w →
  (∀ b, queue (mail w' b) ≠ [] → flag (mail w' b) = false → flag (mail w b) = false ∧ (queue (mail w b) ≠ [] ∧ will b c' = will b c ∨ 0 < will b c')) →
  (∀ b, flag (mail w' b) = true → flag (mail w b) = true ∨ 0 < waking c') → (stop_requested w' = true → stop_requested w = true ∨ 0 < waking c') →
  (0 < wake_fd w + waking c → 0 < wake_fd w' + waking c' + (total writing (calls w) - writing c) ∨ unpublished (worker w) = true ∨ worker w = WClear) → wake_fd w <= wake_fd w' →
  (wake_pending w' = true → wake_pending w = true ∧ writing c = 0 ∨ 0 < wake_fd w' + writing c') →
  wake_inflight_ w' + counted c = wake_inflight_ w + counted c' → (left (worker w) = true → holding c' = 0) →
  (∀ b, pushed (mail w' b) = taken (mail w' b) ++ (queue (mail w' b)).*2) → inv w'.
Proof.
  intros [Q F S P C PO L A O LO PL OD FR] Hc Ec Ew Es Epo Eal El Er Eq HQ HF HS HN Hfd HP HI HL HO.
  pose proof (λ g, total_insert g _ _ _ c' Hc) as T. pose proof (λ g, total_elem g _ _ _ Hc) as E.
  pose proof (writing_waking (<[i := c']> (calls w))) as HW.
  assert (N : looks (worker w) = false ∨ (unpublished (worker w) = false ∧ worker w ≠ WClear) → 0 < notified w → 0 < notified w').
  { unfold notified. rewrite Ec. intros Hl Hn. pose proof (T waking). pose proof (E waking). pose proof (T writing). pose proof (E writing).
    destruct (decide (0 < wake_fd w + waking c)) as [Hz|Hz]; [|lia].
    destruct (HN Hz) as [?|[Hu|Hu]]; [|destruct Hl as [Hl|[Hl ?]]; [by destruct (worker w) as [| | | | | | | | | | |? []|? []| | |]|congruence]|destruct Hl as [Hl|[_ Hl]]; [by rewrite Hu in Hl|done]].
    lia. }
  constructor; rewrite ?Ew, ?Es, ?Epo, ?Eal, ?El, ?Er, ?Eq, ?Ec; try done.
  - intros b H1 H2 H3. pose proof (T (will b)). pose proof (E (will b)). destruct (HQ b H1 H2) as [Hf [[Hq Hw]|Hw]]; [|lia]. pose proof (Q b Hq Hf H3). lia.
  - intros b H1 H2 H3. destruct (HF b H1) as [Hf|Hf]; [|unfold notified; rewrite Ec; pose proof (T waking); pose proof (E waking); lia].
    apply N; [|by apply (F b)]. right. destruct (worker w) as [| | | | | | | | | | |? []|? []| | |]; done.
  - intros H1 H2. destruct (HS H1) as [Hf|Hf]; [|unfold notified; rewrite Ec; pose proof (T waking); pose proof (E waking); lia]. apply N; [by left|by apply S].
  - intros H1 H2. pose proof (T writing). pose proof (E writing). destruct (HP H1) as [[Hp Hw]|?]; [pose proof (P Hp H2)|]; lia.
  - pose proof (T counted). pose proof (E counted). lia.
  - intros Hl. pose proof (T holding). pose proof (L Hl). pose proof (HL Hl). lia.
Qed.

(** The poller exists while a call holds it. *)
Lemma held_alive w i c : inv w → calls w !! i = Some c → 0 < holding c → alive w = true ∧ left (worker w) = false.
Proof.
  intros Hi Hc Hh. pose proof (total_elem holding _ _ _ Hc) as He.
  assert (Hl : left (worker w) = false) by (apply not_true_is_false; intros Hl; pose proof (i_left _ Hi Hl); lia). split; [|done].
  destruct (alive w) eqn:E; [done|]. by rewrite (i_alive _ Hi E) in Hl.
Qed.

(** What [inv_call] asks of a step that is given by its fields. *)
Ltac call_move Hi Hc c' := eapply (inv_call _ _ _ _ c' Hi Hc); cbn; try done; try lia; try apply (i_order _ Hi); auto.

Lemma call_keeps w i c (o : outcome world) : inv w → calls w !! i = Some c → call_step i c w = Some o → ∃ w', o = Done w' ∧ inv w'.
Proof.
  intros Hi Hc. pose proof (total_elem holding _ _ _ Hc) as Hh. pose proof (i_pending _ Hi) as Hp.
  destruct c as [|b x|b x|b| | | | | |]; cbn [call_step]; intros E; [done|..].
  - injection E as <-. eexists. split; [reflexivity|]. call_move Hi Hc (CLink b x).
    + intros b'. destruct (decide (b' = b)) as [->|Hn]; cbn; intros H1 H2; (split; [done|]); [right; rewrite decide_True by done; lia|left; rewrite decide_False by congruence; done].
    + intros b'. destruct (decide (b' = b)) as [->|Hn]; cbn; auto.
    + intros b'. destruct (decide (b' = b)) as [->|Hn]; cbn; [|apply (i_order _ Hi)]. by rewrite (i_order _ Hi), fmap_app, <- app_assoc.
  - injection E as <-. eexists. split; [reflexivity|]. call_move Hi Hc (CFlag b).
  - injection E as <-. eexists. split; [reflexivity|]. call_move Hi Hc CAdd.
    + intros b'. destruct (decide (b' = b)) as [->|Hn]; cbn; [done|]. intros H1 H2. split; [done|]. left. rewrite decide_False by congruence. done.
    + intros b'. destruct (decide (b' = b)) as [->|Hn]; cbn; apply (i_order _ Hi).
  - injection E as <-. eexists. split; [reflexivity|]. call_move Hi Hc CAdd.
  - injection E as <-. eexists. split; [reflexivity|]. call_move Hi Hc CLoad.
  - injection E as <-. eexists. split; [reflexivity|]. pose proof (i_poller _ Hi) as Hpo. destruct (poller_ w) eqn:Ep.
    + call_move Hi Hc CWake. intros Hl. by destruct (worker w) as [| | | | | | | | | | |? []|? []| | |].
    + call_move Hi Hc CSub. intros _. right. left. by destruct (unpublished (worker w)).
  - destruct (held_alive _ _ _ Hi Hc) as [Ha Hl]; [cbn; lia|]. rewrite Ha in E. injection E as <-. eexists. split; [reflexivity|]. destruct (wake_pending w) eqn:Ep.
    + call_move Hi Hc CSub. intros _. destruct (decide (is_clear (worker w) = true)) as [Hw|Hw]; [by right; right; apply is_clear_eq|].
      left. assert (H : worker w ≠ WClear) by (intros E; by rewrite E in Hw). pose proof (Hp eq_refl H). lia.
    + call_move Hi Hc CWrite. intros Hl'. congruence.
  - destruct (held_alive _ _ _ Hi Hc) as [Ha Hl]; [cbn; lia|]. rewrite Ha in E. injection E as <-. eexists. split; [reflexivity|]. call_move Hi Hc CSub.
  - injection E as <-. eexists. split; [reflexivity|]. pose proof (i_count _ Hi) as Hn. pose proof (total_elem counted _ _ _ Hc) as He. cbn in He. call_move Hi Hc CEnd.
Qed.

(** * The worker *)

(** The worker moves and leaves the boxes and the wake alone. *)
Lemma inv_worker_moves w w' : inv w → mail w' = mail w → calls w' = calls w → wake_fd w' = wake_fd w → wake_pending w' = wake_pending w →
  wake_inflight_ w' = wake_inflight_ w → stop_requested w' = stop_requested w → worker w ≠ WClear →
  (∀ b, popping b (worker w') = false → popping b (worker w) = true → queue (mail w b) ≠ [] → 0 < total (will b) (calls w)) →
  (∀ b, coming b (worker w') = false → early b (worker w') && negb (started w') = false → flag (mail w b) = true →
     coming b (worker w) = false ∧ early b (worker w) && negb (started w) = false) →
  (looks (worker w') = false → stop_requested w = true → looks (worker w) = false) → poller_ w' = negb (unpublished (worker w')) →
  (left (worker w') = true → left (worker w) = true ∨ total holding (calls w) = 0) → (alive w' = false → worker w' = WGone) →
  queued w' = resumed w' ++ batch (worker w') ++ local_q w' → (∀ t, worker w' = WPoll t → local_q w' ≠ [] → t = 0%Z) → odd (worker w') = false →
  (fresh (worker w') = true → started w' = false) → inv w'.
Proof.
  intros [Q F S P C PO L A O LO PL OD FR] Em Ec Ef Ep Ei Es Hcl HQ HF HS HPO HL HA HLO HPL HOD HFR.
  constructor; unfold notified in *; rewrite ?Em, ?Ec, ?Ef, ?Ep, ?Ei, ?Es; try done.
  - intros b H1 H2 H3. destruct (popping b (worker w)) eqn:E; auto.
  - intros b H1 H2 H3. destruct (HF b H2 H3 H1). by apply (F b).
  - intros H1 H2. apply S; auto.
  - intros H1 H2. by apply P.
  - intros H1. destruct (HL H1) as [?|?]; auto.
Qed.

Ltac worker_move Hi := eapply (inv_worker_moves _ _ Hi); cbn; try done; try apply (i_alive _ Hi); try apply (i_fresh _ Hi).

(** The local queue and the history of the tasks. *)
Lemma local_enqueue w l : inv w → batch (worker w) = [] → queued w ++ l = resumed w ++ local_q w ++ l.
Proof. intros Hi Hb. by rewrite (i_local _ Hi), Hb, <- app_assoc. Qed.

(** Somebody who is linking will raise the flag. *)
Lemma linking_will b w : existsb (linking b) (calls w) = true → 0 < total (will b) (calls w).
Proof.
  intros (c & Hin & Hl)%existsb_exists. apply list_elem_of_In, list_elem_of_lookup in Hin as (i & Hi). pose proof (total_elem (will b) _ _ _ Hi) as H.
  destruct c; try done. cbn in Hl. apply bool_decide_eq_true in Hl. subst. cbn in H. rewrite decide_True in H by done. lia.
Qed.

(** A box has been looked at. *)
Lemma after_keeps b (p : phase) w : inv w → worker w = WFlag b p ∧ flag (mail w b) = false ∨ worker w = WPop b p ∧ (queue (mail w b) ≠ [] → 0 < total (will b) (calls w)) →
  inv (after b p w).
Proof.
  intros Hi Hw. pose proof (i_poller _ Hi) as Hpo. pose proof (i_local _ Hi) as Hlo. pose proof (i_odd _ Hi) as Hod. pose proof (i_left _ Hi) as Hle. pose proof (i_alive _ Hi) as Hal.
  assert (Hx : worker w = WFlag b p ∨ worker w = WPop b p) by tauto.
  assert (Hq : ∀ b', popping b' (worker w) = true → queue (mail w b') ≠ [] → 0 < total (will b') (calls w)).
  { intros b' Hb Hq. destruct Hw as [[E _]|[E Hw]]; rewrite E in Hb; [done|]. cbn in Hb. apply bool_decide_eq_true in Hb. subst. auto. }
  assert (Hf : worker w = WFlag b p → flag (mail w b) = false) by (destruct Hw as [[_ ?]|[E _]]; congruence). clear Hw.
  unfold after. destruct p, b; destruct Hx as [Ew|Ew]; rewrite Ew in *; cbn in Hpo, Hlo, Hod, Hle, Hal; try done.
  all: worker_move Hi; rewrite ?Ew; cbn; try done; auto.
  all: try (intros []; cbn; intros; split; try done; try (rewrite (Hf eq_refl) in *; done)).
  all: try (intros Ha; by specialize (Hal Ha)).
Qed.

(** The flag of a box is taken. *)
Lemma flag_keeps b (p : phase) w : inv w → worker w = WFlag b p → inv (turn (WPop b p) (put_mail b {| (mail w b) with flag := false |} w)).
Proof.
  intros [Q F S P C PO L A O LO PL OD FR] Ew. rewrite Ew in *. constructor; unfold notified in *; cbn in *; try done.
  - intros b'. destruct (decide (b' = b)) as [->|Hn]; cbn; [by rewrite bool_decide_true|]. intros H1 H2 _. by apply Q.
  - intros b'. destruct (decide (b' = b)) as [->|Hn]; cbn; [done|]. intros H1 H2 H3. apply (F b'); [done|..].
    all: destruct p, b, b'; cbn in *; done.
  - intros H1 _. by apply P.
  - intros Ha. specialize (A Ha). done.
  - intros b'. destruct (decide (b' = b)) as [->|Hn]; cbn; apply O.
Qed.

(** An entry is taken out of a box. *)
Lemma deliver_keeps b (p : phase) w i x q l : inv w → worker w = WPop b p → queue (mail w b) = (i, x) :: q →
  inv (deliver b x l (put_mail b {| (mail w b) with queue := q; taken := taken (mail w b) ++ [x] |} w)).
Proof.
  intros [Q F S P C PO L A O LO PL OD FR] Ew Eq. rewrite Ew in *.
  assert (HO : ∀ b', pushed (mail (put_mail b {| (mail w b) with queue := q; taken := taken (mail w b) ++ [x] |} w) b') =
    taken (mail (put_mail b {| (mail w b) with queue := q; taken := taken (mail w b) ++ [x] |} w) b') ++ (queue (mail (put_mail b {| (mail w b) with queue := q; taken := taken (mail w b) ++ [x] |} w) b')).*2).
  { intros b'. cbn. destruct (decide (b' = b)) as [->|Hn]; cbn; [by rewrite O, Eq, <- app_assoc|apply O]. }
  destruct b; cbn [deliver]; constructor; unfold notified in *; cbn in *; rewrite ?Ew; cbn; try done; try (by rewrite LO, <- ?app_assoc).
  all: intros b'; specialize (F b'); specialize (Q b'); destruct (decide (b' = _)) as [->|Hn]; cbn; try done.
  all: rewrite bool_decide_false by done; auto.
Qed.

Ltac worker_done Hi Ew Hal := worker_move Hi; rewrite ?Ew; cbn; try done; try (intros Ha; by specialize (Hal Ha)).

Section steps.
Context (loop_task_quantum tmp_tasks : nat) (idle_fallback_ms : Z).
Abbreviation step := (worker_step loop_task_quantum tmp_tasks idle_fallback_ms).

Lemma worker_keeps k w (o : outcome world) : inv w → step k w = Some o → ∃ w', o = Done w' ∧ inv w'.
Proof.
  intros Hi Hs. pose proof (i_local _ Hi) as Hlo. pose proof (i_alive _ Hi) as Hal. pose proof (i_poller _ Hi) as Hpo. pose proof (i_fresh _ Hi) as Hfr. unfold worker_step in Hs.
  destruct (worker w) as [| | |t| | |n|[|x r] n| | | |b p|b p| | |] eqn:Ew; cbn in Hlo, Hpo, Hfr.
  - injection Hs as <-. eexists. split; [reflexivity|]. worker_done Hi Ew Hal; rewrite (Hfr eq_refl); by intros [].
  - injection Hs as <-. eexists. split; [reflexivity|]. destruct (stop_requested w) eqn:Est; worker_done Hi Ew Hal; try (by rewrite Est).
  - injection Hs as <-. eexists. split; [reflexivity|]. worker_done Hi Ew Hal. intros t' [= <-]. by destruct (local_q w).
  - assert (Hok : ∀ p', p' = WRead ∨ p' = WRun loop_task_quantum → inv (turn p' (enqueue (ready k) w))).
    { intros p' [->| ->]; worker_done Hi Ew Hal; by apply local_enqueue; rewrite ?Ew. }
    destruct (by_wake k); [destruct (wake_fd w =? 0); [done|]|]; injection Hs as <-; eexists; (split; [reflexivity|]); auto.
  - injection Hs as <-. eexists. split; [reflexivity|]. destruct Hi as [Q F S P C PO L A O LO PL OD FR]. rewrite Ew in *. constructor; cbn; auto; try done. intros Ha; by specialize (A Ha).
  - injection Hs as <-. eexists. split; [reflexivity|]. pose proof (local_enqueue _ (ready k) Hi) as Hl. rewrite Ew in Hl. destruct Hi as [Q F S P C PO L A O LO PL OD FR]. rewrite Ew in *. constructor; cbn; auto; try done. intros Ha; by specialize (A Ha).
  - set (m := n `min` tmp_tasks) in *. pose proof (take_drop m (local_q w)) as Htd. destruct (take m (local_q w)) as [|y l] eqn:Et; injection Hs as <-; eexists; (split; [reflexivity|]); worker_done Hi Ew Hal.
    change (y :: l ++ drop m (local_q w)) with ((y :: l) ++ drop m (local_q w)). by rewrite Htd.
  - injection Hs as <-. eexists. split; [reflexivity|]. worker_done Hi Ew Hal.
  - injection Hs as <-. eexists. split; [reflexivity|]. worker_done Hi Ew Hal. rewrite Hlo, <- !app_assoc. cbn. by rewrite <- !app_assoc.
  - injection Hs as <-. eexists. split; [reflexivity|]. worker_done Hi Ew Hal. by apply local_enqueue; rewrite ?Ew.
  - destruct (st w); injection Hs as <-; eexists; (split; [reflexivity|]); worker_done Hi Ew Hal. by apply local_enqueue; rewrite ?Ew.
  - injection Hs as <-. eexists. split; [reflexivity|]. worker_done Hi Ew Hal.
  - destruct (flag (mail w b)) eqn:Ef; injection Hs as <-; eexists; (split; [reflexivity|]); [by apply flag_keeps|apply after_keeps; tauto].
  - unfold pop_step in Hs. destruct (queue (mail w b)) as [|[i x] q] eqn:Eq; [injection Hs as <-; eexists; split; [reflexivity|]; apply after_keeps; [done|]; right; by rewrite Eq|].
    destruct (fails k); [destruct (existsb (linking b) (calls w)) eqn:El; [|done]|destruct (unlinked b i w); [done|]]; injection Hs as <-; eexists; (split; [reflexivity|]).
    + apply after_keeps; [done|]. right. split; [done|]. intros _. by apply linking_will.
    + by eapply deliver_keeps.
  - injection Hs as <-. eexists. split; [reflexivity|]. worker_done Hi Ew Hal.
  - pose proof (i_count _ Hi) as Hn. destruct (Nat.eqb_spec (wake_inflight_ w) 0) as [E0|E0]; injection Hs as <-; eexists; (split; [reflexivity|]); [|done].
    worker_done Hi Ew Hal. intros _. right. pose proof (holding_counted (calls w)). lia.
  - done.
Qed.

Abbreviation acts := (act loop_task_quantum tmp_tasks idle_fallback_ms).

Lemma inv_append w c : inv w → will Inbox c + will Kicks c + will SockOps c + waking c + counted c + holding c = 0 → inv {| w with calls := calls w ++ [c] |}.
Proof.
  intros [Q F S P C PO L A O LO PL OD FR] Hc. constructor; unfold notified in *; cbn; rewrite ?total_app, ?total_one; auto.
  - intros b H1 H2 H3. specialize (Q b H1 H2 H3). rewrite total_app. lia.
  - intros b H1 H2 H3. specialize (F b H1 H2 H3). lia.
  - intros H1 H2. specialize (S H1 H2). lia.
  - intros H1 H2. specialize (P H1 H2). lia.
  - lia.
  - intros Hl. specialize (L Hl). lia.
Qed.

Lemma worker_act w a (o : outcome world) : inv w → acts a w = Some o → ∃ w', o = Done w' ∧ inv w'.
Proof.
  intros Hi. destruct a as [b x| |x|i|k]; cbn.
  - intros [= <-]. eexists. split; [done|]. by apply inv_append.
  - intros [= <-]. eexists. split; [done|]. by apply inv_append.
  - intros [= <-]. eexists. split; [done|]. by destruct Hi; constructor.
  - intros (c & Hc & Hs)%bind_Some. by eapply call_keeps.
  - by apply worker_keeps.
Qed.

Lemma worker_run l w (o : outcome world) : inv w → run loop_task_quantum tmp_tasks idle_fallback_ms l w = Some o → ∃ w', o = Done w' ∧ inv w'.
Proof.
  revert w. induction l as [|a l IH]; intros w Hi; cbn; [intros [= <-]; by eexists|].
  destruct (acts a w) as [o1|] eqn:E; [|done]. destruct (worker_act _ _ _ Hi E) as (w1 & -> & Hi1). by apply IH.
Qed.

Definition ended c : bool := match c with CEnd => true | _ => false end.

Lemma ended_total g w : g CEnd = 0 → forallb ended (calls w) = true → total g (calls w) = 0.
Proof.
  intros Hg. induction (calls w) as [|c l IH]; [done|]. cbn [forallb]. intros [Hc Hl]%andb_true_iff. rewrite total_cons, IH by done. by destruct c; rewrite ?Hg.
Qed.

(** What a worker that sleeps has left to do. *)
Definition nothing_to_do (t : Z) w : Prop :=
  stop_requested w = false ∧ queue (mail w Inbox) = [] ∧ (started w = true → ∀ b, queue (mail w b) = []) ∧ (local_q w ≠ [] → t = 0%Z).

Lemma asleep_empty w t b : inv w → worker w = WPoll t → wake_fd w = 0 → forallb ended (calls w) = true → b = Inbox ∨ started w = true → queue (mail w b) = [].
Proof.
  intros Hi Ew Hfd Hc Hb. assert (Ef : flag (mail w b) = false).
  { apply not_true_is_false. intros Hf. assert (H : 0 < notified w); [|unfold notified in H; rewrite Hfd, ended_total in H by done; lia].
    apply (i_flag _ Hi b Hf); rewrite Ew; [done|]. destruct Hb as [->| ->]; [done|apply andb_false_r]. }
  destruct (queue (mail w b)) eqn:Eq; [done|]. assert (H : 0 < total (will b) (calls w)); [|rewrite ended_total in H by done; lia].
  apply (i_queue _ Hi); [by rewrite Eq|done|by rewrite Ew].
Qed.

(** C7: however the threads interleave: nobody uses the poller of a thread that has ended; when the
    worker sleeps, its eventfd is empty and no call is under way, then no stop was asked
    for, its inbox is empty, so are its kicks and socket ops once it has been through its loop
    ([started]), and with a task in its own queue it polls with timeout 0.  Nothing is
    said of the queue [st] that the workers share ([shared_task_waits]).  Everything that was
    put into a box is handed out once and in order, and so is every task it queued. *)
Theorem worker_mail_not_lost l (o : outcome world) : run loop_task_quantum tmp_tasks idle_fallback_ms l Thread_new = Some o →
  ∃ w, o = Done w ∧
    (∀ t, worker w = WPoll t → wake_fd w = 0 → forallb ended (calls w) = true → nothing_to_do t w) ∧
    (∀ b, pushed (mail w b) = taken (mail w b) ++ (queue (mail w b)).*2) ∧ queued w = resumed w ++ batch (worker w) ++ local_q w.
Proof.
  intros Hr. destruct (worker_run _ _ _ worker_new Hr) as (w & -> & Hi). exists w. split; [done|]. split; [|by split; [apply (i_order _ Hi)|apply (i_local _ Hi)]].
  intros t Ew Hfd Hc. split_and!; [|eapply asleep_empty; eauto|intros Hs b; eapply asleep_empty; eauto|by apply (i_poll _ Hi)].
  apply not_true_is_false. intros Hs. assert (H : 0 < notified w) by (apply (i_stop _ Hi Hs); by rewrite Ew).
  unfold notified in H. rewrite Hfd, ended_total in H by done. lia.
Qed.

(** * The tasks of a round *)

(** The worker by itself, until it has done with its queue. *)
Fixpoint run_tasks (ks : list choice) w : option world :=
  match worker w with
  | WRun _ | WBatch _ _ => match ks with k :: ks => match step k w with Some (Done w') => run_tasks ks w' | _ => None end | [] => None end
  | _ => Some w
  end.

(** A batch is resumed, whatever becomes ready meanwhile, which is queued behind. *)
Lemma run_batch ks w r n : worker w = WBatch r n → length r < length ks →
  ∃ ks' w' more, run_tasks ks w = run_tasks ks' w' ∧ length ks = length ks' + S (length r) ∧ worker w' = WRun n ∧ resumed w' = resumed w ++ r
    ∧ queued w' = queued w ++ more ∧ local_q w' = local_q w ++ more.
Proof.
  revert ks w. induction r as [|x r IH]; intros [|k ks] w Ew Hk; cbn in Hk; try lia; cbn [run_tasks]; rewrite Ew; unfold worker_step; rewrite Ew.
  - eexists ks, _, []. split; [reflexivity|]. cbn. rewrite !app_nil_r. split_and!; [lia|done..].
  - set (w1 := turn (WBatch r n) (enqueue (ready k) {| w with resumed := resumed w ++ [x] |})).
    destruct (IH ks w1 eq_refl ltac:(lia)) as (ks' & w' & more & H1 & H2 & H3 & H4 & H5 & H6).
    exists ks', w', (ready k ++ more). split_and!; [done|cbn; lia|done|by rewrite H4; cbn; rewrite <- app_assoc|rewrite H5|rewrite H6]; cbn; by rewrite <- app_assoc.
Qed.

(** C35: when a batch can hold a task, a round of the worker by itself ends; it resumes a list [l] of tasks that is a prefix
    of the queue followed by what became ready meanwhile, in that order, never more
    than the quantum, however many become ready; the rest stays queued, and nothing
    does when it has resumed fewer. *)
Theorem round_is_bounded ks w n : 0 < tmp_tasks → worker w = WRun n → 3 * n < length ks →
  ∃ w' l more, run_tasks ks w = Some w' ∧ worker w' = WTick ∧ resumed w' = resumed w ++ l ∧ queued w' = queued w ++ more
    ∧ local_q w ++ more = l ++ local_q w' ∧ length l <= n ∧ (length l < n → local_q w' = []).
Proof.
  intros Ht. revert ks w. induction (lt_wf n) as [n _ IH]. intros [|k ks] w Ew Hk; cbn in Hk; [lia|]. cbn [run_tasks]. rewrite Ew. unfold worker_step. rewrite Ew.
  set (m := n `min` tmp_tasks). destruct (take m (local_q w)) as [|y r] eqn:Et.
  - eexists _, [], []. split; [by destruct ks|]. cbn. rewrite !app_nil_r. split_and!; [done..|lia|]. intros Hn.
    destruct (local_q w) as [|z q] eqn:Eq; [done|]. unfold m in Et. destruct n, tmp_tasks; cbn in Et; (lia || done).
  - assert (Hl : length (y :: r) <= n) by (rewrite <- Et, length_take; unfold m; lia).
    set (w1 := turn (WBatch (y :: r) (n - length (y :: r))) {| w with local_q := drop m (local_q w) |}).
    destruct (run_batch ks w1 (y :: r) (n - length (y :: r)) eq_refl ltac:(cbn in *; lia)) as (ks' & w2 & more & H1 & H2 & H3 & H4 & H5 & H6).
    destruct (IH (n - length (y :: r)) ltac:(cbn in *; lia) ks' w2 H3 ltac:(cbn in *; lia)) as (w' & l & more' & R1 & R2 & R3 & R4 & R5 & R6 & R7).
    exists w', ((y :: r) ++ l), (more ++ more'). rewrite length_app.
    split_and!; [etrans; [exact H1|done]|done|by rewrite R3, H4, <- app_assoc|by rewrite R4, H5, <- app_assoc| |lia|intros Hn; apply R7; lia].
    rewrite <- app_assoc, <- R5, H6. change (local_q w1) with (drop m (local_q w)). rewrite <- (take_drop m (local_q w)) at 1.
    by rewrite Et, <- !app_assoc.
Qed.

(** * What the loop overlooks *)

(** A timer that is due does not keep a worker with an empty queue from sleeping. *)
Theorem due_timer_waits : poll_timeout idle_fallback_ms [] 0 = idle_fallback_ms.
Proof. done. Qed.

(** A task spawned for any worker does not wake one: when its next timer is far away it sleeps
    until then, with the task still to be taken. *)
Theorem shared_task_waits t x : (0 < t)%Z →
  ∃ l w, run loop_task_quantum tmp_tasks idle_fallback_ms l Thread_new = Some (Done w) ∧ worker w = WPoll t ∧ st w = [x] ∧ wake_fd w = 0 ∧ calls w = [].
Proof.
  intros Ht. set (k := mkChoice t false false []). exists [WStep k; WStep k; WStep k; WStep k; Spawn x]. eexists. split; [reflexivity|]. cbn.
  split_and!; try done. unfold poll_timeout. by rewrite (proj2 (Z.ltb_lt 0 t) Ht).
Qed.
End steps.

(** A kick is pushed while the worker sleeps: it wakes, takes it and sleeps again. *)
Definition kicked : list action :=
  repeat (WStep (mkChoice (-1) false false [])) 4 ++ [Push Kicks 7] ++ repeat (CStep 0) 8 ++ repeat (WStep (mkChoice (-1) true false [])) 14.

Lemma worker_mail_not_lost_witness : ∃ w, run 8 4 50 kicked Thread_new = Some (Done w) ∧ taken (mail w Kicks) = [7] ∧ nothing_to_do 50 w.
Proof.
  destruct (run 8 4 50 kicked Thread_new) as [o|] eqn:E; [|vm_compute in E; discriminate E].
  destruct (worker_mail_not_lost 8 4 50 kicked o E) as (w & -> & Hs & _). exists w. split; [done|]. vm_compute in E. injection E as <-. split; [reflexivity|]. by apply Hs.
Defined.

(** Two tasks, of which each one makes itself ready again. *)
Lemma round_is_bounded_witness : ∃ w' l,
  run_tasks 3 2 50 (repeat (mkChoice 0 false false [5; 6]) 10) (turn (WRun 3) (enqueue [5; 6] Thread_new)) = Some w' ∧ resumed w' = [] ++ l ∧ l `prefix_of` [5; 6; 5; 6; 5; 6; 5; 6] ∧ length l <= 3.
Proof.
  destruct (round_is_bounded 3 2 50 (repeat (mkChoice 0 false false [5; 6]) 10) (turn (WRun 3) (enqueue [5; 6] Thread_new)) 3) as (w' & l & more & H1 & _ & H2 & H3 & H4 & H5 & _); [lia|done|cbn; lia|].
  exists w', l. split; [exact H1|]. split; [exact H2|]. split; [|exact H5].
  vm_compute in H1. injection H1 as <-. cbn in H2. rewrite <- H2. by eexists [6; 5; 6; 5; 6].
Defined.
End WorkerCorrect.
