(* ===== verification/FramePool.v ===== *)
(** The memory of coroutine frames ([AwaitableFrame.h]): [frame_alloc] and [frame_free] align
    blocks of [malloc] and keep the raw pointer in the word before them; every thread has an
    [IOFramePool] of free lists by size, threaded through the blocks themselves.

    Memory is a map of 8-byte words.  [malloc] may return any region that is free, aligned and
    below 2^47, or null; that choice is an argument.  Frames may be freed on another
    thread than the one they come from, and their owners write into them. *)

From S2P Require Import Prelude.

Module FramePool.

Definition kFrameAlign : Z := 64.
Definition kClass : Z := 64.
Definition kMaxSize : Z := 1024.
Definition kClasses : Z := kMaxSize / kClass.
Definition kMaxCached : Z := 4096.

(** ** Memory *)

Record heap := mkHeap {
  regions : gmap Z Z;         (** what [malloc] gave out, with its size *)
  mem : gmap Z Z
}.

Definition within (a n : Z) (r : Z * Z) : bool := (r.1 <=? a) && (a + n <=? r.1 + r.2).
Definition apart (a n : Z) (r : Z * Z) : bool := (a + n <=? r.1) || (r.1 + r.2 <=? a).

Definition valid (h : heap) (a : Z) : bool := existsb (within a 8) (map_to_list (regions h)).
Definition load (h : heap) (a : Z) : outcome Z := if valid h a then deref (mem h !! a) else UB.
Definition store (h : heap) (a v : Z) : outcome heap := if valid h a then Done {| h with mem := <[a := v]> (mem h) |} else UB.

(** What [malloc(n)] may return. *)
Definition malloc_ok (h : heap) (n raw : Z) : bool :=
  (0 <? raw) && (raw mod 16 =? 0) && (raw + n <=? 2 ^ 47) && forallb (apart raw n) (map_to_list (regions h)).
Definition malloc (h : heap) (n raw : Z) : heap := {| h with regions := <[raw := n]> (regions h) |}.
Definition free (h : heap) (raw : Z) : outcome heap :=
  if decide (raw ∈ dom (regions h)) then Done {| h with regions := delete raw (regions h) |} else UB.

(** ** Frames *)

(** [(base + align - 1) & ~(align - 1)] *)
Definition align_up (base : Z) : Z := Z.land (wrap 64 (base + kFrameAlign - 1)) (wrap 64 (Z.lnot (kFrameAlign - 1))).

(** [malloc]'s answer is [raw]; 0 means null, and [bad_alloc] is thrown ([None]). *)
Definition frame_alloc (h : heap) (sz raw : Z) : option (outcome (option Z * heap)) :=
  let n := wrap 64 (sz + kFrameAlign + 8) in
  if raw =? 0 then Some (Done (None, h))
  else if malloc_ok h n raw then
    let aligned := align_up (wrap 64 (raw + 8)) in
    Some (h ← store (malloc h n raw) (aligned - 8) raw; Done (Some aligned, h))
  else None.

Definition frame_free (h : heap) (p : Z) : outcome heap :=
  if p =? 0 then Done h else raw ← load h (p - 8); free h raw.

(** ** The pool *)

Record pool := mkPool { heads_ : list Z; counts_ : list Z }.
Definition IOFramePool_new : pool := mkPool (replicate 16 0) (replicate 16 0).

Definition class_of (sz : Z) : Z := wrap 64 (sz + kClass - 1) / kClass.

(** A request that the pool serves. *)
Definition pooled (sz : Z) : bool := negb ((class_of sz =? 0) || (kClasses <? class_of sz)).

Definition allocate (q : pool) (h : heap) (sz raw : Z) : option (outcome (option Z * pool * heap)) :=
  let cls := class_of sz in
  if (cls =? 0) || (kClasses <? cls) then fmap (λ o, r ← o; Done (r.1, q, r.2)) (frame_alloc h sz raw)
  else
    match aread (heads_ q) (cls - 1), aread (counts_ q) (cls - 1) with
    | Done head, Done count =>
        if head =? 0 then fmap (λ o, r ← o; Done (r.1, q, r.2)) (frame_alloc h (wrap 64 (cls * kClass)) raw)
        else
          Some (next ← load h head;
                heads ← awrite (heads_ q) (cls - 1) next;
                counts ← awrite (counts_ q) (cls - 1) (wrap 64 (count - 1));
                Done (Some head, mkPool heads counts, h))
    | _, _ => Some UB
    end.

Definition deallocate (q : pool) (h : heap) (p sz : Z) : outcome (pool * heap) :=
  let cls := class_of sz in
  if (cls =? 0) || (kClasses <? cls) then h ← frame_free h p; Done (q, h)
  else
    count ← aread (counts_ q) (cls - 1);
    if kMaxCached <=? count then h ← frame_free h p; Done (q, h)
    else
      head ← aread (heads_ q) (cls - 1);
      h ← store h p head;
      heads ← awrite (heads_ q) (cls - 1) p;
      counts ← awrite (counts_ q) (cls - 1) (wrap 64 (count + 1));
      Done (mkPool heads counts, h).

(** [while (head)] of the destructor. *)
Fixpoint free_list (fuel : nat) (head : Z) (h : heap) : outcome heap :=
  if head =? 0 then Done h
  else match fuel with
       | O => OutOfFuel
       | S fuel => next ← load h head; h ← frame_free h head; free_list fuel next h
       end.

Fixpoint free_lists (fuel : nat) (heads : list Z) (h : heap) : outcome heap :=
  match heads with [] => Done h | head :: heads => h ← free_list fuel head h; free_lists fuel heads h end.

(** [~IOFramePool]; no list is longer than [kMaxCached]. *)
Definition IOFramePool_delete (q : pool) (h : heap) : outcome heap := free_lists (Z.to_nat kMaxCached) (heads_ q) h.

(** ** Threads *)

Record world := mkWorld {
  hp : heap;
  pools : gmap nat pool;      (** by thread *)
  frames : gmap Z Z;          (** what coroutines hold, with the size they asked for *)
  gone : gset nat             (** threads that have ended *)
}.

Definition world_new : world := mkWorld (mkHeap ∅ ∅) ∅ ∅ ∅.

(** [IOFramePool::local()] *)
Definition local (w : world) (t : nat) : pool := default IOFramePool_new (pools w !! t).

Inductive action :=
| New (t : nat) (sz raw : Z)          (** [operator new] on thread [t] *)
| Delete (t : nat) (p : Z)            (** [operator delete] *)
| Write (p k v : Z)                   (** the coroutine writes its [k]-th word *)
| Exit (t : nat).                     (** the thread ends, and its pool is destroyed *)

(** Sizes the compiler can ask for. *)
Definition size_ok (sz : Z) : bool := (0 <=? sz) && (sz <? 2 ^ 46).

(** [None]: it is not possible now; a thread that has ended does nothing. *)
Definition act (a : action) (w : world) : option (outcome world) :=
  match a with
  | New t sz raw =>
      if size_ok sz && bool_decide (t ∉ gone w) then
        o ← allocate (local w t) (hp w) sz raw;
        Some ('(r, q, h) ← o;
              Done (mkWorld h (<[t := q]> (pools w)) (match r with Some p => <[p := sz]> (frames w) | None => frames w end) (gone w)))
      else None
  | Delete t p =>
      sz ← frames w !! p;
      if bool_decide (t ∉ gone w) then
        Some ('(q, h) ← deallocate (local w t) (hp w) p sz; Done (mkWorld h (<[t := q]> (pools w)) (delete p (frames w)) (gone w)))
      else None
  | Write p k v =>
      sz ← frames w !! p;
      if (0 <=? k) && (8 * k + 8 <=? sz) then Some (h ← store (hp w) (p + 8 * k) v; Done {| w with hp := h |}) else None
  | Exit t =>
      if bool_decide (t ∈ gone w) then None else Some (h ← IOFramePool_delete (local w t) (hp w); Done {| w with hp := h; pools := delete t (pools w); gone := {[ t ]} ∪ gone w |})
  end.

Fixpoint run (l : list action) (w : world) : option (outcome world) :=
  match l with
  | [] => Some (Done w)
  | a :: l => match act a w with Some (Done w') => run l w' | o => o end
  end.
End FramePool.
