(* ===== verification/FramePoolCorrect.v ===== *)
(** The memory of coroutine frames is sound: frames are aligned and do not overlap, whichever
    threads allocate and free them and whatever coroutines write; nothing is freed twice, the
    lists stay within their bound, and nothing is left when all frames are freed and all
    threads have ended. *)

From S2P Require Import Prelude FramePool.

Module FramePoolCorrect.
Import FramePool.
Implicit Types (w : world) (h : heap) (q : pool) (p raw sz a : Z) (t c : nat).

(** * Alignment *)

Lemma align_up_spec base : 0 <= base < 2 ^ 63 → align_up base mod 64 = 0 ∧ base <= align_up base <= base + 63.
Proof.
  intros Hb. unfold align_up, kFrameAlign. rewrite (wrap_small 64 (base + 64 - 1)) by lia. set (x := base + 64 - 1).
  assert (E : Z.land x (wrap 64 (Z.lnot (64 - 1))) = 64 * (x / 64)).
  { unfold wrap. rewrite <- Z.land_ones, (Z.land_comm (Z.lnot _)), Z.land_assoc, Z.land_ones by done. rewrite (Z.mod_small x) by (unfold x; lia).
    change (Z.land x (Z.lnot (Z.ones 6)) = 64 * (x / 64)). rewrite <- Z.ldiff_land, Z.ldiff_ones_r by done.
    rewrite Z.shiftl_mul_pow2, Z.shiftr_div_pow2 by done. change (2 ^ 6) with 64. lia. }
  rewrite E. split; [by rewrite Z.mul_comm, Z_mod_mult|]. pose proof (Z.div_mod x 64 ltac:(lia)). pose proof (Z.mod_pos_bound x 64 ltac:(lia)). unfold x in *. lia.
Qed.

Lemma class_of_small sz : 0 <= sz < 2 ^ 63 → class_of sz = (sz + 63) / 64.
Proof. intros H. unfold class_of, kClass. rewrite wrap_small by lia. f_equal. lia. Qed.

(** * Places *)

(** Where a block is: with a coroutine, or in the list of a class and a thread. *)
Inductive place := Live (sz : Z) | Cached (t c : nat).

(** The bytes of a request that are really there. *)
Definition room (sz : Z) : Z := if pooled sz then class_of sz * kClass else sz.
Definition space (x : place) : Z := match x with Live sz => room sz | Cached _ c => (Z.of_nat c + 1) * kClass end.
Definition sound (x : place) : Prop := match x with Live sz => size_ok sz = true | Cached _ c => (c < 16)%nat end.

Implicit Types (P : gmap Z place) (x : place).

Lemma room_bound sz : size_ok sz = true → sz <= room sz < 2 ^ 46 + 64 ∧ 0 <= room sz.
Proof.
  unfold size_ok. intros H. assert (0 <= sz < 2 ^ 46) by lia. unfold room. destruct (pooled sz); [|lia].
  rewrite class_of_small by lia. unfold kClass. pose proof (Z.div_mod (sz + 63) 64 ltac:(lia)). pose proof (Z.mod_pos_bound (sz + 63) 64 ltac:(lia)). lia.
Qed.

Lemma space_bound x : sound x → 0 <= space x < 2 ^ 46 + 64.
Proof. destruct x as [sz|t c]; cbn; intros H; [pose proof (room_bound _ H); lia|unfold kClass; lia]. Qed.

(** A block [p] of [n] bytes in its region. *)
Definition block h p (n : Z) : Prop := ∃ raw, regions h !! raw = Some (n + 72) ∧ mem h !! (p - 8) = Some raw ∧ p = align_up (raw + 8).

Record heap_ok h P : Prop := {
  h_block p x : P !! p = Some x → block h p (space x) ∧ sound x;
  h_bound raw n : regions h !! raw = Some n → 0 < raw ∧ 72 <= n ∧ raw + n <= 2 ^ 47;
  h_apart r1 n1 r2 n2 : r1 ≠ r2 → regions h !! r1 = Some n1 → regions h !! r2 = Some n2 → r1 + n1 <= r2 ∨ r2 + n2 <= r1;
  h_all raw n : regions h !! raw = Some n → is_Some (P !! align_up (raw + 8))
}.

(** The list of a class, threaded through its blocks. *)
Fixpoint chain (m : gmap Z Z) (head : Z) (l : list Z) : Prop :=
  match l with [] => head = 0 | p :: l => head = p ∧ p ≠ 0 ∧ ∃ next, m !! p = Some next ∧ chain m next l end.

Definition list_ok (m : gmap Z Z) P q t c : Prop := ∃ head l, heads_ q !! c = Some head ∧ chain m head l ∧ counts_ q !! c = Some (Z.of_nat (length l)) ∧
  Z.of_nat (length l) <= kMaxCached ∧ NoDup l ∧ ∀ p, p ∈ l ↔ P !! p = Some (Cached t c).

Definition pool_ok (m : gmap Z Z) P q t : Prop := length (heads_ q) = 16%nat ∧ length (counts_ q) = 16%nat ∧ ∀ c, (c < 16)%nat → list_ok m P q t c.

Record inv w P : Prop := {
  i_heap : heap_ok (hp w) P;
  i_pool t : pool_ok (mem (hp w)) P (local w t) t;
  i_frames p sz : frames w !! p = Some sz ↔ P !! p = Some (Live sz)
}.

(** * Blocks *)

(** A block lies in its region, aligned. *)
Lemma block_region h P p x : heap_ok h P → P !! p = Some x →
  ∃ raw, regions h !! raw = Some (space x + 72) ∧ mem h !! (p - 8) = Some raw ∧ p = align_up (raw + 8) ∧ 0 < raw ∧ raw + 8 <= p ∧ p + space x <= raw + (space x + 72) ∧ p mod 64 = 0.
Proof.
  intros Hh Hp. destruct (h_block _ _ Hh _ _ Hp) as [(raw & H1 & H2 & ->) Hs]. pose proof (h_bound _ _ Hh _ _ H1). pose proof (space_bound _ Hs).
  destruct (align_up_spec (raw + 8)) as [? ?]; [lia|]. exists raw. split_and!; (done || lia).
Qed.

Lemma block_pos h P p x : heap_ok h P → P !! p = Some x → 0 < p.
Proof. intros Hh Hp. destruct (block_region _ _ _ _ Hh Hp) as (raw & _ & _ & _ & ? & ? & _). lia. Qed.

(** Words of different blocks are different. *)
Lemma blocks_apart h P p1 x1 p2 x2 a1 a2 : heap_ok h P → P !! p1 = Some x1 → P !! p2 = Some x2 → p1 ≠ p2 →
  p1 - 8 <= a1 < p1 + space x1 ∨ a1 = p1 - 8 → p2 - 8 <= a2 < p2 + space x2 ∨ a2 = p2 - 8 → a1 ≠ a2.
Proof.
  intros Hh H1 H2 Hn Ha1 Ha2. destruct (block_region _ _ _ _ Hh H1) as (r1 & R1 & _ & E1 & ? & ? & ? & _). destruct (block_region _ _ _ _ Hh H2) as (r2 & R2 & _ & E2 & ? & ? & ? & _).
  assert (r1 ≠ r2) by congruence. pose proof (space_bound _ (proj2 (h_block _ _ Hh _ _ H1))). pose proof (space_bound _ (proj2 (h_block _ _ Hh _ _ H2))).
  destruct (h_apart _ _ Hh r1 _ r2 _ ltac:(done) R1 R2); lia.
Qed.

Lemma valid_in h raw n a : regions h !! raw = Some n → raw <= a → a + 8 <= raw + n → valid h a = true.
Proof. intros Hr H1 H2. apply existsb_exists. exists (raw, n). split; [by apply list_elem_of_In, elem_of_map_to_list|]. unfold within. cbn. lia. Qed.

Lemma valid_block h P p x a : heap_ok h P → P !! p = Some x → p - 8 <= a → a + 8 <= p + space x ∨ a = p - 8 → valid h a = true.
Proof.
  intros Hh Hp H1 H2. destruct (block_region _ _ _ _ Hh Hp) as (raw & R & _ & _ & ? & ? & ? & _). pose proof (space_bound _ (proj2 (h_block _ _ Hh _ _ Hp))).
  apply (valid_in _ raw (space x + 72)); [done|lia|lia].
Qed.

(** * Allocation from [malloc] *)

Lemma malloc_ok_facts h n raw : malloc_ok h n raw = true → 0 < raw ∧ raw + n <= 2 ^ 47 ∧ ∀ r m, regions h !! r = Some m → raw + n <= r ∨ r + m <= raw.
Proof.
  unfold malloc_ok. rewrite !andb_true_iff. intros [[[H1 _] H2] H3]. split_and!; [lia|lia|]. intros r m Hr. rewrite forallb_forall in H3.
  specialize (H3 (r, m) ltac:(by apply list_elem_of_In, elem_of_map_to_list)). unfold apart in H3. cbn in H3. lia.
Qed.

(** What is known of a new block. *)
Definition fresh_block h P (n raw p : Z) h' : Prop :=
  P !! p = None ∧ 0 < p ∧ mem h' = <[p - 8 := raw]> (mem h) ∧ (∀ x, space x = n → sound x → heap_ok h' (<[p := x]> P)) ∧ (∀ p' x, P !! p' = Some x → p' ≠ p - 8).

Lemma frame_alloc_ok h P n raw o : heap_ok h P → 0 <= n < 2 ^ 46 + 64 → frame_alloc h n raw = Some o →
  o = Done (None, h) ∨ ∃ p h', o = Done (Some p, h') ∧ fresh_block h P n raw p h'.
Proof.
  intros Hh Hn. unfold frame_alloc, kFrameAlign. destruct (raw =? 0); [intros [= <-]; by left|]. rewrite (wrap_small 64 (n + 64 + 8)) by lia.
  destruct (malloc_ok h (n + 64 + 8) raw) eqn:Em; [|done]. apply malloc_ok_facts in Em as (H0 & H47 & Ha). rewrite (wrap_small 64 (raw + 8)) by lia.
  destruct (align_up_spec (raw + 8)) as [Hmod Hal]; [lia|]. set (p := align_up (raw + 8)) in *.
  assert (Hnone : regions h !! raw = None) by (destruct (regions h !! raw) as [m|] eqn:E; [|done]; pose proof (h_bound _ _ Hh _ _ E); destruct (Ha _ _ E); lia).
  assert (Hsep : ∀ p' x, P !! p' = Some x → (p' <= raw ∨ raw + n + 72 <= p' - 8) ∧ p' ≠ p - 8).
  { intros p' x Hp. destruct (block_region _ _ _ _ Hh Hp) as (r & R & _ & _ & ? & ? & ? & Hm'). split; [|intros ->; clear -Hm' Hmod; Z.to_euclidean_division_equations; lia]. pose proof (space_bound _ (proj2 (h_block _ _ Hh _ _ Hp))). destruct (Ha _ _ R); lia. }
  unfold store. rewrite (valid_in _ raw (n + 64 + 8)) by (try apply lookup_insert_eq; lia). cbn. intros [= <-]. right. eexists p, _. split; [done|].
  assert (HP : P !! p = None) by (destruct (P !! p) as [x|] eqn:E; [|done]; destruct (Hsep _ _ E) as [[?|?] _]; lia).
  split_and!; [done|lia|done| |intros p' x Hp; by destruct (Hsep _ _ Hp)].
  intros x Hx Hs. split; cbn.
  - intros p' x' [[<- <-]|[Hne Hp]]%lookup_insert_Some.
    + split; [|done]. exists raw. cbn. rewrite !lookup_insert_eq. split_and!; [f_equal; lia|done|done].
    + destruct (h_block _ _ Hh _ _ Hp) as [(r & R1 & R2 & R3) ?]. split; [|done]. exists r. cbn. rewrite !lookup_insert_ne by (congruence || lia). done.
  - intros r m [[<- <-]|[Hne Hr]]%lookup_insert_Some; [lia|by apply (h_bound _ _ Hh)].
  - intros r1 n1 r2 n2 Hne [[<- <-]|[_ Hr1]]%lookup_insert_Some [[<- <-]|[_ Hr2]]%lookup_insert_Some; [done|apply Ha in Hr2; lia|apply Ha in Hr1; lia|by eapply (h_apart _ _ Hh)].
  - intros r m [[<- <-]|[Hne Hr]]%lookup_insert_Some; [exists x; apply lookup_insert_eq|]. destruct (h_all _ _ Hh _ _ Hr) as [y Hy].
    destruct (decide (p = align_up (r + 8))) as [<-|?]; [exists x; apply lookup_insert_eq|exists y; by rewrite lookup_insert_ne].
Qed.

(** A block goes back to [malloc]. *)
Lemma frame_free_ok h P p x : heap_ok h P → P !! p = Some x → ∃ h', frame_free h p = Done h' ∧ mem h' = mem h ∧ heap_ok h' (delete p P).
Proof.
  intros Hh Hp. destruct (block_region _ _ _ _ Hh Hp) as (raw & R & M & E & ? & ? & ? & _). pose proof (block_pos _ _ _ _ Hh Hp).
  unfold frame_free. rewrite (proj2 (Z.eqb_neq p 0)) by lia. unfold load. rewrite (valid_block _ _ _ _ _ Hh Hp) by (lia || by right). rewrite M. cbn.
  unfold free. rewrite decide_True by by apply elem_of_dom. eexists. split; [done|]. split; [done|]. split; cbn.
  - intros p' x' [Hne Hp']%lookup_delete_Some. destruct (h_block _ _ Hh _ _ Hp') as [(r & R1 & R2 & R3) ?]. split; [|done]. exists r. cbn. rewrite lookup_delete_ne by congruence. done.
  - intros r n [_ Hr]%lookup_delete_Some. by apply (h_bound _ _ Hh).
  - intros r1 n1 r2 n2 Hne [_ Hr1]%lookup_delete_Some [_ Hr2]%lookup_delete_Some. by eapply (h_apart _ _ Hh).
  - intros r n [Hne Hr]%lookup_delete_Some. destruct (h_all _ _ Hh _ _ Hr) as [y Hy]. exists y. apply lookup_delete_Some. split; [|done].
    intros Ep. pose proof (h_bound _ _ Hh _ _ Hr). pose proof (h_bound _ _ Hh _ _ R). destruct (align_up_spec (r + 8)) as [_ ?]; [lia|].
    destruct (h_apart _ _ Hh r _ raw _ ltac:(congruence) Hr R); lia.
Qed.

(** * Lists *)

Lemma free_chain_frame m m' head l : chain m head l → (∀ p, p ∈ l → m' !! p = m !! p) → chain m' head l.
Proof.
  revert head. induction l as [|p l IH]; cbn; [done|]. intros head (-> & ? & next & Hn & Hc) Hm. split_and!; [done|done|]. exists next.
  rewrite Hm by by left. split; [done|]. apply IH; [done|]. intros p' Hp. apply Hm. by right.
Qed.

Lemma pool_frame m m' P P' q t : pool_ok m P q t → (∀ p c, P !! p = Some (Cached t c) → m' !! p = m !! p) →
  (∀ p c, P' !! p = Some (Cached t c) ↔ P !! p = Some (Cached t c)) → pool_ok m' P' q t.
Proof.
  intros (Hh & Hc & Hl) Hm HP. split_and!; [done|done|]. intros c Hlt. destruct (Hl c Hlt) as (head & l & H1 & H2 & H3 & H4 & H5 & H6). exists head, l.
  split_and!; try done; [|intros p; by rewrite HP]. eapply free_chain_frame; [done|]. intros p Hp. apply (Hm p c). by apply H6.
Qed.

Lemma local_insert h ps f g t t' q : local (mkWorld h (<[t := q]> ps) f g) t' = if decide (t = t') then q else default IOFramePool_new (ps !! t').
Proof. unfold local. cbn. destruct (decide (t = t')) as [->|Hn]; [by rewrite lookup_insert_eq|by rewrite lookup_insert_ne]. Qed.

Lemma local_same w h f g t t' : local (mkWorld h (<[t := local w t]> (pools w)) f g) t' = local w t'.
Proof. rewrite local_insert. destruct (decide (t = t')) as [->|]; done. Qed.

Lemma size_small sz : size_ok sz = true → 0 <= sz < 2 ^ 46.
Proof. unfold size_ok. lia. Qed.

(** The index of a class. *)
Lemma class_index sz : size_ok sz = true → pooled sz = true → ∃ c, (c < 16)%nat ∧ class_of sz = Z.of_nat c + 1 ∧ room sz = (Z.of_nat c + 1) * kClass.
Proof.
  intros Hs Hp. pose proof Hp as Hp'. unfold pooled, kClasses, kMaxSize, kClass in Hp'. change (1024 / 64) with 16 in Hp'.
  pose proof (size_small _ Hs). assert (0 <= class_of sz) by (rewrite class_of_small by lia; apply Z.div_pos; lia).
  exists (Z.to_nat (class_of sz - 1)). split_and!; [lia|lia|]. unfold room. rewrite Hp. f_equal. lia.
Qed.

(** A new block for a coroutine. *)
Lemma inv_malloc w P t sz raw p h' : inv w P → size_ok sz = true → fresh_block (hp w) P (room sz) raw p h' →
  inv (mkWorld h' (<[t := local w t]> (pools w)) (<[p := sz]> (frames w)) (gone w)) (<[p := Live sz]> P).
Proof.
  intros [Hh Hp Hf] Hs (HP & H0 & Hm & Hok & Hne). split; cbn.
  - apply Hok; [done|]. done.
  - intros t'. rewrite local_same. eapply (pool_frame _ _ P); [apply Hp| |].
    + intros p' c Hc. rewrite Hm, lookup_insert_ne; [done|]. apply not_eq_sym. by eapply Hne.
    + intros p' c. destruct (decide (p = p')) as [<-|Hn]; [|by rewrite lookup_insert_ne]. rewrite lookup_insert_eq, HP. done.
  - intros p' sz'. destruct (decide (p = p')) as [<-|Hn]; [rewrite !lookup_insert_eq; naive_solver|by rewrite !lookup_insert_ne].
Qed.

(** Nothing has changed but the pool that a thread now has. *)
Lemma inv_touch_pool w P t : inv w P → inv (mkWorld (hp w) (<[t := local w t]> (pools w)) (frames w) (gone w)) P.
Proof. intros [Hh Hp Hf]. split; [done| |done]. intros t'. rewrite local_same. apply Hp. Qed.

(** The other lists do not change when a block changes its place. *)
Lemma lists_frame m m' P P' q t c p : pool_ok m P q t → (∀ p', p' ≠ p → m' !! p' = m !! p') → (∀ p', p' ≠ p → P' !! p' = P !! p') →
  (∀ c', c' ≠ c → P !! p ≠ Some (Cached t c') ∧ P' !! p ≠ Some (Cached t c')) → ∀ c', (c' < 16)%nat → c' ≠ c → list_ok m' P' q t c'.
Proof.
  intros (_ & _ & Hl) Hm HP Hc c' Hlt Hn. destruct (Hl c' Hlt) as (head & l & H1 & H2 & H3 & H4 & H5 & H6). exists head, l. destruct (Hc c' Hn) as [N1 N2].
  split_and!; try done.
  - eapply free_chain_frame; [done|]. intros p' Hp. apply Hm. intros ->. by apply N1, H6.
  - intros p'. rewrite H6. destruct (decide (p' = p)) as [->|?]; [split; intros; done|by rewrite HP].
Qed.

(** Another list than the one written. *)
Lemma list_other m P q q' t c c' : list_ok m P q t c' → c' ≠ c → heads_ q' !! c' = heads_ q !! c' → counts_ q' !! c' = counts_ q !! c' → list_ok m P q' t c'.
Proof. intros (head & l & ?) Hn E1 E2. exists head, l. by rewrite E1, E2. Qed.

Lemma awrite_insert {A} (l : list A) c y : (c < length l)%nat → awrite l (Z.of_nat c) y = Done (<[c := y]> l).
Proof. intros Hc. rewrite awrite_in by lia. by rewrite Nat2Z.id. Qed.

(** A block keeps its region when it changes its place. *)
Lemma heap_replace h P p x x' : heap_ok h P → P !! p = Some x → space x' = space x → sound x' → heap_ok h (<[p := x']> P).
Proof.
  intros [HB HN HA HL] Hp Es Hs. split; [|done|done|].
  - intros p' y [[<- <-]|[_ Hy]]%lookup_insert_Some; [|by apply HB]. rewrite Es. split; [|done]. by apply HB in Hp as [? _].
  - intros raw n Hr. destruct (HL raw n Hr) as [y Hy]. destruct (decide (p = align_up (raw + 8))) as [<-|?]; [exists x'; apply lookup_insert_eq|exists y; by rewrite lookup_insert_ne].
Qed.

(** A word is written that is not before a block. *)
Lemma heap_write h P a v : heap_ok h P → (∀ p x, P !! p = Some x → a ≠ p - 8) → heap_ok {| h with mem := <[a := v]> (mem h) |} P.
Proof.
  intros [HB HN HA HL] Ha. split; try done. intros p x Hp. destruct (HB _ _ Hp) as [(raw & R1 & R2 & R3) ?]. split; [|done]. exists raw. cbn.
  rewrite lookup_insert_ne; [done|by eapply Ha].
Qed.

(** Words of blocks are not before a block: they are aligned, or in another region. *)
Lemma word_not_header h P p x k p' x' : heap_ok h P → P !! p = Some x → 0 <= k → 8 * k + 8 <= space x → P !! p' = Some x' → p + 8 * k ≠ p' - 8.
Proof.
  intros Hh Hp Hk Hs Hp'. destruct (decide (p = p')) as [->|Hn]; [lia|]. apply (blocks_apart _ _ _ _ _ _ _ _ Hh Hp Hp' Hn); lia.
Qed.

(** The pools of the other threads, when a block changes its place. *)
Lemma pools_move w P t p y m' : inv w P → (∀ p', p' ≠ p → m' !! p' = mem (hp w) !! p') → (∀ t' c, t' ≠ t → P !! p ≠ Some (Cached t' c)) →
  (∀ t' c, t' ≠ t → y ≠ Cached t' c) → ∀ t', t' ≠ t → pool_ok m' (<[p := y]> P) (local w t') t'.
Proof.
  intros Hi Hm Hc Hy t' Hn. eapply (pool_frame _ _ P); [apply (i_pool _ _ Hi)| |].
  - intros p' c Hpc. apply Hm. intros ->. by eapply Hc.
  - intros p' c. destruct (decide (p = p')) as [<-|?]; [|by rewrite lookup_insert_ne]. rewrite lookup_insert_eq. split; [intros [= ?]; by exfalso; eapply Hy|by intros ?%Hc].
Qed.

(** The first block of a list goes to a coroutine. *)
Lemma inv_pop w P t sz c p l next : inv w P → size_ok sz = true → room sz = (Z.of_nat c + 1) * kClass → (c < 16)%nat →
  heads_ (local w t) !! c = Some p → chain (mem (hp w)) p (p :: l) → mem (hp w) !! p = Some next → counts_ (local w t) !! c = Some (Z.of_nat (length (p :: l))) →
  Z.of_nat (length (p :: l)) <= kMaxCached → NoDup (p :: l) → (∀ p', p' ∈ p :: l ↔ P !! p' = Some (Cached t c)) →
  inv (mkWorld (hp w) (<[t := mkPool (<[c := next]> (heads_ (local w t))) (<[c := Z.of_nat (length l)]> (counts_ (local w t)))]> (pools w)) (<[p := sz]> (frames w)) (gone w)) (<[p := Live sz]> P).
Proof.
  intros Hi Hs Hroom Hc Hhd (_ & Hp0 & nx & Hnx & Hch) Hmem Hcnt Hlen Hnd Hin. rewrite Hmem in Hnx. injection Hnx as <-.
  assert (Hp : P !! p = Some (Cached t c)) by (apply Hin; by left). apply NoDup_cons in Hnd as [Hnin Hnd]. pose proof (i_pool _ _ Hi t) as Hpt. destruct Hpt as (L1 & L2 & L3).
  split; cbn.
  - eapply heap_replace; [apply (i_heap _ _ Hi)|done|done|done].
  - intros t'. rewrite local_insert. destruct (decide (t = t')) as [<-|Hn].
    + split_and!; cbn; rewrite ?length_insert; try done. intros c' Hc'. destruct (decide (c' = c)) as [->|Hcn].
      * exists next, l. cbn. rewrite !list_lookup_insert_eq by lia. split_and!; [done|done|done|cbn in Hlen; lia|done|].
        intros p'. destruct (decide (p = p')) as [<-|?]; [rewrite lookup_insert_eq; split; [done|intros [=]]|]. rewrite lookup_insert_ne by done. rewrite <- Hin, elem_of_cons. naive_solver.
      * eapply (list_other _ _ (local w t) _ _ c); [|done|cbn; by rewrite list_lookup_insert_ne..].
        apply (lists_frame (mem (hp w)) _ P _ _ _ c p); [by repeat split| | | |done|done]; [done|intros; by rewrite lookup_insert_ne|].
        intros c'' Hcn''. rewrite lookup_insert_eq, Hp. split; congruence.
    + eapply (pools_move w P t p); try done; congruence.
  - intros p' sz'. destruct (decide (p = p')) as [<-|Hn]; [rewrite !lookup_insert_eq; naive_solver|rewrite !lookup_insert_ne by done; apply (i_frames _ _ Hi)].
Qed.

(** A block goes to the list of its class. *)
Lemma inv_push w P t sz c p head l : inv w P → frames w !! p = Some sz → room sz = (Z.of_nat c + 1) * kClass → (c < 16)%nat →
  heads_ (local w t) !! c = Some head → chain (mem (hp w)) head l → counts_ (local w t) !! c = Some (Z.of_nat (length l)) →
  Z.of_nat (length l) < kMaxCached → NoDup l → (∀ p', p' ∈ l ↔ P !! p' = Some (Cached t c)) →
  inv (mkWorld {| (hp w) with mem := <[p := head]> (mem (hp w)) |}
         (<[t := mkPool (<[c := p]> (heads_ (local w t))) (<[c := Z.of_nat (S (length l))]> (counts_ (local w t)))]> (pools w)) (delete p (frames w)) (gone w)) (<[p := Cached t c]> P).
Proof.
  intros Hi Hfr Hroom Hc Hhd Hch Hcnt Hlen Hnd Hin. apply (i_frames _ _ Hi) in Hfr as Hp. pose proof (i_heap _ _ Hi) as Hh. pose proof (block_pos _ _ _ _ Hh Hp).
  assert (Hnin : p ∉ l) by (rewrite Hin, Hp; congruence). destruct (i_pool _ _ Hi t) as (L1 & L2 & L3).
  assert (Hok : heap_ok {| (hp w) with mem := <[p := head]> (mem (hp w)) |} P).
  { apply heap_write; [done|]. intros p' x' Hp'. replace p with (p + 8 * 0) by lia. eapply word_not_header; [done|done|lia|cbn; rewrite Hroom; unfold kClass; lia|done]. }
  split; cbn.
  - eapply heap_replace; [exact Hok|done|done|done].
  - intros t'. rewrite local_insert. destruct (decide (t = t')) as [<-|Hn].
    + split_and!; cbn; rewrite ?length_insert; try done. intros c' Hc'. destruct (decide (c' = c)) as [->|Hcn].
      * exists p, (p :: l). cbn [heads_ counts_]. rewrite !list_lookup_insert_eq by lia. split_and!; [done| |done|cbn [length]; lia|by apply NoDup_cons|].
        -- cbn. split_and!; [done|lia|]. exists head. rewrite lookup_insert_eq. split; [done|]. eapply free_chain_frame; [done|]. intros p' Hp'. rewrite lookup_insert_ne; [done|]. by intros ->.
        -- intros p'. rewrite elem_of_cons. destruct (decide (p = p')) as [<-|?]; [rewrite lookup_insert_eq; tauto|]. rewrite lookup_insert_ne by done. rewrite <- Hin. naive_solver.
      * eapply (list_other _ _ (local w t) _ _ c); [|done|cbn; by rewrite list_lookup_insert_ne..].
        apply (lists_frame (mem (hp w)) _ P _ _ _ c p); [by repeat split|intros; by rewrite lookup_insert_ne|intros; by rewrite lookup_insert_ne| |done|done].
        intros c'' Hcn''. rewrite lookup_insert_eq, Hp. split; congruence.
    + eapply (pools_move w P t p); try done; try congruence. intros; by rewrite lookup_insert_ne.
  - intros p' sz'. destruct (decide (p = p')) as [<-|Hn]; [rewrite lookup_insert_eq, lookup_delete_eq; naive_solver|rewrite lookup_insert_ne, lookup_delete_ne by done; apply (i_frames _ _ Hi)].
Qed.

(** A block goes back to [malloc]. *)
Lemma heap_inv_free w P t p sz h' : inv w P → frames w !! p = Some sz → mem h' = mem (hp w) → heap_ok h' (delete p P) →
  inv (mkWorld h' (<[t := local w t]> (pools w)) (delete p (frames w)) (gone w)) (delete p P).
Proof.
  intros Hi Hfr Hm Hh. apply (i_frames _ _ Hi) in Hfr as Hp. split; cbn; [done| |].
  - intros t'. rewrite local_same, Hm. eapply (pool_frame _ _ P); [apply (i_pool _ _ Hi)|done|].
    intros p' c. destruct (decide (p = p')) as [<-|?]; [rewrite lookup_delete_eq, Hp; done|by rewrite lookup_delete_ne].
  - intros p' sz'. destruct (decide (p = p')) as [<-|Hn]; [rewrite !lookup_delete_eq; done|rewrite !lookup_delete_ne by done; apply (i_frames _ _ Hi)].
Qed.

(** A coroutine writes into its frame. *)
Lemma heap_inv_write w P p k v sz : inv w P → frames w !! p = Some sz → 0 <= k → 8 * k + 8 <= sz → inv {| w with hp := {| (hp w) with mem := <[p + 8 * k := v]> (mem (hp w)) |} |} P.
Proof.
  intros Hi Hfr Hk Hs. apply (i_frames _ _ Hi) in Hfr as Hp. pose proof (i_heap _ _ Hi) as Hh. pose proof (room_bound _ (proj2 (h_block _ _ Hh _ _ Hp))) as Hr.
  split; cbn; [apply heap_write; [done|intros; eapply word_not_header; eauto; cbn; lia]| |apply (i_frames _ _ Hi)].
  intros t. eapply (pool_frame _ _ P); [apply (i_pool _ _ Hi t)| |done]. intros p' c Hp'. apply lookup_insert_ne.
  destruct (decide (p = p')) as [<-|Hn]; [congruence|]. apply (blocks_apart _ _ _ _ _ _ _ _ Hh Hp Hp' Hn); cbn; unfold kClass; lia.
Qed.

(** * Operations *)

(** The list of a class, as [allocate] and [deallocate] read it. *)
Lemma list_reads w P t c : inv w P → (c < 16)%nat → ∃ head l, aread (heads_ (local w t)) (Z.of_nat c) = Done head ∧ aread (counts_ (local w t)) (Z.of_nat c) = Done (Z.of_nat (length l)) ∧
  heads_ (local w t) !! c = Some head ∧ chain (mem (hp w)) head l ∧ counts_ (local w t) !! c = Some (Z.of_nat (length l)) ∧
  Z.of_nat (length l) <= kMaxCached ∧ NoDup l ∧ (∀ p, p ∈ l ↔ P !! p = Some (Cached t c)).
Proof.
  intros Hi Hc. destruct (i_pool _ _ Hi t) as (L1 & L2 & L3). destruct (L3 c Hc) as (head & l & H1 & H2 & H3 & H4 & H5 & H6). exists head, l.
  rewrite !aread_nat, H1, H3. done.
Qed.

Lemma new_keeps w P t sz raw (o : outcome world) : inv w P → act (New t sz raw) w = Some o → ∃ w' P', o = Done w' ∧ inv w' P'.
Proof.
  intros Hi. cbn [act]. destruct (size_ok sz) eqn:Hs; [|done]. destruct (bool_decide (t ∉ gone w)); [cbn [andb]|done]. pose proof (size_small _ Hs) as Hsm. unfold allocate.
  assert (Hal : ∀ n o', n = room sz → frame_alloc (hp w) n raw = Some o' →
     ∃ w' P', ('(r, q, h) ← (r ← o'; Done (r.1, local w t, r.2)); Done (mkWorld h (<[t := q]> (pools w)) (match r with Some p => <[p := sz]> (frames w) | None => frames w end) (gone w))) = Done w' ∧ inv w' P').
  { intros n o' -> Ha. pose proof (room_bound _ Hs). destruct (frame_alloc_ok (hp w) P (room sz) raw o' (i_heap _ _ Hi) ltac:(lia) Ha) as [->|(p & h' & -> & Hf)].
    - eexists _, P. split; [done|]. by apply inv_touch_pool.
    - eexists _, _. split; [done|]. by eapply inv_malloc. }
  destruct (pooled sz) eqn:Ep.
  - destruct (class_index _ Hs Ep) as (c & Hc & Ecls & Eroom). unfold pooled in Ep. apply negb_true_iff in Ep. rewrite Ep, Ecls. replace (Z.of_nat c + 1 - 1) with (Z.of_nat c) by lia.
    destruct (list_reads w P t c Hi Hc) as (head & l & R1 & R2 & H1 & H2 & H3 & H4 & H5 & H6). rewrite R1, R2. destruct (Z.eqb_spec head 0) as [E0|E0].
    + destruct (frame_alloc _ _ raw) as [o'|] eqn:Ea; [|done]. intros [= <-]. apply (Hal _ _ ltac:(reflexivity)).
      rewrite Eroom, <- Ea. f_equal. rewrite wrap_small; [done|unfold kClass; lia].
    + destruct l as [|p l]; [done|]. pose proof H2 as (-> & _ & next & Hm & _). assert (Hp : P !! p = Some (Cached t c)) by (apply H6; by left).
      unfold load. rewrite (valid_block _ _ _ _ _ (i_heap _ _ Hi) Hp) by (cbn; unfold kClass; lia). rewrite Hm. destruct (i_pool _ _ Hi t) as (L1 & L2 & _).
      orun. rewrite !awrite_insert by lia. orun. intros [= <-]. eexists _, _. split; [done|].
      replace (wrap 64 (Z.of_nat (S (length l)) - 1)) with (Z.of_nat (length l)) by (rewrite wrap_small; cbn [length] in *; unfold kMaxCached in *; lia).
      by eapply inv_pop.
  - assert (Er : room sz = sz) by (unfold room; by rewrite Ep). unfold pooled in Ep. apply negb_false_iff in Ep. rewrite Ep.
    destruct (frame_alloc _ _ raw) as [o'|] eqn:Ea; [|done]. intros [= <-]. by apply (Hal sz).
Qed.

Lemma delete_keeps w P t p (o : outcome world) : inv w P → act (Delete t p) w = Some o → ∃ w' P', o = Done w' ∧ inv w' P'.
Proof.
  intros Hi. cbn [act]. intros (sz & Hfr & Hs)%bind_Some. destruct (bool_decide (t ∉ gone w)); [injection Hs as <-|done]. apply (i_frames _ _ Hi) in Hfr as Hp. pose proof (i_heap _ _ Hi) as Hh.
  pose proof (proj2 (h_block _ _ Hh _ _ Hp)) as Hs. cbn in Hs. unfold deallocate. destruct (frame_free_ok _ _ _ _ Hh Hp) as (h' & Ef & Em & Hh').
  assert (Hf : ∃ w' P', ('(q, h) ← (h ← frame_free (hp w) p; Done (local w t, h)); Done (mkWorld h (<[t := q]> (pools w)) (delete p (frames w)) (gone w))) = Done w' ∧ inv w' P').
  { rewrite Ef. eexists _, _. split; [done|]. by eapply heap_inv_free. }
  destruct (pooled sz) eqn:Ep.
  - destruct (class_index _ Hs Ep) as (c & Hc & Ecls & Eroom). unfold pooled in Ep. apply negb_true_iff in Ep. rewrite Ep, Ecls. replace (Z.of_nat c + 1 - 1) with (Z.of_nat c) by lia.
    destruct (list_reads w P t c Hi Hc) as (head & l & R1 & R2 & H1 & H2 & H3 & H4 & H5 & H6). rewrite R1, R2. orun. destruct (Z.leb_spec kMaxCached (Z.of_nat (length l))) as [Hl|Hl]; [done|].
    unfold store. rewrite (valid_block _ _ _ _ _ Hh Hp) by (cbn; rewrite ?Eroom; unfold kClass; lia). destruct (i_pool _ _ Hi t) as (L1 & L2 & _). orun. rewrite !awrite_insert by lia. orun.
    eexists _, _. split; [done|]. replace (wrap 64 (Z.of_nat (length l) + 1)) with (Z.of_nat (S (length l))) by (rewrite wrap_small; unfold kMaxCached in *; lia).
    by eapply inv_push.
  - unfold pooled in Ep. apply negb_false_iff in Ep. by rewrite Ep.
Qed.

Lemma write_keeps w P p k v (o : outcome world) : inv w P → act (Write p k v) w = Some o → ∃ w' P', o = Done w' ∧ inv w' P'.
Proof.
  intros Hi. cbn [act]. intros (sz & Hfr & Hs)%bind_Some. destruct (Z.leb_spec 0 k), (Z.leb_spec (8 * k + 8) sz); try done. injection Hs as <-.
  apply (i_frames _ _ Hi) in Hfr as Hp. pose proof (i_heap _ _ Hi) as Hh. pose proof (room_bound _ (proj2 (h_block _ _ Hh _ _ Hp))) as Hr.
  unfold store. rewrite (valid_block _ _ _ _ _ Hh Hp) by (cbn; lia). eexists _, P. split; [done|]. by eapply heap_inv_write.
Qed.

(** * The end of a thread *)

Definition without (l : list Z) P : gmap Z place := filter (λ px, px.1 ∉ l) P.

Lemma without_Some l P p x : without l P !! p = Some x ↔ P !! p = Some x ∧ p ∉ l.
Proof. apply map_lookup_filter_Some. Qed.

Lemma without_none P : without [] P = P.
Proof. apply map_eq. intros p. apply option_eq. intros x. rewrite without_Some. split; [tauto|]. intros. split; [done|apply not_elem_of_nil]. Qed.

Lemma without_app l1 l2 P : without l2 (without l1 P) = without (l1 ++ l2) P.
Proof. apply map_eq. intros p. apply option_eq. intros x. rewrite !without_Some, not_elem_of_app. tauto. Qed.

Lemma without_delete p l P : without l (delete p P) = without (p :: l) P.
Proof. apply map_eq. intros p'. apply option_eq. intros x. rewrite !without_Some, lookup_delete_Some, not_elem_of_cons. naive_solver. Qed.

Lemma free_list_ok fuel h P head l : (length l <= fuel)%nat → heap_ok h P → chain (mem h) head l → NoDup l → (∀ p, p ∈ l → ∃ t c, P !! p = Some (Cached t c)) →
  ∃ h', free_list fuel head h = Done h' ∧ mem h' = mem h ∧ heap_ok h' (without l P).
Proof.
  revert fuel h P head. induction l as [|p l IH]; intros fuel h P head Hl Hh Hc Hnd Hin.
  - cbn in Hc. subst head. exists h. rewrite without_none. by destruct fuel.
  - destruct Hc as (-> & H0 & next & Hm & Hc). destruct fuel as [|fuel]; [cbn in Hl; lia|]. apply NoDup_cons in Hnd as [Hnin Hnd].
    destruct (Hin p ltac:(by left)) as (t & c & Hp). cbn [free_list]. rewrite (proj2 (Z.eqb_neq p 0) H0). unfold load.
    rewrite (valid_block _ _ _ _ _ Hh Hp) by (cbn; unfold kClass; lia). rewrite Hm. orun. destruct (frame_free_ok _ _ _ _ Hh Hp) as (h1 & -> & Em & Hh1). orun.
    destruct (IH fuel h1 (delete p P) next) as (h' & -> & E' & Hh'); [cbn in Hl; lia|done|by rewrite Em|done| |].
    { intros p' Hp'. destruct (Hin p' ltac:(by right)) as (t' & c' & ?). exists t', c'. apply lookup_delete_Some. split; [by intros ->|done]. }
    exists h'. rewrite <- without_delete, E'. done.
Qed.

Lemma free_lists_ok fuel h P heads ls : Forall2 (chain (mem h)) heads ls → Forall (λ l, (length l <= fuel)%nat) ls → heap_ok h P → NoDup (concat ls) →
  (∀ p, p ∈ concat ls → ∃ t c, P !! p = Some (Cached t c)) → ∃ h', free_lists fuel heads h = Done h' ∧ mem h' = mem h ∧ heap_ok h' (without (concat ls) P).
Proof.
  revert ls h P. induction heads as [|head heads IH]; intros ls h P Hf Hl Hh Hnd Hin.
  - apply Forall2_nil_inv_l in Hf as ->. exists h. by rewrite without_none.
  - apply Forall2_cons_inv_l in Hf as (l & ls' & Hc & Hf & ->). apply Forall_cons in Hl as [Hl Hls]. cbn [concat] in *. apply NoDup_app in Hnd as (N1 & N2 & N3).
    destruct (free_list_ok fuel h P head l Hl Hh Hc N1) as (h1 & E1 & M1 & Hh1); [intros p Hp; apply Hin, elem_of_app; by left|]. cbn [free_lists]. rewrite E1. orun.
    destruct (IH ls' h1 (without l P)) as (h' & -> & M' & Hh'); [by rewrite M1|done|done|done| |].
    { intros p Hp. destruct (Hin p ltac:(apply elem_of_app; by right)) as (t & c & ?). exists t, c. apply without_Some. split; [done|]. intros Hp'. by apply (N2 p). }
    exists h'. rewrite <- without_app, M'. done.
Qed.

(** One list for every element. *)
Lemma choose_lists {A B} (R : nat → A → B → Prop) (l : list A) : (∀ i (x : A), l !! i = Some x → ∃ y, R i x y) →
  ∃ ys, length ys = length l ∧ ∀ i (x : A) y, l !! i = Some x → ys !! i = Some y → R i x y.
Proof.
  revert R. induction l as [|x l IH]; intros R H; [by exists []|]. destruct (H 0%nat x eq_refl) as [y Hy]. destruct (IH (λ i, R (S i))) as (ys & Hl & Hys); [intros i x'; apply (H (S i))|].
  exists (y :: ys). split; [cbn; lia|]. intros [|i] x' y'; [by intros [= <-] [= <-]|apply Hys].
Qed.

(** Lists of different classes have no block in common. *)
Lemma concat_NoDup (ls : list (list Z)) (g : Z → nat) : (∀ i l, ls !! i = Some l → NoDup l ∧ ∀ p, p ∈ l → g p = i) → NoDup (concat ls).
Proof.
  assert (H : ∀ k, (∀ i l, ls !! i = Some l → NoDup l ∧ ∀ p, p ∈ l → g p = (k + i)%nat) → NoDup (concat ls)); [|intros H1; by apply (H 0%nat)].
  induction ls as [|l ls IH]; intros k H; cbn; [constructor|]. destruct (H 0%nat l eq_refl) as [Hl Hk]. apply NoDup_app. split_and!; [done| |].
  - intros p Hp (l' & (i & Hi)%list_elem_of_lookup & Hp')%elem_of_concat. pose proof (Hk _ Hp). destruct (H (S i) l' Hi) as [_ H']. pose proof (H' _ Hp'). lia.
  - apply (IH (S k)). intros i l' Hi. destruct (H (S i) l' Hi) as [? H']. split; [done|]. intros p Hp. rewrite (H' _ Hp). lia.
Qed.

Definition class_at P p : nat := match P !! p with Some (Cached _ c) => c | _ => 0%nat end.

(** The lists of a thread. *)
Lemma pool_lists w P t : inv w P → ∃ ls, Forall2 (chain (mem (hp w))) (heads_ (local w t)) ls ∧ Forall (λ l, (length l <= Z.to_nat kMaxCached)%nat) ls ∧ NoDup (concat ls) ∧
  ∀ p, p ∈ concat ls ↔ ∃ c, P !! p = Some (Cached t c).
Proof.
  intros Hi. destruct (i_pool _ _ Hi t) as (L1 & L2 & L3).
  destruct (choose_lists (λ c head l, chain (mem (hp w)) head l ∧ Z.of_nat (length l) <= kMaxCached ∧ NoDup l ∧ ∀ p, p ∈ l ↔ P !! p = Some (Cached t c)) (heads_ (local w t))) as (ls & Hl & Hls).
  { intros c head Hc. destruct (L3 c) as (head' & l & H1 & H2 & H3 & H4 & H5 & H6); [apply lookup_lt_Some in Hc; lia|]. rewrite Hc in H1. injection H1 as <-. by exists l. }
  assert (Hat : ∀ c l, ls !! c = Some l → ∃ head, heads_ (local w t) !! c = Some head).
  { intros c l Hc. apply lookup_lt_is_Some. apply lookup_lt_Some in Hc. lia. }
  exists ls. split_and!.
  - apply Forall2_same_length_lookup_2; [done|]. intros c head l H1 H2. by apply (Hls c).
  - apply Forall_lookup. intros c l Hc. destruct (Hat _ _ Hc) as [head Hh]. destruct (Hls c head l Hh Hc) as (_ & ? & _). lia.
  - apply (concat_NoDup _ (class_at P)). intros c l Hc. destruct (Hat _ _ Hc) as [head Hh]. destruct (Hls c head l Hh Hc) as (_ & _ & ? & Hin). split; [done|].
    intros p Hp. apply Hin in Hp. unfold class_at. by rewrite Hp.
  - intros p. rewrite elem_of_concat. split.
    + intros (l & (c & Hc)%list_elem_of_lookup & Hp). destruct (Hat _ _ Hc) as [head Hh]. destruct (Hls c head l Hh Hc) as (_ & _ & _ & Hin). exists c. by apply Hin.
    + intros (c & Hp). pose proof (proj2 (h_block _ _ (i_heap _ _ Hi) _ _ Hp)) as Hs. cbn in Hs. destruct (lookup_lt_is_Some_2 ls c) as [l Hc]; [lia|].
      destruct (Hat _ _ Hc) as [head Hh]. destruct (Hls c head l Hh Hc) as (_ & _ & _ & Hin). exists l. split; [by eapply list_elem_of_lookup_2|]. by apply Hin.
Qed.

Lemma pool_new_ok m P t : (∀ p c, P !! p ≠ Some (Cached t c)) → pool_ok m P IOFramePool_new t.
Proof.
  intros Hn. split_and!; [done|done|]. intros c Hc. exists 0, []. cbn [heads_ counts_ IOFramePool_new]. rewrite !lookup_replicate_2 by done.
  split_and!; [done|done|done|done|constructor|]. intros p. split; [by intros ?%not_elem_of_nil|by intros ?%Hn].
Qed.

Lemma exit_keeps w P t (o : outcome world) : inv w P → act (Exit t) w = Some o → ∃ w' P', o = Done w' ∧ inv w' P'.
Proof.
  intros Hi. cbn [act]. destruct (bool_decide (t ∈ gone w)); [done|]. unfold IOFramePool_delete. destruct (pool_lists w P t Hi) as (ls & H1 & H2 & H3 & H4).
  destruct (free_lists_ok (Z.to_nat kMaxCached) _ _ _ _ H1 H2 (i_heap _ _ Hi) H3) as (h' & -> & Em & Hh); [intros p [c Hp]%H4; by exists t, c|]. orun. intros [= <-].
  eexists _, _. split; [done|]. split; cbn; [exact Hh| |].
  - intros t'. rewrite Em. destruct (decide (t = t')) as [<-|Hn].
    + replace (local _ t) with IOFramePool_new by (unfold local; cbn; by rewrite lookup_delete_eq). apply pool_new_ok. intros p c [Hp Hnin]%without_Some. apply Hnin, H4. by exists c.
    + replace (local _ t') with (local w t') by (unfold local; cbn; by rewrite lookup_delete_ne). eapply (pool_frame _ _ P); [apply (i_pool _ _ Hi)|done|].
      intros p c. rewrite without_Some, H4. naive_solver.
  - intros p sz. rewrite without_Some, H4, (i_frames _ _ Hi). naive_solver.
Qed.

Lemma pool_act w P (a : action) (o : outcome world) : inv w P → act a w = Some o → ∃ w' P', o = Done w' ∧ inv w' P'.
Proof. destruct a; [apply new_keeps|apply delete_keeps|apply write_keeps|apply exit_keeps]. Qed.

Lemma pool_run l w P (o : outcome world) : inv w P → run l w = Some o → ∃ w' P', o = Done w' ∧ inv w' P'.
Proof.
  revert w P. induction l as [|a l IH]; intros w P Hi; cbn; [intros [= <-]; by eexists _, _|].
  destruct (act a w) as [o1|] eqn:E; [|done]. destruct (pool_act _ _ _ _ Hi E) as (w1 & P1 & -> & Hi1). by apply (IH w1 P1).
Qed.

Lemma pool_world_new : inv world_new ∅.
Proof.
  split; [split; intros *; cbn; rewrite ?lookup_empty; done| |intros p sz; cbn; by rewrite !lookup_empty].
  intros t. apply pool_new_ok. intros p c. by rewrite lookup_empty.
Qed.

(** C17: however many threads allocate and free frames, whatever coroutines write into theirs and
    whichever thread frees them: no step is undefined (nothing is freed twice, no pointer
    of the lists is lost), every frame is 64-byte aligned and lies in memory that [malloc] gave
    out, two frames never overlap, no list exceeds its bound, and when every frame was
    freed and every thread has ended, all memory went back. *)
Theorem frame_pool_safe l (o : outcome world) : run l world_new = Some o → ∃ w, o = Done w ∧
  (∀ p sz, frames w !! p = Some sz → p mod 64 = 0 ∧ ∃ raw n, regions (hp w) !! raw = Some n ∧ raw <= p ∧ p + sz <= raw + n) ∧
  (∀ p1 s1 p2 s2, frames w !! p1 = Some s1 → frames w !! p2 = Some s2 → p1 ≠ p2 → p1 + s1 <= p2 ∨ p2 + s2 <= p1) ∧
  (∀ t n, n ∈ counts_ (local w t) → n <= kMaxCached) ∧
  (frames w = ∅ → pools w = ∅ → regions (hp w) = ∅).
Proof.
  intros Hr. destruct (pool_run _ _ _ _ pool_world_new Hr) as (w & P & -> & Hi). exists w. split; [done|]. pose proof (i_heap _ _ Hi) as Hh.
  assert (Hfr : ∀ p sz, frames w !! p = Some sz → P !! p = Some (Live sz)) by (intros; by apply (i_frames _ _ Hi)). split_and!.
  - intros p sz Hp%Hfr. destruct (block_region _ _ _ _ Hh Hp) as (raw & R & _ & _ & ? & ? & ? & ?). pose proof (room_bound _ (proj2 (h_block _ _ Hh _ _ Hp))). cbn in *.
    split; [done|]. exists raw, (room sz + 72). split; [done|lia].
  - intros p1 s1 p2 s2 H1%Hfr H2%Hfr Hn. destruct (block_region _ _ _ _ Hh H1) as (r1 & R1 & _ & E1 & ? & ? & ? & _). destruct (block_region _ _ _ _ Hh H2) as (r2 & R2 & _ & E2 & ? & ? & ? & _).
    pose proof (room_bound _ (proj2 (h_block _ _ Hh _ _ H1))). pose proof (room_bound _ (proj2 (h_block _ _ Hh _ _ H2))). cbn in *.
    assert (Hne : r1 ≠ r2) by congruence. destruct (h_apart _ _ Hh _ _ _ _ Hne R1 R2); lia.
  - intros t n (c & Hc)%list_elem_of_lookup. destruct (i_pool _ _ Hi t) as (_ & L2 & L3). destruct (L3 c) as (head & k & _ & _ & H3 & ? & _); [apply lookup_lt_Some in Hc; lia|]. congruence.
  - intros Ef Ep. apply map_eq. intros raw. rewrite lookup_empty. destruct (regions (hp w) !! raw) as [n|] eqn:Er; [|done]. exfalso. destruct (h_all _ _ Hh _ _ Er) as [[sz|t c] Hx].
    + apply (i_frames _ _ Hi) in Hx. by rewrite Ef, lookup_empty in Hx.
    + pose proof (proj2 (h_block _ _ Hh _ _ Hx)) as Hc. cbn in Hc. destruct (i_pool _ _ Hi t) as (_ & _ & L3). destruct (L3 c Hc) as (head & k & H1 & H2 & _ & _ & _ & H6).
      unfold local in H1. rewrite Ep, lookup_empty in H1. cbn [default heads_ IOFramePool_new] in H1. rewrite lookup_replicate_2 in H1 by done. injection H1 as <-.
      destruct k as [|y k]; [apply H6 in Hx; by apply not_elem_of_nil in Hx|]. destruct H2 as (? & ? & _). congruence.
Qed.

(** A frame from one thread is freed on another, which uses its memory again. *)
Definition handed_over : list action := [New 0 200 4096; Write 4160 3 99; New 0 5000 8192; Delete 1 4160; New 1 250 16384; Delete 1 4160; Delete 0 8256; Exit 1; Exit 0].

Lemma frame_pool_safe_witness : ∃ w, run handed_over world_new = Some (Done w) ∧ regions (hp w) = ∅.
Proof.
  destruct (run handed_over world_new) as [o|] eqn:E; [|vm_compute in E; discriminate E]. destruct (frame_pool_safe handed_over o E) as (w & -> & _ & _ & _ & H). exists w. split; [done|].
  vm_compute in E. injection E as <-. by apply H.
Defined.
End FramePoolCorrect.
