(* ===== verification/Coroutine.v ===== *)
(** Coroutine frames and how control passes between them ([AwaitableFrame.h], [AwaitableFrame.cpp],
    [Awaitable.h], the loop of [Thread.cpp]): lazy coroutines that start when they are awaited,
    eager ones ([AwaitableIOFrame]) that run inside the call until they first wait, the transfer
    back to the awaiting coroutine at the end, the bounce through the queue when the native
    stack is too deep, and the deferred destruction of frames.

    One worker.  What the body of a coroutine does next, when it is woken and whether the stack
    is too deep is the schedule.  A coroutine awaits what it called itself, and awaits it once. *)

From S2P Require Import Prelude.

Module Coroutine.

Local Open Scope nat_scope.

(** A value, or the exception that left the body. *)
Inductive result := Value (v : Z) | Exn (e : Z).

Inductive status :=
| Fresh                       (** lazy, not started *)
| Running                     (** on the native stack *)
| Waiting                     (** for something outside *)
| Ready                       (** in the queue *)
| Awaiting (c : nat)          (** for the end of [c] *)
| Back (c : nat)              (** in the queue, to read what [c] returned *)
| Over (r : result).          (** at its final suspension *)

Record frame := mkFrame {
  io : bool;                  (** an [AwaitableIOFrame] *)
  at_ : status;
  prev_ : option nat;
  next_ : option nat;
  pending_destroy_ : option nat;
  cancel_ : option nat;
  handles : list nat;         (** the awaitables its body holds *)
  got : list (nat * result)   (** history: what its awaits returned *)
}.

Record world := mkWorld {
  frames : gmap nat frame;
  stack : list nat;           (** the bodies on the native stack, the running one first *)
  q : list nat;
  q_c : list nat;             (** frames to destroy *)
  resuming : option (option nat); (** the loop is in a [resume]; the frame to destroy after it *)
  current_cancel : option nat;
  next_id : nat;
  results : gmap nat result   (** history: how coroutines ended *)
}.

Definition world_new : world := mkWorld ∅ [] [] [] None None 0 ∅.

Definition put (i : nat) (f : frame) (w : world) : world := {| w with frames := <[i := f]> (frames w) |}.
Definition frame_of (i : nat) (w : world) : outcome frame := deref (frames w !! i).

(** ** Calls and awaits *)

(** The constructor of the promise; an eager body starts at once. *)
Definition call (eager : bool) (f : nat) (w : world) : outcome world :=
  p ← frame_of f w;
  let c := next_id w in
  let w := put f {| p with handles := handles p ++ [c] |} w in
  let w := put c (mkFrame eager (if eager then Running else Fresh) None None None (current_cancel w) [] []) w in
  Done {| w with next_id := S c; stack := if eager then c :: stack w else stack w |}.

(** [get]: the result or the exception of the child. *)
Definition get (c f : nat) (w : world) : outcome world :=
  p ← frame_of f w; k ← frame_of c w;
  match at_ k with
  | Over r => Done (put f {| p with at_ := Running; got := got p ++ [(c, r)] |} w)
  | _ => UB
  end.

(** [Awaitable::await_ready], [await_suspend]. *)
Definition await (deep : bool) (c f : nat) (w : world) : outcome world :=
  p ← frame_of f w;
  let w := put f {| p with handles := filter (λ x, x ≠ c) (handles p) |} w in
  k ← frame_of c w;
  match at_ k with
  | Over _ => get c f w
  | _ =>
      p ← frame_of f w;
      let w := put f {| p with at_ := Awaiting c; next_ := Some c |} w in
      let k := {| k with prev_ := Some f; cancel_ := cancel_ p |} in
      if io k then Done (let w := put c k w in {| w with stack := tail (stack w) |})
      else if deep then Done (let w := put c {| k with at_ := Ready |} w in {| w with stack := tail (stack w); q := q w ++ [c] |})
      else Done (let w := put c {| k with at_ := Running |} w in {| w with stack := c :: tail (stack w) |})
  end.

(** ** The end of a body *)

(** [final_transfer] *)
Definition final_transfer (deep : bool) (f : nat) (r : result) (w : world) : outcome world :=
  p ← frame_of f w;
  let w := {| w with stack := tail (stack w); results := <[f := r]> (results w) |} in
  let w := put f {| p with at_ := Over r; prev_ := None; handles := [] |} w in
  match prev_ p with
  | None => Done {| w with q_c := q_c w ++ [f] |}
  | Some g =>
      pp ← frame_of g w;
      let pp := {| pp with next_ := None |} in
      if deep then
        Done (let w := put g {| pp with pending_destroy_ := Some f; at_ := Back f |} w in {| w with q := q w ++ [g] |})
      else
        let w := put g pp w in
        get f g {| w with q_c := q_c w ++ [f]; stack := g :: stack w |}
  end.

(** ** The loop *)

(** A task of the queue is resumed. *)
Definition loop_resume (f : nat) (w : world) : outcome world :=
  p ← frame_of f w;
  match at_ p with
  | Over _ => Done w
  | s =>
      let w := {| w with current_cancel := cancel_ p; resuming := Some (pending_destroy_ p); stack := [f] |} in
      let p := {| p with pending_destroy_ := None |} in
      match s with
      | Ready => Done (put f {| p with at_ := Running |} w)
      | Back c => get c f (put f p w)
      | _ => UB
      end
  end.

(** A frame of [q_c] is destroyed; a running one must not be. *)
Definition destroy (c : nat) (w : world) : outcome world :=
  k ← frame_of c w;
  match at_ k with
  | Running => UB
  | _ => Done {| w with frames := delete c (frames w) |}
  end.

(** ** The machine *)

Inductive action :=
| Spawn (cc : option nat)             (** a coroutine is made and queued from outside; a task gives it its cancel state *)
| Call (eager : bool)                 (** the running body calls a coroutine *)
| Detach (c : nat)                    (** [co_spawn] of a lazy one *)
| Await (c : nat) (deep : bool)
| Wait                                (** it waits for something outside *)
| Wake (f : nat)
| Finish (r : result) (deep : bool)   (** it returns or throws *)
| Resume                              (** the loop takes a task *)
| Return                              (** and the task has given control back *)
| Clean.                              (** it destroys a frame *)

Definition act (a : action) (w : world) : option (outcome world) :=
  match a with
  | Spawn cc =>
      let c := next_id w in
      Some (Done (let w := put c (mkFrame false Ready None None None cc [] []) w in {| w with next_id := S c; q := q w ++ [c] |}))
  | Call eager => f ← head (stack w); Some (call eager f w)
  | Detach c =>
      f ← head (stack w); p ← frames w !! f;
      if bool_decide (c ∈ handles p) then
        match frames w !! c with
        | None => Some UB
        | Some k =>
            if io k then None
            else Some (Done (let w := put f {| p with handles := filter (λ x, x ≠ c) (handles p) |} w in
                             let w := put c {| k with at_ := Ready; cancel_ := None |} w in {| w with q := q w ++ [c] |}))
        end
      else None
  | Await c deep =>
      f ← head (stack w); p ← frames w !! f;
      if bool_decide (c ∈ handles p) then Some (await deep c f w) else None
  | Wait =>
      f ← head (stack w);
      Some (p ← frame_of f w; Done (let w := put f {| p with at_ := Waiting |} w in {| w with stack := tail (stack w) |}))
  | Wake f =>
      p ← frames w !! f;
      match at_ p with
      | Waiting => Some (Done (let w := put f {| p with at_ := Ready |} w in {| w with q := q w ++ [f] |}))
      | _ => None
      end
  | Finish r deep => f ← head (stack w); Some (final_transfer deep f r w)
  | Resume =>
      match resuming w, q w with
      | None, f :: l => Some (loop_resume f {| w with q := l |})
      | _, _ => None
      end
  | Return =>
      match resuming w, stack w with
      | Some p, [] => Some (Done {| w with resuming := None; current_cancel := None; q_c := q_c w ++ option_list p |})
      | _, _ => None
      end
  | Clean =>
      match resuming w, q_c w with
      | None, c :: l => Some (destroy c {| w with q_c := l |})
      | _, _ => None
      end
  end.

Fixpoint run (l : list action) (w : world) : option (outcome world) :=
  match l with
  | [] => Some (Done w)
  | a :: l => match act a w with Some (Done w') => run l w' | o => o end
  end.

(** Coroutines that await eager calls before they give control away. *)
Definition eager_handles (w : world) (p : frame) : list nat :=
  filter (λ c, match frames w !! c with Some k => io k | None => true end = true) (handles p).

Definition prompt (a : action) (w : world) : bool :=
  match head (stack w) with
  | None => true
  | Some f =>
      match frames w !! f, a with
      | Some p, Wait => bool_decide (eager_handles w p = [])
      | Some p, Await c _ =>
          match frames w !! c with
          | Some k => match at_ k with Over _ => true | _ => bool_decide (filter (λ x, x ≠ c) (eager_handles w p) = []) end
          | None => true
          end
      | _, _ => true
      end
  end.
End Coroutine.
