(* ===== verification/CoroutineInv.v ===== *)
(** The invariant of coroutine frames, by what a step does to them: a frame is made, runs, waits
    or becomes ready, a body gets and gives away handles, awaits, ends, hands its result over,
    and is destroyed. *)

From S2P Require Import Prelude Coroutine.

Module CoroutineInv.
Import Coroutine.
Local Open Scope nat_scope.
Implicit Types (w : world) (f g c : nat) (p k : frame) (F : gmap nat frame).

(** * Views of the frames *)

Definition st F f : option status := at_ <$> F !! f.
Definition pv F f : option nat := F !! f ≫= prev_.
Definition pd F f : option nat := F !! f ≫= pending_destroy_.
Definition cn F f : option nat := F !! f ≫= cancel_.
Definition hs F f : list nat := match F !! f with Some p => handles p | None => [] end.
Definition eg F f : bool := match F !! f with Some p => io p | None => false end.
Definition gt F f : list (nat * result) := match F !! f with Some p => got p | None => [] end.

Section views.
Context (F : gmap nat frame) (f g : nat) (p : frame).
Lemma st_insert : st (<[f := p]> F) g = if decide (f = g) then Some (at_ p) else st F g.
Proof. unfold st. destruct (decide (f = g)) as [->|]; [by rewrite lookup_insert_eq|by rewrite lookup_insert_ne]. Qed.
Lemma pv_insert : pv (<[f := p]> F) g = if decide (f = g) then prev_ p else pv F g.
Proof. unfold pv. destruct (decide (f = g)) as [->|]; [by rewrite lookup_insert_eq|by rewrite lookup_insert_ne]. Qed.
Lemma pd_insert : pd (<[f := p]> F) g = if decide (f = g) then pending_destroy_ p else pd F g.
Proof. unfold pd. destruct (decide (f = g)) as [->|]; [by rewrite lookup_insert_eq|by rewrite lookup_insert_ne]. Qed.
Lemma cn_insert : cn (<[f := p]> F) g = if decide (f = g) then cancel_ p else cn F g.
Proof. unfold cn. destruct (decide (f = g)) as [->|]; [by rewrite lookup_insert_eq|by rewrite lookup_insert_ne]. Qed.
Lemma hs_insert : hs (<[f := p]> F) g = if decide (f = g) then handles p else hs F g.
Proof. unfold hs. destruct (decide (f = g)) as [->|]; [by rewrite lookup_insert_eq|by rewrite lookup_insert_ne]. Qed.
Lemma eg_insert : eg (<[f := p]> F) g = if decide (f = g) then io p else eg F g.
Proof. unfold eg. destruct (decide (f = g)) as [->|]; [by rewrite lookup_insert_eq|by rewrite lookup_insert_ne]. Qed.
Lemma gt_insert : gt (<[f := p]> F) g = if decide (f = g) then got p else gt F g.
Proof. unfold gt. destruct (decide (f = g)) as [->|]; [by rewrite lookup_insert_eq|by rewrite lookup_insert_ne]. Qed.
Lemma st_delete : st (delete f F) g = if decide (f = g) then None else st F g.
Proof. unfold st. destruct (decide (f = g)) as [->|]; [by rewrite lookup_delete_eq|by rewrite lookup_delete_ne]. Qed.
Lemma pv_delete : pv (delete f F) g = if decide (f = g) then None else pv F g.
Proof. unfold pv. destruct (decide (f = g)) as [->|]; [by rewrite lookup_delete_eq|by rewrite lookup_delete_ne]. Qed.
Lemma pd_delete : pd (delete f F) g = if decide (f = g) then None else pd F g.
Proof. unfold pd. destruct (decide (f = g)) as [->|]; [by rewrite lookup_delete_eq|by rewrite lookup_delete_ne]. Qed.
Lemma cn_delete : cn (delete f F) g = if decide (f = g) then None else cn F g.
Proof. unfold cn. destruct (decide (f = g)) as [->|]; [by rewrite lookup_delete_eq|by rewrite lookup_delete_ne]. Qed.
Lemma hs_delete : hs (delete f F) g = if decide (f = g) then [] else hs F g.
Proof. unfold hs. destruct (decide (f = g)) as [->|]; [by rewrite lookup_delete_eq|by rewrite lookup_delete_ne]. Qed.
Lemma eg_delete : eg (delete f F) g = if decide (f = g) then false else eg F g.
Proof. unfold eg. destruct (decide (f = g)) as [->|]; [by rewrite lookup_delete_eq|by rewrite lookup_delete_ne]. Qed.
Lemma gt_delete : gt (delete f F) g = if decide (f = g) then [] else gt F g.
Proof. unfold gt. destruct (decide (f = g)) as [->|]; [by rewrite lookup_delete_eq|by rewrite lookup_delete_ne]. Qed.
End views.

Lemma view F f p : F !! f = Some p →
  st F f = Some (at_ p) ∧ pv F f = prev_ p ∧ pd F f = pending_destroy_ p ∧ cn F f = cancel_ p ∧ hs F f = handles p ∧ eg F f = io p ∧ gt F f = got p.
Proof. intros E. unfold st, pv, pd, cn, hs, eg, gt. by rewrite E. Qed.

Ltac views := rewrite ?st_insert, ?pv_insert, ?pd_insert, ?cn_insert, ?hs_insert, ?eg_insert, ?gt_insert, ?st_delete, ?pv_delete, ?pd_delete, ?cn_delete, ?hs_delete, ?eg_delete, ?gt_delete in *.

(** * The invariant *)

Definition queued (s : option status) : bool := match s with Some Ready | Some (Back _) => true | _ => false end.
(** Started, and not at its end. *)
Definition busy (s : option status) : bool := match s with Some (Running | Waiting | Ready | Awaiting _ | Back _) => true | _ => false end.

(** Frames on their way to be destroyed. *)
Definition doomed w : list nat := q_c w ++ match resuming w with Some (Some c) => [c] | _ => [] end.

(** The frames, how they ended, the next id and the cancellation of the running ones. *)
Record frames_ok F (R : gmap nat result) (n : nat) (cc : option nat) : Prop := {
  v_back1 g g' c : st F g = Some (Back c) → st F g' = Some (Back c) → g = g';
  v_pending f : pd F f = match st F f with Some (Back c) => Some c | _ => None end;
  v_awaits f c : st F f = Some (Awaiting c) → pv F c = Some f ∧ f < c ∧ cn F c = cn F f ∧ busy (st F c) = true;
  v_prev f c : pv F c = Some f → st F f = Some (Awaiting c);
  v_back f c : st F f = Some (Back c) → f < c ∧ ∃ r, st F c = Some (Over r);
  v_end f r : st F f = Some (Over r) → hs F f = [] ∧ R !! f = Some r;
  v_holds f c : c ∈ hs F f → f < c ∧ pv F c = None ∧ (eg F c = false → st F c = Some Fresh) ∧ (eg F c = true → st F f = Some Running ∧ cn F c = cn F f) ∧ is_Some (st F c);
  v_holds1 f f' c : c ∈ hs F f → c ∈ hs F f' → f = f';
  v_eager c : eg F c = true → st F c ≠ Some Fresh;
  v_id f : is_Some (st F f) ∨ is_Some (R !! f) → f < n;
  v_cancel f : st F f = Some Running → cn F f = cc;
  v_got f c r : (c, r) ∈ gt F f → R !! c = Some r;
  v_result f r : R !! f = Some r → st F f = None ∨ st F f = Some (Over r)
}.

Record inv w : Prop := {
  v_frames : frames_ok (frames w) (results w) (next_id w) (current_cancel w);
  v_stack f : f ∈ stack w ↔ st (frames w) f = Some Running;
  v_stack1 : NoDup (stack w);
  v_q f : f ∈ q w ↔ queued (st (frames w) f) = true;
  v_q1 : NoDup (q w);
  v_doomed c : c ∈ doomed w ↔ (∃ r, st (frames w) c = Some (Over r)) ∧ ∀ g, st (frames w) g ≠ Some (Back c);
  v_doomed1 : NoDup (doomed w);
  v_loop : resuming w = None → stack w = []
}.

(** * The frames *)

(** Facts are drawn from the invariant once. *)
Definition seen (P : Prop) : Prop := True.
Ltac learn pf := let T := type of pf in match goal with _ : seen T |- _ => fail 1 | _ => assert (seen T) by exact I; pose proof pf end.

(** What [Hi] says about the frames the goal talks of. *)
Ltac saturate Hi :=
  repeat match goal with
  | H : st _ ?f = Some (Awaiting ?c) |- _ => learn (v_awaits _ _ _ _ Hi f c H)
  | H : pv _ ?c = Some ?f |- _ => learn (v_prev _ _ _ _ Hi f c H)
  | H : st _ ?f = Some (Back ?c) |- _ => learn (v_back _ _ _ _ Hi f c H)
  | H : st _ ?f = Some (Over ?r) |- _ => learn (v_end _ _ _ _ Hi f r H)
  | H : ?c ∈ hs _ ?f |- _ => learn (v_holds _ _ _ _ Hi f c H)
  | H : (?c, ?r) ∈ gt _ ?f |- _ => learn (v_got _ _ _ _ Hi f c r H)
  | H : ?R !! ?f = Some ?r |- _ => learn (v_result _ _ _ _ Hi f r H)
  | H : st _ ?f = Some Running |- _ => learn (v_cancel _ _ _ _ Hi f H)
  | H : eg _ ?f = true |- _ => learn (v_eager _ _ _ _ Hi f H)
  | H : _ ∧ _ |- _ => destruct H
  | H : ∃ _, _ |- _ => destruct H
  | H : is_Some _ |- _ => destruct H
  end.

Ltac crunch Hi :=
  intros; saturate Hi; simplify_eq/=; try done; try congruence; split_and?; try done; try congruence; try lia; eauto; try (intuition congruence).

(** The views of [f] in the goal, instead of the fields of its frame. *)
Ltac fields V := destruct V as (Es & Ev & Ed & Ec & Eh & Ee & Eg).
Ltac unfields := repeat match goal with
  | E : pv _ _ = prev_ ?p |- _ => rewrite <- E in *; clear E
  | E : pd _ _ = pending_destroy_ ?p |- _ => rewrite <- E in *; clear E
  | E : cn _ _ = cancel_ ?p |- _ => rewrite <- E in *; clear E
  | E : hs _ _ = handles ?p |- _ => rewrite <- E in *; clear E
  | E : eg _ _ = io ?p |- _ => rewrite <- E in *; clear E
  | E : gt _ _ = got ?p |- _ => rewrite <- E in *; clear E
  end.

Definition plain (s : status) : bool := match s with Running | Waiting | Ready => true | _ => false end.

(** A frame becomes ready, runs or waits. *)
Lemma frames_plain F R n cc cc' f p s : frames_ok F R n cc → F !! f = Some p → plain (at_ p) = true → plain s = true →
  (s ≠ Running → ∀ c, c ∈ hs F f → eg F c = false) → (s = Running → cc' = cn F f) → (∀ g, g ≠ f → st F g = Some Running → cc' = cc) →
  frames_ok (<[f := {| p with at_ := s |}]> F) R n cc'.
Proof.
  intros Hi Hp Hpl Hs He Hc Hc'. fields (view _ _ _ Hp). assert (Hpd : pd F f = None) by (rewrite (v_pending _ _ _ _ Hi), Es; by destruct (at_ p)).
  assert (HX : s ≠ Fresh ∧ (∀ c, s ≠ Awaiting c) ∧ (∀ c, s ≠ Back c) ∧ (∀ r, s ≠ Over r) ∧ busy (Some s) = true) by (by destruct s). destruct HX as (X1 & X2 & X3 & X4 & X5).
  assert (HY : at_ p ≠ Fresh ∧ (∀ c, at_ p ≠ Awaiting c) ∧ (∀ c, at_ p ≠ Back c) ∧ (∀ r, at_ p ≠ Over r) ∧ busy (Some (at_ p)) = true) by (by destruct (at_ p)). destruct HY as (Y1 & Y2 & Y3 & Y4 & Y5).
  pose proof Hi as [B1 PD AW PV BK EN HO HO1 EA ID CN GT RS].
  constructor; cbn; intros *; views; cbn; repeat case_decide; subst; unfields; try (crunch Hi; fail).
  - rewrite Hpd. by destruct s.
  - intros Hin. destruct (HO _ _ Hin) as (? & ? & ? & ? & ?). split_and!; try done. intros Heg. destruct s; try (by rewrite He in Heg). split; [done|naive_solver].
  - intros Hr. rewrite (CN _ Hr). symmetry. eapply Hc'; [|done]. congruence.
Qed.

(** Nothing refers to an id that is not in use. *)
Lemma unused F R n cc : frames_ok F R n cc → st F n = None ∧ R !! n = None ∧ pv F n = None ∧ hs F n = [] ∧ gt F n = [] ∧ eg F n = false ∧
  ∀ g, st F g ≠ Some (Awaiting n) ∧ st F g ≠ Some (Back n) ∧ n ∉ hs F g.
Proof.
  intros Hi. assert (Hs : st F n = None) by (destruct (st F n) eqn:E; [|done]; pose proof (v_id _ _ _ _ Hi n ltac:(rewrite E; eauto)); lia).
  assert (HF : F !! n = None) by (unfold st in Hs; by destruct (F !! n)).
  assert (HR : R !! n = None) by (destruct (R !! n) eqn:E; [|done]; pose proof (v_id _ _ _ _ Hi n ltac:(rewrite E; eauto)); lia).
  split_and!; try done; [by unfold pv; rewrite HF|by unfold hs; rewrite HF|by unfold gt; rewrite HF|by unfold eg; rewrite HF|]. intros g. split_and!; [intros E; saturate Hi; by rewrite Hs in *|intros E; saturate Hi; congruence|intros E; saturate Hi; congruence].
Qed.

(** A new frame. *)
Lemma frames_new F R n cc e s cx : frames_ok F R n cc → (s = Fresh ∧ e = false ∨ s = Ready ∨ s = Running ∧ cx = cc) → frames_ok (<[n := mkFrame e s None None None cx [] []]> F) R (S n) cc.
Proof.
  intros Hi Hs. destruct (unused _ _ _ _ Hi) as (U1 & U2 & U3 & U4 & U5 & U6 & U7).
  assert (HX : (∀ c, s ≠ Awaiting c) ∧ (∀ c, s ≠ Back c) ∧ (∀ r, s ≠ Over r)) by (destruct Hs as [[-> _]|[->|[-> _]]]; done). destruct HX as (X2 & X3 & X4).
  pose proof Hi as [B1 PD AW PV BK EN HO HO1 EA ID CN GT RS].
  constructor; cbn; intros *; views; cbn; repeat case_decide; subst; try (crunch Hi; fail); try (by intros ?%not_elem_of_nil); try (by intros ? ?%not_elem_of_nil).
  - destruct s as [| | | | |c|]; try done. by destruct (X3 c).
  - intros Hx. specialize (ID _ Hx). lia.
Qed.

(** The body of [f] gets a handle or gives one away. *)
Lemma frames_handles F R n cc f p l : frames_ok F R n cc → F !! f = Some p → at_ p = Running →
  (∀ c, c ∈ l → c ∈ hs F f ∨ f < c ∧ pv F c = None ∧ (eg F c = false → st F c = Some Fresh) ∧ (eg F c = true → cn F c = cn F f) ∧ is_Some (st F c) ∧ ∀ g, c ∉ hs F g) →
  frames_ok (<[f := {| p with handles := l |}]> F) R n cc.
Proof.
  intros Hi Hp Hr Hl. fields (view _ _ _ Hp). rewrite Hr in Es. pose proof Hi as [B1 PD AW PV BK EN HO HO1 EA ID CN GT RS].
  constructor; cbn; intros *; views; cbn; rewrite ?Hr; repeat case_decide; subst; unfields; try (crunch Hi; fail).
  - rewrite PD. by rewrite Es.
  - intros [Hx|Hx]%Hl; [saturate Hi; lia|]. destruct Hx. lia.
  - intros [Hx|Hx]%Hl; [destruct (HO _ _ Hx) as (? & ? & ? & ? & ?); split_and!; naive_solver|]. destruct Hx as (? & ? & ? & ? & ? & ?). split_and!; naive_solver.
  - intros [Hx|(_ & _ & _ & _ & _ & Hx)]%Hl Hy; [by eapply HO1|by destruct (Hx _ Hy)].
  - intros Hy [Hx|(_ & _ & _ & _ & _ & Hx)]%Hl; [by eapply HO1|by destruct (Hx _ Hy)].
Qed.

Ltac link_holds := let Hin := fresh in intros Hin; match goal with Hnh : ∀ g, _ ∉ hs _ g, HO : ∀ f c, c ∈ hs _ f → _, He : ∀ x, x ∈ hs _ _ → eg _ x = false |- _ =>
    first [by destruct (Hnh _ Hin)|destruct (HO _ _ Hin) as (? & ? & ? & ? & ?); split_and!; eauto; let Heg := fresh in intros Heg; by rewrite He in Heg] end.

(** An await that has to wait: [f] waits for [c]. *)
Lemma frames_link F R n cc f p c k s : frames_ok F R n cc → F !! f = Some p → at_ p = Running → F !! c = Some k → f < c → prev_ k = None → (∀ g, c ∉ hs F g) →
  (∀ x, x ∈ hs F f → eg F x = false) → (io k = false ∧ at_ k = Fresh ∧ (s = Ready ∨ s = Running) ∨ io k = true ∧ s = at_ k ∧ busy (Some s) = true ∧ cancel_ k = cancel_ p) →
  frames_ok (<[c := {| k with prev_ := Some f; cancel_ := cancel_ p; at_ := s |}]> (<[f := {| p with at_ := Awaiting c; next_ := Some c |}]> F)) R n cc.
Proof.
  intros Hi Hp Hr Hk Hfc Hpk Hnh He Hs. fields (view _ _ _ Hp). rewrite Hr in Es. destruct (view _ _ _ Hk) as (Es' & Ev' & Ed' & Ec' & Eh' & Ee' & Eg'). rewrite Hpk in Ev'.
  assert (Hcf : cn F f = cc) by (by apply (v_cancel _ _ _ _ Hi)).
  assert (Hna : ∀ g, st F g ≠ Some (Awaiting c)) by (intros g E; saturate Hi; congruence).
  pose proof Hi as [B1 PD AW PV BK EN HO HO1 EA ID CN GT RS].
  destruct Hs as [(Hio & Hf & Hs)|(Hio & -> & Hb & Hcc)].
  - assert (Hpd : pd F c = None) by (rewrite PD, Es', Hf; done). assert (Hpd' : pd F f = None) by (rewrite PD, Es; done). rewrite Hf in Es'.
    destruct Hs as [->| ->]; constructor; cbn; intros *; views; cbn; repeat case_decide; subst; try lia; unfields; try (crunch Hi; fail).
    all: link_holds.
  - rewrite <- Hcc in *. constructor; cbn; intros *; views; cbn; repeat case_decide; subst; try lia; unfields; rewrite <- ?Es' in *; try (crunch Hi; fail).
    all: try link_holds; try apply B1; try apply BK; rewrite PD, ?Es, ?Es'; done.
Qed.

Lemma result_insert (R : gmap nat result) f g r r' : R !! f = None → R !! g = Some r' → <[f := r]> R !! g = Some r'.
Proof. intros Hf Hg. rewrite lookup_insert_ne; [done|congruence]. Qed.

Lemma running_no_result F R n cc f : frames_ok F R n cc → st F f = Some Running → R !! f = None.
Proof. intros Hi Hs. destruct (R !! f) eqn:E; [|done]. destruct (v_result _ _ _ _ Hi _ _ E); congruence. Qed.

(** A body ends and nobody awaits it. *)
Lemma frames_over F R n cc f p r : frames_ok F R n cc → F !! f = Some p → at_ p = Running → prev_ p = None →
  frames_ok (<[f := {| p with at_ := Over r; prev_ := None; handles := [] |}]> F) (<[f := r]> R) n cc.
Proof.
  intros Hi Hp Hr Hpv. fields (view _ _ _ Hp). rewrite Hr in Es. rewrite Hpv in Ev. pose proof (running_no_result _ _ _ _ _ Hi Es) as HR.
  pose proof Hi as [B1 PD AW PV BK EN HO HO1 EA ID CN GT RS]. pose proof (λ g r', result_insert R f g r r' HR) as RI.
  constructor; cbn; intros *; views; cbn; repeat case_decide; subst; unfields; try (crunch Hi; fail); try (by intros ?%not_elem_of_nil); try (by intros ? ?%not_elem_of_nil).
  all: first [by rewrite PD, Es|rewrite lookup_insert_eq; naive_solver
    |intros [?|Hx]; [by eauto|]; destruct (decide (f = f0)) as [<-|]; [apply ID; left; by rewrite Es|rewrite lookup_insert_ne in Hx by done; by eauto]
    |intros [?|[= -> ->]%list_elem_of_singleton]%elem_of_app; [apply RI; by eapply GT|apply lookup_insert_eq]
    |rewrite lookup_insert_ne by (done || lia); intros Hx; saturate Hi; naive_solver].
Qed.

(** A body ends and its caller goes on, at once or through the queue. *)
Lemma frames_handover F R n cc f p g pg r s (later : bool) : frames_ok F R n cc → F !! f = Some p → at_ p = Running → prev_ p = Some g → F !! g = Some pg →
  s = (if later then {| pg with next_ := None; pending_destroy_ := Some f; at_ := Back f |} else {| pg with next_ := None; at_ := Running; got := got pg ++ [(f, r)] |}) →
  frames_ok (<[g := s]> (<[f := {| p with at_ := Over r; prev_ := None; handles := [] |}]> F)) (<[f := r]> R) n cc.
Proof.
  intros Hi Hp Hr Hpv Hg Es0. fields (view _ _ _ Hp). rewrite Hr in Es. rewrite Hpv in Ev. pose proof (running_no_result _ _ _ _ _ Hi Es) as HR.
  destruct (view _ _ _ Hg) as (Es' & Ev' & Ed' & Ec' & Eh' & Ee' & Eg'). pose proof (v_prev _ _ _ _ Hi _ _ Ev) as Ha. rewrite Ha in Es'. injection Es' as Es'.
  pose proof Hi as [B1 PD AW PV BK EN HO HO1 EA ID CN GT RS]. pose proof (λ g r', result_insert R f g r r' HR) as RI. destruct (AW _ _ Ha) as (_ & Hlt & Hcn & _).
  assert (Hpd : pd F g = None) by (rewrite PD, Ha; done).
  destruct later; subst s; constructor; cbn; intros *; views; cbn; repeat case_decide; subst; try lia; unfields; try (crunch Hi; fail); try (by intros ?%not_elem_of_nil); try (by intros ? ?%not_elem_of_nil).
  all: first [by rewrite PD, Es|rewrite lookup_insert_eq; naive_solver
    |intros [?|Hx]; [by eauto|]; destruct (decide (f = f0)) as [<-|]; [apply ID; left; by rewrite Es|rewrite lookup_insert_ne in Hx by done; by eauto]
    |intros [?|[= -> ->]%list_elem_of_singleton]%elem_of_app; [apply RI; by eapply GT|apply lookup_insert_eq]
    |rewrite lookup_insert_ne by (done || lia); intros Hx; saturate Hi; naive_solver].
Qed.

(** The body goes on in the loop and reads the result it has waited for. *)
Lemma frames_read F R n cc f p c r : frames_ok F R n cc → F !! f = Some p → at_ p = Back c → st F c = Some (Over r) → (∀ g, st F g ≠ Some Running) →
  frames_ok (<[f := {| p with pending_destroy_ := None; at_ := Running; got := got p ++ [(c, r)] |}]> F) R n (cancel_ p).
Proof.
  intros Hi Hp Hb Hc Hnr. fields (view _ _ _ Hp). rewrite Hb in Es. pose proof Hi as [B1 PD AW PV BK EN HO HO1 EA ID CN GT RS]. destruct (BK _ _ Es) as [Hlt _].
  constructor; cbn; intros *; views; cbn; repeat case_decide; subst; try lia; unfields; try (crunch Hi; fail).
  - intros [?|[= -> ->]%list_elem_of_singleton]%elem_of_app; [by eapply GT|]. by destruct (EN _ _ Hc).
Qed.

(** The result was there already. *)
Lemma frames_got F R n cc f p c r : frames_ok F R n cc → F !! f = Some p → at_ p = Running → st F c = Some (Over r) →
  frames_ok (<[f := {| p with at_ := Running; got := got p ++ [(c, r)] |}]> F) R n cc.
Proof.
  intros Hi Hp Hb Hc. fields (view _ _ _ Hp). rewrite Hb in Es. pose proof Hi as [B1 PD AW PV BK EN HO HO1 EA ID CN GT RS].
  constructor; cbn; intros *; views; cbn; repeat case_decide; subst; try lia; unfields; try (crunch Hi; fail).
  - rewrite PD. by rewrite Es.
  - intros [?|[= -> ->]%list_elem_of_singleton]%elem_of_app; [by eapply GT|]. by destruct (EN _ _ Hc).
Qed.

(** A lazy coroutine becomes a task of its own. *)
Lemma frames_detach F R n cc c k : frames_ok F R n cc → F !! c = Some k → at_ k = Fresh → io k = false → (∀ g, c ∉ hs F g) →
  frames_ok (<[c := {| k with at_ := Ready; cancel_ := None |}]> F) R n cc.
Proof.
  intros Hi Hk Hf Hio Hnh. fields (view _ _ _ Hk). rewrite Hf in Es. pose proof Hi as [B1 PD AW PV BK EN HO HO1 EA ID CN GT RS].
  constructor; cbn; intros *; views; cbn; repeat case_decide; subst; try lia; unfields; try (crunch Hi; fail).
  - rewrite PD. by rewrite Es.
  - intros Ha. destruct (AW _ _ Ha) as (_ & _ & _ & Hb). by rewrite Es in Hb.
  - intros Hx. by destruct (Hnh _ Hx).
Qed.

(** A frame is destroyed. *)
Lemma frames_delete F R n cc c r : frames_ok F R n cc → st F c = Some (Over r) → (∀ g, st F g ≠ Some (Back c)) → (∀ g, c ∉ hs F g) → frames_ok (delete c F) R n cc.
Proof.
  intros Hi Hc Hnb Hnh. pose proof Hi as [B1 PD AW PV BK EN HO HO1 EA ID CN GT RS].
  constructor; intros *; views; repeat case_decide; subst; try (crunch Hi; fail).
  - intros Ha. destruct (AW _ _ Ha) as (_ & _ & _ & Hb). by rewrite Hc in Hb.
  - by intros ?%not_elem_of_nil.
  - by intros ?%not_elem_of_nil.
  - intros Hx. by destruct (Hnh _ Hx).
  - by intros ?%not_elem_of_nil.
  - by intros ? ?%not_elem_of_nil.
  - by intros ?%not_elem_of_nil.
Qed.
End CoroutineInv.
