(* ===== verification/CoroutineCorrect.v ===== *)
(** Control passes between coroutine frames safely: as long as eager calls are awaited before
    their caller gives control away, no frame is used after it was destroyed or destroyed twice,
    every await returns what its coroutine returned or threw, and frames do not leak. *)

From S2P Require Import Prelude Coroutine CoroutineInv.

Module CoroutineCorrect.
Import Coroutine CoroutineInv.
Local Open Scope nat_scope.
Implicit Types (w : world) (f g c : nat) (p k : frame) (F : gmap nat frame).

Lemma co_new : inv world_new.
Proof.
  assert (H : frames_ok ∅ ∅ 0 None).
  { constructor; intros *; unfold st, pv, pd, cn, hs, eg, gt; rewrite ?lookup_empty; cbn; try done; try (by intros ?%not_elem_of_nil). by intros [[]|[]]. }
  constructor; cbn; try done; try constructor; unfold st; rewrite ?lookup_empty; cbn; try done; try (by intros ?%not_elem_of_nil). by intros [[] ?].
Qed.

(** * Lists *)

(** Steps that touch neither ends nor bounces leave what is to be destroyed alone. *)
Lemma doomed_same F F' (l : list nat) : (∀ c, c ∈ l ↔ (∃ r, st F c = Some (Over r)) ∧ ∀ g, st F g ≠ Some (Back c)) →
  (∀ g s, (∃ r, s = Over r) ∨ (∃ c, s = Back c) → st F' g = Some s ↔ st F g = Some s) → ∀ c, c ∈ l ↔ (∃ r, st F' c = Some (Over r)) ∧ ∀ g, st F' g ≠ Some (Back c).
Proof.
  intros Hl HF c. rewrite Hl. split; intros [(r & Hr) Hb]; (split; [exists r; apply HF; eauto|]); intros g Hg; apply (Hb g); apply (HF g); eauto.
Qed.

(** A body has ended and nobody is to read its result later. *)
Lemma doomed_more F F' (l : list nat) f r : (∀ c, c ∈ l ↔ (∃ r, st F c = Some (Over r)) ∧ ∀ g, st F g ≠ Some (Back c)) →
  (∀ g s, g ≠ f → (∃ r, s = Over r) ∨ (∃ c, s = Back c) → st F' g = Some s ↔ st F g = Some s) → st F f = Some Running → st F' f = Some (Over r) → (∀ g, st F g ≠ Some (Back f)) →
  ∀ c, c ∈ l ∨ c = f ↔ (∃ r, st F' c = Some (Over r)) ∧ ∀ g, st F' g ≠ Some (Back c).
Proof.
  intros Hl HF Hr Ho Hb c. assert (HB : ∀ g x, st F' g = Some (Back x) ↔ st F g = Some (Back x)) by (intros g x; destruct (decide (g = f)) as [->|]; [rewrite Hr, Ho; done|apply HF; eauto]). split.
  - intros [[(r' & Hr') Hn]%Hl| ->]; [|split; [by exists r|intros g; by rewrite HB]]. assert (c ≠ f) by congruence. split; [exists r'; apply HF; eauto|intros g; by rewrite HB].
  - intros [(r' & Hr') Hn]. destruct (decide (c = f)) as [->|Hc]; [by right|left]. apply Hl. split; [exists r'; apply HF; eauto|]. intros g Hg. apply (Hn g). by apply HB.
Qed.

(** A frame becomes ready, runs or waits. *)
Lemma inv_plain w w' f p s : inv w → frames w !! f = Some p → plain (at_ p) = true → plain s = true → frames w' = <[f := {| p with at_ := s |}]> (frames w) →
  results w' = results w → next_id w' = next_id w → doomed w' = doomed w →
  (s ≠ Running → ∀ c, c ∈ hs (frames w) f → eg (frames w) c = false) → (s = Running → current_cancel w' = cn (frames w) f) →
  (∀ g, g ≠ f → st (frames w) g = Some Running → current_cancel w' = current_cancel w) →
  (∀ x, x ∈ stack w' ↔ x = f ∧ s = Running ∨ x ≠ f ∧ x ∈ stack w) → NoDup (stack w') →
  (∀ x, x ∈ q w' ↔ x = f ∧ s = Ready ∨ x ≠ f ∧ x ∈ q w) → NoDup (q w') → (resuming w' = None → stack w' = []) → inv w'.
Proof.
  intros [HF S S1 Q Q1 D D1 L] Hp Hpl Hs EF ER EN ED He Hc Hc' HS HS1 HQ HQ1 HL. destruct (view _ _ _ Hp) as (Es & _).
  constructor; rewrite ?EF, ?ER, ?EN, ?ED; try done.
  - by eapply frames_plain.
  - intros x. rewrite HS, S, st_insert. cbn. case_decide; [subst|]; naive_solver.
  - intros x. rewrite HQ, Q, st_insert. cbn. case_decide; [subst|naive_solver]. destruct s; naive_solver.
  - eapply doomed_same; [exact D|]. intros g s' Hs'. rewrite st_insert. cbn. case_decide; [subst|done]. rewrite Es. split; intros [= <-]; destruct Hs' as [[? E]|[? E]]; rewrite E in *; done.
Qed.

Lemma wake_keeps w f (o : outcome world) : inv w → act (Wake f) w = Some o → ∃ w', o = Done w' ∧ inv w'.
Proof.
  intros Hi. cbn. intros (p & Hp & Hs)%bind_Some. destruct (at_ p) eqn:Ea; try done. injection Hs as <-. eexists. split; [done|]. destruct (view _ _ _ Hp) as (Es & _). rewrite Ea in Es.
  assert (Hq : f ∉ q w) by (rewrite (v_q _ Hi), Es; done). assert (Hst : f ∉ stack w) by (rewrite (v_stack _ Hi), Es; done).
  eapply (inv_plain w _ f p Ready Hi Hp); try done; cbn; try rewrite Ea; try done.
  - intros _ c Hc. destruct (v_holds _ _ _ _ (v_frames _ Hi) _ _ Hc) as (_ & _ & _ & H & _). destruct (eg (frames w) c); [|done]. destruct (H eq_refl). congruence.
  - intros x. split; [|naive_solver]. intros Hx. right. split; [by intros ->|done].
  - apply (v_stack1 _ Hi).
  - intros x. rewrite elem_of_app, list_elem_of_singleton. split; [|naive_solver]. destruct (decide (x = f)); naive_solver.
  - apply NoDup_snoc; [apply (v_q1 _ Hi)|done].
  - apply (v_loop _ Hi).
Qed.

(** The running body. *)
Lemma top w f : inv w → head (stack w) = Some f → ∃ p l, stack w = f :: l ∧ f ∉ l ∧ NoDup l ∧ frames w !! f = Some p ∧ at_ p = Running ∧ st (frames w) f = Some Running.
Proof.
  intros Hi Hf. destruct (stack w) as [|g l] eqn:E; [done|]. injection Hf as ->. assert (Hr : st (frames w) f = Some Running) by (apply (v_stack _ Hi); rewrite E; by left).
  pose proof (v_stack1 _ Hi) as Hn. rewrite E in Hn. apply NoDup_cons in Hn as [? ?]. unfold st in Hr. destruct (frames w !! f) as [p|] eqn:Ep; [|done]. injection Hr as Hr.
  exists p, l. split_and!; try done. unfold st. rewrite Ep. cbn. by rewrite Hr.
Qed.

(** No eager handle is left. *)
Lemma no_eager w f p (l : list nat) : frames w !! f = Some p → filter (λ c, match frames w !! c with Some k => io k | None => true end = true) l = [] → ∀ c, c ∈ l → eg (frames w) c = false.
Proof.
  intros Hp He c Hc. destruct (eg (frames w) c) eqn:E; [|done]. exfalso. assert (Hin : c ∈ filter (λ c, match frames w !! c with Some k => io k | None => true end = true) l); [|rewrite He in Hin; by apply not_elem_of_nil in Hin].
  apply list_elem_of_filter. split; [|done]. unfold eg in E. by destruct (frames w !! c).
Qed.

Lemma wait_keeps w (o : outcome world) : inv w → prompt Wait w = true → act Wait w = Some o → ∃ w', o = Done w' ∧ inv w'.
Proof.
  intros Hi Hpr. cbn. intros (f & Hf & [= <-])%bind_Some. destruct (top _ _ Hi Hf) as (p & l & El & Hnl & Hnd & Hp & Hr & Es). destruct (view _ _ _ Hp) as (_ & _ & _ & _ & Eh & _).
  unfold prompt in Hpr. rewrite Hf, Hp in Hpr. apply bool_decide_eq_true in Hpr. unfold frame_of. rewrite Hp. orun. eexists. split; [done|].
  assert (Hq : f ∉ q w) by (rewrite (v_q _ Hi), Es; done).
  eapply (inv_plain w _ f p Waiting Hi Hp); try done; cbn; rewrite ?Hr, ?El; try done.
  - intros _. rewrite Eh. by eapply no_eager.
  - intros x. cbn. rewrite elem_of_cons. split; [intros Hx; right; split; [by intros ->|by right]|naive_solver].
  - intros x. split; [|naive_solver]. intros Hx. right. split; [by intros ->|done].
  - apply (v_q1 _ Hi).
  - intros Hn. apply (v_loop _ Hi) in Hn. by rewrite El in Hn.
Qed.

(** A coroutine made from outside. *)
Lemma spawn_keeps w cc (o : outcome world) : inv w → act (Spawn cc) w = Some o → ∃ w', o = Done w' ∧ inv w'.
Proof.
  intros Hi. cbn. intros [= <-]. eexists. split; [done|]. pose proof (v_frames _ Hi) as HF. destruct (unused _ _ _ _ HF) as (U1 & _ & _ & _ & _ & _ & U7).
  destruct Hi as [_ S S1 Q Q1 D D1 L]. assert (Hq : next_id w ∉ q w) by (rewrite Q, U1; done). constructor; cbn; try done.
  - apply frames_new; [done|]. tauto.
  - intros x. rewrite S, st_insert. cbn. case_decide; [subst; rewrite U1|]; naive_solver.
  - intros x. rewrite elem_of_app, list_elem_of_singleton, Q, st_insert. cbn. case_decide; [subst|]; naive_solver.
  - by apply NoDup_snoc.
  - eapply doomed_same; [exact D|]. intros g s Hs. rewrite st_insert. cbn. case_decide; [subst; rewrite U1; naive_solver|done].
Qed.

Lemma body_call_keeps w eager (o : outcome world) : inv w → act (Call eager) w = Some o → ∃ w', o = Done w' ∧ inv w'.
Proof.
  intros Hi. cbn. intros (f & Hf & [= <-])%bind_Some. destruct (top _ _ Hi Hf) as (p & l & El & Hnl & Hnd & Hp & Hr & Es). unfold call, frame_of. rewrite Hp. orun. eexists. split; [done|].
  pose proof (v_frames _ Hi) as HF. destruct (unused _ _ _ _ HF) as (U1 & U2 & U3 & U4 & U5 & U6 & U7). destruct (view _ _ _ Hp) as (_ & _ & _ & Ec & Eh & _).
  assert (Hlt : f < next_id w) by (apply (v_id _ _ _ _ HF); left; by rewrite Es).
  destruct Hi as [_ S S1 Q Q1 D D1 L]. assert (Hst : next_id w ∉ stack w) by (rewrite S, U1; done). constructor; cbn; try done.
  - rewrite insert_insert_ne by lia. apply frames_handles; [|by rewrite lookup_insert_ne by lia|done|].
    { apply frames_new; [done|]. destruct eager; naive_solver. }
    intros c [Hc| ->%list_elem_of_singleton]%elem_of_app; [left; rewrite hs_insert, decide_False by lia; by rewrite Eh|right].
    views. cbn. rewrite ?(decide_True _ _ (eq_refl (next_id w))), (decide_False (P := next_id w = f)) by lia. split_and!; [done|done|by intros ->|intros _; symmetry; by apply (v_cancel _ _ _ _ HF)|done|].
    intros g. rewrite hs_insert. case_decide; [apply not_elem_of_nil|]. cbn. by destruct (U7 g) as (_ & _ & ?).
  - intros x. assert (Hx : x ∈ (if eager then next_id w :: stack w else stack w) ↔ x ∈ stack w ∨ x = next_id w ∧ eager = true) by (destruct eager; rewrite ?elem_of_cons; naive_solver).
    rewrite Hx, S. views. cbn. repeat case_decide; subst; try lia; [destruct eager; naive_solver| |naive_solver]. rewrite Hr, Es. naive_solver.
  - destruct eager; [by constructor|done].
  - intros x. rewrite Q. views. cbn. repeat case_decide; subst; try lia; [rewrite U1; destruct eager; naive_solver|by rewrite Es, Hr|done].
  - eapply doomed_same; [exact D|]. intros g s Hs. views. cbn. repeat case_decide; subst; try lia; [rewrite U1; destruct eager; naive_solver|rewrite Es, Hr; done|done].
  - intros Hn. specialize (L Hn). by rewrite El in L.
Qed.

(** A handle is given away. *)
Definition drop (c f : nat) (p : frame) F : gmap nat frame := <[f := {| p with handles := filter (λ x, x ≠ c) (handles p) |}]> F.

Lemma give_away_ok F R n cc c f p : frames_ok F R n cc → F !! f = Some p → at_ p = Running → c ∈ handles p →
  frames_ok (drop c f p F) R n cc ∧ (∀ g, c ∉ hs (drop c f p F) g) ∧ f < c ∧ drop c f p F !! c = F !! c ∧ (∀ g, st (drop c f p F) g = st F g) ∧ (∀ g, eg (drop c f p F) g = eg F g) ∧
  (∃ k, F !! c = Some k ∧ prev_ k = None ∧ (io k = false → at_ k = Fresh) ∧ (io k = true → at_ k ≠ Fresh ∧ cancel_ k = cancel_ p)).
Proof.
  intros HF Hp Hr Hc. destruct (view _ _ _ Hp) as (Es & _ & _ & Ec & Eh & Ee & _). rewrite <- Eh in Hc. destruct (v_holds _ _ _ _ HF _ _ Hc) as (Hlt & Hpv & Hfr & Heg & Hs).
  unfold drop. split_and!; [| |done|by rewrite lookup_insert_ne by lia| | |].
  - apply frames_handles; [done|done|done|]. intros x [_ Hx]%list_elem_of_filter. left. by rewrite Eh.
  - intros g Hg. rewrite hs_insert in Hg. case_decide; cbn in Hg; [apply list_elem_of_filter in Hg as [? _]; done|]. by pose proof (v_holds1 _ _ _ _ HF _ _ _ Hc Hg).
  - intros g. rewrite st_insert. case_decide; [subst; cbn; by rewrite Es|done].
  - intros g. rewrite eg_insert. case_decide; [subst; cbn; by rewrite Ee|done].
  - unfold st in Hs. destruct (F !! c) as [k|] eqn:Ek; [|by destruct Hs]. destruct (view _ _ _ Ek) as (Es' & Ev' & _ & Ec' & _ & Ee' & _). exists k. rewrite Ev' in Hpv. rewrite Ee' in Hfr, Heg.
    split_and!; [done|done|intros Hio; specialize (Hfr Hio); congruence|]. intros Hio. destruct (Heg Hio). split; [|congruence]. pose proof (v_eager _ _ _ _ HF c ltac:(congruence)). congruence.
Qed.

Lemma detach_keeps w c (o : outcome world) : inv w → act (Detach c) w = Some o → ∃ w', o = Done w' ∧ inv w'.
Proof.
  intros Hi. cbn. intros (f & Hf & (p & Hp & Hs)%bind_Some)%bind_Some. destruct (top _ _ Hi Hf) as (p' & l & El & Hnl & Hnd & Hp' & Hr & Es). rewrite Hp in Hp'. injection Hp' as <-.
  case_bool_decide as Hc; [|done]. pose proof (v_frames _ Hi) as HF. destruct (give_away_ok _ _ _ _ c f p HF Hp Hr Hc) as (HF1 & Hnh & Hlt & E1 & ES & _ & (k & Hk & Hpk & Hfr & _)).
  rewrite Hk in Hs. destruct (io k) eqn:Hio; [done|]. injection Hs as <-. eexists. split; [done|]. specialize (Hfr eq_refl). destruct (view _ _ _ Hk) as (Es' & _). rewrite Hfr in Es'.
  destruct Hi as [_ S S1 Q Q1 D D1 L]. assert (Hq : c ∉ q w) by (rewrite Q, Es'; done). constructor; cbn; try done; fold (drop c f p (frames w)).
  - pose proof (frames_detach _ _ _ _ c k HF1 ltac:(by rewrite E1) Hfr Hio Hnh) as H. by rewrite Hio in H.
  - intros x. rewrite S, st_insert, ES. cbn. case_decide; [subst; rewrite Es'; naive_solver|done].
  - intros x. rewrite elem_of_app, list_elem_of_singleton, Q, st_insert, ES. cbn. case_decide; [subst|]; naive_solver.
  - by apply NoDup_snoc.
  - eapply doomed_same; [exact D|]. intros g s Hs. rewrite st_insert, ES. cbn. case_decide; [subst; rewrite Es'; naive_solver|done].
Qed.

(** The result is there, or [f] waits for it. *)
Lemma await_keeps w c deep (o : outcome world) : inv w → prompt (Await c deep) w = true → act (Await c deep) w = Some o → ∃ w', o = Done w' ∧ inv w'.
Proof.
  intros Hi Hpr. cbn. intros (f & Hf & (p & Hp & Hs)%bind_Some)%bind_Some. destruct (top _ _ Hi Hf) as (p' & l & El & Hnl & Hnd & Hp' & Hr & Es). rewrite Hp in Hp'. injection Hp' as <-.
  case_bool_decide as Hc; [|done]. injection Hs as <-. pose proof (v_frames _ Hi) as HF. destruct (give_away_ok _ _ _ _ c f p HF Hp Hr Hc) as (HF1 & Hnh & Hlt & E1 & ES & EG & (k & Hk & Hpk & Hfr & Heg)).
  unfold prompt in Hpr. rewrite Hf, Hp, Hk in Hpr. destruct (view _ _ _ Hk) as (Es' & _ & _ & _ & _ & Ee' & _).
  unfold await, frame_of. rewrite Hp. orun. cbn [frames put]. fold (drop c f p (frames w)). rewrite E1, Hk. orun.
  destruct Hi as [_ S S1 Q Q1 D D1 L].
  assert (Hp1 : drop c f p (frames w) !! f = Some {| p with handles := filter (λ x, x ≠ c) (handles p) |}) by (unfold drop; by rewrite lookup_insert_eq).
  destruct (match at_ k with Over _ => true | _ => false end) eqn:Eo.
  - destruct (at_ k) as [| | | | | |r] eqn:Ek; try done. unfold get, frame_of. cbn [frames put]. fold (drop c f p (frames w)). rewrite Hp1, E1, Hk. orun. rewrite Ek. eexists. split; [done|].
    constructor; cbn; try done; fold (drop c f p (frames w)).
    + apply (frames_got _ _ _ _ _ _ _ _ HF1 Hp1); [done|]. rewrite ES, Es'. done.
    + intros x. rewrite S, st_insert, ES. cbn. case_decide; [subst; rewrite Es; naive_solver|done].
    + intros x. rewrite Q, st_insert, ES. cbn. case_decide; [subst; by rewrite Es|done].
    + eapply doomed_same; [exact D|]. intros g s Hs. rewrite st_insert, ES. cbn. case_decide; [subst; rewrite Es; naive_solver|done].
  - assert (He : ∀ x, x ∈ hs (drop c f p (frames w)) f → eg (drop c f p (frames w)) x = false).
    { assert (Hfil : filter (λ x, x ≠ c) (eager_handles w p) = []) by (destruct (at_ k); try done; by apply bool_decide_eq_true in Hpr).
      intros x Hx. rewrite EG. unfold drop in Hx. rewrite hs_insert, decide_True in Hx by done. cbn in Hx. apply list_elem_of_filter in Hx as [Hxc Hx].
      destruct (eg (frames w) x) eqn:Ex; [|done]. exfalso. assert (Hin : x ∈ filter (λ x, x ≠ c) (eager_handles w p)); [|rewrite Hfil in Hin; by apply not_elem_of_nil in Hin].
      apply list_elem_of_filter. split; [done|]. apply list_elem_of_filter. split; [|done]. unfold eg in Ex. by destruct (frames w !! x). }
    assert (Hgo : ∀ s st' q', (io k = false ∧ at_ k = Fresh ∧ (s = Ready ∧ st' = l ∧ q' = q w ++ [c] ∨ s = Running ∧ st' = c :: l ∧ q' = q w) ∨ io k = true ∧ s = at_ k ∧ st' = l ∧ q' = q w) →
      inv {| w with frames := <[c := {| k with prev_ := Some f; cancel_ := cancel_ p; at_ := s |}]> (<[f := {| p with handles := filter (λ x, x ≠ c) (handles p); at_ := Awaiting c; next_ := Some c |}]> (drop c f p (frames w)));
                    stack := st'; q := q' |}).
    { intros s st' q' Hs. assert (Hno : ∀ r, at_ k ≠ Over r) by (intros r E; by rewrite E in Eo).
      assert (Hcs : c ≠ f) by lia. assert (HcS : at_ k = Running ↔ c ∈ l).
      { specialize (S c). rewrite El, elem_of_cons, Es' in S. split; [intros E; rewrite E in S; tauto|intros Hl; assert (Some (at_ k) = Some Running) by tauto; congruence]. }
      assert (HcQ : queued (Some (at_ k)) = true ↔ c ∈ q w) by (by rewrite Q, Es').
      constructor; cbn; try done.
      - eapply (frames_link _ _ _ _ f _ c k s HF1 Hp1); try done; [by rewrite E1|]. destruct Hs as [(? & ? & Hs)|(Hio & -> & _)]; [left; naive_solver|right]. destruct (Heg Hio).
        split_and!; [done|done|destruct (at_ k); try done; naive_solver|done].
      - intros x. rewrite !st_insert, ES. cbn. specialize (S x). rewrite El, elem_of_cons in S. destruct (decide (c = x)) as [<-|Hcx]; [|destruct (decide (f = x)) as [<-|Hfx]].
        + destruct Hs as [(_ & Hf0 & [(-> & -> & _)|(-> & -> & _)])|(_ & -> & -> & _)]; [rewrite <- HcS, Hf0; by split|rewrite elem_of_cons; by split; [|left]|rewrite <- HcS; by split; [intros ->|intros [= ->]]].
        + destruct Hs as [(_ & _ & [(_ & -> & _)|(_ & -> & _)])|(_ & _ & -> & _)]; rewrite ?elem_of_cons; (split; [|done]); intros Hx; (destruct Hx as [Hx|Hx]; [lia|done]) || done.
        + assert (Hx : x ∈ st' ↔ x ∈ l) by (destruct Hs as [(_ & _ & [(_ & -> & _)|(_ & -> & _)])|(_ & _ & -> & _)]; rewrite ?elem_of_cons; intuition congruence). rewrite Hx, <- S. intuition congruence.
      - destruct Hs as [(_ & Hf0 & [(_ & -> & _)|(_ & -> & _)])|(_ & _ & -> & _)]; [done| |done]. apply NoDup_cons. split; [|done]. rewrite <- HcS. congruence.
      - intros x. rewrite !st_insert, ES. cbn. specialize (Q x). destruct (decide (c = x)) as [<-|Hcx]; [|destruct (decide (f = x)) as [<-|Hfx]].
        + destruct Hs as [(_ & Hf0 & [(-> & _ & ->)|(-> & _ & ->)])|(_ & -> & _ & ->)]; [rewrite elem_of_app, list_elem_of_singleton; cbn; tauto|rewrite <- HcQ, Hf0; done|by rewrite HcQ].
        + rewrite Es in Q. destruct Hs as [(_ & _ & [(_ & _ & ->)|(_ & _ & ->)])|(_ & _ & _ & ->)]; rewrite ?elem_of_app, ?list_elem_of_singleton; cbn in *; intuition congruence.
        + rewrite <- Q. destruct Hs as [(_ & _ & [(_ & _ & ->)|(_ & _ & ->)])|(_ & _ & _ & ->)]; rewrite ?elem_of_app, ?list_elem_of_singleton; intuition congruence.
      - destruct Hs as [(_ & Hf0 & [(_ & _ & ->)|(_ & _ & ->)])|(_ & _ & _ & ->)]; [|done|done]. apply NoDup_snoc; [done|]. rewrite <- HcQ, Hf0. done.
      - eapply doomed_same; [exact D|]. intros g s' Hs'. rewrite !st_insert, ES. cbn. destruct (decide (c = g)) as [<-|]; [rewrite Es'|destruct (decide (f = g)) as [<-|]; [rewrite Es|done]].
        + destruct Hs as [(_ & -> & [(-> & _)|(-> & _)])|(_ & -> & _)]; destruct Hs' as [[? ->]|[? ->]]; done.
        + destruct Hs' as [[? ->]|[? ->]]; done.
      - intros Hn. specialize (L Hn). by rewrite El in L. }
    assert (Hm : ∀ A B : outcome world, match at_ k with Over _ => A | _ => B end = B) by (intros; by destruct (at_ k)). rewrite Hm. clear Hm.
    unfold frame_of. cbn [frames put]. fold (drop c f p (frames w)). rewrite Hp1. orun. cbn [io]. destruct (bool_dec (io k) true) as [Hio|Hio%not_true_is_false].
    + rewrite (if_true _ _ _ Hio). eexists. split; [done|]. cbn. rewrite El. apply (Hgo (at_ k) l (q w)). right. done.
    + rewrite (if_false _ _ _ Hio). specialize (Hfr Hio). destruct deep; eexists; (split; [done|]); cbn; rewrite El; cbn.
      * apply (Hgo Ready l (q w ++ [c])). naive_solver.
      * apply (Hgo Running (c :: l) (q w)). left. split_and!; [done|done|]. by right.
Qed.

(** A frame is put to be destroyed. *)
Lemma doomed_snoc w w' f : q_c w' = q_c w ++ [f] → resuming w' = resuming w → (∀ x, x ∈ doomed w' ↔ x ∈ doomed w ∨ x = f) ∧ (NoDup (doomed w) → f ∉ doomed w → NoDup (doomed w')).
Proof.
  intros Eq Er. unfold doomed. rewrite Eq, Er. assert (HP : (q_c w ++ [f]) ++ match resuming w with Some (Some c) => [c] | _ => [] end ≡ₚ (q_c w ++ match resuming w with Some (Some c) => [c] | _ => [] end) ++ [f]) by solve_Permutation.
  split; [intros x; by rewrite HP, elem_of_app, list_elem_of_singleton|]. intros Hn Hf. rewrite HP. by apply NoDup_snoc.
Qed.

(** The body that ends. *)
Lemma finish_facts w f l : inv w → stack w = f :: l → f ∉ l → st (frames w) f = Some Running →
  f ∉ doomed w ∧ (∀ g, st (frames w) g ≠ Some (Back f)) ∧ (∀ x, x ∈ l ↔ x ≠ f ∧ st (frames w) x = Some Running) ∧ resuming w ≠ None.
Proof.
  intros Hi El Hnl Es. pose proof (v_frames _ Hi) as HF. split_and!.
  - rewrite (v_doomed _ Hi), Es. intros [[? [=]] _].
  - intros g E. saturate HF. congruence.
  - intros x. rewrite <- (v_stack _ Hi), El, elem_of_cons. split; [intros Hx; split; [by intros ->|by right]|naive_solver].
  - intros Hn%(v_loop _ Hi). by rewrite El in Hn.
Qed.

Lemma finish_alone w f p l r : inv w → stack w = f :: l → f ∉ l → NoDup l → frames w !! f = Some p → at_ p = Running → prev_ p = None →
  inv (let w := {| w with stack := l; results := <[f := r]> (results w) |} in let w := put f {| p with at_ := Over r; prev_ := None; handles := [] |} w in {| w with q_c := q_c w ++ [f] |}).
Proof.
  intros Hi El Hnl Hnd Hp Hr Epv. destruct (view _ _ _ Hp) as (Es & _). rewrite Hr in Es. destruct (finish_facts _ _ _ Hi El Hnl Es) as (Hfd & Hfb & Hlx & Hrs).
  pose proof (frames_over _ _ _ _ f p r (v_frames _ Hi) Hp Hr Epv) as HF'. destruct Hi as [_ S S1 Q Q1 D D1 L].
  match goal with |- inv ?w' => destruct (doomed_snoc w w' f eq_refl eq_refl) as [HD HD1] end. constructor; cbn [frames put results next_id current_cancel stack q resuming]; try done.
  - intros x. rewrite Hlx, !st_insert. cbn. repeat case_decide; subst; naive_solver.
  - intros x. rewrite Q, !st_insert. cbn. repeat case_decide; subst; rewrite ?Es; done.
  - intros x. rewrite HD. eapply (doomed_more (frames w)); [exact D| |done| |done]; [|by rewrite st_insert, decide_True]. intros y s Hy Hs. by rewrite st_insert, decide_False.
  - by apply HD1.
Qed.

Lemma finish_bounced w f p l r g pg : inv w → stack w = f :: l → f ∉ l → NoDup l → frames w !! f = Some p → at_ p = Running → prev_ p = Some g → frames w !! g = Some pg → at_ pg = Awaiting f →
  inv (let w := {| w with stack := l; results := <[f := r]> (results w) |} in let w := put f {| p with at_ := Over r; prev_ := None; handles := [] |} w in
       let w := put g {| pg with next_ := None; pending_destroy_ := Some f; at_ := Back f |} w in {| w with q := q w ++ [g] |}).
Proof.
  intros Hi El Hnl Hnd Hp Hr Epv Eg Hg. destruct (view _ _ _ Hp) as (Es & _). destruct (view _ _ _ Eg) as (Esg & _). rewrite Hr in Es. rewrite Hg in Esg.
  destruct (finish_facts _ _ _ Hi El Hnl Es) as (Hfd & Hfb & Hlx & Hrs). pose proof (frames_handover _ _ _ _ f p g pg r _ true (v_frames _ Hi) Hp Hr Epv Eg eq_refl) as HF'.
  destruct Hi as [_ S S1 Q Q1 D D1 L]. constructor; cbn; try done.
  - intros x. rewrite Hlx, !st_insert. cbn. repeat case_decide; subst; naive_solver.
  - intros x. rewrite elem_of_app, list_elem_of_singleton, Q, !st_insert. cbn. repeat case_decide; subst; rewrite ?Es; naive_solver.
  - apply NoDup_snoc; [done|]. rewrite Q, Esg. done.
  - intros x. fold (doomed w). rewrite D. split.
    + intros [(r' & Hr') Hb]. split; [exists r'|intros y]; rewrite !st_insert; cbn; repeat case_decide; subst; try congruence; auto.
    + intros [(r' & Hr') Hb]. rewrite !st_insert in Hr'. cbn in Hr'. assert (Hxf : x ≠ f). { intros ->. apply (Hb g). rewrite st_insert, decide_True by done. done. }
      repeat case_decide; subst; try congruence. split; [by exists r'|]. intros y Hy. apply (Hb y). rewrite !st_insert. cbn. repeat case_decide; subst; congruence.
Qed.

Lemma finish_back w f p l r g pg : inv w → stack w = f :: l → f ∉ l → NoDup l → frames w !! f = Some p → at_ p = Running → prev_ p = Some g → frames w !! g = Some pg → at_ pg = Awaiting f → g < f →
  inv (let w := {| w with stack := l; results := <[f := r]> (results w) |} in let w := put f {| p with at_ := Over r; prev_ := None; handles := [] |} w in
       let w := put g {| pg with next_ := None; at_ := Running; got := got pg ++ [(f, r)] |} w in {| w with q_c := q_c w ++ [f]; stack := g :: stack w |}).
Proof.
  intros Hi El Hnl Hnd Hp Hr Epv Eg Hg Hlt. destruct (view _ _ _ Hp) as (Es & _). destruct (view _ _ _ Eg) as (Esg & _). rewrite Hr in Es. rewrite Hg in Esg.
  destruct (finish_facts _ _ _ Hi El Hnl Es) as (Hfd & Hfb & Hlx & Hrs). pose proof (frames_handover _ _ _ _ f p g pg r _ false (v_frames _ Hi) Hp Hr Epv Eg eq_refl) as HF'.
  destruct Hi as [_ S S1 Q Q1 D D1 L]. match goal with |- inv ?w' => destruct (doomed_snoc w w' f eq_refl eq_refl) as [HD HD1] end.
  constructor; cbn [frames put results next_id current_cancel stack q resuming]; try done.
  - intros x. rewrite elem_of_cons, Hlx, !st_insert. cbn. repeat case_decide; subst; naive_solver.
  - apply NoDup_cons. split; [|done]. rewrite Hlx, Esg. naive_solver.
  - intros x. rewrite Q, !st_insert. cbn. repeat case_decide; subst; rewrite ?Es, ?Esg; done.
  - intros x. rewrite HD. eapply (doomed_more (frames w)); [exact D| |done| |done].
    + intros y s Hy Hs. rewrite !st_insert. cbn. repeat case_decide; subst; [|done|done]. rewrite Esg. destruct Hs as [[? ->]|[? ->]]; done.
    + rewrite st_insert, decide_False, st_insert, decide_True by (done || lia). done.
  - by apply HD1.
Qed.

Lemma finish_keeps w r deep (o : outcome world) : inv w → act (Finish r deep) w = Some o → ∃ w', o = Done w' ∧ inv w'.
Proof.
  intros Hi. cbn. intros (f & Hf & [= <-])%bind_Some. destruct (top _ _ Hi Hf) as (p & l & El & Hnl & Hnd & Hp & Hr & Es). pose proof (v_frames _ Hi) as HF.
  unfold final_transfer, frame_of. rewrite Hp. orun. destruct (prev_ p) as [g|] eqn:Epv; [|eexists; split; [done|]; rewrite ?El; by apply finish_alone].
  destruct (view _ _ _ Hp) as (_ & Ev & _). rewrite Epv in Ev. pose proof (v_prev _ _ _ _ HF _ _ Ev) as Hg. destruct (v_awaits _ _ _ _ HF _ _ Hg) as (_ & Hlt & _).
  unfold st in Hg. destruct (frames w !! g) as [pg|] eqn:Eg; [|done]. injection Hg as Hg. cbn [frames put]. rewrite lookup_insert_ne, Eg by lia. orun. destruct deep.
  - eexists. split; [done|]. pose proof (finish_bounced w f p l r g pg Hi El Hnl Hnd Hp Hr Epv Eg Hg) as HI. rewrite El. exact HI.
  - cbn [frames put]. unfold get, frame_of. cbn [frames put]. rewrite lookup_insert_eq, lookup_insert_ne, lookup_insert_eq by lia. orun. cbn [at_]. eexists. split; [done|].
    pose proof (finish_back w f p l r g pg Hi El Hnl Hnd Hp Hr Epv Eg Hg Hlt) as HI. rewrite El. unfold put in *. cbn in *. by rewrite insert_insert_eq.
Qed.

(** ** The loop *)

Lemma frames_idle F R n cc cc' : frames_ok F R n cc → (∀ g, st F g ≠ Some Running) → frames_ok F R n cc'.
Proof. intros [B1 PD AW PV BK EN HO HO1 EA ID CN GT RS] Hn. constructor; try done. intros f Hf. by destruct (Hn f). Qed.

(** Nothing runs between two tasks. *)
Lemma nothing_runs w : inv w → stack w = [] → ∀ g, st (frames w) g ≠ Some Running.
Proof. intros Hi Hs g Hg%(v_stack _ Hi). rewrite Hs in Hg. by apply not_elem_of_nil in Hg. Qed.

Lemma resume_keeps w (o : outcome world) : inv w → act Resume w = Some o → ∃ w', o = Done w' ∧ inv w'.
Proof.
  intros Hi. cbn. destruct (resuming w) as [?|] eqn:Er; [done|]. destruct (q w) as [|f l] eqn:Eq; [done|]. intros [= <-]. pose proof (v_loop _ Hi Er) as Est. pose proof (nothing_runs _ Hi Est) as Hnr.
  assert (Hq : queued (st (frames w) f) = true) by (apply (v_q _ Hi); rewrite Eq; by left). pose proof (v_q1 _ Hi) as Hnd. rewrite Eq in Hnd. apply NoDup_cons in Hnd as [Hfl Hnd].
  pose proof (v_frames _ Hi) as HF. pose proof (v_pending _ _ _ _ HF f) as Hpd. unfold loop_resume, frame_of. cbn [frames].
  destruct (frames w !! f) as [p|] eqn:Ep; [|by unfold st in Hq; rewrite Ep in Hq]. destruct (view _ _ _ Ep) as (Es & _ & Ed & Ec & _). orun. rewrite Es in Hq, Hpd. rewrite Ed in Hpd.
  assert (HlQ : ∀ x, x ∈ l ↔ x ≠ f ∧ queued (st (frames w) x) = true) by (intros x; rewrite <- (v_q _ Hi), Eq, elem_of_cons; split; [intros Hx; split; [by intros ->|by right]|naive_solver]).
  destruct (at_ p) as [| | | | |c|] eqn:Ea; try done.
  - eexists. split; [done|]. apply (inv_plain w _ f p Running Hi Ep); cbn; rewrite ?Ea; try done.
    + by rewrite Hpd.
    + unfold doomed. cbn. by rewrite Hpd, Er.
    + intros g _ Hg. by destruct (Hnr g).
    + intros x. rewrite list_elem_of_singleton, Est. split; [naive_solver|]. intros [?|[_ Hx]]; [naive_solver|by apply not_elem_of_nil in Hx].
    + apply NoDup_singleton.
    + intros x. rewrite Eq, elem_of_cons. split; [intros Hx; right; split; [by intros ->|by right]|naive_solver].
  - destruct (v_back _ _ _ _ HF f c Es) as [Hlt (r & Hc)]. unfold get, frame_of. cbn [frames put]. rewrite lookup_insert_eq, lookup_insert_ne by lia. unfold st in Hc.
    destruct (frames w !! c) as [k|] eqn:Ek; [|done]. injection Hc as Hc. assert (Hcs : st (frames w) c = Some (Over r)) by (unfold st; rewrite Ek; cbn; by rewrite Hc). orun. rewrite Hc. eexists. split; [done|].
    pose proof (frames_read _ _ _ _ f p c r HF Ep Ea Hcs Hnr) as HF'. destruct Hi as [_ S S1 Q Q1 D D1 L].
    constructor; unfold doomed; cbn [frames put results next_id current_cancel stack q q_c resuming]; rewrite ?insert_insert_eq; try done.
    + intros x. rewrite list_elem_of_singleton, st_insert. cbn. specialize (Hnr x). case_decide; naive_solver.
    + apply NoDup_singleton.
    + intros x. rewrite HlQ, st_insert. cbn. case_decide; [subst|]; naive_solver.
    + rewrite Hpd. intros x. rewrite elem_of_app, list_elem_of_singleton. assert (Hx : x ∈ q_c w ↔ x ∈ doomed w) by (unfold doomed; by rewrite Er, app_nil_r). rewrite Hx, D. split.
      * intros [[(r' & Hr') Hb]| ->]; (split; [|intros g; rewrite st_insert; cbn; case_decide; [done|]]); [exists r'; rewrite st_insert, decide_False by congruence; done|apply Hb|exists r; rewrite st_insert, decide_False by lia; done|].
        intros Hg. by pose proof (v_back1 _ _ _ _ HF _ _ _ Es Hg).
      * intros [(r' & Hr') Hb]. rewrite st_insert in Hr'. cbn in Hr'. case_decide; [done|]. destruct (decide (x = c)) as [->|Hxc]; [by right|left]. split; [by exists r'|]. intros g Hg.
        apply (Hb g). rewrite st_insert. cbn. case_decide; [congruence|done].
    + rewrite Hpd. apply NoDup_snoc; unfold doomed in D1; rewrite Er, app_nil_r in D1; [done|]. intros Hin. assert (Hd : c ∈ doomed w) by (unfold doomed; by rewrite Er, app_nil_r). apply D in Hd as [_ Hd]. by apply (Hd f).
Qed.

Lemma return_keeps w (o : outcome world) : inv w → act Return w = Some o → ∃ w', o = Done w' ∧ inv w'.
Proof.
  intros Hi. cbn. destruct (resuming w) as [x|] eqn:Er; [|done]. destruct (stack w) as [|] eqn:Est; [|done]. intros [= <-]. eexists. split; [done|]. pose proof (nothing_runs _ Hi Est) as Hnr.
  assert (Ed : (q_c w ++ option_list x) ++ [] = doomed w) by (unfold doomed; rewrite Er, app_nil_r; by destruct x).
  pose proof (frames_idle _ _ _ _ None (v_frames _ Hi) Hnr). destruct Hi as [_ S S1 Q Q1 D D1 L]. constructor; unfold doomed; cbn; rewrite ?Ed, ?Est; try done; [intros; by rewrite <- S, Est|constructor].
Qed.

Lemma clean_keeps w (o : outcome world) : inv w → act Clean w = Some o → ∃ w', o = Done w' ∧ inv w'.
Proof.
  intros Hi. cbn. destruct (resuming w) as [?|] eqn:Er; [done|]. destruct (q_c w) as [|c l] eqn:Eq; [done|]. intros [= <-]. pose proof (v_loop _ Hi Er) as Est. pose proof (nothing_runs _ Hi Est) as Hnr.
  pose proof (v_frames _ Hi) as HF. destruct Hi as [_ S S1 Q Q1 D D1 L]. assert (Ed : doomed w = c :: l) by (unfold doomed; by rewrite Er, Eq, app_nil_r). rewrite Ed in D, D1.
  destruct (proj1 (D c) ltac:(by left)) as [(r & Hc) Hb]. unfold destroy, frame_of. cbn [frames]. unfold st in Hc. destruct (frames w !! c) as [k|] eqn:Ek; [|done]. injection Hc as Hc.
  assert (Hcs : st (frames w) c = Some (Over r)) by (unfold st; rewrite Ek; cbn; by rewrite Hc). orun. rewrite Hc. eexists. split; [done|]. apply NoDup_cons in D1 as [Hcl D1].
  assert (Hnh : ∀ g, c ∉ hs (frames w) g). { intros g Hg. destruct (v_holds _ _ _ _ HF _ _ Hg) as (_ & _ & H1 & H2 & _). destruct (eg (frames w) c); [by destruct (Hnr g), H2|]. by rewrite H1 in Hcs. }
  pose proof (frames_delete _ _ _ _ c r HF Hcs Hb Hnh) as HF'. constructor; unfold doomed; cbn; rewrite ?Er, ?app_nil_r; try done.
  - intros x. rewrite S, st_delete. case_decide; [subst; rewrite Hcs|]; naive_solver.
  - intros x. rewrite Q, st_delete. case_decide; [subst; by rewrite Hcs|done].
  - intros x. specialize (D x). rewrite elem_of_cons in D. split.
    + intros Hx. destruct (proj1 D ltac:(by right)) as [(r' & Hr') Hbx]. split; [exists r'|intros g]; rewrite st_delete; case_decide; subst; done || auto.
    + intros [(r' & Hr') Hbx]. rewrite st_delete in Hr'. case_decide; [done|]. destruct (proj2 D) as [?|?]; [|congruence|done]. split; [by exists r'|]. intros g Hg. apply (Hbx g). rewrite st_delete. case_decide; [subst; congruence|done].
Qed.

Lemma co_act w a (o : outcome world) : inv w → prompt a w = true → act a w = Some o → ∃ w', o = Done w' ∧ inv w'.
Proof.
  intros Hi Hp. destruct a; [by apply spawn_keeps|by apply body_call_keeps|by apply detach_keeps|by apply await_keeps|by apply wait_keeps|by apply wake_keeps|by apply finish_keeps|by apply resume_keeps|by apply return_keeps|by apply clean_keeps].
Qed.

(** ** Runs *)

(** Every body awaits its eager calls before it gives control away. *)
Fixpoint prompt_run (l : list action) (w : world) : bool :=
  match l with
  | [] => true
  | a :: l => prompt a w && match act a w with Some (Done w') => prompt_run l w' | _ => true end
  end.

Lemma co_run l : ∀ w (o : outcome world), inv w → prompt_run l w = true → run l w = Some o → ∃ w', o = Done w' ∧ inv w'.
Proof.
  induction l as [|a l IH]; cbn; intros w o Hi Hp Hr; [injection Hr as <-; by exists w|]. apply andb_true_iff in Hp as [Hp Hl]. destruct (act a w) as [o'|] eqn:Ea; [|done].
  destruct (co_act w a o' Hi Hp Ea) as (w' & -> & Hi'). by apply (IH w').
Qed.

(** Only bodies that have not begun or wait for something outside are there at rest. *)
Definition parked (F : gmap nat frame) f : Prop := st F f = Some Fresh ∨ st F f = Some Waiting ∨ ∃ c, st F f = Some (Awaiting c).

Lemma at_rest w : inv w → stack w = [] → q w = [] → doomed w = [] → ∀ f, is_Some (frames w !! f) → parked (frames w) f.
Proof.
  intros [HF S S1 Q0 Q1 D D1 L] Es Eq Ed f [p Hp]. destruct (view _ _ _ Hp) as (E & _). specialize (S f). pose proof (Q0 f) as Q. specialize (D f). rewrite Es in S. rewrite Eq in Q. rewrite Ed in D.
  rewrite E in *. unfold parked. rewrite E. destruct (at_ p) as [| | | |c|c|r]; eauto; exfalso.
  - by apply (not_elem_of_nil f), S.
  - by apply (not_elem_of_nil f), Q.
  - by apply (not_elem_of_nil f), Q.
  - apply (not_elem_of_nil f), D. split; [by exists r|]. intros g Hg. apply (not_elem_of_nil g). rewrite <- Eq. apply Q0. by rewrite Hg.
Qed.

(** Awaits lead, from callers to what they called, to a body that waits for something outside. *)
Definition waits_for w : relation nat := λ f c, st (frames w) f = Some (Awaiting c).

Lemma awaits_end w : inv w → (∀ f, is_Some (frames w !! f) → parked (frames w) f) → ∀ n f, next_id w - f ≤ n → busy (st (frames w) f) = true →
  ∃ g, rtc (waits_for w) f g ∧ st (frames w) g = Some Waiting.
Proof.
  intros Hi Hp n. assert (Hlt : ∀ f, busy (st (frames w) f) = true → is_Some (st (frames w) f) ∧ f < next_id w).
  { intros f Hb. assert (Hs : is_Some (st (frames w) f)) by (destruct (st (frames w) f); done || eauto). split; [done|]. apply (v_id _ _ _ _ (v_frames _ Hi)). by left. }
  induction n as [|n IH]; intros f Hn Hb; destruct (Hlt f Hb) as [Hs Hn']; [lia|].
  assert (Hf : is_Some (frames w !! f)) by (unfold st in Hs; destruct (frames w !! f); [eauto|by destruct Hs]).
  destruct (Hp f Hf) as [E|[E|[c E]]]; [by rewrite E in Hb|by exists f|]. destruct (v_awaits _ _ _ _ (v_frames _ Hi) _ _ E) as (_ & Hfc & _ & Hc).
  destruct (IH c ltac:(lia) Hc) as (g & Hg & Hw). exists g. split; [by eapply rtc_l|done].
Qed.

(** Frames go only after their end. *)
Definition kept w : Prop := ∀ f, f < next_id w → is_Some (frames w !! f) ∨ is_Some (results w !! f).

Lemma kept_more w w' : kept w → next_id w' = next_id w → (∀ f, is_Some (frames w !! f) → is_Some (frames w' !! f)) → (∀ f, is_Some (results w !! f) → is_Some (results w' !! f)) → kept w'.
Proof. intros Hk En HF HR f Hf. rewrite En in Hf. destruct (Hk f Hf); auto. Qed.

Lemma lookup_grows {A} (m : gmap nat A) i x f : is_Some (m !! f) → is_Some (<[i := x]> m !! f).
Proof. rewrite lookup_insert_is_Some'. tauto. Qed.

Lemma kept_get w w' c f : kept w → get c f w = Done w' → kept w'.
Proof.
  unfold get, frame_of. intros Hk. destruct (frames w !! f); [|done]. destruct (frames w !! c) as [k|]; [|done]. orun. destruct (at_ k); try done. intros [= <-].
  eapply kept_more; [exact Hk|done|cbn; eauto using lookup_grows..].
Qed.

Lemma kept_await w w' deep c f : kept w → await deep c f w = Done w' → kept w'.
Proof.
  unfold await, frame_of. intros Hk. destruct (frames w !! f) as [p|]; [|done]. orun.
  set (w1 := put f {| p with handles := filter (λ x, x ≠ c) (handles p) |} w).
  assert (Hk1 : kept w1) by (eapply kept_more; [exact Hk|done|cbn; eauto using lookup_grows..]). clearbody w1.
  destruct (frames w1 !! c) as [k|]; [|done]. orun. destruct (frames w1 !! f) as [p1|] eqn:Ep1; [|destruct (at_ k); try done; unfold get, frame_of; by rewrite Ep1].
  orun. cbn [io]. destruct (at_ k) eqn:Ek; [..|by apply kept_get]; (destruct (io k); [|destruct deep]); intros [= <-]; (eapply kept_more; [exact Hk1|done|cbn; eauto using lookup_grows..]).
Qed.

Lemma kept_finish w w' deep f r : kept w → final_transfer deep f r w = Done w' → kept w'.
Proof.
  unfold final_transfer, frame_of. intros Hk. destruct (frames w !! f) as [p|]; [|done]. orun.
  destruct (prev_ p) as [g|]; [|intros [= <-]; eapply kept_more; [exact Hk|done|cbn; eauto using lookup_grows..]].
  cbn [frames put]. destruct (<[f := _]> (frames w) !! g) as [pg|]; [|done]. orun.
  destruct deep; [intros [= <-]|apply kept_get]; (eapply kept_more; [exact Hk|done|cbn; eauto using lookup_grows..]).
Qed.

Lemma kept_resume w w' f : kept w → loop_resume f w = Done w' → kept w'.
Proof.
  unfold loop_resume, frame_of. intros Hk. destruct (frames w !! f) as [p|]; [|done]. orun. destruct (at_ p); try done; [intros [= <-]|apply kept_get|intros [= <-]; done].
  all: eapply kept_more; [exact Hk|done|cbn; eauto using lookup_grows..].
Qed.

(** A new frame has the next id. *)
Lemma kept_new w w' p : kept w → next_id w' = S (next_id w) → frames w' !! next_id w = Some p → (∀ f, is_Some (frames w !! f) → is_Some (frames w' !! f)) → results w' = results w → kept w'.
Proof. intros Hk En Ep HF ER f Hf. rewrite ER. destruct (decide (f = next_id w)) as [->|Hne]; [left; by rewrite Ep|]. destruct (Hk f ltac:(lia)); auto. Qed.

Lemma kept_destroyed w w' (c : nat) : inv w → kept w → c ∈ doomed w → next_id w' = next_id w → results w' = results w → frames w' = delete c (frames w) → kept w'.
Proof.
  intros Hi Hk Hc En ER EF f Hf. rewrite En in Hf. rewrite ER, EF. destruct (proj1 (v_doomed _ Hi c) Hc) as [(r & Hr) _]. destruct (v_end _ _ _ _ (v_frames _ Hi) _ _ Hr) as [_ HR].
  destruct (decide (f = c)) as [->|Hne]; [right; by rewrite HR|]. rewrite lookup_delete_ne by done. by apply Hk.
Qed.

Lemma kept_act w a w' : inv w → kept w → act a w = Some (Done w') → kept w'.
Proof.
  intros Hi Hk. destruct a as [|eager|c|c deep| |f|r deep| | |]; cbn.
  - intros [= <-]. eapply kept_new; [exact Hk|done|apply lookup_insert_eq|cbn; eauto using lookup_grows|done].
  - intros (f & _ & [= Hs])%bind_Some. unfold call, frame_of in Hs. destruct (frames w !! f); [|done]. injection Hs as <-.
    eapply kept_new; [exact Hk|done|apply lookup_insert_eq|cbn; eauto using lookup_grows|done].
  - intros (f & _ & (p & _ & Hs)%bind_Some)%bind_Some. case_bool_decide; [|done]. destruct (frames w !! c) as [k|]; [|done]. destruct (io k); [done|]. injection Hs as <-.
    eapply kept_more; [exact Hk|done|cbn; eauto using lookup_grows..].
  - intros (f & _ & (p & _ & Hs)%bind_Some)%bind_Some. case_bool_decide; [|done]. injection Hs as Hs. by eapply kept_await.
  - intros (f & _ & [= Hs])%bind_Some. unfold frame_of in Hs. destruct (frames w !! f); [|done]. injection Hs as <-. eapply kept_more; [exact Hk|done|cbn; eauto using lookup_grows..].
  - intros (p & _ & Hs)%bind_Some. destruct (at_ p); try done. injection Hs as <-. eapply kept_more; [exact Hk|done|cbn; eauto using lookup_grows..].
  - intros (f & _ & [= Hs])%bind_Some. by eapply kept_finish.
  - destruct (resuming w); [done|]. destruct (q w); [done|]. intros [= Hs]. eapply kept_resume, Hs. exact Hk.
  - destruct (resuming w); [|done]. destruct (stack w); [|done]. intros [= <-]. exact Hk.
  - destruct (resuming w) eqn:Er; [done|]. destruct (q_c w) as [|c l] eqn:Eq; [done|]. intros [= Hs]. unfold destroy, frame_of in Hs. cbn in Hs. destruct (frames w !! c) as [k|]; [|done].
    assert (Hc : c ∈ doomed w) by (unfold doomed; rewrite Eq; by left). cbn in Hs. destruct (at_ k); try done; injection Hs as <-; by apply (kept_destroyed w _ c).
Qed.

Lemma kept_run l : ∀ w w', inv w → kept w → prompt_run l w = true → run l w = Some (Done w') → kept w'.
Proof.
  induction l as [|a l IH]; cbn; intros w w' Hi Hk Hp Hr; [by injection Hr as <-|]. apply andb_true_iff in Hp as [Hp Hl]. destruct (act a w) as [o'|] eqn:Ea; [|done].
  destruct (co_act w a o' Hi Hp Ea) as (w1 & -> & Hi'). apply (IH w1); try done. exact (kept_act w a w1 Hi Hk Ea).
Qed.

Lemma kept_start : kept world_new.
Proof. intros f Hf. cbn in Hf. lia. Qed.

(** * The claims *)

(** C13 (safety). However bodies call, await, wait and end, lazily or eagerly, and however often
    the native stack is too deep, as long as a body awaits its eager calls before it gives
    control away: no frame is used after it was destroyed, destroyed twice or resumed when it
    cannot be; every await returned what the awaited coroutine returned or threw; the running
    bodies find the cancel state of their own frame in [current_cancel], and a coroutine that is
    awaited has that of the one that awaits it; and a frame goes only after its end. *)
Theorem coroutines_safe (l : list action) (o : outcome world) : prompt_run l world_new = true → run l world_new = Some o →
  ∃ w, o = Done w ∧
    (∀ f p c r, frames w !! f = Some p → (c, r) ∈ got p → results w !! c = Some r) ∧
    (∀ f p, frames w !! f = Some p → at_ p = Running → cancel_ p = current_cancel w) ∧
    (∀ f p c k, frames w !! f = Some p → at_ p = Awaiting c → frames w !! c = Some k → cancel_ k = cancel_ p) ∧
    (∀ f, f < next_id w → frames w !! f = None → is_Some (results w !! f)).
Proof.
  intros Hp Hr. destruct (co_run _ _ _ co_new Hp Hr) as (w & -> & Hi). exists w. split; [done|]. pose proof (kept_run _ _ _ co_new kept_start Hp Hr) as Hk. split_and!.
  - intros f p c r Hf Hc. destruct (view _ _ _ Hf) as (_ & _ & _ & _ & _ & _ & Eg). apply (v_got _ _ _ _ (v_frames _ Hi) f). by rewrite Eg.
  - intros f p Hf Ha. destruct (view _ _ _ Hf) as (Es & _ & _ & Ec & _). rewrite <- Ec. apply (v_cancel _ _ _ _ (v_frames _ Hi)). by rewrite Es, Ha.
  - intros f p c k Hf Ha Hc. destruct (view _ _ _ Hf) as (Es & _ & _ & Ec & _). destruct (view _ _ _ Hc) as (_ & _ & _ & Ec' & _). rewrite Ha in Es. destruct (v_awaits _ _ _ _ (v_frames _ Hi) _ _ Es) as (_ & _ & H & _). congruence.
  - intros f Hf E. destruct (Hk f Hf) as [Hs|?]; [|done]. by rewrite E in Hs; destruct Hs.
Qed.

(** A body calls an eager coroutine that waits, awaits it, and is brought back through the
    queue; then a lazy one that throws. *)
Definition example_run : list action :=
  [Spawn (Some 9); Resume; Call true; Wait; Await 1 false; Return; Wake 1; Resume; Finish (Value 7) true; Return; Resume; Call false; Await 2 true; Return; Clean; Resume;
   Finish (Exn 5) false; Finish (Value 0) false; Return].

Lemma coroutines_safe_witness : prompt_run example_run world_new = true ∧ ∃ w, run example_run world_new = Some (Done w) ∧ q_c w = [2; 0] ∧
  (∀ f, f < next_id w → frames w !! f = None → is_Some (results w !! f)) ∧ frames w !! 1 = None.
Proof.
  assert (Hp : prompt_run example_run world_new = true) by (vm_compute; reflexivity).
  assert (E : ∃ w, run example_run world_new = Some (Done w) ∧ q_c w = [2; 0] ∧ frames w !! 1 = None) by (vm_compute; eexists; split; [reflexivity|split; reflexivity]).
  destruct E as (w & E & Eq & E1). split; [exact Hp|]. exists w. destruct (coroutines_safe example_run (Done w) Hp E) as (w' & [= <-] & _ & _ & _ & H). exact (conj E (conj Eq (conj H E1))).
Defined.

(** C18 (liveness). As long as bodies await their eager calls before they give control away:
    when the loop has nothing more to do, every frame that is left belongs to
    a coroutine that was never started or that waits, itself or through what it awaits, for
    something outside: the frames of all others have been destroyed. *)
Theorem coroutine_frames_reclaimed (l : list action) (w : world) : prompt_run l world_new = true → run l world_new = Some (Done w) →
  resuming w = None → q w = [] → q_c w = [] →
  ∀ f p, frames w !! f = Some p → at_ p = Fresh ∨ ∃ g, rtc (waits_for w) f g ∧ st (frames w) g = Some Waiting.
Proof.
  intros Hp Hr Er Eq Ec f p Hf. destruct (co_run _ _ _ co_new Hp Hr) as (w' & [= <-] & Hi).
  assert (Hrest : ∀ f, is_Some (frames w !! f) → parked (frames w) f) by (apply at_rest; [done|by apply (v_loop _ Hi)|done|unfold doomed; by rewrite Er, Ec]).
  destruct (view _ _ _ Hf) as (Es & _). destruct (Hrest f (mk_is_Some _ _ Hf)) as [E|Hx]; [left; congruence|right].
  eapply (awaits_end w Hi Hrest (next_id w - f)); [lia|]. by destruct Hx as [->|[? ->]].
Qed.

Definition rest_run : list action := example_run ++ [Clean; Clean; Spawn None; Resume; Call false; Await 4 false; Wait; Return].

Lemma coroutine_frames_reclaimed_witness : prompt_run rest_run world_new = true ∧ ∃ w, run rest_run world_new = Some (Done w) ∧
  map fst (map_to_list (frames w)) = [4; 3] ∧ ∀ f p, frames w !! f = Some p → at_ p = Fresh ∨ ∃ g, rtc (waits_for w) f g ∧ st (frames w) g = Some Waiting.
Proof.
  assert (Hp : prompt_run rest_run world_new = true) by (vm_compute; reflexivity).
  assert (E : ∃ w, run rest_run world_new = Some (Done w) ∧ map fst (map_to_list (frames w)) = [4; 3] ∧ resuming w = None ∧ q w = [] ∧ q_c w = []).
  { vm_compute. eexists. split; [reflexivity|]. split; [reflexivity|]. split; [reflexivity|]. split; reflexivity. }
  destruct E as (w & E & Em & E1 & E2 & E3). split; [exact Hp|]. exists w. exact (conj E (conj Em (coroutine_frames_reclaimed rest_run w Hp E E1 E2 E3))).
Defined.

(** ** What is not covered *)

(** An eager call that ends at once is put to be destroyed: a body that waits for something
    else before it awaits it reads a frame that is gone. *)
Theorem late_await_of_eager_call : run [Spawn None; Resume; Call true; Finish (Value 7) false; Wait; Return; Clean; Wake 0; Resume; Await 1 false] world_new = Some UB.
Proof. vm_compute. reflexivity. Qed.

(** The frame of a lazy coroutine that is not awaited is never destroyed. *)
Theorem lazy_call_leaks : ∃ w, run [Spawn None; Resume; Call false; Finish (Value 0) false; Return; Clean] world_new = Some (Done w) ∧ q w = [] ∧ q_c w = [] ∧ st (frames w) 1 = Some Fresh.
Proof. vm_compute. eexists. split; [reflexivity|]. repeat split. Qed.
End CoroutineCorrect.
