(* ===== verification/UringRecv.v ===== *)
(** Receiving over io_uring ([IOUringOps.h], [IOUringPoller.cpp], [SocketLinuxIOUring.h]): one
    multishot request per socket, for which the kernel fills buffers of a ring that all sockets
    of a worker share; completions put the filled buffers into the queue of the socket, reads
    copy from there and give the buffers back.

    One worker.  The kernel is the schedule: when bytes arrive, how many it puts into a buffer,
    when it ends a request and with which error.  What is fixed of it is its documented
    behaviour: it completes only requests it holds, fills only buffers of the ring, in order, and
    flags every completion of a request but the last with [IORING_CQE_F_MORE]. *)

From S2P Require Import Prelude.

Module UringRecv.

Local Open Scope nat_scope.

(** * The queue of a request *)

Record Seg := mkSeg { len : nat; off : nat; bid : nat }.

Definition kInlineSegs : nat := 16.

Record MultishotRecvOp := mkOp {
  header : option nat;
  segs : list Seg;
  head_ : nat;
  count : nat;
  spill : list Seg;
  armed : bool;
  waiting : bool;
  has_terminal : bool;
  terminal : Z
}.

Definition op_new : MultishotRecvOp := mkOp None (replicate kInlineSegs (mkSeg 0 0 0)) 0 0 [] false false false 0%Z.

Definition has_data (op : MultishotRecvOp) : bool := negb (count op =? 0) || negb (bool_decide (spill op = [])).

Definition push (s : Seg) (op : MultishotRecvOp) : MultishotRecvOp :=
  if (count op <? kInlineSegs) && bool_decide (spill op = [])
  then {| op with segs := <[(head_ op + count op) `mod` kInlineSegs := s]> (segs op); count := S (count op) |}
  else {| op with spill := spill op ++ [s] |}.

Definition front (op : MultishotRecvOp) : option Seg :=
  if negb (count op =? 0) then segs op !! head_ op else head (spill op).

(** A store through the pointer that [front] returns. *)
Definition set_front (s : Seg) (op : MultishotRecvOp) : MultishotRecvOp :=
  if negb (count op =? 0) then {| op with segs := <[head_ op := s]> (segs op) |} else {| op with spill := <[0 := s]> (spill op) |}.

Definition pop_front (op : MultishotRecvOp) : MultishotRecvOp :=
  if negb (count op =? 0) then {| op with head_ := S (head_ op) `mod` kInlineSegs; count := pred (count op) |} else {| op with spill := tail (spill op) |}.

(** * Copying out *)

Definition kBufCount : nat := 256.
Definition kBufSize : nat := Z.to_nat 16384.

(** The memory of a buffer. *)
Definition load_bytes (m : list Z) (o n : nat) : outcome (list Z) :=
  if o + n <=? length m then Done (take n (drop o m)) else UB.

Fixpoint consume_ms_recv (fuel : nat) (pool : list (list Z)) (ring : list nat) (op : MultishotRecvOp) (max : nat) (dst : list Z) : outcome (list Z * list nat * MultishotRecvOp) :=
  match fuel with
  | O => OutOfFuel
  | S fuel =>
      if length dst <? max then
        match front op with
        | None => Done (dst, ring, op)
        | Some s =>
            let avail := len s - off s in
            let n := if avail <? max - length dst then avail else max - length dst in
            m ← deref (pool !! bid s); l ← load_bytes m (off s) n;
            let s := {| s with off := off s + n |} in
            let op := set_front s op in
            let dst := dst ++ l in
            if off s =? len s then consume_ms_recv fuel pool (ring ++ [bid s]) (pop_front op) max dst
            else consume_ms_recv fuel pool ring op max dst
        end
      else Done (dst, ring, op)
  end.

(** * Sockets and the poller *)

Inductive ret := Bytes (l : list Z) | Code (z : Z).

Inductive reader := Idle | Waiting (max : nat) | Queued (max : nat).

Record sock := mkSock {
  alive : bool;                (** its header has not been deleted *)
  inbox : list Z;              (** bytes in the kernel *)
  peer_closed : bool;
  op : MultishotRecvOp;
  first_read_done : bool;
  refs : nat;                  (** the count of the header's state word *)
  rd : reader;
  handles : nat;               (** history: sockets of the program that name the header *)
  arms : nat;                  (** history: how often a request was armed *)
  sent : list Z;               (** history: what the peer has sent *)
  rets : list ret              (** history: what reads returned *)
}.

Definition sock_new : sock := mkSock true [] false op_new false 1 Idle 1 0 [] [].

Inductive sqe := SRecv (i : nat) | SCancel (i : nat).

(** A completion: for which socket (none for that of a cancellation), the result, the buffer,
    and whether more follow. *)
Record cqe := mkCqe { data : option nat; res : Z; buffer : option nat; more : bool }.

Record world := mkWorld {
  socks : list sock;
  sq : list sqe;               (** prepared, not submitted *)
  kern : gset nat;             (** the requests the kernel holds *)
  cq : list cqe;
  ring : list nat;             (** the buffers the kernel may fill *)
  pool : list (list Z)
}.

Definition world_new : world := mkWorld [] [] ∅ [] (seq 0 kBufCount) (replicate kBufCount (replicate kBufSize 0%Z)).

Definition put (i : nat) (s : sock) (w : world) : world := {| w with socks := <[i := s]> (socks w) |}.

(** A use of the header. *)
Definition sock_of (i : nat) (w : world) : outcome sock :=
  s ← deref (socks w !! i); if alive s then Done s else UB.

(** ** Submissions *)

Definition ring_entries : nat := Z.to_nat 1024.

Definition received (e : sqe) : option nat := match e with SRecv i => Some i | SCancel _ => None end.

Definition submit (w : world) : world :=
  {| w with kern := list_to_set (omap received (sq w)) ∪ kern w;
            cq := cq w ++ omap (λ e, match e with SCancel _ => Some (mkCqe None 0 None false) | _ => None end) (sq w);
            sq := [] |}.

(** The kernel may refuse to take the entries. *)
Definition get_sqe_flush (takes : bool) (w : world) : option world :=
  if length (sq w) <? ring_entries then Some w else if takes then Some (submit w) else None.

Definition submit_recv_multishot (takes : bool) (i : nat) (w : world) : outcome world :=
  s ← sock_of i w;
  match get_sqe_flush takes w with
  | None => Done w
  | Some w => Done (let w := {| w with sq := sq w ++ [SRecv i] |} in put i {| s with op := {| (op s) with armed := true |} |} w)
  end.

Definition submit_cancel (takes : bool) (i : nat) (w : world) : outcome world :=
  match get_sqe_flush takes w with
  | None => Done w
  | Some w => Done {| w with sq := sq w ++ [SCancel i] |}
  end.

(** ** References *)

Fixpoint recycle_all (fuel : nat) (rg : list nat) (op : MultishotRecvOp) : outcome (list nat * MultishotRecvOp) :=
  match fuel with
  | O => OutOfFuel
  | S fuel => match front op with None => Done (rg, op) | Some s => recycle_all fuel (rg ++ [bid s]) (pop_front op) end
  end.

(** [Socket::destroy] *)
Definition destroy (i : nat) (w : world) : outcome world :=
  s ← sock_of i w;
  r ← recycle_all (S (count (op s) + length (spill (op s)))) (ring w) (op s);
  let w := put i {| s with op := r.2; alive := false |} w in
  Done {| w with ring := r.1 |}.

Definition release (i : nat) (w : world) : outcome world :=
  s ← sock_of i w;
  let w := put i {| s with refs := pred (refs s) |} w in
  if refs s =? 1 then destroy i w else Done w.

(** [add_ref_for_ms_recv] *)
Definition add_ref (i : nat) (w : world) : outcome world :=
  s ← sock_of i w; Done (put i {| s with refs := S (refs s); arms := S (arms s) |} w).

(** A socket made from the pointer dies at once; one made from a null pointer does nothing. *)
Definition drop_recv_ref (h : option nat) (w : world) : outcome world :=
  match h with None => Done w | Some i => release i w end.

(** ** Reads *)

(** [MultishotRecvAwaiter::await_suspend]: whether the coroutine waits. *)
Definition await_suspend (takes : bool) (i : nat) (w : world) : outcome (bool * world) :=
  s ← sock_of i w;
  w ← (if negb (armed (op s)) && negb (has_terminal (op s)) then
         w ← submit_recv_multishot takes i w;
         s ← sock_of i w;
         if armed (op s) then add_ref i w else Done w
       else Done w);
  s ← sock_of i w;
  if has_data (op s) || has_terminal (op s) then Done (false, w)
  else Done (true, put i {| s with op := {| (op s) with waiting := true |} |} w).

Definition ENOBUFS : Z := 105.
Definition EAGAIN : Z := 11.

Definition give (i : nat) (r : ret) (w : world) : outcome world :=
  s ← sock_of i w; Done (put i {| s with rd := Idle; rets := rets s ++ [r] |} w).

(** [async_read] from the beginning of its loop. *)
Fixpoint read_loop (fuel : nat) (takes : bool) (i max : nat) (w : world) : outcome world :=
  match fuel with
  | O => OutOfFuel
  | S fuel =>
      s ← sock_of i w;
      if has_data (op s) then
        r ← consume_ms_recv (S (count (op s) + length (spill (op s)))) (pool w) (ring w) (op s) max [];
        let w := put i {| s with op := r.2 |} w in
        give i (Bytes r.1.1) {| w with ring := r.1.2 |}
      else if has_terminal (op s) && negb (terminal (op s) =? - ENOBUFS)%Z then give i (Code (terminal (op s))) w
      else
        let w := if has_terminal (op s) then put i {| s with op := {| (op s) with has_terminal := false; terminal := 0%Z |} |} w else w in
        s ← sock_of i w;
        if has_data (op s) || has_terminal (op s) then read_loop fuel takes i max w
        else
          r ← await_suspend takes i w;
          s ← sock_of i r.2;
          if r.1 : bool then Done (put i {| s with rd := Waiting max |} r.2)
          else read_loop fuel takes i max (put i {| s with op := {| (op s) with waiting := false |} |} r.2)
  end.

(** What the kernel answers to a direct [recv] of at most [max] bytes. *)
Inductive recv_answer := RBytes (n : nat) | REof | RAgain | RErr (e : Z).

Definition recv_ok (s : sock) (max : nat) (a : recv_answer) : bool :=
  match a with
  | RBytes n => (1 <=? n) && (n <=? max) && (n <=? length (inbox s))
  | REof => bool_decide (inbox s = []) && peer_closed s
  | RAgain => bool_decide (inbox s = []) && negb (peer_closed s)
  | RErr e => (0 <? e)%Z && negb (e =? EAGAIN)%Z
  end.

(** [async_read] into a [DynamicBuffer]: the first one asks the kernel directly. *)
Definition async_read_buffer (takes : bool) (i max : nat) (a : recv_answer) (w : world) : outcome world :=
  s ← sock_of i w;
  if first_read_done s then read_loop 2 takes i max w
  else
    let s := {| s with first_read_done := true |} in
    match a with
    | RBytes n => give i (Bytes (take n (inbox s))) (put i {| s with inbox := drop n (inbox s) |} w)
    | REof => give i (Code 0%Z) (put i s w)
    | RErr e => give i (Code (- e)%Z) (put i s w)
    | RAgain => read_loop 2 takes i max (put i s w)
    end.

(** ** Completions *)

Definition handle_cqe (c : cqe) (w : world) : outcome world :=
  match data c with
  | None => Done w
  | Some i =>
      s ← sock_of i w;
      let o := op s in
      let was_armed := armed o in
      let o := match buffer c with
               | Some b => if (0 <? res c)%Z then push (mkSeg (Z.to_nat (res c)) 0 b) o else {| o with has_terminal := true; terminal := res c |}
               | None => {| o with has_terminal := true; terminal := res c |}
               end in
      let o := if more c then o else {| o with armed := false |} in
      let s := if waiting o then {| s with op := {| o with waiting := false |}; rd := match rd s with Waiting n => Queued n | r => r end |} else {| s with op := o |} in
      let w := put i s w in
      if was_armed && negb (armed o) then drop_recv_ref (header o) w else Done w
  end.

(** * The machine *)

Inductive action :=
| Open                                           (** a connection *)
| Arrive (i : nat) (l : list Z)                  (** bytes from the peer *)
| Close (i : nat)                                (** it has sent everything *)
| Read (i max : nat) (takes : bool)              (** [async_read] into memory *)
| ReadBuffer (i max : nat) (takes : bool) (a : recv_answer)
| Resume (i : nat) (takes : bool)                (** the loop resumes the reader *)
| Submit
| KData (i n : nat) (more : bool)                (** the kernel fills a buffer *)
| KEof (i : nat)
| KErr (i : nat) (e : Z)
| Poll                                           (** a completion is handled *)
| Cancel (i : nat) (takes : bool)                (** the timeout of the socket *)
| Copy (i : nat)
| Drop (i : nat).

Definition guard_some {A} (b : bool) (x : A) : option A := if b then Some x else None.

(** The kernel writes to a buffer. *)
Definition fill (m l : list Z) : list Z := l ++ drop (length l) m.

Definition usable (i : nat) (w : world) : option sock :=
  s ← socks w !! i; guard_some (alive s && negb (handles s =? 0)) s.

Definition act (a : action) (w : world) : option (outcome world) :=
  match a with
  | Open => Some (Done {| w with socks := socks w ++ [sock_new] |})
  | Arrive i l => s ← socks w !! i; guard_some (negb (peer_closed s)) (Done (put i {| s with inbox := inbox s ++ l; sent := sent s ++ l |} w))
  | Close i => s ← socks w !! i; Some (Done (put i {| s with peer_closed := true |} w))
  | Read i max takes =>
      s ← usable i w;
      match rd s with Idle => guard_some (1 <=? max) (read_loop 2 takes i max w) | _ => None end
  | ReadBuffer i max takes a =>
      s ← usable i w;
      match rd s with Idle => guard_some ((1 <=? max) && recv_ok s max a) (async_read_buffer takes i max a w) | _ => None end
  | Resume i takes =>
      s ← socks w !! i;
      match rd s with
      | Queued max => Some (s ← sock_of i w; read_loop 2 takes i max (put i {| s with op := {| (op s) with waiting := false |} |} w))
      | _ => None
      end
  | Submit => Some (Done (submit w))
  | KData i n mr =>
      s ← socks w !! i;
      if decide (i ∈ kern w) then
        if (1 <=? n) && (n <=? length (inbox s)) && (n <=? kBufSize) then
          match ring w with
          | [] => None
          | b :: rg =>
              m ← pool w !! b;
              Some (Done (let w := put i {| s with inbox := drop n (inbox s) |} w in
                          {| w with ring := rg; pool := <[b := fill m (take n (inbox s))]> (pool w); kern := if mr : bool then kern w else kern w ∖ {[i]};
                                    cq := cq w ++ [mkCqe (Some i) (Z.of_nat n) (Some b) mr] |}))
          end
        else None
      else None
  | KEof i =>
      s ← socks w !! i;
      if decide (i ∈ kern w) then
        guard_some (bool_decide (inbox s = []) && peer_closed s) (Done {| w with kern := kern w ∖ {[i]}; cq := cq w ++ [mkCqe (Some i) 0 None false] |})
      else None
  | KErr i e =>
      if decide (i ∈ kern w) then guard_some (0 <? e)%Z (Done {| w with kern := kern w ∖ {[i]}; cq := cq w ++ [mkCqe (Some i) (- e) None false] |}) else None
  | Poll => match cq w with [] => None | c :: l => Some (handle_cqe c {| w with cq := l |}) end
  | Cancel i takes => Some (submit_cancel takes i w)
  | Copy i => s ← usable i w; Some (Done (put i {| s with refs := S (refs s); handles := S (handles s) |} w))
  | Drop i =>
      s ← usable i w;
      match rd s with
      | Idle => Some (release i (put i {| s with handles := pred (handles s) |} w))
      | _ => guard_some (2 <=? handles s) (release i (put i {| s with handles := pred (handles s) |} w))
      end
  end.

Fixpoint run (l : list action) (w : world) : option (outcome world) :=
  match l with
  | [] => Some (Done w)
  | a :: l => match act a w with Some (Done w') => run l w' | o => o end
  end.
End UringRecv.
