(* ===== verification/UringRecvCorrect.v ===== *)
(** Receiving over io_uring: reads return the bytes of the peer in order, no buffer of the ring
    is lost or filled while its bytes are still to be read, and a reader that waits has a request
    in flight, as long as the first read into a buffer comes before any other. *)

From S2P Require Import Prelude UringRecv.

Module UringRecvCorrect.
Import UringRecv.
Local Open Scope nat_scope.
Implicit Types (o : MultishotRecvOp) (s : sock) (w : world) (c : cqe) (g : Seg).

#[local] Arguments Nat.modulo : simpl never.
#[local] Arguments seq : simpl never.
#[local] Arguments kBufSize : simpl never.
#[local] Arguments kBufCount : simpl never.

(** * The queue of a request is a sequence *)

Definition item o (k : nat) : Seg := default (mkSeg 0 0 0) (segs o !! ((head_ o + k) `mod` kInlineSegs)).
Definition queue o : list Seg := (item o <$> seq 0 (count o)) ++ spill o.

Definition op_ok o : Prop := length (segs o) = kInlineSegs ∧ head_ o < kInlineSegs ∧ count o ≤ kInlineSegs.

(** What the queue does not concern. *)
Definition flags o := (header o, armed o, waiting o, has_terminal o, terminal o).

Lemma slot_cases a k : a < kInlineSegs → k ≤ kInlineSegs → (a + k) `mod` kInlineSegs = if decide (a + k < kInlineSegs) then a + k else a + k - kInlineSegs.
Proof.
  unfold kInlineSegs. intros Ha Hk. case_decide; [by apply Nat.mod_small|]. symmetry. apply (Nat.mod_unique _ _ 1); lia.
Qed.

Lemma slot_lt a : a `mod` kInlineSegs < kInlineSegs.
Proof. by apply Nat.mod_upper_bound. Qed.

Lemma queue_new : queue op_new = [] ∧ op_ok op_new.
Proof. split; [done|]. unfold op_ok, kInlineSegs. cbn. lia. Qed.

Lemma has_data_queue o : has_data o = negb (bool_decide (queue o = [])).
Proof.
  unfold has_data, queue. by destruct (count o).
Qed.

Lemma has_data_false o : has_data o = false ↔ queue o = [].
Proof. rewrite has_data_queue. case_bool_decide; cbn; naive_solver. Qed.

Lemma items_ext o o' n n' : (∀ k, k < n → item o k = item o' (n' + k)) → item o <$> seq 0 n = item o' <$> seq n' n.
Proof.
  intros H. apply list_eq. intros k. rewrite !list_lookup_fmap. destruct (decide (k < n)); [rewrite !lookup_seq_lt by done; cbn; by rewrite H|rewrite !lookup_seq_ge by lia; done].
Qed.

Lemma push_seg_ok o g : op_ok o → queue (push g o) = queue o ++ [g] ∧ op_ok (push g o) ∧ flags (push g o) = flags o.
Proof.
  intros (Hl & Hh & Hc). unfold push. destruct (count o <? kInlineSegs) eqn:E; [apply Nat.ltb_lt in E|]; cbn; [case_bool_decide as Hs|].
  2,3: split; [unfold queue, item; cbn; by rewrite app_assoc|by split].
  unfold op_ok. cbn. rewrite length_insert. split; [|split; [lia|done]]. unfold queue. cbn [spill count]. rewrite Hs, !app_nil_r.
  rewrite seq_S, fmap_app. f_equal.
  - apply items_ext. intros k Hk. unfold item. cbn. rewrite list_lookup_insert_ne; [done|]. rewrite !slot_cases by lia. repeat case_decide; lia.
  - unfold item. cbn. rewrite list_lookup_insert_eq; [done|]. rewrite Hl. apply slot_lt.
Qed.

Lemma queue_spill o : count o = 0 → queue o = spill o.
Proof. intros E. unfold queue. by rewrite E. Qed.

Lemma queue_cons o n : count o = S n → queue o = item o 0 :: (item o <$> seq 1 n) ++ spill o.
Proof. intros E. unfold queue. by rewrite E. Qed.

Lemma front_queue o : op_ok o → front o = head (queue o).
Proof.
  intros (Hl & Hh & Hc). unfold front. destruct (count o) as [|n] eqn:E; cbn; [by rewrite queue_spill|]. rewrite (queue_cons o n E). cbn. unfold item. rewrite Nat.add_0_r, Nat.mod_small by done.
  destruct (lookup_lt_is_Some_2 (segs o) (head_ o)) as [x Hx]; [lia|]. by rewrite Hx.
Qed.

Lemma set_front_ok o g g' l : op_ok o → queue o = g' :: l → queue (set_front g o) = g :: l ∧ op_ok (set_front g o) ∧ flags (set_front g o) = flags o.
Proof.
  intros (Hl & Hh & Hc) Hq. unfold set_front. destruct (count o) as [|n] eqn:E; cbn.
  - rewrite (queue_spill o E) in Hq. rewrite queue_spill by done. unfold op_ok. cbn. rewrite Hq. split_and!; done || lia.
  - rewrite (queue_cons o n E) in Hq. injection Hq as _ Hq. unfold op_ok. cbn. rewrite length_insert, ?E. split; [|done]. rewrite (queue_cons _ n) by done. rewrite <- Hq. cbn. f_equal; [|f_equal].
    + unfold item. cbn. rewrite Nat.add_0_r, Nat.mod_small by done. by rewrite list_lookup_insert_eq by lia.
    + apply list_eq. intros k. rewrite !list_lookup_fmap. destruct (decide (k < n)); [rewrite !lookup_seq_lt by done|by rewrite !lookup_seq_ge by lia]. cbn. f_equal. unfold item. cbn.
      rewrite list_lookup_insert_ne; [done|]. rewrite slot_cases by lia. case_decide; lia.
Qed.

Lemma pop_front_ok o g l : op_ok o → queue o = g :: l → queue (pop_front o) = l ∧ op_ok (pop_front o) ∧ flags (pop_front o) = flags o.
Proof.
  intros (Hl & Hh & Hc) Hq. unfold pop_front. destruct (count o) as [|n] eqn:E; cbn.
  - rewrite (queue_spill o E) in Hq. rewrite queue_spill by done. unfold op_ok. cbn. rewrite Hq. split_and!; done || lia.
  - rewrite (queue_cons o n E) in Hq. injection Hq as _ <-. unfold op_ok. cbn. split; [|split; [split_and!; [done|apply slot_lt|lia]|done]]. unfold queue. cbn. f_equal. apply items_ext.
    intros k Hk. unfold item. cbn. do 2 f_equal. rewrite (Nat.Div0.add_mod_idemp_l (S (head_ o)) k kInlineSegs). f_equal. lia.
Qed.

(** * Copying out *)

Implicit Types (P : list (list Z)).

(** The bytes of a segment, and of several. *)
Definition seg_bytes P g : list Z := match P !! bid g with Some m => take (len g - off g) (drop (off g) m) | None => [] end.
Definition content P (l : list Seg) : list Z := concat (seg_bytes P <$> l).

Definition seg_ok g : Prop := off g < len g ∧ len g ≤ kBufSize ∧ bid g < kBufCount.
Definition pool_ok P : Prop := length P = kBufCount ∧ Forall (λ m, length m = kBufSize) P.

Lemma pool_at P b : pool_ok P → b < kBufCount → ∃ m, P !! b = Some m ∧ length m = kBufSize.
Proof. intros [Hl HF] Hb. destruct (lookup_lt_is_Some_2 P b) as [m Hm]; [lia|]. exists m. split; [done|]. by apply (Forall_lookup_1 _ _ _ _ HF Hm). Qed.

Lemma content_app P l1 l2 : content P (l1 ++ l2) = content P l1 ++ content P l2.
Proof. unfold content. by rewrite fmap_app, concat_app. Qed.

Lemma content_one P g : content P [g] = seg_bytes P g.
Proof. unfold content. cbn. by rewrite app_nil_r. Qed.

Lemma content_cons P g l : content P (g :: l) = seg_bytes P g ++ content P l.
Proof. done. Qed.

(** A segment whose first [n] bytes have been read. *)
Lemma seg_bytes_split P g n m : P !! bid g = Some m → len g ≤ length m → n ≤ len g - off g →
  seg_bytes P g = take n (drop (off g) m) ++ seg_bytes P {| g with off := off g + n |} ∧ length (take n (drop (off g) m)) = n.
Proof.
  intros Hm Hl Hn. unfold seg_bytes. cbn. rewrite Hm. split; [|rewrite length_take, length_drop; lia]. replace (len g - off g) with (n + (len g - (off g + n))) by lia.
  rewrite <- drop_drop. rewrite take_take_drop. done.
Qed.

Lemma seg_bytes_length P g : pool_ok P → seg_ok g → length (seg_bytes P g) = len g - off g.
Proof. intros HP (H1 & H2 & H3). destruct (pool_at P (bid g) HP H3) as (m & Hm & Hlen). unfold seg_bytes. rewrite Hm, length_take, length_drop. lia. Qed.

Lemma consume_ok fuel P max : ∀ o l dst rg, pool_ok P → op_ok o → queue o = l → Forall seg_ok l → length dst ≤ max → length l < fuel →
  ∃ x o' rel, consume_ms_recv fuel P rg o max dst = Done (dst ++ x, rg ++ rel, o') ∧ op_ok o' ∧ flags o' = flags o ∧ Forall seg_ok (queue o') ∧
    content P l = x ++ content P (queue o') ∧ bid <$> l = rel ++ (bid <$> queue o') ∧ length (dst ++ x) ≤ max ∧ (length (dst ++ x) = max ∨ queue o' = []).
Proof.
  induction fuel as [|fuel IH]; intros o l dst rg HP Ho Hq Hl Hd Hf; [lia|]. cbn [consume_ms_recv]. destruct (length dst <? max) eqn:E; [apply Nat.ltb_lt in E|apply Nat.ltb_ge in E].
  2: { exists [], o, []. rewrite !app_nil_r, Hq. split_and!; try done. left. lia. }
  rewrite (front_queue o Ho), Hq. destruct l as [|g l]; cbn [head]; [exists [], o, []; by rewrite !app_nil_r, Hq; split_and!; [..|right]|].
  apply Forall_cons in Hl as [(Hg1 & Hg2 & Hg3) Hl]. destruct (pool_at P (bid g) HP Hg3) as (m & Hm & Hlen). rewrite Hm. orun.
  set (n := if len g - off g <? max - length dst then len g - off g else max - length dst).
  assert (Hn : n ≤ len g - off g ∧ n ≤ max - length dst ∧ (n = len g - off g ∨ n = max - length dst)) by (subst n; destruct (len g - off g <? max - length dst) eqn:En; [apply Nat.ltb_lt in En|apply Nat.ltb_ge in En]; lia).
  clearbody n. destruct Hn as (Hn1 & Hn2 & Hn3). destruct (seg_bytes_split P g n m Hm ltac:(lia) Hn1) as [Hsb Hlx]. unfold load_bytes. rewrite (proj2 (Nat.leb_le (off g + n) (length m))) by lia. orun.
  destruct (set_front_ok o {| g with off := off g + n |} g l Ho Hq) as (Hq1 & Ho1 & Hf1). assert (Hdx : length (dst ++ take n (drop (off g) m)) = length dst + n) by (rewrite length_app, Hlx; done).
  cbn [off len bid]. destruct (off g + n =? len g) eqn:Ee; [apply Nat.eqb_eq in Ee|apply Nat.eqb_neq in Ee].
  - destruct (pop_front_ok _ _ _ Ho1 Hq1) as (Hq2 & Ho2 & Hf2). destruct (IH _ l (dst ++ take n (drop (off g) m)) (rg ++ [bid g]) HP Ho2 Hq2 Hl) as (x & o' & rel & -> & ? & Hfl & ? & Hc & Hb & Hx); [lia|cbn in Hf; lia|].
    exists (take n (drop (off g) m) ++ x), o', (bid g :: rel). rewrite <- !app_assoc in *. split_and!; try done; [by rewrite Hfl, Hf2| |by rewrite fmap_cons, Hb|apply Hx..].
    rewrite content_cons, Hc, Hsb, <- !app_assoc. unfold seg_bytes at 1. cbn. rewrite Hm, Ee, Nat.sub_diag. done.
  - destruct fuel as [|fuel]; [cbn in Hf; lia|]. cbn [consume_ms_recv]. rewrite (proj2 (Nat.ltb_ge _ max)) by lia. exists (take n (drop (off g) m)), (set_front {| g with off := off g + n |} o), [].
    rewrite app_nil_r, Hq1, !content_cons, Hsb, <- !app_assoc. split_and!; try done; [constructor; [unfold seg_ok; cbn; lia|done]|lia|left; lia].
Qed.

(** * The invariant *)

Definition times (b : nat) (l : list nat) : nat := total (λ x, Nat.b2n (x =? b)) l.

Lemma times_app b l1 l2 : times b (l1 ++ l2) = times b l1 + times b l2.
Proof. apply total_app. Qed.
Lemma times_cons b x l : times b (x :: l) = Nat.b2n (x =? b) + times b l.
Proof. exact (total_cons (λ x, Nat.b2n (x =? b)) x l). Qed.
Lemma times_nil b : times b [] = 0.
Proof. done. Qed.
Lemma times_in b l : b ∈ l ↔ 0 < times b l.
Proof.
  induction l as [|x l IH]; [rewrite times_nil; split; [by intros ?%not_elem_of_nil|lia]|]. rewrite times_cons, elem_of_cons, IH. destruct (Nat.eqb_spec x b); cbn; [subst|]; split; intros; try lia; tauto || naive_solver lia.
Qed.

Lemma times_seq b n : ∀ a, times b (seq a n) = Nat.b2n ((a <=? b) && (b <? a + n)).
Proof.
  induction n as [|n IH]; intros a; [change (seq a 0) with (@nil nat); rewrite times_nil; destruct (Nat.leb_spec a b), (Nat.ltb_spec b (a + 0)); cbn; lia|]. rewrite <- cons_seq, times_cons, IH.
  destruct (Nat.eqb_spec a b), (Nat.leb_spec (S a) b), (Nat.leb_spec a b), (Nat.ltb_spec b (S a + n)), (Nat.ltb_spec b (a + S n)); cbn; lia.
Qed.

(** The completions of a socket and the buffers in them. *)
Definition cqs (i : nat) (l : list cqe) : list cqe := filter (λ c, data c = Some i) l.
Definition cq_segs (l : list cqe) : list Seg := omap (λ c, b ← buffer c; Some (mkSeg (Z.to_nat (res c)) 0 b)) l.
Definition finals (l : list cqe) : nat := total (λ c, Nat.b2n (negb (more c))) l.

(** Requests that wait to be submitted or are in the kernel. *)
Definition pend (i : nat) w : nat := times i (omap received (sq w)) + Nat.b2n (bool_decide (i ∈ kern w)).

Definition got s : list Z := concat ((λ r, match r with Bytes l => l | Code _ => [] end) <$> rets s).
Definition eof s : Prop := inbox s = [] ∧ peer_closed s = true.

Definition cqe_ok s c : Prop :=
  (∃ b, buffer c = Some b ∧ b < kBufCount ∧ (0 < res c)%Z ∧ Z.to_nat (res c) ≤ kBufSize) ∨ (buffer c = None ∧ (res c <= 0)%Z ∧ more c = false ∧ (res c = 0%Z → eof s)).

(** A socket with its completions [cs] and the number of its requests under way. *)
Record sock_inv P (cs : list cqe) (pn : nat) s : Prop := {
  k_op : op_ok (op s);
  k_header : header (op s) = None;
  k_segs : Forall seg_ok (queue (op s));
  k_cqs : Forall (cqe_ok s) cs;
  k_last l1 c l2 : cs = l1 ++ c :: l2 → more c = false → l2 = [];
  k_live : pn + finals cs = Nat.b2n (armed (op s));
  k_idle : armed (op s) = false → cs = [];
  k_stream : sent s = got s ++ content P (queue (op s)) ++ content P (cq_segs cs) ++ inbox s;
  k_term : has_terminal (op s) = true → armed (op s) = false ∧ (terminal (op s) = 0%Z → eof s);
  k_ret : Code 0 ∈ rets s → eof s ∧ content P (queue (op s)) = [] ∧ content P (cq_segs cs) = [];
  k_wait : waiting (op s) = match rd s with Waiting _ => true | _ => false end;
  k_waits : waiting (op s) = true → queue (op s) = [] ∧ has_terminal (op s) = false ∧ armed (op s) = true;
  k_refs : alive s = true → refs s = handles s + arms s;
  k_never : arms s = 0 → armed (op s) = false ∧ queue (op s) = [] ∧ has_terminal (op s) = false;
  k_dead : alive s = false → arms s = 0 ∧ handles s = 0;
  k_rd : handles s = 0 → rd s = Idle
}.

Definition qbids s : list nat := bid <$> queue (op s).

(** Where a buffer is: in the ring, in a completion, in the queue of a socket. *)
Definition places b (rg : list nat) (cs : list cqe) (ss : list sock) : nat := times b rg + times b (omap buffer cs) + total (λ s, times b (qbids s)) ss.

Record inv w : Prop := {
  i_pool : pool_ok (pool w);
  i_bufs b : places b (ring w) (cq w) (socks w) = Nat.b2n (b <? kBufCount);
  i_null : Forall (λ c, data c = None → buffer c = None) (cq w);
  i_sock i s : socks w !! i = Some s → sock_inv (pool w) (cqs i (cq w)) (pend i w) s;
  i_none i : socks w !! i = None → cqs i (cq w) = [] ∧ pend i w = 0
}.

Lemma uring_inv_new : inv world_new.
Proof.
  constructor; cbn; try done.
  - split; [by rewrite length_replicate|]. apply Forall_replicate. by rewrite length_replicate.
  - intros b. unfold places. rewrite times_seq. cbn. rewrite !Nat.add_0_r. done.
Qed.

(** ** One socket changes *)

Lemma places_insert b rg cs ss i s s' : ss !! i = Some s → places b rg cs (<[i := s']> ss) + times b (qbids s) = places b rg cs ss + times b (qbids s').
Proof. intros Hs. unfold places. pose proof (total_insert (λ s, times b (qbids s)) ss i s s' Hs). cbn in *. lia. Qed.

Lemma inv_at w w' i s s' : inv w → socks w !! i = Some s → socks w' = <[i := s']> (socks w) → pool w' = pool w →
  (∀ b, times b (ring w') + times b (omap buffer (cq w')) + times b (qbids s') = times b (ring w) + times b (omap buffer (cq w)) + times b (qbids s)) →
  Forall (λ c, data c = None → buffer c = None) (cq w') → (∀ j, j ≠ i → cqs j (cq w') = cqs j (cq w) ∧ pend j w' = pend j w) →
  sock_inv (pool w) (cqs i (cq w')) (pend i w') s' → inv w'.
Proof.
  intros [HP HB HN HS H0] Hs Es Ep Hb Hn Hj Hi. constructor; rewrite ?Ep; try done.
  - intros b. specialize (HB b). specialize (Hb b). pose proof (places_insert b (ring w) (cq w) (socks w) i s s' Hs). rewrite Es. unfold places in *. lia.
  - intros j x Hx. rewrite Es in Hx. destruct (decide (j = i)) as [->|Hne].
    + rewrite list_lookup_insert_eq in Hx by (by eapply lookup_lt_Some). by injection Hx as <-.
    + rewrite list_lookup_insert_ne in Hx by done. destruct (Hj j Hne) as [-> ->]. by apply HS.
  - intros j Hx. rewrite Es in Hx. destruct (decide (j = i)) as [->|Hne]; [by rewrite list_lookup_insert_eq in Hx by (by eapply lookup_lt_Some)|].
    rewrite list_lookup_insert_ne in Hx by done. destruct (Hj j Hne) as [-> ->]. by apply H0.
Qed.

Lemma inv_put w i s s' : inv w → socks w !! i = Some s → qbids s' = qbids s → sock_inv (pool w) (cqs i (cq w)) (pend i w) s' → inv (put i s' w).
Proof. intros Hi Hs Hq Hi'. apply (inv_at w _ i s s'); try done; [intros b; cbn; by rewrite Hq|apply (i_null _ Hi)]. Qed.

(** ** Buffers *)

Lemma content_ext P P' l : (∀ g, g ∈ l → P' !! bid g = P !! bid g) → content P' l = content P l.
Proof.
  intros H. unfold content. f_equal. apply list_fmap_ext. intros k g Hg. unfold seg_bytes. rewrite (H g); [done|]. by eapply list_elem_of_lookup_2.
Qed.

(** Where a buffer is it is nowhere else. *)
Lemma total_pos {A} (f : A → nat) (l : list A) x : x ∈ l → f x ≤ total f l.
Proof. intros (k & Hk)%list_elem_of_lookup. by eapply total_elem. Qed.

Lemma buffer_in_cqs i (cs : list cqe) b : b ∈ bid <$> cq_segs (cqs i cs) → b ∈ omap buffer cs.
Proof.
  intros (g & -> & (c & Hc & Hg)%list_elem_of_omap)%list_elem_of_fmap. apply list_elem_of_filter in Hc as [_ Hc]. apply list_elem_of_omap. exists c. split; [done|].
  destruct (buffer c); cbn in *; [by injection Hg as <-|done].
Qed.

Lemma ring_not_used w i s b : inv w → b ∈ ring w → socks w !! i = Some s → b ∉ qbids s ∧ b ∉ bid <$> cq_segs (cqs i (cq w)).
Proof.
  intros Hi Hb Hs. pose proof (i_bufs _ Hi b) as H. unfold places in H. apply times_in in Hb. pose proof (total_elem (λ s, times b (qbids s)) (socks w) i s Hs) as Hq. cbn in Hq.
  assert (Nat.b2n (b <? kBufCount) ≤ 1) by (by destruct (b <? kBufCount); cbn; lia). split; intros Hx; [apply times_in in Hx; lia|apply buffer_in_cqs, times_in in Hx; lia].
Qed.

Lemma sock_inv_pool P P' cs pn s : sock_inv P cs pn s → content P' (queue (op s)) = content P (queue (op s)) → content P' (cq_segs cs) = content P (cq_segs cs) → sock_inv P' cs pn s.
Proof. intros [] E1 E2. constructor; rewrite ?E1, ?E2; done. Qed.

(** The kernel writes to a buffer of the ring. *)
Lemma inv_fill w b m l : inv w → b ∈ ring w → pool w !! b = Some m → length l ≤ kBufSize → inv {| w with pool := <[b := fill m l]> (pool w) |}.
Proof.
  intros Hi Hb Hm Hl. pose proof Hi as [HP HB HN HS H0]. constructor; cbn; try done.
  - destruct HP as [HP1 HP2]. split; [by rewrite length_insert|]. apply Forall_insert; [done|]. unfold fill. rewrite length_app, length_drop. pose proof (Forall_lookup_1 _ _ _ _ HP2 Hm) as E. cbn in E. lia.
  - intros i s Hs. destruct (ring_not_used w i s b Hi Hb Hs) as [Hq Hc]. apply (sock_inv_pool (pool w)); [by apply HS|apply content_ext..]; intros g Hg; rewrite list_lookup_insert_ne; try done; intros ->; [apply Hq|apply Hc]; by apply list_elem_of_fmap_2.
Qed.

(** ** Submissions *)

Lemma cqs_app i (l1 l2 : list cqe) : cqs i (l1 ++ l2) = cqs i l1 ++ cqs i l2.
Proof. apply filter_app. Qed.

Lemma cqs_cons i c (l : list cqe) : cqs i (c :: l) = if decide (data c = Some i) then c :: cqs i l else cqs i l.
Proof. unfold cqs. by rewrite filter_cons. Qed.

Lemma pend_le w i : inv w → pend i w ≤ 1.
Proof.
  intros Hi. destruct (socks w !! i) as [s|] eqn:Es; [|destruct (i_none _ Hi i Es); lia]. pose proof (k_live _ _ _ _ (i_sock _ Hi i s Es)). destruct (armed (op s)); cbn in *; lia.
Qed.

Lemma pend_submit w i : inv w → pend i (submit w) = pend i w.
Proof.
  intros Hi. pose proof (pend_le w i Hi) as Hle. unfold pend in *. cbn. pose proof (times_in i (omap received (sq w))) as Hin. rewrite times_nil.
  destruct (decide (i ∈ kern w)) as [Hk|Hk]; [rewrite (bool_decide_true (i ∈ kern w)) in * by done; rewrite bool_decide_true by set_solver; cbn in *; lia|].
  rewrite (bool_decide_false (i ∈ kern w)) in * by done. destruct (decide (i ∈ omap received (sq w))) as [Hs|Hs].
  - rewrite bool_decide_true by set_solver. apply Hin in Hs. cbn in *. lia.
  - rewrite bool_decide_false by set_solver. assert (¬ 0 < times i (omap received (sq w))) by tauto. cbn in *. lia.
Qed.

(** The completions of cancellations concern nobody. *)
Definition null (c : cqe) : Prop := data c = None ∧ buffer c = None.

Lemma cqs_null i (l : list cqe) : Forall null l → cqs i l = [] ∧ omap buffer l = [].
Proof. induction 1 as [|c l [Hd Hb] _ [IH1 IH2]]; [done|]. rewrite cqs_cons, decide_False by congruence. cbn. by rewrite Hb. Qed.

Lemma uring_submit_keeps w : inv w → inv (submit w).
Proof.
  intros Hi. assert (Hn : Forall null (omap (λ e, match e with SCancel _ => Some (mkCqe None 0 None false) | _ => None end) (sq w))).
  { apply Forall_forall. intros c (e & _ & He)%list_elem_of_omap. destruct e; [done|]. by injection He as <-. }
  pose proof (λ i, pend_submit w i Hi) as Hp. pose proof Hi as [HP HB HN HS H0]. constructor; cbn [submit pool socks ring cq]; try done.
  - intros b. specialize (HB b). unfold places in *. rewrite omap_app, (proj2 (cqs_null 0 _ Hn)), app_nil_r. done.
  - apply Forall_app. split; [done|]. eapply Forall_impl; [exact Hn|]. by intros c [].
  - intros i s Hs. rewrite Hp, cqs_app, (proj1 (cqs_null i _ Hn)), app_nil_r. by apply HS.
  - intros i Hs. rewrite Hp, cqs_app, (proj1 (cqs_null i _ Hn)), app_nil_r. by apply H0.
Qed.

Lemma get_sqe_ok w : inv w → ∃ w', get_sqe_flush true w = Some w' ∧ inv w' ∧ socks w' = socks w.
Proof. intros Hi. unfold get_sqe_flush. destruct (length (sq w) <? ring_entries); [by exists w|exists (submit w)]. by split_and!; [|apply uring_submit_keeps|]. Qed.

Lemma inv_cancel w i : inv w → inv {| w with sq := sq w ++ [SCancel i] |}.
Proof.
  intros Hi. assert (Hp : ∀ j, pend j {| w with sq := sq w ++ [SCancel i] |} = pend j w) by (intros j; unfold pend; cbn; rewrite omap_app; cbn; by rewrite app_nil_r).
  destruct Hi as [HP HB HN HS H0]. constructor; try done; intros j; rewrite Hp; [apply HS|apply H0].
Qed.

(** ** Reads *)

Lemma sock_of_at w i s : socks w !! i = Some s → alive s = true → sock_of i w = Done s.
Proof. intros E Ha. unfold sock_of. rewrite E. orun. by rewrite Ha. Qed.

Lemma put_at w i s s' : socks w !! i = Some s → socks (put i s' w) !! i = Some s'.
Proof. intros E. cbn. by rewrite list_lookup_insert_eq by (by eapply lookup_lt_Some). Qed.

Lemma put_put w i s s' : put i s' (put i s w) = put i s' w.
Proof. unfold put. cbn. by rewrite list_insert_insert_eq. Qed.

(** A reader that can run. *)
Definition ready s : Prop := alive s = true ∧ handles s ≠ 0 ∧ waiting (op s) = false.

Ltac same_sock H := destruct H; constructor; cbn; try done; try (intuition congruence).

(** The coroutine waits, for a request that is under way or that it makes. *)
Lemma suspend_ok w i s max : inv w → socks w !! i = Some s → ready s → queue (op s) = [] → has_terminal (op s) = false →
  ∃ w', await_suspend true i w = Done (true, w') ∧ ∃ s', socks w' !! i = Some s' ∧ alive s' = true ∧ inv (put i {| s' with rd := Waiting max |} w').
Proof.
  intros Hi Hs (Ha & Hh & Hw) Hq Ht. unfold await_suspend. rewrite (sock_of_at w i s Hs Ha). orun. assert (Hd : has_data (op s) = false) by (by apply has_data_false). rewrite Ht. cbn [negb].
  pose proof (i_sock _ Hi i s Hs) as Hk. destruct (armed (op s)) eqn:Ear; cbn [negb andb]; orun.
  - rewrite (sock_of_at w i s Hs Ha). orun. rewrite Hd, Ht. cbn [orb]. eexists. split; [done|]. eexists. split; [by apply (put_at w i s)|]. split; [done|]. rewrite ?put_put.
    apply (inv_put w i s); [done|done|done|]. same_sock Hk.
  - unfold submit_recv_multishot. rewrite (sock_of_at w i s Hs Ha). orun. destruct (get_sqe_ok w Hi) as (w1 & -> & Hi1 & E1). orun. rewrite <- E1 in Hs. pose proof (i_sock _ Hi1 i s Hs) as Hk1.
    set (w2 := {| w1 with sq := sq w1 ++ [SRecv i] |}). assert (Hs2 : socks w2 !! i = Some s) by done.
    rewrite (sock_of_at _ i _ (put_at w2 i s _ Hs2)) by done. orun. cbn [armed op]. unfold add_ref. rewrite (sock_of_at _ i _ (put_at w2 i s _ Hs2)) by done. orun. rewrite put_put.
    rewrite (sock_of_at _ i _ (put_at w2 i s _ Hs2)) by done. orun.
    match goal with |- context [if ?b then _ else _] => rewrite (if_false b) by (change (has_data (op s) || has_terminal (op s) = false); by rewrite Hd, Ht) end.
    eexists. split; [done|]. rewrite put_put. eexists. split; [by apply (put_at w2 i s)|]. split; [done|]. rewrite ?put_put.
    assert (Hpj : ∀ j, pend j w2 = pend j w1 + Nat.b2n (i =? j)). { intros j. unfold pend, w2. cbn. rewrite omap_app, times_app. cbn. rewrite times_cons, times_nil. lia. }
    match goal with |- inv (put i ?s' ?v) => apply (inv_at w1 (put i s' v) i s s' Hi1 Hs eq_refl eq_refl) end; [done|apply (i_null _ Hi1)| |].
    + intros j Hj. split; [done|]. change (pend j w2 = pend j w1). rewrite Hpj. apply not_eq_sym, Nat.eqb_neq in Hj. rewrite Hj. cbn. lia.
    + change (sock_inv (pool w1) (cqs i (cq w1)) (pend i w2) (mkSock (alive s) (inbox s) (peer_closed s) {| (op s) with armed := true; waiting := true |} (first_read_done s) (S (refs s)) (Waiting max) (handles s) (S (arms s)) (sent s) (rets s))).
      rewrite Hpj, Nat.eqb_refl. pose proof (k_idle _ _ _ _ Hk1 Ear) as Hcs. rewrite Hcs in *. destruct Hk1; constructor; cbn; try done; try (intuition congruence).
      * rewrite Ear in k_live0. cbn in *. lia.
      * intros. rewrite k_refs0 by done. lia.
Qed.

(** The result is given to the program. *)
Lemma consume_keeps w i s max : inv w → socks w !! i = Some s → ready s →
  ∃ x rg o, consume_ms_recv (S (count (op s) + length (spill (op s)))) (pool w) (ring w) (op s) max [] = Done (x, rg, o) ∧
    inv (let w := put i {| s with op := o; rd := Idle; rets := rets s ++ [Bytes x] |} w in {| w with ring := rg |}).
Proof.
  intros Hi Hs (Ha & Hh & Hw). pose proof (i_sock _ Hi i s Hs) as Hk.
  destruct (consume_ok (S (count (op s) + length (spill (op s)))) (pool w) max (op s) _ [] (ring w) (i_pool _ Hi) (k_op _ _ _ _ Hk) eq_refl (k_segs _ _ _ _ Hk)) as (x & o & rel & Hc & Ho & Hfl & Hsg & Hcon & Hb & _).
  { cbn. lia. } { unfold queue. rewrite length_app, length_fmap, length_seq. lia. }
  exists x, (ring w ++ rel), o. split; [exact Hc|]. injection Hfl as F1 F2 F3 F4 F5. match goal with |- inv ?w' => apply (inv_at w w' i s {| s with op := o; rd := Idle; rets := rets s ++ [Bytes x] |} Hi Hs eq_refl eq_refl) end.
  - intros b. cbn. rewrite times_app. unfold qbids. cbn. rewrite Hb, times_app. lia.
  - apply (i_null _ Hi).
  - done.
  - destruct Hk; constructor; cbn; rewrite ?F1, ?F2, ?F3, ?F4, ?F5; try done.
    + unfold got in *. cbn. rewrite k_stream0, Hcon, fmap_app, concat_app. cbn. rewrite app_nil_r, <- !app_assoc. done.
    + intros [Hr|[=]%list_elem_of_singleton]%elem_of_app. destruct (k_ret0 Hr) as (He & Hq & Hcq). rewrite Hcon in Hq. by apply app_nil in Hq as [_ ?].
    + congruence.
    + intros Harm. destruct (k_never0 Harm) as (? & Hq & ?). split_and!; [done| |done]. rewrite Hq in Hb. cbn in Hb. symmetry in Hb. apply app_nil in Hb as [_ Hb]. by apply fmap_nil_inv in Hb.
Qed.

Lemma give_at w i s r : socks w !! i = Some s → alive s = true → give i r w = Done (put i {| s with rd := Idle; rets := rets s ++ [r] |} w).
Proof. intros Hs Ha. unfold give. by rewrite (sock_of_at w i s Hs Ha). Qed.

(** An end of the stream or an error is returned. *)
Lemma code_keeps w i s (z : Z) : inv w → socks w !! i = Some s → ready s → queue (op s) = [] → cqs i (cq w) = [] → (z = 0%Z → eof s) →
  inv (put i {| s with rd := Idle; rets := rets s ++ [Code z] |} w).
Proof.
  intros Hi Hs (Ha & Hh & Hw) Hq Hcs Hz. apply (inv_put w i s); [done..|]. pose proof (i_sock _ Hi i s Hs) as Hk. rewrite Hcs in *. destruct Hk; constructor; cbn; try done.
  - unfold got in *. cbn. rewrite k_stream0, fmap_app, concat_app. cbn. by rewrite app_nil_r.
  - rewrite Hq. intros [Hr|[= <-]%list_elem_of_singleton]%elem_of_app; [by destruct (k_ret0 Hr)|by split; [apply Hz|]].
Qed.

Lemma read_loop_keeps w i s max : inv w → socks w !! i = Some s → ready s → ∃ w', read_loop 2 true i max w = Done w' ∧ inv w'.
Proof.
  intros Hi Hs Hr. pose proof Hr as (Ha & Hh & Hw). pose proof (i_sock _ Hi i s Hs) as Hk. cbn [read_loop]. rewrite (sock_of_at w i s Hs Ha). orun. destruct (has_data (op s)) eqn:Hd.
  { destruct (consume_keeps w i s max Hi Hs Hr) as (x & rg & o & -> & Hi'). orun. cbn [fst snd]. rewrite (give_at _ i {| s with op := o |}); [|by apply (put_at w i s)|done].
    eexists. split; [done|]. cbn in Hi' |- *. unfold put in *. cbn in *. by rewrite list_insert_insert_eq. }
  apply has_data_false in Hd. destruct (has_terminal (op s)) eqn:Ht; cbn [andb].
  - destruct (k_term _ _ _ _ Hk Ht) as [Har He]. destruct (terminal (op s) =? - ENOBUFS)%Z; cbn [negb].
    + set (s1 := {| s with op := {| (op s) with has_terminal := false; terminal := 0%Z |} |}). assert (Hi1 : inv (put i s1 w)) by (apply (inv_put w i s); [done..|]; same_sock Hk).
      assert (Hs1 : socks (put i s1 w) !! i = Some s1) by (by apply (put_at w i s)). rewrite (sock_of_at _ i s1 Hs1 Ha). orun.
      rewrite if_false by (change (has_data (op s) || false = false); rewrite (proj2 (has_data_false _) Hd); done).
      destruct (suspend_ok _ i s1 max Hi1 Hs1 Hr Hd eq_refl) as (w' & -> & s' & Hs' & Ha' & Hi'). orun. cbn [fst snd]. rewrite (sock_of_at _ i s' Hs' Ha'). orun. eexists. split; [done|exact Hi'].
    + rewrite (give_at w i s) by done. eexists. split; [done|]. apply code_keeps; try done. by apply (k_idle _ _ _ _ Hk).
  - rewrite (sock_of_at w i s Hs Ha). orun. rewrite Ht, (proj2 (has_data_false _) Hd). cbn [orb].
    destruct (suspend_ok w i s max Hi Hs Hr Hd Ht) as (w' & -> & s' & Hs' & Ha' & Hi'). orun. cbn [fst snd]. rewrite (sock_of_at _ i s' Hs' Ha'). orun. eexists. split; [done|exact Hi'].
Qed.

(** The first read into a buffer asks the kernel, when no request was made yet. *)
Lemma async_read_buffer_keeps w i s max a : inv w → socks w !! i = Some s → ready s → recv_ok s max a = true → first_read_done s = true ∨ arms s = 0 →
  ∃ w', async_read_buffer true i max a w = Done w' ∧ inv w'.
Proof.
  intros Hi Hs Hr Hok Ht. pose proof Hr as (Ha & Hh & Hw). unfold async_read_buffer. rewrite (sock_of_at w i s Hs Ha). orun. destruct (first_read_done s) eqn:Ef; [by apply (read_loop_keeps w i s)|].
  destruct Ht as [?|Ht]; [done|]. pose proof (i_sock _ Hi i s Hs) as Hk. destruct (k_never _ _ _ _ Hk Ht) as (Har & Hq & Hte). pose proof (k_idle _ _ _ _ Hk Har) as Hcs.
  set (s1 := {| s with first_read_done := true |}). assert (Hi1 : inv (put i s1 w)) by (apply (inv_put w i s); [done..|]; same_sock Hk). assert (Hs1 : socks (put i s1 w) !! i = Some s1) by (by apply (put_at w i s)).
  assert (Hcs1 : cqs i (cq (put i s1 w)) = []) by done. destruct a as [n| | |e]; unfold recv_ok in Hok; rewrite ?andb_true_iff in Hok.
  - destruct Hok as [[H1 H2] H3]. apply Nat.leb_le in H1, H2, H3. rewrite (give_at _ i {| s1 with inbox := drop n (inbox s1) |}); [|by apply (put_at w i s)|done]. rewrite put_put. eexists. split; [done|].
    apply (inv_put w i s); [done..|]. rewrite Hcs in *. destruct Hk; constructor; cbn; try done.
    + rewrite Hq in *. unfold got in *. cbn in *. rewrite k_stream0, fmap_app, concat_app. cbn. rewrite app_nil_r, <- app_assoc. by rewrite take_drop.
    + naive_solver.
    + intros [Hx|[=]%list_elem_of_singleton]%elem_of_app. destruct (k_ret0 Hx) as ((Hin & _) & _). rewrite Hin in H3. cbn in H3. lia.
  - destruct Hok as [H1 H2]. apply bool_decide_eq_true in H1. rewrite (give_at _ i s1) by done. eexists. split; [done|]. by apply (code_keeps (put i s1 w) i s1 0%Z).
  - by apply (read_loop_keeps _ i s1).
  - destruct Hok as [H1 H2]. apply Z.ltb_lt in H1. rewrite (give_at _ i s1) by done. eexists. split; [done|]. apply (code_keeps (put i s1 w) i s1); try done. lia.
Qed.

(** ** The kernel *)

#[local] Arguments cqs : simpl never.
#[local] Arguments cq_segs : simpl never.
#[local] Arguments finals : simpl never.
#[local] Arguments content : simpl never.

Lemma cqe_ok_mono s s' c : (eof s → eof s') → cqe_ok s c → cqe_ok s' c.
Proof. intros He [H|(? & ? & ? & H)]; [by left|right]. split_and!; auto. Qed.

Lemma finals_all (l : list cqe) c : finals l = 0 → c ∈ l → more c = true.
Proof. intros H Hc. pose proof (total_pos (λ c, Nat.b2n (negb (more c))) l c Hc) as Hle. cbn in Hle. unfold finals in H. destruct (more c); [done|]. cbn in Hle. lia. Qed.

Lemma finals_snoc (l : list cqe) c : finals (l ++ [c]) = finals l + Nat.b2n (negb (more c)).
Proof. unfold finals. by rewrite total_app, total_one. Qed.

(** A completion is added: none before it was the last. *)
Lemma last_snoc (cs : list cqe) c : finals cs = 0 → ∀ l1 x l2, cs ++ [c] = l1 ++ x :: l2 → more x = false → l2 = [].
Proof.
  intros Hf l1 x l2 E Hx. destruct l2 as [|y l2] using rev_ind; [done|]. exfalso. rewrite app_comm_cons, app_assoc in E. apply app_inj_tail in E as [E _].
  pose proof (finals_all cs x Hf) as H. rewrite E in H. rewrite H in Hx; [done|]. apply elem_of_app. right. by left.
Qed.

(** What a request in the kernel says about its socket. *)
Lemma in_kernel w i : inv w → i ∈ kern w → ∃ s, socks w !! i = Some s ∧ armed (op s) = true ∧ finals (cqs i (cq w)) = 0 ∧ pend i w = 1 ∧ times i (omap received (sq w)) = 0.
Proof.
  intros Hi Hk. pose proof (pend_le w i Hi) as Hle. assert (Hp : pend i w = times i (omap received (sq w)) + 1) by (unfold pend; by rewrite bool_decide_true).
  destruct (socks w !! i) as [s|] eqn:Es; [|destruct (i_none _ Hi i Es); lia]. exists s. pose proof (k_live _ _ _ _ (i_sock _ Hi i s Es)) as H. destruct (armed (op s)); cbn in H; [|lia]. split_and!; done || lia.
Qed.

Definition post (i : nat) (c : cqe) (mr : bool) (w : world) : world := {| w with kern := if mr then kern w else kern w ∖ {[i]}; cq := cq w ++ [c] |}.

Lemma pend_post w i c mr j : inv w → i ∈ kern w → pend j (post i c mr w) = if mr then pend j w else if decide (j = i) then 0 else pend j w.
Proof.
  intros Hi Hk. destruct (in_kernel w i Hi Hk) as (_ & _ & _ & _ & _ & Ht). unfold pend, post. cbn. destruct mr; [done|]. destruct (decide (j = i)) as [->|Hne]; [rewrite Ht, bool_decide_false by set_solver; done|].
  f_equal. f_equal. apply bool_decide_ext. set_solver.
Qed.

Lemma post_keeps w i s s' c b : inv w → i ∈ kern w → socks w !! i = Some s → data c = Some i → cqe_ok s' c → buffer c = b →
  op s' = op s → (eof s → eof s') →
  sent s' = sent s → rets s' = rets s → content (pool w) (cq_segs [c]) ++ inbox s' = inbox s → (Code 0 ∈ rets s → content (pool w) (cq_segs [c]) = []) →
  alive s' = alive s ∧ refs s' = refs s ∧ arms s' = arms s ∧ handles s' = handles s ∧ rd s' = rd s →
  ∀ rg, (∀ x, times x rg + times x (option_list b) = times x (ring w)) → inv (let w := post i c (more c) (put i s' w) in {| w with ring := rg |}).
Proof.
  intros Hi Hk Hs Hd Hc Hb Eo He Esn Ert Hin Hret (E1 & E2 & E3 & E4 & E5) rg Hrg. destruct (in_kernel w i Hi Hk) as (s0 & Hs0 & Har & Hf & Hp & _). rewrite Hs in Hs0. injection Hs0 as <-.
  assert (Hpp : ∀ j, pend j (let w := post i c (more c) (put i s' w) in {| w with ring := rg |}) = if more c then pend j w else if decide (j = i) then 0 else pend j w) by (intros j; by apply (pend_post w i c)).
  match goal with |- inv ?w' => apply (inv_at w w' i s s' Hi Hs eq_refl eq_refl) end.
  - intros x. unfold qbids. cbn. rewrite Eo, omap_app, times_app. cbn. rewrite Hb. specialize (Hrg x). destruct b; cbn in *; lia.
  - cbn. apply Forall_app. split; [apply (i_null _ Hi)|]. constructor; [congruence|done].
  - intros j Hj. rewrite Hpp. cbn. rewrite cqs_app, cqs_cons, decide_False, app_nil_r by congruence. split; [done|]. by rewrite decide_False by done; destruct (more c).
  - rewrite Hpp, decide_True by done. cbn. rewrite cqs_app, cqs_cons, decide_True by done. change (cqs i []) with (@nil cqe). assert (Hseg : cq_segs (cqs i (cq w) ++ [c]) = cq_segs (cqs i (cq w)) ++ cq_segs [c]) by apply omap_app.
    destruct (i_sock _ Hi i s Hs). constructor; rewrite ?Eo, ?E1, ?E2, ?E3, ?E4, ?E5, ?Hseg, ?content_app; try done.
    + apply Forall_app. split; [|by constructor]. eapply Forall_impl; [exact k_cqs0|]. intros x. by apply cqe_ok_mono.
    + by apply last_snoc.
    + rewrite finals_snoc, Hf, Har. destruct (more c); cbn; lia.
    + congruence.
    + rewrite Esn, k_stream0. unfold got. rewrite Ert, <- Hin, <- !app_assoc. done.
    + intros Ht. destruct (k_term0 Ht). congruence.
    + rewrite Ert. intros Hr. destruct (k_ret0 Hr) as (? & ? & Hcq). rewrite Hcq, (Hret Hr). split_and!; auto.
Qed.

Definition keeps (a : action) w : Prop := ∀ o : outcome world, act a w = Some o → ∃ w', o = Done w' ∧ inv w'.

Lemma kdata_keeps w i n mr : inv w → keeps (KData i n mr) w.
Proof.
  intros Hi o. cbn [act]. intros (s & Hs & H)%bind_Some. case_decide as Hk; [|done]. destruct ((1 <=? n) && (n <=? length (inbox s)) && (n <=? kBufSize)) eqn:En; [|done].
  rewrite !andb_true_iff, !Nat.leb_le in En. destruct En as [[Hn1 Hn2] Hn3]. destruct (ring w) as [|b rg] eqn:Er; [done|]. apply bind_Some in H as (m & Hm & H). injection H as <-. eexists. split; [done|].
  assert (Hlx : length (take n (inbox s)) = n) by (rewrite length_take; lia). assert (Hb : b ∈ ring w) by (rewrite Er; by left).
  pose proof (inv_fill w b m (take n (inbox s)) Hi Hb Hm ltac:(lia)) as Hi1. set (w1 := {| w with pool := <[b := fill m (take n (inbox s))]> (pool w) |}) in Hi1. set (c := mkCqe (Some i) (Z.of_nat n) (Some b) mr).
  assert (Hbb : b < kBufCount). { pose proof (lookup_lt_Some _ _ _ Hm). pose proof (i_pool _ Hi) as [? _]. lia. }
  assert (Hct : content (pool w1) (cq_segs [c]) = take n (inbox s)).
  { unfold cq_segs. cbn. rewrite content_one. unfold seg_bytes. cbn. rewrite list_lookup_insert_eq by (by eapply lookup_lt_Some). rewrite Nat2Z.id, drop_0, Nat.sub_0_r. unfold fill. rewrite take_app_length'; [done|lia]. }
  apply (post_keeps w1 i s {| s with inbox := drop n (inbox s) |} c (Some b) Hi1 Hk Hs eq_refl); try done.
  - left. exists b. cbn. split_and!; [done|done|lia|]. by rewrite Nat2Z.id.
  - intros [E _]. rewrite E in Hn2. cbn in Hn2. lia.
  - rewrite Hct. cbn. by rewrite take_drop.
  - intros Hr. destruct (k_ret _ _ _ _ (i_sock _ Hi i s Hs) Hr) as ((E & _) & _). rewrite E in Hn2. cbn in Hn2. lia.
  - intros x. change (ring w1) with (ring w). rewrite Er, times_cons. cbn. rewrite times_cons, times_nil. lia.
Qed.

(** A request ends without bytes. *)
Lemma end_keeps w i s (z : Z) : inv w → i ∈ kern w → socks w !! i = Some s → (z <= 0)%Z → (z = 0%Z → eof s) → inv {| w with kern := kern w ∖ {[i]}; cq := cq w ++ [mkCqe (Some i) z None false] |}.
Proof.
  intros Hi Hk Hs Hz He. pose proof (post_keeps w i s s (mkCqe (Some i) z None false) None Hi Hk Hs eq_refl) as H. unfold post, put in H. cbn in H. rewrite list_insert_id in H by done.
  apply H; try done. by right.
Qed.

Lemma keof_keeps w i : inv w → keeps (KEof i) w.
Proof.
  intros Hi o. cbn [act]. intros (s & Hs & H)%bind_Some. case_decide as Hk; [|done]. unfold guard_some in H. destruct (bool_decide (inbox s = []) && peer_closed s) eqn:E; [|done].
  injection H as <-. apply andb_true_iff in E as [E1 E2]. apply bool_decide_eq_true in E1. eexists. split; [done|]. by apply (end_keeps w i s).
Qed.

Lemma kerr_keeps w i e : inv w → keeps (KErr i e) w.
Proof.
  intros Hi o. cbn [act]. case_decide as Hk; [|done]. unfold guard_some. destruct (0 <? e)%Z eqn:E; [|done]. intros [= <-]. apply Z.ltb_lt in E. destruct (in_kernel w i Hi Hk) as (s & Hs & _).
  eexists. split; [done|]. apply (end_keeps w i s); try done; lia.
Qed.

(** ** Completions *)

(** The queue and the end of a request after a completion. *)
Definition arrived c o : MultishotRecvOp :=
  match buffer c with
  | Some b => if (0 <? res c)%Z then push (mkSeg (Z.to_nat (res c)) 0 b) o else {| o with has_terminal := true; terminal := res c |}
  | None => {| o with has_terminal := true; terminal := res c |}
  end.

Lemma arrived_ok P s c cs pn : sock_inv P (c :: cs) pn s → let o := arrived c (op s) in
  op_ok o ∧ header o = None ∧ armed o = armed (op s) ∧ waiting o = waiting (op s) ∧ queue o = queue (op s) ++ cq_segs [c] ∧ Forall seg_ok (queue o) ∧
  (has_terminal o = true → more c = false ∧ (terminal o = 0%Z → eof s)) ∧ (bid <$> cq_segs [c]) = option_list (buffer c).
Proof.
  intros Hk. pose proof (k_cqs _ _ _ _ Hk) as Hc. apply Forall_cons in Hc as [Hc _]. pose proof (k_segs _ _ _ _ Hk) as Hsg. unfold arrived.
  assert (Harm : armed (op s) = true) by (destruct (armed (op s)) eqn:E; [done|]; by pose proof (k_idle _ _ _ _ Hk E)). destruct Hc as [(b & Hb & Hbb & Hr & Hn)|(Hb & Hr & Hm & He)]; rewrite Hb; unfold cq_segs; cbn; rewrite Hb; cbn.
  - rewrite (proj2 (Z.ltb_lt 0 (res c)) Hr). destruct (push_seg_ok (op s) (mkSeg (Z.to_nat (res c)) 0 b) (k_op _ _ _ _ Hk)) as (Hq & Ho & Hf). injection Hf as F1 F2 F3 F4 F5. rewrite Hq. split_and!; try done.
    + rewrite F1. apply (k_header _ _ _ _ Hk).
    + apply Forall_app. split; [done|]. constructor; [|done]. unfold seg_ok. cbn. lia.
    + intros Ht. rewrite F4 in Ht. destruct (k_term _ _ _ _ Hk Ht). congruence.
  - rewrite app_nil_r. split_and!; try done; [apply (k_op _ _ _ _ Hk)|apply (k_header _ _ _ _ Hk)].
Qed.

Lemma completed w i s s1 o c (l : list cqe) : inv w → cq w = c :: l → data c = Some i → socks w !! i = Some s → sock_inv (pool w) (c :: cqs i l) (pend i w) s → armed (op s) = true →
  queue o = queue (op s) ++ cq_segs [c] → Forall seg_ok (queue o) → (has_terminal o = true → more c = false ∧ (terminal o = 0%Z → eof s)) → (bid <$> cq_segs [c]) = option_list (buffer c) →
  queue (op s1) = queue o ∧ op_ok (op s1) ∧ header (op s1) = None ∧ armed (op s1) = more c ∧ waiting (op s1) = false ∧ has_terminal (op s1) = has_terminal o ∧ terminal (op s1) = terminal o ∧
    match rd s1 with Waiting _ => false | _ => true end = true ∧ (rd s = Idle → rd s1 = Idle) →
  alive s1 = alive s ∧ inbox s1 = inbox s ∧ peer_closed s1 = peer_closed s ∧ refs s1 = refs s ∧ handles s1 = handles s ∧ arms s1 = arms s ∧ sent s1 = sent s ∧ rets s1 = rets s →
  inv (put i s1 {| w with cq := l |}).
Proof.
  intros Hi Ecq Ed Hs Hk Harm A5 A6 A7 A8 (B1 & B2 & B3 & B4 & B5 & B6 & B7 & B8 & B9) (C1 & C2 & C3 & C4 & C5 & C6 & C7 & C8).
  assert (Hlast : more c = false → cqs i l = []) by (intros E; by apply (k_last _ _ _ _ Hk [] c)). assert (He : eof s1 ↔ eof s) by (unfold eof; by rewrite C2, C3).
  assert (Hseg : cq_segs (c :: cqs i l) = cq_segs [c] ++ cq_segs (cqs i l)) by apply (omap_app _ [c]).
  apply (inv_at w (put i s1 {| w with cq := l |}) i s s1 Hi Hs eq_refl eq_refl); cbn.
  - intros b. rewrite Ecq. unfold qbids. rewrite B1, A5, fmap_app, A8, times_app. change (omap buffer (c :: l)) with (omap buffer ([c] ++ l)). rewrite omap_app, times_app. cbn. destruct (buffer c); cbn; rewrite ?times_cons, ?times_nil; lia.
  - pose proof (i_null _ Hi) as HN. rewrite Ecq in HN. by apply Forall_cons in HN as [_ HN].
  - intros j Hj. by rewrite Ecq, cqs_cons, decide_False by congruence.
  - change (pend i (put i s1 {| w with cq := l |})) with (pend i w). destruct Hk; constructor; rewrite ?B1, ?B3, ?B4, ?B5, ?B6, ?B7, ?C1, ?C4, ?C5, ?C6, ?C7; try done.
    + apply Forall_cons in k_cqs0 as [_ k_cqs0]. eapply Forall_impl; [exact k_cqs0|]. intros x. apply cqe_ok_mono. tauto.
    + intros l1 x l2 E. apply (k_last0 (c :: l1) x l2). by rewrite E.
    + unfold finals in *. rewrite total_cons, Harm in k_live0. destruct (more c) eqn:E; cbn in *; [lia|]. rewrite Hlast in * by done. cbn in *. lia.
    + rewrite k_stream0, A5, Hseg, !content_app. unfold got. rewrite C2, C8, <- !app_assoc. done.
    + intros Ht. destruct (A7 Ht) as [Hm Hz]. split; [done|]. intros Hz'. apply He. auto.
    + rewrite C8. intros Hr. destruct (k_ret0 Hr) as (E0 & Hq & Hc). rewrite Hseg, content_app in Hc. apply app_nil in Hc as [Hc1 Hc2]. rewrite A5, content_app, Hq, Hc1. split_and!; [by apply He|done|done].
    + by destruct (rd s1).
    + intros Hz. destruct (k_never0 Hz). congruence.
    + auto.
Qed.

Lemma poll_keeps w : inv w → keeps Poll w.
Proof.
  intros Hi o. cbn [act]. destruct (cq w) as [|c l] eqn:Ecq; [done|]. intros [= <-]. unfold handle_cqe. pose proof (i_null _ Hi) as HN. rewrite Ecq in HN. apply Forall_cons in HN as [HN0 HN]. destruct (data c) as [i|] eqn:Ed.
  2: { eexists. split; [done|]. specialize (HN0 eq_refl). destruct Hi as [HP HB _ HS H0]. rewrite Ecq in *. constructor; cbn; try done.
    - intros b. specialize (HB b). unfold places in *. cbn in HB. by rewrite HN0 in HB.
    - intros i s Hs. specialize (HS i s Hs). by rewrite cqs_cons, decide_False in HS by congruence.
    - intros i Hs. specialize (H0 i Hs). by rewrite cqs_cons, decide_False in H0 by congruence. }
  assert (Hcs : cqs i (cq w) = c :: cqs i l) by (rewrite Ecq, cqs_cons; by rewrite decide_True). destruct (socks w !! i) as [s|] eqn:Hs; [|destruct (i_none _ Hi i Hs) as [E _]; by rewrite E in Hcs].
  pose proof (i_sock _ Hi i s Hs) as Hk. rewrite Hcs in Hk. assert (Harm : armed (op s) = true) by (destruct (armed (op s)) eqn:E; [done|]; by pose proof (k_idle _ _ _ _ Hk E)).
  assert (Ha : alive s = true). { destruct (alive s) eqn:E; [done|]. destruct (k_dead _ _ _ _ Hk E) as [E0 _]. destruct (k_never _ _ _ _ Hk E0). congruence. }
  rewrite (sock_of_at {| w with cq := l |} i s Hs Ha). orun. fold (arrived c (op s)). destruct (arrived_ok _ _ _ _ _ Hk) as (A1 & A2 & A3 & A4 & A5 & A6 & A7 & A8). set (o := arrived c (op s)) in *. clearbody o.
  set (o1 := if more c then o else {| o with armed := false |}). assert (Hh : header o1 = None) by (subst o1; by destruct (more c)).
  rewrite Hh. unfold drop_recv_ref. set (s1 := if waiting o1 then _ else _). assert (Hfin : ∀ b : bool, (if b then Done (put i s1 {| w with cq := l |}) else Done (put i s1 {| w with cq := l |})) = Done (put i s1 {| w with cq := l |})) by (by intros []).
  rewrite Hfin. eexists. split; [done|]. clear Hfin.
  assert (Hs1 : queue (op s1) = queue o ∧ op_ok (op s1) ∧ header (op s1) = None ∧ armed (op s1) = more c ∧ waiting (op s1) = false ∧ has_terminal (op s1) = has_terminal o ∧ terminal (op s1) = terminal o ∧
    match rd s1 with Waiting _ => false | _ => true end = true ∧ (rd s = Idle → rd s1 = Idle)).
  { assert (Hw : waiting o1 = waiting (op s)) by (subst o1; by destruct (more c)). pose proof (k_wait _ _ _ _ Hk) as Hkw. unfold s1. destruct (waiting o1) eqn:Ew; cbn.
    - subst o1. destruct (more c); cbn; (split_and!; try done; try congruence; [by destruct (rd s)|intros E; by rewrite E]).
    - subst o1. destruct (more c); cbn; (split_and!; try done; try congruence; rewrite <- Hw in Hkw; by destruct (rd s)). }
  assert (Hs2 : alive s1 = alive s ∧ inbox s1 = inbox s ∧ peer_closed s1 = peer_closed s ∧ refs s1 = refs s ∧ handles s1 = handles s ∧ arms s1 = arms s ∧ sent s1 = sent s ∧ rets s1 = rets s) by (unfold s1; by destruct (waiting o1)).
  clearbody s1. apply (completed w i s s1 o c l); done.
Qed.

(** ** The peer and the program *)

Lemma open_keeps w : inv w → keeps Open w.
Proof.
  intros Hi o. cbn. intros [= <-]. eexists. split; [done|]. destruct (i_none _ Hi (length (socks w))) as [Hc Hp]; [by apply lookup_ge_None_2|]. destruct Hi as [HP HB HN HS H0]. constructor; cbn; try done.
  - intros b. specialize (HB b). unfold places in *. rewrite total_app, total_one. change (qbids sock_new) with (@nil nat). rewrite times_nil, Nat.add_0_r. exact HB.
  - intros i s. rewrite lookup_snoc_Some. intros [[Hlt Hs]|[-> <-]]; [by apply HS|]. change (pend (length (socks w)) _) with (pend (length (socks w)) w). rewrite Hc, Hp.
    constructor; cbn; try done; [apply queue_new|by intros [] ? ?|by intros ?%not_elem_of_nil].
  - intros i Hs. apply H0. apply lookup_ge_None_2. apply lookup_ge_None_1 in Hs. rewrite length_app in Hs. cbn in Hs. lia.
Qed.

Lemma arrive_keeps w i l : inv w → keeps (Arrive i l) w.
Proof.
  intros Hi o. cbn [act]. intros (s & Hs & H)%bind_Some. unfold guard_some in H. destruct (peer_closed s) eqn:Epc; [done|]. injection H as <-. eexists. split; [done|].
  apply (inv_put w i s); [done..|]. assert (He : ¬ eof s) by (intros [_ E]; congruence). destruct (i_sock _ Hi i s Hs). constructor; cbn; try done.
  - eapply Forall_impl; [exact k_cqs0|]. intros c. by apply cqe_ok_mono.
  - unfold got in *. cbn. rewrite k_stream0. by rewrite <- !app_assoc.
  - intros Ht. destruct (k_term0 Ht). split; [done|]. tauto.
  - intros Hr. destruct (k_ret0 Hr). tauto.
Qed.

Lemma close_keeps w i : inv w → keeps (Close i) w.
Proof.
  intros Hi o. cbn [act]. intros (s & Hs & H)%bind_Some. injection H as <-. eexists. split; [done|]. apply (inv_put w i s); [done..|].
  assert (He : eof s → eof {| s with peer_closed := true |}) by (by intros [E _]). destruct (i_sock _ Hi i s Hs). constructor; try done.
  - eapply Forall_impl; [exact k_cqs0|]. intros c. by apply cqe_ok_mono.
  - intros Ht. destruct (k_term0 Ht). split; [done|]. auto.
  - intros Hr. destruct (k_ret0 Hr). auto.
Qed.

Lemma usable_ready w i s : inv w → usable i w = Some s → socks w !! i = Some s ∧ alive s = true ∧ handles s ≠ 0 ∧ ((∀ n, rd s ≠ Waiting n) → ready s).
Proof.
  unfold usable, guard_some. intros Hi (x & Hx & H)%bind_Some. destruct (alive x && negb (handles x =? 0)) eqn:E; [|done]. injection H as <-. apply andb_true_iff in E as [Ha Hh]. apply negb_true_iff, Nat.eqb_neq in Hh.
  split_and!; try done. intros Hn. split_and!; try done. rewrite (k_wait _ _ _ _ (i_sock _ Hi i x Hx)). destruct (rd x) as [|n|]; try done. by destruct (Hn n).
Qed.

Lemma read_keeps w i max : inv w → keeps (Read i max true) w.
Proof.
  intros Hi o. cbn [act]. intros (s & Hu & H)%bind_Some. destruct (usable_ready w i s Hi Hu) as (Hs & _ & _ & Hr). destruct (rd s) eqn:Er; try done. unfold guard_some in H. destruct (1 <=? max) eqn:Em; [|done].
  injection H as <-. apply Nat.leb_le in Em. apply (read_loop_keeps w i s); try done. apply Hr. congruence.
Qed.

Lemma read_buffer_keeps w i max a : inv w → (∀ s, socks w !! i = Some s → first_read_done s = true ∨ arms s = 0) → keeps (ReadBuffer i max true a) w.
Proof.
  intros Hi Ht o. cbn [act]. intros (s & Hu & H)%bind_Some. destruct (usable_ready w i s Hi Hu) as (Hs & _ & _ & Hr). destruct (rd s) eqn:Er; try done. unfold guard_some in H. destruct ((1 <=? max) && recv_ok s max a) eqn:Em; [|done].
  injection H as <-. apply andb_true_iff in Em as [Em Hok]. apply Nat.leb_le in Em. assert (ready s) by (apply Hr; congruence). by apply (async_read_buffer_keeps w i s); auto.
Qed.

Lemma resume_read_keeps w i : inv w → keeps (Resume i true) w.
Proof.
  intros Hi o. cbn [act]. intros (s & Hs & H)%bind_Some. destruct (rd s) as [| |max] eqn:Er; try done. injection H as <-. pose proof (i_sock _ Hi i s Hs) as Hk. pose proof (k_wait _ _ _ _ Hk) as Hw. rewrite Er in Hw.
  assert (Hh : handles s ≠ 0) by (intros E; pose proof (k_rd _ _ _ _ Hk E); congruence). assert (Ha : alive s = true) by (destruct (alive s) eqn:E; [done|]; by destruct (k_dead _ _ _ _ Hk E)).
  rewrite (sock_of_at w i s Hs Ha). orun. set (s1 := {| s with op := {| (op s) with waiting := false |} |}). assert (Hi1 : inv (put i s1 w)) by (apply (inv_put w i s); [done..|]; destruct Hk; constructor; cbn; rewrite ?Er; done).
  apply (read_loop_keeps _ i s1 max Hi1); [by apply (put_at w i s)|done].
Qed.

Lemma copy_keeps w i : inv w → keeps (Copy i) w.
Proof.
  intros Hi o. cbn [act]. intros (s & Hu & H)%bind_Some. destruct (usable_ready w i s Hi Hu) as (Hs & Ha & Hh & _). injection H as <-. eexists. split; [done|]. apply (inv_put w i s); [done..|].
  destruct (i_sock _ Hi i s Hs). constructor; cbn; try done; [intros; rewrite k_refs0 by done; lia|congruence].
Qed.

(** The program gives a socket up: only one that has never waited dies. *)
Lemma release_keeps w i s : inv w → socks w !! i = Some s → alive s = true → handles s ≠ 0 → (rd s = Idle ∨ 2 ≤ handles s) → ∃ w', release i (put i {| s with handles := pred (handles s) |} w) = Done w' ∧ inv w'.
Proof.
  intros Hi Hs Ha Hh Hrd. unfold release. rewrite (sock_of_at _ i _ (put_at w i s _ Hs)) by done. orun. cbn [refs]. rewrite put_put. pose proof (i_sock _ Hi i s Hs) as Hk. pose proof (k_refs _ _ _ _ Hk Ha) as Hre.
  set (s1 := mkSock (alive s) (inbox s) (peer_closed s) (op s) (first_read_done s) (pred (refs s)) (rd s) (pred (handles s)) (arms s) (sent s) (rets s)).
  destruct (refs s =? 1) eqn:E1; [apply Nat.eqb_eq in E1|apply Nat.eqb_neq in E1].
  - assert (arms s = 0 ∧ handles s = 1) as [Har Hh1] by lia. destruct (k_never _ _ _ _ Hk Har) as (Harm & Hq & Ht). destruct Hrd as [Hrd|?]; [|lia].
    match goal with |- context [destroy i (put i ?x w)] => change x with s1 end. unfold destroy.
    rewrite (sock_of_at _ i s1 (put_at w i s s1 Hs)) by done. orun. assert (Hfr : front (op s) = None) by (rewrite (front_queue _ (k_op _ _ _ _ Hk)), Hq; done). cbn [recycle_all op]. change (op s1) with (op s). rewrite Hfr. orun. cbn [fst snd].
    rewrite put_put. eexists. split; [done|]. match goal with |- inv ?w' => apply (inv_at w w' i s {| s1 with op := op s; alive := false |} Hi Hs eq_refl eq_refl) end; [done|apply (i_null _ Hi)|done|].
    destruct Hk; constructor; cbn; try done; try lia.
  - eexists. split; [done|]. apply (inv_put w i s); [done..|]. destruct Hk; constructor; cbn; try done; try lia; [congruence|]. intros Hz. destruct Hrd; [done|lia].
Qed.

Lemma drop_keeps w i : inv w → keeps (Drop i) w.
Proof.
  intros Hi o. cbn [act]. intros (s & Hu & H)%bind_Some. destruct (usable_ready w i s Hi Hu) as (Hs & Ha & Hh & _).
  assert (Hrel : o = release i (put i {| s with handles := pred (handles s) |} w) ∧ (rd s = Idle ∨ 2 ≤ handles s)).
  { revert H. generalize (release i (put i {| s with handles := pred (handles s) |} w)) as r. intros r. unfold guard_some. rewrite <- Nat.leb_le. destruct (rd s), (2 <=? handles s); intros [= <-]; auto. }
  destruct Hrel as [-> Hr]. by apply release_keeps.
Qed.

(** ** Runs *)

(** The kernel takes what is submitted, and the first read into a buffer comes before any that
    waited. *)
Definition tidy (a : action) w : bool :=
  match a with
  | Read _ _ takes | Resume _ takes | Cancel _ takes => takes
  | ReadBuffer i _ takes _ => takes && match socks w !! i with Some s => first_read_done s || (arms s =? 0) | None => true end
  | _ => true
  end.

Lemma uring_act w a : inv w → tidy a w = true → keeps a w.
Proof.
  intros Hi Ht. destruct a as [|i l|i|i max takes|i max takes x|i takes| |i n mr|i|i e| |i takes|i|i]; cbn [tidy] in Ht; try (destruct takes; [|done]).
  - by apply open_keeps.
  - by apply arrive_keeps.
  - by apply close_keeps.
  - by apply read_keeps.
  - apply read_buffer_keeps; [done|]. intros s Hs. rewrite Hs in Ht. cbn in Ht. apply orb_true_iff in Ht as [Ht|Ht]; [by left|right; by apply Nat.eqb_eq].
  - by apply resume_read_keeps.
  - intros o. cbn. intros [= <-]. eexists. split; [done|]. by apply uring_submit_keeps.
  - by apply kdata_keeps.
  - by apply keof_keeps.
  - by apply kerr_keeps.
  - by apply poll_keeps.
  - intros o. cbn. intros [= <-]. unfold submit_cancel. destruct (get_sqe_ok w Hi) as (w1 & -> & Hi1 & _). eexists. split; [done|]. by apply inv_cancel.
  - by apply copy_keeps.
  - by apply drop_keeps.
Qed.

Fixpoint tidy_run (l : list action) w : bool :=
  match l with
  | [] => true
  | a :: l => tidy a w && match act a w with Some (Done w') => tidy_run l w' | _ => true end
  end.

Lemma uring_run l : ∀ w (o : outcome world), inv w → tidy_run l w = true → run l w = Some o → ∃ w', o = Done w' ∧ inv w'.
Proof.
  induction l as [|a l IH]; cbn; intros w o Hi Hp Hr; [injection Hr as <-; by exists w|]. apply andb_true_iff in Hp as [Hp Hl]. destruct (act a w) as [o'|] eqn:Ea; [|done].
  destruct (uring_act w a Hi Hp o' Ea) as (w' & -> & Hi'). by apply (IH w').
Qed.

(** * The claims *)

(** C16 (functional). However the kernel fills buffers and ends requests, with completions and
    reads in any order, as long as the kernel takes what is submitted and the first read into a
    buffer comes before any that waited: no step is undefined; what reads have returned, what is queued, what is in completions and
    what is still in the kernel is, in this order, what the peer has sent; a read returns the end
    of the stream only when everything was read; and every buffer is in one place. *)
Theorem uring_receives_stream (l : list action) (o : outcome world) : tidy_run l world_new = true → run l world_new = Some o →
  ∃ w, o = Done w ∧
    (∀ i s, socks w !! i = Some s → sent s = got s ++ content (pool w) (queue (op s)) ++ content (pool w) (cq_segs (cqs i (cq w))) ++ inbox s) ∧
    (∀ i s, socks w !! i = Some s → Code 0 ∈ rets s → peer_closed s = true ∧ got s = sent s) ∧
    (∀ b, places b (ring w) (cq w) (socks w) = if decide (b < kBufCount) then 1 else 0).
Proof.
  intros Hp Hr. destruct (uring_run _ _ _ uring_inv_new Hp Hr) as (w & -> & Hi). exists w. split; [done|]. split_and!.
  - intros i s Hs. apply (k_stream _ _ _ _ (i_sock _ Hi i s Hs)).
  - intros i s Hs Hc. pose proof (i_sock _ Hi i s Hs) as Hk. destruct (k_ret _ _ _ _ Hk Hc) as ((Hin & Hpc) & Hq & Hcq). split; [done|]. rewrite (k_stream _ _ _ _ Hk), Hq, Hcq, Hin. by rewrite !app_nil_r.
  - intros b. rewrite (i_bufs _ Hi b). destruct (Nat.ltb_spec b kBufCount); case_decide; done || lia.
Qed.

Definition stream_run : list action :=
  [Open; Arrive 0 [1; 2; 3]%Z; ReadBuffer 0 2 true (RBytes 2); Open; Read 0 5 true; Submit; KData 0 1 true; Poll; Arrive 0 [4; 5]%Z; KData 0 1 false; Poll; Resume 0 true; Close 0; Read 0 8 true; Submit; KData 0 1 true; KEof 0; Poll;
   Resume 0 true; Poll; Read 0 8 true].

Lemma uring_receives_stream_witness : tidy_run stream_run world_new = true ∧ ∃ w s, run stream_run world_new = Some (Done w) ∧ socks w !! 0 = Some s ∧
  rets s = [Bytes [1; 2]; Bytes [3; 4]; Bytes [5]; Code 0]%Z ∧ got s = sent s.
Proof.
  assert (Hp : tidy_run stream_run world_new = true) by (vm_compute; reflexivity).
  assert (E : ∃ s, match run stream_run world_new with Some (Done w) => socks w !! 0 | _ => None end = Some s ∧ rets s = [Bytes [1; 2]; Bytes [3; 4]; Bytes [5]; Code 0]%Z) by (vm_compute; eexists; split; reflexivity).
  destruct E as (s & E & Er). destruct (run stream_run world_new) as [o|] eqn:Hr; [|discriminate E]. destruct (uring_receives_stream stream_run o Hp Hr) as (w & -> & _ & H & _).
  split; [exact Hp|]. exists w, s. split; [reflexivity|]. split; [exact E|]. split; [exact Er|]. apply (H 0 s E). rewrite Er. apply list_elem_of_lookup. exists 3. reflexivity.
Defined.

(** C21 (liveness). As long as the kernel takes what is submitted (otherwise a reader is lost:
    [refused_submission_hangs]) and the first read into a buffer comes before any that waited, a
    reader that waits is not forgotten: nothing is queued for it, and when all
    requests are submitted and all completions handled the kernel holds its request, with
    everything the reader has not got still in the kernel. *)
Theorem uring_reader_not_forgotten (l : list action) (w : world) (i n : nat) (s : sock) : tidy_run l world_new = true → run l world_new = Some (Done w) →
  socks w !! i = Some s → rd s = Waiting n → queue (op s) = [] ∧ has_terminal (op s) = false ∧ (sq w = [] → cq w = [] → i ∈ kern w ∧ sent s = got s ++ inbox s).
Proof.
  intros Hp Hr Hs Hrd. destruct (uring_run _ _ _ uring_inv_new Hp Hr) as (w' & [= <-] & Hi). pose proof (i_sock _ Hi i s Hs) as Hk. pose proof (k_wait _ _ _ _ Hk) as Hw. rewrite Hrd in Hw.
  destruct (k_waits _ _ _ _ Hk Hw) as (Hq & Ht & Har). split_and!; [done..|]. intros Esq Ecq. pose proof (k_live _ _ _ _ Hk) as Hl. unfold pend in Hl. rewrite Esq, Ecq, Har in Hl. cbn in Hl. split.
  - destruct (decide (i ∈ kern w)); [done|]. rewrite bool_decide_false in Hl by done. discriminate Hl.
  - rewrite (k_stream _ _ _ _ Hk), Hq, Ecq. done.
Qed.

Definition waiting_run : list action := [Open; Read 0 5 true; Submit; KErr 0 ENOBUFS; Poll; Resume 0 true; Submit; Arrive 0 [1]%Z].

Lemma uring_reader_not_forgotten_witness : tidy_run waiting_run world_new = true ∧ ∃ w s, run waiting_run world_new = Some (Done w) ∧ socks w !! 0 = Some s ∧ 0 ∈ kern w ∧ sent s = got s ++ inbox s.
Proof.
  assert (Hp : tidy_run waiting_run world_new = true) by (vm_compute; reflexivity).
  assert (E : ∃ s, match run waiting_run world_new with Some (Done w) => match sq w, cq w with [], [] => socks w !! 0 | _, _ => None end | _ => None end = Some s ∧ rd s = Waiting 5) by (vm_compute; eexists; split; reflexivity).
  destruct E as (s & E & Er). destruct (run waiting_run world_new) as [[w| |]|] eqn:Hr; [|discriminate E..]. destruct (sq w) as [|] eqn:Esq; [|discriminate E]. destruct (cq w) as [|] eqn:Ecq; [|discriminate E].
  destruct (uring_reader_not_forgotten waiting_run w 0 5 s Hp Hr E Er) as (_ & _ & H). split; [exact Hp|]. exists w, s. split; [reflexivity|]. split; [exact E|]. exact (H Esq Ecq).
Defined.

(** ** What is not covered *)

(** The first read into a buffer takes bytes from the kernel although earlier ones are queued. *)
Theorem direct_read_overtakes : ∃ s, match run [Open; Arrive 0 [1; 2; 3]%Z; Read 0 1 true; Submit; KData 0 1 true; Poll; Resume 0 true; KData 0 1 true; ReadBuffer 0 8 true (RBytes 1); Poll; Read 0 8 true] world_new with
  Some (Done w) => socks w !! 0 | _ => None end = Some s ∧ sent s = [1; 2; 3]%Z ∧ got s = [1; 3; 2]%Z.
Proof. vm_compute. eexists. split; [reflexivity|split; reflexivity]. Qed.

(** A socket that has waited for bytes once is never deleted: its request has a reference that
    nobody gives back. *)
Theorem waited_socket_leaks (l : list action) (w : world) (i : nat) (s : sock) : tidy_run l world_new = true → run l world_new = Some (Done w) →
  socks w !! i = Some s → arms s ≠ 0 → alive s = true ∧ refs s = handles s + arms s.
Proof.
  intros Hp Hr Hs Ha. destruct (uring_run _ _ _ uring_inv_new Hp Hr) as (w' & [= <-] & Hi). pose proof (i_sock _ Hi i s Hs) as Hk.
  assert (Hal : alive s = true) by (destruct (alive s) eqn:E; [done|]; by destruct (k_dead _ _ _ _ Hk E)). split; [done|]. by apply (k_refs _ _ _ _ Hk).
Qed.

(** When the kernel does not take the entries of a full ring, the reader waits without a
    request. *)
Theorem refused_submission_hangs : ∃ s, match run (Open :: replicate ring_entries (Cancel 0 true) ++ [Read 0 1 false; Submit; Arrive 0 [1]%Z]) world_new with
  Some (Done w) => if decide (0 ∈ kern w) then None else socks w !! 0 | _ => None end = Some s ∧ rd s = Waiting 1 ∧ inbox s = [1]%Z.
Proof. vm_compute. eexists. split; [reflexivity|split; reflexivity]. Qed.
End UringRecvCorrect.
